(* ===== verification/_CoqProject ===== *)
-Q . S2P
Prelude.v
Words.v
Order.v
Limbs.v
BigUint.v
BigUintBits.v
BigUintMul.v
BigUintBarrett.v
BigUintBytes.v
BigUintRadix.v
BigInt.v
BigNumTheorems.v
Hex.v
Base64.v
ConstEq.v
Poly1305.v
ChaCha.v
ChaChaPoly.v
Semver.v
Utf8.v
PercentEncoding.v
FormUrlencoded.v
Memchr.v
CsvReader.v
CsvSpec.v
CsvWriter.v
Civil.v
Posix.v
Tzif.v
TimeZone.v
DateTime.v
TzIndex.v
TimeFormat.v
TimeParse.v
TimeParseSafe.v
TimeParseText.v
TimeParseTheorems.v
CronUnits.v
CronNextQuery.v
CronPrevQuery.v
CronSchedule.v
CronSearch.v
CronLevels.v
CronTheorems.v
Hasher.v
Sha2.v
Sha256.v
Sha512.v
Sha2Theorems.v
Hmac.v
Kdf.v
KdfVectors.v
Keccak.v
Sponge.v
Sha3.v
Sha3Theorems.v
Factorization.v
Memmem.v
Singleflight.v
HashTable.v
IndexMapCore.v
IndexMapInv.v
IndexMapOps.v
IndexMapEdit.v
IndexMap.v
IndexMapSpec.v
IndexMapRep.v
IndexMapTheorems.v
IndexMapExtract.v
IndexSet.v
