(* ===== verification/Prelude.v ===== *)
(** * stdx: verification of the extended standard library

    stdx is a workspace of small Rust crates meant to stand beside the standard
    library.  This development models the crates that carry its own pure logic:
    fixed-width big integers, the text codecs, authenticated encryption with
    ChaCha20 and Poly1305, the SHA-2 and SHA-3 hashes and what is derived from
    them, semantic versions, URL encodings, substring search, CSV, calendar time
    with its time zone formats and cron schedules, insertion-ordered maps and
    sets, and the coalescing of concurrent calls.  It is a shallow embedding: a Rust function is a Rocq
    function of the same name, as executable as the original.

    ** Conventions

    - A computation that may panic (an index out of range, a failed assertion,
      an arithmetic overflow with overflow checks on, an [unwrap] of nothing)
      has type [option T]; [None] is the panic.  [Result] is the type [result],
      so a fallible function that may also panic has type
      [option (result T E)].  [wp m Q] says that [m] returns, with a value
      that satisfies [Q]: every theorem stated with [wp], or with
      [= Some _], excludes panics.
    - Fixed-width integers are [Z]; wrapping operations and casts are written
      out ([u64], [i32], ... of Words).  Bytes, limbs and characters are [Z] in
      their range, and the predicates [byte], [word], [bytes], [words] say so.
    - A mutable array is a list threaded through the calls; writing one element
      is a checked update that fails out of range.
    - A loop with a counter is [for_loop]; a [while] loop is [while_loop fuel]
      and answers [None] when the fuel is used up, so a theorem that gives
      [Some] also proves that the loop ends.  The fuel is one more than the
      number of iterations the counter allows: [LIMBS + 1] for the limb loops,
      one more than the length of the input for the codecs and the iterators
      (each step consumes at least one byte).  Decimal printing of a 64-bit
      number has fuel for twenty digits.  The CSV reader has [2 * length + 5]
      turns for a row (every two turns consume a byte or finish a field) and
      [length + 2] rows.

    ** Parts and files

    - Prelude (this file): outcomes, [wp] and its tactics, loops, lists.
      Words: machine words, masks, byte order.  Limbs: [eval], the number of a
      list of base-[2^64] limbs, and how a loop that writes one limb changes it
      (hint database [limbs]).
    - src/big_number/big_number.rs.  BigUint: [Uint<BITS, LIMBS>] with the
      const parameters as the class [Dims], carry chains, constant-time
      operations, modular addition, operands of one and two words.
      BigUintBits: bits and bit-serial division.  BigUintMul: products,
      shift-and-subtract reduction, [modpow], and the class [ModMul], what
      square-and-multiply needs of a modular multiplication; the bit-serial and
      the Barrett multiplication are its two instances, so both
      exponentiations rest on one proof.  BigUintBarrett: the Barrett
      reciprocal, reduction, multiplication and exponentiation.  BigUintBytes,
      BigUintRadix: conversions.  BigInt: the operators and the signed [Int].
      BigNumTheorems: the properties and their concrete instances.
    - Hex (src/hex/hex.rs) and Base64 (src/base64/base64.rs): the portable
      constant-time codecs.
    - Poly1305 (src/crypto/src/poly1305.rs).  ConstEq
      (src/constant_time_eq/src/generic.rs).  ChaCha
      (src/crypto/src/chacha/chacha.rs and hchacha20.rs): the stream cipher by
      index as in the source, and the RFC's cipher by rows that it is proved
      equal to.  ChaChaPoly (src/crypto/src/chacha/chacha20_poly1305.rs and the
      trait [Aead] of crypto.rs): [AeadLaws] is the contract of the trait, from
      which the provided methods are proved; both constructions discharge it
      with the lemmas of the three files before.
    - Hasher (src/crypto/src/bytes.rs and the trait [Hasher] of crypto.rs):
      digests, and [HasherLaws], the contract of the trait: a hasher stands for
      the message it has absorbed.  [HmacFits] is what [Hmac] needs of the
      sizes besides; Shake128 is lawful and does not fit.  Sha2, Sha256, Sha512 (src/crypto/src/sha2):
      the code the three members share, and the two block functions;
      Sha2Theorems: they are FIPS 180-4, which makes the members instances of
      [HasherLaws].  Hmac (src/crypto/src/hmac.rs) and Kdf (hkdf.rs, pbkdf2.rs)
      are proved against both; KdfVectors has them at SHA-256.
    - src/crypto/src/sha3.  Keccak: the permutation on lanes and the steps of
      FIPS 202 on bits.  Sponge: the struct [KeccakSponge] and the sponge
      construction.  Sha3: the hashers, which are instances of [HasherLaws],
      and the trait [Xof] with its contract [XofLaws]; cSHAKE and KMAC.
      Sha3Theorems: the encodings of SP 800-185, KMAC over the contract, and
      the properties.
    - Semver (src/semver/semver.rs).
    - Utf8: the two standard-library functions on UTF-8 that the next two
      crates call.  PercentEncoding (src/percent_encoding/ascii_set.rs and
      percent_encoding.rs).  FormUrlencoded
      (src/form_urlencoded/form_urlencoded.rs), on top of it, with the trait
      [Target] as a class.
    - Factorization: periods of words, maximal suffixes and the critical
      factorization theorem, and Memmem (src/memmem/src/two_way.rs), the
      two-way search that rests on it.
    - Singleflight (src/singleflight/singleflight.rs): the shared map and
      entries with one place per caller; an event is one atomic action, so a
      schedule is a list of events and every interleaving is one.  [Notify] is
      what tokio's notifications promise.  Callers may be dropped at any await.
    - src/indexmap/src.  HashTable: the table of another crate as a class with
      the laws of its documentation, and a table that satisfies them; a request
      for room panics above a limit, the parameter [most] of the laws.
      IndexMapCore (inner.rs, util.rs): the table of indices and the list of
      entries.  IndexMapInv: the invariant, that the table holds the hash and
      the position of every entry and nothing else, and the loops that shift
      positions.  IndexMapOps, IndexMapEdit: each operation of the core as one
      on the entries.  IndexMap (map.rs, map/entry.rs, inner/entry.rs): the map
      and its entries over the classes [Keys] and [Queries], with what [Eq],
      [Hash] and [Equivalent] promise, and over [SliceSort], the stable sort of
      the standard library, which fixes no order for a comparison that is not
      total.  IndexMapSpec: the ordered list of pairs
      that a map stands for, with one constructor of [op] for each kind of
      call; IndexMapRep and IndexMapTheorems: the map refines it.
      IndexMapExtract (inner/extract.rs): extraction through raw pointers, on
      places that may have been moved out of.  IndexSet (set.rs, set/iter.rs).
    - Memchr: the byte search the CSV crate calls in another crate, as a class
      with its law.  CsvReader (src/csv/reader.rs, error.rs), over the class
      [Read], the trait of the source of bytes.  CsvSpec: the grammar, one byte
      at a time, and the proof that the reader, which works on a sliding
      buffer, parses it.  CsvWriter (src/csv/writer.rs), over the class [Write].
    - Civil (src/time/civil.rs).  Posix (src/time/posix.rs): [TZ] strings and
      their rules.  Tzif (src/time/tzif.rs): compiled time zone images.
      TimeZone (src/time/error.rs, timezone.rs and the lookups of tzdb.rs),
      over all three kinds of zone data.  DateTime
      (src/time/datetime.rs).  [TzData] stands for the generated abbreviation
      table.  [CivilZone] is what [DateTime] needs of a zone: its offsets are
      defined and small, and resolving a civil time returns; UTC, fixed
      offsets and well-formed embedded zones satisfy it.  Sums of [i64] are
      checked ([i64_checked]) where an instant of the type's ends could
      overflow them; [instant_ok] and [local_ok] are the ranges, of about two
      thousand million years, in which none does.
    - Order: comparisons that are total orders ([TotalCmp]) and the binary
      search of the standard library, for Semver and for the zone table.
      TzIndex (src/time/tzdb.rs and timezone.rs): zones by name; the generated
      table is [TzNames], its order [TzNamesLaws].  TimeFormat
      (src/time/format.rs): the stack buffer and the [fmt] machinery.
      TimeParse (src/time/parse.rs): the parsers; TimeParseSafe: they always
      return; TimeParseText: each format read back; TimeParseTheorems: the
      properties.  [CivilNames] says that every zone of the table satisfies
      [CivilZone].
    - src/cron/src.  CronUnits: ordinals, specifiers, the trait
      [TimeUnitField] as a class with its seven instances and their laws
      ([TimeUnitLaws]), list fields.  CronNextQuery, CronPrevQuery: the two
      queries.  CronSchedule: the six nested loops in both directions and the
      iterators.  CronSearch: the pattern of the loops, proved once for both
      directions; CronLevels: the ten instances of it; CronTheorems: the
      firings of a schedule as instants, and the properties.

    ** What the theorems show

    A claim is a theorem whose comment begins with its number.

    - Big integers: modular multiplication and exponentiation by Barrett
      reduction, against arithmetic and against the reference routine (C1,
      C2); division (C29); the operators of [Uint] keep the low bits at widths
      that fill the limbs, those of [Int] are two's complement (C33); radix
      conversions with their errors and round trips (C28).
    - Cryptography: the limb arithmetic of Poly1305 and its streaming
      interface compute the RFC 8439 tag; the ChaCha stream, however it is
      fed, with its counter limit; the comparison without early exit; SHA-2,
      however it is fed, is FIPS 180-4 (C8), and SHA-3 with its extendable
      outputs FIPS 202 (C9), KMAC SP 800-185 (C11); over any lawful hash whose
      sizes fit HMAC is RFC 2104 (C10), HKDF and PBKDF2 are RFC 5869 and RFC
      2898 with their errors (C12); decryption inverts encryption and rejects
      everything else for any lawful construction (C5), and the two
      constructions are the standard's (C3).
    - CSV: the reader refines the grammar for every way the source cuts its
      bytes (C6), the writer branch by branch, and the round trip (C7).
    - Text: two-way search finds the first occurrence (C4); semantic versions
      parse exactly what they print, and their order (C26); base64 decoding
      with its errors (C27); forms over percent-encoding.
    - Calendar and zones: day numbers and dates are inverse, for years of
      [i32] (C37); the rules of [TZ] strings; reading an image is safe and its
      queries are right, for the instants and footers stated (C34, C35); civil
      times in a zone with transitions, before the last of them (C25);
      [DateTime] from civil fields, durations, calendar arithmetic (C24, C36).
    - Texts of times: both paths of [Display] print the same text, and the
      buffer gets it when it has room and the year has at most four digits
      (C32); the parsers return on every input (C23); what is printed in any
      of the seven formats, and by [Display], is parsed back (C21, C22); the
      strict formats accept exactly their grammar (C30); fields become an
      instant, or the error that says why not (C31).
    - Schedules: the list fields of a cron expression (C40); the nearest
      firings around a time, by the nested search over the units (C38); the
      iterator returns every firing in order, from an aligned start (C39).
    - Concurrency: for every interleaving of callers of a singleflight group,
      shared results are results of another caller of the key (C18), no wake-
      up is lost and all calls return (C19), and on one thread one call per
      key is in flight (C20).
    - Containers: any sequence of calls on an index map, the room they ask for
      being granted, is one on an ordered list of pairs, whatever the hashes
      (C13), with its lookups (C16) and its equality, also with a map of
      another hasher (C15); extraction through raw pointers never touches a
      place that was moved out of (C14); the set operations, in order (C17),
      and the set comparisons.

    Theorems without a number record what the claims leave out or rely on, and
    where the code does something else than its documentation says: a Barrett
    modulus that is a power of the limb base, a base wider than the modulus,
    [MINUS_ONE] and products at a width that is not a multiple of 64, missing
    base64 pads, an HKDF key longer than a digest, an HMAC over blocks that do
    not fit, CSV rows that do not survive, day counts that [add_days] does not
    reject, two images that the TZif reader accepts and cannot serve, texts of
    times that are printed and not read, years of five digits that no buffer
    holds, cron searches that start outside the years of the schedule or at a
    firing.

    ** Bounds

    [Dims] ties [LIMBS] to [BITS] as the crate's own compile-time check does;
    the hypothesis [LIMBS + 1 <= MAX_LIMBS] is a compile-time assertion of the
    code, [LIMBS * 2 <= MAX_LIMBS] one that it makes at run time, when it computes
    a wide product.  Input lengths of base64 are below
    [2^63] (a Rust allocation never exceeds it), and below [2^61] where the
    encoded length must also fit.  Calendar theorems hold for every year
    strictly inside [i32] ([year_ok], [days_ok]), and those on instants and
    wall-clock times within [instant_ok] and [local_ok], far beyond the years
    [DateTime] admits.
    The ChaCha counter has the source's own limit ([2^32 - 1] blocks in the IETF
    layout).  Images of time zones are shorter than [2^63] bytes.
    Zone theorems ask for transitions further apart than four offset limits,
    and speak of times that the explicit transitions decide, not of those
    after the last one, which a recurring rule decides.  The loops of the time
    parser have one more turn than bytes are left.  Round trips of times ask
    for offsets of less than a day, the limit of the texts.

    ** Not modelled

    The SIMD kernels (the dispatchers are modelled as compiled without those
    features); [serde] glue; the [std::io] adapters of the CSV crate; the system
    time zone and the clock, and the monotonic reading of the [std] feature; a
    [fmt::Formatter] that fails; zeroization of dead locals; the timing side of
    constant-time code; the capacity of vectors (but for requests of room that
    overflow) and running out of memory; the line numbers of CSV rows are in the
    model but in no theorem; sorted insertion, raw entries, slices and mutable
    keys of index maps; the grammar of cron expressions, written with the
    combinators of another crate; the other cryptographic primitives; and the
    crates that are system or network interfaces, derive macros, generated tables
    or ports of external libraries.  Left for later: base32, ipnetwork, uuid,
    html_escape, crc32. *)
From Stdlib Require Import ZArith Lia.
From Stdlib Require Ascii String.
From stdpp Require Import base list numbers option.

#[global] Open Scope Z_scope.

(** ** Outcomes

    A Rust computation that may panic (index out of bounds, failed [assert!],
    [unwrap] of an error) is an [option]: [None] is the panic, [Some] the
    normal return.  [Result] values are ordinary data of type [result]. *)

Inductive result (T E : Type) : Type :=
| Ok (v : T)
| Err (e : E).
Arguments Ok {T E} v.
Arguments Err {T E} e.

(** The [?] operator: continue with the value, return the error. *)
Definition rbind {T U E} (m : result T E) (k : T -> result U E) : result U E :=
  match m with Ok v => k v | Err e => Err e end.

Declare Scope result_scope.
Delimit Scope result_scope with result.
Notation "'let?' x := m 'in' k" := (rbind m (fun x => k))
  (at level 10, x pattern, m at level 100, k at level 200) : result_scope.
#[global] Open Scope result_scope.

Lemma rbind_ok {T U E} (m : result T E) (k : T -> result U E) u :
  rbind m k = Ok u <-> exists v, m = Ok v /\ k v = Ok u.
Proof.
  destruct m as [v|e]; simpl; split; [by exists v|by intros (? & [= ->] & ?)|done|by intros (? & ? & ?)].
Qed.

(** [iter().position(p)]. *)
Fixpoint position {A} (p : A -> bool) (l : list A) : option nat :=
  match l with
  | [] => None
  | x :: l' => if p x then Some 0%nat else S <$> position p l'
  end.

(** ** Splitting at a separator

    [s.split(c)] on strings and byte slices, and its inverse. *)
Fixpoint split_on (c : Z) (s : list Z) : list (list Z) :=
  match s with
  | [] => [[]]
  | x :: t =>
      if x =? c then [] :: split_on c t
      else match split_on c t with p :: ps => (x :: p) :: ps | [] => [[x]] end
  end.

Fixpoint join_with (c : Z) (parts : list (list Z)) : list Z :=
  match parts with
  | [] => []
  | [p] => p
  | p :: ps => p ++ c :: join_with c ps
  end.

Definition avoids (c : Z) (s : list Z) : Prop := Forall (fun x => x <> c) s.

Lemma split_on_nonempty c s : split_on c s <> [].
Proof. destruct s as [|x s]; simpl; [done|]. destruct (x =? c); [done|]. by destruct (split_on c s). Qed.

Lemma split_join c s : join_with c (split_on c s) = s /\ Forall (avoids c) (split_on c s).
Proof.
  induction s as [|x s [IH1 IH2]]; simpl; [split; [done|repeat constructor]|].
  pose proof (split_on_nonempty c s). destruct (split_on c s) as [|p ps]; [done|].
  destruct (Z.eqb_spec x c) as [->|Hc].
  - simpl in *. rewrite IH1. split; [done|]. by constructor; [constructor|].
  - inversion_clear IH2 as [|? ? Hp Hps]. split; [|by constructor; [constructor|]].
    rewrite <- IH1. by destruct ps.
Qed.

Lemma split_on_avoids c p : avoids c p -> split_on c p = [p].
Proof. induction 1 as [|x p Hx Hp IH]; simpl; [done|]. apply Z.eqb_neq in Hx. by rewrite Hx, IH. Qed.

Lemma split_on_app c p s : avoids c p -> split_on c (p ++ c :: s) = p :: split_on c s.
Proof.
  induction 1 as [|x p Hx Hp IH]; simpl; [by rewrite Z.eqb_refl|]. apply Z.eqb_neq in Hx. by rewrite Hx, IH.
Qed.

Lemma join_split c ps : ps <> [] -> Forall (avoids c) ps -> split_on c (join_with c ps) = ps.
Proof.
  intros Hne H. induction H as [|p ps Hp Hps IH]; [done|]. destruct ps as [|q ps]; [by apply split_on_avoids|].
  cbn [join_with]. rewrite split_on_app by done. f_equal. by apply IH.
Qed.

(** [assert!(b)]. *)
Definition rassert (b : bool) : option unit := if b then Some tt else None.

(** [l[i] = x] on an array or slice: panics when [i] is out of range. *)
Definition upd {A} (l : list A) (i : nat) (x : A) : option (list A) :=
  if decide (i < length l)%nat then Some (<[i:=x]> l) else None.

(** [&l[lo..hi]]: panics unless [lo <= hi <= len]. *)
Definition slice {A} (l : list A) (lo hi : nat) : option (list A) :=
  if decide (lo <= hi /\ hi <= length l)%nat
  then Some (take (hi - lo) (drop lo l)) else None.

(** [dst[lo..lo + src.len()].copy_from_slice(src)]. *)
Definition copy_at {A} (dst : list A) (lo : nat) (src : list A) : option (list A) :=
  if decide (lo + length src <= length dst)%nat
  then Some (take lo dst ++ src ++ drop (lo + length src) dst) else None.

(** [for i in lo..lo+n], the loop state passed explicitly. *)
Fixpoint for_from {St} (n i : nat) (body : nat -> St -> option St) (s : St)
  : option St :=
  match n with
  | O => Some s
  | S n' => body i s ≫= for_from n' (S i) body
  end.

(** [for i in lo..hi], also [while i < hi { ...; i += 1 }] from [lo]. *)
Definition for_loop {St} (lo hi : nat) (body : nat -> St -> option St) (s : St)
  : option St := for_from (hi - lo) lo body s.

(** [for i in (0..n).rev()], also [while i > 0 { i -= 1; ... }] from [n]. *)
Fixpoint for_down {St} (n : nat) (body : nat -> St -> option St) (s : St)
  : option St :=
  match n with
  | O => Some s
  | S n' => body n' s ≫= for_down n' body
  end.

(** [while cond { body }], with fuel; running out of fuel is [None], so a
    theorem that the loop returns [Some] is also a termination proof. *)
Fixpoint while_loop {St} (fuel : nat) (cond : St -> bool)
    (body : St -> option St) (s : St) : option St :=
  match fuel with
  | O => None
  | S fuel' =>
      if cond s then body s ≫= while_loop fuel' cond body else Some s
  end.

(** The same, for a loop condition that is itself a computation. *)
Fixpoint while_m {St} (fuel : nat) (cond : St -> option bool)
    (body : St -> option St) (s : St) : option St :=
  match fuel with
  | O => None
  | S fuel' =>
      c ← cond s;
      if (c : bool) then body s ≫= while_m fuel' cond body else Some s
  end.

(** A step that returned: by rewriting, where evaluating the rest would be
    expensive. *)
Lemma some_bind {A B} (x : A) (f : A -> option B) : Some x ≫= f = f x.
Proof. done. Qed.

(** ** Total-correctness weakest preconditions

    [wp m Q]: [m] does not panic, does not run out of fuel, and its value
    satisfies [Q]. *)

Definition wp {A} (m : option A) (Q : A -> Prop) : Prop :=
  match m with Some a => Q a | None => False end.

Lemma wp_ret {A} (a : A) (Q : A -> Prop) : Q a -> wp (Some a) Q.
Proof. done. Qed.

Lemma wp_bind {A B} (m : option A) (k : A -> option B) (Q : B -> Prop) :
  wp m (fun a => wp (k a) Q) -> wp (m ≫= k) Q.
Proof. by destruct m. Qed.

Lemma wp_mono {A} (m : option A) (P Q : A -> Prop) :
  wp m P -> (forall a, P a -> Q a) -> wp m Q.
Proof. destruct m; simpl; auto. Qed.

Lemma wp_some {A} (m : option A) (Q : A -> Prop) :
  wp m Q <-> exists a, m = Some a /\ Q a.
Proof.
  destruct m as [a|]; simpl; split; [by exists a| |done|].
  - by intros (? & [= <-] & ?).
  - by intros (? & ? & ?).
Qed.

Lemma wp_elim {A} (m : option A) (Q : A -> Prop) :
  wp m Q -> exists a, m = Some a /\ Q a.
Proof. apply wp_some. Qed.

Lemma wp_eq {A} (m : option A) (a : A) : wp m (fun x => x = a) -> m = Some a.
Proof. destruct m; simpl; [by intros ->|done]. Qed.

Lemma wp_assert (b : bool) (Q : unit -> Prop) :
  b = true -> Q tt -> wp (rassert b) Q.
Proof. by intros ->. Qed.

Lemma wp_get {A} (l : list A) (i : nat) (Q : A -> Prop) :
  (i < length l)%nat -> (forall x, l !! i = Some x -> Q x) -> wp (l !! i) Q.
Proof. intros [x Hx]%lookup_lt_is_Some H. rewrite Hx. by apply H. Qed.

Lemma wp_upd {A} (l : list A) (i : nat) (x : A) (Q : list A -> Prop) :
  (i < length l)%nat -> Q (<[i:=x]> l) -> wp (upd l i x) Q.
Proof. intros Hi H. unfold upd. by rewrite decide_True by done. Qed.

Lemma wp_slice {A} (l : list A) (lo hi : nat) (Q : list A -> Prop) :
  (lo <= hi)%nat -> (hi <= length l)%nat ->
  Q (take (hi - lo) (drop lo l)) -> wp (slice l lo hi) Q.
Proof. intros ?? H. unfold slice. by rewrite decide_True by done. Qed.

Lemma wp_copy_at {A} (dst : list A) lo (src : list A) (Q : list A -> Prop) :
  (lo + length src <= length dst)%nat ->
  Q (take lo dst ++ src ++ drop (lo + length src) dst) ->
  wp (copy_at dst lo src) Q.
Proof. intros ? H. unfold copy_at. by rewrite decide_True by done. Qed.

Lemma wp_for_from {St} (Inv : nat -> St -> Prop) (body : nat -> St -> option St)
    (n i : nat) (s : St) :
  (forall j t, (i <= j < i + n)%nat -> Inv j t -> wp (body j t) (Inv (S j))) ->
  Inv i s -> wp (for_from n i body s) (Inv (i + n)%nat).
Proof.
  revert i s. induction n as [|n IH]; intros i s Hb Hi; simpl.
  - by rewrite Nat.add_0_r.
  - apply wp_bind. eapply wp_mono; [apply Hb; [lia | done]|].
    intros t Ht. replace (i + S n)%nat with (S i + n)%nat by lia.
    apply IH; [|done]. intros j t' Hj. apply Hb. lia.
Qed.

Lemma wp_for {St} (Inv : nat -> St -> Prop) (body : nat -> St -> option St)
    (lo hi : nat) (s : St) (Q : St -> Prop) :
  (lo <= hi)%nat -> Inv lo s ->
  (forall j t, (lo <= j < hi)%nat -> Inv j t -> wp (body j t) (Inv (S j))) ->
  (forall t, Inv hi t -> Q t) ->
  wp (for_loop lo hi body s) Q.
Proof.
  intros Hle Hi Hb HQ. unfold for_loop.
  eapply wp_mono; [apply (wp_for_from Inv)|]; [|done|].
  - intros j t Hj. apply Hb. lia.
  - intros t Ht. apply HQ. by replace hi with (lo + (hi - lo))%nat by lia.
Qed.

Lemma wp_for_down {St} (Inv : nat -> St -> Prop) (body : nat -> St -> option St)
    (n : nat) (s : St) (Q : St -> Prop) :
  Inv n s ->
  (forall j t, (j < n)%nat -> Inv (S j) t -> wp (body j t) (Inv j)) ->
  (forall t, Inv 0%nat t -> Q t) ->
  wp (for_down n body s) Q.
Proof.
  intros Hi Hb HQ. revert s Hi.
  induction n as [|n IH]; intros s Hi; simpl; [by apply HQ|].
  apply wp_bind. eapply wp_mono; [apply Hb; [lia|done]|].
  intros t Ht. apply IH; [|done]. intros j t' Hj. apply Hb. lia.
Qed.

(** [mea] bounds the number of remaining iterations. *)
Lemma wp_while {St} (Inv : St -> Prop) (mea : St -> nat) (cond : St -> bool)
    (body : St -> option St) (fuel : nat) (s : St) (Q : St -> Prop) :
  Inv s -> (mea s < fuel)%nat ->
  (forall t, Inv t -> cond t = true ->
     wp (body t) (fun t' => Inv t' /\ (mea t' < mea t)%nat)) ->
  (forall t, Inv t -> cond t = false -> Q t) ->
  wp (while_loop fuel cond body s) Q.
Proof.
  intros Hi Hm Hb HQ. revert s Hi Hm.
  induction fuel as [|fuel IH]; intros s Hi Hm; [lia|]; simpl.
  destruct (cond s) eqn:Hc; [|by apply HQ].
  apply wp_bind. eapply wp_mono; [by apply Hb|].
  intros t [Ht Hlt]. apply IH; [done|lia].
Qed.

Lemma wp_while_m {St} (Inv : St -> Prop) (mea : St -> nat) (cond : St -> option bool)
    (body : St -> option St) (fuel : nat) (s : St) (Q : St -> Prop) :
  Inv s -> (mea s < fuel)%nat ->
  (forall t, Inv t -> wp (cond t) (fun c =>
     if (c : bool) then wp (body t) (fun t' => Inv t' /\ (mea t' < mea t)%nat) else Q t)) ->
  wp (while_m fuel cond body s) Q.
Proof.
  intros Hi Hm Hb. revert s Hi Hm.
  induction fuel as [|fuel IH]; intros s Hi Hm; [lia|]; simpl.
  apply wp_bind. eapply wp_mono; [by apply Hb|]. intros [] Hc; [|done].
  apply wp_bind. eapply wp_mono; [exact Hc|].
  intros t [Ht Hlt]. apply IH; [done|lia].
Qed.

(** ** Automation for [wp] goals *)

(** One step; side conditions that [lia] or the context settle are closed. *)
Ltac wp_side := try solve [done | lia | simpl; lia].

Ltac wp_step :=
  lazymatch goal with
  | |- wp (mbind _ _) _ => apply wp_bind
  | |- wp (Some _) _ => apply wp_ret
  | |- wp (mret _) _ => apply wp_ret
  | |- wp (rassert _) _ => apply wp_assert; [wp_side|]
  | |- wp (lookup _ _) _ => apply wp_get; [wp_side|let H := fresh "Hget" in intros ? H]
  | |- wp (upd _ _ _) _ => apply wp_upd; [wp_side|]
  | |- wp (slice _ _ _) _ => apply wp_slice; [wp_side|wp_side|]
  | |- wp (copy_at _ _ _) _ => apply wp_copy_at; [wp_side|]
  end; cbn beta iota.

Ltac wp_steps := repeat wp_step.

(** A run of [assert!]s on index bounds. *)
Ltac wp_asserts :=
  repeat (apply wp_bind, wp_assert;
    [repeat (apply andb_true_iff; split); first [apply Nat.leb_le; lia | apply Z.leb_le; lia]|]).

(** Case split on the test of a conditional. *)
Ltac wp_if :=
  lazymatch goal with
  | |- wp (if ?b then _ else _) _ => destruct b eqn:?
  end; cbn beta iota.

(** Turn boolean comparisons in the context into propositions. *)
Ltac bool_hyps :=
  repeat match goal with
  | H : andb _ _ = true |- _ => apply andb_prop in H; destruct H
  | H : orb _ _ = false |- _ => apply orb_false_elim in H; destruct H
  | H : negb _ = true |- _ => apply negb_true_iff in H
  | H : negb _ = false |- _ => apply negb_false_iff in H
  | H : (_ =? _)%Z = true |- _ => apply Z.eqb_eq in H
  | H : (_ =? _)%Z = false |- _ => apply Z.eqb_neq in H
  | H : (_ <? _)%Z = true |- _ => apply Z.ltb_lt in H
  | H : (_ <? _)%Z = false |- _ => apply Z.ltb_ge in H
  | H : (_ <=? _)%Z = true |- _ => apply Z.leb_le in H
  | H : (_ <=? _)%Z = false |- _ => apply Z.leb_gt in H
  | H : (_ =? _)%nat = true |- _ => apply Nat.eqb_eq in H
  | H : (_ =? _)%nat = false |- _ => apply Nat.eqb_neq in H
  | H : (_ <? _)%nat = true |- _ => apply Nat.ltb_lt in H
  | H : (_ <? _)%nat = false |- _ => apply Nat.ltb_ge in H
  | H : (_ <=? _)%nat = true |- _ => apply Nat.leb_le in H
  | H : (_ <=? _)%nat = false |- _ => apply Nat.leb_gt in H
  end.

(** ** ASCII text

    Strings are lists of bytes. *)

Definition is_ascii_digit (c : Z) : bool := (48 <=? c) && (c <=? 57).
Definition is_ascii_alphabetic (c : Z) : bool := ((65 <=? c) && (c <=? 90)) || ((97 <=? c) && (c <=? 122)).

(** The value of a run of decimal digits after [acc]. *)
Fixpoint dec_value (acc : Z) (s : list Z) : Z :=
  match s with [] => acc | c :: t => dec_value (acc * 10 + (c - 48)) t end.

(** [s.strip_prefix(c)]. *)
Definition strip_prefix (c : Z) (s : list Z) : option (list Z) :=
  match s with x :: t => if x =? c then Some t else None | [] => None end.

Lemma dec_value_snoc acc s c : dec_value acc (s ++ [c]) = dec_value acc s * 10 + (c - 48).
Proof. revert acc. induction s as [|x s IH]; intros acc; simpl; auto. Qed.

Lemma dec_value_ge s acc : Forall (fun c => is_ascii_digit c = true) s -> 0 <= acc -> acc <= dec_value acc s.
Proof.
  intros H. revert acc. induction H as [|c s Hc Hs IH]; intros acc Ha; simpl; [lia|].
  unfold is_ascii_digit in Hc. bool_hyps. etrans; [|apply IH; lia]. lia.
Qed.

Lemma strip_prefix_some c s r : strip_prefix c s = Some r <-> s = c :: r.
Proof.
  destruct s as [|x s]; simpl; [done|]. destruct (Z.eqb_spec x c) as [->|]; split; congruence.
Qed.

(** The decimal digits of a [u64], at most twenty. *)
Fixpoint show_dec_aux (fuel : nat) (n : Z) : list Z :=
  match fuel with
  | O => []
  | S fuel' => if n <? 10 then [48 + n] else show_dec_aux fuel' (n / 10) ++ [48 + n mod 10]
  end.
Definition show_dec (n : Z) : list Z := show_dec_aux 20 n.

Lemma show_fuel n : forall a b, (1 <= a)%nat -> (1 <= b)%nat -> 0 <= n < 10 ^ Z.of_nat a -> n < 10 ^ Z.of_nat b ->
  show_dec_aux a n = show_dec_aux b n.
Proof.
  intros a. revert n. induction a as [|a IH]; intros n b Ha Hb Hn Hn2; [lia|]. destruct b as [|b]; [lia|].
  cbn [show_dec_aux]. destruct (Z.ltb_spec n 10) as [|Hge]; [done|].
  rewrite Nat2Z.inj_succ, Z.pow_succ_r in Hn, Hn2 by lia.
  assert (1 <= a)%nat by (destruct a; [simpl in Hn; lia|lia]).
  assert (1 <= b)%nat by (destruct b; [simpl in Hn2; lia|lia]).
  f_equal. apply IH; [lia|lia|split; [apply Z.div_pos; lia|apply Z.div_lt_upper_bound; lia]|apply Z.div_lt_upper_bound; lia].
Qed.

Lemma show_dec_aux_S a n :
  show_dec_aux (S a) n = if n <? 10 then [48 + n] else show_dec_aux a (n / 10) ++ [48 + n mod 10].
Proof. done. Qed.

Lemma show_dec_eq n : 0 <= n < 2 ^ 64 ->
  show_dec n = if n <? 10 then [48 + n] else show_dec (n / 10) ++ [48 + n mod 10].
Proof.
  intros Hn. unfold show_dec at 1. rewrite (show_dec_aux_S 19). destruct (Z.ltb_spec n 10); [done|].
  unfold show_dec. rewrite (show_fuel (n / 10) 20 19); [done|..];
  [lia|lia|split; [apply Z.div_pos; lia|]|]; apply Z.div_lt_upper_bound; lia.
Qed.

(** The bytes of a string literal. *)
Definition lit (s : String.string) : list Z := (fun c => Z.of_N (Ascii.N_of_ascii c)) <$> String.list_ascii_of_string s.

(** [slice::partition_point] on a slice whose true elements come first. *)
Fixpoint partition_point (p : Z -> bool) (l : list Z) : nat :=
  match l with
  | [] => 0%nat
  | x :: l' => if p x then S (partition_point p l') else 0%nat
  end.

Lemma partition_point_le p l : (partition_point p l <= length l)%nat.
Proof. induction l as [|x l IH]; simpl; [lia|]. destruct (p x); lia. Qed.

Lemma partition_point_low p l i s : (i < partition_point p l)%nat -> l !! i = Some s -> p s = true.
Proof.
  revert i. induction l as [|x l IH]; intros i; simpl; [lia|]. destruct (p x) eqn:E; [|lia].
  destruct i as [|i]; simpl; [by intros _ [= <-]|]. intros Hi. apply IH. lia.
Qed.

Lemma partition_point_at p l s : l !! partition_point p l = Some s -> p s = false.
Proof. induction l as [|x l IH]; simpl; [done|]. destruct (p x) eqn:E; [done|]. by intros [= <-]. Qed.

(** ** Chunks

    [slice::chunks(n)]: pieces of [n] elements, the last one perhaps shorter. *)
Fixpoint chunks_fuel {A} (fuel n : nat) (l : list A) : list (list A) :=
  match fuel, l with
  | S fuel', _ :: _ => take n l :: chunks_fuel fuel' n (drop n l)
  | _, _ => []
  end.
Definition chunks {A} (n : nat) (l : list A) : list (list A) := chunks_fuel (length l) n l.

(** [a.div_ceil(b)]. *)
Definition div_ceil (a b : nat) : nat := ((a + b - 1) / b)%nat.

Lemma chunks_fuel_enough {A} n (l : list A) f1 f2 : (0 < n)%nat -> (length l <= f1)%nat -> (length l <= f2)%nat ->
  chunks_fuel f1 n l = chunks_fuel f2 n l.
Proof.
  intros Hn. revert f2 l. induction f1 as [|f1 IH]; intros [|f2] [|x l] H1 H2; simpl in *; try done; try lia.
  f_equal. apply IH; rewrite length_drop; simpl; lia.
Qed.

Lemma chunks_cons {A} n (l : list A) : (0 < n)%nat -> l <> [] -> chunks n l = take n l :: chunks n (drop n l).
Proof.
  intros Hn Hl. destruct l as [|x l]; [done|]. unfold chunks. cbn [length chunks_fuel]. f_equal.
  apply chunks_fuel_enough; [done| |done]. rewrite length_drop. simpl. lia.
Qed.

Lemma chunks_app {A} n (a b : list A) : (0 < n)%nat -> (length a mod n = 0)%nat -> chunks n (a ++ b) = chunks n a ++ chunks n b.
Proof.
  intros Hn. remember (length a) as la eqn:Hla. revert a Hla. induction la as [la IH] using lt_wf_ind. intros a -> Hmod.
  destruct a as [|x a]; [done|]. set (l := x :: a) in *.
  assert (Hge : (n <= length l)%nat).
  { destruct (Nat.le_gt_cases n (length l)) as [|Hlt]; [done|]. rewrite Nat.mod_small in Hmod by done. by unfold l in Hmod. }
  rewrite (chunks_cons n (l ++ b)), (chunks_cons n l) by (unfold l; done). rewrite take_app_le, drop_app_le by done. simpl. f_equal.
  apply (IH (length (drop n l))); [rewrite length_drop; unfold l in *; simpl in *; lia|done|].
  rewrite length_drop. replace (length l) with (length l - n + 1 * n)%nat in Hmod by lia. rewrite Nat.Div0.mod_add in Hmod. exact Hmod.
Qed.

Lemma chunks_single {A} n (l : list A) : (0 < n)%nat -> length l = n -> chunks n l = [l].
Proof.
  intros Hn Hl. rewrite chunks_cons by (done || (intros ->; simpl in Hl; lia)). by rewrite take_ge, drop_ge by lia.
Qed.

Lemma chunks_whole {A} n (l : list A) : (0 < n)%nat -> (length l mod n = 0)%nat -> Forall (fun c => length c = n) (chunks n l).
Proof.
  intros Hn. remember (length l) as k eqn:Hk. revert l Hk. induction k as [k IH] using lt_wf_ind. intros l -> Hmod.
  destruct l as [|x l]; [constructor|]. set (l' := x :: l) in *.
  assert (Hge : (n <= length l')%nat).
  { destruct (Nat.le_gt_cases n (length l')) as [|Hlt]; [done|]. rewrite Nat.mod_small in Hmod by done. by unfold l' in Hmod. }
  rewrite chunks_cons by (unfold l'; done). constructor; [rewrite length_take; lia|].
  apply (IH (length (drop n l'))); [rewrite length_drop; unfold l' in *; simpl in *; lia|done|].
  rewrite length_drop. replace (length l') with (length l' - n + 1 * n)%nat in Hmod by lia. rewrite Nat.Div0.mod_add in Hmod. exact Hmod.
Qed.

Lemma concat_chunks {A} n (l : list A) : (0 < n)%nat -> concat (chunks n l) = l.
Proof.
  intros Hn. remember (length l) as k eqn:Hk. revert l Hk. induction k as [k IH] using lt_wf_ind. intros l ->.
  destruct l as [|x l]; [done|]. rewrite chunks_cons by done. cbn [concat]. rewrite (IH (length (drop n (x :: l)))); [apply take_drop| |done].
  rewrite length_drop. simpl. lia.
Qed.
