(* ===== verification/Words.v ===== *)
(** * Machine words

    Rust's fixed-width unsigned integers as [Z] with their wrap-around written
    out.  [u64 x] is [x as u64] (and what a wrapping 64-bit operation stores),
    and so on.  Constant-time selection masks, and byte serialisation. *)
From Stdlib Require Import ZArith Lia.
From stdpp Require Import base list numbers option.
From S2P Require Import Prelude.

Definition u8 (x : Z) : Z := x mod 2 ^ 8.
Definition u16 (x : Z) : Z := x mod 2 ^ 16.
Definition u32 (x : Z) : Z := x mod 2 ^ 32.
Definition u64 (x : Z) : Z := x mod 2 ^ 64.
Definition u128 (x : Z) : Z := x mod 2 ^ 128.

(** [x as i8], [as i16], [as i32]: two's complement reinterpretation. *)
Definition i8 (x : Z) : Z := (x + 2 ^ 7) mod 2 ^ 8 - 2 ^ 7.
Definition i16 (x : Z) : Z := (x + 2 ^ 15) mod 2 ^ 16 - 2 ^ 15.
Definition i32 (x : Z) : Z := (x + 2 ^ 31) mod 2 ^ 32 - 2 ^ 31.
Definition i64 (x : Z) : Z := (x + 2 ^ 63) mod 2 ^ 64 - 2 ^ 63.

(** An [i64] or [i32] operation with overflow checks. *)
Definition i64_checked (x : Z) : option Z := if (- 2 ^ 63 <=? x) && (x <? 2 ^ 63) then Some x else None.
Definition i32_checked (x : Z) : option Z := if (- 2 ^ 31 <=? x) && (x <? 2 ^ 31) then Some x else None.

(** [!x] at width [w]. *)
Definition notw (w x : Z) : Z := 2 ^ w - 1 - x.

Definition b2z (b : bool) : Z := if b then 1 else 0.

(** Number of significant bits, and [leading_zeros] of a 64-bit word. *)
Definition bits_of (x : Z) : Z := if x =? 0 then 0 else Z.log2 x + 1.
Definition leading_zeros64 (x : Z) : Z := 64 - bits_of x.

Definition byte (x : Z) : Prop := 0 <= x < 256.
Definition bytes (l : list Z) : Prop := Forall byte l.
Definition word (x : Z) : Prop := 0 <= x < 2 ^ 64.
Definition words (l : list Z) : Prop := Forall word l.

#[export] Instance byte_dec x : Decision (byte x).
Proof. unfold byte. apply _. Defined.
#[export] Instance word_dec x : Decision (word x).
Proof. unfold word. apply _. Defined.

(** [to_le_bytes] / [from_le_bytes] of an [n]-byte integer. *)
Fixpoint to_le (n : nat) (x : Z) : list Z :=
  match n with
  | O => []
  | S n' => x mod 256 :: to_le n' (x / 256)
  end.

Fixpoint from_le (l : list Z) : Z :=
  match l with
  | [] => 0
  | x :: l' => x + 256 * from_le l'
  end.

Definition to_be (n : nat) (x : Z) : list Z := reverse (to_le n x).
Definition from_be (l : list Z) : Z := from_le (reverse l).

Lemma i64_checked_ok x : - 2 ^ 63 <= x < 2 ^ 63 -> i64_checked x = Some x.
Proof. intros H. unfold i64_checked. destruct (Z.leb_spec (- 2 ^ 63) x), (Z.ltb_spec x (2 ^ 63)); (done || lia). Qed.

Lemma i64_checked_over x : ~ (- 2 ^ 63 <= x < 2 ^ 63) -> i64_checked x = None.
Proof. intros H. unfold i64_checked. destruct (Z.leb_spec (- 2 ^ 63) x), (Z.ltb_spec x (2 ^ 63)); (done || lia). Qed.

Lemma i32_checked_ok x : - 2 ^ 31 <= x < 2 ^ 31 -> i32_checked x = Some x.
Proof. intros H. unfold i32_checked. destruct (Z.leb_spec (- 2 ^ 31) x), (Z.ltb_spec x (2 ^ 31)); (done || lia). Qed.

Lemma u64_word x : word (u64 x).
Proof. apply Z.mod_pos_bound. lia. Qed.

Lemma u64_id x : word x -> u64 x = x.
Proof. apply Z.mod_small. Qed.

Lemma u8_byte x : byte (u8 x).
Proof. apply Z.mod_pos_bound. lia. Qed.

Lemma u8_id x : byte x -> u8 x = x.
Proof. apply Z.mod_small. Qed.

Lemma words_lookup l i x : words l -> l !! i = Some x -> word x.
Proof. intros H. by apply Forall_lookup_1. Qed.

Lemma bytes_lookup l i x : bytes l -> l !! i = Some x -> byte x.
Proof. intros H. by apply Forall_lookup_1. Qed.

Lemma words_insert l i x : words l -> word x -> words (<[i:=x]> l).
Proof. intros. by apply Forall_insert. Qed.

Lemma words_zeros n : words (replicate n 0).
Proof. apply Forall_replicate. unfold word. lia. Qed.

Lemma bytes_reverse bs : bytes bs -> bytes (reverse bs).
Proof. intros. by apply Forall_reverse. Qed.

Lemma words_take n l : words l -> words (take n l).
Proof. apply Forall_take. Qed.

Lemma words_drop n l : words l -> words (drop n l).
Proof. apply Forall_drop. Qed.

Create HintDb words.
#[export] Hint Resolve u64_word words_zeros words_take words_drop
  words_insert words_lookup : words.

(** ** Bit-level facts *)

Lemma shiftr_div x n : 0 <= n -> Z.shiftr x n = x / 2 ^ n.
Proof. intros. by apply Z.shiftr_div_pow2. Qed.

Lemma shiftl_mul x n : 0 <= n -> Z.shiftl x n = x * 2 ^ n.
Proof. intros. by apply Z.shiftl_mul_pow2. Qed.

Lemma land_ones x n : 0 <= n -> Z.land x (2 ^ n - 1) = x mod 2 ^ n.
Proof.
  intros. replace (2 ^ n - 1) with (Z.ones n)
    by (rewrite Z.ones_equiv; lia).
  by apply Z.land_ones.
Qed.

(** A disjoint [|] is a sum. *)
Lemma lor_add x y n : 0 <= n -> x mod 2 ^ n = 0 -> 0 <= y < 2 ^ n ->
  Z.lor x y = x + y.
Proof.
  intros Hn Hx Hy.
  assert (Hl : Z.land x y = 0).
  { apply Z.bits_inj'. intros i Hi. rewrite Z.land_spec, Z.bits_0.
    destruct (Z.lt_ge_cases i n) as [Hlt|Hge].
    - apply Z.mod_divide in Hx; [|lia]. destruct Hx as [q ->].
      rewrite <- Z.shiftl_mul_pow2 by lia.
      rewrite Z.shiftl_spec_low by lia. done.
    - destruct (Z.eq_dec y 0) as [->|]; [by rewrite Z.bits_0, andb_false_r|].
      rewrite (Z.bits_above_log2 y i), andb_false_r; [done|lia|].
      assert (Z.log2 y < n); [|lia].
      apply Z.log2_lt_pow2; lia. }
  rewrite Z.add_nocarry_lxor by done.
  symmetry. by apply Z.lxor_lor.
Qed.

Lemma lor_0_iff x y : 0 <= x -> 0 <= y -> Z.lor x y = 0 <-> x = 0 /\ y = 0.
Proof. intros. apply Z.lor_eq_0_iff. Qed.

Lemma lor_nonneg_bound x y n : 0 <= n -> 0 <= x < 2 ^ n -> 0 <= y < 2 ^ n ->
  0 <= Z.lor x y < 2 ^ n.
Proof.
  intros Hn Hx Hy. split; [apply Z.lor_nonneg; lia|].
  rewrite <- (Z.mod_small x (2 ^ n)), <- (Z.mod_small y (2 ^ n)) by done.
  rewrite <- !Z.land_ones, <- Z.land_lor_distr_l, Z.land_ones by done.
  apply Z.mod_pos_bound. lia.
Qed.

Lemma lxor_nonneg_bound x y n : 0 <= n -> 0 <= x < 2 ^ n -> 0 <= y < 2 ^ n ->
  0 <= Z.lxor x y < 2 ^ n.
Proof.
  intros Hn Hx Hy. split; [apply Z.lxor_nonneg; lia|].
  destruct (Z.eq_dec (Z.lxor x y) 0) as [->|Hne]; [lia|].
  assert (0 <= Z.lxor x y) by (apply Z.lxor_nonneg; lia).
  apply Z.log2_lt_pow2; [lia|].
  destruct (Z.eq_dec x 0) as [->|]; [rewrite Z.lxor_0_l in *; apply Z.log2_lt_pow2; lia|].
  destruct (Z.eq_dec y 0) as [->|]; [rewrite Z.lxor_0_r in *; apply Z.log2_lt_pow2; lia|].
  eapply Z.le_lt_trans; [apply Z.log2_lxor; lia|].
  apply Z.max_lub_lt; apply Z.log2_lt_pow2; lia.
Qed.

Lemma bits_of_spec x : 0 <= x ->
  0 <= bits_of x /\ x < 2 ^ bits_of x /\ (0 < x -> 2 ^ (bits_of x - 1) <= x).
Proof.
  intros Hx. unfold bits_of. destruct (Z.eqb_spec x 0) as [->|Hne]; [lia|].
  pose proof (Z.log2_spec x ltac:(lia)) as [H1 H2].
  pose proof (Z.log2_nonneg x).
  rewrite Z.add_simpl_r. unfold Z.succ in H2. lia.
Qed.

Lemma bits_of_le x n : 0 <= x < 2 ^ n -> 0 <= n -> bits_of x <= n.
Proof.
  intros Hx Hn. unfold bits_of. destruct (Z.eqb_spec x 0); [lia|].
  assert (Z.log2 x < n) by (apply Z.log2_lt_pow2; lia). lia.
Qed.

(** ** Byte serialisation *)

Lemma length_to_le n x : length (to_le n x) = n.
Proof. revert x. induction n; intros; simpl; auto. Qed.

Lemma bytes_to_le n x : bytes (to_le n x).
Proof.
  revert x. induction n as [|n IH]; intros; simpl; constructor; [|apply IH].
  apply Z.mod_pos_bound. lia.
Qed.

Lemma from_to_le n x : from_le (to_le n x) = x mod 256 ^ Z.of_nat n.
Proof.
  revert x. induction n as [|n IH]; intros x; simpl from_le.
  - by rewrite Z.mod_1_r.
  - rewrite IH. replace (Z.of_nat (S n)) with (1 + Z.of_nat n) by lia.
    rewrite Z.pow_add_r, Z.pow_1_r by lia.
    rewrite Z.rem_mul_r by lia. lia.
Qed.

Lemma from_le_bound l : bytes l -> 0 <= from_le l < 256 ^ Z.of_nat (length l).
Proof.
  induction 1 as [|x l Hx Hl IH]; simpl length; simpl from_le; [lia|].
  replace (Z.of_nat (S (length l))) with (1 + Z.of_nat (length l)) by lia.
  rewrite Z.pow_add_r, Z.pow_1_r by lia. unfold byte in Hx. lia.
Qed.

Lemma to_from_le l : bytes l -> to_le (length l) (from_le l) = l.
Proof.
  induction 1 as [|x l Hx Hl IH]; simpl; [done|]. unfold byte in Hx.
  rewrite (Z.mul_comm 256), Z.mod_add, Z.div_add by lia.
  rewrite Z.mod_small, Z.div_small by lia. by rewrite Z.add_0_l, IH.
Qed.

Lemma from_le_app l1 l2 :
  from_le (l1 ++ l2) = from_le l1 + 256 ^ Z.of_nat (length l1) * from_le l2.
Proof.
  induction l1 as [|x l1 IH]; cbn [app from_le length].
  - rewrite Z.pow_0_r. lia.
  - rewrite IH. rewrite Nat2Z.inj_succ, Z.pow_succ_r by lia. ring.
Qed.

(** ** Exhaustive checks over one byte *)

Lemma byte_forall (f : Z -> bool) x : forallb f (seqZ 0 256) = true -> byte x -> f x = true.
Proof.
  intros H Hx. rewrite forallb_forall in H. apply H, list_elem_of_In, elem_of_seqZ.
  unfold byte in Hx. lia.
Qed.

(** The equality [f x = g x] for every byte, by evaluation. *)
Lemma byte_ext (f g : Z -> Z) x :
  forallb (fun x => f x =? g x) (seqZ 0 256) = true -> byte x -> f x = g x.
Proof. intros H Hx. by apply Z.eqb_eq, (byte_forall (fun x => f x =? g x)). Qed.
