(* ===== verification/Order.v ===== *)
(** * Orders: three-way comparisons and binary search

    [TotalCmp] is the interface of a comparison function that is a total order
    up to an equivalence, with the constructions the crates use; and
    [slice::binary_search_by] of the standard library, with what it finds in a
    sorted slice. *)
From Stdlib Require Import ZArith Lia Sorted.
From stdpp Require Import base list numbers option sorting.
From S2P Require Import Prelude.

(** ** Three-way comparisons *)

(** [cmp] orders its type totally; [eqv] is what it cannot tell apart. *)
Class TotalCmp {A} (eqv : A -> A -> Prop) (cmp : A -> A -> comparison) := {
  cmp_eqv x y : cmp x y = Eq <-> eqv x y;
  cmp_antisym x y : cmp y x = CompOpp (cmp x y);
  cmp_trans x y z : cmp x y = Lt -> cmp y z = Lt -> cmp x z = Lt;
}.

(** Lexicographic comparison, a prefix being smaller. *)
Fixpoint list_cmp {A} (cmp : A -> A -> comparison) (l1 l2 : list A) : comparison :=
  match l1, l2 with
  | [], [] => Eq
  | [], _ :: _ => Lt
  | _ :: _, [] => Gt
  | a :: l1', b :: l2' => match cmp a b with Eq => list_cmp cmp l1' l2' | c => c end
  end.

Lemma comp_opp_lt c : CompOpp c = Gt <-> c = Lt.
Proof. by destruct c. Qed.

#[export] Instance Zcompare_total : TotalCmp (@eq Z) Z.compare.
Proof.
  split; [apply Z.compare_eq_iff|intros; by rewrite Z.compare_antisym|].
  intros x y z. rewrite !Z.compare_lt_iff. lia.
Qed.

#[export] Instance list_cmp_total {A} (cmp : A -> A -> comparison) `{!TotalCmp (@eq A) cmp} :
  TotalCmp (@eq (list A)) (list_cmp cmp).
Proof.
  split.
  - induction x as [|a x IH]; intros [|b y]; simpl; try done.
    destruct (cmp a b) eqn:E; split; intros H; simplify_eq; try done.
    + apply cmp_eqv in E as ->. by apply IH in H as ->.
    + by apply IH.
    + by rewrite (proj2 (cmp_eqv b b)) in E.
    + by rewrite (proj2 (cmp_eqv b b)) in E.
  - induction x as [|a x IH]; intros [|b y]; simpl; try done.
    rewrite (cmp_antisym a b). destruct (cmp a b); simpl; auto.
  - induction x as [|a x IH]; intros [|b y] [|c z]; simpl; try done.
    destruct (cmp a b) eqn:E1, (cmp b c) eqn:E2; intros H1 H2; try done.
    + apply cmp_eqv in E1 as ->. rewrite E2. eauto.
    + apply cmp_eqv in E1 as ->. by rewrite E2.
    + apply cmp_eqv in E2 as <-. by rewrite E1.
    + by rewrite (cmp_trans _ _ _ E1 E2).
Qed.

(** Pairs, first component first. *)
Definition pair_cmp {A C} (cmpa : A -> A -> comparison) (cmpc : C -> C -> comparison)
    (x y : A * C) : comparison :=
  match cmpa x.1 y.1 with Eq => cmpc x.2 y.2 | c => c end.

#[export] Instance pair_cmp_total {A C} (cmpa : A -> A -> comparison) (cmpc : C -> C -> comparison)
  `{!TotalCmp (@eq A) cmpa, !TotalCmp (@eq C) cmpc} : TotalCmp (@eq (A * C)) (pair_cmp cmpa cmpc).
Proof.
  unfold pair_cmp. split.
  - intros [a b] [c d]; simpl. destruct (cmpa a c) eqn:E.
    + apply cmp_eqv in E as ->. rewrite (cmp_eqv (cmp := cmpc)). naive_solver.
    + split; [done|]. intros [= -> ->]. by rewrite (proj2 (cmp_eqv c c)) in E.
    + split; [done|]. intros [= -> ->]. by rewrite (proj2 (cmp_eqv c c)) in E.
  - intros [a b] [c d]; simpl. rewrite (cmp_antisym a c). destruct (cmpa a c); simpl; try done. apply cmp_antisym.
  - intros [a b] [c d] [e f]; simpl. destruct (cmpa a c) eqn:E1, (cmpa c e) eqn:E2; intros H1 H2; try done.
    + apply cmp_eqv in E1 as ->. rewrite E2. by eapply cmp_trans.
    + apply cmp_eqv in E1 as ->. by rewrite E2.
    + apply cmp_eqv in E2 as <-. by rewrite E1.
    + by rewrite (cmp_trans _ _ _ E1 E2).
Qed.

(** Optional values, the missing one being the greatest. *)
Definition none_last_cmp {A} (cmp : A -> A -> comparison) (x y : option A) : comparison :=
  match x, y with
  | None, Some _ => Gt
  | Some _, None => Lt
  | None, None => Eq
  | Some a, Some b => cmp a b
  end.

#[export] Instance none_last_total {A} (cmp : A -> A -> comparison) `{!TotalCmp (@eq A) cmp} :
  TotalCmp (@eq (option A)) (none_last_cmp cmp).
Proof.
  split.
  - intros [a|] [b|]; simpl; try done. rewrite (cmp_eqv (cmp := cmp)). naive_solver.
  - intros [a|] [b|]; simpl; try done. apply cmp_antisym.
  - intros [a|] [b|] [c|]; simpl; try done. apply cmp_trans.
Qed.

(** ** Binary search

    [f] compares an element with the target.  The interval halves until one
    element is left; [Ok] is its index when it is the target, [Err] the place to
    insert it. *)
Definition search_step {A} (l : list A) (f : A -> comparison) (s : nat * nat) : option (nat * nat) :=
  let '(base, size) := s in
  let half := (size / 2)%nat in
  let mid := (base + half)%nat in
  x ← l !! mid;
  Some (match f x with Gt => base | _ => mid end, (size - half)%nat).

Definition binary_search_by {A} (l : list A) (f : A -> comparison) : option (result nat nat) :=
  if (length l =? 0)%nat then Some (Err 0%nat) else
  '(base, _) ← while_loop (S (length l)) (fun '(_, size) => (1 <? size)%nat) (search_step l f) (0%nat, length l);
  x ← l !! base;
  Some (match f x with Eq => Ok base | Lt => Err (S base) | Gt => Err base end).

(** On a slice that [f] sees ascending: smaller elements, then the target at
    most once, then greater ones. *)
Lemma binary_search_wp {A} (l : list A) (f : A -> comparison) :
  (forall i j x y, (i < j)%nat -> l !! i = Some x -> l !! j = Some y -> f y <> Gt -> f x = Lt) ->
  wp (binary_search_by l f) (fun r => match r with
    | Ok i => exists x, l !! i = Some x /\ f x = Eq
    | Err _ => forall i x, l !! i = Some x -> f x <> Eq
    end).
Proof.
  intros Hasc. unfold binary_search_by. destruct (Nat.eqb_spec (length l) 0) as [H0|H0].
  { cbn [wp]. intros i x Hi. apply lookup_lt_Some in Hi. lia. }
  apply wp_bind.
  apply (wp_while (fun '(base, size) => (0 < size)%nat /\ (base + size <= length l)%nat /\
    (forall i x, l !! i = Some x -> f x = Eq -> (base <= i < base + size)%nat)) snd); [|simpl; lia|..].
  - split; [lia|split; [lia|]]. intros i x Hi _. apply lookup_lt_Some in Hi. lia.
  - intros [base size] (Hs & Hb & Hin) Hc. apply Nat.ltb_lt in Hc. unfold search_step. apply wp_bind.
    assert (Hh : (0 < size / 2 < size)%nat) by (split; [apply Nat.div_str_pos; lia|apply Nat.div_lt; lia]).
    set (half := (size / 2)%nat) in *. apply wp_get; [lia|]. intros x Hx. cbn [wp snd].
    assert (Hle : (half <= size - half)%nat) by (unfold half; pose proof (Nat.div_mod_eq size 2); lia).
    destruct (f x) eqn:E; (split; [split_and!; [lia|lia|]|lia]); intros i y Hi Hy; pose proof (Hin i y Hi Hy).
    + destruct (decide (i < base + half)%nat) as [Hlt|]; [|lia].
      rewrite (Hasc i _ y x Hlt Hi Hx) in Hy; [done|by rewrite E].
    + destruct (decide (i < base + half)%nat) as [Hlt|]; [|lia].
      rewrite (Hasc i _ y x Hlt Hi Hx) in Hy; [done|by rewrite E].
    + destruct (decide (base + half <= i)%nat) as [Hge|]; [|lia].
      destruct (decide (i = base + half)%nat) as [->|]; [rewrite Hx in Hi; injection Hi as ->; by rewrite Hy in E|].
      rewrite (Hasc (base + half)%nat i x y) in E; [done|lia|done|done|by rewrite Hy].
  - intros [base size] (Hs & Hb & Hin) Hc. apply Nat.ltb_ge in Hc. apply wp_bind, wp_get; [lia|].
    intros x Hx. cbn [wp]. assert (H1 : size = 1%nat) by lia. subst size.
    destruct (f x) eqn:E; [by exists x|..]; intros i y Hi Hy; pose proof (Hin i y Hi Hy);
      (assert (i = base) as -> by lia); rewrite Hx in Hi; injection Hi as ->; by rewrite Hy in E.
Qed.
