(* ===== verification/Limbs.v ===== *)
(** * Little-endian limb vectors

    [eval l] is the number a list of base-[2^64] limbs stands for.  The lemmas
    say how [eval] changes when a loop writes one limb, which is what every
    loop invariant of the big-integer code is built from. *)
From Stdlib Require Import ZArith Lia.
From stdpp Require Import base list numbers option.
From S2P Require Import Prelude Words.

Definition B : Z := 2 ^ 64.
Definition Bp (i : nat) : Z := B ^ Z.of_nat i.

Fixpoint eval (l : list Z) : Z :=
  match l with
  | [] => 0
  | x :: l' => x + B * eval l'
  end.

(** Big-endian reading of a limb list, most significant first. *)
Definition limb (l : list Z) (i : nat) : Z := default 0 (l !! i).

Lemma Bp_0 : Bp 0 = 1.
Proof. done. Qed.

Lemma Bp_S i : Bp (S i) = B * Bp i.
Proof. unfold Bp. rewrite Nat2Z.inj_succ, Z.pow_succ_r by lia. done. Qed.

Lemma Bp_1 : Bp 1 = B.
Proof. done. Qed.

Lemma Bp_add i j : Bp (i + j) = Bp i * Bp j.
Proof. unfold Bp. rewrite Nat2Z.inj_add, Z.pow_add_r by lia. done. Qed.

Lemma Bp_pos i : 0 < Bp i.
Proof. unfold Bp, B. lia. Qed.

Lemma Bp_le i j : (i <= j)%nat -> Bp i <= Bp j.
Proof. intros. unfold Bp, B. apply Z.pow_le_mono_r; lia. Qed.

Lemma Bp_pow2 i : Bp i = 2 ^ (64 * Z.of_nat i).
Proof. unfold Bp, B. rewrite <- Z.pow_mul_r by lia. done. Qed.

Lemma Bp_lt_inv i j : Bp i < Bp j -> (i < j)%nat.
Proof.
  intros H. destruct (Nat.lt_ge_cases i j) as [|Hge]; [done|].
  pose proof (Bp_le j i Hge). lia.
Qed.

Create HintDb limbs.
#[export] Hint Resolve Bp_pos : limbs.

Lemma eval_app l1 l2 : eval (l1 ++ l2) = eval l1 + Bp (length l1) * eval l2.
Proof.
  induction l1 as [|x l1 IH]; simpl app; simpl eval; simpl length.
  - rewrite Bp_0. lia.
  - rewrite IH, Bp_S. ring.
Qed.

Lemma eval_zeros n : eval (replicate n 0) = 0.
Proof. induction n; simpl; lia. Qed.

Lemma eval_bound l : words l -> 0 <= eval l < Bp (length l).
Proof.
  induction 1 as [|x l Hx Hl IH]; simpl eval; simpl length.
  - rewrite Bp_0. lia.
  - rewrite Bp_S. unfold word in Hx. unfold B in *. lia.
Qed.

Lemma eval_take_S l i x : l !! i = Some x ->
  eval (take (S i) l) = eval (take i l) + x * Bp i.
Proof.
  intros H. rewrite (take_S_r _ _ _ H), eval_app. simpl eval.
  rewrite length_take_le by (apply lookup_lt_Some in H; lia). ring.
Qed.

Lemma eval_take_drop l i : (i <= length l)%nat ->
  eval l = eval (take i l) + Bp i * eval (drop i l).
Proof.
  intros. rewrite <- (take_drop i l) at 1.
  rewrite eval_app, length_take_le by done. done.
Qed.

Lemma eval_insert l i x y : l !! i = Some y ->
  eval (<[i:=x]> l) = eval l + (x - y) * Bp i.
Proof.
  revert i. induction l as [|z l IH]; intros [|i] H; simpl in H; try done.
  - simplify_eq. simpl. rewrite Bp_0. ring.
  - change (<[S i:=x]> (z :: l)) with (z :: <[i:=x]> l).
    cbn [eval]. rewrite (IH _ H), Bp_S. ring.
Qed.

Lemma eval_take_insert l i x : (i < length l)%nat ->
  eval (take (S i) (<[i:=x]> l)) = eval (take i l) + x * Bp i.
Proof.
  intros. rewrite (eval_take_S _ _ x).
  - by rewrite take_insert_ge by lia.
  - by apply list_lookup_insert_eq.
Qed.

Lemma eval_take_all l n : length l = n -> eval (take n l) = eval l.
Proof. intros <-. by rewrite firstn_all. Qed.

Lemma eval_take_mod l i : words l -> (i <= length l)%nat ->
  eval (take i l) = eval l mod Bp i.
Proof.
  intros Hw Hi. rewrite (eval_take_drop l i Hi).
  rewrite (Z.mul_comm (Bp i)), Z.mod_add by (pose proof (Bp_pos i); lia).
  symmetry. apply Z.mod_small.
  pose proof (eval_bound (take i l) (words_take _ _ Hw)) as Hb.
  by rewrite length_take_le in Hb.
Qed.

Lemma eval_drop_div l i : words l -> (i <= length l)%nat ->
  eval (drop i l) = eval l / Bp i.
Proof.
  intros Hw Hi. rewrite (eval_take_drop l i Hi).
  rewrite (Z.mul_comm (Bp i)), Z.div_add by (pose proof (Bp_pos i); lia).
  rewrite Z.div_small; [lia|].
  pose proof (eval_bound (take i l) (words_take _ _ Hw)) as Hb.
  by rewrite length_take_le in Hb.
Qed.

(** The [i]th limb is the [i]th base-[B] digit. *)
Lemma lookup_eval l i x : words l -> l !! i = Some x -> x = (eval l / Bp i) mod B.
Proof.
  intros Hw Hx. assert (Hi : (i < length l)%nat) by by eapply lookup_lt_Some.
  rewrite <- eval_drop_div by (done || lia).
  rewrite (drop_S _ _ _ Hx). simpl eval.
  rewrite (Z.mul_comm B), Z.mod_add by (unfold B; lia).
  symmetry. apply Z.mod_small. eapply words_lookup; eauto.
Qed.

Lemma eval_inj l1 l2 : words l1 -> words l2 -> length l1 = length l2 ->
  eval l1 = eval l2 -> l1 = l2.
Proof.
  intros H1 H2 Hlen He. apply list_eq. intros i.
  destruct (l1 !! i) as [x|] eqn:E1.
  - destruct (lookup_lt_is_Some_2 l2 i) as [y Ey].
    { rewrite <- Hlen. by eapply lookup_lt_Some. }
    rewrite Ey. f_equal. rewrite (lookup_eval _ _ _ H1 E1).
    by rewrite (lookup_eval _ _ _ H2 Ey), He.
  - symmetry. apply lookup_ge_None. rewrite <- Hlen.
    by apply lookup_ge_None.
Qed.

Lemma eval_0_inv l : words l -> eval l = 0 -> l = replicate (length l) 0.
Proof.
  intros Hw He. apply eval_inj; auto with words.
  - by rewrite length_replicate.
  - by rewrite eval_zeros.
Qed.

(** A vector whose tail is zero is worth its prefix. *)
Lemma eval_prefix_zeros l n : eval (l ++ replicate n 0) = eval l.
Proof. rewrite eval_app, eval_zeros. lia. Qed.

Lemma take_insert_S {A} (l : list A) i (x : A) : (i < length l)%nat ->
  take (S i) (<[i:=x]> l) = take i l ++ [x].
Proof.
  intros. rewrite (take_S_r _ _ x) by by apply list_lookup_insert_eq.
  by rewrite take_insert_ge by lia.
Qed.

Lemma drop_insert_here {A} (l : list A) i (x : A) : (i < length l)%nat ->
  drop i (<[i:=x]> l) = x :: drop (S i) l.
Proof.
  intros. rewrite (drop_S _ x) by by apply list_lookup_insert_eq.
  by rewrite drop_insert_lt by lia.
Qed.
