(* ===== verification/BigUint.v ===== *)
(** * big_number: [Uint<BITS, LIMBS>], limb-wise arithmetic

    Models the part of src/big_number/big_number.rs that works limb by limb:
    carries and borrows, constant-time comparison and selection, modular
    addition and subtraction, and the single-word and two-word operations.
    [val] is the number a [Uint] stands for; the theorems state each operation
    in terms of [val], and that it never panics on a well-formed value. *)
From Stdlib Require Import ZArith Lia.
From stdpp Require Import base list numbers option.
From S2P Require Import Prelude Words Limbs.

(** The const generics and the compile-time check between them. *)
Class Dims := {
  BITS : nat;
  LIMBS : nat;
  LIMBS_check : LIMBS = div_ceil BITS 64;
}.

Record Uint := mkUint { limbs : list Z }.

Definition MAX_LIMBS : nat := 260.
Definition MAX_BARRETT_LIMBS : nat := (MAX_LIMBS / 2 - 1)%nat.

(** ** Word primitives *)

Definition adc (a b carry : Z) : Z * Z :=
  let sum := u128 (u128 (a + b) + carry) in
  (u64 sum, u64 (Z.shiftr sum 64)).

Definition sbb (a b borrow : Z) : Z * Z :=
  let diff := u128 (u128 (u128 (u128 (Z.shiftl 1 64) + a) - b) - borrow) in
  (u64 diff, u64 (1 - u64 (Z.shiftr diff 64))).

Definition mac (acc a b carry : Z) : Z * Z :=
  let value := u128 (u128 (acc + u128 (a * b)) + carry) in
  (u64 value, u64 (Z.shiftr value 64)).

Definition ct_select_u64 (a b : Z) (choice : bool) : Z :=
  let mask := u64 (0 - b2z choice) in
  Z.lxor b (Z.land (Z.lxor a b) mask).

Section Uint_ops.
Context {D : Dims}.

Definition zeros : list Z := replicate LIMBS 0.

Definition ZERO : Uint := mkUint zeros.

Definition from_limbs (l : list Z) : Uint := mkUint l.

Definition from_u64 (v : Z) : Uint :=
  mkUint (if (0 <? LIMBS)%nat then <[0%nat:=v]> zeros else zeros).

Definition ONE : Uint := from_u64 1.

Definition uint_from_u128 (value : Z) : Uint :=
  let limbs := zeros in
  let limbs := if (0 <? LIMBS)%nat then <[0%nat:=u64 value]> limbs else limbs in
  let limbs := if (1 <? LIMBS)%nat then <[1%nat:=u64 (Z.shiftr value 64)]> limbs else limbs in
  mkUint limbs.

Definition max_limbs : option (list Z) :=
  let limbs := replicate LIMBS (2 ^ 64 - 1) in
  let rem := (BITS mod 64)%nat in
  if negb (rem =? 0)%nat
  then upd limbs (LIMBS - 1) (Z.shiftl 1 (Z.of_nat rem) - 1)
  else Some limbs.

Definition MAX : option Uint := mkUint <$> max_limbs.

Definition truncate_to_bits (self : Uint) : option Uint :=
  let rem := (BITS mod 64)%nat in
  if negb (rem =? 0)%nat then
    x ← limbs self !! (LIMBS - 1)%nat;
    l ← upd (limbs self) (LIMBS - 1) (Z.land x (Z.shiftl 1 (Z.of_nat rem) - 1));
    Some (mkUint l)
  else Some self.

Definition bit (self : Uint) (index : nat) : option bool :=
  if (BITS <=? index)%nat then Some false else
  x ← limbs self !! (index / 64)%nat;
  Some (Z.land (Z.shiftr x (Z.of_nat (index mod 64))) 1 =? 1).

Definition is_zero (self : Uint) : option bool :=
  acc ← for_loop 0 LIMBS (fun i acc =>
    x ← limbs self !! i; Some (Z.lor acc x)) 0;
  Some (acc =? 0).

(** The scan of [bit_len] for the top nonzero limb below index [i]. *)
Fixpoint bit_len_from (l : list Z) (i : nat) : option Z :=
  match i with
  | O => Some 0
  | S i' =>
      x ← l !! i';
      if negb (x =? 0)
      then Some (Z.of_nat i' * 64 + 64 - leading_zeros64 x)
      else bit_len_from l i'
  end.

Definition bit_len (self : Uint) : option Z := bit_len_from (limbs self) LIMBS.

Definition is_odd (self : Uint) : option bool :=
  x ← limbs self !! 0%nat; Some (Z.land x 1 =? 1).

Definition add_raw (self rhs : Uint) : option (Uint * Z) :=
  '(out, carry) ← for_loop 0 LIMBS (fun i '(out, carry) =>
      a ← limbs self !! i;
      b ← limbs rhs !! i;
      let '(word, next_carry) := adc a b carry in
      out ← upd out i word;
      Some (out, next_carry)) (zeros, 0);
  Some (mkUint out, carry).

Definition sub_raw (self rhs : Uint) : option (Uint * Z) :=
  '(out, borrow) ← for_loop 0 LIMBS (fun i '(out, borrow) =>
      a ← limbs self !! i;
      b ← limbs rhs !! i;
      let '(word, next_borrow) := sbb a b borrow in
      out ← upd out i word;
      Some (out, next_borrow)) (zeros, 0);
  Some (mkUint out, borrow).

Definition ct_ge (self rhs : Uint) : option bool :=
  '(_, borrow) ← sub_raw self rhs;
  Some (borrow =? 0).

Definition ct_eq (self rhs : Uint) : option bool :=
  diff ← for_loop 0 LIMBS (fun i diff =>
      a ← limbs self !! i;
      b ← limbs rhs !! i;
      Some (Z.lor diff (Z.lxor a b))) 0;
  Some (diff =? 0).

Definition ct_select (a b : Uint) (choice : bool) : option Uint :=
  l ← for_loop 0 LIMBS (fun i l =>
      x ← limbs a !! i;
      y ← limbs b !! i;
      upd l i (ct_select_u64 x y choice)) zeros;
  Some (mkUint l).

Definition add_mod (self rhs modulus : Uint) : option Uint :=
  '(sum, carry) ← add_raw self rhs;
  '(reduced, borrow) ← sub_raw sum modulus;
  ct_select reduced sum (negb (Z.lor carry (Z.lxor borrow 1) =? 0)).

Definition sub_mod (self rhs modulus : Uint) : option Uint :=
  '(diff, borrow) ← sub_raw self rhs;
  '(corrected, _) ← add_raw diff modulus;
  ct_select corrected diff (borrow =? 1).

Definition double_mod (self modulus : Uint) : option Uint :=
  add_mod self self modulus.

(** ** Single-word operations *)

Definition add_word (self : Uint) (word : Z) : option (Uint * Z) :=
  let out := limbs self in
  x ← out !! 0%nat;
  let '(first, carry) := adc x word 0 in
  out ← upd out 0 first;
  '(out, carry) ← for_loop 1 LIMBS (fun i '(out, carry) =>
      x ← out !! i;
      let '(next, next_carry) := adc x 0 carry in
      out ← upd out i next;
      Some (out, next_carry)) (out, carry);
  Some (mkUint out, carry).

Definition sub_word (self : Uint) (word : Z) : option (Uint * Z) :=
  let out := limbs self in
  x ← out !! 0%nat;
  let '(first, borrow) := sbb x word 0 in
  out ← upd out 0 first;
  '(out, borrow) ← for_loop 1 LIMBS (fun i '(out, borrow) =>
      x ← out !! i;
      let '(next, next_borrow) := sbb x 0 borrow in
      out ← upd out i next;
      Some (out, next_borrow)) (out, borrow);
  Some (mkUint out, borrow).

Definition mul_word (self : Uint) (word : Z) : option (Uint * Z) :=
  '(out, carry) ← for_loop 0 LIMBS (fun i '(out, carry) =>
      x ← limbs self !! i;
      let '(next, next_carry) := mac 0 x word carry in
      out ← upd out i next;
      Some (out, next_carry)) (zeros, 0);
  Some (mkUint out, carry).

Definition div_rem_word (self : Uint) (word : Z) : option (Uint * Z) :=
  _ ← rassert (negb (word =? 0));
  '(out, rem) ← for_down LIMBS (fun i '(out, rem) =>
      x ← limbs self !! i;
      let dividend := Z.lor (u128 (Z.shiftl rem 64)) x in
      out ← upd out i (u64 (dividend / word));
      Some (out, u64 (dividend mod word))) (zeros, 0);
  Some (mkUint out, rem).

Definition add_word_at (self : Uint) (index : nat) (word : Z) : option (Uint * Z) :=
  '(out, carry, _) ← while_loop (LIMBS + 1)
    (fun '(out, carry, i) => (i <? LIMBS)%nat && negb (carry =? 0))
    (fun '(out, carry, i) =>
      x ← out !! i;
      let '(next, next_carry) := adc x carry 0 in
      out ← upd out i next;
      Some (out, next_carry, S i)) (limbs self, word, index);
  Some (mkUint out, carry).

Definition sub_word_at (self : Uint) (index : nat) (word : Z) : option (Uint * Z) :=
  '(out, borrow, _) ← while_loop (LIMBS + 1)
    (fun '(out, borrow, i) => (i <? LIMBS)%nat && negb (borrow =? 0))
    (fun '(out, borrow, i) =>
      x ← out !! i;
      let '(next, next_borrow) := sbb x borrow 0 in
      out ← upd out i next;
      Some (out, next_borrow, S i)) (limbs self, word, index);
  Some (mkUint out, borrow).

(** ** Two-word operations *)

Definition add_u128 (self : Uint) (value : Z) : option Uint :=
  let lo := u64 value in
  let hi := u64 (Z.shiftr value 64) in
  '(a, _) ← add_word self lo;
  '(r, _) ← add_word_at a 1 hi;
  Some r.

Definition sub_u128 (self : Uint) (value : Z) : option Uint :=
  let lo := u64 value in
  let hi := u64 (Z.shiftr value 64) in
  '(a, _) ← sub_word self lo;
  '(r, _) ← sub_word_at a 1 hi;
  Some r.

Definition mul_u128 (self : Uint) (value : Z) : option Uint :=
  let lo := u64 value in
  let hi := u64 (Z.shiftr value 64) in
  if hi =? 0 then '(r, _) ← mul_word self lo; Some r else
  '(low, _) ← mul_word self lo;
  '(high, _) ← mul_word self hi;
  '(out, _) ← for_loop 1 LIMBS (fun j '(out, carry) =>
      x ← out !! j;
      y ← limbs high !! (j - 1)%nat;
      let '(sum, next_carry) := adc x y carry in
      out ← upd out j sum;
      Some (out, next_carry)) (limbs low, 0);
  Some (mkUint out).

(** [rem = rem * 2 + bit], in place; returns the bit shifted out. *)
Definition shl1_into (l : list Z) (bit : Z) : option (list Z * Z) :=
  for_loop 0 LIMBS (fun j '(l, carry) =>
      x ← l !! j;
      let next := Z.shiftr x 63 in
      l ← upd l j (Z.lor (u64 (Z.shiftl x 1)) carry);
      Some (l, next)) (l, bit).

(** One iteration of the bit-serial loop of [div_rem_u128]. *)
Definition div_rem_step (self d : Uint) (i : nat) '((quotient, rem) : Uint * Uint)
  : option (Uint * Uint) :=
  b ← bit self i;
  '(rl, carry) ← shl1_into (limbs rem) (b2z b);
  let rem := mkUint rl in
  '(sub, borrow) ← sub_raw rem d;
  if negb (carry =? 0) || (borrow =? 0) then
    x ← limbs quotient !! (i / 64)%nat;
    q ← upd (limbs quotient) (i / 64)
          (Z.lor x (u64 (Z.shiftl 1 (Z.of_nat (i mod 64)))));
    Some (mkUint q, sub)
  else Some (quotient, rem).

Definition div_rem_u128 (self : Uint) (divisor : Z) : option (Uint * Z) :=
  _ ← rassert (negb (divisor =? 0));
  if divisor <=? 2 ^ 64 - 1 then
    '(q, r) ← div_rem_word self (u64 divisor);
    Some (q, r)
  else if (LIMBS <? 2)%nat then
    x ← limbs self !! 0%nat;
    Some (ZERO, x)
  else
    l ← upd zeros 0 (u64 divisor);
    l ← upd l 1 (u64 (Z.shiftr divisor 64));
    let d := mkUint l in
    n ← bit_len self;
    '(quotient, rem) ← for_down (Z.to_nat n) (div_rem_step self d) (ZERO, ZERO);
    r0 ← limbs rem !! 0%nat;
    r1 ← limbs rem !! 1%nat;
    Some (quotient, Z.lor r0 (u128 (Z.shiftl r1 64))).

(** ** Values and well-formedness *)

Definition val (u : Uint) : Z := eval (limbs u).
Definition R : Z := Bp LIMBS.
Definition uwf (u : Uint) : Prop := length (limbs u) = LIMBS /\ words (limbs u).

End Uint_ops.

(** ** The word primitives are exact *)

(** A double word splits into its low and high words. *)
Lemma split_u128 s : 0 <= s < 2 ^ 128 ->
  u64 s + B * u64 (Z.shiftr s 64) = s /\ word (u64 s) /\
  u64 (Z.shiftr s 64) = s / B.
Proof.
  intros Hs. rewrite shiftr_div by lia.
  assert (Hw : word (s / 2 ^ 64)).
  { split; [apply Z.div_pos; lia|apply Z.div_lt_upper_bound; lia]. }
  rewrite (u64_id _ Hw). split; [|split; [apply u64_word|done]].
  unfold u64, B. pose proof (Z.div_mod s (2 ^ 64)). lia.
Qed.

Lemma adc_spec a b c : word a -> word b -> word c ->
  exists w c', adc a b c = (w, c') /\ w + B * c' = a + b + c /\ word w /\
    0 <= c' <= 2 /\ (c <= 1 -> c' <= 1).
Proof.
  unfold word. intros Ha Hb Hc. unfold adc, u128.
  rewrite (Z.mod_small (a + b)), Z.mod_small by lia.
  pose proof (split_u128 (a + b + c) ltac:(lia)) as (He & Hw & _).
  eexists _, _. split; [done|]. unfold word, B in *.
  split; [done|]. lia.
Qed.

Lemma sbb_spec a b c : word a -> word b -> 0 <= c <= 1 ->
  exists w c', sbb a b c = (w, c') /\ w - B * c' = a - b - c /\ word w /\
    0 <= c' <= 1.
Proof.
  unfold word. intros Ha Hb Hc. unfold sbb, u128. change (Z.shiftl 1 64) with (2 ^ 64).
  rewrite (Z.mod_small (2 ^ 64 + a)), (Z.mod_small (2 ^ 64 + a - b)), Z.mod_small by lia.
  set (s := 2 ^ 64 + a - b - c).
  pose proof (split_u128 s ltac:(lia)) as (He & Hw & Hq).
  eexists _, _. split; [done|]. set (h := u64 (Z.shiftr s 64)) in *.
  assert (Hh : 0 <= h <= 1) by (unfold word, B in *; lia).
  rewrite (u64_id (1 - h)) by (unfold word; lia).
  unfold word, B in *. lia.
Qed.

Lemma mac_spec acc a b c : word acc -> word a -> word b -> word c ->
  exists w c', mac acc a b c = (w, c') /\ w + B * c' = acc + a * b + c /\
    word w /\ word c'.
Proof.
  unfold word. intros Hacc Ha Hb Hc.
  assert (Hab : 0 <= a * b <= (2 ^ 64 - 1) * (2 ^ 64 - 1)) by nia.
  unfold mac, u128.
  rewrite (Z.mod_small (a * b)), (Z.mod_small (acc + a * b)), Z.mod_small by lia.
  pose proof (split_u128 (acc + a * b + c) ltac:(lia)) as (He & Hw & _).
  eexists _, _. split; [done|]. split; [done|]. split; [done|]. apply u64_word.
Qed.

Lemma ct_select_u64_spec a b choice : word a -> word b ->
  ct_select_u64 a b choice = if choice then a else b.
Proof.
  intros Ha Hb. unfold ct_select_u64. destruct choice; simpl b2z.
  - change (u64 (0 - 1)) with (2 ^ 64 - 1). rewrite land_ones by lia.
    rewrite Z.mod_small by (apply lxor_nonneg_bound; [lia|done|done]).
    rewrite (Z.lxor_comm a b), <- Z.lxor_assoc, Z.lxor_nilpotent.
    apply Z.lxor_0_l.
  - change (u64 (0 - 0)) with 0. by rewrite Z.land_0_r, Z.lxor_0_r.
Qed.

(** Run a word primitive whose specification is [lem]. *)
Ltac run_word lem :=
  let w := fresh "w" in let c := fresh "c" in
  let E := fresh "E" in let He := fresh "He" in
  edestruct lem as (w & c & E & He & ?);
  [..| rewrite E; cbn beta iota]; try rewrite E in *.

Section Uint_proofs.
Context {D : Dims}.

Lemma length_zeros : length zeros = LIMBS.
Proof. apply length_replicate. Qed.

Lemma words_zeros' : words zeros.
Proof. apply words_zeros. Qed.

Lemma eval_zeros' : eval zeros = 0.
Proof. apply eval_zeros. Qed.

Lemma ZERO_wf : uwf ZERO.
Proof. split; [apply length_zeros | apply words_zeros']. Qed.

Lemma ZERO_val : val ZERO = 0.
Proof. apply eval_zeros. Qed.

Lemma val_bound u : uwf u -> 0 <= val u < R.
Proof. intros [Hl Hw]. unfold val, R. rewrite <- Hl. by apply eval_bound. Qed.

Lemma val_inj u v : uwf u -> uwf v -> val u = val v -> u = v.
Proof.
  intros [Hu1 Hu2] [Hv1 Hv2] H. destruct u as [lu], v as [lv]. f_equal.
  simpl in *. apply eval_inj; auto; congruence.
Qed.

Lemma R_pos : 0 < R.
Proof. apply Bp_pos. Qed.

(** Writing limb [i] of an output buffer built from the left. *)
Definition built (n i : nat) (out : list Z) (v : Z) : Prop :=
  length out = n /\ words out /\ eval (take i out) = v.

Lemma built_0 : built LIMBS 0 zeros 0.
Proof. split; [apply length_zeros|]. split; [apply words_zeros'|done]. Qed.

Lemma built_S n i out v w : (i < n)%nat -> built n i out v -> word w ->
  built n (S i) (<[i:=w]> out) (v + w * Bp i).
Proof.
  intros Hi (Hl & Hw & He) Hx. split; [by rewrite length_insert|].
  split; [by apply words_insert|]. rewrite eval_take_insert by lia. lia.
Qed.

Lemma built_all n out v : built n n out v -> eval out = v.
Proof. intros (Hl & _ & He). by rewrite <- He, eval_take_all. Qed.

Lemma built_wf out v : built LIMBS LIMBS out v -> uwf (mkUint out) /\ val (mkUint out) = v.
Proof. intros H. split; [by destruct H as (? & ? & ?)|]. by apply (built_all LIMBS). Qed.

Lemma add_raw_wp a b : uwf a -> uwf b ->
  wp (add_raw a b) (fun '(s, c) =>
    uwf s /\ val s + c * R = val a + val b /\ 0 <= c <= 1).
Proof.
  intros [Ha1 Ha2] [Hb1 Hb2]. unfold add_raw. wp_step.
  apply (wp_for (fun i '(out, c) => 0 <= c <= 1 /\
    built LIMBS i out (eval (take i (limbs a)) + eval (take i (limbs b)) - c * Bp i)));
    [lia| |intros i [out c] Hi [Hc Hb]|intros [out c] [Hc Hb]].
  - split; [lia|]. apply built_0.
  - wp_steps.
    edestruct (adc_spec x x0 c) as (w & c' & -> & He & Hw & Hc' & Hc'');
      eauto with words; [unfold word; lia|].
    assert (length out = LIMBS) by apply Hb. wp_steps. split; [lia|].
    eapply (built_S _ _ _ _ w) in Hb; [|lia|done].
    erewrite (eval_take_S (limbs a)), (eval_take_S (limbs b)) by done.
    rewrite Bp_S. replace (_ - _) with
      (eval (take i (limbs a)) + eval (take i (limbs b)) - c * Bp i + w * Bp i); [done|].
    replace x with (w + B * c' - x0 - c) by lia. ring.
  - wp_step. apply built_wf in Hb as [Hwf Hv]. split; [done|].
    rewrite Hv. unfold R, val. rewrite !eval_take_all by done. split; [ring|done].
Qed.

Lemma sub_raw_wp a b : uwf a -> uwf b ->
  wp (sub_raw a b) (fun '(s, c) =>
    uwf s /\ val s - c * R = val a - val b /\ 0 <= c <= 1).
Proof.
  intros [Ha1 Ha2] [Hb1 Hb2]. unfold sub_raw. wp_step.
  apply (wp_for (fun i '(out, c) => 0 <= c <= 1 /\
    built LIMBS i out (eval (take i (limbs a)) - eval (take i (limbs b)) + c * Bp i)));
    [lia| |intros i [out c] Hi [Hc Hb]|intros [out c] [Hc Hb]].
  - split; [lia|]. apply built_0.
  - wp_steps.
    edestruct (sbb_spec x x0 c) as (w & c' & -> & He & Hw & Hc'); eauto with words.
    assert (length out = LIMBS) by apply Hb. wp_steps. split; [lia|].
    eapply (built_S _ _ _ _ w) in Hb; [|lia|done].
    erewrite (eval_take_S (limbs a)), (eval_take_S (limbs b)) by done.
    rewrite Bp_S. replace (_ + c' * _) with
      (eval (take i (limbs a)) - eval (take i (limbs b)) + c * Bp i + w * Bp i); [done|].
    replace x with (w - B * c' + x0 + c) by lia. ring.
  - wp_step. apply built_wf in Hb as [Hwf Hv]. split; [done|].
    rewrite Hv. unfold R, val. rewrite !eval_take_all by done. split; [ring|done].
Qed.

(** A borrow says exactly that the subtrahend was larger. *)
Lemma sub_raw_borrow a b s c : uwf a -> uwf b -> uwf s ->
  val s - c * R = val a - val b -> 0 <= c <= 1 ->
  (c = 0 <-> val b <= val a).
Proof.
  intros Ha Hb Hs He Hc. apply val_bound in Ha, Hb, Hs.
  assert (c = 0 \/ c = 1) as [-> | ->]; lia.
Qed.

Lemma ct_ge_spec a b : uwf a -> uwf b -> ct_ge a b = Some (val b <=? val a).
Proof.
  intros Ha Hb. unfold ct_ge.
  destruct (wp_elim _ _ (sub_raw_wp a b Ha Hb)) as ([s c] & -> & Hs & He & Hc).
  simpl. f_equal. pose proof (sub_raw_borrow _ _ _ _ Ha Hb Hs He Hc) as Hi.
  destruct (Z.eqb_spec c 0), (Z.leb_spec (val b) (val a)); lia.
Qed.

Lemma ct_eq_spec a b : uwf a -> uwf b -> ct_eq a b = Some (val a =? val b).
Proof.
  intros Ha Hb.
  enough (wp (ct_eq a b) (fun r => r = (val a =? val b))) as H.
  { by destruct (wp_elim _ _ H) as (r & -> & ->). }
  destruct Ha as [Ha1 Ha2], Hb as [Hb1 Hb2]. unfold ct_eq. wp_step.
  apply (wp_for (fun i d => 0 <= d /\
    (d = 0 <-> take i (limbs a) = take i (limbs b))));
    [lia|done|intros i d Hi [Hd0 Hd]|intros d [Hd0 Hd]].
  - wp_steps.
    assert (Hx : word x) by eauto with words. assert (Hx0 : word x0) by eauto with words.
    unfold word in Hx, Hx0.
    assert (0 <= Z.lxor x x0) by (apply Z.lxor_nonneg; lia).
    split; [by apply Z.lor_nonneg|]. rewrite lor_0_iff, Z.lxor_eq_0_iff, Hd by done.
    erewrite !take_S_r by done. split.
    + by intros [-> ->].
    + intros Ht%app_inj_2; [|done]. destruct Ht as [? Hx1]. by simplify_eq.
  - wp_step. rewrite !firstn_all2 in Hd by lia.
    destruct (Z.eqb_spec d 0), (Z.eqb_spec (val a) (val b)) as [E|E]; try done.
    + exfalso. apply E. unfold val. f_equal. by apply Hd.
    + exfalso. apply n, Hd, eval_inj; auto; congruence.
Qed.

Lemma ct_select_spec a b choice : uwf a -> uwf b ->
  ct_select a b choice = Some (if choice then a else b).
Proof.
  intros [Ha1 Ha2] [Hb1 Hb2].
  enough (wp (ct_select a b choice) (fun r => limbs r = limbs (if choice then a else b))) as H.
  { destruct (wp_elim _ _ H) as ([l] & -> & Hl). destruct choice, a, b; simpl in *; by subst. }
  unfold ct_select. wp_step.
  apply (wp_for (fun i l => length l = LIMBS /\
    take i l = take i (limbs (if choice then a else b))));
    [lia|split; [apply length_zeros|done]|intros i l Hi [Hl Ht]|intros l [Hl Ht]].
  - wp_steps. rewrite ct_select_u64_spec by eauto with words.
    split; [by rewrite length_insert|]. rewrite take_insert_S by lia.
    rewrite Ht. symmetry. apply take_S_r. by destruct choice.
  - wp_step. simpl. rewrite !firstn_all2 in Ht; [done|destruct choice; lia|lia].
Qed.

Lemma lor_lxor_select c b : 0 <= c <= 1 -> 0 <= b <= 1 ->
  negb (Z.lor c (Z.lxor b 1) =? 0) = (c =? 1) || (b =? 0).
Proof.
  intros Hc Hb. assert (c = 0 \/ c = 1) as [-> | ->] by lia;
    assert (b = 0 \/ b = 1) as [-> | ->] by lia; done.
Qed.

(** The conditional subtraction every modular routine ends with: a value
    below twice the modulus, given as [s + c * R], is reduced. *)
Lemma reduce_once s c m : uwf s -> uwf m -> 0 <= c <= 1 ->
  val s + c * R < 2 * val m ->
  wp ('(reduced, borrow) ← sub_raw s m;
      ct_select reduced s (negb (Z.lor c (Z.lxor borrow 1) =? 0)))
    (fun r => uwf r /\ val r = (val s + c * R) mod val m).
Proof.
  intros Hs Hm Hc Hlt. wp_step. eapply wp_mono; [by apply sub_raw_wp|].
  intros [d b] (Hd & He & Hb).
  pose proof (val_bound _ Hs). pose proof (val_bound _ Hm). pose proof (val_bound _ Hd).
  rewrite ct_select_spec, lor_lxor_select by done. wp_step.
  assert (c = 0 \/ c = 1) as [-> | ->] by lia; assert (b = 0 \/ b = 1) as [-> | ->] by lia;
    simpl; (split; [done|]).
  - apply (Z.mod_unique_pos _ _ 1); lia.
  - symmetry. rewrite Z.mod_small; lia.
  - lia.
  - apply (Z.mod_unique_pos _ _ 1); lia.
Qed.

Lemma add_mod_wp a b m : uwf a -> uwf b -> uwf m -> val a < val m -> val b < val m ->
  wp (add_mod a b m) (fun r => uwf r /\ val r = (val a + val b) mod val m).
Proof.
  intros Ha Hb Hm Hlt1 Hlt2. unfold add_mod. wp_step.
  eapply wp_mono; [by apply add_raw_wp|]. intros [s c] (Hs & He & Hc).
  rewrite <- He. apply reduce_once; auto. lia.
Qed.

Lemma sub_mod_wp a b m : uwf a -> uwf b -> uwf m -> val a < val m -> val b < val m ->
  wp (sub_mod a b m) (fun r => uwf r /\ val r = (val a - val b) mod val m).
Proof.
  intros Ha Hb Hm Hlt1 Hlt2. unfold sub_mod. wp_step.
  eapply wp_mono; [by apply sub_raw_wp|]. intros [d c] (Hd & He & Hc). wp_step.
  eapply wp_mono; [by apply add_raw_wp|]. intros [e c2] (Hev & He2 & Hc2).
  pose proof (val_bound _ Ha). pose proof (val_bound _ Hb). pose proof (val_bound _ Hm).
  pose proof (val_bound _ Hd). pose proof (val_bound _ Hev).
  rewrite ct_select_spec by done. wp_step.
  assert (c = 0 \/ c = 1) as [-> | ->] by lia; simpl; (split; [done|]).
  - symmetry. rewrite Z.mod_small; lia.
  - assert (c2 = 0 \/ c2 = 1) as [-> | ->] by lia; [lia|].
    apply (Z.mod_unique_pos _ _ (-1)); lia.
Qed.

(** A buffer updated in place, its value tracked as a whole. *)
Definition holds (n : nat) (l : list Z) (v : Z) : Prop :=
  length l = n /\ words l /\ eval l = v.

Lemma holds_insert n l v i x w : holds n l v -> l !! i = Some x -> word w ->
  holds n (<[i:=w]> l) (v + (w - x) * Bp i).
Proof.
  intros (Hl & Hw & <-) Hx Hw'. split; [by rewrite length_insert|].
  split; [by apply words_insert|]. by apply eval_insert.
Qed.

Lemma holds_eq n l v v' : holds n l v -> v = v' -> holds n l v'.
Proof. by intros ? <-. Qed.

Lemma holds_uwf l v : holds LIMBS l v -> uwf (mkUint l) /\ val (mkUint l) = v.
Proof. by intros (? & ? & ?). Qed.

Lemma uwf_holds u : uwf u -> holds LIMBS (limbs u) (val u).
Proof. by intros [? ?]. Qed.

Lemma add_word_wp u w : uwf u -> word w -> (0 < LIMBS)%nat ->
  wp (add_word u w) (fun '(s, c) =>
    uwf s /\ val s + c * R = val u + w /\ 0 <= c <= 1).
Proof.
  intros Hu Hw HL. pose proof (uwf_holds _ Hu) as Hh. assert (length (limbs u) = LIMBS) by apply Hu.
  unfold add_word. wp_steps.
  destruct (adc_spec x w 0) as (w0 & c0 & -> & He & Hw0 & Hc0 & Hc1);
    [eapply words_lookup; [apply Hu|done]|done|done|]. wp_steps.
  apply (wp_for (fun i '(out, c) => 0 <= c <= 1 /\ holds LIMBS out (val u + w - c * Bp i)));
    [lia| |intros i [out c] Hi [Hc Hb]|intros [out c] [Hc Hb]].
  - split; [lia|]. eapply holds_eq; [by apply holds_insert|].
    rewrite Bp_0, Bp_1. lia.
  - assert (length out = LIMBS) by apply Hb. wp_steps.
    destruct (adc_spec x0 0 c) as (w1 & c1 & -> & He1 & Hw1 & Hc2 & Hc3);
      [eapply words_lookup; [apply Hb|done]|done|unfold word; lia|]. wp_steps.
    split; [lia|]. eapply holds_eq; [by apply holds_insert|]. rewrite Bp_S.
    replace x0 with (w1 + B * c1 - c) by lia. ring.
  - wp_step. apply holds_uwf in Hb as [? ->]. unfold R. split; [done|]. lia.
Qed.

Lemma sub_word_wp u w : uwf u -> word w -> (0 < LIMBS)%nat ->
  wp (sub_word u w) (fun '(s, c) =>
    uwf s /\ val s - c * R = val u - w /\ 0 <= c <= 1).
Proof.
  intros Hu Hw HL. pose proof (uwf_holds _ Hu) as Hh. assert (length (limbs u) = LIMBS) by apply Hu.
  unfold sub_word. wp_steps.
  destruct (sbb_spec x w 0) as (w0 & c0 & -> & He & Hw0 & Hc0);
    [eapply words_lookup; [apply Hu|done]|done|done|]. wp_steps.
  apply (wp_for (fun i '(out, c) => 0 <= c <= 1 /\ holds LIMBS out (val u - w + c * Bp i)));
    [lia| |intros i [out c] Hi [Hc Hb]|intros [out c] [Hc Hb]].
  - split; [lia|]. eapply holds_eq; [by apply holds_insert|].
    rewrite Bp_0, Bp_1. lia.
  - assert (length out = LIMBS) by apply Hb. wp_steps.
    destruct (sbb_spec x0 0 c) as (w1 & c1 & -> & He1 & Hw1 & Hc2);
      [eapply words_lookup; [apply Hb|done]|done|lia|]. wp_steps.
    split; [lia|]. eapply holds_eq; [by apply holds_insert|]. rewrite Bp_S.
    replace x0 with (w1 - B * c1 + c) by lia. ring.
  - wp_step. apply holds_uwf in Hb as [? ->]. unfold R. split; [done|]. lia.
Qed.

Lemma mul_word_wp u w : uwf u -> word w ->
  wp (mul_word u w) (fun '(s, c) =>
    uwf s /\ val s + c * R = val u * w /\ word c).
Proof.
  intros [Hu1 Hu2] Hw. unfold mul_word. wp_step.
  apply (wp_for (fun i '(out, c) => word c /\
    built LIMBS i out (eval (take i (limbs u)) * w - c * Bp i)));
    [lia| |intros i [out c] Hi [Hc Hb]|intros [out c] [Hc Hb]].
  - split; [done|]. apply built_0.
  - wp_steps.
    edestruct (mac_spec 0 x w c) as (w1 & c' & -> & He & Hw1 & Hc'); eauto with words; [done|].
    assert (length out = LIMBS) by apply Hb. wp_steps. split; [done|].
    eapply (built_S _ _ _ _ w1) in Hb; [|lia|done].
    erewrite (eval_take_S (limbs u)) by done. rewrite Bp_S.
    replace ((_ + _) * w - _) with
      (eval (take i (limbs u)) * w - c * Bp i + w1 * Bp i); [done|].
    replace w1 with (x * w + c - B * c') by lia. ring.
  - wp_step. apply built_wf in Hb as [Hwf Hv]. split; [done|].
    rewrite Hv. unfold R, val. rewrite !eval_take_all by done. split; [ring|done].
Qed.

(** One step of the schoolbook division: [rem * B + x] by [word]. *)
Lemma div_step rem x w : word x -> word w -> 0 <= rem < w ->
  Z.lor (u128 (Z.shiftl rem 64)) x = rem * B + x /\
  word ((rem * B + x) / w) /\ 0 <= (rem * B + x) mod w < w.
Proof.
  unfold word, B. intros Hx Hw Hr. rewrite shiftl_mul by lia.
  unfold u128. rewrite Z.mod_small by nia. split; [|split].
  - apply (lor_add _ _ 64); [lia|apply Z.mod_mul; lia|done].
  - split; [apply Z.div_pos; nia|apply Z.div_lt_upper_bound; nia].
  - apply Z.mod_pos_bound. lia.
Qed.

Lemma div_rem_word_wp u w : uwf u -> word w -> w <> 0 ->
  wp (div_rem_word u w) (fun '(q, r) =>
    uwf q /\ val u = val q * w + r /\ 0 <= r < w).
Proof.
  intros [Hu1 Hu2] Hw Hne. assert (Hpos : 0 < w) by (unfold word in Hw; lia).
  unfold div_rem_word. wp_steps.
  apply (wp_for_down (fun i '(out, r) => length out = LIMBS /\ words out /\ 0 <= r < w /\
    eval (drop i (limbs u)) = eval (drop i out) * w + r)).
  - rewrite !drop_ge by (rewrite ?length_zeros; lia).
    repeat split; [apply length_zeros|apply words_zeros'|lia|lia].
  - intros i [out r] Hi (Hl & Hwo & Hr & He). wp_steps.
    destruct (div_step r x w) as (-> & Hq & Hm); eauto with words.
    wp_steps. rewrite (u64_id _ Hq), (u64_id (_ mod _)) by (unfold word in *; lia).
    split; [by rewrite length_insert|]. split; [by apply words_insert|]. split; [done|].
    rewrite drop_insert_here by lia. erewrite (drop_S (limbs u)) by done.
    cbn [eval]. rewrite He. pose proof (Z.div_mod (r * B + x) w). lia.
  - intros [out r] (Hl & Hwo & Hr & He). wp_step. by rewrite !drop_0 in He.
Qed.

Lemma val_mod_R u x k : uwf u -> val u = x + k * R -> val u = x mod R.
Proof.
  intros Hu He. apply (Z.mod_unique_pos _ _ (- k)); [by apply val_bound|]. lia.
Qed.

Lemma add_word_at_wp u index w : uwf u -> word w -> (index <= LIMBS)%nat ->
  wp (add_word_at u index w) (fun '(s, _) =>
    uwf s /\ exists k, val s = val u + w * Bp index + k * R).
Proof.
  intros Hu Hw Hi. unfold add_word_at. wp_step.
  apply (wp_while (fun '(out, c, i) => word c /\ (i <= LIMBS)%nat /\
      holds LIMBS out (val u + w * Bp index - c * Bp i))
    (fun '(out, c, i) => (LIMBS - i)%nat)).
  - split; [done|]. split; [done|]. eapply holds_eq; [by apply uwf_holds|]. ring.
  - lia.
  - intros [[out c] i] (Hc & Hle & Hb) Hcond. bool_hyps.
    assert (length out = LIMBS) by apply Hb. wp_steps.
    destruct (adc_spec x c 0) as (w1 & c1 & -> & He & Hw1 & Hc1 & _);
      [eapply words_lookup; [apply Hb|done]|done|done|]. wp_steps.
    split; [|lia]. split; [unfold word; lia|]. split; [lia|].
    eapply holds_eq; [by apply holds_insert|]. rewrite Bp_S.
    replace x with (w1 + B * c1 - c) by lia. ring.
  - intros [[out c] i] (Hc & Hle & Hb) Hcond. wp_step.
    apply holds_uwf in Hb as [? ->]. split; [done|].
    apply andb_false_iff in Hcond as [Hcond|Hcond]; bool_hyps.
    + replace i with LIMBS by lia. exists (- c). unfold R. lia.
    + exists 0. subst. lia.
Qed.

Lemma sub_word_at_wp u index w : uwf u -> word w -> (index <= LIMBS)%nat ->
  wp (sub_word_at u index w) (fun '(s, _) =>
    uwf s /\ exists k, val s = val u - w * Bp index + k * R).
Proof.
  intros Hu Hw Hi. unfold sub_word_at. wp_step.
  apply (wp_while (fun '(out, c, i) => word c /\ (i <= LIMBS)%nat /\
      holds LIMBS out (val u - w * Bp index + c * Bp i))
    (fun '(out, c, i) => (LIMBS - i)%nat)).
  - split; [done|]. split; [done|]. eapply holds_eq; [by apply uwf_holds|]. ring.
  - lia.
  - intros [[out c] i] (Hc & Hle & Hb) Hcond. bool_hyps.
    assert (length out = LIMBS) by apply Hb. wp_steps.
    destruct (sbb_spec x c 0) as (w1 & c1 & -> & He & Hw1 & Hc1);
      [eapply words_lookup; [apply Hb|done]|done|done|]. wp_steps.
    split; [|lia]. split; [unfold word; lia|]. split; [lia|].
    eapply holds_eq; [by apply holds_insert|]. rewrite Bp_S.
    replace x with (w1 - B * c1 + c) by lia. ring.
  - intros [[out c] i] (Hc & Hle & Hb) Hcond. wp_step.
    apply holds_uwf in Hb as [? ->]. split; [done|].
    apply andb_false_iff in Hcond as [Hcond|Hcond]; bool_hyps.
    + replace i with LIMBS by lia. exists c. unfold R. lia.
    + exists 0. subst. lia.
Qed.

Lemma add_u128_wp u v : uwf u -> 0 <= v < 2 ^ 128 -> (0 < LIMBS)%nat ->
  wp (add_u128 u v) (fun r => uwf r /\ val r = (val u + v) mod R).
Proof.
  intros Hu Hv HL. unfold add_u128. destruct (split_u128 v Hv) as (Hs & _ & _).
  wp_step. eapply wp_mono; [by apply add_word_wp; [|apply u64_word|]|].
  intros [a c] (Ha & Hea & Hc). wp_step.
  eapply wp_mono; [by apply add_word_at_wp; [|apply u64_word|]|].
  intros [r c'] (Hr & k & Her). wp_step. split; [done|].
  apply (val_mod_R _ _ (k - c)); [done|]. rewrite Her, Bp_1. lia.
Qed.

Lemma sub_u128_wp u v : uwf u -> 0 <= v < 2 ^ 128 -> (0 < LIMBS)%nat ->
  wp (sub_u128 u v) (fun r => uwf r /\ val r = (val u - v) mod R).
Proof.
  intros Hu Hv HL. unfold sub_u128. destruct (split_u128 v Hv) as (Hs & _ & _).
  wp_step. eapply wp_mono; [by apply sub_word_wp; [|apply u64_word|]|].
  intros [a c] (Ha & Hea & Hc). wp_step.
  eapply wp_mono; [by apply sub_word_at_wp; [|apply u64_word|]|].
  intros [r c'] (Hr & k & Her). wp_step. split; [done|].
  apply (val_mod_R _ _ (k + c)); [done|]. rewrite Her, Bp_1. lia.
Qed.

Lemma mul_u128_wp u v : uwf u -> 0 <= v < 2 ^ 128 -> (0 < LIMBS)%nat ->
  wp (mul_u128 u v) (fun r => uwf r /\ val r = (val u * v) mod R).
Proof.
  intros Hu Hv HL. unfold mul_u128. destruct (split_u128 v Hv) as (Hs & _ & _).
  set (lo := u64 v) in *. set (hi := u64 (Z.shiftr v 64)) in *.
  assert (Hlo : word lo) by apply u64_word. assert (Hhi : word hi) by apply u64_word.
  wp_if; bool_hyps.
  - wp_step. eapply wp_mono; [by apply mul_word_wp|].
    intros [r c] (Hr & Her & Hc). wp_step. split; [done|].
    apply (val_mod_R _ _ (- c)); [done|]. rewrite <- Hs, Heqb. lia.
  - wp_step. eapply wp_mono; [by apply mul_word_wp|].
    intros [low c] (Hlw & Hel & Hc). wp_step. eapply wp_mono; [by apply mul_word_wp|].
    intros [high c'] ([Hh1 Hh2] & Heh & Hc'). wp_step.
    apply (wp_for (fun i '(out, c) => 0 <= c <= 1 /\
      holds LIMBS out (val low + B * eval (take (i - 1) (limbs high)) - c * Bp i)));
      [lia| |intros i [out k] Hi [Hk Hb]|intros [out k] [Hk Hb]].
    + split; [lia|]. eapply holds_eq; [by apply uwf_holds|]. simpl. lia.
    + assert (length out = LIMBS) by apply Hb. wp_steps.
      destruct (adc_spec x x0 k) as (w1 & c1 & -> & He & Hw1 & Hc1 & Hc2);
        [eapply words_lookup; [apply Hb|done]|eauto with words|unfold word; lia|]. wp_steps.
      split; [lia|]. eapply holds_eq; [by apply holds_insert|].
      destruct i as [|i]; [lia|]. simpl in *. rewrite Nat.sub_0_r in *.
      erewrite eval_take_S by done. rewrite !Bp_S.
      replace x with (w1 + B * c1 - x0 - k) by lia. ring.
    + wp_step. apply holds_uwf in Hb as [Hwf Hv']. split; [done|].
      destruct (lookup_lt_is_Some_2 (limbs high) (LIMBS - 1)) as [t Ht]; [lia|].
      pose proof (eval_take_S _ _ _ Ht) as HtS.
      replace (S (LIMBS - 1)) with LIMBS in HtS by lia.
      rewrite eval_take_all in HtS by done. fold (val high) in HtS.
      assert (HR : R = B * Bp (LIMBS - 1)).
      { unfold R. rewrite <- Bp_S. f_equal. lia. }
      apply (val_mod_R _ _ (- c - c' * B - t - k)); [done|]. rewrite Hv', <- Hs.
      replace (Bp LIMBS) with R by done.
      replace (eval (take (LIMBS - 1) (limbs high)))
        with (val u * hi - c' * R - t * Bp (LIMBS - 1)) by lia.
      replace (val low) with (val u * lo - c * R) by lia.
      rewrite HR. ring.
Qed.

Lemma from_u64_wf v : word v -> uwf (from_u64 v).
Proof.
  intros Hv. unfold from_u64, uwf. simpl. destruct (Nat.ltb_spec 0 LIMBS).
  - split; [by rewrite length_insert, length_zeros|].
    apply words_insert; [apply words_zeros'|done].
  - split; [apply length_zeros|apply words_zeros'].
Qed.

Lemma zeros_lookup i : (i < LIMBS)%nat -> zeros !! i = Some 0.
Proof. intros. apply lookup_replicate. done. Qed.

Lemma from_u64_val v : (0 < LIMBS)%nat -> val (from_u64 v) = v.
Proof.
  intros HL. unfold from_u64, val. simpl. destruct (Nat.ltb_spec 0 LIMBS); [|lia].
  rewrite (eval_insert _ _ _ 0) by (by apply zeros_lookup).
  rewrite eval_zeros', Bp_0. lia.
Qed.

Lemma ONE_wf : uwf ONE.
Proof. by apply from_u64_wf. Qed.

Lemma ONE_val : (0 < LIMBS)%nat -> val ONE = 1.
Proof. apply from_u64_val. Qed.

Lemma uint_from_u128_spec v : 0 <= v < 2 ^ 128 -> (0 < LIMBS)%nat ->
  uwf (uint_from_u128 v) /\ val (uint_from_u128 v) = v mod R.
Proof.
  intros Hv HL. destruct (split_u128 v Hv) as (Hs & Hw & Hd).
  unfold uint_from_u128. destruct (Nat.ltb_spec 0 LIMBS); [|lia].
  set (l0 := <[0%nat:=u64 v]> zeros).
  assert (H0 : holds LIMBS l0 (u64 v)).
  { eapply holds_eq; [apply (holds_insert _ _ 0 _ 0)|]; [..|rewrite Bp_0; lia].
    - split; [apply length_zeros|]. split; [apply words_zeros'|apply eval_zeros'].
    - by apply zeros_lookup.
    - apply u64_word. }
  destruct (Nat.ltb_spec 1 LIMBS).
  - assert (Hh : holds LIMBS (<[1%nat:=u64 (Z.shiftr v 64)]> l0) v).
    { eapply holds_eq; [eapply (holds_insert _ _ _ _ 0); [done| |apply u64_word]|].
      - unfold l0. rewrite list_lookup_insert_ne by lia. by apply zeros_lookup.
      - rewrite Bp_1. lia. }
    apply holds_uwf in Hh as [? ?]. split; [done|]. rewrite Z.mod_small; [done|].
    split; [lia|]. unfold R. pose proof (Bp_le 2 LIMBS ltac:(lia)).
    unfold Bp, B in *. lia.
  - apply holds_uwf in H0 as [? ?]. split; [done|].
    replace R with (2 ^ 64); [done|]. unfold R. replace LIMBS with 1%nat by lia. done.
Qed.

End Uint_proofs.
