(* ===== verification/BigUintBits.v ===== *)
(** * big_number: bit-level operations of [Uint]

    [bit], [bit_len], [is_zero], the one-bit left shift, and the bit-serial
    division [div_rem_u128], related to [Z.testbit], [bits_of] and [Z.div]. *)
From Stdlib Require Import ZArith Lia.
From stdpp Require Import base list numbers option.
From S2P Require Import Prelude Words Limbs BigUint.

(** ** Bits of a limb vector *)

Lemma pow2_pos n : 0 < 2 ^ Z.of_nat n.
Proof. lia. Qed.

Lemma pow2_S n : 2 ^ Z.of_nat (S n) = 2 * 2 ^ Z.of_nat n.
Proof. rewrite Nat2Z.inj_succ, Z.pow_succ_r by lia. done. Qed.

Lemma pow2_split i : 2 ^ Z.of_nat i = Bp (i / 64) * 2 ^ Z.of_nat (i mod 64).
Proof.
  rewrite Bp_pow2, <- Z.pow_add_r by lia. f_equal.
  pose proof (Nat.div_mod_eq i 64). lia.
Qed.

Lemma limb_testbit l i x : words l -> l !! (i / 64)%nat = Some x ->
  Z.testbit x (Z.of_nat (i mod 64)) = Z.testbit (eval l) (Z.of_nat i).
Proof.
  intros Hw Hx. rewrite (lookup_eval _ _ _ Hw Hx).
  pose proof (Nat.mod_upper_bound i 64 ltac:(lia)).
  unfold B. rewrite Z.mod_pow2_bits_low by lia.
  rewrite Bp_pow2, Z.div_pow2_bits by lia. f_equal.
  pose proof (Nat.div_mod_eq i 64). lia.
Qed.

Lemma land_1_b2z x n : 0 <= n -> Z.land (Z.shiftr x n) 1 = b2z (Z.testbit x n).
Proof.
  intros Hn. change 1 with (Z.ones 1). rewrite Z.land_ones by lia.
  rewrite <- (Z.add_0_l n) at 2. rewrite <- Z.shiftr_spec by lia.
  change (2 ^ 1) with 2. rewrite Z.bit0_odd, Zmod_odd. done.
Qed.

Lemma land_1_testbit x n : 0 <= n ->
  (Z.land (Z.shiftr x n) 1 =? 1) = Z.testbit x n.
Proof. intros Hn. rewrite land_1_b2z by done. by destruct (Z.testbit x n). Qed.

Lemma bits_of_high e x k : 0 <= k -> 0 <= e < 2 ^ k -> 0 < x ->
  bits_of (e + x * 2 ^ k) = k + bits_of x.
Proof.
  intros Hk He Hx. unfold bits_of.
  destruct (Z.eqb_spec (e + x * 2 ^ k) 0); [nia|].
  destruct (Z.eqb_spec x 0); [lia|].
  pose proof (Z.log2_spec x Hx) as [H1 H2].
  pose proof (Z.log2_nonneg x).
  rewrite (Z.log2_unique (e + x * 2 ^ k) (k + Z.log2 x)); [lia|lia|].
  rewrite Z.pow_succ_r in * by lia. rewrite Z.pow_add_r by lia. nia.
Qed.

Section Bits.
Context {D : Dims}.

Lemma LIMBS_bound i : (i < BITS)%nat -> (i / 64 < LIMBS)%nat.
Proof.
  intros Hi. rewrite LIMBS_check. unfold div_ceil.
  apply Nat.Div0.div_lt_upper_bound.
  pose proof (Nat.div_mod_eq (BITS + 64 - 1) 64).
  pose proof (Nat.mod_upper_bound (BITS + 64 - 1) 64 ltac:(lia)). lia.
Qed.

Lemma BITS_le_LIMBS : (BITS <= 64 * LIMBS)%nat.
Proof.
  rewrite LIMBS_check. unfold div_ceil.
  pose proof (Nat.div_mod_eq (BITS + 64 - 1) 64).
  pose proof (Nat.mod_upper_bound (BITS + 64 - 1) 64 ltac:(lia)). lia.
Qed.

Lemma R_pow2 : R = 2 ^ (64 * Z.of_nat LIMBS).
Proof. apply Bp_pow2. Qed.

Lemma bit_spec u i : uwf u ->
  bit u i = Some ((Z.of_nat i <? Z.of_nat BITS) && Z.testbit (val u) (Z.of_nat i)).
Proof.
  intros [Hl Hw]. unfold bit. destruct (Nat.leb_spec BITS i) as [Hge|Hlt].
  - destruct (Z.ltb_spec (Z.of_nat i) (Z.of_nat BITS)); [lia|done].
  - destruct (Z.ltb_spec (Z.of_nat i) (Z.of_nat BITS)); [|lia].
    destruct (lookup_lt_is_Some_2 (limbs u) (i / 64)) as [x Hx].
    { rewrite Hl. by apply LIMBS_bound. }
    rewrite Hx. cbn [mbind option_bind]. f_equal.
    rewrite land_1_testbit by lia. by apply limb_testbit.
Qed.

Lemma is_zero_spec u : uwf u -> is_zero u = Some (val u =? 0).
Proof.
  intros [Hl Hw].
  enough (wp (is_zero u) (fun r => r = (val u =? 0))) as H.
  { by destruct (wp_elim _ _ H) as (r & -> & ->). }
  unfold is_zero. wp_step.
  apply (wp_for (fun i acc => 0 <= acc /\ (acc = 0 <-> eval (take i (limbs u)) = 0)));
    [lia|done|intros i acc Hi [Ha1 Ha2]|intros acc [Ha1 Ha2]].
  - wp_steps. assert (Hx : word x) by eauto with words. unfold word in Hx.
    split; [apply Z.lor_nonneg; lia|].
    rewrite lor_0_iff, Ha2 by lia. erewrite eval_take_S by done.
    pose proof (eval_bound _ (words_take i _ Hw)) as Hb.
    pose proof (Bp_pos i). split; [lia|]. intros He. nia.
  - wp_step. rewrite eval_take_all in Ha2 by done. unfold val.
    destruct (Z.eqb_spec acc 0), (Z.eqb_spec (eval (limbs u)) 0); tauto.
Qed.

Lemma bit_len_from_spec l i : words l -> (i <= length l)%nat ->
  bit_len_from l i = Some (bits_of (eval (take i l))).
Proof.
  intros Hw. induction i as [|i IH]; intros Hi; [done|]. cbn [bit_len_from].
  destruct (lookup_lt_is_Some_2 l i) as [x Hx]; [lia|].
  rewrite Hx. cbn [mbind option_bind]. erewrite eval_take_S by done.
  destruct (Z.eqb_spec x 0) as [->|Hne]; cbn [negb].
  - rewrite IH by lia. do 2 f_equal. lia.
  - f_equal. pose proof (words_lookup _ _ _ Hw Hx) as Hxw. unfold word in Hxw.
    rewrite Bp_pow2, bits_of_high; [unfold leading_zeros64; lia|lia| |lia].
    rewrite <- Bp_pow2. pose proof (eval_bound _ (words_take i _ Hw)) as Hb.
    rewrite length_take_le in Hb by lia. done.
Qed.

Lemma bit_len_spec u : uwf u -> bit_len u = Some (bits_of (val u)).
Proof.
  intros [Hl Hw]. unfold bit_len. rewrite bit_len_from_spec by (done || lia).
  by rewrite eval_take_all by done.
Qed.

(** ** The one-bit shift *)

Lemma shl1_word x c : word x -> 0 <= c <= 1 ->
  Z.lor (u64 (Z.shiftl x 1)) c = 2 * x + c - B * Z.shiftr x 63 /\
  word (2 * x + c - B * Z.shiftr x 63) /\ 0 <= Z.shiftr x 63 <= 1.
Proof.
  unfold word. intros Hx Hc. rewrite shiftl_mul, shiftr_div by lia.
  pose proof (Z.div_mod x (2 ^ 63)) as Hdm. pose proof (Z.mod_pos_bound x (2 ^ 63)).
  assert (0 <= x / 2 ^ 63 <= 1).
  { split; [apply Z.div_pos; lia|].
    apply Zlt_succ_le. apply Z.div_lt_upper_bound; lia. }
  assert (Hu : u64 (x * 2 ^ 1) = 2 * (x mod 2 ^ 63)).
  { unfold u64. symmetry. apply (Z.mod_unique_pos _ _ (x / 2 ^ 63)); lia. }
  rewrite Hu. split; [|unfold B; lia].
  rewrite (lor_add _ _ 1); [unfold B; lia|lia| |lia].
  rewrite Z.mul_comm. apply Z.mod_mul. lia.
Qed.

Lemma shl1_into_wp l v b : holds LIMBS l v -> 0 <= b <= 1 ->
  wp (shl1_into l b) (fun '(l', c) =>
    holds LIMBS l' (2 * v + b - c * R) /\ 0 <= c <= 1).
Proof.
  intros (Hl & Hw & He) Hb. unfold shl1_into.
  apply (wp_for (fun i '(l', c) => 0 <= c <= 1 /\ drop i l' = drop i l /\
    holds LIMBS l' (v + eval (take i l) + b - c * Bp i)));
    [lia| |intros i [l' c] Hi (Hc & Hd & Hh)|intros [l' c] (Hc & Hd & Hh)].
  - split; [done|]. split; [done|]. split; [done|]. split; [done|].
    rewrite Bp_0. simpl. lia.
  - assert (length l' = LIMBS) by apply Hh. wp_steps.
    assert (Hx : word x) by (eapply words_lookup; [apply Hh|done]).
    destruct (shl1_word x c Hx Hc) as (-> & Hw' & Hc').
    wp_steps. split; [done|]. split.
    { rewrite drop_insert_lt by lia. rewrite <- (Nat.add_1_r i), <- !drop_drop, Hd. done. }
    assert (Hlx : l !! i = Some x).
    { rewrite <- (Nat.add_0_r i), <- lookup_drop, <- Hd, lookup_drop.
      by rewrite Nat.add_0_r. }
    eapply holds_eq; [by apply holds_insert|]. rewrite (eval_take_S _ _ _ Hlx), Bp_S. ring.
  - split; [|done]. eapply holds_eq; [done|]. rewrite eval_take_all by done.
    unfold R. lia.
Qed.

(** ** Setting a quotient bit *)

Lemma set_bit_holds n l v i x : holds n l v -> v mod 2 ^ Z.of_nat (S i) = 0 ->
  l !! (i / 64)%nat = Some x ->
  holds n (<[(i / 64)%nat := Z.lor x (u64 (Z.shiftl 1 (Z.of_nat (i mod 64))))]> l)
    (v + 2 ^ Z.of_nat i).
Proof.
  intros Hh Hv Hx. pose proof Hh as (Hl & Hw & He).
  pose proof (words_lookup _ _ _ Hw Hx) as Hxw.
  pose proof (Nat.mod_upper_bound i 64 ltac:(lia)) as Hm.
  rewrite shiftl_mul, Z.mul_1_l by lia.
  assert (Hp : word (2 ^ Z.of_nat (i mod 64))).
  { split; [lia|]. apply Z.pow_lt_mono_r; lia. }
  rewrite (u64_id _ Hp).
  assert (Hlow : x mod 2 ^ Z.of_nat (S (i mod 64)) = 0).
  { assert (HB : B = 2 ^ Z.of_nat (S (i mod 64)) * 2 ^ (63 - Z.of_nat (i mod 64))).
    { unfold B. rewrite <- Z.pow_add_r by lia. f_equal. lia. }
    rewrite (lookup_eval _ _ _ Hw Hx), He, HB, Z.rem_mul_r by lia.
    rewrite (Z.mul_comm (2 ^ Z.of_nat _) (_ mod _)), Z.mod_add, Z.mod_mod by lia.
    apply Z.mod_divide in Hv; [|lia]. destruct Hv as [q ->].
    rewrite pow2_S, (pow2_split i).
    replace (q * (2 * (Bp (i / 64) * 2 ^ Z.of_nat (i mod 64))))
      with (q * 2 ^ Z.of_nat (S (i mod 64)) * Bp (i / 64)) by (rewrite pow2_S; ring).
    rewrite Z.div_mul by (pose proof (Bp_pos (i / 64)); lia). apply Z.mod_mul. lia. }
  rewrite (lor_add _ _ (Z.of_nat (S (i mod 64)))); [|lia|done|rewrite pow2_S; lia].
  eapply holds_eq; [apply holds_insert; [done|done|]|rewrite (pow2_split i); ring].
  apply Z.mod_divide in Hlow; [|lia]. destruct Hlow as [q Hq].
  unfold word in *. split; [lia|].
  assert (Hr : 2 ^ 64 = 2 ^ (63 - Z.of_nat (i mod 64)) * 2 ^ Z.of_nat (S (i mod 64))).
  { rewrite <- Z.pow_add_r by lia. f_equal. lia. }
  rewrite pow2_S in *.
  assert (q < 2 ^ (63 - Z.of_nat (i mod 64))) by nia. nia.
Qed.

(** ** Bit-serial division *)

(** One step of binary long division, on numbers. *)
Lemma longdiv_step V d i : 0 <= V -> 0 < d ->
  let r := (V / 2 ^ Z.of_nat (S i)) mod d in
  let t := 2 * r + b2z (Z.testbit V (Z.of_nat i)) in
  (V / 2 ^ Z.of_nat i) mod d = (if d <=? t then t - d else t) /\
  (V / 2 ^ Z.of_nat i) / d
    = 2 * ((V / 2 ^ Z.of_nat (S i)) / d) + (if d <=? t then 1 else 0).
Proof.
  intros HV Hd r t.
  set (q := (V / 2 ^ Z.of_nat (S i)) / d).
  assert (Hb : V / 2 ^ Z.of_nat i
     = 2 * (V / 2 ^ Z.of_nat (S i)) + b2z (Z.testbit V (Z.of_nat i))).
  { rewrite pow2_S, (Z.mul_comm 2 (2 ^ _)), <- Z.div_div by lia.
    pose proof (Z.div_mod (V / 2 ^ Z.of_nat i) 2 ltac:(lia)) as H.
    assert (b2z (Z.testbit V (Z.of_nat i)) = (V / 2 ^ Z.of_nat i) mod 2); [|lia].
    rewrite <- (Z.add_0_l (Z.of_nat i)), <- Z.div_pow2_bits, Z.add_0_l by lia.
    rewrite Z.bit0_odd, Zmod_odd. by destruct (Z.odd _). }
  pose proof (Z.div_mod (V / 2 ^ Z.of_nat (S i)) d ltac:(lia)) as Hdm.
  pose proof (Z.mod_pos_bound (V / 2 ^ Z.of_nat (S i)) d Hd) as Hr.
  fold r q in Hdm, Hr.
  assert (Hbb : 0 <= b2z (Z.testbit V (Z.of_nat i)) <= 1) by (destruct (Z.testbit _ _); simpl; lia).
  assert (Ht : V / 2 ^ Z.of_nat i = 2 * q * d + t) by (unfold t; lia).
  rewrite Ht. destruct (Z.leb_spec d t).
  - split; symmetry.
    + apply (Z.mod_unique_pos _ _ (2 * q + 1)); lia.
    + apply (Z.div_unique_pos _ _ _ (t - d)); lia.
  - split; symmetry.
    + apply (Z.mod_unique_pos _ _ (2 * q)); lia.
    + apply (Z.div_unique_pos _ _ _ t); lia.
Qed.

(** One step of the code's remainder update, against [longdiv_step]. *)
Lemma rem_step rl c d t : holds LIMBS rl (t - c * R) -> 0 <= c <= 1 ->
  uwf d -> 0 <= t < 2 * val d ->
  wp (sub_raw (mkUint rl) d) (fun '(s, b) =>
    uwf s /\ 0 <= b <= 1 /\ ((c =? 1) || (b =? 0) = (val d <=? t)) /\
    (val d <= t -> val s = t - val d)).
Proof.
  intros Hh Hc Hd Ht. apply holds_uwf in Hh as [Hwf Hv].
  eapply wp_mono; [by apply sub_raw_wp|]. intros [s b] (Hs & He & Hb).
  pose proof (val_bound _ Hd). pose proof (val_bound _ Hs). pose proof (val_bound _ Hwf).
  rewrite Hv in *.
  split; [done|]. split; [done|].
  assert (c = 0 \/ c = 1) as [-> | ->] by lia; assert (b = 0 \/ b = 1) as [-> | ->] by lia;
    destruct (Z.leb_spec (val d) t); simpl; split; done || lia.
Qed.

(** The loop invariant of [div_rem_u128]: the bits at or above [i] of [V] have
    been divided by [v]. *)
Definition div_inv (V v : Z) (i : nat) '((q, r) : Uint * Uint) : Prop :=
  uwf q /\ uwf r /\
  val q = (V / 2 ^ Z.of_nat i) / v * 2 ^ Z.of_nat i /\
  val r = (V / 2 ^ Z.of_nat i) mod v.

Lemma div_rem_step_wp u d i qr : uwf u -> uwf d -> 0 < val d -> (i < BITS)%nat ->
  div_inv (val u) (val d) (S i) qr ->
  wp (div_rem_step u d i qr) (div_inv (val u) (val d) i).
Proof.
  destruct qr as [q r]. intros Hu Hd Hpos Hi (Hq & Hr & Hqv & Hrv).
  unfold div_rem_step. rewrite bit_spec by done.
  destruct (Z.ltb_spec (Z.of_nat i) (Z.of_nat BITS)); [|lia]. cbn [andb]. wp_steps.
  pose proof (val_bound _ Hu).
  destruct (longdiv_step (val u) (val d) i ltac:(lia) ltac:(lia)) as [Hlm Hld].
  rewrite <- Hrv in Hlm, Hld. set (bt := Z.testbit (val u) (Z.of_nat i)) in *.
  assert (Hbb : 0 <= b2z bt <= 1) by (destruct bt; simpl; lia).
  pose proof (Z.mod_pos_bound (val u / 2 ^ Z.of_nat (S i)) _ Hpos) as Hrb.
  rewrite <- Hrv in Hrb.
  eapply wp_mono; [apply shl1_into_wp; [by apply uwf_holds|done]|].
  intros [rl c] [Hh Hc]. wp_step.
  eapply wp_mono; [apply (rem_step rl c d); [done|done|done|lia]|].
  intros [s b] (Hsw & Hb & Hsel & Hsv).
  replace (negb (c =? 0)) with (c =? 1)
    by (assert (c = 0 \/ c = 1) as [-> | ->] by lia; done).
  rewrite Hsel. destruct (Z.leb_spec (val d) (2 * val r + b2z bt)).
  - assert (length (limbs q) = LIMBS) by apply Hq.
    assert (i / 64 < LIMBS)%nat by (by apply LIMBS_bound).
    wp_steps. destruct (holds_uwf _ _ (set_bit_holds LIMBS (limbs q) (val q) i x
      (uwf_holds _ Hq) ltac:(rewrite Hqv; apply Z.mod_mul; lia) ltac:(done))) as [Hqw' Hqv'].
    split_and!; [done|done| |lia]. rewrite Hqv', Hqv, Hld, pow2_S. ring.
  - wp_step. apply holds_uwf in Hh as [Hrw Hrv'].
    assert (c = 0) as -> by (pose proof (val_bound _ Hrw); pose proof (val_bound _ Hd); nia).
    split_and!; [done|done|rewrite Hqv, Hld, pow2_S; ring|lia].
Qed.

(** A value below [2^128] is its two low limbs. *)
Lemma two_limbs u x y : uwf u -> 0 <= val u < 2 ^ 128 ->
  limbs u !! 0%nat = Some x -> limbs u !! 1%nat = Some y ->
  Z.lor x (u128 (Z.shiftl y 64)) = val u.
Proof.
  intros [Hl Hw] Hv Hx Hy.
  pose proof (words_lookup _ _ _ Hw Hx) as Hxw. pose proof (words_lookup _ _ _ Hw Hy) as Hyw.
  apply lookup_eval in Hx, Hy; [|done..]. rewrite Bp_0, Z.div_1_r in Hx. rewrite Bp_1 in Hy.
  fold (val u) in Hx, Hy.
  assert (word (val u / B)).
  { unfold B. split; [apply Z.div_pos; lia|apply Z.div_lt_upper_bound; lia]. }
  unfold B in *. rewrite Z.mod_small in Hy by done.
  rewrite shiftl_mul, Z.lor_comm by lia. unfold u128, word in *. rewrite Z.mod_small by lia.
  rewrite (lor_add _ _ 64); [|lia|apply Z.mod_mul; lia|done].
  pose proof (Z.div_mod (val u) (2 ^ 64)). lia.
Qed.

Lemma Bp_2_le : (2 <= LIMBS)%nat -> 2 ^ 128 <= R.
Proof. intros. unfold R. pose proof (Bp_le 2 LIMBS ltac:(lia)). unfold Bp, B in *. lia. Qed.

Lemma single_limb u x : uwf u -> LIMBS = 1%nat -> limbs u !! 0%nat = Some x -> val u = x.
Proof.
  intros [Hl _] HL Hx. unfold val. rewrite HL in Hl.
  destruct (limbs u) as [|y [|? ?]]; simplify_eq/=. lia.
Qed.

Lemma div_rem_u128_wp u v : uwf u -> 0 < v < 2 ^ 128 -> (0 < LIMBS)%nat ->
  val u < 2 ^ Z.of_nat BITS ->
  wp (div_rem_u128 u v) (fun '(q, r) =>
    uwf q /\ val q = val u / v /\ r = val u mod v).
Proof.
  intros Hu Hv HL HB. pose proof (val_bound _ Hu) as Hub.
  assert (length (limbs u) = LIMBS) by apply Hu.
  unfold div_rem_u128. wp_steps. wp_if; bool_hyps; [|wp_if; bool_hyps].
  - rewrite u64_id by (unfold word; lia). wp_step.
    eapply wp_mono; [apply div_rem_word_wp; [done|unfold word; lia|lia]|].
    intros [q r] (Hq & He & Hr). wp_step. split; [done|]. split.
    + apply (Z.div_unique_pos _ _ _ r); lia.
    + apply (Z.mod_unique_pos _ _ (val q)); lia.
  - wp_steps. assert (HL1 : LIMBS = 1%nat) by lia.
    rewrite <- (single_limb u x) by done.
    assert (R = 2 ^ 64) by (unfold R; by rewrite HL1).
    split; [apply ZERO_wf|]. rewrite ZERO_val, Z.div_small, Z.mod_small by lia. done.
  - wp_steps; [rewrite length_zeros; lia|rewrite length_insert, length_zeros; lia|].
    pose proof (Bp_2_le ltac:(lia)) as HR.
    destruct (uint_from_u128_spec v ltac:(lia) HL) as [Hd Hdv].
    unfold uint_from_u128 in Hd, Hdv.
    destruct (Nat.ltb_spec 0 LIMBS), (Nat.ltb_spec 1 LIMBS); try lia.
    set (d := mkUint _) in *. rewrite Z.mod_small in Hdv by lia. rewrite <- Hdv in *.
    rewrite bit_len_spec by done. wp_steps.
    pose proof (bits_of_spec (val u) ltac:(lia)) as (Hn0 & Hn & _).
    pose proof (bits_of_le (val u) _ (conj (proj1 Hub) HB) ltac:(lia)) as Hnb.
    apply (wp_for_down (div_inv (val u) (val d))).
    + unfold div_inv. rewrite Z2Nat.id, (Z.div_small (val u)), Z.div_0_l, Z.mod_0_l by lia.
      split_and!; auto using ZERO_wf, ZERO_val.
    + intros i qr Hi Hinv. apply div_rem_step_wp; auto; lia.
    + intros [q r] (Hq & Hr & Hqv & Hrv). change (2 ^ Z.of_nat 0) with 1 in *.
      rewrite Z.div_1_r in *. assert (length (limbs r) = LIMBS) by apply Hr. wp_steps.
      pose proof (Z.mod_pos_bound (val u) (val d) ltac:(lia)).
      split_and!; [done|lia|]. rewrite <- Hrv. apply two_limbs; auto. lia.
Qed.

End Bits.
