(* ===== verification/BigUintMul.v ===== *)
(** * big_number: wide multiplication, bit-serial reduction, [modpow]

    The schoolbook product ([mul_limbs], [mul_wide_internal]), the
    shift-and-subtract reduction, modular multiplication and modular
    exponentiation of src/big_number/big_number.rs. *)
From Stdlib Require Import ZArith Lia.
From stdpp Require Import base list numbers option.
From S2P Require Import Prelude Words Limbs BigUint BigUintBits.

(** [while carry != 0 && k < len { (out[k], carry) = adc(out[k], 0, carry); k += 1 }] *)
Definition propagate (len : nat) (out : list Z) (carry : Z) (k : nat)
  : option (list Z) :=
  '(out, _, _) ← while_loop (len + 1)
    (fun '(out, carry, k) => negb (carry =? 0) && (k <? len)%nat)
    (fun '(out, carry, k) =>
      x ← out !! k;
      let '(word, next_carry) := adc x 0 carry in
      out ← upd out k word;
      Some (out, next_carry, S k)) (out, carry, k);
  Some out.

(** Row [i] of the schoolbook product: [out += a[i] * b[..b_len] << 64 i]. *)
Definition mul_row (len : nat) (a b : list Z) (b_len i : nat) (out : list Z)
  : option (list Z) :=
  '(out, carry) ← for_loop 0 b_len (fun j '(out, carry) =>
      x ← out !! (i + j)%nat;
      y ← a !! i;
      z ← b !! j;
      let '(word, next_carry) := mac x y z carry in
      out ← upd out (i + j) word;
      Some (out, next_carry)) (out, 0);
  propagate len out carry (i + b_len).

Definition mul_limbs (out a : list Z) (a_len : nat) (b : list Z) (b_len : nat)
  : option (list Z) :=
  for_loop 0 a_len (fun i out => mul_row (length out) a b b_len i out) out.

Section Mul.
Context {D : Dims}.

Definition mul_wide_internal (self rhs : Uint) : option (list Z) :=
  _ ← rassert (LIMBS * 2 <=? MAX_LIMBS)%nat;
  for_loop 0 LIMBS (fun i out => mul_row MAX_LIMBS (limbs self) (limbs rhs) LIMBS i out)
    (replicate MAX_LIMBS 0).

(** One bit of the shift-and-subtract reduction. *)
Definition reduce_step (product : list Z) (modulus : Uint) (bit_index : nat) (rem : Uint)
  : option Uint :=
  x ← product !! (bit_index / 64)%nat;
  let bit := Z.land (Z.shiftr x (Z.of_nat (bit_index mod 64))) 1 in
  '(shifted, carry) ← for_loop 0 LIMBS (fun i '(shifted, carry) =>
      y ← limbs rem !! i;
      let next := Z.shiftr y 63 in
      shifted ← upd shifted i (Z.lor (u64 (Z.shiftl y 1)) carry);
      Some (shifted, next)) (zeros, bit);
  '(reduced, borrow) ← sub_raw (mkUint shifted) modulus;
  ct_select reduced (mkUint shifted) (negb (Z.lor carry (Z.lxor borrow 1) =? 0)).

Definition reduce_wide_internal (product : list Z) (modulus : Uint) : option Uint :=
  for_down (LIMBS * 128) (reduce_step product modulus) ZERO.

Definition mul_mod (self rhs modulus : Uint) : option Uint :=
  product ← mul_wide_internal self rhs;
  reduce_wide_internal product modulus.

(** The square-and-multiply loop of [modpow] and [modpow_barrett_impl], over
    the multiplication [mulm] it uses. *)
Definition modpow_loop (mulm : Uint -> Uint -> option Uint) (exp base : Uint)
  : option Uint :=
  bits ← bit_len exp;
  '(result, _) ← for_loop 0 (Z.to_nat bits) (fun i '(result, base) =>
      e ← bit exp i;
      result ← (if e : bool then mulm result base else Some result);
      base ← (if (Z.of_nat (S i) <? bits) then mulm base base else Some base);
      Some (result, base)) (ONE, base);
  Some result.

Definition modpow (self exp modulus : Uint) : option Uint :=
  base ← mul_mod self ONE modulus;
  modpow_loop (fun a b => mul_mod a b modulus) exp base.

(** [Mul for Uint]: the low [LIMBS] limbs of the wide product. *)
Definition uint_mul (self rhs : Uint) : option Uint :=
  product ← mul_wide_internal self rhs;
  l ← for_loop 0 LIMBS (fun i l => x ← product !! i; upd l i x) zeros;
  Some (mkUint l).

Definition uint_add (self rhs : Uint) : option Uint :=
  '(r, _) ← add_raw self rhs; Some r.

Definition uint_sub (self rhs : Uint) : option Uint :=
  '(r, _) ← sub_raw self rhs; Some r.

End Mul.

(** ** The schoolbook product *)

Lemma propagate_wp len out carry k v : holds len out v -> word carry ->
  (k <= len)%nat -> 0 <= v + carry * Bp k < Bp len ->
  wp (propagate len out carry k) (fun out' => holds len out' (v + carry * Bp k)).
Proof.
  intros Hh Hc Hk Hv. unfold propagate. wp_step.
  apply (wp_while (fun '(out', c, i) => word c /\ (i <= len)%nat /\
      holds len out' (v + carry * Bp k - c * Bp i))
    (fun '(out', c, i) => (len - i)%nat)).
  - split_and!; [done|done|]. eapply holds_eq; [done|]. ring.
  - lia.
  - intros [[out' c] i] (Hc' & Hi & Hh') Hcond. bool_hyps.
    assert (length out' = len) by apply Hh'. wp_steps.
    destruct (adc_spec x 0 c) as (w1 & c1 & -> & He & Hw1 & Hc1 & _);
      [eapply words_lookup; [apply Hh'|done]|done|done|]. wp_steps.
    split; [|lia]. split_and!; [unfold word; lia|lia|].
    eapply holds_eq; [by apply holds_insert|]. rewrite Bp_S.
    replace x with (w1 + B * c1 - c) by lia. ring.
  - intros [[out' c] i] (Hc' & Hi & Hh') Hcond. wp_step.
    eapply holds_eq; [done|]. enough (c = 0) as -> by lia.
    apply andb_false_iff in Hcond as [Hcond|Hcond]; bool_hyps; [done|].
    replace i with len in * by lia. destruct Hh' as (Hl & Hw & He).
    pose proof (eval_bound _ Hw) as Hb. rewrite Hl in Hb.
    unfold word in Hc'. nia.
Qed.

Lemma mul_row_wp len a b b_len i out v y : holds len out v -> words a -> words b ->
  a !! i = Some y -> (b_len <= length b)%nat -> (i + b_len <= len)%nat ->
  v + y * eval (take b_len b) * Bp i < Bp len ->
  wp (mul_row len a b b_len i out)
    (fun out' => holds len out' (v + y * eval (take b_len b) * Bp i)).
Proof.
  intros Hh Ha Hb Hy Hbl Hil Hlt. unfold mul_row. wp_step.
  apply (wp_for (fun j '(out', c) => word c /\
    holds len out' (v + y * eval (take j b) * Bp i - c * Bp (i + j))));
    [lia| |intros j [out' c] Hj [Hc Hh']|intros [out' c] [Hc Hh']].
  - split; [done|]. eapply holds_eq; [done|]. simpl. ring.
  - assert (length out' = len) by apply Hh'.
    apply wp_bind, wp_get; [lia|intros x Hx]. rewrite Hy. wp_step. wp_steps.
    edestruct (mac_spec x y x0 c) as (w1 & c' & -> & He & Hw1 & Hc');
      [eapply words_lookup; [apply Hh'|done]|by eauto with words|by eauto with words|done|].
    wp_steps. split; [done|]. eapply holds_eq; [by apply holds_insert|].
    erewrite (eval_take_S b) by done. rewrite Nat.add_succ_r, Bp_S, Bp_add.
    replace x with (w1 + B * c' - y * x0 - c) by lia. ring.
  - eapply wp_mono; [apply propagate_wp; [done|done|lia|]|].
    + assert (Hev : 0 <= v) by (destruct Hh as (? & Hw & <-); by apply eval_bound).
      pose proof (words_lookup _ _ _ Ha Hy) as Hyw. unfold word in Hyw.
      pose proof (eval_bound _ (words_take b_len _ Hb)). pose proof (Bp_pos i). nia.
    + intros out2 Hh2. eapply holds_eq; [exact Hh2|]. ring.
Qed.

(** The rows add up to the product in a buffer of length [len] that can hold
    the sum; [bound] is how the caller computes that length. *)
Lemma mul_rows_wp (bound : list Z -> nat) len a b a_len b_len out v :
  (forall l, length l = len -> bound l = len) ->
  holds len out v -> words a -> words b ->
  (a_len <= length a)%nat -> (b_len <= length b)%nat -> (a_len + b_len <= len)%nat ->
  v + eval (take a_len a) * eval (take b_len b) < Bp len ->
  wp (for_loop 0 a_len (fun i out => mul_row (bound out) a b b_len i out) out)
    (fun out' => holds len out' (v + eval (take a_len a) * eval (take b_len b))).
Proof.
  intros Hbd Hh Ha Hb Hal Hbl Hlen Hlt.
  apply (wp_for (fun i out' =>
    holds len out' (v + eval (take i a) * eval (take b_len b))));
    [lia| |intros i out' Hi Hh'|done].
  - eapply holds_eq; [done|]. simpl. lia.
  - destruct (lookup_lt_is_Some_2 a i) as [y Hy]; [lia|].
    rewrite Hbd by apply Hh'. pose proof (eval_bound _ (words_take b_len _ Hb)) as Hbb.
    eapply wp_mono; [eapply mul_row_wp; eauto; [lia|]|].
    + assert (eval (take (S i) a) <= eval (take a_len a)) as Hmono.
      { rewrite (eval_take_drop (take a_len a) (S i)) by (rewrite length_take; lia).
        rewrite take_take, Nat.min_l by lia.
        pose proof (eval_bound (drop (S i) (take a_len a)) ltac:(auto with words)).
        pose proof (Bp_pos (S i)). nia. }
      rewrite (eval_take_S _ _ _ Hy) in Hmono. nia.
    + intros out2 Hh2. eapply holds_eq; [exact Hh2|]. rewrite (eval_take_S _ _ _ Hy). ring.
Qed.

Lemma mul_limbs_wp a b a_len b_len out v :
  holds (length out) out v -> words a -> words b ->
  (a_len <= length a)%nat -> (b_len <= length b)%nat -> (a_len + b_len <= length out)%nat ->
  v + eval (take a_len a) * eval (take b_len b) < Bp (length out) ->
  wp (mul_limbs out a a_len b b_len)
    (fun out' => holds (length out) out' (v + eval (take a_len a) * eval (take b_len b))).
Proof. intros. by apply mul_rows_wp. Qed.

Lemma zeros_holds n : holds n (replicate n 0) 0.
Proof. split_and!; [apply length_replicate|apply words_zeros|apply eval_zeros]. Qed.

(** A product into a zeroed buffer that is long enough is exact. *)
Lemma mul_limbs_zero_wp W a b a_len b_len : words a -> words b ->
  (a_len <= length a)%nat -> (b_len <= length b)%nat -> (a_len + b_len <= W)%nat ->
  wp (mul_limbs (replicate W 0) a a_len b b_len)
    (fun out => holds W out (eval (take a_len a) * eval (take b_len b))).
Proof.
  intros Ha Hb Hal Hbl Hlen.
  pose proof (eval_bound _ (words_take a_len _ Ha)) as Hba.
  pose proof (eval_bound _ (words_take b_len _ Hb)) as Hbb.
  rewrite length_take_le in Hba, Hbb by done.
  pose proof (Bp_le _ _ Hlen) as Hle. rewrite Bp_add in Hle.
  pose proof (mul_limbs_wp a b a_len b_len (replicate W 0) 0) as Hm.
  rewrite length_replicate in Hm. apply Hm; auto using zeros_holds. nia.
Qed.

Section Mul_proofs.
Context {D : Dims}.

Lemma mul_wide_internal_wp a b : uwf a -> uwf b -> (LIMBS * 2 <= MAX_LIMBS)%nat ->
  wp (mul_wide_internal a b) (fun p => holds MAX_LIMBS p (val a * val b)).
Proof.
  intros Ha Hb HL. unfold mul_wide_internal. wp_steps; [by apply Nat.leb_le|].
  pose proof (val_bound _ Ha). pose proof (val_bound _ Hb).
  destruct Ha as [Ha1 Ha2], Hb as [Hb1 Hb2].
  pose proof (Bp_le (LIMBS + LIMBS) MAX_LIMBS ltac:(lia)) as Hle.
  rewrite Bp_add in Hle. fold R in Hle.
  eapply wp_mono; [apply (mul_rows_wp (fun _ => MAX_LIMBS) MAX_LIMBS); auto using zeros_holds|];
    try lia; rewrite !eval_take_all by done; fold (val a) (val b).
  - nia.
  - done.
Qed.

Lemma uint_mul_wp a b : uwf a -> uwf b -> (LIMBS * 2 <= MAX_LIMBS)%nat ->
  wp (uint_mul a b) (fun r => uwf r /\ val r = (val a * val b) mod R).
Proof.
  intros Ha Hb HL. unfold uint_mul. wp_step.
  eapply wp_mono; [by apply mul_wide_internal_wp|]. intros p (Hpl & Hpw & Hpv). wp_step.
  apply (wp_for (fun i l => built LIMBS i l (eval (take i p))));
    [lia|apply built_0|intros i l Hi Hl|intros l Hl].
  - assert (length l = LIMBS) by apply Hl. wp_steps. erewrite (eval_take_S p) by done.
    apply built_S; [lia|done|]. eauto with words.
  - wp_step. apply built_wf in Hl as [? ->]. split; [done|].
    rewrite eval_take_mod by (done || lia). by rewrite Hpv.
Qed.

(** The shift loop writing into a fresh array. *)
Lemma shl1_fresh_wp u b : uwf u -> 0 <= b <= 1 ->
  wp (for_loop 0 LIMBS (fun i '(shifted, carry) =>
      y ← limbs u !! i;
      let next := Z.shiftr y 63 in
      shifted ← upd shifted i (Z.lor (u64 (Z.shiftl y 1)) carry);
      Some (shifted, next)) (zeros, b))
    (fun '(l, c) => holds LIMBS l (2 * val u + b - c * R) /\ 0 <= c <= 1).
Proof.
  intros [Hl Hw] Hb.
  apply (wp_for (fun i '(l, c) => 0 <= c <= 1 /\
    built LIMBS i l (2 * eval (take i (limbs u)) + b - c * Bp i)));
    [lia| |intros i [l c] Hi [Hc Hbt]|intros [l c] [Hc Hbt]].
  - split; [done|]. pose proof built_0 as Hz. replace (_ - _) with 0; [done|].
    rewrite Bp_0. simpl. lia.
  - assert (length l = LIMBS) by apply Hbt. wp_steps.
    assert (Hx : word x) by eauto with words.
    destruct (shl1_word x c Hx Hc) as (-> & Hw' & Hc'). cbv zeta. wp_steps. split; [done|].
    eapply (built_S _ _ _ _ (2 * x + c - B * Z.shiftr x 63)) in Hbt; [|lia|done].
    erewrite (eval_take_S (limbs u)) by done. rewrite Bp_S.
    replace (_ + b - _) with
      (2 * eval (take i (limbs u)) + b - c * Bp i + (2 * x + c - B * Z.shiftr x 63) * Bp i);
      [done|ring].
  - split; [|done]. rewrite eval_take_all in Hbt by done. fold (val u) R in Hbt.
    destruct Hbt as (? & ? & He). split_and!; [done|done|].
    by rewrite eval_take_all in He.
Qed.

Lemma reduce_step_wp product m i rem : holds MAX_LIMBS product (eval product) ->
  uwf m -> 0 < val m -> (i < 64 * MAX_LIMBS)%nat -> uwf rem ->
  val rem = (eval product / 2 ^ Z.of_nat (S i)) mod val m ->
  wp (reduce_step product m i rem)
    (fun r => uwf r /\ val r = (eval product / 2 ^ Z.of_nat i) mod val m).
Proof.
  intros (Hpl & Hpw & _) Hm Hpos Hi Hr Hrv. unfold reduce_step.
  assert (i / 64 < length product)%nat.
  { rewrite Hpl. by apply Nat.Div0.div_lt_upper_bound. }
  wp_step. wp_step.
  assert (Hbit : Z.land (Z.shiftr x (Z.of_nat (i mod 64))) 1
                 = b2z (Z.testbit (eval product) (Z.of_nat i))).
  { rewrite land_1_b2z by lia. f_equal. by apply limb_testbit. }
  rewrite Hbit. set (bt := Z.testbit _ _) in *.
  assert (0 <= b2z bt <= 1) by (destruct bt; simpl; lia).
  pose proof (eval_bound _ Hpw).
  destruct (longdiv_step (eval product) (val m) i ltac:(lia) Hpos) as [Hlm _].
  rewrite <- Hrv in Hlm. fold bt in Hlm.
  pose proof (Z.mod_pos_bound (eval product / 2 ^ Z.of_nat (S i)) (val m) Hpos) as Hrb.
  rewrite <- Hrv in Hrb. wp_step.
  eapply wp_mono; [by apply shl1_fresh_wp|]. intros [sl c] [Hh Hc].
  apply holds_uwf in Hh as [Hsw Hsv].
  eapply wp_mono; [apply reduce_once; auto; lia|].
  intros r [Hrw Hrr]. split; [done|]. rewrite Hrr, Hlm, Hsv.
  replace (2 * val rem + b2z bt - c * R + c * R) with (2 * val rem + b2z bt) by lia.
  destruct (Z.leb_spec (val m) (2 * val rem + b2z bt)).
  - symmetry. apply (Z.mod_unique_pos _ _ 1); lia.
  - apply Z.mod_small. lia.
Qed.

Lemma reduce_wide_internal_wp product v m : holds MAX_LIMBS product v ->
  uwf m -> 0 < val m -> (LIMBS * 2 <= MAX_LIMBS)%nat -> v < R * R ->
  wp (reduce_wide_internal product m) (fun r => uwf r /\ val r = v mod val m).
Proof.
  intros Hp Hm Hpos HL Hv. pose proof Hp as (_ & Hpw & <-).
  pose proof (eval_bound _ Hpw). unfold reduce_wide_internal.
  apply (wp_for_down (fun i r => uwf r /\
    val r = (eval product / 2 ^ Z.of_nat i) mod val m)).
  - split; [apply ZERO_wf|]. rewrite ZERO_val, Z.div_small, Z.mod_0_l; [done|lia|].
    split; [lia|]. eapply Z.lt_le_trans; [done|]. rewrite R_pow2, <- Z.pow_add_r by lia.
    apply Z.pow_le_mono_r; lia.
  - intros i r Hi [Hr Hrv]. apply reduce_step_wp; auto. lia.
  - intros r [Hr Hrv]. split; [done|]. by rewrite Z.div_1_r in Hrv.
Qed.

Lemma mul_mod_wp a b m : uwf a -> uwf b -> uwf m -> 0 < val m ->
  (LIMBS * 2 <= MAX_LIMBS)%nat ->
  wp (mul_mod a b m) (fun r => uwf r /\ val r = (val a * val b) mod val m).
Proof.
  intros Ha Hb Hm Hpos HL. unfold mul_mod. wp_step.
  eapply wp_mono; [by apply mul_wide_internal_wp|]. intros p Hp.
  pose proof (val_bound _ Ha). pose proof (val_bound _ Hb).
  apply reduce_wide_internal_wp; auto. nia.
Qed.

(** ** Square and multiply, against any modular multiplication

    What [modpow_loop] relies on: [mulm] multiplies modulo [m] on the operands
    in [dom], and [dom] holds of the values the loop produces. *)
Class ModMul (m : Z) (mulm : Uint -> Uint -> option Uint) (dom : Uint -> Prop) := {
  modmul_pos : 0 < m;
  modmul_spec a b : uwf a -> uwf b -> dom a -> dom b ->
    wp (mulm a b) (fun r => uwf r /\ val r = (val a * val b) mod m);
  modmul_reduced r : uwf r -> 0 <= val r < m -> dom r;
  modmul_one : dom ONE;
}.

Lemma mod_pow2_S e i : 0 <= e ->
  e mod 2 ^ Z.of_nat (S i) = e mod 2 ^ Z.of_nat i + b2z (Z.testbit e (Z.of_nat i)) * 2 ^ Z.of_nat i.
Proof.
  intros He. rewrite pow2_S, Z.mul_comm, Z.rem_mul_r by lia.
  rewrite Z.testbit_odd, shiftr_div, Zmod_odd by lia.
  destruct (Z.odd _); simpl b2z; lia.
Qed.

(** The invariant of the loop after [i] of the exponent's bits. *)
Definition pow_inv (m b e bits : Z) (dom : Uint -> Prop) (i : nat)
    '((result, base) : Uint * Uint) : Prop :=
  uwf result /\ uwf base /\ dom result /\ dom base /\
  val result mod m = b ^ (e mod 2 ^ Z.of_nat i) mod m /\
  ((val result < m /\ 0 < e mod 2 ^ Z.of_nat i) \/
   (val result = 1 /\ e mod 2 ^ Z.of_nat i = 0)) /\
  (Z.of_nat i < bits -> val base mod m = b ^ (2 ^ Z.of_nat i) mod m).

Section Modpow_loop.
Context (m : Z) (mulm : Uint -> Uint -> option Uint) (dom : Uint -> Prop) `{!ModMul m mulm dom}.

Lemma mulm_reduced a b : uwf a -> uwf b -> dom a -> dom b ->
  wp (mulm a b) (fun r => uwf r /\ dom r /\ val r < m /\ val r = (val a * val b) mod m).
Proof.
  intros Ha Hb Hda Hdb. eapply wp_mono; [by apply modmul_spec|]. intros r [Hr Hv].
  pose proof (Z.mod_pos_bound (val a * val b) m modmul_pos).
  split_and!; [done| |lia|done]. apply modmul_reduced; [done|lia].
Qed.

Lemma pow_step b e bits i result base : 0 <= e -> 0 <= b ->
  Z.of_nat i < bits -> pow_inv m b e bits dom i (result, base) ->
  wp (result ← (if Z.testbit e (Z.of_nat i) then mulm result base else Some result);
      base ← (if Z.of_nat (S i) <? bits then mulm base base else Some base);
      Some (result, base))
    (pow_inv m b e bits dom (S i)).
Proof.
  intros He Hb Hi (Hr & Hbs & Hdr & Hdb & Hrv & Hred & Hbv). specialize (Hbv Hi).
  pose proof modmul_pos as Hm. wp_step.
  apply (wp_mono _ (fun r => uwf r /\ dom r /\
    val r mod m = b ^ (e mod 2 ^ Z.of_nat (S i)) mod m /\
    ((val r < m /\ 0 < e mod 2 ^ Z.of_nat (S i)) \/
     (val r = 1 /\ e mod 2 ^ Z.of_nat (S i) = 0)))).
  { rewrite mod_pow2_S by done. pose proof (Z.mod_pos_bound e (2 ^ Z.of_nat i) ltac:(lia)).
    destruct (Z.testbit e (Z.of_nat i)); simpl b2z.
    - eapply wp_mono; [by apply mulm_reduced|]. intros r (Hrw & Hrd & Hlt & Hv).
      split_and!; [done|done| |left; lia].
      rewrite Hv, Z.mod_mod, Z.mul_mod, Hrv, Hbv, <- Z.mul_mod, Z.mul_1_l by lia.
      by rewrite Z.pow_add_r by lia.
    - wp_step. by rewrite Z.mul_0_l, Z.add_0_r. }
  intros r (Hrw & Hrd & Hrv' & Hred'). wp_step.
  destruct (Z.ltb_spec (Z.of_nat (S i)) bits) as [Hlt|Hge].
  - eapply wp_mono; [by apply mulm_reduced|]. intros b' (Hbw & Hbd & Hbl & Hbv').
    wp_step. split_and!; auto. intros _.
    rewrite Hbv', Z.mod_mod, Z.mul_mod, Hbv, <- Z.mul_mod by lia.
    rewrite pow2_S, <- Z.pow_add_r by lia. do 2 f_equal. lia.
  - wp_steps. split_and!; auto. lia.
Qed.

Lemma modpow_loop_wp b exp base : uwf exp -> val exp < 2 ^ Z.of_nat BITS ->
  (0 < LIMBS)%nat -> uwf base -> dom base -> 0 <= b -> val base mod m = b mod m ->
  wp (modpow_loop mulm exp base) (fun r => uwf r /\
    val r = if val exp =? 0 then 1 else b ^ val exp mod m).
Proof.
  intros Hexp HB HL Hbs Hdb Hb Hbv. pose proof (val_bound _ Hexp) as He.
  pose proof modmul_pos as Hm.
  pose proof (bits_of_spec (val exp) ltac:(lia)) as (Hn0 & Hn & _).
  pose proof (bits_of_le (val exp) _ (conj (proj1 He) HB) ltac:(lia)) as Hnb.
  unfold modpow_loop. rewrite bit_len_spec by done. wp_steps.
  apply (wp_for (pow_inv m b (val exp) (bits_of (val exp)) dom)); [lia| | |].
  - split_and!; [apply ONE_wf|done|apply modmul_one|done|..].
    + rewrite ONE_val, Z.mod_1_r by done. done.
    + right. by rewrite ONE_val, Z.mod_1_r.
    + intros _. by rewrite Z.pow_1_r.
  - intros i [result bs] Hi Hinv. rewrite bit_spec by done.
    destruct (Z.ltb_spec (Z.of_nat i) (Z.of_nat BITS)); [|lia]. cbn [andb]. do 2 wp_step.
    apply pow_step; auto; lia.
  - intros [result bs] (Hr & _ & _ & _ & Hrv & Hred & _). wp_step. split; [done|].
    rewrite Z2Nat.id, (Z.mod_small (val exp)) in Hrv, Hred by lia.
    pose proof (val_bound _ Hr).
    destruct (Z.eqb_spec (val exp) 0) as [E|E].
    + destruct Hred; lia.
    + destruct Hred; [|lia]. by rewrite <- Hrv, Z.mod_small by lia.
Qed.
End Modpow_loop.

#[export] Instance mul_mod_ModMul m : uwf m -> 0 < val m -> (LIMBS * 2 <= MAX_LIMBS)%nat ->
  ModMul (val m) (fun a b => mul_mod a b m) (fun _ => True).
Proof. intros Hm Hpos HL. split; auto. intros. by apply mul_mod_wp. Qed.

Lemma modpow_wp a e m : uwf a -> uwf e -> uwf m -> 0 < val m ->
  val e < 2 ^ Z.of_nat BITS -> (0 < LIMBS)%nat -> (LIMBS * 2 <= MAX_LIMBS)%nat ->
  wp (modpow a e m) (fun r => uwf r /\
    val r = if val e =? 0 then 1 else val a ^ val e mod val m).
Proof.
  intros Ha He Hm Hpos HB HL HL2. unfold modpow. wp_step.
  pose proof (val_bound _ Ha).
  eapply wp_mono; [apply mul_mod_wp; auto using ONE_wf|]. intros b [Hb Hbv].
  rewrite ONE_val, Z.mul_1_r in Hbv by done.
  pose proof (mul_mod_ModMul m Hm Hpos HL2).
  apply (modpow_loop_wp (val m) _ (fun _ => True)); auto; [lia|].
  by rewrite Hbv, Z.mod_mod by lia.
Qed.

End Mul_proofs.
