(* ===== verification/BigUintBarrett.v ===== *)
(** * big_number: Barrett reduction and Barrett exponentiation

    [compute_mu_for_barrett], [reduce_wide_barrett_eff_impl],
    [mul_mod_barrett_impl] and [modpow_barrett_impl] of
    src/big_number/big_number.rs.  [dbg] says whether [debug_assert!] is
    compiled in.  [zeroize_limbs] only overwrites dead locals and is left out. *)
From Stdlib Require Import ZArith Lia.
From stdpp Require Import base list numbers option.
From S2P Require Import Prelude Words Limbs BigUint BigUintBits BigUintMul.

Section Barrett.
Context {D : Dims}.

(** ** The reciprocal *)

(** The body of the loop of [compute_mu_for_barrett_eff] at [bit_pos]. *)
Definition mu_step (self : Uint) (eff_limbs total_bits bit_pos : nat)
    '((mu, rem) : list Z * Uint) : option (list Z * Uint) :=
  '(shifted_limbs, carry) ← for_loop 0 LIMBS (fun i '(shifted, carry) =>
      y ← limbs rem !! i;
      let next := Z.shiftr y 63 in
      shifted ← upd shifted i (Z.lor (u64 (Z.shiftl y 1)) carry);
      Some (shifted, next)) (zeros, 0);
  let bit := if (bit_pos =? total_bits)%nat then 1 else 0 in
  x ← shifted_limbs !! 0%nat;
  with_ ← upd shifted_limbs 0 (Z.lor x bit);
  let shifted := mkUint with_ in
  '(reduced, borrow) ← sub_raw shifted self;
  let sel := negb (Z.lor carry (Z.lxor borrow 1) =? 0) in
  rem ← ct_select reduced shifted sel;
  mu ← (if sel : bool then
          let qi := (bit_pos / 64)%nat in
          let qbit := (bit_pos mod 64)%nat in
          if (qi <? eff_limbs + 1)%nat
          then y ← mu !! qi; upd mu qi (Z.lor y (u64 (Z.shiftl 1 (Z.of_nat qbit))))
          else Some mu
        else Some mu);
  Some (mu, rem).

Definition compute_mu_for_barrett_eff (self : Uint) (eff_limbs : nat) : option (list Z) :=
  _ ← rassert (LIMBS + 1 <=? MAX_LIMBS)%nat;
  _ ← rassert ((1 <=? eff_limbs)%nat && (eff_limbs <=? LIMBS)%nat);
  let total_bits := (eff_limbs * 128)%nat in
  '(mu, _) ← for_down (S total_bits) (mu_step self eff_limbs total_bits)
               (replicate MAX_LIMBS 0, ZERO);
  Some mu.

(** [self.bit_len().div_ceil(64)]. *)
Definition eff_limbs_of (self : Uint) : option nat :=
  n ← bit_len self; Some (div_ceil (Z.to_nat n) 64).

Definition compute_mu_for_barrett (self : Uint) : option (list Z) :=
  eff_limbs ← eff_limbs_of self;
  compute_mu_for_barrett_eff self eff_limbs.

(** ** Reduction *)

Definition mul_wide_eff (W : nat) (self rhs : Uint) (eff_limbs : nat) : option (list Z) :=
  _ ← rassert (2 * eff_limbs <=? W)%nat;
  mul_limbs (replicate W 0) (limbs self) eff_limbs (limbs rhs) eff_limbs.

(** One of the two conditional subtractions of the modulus. *)
Definition cond_sub (modulus : Uint) (k1 : nat) (r : list Z) : option (list Z) :=
  '(r_try, borrow) ← for_loop 0 k1 (fun j '(r_try, borrow) =>
      mod_limb ← (if (j <? LIMBS)%nat then limbs modulus !! j else Some 0);
      x ← r_try !! j;
      let '(word, next_borrow) := sbb x mod_limb borrow in
      r_try ← upd r_try j word;
      Some (r_try, next_borrow)) (r, 0);
  let choose := borrow =? 0 in
  for_loop 0 k1 (fun j r =>
      x ← r_try !! j;
      y ← r !! j;
      upd r j (ct_select_u64 x y choose)) r.

(** The first half of [reduce_wide_barrett_eff_impl]: the quotient estimate
    [q3] of [product], [k1] limbs in a [W]-limb buffer. *)
Definition barrett_quotient (W : nat) (product mu : list Z) (k : nat) : option (list Z) :=
  let k1 := (k + 1)%nat in
  let k_minus_1 := (k - 1)%nat in
  s ← slice product k_minus_1 (k_minus_1 + k1);
  q1 ← copy_at (replicate W 0) 0 s;
  q2 ← mul_limbs (replicate W 0) q1 k1 mu k1;
  s ← slice q2 k1 (k1 + k1);
  copy_at (replicate W 0) 0 s.

(** The second half up to the conditional subtractions: the low [k1] limbs of
    [product - q3 * modulus]. *)
Definition barrett_remainder (W : nat) (product q3 : list Z) (modulus : Uint) (k : nat)
  : option (list Z) :=
  let k1 := (k + 1)%nat in
  s ← slice product 0 k1;
  r1 ← copy_at (replicate W 0) 0 s;
  s ← slice q3 0 k1;
  q3m ← mul_limbs (replicate W 0) s k1 (limbs modulus) k;
  s ← slice q3m 0 k1;
  r2 ← copy_at (replicate W 0) 0 s;
  '(r, _) ← for_loop 0 k1 (fun i '(r, borrow) =>
      x ← r1 !! i;
      y ← r2 !! i;
      let '(word, next_borrow) := sbb x y borrow in
      r ← upd r i word;
      Some (r, next_borrow)) (replicate W 0, 0);
  Some r.

Definition reduce_wide_barrett_eff_impl (W : nat) (product : list Z) (modulus : Uint)
    (mu : list Z) (eff_limbs : nat) : option Uint :=
  _ ← rassert ((1 <=? eff_limbs)%nat && (eff_limbs <=? LIMBS)%nat);
  _ ← rassert (eff_limbs <=? MAX_BARRETT_LIMBS)%nat;
  _ ← rassert (2 * (eff_limbs + 1) <=? W)%nat;
  _ ← rassert (2 * eff_limbs <=? length product)%nat;
  _ ← rassert (eff_limbs + 1 <=? length mu)%nat;
  let k := eff_limbs in
  let k1 := (k + 1)%nat in
  q3 ← barrett_quotient W product mu k;
  r ← barrett_remainder W product q3 modulus k;
  r ← for_loop 0 2 (fun _ r => cond_sub modulus k1 r) r;
  s ← slice r 0 k;
  l ← copy_at zeros 0 s;
  Some (mkUint l).

Definition reduce_wide_barrett_eff (product : list Z) (modulus : Uint) (mu : list Z)
    (eff_limbs : nat) : option Uint :=
  reduce_wide_barrett_eff_impl MAX_LIMBS product modulus mu eff_limbs.

Definition reduce_wide_barrett (product : list Z) (modulus : Uint) (mu : list Z)
  : option Uint :=
  eff_limbs ← eff_limbs_of modulus;
  reduce_wide_barrett_eff product modulus mu eff_limbs.

(** ** Multiplication and exponentiation *)

Definition mul_mod_barrett_impl (dbg : bool) (W : nat) (self rhs modulus : Uint)
    (mu : list Z) (eff_limbs : nat) : option Uint :=
  _ ← rassert ((1 <=? eff_limbs)%nat && (eff_limbs <=? MAX_BARRETT_LIMBS)%nat);
  _ ← rassert (2 * (eff_limbs + 1) <=? W)%nat;
  _ ← (if dbg : bool then
         n ← bit_len self;
         n' ← bit_len rhs;
         rassert ((n <=? Z.of_nat eff_limbs * 64) && (n' <=? Z.of_nat eff_limbs * 64))
       else Some tt);
  product ← mul_wide_eff W self rhs eff_limbs;
  reduce_wide_barrett_eff_impl W product modulus mu eff_limbs.

Definition mul_mod_barrett_w (dbg : bool) (W : nat) (self rhs modulus : Uint)
    (mu : list Z) : option Uint :=
  eff_limbs ← eff_limbs_of modulus;
  mul_mod_barrett_impl dbg W self rhs modulus mu eff_limbs.

Definition mul_mod_barrett (dbg : bool) (self rhs modulus : Uint) (mu : list Z)
  : option Uint :=
  mul_mod_barrett_w dbg MAX_LIMBS self rhs modulus mu.

Definition mul_mod_barrett_eff (dbg : bool) (self rhs modulus : Uint) (mu : list Z)
    (eff_limbs : nat) : option Uint :=
  mul_mod_barrett_impl dbg MAX_LIMBS self rhs modulus mu eff_limbs.

Definition modpow_barrett_impl (dbg : bool) (W : nat) (self exp modulus : Uint)
    (mu : list Z) (eff_limbs : nat) : option Uint :=
  _ ← rassert ((1 <=? eff_limbs)%nat && (eff_limbs <=? MAX_BARRETT_LIMBS)%nat);
  _ ← rassert (2 * (eff_limbs + 1) <=? W)%nat;
  base ← mul_mod_barrett_impl dbg W self ONE modulus mu eff_limbs;
  modpow_loop (fun a b => mul_mod_barrett_impl dbg W a b modulus mu eff_limbs) exp base.

Definition modpow_barrett_w (dbg : bool) (W : nat) (self exp modulus : Uint)
    (mu : list Z) : option Uint :=
  eff_limbs ← eff_limbs_of modulus;
  modpow_barrett_impl dbg W self exp modulus mu eff_limbs.

Definition modpow_barrett (dbg : bool) (self exp modulus : Uint) (mu : list Z)
  : option Uint :=
  modpow_barrett_w dbg MAX_LIMBS self exp modulus mu.

Definition modpow_barrett_eff (dbg : bool) (self exp modulus : Uint) (mu : list Z)
    (eff_limbs : nat) : option Uint :=
  modpow_barrett_impl dbg MAX_LIMBS self exp modulus mu eff_limbs.

End Barrett.

(** ** The arithmetic behind Barrett reduction *)

Section Barrett_math.
Context (m x P Q : Z).
(** [P] is [b^(k-1)] and [Q] is [b^(k+1)], so [P * Q = b^(2k)]. *)
Context (HP : 0 < P) (HQ : 0 < Q) (Hm : P < m) (Hx : 0 <= x < P * Q).

Let mu := (P * Q) / m.
Let q1 := x / P.
Let q3 := (q1 * mu) / Q.

Lemma barrett_mu_bound : 0 <= mu < Q.
Proof.
  unfold mu. split; [apply Z.div_pos; nia|]. apply Z.div_lt_upper_bound; nia.
Qed.

Lemma barrett_q1_bound : 0 <= q1 < Q.
Proof.
  unfold q1. split; [apply Z.div_pos; lia|]. apply Z.div_lt_upper_bound; lia.
Qed.

Lemma barrett_q3_upper : 0 <= q3 /\ q3 * m <= x.
Proof.
  pose proof barrett_mu_bound as Hmu. pose proof barrett_q1_bound as Hq1.
  assert (H0 : 0 <= q3) by (unfold q3; apply Z.div_pos; nia). split; [done|].
  assert (H1 : q1 * P <= x) by (unfold q1; pose proof (Z.mul_div_le x P HP); lia).
  assert (H2 : mu * m <= P * Q).
  { unfold mu. pose proof (Z.mul_div_le (P * Q) m ltac:(lia)). lia. }
  assert (H3 : q3 * Q <= q1 * mu).
  { unfold q3. pose proof (Z.mul_div_le (q1 * mu) Q HQ). lia. }
  apply (Z.mul_le_mono_pos_r _ _ (P * Q)); [nia|].
  transitivity ((q1 * mu) * (P * m)).
  - replace (q3 * m * (P * Q)) with (q3 * Q * (P * m)) by ring.
    apply Z.mul_le_mono_nonneg_r; [nia|done].
  - replace (q1 * mu * (P * m)) with ((q1 * P) * (mu * m)) by ring.
    apply Z.mul_le_mono_nonneg; nia.
Qed.

Lemma barrett_q3_lower : x < (q3 + 3) * m.
Proof.
  pose proof barrett_mu_bound as Hmu. pose proof barrett_q1_bound as Hq1.
  assert (H1 : x < (q1 + 1) * P).
  { unfold q1. pose proof (Z.mul_succ_div_gt x P HP). unfold Z.succ in *. lia. }
  assert (H2 : P * Q < (mu + 1) * m).
  { unfold mu. pose proof (Z.mul_succ_div_gt (P * Q) m ltac:(lia)). unfold Z.succ in *. lia. }
  assert (H3 : q1 * mu < (q3 + 1) * Q).
  { unfold q3. pose proof (Z.mul_succ_div_gt (q1 * mu) Q HQ). unfold Z.succ in *. lia. }
  apply (Z.mul_lt_mono_pos_r (P * Q)); [nia|].
  apply Z.lt_le_trans with ((q1 + 1) * P * ((mu + 1) * m)).
  { apply Z.mul_lt_mono_nonneg; nia. }
  replace ((q1 + 1) * P * ((mu + 1) * m)) with ((q1 * mu + q1 + mu + 1) * (P * m)) by ring.
  replace ((q3 + 3) * m * (P * Q)) with ((q3 + 3) * Q * (P * m)) by ring.
  apply Z.mul_le_mono_nonneg_r; nia.
Qed.

(** The quotient estimate is at most two below the quotient. *)
Lemma barrett_facts : 0 <= mu < Q /\ 0 <= q1 < Q /\ 0 <= q3 < Q /\
  0 <= x - q3 * m < 3 * m.
Proof using HP HQ Hm Hx.
  pose proof barrett_mu_bound as Hmu. pose proof barrett_q1_bound as Hq1.
  pose proof barrett_q3_upper as [H0 H1]. pose proof barrett_q3_lower as H2.
  split_and!; try lia. unfold q3. apply Z.div_lt_upper_bound; nia.
Qed.

End Barrett_math.

(** Appending a low bit to a number truncated to [n] bits. *)
Lemma trunc_bit_low q i n : (i < n)%nat ->
  let v := (q * 2 ^ Z.of_nat (S i)) mod 2 ^ Z.of_nat n in
  v mod 2 ^ Z.of_nat (S i) = 0 /\
  ((2 * q + 1) * 2 ^ Z.of_nat i) mod 2 ^ Z.of_nat n = v + 2 ^ Z.of_nat i.
Proof.
  intros Hi v.
  assert (Hn : 2 ^ Z.of_nat n = 2 ^ (Z.of_nat n - Z.of_nat (S i)) * 2 ^ Z.of_nat (S i)).
  { rewrite <- Z.pow_add_r by lia. f_equal. lia. }
  set (t := 2 ^ (Z.of_nat n - Z.of_nat (S i))) in *.
  assert (Ht : 0 < t) by (unfold t; lia).
  assert (Hv : v = (q mod t) * 2 ^ Z.of_nat (S i)).
  { unfold v. rewrite Hn. apply Z.mul_mod_distr_r; lia. }
  split; [rewrite Hv; apply Z.mod_mul; lia|].
  pose proof (Z.mod_pos_bound q t Ht). pose proof (Z.div_mod q t ltac:(lia)) as Hq.
  symmetry. apply (Z.mod_unique_pos _ _ (q / t)).
  - rewrite Hv, Hn, pow2_S. pose proof (pow2_pos i). nia.
  - rewrite Hv, Hn, pow2_S. rewrite Hq at 1. ring.
Qed.

Lemma trunc_bit_high q i n : (n <= i)%nat ->
  (q * 2 ^ Z.of_nat i) mod 2 ^ Z.of_nat n = 0.
Proof.
  intros Hi. replace (2 ^ Z.of_nat i) with (2 ^ (Z.of_nat i - Z.of_nat n) * 2 ^ Z.of_nat n).
  - rewrite Z.mul_assoc. apply Z.mod_mul. lia.
  - rewrite <- Z.pow_add_r by lia. f_equal. lia.
Qed.

Section Barrett_proofs.
Context {D : Dims}.

(** Or-ing a bit into the even number a shift leaves. *)
Lemma or_low_bit l v b x : holds LIMBS l v -> v mod 2 = 0 -> 0 <= b <= 1 ->
  l !! 0%nat = Some x -> holds LIMBS (<[0%nat:=Z.lor x b]> l) (v + b).
Proof.
  intros Hh Hv Hb Hx. pose proof Hh as (Hl & Hw & He).
  assert (Hxv : x mod 2 = 0).
  { rewrite (lookup_eval _ _ _ Hw Hx), He, Bp_0, Z.div_1_r.
    change B with (2 * 2 ^ 63). rewrite Z.rem_mul_r by lia.
    by rewrite (Z.mul_comm 2), Z.mod_add, Z.mod_mod by lia. }
  pose proof (words_lookup _ _ _ Hw Hx) as Hxw. unfold word in Hxw.
  rewrite (lor_add _ _ 1) by (done || lia).
  eapply holds_eq; [apply holds_insert; [done|done|]|rewrite Bp_0; lia].
  unfold word. pose proof (Z.div_mod x 2). lia.
Qed.

Lemma R_even : (0 < LIMBS)%nat -> R mod 2 = 0.
Proof.
  intros HL. rewrite R_pow2.
  replace (64 * Z.of_nat LIMBS) with (64 * Z.of_nat LIMBS - 1 + 1) by lia.
  rewrite Z.pow_add_r by lia. apply Z.mod_mul. lia.
Qed.

Definition mu_inv (N m : Z) (n i : nat) '((mu, rem) : list Z * Uint) : Prop :=
  uwf rem /\ val rem = (N / 2 ^ Z.of_nat i) mod m /\
  holds MAX_LIMBS mu ((((N / 2 ^ Z.of_nat i) / m) * 2 ^ Z.of_nat i) mod 2 ^ Z.of_nat n).

(** Setting quotient bit [i], or dropping it when it is above the [k+1] limbs. *)
Lemma mu_set_bit N m k i mu : (k + 1 <= MAX_LIMBS)%nat ->
  holds MAX_LIMBS mu
    ((((N / 2 ^ Z.of_nat (S i)) / m) * 2 ^ Z.of_nat (S i)) mod 2 ^ Z.of_nat (64 * (k + 1))) ->
  (N / 2 ^ Z.of_nat i) / m = 2 * ((N / 2 ^ Z.of_nat (S i)) / m) + 1 ->
  wp (if (i / 64 <? k + 1)%nat
      then y ← mu !! (i / 64)%nat;
           upd mu (i / 64) (Z.lor y (u64 (Z.shiftl 1 (Z.of_nat (i mod 64)))))
      else Some mu)
    (fun mu' => holds MAX_LIMBS mu'
       ((((N / 2 ^ Z.of_nat i) / m) * 2 ^ Z.of_nat i) mod 2 ^ Z.of_nat (64 * (k + 1)))).
Proof.
  intros Hk Hh Hq. rewrite Hq. set (q := (N / 2 ^ Z.of_nat (S i)) / m) in *.
  wp_if; bool_hyps.
  - assert (i < 64 * (k + 1))%nat.
    { pose proof (Nat.div_mod_eq i 64). pose proof (Nat.mod_upper_bound i 64). lia. }
    destruct (trunc_bit_low q i (64 * (k + 1))) as [H0 ->]; [done|].
    assert (length mu = MAX_LIMBS) by apply Hh. wp_steps. by apply set_bit_holds.
  - assert (64 * (k + 1) <= i)%nat.
    { pose proof (Nat.div_mod_eq i 64). lia. }
    wp_step. rewrite trunc_bit_high by lia. by rewrite trunc_bit_high in Hh by lia.
Qed.

Lemma mu_step_wp self k i st : uwf self -> 0 < val self -> (0 < LIMBS)%nat ->
  (k + 1 <= MAX_LIMBS)%nat ->
  mu_inv (2 ^ Z.of_nat (k * 128)) (val self) (64 * (k + 1)) (S i) st ->
  wp (mu_step self k (k * 128) i st)
    (mu_inv (2 ^ Z.of_nat (k * 128)) (val self) (64 * (k + 1)) i).
Proof.
  destruct st as [mu rem]. intros Hs Hpos HL Hk (Hr & Hrv & Hh).
  set (N := 2 ^ Z.of_nat (k * 128)) in *. unfold mu_step. wp_step.
  eapply wp_mono; [apply shl1_fresh_wp; [done|lia]|]. intros [sl c] [Hsl Hc].
  assert (length sl = LIMBS) by apply Hsl. wp_steps.
  destruct (longdiv_step N (val self) i ltac:(lia) Hpos) as [Hlm Hld].
  assert (Hbit : (if (i =? k * 128)%nat then 1 else 0) = b2z (Z.testbit N (Z.of_nat i))).
  { unfold N. rewrite Z.pow2_bits_eqb by lia.
    destruct (Nat.eqb_spec i (k * 128)), (Z.eqb_spec (Z.of_nat (k * 128)) (Z.of_nat i)); simpl; lia. }
  rewrite Hbit. set (bt := Z.testbit N (Z.of_nat i)) in *.
  assert (0 <= b2z bt <= 1) by (destruct bt; simpl; lia).
  rewrite <- Hrv in Hlm, Hld.
  pose proof (Z.mod_pos_bound (N / 2 ^ Z.of_nat (S i)) _ Hpos) as Hrb. rewrite <- Hrv in Hrb.
  eapply or_low_bit in Hsl; [| |done|done].
  2: { rewrite Z.add_0_r, Zminus_mod, (Z.mul_comm 2), Z.mod_mul, Z.mul_mod, R_even by lia.
       by rewrite Z.mul_0_r. }
  replace (2 * val rem + 0 - c * R + b2z bt) with (2 * val rem + b2z bt - c * R) in Hsl by lia.
  eapply wp_mono; [apply (rem_step _ c self); [done|done|done|lia]|].
  intros [s b] (Hsw & Hb & Hsel & Hsv). apply holds_uwf in Hsl as [Hslw Hslv].
  cbv zeta. rewrite ct_select_spec, lor_lxor_select, Hsel by done. do 2 wp_step. wp_step.
  destruct (Z.leb_spec (val self) (2 * val rem + b2z bt)).
  - eapply wp_mono; [eapply mu_set_bit; [done|done|by rewrite Hld]|].
    intros mu' Hmu'. wp_step. split_and!; [done|lia|done].
  - do 2 wp_step. split_and!; [done| |].
    + rewrite Hlm, Hslv. pose proof (val_bound _ Hslw). pose proof (val_bound _ Hs). nia.
    + rewrite Hld, Z.add_0_r. rewrite pow2_S in Hh.
      replace (2 * _ * _) with (N / (2 * 2 ^ Z.of_nat i) / val self * (2 * 2 ^ Z.of_nat i)); [done|].
      rewrite pow2_S. ring.
Qed.

Lemma compute_mu_eff_wp m k : uwf m -> 0 < val m -> (1 <= k <= LIMBS)%nat ->
  (LIMBS + 1 <= MAX_LIMBS)%nat ->
  wp (compute_mu_for_barrett_eff m k)
    (fun mu => holds MAX_LIMBS mu ((Bp (2 * k) / val m) mod Bp (k + 1))).
Proof.
  intros Hm Hpos Hk HL. unfold compute_mu_for_barrett_eff.
  wp_step. wp_step; [by apply Nat.leb_le|]. wp_step. wp_step.
  { apply andb_true_iff; split; apply Nat.leb_le; lia. }
  assert (HN : Bp (2 * k) = 2 ^ Z.of_nat (k * 128)) by (rewrite Bp_pow2; f_equal; lia).
  assert (HM : Bp (k + 1) = 2 ^ Z.of_nat (64 * (k + 1))) by (rewrite Bp_pow2; f_equal; lia).
  rewrite HN, HM. wp_step.
  apply (wp_for_down (mu_inv (2 ^ Z.of_nat (k * 128)) (val m) (64 * (k + 1)))).
  - unfold mu_inv. rewrite (Z.div_small (2 ^ _)) by (split; [lia|apply Z.pow_lt_mono_r; lia]).
    rewrite Z.mod_0_l, Z.div_0_l, Z.mul_0_l, Z.mod_0_l by lia.
    split_and!; [apply ZERO_wf|apply ZERO_val|apply zeros_holds].
  - intros i st Hi Hinv. apply mu_step_wp; auto; lia.
  - intros [mu rem] (_ & _ & Hmu). wp_step.
    by rewrite Z.pow_0_r, Z.div_1_r, Z.mul_1_r in Hmu.
Qed.

(** [buf[..n].copy_from_slice(s)] into a zeroed buffer. *)
Lemma wp_copy_zeros W s (Q : list Z -> Prop) : words s -> (length s <= W)%nat ->
  (forall l, holds W l (eval s) -> take (length s) l = s -> Q l) ->
  wp (copy_at (replicate W 0) 0 s) Q.
Proof.
  intros Hs Hl HQ. wp_step; [rewrite length_replicate; lia|].
  rewrite take_0, drop_replicate. simpl app. apply HQ.
  - split_and!.
    + rewrite length_app, length_replicate. lia.
    + apply Forall_app. split; [done|apply words_zeros].
    + apply eval_prefix_zeros.
  - by rewrite take_app_length.
Qed.

(** A slice of a limb vector is a range of its digits. *)
Lemma wp_slice_digits l n v lo hi (Q : list Z -> Prop) : holds n l v ->
  (lo <= hi <= n)%nat ->
  (forall s, words s -> length s = (hi - lo)%nat ->
     eval s = (v / Bp lo) mod Bp (hi - lo) -> Q s) ->
  wp (slice l lo hi) Q.
Proof.
  intros (Hl & Hw & <-) Hr HQ. wp_step. apply HQ.
  - auto with words.
  - rewrite length_take_le; [done|]. rewrite length_drop. lia.
  - rewrite eval_take_mod, eval_drop_div; auto with words; [lia|].
    rewrite length_drop. lia.
Qed.

Lemma eval_take_modulus m k j : uwf m -> val m < Bp k -> (k <= j)%nat ->
  eval (take j (limbs m)) = val m.
Proof.
  intros Hm Hlt Hj. pose proof (val_bound _ Hm). destruct Hm as [Hl Hw].
  destruct (Nat.le_gt_cases j LIMBS).
  - rewrite eval_take_mod by (done || lia). apply Z.mod_small. fold (val m).
    pose proof (Bp_le k j Hj). lia.
  - rewrite firstn_all2 by lia. done.
Qed.

Lemma take_succ_or_all m j : uwf m ->
  exists y, (if (j <? LIMBS)%nat then limbs m !! j else Some 0) = Some y /\ word y /\
    eval (take (S j) (limbs m)) = eval (take j (limbs m)) + y * Bp j.
Proof.
  intros [Hl Hw]. destruct (Nat.ltb_spec j LIMBS).
  - destruct (lookup_lt_is_Some_2 (limbs m) j) as [y Hy]; [lia|].
    exists y. split_and!; [done|by eauto with words|]. by apply eval_take_S.
  - exists 0. rewrite !firstn_all2 by lia. split_and!; [done|done|lia].
Qed.

(** The select loop rebuilds one of the two buffers. *)
Lemma select_loop_wp W k1 r_try r choose : length r_try = W -> length r = W ->
  (k1 <= W)%nat -> words r_try -> words r -> drop k1 r_try = drop k1 r ->
  wp (for_loop 0 k1 (fun j r =>
      x ← r_try !! j;
      y ← r !! j;
      upd r j (ct_select_u64 x y choose)) r)
    (fun r' => r' = if choose then r_try else r).
Proof.
  intros Ht Hr Hk Htw Hrw Hd.
  apply (wp_for (fun j r' => length r' = W /\ words r' /\ drop j r' = drop j r /\
    take j r' = take j (if choose then r_try else r)));
    [lia|done|intros j r' Hj (Hl & Hw & Hdj & Htj)|intros r' (Hl & Hw & Hdj & Htj)].
  - wp_steps. assert (Hy : r !! j = Some x0).
    { rewrite <- (Nat.add_0_r j), <- lookup_drop, <- Hdj, lookup_drop. by rewrite Nat.add_0_r. }
    rewrite ct_select_u64_spec by eauto with words.
    split_and!; [by rewrite length_insert| | |].
    + apply words_insert; [done|]. destruct choose; eauto with words.
    + rewrite drop_insert_lt by lia. by rewrite <- (Nat.add_1_r j), <- !drop_drop, Hdj.
    + rewrite take_insert_S, Htj by lia. symmetry. apply take_S_r. by destruct choose.
  - rewrite <- (take_drop k1 r'), Htj, Hdj. destruct choose.
    + rewrite <- Hd. apply take_drop.
    + apply take_drop.
Qed.

Lemma cond_sub_wp W m k r v : uwf m -> val m < Bp k -> (k + 1 <= W)%nat ->
  holds W r v -> v < Bp (k + 1) ->
  wp (cond_sub m (k + 1) r)
    (fun r' => holds W r' (if val m <=? v then v - val m else v)).
Proof.
  intros Hm Hlt Hk Hr Hv. pose proof Hr as (Hrl & Hrw & Hre). unfold cond_sub. wp_step.
  apply (wp_for (fun j '(t, b) => 0 <= b <= 1 /\ drop j t = drop j r /\
    holds W t (v - eval (take j (limbs m)) + b * Bp j)));
    [lia| |intros j [t b] Hj (Hb & Hd & Ht)|intros [t b] (Hb & Hd & Ht)].
  - split_and!; [done|done|done|]. eapply holds_eq; [done|]. simpl. lia.
  - destruct (take_succ_or_all m j Hm) as (y & -> & Hy & He).
    assert (length t = W) by apply Ht. do 2 wp_step. wp_steps.
    destruct (sbb_spec x y b) as (w & b' & -> & Hwe & Hw & Hb');
      [eapply words_lookup; [apply Ht|done]|done|done|]. wp_steps.
    split_and!; [lia|lia| |].
    + rewrite drop_insert_lt by lia. by rewrite <- (Nat.add_1_r j), <- !drop_drop, Hd.
    + eapply holds_eq; [by apply holds_insert|]. rewrite He, Bp_S.
      replace x with (w - B * b' + y + b) by lia. ring.
  - rewrite (eval_take_modulus m k) in Ht by (done || lia).
    pose proof Ht as (Htl & Htw & Hte). cbv zeta.
    eapply wp_mono; [by apply (select_loop_wp W)|]. intros r' ->.
    assert (Hlow : eval t < Bp (k + 1)).
    { rewrite (eval_take_drop t (k + 1)), Hd, eval_drop_div, Hre by (done || lia).
      pose proof (eval_bound _ Hrw). rewrite Z.div_small by lia.
      pose proof (eval_bound _ (words_take (k + 1) _ Htw)) as Hbt.
      rewrite length_take_le in Hbt by lia. lia. }
    pose proof (eval_bound _ Htw).
    assert (b = 0 \/ b = 1) as [-> | ->] by lia; destruct (Z.leb_spec (val m) v); simpl;
      [eapply holds_eq; [done|lia]|lia|lia|done].
Qed.

(** The low [k1] limbs of the difference of two buffers. *)
Lemma sub_low_wp W k1 r1 r2 v1 v2 : holds W r1 v1 -> holds W r2 v2 -> (k1 <= W)%nat ->
  v1 < Bp k1 -> v2 < Bp k1 ->
  wp (for_loop 0 k1 (fun i '(r, borrow) =>
      x ← r1 !! i;
      y ← r2 !! i;
      let '(word, next_borrow) := sbb x y borrow in
      r ← upd r i word;
      Some (r, next_borrow)) (replicate W 0, 0))
    (fun '(r, _) => holds W r ((v1 - v2) mod Bp k1)).
Proof.
  intros (Hl1 & Hw1 & He1) (Hl2 & Hw2 & He2) Hk Hv1 Hv2.
  pose proof (eval_bound _ Hw1). pose proof (eval_bound _ Hw2).
  apply (wp_for (fun i '(r, b) => 0 <= b <= 1 /\ drop i r = replicate (W - i) 0 /\
    built W i r (eval (take i r1) - eval (take i r2) + b * Bp i)));
    [lia| |intros i [r b] Hi (Hb & Hd & Hr)|intros [r b] (Hb & Hd & Hr)].
  - split_and!; [done|done|by rewrite Nat.sub_0_r|]. split_and!; [apply length_replicate|apply words_zeros|done].
  - wp_steps. edestruct (sbb_spec x x0 b) as (w & b' & -> & Hwe & Hw & Hb'); eauto with words.
    assert (length r = W) by apply Hr. wp_steps. split_and!; [lia|lia| |].
    + rewrite drop_insert_lt by lia. rewrite <- (Nat.add_1_r i), <- drop_drop, Hd, drop_replicate.
      f_equal. lia.
    + eapply (built_S _ _ _ _ w) in Hr; [|lia|done].
      erewrite (eval_take_S r1), (eval_take_S r2) by done. rewrite Bp_S.
      replace (_ + b' * _) with
        (eval (take i r1) - eval (take i r2) + b * Bp i + w * Bp i); [done|].
      replace x with (w - B * b' + x0 + b) by lia. ring.
  - destruct Hr as (Hrl & Hrw & Hre). split_and!; [done|done|].
    rewrite (eval_take_drop r k1), Hd, eval_zeros, Z.mul_0_r, Z.add_0_r by lia.
    pose proof (eval_bound _ (words_take k1 _ Hrw)) as Hbt. rewrite length_take_le in Hbt by lia.
    rewrite (eval_take_mod r1), (eval_take_mod r2), He1, He2 in Hre by (done || lia).
    rewrite (Z.mod_small v1), (Z.mod_small v2) in Hre by lia.
    apply (Z.mod_unique_pos _ _ (- b)); lia.
Qed.

(** What a caller must supply as [mu]. *)
Definition is_mu (m : Uint) (k : nat) (mu : list Z) : Prop :=
  words mu /\ (k + 1 <= length mu)%nat /\
  eval (take (k + 1) mu) = Bp (2 * k) / val m.

(** The modulus has exactly [k] limbs and is not a power of the limb base. *)
Definition barrett_modulus (m : Uint) (k : nat) : Prop :=
  uwf m /\ (1 <= k <= LIMBS)%nat /\ (k <= MAX_BARRETT_LIMBS)%nat /\
  Bp (k - 1) < val m < Bp k.

Lemma two_cond_subs W m k r v : uwf m -> 0 < val m < Bp k -> (k + 1 <= W)%nat ->
  holds W r v -> v < 3 * val m ->
  wp (for_loop 0 2 (fun _ r => cond_sub m (k + 1) r) r)
    (fun r' => holds W r' (v mod val m)).
Proof.
  intros Hm Hlt Hk Hr Hv.
  assert (HB : 3 * Bp k < Bp (k + 1)).
  { rewrite Bp_add, Bp_1. pose proof (Bp_pos k). unfold B. lia. }
  assert (0 <= v) by (destruct Hr as (_ & Hw & <-); by apply eval_bound).
  unfold for_loop. cbn [Nat.sub for_from]. wp_step.
  eapply wp_mono; [apply (cond_sub_wp W m k r v); (done || lia)|]. intros r1 Hr1. wp_step.
  eapply wp_mono; [eapply (cond_sub_wp W m k); [done|lia|done|exact Hr1|]|].
  { destruct (Z.leb_spec (val m) v); lia. }
  intros r2 Hr2. wp_step. eapply holds_eq; [exact Hr2|].
  destruct (Z.leb_spec (val m) v).
  - destruct (Z.leb_spec (val m) (v - val m)).
    + apply (Z.mod_unique_pos _ _ 2); lia.
    + apply (Z.mod_unique_pos _ _ 1); lia.
  - destruct (Z.leb_spec (val m) v); [lia|]. symmetry. apply Z.mod_small. lia.
Qed.

Lemma barrett_quotient_wp W product mu k x muv : holds (length product) product x ->
  (1 <= k)%nat -> (2 * k <= length product)%nat -> (2 * (k + 1) <= W)%nat ->
  words mu -> (k + 1 <= length mu)%nat -> eval (take (k + 1) mu) = muv ->
  0 <= x / Bp (k - 1) < Bp (k + 1) -> 0 <= x / Bp (k - 1) * muv / Bp (k + 1) < Bp (k + 1) ->
  wp (barrett_quotient W product mu k)
    (fun q3 => holds W q3 (x / Bp (k - 1) * muv / Bp (k + 1))).
Proof.
  intros Hp Hk Hpl HW Hmuw Hmul Hmue Hq1b Hq3b. unfold barrett_quotient. wp_step.
  eapply wp_slice_digits; [done|lia|]. intros s1 Hs1 Hl1 He1. wp_step.
  replace (k - 1 + (k + 1) - (k - 1))%nat with (k + 1)%nat in * by lia.
  rewrite (Z.mod_small (x / _)) in He1 by lia.
  apply wp_copy_zeros; [done|lia|]. intros q1l Hq1l Htq1. rewrite Hl1 in Htq1. wp_step.
  eapply wp_mono; [apply mul_limbs_zero_wp; [apply Hq1l|done|destruct Hq1l; lia|done|lia]|].
  intros q2 Hq2. rewrite Htq1, He1, Hmue in Hq2. wp_step.
  eapply wp_slice_digits; [exact Hq2|lia|]. intros s2 Hs2 Hl2 He2.
  replace (k + 1 + (k + 1) - (k + 1))%nat with (k + 1)%nat in * by lia.
  rewrite Z.mod_small in He2 by lia.
  apply wp_copy_zeros; [done|lia|]. intros q3l Hq3l _. by rewrite He2 in Hq3l.
Qed.

Lemma barrett_remainder_wp W product q3l m k x q3 : holds (length product) product x ->
  (1 <= k <= LIMBS)%nat -> (2 * k <= length product)%nat -> (2 * (k + 1) <= W)%nat ->
  uwf m -> val m < Bp k -> holds W q3l q3 -> 0 <= q3 < Bp (k + 1) ->
  wp (barrett_remainder W product q3l m k)
    (fun r => holds W r ((x - q3 * val m) mod Bp (k + 1))).
Proof.
  intros Hp Hk Hpl HW Hm Hmv Hq3l Hq3b. unfold barrett_remainder. cbv zeta. wp_step.
  pose proof (Bp_pos (k + 1)) as HQ.
  eapply wp_slice_digits; [done|lia|]. intros s3 Hs3 Hl3 He3. wp_step.
  rewrite Nat.sub_0_r, Bp_0, Z.div_1_r in *.
  apply wp_copy_zeros; [done|lia|]. intros r1 Hr1 _. wp_step.
  eapply wp_slice_digits; [exact Hq3l|lia|]. intros s4 Hs4 Hl4 He4. wp_step.
  rewrite Nat.sub_0_r, Bp_0, Z.div_1_r in *. rewrite Z.mod_small in He4 by lia.
  eapply wp_mono; [apply (mul_limbs_zero_wp W s4 (limbs m));
    [done|apply Hm|lia|destruct Hm; lia|lia]|].
  intros q3m Hq3m. rewrite firstn_all2, He4, (eval_take_modulus m k) in Hq3m by (done || lia).
  wp_step. eapply wp_slice_digits; [exact Hq3m|lia|]. intros s5 Hs5 Hl5 He5. wp_step.
  rewrite Nat.sub_0_r, Bp_0, Z.div_1_r in *.
  apply wp_copy_zeros; [done|lia|]. intros r2 Hr2 _. wp_step.
  eapply wp_mono; [eapply (sub_low_wp W (k + 1)); [exact Hr1|exact Hr2|lia|..]|].
  { rewrite He3. by apply Z.mod_pos_bound. }
  { rewrite He5. by apply Z.mod_pos_bound. }
  intros [r b] Hr. wp_step. by rewrite He3, He5, <- Zminus_mod in Hr.
Qed.

Lemma reduce_barrett_wp W product x m mu k : holds (length product) product x ->
  (2 * k <= length product)%nat -> x < Bp (2 * k) -> barrett_modulus m k ->
  is_mu m k mu -> (2 * (k + 1) <= W)%nat ->
  wp (reduce_wide_barrett_eff_impl W product m mu k)
    (fun r => uwf r /\ val r = x mod val m).
Proof.
  intros Hp Hpl Hx (Hm & Hk & HkB & Hmv) (Hmuw & Hmul & Hmue) HW.
  assert (0 <= x) by (destruct Hp as (_ & Hw & <-); by apply eval_bound).
  assert (HPQ : Bp (2 * k) = Bp (k - 1) * Bp (k + 1)).
  { rewrite <- Bp_add. f_equal. lia. }
  rewrite HPQ in *.
  pose proof (barrett_facts (val m) x _ _ (Bp_pos (k - 1)) (Bp_pos (k + 1)) ltac:(lia) ltac:(lia))
    as (Hmub & Hq1b & Hq3b & Hrb).
  assert (3 * Bp k < Bp (k + 1)).
  { rewrite Bp_add, Bp_1. pose proof (Bp_pos k). unfold B. lia. }
  unfold reduce_wide_barrett_eff_impl. wp_asserts. cbv zeta. wp_step.
  eapply wp_mono; [eapply barrett_quotient_wp; (done || lia)|]. intros q3l Hq3. wp_step.
  eapply wp_mono; [eapply (barrett_remainder_wp W product q3l m k x);
    [done|done|done|done|done|lia|exact Hq3|lia]|]. intros r Hr.
  rewrite Z.mod_small in Hr by lia. wp_step.
  eapply wp_mono; [eapply (two_cond_subs W m k); [done|lia|lia|exact Hr|lia]|].
  intros r' Hr'. wp_step. eapply wp_slice_digits; [exact Hr'|lia|]. intros s6 Hs6 Hl6 He6. wp_step.
  rewrite Nat.sub_0_r, Bp_0, Z.div_1_r in *.
  apply wp_copy_zeros; [done|lia|]. intros l Hl _. wp_step.
  apply holds_uwf in Hl as [? ->]. split; [done|]. rewrite He6.
  set (q3 := _ / Bp (k + 1)) in *.
  pose proof (Z.mod_pos_bound (x - q3 * val m) (val m) ltac:(lia)).
  rewrite Z.mod_small by lia. rewrite <- (Z.mod_add x (- q3)) by lia. f_equal. lia.
Qed.

Lemma is_mu_compute m k : barrett_modulus m k -> (LIMBS + 1 <= MAX_LIMBS)%nat ->
  wp (compute_mu_for_barrett_eff m k) (is_mu m k).
Proof.
  intros (Hm & Hk & HkB & Hmv) HL. pose proof (Bp_pos (k - 1)).
  eapply wp_mono; [apply compute_mu_eff_wp; (done || lia)|].
  intros mu (Hl & Hw & He). split_and!; [done|lia|].
  rewrite eval_take_mod, He, Z.mod_mod by (done || lia || pose proof (Bp_pos (k + 1)); lia).
  apply Z.mod_small. split; [apply Z.div_pos; [pose proof (Bp_pos (2 * k)); lia|lia]|].
  apply Z.div_lt_upper_bound; [lia|].
  replace (2 * k)%nat with (k - 1 + (k + 1))%nat by lia. rewrite Bp_add.
  pose proof (Bp_pos (k + 1)). nia.
Qed.

Lemma eff_limbs_of_spec m : uwf m -> 0 < val m ->
  exists k, eff_limbs_of m = Some k /\ (1 <= k <= LIMBS)%nat /\ Bp (k - 1) <= val m < Bp k.
Proof.
  intros Hm Hpos. unfold eff_limbs_of. rewrite bit_len_spec by done.
  pose proof (val_bound _ Hm) as Hv. rewrite R_pow2 in Hv.
  pose proof (bits_of_spec (val m) ltac:(lia)) as (H0 & H1 & H2). specialize (H2 Hpos).
  pose proof (bits_of_le _ _ Hv ltac:(lia)) as H3.
  set (n := bits_of (val m)) in *. exists (div_ceil (Z.to_nat n) 64). split; [done|].
  assert (1 <= n).
  { destruct (Z.eq_dec n 0) as [E|]; [|lia]. rewrite E in H1. lia. }
  unfold div_ceil. set (k := ((Z.to_nat n + 64 - 1) / 64)%nat).
  pose proof (Nat.div_mod_eq (Z.to_nat n + 64 - 1) 64) as Hd. fold k in Hd.
  pose proof (Nat.mod_upper_bound (Z.to_nat n + 64 - 1) 64 ltac:(lia)).
  assert (1 <= k)%nat by lia. rewrite !Bp_pow2. split_and!; try lia.
  - transitivity (2 ^ (n - 1)); [|done]. apply Z.pow_le_mono_r; lia.
  - eapply Z.lt_le_trans; [exact H1|]. apply Z.pow_le_mono_r; lia.
Qed.

Lemma mul_mod_barrett_wp dbg W a b m mu k : uwf a -> uwf b ->
  val a < Bp k -> val b < Bp k -> barrett_modulus m k -> is_mu m k mu ->
  (2 * (k + 1) <= W)%nat ->
  wp (mul_mod_barrett_impl dbg W a b m mu k)
    (fun r => uwf r /\ val r = (val a * val b) mod val m).
Proof.
  intros Ha Hb Hav Hbv Hm Hmu HW. pose proof Hm as (_ & Hk & HkB & _).
  pose proof (val_bound _ Ha). pose proof (val_bound _ Hb).
  unfold mul_mod_barrett_impl. wp_asserts. wp_step.
  apply (wp_mono _ (fun _ => True)).
  { destruct dbg; [|done]. rewrite !bit_len_spec by done. do 4 wp_step.
    rewrite Bp_pow2 in Hav, Hbv. wp_step; [|done].
    apply andb_true_iff; split; apply Z.leb_le;
      rewrite Z.mul_comm; apply bits_of_le; lia. }
  intros _ _. wp_step. unfold mul_wide_eff. wp_asserts.
  eapply wp_mono; [apply mul_limbs_zero_wp;
    [apply Ha|apply Hb|destruct Ha; lia|destruct Hb; lia|lia]|].
  intros p Hp. rewrite !(eval_take_modulus _ k) in Hp by (done || lia).
  pose proof Hp as (Hpl & _ & _). rewrite <- Hpl in Hp.
  apply reduce_barrett_wp; auto; [lia|].
  replace (2 * k)%nat with (k + k)%nat by lia. rewrite Bp_add. nia.
Qed.

(** Barrett multiplication discharges the interface of the [modpow] loop. *)
#[export] Instance barrett_ModMul dbg W m mu k : barrett_modulus m k -> is_mu m k mu ->
  (2 * (k + 1) <= W)%nat ->
  ModMul (val m) (fun a b => mul_mod_barrett_impl dbg W a b m mu k) (fun a => val a < Bp k).
Proof.
  intros Hm Hmu HW. pose proof Hm as (Hmw & Hk & _ & Hv). pose proof (Bp_pos (k - 1)).
  split; [lia|by intros; apply mul_mod_barrett_wp|lia|].
  rewrite ONE_val by lia. pose proof (Bp_le 1 k ltac:(lia)). rewrite Bp_1 in *.
  unfold B in *. lia.
Qed.

Lemma modpow_barrett_wp dbg W a e m mu k : uwf a -> uwf e -> val a < Bp k ->
  val e < 2 ^ Z.of_nat BITS -> barrett_modulus m k -> is_mu m k mu ->
  (2 * (k + 1) <= W)%nat ->
  wp (modpow_barrett_impl dbg W a e m mu k)
    (fun r => uwf r /\ val r = if val e =? 0 then 1 else val a ^ val e mod val m).
Proof.
  intros Ha He Hav HB Hm Hmu HW. pose proof Hm as (_ & Hk & HkB & Hv).
  pose proof (barrett_ModMul dbg W m mu k Hm Hmu HW) as HM.
  pose proof (val_bound _ Ha). pose proof modmul_pos.
  unfold modpow_barrett_impl. wp_asserts. wp_step.
  eapply wp_mono.
  { apply (mulm_reduced (val m) (fun a b => mul_mod_barrett_impl dbg W a b m mu k)
      (fun a => val a < Bp k) a ONE); auto using ONE_wf. exact (@modmul_one _ _ _ _ HM). }
  intros b (Hb & Hbd & Hbl & Hbv). rewrite ONE_val, Z.mul_1_r in Hbv by lia.
  apply (modpow_loop_wp (val m) _ (fun a => val a < Bp k)); auto; [lia|lia|].
  by rewrite Hbv, Z.mod_mod by lia.
Qed.

End Barrett_proofs.
