(* ===== verification/BigUintBytes.v ===== *)
(** * big_number: byte conversions of [Uint]

    [from_be_slice], [from_le_slice], [to_be_bytes], [to_le_bytes] and their
    fixed-size variants, with the truncation to [BITS] bits. *)
From Stdlib Require Import ZArith Lia.
From stdpp Require Import base list numbers option.
From S2P Require Import Prelude Words Limbs BigUint BigUintBits.

Section Bytes.
Context {D : Dims}.

Definition from_be_slice (bs : list Z) : option Uint :=
  _ ← rassert (length bs =? LIMBS * 8)%nat;
  l ← for_loop 0 LIMBS (fun i l =>
      let start := ((LIMBS - 1 - i) * 8)%nat in
      limb ← slice bs start (start + 8);
      upd l i (from_be limb)) zeros;
  truncate_to_bits (mkUint l).

Definition from_le_slice (bs : list Z) : option Uint :=
  _ ← rassert (length bs =? LIMBS * 8)%nat;
  l ← for_loop 0 LIMBS (fun i l =>
      let start := (i * 8)%nat in
      limb ← slice bs start (start + 8);
      upd l i (from_le limb)) zeros;
  truncate_to_bits (mkUint l).

Definition to_be_bytes (self : Uint) : option (list Z) :=
  for_down LIMBS (fun i out =>
    x ← limbs self !! i; Some (out ++ to_be 8 x)) [].

Definition to_le_bytes (self : Uint) : option (list Z) :=
  for_loop 0 LIMBS (fun i out =>
    x ← limbs self !! i; Some (out ++ to_le 8 x)) [].

Definition to_be_bytes_fixed (N : nat) (self : Uint) : option (list Z) :=
  _ ← rassert (N =? LIMBS * 8)%nat;
  for_loop 0 LIMBS (fun i out =>
    let start := (N - (i + 1) * 8)%nat in
    x ← limbs self !! i;
    copy_at out start (to_be 8 x)) (replicate N 0).

Definition to_le_bytes_fixed (N : nat) (self : Uint) : option (list Z) :=
  _ ← rassert (N =? LIMBS * 8)%nat;
  for_loop 0 LIMBS (fun i out =>
    let start := (i * 8)%nat in
    x ← limbs self !! i;
    copy_at out start (to_le 8 x)) (replicate N 0).

(** The little-endian bytes of a limb vector. *)
Definition le_bytes (l : list Z) : list Z := mjoin (to_le 8 <$> l).

Lemma le_bytes_app l1 l2 : le_bytes (l1 ++ l2) = le_bytes l1 ++ le_bytes l2.
Proof. unfold le_bytes. by rewrite fmap_app, join_app. Qed.

Lemma le_bytes_cons x l : le_bytes (x :: l) = to_le 8 x ++ le_bytes l.
Proof. done. Qed.

Lemma le_bytes_1 x : le_bytes [x] = to_le 8 x.
Proof. rewrite le_bytes_cons. apply app_nil_r. Qed.

Lemma length_le_bytes l : length (le_bytes l) = (8 * length l)%nat.
Proof.
  induction l as [|x l IH]; [done|].
  rewrite le_bytes_cons, length_app, length_to_le, IH. simpl. lia.
Qed.

Lemma bytes_le_bytes l : bytes (le_bytes l).
Proof.
  induction l as [|x l IH]; [constructor|]. rewrite le_bytes_cons.
  apply Forall_app. split; [apply bytes_to_le|done].
Qed.

Lemma from_le_bytes l : words l -> from_le (le_bytes l) = eval l.
Proof.
  induction 1 as [|x l Hx Hl IH]; [done|].
  rewrite le_bytes_cons, from_le_app, from_to_le, length_to_le, IH.
  cbn [eval]. rewrite Z.mod_small by done. done.
Qed.

Lemma le_bytes_take_S l i x : l !! i = Some x ->
  le_bytes (take (S i) l) = le_bytes (take i l) ++ to_le 8 x.
Proof. intros H. by rewrite (take_S_r _ _ _ H), le_bytes_app, le_bytes_1. Qed.

Lemma to_le_bytes_eq u : uwf u -> to_le_bytes u = Some (le_bytes (limbs u)).
Proof.
  intros [Hl Hw].
  enough (wp (to_le_bytes u) (fun r => r = le_bytes (limbs u))) as H.
  { by destruct (wp_elim _ _ H) as (r & -> & ->). }
  apply (wp_for (fun i out => out = le_bytes (take i (limbs u)))); [lia|done| |].
  - intros i out Hi ->. wp_steps. by rewrite (le_bytes_take_S _ _ x).
  - intros out ->. by rewrite firstn_all2 by lia.
Qed.

Lemma to_be_bytes_eq u : uwf u -> to_be_bytes u = Some (reverse (le_bytes (limbs u))).
Proof.
  intros [Hl Hw].
  enough (wp (to_be_bytes u) (fun r => r = reverse (le_bytes (limbs u)))) as H.
  { by destruct (wp_elim _ _ H) as (r & -> & ->). }
  apply (wp_for_down (fun i out => out = reverse (le_bytes (drop i (limbs u))))).
  - by rewrite drop_ge by lia.
  - intros i out Hi ->. wp_steps. rewrite (drop_S (limbs u) x i) by done.
    by rewrite le_bytes_cons, reverse_app.
  - intros out ->. by rewrite drop_0.
Qed.

Lemma to_le_bytes_fixed_eq u : uwf u ->
  to_le_bytes_fixed (LIMBS * 8) u = Some (le_bytes (limbs u)).
Proof.
  intros [Hl Hw].
  enough (wp (to_le_bytes_fixed (LIMBS * 8) u) (fun r => r = le_bytes (limbs u))) as H.
  { by destruct (wp_elim _ _ H) as (r & -> & ->). }
  unfold to_le_bytes_fixed. wp_step. wp_step; [apply Nat.eqb_refl|].
  apply (wp_for (fun i out => length out = (LIMBS * 8)%nat /\
    take (i * 8) out = le_bytes (take i (limbs u))));
    [lia|by rewrite length_replicate|intros i out Hi [Ho Ht]|intros out [Ho Ht]].
  - wp_steps. rewrite length_to_le.
    assert (length (take (i * 8) out) = (i * 8)%nat) by (rewrite length_take; lia).
    split.
    + rewrite !length_app, length_to_le, length_drop. lia.
    + erewrite le_bytes_take_S by done. rewrite <- Ht, app_assoc.
      apply take_app_length'. rewrite length_app, length_to_le. lia.
  - rewrite firstn_all2 in Ht by lia. rewrite (firstn_all2 (limbs u)) in Ht by lia. done.
Qed.

Lemma to_be_bytes_fixed_eq u : uwf u ->
  to_be_bytes_fixed (LIMBS * 8) u = Some (reverse (le_bytes (limbs u))).
Proof.
  intros [Hl Hw].
  enough (wp (to_be_bytes_fixed (LIMBS * 8) u) (fun r => r = reverse (le_bytes (limbs u)))) as H.
  { by destruct (wp_elim _ _ H) as (r & -> & ->). }
  unfold to_be_bytes_fixed. wp_step. wp_step; [apply Nat.eqb_refl|].
  set (N := (LIMBS * 8)%nat).
  apply (wp_for (fun i out => length out = N /\
    drop (N - i * 8) out = reverse (le_bytes (take i (limbs u)))));
    [lia| |intros i out Hi [Ho Ht]|intros out [Ho Ht]].
  - split; [apply length_replicate|]. by rewrite drop_ge by (rewrite length_replicate; lia).
  - assert (Hlen : length (to_be 8 0) = 8%nat) by done.
    assert (Hlb : forall x, length (to_be 8 x) = 8%nat).
    { intros x. unfold to_be. by rewrite length_reverse, length_to_le. }
    cbv zeta. wp_steps. rewrite Hlb.
    assert (length (take (N - (i + 1) * 8) out) = N - (i + 1) * 8)%nat
      by (rewrite length_take; lia).
    split.
    + rewrite !length_app, Hlb, length_drop. lia.
    + erewrite le_bytes_take_S by done. rewrite reverse_app, <- Ht.
      replace (N - S i * 8)%nat with (N - (i + 1) * 8)%nat by lia.
      rewrite drop_app_length' by lia. do 2 f_equal. lia.
  - replace (N - LIMBS * 8)%nat with 0%nat in Ht by lia.
    by rewrite drop_0, (firstn_all2 (limbs u)) in Ht by lia.
Qed.

(** ** Decoding *)

(** Filling the limbs from the 8-byte groups of [rbs]. *)
Lemma fill_limbs_wp rbs (body : nat -> list Z -> option (list Z)) :
  bytes rbs -> length rbs = (LIMBS * 8)%nat ->
  (forall i l, (i < LIMBS)%nat -> body i l = upd l i (from_le (take 8 (drop (i * 8) rbs)))) ->
  wp (for_loop 0 LIMBS body zeros)
    (fun l => holds LIMBS l (from_le rbs)).
Proof.
  intros Hb Hlen Hget.
  apply (wp_for (fun i l => built LIMBS i l (from_le (take (i * 8) rbs))));
    [lia|apply built_0|intros i l Hi Hl|intros l Hl].
  - rewrite Hget by lia. assert (length l = LIMBS) by apply Hl. wp_steps.
    assert (Hw : word (from_le (take 8 (drop (i * 8) rbs)))).
    { pose proof (from_le_bound (take 8 (drop (i * 8) rbs))) as Hbd.
      rewrite length_take_le in Hbd by (rewrite length_drop; lia).
      apply Hbd. by apply Forall_take, Forall_drop. }
    eapply built_S in Hl; [|lia|exact Hw].
    replace (S i * 8)%nat with (i * 8 + 8)%nat by lia.
    rewrite <- take_take_drop, from_le_app, length_take_le by lia.
    replace (256 ^ Z.of_nat (i * 8)) with (Bp i); [by rewrite Z.mul_comm|].
    rewrite Bp_pow2. change 256 with (2 ^ 8). rewrite <- Z.pow_mul_r by lia. f_equal. lia.
  - rewrite firstn_all2 in Hl by lia. split_and!; [apply Hl|apply Hl|]. by apply (built_all LIMBS).
Qed.

Lemma truncate_to_bits_wp u : uwf u ->
  wp (truncate_to_bits u) (fun r => uwf r /\ val r = val u mod 2 ^ Z.of_nat BITS).
Proof.
  intros Hu. pose proof (val_bound _ Hu). unfold truncate_to_bits. cbv zeta.
  assert (HL : LIMBS = div_ceil BITS 64) by apply LIMBS_check. unfold div_ceil in HL.
  pose proof (Nat.div_mod_eq BITS 64) as Hd. pose proof (Nat.mod_upper_bound BITS 64 ltac:(lia)).
  pose proof (Nat.div_mod_eq (BITS + 64 - 1) 64).
  pose proof (Nat.mod_upper_bound (BITS + 64 - 1) 64 ltac:(lia)).
  wp_if; bool_hyps.
  - assert (HL1 : (LIMBS = S (BITS / 64))%nat) by lia.
    assert (length (limbs u) = LIMBS) by apply Hu. wp_steps.
    pose proof (words_lookup _ _ _ (proj2 Hu) Hget) as Hx. unfold word in Hx.
    set (r := (BITS mod 64)%nat) in *.
    rewrite shiftl_mul, Z.mul_1_l, land_ones by lia.
    assert (Hrw : 2 ^ Z.of_nat r < 2 ^ 64) by (apply Z.pow_lt_mono_r; lia).
    pose proof (Z.mod_pos_bound x (2 ^ Z.of_nat r) ltac:(lia)) as Hm.
    destruct (holds_uwf _ _ (holds_insert _ _ _ _ _ (x mod 2 ^ Z.of_nat r)
      (uwf_holds _ Hu) Hget ltac:(unfold word; lia))) as [Hw ->].
    split; [done|]. replace (LIMBS - 1)%nat with (BITS / 64)%nat in * by lia.
    pose proof (eval_take_S _ _ _ Hget) as He. rewrite eval_take_all in He by lia.
    fold (val u) in He. pose proof (eval_bound _ (words_take (BITS / 64) _ (proj2 Hu))) as Hb.
    rewrite length_take_le in Hb by lia.
    rewrite (pow2_split BITS). fold r. set (P := Bp (BITS / 64)) in *.
    pose proof (Z.div_mod x (2 ^ Z.of_nat r) ltac:(lia)) as Hdx. rewrite He.
    set (e := eval _) in *. set (t := 2 ^ Z.of_nat r) in *.
    replace (e + x * P + (x mod t - x) * P) with (e + x mod t * P) by ring.
    assert (0 < P) by apply Bp_pos.
    pose proof (Z.mul_le_mono_nonneg_r (x mod t) (t - 1) P ltac:(lia) ltac:(lia)).
    pose proof (Z.mul_nonneg_nonneg (x mod t) P ltac:(lia) ltac:(lia)).
    apply (Z.mod_unique_pos _ _ (x / t)); [lia|]. rewrite Hdx at 1. ring.
  - wp_step. split; [done|]. rewrite Z.mod_small; [done|].
    assert (HB : R = 2 ^ Z.of_nat BITS) by (rewrite R_pow2; f_equal; lia). lia.
Qed.

Lemma slice_Some {A} (l : list A) lo hi : (lo <= hi)%nat -> (hi <= length l)%nat ->
  slice l lo hi = Some (take (hi - lo) (drop lo l)).
Proof. intros. unfold slice. by rewrite decide_True by done. Qed.

Lemma from_le_slice_wp bs : bytes bs -> length bs = (LIMBS * 8)%nat ->
  wp (from_le_slice bs) (fun u => uwf u /\ val u = from_le bs mod 2 ^ Z.of_nat BITS).
Proof.
  intros Hb Hlen. unfold from_le_slice. wp_step. wp_step; [by apply Nat.eqb_eq|]. wp_step.
  eapply wp_mono; [apply (fill_limbs_wp bs); [done|done|]|].
  - intros i l Hi. cbv zeta. rewrite slice_Some by lia. cbn [mbind option_bind].
    do 3 f_equal. lia.
  - intros l Hl. apply holds_uwf in Hl as [Hw He].
    eapply wp_mono; [by apply truncate_to_bits_wp|]. by rewrite He.
Qed.

Lemma from_be_slice_wp bs : bytes bs -> length bs = (LIMBS * 8)%nat ->
  wp (from_be_slice bs) (fun u => uwf u /\ val u = from_be bs mod 2 ^ Z.of_nat BITS).
Proof.
  intros Hb Hlen. unfold from_be_slice. wp_step. wp_step; [by apply Nat.eqb_eq|]. wp_step.
  eapply wp_mono; [apply (fill_limbs_wp (reverse bs));
    [by apply bytes_reverse|by rewrite length_reverse|]|].
  - intros i l Hi. cbv zeta. rewrite slice_Some by lia. cbn [mbind option_bind].
    unfold from_be. do 2 f_equal. rewrite drop_reverse, take_reverse. f_equal.
    rewrite length_take_le by lia. rewrite skipn_firstn_comm. f_equal; [lia|f_equal; lia].
  - intros l Hl. apply holds_uwf in Hl as [Hw He].
    eapply wp_mono; [by apply truncate_to_bits_wp|]. by rewrite He.
Qed.

(** [MAX] is the truncation of the all-ones vector. *)
Lemma eval_ones n : eval (replicate n (2 ^ 64 - 1)) = Bp n - 1.
Proof.
  induction n as [|n IH]; [done|]. simpl replicate. cbn [eval]. rewrite IH, Bp_S. unfold B. lia.
Qed.

Lemma max_limbs_truncate :
  max_limbs = limbs <$> truncate_to_bits (mkUint (replicate LIMBS (2 ^ 64 - 1))).
Proof.
  unfold max_limbs, truncate_to_bits. cbv zeta. simpl limbs.
  destruct (negb _) eqn:E; [|done]. bool_hyps.
  assert (HL : (0 < LIMBS)%nat).
  { rewrite LIMBS_check. unfold div_ceil. pose proof (Nat.div_mod_eq (BITS + 64 - 1) 64).
    pose proof (Nat.mod_upper_bound (BITS + 64 - 1) 64 ltac:(lia)).
    pose proof (Nat.Div0.div_le_mono 64 (BITS + 64 - 1) 64).
    assert (BITS <> 0)%nat by (intros E0; by rewrite E0 in E). change (64 / 64)%nat with 1%nat in *. lia. }
  rewrite lookup_replicate_2 by lia. cbn [mbind option_bind].
  pose proof (Nat.mod_upper_bound BITS 64 ltac:(lia)).
  rewrite shiftl_mul, Z.mul_1_l, land_ones by lia.
  replace ((2 ^ 64 - 1) mod 2 ^ Z.of_nat (BITS mod 64)) with (2 ^ Z.of_nat (BITS mod 64) - 1).
  - by destruct (upd _ _ _).
  - set (r := Z.of_nat (BITS mod 64)). assert (Hr : 0 <= r < 64) by (unfold r; lia).
    apply (Z.mod_unique_pos _ _ (2 ^ (64 - r) - 1)); [lia|].
    replace (2 ^ 64) with (2 ^ r * 2 ^ (64 - r)); [ring|].
    rewrite <- Z.pow_add_r by lia. f_equal. lia.
Qed.

Lemma MAX_wp : wp MAX (fun u => uwf u /\ val u = 2 ^ Z.of_nat BITS - 1).
Proof.
  unfold MAX. rewrite max_limbs_truncate.
  set (ones := mkUint _).
  assert (Ho : uwf ones).
  { split; [apply length_replicate|]. apply Forall_replicate. unfold word. lia. }
  destruct (wp_elim _ _ (truncate_to_bits_wp _ Ho)) as ([l] & -> & Hu & Hv). simpl.
  split; [done|]. rewrite Hv. unfold ones, val. simpl limbs. rewrite eval_ones.
  fold R. rewrite R_pow2. set (b := Z.of_nat BITS).
  pose proof BITS_le_LIMBS as Hle.
  symmetry. apply (Z.mod_unique_pos _ _ (2 ^ (64 * Z.of_nat LIMBS - b) - 1)); [lia|].
  replace (2 ^ (64 * Z.of_nat LIMBS)) with (2 ^ b * 2 ^ (64 * Z.of_nat LIMBS - b)); [ring|].
  rewrite <- Z.pow_add_r by lia. f_equal. lia.
Qed.

End Bytes.
