(* ===== verification/BigUintRadix.v ===== *)
(** * big_number: parsing and printing in a radix

    [from_str_radix] and [to_string_radix] of src/big_number/big_number.rs.
    A string is the list of its bytes.  [digits_value] is the reference
    reading of a digit string, most significant digit first. *)
From Stdlib Require Import ZArith Lia.
From stdpp Require Import base list numbers option.
From S2P Require Import Prelude Words Limbs BigUint BigUintBits.

Inductive Error := InvalidRadix | InvalidDigit | EmptyString | Overflow.

Definition digit_to_char (digit : Z) (upper : bool) : Z :=
  if digit <=? 9 then 48 + u8 digit
  else if upper then 65 + (u8 digit - 10)
  else 97 + (u8 digit - 10).

Definition char_to_digit (byte : Z) : option Z :=
  if (48 <=? byte) && (byte <=? 57) then Some (byte - 48)
  else if (97 <=? byte) && (byte <=? 122) then Some (byte - 97 + 10)
  else if (65 <=? byte) && (byte <=? 90) then Some (byte - 65 + 10)
  else None.

Definition bits_per_digit (radix : Z) : nat := Z.to_nat (63 - leading_zeros64 radix).

Section Radix.
Context {D : Dims}.

(** The digit loop of [from_str_radix], from accumulator [out]. *)
Fixpoint parse_digits (radix : Z) (bs : list Z) (out : Uint) : option (result Uint Error) :=
  match bs with
  | [] => Some (Ok out)
  | byte :: bs' =>
      match char_to_digit byte with
      | None => Some (Err InvalidDigit)
      | Some digit =>
          if radix <=? digit then Some (Err InvalidDigit) else
          '(mul, high) ← mul_word out radix;
          if negb (high =? 0) then Some (Err Overflow) else
          '(next, carry) ← add_word mul digit;
          if negb (carry =? 0) then Some (Err Overflow) else
          parse_digits radix bs' next
      end
  end.

Definition from_str_radix (src : list Z) (radix : Z) : option (result Uint Error) :=
  if negb ((2 <=? radix) && (radix <=? 36)) then Some (Err InvalidRadix) else
  if (length src =? 0)%nat then Some (Err EmptyString) else
  let start := default (length src) (position (fun b => negb (b =? 48)) src) in
  if (start =? length src)%nat then Some (Ok ZERO) else
  let significant := drop start src in
  if (BITS / bits_per_digit radix + 1 <? length significant)%nat then Some (Err Overflow) else
  r ← parse_digits radix significant ZERO;
  match r with
  | Err e => Some (Err e)
  | Ok out =>
      n ← bit_len out;
      if Z.of_nat BITS <? n then Some (Err Overflow) else Some (Ok out)
  end.

Definition to_string_radix (self : Uint) (radix : Z) : option (list Z) :=
  _ ← rassert ((2 <=? radix) && (radix <=? 36));
  z ← is_zero self;
  if (z : bool) then Some [48] else
  '(digits, _) ← while_m (LIMBS * 64 + 1)
    (fun '(digits, value) => z ← is_zero value; Some (negb z))
    (fun '(digits, value) =>
       '(quotient, remainder) ← div_rem_word value radix;
       Some (digits ++ [digit_to_char remainder false], quotient))
    ([], self);
  Some (reverse digits).

(** [format_args!("{limb:0n$x}")] of a [u64] below [16^n]. *)
Fixpoint hex_fixed (upper : bool) (n : nat) (x : Z) : list Z :=
  match n with
  | O => []
  | S n' => hex_fixed upper n' (x / 16) ++ [digit_to_char (x mod 16) upper]
  end.

(** The number of digits of ["{limb:x}"] for a nonzero limb. *)
Definition hex_width (x : Z) : nat := Z.to_nat ((bits_of x + 3) / 4).

(** [LowerHex::fmt] ([upper = false]) and [UpperHex::fmt]; [alternate] is the
    formatter's [#] flag. *)
Definition fmt_hex (upper alternate : bool) (self : Uint) : option (list Z) :=
  let out : list Z := if alternate then [48; 120] else [] in
  '(out, started) ← for_down LIMBS (fun i '(out, started) =>
      limb ← limbs self !! i;
      if (started : bool) then Some (out ++ hex_fixed upper 16 limb, true)
      else if negb (limb =? 0)
      then Some (out ++ hex_fixed upper (hex_width limb) limb, true)
      else Some (out, started)) (out, false);
  Some (if (started : bool) then out else out ++ [48]).

(** [Display::fmt]. *)
Definition fmt_display (self : Uint) : option (list Z) := to_string_radix self 10.

End Radix.

(** ** The reference reading *)

Fixpoint digits_value (radix acc : Z) (bs : list Z) : option Z :=
  match bs with
  | [] => Some acc
  | b :: bs' =>
      match char_to_digit b with
      | Some d => if d <? radix then digits_value radix (acc * radix + d) bs' else None
      | None => None
      end
  end.

(** The value of the digits before the first character that is not one. *)
Fixpoint valid_value (radix acc : Z) (bs : list Z) : Z :=
  match bs with
  | [] => acc
  | b :: bs' =>
      match char_to_digit b with
      | Some d => if d <? radix then valid_value radix (acc * radix + d) bs' else acc
      | None => acc
      end
  end.

(** The digits from the first that is not a leading zero. *)
Fixpoint significant_digits (bs : list Z) : list Z :=
  match bs with
  | b :: bs' => if b =? 48 then significant_digits bs' else bs
  | [] => []
  end.

Lemma significant_zeros n b rest : b <> 48 -> significant_digits (replicate n 48 ++ b :: rest) = b :: rest.
Proof. intros Hb. induction n as [|n IH]; simpl; [by destruct (Z.eqb_spec b 48)|done]. Qed.

Lemma valid_value_ge radix acc bs : 0 <= acc -> 1 <= radix -> acc <= valid_value radix acc bs.
Proof.
  intros Ha Hr. revert acc Ha. induction bs as [|b bs IH]; intros acc Ha; simpl; [lia|].
  destruct (char_to_digit b) as [d|] eqn:E; [|lia]. destruct (d <? radix); [|lia].
  assert (0 <= d) by (revert E; unfold char_to_digit; repeat case_match; intros; simplify_eq; bool_hyps; lia).
  pose proof (IH (acc * radix + d) ltac:(nia)). nia.
Qed.

Lemma valid_value_zeros radix n bs : 0 < radix -> valid_value radix 0 (replicate n 48 ++ bs) = valid_value radix 0 bs.
Proof.
  intros Hr. induction n as [|n IH]; [done|]. simpl. change (48 - 48) with 0. destruct (Z.ltb_spec 0 radix); [exact IH|lia].
Qed.

Lemma char_to_digit_nonneg b d : char_to_digit b = Some d -> 0 <= d < 36.
Proof.
  unfold char_to_digit. repeat case_match; intros; simplify_eq; bool_hyps; lia.
Qed.

Lemma digits_value_mono radix acc bs v : 0 <= acc -> 2 <= radix ->
  digits_value radix acc bs = Some v -> acc * radix ^ Z.of_nat (length bs) <= v.
Proof.
  intros Ha Hr. revert acc Ha. induction bs as [|b bs IH]; intros acc Ha H; simpl in H.
  - simplify_eq. simpl. lia.
  - destruct (char_to_digit b) as [d|] eqn:Ed; [|done]. apply char_to_digit_nonneg in Ed.
    destruct (Z.ltb_spec d radix); [|done]. apply IH in H; [|nia].
    simpl length. rewrite Nat2Z.inj_succ, Z.pow_succ_r by lia.
    pose proof (Z.pow_pos_nonneg radix (Z.of_nat (length bs))). nia.
Qed.

Lemma digits_value_app radix acc bs1 bs2 :
  digits_value radix acc (bs1 ++ bs2)
  = v ← digits_value radix acc bs1; digits_value radix v bs2.
Proof.
  revert acc. induction bs1 as [|b bs1 IH]; intros acc; [done|].
  simpl. destruct (char_to_digit b) as [d|]; [|reflexivity].
  destruct (d <? radix); [apply IH|reflexivity].
Qed.

Lemma digits_value_zeros radix n bs : 0 < radix ->
  digits_value radix 0 (replicate n 48 ++ bs) = digits_value radix 0 bs.
Proof.
  intros Hr. induction n as [|n IH]; [done|]. simpl.
  change (48 - 48) with 0. destruct (Z.ltb_spec 0 radix); [exact IH|lia].
Qed.

Lemma position_zeros bs :
  match position (fun b => negb (b =? 48)) bs with
  | None => bs = replicate (length bs) 48
  | Some n => (n < length bs)%nat /\ exists b rest,
      b <> 48 /\ drop n bs = b :: rest /\ bs = replicate n 48 ++ b :: rest
  end.
Proof.
  induction bs as [|b bs IH]; simpl; [done|].
  destruct (Z.eqb_spec b 48) as [->|Hne]; simpl.
  - destruct (position _ bs) as [n|]; simpl.
    + destruct IH as (Hn & b & rest & Hb & Hd & He). split; [lia|].
      exists b, rest. split_and!; [done|done|]. by rewrite <- He.
    + by rewrite <- IH.
  - split; [lia|]. by exists b, bs.
Qed.

Section Radix_proofs.
Context {D : Dims}.

(** More significant digits than any value of [BITS] bits has: the fast rejection. *)
Definition too_many_digits (radix : Z) (bs : list Z) : bool :=
  (BITS / bits_per_digit radix + 1 <? length (significant_digits bs))%nat.

(** What the digit loop returns from an accumulator [out].  Of a bad digit and
    an overflow the first to be met is reported: the overflow when the digits
    were too many ([early]), or when those before the bad one overflow the
    limbs. *)
Definition parse_post (early : bool) (bound radix acc : Z) (bs : list Z) (r : result Uint Error) : Prop :=
  match digits_value radix acc bs with
  | Some v =>
      if v <? bound then exists u, r = Ok u /\ uwf u /\ val u = v
      else r = Err Overflow
  | None => r = Err (if early || (R <=? valid_value radix acc bs) then Overflow else InvalidDigit)
  end.

Lemma parse_overflow radix acc bs : 2 <= radix -> R <= acc ->
  parse_post false R radix acc bs (Err Overflow).
Proof.
  intros Hr Ha. unfold parse_post. pose proof R_pos.
  destruct (digits_value radix acc bs) as [v|] eqn:E.
  2: { pose proof (valid_value_ge radix acc bs ltac:(lia) ltac:(lia)).
       by destruct (Z.leb_spec R (valid_value radix acc bs)); [|lia]. }
  apply digits_value_mono in E; [|lia|done].
  pose proof (Z.pow_pos_nonneg radix (Z.of_nat (length bs))).
  destruct (Z.ltb_spec v R); [nia|done].
Qed.

Lemma parse_digits_wp radix bs out : 2 <= radix <= 36 -> (0 < LIMBS)%nat -> uwf out ->
  wp (parse_digits radix bs out) (parse_post false R radix (val out) bs).
Proof.
  intros Hr HL. revert out. induction bs as [|b bs IH]; intros out Ho; simpl.
  - unfold parse_post. simpl. pose proof (val_bound _ Ho).
    destruct (Z.ltb_spec (val out) R); [|lia]. by exists out.
  - pose proof (val_bound _ Ho) as Hob. unfold parse_post. simpl.
    destruct (char_to_digit b) as [d|] eqn:Ed; [|by destruct (Z.leb_spec R (val out)); [lia|]].
    apply char_to_digit_nonneg in Ed. rewrite (Z.leb_antisym d radix).
    destruct (Z.ltb_spec d radix); [|by destruct (Z.leb_spec R (val out)); [lia|]]. simpl. fold (parse_post false R radix (val out * radix + d) bs).
    wp_step. eapply wp_mono; [apply mul_word_wp; [done|unfold word; lia]|].
    intros [mul high] (Hm & Hme & Hh). pose proof (val_bound _ Hm). pose proof R_pos.
    wp_if; bool_hyps; [apply parse_overflow; unfold word in *; nia|].
    wp_step. eapply wp_mono; [apply add_word_wp; [done|unfold word; lia|done]|].
    intros [next carry] (Hn & Hne & Hc). pose proof (val_bound _ Hn).
    wp_if; bool_hyps; [apply parse_overflow; nia|].
    replace (val out * radix + d) with (val next) by nia. by apply IH.
Qed.

Lemma bits_per_digit_spec radix : 2 <= radix <= 36 ->
  (0 < bits_per_digit radix)%nat /\ 2 ^ Z.of_nat (bits_per_digit radix) <= radix.
Proof.
  intros Hr. unfold bits_per_digit, leading_zeros64, bits_of.
  destruct (Z.eqb_spec radix 0); [lia|].
  pose proof (Z.log2_spec radix ltac:(lia)). pose proof (Z.log2_pos radix ltac:(lia)).
  replace (63 - (64 - (Z.log2 radix + 1))) with (Z.log2 radix) by lia.
  rewrite Z2Nat.id by lia. split; lia.
Qed.

(** More significant digits than the fast rejection allows do overflow. *)
Lemma too_long radix b rest v : 2 <= radix <= 36 -> b <> 48 ->
  (BITS / bits_per_digit radix + 1 < length (b :: rest))%nat ->
  digits_value radix 0 (b :: rest) = Some v -> 2 ^ Z.of_nat BITS <= v.
Proof.
  intros Hr Hb Hl Hv. destruct (bits_per_digit_spec radix Hr) as [Hp Hle].
  set (k := bits_per_digit radix) in *. simpl in Hv, Hl.
  destruct (char_to_digit b) as [d|] eqn:Ed; [|done].
  assert (1 <= d).
  { revert Ed. unfold char_to_digit. repeat case_match; intros; simplify_eq; bool_hyps; lia. }
  destruct (Z.ltb_spec d radix); [|done]. apply digits_value_mono in Hv; [|lia|lia].
  assert (Hk : (BITS <= k * length rest)%nat).
  { pose proof (Nat.div_mod_eq BITS k). pose proof (Nat.mod_upper_bound BITS k). nia. }
  assert (2 ^ Z.of_nat BITS <= radix ^ Z.of_nat (length rest)).
  { transitivity (2 ^ (Z.of_nat k * Z.of_nat (length rest))); [apply Z.pow_le_mono_r; lia|].
    rewrite Z.pow_mul_r by lia. apply Z.pow_le_mono_l. lia. }
  nia.
Qed.

Lemma from_str_radix_wp src radix : 2 <= radix <= 36 -> src <> [] -> (0 < LIMBS)%nat ->
  wp (from_str_radix src radix) (parse_post (too_many_digits radix src) (2 ^ Z.of_nat BITS) radix 0 src).
Proof.
  intros Hr Hs HL. unfold from_str_radix.
  rewrite (proj2 (Z.leb_le 2 radix)), (proj2 (Z.leb_le radix 36)) by lia. cbn [andb negb].
  destruct (Nat.eqb_spec (length src) 0) as [E|_]; [by apply nil_length_inv in E|].
  pose proof (position_zeros src) as Hp. cbv zeta.
  destruct (position _ src) as [n|]; cbn [from_option]; unfold id.
  - destruct Hp as (Hn & b & rest & Hb & Hd & He).
    destruct (Nat.eqb_spec n (length src)); [lia|]. rewrite Hd.
    replace (too_many_digits radix src) with (BITS / bits_per_digit radix + 1 <? length (b :: rest))%nat
      by (unfold too_many_digits; by rewrite He, significant_zeros).
    replace (parse_post _ (2 ^ Z.of_nat BITS) radix 0 src)
      with (parse_post (BITS / bits_per_digit radix + 1 <? length (b :: rest))%nat (2 ^ Z.of_nat BITS) radix 0 (b :: rest))
      by (rewrite He; unfold parse_post; by rewrite digits_value_zeros, valid_value_zeros by lia).
    destruct (Nat.ltb_spec (BITS / bits_per_digit radix + 1) (length (b :: rest))) as [Hl|_].
    { apply wp_ret. unfold parse_post.
      destruct (digits_value radix 0 (b :: rest)) as [v|] eqn:E; [|done].
      pose proof (too_long _ _ _ _ Hr Hb Hl E). by destruct (Z.ltb_spec v (2 ^ Z.of_nat BITS)); [lia|]. }
    wp_step. eapply wp_mono; [apply parse_digits_wp; [done|done|apply ZERO_wf]|].
    intros r. rewrite ZERO_val. unfold parse_post.
    assert (2 ^ Z.of_nat BITS <= R).
    { rewrite R_pow2. apply Z.pow_le_mono_r; [lia|]. pose proof BITS_le_LIMBS. lia. }
    destruct (digits_value radix 0 (b :: rest)) as [v|]; [|by intros ->].
    destruct (Z.ltb_spec v R); [|intros ->; by destruct (Z.ltb_spec v (2 ^ Z.of_nat BITS)); [lia|]].
    intros (u & -> & Hu & <-). rewrite (bit_len_spec _ Hu). simpl.
    pose proof (bits_of_spec (val u) (proj1 (val_bound _ Hu))) as (Hb1 & Hb2 & _).
    destruct (Z.ltb_spec (val u) (2 ^ Z.of_nat BITS)) as [Hlt|Hge].
    + pose proof (bits_of_le (val u) (Z.of_nat BITS)). pose proof (val_bound _ Hu).
      destruct (Z.ltb_spec (Z.of_nat BITS) (bits_of (val u))); [lia|]. by exists u.
    + destruct (Z.ltb_spec (Z.of_nat BITS) (bits_of (val u))) as [|Hle]; [done|].
      pose proof (Z.pow_le_mono_r 2 _ _ ltac:(lia) Hle). lia.
  - rewrite Nat.eqb_refl. unfold parse_post. rewrite Hp, <- (app_nil_r (replicate _ _)).
    rewrite digits_value_zeros by lia. cbn [digits_value].
    destruct (Z.ltb_spec 0 (2 ^ Z.of_nat BITS)); [|lia].
    exists ZERO. split; [done|]. split; [apply ZERO_wf|apply ZERO_val].
Qed.

Lemma char_digit_round r upper : 0 <= r < 36 ->
  char_to_digit (digit_to_char r upper) = Some r /\ (digit_to_char r upper = 48 -> r = 0).
Proof.
  intros Hr. unfold digit_to_char. rewrite u8_id by (unfold byte; lia). cbv zeta.
  destruct (Z.leb_spec r 9); [|destruct upper]; unfold char_to_digit.
  - rewrite (proj2 (Z.leb_le 48 _)), (proj2 (Z.leb_le _ 57)) by lia. simpl. split; [f_equal|]; lia.
  - rewrite (proj2 (Z.leb_gt (65 + (r - 10)) 57)), andb_false_r by lia.
    rewrite (proj2 (Z.leb_gt 97 (65 + (r - 10)))) by lia. cbn [andb].
    rewrite (proj2 (Z.leb_le 65 _)), (proj2 (Z.leb_le _ 90)) by lia.
    simpl. split; [f_equal|]; lia.
  - rewrite (proj2 (Z.leb_gt (97 + (r - 10)) 57)), andb_false_r by lia.
    rewrite (proj2 (Z.leb_le 97 _)), (proj2 (Z.leb_le _ 122)) by lia.
    simpl. split; [f_equal|]; lia.
Qed.

Lemma bits_of_half x y : 0 < x -> 0 <= y -> 2 * y <= x -> bits_of y < bits_of x.
Proof.
  intros Hx Hy Hxy. pose proof (bits_of_spec x ltac:(lia)) as (Hn & Hlt & _).
  assert (bits_of x <> 0) by (intros E; rewrite E in Hlt; lia).
  enough (bits_of y <= bits_of x - 1) by lia. apply bits_of_le; [|lia].
  replace (2 ^ bits_of x) with (2 * 2 ^ (bits_of x - 1)) in Hlt; [lia|].
  rewrite <- Z.pow_succ_r by lia. f_equal. lia.
Qed.

(** The printed digits read back as the value, and the first is not ['0']. *)
Definition printed (radix v : Z) (ds : list Z) : Prop :=
  digits_value radix 0 ds = Some v /\ (v <> 0 -> exists c rest, ds = c :: rest /\ c <> 48) /\
  (v = 0 -> ds = [48]).

Lemma to_string_radix_wp u radix : 2 <= radix <= 36 -> (0 < LIMBS)%nat -> uwf u ->
  wp (to_string_radix u radix) (printed radix (val u)).
Proof.
  intros Hr HL Hu. unfold to_string_radix. wp_step. apply wp_assert.
  { apply andb_true_intro; split; apply Z.leb_le; lia. }
  rewrite (is_zero_spec _ Hu). cbn [mbind option_bind].
  destruct (Z.eqb_spec (val u) 0) as [->|Hnz].
  { apply wp_ret. unfold printed. cbn [digits_value]. change (char_to_digit 48) with (Some 0).
    cbn iota. rewrite (proj2 (Z.ltb_lt 0 radix)) by lia. split_and!; done. }
  wp_step. apply (wp_while_m
    (fun '(ds, v) => uwf v /\ digits_value radix (val v) (reverse ds) = Some (val u) /\
       (val v = 0 -> exists c rest, reverse ds = c :: rest /\ c <> 48))
    (fun '(_, v) => Z.to_nat (bits_of (val v)))).
  - split; [done|]. split; [done|]. by intros E.
  - pose proof (bits_of_le (val u) (64 * Z.of_nat LIMBS)) as Hb. rewrite <- R_pow2 in Hb.
    pose proof (val_bound _ Hu). lia.
  - intros [ds v] (Hv & He & Hz). rewrite (is_zero_spec _ Hv). simpl.
    pose proof (val_bound _ Hv).
    destruct (Z.eqb_spec (val v) 0) as [E|Hne]; simpl.
    { rewrite E in He. split; [done|]. split; [intros _; by apply Hz|by intros ?]. }
    wp_step. eapply wp_mono; [apply div_rem_word_wp; [done|unfold word; lia|lia]|].
    intros [q r] (Hq & Hqr & Hr2). wp_step. pose proof (val_bound _ Hq).
    pose proof (bits_of_half (val v) (val q) ltac:(lia) ltac:(lia) ltac:(nia)).
    destruct (char_digit_round r false ltac:(lia)) as [Hc Hc0]. rewrite reverse_snoc.
    split; [split; [done|]; split|pose proof (bits_of_spec (val q) ltac:(lia)); lia].
    + cbn [digits_value]. rewrite Hc. destruct (Z.ltb_spec r radix); [|lia].
      by replace (val q * radix + r) with (val v) by lia.
    + intros E. eexists _, _. split; [done|]. intros E2%Hc0. lia.
Qed.

Lemma hex_fixed_value upper n x acc : 0 <= x < 16 ^ Z.of_nat n ->
  digits_value 16 acc (hex_fixed upper n x) = Some (acc * 16 ^ Z.of_nat n + x).
Proof.
  revert x. induction n as [|n IH]; intros x Hx.
  - simpl in *. f_equal. lia.
  - rewrite Nat2Z.inj_succ, Z.pow_succ_r in * by lia. cbn [hex_fixed].
    rewrite digits_value_app, IH
      by (split; [apply Z.div_pos; lia|apply Z.div_lt_upper_bound; lia]).
    cbn [mbind option_bind digits_value].
    pose proof (Z.mod_pos_bound x 16 ltac:(lia)).
    rewrite (proj1 (char_digit_round (x mod 16) upper ltac:(lia))).
    rewrite (proj2 (Z.ltb_lt (x mod 16) 16)) by lia. f_equal.
    pose proof (Z.div_mod x 16). lia.
Qed.

Lemma hex_fixed_head upper n x : 16 ^ Z.of_nat n <= x < 16 ^ Z.of_nat (S n) ->
  exists c rest, hex_fixed upper (S n) x = c :: rest /\ c <> 48.
Proof.
  revert x. induction n as [|n IH]; intros x Hx.
  - change (16 ^ Z.of_nat 0) with 1 in Hx. change (16 ^ Z.of_nat 1) with 16 in Hx.
    cbn [hex_fixed app]. eexists _, _. split; [done|]. rewrite Z.mod_small by lia.
    intros E%char_digit_round; lia.
  - rewrite (Nat2Z.inj_succ (S n)), Z.pow_succ_r in Hx by lia.
    assert (16 ^ Z.of_nat (S n) = 16 * 16 ^ Z.of_nat n) as E
      by (rewrite Nat2Z.inj_succ, Z.pow_succ_r by lia; done).
    destruct (IH (x / 16)) as (c & rest & He & Hc).
    + split; [apply Z.div_le_lower_bound; lia|apply Z.div_lt_upper_bound; lia].
    + cbn [hex_fixed] in He |- *. rewrite He. by eexists _, _.
Qed.

Lemma hex_width_spec x : 0 < x -> exists n, hex_width x = S n /\
  16 ^ Z.of_nat n <= x < 16 ^ Z.of_nat (S n).
Proof.
  intros Hx. pose proof (bits_of_spec x ltac:(lia)) as (H0 & Hlt & Hle). specialize (Hle Hx).
  assert (1 <= bits_of x) by (destruct (Z.eq_dec (bits_of x) 0) as [E|]; [rewrite E in Hlt|]; lia).
  set (b := bits_of x) in *. assert (Hw : 1 <= (b + 3) / 4) by (apply Z.div_le_lower_bound; lia).
  pose proof (Z.div_mod (b + 3) 4 ltac:(lia)). pose proof (Z.mod_pos_bound (b + 3) 4 ltac:(lia)).
  exists (Z.to_nat ((b + 3) / 4) - 1)%nat. unfold hex_width. fold b. split; [lia|].
  change 16 with (2 ^ 4). rewrite <- !Z.pow_mul_r by lia. split.
  - etrans; [|exact Hle]. apply Z.pow_le_mono_r; lia.
  - eapply Z.lt_le_trans; [exact Hlt|]. apply Z.pow_le_mono_r; lia.
Qed.

(** The state of the limb loop of [fmt_hex] once the limbs from [i] up are out. *)
Definition hex_inv (l : list Z) (i : nat) '((out, started) : list Z * bool) : Prop :=
  if started
  then digits_value 16 0 out = Some (eval (drop i l)) /\ eval (drop i l) <> 0 /\
       exists c rest, out = c :: rest /\ c <> 48
  else out = [] /\ eval (drop i l) = 0.

Lemma fmt_hex_wp upper u : uwf u -> wp (fmt_hex upper false u) (printed 16 (val u)).
Proof.
  intros [Hl Hw]. unfold fmt_hex. wp_step. apply (wp_for_down (hex_inv (limbs u))).
  - unfold hex_inv. by rewrite drop_ge by lia.
  - intros i [out started] Hi Hinv. wp_step. wp_step.
    pose proof (words_lookup _ _ _ Hw Hget) as Hx. unfold word in Hx.
    pose proof (eval_bound _ (words_drop (S i) _ Hw)) as Hb.
    unfold hex_inv in Hinv |- *. rewrite (drop_S _ _ _ Hget) in *. cbn [eval]. unfold B.
    destruct started; [|destruct (Z.eqb_spec x 0) as [->|Hne]]; cbn [negb]; wp_step.
    + destruct Hinv as (Hd & Hnz & c & rest & -> & Hc).
      split_and!; [|lia|by eexists _, _].
      rewrite digits_value_app, Hd. cbn [mbind option_bind].
      rewrite hex_fixed_value by (change (16 ^ Z.of_nat 16) with (2 ^ 64); lia).
      f_equal. change (16 ^ Z.of_nat 16) with (2 ^ 64). lia.
    + destruct Hinv as [-> ->]. done.
    + destruct Hinv as [-> ->]. destruct (hex_width_spec x ltac:(lia)) as (n & Hn & Hr).
      rewrite Hn, app_nil_l. split_and!; [|lia|by apply hex_fixed_head].
      rewrite hex_fixed_value by lia. f_equal. lia.
  - intros [out started] Hinv. wp_step. unfold hex_inv in Hinv. rewrite drop_0 in Hinv.
    fold (val u) in Hinv. unfold printed. destruct started; [tauto|]. by destruct Hinv as [-> ->].
Qed.

End Radix_proofs.
