(* ===== verification/BigInt.v ===== *)
(** * big_number: operators, and the signed type [Int<BITS, LIMBS>]

    The operator impls of [Uint] and [Int] (src/big_number/big_number.rs, lines
    1301-1815).  The macros [impl_uint_ops_unsigned!] and so on give one
    definition per operator with the operand as a [Z] of the macro's type;
    [u128]/[i128] operands go through the two-word helpers.  [ival] is the
    two's-complement reading of an [Int]. *)
From Stdlib Require Import ZArith Lia.
From stdpp Require Import base list numbers option.
From S2P Require Import Prelude Words Limbs BigUint BigUintBits BigUintMul BigUintBytes.

Record Int := mkInt { ibits : Uint }.

Definition u128_to_word (value : Z) : option Z :=
  if value <=? 2 ^ 64 - 1 then Some value else None.

Definition i128_abs_to_word (value : Z) : option (Z * bool) :=
  w ← u128_to_word (Z.abs value); Some (w, value <? 0).

Section Int_ops.
Context {D : Dims}.

Definition int_ZERO : Int := mkInt ZERO.
Definition int_ONE : Int := mkInt ONE.
Definition MINUS_ONE : option Int := mkInt <$> MAX.

Definition from_uint_bits (bits : Uint) : Int := mkInt bits.

Definition int_from_u128 (value : Z) : Int := mkInt (uint_from_u128 value).

Definition int_from_i128 (value : Z) : option Int :=
  if value <? 0 then
    let magnitude := uint_from_u128 (Z.abs value) in
    '(r, _) ← sub_raw (ibits int_ZERO) magnitude;
    Some (mkInt r)
  else Some (mkInt (uint_from_u128 value)).

(** [BITS - 1] underflows for the empty width. *)
Definition is_negative (self : Int) : option bool :=
  _ ← rassert (0 <? BITS)%nat;
  bit (ibits self) (BITS - 1).

Definition abs (self : Int) : option Uint :=
  neg ← is_negative self;
  if (neg : bool) then '(r, _) ← sub_raw (ibits int_ZERO) (ibits self); Some r
  else Some (ibits self).

Definition int_add (self rhs : Int) : option Int :=
  '(r, _) ← add_raw (ibits self) (ibits rhs); Some (from_uint_bits r).

Definition int_sub (self rhs : Int) : option Int :=
  '(r, _) ← sub_raw (ibits self) (ibits rhs); Some (from_uint_bits r).

Definition int_neg (self : Int) : option Int :=
  '(r, _) ← sub_raw (ibits int_ZERO) (ibits self); Some (from_uint_bits r).

(** ** [Uint] with [u8]..[u64] operands *)

Definition uint_add_unsigned (self : Uint) (rhs : Z) : option Uint :=
  w ← u128_to_word rhs; '(r, _) ← add_word self w; Some r.
Definition uint_sub_unsigned (self : Uint) (rhs : Z) : option Uint :=
  w ← u128_to_word rhs; '(r, _) ← sub_word self w; Some r.
Definition uint_mul_unsigned (self : Uint) (rhs : Z) : option Uint :=
  w ← u128_to_word rhs; '(r, _) ← mul_word self w; Some r.
Definition uint_div_unsigned (self : Uint) (rhs : Z) : option Uint :=
  w ← u128_to_word rhs; '(q, _) ← div_rem_word self w; Some q.
Definition uint_rem_unsigned (self : Uint) (rhs : Z) : option Z :=
  w ← u128_to_word rhs; '(_, r) ← div_rem_word self w; Some r.

(** ** [Uint] with [i8]..[i64] operands *)

Definition uint_add_signed (self : Uint) (rhs : Z) : option Uint :=
  '(word, negative) ← i128_abs_to_word rhs;
  if (negative : bool) then '(r, _) ← sub_word self word; Some r
  else '(r, _) ← add_word self word; Some r.
Definition uint_sub_signed (self : Uint) (rhs : Z) : option Uint :=
  '(word, negative) ← i128_abs_to_word rhs;
  if (negative : bool) then '(r, _) ← add_word self word; Some r
  else '(r, _) ← sub_word self word; Some r.
Definition uint_mul_signed (self : Uint) (rhs : Z) : option Uint :=
  '(word, _) ← i128_abs_to_word rhs; '(r, _) ← mul_word self word; Some r.
Definition uint_div_signed (self : Uint) (rhs : Z) : option Uint :=
  '(word, _) ← i128_abs_to_word rhs; '(q, _) ← div_rem_word self word; Some q.
Definition uint_rem_signed (self : Uint) (rhs : Z) : option Z :=
  '(word, _) ← i128_abs_to_word rhs; '(_, r) ← div_rem_word self word; Some r.

(** ** [Uint] with [u128] and [i128] operands *)

Definition uint_div_u128 (self : Uint) (rhs : Z) : option Uint :=
  '(q, _) ← div_rem_u128 self rhs; Some q.
Definition uint_rem_u128 (self : Uint) (rhs : Z) : option Z :=
  '(_, r) ← div_rem_u128 self rhs; Some r.
Definition uint_add_i128 (self : Uint) (rhs : Z) : option Uint :=
  if rhs <? 0 then sub_u128 self (Z.abs rhs) else add_u128 self rhs.
Definition uint_sub_i128 (self : Uint) (rhs : Z) : option Uint :=
  if rhs <? 0 then add_u128 self (Z.abs rhs) else sub_u128 self rhs.
Definition uint_mul_i128 (self : Uint) (rhs : Z) : option Uint :=
  mul_u128 self (Z.abs rhs).
Definition uint_div_i128 (self : Uint) (rhs : Z) : option Uint :=
  '(q, _) ← div_rem_u128 self (Z.abs rhs); Some q.
Definition uint_rem_i128 (self : Uint) (rhs : Z) : option Z :=
  '(_, r) ← div_rem_u128 self (Z.abs rhs); Some r.

(** [if negative { Uint::ZERO.sub_raw(&bits).0 } else { bits }]. *)
Definition cond_neg (negative : bool) (bits : Uint) : option Uint :=
  if negative then '(r, _) ← sub_raw ZERO bits; Some r else Some bits.

(** ** [Int] with [u8]..[u64] operands *)

Definition int_add_unsigned (self : Int) (rhs : Z) : option Int :=
  int_add self (int_from_u128 rhs).
Definition int_sub_unsigned (self : Int) (rhs : Z) : option Int :=
  int_sub self (int_from_u128 rhs).
Definition int_mul_unsigned (self : Int) (rhs : Z) : option Int :=
  a ← abs self; w ← u128_to_word rhs;
  '(product, _) ← mul_word a w;
  neg ← is_negative self;
  bits ← cond_neg neg product;
  Some (from_uint_bits bits).
Definition int_div_unsigned (self : Int) (rhs : Z) : option Int :=
  a ← abs self; w ← u128_to_word rhs;
  '(quotient, _) ← div_rem_word a w;
  neg ← is_negative self;
  bits ← cond_neg neg quotient;
  Some (from_uint_bits bits).
Definition int_rem_unsigned (self : Int) (rhs : Z) : option Int :=
  a ← abs self; w ← u128_to_word rhs;
  '(_, remainder) ← div_rem_word a w;
  neg ← is_negative self;
  bits ← cond_neg neg (from_u64 remainder);
  Some (from_uint_bits bits).

(** ** [Int] with [i8]..[i64] operands *)

Definition int_add_signed (self : Int) (rhs : Z) : option Int :=
  r ← int_from_i128 rhs; int_add self r.
Definition int_sub_signed (self : Int) (rhs : Z) : option Int :=
  r ← int_from_i128 rhs; int_sub self r.
Definition int_mul_signed (self : Int) (rhs : Z) : option Int :=
  '(word, negative) ← i128_abs_to_word rhs;
  a ← abs self;
  '(product, _) ← mul_word a word;
  neg ← is_negative self;
  bits ← cond_neg (xorb neg negative) product;
  Some (from_uint_bits bits).
Definition int_div_signed (self : Int) (rhs : Z) : option Int :=
  '(word, negative) ← i128_abs_to_word rhs;
  a ← abs self;
  '(quotient, _) ← div_rem_word a word;
  neg ← is_negative self;
  bits ← cond_neg (xorb neg negative) quotient;
  Some (from_uint_bits bits).
Definition int_rem_signed (self : Int) (rhs : Z) : option Int :=
  '(word, _) ← i128_abs_to_word rhs;
  a ← abs self;
  '(_, remainder) ← div_rem_word a word;
  neg ← is_negative self;
  bits ← cond_neg neg (from_u64 remainder);
  Some (from_uint_bits bits).

(** ** [Int] with [u128] and [i128] operands *)

Definition int_mul_u128 (self : Int) (rhs : Z) : option Int :=
  a ← abs self;
  product ← mul_u128 a rhs;
  neg ← is_negative self;
  bits ← cond_neg neg product;
  Some (from_uint_bits bits).
Definition int_div_u128 (self : Int) (rhs : Z) : option Int :=
  a ← abs self;
  '(quotient, _) ← div_rem_u128 a rhs;
  neg ← is_negative self;
  bits ← cond_neg neg quotient;
  Some (from_uint_bits bits).
Definition int_rem_u128 (self : Int) (rhs : Z) : option Int :=
  a ← abs self;
  '(_, remainder) ← div_rem_u128 a rhs;
  neg ← is_negative self;
  bits ← cond_neg neg (uint_from_u128 remainder);
  Some (from_uint_bits bits).
Definition int_mul_i128 (self : Int) (rhs : Z) : option Int :=
  a ← abs self;
  product ← mul_u128 a (Z.abs rhs);
  neg ← is_negative self;
  bits ← cond_neg (xorb neg (rhs <? 0)) product;
  Some (from_uint_bits bits).
Definition int_div_i128 (self : Int) (rhs : Z) : option Int :=
  a ← abs self;
  '(quotient, _) ← div_rem_u128 a (Z.abs rhs);
  neg ← is_negative self;
  bits ← cond_neg (xorb neg (rhs <? 0)) quotient;
  Some (from_uint_bits bits).
Definition int_rem_i128 (self : Int) (rhs : Z) : option Int :=
  a ← abs self;
  '(_, remainder) ← div_rem_u128 a (Z.abs rhs);
  neg ← is_negative self;
  bits ← cond_neg neg (uint_from_u128 remainder);
  Some (from_uint_bits bits).

(** ** Values *)

(** The two's-complement value held in the limbs. *)
Definition ival (i : Int) : Z :=
  if val (ibits i) <? R / 2 then val (ibits i) else val (ibits i) - R.

(** Well formed: sign-extended from bit [BITS - 1]. *)
Definition iwf (i : Int) : Prop :=
  uwf (ibits i) /\ - 2 ^ (Z.of_nat BITS - 1) <= ival i < 2 ^ (Z.of_nat BITS - 1).

(** [u] holds the integer [z] modulo the limb width. *)
Definition reps (u : Uint) (z : Z) : Prop := uwf u /\ exists k, val u = z + k * R.

End Int_ops.

(** ** Signs and magnitudes *)

Lemma signed_mul a v :
  (if xorb (a <? 0) (v <? 0) then - (Z.abs a * Z.abs v) else Z.abs a * Z.abs v) = a * v.
Proof. destruct (Z.ltb_spec a 0), (Z.ltb_spec v 0); simpl; lia. Qed.

Lemma signed_quot a v : v <> 0 ->
  (if xorb (a <? 0) (v <? 0) then - (Z.abs a / Z.abs v) else Z.abs a / Z.abs v) = Z.quot a v.
Proof.
  intros Hv. rewrite Z.quot_div by done.
  destruct (Z.ltb_spec a 0), (Z.ltb_spec v 0); simpl;
    destruct (Z.eq_dec a 0) as [->|]; rewrite ?(Z.sgn_pos a), ?(Z.sgn_neg a),
      ?(Z.sgn_pos v), ?(Z.sgn_neg v), ?Z.div_0_l by lia; lia.
Qed.

Lemma signed_rem a v : v <> 0 ->
  (if a <? 0 then - (Z.abs a mod Z.abs v) else Z.abs a mod Z.abs v) = Z.rem a v.
Proof.
  intros Hv. rewrite Z.rem_mod by done. destruct (Z.ltb_spec a 0).
  - rewrite Z.sgn_neg by lia. lia.
  - destruct (Z.eq_dec a 0) as [->|]; [rewrite Z.mod_0_l by lia; done|].
    rewrite Z.sgn_pos by lia. lia.
Qed.

Section Int_proofs.
Context {D : Dims}.
Hypothesis HL : (0 < LIMBS)%nat.

Lemma BITS_pos : (0 < BITS)%nat.
Proof using HL.
  destruct (decide (BITS = 0)%nat) as [E|]; [|lia]. pose proof LIMBS_check as H.
  rewrite E in H. unfold div_ceil in H. change ((0 + 64 - 1) / 64)%nat with 0%nat in H. lia.
Qed.

Lemma reps_mod u z : reps u z -> val u = z mod R.
Proof using Type. clear HL. intros [Hu [k He]]. by apply (val_mod_R _ _ k). Qed.

Lemma reps_of_mod u z : uwf u -> val u = z mod R -> reps u z.
Proof using Type. clear HL.
  intros Hu He. split; [done|]. exists (- (z / R)). pose proof R_pos.
  rewrite He, Z.mod_eq by lia. ring.
Qed.

Lemma Rbase_even : R = 2 * (R / 2).
Proof using HL.
  rewrite R_pow2. replace (64 * Z.of_nat LIMBS) with (1 + (64 * Z.of_nat LIMBS - 1)) by lia.
  rewrite Z.pow_add_r, Z.mul_comm, Z.div_mul by lia. lia.
Qed.

Lemma ival_range i : uwf (ibits i) -> - (R / 2) <= ival i < R / 2.
Proof using HL.
  intros H%val_bound. pose proof Rbase_even. unfold ival.
  destruct (Z.ltb_spec (val (ibits i)) (R / 2)); lia.
Qed.

Lemma reps_self i : uwf (ibits i) -> reps (ibits i) (ival i).
Proof using Type. clear HL.
  intros H. split; [done|]. unfold ival.
  destruct (_ <? _); [exists 0|exists 1]; lia.
Qed.

Lemma reps_ival u z : reps u z -> - (R / 2) <= z < R / 2 -> ival (mkInt u) = z.
Proof using HL.
  intros [Hu [k He]] Hz. pose proof (ival_range (mkInt u) Hu) as Hr.
  destruct (reps_self (mkInt u) Hu) as [_ [k' He']]. simpl in *. pose proof Rbase_even.
  assert (k = k') by nia. subst. lia.
Qed.

Lemma BITS_range i : iwf i -> Z.abs (ival i) <= 2 ^ (Z.of_nat BITS - 1) /\
  2 ^ (Z.of_nat BITS - 1) <= R / 2 /\ 2 ^ (Z.of_nat BITS - 1) < 2 ^ Z.of_nat BITS.
Proof using HL.
  intros [_ Hi]. pose proof BITS_pos. pose proof BITS_le_LIMBS. split; [lia|]. split.
  - apply Z.div_le_lower_bound; [lia|]. rewrite R_pow2, <- Z.pow_succ_r by lia.
    apply Z.pow_le_mono_r; lia.
  - apply Z.pow_lt_mono_r; lia.
Qed.

Lemma is_negative_spec i : iwf i -> is_negative i = Some (ival i <? 0).
Proof using HL.
  intros Hi. pose proof (BITS_range i Hi) as (_ & Hle & Hlt). destruct Hi as [Hu Hi].
  pose proof BITS_pos as HB. pose proof BITS_le_LIMBS as HBL.
  unfold is_negative. rewrite (proj2 (Nat.ltb_lt 0 BITS)) by lia. cbn [rassert mbind option_bind].
  rewrite (bit_spec _ _ Hu), (proj2 (Z.ltb_lt _ _)) by lia. cbn [andb]. f_equal.
  rewrite Nat2Z.inj_sub by lia. change (Z.of_nat 1) with 1. set (n := Z.of_nat BITS - 1) in *.
  destruct (Z.ltb_spec (ival i) 0) as [Hneg|Hpos].
  - assert (He : val (ibits i) = ival i + R).
    { revert Hneg. unfold ival. pose proof (val_bound _ Hu). destruct (_ <? _); lia. }
    apply Z.testbit_true; [lia|]. rewrite He, R_pow2.
    replace (64 * Z.of_nat LIMBS) with (1 + (64 * Z.of_nat LIMBS - 1 - n) + n) by lia.
    rewrite Z.pow_add_r, Z.div_add, Z.pow_add_r by lia.
    replace (ival i / 2 ^ n) with (-1) by (apply (Z.div_unique_pos _ _ _ (ival i + 2 ^ n)); lia).
    rewrite Z.mul_comm, Z.mod_add by lia. done.
  - assert (He : val (ibits i) = ival i).
    { revert Hpos. unfold ival. pose proof (val_bound _ Hu). destruct (_ <? _); lia. }
    apply Z.testbit_false; [lia|]. rewrite He, Z.div_small by lia. done.
Qed.

(** ** Negation and the sign-magnitude operations *)

Lemma reps_neg_wp b z : reps b z ->
  wp ('(r, _) ← sub_raw ZERO b; Some r) (fun r => reps r (- z)).
Proof using Type. clear HL.
  intros [Hb [k He]]. wp_step. eapply wp_mono; [apply sub_raw_wp; [apply ZERO_wf|done]|].
  intros [r c] (Hr & Her & Hc). wp_step. rewrite ZERO_val in Her.
  split; [done|]. exists (c - k). lia.
Qed.

Lemma cond_neg_wp n b z : reps b z ->
  wp (cond_neg n b) (fun r => reps r (if n then - z else z)).
Proof using Type. clear HL. intros Hb. destruct n; simpl; [by apply reps_neg_wp|done]. Qed.

Lemma abs_wp i : iwf i -> wp (abs i) (fun r => uwf r /\ val r = Z.abs (ival i)).
Proof using HL.
  intros Hi. unfold abs. rewrite (is_negative_spec _ Hi). cbn [mbind option_bind].
  pose proof (BITS_range _ Hi) as (Ha & Hle & Hlt). pose proof Rbase_even. destruct Hi as [Hu Hi].
  destruct (Z.ltb_spec (ival i) 0).
  - eapply wp_mono; [apply reps_neg_wp, reps_self; done|].
    intros r [Hr [k He]]. split; [done|]. pose proof (val_bound _ Hr). pose proof R_pos.
    assert (0 < - ival i < R) by lia. assert (k = 0) as -> by nia. lia.
  - simpl. split; [done|]. revert H0. unfold ival. pose proof (val_bound _ Hu). destruct (_ <? _); lia.
Qed.

(** The shape every signed operation has: a computation on the magnitude, then
    the sign put back. *)
Lemma sign_back_wp i m (n : bool -> bool) z : iwf i -> reps m z ->
  wp (neg ← is_negative i; bits ← cond_neg (n neg) m; Some (from_uint_bits bits))
     (fun r => reps (ibits r) (if n (ival i <? 0) then - z else z)).
Proof using HL.
  intros Hi Hm. rewrite (is_negative_spec _ Hi). cbn [mbind option_bind]. wp_step.
  eapply wp_mono; [by apply cond_neg_wp|]. intros r Hr. by wp_step.
Qed.

Lemma u128_to_word_wp v Q : word v -> Q v -> wp (u128_to_word v) Q.
Proof using Type. clear HL.
  unfold word, u128_to_word. intros Hv HQ.
  destruct (Z.leb_spec v (2 ^ 64 - 1)); [done|lia].
Qed.

Lemma i128_abs_to_word_wp v Q : - 2 ^ 63 <= v < 2 ^ 63 -> Q (Z.abs v, v <? 0) ->
  wp (i128_abs_to_word v) Q.
Proof using Type. clear HL.
  intros Hv HQ. unfold i128_abs_to_word. wp_step.
  apply u128_to_word_wp; [unfold word; lia|]. by wp_step.
Qed.

(** ** The operators *)

(** The operation returns normally, with the integer [z] wrapped to the limbs. *)
Definition wraps (m : option Uint) (z : Z) : Prop :=
  wp m (fun r => uwf r /\ val r = z mod R).

Definition iwraps (m : option Int) (z : Z) : Prop :=
  wp m (fun r => reps (ibits r) z).

(** A carry or borrow that is dropped is a multiple of [R]. *)
Lemma wraps_carry (m : option (Uint * Z)) z : wp m (fun '(r, c) => uwf r /\ val r + c * R = z) ->
  wraps ('(r, _) ← m; Some r) z.
Proof using Type. clear HL.
  intros H. apply wp_bind. eapply wp_mono; [exact H|]. intros [r c] [Hr He]. apply wp_ret.
  split; [done|]. apply (val_mod_R _ _ (- c)); [done|lia].
Qed.

Lemma add_word_wraps u w : uwf u -> word w -> wraps ('(r, _) ← add_word u w; Some r) (val u + w).
Proof using HL.
  intros. apply wraps_carry. eapply wp_mono; [by apply add_word_wp|]. intros [r c]. tauto.
Qed.

Lemma sub_word_wraps u w : uwf u -> word w -> wraps ('(r, _) ← sub_word u w; Some r) (val u - w).
Proof using HL.
  intros. unfold wraps. wp_step. eapply wp_mono; [by apply sub_word_wp|].
  intros [r c] (Hr & He & _). wp_step. split; [done|]. apply (val_mod_R _ _ c); [done|lia].
Qed.

Lemma mul_word_wraps u w : uwf u -> word w -> wraps ('(r, _) ← mul_word u w; Some r) (val u * w).
Proof using Type. clear HL.
  intros. apply wraps_carry. eapply wp_mono; [by apply mul_word_wp|]. intros [r c]. tauto.
Qed.

Lemma div_rem_word_exact u w : uwf u -> word w -> w <> 0 ->
  wp (div_rem_word u w) (fun '(q, r) => uwf q /\ val q = val u / w /\ r = val u mod w).
Proof using Type. clear HL.
  intros Hu Hw Hnz. eapply wp_mono; [by apply div_rem_word_wp|]. intros [q r] (Hq & He & Hr).
  split; [done|]. split; [apply (Z.div_unique_pos _ _ _ r)|apply (Z.mod_unique_pos _ _ (val q))]; lia.
Qed.

Lemma uint_div_wraps u (m : option (Uint * Z)) v : uwf u -> 0 < v ->
  wp m (fun '(q, r) => uwf q /\ val q = val u / v /\ r = val u mod v) ->
  wraps ('(q, _) ← m; Some q) (val u / v) /\ ('(_, r) ← m; Some r) = Some (val u mod v).
Proof using Type. clear HL.
  intros Hu Hv ([q r] & -> & Hq & He & ->)%wp_elim. split; [|done]. split; [done|].
  pose proof (val_bound _ Hq). rewrite <- He, Z.mod_small; lia.
Qed.

Lemma int_add_wp a b x y : reps (ibits a) x -> reps (ibits b) y -> iwraps (int_add a b) (x + y).
Proof using Type. clear HL.
  intros [Ha [k1 He1]] [Hb [k2 He2]]. unfold int_add, iwraps. wp_step.
  eapply wp_mono; [by apply add_raw_wp|]. intros [r c] (Hr & He & Hc). wp_step.
  split; [done|]. exists (k1 + k2 - c). simpl. lia.
Qed.

Lemma int_sub_wp a b x y : reps (ibits a) x -> reps (ibits b) y -> iwraps (int_sub a b) (x - y).
Proof using Type. clear HL.
  intros [Ha [k1 He1]] [Hb [k2 He2]]. unfold int_sub, iwraps. wp_step.
  eapply wp_mono; [by apply sub_raw_wp|]. intros [r c] (Hr & He & Hc). wp_step.
  split; [done|]. exists (k1 - k2 + c). simpl. lia.
Qed.

Lemma int_from_u128_reps v : 0 <= v < 2 ^ 128 -> reps (ibits (int_from_u128 v)) v.
Proof using HL.
  intros Hv. destruct (uint_from_u128_spec v Hv HL) as [Hu He]. by apply reps_of_mod.
Qed.

Lemma int_from_i128_wp v : - 2 ^ 127 <= v < 2 ^ 127 -> iwraps (int_from_i128 v) v.
Proof using HL.
  intros Hv. unfold int_from_i128, iwraps. destruct (Z.ltb_spec v 0).
  - pose proof (reps_neg_wp _ _ (int_from_u128_reps (Z.abs v) ltac:(lia))) as H1.
    apply wp_elim in H1 as (r & Hr & Hrep). simpl in *.
    destruct (sub_raw ZERO (uint_from_u128 (Z.abs v))) as [[r' c]|]; simplify_eq/=.
    by replace v with (- Z.abs v) by lia.
  - apply int_from_u128_reps. lia.
Qed.

(** Continue with the magnitude of [i]. *)
Lemma magnitude_wp {A} i (k : Uint -> option A) Q : iwf i ->
  (forall a, uwf a -> val a = Z.abs (ival i) -> val a < 2 ^ Z.of_nat BITS -> wp (k a) Q) ->
  wp (a ← abs i; k a) Q.
Proof using HL.
  intros Hi Hk. wp_step. eapply wp_mono; [by apply abs_wp|]. intros a [Ha He].
  apply Hk; auto. pose proof (BITS_range _ Hi). lia.
Qed.

Lemma mul_word_reps {A} a w (k : Uint -> option A) Q : uwf a -> word w ->
  (forall p, reps p (val a * w) -> wp (k p) Q) -> wp ('(p, _) ← mul_word a w; k p) Q.
Proof using Type. clear HL.
  intros Ha Hw Hk. wp_step. eapply wp_mono; [by apply mul_word_wp|].
  intros [p c] (Hp & He & _). apply Hk. split; [done|]. exists (- c). lia.
Qed.

Lemma mul_u128_reps a v : uwf a -> 0 <= v < 2 ^ 128 ->
  wp (mul_u128 a v) (fun p => reps p (val a * v)).
Proof using HL.
  intros Ha Hv. eapply wp_mono; [by apply mul_u128_wp|]. intros p [Hp He]. by apply reps_of_mod.
Qed.

(** A division backend, continued with the quotient or the remainder. *)
Lemma div_rem_reps {A} a v (m : option (Uint * Z)) (k : Uint -> Z -> option A) Q : uwf a -> 0 < v ->
  wp m (fun '(q, r) => uwf q /\ val q = val a / v /\ r = val a mod v) ->
  (forall q, reps q (val a / v) -> wp (k q (val a mod v)) Q) ->
  wp ('(q, r) ← m; k q r) Q.
Proof using Type. clear HL.
  intros Ha Hv Hm Hk. wp_step. eapply wp_mono; [exact Hm|]. intros [q r] (Hq & He & ->).
  apply Hk. split; [done|]. exists 0. lia.
Qed.

Lemma from_u64_reps v : word v -> reps (from_u64 v) v.
Proof using HL.
  intros Hv. split; [by apply from_u64_wf|]. exists 0. rewrite from_u64_val by done. lia.
Qed.

Lemma mod_word x w : word w -> 0 < w -> word (x mod w).
Proof using Type. clear HL. unfold word. intros. pose proof (Z.mod_pos_bound x w). lia. Qed.

Lemma mod_u128 x w : 0 < w <= 2 ^ 128 -> 0 <= x mod w < 2 ^ 128.
Proof using Type. clear HL. intros. pose proof (Z.mod_pos_bound x w). lia. Qed.

(** Put the sign back, for a product, a quotient or a remainder. *)
Lemma iwraps_sign_back i m (n : bool -> bool) z z' : iwf i -> reps m z ->
  (if n (ival i <? 0) then - z else z) = z' ->
  iwraps (neg ← is_negative i; bits ← cond_neg (n neg) m; Some (from_uint_bits bits)) z'.
Proof using HL. intros Hi Hm <-. by apply sign_back_wp. Qed.

(** [Int * v], [Int / v], [Int % v] by a [u64]-sized magnitude with sign [sv]. *)
Lemma int_word_ops i v : iwf i -> - 2 ^ 63 <= v < 2 ^ 63 ->
  iwraps (int_mul_signed i v) (ival i * v) /\
  (v <> 0 -> iwraps (int_div_signed i v) (Z.quot (ival i) v) /\
             iwraps (int_rem_signed i v) (Z.rem (ival i) v)).
Proof using HL.
  intros Hi Hv. assert (word (Z.abs v)) by (unfold word; lia).
  assert (v <> 0 -> 0 < Z.abs v) by lia. unfold int_mul_signed, int_div_signed, int_rem_signed.
  split; [|intros Hnz; split]; unfold iwraps; wp_step;
    (apply i128_abs_to_word_wp; [done|]); cbn beta iota;
    apply magnitude_wp; auto; intros a Ha Hea _.
  - apply mul_word_reps; [done|done|]. intros p Hp. rewrite Hea in Hp.
    apply (iwraps_sign_back i p (fun b => xorb b (v <? 0)) _ _ Hi Hp), signed_mul.
  - eapply (div_rem_reps a (Z.abs v)); [done|auto|apply div_rem_word_exact; auto; lia|].
    intros q Hq. rewrite Hea in Hq.
    by apply (iwraps_sign_back i q (fun b => xorb b (v <? 0)) _ _ Hi Hq), signed_quot.
  - eapply (div_rem_reps a (Z.abs v)); [done|auto|apply div_rem_word_exact; auto; lia|].
    intros q _. rewrite Hea.
    by apply (iwraps_sign_back i _ (fun b => b) _ _ Hi (from_u64_reps _ (mod_word _ _ ltac:(done) ltac:(auto)))), signed_rem.
Qed.

(** A nonnegative operand is the signed case with the sign test removed. *)
Lemma signed_nonneg v (b : bool) : 0 <= v -> xorb b (v <? 0) = b.
Proof using Type. clear HL. intros. destruct (Z.ltb_spec v 0); [lia|]. by destruct b. Qed.

Lemma int_uword_ops i v : iwf i -> word v ->
  iwraps (int_mul_unsigned i v) (ival i * v) /\
  (v <> 0 -> iwraps (int_div_unsigned i v) (Z.quot (ival i) v) /\
             iwraps (int_rem_unsigned i v) (Z.rem (ival i) v)).
Proof using HL.
  intros Hi Hv. assert (Hn : 0 <= v) by (unfold word in Hv; lia).
  pose proof (signed_mul (ival i) v) as Hmul. pose proof (signed_quot (ival i) v) as Hquot.
  pose proof (signed_rem (ival i) v) as Hrem.
  rewrite signed_nonneg, (Z.abs_eq v) in Hmul, Hquot by done. rewrite (Z.abs_eq v) in Hrem by done.
  unfold int_mul_unsigned, int_div_unsigned, int_rem_unsigned.
  split; [|intros Hnz; split]; unfold iwraps;
    apply magnitude_wp; auto; intros a Ha Hea _; wp_step;
    (apply u128_to_word_wp; [done|]).
  - apply mul_word_reps; [done|done|]. intros p Hp. rewrite Hea in Hp.
    by apply (iwraps_sign_back i p (fun b => b) _ _ Hi Hp).
  - eapply (div_rem_reps a v); [done|lia|by apply div_rem_word_exact|].
    intros q Hq. rewrite Hea in Hq.
    by apply (iwraps_sign_back i q (fun b => b) _ _ Hi Hq), Hquot.
  - eapply (div_rem_reps a v); [done|lia|by apply div_rem_word_exact|].
    intros q _. rewrite Hea.
    by apply (iwraps_sign_back i _ (fun b => b) _ _ Hi (from_u64_reps _ (mod_word _ _ Hv ltac:(lia)))), Hrem.
Qed.

Lemma int_i128_ops i v : iwf i -> - 2 ^ 127 <= v < 2 ^ 127 ->
  iwraps (int_mul_i128 i v) (ival i * v) /\
  (v <> 0 -> iwraps (int_div_i128 i v) (Z.quot (ival i) v) /\
             iwraps (int_rem_i128 i v) (Z.rem (ival i) v)).
Proof using HL.
  intros Hi Hv. unfold int_mul_i128, int_div_i128, int_rem_i128.
  split; [|intros Hnz; split]; unfold iwraps; apply magnitude_wp; auto; intros a Ha Hea Hlt.
  - wp_step. eapply wp_mono; [apply mul_u128_reps; [done|lia]|]. intros p Hp. rewrite Hea in Hp.
    apply (iwraps_sign_back i p (fun b => xorb b (v <? 0)) _ _ Hi Hp), signed_mul.
  - eapply (div_rem_reps a (Z.abs v)); [done|lia|apply div_rem_u128_wp; auto; lia|].
    intros q Hq. rewrite Hea in Hq.
    by apply (iwraps_sign_back i q (fun b => xorb b (v <? 0)) _ _ Hi Hq), signed_quot.
  - eapply (div_rem_reps a (Z.abs v)); [done|lia|apply div_rem_u128_wp; auto; lia|].
    intros q _. rewrite Hea.
    pose proof (int_from_u128_reps _ (mod_u128 (Z.abs (ival i)) (Z.abs v) ltac:(lia))) as Hr.
    by apply (iwraps_sign_back i _ (fun b => b) _ _ Hi Hr), signed_rem.
Qed.

Lemma int_u128_ops i v : iwf i -> 0 <= v < 2 ^ 128 ->
  iwraps (int_mul_u128 i v) (ival i * v) /\
  (v <> 0 -> iwraps (int_div_u128 i v) (Z.quot (ival i) v) /\
             iwraps (int_rem_u128 i v) (Z.rem (ival i) v)).
Proof using HL.
  intros Hi Hv. pose proof (signed_mul (ival i) v) as Hmul.
  pose proof (signed_quot (ival i) v) as Hquot. pose proof (signed_rem (ival i) v) as Hrem.
  rewrite signed_nonneg, (Z.abs_eq v) in Hmul, Hquot by lia. rewrite (Z.abs_eq v) in Hrem by lia.
  unfold int_mul_u128, int_div_u128, int_rem_u128.
  split; [|intros Hnz; split]; unfold iwraps; apply magnitude_wp; auto; intros a Ha Hea Hlt.
  - wp_step. eapply wp_mono; [apply mul_u128_reps; [done|lia]|]. intros p Hp. rewrite Hea in Hp.
    by apply (iwraps_sign_back i p (fun b => b) _ _ Hi Hp).
  - eapply (div_rem_reps a v); [done|lia|apply div_rem_u128_wp; auto; lia|].
    intros q Hq. rewrite Hea in Hq.
    by apply (iwraps_sign_back i q (fun b => b) _ _ Hi Hq), Hquot.
  - eapply (div_rem_reps a v); [done|lia|apply div_rem_u128_wp; auto; lia|].
    intros q _. rewrite Hea.
    pose proof (int_from_u128_reps _ (mod_u128 (Z.abs (ival i)) v ltac:(lia))) as Hr.
    by apply (iwraps_sign_back i _ (fun b => b) _ _ Hi Hr), Hrem.
Qed.

End Int_proofs.
