(* ===== verification/BigNumTheorems.v ===== *)
(** * big_number: the theorems

    The properties of [Uint] and [Int], each with an instance at a concrete
    input.  [U128] and [U256] are the widths of the crate's own tests. *)
From Stdlib Require Import ZArith Lia.
From stdpp Require Import base list numbers option.
From S2P Require Import Prelude Words Limbs BigUint BigUintBits BigUintMul.
From S2P Require Import BigUintBarrett BigUintBytes BigUintRadix BigInt.

(** [Uint<128, 2>] and [Uint<65, 2>]. *)
Definition U128 : Dims := {| BITS := 128; LIMBS := 2; LIMBS_check := eq_refl |}.
Definition U65 : Dims := {| BITS := 65; LIMBS := 2; LIMBS_check := eq_refl |}.

(** A [Uint<128, 2>] literal. *)
Definition lit (x : Z) : Uint := mkUint [x mod 2 ^ 64; x / 2 ^ 64 mod 2 ^ 64].

(** Close the side conditions of a concrete instance. *)
Ltac concrete :=
  repeat match goal with
  | |- uwf _ => split; [reflexivity|]
  | |- words _ => repeat (constructor; [unfold word; vm_compute; split; congruence|]); constructor
  | |- bytes _ => repeat (constructor; [unfold byte; vm_compute; split; congruence|]); constructor
  | |- _ /\ _ => split
  end; try (vm_compute; repeat split; congruence || lia).

Section Theorems.
Context {D : Dims}.

(** ** Barrett arithmetic *)

Lemma eff_limbs_barrett m k : barrett_modulus m k -> eff_limbs_of m = Some k.
Proof.
  intros (Hm & Hk & _ & Hv). pose proof (Bp_pos (k - 1)).
  destruct (eff_limbs_of_spec m Hm ltac:(lia)) as (k' & -> & Hk' & Hv'). f_equal.
  destruct (Nat.lt_trichotomy k k') as [Hlt|[->|Hlt]]; [exfalso|done|exfalso].
  - pose proof (Bp_le k (k' - 1) ltac:(lia)). lia.
  - pose proof (Bp_le k' (k - 1) ltac:(lia)). lia.
Qed.

(** The reciprocal that the callers compute is the one the reduction needs. *)
Lemma compute_mu_ok m k : barrett_modulus m k -> (LIMBS + 1 <= MAX_LIMBS)%nat ->
  exists mu, compute_mu_for_barrett m = Some mu /\ is_mu m k mu.
Proof.
  intros Hm HL. unfold compute_mu_for_barrett. rewrite (eff_limbs_barrett _ _ Hm).
  by apply wp_elim, is_mu_compute.
Qed.

(** C1: Barrett multiplication is multiplication modulo the modulus.  For a
    [k]-limb modulus that is not a power of the limb base, operands below
    [2^(64 k)] and any admissible working width, the reciprocal is computed
    without panicking, the multiplication with it returns (debug assertions
    on or off), and the result is the product reduced. *)
Theorem mul_mod_barrett_correct (dbg : bool) W a b m k :
  uwf a -> uwf b -> barrett_modulus m k -> val a < Bp k -> val b < Bp k ->
  (2 * (k + 1) <= W)%nat -> (LIMBS + 1 <= MAX_LIMBS)%nat ->
  exists mu r, compute_mu_for_barrett m = Some mu /\
    mul_mod_barrett_w dbg W a b m mu = Some r /\
    uwf r /\ val r = (val a * val b) mod val m.
Proof.
  intros Ha Hb Hm Hav Hbv HW HL. destruct (compute_mu_ok m k Hm HL) as (mu & Hmu & His).
  unfold mul_mod_barrett_w. rewrite (eff_limbs_barrett _ _ Hm).
  pose proof (mul_mod_barrett_wp dbg W a b m mu k Ha Hb Hav Hbv Hm His HW) as H.
  apply wp_elim in H as (r & Hr & Hrw & Hrv). by exists mu, r.
Qed.

(** C2: for a modulus of [k] limbs that is no power of the limb base (at most
    [MAX_BARRETT_LIMBS] of them, [barrett_modulus]), a base below [2^(64 k)], an
    exponent of at most [BITS] bits, a working width of at least [2 (k + 1)] limbs
    and values of at most [MAX_LIMBS] / 2 limbs, the Barrett exponentiation and
    the reference square-and-multiply do not panic and return the same value,
    which is [a^e mod m] for a nonzero exponent (and [1] for a zero one). *)
Theorem modpow_barrett_matches_modpow (dbg : bool) W a e m k :
  uwf a -> uwf e -> barrett_modulus m k -> val a < Bp k ->
  val e < 2 ^ Z.of_nat BITS -> (2 * (k + 1) <= W)%nat -> (LIMBS * 2 <= MAX_LIMBS)%nat ->
  exists mu r, compute_mu_for_barrett m = Some mu /\
    modpow_barrett_w dbg W a e m mu = Some r /\ modpow a e m = Some r /\
    val r = if val e =? 0 then 1 else val a ^ val e mod val m.
Proof.
  intros Ha He Hm Hav HB HW HL. pose proof Hm as (Hmw & Hk & _ & Hmv).
  assert (HL1 : (LIMBS + 1 <= MAX_LIMBS)%nat) by (unfold MAX_LIMBS in *; lia).
  destruct (compute_mu_ok m k Hm HL1) as (mu & Hmu & His). pose proof (Bp_pos (k - 1)).
  unfold modpow_barrett_w. rewrite (eff_limbs_barrett _ _ Hm).
  pose proof (modpow_barrett_wp dbg W a e m mu k Ha He Hav HB Hm His HW) as H1.
  apply wp_elim in H1 as (r & Hr & Hrw & Hrv).
  pose proof (modpow_wp a e m Ha He Hmw ltac:(lia) HB ltac:(lia) HL) as H2.
  apply wp_elim in H2 as (r' & Hr' & Hrw' & Hrv').
  assert (r' = r) as -> by (apply val_inj; congruence). by exists mu, r.
Qed.

(** The bit-serial modular multiplication accepts any operands, reduced or
    not, and any nonzero modulus. *)
Theorem mul_mod_correct a b m : uwf a -> uwf b -> uwf m -> 0 < val m ->
  (LIMBS * 2 <= MAX_LIMBS)%nat ->
  exists r, mul_mod a b m = Some r /\ uwf r /\ val r = (val a * val b) mod val m.
Proof. intros. by apply wp_elim, mul_mod_wp. Qed.

(** Modular addition, subtraction and doubling of reduced operands are
    exact, also when the sum carries out of the top limb. *)
Theorem mod_add_sub_correct a b m : uwf a -> uwf b -> uwf m ->
  val a < val m -> val b < val m ->
  (exists r, add_mod a b m = Some r /\ uwf r /\ val r = (val a + val b) mod val m) /\
  (exists r, sub_mod a b m = Some r /\ uwf r /\ val r = (val a - val b) mod val m) /\
  (exists r, double_mod a m = Some r /\ uwf r /\ val r = (2 * val a) mod val m).
Proof.
  intros. split_and!; apply wp_elim; [by apply add_mod_wp|by apply sub_mod_wp|].
  unfold double_mod. replace (2 * val a) with (val a + val a) by lia. by apply add_mod_wp.
Qed.

(** The quotient and the remainder of [u] by [v], as values. *)
Definition quot_rem (q : option Uint) (r : option Z) (u : Uint) (v : Z) : Prop :=
  (exists q', q = Some q' /\ uwf q' /\ val q' = val u / v) /\ r = Some (val u mod v).

Lemma quot_rem_of (m : option (Uint * Z)) u v :
  wp m (fun '(q, r) => uwf q /\ val q = val u / v /\ r = val u mod v) ->
  quot_rem ('(q, _) ← m; Some q) ('(_, r) ← m; Some r) u v.
Proof. intros ([q r] & -> & Hq & He & ->)%wp_elim. split; [by exists q|done]. Qed.

(** C29: division of a [Uint] by any nonzero [u64], [i64], [u128] or [i128]
    gives the quotient and the remainder by the operand's magnitude, on the
    word, the single-limb and the bit-serial path. *)
Theorem div_rem_correct u w i v j : uwf u -> (0 < LIMBS)%nat -> val u < 2 ^ Z.of_nat BITS ->
  0 < w < 2 ^ 64 -> - 2 ^ 63 <= i < 2 ^ 63 -> i <> 0 ->
  0 < v < 2 ^ 128 -> - 2 ^ 127 <= j < 2 ^ 127 -> j <> 0 ->
  quot_rem (uint_div_unsigned u w) (uint_rem_unsigned u w) u w /\
  quot_rem (uint_div_signed u i) (uint_rem_signed u i) u (Z.abs i) /\
  quot_rem (uint_div_u128 u v) (uint_rem_u128 u v) u v /\
  quot_rem (uint_div_i128 u j) (uint_rem_i128 u j) u (Z.abs j).
Proof.
  intros Hu HL HB Hw Hi Hi0 Hv Hj Hj0. split_and!.
  - unfold uint_div_unsigned, uint_rem_unsigned, u128_to_word.
    rewrite (proj2 (Z.leb_le w (2 ^ 64 - 1))) by lia.
    apply quot_rem_of, div_rem_word_exact; [done|unfold word; lia|lia].
  - unfold uint_div_signed, uint_rem_signed, i128_abs_to_word, u128_to_word.
    rewrite (proj2 (Z.leb_le (Z.abs i) (2 ^ 64 - 1))) by lia.
    apply quot_rem_of, div_rem_word_exact; [done|unfold word; lia|lia].
  - by apply quot_rem_of, div_rem_u128_wp.
  - apply quot_rem_of, div_rem_u128_wp; [done|lia|done|done].
Qed.

(** The carry chains are exact: a sum or difference of two values, or a
    value times a word, is the result plus the carry (less the borrow) at the
    weight of the limb after the last. *)
Theorem carry_chains_exact a b w : uwf a -> uwf b -> word w ->
  (exists s c, add_raw a b = Some (s, c) /\ uwf s /\ val s + c * R = val a + val b /\ 0 <= c <= 1) /\
  (exists s c, sub_raw a b = Some (s, c) /\ uwf s /\ val s - c * R = val a - val b /\ 0 <= c <= 1) /\
  (exists s c, mul_word a w = Some (s, c) /\ uwf s /\ val s + c * R = val a * w /\ word c).
Proof.
  intros Ha Hb Hw. pose proof (add_raw_wp a b Ha Hb) as H1. pose proof (sub_raw_wp a b Ha Hb) as H2.
  pose proof (mul_word_wp a w Ha Hw) as H3.
  apply wp_elim in H1 as ([s1 c1] & E1 & ?), H2 as ([s2 c2] & E2 & ?), H3 as ([s3 c3] & E3 & ?).
  split_and!; [by exists s1, c1|by exists s2, c2|by exists s3, c3].
Qed.

(** The branch-free comparisons and selection agree with their plain
    definitions: [ct_eq] decides equality of the limbs, [ct_ge] the order,
    and [ct_select] is a conditional. *)
Theorem ct_ops_correct a b choice : uwf a -> uwf b ->
  (ct_eq a b = Some true <-> a = b) /\
  ct_ge a b = Some (val b <=? val a) /\
  ct_select a b choice = Some (if choice then a else b).
Proof.
  intros Ha Hb. rewrite ct_eq_spec, ct_ge_spec, ct_select_spec by done. split_and!; [|done|done].
  split; [|intros ->; by rewrite Z.eqb_refl].
  intros [= H]. by apply Z.eqb_eq, val_inj in H.
Qed.

(** ** Bytes and strings *)

Lemma le_bytes_to_le l : words l -> le_bytes l = to_le (8 * length l) (eval l).
Proof.
  intros Hw. rewrite <- from_le_bytes, <- length_le_bytes by done.
  by rewrite to_from_le by apply bytes_le_bytes.
Qed.

(** The byte conversions round-trip: reading back the bytes of a value
    below [2^BITS] gives the value, in both byte orders and through the
    fixed-size writers, and writing what was read gives the bytes when they
    encode a number below [2^BITS]. *)
Theorem bytes_round_trip u bs : uwf u -> val u < 2 ^ Z.of_nat BITS ->
  bytes bs -> length bs = (LIMBS * 8)%nat ->
  from_le bs < 2 ^ Z.of_nat BITS -> from_be bs < 2 ^ Z.of_nat BITS ->
  (to_be_bytes u ≫= from_be_slice) = Some u /\ (to_le_bytes u ≫= from_le_slice) = Some u /\
  to_be_bytes_fixed (LIMBS * 8) u = to_be_bytes u /\
  to_le_bytes_fixed (LIMBS * 8) u = to_le_bytes u /\
  (from_be_slice bs ≫= to_be_bytes) = Some bs /\ (from_le_slice bs ≫= to_le_bytes) = Some bs.
Proof.
  intros Hu HB Hbs Hlen Hle Hbe. pose proof (val_bound _ Hu). pose proof Hu as [Hl Hw].
  pose proof (bytes_le_bytes (limbs u)) as Hb. pose proof (length_le_bytes (limbs u)) as Hn.
  rewrite to_be_bytes_fixed_eq, to_le_bytes_fixed_eq, to_be_bytes_eq, to_le_bytes_eq by done.
  split_and!; [| |done|done| |]; cbn [mbind option_bind].
  - pose proof (from_be_slice_wp _ (bytes_reverse _ Hb) ltac:(rewrite length_reverse; lia)) as H1.
    apply wp_elim in H1 as (r & -> & Hr & He). f_equal. apply val_inj; [done..|].
    unfold from_be in He. rewrite reverse_involutive, from_le_bytes in He by done.
    fold (val u) in He. rewrite He. apply Z.mod_small. lia.
  - pose proof (from_le_slice_wp _ Hb ltac:(lia)) as H1.
    apply wp_elim in H1 as (r & -> & Hr & He). f_equal. apply val_inj; [done..|].
    rewrite from_le_bytes in He by done. fold (val u) in He. rewrite He. apply Z.mod_small. lia.
  - pose proof (from_be_slice_wp _ Hbs Hlen) as H1. pose proof (from_le_bound _ (bytes_reverse _ Hbs)).
    apply wp_elim in H1 as (r & -> & Hr & He). cbn [mbind option_bind].
    rewrite to_be_bytes_eq by done. f_equal. unfold from_be in *.
    rewrite Z.mod_small in He by lia. destruct Hr as [Hrl Hrw].
    rewrite le_bytes_to_le, Hrl by done. fold (val r). rewrite He.
    replace (8 * LIMBS)%nat with (length (reverse bs)) by (rewrite length_reverse; lia).
    rewrite to_from_le by (by apply bytes_reverse). apply reverse_involutive.
  - pose proof (from_le_slice_wp _ Hbs Hlen) as H1. pose proof (from_le_bound _ Hbs).
    apply wp_elim in H1 as (r & -> & Hr & He). cbn [mbind option_bind].
    rewrite to_le_bytes_eq by done. f_equal. rewrite Z.mod_small in He by lia.
    destruct Hr as [Hrl Hrw]. rewrite le_bytes_to_le, Hrl by done. fold (val r). rewrite He.
    replace (8 * LIMBS)%nat with (length bs) by lia. by rewrite to_from_le.
Qed.

(** C28: [from_str_radix] accepts exactly the digit strings whose value fits
    [BITS] bits, returns that value, and never panics.  Every other string has
    the error of the first check it fails: [InvalidRadix], [EmptyString],
    [Overflow] for a value that does not fit, and for a string with a bad digit
    [InvalidDigit], unless it has more significant digits than any value that
    fits, or the digits before the bad one already overflow the limbs, when it
    is [Overflow]. *)
Theorem from_str_radix_correct src radix : (0 < LIMBS)%nat ->
  exists r, from_str_radix src radix = Some r /\
  if negb ((2 <=? radix) && (radix <=? 36)) then r = Err InvalidRadix
  else if (length src =? 0)%nat then r = Err EmptyString
  else match digits_value radix 0 src with
  | Some v =>
      if v <? 2 ^ Z.of_nat BITS then exists u, r = Ok u /\ uwf u /\ val u = v
      else r = Err Overflow
  | None => r = Err (if too_many_digits radix src || (R <=? valid_value radix 0 src) then Overflow else InvalidDigit)
  end.
Proof.
  intros HL. destruct ((2 <=? radix) && (radix <=? 36)) eqn:Er; cbn [negb];
    [|unfold from_str_radix; rewrite Er; by eexists].
  destruct (Nat.eqb_spec (length src) 0) as [E|Hne].
  { unfold from_str_radix. rewrite Er, E. by eexists. }
  bool_hyps. apply wp_elim, from_str_radix_wp; [done|by intros ->|done].
Qed.

Lemma printed_reads u radix s : uwf u -> val u < 2 ^ Z.of_nat BITS -> 2 <= radix <= 36 ->
  (0 < LIMBS)%nat -> printed radix (val u) s -> from_str_radix s radix = Some (Ok u).
Proof.
  intros Hu HB Hr HL (Hd & Hnz & Hz). assert (Hs : s <> []).
  { destruct (Z.eq_dec (val u) 0) as [E|E]; [by rewrite (Hz E)|].
    by destruct (Hnz E) as (c & rest & -> & _). }
  pose proof (from_str_radix_wp s radix Hr Hs HL) as (r & -> & H)%wp_elim.
  unfold parse_post in H. rewrite Hd, (proj2 (Z.ltb_lt _ _) HB) in H.
  destruct H as (u' & -> & Hu' & E). by rewrite (val_inj _ _ Hu' Hu E).
Qed.

(** What [to_string_radix] and the hexadecimal formatters print is read
    back by [from_str_radix] as the same value; printing terminates. *)
Theorem radix_round_trip u radix upper : uwf u -> val u < 2 ^ Z.of_nat BITS ->
  2 <= radix <= 36 -> (0 < LIMBS)%nat ->
  (exists s, to_string_radix u radix = Some s /\ from_str_radix s radix = Some (Ok u)) /\
  (exists s, fmt_hex upper false u = Some s /\ from_str_radix s 16 = Some (Ok u)).
Proof.
  intros Hu HB Hr HL. split; apply wp_elim.
  - eapply wp_mono; [by apply to_string_radix_wp|]. intros s Hs. by apply printed_reads.
  - eapply wp_mono; [by apply fmt_hex_wp|]. intros s Hs. by apply printed_reads.
Qed.

(** ** Operators *)

(** [Uint] arithmetic wraps modulo [2^(64 LIMBS)], whatever the width: the limbs
    are what is kept. *)
Theorem uint_ops_limbs a b (w : Z) (i : Z) (v : Z) (j : Z) :
  uwf a -> uwf b -> word w -> - 2 ^ 63 <= i < 2 ^ 63 -> 0 <= v < 2 ^ 128 ->
  - 2 ^ 127 <= j < 2 ^ 127 -> (0 < LIMBS)%nat -> (LIMBS * 2 <= MAX_LIMBS)%nat ->
  (wraps (uint_add a b) (val a + val b) /\ wraps (uint_sub a b) (val a - val b) /\
   wraps (uint_mul a b) (val a * val b)) /\
  (wraps (uint_add_unsigned a w) (val a + w) /\ wraps (uint_sub_unsigned a w) (val a - w) /\
   wraps (uint_mul_unsigned a w) (val a * w)) /\
  (wraps (uint_add_signed a i) (val a + i) /\ wraps (uint_sub_signed a i) (val a - i) /\
   wraps (uint_mul_signed a i) (val a * Z.abs i)) /\
  (wraps (add_u128 a v) (val a + v) /\ wraps (sub_u128 a v) (val a - v) /\
   wraps (mul_u128 a v) (val a * v)) /\
  (wraps (uint_add_i128 a j) (val a + j) /\ wraps (uint_sub_i128 a j) (val a - j) /\
   wraps (uint_mul_i128 a j) (val a * Z.abs j)).
Proof.
  intros Ha Hb Hw Hi Hv Hj HL HL2. assert (Hwi : word (Z.abs i)) by (unfold word; lia).
  split; [|split; [|split; [|split]]]; (split; [|split]).
  - apply wraps_carry. eapply wp_mono; [by apply add_raw_wp|]. intros [r c]. tauto.
  - unfold wraps, uint_sub. wp_step. eapply wp_mono; [by apply sub_raw_wp|].
    intros [r c] (Hr & He & _). wp_step. split; [done|]. apply (val_mod_R _ _ c); [done|lia].
  - by apply uint_mul_wp.
  - apply wp_bind, u128_to_word_wp; [done|]. by apply add_word_wraps.
  - apply wp_bind, u128_to_word_wp; [done|]. by apply sub_word_wraps.
  - apply wp_bind, u128_to_word_wp; [done|]. by apply mul_word_wraps.
  - apply wp_bind, i128_abs_to_word_wp; [done|]. destruct (Z.ltb_spec i 0).
    + replace (val a + i) with (val a - Z.abs i) by lia. by apply sub_word_wraps.
    + replace (val a + i) with (val a + Z.abs i) by lia. by apply add_word_wraps.
  - apply wp_bind, i128_abs_to_word_wp; [done|]. destruct (Z.ltb_spec i 0).
    + replace (val a - i) with (val a + Z.abs i) by lia. by apply add_word_wraps.
    + replace (val a - i) with (val a - Z.abs i) by lia. by apply sub_word_wraps.
  - apply wp_bind, i128_abs_to_word_wp; [done|]. by apply mul_word_wraps.
  - by apply add_u128_wp.
  - by apply sub_u128_wp.
  - by apply mul_u128_wp.
  - unfold wraps, uint_add_i128. destruct (Z.ltb_spec j 0); [|apply add_u128_wp; auto; lia].
    replace (val a + j) with (val a - Z.abs j) by lia. apply sub_u128_wp; auto; lia.
  - unfold wraps, uint_sub_i128. destruct (Z.ltb_spec j 0); [|apply sub_u128_wp; auto; lia].
    replace (val a - j) with (val a + Z.abs j) by lia. apply add_u128_wp; auto; lia.
  - apply mul_u128_wp; auto; lia.
Qed.

(** The low [BITS] bits. *)
Definition low_bits (m : option Uint) (z : Z) : Prop := wp m (fun r => uwf r /\ val r = z mod 2 ^ Z.of_nat BITS).

(** C33: [Uint] arithmetic returns the low [BITS] bits, for a width that fills
    its limbs, [BITS] = 64 [LIMBS], of at most [MAX_LIMBS] / 2 limbs (asserted
    when a product is computed): the operators on two values, on a value and a
    [u64] or [i64], and on a value and a [u128] or [i128] do not panic, and a
    signed operand's sign counts for [+] and [-]. *)
Theorem uint_ops_wrap a b (w : Z) (i : Z) (v : Z) (j : Z) : BITS = (64 * LIMBS)%nat ->
  uwf a -> uwf b -> word w -> - 2 ^ 63 <= i < 2 ^ 63 -> 0 <= v < 2 ^ 128 ->
  - 2 ^ 127 <= j < 2 ^ 127 -> (0 < LIMBS)%nat -> (LIMBS * 2 <= MAX_LIMBS)%nat ->
  (low_bits (uint_add a b) (val a + val b) /\ low_bits (uint_sub a b) (val a - val b) /\
   low_bits (uint_mul a b) (val a * val b)) /\
  (low_bits (uint_add_unsigned a w) (val a + w) /\ low_bits (uint_sub_unsigned a w) (val a - w) /\
   low_bits (uint_mul_unsigned a w) (val a * w)) /\
  (low_bits (uint_add_signed a i) (val a + i) /\ low_bits (uint_sub_signed a i) (val a - i) /\
   low_bits (uint_mul_signed a i) (val a * Z.abs i)) /\
  (low_bits (add_u128 a v) (val a + v) /\ low_bits (sub_u128 a v) (val a - v) /\
   low_bits (mul_u128 a v) (val a * v)) /\
  (low_bits (uint_add_i128 a j) (val a + j) /\ low_bits (uint_sub_i128 a j) (val a - j) /\
   low_bits (uint_mul_i128 a j) (val a * Z.abs j)).
Proof.
  intros HB. unfold low_bits. replace (2 ^ Z.of_nat BITS) with R by (rewrite R_pow2, HB; f_equal; lia).
  apply uint_ops_limbs.
Qed.

Lemma iwraps_exact (m : option Int) z : (0 < LIMBS)%nat -> iwraps m z ->
  exists r, m = Some r /\ uwf (ibits r) /\ val (ibits r) = z mod R /\
    (- (R / 2) <= z < R / 2 -> ival r = z).
Proof.
  intros HL (r & -> & Hr)%wp_elim. exists r. split; [done|]. split; [apply Hr|].
  split; [by apply reps_mod|]. intros Hz. destruct r. by apply reps_ival.
Qed.

(** The result of a signed operation: [z], wrapped to two's complement. *)
Definition signed_result (m : option Int) (z : Z) : Prop :=
  exists r, m = Some r /\ uwf (ibits r) /\ val (ibits r) = z mod R /\
    (- (R / 2) <= z < R / 2 -> ival r = z).

(** [Int] arithmetic is two's-complement arithmetic on sign-extended
    values: the sign and the magnitude are right, sums, differences, negation
    and products wrap modulo [2^(64 LIMBS)], and division and remainder
    truncate towards zero, with [u64], [i64], [u128] and [i128] operands. *)
Theorem int_ops_correct a b w i v j : iwf a -> iwf b -> (0 < LIMBS)%nat ->
  0 < w < 2 ^ 64 -> - 2 ^ 63 <= i < 2 ^ 63 -> i <> 0 ->
  0 < v < 2 ^ 128 -> - 2 ^ 127 <= j < 2 ^ 127 -> j <> 0 ->
  is_negative a = Some (ival a <? 0) /\
  (exists u, abs a = Some u /\ uwf u /\ val u = Z.abs (ival a)) /\
  signed_result (int_add a b) (ival a + ival b) /\
  signed_result (int_sub a b) (ival a - ival b) /\
  signed_result (int_neg a) (- ival a) /\
  (signed_result (int_mul_unsigned a w) (ival a * w) /\
   signed_result (int_div_unsigned a w) (Z.quot (ival a) w) /\
   signed_result (int_rem_unsigned a w) (Z.rem (ival a) w)) /\
  (signed_result (int_mul_u128 a v) (ival a * v) /\
   signed_result (int_div_u128 a v) (Z.quot (ival a) v) /\
   signed_result (int_rem_u128 a v) (Z.rem (ival a) v)) /\
  (signed_result (int_mul_signed a i) (ival a * i) /\
   signed_result (int_div_signed a i) (Z.quot (ival a) i) /\
   signed_result (int_rem_signed a i) (Z.rem (ival a) i)) /\
  (signed_result (int_mul_i128 a j) (ival a * j) /\
   signed_result (int_div_i128 a j) (Z.quot (ival a) j) /\
   signed_result (int_rem_i128 a j) (Z.rem (ival a) j)).
Proof.
  intros Ha Hb HL Hw Hi Hi0 Hv Hj Hj0.
  pose proof (reps_self _ (proj1 Ha)) as Ra. pose proof (reps_self _ (proj1 Hb)) as Rb.
  destruct (int_uword_ops HL a w Ha ltac:(unfold word; lia)) as [W1 W2].
  destruct (int_u128_ops HL a v Ha ltac:(lia)) as [V1 V2].
  destruct (int_word_ops HL a i Ha Hi) as [I1 I2]. destruct (int_i128_ops HL a j Ha Hj) as [J1 J2].
  destruct (W2 ltac:(lia)), (V2 ltac:(lia)), (I2 Hi0), (J2 Hj0).
  split; [by apply is_negative_spec|]. split; [by apply wp_elim, abs_wp|].
  split; [by apply iwraps_exact, int_add_wp|]. split; [by apply iwraps_exact, int_sub_wp|].
  split; [|split_and!; by apply iwraps_exact].
  apply iwraps_exact; [done|].
  replace (- ival a) with (0 - ival a) by lia. apply (int_sub_wp int_ZERO a 0); [|done].
  split; [apply ZERO_wf|]. exists 0. simpl. rewrite ZERO_val. lia.
Qed.

End Theorems.

(** ** Where the documentation and the code part *)

(** For a modulus that is a power of the limb base the reciprocal needs
    one limb more than the code keeps; the top bit is dropped, the reciprocal
    becomes zero and only the two final subtractions reduce the product.  Here
    the modulus is [2^64], and [2^63 * 8] is returned as [2^65], not [0]. *)
Theorem barrett_power_of_base_not_reduced :
  (mu ← compute_mu_for_barrett (D := U128) (lit (2 ^ 64));
   mul_mod_barrett (D := U128) true (lit (2 ^ 63)) (lit 8) (lit (2 ^ 64)) mu)
  = Some (lit (2 ^ 65)) /\
  (2 ^ 63 * 8) mod 2 ^ 64 = 0.
Proof. split; vm_compute; reflexivity. Qed.

(** The base of [modpow_barrett] must already fit the modulus's limbs: the
    reduction reads only those, so [2^64] to the first power modulo [3] is [0]
    in a release build, a panic in a debug build, and [1] in [modpow]. *)
Theorem modpow_barrett_wide_base :
  (mu ← compute_mu_for_barrett (D := U128) (lit 3);
   modpow_barrett (D := U128) false (lit (2 ^ 64)) (lit 1) (lit 3) mu) = Some (lit 0) /\
  (mu ← compute_mu_for_barrett (D := U128) (lit 3);
   modpow_barrett (D := U128) true (lit (2 ^ 64)) (lit 1) (lit 3) mu) = None /\
  modpow (D := U128) (lit (2 ^ 64)) (lit 1) (lit 3) = Some (lit 1).
Proof. split_and!; vm_compute; reflexivity. Qed.

(** [Int::MINUS_ONE] is not sign-extended when [BITS] is not a multiple of
    64: with 65 bits its magnitude is [2^128 - 2^65 + 1] and negating it does
    not give [ONE]. *)
Theorem minus_one_not_sign_extended :
  (i ← MINUS_ONE (D := U65); abs (D := U65) i) = Some (lit (2 ^ 128 - 2 ^ 65 + 1)) /\
  (i ← MINUS_ONE (D := U65); int_neg (D := U65) i) <> Some (int_ONE (D := U65)).
Proof. split; vm_compute; [reflexivity|congruence]. Qed.

(** Nor are the bits above [BITS] dropped there: with 65 bits, twice [2^64] is
    [2^65], where the low 65 bits are zero. *)
Theorem mul_u128_keeps_limb :
  (exists r, mul_u128 (D := U65) (lit (2 ^ 64)) 2 = Some r /\ val r = 2 ^ 65) /\
  (exists r, uint_add (D := U65) (lit (2 ^ 64)) (lit (2 ^ 64)) = Some r /\ val r = 2 ^ 65).
Proof. split; eexists; split; vm_compute; reflexivity. Qed.

(** ** The theorems at concrete inputs *)

(** The field of the tests' smaller vectors: [2^127 - 1]. *)
Definition P127 : Uint := lit (2 ^ 127 - 1).

Lemma P127_modulus : barrett_modulus (D := U128) P127 2.
Proof. unfold barrett_modulus. concrete. Qed.

Lemma mul_mod_barrett_witness :
  exists mu r, compute_mu_for_barrett (D := U128) P127 = Some mu /\
    mul_mod_barrett_w (D := U128) true 6 (lit (2 ^ 126)) (lit 5) P127 mu = Some r /\
    uwf (D := U128) r /\ val r = (2 ^ 126 * 5) mod (2 ^ 127 - 1).
Proof.
  apply (mul_mod_barrett_correct (D := U128) true 6 (lit (2 ^ 126)) (lit 5) P127 2);
    [concrete|concrete|exact P127_modulus|concrete|concrete|concrete|concrete].
Defined.

Lemma modpow_barrett_witness :
  exists mu r, compute_mu_for_barrett (D := U128) P127 = Some mu /\
    modpow_barrett_w (D := U128) true 6 (lit 3) (lit 65537) P127 mu = Some r /\
    modpow (D := U128) (lit 3) (lit 65537) P127 = Some r /\
    val r = if val (lit 65537) =? 0 then 1 else val (lit 3) ^ val (lit 65537) mod val P127.
Proof.
  apply (modpow_barrett_matches_modpow (D := U128) true 6 (lit 3) (lit 65537) P127 2);
    [concrete|concrete|exact P127_modulus|concrete|concrete|concrete|concrete].
Defined.

Lemma mul_mod_witness :
  exists r, mul_mod (D := U128) (lit (2 ^ 127)) (lit 6) (lit 7) = Some r /\
    uwf (D := U128) r /\ val r = (val (lit (2 ^ 127)) * val (lit 6)) mod val (lit 7).
Proof. apply (mul_mod_correct (D := U128)); concrete. Defined.

Lemma mod_add_sub_witness :
  (exists r, add_mod (D := U128) (lit (2 ^ 128 - 2)) (lit 5) (lit (2 ^ 128 - 1)) = Some r /\
     uwf (D := U128) r /\ val r = (val (lit (2 ^ 128 - 2)) + val (lit 5)) mod val (lit (2 ^ 128 - 1))) /\
  (exists r, sub_mod (D := U128) (lit (2 ^ 128 - 2)) (lit 5) (lit (2 ^ 128 - 1)) = Some r /\
     uwf (D := U128) r /\ val r = (val (lit (2 ^ 128 - 2)) - val (lit 5)) mod val (lit (2 ^ 128 - 1))) /\
  (exists r, double_mod (D := U128) (lit (2 ^ 128 - 2)) (lit (2 ^ 128 - 1)) = Some r /\
     uwf (D := U128) r /\ val r = (2 * val (lit (2 ^ 128 - 2))) mod val (lit (2 ^ 128 - 1))).
Proof. apply (mod_add_sub_correct (D := U128)); concrete. Defined.

Lemma div_rem_witness :
  quot_rem (uint_div_unsigned (D := U128) (lit (2 ^ 100)) 10) (uint_rem_unsigned (D := U128) (lit (2 ^ 100)) 10)
    (lit (2 ^ 100)) 10 (D := U128) /\
  quot_rem (uint_div_signed (D := U128) (lit (2 ^ 100)) (-10)) (uint_rem_signed (D := U128) (lit (2 ^ 100)) (-10))
    (lit (2 ^ 100)) 10 (D := U128) /\
  quot_rem (uint_div_u128 (D := U128) (lit (2 ^ 100)) (2 ^ 90 + 1)) (uint_rem_u128 (D := U128) (lit (2 ^ 100)) (2 ^ 90 + 1))
    (lit (2 ^ 100)) (2 ^ 90 + 1) (D := U128) /\
  quot_rem (uint_div_i128 (D := U128) (lit (2 ^ 100)) (- 3)) (uint_rem_i128 (D := U128) (lit (2 ^ 100)) (- 3))
    (lit (2 ^ 100)) 3 (D := U128).
Proof. apply (div_rem_correct (D := U128) _ 10 (-10) (2 ^ 90 + 1) (-3)); concrete. Defined.

Lemma carry_chains_witness :
  exists s c, add_raw (D := U128) (lit (2 ^ 128 - 1)) (lit 1) = Some (s, c) /\ uwf (D := U128) s /\
    val s + c * R (D := U128) = val (lit (2 ^ 128 - 1)) + val (lit 1) /\ 0 <= c <= 1.
Proof. apply (carry_chains_exact (D := U128) (lit (2 ^ 128 - 1)) (lit 1) 3); concrete. Defined.

Lemma ct_ops_witness :
  (ct_eq (D := U128) (lit 5) (lit 6) = Some true <-> lit 5 = lit 6) /\
  ct_ge (D := U128) (lit 5) (lit 6) = Some (val (lit 6) <=? val (lit 5)) /\
  ct_select (D := U128) (lit 5) (lit 6) false = Some (lit 6).
Proof. apply (ct_ops_correct (D := U128) (lit 5) (lit 6) false); concrete. Defined.

(** Sixteen bytes. *)
Definition bs16 : list Z := [1; 2; 3; 4; 5; 6; 7; 8; 9; 10; 11; 12; 13; 14; 15; 255].

Lemma bytes_round_trip_witness :
  (to_be_bytes (D := U128) (lit 258) ≫= from_be_slice (D := U128)) = Some (lit 258) /\
  (from_be_slice (D := U128) bs16 ≫= to_be_bytes (D := U128)) = Some bs16.
Proof.
  destruct (bytes_round_trip (D := U128) (lit 258) bs16) as (H1 & _ & _ & _ & H2 & _);
    [concrete..|]. split; [exact H1|exact H2].
Defined.

Lemma from_str_radix_witness :
  exists r, from_str_radix (D := U128) [50; 53; 53] 10 = Some r /\
    exists u, r = Ok u /\ uwf (D := U128) u /\ val u = 255.
Proof. apply (from_str_radix_correct (D := U128) [50; 53; 53] 10); concrete. Defined.

Lemma radix_round_trip_witness :
  exists s, to_string_radix (D := U128) (lit (2 ^ 100)) 10 = Some s /\
    from_str_radix (D := U128) s 10 = Some (Ok (lit (2 ^ 100))).
Proof. apply (radix_round_trip (D := U128) (lit (2 ^ 100)) 10 true); concrete. Defined.

Lemma uint_ops_witness :
  low_bits (D := U128) (uint_mul (D := U128) (lit (2 ^ 127)) (lit 3)) (val (lit (2 ^ 127)) * val (lit 3)).
Proof.
  destruct (uint_ops_wrap (D := U128) (lit (2 ^ 127)) (lit 3) 7 (-7) (2 ^ 100) (- 2 ^ 100))
    as ((_ & _ & H) & _); [concrete..|]. exact H.
Defined.

(** Minus ten. *)
Definition m10 : Int := mkInt (lit (2 ^ 128 - 10)).

Lemma int_ops_witness :
  is_negative (D := U128) m10 = Some true /\
  signed_result (D := U128) (int_div_signed (D := U128) m10 (-4)) 2.
Proof.
  destruct (int_ops_correct (D := U128) m10 m10 3 (-4) 5 (-6))
    as (H1 & _ & _ & _ & _ & _ & _ & (_ & H2 & _) & _);
    [unfold iwf; concrete|unfold iwf; concrete|concrete..|].
  split; [exact H1|exact H2].
Defined.
