(* ===== verification/Hex.v ===== *)
(** * hex: encoding and decoding

    The portable paths of src/hex/hex.rs.  [nibble_to_hex] and
    [nibble_from_hex] are the branch-free byte tricks of the code, on [i16] and
    [u8]; the theorems compare them with the plain tables.  An output buffer is
    a list threaded through the call; [encode_into] and [decode_into] are the
    dispatchers as compiled for a target without the SIMD features. *)
From Stdlib Require Import ZArith Lia.
From stdpp Require Import base list numbers option.
From S2P Require Import Prelude Words Limbs.

Module Hex.

Inductive Alphabet := Lower | Upper.

Inductive DecodeError := InvalidInput | InvalidInputLength | DecodeOutputLength.

Inductive EncodeError := InvalidOutputLength.

(** [x >> 8] on [i16] is an arithmetic shift, and the cast keeps the low byte. *)
Definition nibble_to_hex (nibble : Z) (alphabet : Alphabet) : Z :=
  let nibble := Z.land nibble 15 in
  let digit_mask := u8 (Z.shiftr (nibble - 10) 8) in
  let digit_val := 48 + nibble in
  let letter_val := 97 + nibble - 10 in
  let upper_val := 65 + nibble - 10 in
  let lower_result := Z.lor (Z.land digit_val digit_mask) (Z.land letter_val (notw 8 digit_mask)) in
  let upper_result := Z.lor (Z.land digit_val digit_mask) (Z.land upper_val (notw 8 digit_mask)) in
  match alphabet with Lower => lower_result | Upper => upper_result end.

Definition check_encode_output_length (data_length output_length : nat)
  : result unit EncodeError :=
  if negb (data_length * 2 =? output_length)%nat then Err InvalidOutputLength else Ok tt.

(** The two writes for the byte at [i]. *)
Definition encode_byte (alphabet : Alphabet) (data : list Z) (i : nat) (output : list Z)
  : option (list Z) :=
  b ← data !! i;
  let o := (i * 2)%nat in
  output ← upd output o (nibble_to_hex (Z.shiftr b 4) alphabet);
  upd output (o + 1) (nibble_to_hex (Z.land b 15) alphabet).

Definition encode_into_constant_time (output data : list Z) (alphabet : Alphabet)
  : option (list Z * result unit EncodeError) :=
  match check_encode_output_length (length data) (length output) with
  | Err err => Some (output, Err err)
  | Ok _ =>
      let len := length data in
      '(output, i) ← while_loop (S len)
        (fun '(_, i) => (i + 16 <=? len)%nat)
        (fun '(output, i) =>
           output ← for_from 16 i (encode_byte alphabet data) output;
           Some (output, (i + 16)%nat)) (output, 0%nat);
      '(output, _) ← while_loop (S len)
        (fun '(_, i) => (i <? len)%nat)
        (fun '(output, i) =>
           output ← encode_byte alphabet data i output;
           Some (output, (i + 1)%nat)) (output, i);
      Some (output, Ok tt)
  end.

Definition encode_into (output data : list Z) (alphabet : Alphabet)
  : option (list Z * result unit EncodeError) :=
  encode_into_constant_time output data alphabet.

(** [.unwrap()] of the encoder's result. *)
Definition unwrap_encoded (r : option (list Z * result unit EncodeError)) : option (list Z) :=
  '(output, res) ← r;
  match res with Ok _ => Some output | Err _ => None end.

Definition encode_with_alphabet (data : list Z) (alphabet : Alphabet) : option (list Z) :=
  let output := replicate (length data * 2) 0 in
  unwrap_encoded (encode_into output data alphabet).

Definition encode (data : list Z) : option (list Z) := encode_with_alphabet data Lower.

Definition encode_array (OUT : nat) (data : list Z) (alphabet : Alphabet) : option (list Z) :=
  unwrap_encoded (encode_into_constant_time (replicate OUT 0) data alphabet).

Definition encode_into_string (output data : list Z) (alphabet : Alphabet) : option (list Z) :=
  let encoded_length := (length data * 2)%nat in
  if (encoded_length <=? 256)%nat then
    buf ← slice (replicate 256 0) 0 encoded_length;
    buf ← unwrap_encoded (encode_into buf data alphabet);
    Some (output ++ buf)
  else
    buf ← unwrap_encoded (encode_into (replicate encoded_length 0) data alphabet);
    Some (output ++ buf).

(** ** Decoding *)

Definition nibble_from_hex (c : Z) : Z :=
  let is_digit := u8 (Z.shiftr (Z.lor (c - 48) (57 - c)) 8) in
  let is_lower := u8 (Z.shiftr (Z.lor (c - 97) (102 - c)) 8) in
  let is_upper := u8 (Z.shiftr (Z.lor (c - 65) (70 - c)) 8) in
  let digit_val := u8 (c - 48) in
  let lower_val := u8 (u8 (c - 97) + 10) in
  let upper_val := u8 (u8 (c - 65) + 10) in
  let value := Z.lor (Z.lor (Z.land digit_val (notw 8 is_digit))
                            (Z.land lower_val (notw 8 is_lower)))
                     (Z.land upper_val (notw 8 is_upper)) in
  let invalid := Z.land (Z.land is_digit is_lower) is_upper in
  Z.lor value (Z.land invalid 240).

Definition check_decode_input_and_output_length (encoded_length output_length : nat)
  : result unit DecodeError :=
  if negb (encoded_length mod 2 =? 0)%nat then Err InvalidInputLength
  else if negb (output_length =? encoded_length / 2)%nat then Err DecodeOutputLength
  else Ok tt.

(** The step for the pair of characters at [i]. *)
Definition decode_pair (encoded_data : list Z) (i : nat) '((output, err) : list Z * Z)
  : option (list Z * Z) :=
  c0 ← encoded_data !! i;
  c1 ← encoded_data !! (i + 1)%nat;
  let h := nibble_from_hex c0 in
  let l := nibble_from_hex c1 in
  output ← upd output (i / 2) (Z.lor (u8 (Z.shiftl h 4)) l);
  Some (output, Z.lor err (Z.lor h l)).

Definition decode_into_constant_time (output encoded_data : list Z)
  : option (list Z * result unit DecodeError) :=
  match check_decode_input_and_output_length (length encoded_data) (length output) with
  | Err err => Some (output, Err err)
  | Ok _ =>
      let in_len := length encoded_data in
      '(s, i) ← while_loop (S in_len)
        (fun '(_, i) => (i + 32 <=? in_len)%nat)
        (fun '(s, i) =>
           s ← for_from 16 0 (fun j => decode_pair encoded_data (i + 2 * j)) s;
           Some (s, (i + 32)%nat)) ((output, 0), 0%nat);
      '(output, err, _) ← while_loop (S in_len)
        (fun '(_, i) => (i <? in_len)%nat)
        (fun '(s, i) =>
           s ← decode_pair encoded_data i s;
           Some (s, (i + 2)%nat)) (s, i);
      if negb (Z.land err 240 =? 0) then Some (output, Err InvalidInput)
      else Some (output, Ok tt)
  end.

Definition decode_into (output encoded_data : list Z)
  : option (list Z * result unit DecodeError) :=
  decode_into_constant_time output encoded_data.

Definition decode (data : list Z) : option (result (list Z) DecodeError) :=
  let output := replicate (length data / 2) 0 in
  '(output, r) ← decode_into output data;
  Some (match r with Ok _ => Ok output | Err e => Err e end).

Definition decode_array (OUT : nat) (encoded_data : list Z) : option (result (list Z) DecodeError) :=
  '(output, r) ← decode_into_constant_time (replicate OUT 0) encoded_data;
  Some (match r with Ok _ => Ok output | Err e => Err e end).

(** ** Reference definitions *)

(** The sixteen digits of an alphabet. *)
Definition digit_table (alphabet : Alphabet) : list Z :=
  [48; 49; 50; 51; 52; 53; 54; 55; 56; 57] ++
  match alphabet with
  | Lower => [97; 98; 99; 100; 101; 102]
  | Upper => [65; 66; 67; 68; 69; 70]
  end.

Definition hex_char (alphabet : Alphabet) (n : Z) : Z :=
  nth (Z.to_nat n) (digit_table alphabet) 0.

Definition hex_encoding (alphabet : Alphabet) (data : list Z) : list Z :=
  data ≫= fun b => [hex_char alphabet (b / 16); hex_char alphabet (b mod 16)].

(** The value of a hexadecimal digit of either case. *)
Definition hex_digit (c : Z) : option Z :=
  if (48 <=? c) && (c <=? 57) then Some (c - 48)
  else if (97 <=? c) && (c <=? 102) then Some (c - 87)
  else if (65 <=? c) && (c <=? 70) then Some (c - 55)
  else None.

Fixpoint hex_decoding (l : list Z) : option (list Z) :=
  match l with
  | [] => Some []
  | [_] => None
  | c0 :: c1 :: rest =>
      h ← hex_digit c0; l ← hex_digit c1; r ← hex_decoding rest;
      Some (16 * h + l :: r)
  end.

(** ** The byte tricks compute the tables *)

Lemma nibble_to_hex_high alphabet b : byte b ->
  nibble_to_hex (Z.shiftr b 4) alphabet = hex_char alphabet (b / 16).
Proof.
  apply (byte_ext (fun b => nibble_to_hex (Z.shiftr b 4) alphabet)
                  (fun b => hex_char alphabet (b / 16))).
  by destruct alphabet; vm_compute.
Qed.

Lemma nibble_to_hex_low alphabet b : byte b ->
  nibble_to_hex (Z.land b 15) alphabet = hex_char alphabet (b mod 16).
Proof.
  apply (byte_ext (fun b => nibble_to_hex (Z.land b 15) alphabet)
                  (fun b => hex_char alphabet (b mod 16))).
  by destruct alphabet; vm_compute.
Qed.

Lemma nibble_from_hex_spec c : byte c ->
  nibble_from_hex c = match hex_digit c with Some v => v | None => 240 end.
Proof.
  apply (byte_ext nibble_from_hex
    (fun c => match hex_digit c with Some v => v | None => 240 end)).
  by vm_compute.
Qed.

Lemma hex_digit_bound c v : hex_digit c = Some v -> 0 <= v < 16.
Proof. unfold hex_digit. repeat case_match; intros; simplify_eq; bool_hyps; lia. Qed.

(** ** Encoding *)

Lemma take_insert_2 {A} (l : list A) i x y : (i + 1 < length l)%nat ->
  take (i + 2) (<[(i + 1)%nat:=y]> (<[i:=x]> l)) = take i l ++ [x; y].
Proof.
  intros Hi. replace (i + 2)%nat with (S (i + 1)) by lia.
  rewrite take_insert_S by (rewrite length_insert; lia).
  replace (i + 1)%nat with (S i) at 1 by lia.
  rewrite take_insert_S by lia. by rewrite <- app_assoc.
Qed.

(** The first [i] bytes are encoded. *)
Definition encoded_to (alphabet : Alphabet) (data : list Z) (i : nat) (output : list Z) : Prop :=
  length output = (length data * 2)%nat /\
  take (i * 2) output = hex_encoding alphabet (take i data).

Lemma encode_byte_wp alphabet data i output : bytes data -> (i < length data)%nat ->
  encoded_to alphabet data i output ->
  wp (encode_byte alphabet data i output) (encoded_to alphabet data (S i)).
Proof.
  intros Hd Hi [Hl Ht]. unfold encode_byte. wp_steps; [rewrite length_insert; lia|].
  pose proof (bytes_lookup _ _ _ Hd Hget) as Hb.
  split; [by rewrite !length_insert|].
  replace (S i * 2)%nat with (i * 2 + 2)%nat by lia. rewrite take_insert_2, Ht by lia.
  rewrite (take_S_r _ _ _ Hget). unfold hex_encoding. rewrite bind_app. simpl.
  by rewrite nibble_to_hex_high, nibble_to_hex_low.
Qed.

Lemma encode_into_constant_time_wp output data alphabet : bytes data ->
  length output = (length data * 2)%nat ->
  encode_into_constant_time output data alphabet = Some (hex_encoding alphabet data, Ok tt).
Proof.
  intros Hd Hl.
  enough (wp (encode_into_constant_time output data alphabet)
             (fun r => r = (hex_encoding alphabet data, Ok tt))) as H.
  { by destruct (wp_elim _ _ H) as (? & -> & ->). }
  unfold encode_into_constant_time, check_encode_output_length.
  rewrite Hl, Nat.eqb_refl. cbn [negb]. wp_step.
  apply (wp_while (fun '(o, i) => (i <= length data)%nat /\ encoded_to alphabet data i o)
           (fun '(_, i) => length data - i)%nat); [|lia| |].
  - split; [lia|]. by split; [|rewrite take_0].
  - intros [o i] [Hi Ho] Hc. bool_hyps. wp_step.
    eapply wp_mono; [apply (wp_for_from (encoded_to alphabet data)); [|exact Ho]|].
    { intros j t Hj. apply encode_byte_wp; [done|lia]. }
    intros o' Ho'. wp_step. split; [split; [lia|done]|lia].
  - intros [o i] [Hi Ho] Hc. wp_step.
    apply (wp_while (fun '(o, i) => (i <= length data)%nat /\ encoded_to alphabet data i o)
             (fun '(_, i) => length data - i)%nat); [done|lia| |].
    + intros [o' i'] [Hi' Ho'] Hc'. bool_hyps. wp_step.
      eapply wp_mono; [by apply encode_byte_wp|]. intros o2 Ho2. wp_step.
      rewrite Nat.add_1_r. split; [split; [lia|done]|lia].
    + intros [o' i'] [Hi' [Hl' Ht']] Hc'. bool_hyps. wp_step.
      assert (i' = length data) as -> by lia.
      rewrite !take_ge in Ht' by lia. by rewrite Ht'.
Qed.

(** ** Decoding *)

(** Splitting a list in pairs from the left. *)
Lemma pairs_ind {A} (P : list A -> Prop) : P [] -> (forall x, P [x]) ->
  (forall x y l, P l -> P (x :: y :: l)) -> forall l, P l.
Proof.
  intros H0 H1 H2. enough (forall n l, (length l <= n)%nat -> P l) as H by (intros l; by apply (H (length l))).
  induction n as [|n IH]; intros [|x [|y l]] Hl; simpl in *; auto; try lia. apply H2, IH. lia.
Qed.

Lemma hex_decoding_snoc p c0 c1 : Nat.Even (length p) ->
  hex_decoding (p ++ [c0; c1])
  = r ← hex_decoding p; h ← hex_digit c0; l ← hex_digit c1; Some (r ++ [16 * h + l]).
Proof.
  induction p as [|x|x y p IH] using pairs_ind; intros He.
  - simpl. destruct (hex_digit c0), (hex_digit c1); done.
  - by destruct He as [k Hk]; simpl in Hk; lia.
  - simpl. destruct (hex_digit x), (hex_digit y); try done. simpl.
    rewrite IH by (destruct He as [k Hk]; exists (k - 1)%nat; simpl in *; lia).
    destruct (hex_decoding p), (hex_digit c0), (hex_digit c1); done.
Qed.

(** The pairs before [i] are decoded, or [err] remembers an invalid digit. *)
Definition decoded_to (data : list Z) (i : nat) '((output, err) : list Z * Z) : Prop :=
  length output = (length data / 2)%nat /\ Nat.Even i /\
  hex_decoding (take i data)
  = if Z.land err 240 =? 0 then Some (take (i / 2) output) else None.

Lemma nibble_err c : byte c -> (Z.land (nibble_from_hex c) 240 =? 0) = bool_decide (is_Some (hex_digit c)).
Proof.
  intros Hc. rewrite nibble_from_hex_spec by done. destruct (hex_digit c) as [v|] eqn:E.
  - apply hex_digit_bound in E. rewrite bool_decide_true by done. apply Z.eqb_eq.
    rewrite <- (Z.mod_small v (2 ^ 4)), <- Z.land_ones, <- Z.land_assoc by lia. apply Z.land_0_r.
  - by rewrite bool_decide_false by (by intros [? ?]).
Qed.

Lemma err_or e h l : (Z.land (Z.lor e (Z.lor h l)) 240 =? 0)
  = (Z.land e 240 =? 0) && (Z.land h 240 =? 0) && (Z.land l 240 =? 0).
Proof.
  rewrite !Z.land_lor_distr_l. apply eq_true_iff_eq.
  rewrite !andb_true_iff, !Z.eqb_eq, !Z.lor_eq_0_iff. tauto.
Qed.

Lemma decode_pair_wp data i s : bytes data -> (i + 2 <= length data)%nat ->
  Nat.Even (length data) -> decoded_to data i s ->
  wp (decode_pair data i s) (decoded_to data (i + 2)).
Proof.
  destruct s as [o e]. intros Hd Hi Hev (Hl & [k ->] & He). unfold decode_pair.
  assert (Hk : ((2 * k) / 2 = k)%nat) by (rewrite Nat.mul_comm; apply Nat.div_mul; lia).
  destruct Hev as [n Hn]. assert (Hn2 : (length data / 2 = n)%nat).
  { rewrite Hn, Nat.mul_comm. apply Nat.div_mul. lia. }
  wp_steps. rewrite Hk in *.
  assert (Hc0 : byte x) by eauto using bytes_lookup. assert (Hc1 : byte x0) by eauto using bytes_lookup.
  split; [by rewrite length_insert|]. split; [exists (k + 1)%nat; lia|].
  replace ((2 * k + 2) / 2)%nat with (S k) by (apply (Nat.div_unique _ _ _ 0); lia).
  rewrite take_insert_S by lia.
  replace (2 * k + 2)%nat with (S (S (2 * k))) by lia. rewrite Nat.add_1_r in Hget0.
  rewrite (take_S_r _ _ _ Hget0), (take_S_r _ _ _ Hget), <- app_assoc. cbn [app].
  rewrite hex_decoding_snoc by (rewrite length_take_le by lia; by exists k).
  rewrite He, err_or, !nibble_err, !nibble_from_hex_spec by done.
  destruct (Z.land e 240 =? 0), (hex_digit x) as [h|] eqn:E0, (hex_digit x0) as [l|] eqn:E1;
    cbn [mbind option_bind andb bool_decide decide]; try done.
  apply hex_digit_bound in E0, E1. simpl. do 2 f_equal. f_equal.
  rewrite shiftl_mul by lia. unfold u8. rewrite Z.mod_small by lia.
  rewrite (lor_add _ _ 4) by (done || lia || apply Z.mod_mul; lia). lia.
Qed.

(** What the decoder returns on a buffer of the right size. *)
Definition decode_post (data : list Z) '((output, r) : list Z * result unit DecodeError) : Prop :=
  length output = (length data / 2)%nat /\
  match hex_decoding data with
  | Some d => output = d /\ r = Ok tt
  | None => r = Err InvalidInput
  end.

Lemma decode_into_constant_time_wp output data : bytes data -> Nat.Even (length data) ->
  length output = (length data / 2)%nat ->
  wp (decode_into_constant_time output data) (decode_post data).
Proof.
  intros Hd Hev Hl. unfold decode_into_constant_time, check_decode_input_and_output_length.
  assert (Hm : (length data mod 2 = 0)%nat).
  { destruct Hev as [k ->]. rewrite Nat.mul_comm. apply Nat.Div0.mod_mul. }
  rewrite Hm, Hl, !Nat.eqb_refl. cbn [negb]. wp_step.
  apply (wp_while (fun '(s, i) => (i <= length data)%nat /\ decoded_to data i s)
           (fun '(_, i) => length data - i)%nat); [|lia| |].
  - split; [lia|]. split; [done|]. split; [by exists 0%nat|]. by rewrite take_0.
  - intros [s i] [Hi Hs] Hc. bool_hyps. wp_step.
    eapply wp_mono; [apply (wp_for_from (fun j => decoded_to data (i + 2 * j)));
      [|by rewrite Nat.add_0_r]|].
    { intros j t Hj Ht. replace (i + 2 * S j)%nat with (i + 2 * j + 2)%nat by lia.
      apply decode_pair_wp; [done|lia|done|done]. }
    intros s' Hs'. wp_step. split; [split; [lia|exact Hs']|lia].
  - intros [s i] [Hi Hs] Hc. wp_step.
    apply (wp_while (fun '(s, i) => (i <= length data)%nat /\ decoded_to data i s)
             (fun '(_, i) => length data - i)%nat); [done|lia| |].
    + intros [[o e] i'] [Hi' Hs'] Hc'. bool_hyps. pose proof Hs' as (_ & [k Hk] & _).
      destruct Hev as [n Hn]. wp_step.
      eapply wp_mono; [apply decode_pair_wp; [done|lia|by exists n|done]|].
      intros s2 Hs2. wp_step. split; [split; [lia|done]|lia].
    + intros [[o e] i'] [Hi' (Ho & _ & He)] Hc'. bool_hyps.
      assert (i' = length data) as -> by lia. rewrite !take_ge in He by lia.
      unfold decode_post. destruct (Z.land e 240 =? 0); cbn [negb]; wp_step; by rewrite He.
Qed.

(** ** The codec as a whole *)

Lemma length_hex_encoding alphabet data : length (hex_encoding alphabet data) = (length data * 2)%nat.
Proof.
  induction data as [|b data IH]; [done|].
  change (S (S (length (hex_encoding alphabet data))) = (length (b :: data) * 2)%nat).
  rewrite IH. simpl. lia.
Qed.

Lemma hex_char_digit alphabet n : 0 <= n < 16 -> hex_digit (hex_char alphabet n) = Some n.
Proof.
  intros Hn. enough (forallb (fun n => bool_decide (hex_digit (hex_char alphabet n) = Some n)) (seqZ 0 16) = true) as H.
  { rewrite forallb_forall in H. eapply bool_decide_eq_true_1, H, list_elem_of_In, elem_of_seqZ. lia. }
  by destruct alphabet; vm_compute.
Qed.

Lemma hex_decoding_encoding alphabet data : bytes data ->
  hex_decoding (hex_encoding alphabet data) = Some data.
Proof.
  induction 1 as [|b data Hb Hd IH]; [done|]. unfold byte in Hb.
  change (hex_encoding alphabet (b :: data))
    with (hex_char alphabet (b / 16) :: hex_char alphabet (b mod 16) :: hex_encoding alphabet data).
  pose proof (Z.mod_pos_bound b 16 ltac:(lia)).
  assert (0 <= b / 16 < 16) by (split; [apply Z.div_pos|apply Z.div_lt_upper_bound]; lia).
  cbn [hex_decoding]. rewrite !hex_char_digit by lia. cbn [mbind option_bind].
  rewrite IH. cbn [mbind option_bind]. f_equal. f_equal. rewrite <- Z.div_mod; lia.
Qed.

Lemma bytes_hex_encoding alphabet data : bytes data -> bytes (hex_encoding alphabet data).
Proof.
  induction 1 as [|b data Hb Hd IH]; [constructor|].
  assert (Hc : forall n, 0 <= n < 16 -> byte (hex_char alphabet n)).
  { intros n Hn. pose proof (hex_char_digit alphabet n Hn) as H. revert H.
    unfold hex_digit, byte. repeat case_match; intros; simplify_eq; bool_hyps; lia. }
  unfold byte in Hb. pose proof (Z.mod_pos_bound b 16 ltac:(lia)).
  constructor; [|constructor; [apply Hc; lia|exact IH]].
  apply Hc. split; [apply Z.div_pos|apply Z.div_lt_upper_bound]; lia.
Qed.

Lemma even_mod n : (n mod 2 = 0)%nat -> Nat.Even n.
Proof. intros. exists (n / 2)%nat. pose proof (Nat.div_mod_eq n 2). lia. Qed.

(** The hex encoder writes the two table digits of every byte, and nothing
    when the buffer has the wrong size; the allocating, the array and the
    appending forms agree with it. *)
Theorem hex_encode_correct output data alphabet prefix : bytes data ->
  encode_into_constant_time output data alphabet
  = Some (if (length data * 2 =? length output)%nat
          then (hex_encoding alphabet data, Ok tt)
          else (output, Err InvalidOutputLength)) /\
  encode_with_alphabet data alphabet = Some (hex_encoding alphabet data) /\
  encode_array (length data * 2) data alphabet = Some (hex_encoding alphabet data) /\
  encode_into_string prefix data alphabet = Some (prefix ++ hex_encoding alphabet data).
Proof.
  intros Hd. assert (Hok : forall o, length o = (length data * 2)%nat ->
    unwrap_encoded (encode_into_constant_time o data alphabet) = Some (hex_encoding alphabet data)).
  { intros o Ho. by rewrite encode_into_constant_time_wp. }
  split_and!.
  - destruct (Nat.eqb_spec (length data * 2) (length output)) as [E|E].
    + by rewrite encode_into_constant_time_wp by done.
    + unfold encode_into_constant_time, check_encode_output_length.
      by rewrite (proj2 (Nat.eqb_neq _ _) E).
  - apply Hok, length_replicate.
  - apply Hok, length_replicate.
  - unfold encode_into_string, encode_into. destruct (Nat.leb_spec (length data * 2) 256).
    + unfold slice. rewrite decide_True by (rewrite length_replicate; lia). cbn [mbind option_bind].
      rewrite Hok; [done|]. rewrite length_take, length_drop, length_replicate. lia.
    + by rewrite Hok by apply length_replicate.
Qed.

(** The hex decoder accepts exactly the even-length strings of hex digits
    of either case, returns their bytes, tells the three errors apart, and
    never panics. *)
Theorem hex_decode_correct output data : bytes data ->
  exists output' r, decode_into_constant_time output data = Some (output', r) /\
    decode data = Some (if negb (length data mod 2 =? 0)%nat then Err InvalidInputLength
      else match hex_decoding data with Some d => Ok d | None => Err InvalidInput end) /\
    if negb (length data mod 2 =? 0)%nat then output' = output /\ r = Err InvalidInputLength
    else if negb (length output =? length data / 2)%nat
    then output' = output /\ r = Err DecodeOutputLength
    else decode_post data (output', r).
Proof.
  intros Hd. unfold decode, decode_into.
  destruct (Nat.eqb_spec (length data mod 2) 0) as [E|E]; cbn [negb].
  - pose proof (decode_into_constant_time_wp (replicate (length data / 2) 0) data Hd (even_mod _ E)
      (length_replicate _ _)) as H. apply wp_elim in H as ([o r] & -> & Hp).
    cbn [mbind option_bind].
    destruct (Nat.eqb_spec (length output) (length data / 2)) as [E2|E2]; cbn [negb].
    + pose proof (decode_into_constant_time_wp output data Hd (even_mod _ E) E2) as H.
      apply wp_elim in H as ([o' r'] & -> & Hp'). exists o', r'. split_and!; [done| |done].
      destruct Hp as [_ Hp]. destruct (hex_decoding data); [by destruct Hp as [-> ->]|by rewrite Hp].
    + exists output, (Err DecodeOutputLength). split_and!; [| |done..].
      * unfold decode_into_constant_time, check_decode_input_and_output_length.
        by rewrite E, (proj2 (Nat.eqb_neq _ _) E2).
      * destruct Hp as [_ Hp]. destruct (hex_decoding data); [by destruct Hp as [-> ->]|by rewrite Hp].
  - exists output, (Err InvalidInputLength).
    unfold decode_into_constant_time, check_decode_input_and_output_length.
    by rewrite (proj2 (Nat.eqb_neq _ _) E).
Qed.

(** Decoding an encoding, in either alphabet, gives the data back. *)
Theorem hex_round_trip data alphabet : bytes data ->
  exists s, encode_with_alphabet data alphabet = Some s /\ decode s = Some (Ok data).
Proof.
  intros Hd. exists (hex_encoding alphabet data). split.
  - unfold encode_with_alphabet, encode_into.
    by rewrite encode_into_constant_time_wp by (done || apply length_replicate).
  - assert (Hev : Nat.Even (length (hex_encoding alphabet data))).
    { rewrite length_hex_encoding. exists (length data). lia. }
    pose proof (decode_into_constant_time_wp
      (replicate (length (hex_encoding alphabet data) / 2) 0) _
      (bytes_hex_encoding alphabet data Hd) Hev (length_replicate _ _)) as H.
    unfold decode, decode_into. apply wp_elim in H as ([o r] & -> & _ & Hp). cbn [mbind option_bind].
    rewrite hex_decoding_encoding in Hp by done. by destruct Hp as [-> ->].
Qed.

(** ** Concrete instances *)

Definition hello : list Z := [104; 101; 108; 108; 111].

Lemma hello_bytes : bytes hello.
Proof. repeat (constructor; [unfold byte; lia|]). constructor. Qed.

Lemma hex_encode_witness :
  encode_with_alphabet hello Upper = Some [54; 56; 54; 53; 54; 67; 54; 67; 54; 70].
Proof. apply (hex_encode_correct [] hello Upper []). apply hello_bytes. Defined.

Lemma hex_decode_witness :
  exists output' r, decode_into_constant_time [0] [54; 56] = Some (output', r) /\
    decode [54; 56] = Some (Ok [104]) /\ decode_post [54; 56] (output', r).
Proof.
  apply (hex_decode_correct [0] [54; 56]).
  repeat (constructor; [unfold byte; lia|]). constructor.
Defined.

Lemma hex_round_trip_witness :
  exists s, encode_with_alphabet hello Lower = Some s /\ decode s = Some (Ok hello).
Proof. apply hex_round_trip, hello_bytes. Defined.

End Hex.
