(* ===== verification/Base64.v ===== *)
(** * base64: encoding and decoding

    The portable paths of src/base64/base64.rs, with the branch-free character
    conversions as the code writes them.  [b64_encoding] and [b64_content] are
    the reference definitions of RFC 4648; lengths that the code computes with
    checked [usize] arithmetic are [Z]. *)
From Stdlib Require Import ZArith Lia.
From stdpp Require Import base list numbers option.
From S2P Require Import Prelude Words Limbs.

Module Base64.

Definition PAD : Z := 61.

Inductive Alphabet := Standard | StandardNoPadding | Url | UrlNoPadding.

Definition is_padded (self : Alphabet) : bool :=
  match self with Standard | Url => true | _ => false end.

Inductive EncodeError := InvalidOutputLength | OutputOverflow.

Inductive DecodeError :=
| InvalidInput | InvalidInputLength | InvalidPadding | DecodeOutputLength.

(** ** Checked lengths *)

Definition usize_max : Z := 2 ^ 64 - 1.

Definition checked (x : Z) : option Z := if x <=? usize_max then Some x else None.

Definition encoded_length (data_length : Z) (padding : bool) : option Z :=
  let complete_chunks := data_length / 3 in
  let remaining := data_length mod 3 in
  base ← checked (complete_chunks * 4);
  if remaining =? 0 then Some base
  else if padding then checked (base + 4)
  else if remaining =? 1 then Some (base + 2)
  else Some (base + 3).

Definition decoded_length (encoded_data_length : Z) : result Z DecodeError :=
  let full_blocks := encoded_data_length / 4 in
  let rem := encoded_data_length mod 4 in
  match checked (full_blocks * 3) with
  | None => Err InvalidInputLength
  | Some base =>
      if rem =? 0 then Ok base
      else if rem =? 2 then
        match checked (base + 1) with Some v => Ok v | None => Err InvalidInputLength end
      else if rem =? 3 then
        match checked (base + 2) with Some v => Ok v | None => Err InvalidInputLength end
      else Err InvalidInputLength
  end.

Definition check_encode_output_length (output_length data_length : Z) (alphabet : Alphabet)
  : result unit EncodeError :=
  match encoded_length data_length (is_padded alphabet) with
  | None => Err OutputOverflow
  | Some expected_output_length =>
      if negb (output_length =? expected_output_length) then Err InvalidOutputLength else Ok tt
  end.

(** ** Characters *)

(** All ones when [v] is outside [lo..=hi], zero inside. *)
Definition not_in_range (v lo hi : Z) : Z :=
  u8 (Z.shiftr (Z.lor (i8 (u8 (v - lo))) (i8 (u8 (hi - v)))) 7).

Definition ch_62_63 (alphabet : Alphabet) : Z * Z :=
  match alphabet with
  | Standard | StandardNoPadding => (43, 47)
  | Url | UrlNoPadding => (45, 95)
  end.

Definition sextet_to_base64_char (v : Z) (alphabet : Alphabet) : Z :=
  let v := Z.land v 63 in
  let not_upper := not_in_range v 0 25 in
  let not_lower := not_in_range v 26 51 in
  let not_digit := not_in_range v 52 61 in
  let not_62 := not_in_range v 62 62 in
  let not_63 := not_in_range v 63 63 in
  let upper_val := v + 65 in
  let lower_val := u8 (u8 (v - 26) + 97) in
  let digit_val := u8 (u8 (v - 52) + 48) in
  let '(ch_62, ch_63) := ch_62_63 alphabet in
  Z.lor (Z.lor (Z.lor (Z.lor
    (Z.land upper_val (notw 8 not_upper))
    (Z.land lower_val (notw 8 not_lower)))
    (Z.land digit_val (notw 8 not_digit)))
    (Z.land ch_62 (notw 8 not_62)))
    (Z.land ch_63 (notw 8 not_63)).

Definition base64_char_to_sextet (c : Z) (alphabet : Alphabet) : Z :=
  let not_upper := not_in_range c 65 90 in
  let not_lower := not_in_range c 97 122 in
  let not_digit := not_in_range c 48 57 in
  let upper_val := u8 (c - 65) in
  let lower_val := u8 (u8 (c - 97) + 26) in
  let digit_val := u8 (u8 (c - 48) + 52) in
  let '(ch_62, ch_63) := ch_62_63 alphabet in
  let not_62 := not_in_range c ch_62 ch_62 in
  let not_63 := not_in_range c ch_63 ch_63 in
  let value := Z.lor (Z.lor (Z.lor (Z.lor
    (Z.land upper_val (notw 8 not_upper))
    (Z.land lower_val (notw 8 not_lower)))
    (Z.land digit_val (notw 8 not_digit)))
    (Z.land 62 (notw 8 not_62)))
    (Z.land 63 (notw 8 not_63)) in
  let invalid := Z.land (Z.land (Z.land (Z.land not_upper not_lower) not_digit) not_62) not_63 in
  Z.lor value (Z.land invalid 64).

(** ** Encoding *)

(** The four characters of the three bytes at [i]. *)
Definition encode_triple (alphabet : Alphabet) (data : list Z) (i : nat) (output : list Z)
  : option (list Z) :=
  b0 ← data !! i;
  b1 ← data !! (i + 1)%nat;
  b2 ← data !! (i + 2)%nat;
  let o := (i / 3 * 4)%nat in
  output ← upd output o (sextet_to_base64_char (Z.shiftr b0 2) alphabet);
  output ← upd output (o + 1)
    (sextet_to_base64_char (Z.lor (u8 (Z.shiftl (Z.land b0 3) 4)) (Z.shiftr b1 4)) alphabet);
  output ← upd output (o + 2)
    (sextet_to_base64_char (Z.lor (u8 (Z.shiftl (Z.land b1 15) 2)) (Z.shiftr b2 6)) alphabet);
  upd output (o + 3) (sextet_to_base64_char (Z.land b2 63) alphabet).

(** The final one or two bytes, at [i]. *)
Definition encode_tail (alphabet : Alphabet) (data : list Z) (i : nat) (output : list Z)
  : option (list Z) :=
  let padding := is_padded alphabet in
  let len := length data in
  let remaining := (len - i)%nat in
  let o := (i / 3 * 4)%nat in
  b0 ← data !! i;
  b1 ← (if (i + 1 <? len)%nat then data !! (i + 1)%nat else Some 0);
  let m1 := u8 (0 - b2z (remaining =? 1)%nat) in
  let m2 := u8 (0 - b2z (remaining =? 2)%nat) in
  output ← upd output o (sextet_to_base64_char (Z.shiftr b0 2) alphabet);
  let o1_rem1 := sextet_to_base64_char (u8 (Z.shiftl (Z.land b0 3) 4)) alphabet in
  let o1_rem2 := sextet_to_base64_char
    (Z.lor (u8 (Z.shiftl (Z.land b0 3) 4)) (Z.shiftr b1 4)) alphabet in
  output ← upd output (o + 1) (Z.lor (Z.land o1_rem1 m1) (Z.land o1_rem2 m2));
  if padding then
    let o2_rem1 := PAD in
    let o2_rem2 := sextet_to_base64_char (u8 (Z.shiftl (Z.land b1 15) 2)) alphabet in
    output ← upd output (o + 2) (Z.lor (Z.land o2_rem1 m1) (Z.land o2_rem2 m2));
    upd output (o + 3) PAD
  else if (remaining =? 2)%nat then
    upd output (o + 2) (sextet_to_base64_char (u8 (Z.shiftl (Z.land b1 15) 2)) alphabet)
  else Some output.

Definition encode_into_constant_time (output data : list Z) (alphabet : Alphabet)
  : option (list Z * result unit EncodeError) :=
  match check_encode_output_length (Z.of_nat (length output)) (Z.of_nat (length data)) alphabet with
  | Err err => Some (output, Err err)
  | Ok _ =>
      let len := length data in
      '(output, i) ← while_loop (S len)
        (fun '(_, i) => (i + 24 <=? len)%nat)
        (fun '(output, i) =>
           output ← for_from 8 0 (fun j => encode_triple alphabet data (i + 3 * j)) output;
           Some (output, (i + 24)%nat)) (output, 0%nat);
      '(output, i) ← while_loop (S len)
        (fun '(_, i) => (i + 3 <=? len)%nat)
        (fun '(output, i) =>
           output ← encode_triple alphabet data i output;
           Some (output, (i + 3)%nat)) (output, i);
      output ← (if (0 <? len - i)%nat then encode_tail alphabet data i output else Some output);
      Some (output, Ok tt)
  end.

Definition encode_into (output data : list Z) (alphabet : Alphabet)
  : option (list Z * result unit EncodeError) :=
  encode_into_constant_time output data alphabet.

Definition unwrap_encoded (r : option (list Z * result unit EncodeError)) : option (list Z) :=
  '(output, res) ← r;
  match res with Ok _ => Some output | Err _ => None end.

Definition encode (data : list Z) (alphabet : Alphabet) : option (list Z) :=
  len ← encoded_length (Z.of_nat (length data)) (is_padded alphabet);
  unwrap_encoded (encode_into (replicate (Z.to_nat len) 0) data alphabet).

Definition encode_array (OUT : nat) (data : list Z) (alphabet : Alphabet) : option (list Z) :=
  unwrap_encoded (encode_into_constant_time (replicate OUT 0) data alphabet).

Definition encode_into_string (output data : list Z) (alphabet : Alphabet) : option (list Z) :=
  len ← encoded_length (Z.of_nat (length data)) (is_padded alphabet);
  if len <=? 256 then
    buf ← slice (replicate 256 0) 0 (Z.to_nat len);
    buf ← unwrap_encoded (encode_into buf data alphabet);
    Some (output ++ buf)
  else
    buf ← unwrap_encoded (encode_into (replicate (Z.to_nat len) 0) data alphabet);
    Some (output ++ buf).

(** ** Decoding *)

(** The byte [k] from the end, zero when there is none. *)
Definition from_end (data : list Z) (k : nat) : option Z :=
  if (k <=? length data)%nat then data !! (length data - k)%nat else Some 0.

(** The checks of [strip_padding_info] once the trailing pads are counted. *)
Definition check_padding (in_len pad_count : nat) : result (nat * nat) DecodeError :=
  let content_len := (in_len - pad_count)%nat in
  let has_pads := b2z (negb (pad_count =? 0)%nat) in
  let len_mod4_ok := b2z (in_len mod 4 =? 0)%nat in
  let err_len := Z.land has_pads (1 - len_mod4_ok) in
  let err_pad := b2z (2 <? pad_count)%nat in
  if negb (err_len =? 0) then Err InvalidInputLength else
  let content_mod4 := (content_len mod 4)%nat in
  let expected_mod4 := (4 - pad_count)%nat in
  let mod4_ok := b2z (content_mod4 =? expected_mod4)%nat in
  let err_pad := Z.lor err_pad (Z.land has_pads (1 - mod4_ok)) in
  if negb (err_pad =? 0) then Err InvalidPadding
  else Ok (content_len, pad_count).

(** The number of trailing pads, from the tests of the last three bytes. *)
Definition count_pads (b0 b1 b2 : Z) : nat :=
  let p0 := Nat.b2n (b0 =? PAD) in
  let p1 := Nat.b2n (b1 =? PAD) in
  let p2 := Nat.b2n (b2 =? PAD) in
  (p0 + Nat.land p0 p1 + Nat.land (Nat.land p0 p1) p2)%nat.

Definition strip_padding_info (data : list Z) (expect_padding : bool)
  : option (result (nat * nat) DecodeError) :=
  let in_len := length data in
  if negb expect_padding then
    last_is_pad ← (if (0 <? in_len)%nat
                   then c ← data !! (in_len - 1)%nat; Some (b2z (c =? PAD)) else Some 0);
    if negb (last_is_pad =? 0) then Some (Err InvalidPadding) else Some (Ok (in_len, 0%nat))
  else
    b0 ← from_end data 1;
    b1 ← from_end data 2;
    b2 ← from_end data 3;
    Some (check_padding in_len (count_pads b0 b1 b2)).

(** The three bytes of the four characters at [i], written at [o]. *)
Definition decode_quad (alphabet : Alphabet) (encoded_data : list Z) (i o : nat)
    '((output, err) : list Z * Z) : option (list Z * Z) :=
  c0 ← encoded_data !! i;
  c1 ← encoded_data !! (i + 1)%nat;
  c2 ← encoded_data !! (i + 2)%nat;
  c3 ← encoded_data !! (i + 3)%nat;
  let v0 := base64_char_to_sextet c0 alphabet in
  let v1 := base64_char_to_sextet c1 alphabet in
  let v2 := base64_char_to_sextet c2 alphabet in
  let v3 := base64_char_to_sextet c3 alphabet in
  output ← upd output o (Z.lor (u8 (Z.shiftl v0 2)) (Z.shiftr v1 4));
  output ← upd output (o + 1) (Z.lor (u8 (Z.shiftl v1 4)) (Z.shiftr v2 2));
  output ← upd output (o + 2) (Z.lor (u8 (Z.shiftl v2 6)) v3);
  Some (output, Z.lor err (Z.lor (Z.lor (Z.lor v0 v1) v2) v3)).

(** The final characters, at [i]; [err] already has the length flag. *)
Definition decode_tail (alphabet : Alphabet) (encoded_data : list Z) (content_len i o : nat)
    '((output, err) : list Z * Z) : option (list Z * Z) :=
  let remaining := (content_len - i)%nat in
  let rem2_mask := u8 (0 - b2z (remaining =? 2)%nat) in
  let rem3_mask := u8 (0 - b2z (remaining =? 3)%nat) in
  c0 ← encoded_data !! i;
  c1 ← (if (i + 1 <? content_len)%nat then encoded_data !! (i + 1)%nat else Some 65);
  c2 ← (if (i + 2 <? content_len)%nat then encoded_data !! (i + 2)%nat else Some 65);
  let v0 := base64_char_to_sextet c0 alphabet in
  let v1 := base64_char_to_sextet c1 alphabet in
  let v2 := base64_char_to_sextet c2 alphabet in
  let m0 := u8 (0 - b2z (i <? content_len)%nat) in
  let m1 := u8 (0 - b2z (i + 1 <? content_len)%nat) in
  let m2 := u8 (0 - b2z (i + 2 <? content_len)%nat) in
  let err := Z.lor err (Z.lor (Z.lor (Z.land v0 m0) (Z.land v1 m1)) (Z.land v2 m2)) in
  let v1_trailing := Z.land v1 15 in
  let v2_trailing := Z.land v2 3 in
  let trailing := Z.lor (Z.land v1_trailing rem2_mask) (Z.land v2_trailing rem3_mask) in
  let err := Z.lor err (u8 (Z.shiftl (b2z (negb (trailing =? 0))) 6)) in
  let out0 := Z.lor (u8 (Z.shiftl v0 2)) (Z.shiftr v1 4) in
  let out1 := Z.lor (u8 (Z.shiftl v1 4)) (Z.shiftr v2 2) in
  output ← upd output o out0;
  output ← (if (remaining =? 3)%nat then upd output (o + 1) out1 else Some output);
  Some (output, err).

Definition decode_into_constant_time (output encoded_data : list Z) (alphabet : Alphabet)
  : option (list Z * result Z DecodeError) :=
  if (length encoded_data =? 0)%nat then Some (output, Ok 0) else
  info ← strip_padding_info encoded_data (is_padded alphabet);
  match info with
  | Err e => Some (output, Err e)
  | Ok (content_len, _) =>
      if (content_len =? 0)%nat then Some (output, Ok 0) else
      match decoded_length (Z.of_nat content_len) with
      | Err e => Some (output, Err e)
      | Ok computed_output =>
          if Z.of_nat (length output) <? computed_output
          then Some (output, Err DecodeOutputLength) else
          '(s, i, o) ← while_loop (S content_len)
            (fun '(_, i, _) => (i + 32 <=? content_len)%nat)
            (fun '(s, i, o) =>
               s ← for_from 8 0 (fun j => decode_quad alphabet encoded_data (i + 4 * j) (o + 3 * j)) s;
               Some (s, (i + 32)%nat, (o + 24)%nat)) ((output, 0), 0%nat, 0%nat);
          '(s, i, o) ← while_loop (S content_len)
            (fun '(_, i, _) => (i + 4 <=? content_len)%nat)
            (fun '(s, i, o) =>
               s ← decode_quad alphabet encoded_data i o s;
               Some (s, (i + 4)%nat, (o + 3)%nat)) (s, i, o);
          let '(output, err) := s in
          let remaining := (content_len - i)%nat in
          let rem2 := b2z (remaining =? 2)%nat in
          let rem3 := b2z (remaining =? 3)%nat in
          let rem0 := b2z (remaining =? 0)%nat in
          let valid_rem := Z.lor (Z.lor rem0 rem2) rem3 in
          let err := Z.lor err (u8 (Z.shiftl (1 - valid_rem) 6)) in
          '(output, err) ← (if (0 <? remaining)%nat
                            then decode_tail alphabet encoded_data content_len i o (output, err)
                            else Some (output, err));
          if 64 <=? err then Some (output, Err InvalidInput)
          else Some (output, Ok computed_output)
      end
  end.

Definition decode_into (output encoded_data : list Z) (alphabet : Alphabet)
  : option (list Z * result Z DecodeError) :=
  info ← strip_padding_info encoded_data (is_padded alphabet);
  match info with
  | Err e => Some (output, Err e)
  | Ok (content_len, _) =>
      match decoded_length (Z.of_nat content_len) with
      | Err e => Some (output, Err e)
      | Ok computed_output =>
          if Z.of_nat (length output) <? computed_output
          then Some (output, Err DecodeOutputLength)
          else decode_into_constant_time output encoded_data alphabet
      end
  end.

Definition decode (data : list Z) (alphabet : Alphabet) : option (result (list Z) DecodeError) :=
  info ← strip_padding_info data (is_padded alphabet);
  match info with
  | Err e => Some (Err e)
  | Ok (content_len, _) =>
      match decoded_length (Z.of_nat content_len) with
      | Err e => Some (Err e)
      | Ok output_len =>
          '(output, r) ← decode_into (replicate (Z.to_nat output_len) 0) data alphabet;
          Some (match r with Ok _ => Ok output | Err e => Err e end)
      end
  end.

Definition decode_array (OUT : nat) (encoded_data : list Z) (alphabet : Alphabet)
  : option (result (list Z) DecodeError) :=
  '(output, r) ← decode_into_constant_time (replicate OUT 0) encoded_data alphabet;
  Some (match r with Ok _ => Ok output | Err e => Err e end).

(** ** Reference definitions *)

(** The character of a sextet, and the sextet of a character. *)
Definition b64_char (alphabet : Alphabet) (v : Z) : Z :=
  if v <? 26 then 65 + v
  else if v <? 52 then 97 + (v - 26)
  else if v <? 62 then 48 + (v - 52)
  else if v =? 62 then fst (ch_62_63 alphabet)
  else snd (ch_62_63 alphabet).

Definition b64_value (alphabet : Alphabet) (c : Z) : option Z :=
  if (65 <=? c) && (c <=? 90) then Some (c - 65)
  else if (97 <=? c) && (c <=? 122) then Some (c - 97 + 26)
  else if (48 <=? c) && (c <=? 57) then Some (c - 48 + 52)
  else if c =? fst (ch_62_63 alphabet) then Some 62
  else if c =? snd (ch_62_63 alphabet) then Some 63
  else None.

Definition pad_if (alphabet : Alphabet) (n : nat) : list Z :=
  if is_padded alphabet then replicate n PAD else [].

Fixpoint b64_encoding (alphabet : Alphabet) (data : list Z) : list Z :=
  let c := b64_char alphabet in
  match data with
  | [] => []
  | [b0] => [c (b0 / 4); c (b0 mod 4 * 16)] ++ pad_if alphabet 2
  | [b0; b1] => [c (b0 / 4); c (b0 mod 4 * 16 + b1 / 16); c (b1 mod 16 * 4)] ++ pad_if alphabet 1
  | b0 :: b1 :: b2 :: rest =>
      [c (b0 / 4); c (b0 mod 4 * 16 + b1 / 16); c (b1 mod 16 * 4 + b2 / 64); c (b2 mod 64)]
      ++ b64_encoding alphabet rest
  end.

(** Decoding of unpadded content; unused trailing bits must be zero. *)
Fixpoint b64_content (alphabet : Alphabet) (s : list Z) : option (list Z) :=
  let v := b64_value alphabet in
  match s with
  | [] => Some []
  | [_] => None
  | [c0; c1] =>
      v0 ← v c0; v1 ← v c1;
      if v1 mod 16 =? 0 then Some [v0 * 4 + v1 / 16] else None
  | [c0; c1; c2] =>
      v0 ← v c0; v1 ← v c1; v2 ← v c2;
      if v2 mod 4 =? 0 then Some [v0 * 4 + v1 / 16; v1 mod 16 * 16 + v2 / 4] else None
  | c0 :: c1 :: c2 :: c3 :: rest =>
      v0 ← v c0; v1 ← v c1; v2 ← v c2; v3 ← v c3; r ← b64_content alphabet rest;
      Some ([v0 * 4 + v1 / 16; v1 mod 16 * 16 + v2 / 4; v2 mod 4 * 64 + v3] ++ r)
  end.

(** ** The character conversions compute the tables *)

Lemma sextet_char_spec alphabet v : byte v ->
  sextet_to_base64_char v alphabet = b64_char alphabet (v mod 64).
Proof.
  apply (byte_ext (fun v => sextet_to_base64_char v alphabet) (fun v => b64_char alphabet (v mod 64))).
  by destruct alphabet; vm_compute.
Qed.

Lemma sextet_char_small alphabet v : 0 <= v < 64 ->
  sextet_to_base64_char v alphabet = b64_char alphabet v.
Proof. intros Hv. by rewrite sextet_char_spec, Z.mod_small by (unfold byte; lia). Qed.

Lemma char_sextet_spec alphabet c : byte c ->
  base64_char_to_sextet c alphabet = default 64 (b64_value alphabet c).
Proof.
  apply (byte_ext (fun c => base64_char_to_sextet c alphabet) (fun c => default 64 (b64_value alphabet c))).
  by destruct alphabet; vm_compute.
Qed.

Lemma b64_value_bound alphabet c v : b64_value alphabet c = Some v -> 0 <= v < 64.
Proof. unfold b64_value. repeat case_match; intros; simplify_eq; bool_hyps; lia. Qed.

(** Finite checks over the sextets. *)
Lemma sextet_forall (f : Z -> bool) v : forallb f (seqZ 0 64) = true -> 0 <= v < 64 -> f v = true.
Proof.
  intros H Hv. rewrite forallb_forall in H. apply H, list_elem_of_In, elem_of_seqZ. lia.
Qed.

Lemma b64_value_char alphabet v : 0 <= v < 64 -> b64_value alphabet (b64_char alphabet v) = Some v.
Proof.
  intros Hv. pose proof (sextet_forall
    (fun v => bool_decide (b64_value alphabet (b64_char alphabet v) = Some v)) v) as H.
  eapply bool_decide_eq_true_1, H; [|done]. by destruct alphabet; vm_compute.
Qed.

Lemma b64_char_byte alphabet v : 0 <= v < 64 -> byte (b64_char alphabet v) /\ b64_char alphabet v <> PAD.
Proof.
  intros Hv. unfold PAD.
  assert (H : ((0 <=? b64_char alphabet v) && (b64_char alphabet v <? 256) && negb (b64_char alphabet v =? 61)) = true).
  { apply (sextet_forall (fun v => (0 <=? b64_char alphabet v) && (b64_char alphabet v <? 256)
      && negb (b64_char alphabet v =? 61))); [|done]. by destruct alphabet; vm_compute. }
  bool_hyps. unfold byte. lia.
Qed.

Lemma b64_char_value alphabet c v : b64_value alphabet c = Some v -> b64_char alphabet v = c.
Proof.
  unfold b64_value. destruct alphabet; simpl; repeat case_match; intros; simplify_eq; bool_hyps;
    unfold b64_char; simpl; repeat case_match; bool_hyps; lia.
Qed.

(** ** Bit fields *)

Lemma shl_field v k : 0 <= k <= 8 -> u8 (Z.shiftl v k) = v mod 2 ^ (8 - k) * 2 ^ k.
Proof.
  intros Hk. unfold u8. rewrite shiftl_mul by lia.
  replace (2 ^ 8) with (2 ^ (8 - k) * 2 ^ k) by (rewrite <- Z.pow_add_r by lia; f_equal; lia).
  apply Z.mul_mod_distr_r; lia.
Qed.

Lemma field_or v k y : 0 <= k <= 8 -> 0 <= y < 2 ^ k ->
  Z.lor (u8 (Z.shiftl v k)) y = v mod 2 ^ (8 - k) * 2 ^ k + y.
Proof.
  intros Hk Hy. rewrite shl_field by done.
  apply (lor_add _ _ k); [lia|apply Z.mod_mul; lia|done].
Qed.

Lemma byte_shr b k : 0 <= k <= 8 -> byte b -> Z.shiftr b k = b / 2 ^ k /\ 0 <= b / 2 ^ k < 2 ^ (8 - k).
Proof.
  unfold byte. intros Hk Hb. rewrite shiftr_div by lia. split; [done|].
  split; [apply Z.div_pos; lia|]. apply Z.div_lt_upper_bound; [lia|].
  rewrite <- Z.pow_add_r by lia. replace (k + (8 - k)) with 8 by lia. lia.
Qed.

(** The four sextets of three bytes. *)
Lemma triple_sextets b0 b1 b2 : byte b0 -> byte b1 -> byte b2 ->
  Z.shiftr b0 2 = b0 / 4 /\
  Z.lor (u8 (Z.shiftl (Z.land b0 3) 4)) (Z.shiftr b1 4) = b0 mod 4 * 16 + b1 / 16 /\
  Z.lor (u8 (Z.shiftl (Z.land b1 15) 2)) (Z.shiftr b2 6) = b1 mod 16 * 4 + b2 / 64 /\
  Z.land b2 63 = b2 mod 64 /\
  u8 (Z.shiftl (Z.land b0 3) 4) = b0 mod 4 * 16 /\ u8 (Z.shiftl (Z.land b1 15) 2) = b1 mod 16 * 4.
Proof.
  intros H0 H1 H2. destruct (byte_shr b0 2 ltac:(lia) H0) as [E0 _].
  destruct (byte_shr b1 4 ltac:(lia) H1) as [E1 B1]. destruct (byte_shr b2 6 ltac:(lia) H2) as [E2 B2].
  change 3 with (2 ^ 2 - 1). change 15 with (2 ^ 4 - 1). change 63 with (2 ^ 6 - 1).
  rewrite !land_ones by lia. rewrite E0, E1, E2. change (8 - 4) with 4 in *. change (8 - 6) with 2 in *.
  change (2 ^ 2) with 4 in *. change (2 ^ 4) with 16 in *. change (2 ^ 6) with 64 in *.
  pose proof (Z.mod_pos_bound b0 4 ltac:(lia)). pose proof (Z.mod_pos_bound b1 16 ltac:(lia)).
  rewrite !field_or, !shl_field by lia. change (8 - 4) with 4. change (8 - 2) with 6.
  change (2 ^ 4) with 16. change (2 ^ 6) with 64. change (2 ^ 2) with 4.
  rewrite !(Z.mod_small (b0 mod 4)), !(Z.mod_small (b1 mod 16)) by lia. done.
Qed.

(** Their bounds. *)
Lemma triple_bounds b0 b1 b2 : byte b0 -> byte b1 -> byte b2 ->
  0 <= b0 / 4 < 64 /\ 0 <= b0 mod 4 * 16 + b1 / 16 < 64 /\ 0 <= b1 mod 16 * 4 + b2 / 64 < 64 /\
  0 <= b2 mod 64 < 64 /\ 0 <= b0 mod 4 * 16 < 64 /\ 0 <= b1 mod 16 * 4 < 64.
Proof.
  intros H0 H1 H2. destruct (byte_shr b0 2 ltac:(lia) H0) as [_ B0].
  destruct (byte_shr b1 4 ltac:(lia) H1) as [_ B1]. destruct (byte_shr b2 6 ltac:(lia) H2) as [_ B2].
  pose proof (Z.mod_pos_bound b0 4 ltac:(lia)). pose proof (Z.mod_pos_bound b1 16 ltac:(lia)).
  pose proof (Z.mod_pos_bound b2 64 ltac:(lia)).
  change (2 ^ 2) with 4 in *. change (2 ^ 4) with 16 in *. change (2 ^ 6) with 64 in *.
  change (2 ^ (8 - 2)) with 64 in *. change (2 ^ (8 - 4)) with 16 in *. change (2 ^ (8 - 6)) with 4 in *. lia.
Qed.

(** ** Encoding *)

Lemma take_insert_app {A} (l p : list A) o o' x : (o < length l)%nat -> take o l = p -> o' = S o ->
  take o' (<[o:=x]> l) = p ++ [x].
Proof. intros Ho <- ->. by apply take_insert_S. Qed.

(** The bytes before [i] are encoded; the rest of the encoding is still to come. *)
Definition encoded_to (alphabet : Alphabet) (data : list Z) (i : nat) (output : list Z) : Prop :=
  (i mod 3 = 0)%nat /\
  length output = (i / 3 * 4 + length (b64_encoding alphabet (drop i data)))%nat /\
  take (i / 3 * 4) output ++ b64_encoding alphabet (drop i data) = b64_encoding alphabet data.

Lemma div3_S i : (i mod 3 = 0)%nat ->
  ((i + 3) / 3 * 4 = i / 3 * 4 + 4)%nat /\ ((i + 3) mod 3 = 0)%nat.
Proof.
  intros Hi. replace (i + 3)%nat with (i + 1 * 3)%nat by lia.
  rewrite Nat.div_add, Nat.Div0.mod_add by lia. lia.
Qed.

Lemma drop_three {A} (l : list A) i x y z :
  l !! i = Some x -> l !! (i + 1)%nat = Some y -> l !! (i + 2)%nat = Some z ->
  drop i l = x :: y :: z :: drop (i + 3) l.
Proof.
  intros Hx Hy Hz. rewrite (drop_S _ _ _ Hx). replace (i + 1)%nat with (S i) in Hy by lia.
  rewrite (drop_S _ _ _ Hy). replace (i + 2)%nat with (S (S i)) in Hz by lia.
  rewrite (drop_S _ _ _ Hz). by replace (i + 3)%nat with (S (S (S i))) by lia.
Qed.

Lemma encode_triple_wp alphabet data i output : bytes data -> (i + 3 <= length data)%nat ->
  encoded_to alphabet data i output ->
  wp (encode_triple alphabet data i output) (encoded_to alphabet data (i + 3)).
Proof.
  intros Hd Hi (Hm & Hl & He). unfold encode_triple. do 6 wp_step. cbv zeta.
  rewrite (drop_three _ _ _ _ _ Hget Hget0 Hget1) in Hl, He. cbn [b64_encoding app length] in Hl.
  set (o := (i / 3 * 4)%nat) in *.
  assert (H0 : byte x) by eauto using bytes_lookup. assert (H1 : byte x0) by eauto using bytes_lookup.
  assert (H2 : byte x1) by eauto using bytes_lookup.
  pose proof (triple_sextets _ _ _ H0 H1 H2) as (-> & -> & -> & -> & _).
  pose proof (triple_bounds _ _ _ H0 H1 H2) as (B0 & B1 & B2 & B3 & _).
  rewrite !sextet_char_small by done.
  wp_steps; rewrite ?length_insert; try lia.
  unfold encoded_to. destruct (div3_S i Hm) as [-> ->]. fold o. split; [done|].
  rewrite !length_insert. split; [lia|].
  rewrite <- He. erewrite take_insert_app; [|rewrite !length_insert; lia| |lia].
  2:{ eapply (take_insert_app _ _ (o + 2)); [rewrite !length_insert; lia| |lia].
      eapply (take_insert_app _ _ (o + 1)); [rewrite !length_insert; lia| |lia].
      eapply (take_insert_app _ _ o); [lia|reflexivity|lia]. }
  cbn [b64_encoding app]. by rewrite <- !app_assoc.
Qed.

Lemma mask_fst x y : byte x -> Z.lor (Z.land x 255) (Z.land y 0) = x.
Proof.
  intros Hx. rewrite Z.land_0_r, Z.lor_0_r. change 255 with (2 ^ 8 - 1).
  rewrite land_ones by lia. by apply Z.mod_small.
Qed.

Lemma mask_snd x y : byte y -> Z.lor (Z.land x 0) (Z.land y 255) = y.
Proof. intros Hy. rewrite Z.lor_comm. by apply mask_fst. Qed.

(** Write a run of characters at the end of the buffer. *)
Lemma insert_end_1 {A} (l p : list A) o x : length l = (o + 1)%nat -> take o l = p ->
  <[o:=x]> l = p ++ [x].
Proof.
  intros Hl Hp. rewrite <- (take_ge (<[o:=x]> l) (o + 1)) by (rewrite length_insert; lia).
  apply take_insert_app; [lia|done|lia].
Qed.

Lemma encode_tail_1 alphabet data i output b0 : drop i data = [b0] -> byte b0 ->
  encoded_to alphabet data i output ->
  encode_tail alphabet data i output = Some (b64_encoding alphabet data).
Proof.
  intros Hd Hb (Hm & Hl & He). rewrite Hd in *. unfold encode_tail.
  assert (Hget : data !! i = Some b0) by (rewrite <- (Nat.add_0_r i), <- lookup_drop, Hd; done).
  assert (Hlen : (length data - i = 1)%nat) by (rewrite <- length_drop, Hd; done).
  pose proof (lookup_lt_Some _ _ _ Hget). rewrite Hlen, Hget. cbv zeta. set (o := (i / 3 * 4)%nat) in *.
  rewrite (proj2 (Nat.ltb_ge (i + 1) (length data))) by lia. cbn [mbind option_bind].
  change (u8 (0 - b2z (1 =? 1)%nat)) with 255. change (u8 (0 - b2z (1 =? 2)%nat)) with 0.
  assert (H0 : byte 0) by (unfold byte; lia).
  pose proof (triple_sextets b0 0 0 Hb H0 H0) as (-> & _ & _ & _ & -> & _).
  pose proof (triple_bounds b0 0 0 Hb H0 H0) as (B0 & _ & _ & _ & B1 & _).
  rewrite (sextet_char_small _ (b0 / 4)), (sextet_char_small _ (b0 mod 4 * 16)) by done.
  rewrite !mask_fst by first [apply b64_char_byte; lia | unfold byte, PAD; lia].
  rewrite <- He. cbn [b64_encoding] in Hl |- *. unfold pad_if in *. destruct (is_padded alphabet); simpl in Hl |- *;
    unfold upd; rewrite !decide_True by (rewrite ?length_insert; lia); cbn [mbind option_bind];
    repeat (rewrite decide_True by (rewrite ?length_insert; lia); cbn [mbind option_bind]); f_equal.
  - erewrite insert_end_1; [|rewrite !length_insert; lia|
      eapply (take_insert_app _ _ (o + 2)); [rewrite !length_insert; lia|
      eapply (take_insert_app _ _ (o + 1)); [rewrite !length_insert; lia|
      eapply (take_insert_app _ _ o); [lia|reflexivity|lia]|lia]|lia]].
    by rewrite <- !app_assoc.
  - erewrite insert_end_1; [|rewrite !length_insert; lia|
      eapply (take_insert_app _ _ o); [lia|reflexivity|lia]].
    by rewrite <- !app_assoc.
Qed.

Lemma encode_tail_2 alphabet data i output b0 b1 : drop i data = [b0; b1] -> byte b0 -> byte b1 ->
  encoded_to alphabet data i output ->
  encode_tail alphabet data i output = Some (b64_encoding alphabet data).
Proof.
  intros Hd Hb Hb1 (Hm & Hl & He). rewrite Hd in *. unfold encode_tail.
  assert (Hget : data !! i = Some b0) by (rewrite <- (Nat.add_0_r i), <- lookup_drop, Hd; done).
  assert (Hget1 : data !! (i + 1)%nat = Some b1) by (rewrite <- lookup_drop, Hd; done).
  assert (Hlen : (length data - i = 2)%nat) by (rewrite <- length_drop, Hd; done).
  pose proof (lookup_lt_Some _ _ _ Hget1). rewrite Hlen, Hget. cbv zeta. set (o := (i / 3 * 4)%nat) in *.
  rewrite (proj2 (Nat.ltb_lt (i + 1) (length data))), Hget1 by lia. cbn [mbind option_bind].
  change (u8 (0 - b2z (2 =? 1)%nat)) with 0. change (u8 (0 - b2z (2 =? 2)%nat)) with 255.
  assert (H0 : byte 0) by (unfold byte; lia).
  pose proof (triple_sextets b0 b1 0 Hb Hb1 H0) as (-> & -> & _ & _ & _ & ->).
  pose proof (triple_bounds b0 b1 0 Hb Hb1 H0) as (B0 & B1 & _ & _ & _ & B2).
  rewrite (sextet_char_small _ (b0 / 4)), (sextet_char_small _ (b0 mod 4 * 16 + b1 / 16)),
    (sextet_char_small _ (b1 mod 16 * 4)) by done.
  rewrite !mask_snd by (apply b64_char_byte; lia).
  rewrite <- He. cbn [b64_encoding] in Hl |- *. unfold pad_if in *. destruct (is_padded alphabet); simpl in Hl |- *;
    unfold upd; rewrite !decide_True by (rewrite ?length_insert; lia); cbn [mbind option_bind];
    repeat (rewrite decide_True by (rewrite ?length_insert; lia); cbn [mbind option_bind]); f_equal.
  - erewrite insert_end_1; [|rewrite !length_insert; lia|
      eapply (take_insert_app _ _ (o + 2)); [rewrite !length_insert; lia|
      eapply (take_insert_app _ _ (o + 1)); [rewrite !length_insert; lia|
      eapply (take_insert_app _ _ o); [lia|reflexivity|lia]|lia]|lia]].
    by rewrite <- !app_assoc.
  - erewrite insert_end_1; [|rewrite !length_insert; lia|
      eapply (take_insert_app _ _ (o + 1)); [rewrite !length_insert; lia|
      eapply (take_insert_app _ _ o); [lia|reflexivity|lia]|lia]].
    by rewrite <- !app_assoc.
Qed.

(** Three at a time. *)
Lemma triples_ind {A} (P : list A -> Prop) : P [] -> (forall x, P [x]) -> (forall x y, P [x; y]) ->
  (forall x y z l, P l -> P (x :: y :: z :: l)) -> forall l, P l.
Proof.
  intros H0 H1 H2 H3.
  enough (forall n l, (length l <= n)%nat -> P l) as H by (intros l; by apply (H (length l))).
  induction n as [|n IH]; intros [|x [|y [|z l]]] Hl; simpl in *; auto; try lia. apply H3, IH. lia.
Qed.

Lemma encoded_length_spec alphabet data : Z.of_nat (length data) < 2 ^ 63 ->
  encoded_length (Z.of_nat (length data)) (is_padded alphabet)
  = Some (Z.of_nat (length (b64_encoding alphabet data))).
Proof.
  intros Hlt. unfold encoded_length, checked, usize_max.
  set (n := Z.of_nat (length data)) in *.
  assert (Hb : 0 <= n / 3 /\ n / 3 * 3 <= n).
  { pose proof (Z.mul_div_le n 3 ltac:(lia)). split; [apply Z.div_pos|]; lia. }
  destruct (Z.leb_spec (n / 3 * 4) (2 ^ 64 - 1)); [|lia]. cbn [mbind option_bind].
  destruct (Z.leb_spec (n / 3 * 4 + 4) (2 ^ 64 - 1)); [|lia].
  assert (Hl : Z.of_nat (length (b64_encoding alphabet data))
    = n / 3 * 4 + (if n mod 3 =? 0 then 0 else if is_padded alphabet then 4 else n mod 3 + 1)).
  { subst n. clear. induction data as [|x|x y|x y z l IH] using triples_ind.
    - done.
    - cbn. unfold pad_if. by destruct (is_padded alphabet).
    - cbn. unfold pad_if. by destruct (is_padded alphabet).
    - cbn [b64_encoding app length]. rewrite !Nat2Z.inj_succ. unfold Z.succ. rewrite IH.
      replace (Z.of_nat (length l) + 1 + 1 + 1) with (Z.of_nat (length l) + 1 * 3) by lia.
      rewrite Z.div_add, Z.mod_add by lia. lia. }
  rewrite Hl. pose proof (Z.mod_pos_bound n 3 ltac:(lia)).
  destruct (Z.eqb_spec (n mod 3) 0); [f_equal; lia|]. destruct (is_padded alphabet); [done|].
  destruct (Z.eqb_spec (n mod 3) 1); f_equal; lia.
Qed.

Lemma b64_encode_into_constant_time_wp output data alphabet : bytes data ->
  Z.of_nat (length data) < 2 ^ 63 ->
  length output = length (b64_encoding alphabet data) ->
  encode_into_constant_time output data alphabet = Some (b64_encoding alphabet data, Ok tt).
Proof.
  intros Hd Hlt Hl.
  enough (wp (encode_into_constant_time output data alphabet)
             (fun r => r = (b64_encoding alphabet data, Ok tt))) as H.
  { by destruct (wp_elim _ _ H) as (? & -> & ->). }
  unfold encode_into_constant_time, check_encode_output_length.
  rewrite encoded_length_spec, Hl, Z.eqb_refl by done. cbn [negb]. wp_step.
  apply (wp_while (fun '(o, i) => (i <= length data)%nat /\ encoded_to alphabet data i o)
           (fun '(_, i) => length data - i)%nat); [|lia| |].
  - split; [lia|]. split; [done|]. by rewrite drop_0.
  - intros [o i] [Hi Ho] Hc. bool_hyps. wp_step.
    eapply wp_mono; [apply (wp_for_from (fun j => encoded_to alphabet data (i + 3 * j)));
      [|by rewrite Nat.add_0_r]|].
    { intros j t Hj Ht. replace (i + 3 * S j)%nat with (i + 3 * j + 3)%nat by lia.
      apply encode_triple_wp; [done|lia|done]. }
    intros o' Ho'. wp_step. split; [split; [lia|exact Ho']|lia].
  - intros [o i] [Hi Ho] Hc. wp_step.
    apply (wp_while (fun '(o, i) => (i <= length data)%nat /\ encoded_to alphabet data i o)
             (fun '(_, i) => length data - i)%nat); [done|lia| |].
    + intros [o' i'] [Hi' Ho'] Hc'. bool_hyps. wp_step.
      eapply wp_mono; [by apply encode_triple_wp|]. intros o2 Ho2. wp_step.
      split; [split; [lia|done]|lia].
    + intros [o' i'] [Hi' Ho'] Hc'. bool_hyps. wp_step.
      assert (Hb : bytes (drop i' data)) by (by apply Forall_drop).
      pose proof (length_drop data i') as Hdl.
      destruct (drop i' data) as [|b0 [|b1 [|b2 l]]] eqn:Hdrop; simpl in Hdl; [| | |lia].
      * rewrite (proj2 (Nat.ltb_ge 0 _)) by lia. do 2 wp_step. destruct Ho' as (_ & Hl' & He').
        rewrite Hdrop in Hl', He'. simpl in Hl', He'. rewrite app_nil_r, take_ge in He' by lia. by rewrite He'.
      * rewrite (proj2 (Nat.ltb_lt 0 _)) by lia. inversion_clear Hb.
        by rewrite (encode_tail_1 _ _ _ _ b0).
      * rewrite (proj2 (Nat.ltb_lt 0 _)) by lia. inversion_clear Hb as [|? ? ? Hb']. inversion_clear Hb'.
        by rewrite (encode_tail_2 _ _ _ _ b0 b1).
Qed.

(** ** Decoding *)

Lemma lor_ge x y : 0 <= x -> 0 <= y -> x <= Z.lor x y.
Proof.
  intros Hx Hy. apply Z.ldiff_le; [apply Z.lor_nonneg; lia|].
  apply Z.bits_inj'. intros n Hn. rewrite Z.ldiff_spec, Z.lor_spec, Z.bits_0.
  by destruct (Z.testbit x n), (Z.testbit y n).
Qed.

(** The error accumulator reaches 64 exactly when one of its inputs did. *)
Lemma b64_err_or e v : 0 <= e -> 0 <= v -> (Z.lor e v <? 64) = (e <? 64) && (v <? 64).
Proof.
  intros He Hv. pose proof (lor_ge e v He Hv). pose proof (lor_ge v e Hv He) as H2.
  rewrite Z.lor_comm in H2.
  destruct (Z.ltb_spec e 64), (Z.ltb_spec v 64); simpl; try (apply Z.ltb_ge; lia).
  apply Z.ltb_lt. apply (lor_nonneg_bound e v 6); lia.
Qed.

Lemma sextet_nonneg alphabet c : byte c -> 0 <= base64_char_to_sextet c alphabet.
Proof.
  intros Hc. rewrite char_sextet_spec by done.
  destruct (b64_value alphabet c) as [v|] eqn:E; simpl; [apply b64_value_bound in E; lia|lia].
Qed.

(** A character is valid exactly when its sextet is below 64. *)
Lemma sextet_cases alphabet c : byte c ->
  (exists v, b64_value alphabet c = Some v /\ base64_char_to_sextet c alphabet = v /\ 0 <= v < 64) \/
  (b64_value alphabet c = None /\ base64_char_to_sextet c alphabet = 64).
Proof.
  intros Hc. rewrite char_sextet_spec by done.
  destruct (b64_value alphabet c) as [v|] eqn:E; [left|by right].
  exists v. split_and!; [done|done|apply b64_value_bound in E; lia..].
Qed.

Lemma quad_bytes v0 v1 v2 v3 : 0 <= v0 < 64 -> 0 <= v1 < 64 -> 0 <= v2 < 64 -> 0 <= v3 < 64 ->
  Z.lor (u8 (Z.shiftl v0 2)) (Z.shiftr v1 4) = v0 * 4 + v1 / 16 /\
  Z.lor (u8 (Z.shiftl v1 4)) (Z.shiftr v2 2) = v1 mod 16 * 16 + v2 / 4 /\
  Z.lor (u8 (Z.shiftl v2 6)) v3 = v2 mod 4 * 64 + v3.
Proof.
  intros. rewrite !shiftr_div by lia.
  assert (0 <= v1 / 2 ^ 4 < 2 ^ 2) by (split; [apply Z.div_pos|apply Z.div_lt_upper_bound]; lia).
  assert (0 <= v2 / 2 ^ 2 < 2 ^ 4) by (split; [apply Z.div_pos|apply Z.div_lt_upper_bound]; lia).
  rewrite !field_or by lia. change (2 ^ (8 - 2)) with 64. change (2 ^ (8 - 4)) with 16.
  change (2 ^ (8 - 6)) with 4. rewrite (Z.mod_small v0) by lia. done.
Qed.

(** The first [4 k] characters of the content are decoded, or [err] is set. *)
Definition decoded_to (alphabet : Alphabet) (content : list Z) (L k : nat)
    '((output, err) : list Z * Z) : Prop :=
  length output = L /\ 0 <= err /\
  b64_content alphabet content
  = if err <? 64
    then r ← b64_content alphabet (drop (4 * k) content); Some (take (3 * k) output ++ r)
    else None.

Lemma drop_four {A} (l : list A) i x y z w :
  l !! i = Some x -> l !! (i + 1)%nat = Some y -> l !! (i + 2)%nat = Some z ->
  l !! (i + 3)%nat = Some w ->
  drop i l = x :: y :: z :: w :: drop (i + 4) l.
Proof.
  intros Hx Hy Hz Hw. rewrite (drop_three _ _ _ _ _ Hx Hy Hz).
  rewrite (drop_S _ _ _ Hw). by replace (i + 4)%nat with (S (i + 3)) by lia.
Qed.

Lemma decode_quad_wp alphabet data n L k s : bytes data -> (n <= length data)%nat ->
  (4 * k + 4 <= n)%nat -> (3 * k + 3 <= L)%nat ->
  decoded_to alphabet (take n data) L k s ->
  wp (decode_quad alphabet data (4 * k) (3 * k) s) (decoded_to alphabet (take n data) L (k + 1)).
Proof.
  destruct s as [o e]. intros Hd Hn Hk HL (Hl & He & Hc). unfold decode_quad. do 8 wp_step.
  assert (Hdrop : drop (4 * k) (take n data) = x :: x0 :: x1 :: x2 :: drop (4 * (k + 1)) (take n data)).
  { replace (4 * (k + 1))%nat with (4 * k + 4)%nat by lia.
    apply drop_four; rewrite lookup_take_lt by lia; done. }
  rewrite Hdrop in Hc. cbn [b64_content] in Hc. cbv zeta. wp_steps; rewrite ?length_insert; try lia.
  unfold decoded_to. rewrite !length_insert. split; [done|].
  assert (B0 : byte x) by eauto using bytes_lookup. assert (B1 : byte x0) by eauto using bytes_lookup.
  assert (B2 : byte x1) by eauto using bytes_lookup. assert (B3 : byte x2) by eauto using bytes_lookup.
  pose proof (sextet_nonneg alphabet _ B0). pose proof (sextet_nonneg alphabet _ B1).
  pose proof (sextet_nonneg alphabet _ B2). pose proof (sextet_nonneg alphabet _ B3).
  split; [repeat (apply Z.lor_nonneg; split; try lia)|].
  rewrite !b64_err_or by (repeat (apply Z.lor_nonneg; split; try lia) || lia). rewrite Hc.
  destruct (e <? 64); [|done].
  destruct (sextet_cases alphabet _ B0) as [(v0 & -> & -> & V0)|[-> ->]]; [|done].
  destruct (sextet_cases alphabet _ B1) as [(v1 & -> & -> & V1)|[-> ->]];
    [|by rewrite (proj2 (Z.ltb_lt v0 64)) by lia].
  destruct (sextet_cases alphabet _ B2) as [(v2 & -> & -> & V2)|[-> ->]];
    [|by rewrite (proj2 (Z.ltb_lt v0 64)), (proj2 (Z.ltb_lt v1 64)) by lia].
  destruct (sextet_cases alphabet _ B3) as [(v3 & -> & -> & V3)|[-> ->]];
    [|by rewrite (proj2 (Z.ltb_lt v0 64)), (proj2 (Z.ltb_lt v1 64)), (proj2 (Z.ltb_lt v2 64)) by lia].
  rewrite (proj2 (Z.ltb_lt v0 64)), (proj2 (Z.ltb_lt v1 64)), (proj2 (Z.ltb_lt v2 64)),
    (proj2 (Z.ltb_lt v3 64)) by lia. cbn [mbind option_bind andb].
  destruct (b64_content alphabet (drop (4 * (k + 1)) (take n data))) as [r|]; [|done].
  cbn [mbind option_bind]. f_equal.
  destruct (quad_bytes v0 v1 v2 v3 V0 V1 V2 V3) as (-> & -> & ->).
  replace (3 * (k + 1))%nat with (3 * k + 3)%nat by lia.
  erewrite (take_insert_app _ _ (3 * k + 2)); [|rewrite !length_insert; lia| |lia].
  2:{ eapply (take_insert_app _ _ (3 * k + 1)); [rewrite !length_insert; lia| |lia].
      eapply (take_insert_app _ _ (3 * k)); [lia|reflexivity|lia]. }
  by rewrite <- !app_assoc.
Qed.

Lemma land_255 x : byte x -> Z.land x 255 = x.
Proof. intros Hx. change 255 with (2 ^ 8 - 1). rewrite land_ones by lia. by apply Z.mod_small. Qed.

Lemma sextet_byte alphabet c : byte c -> byte (base64_char_to_sextet c alphabet).
Proof. intros Hc. destruct (sextet_cases alphabet c Hc) as [(v & _ & -> & Hv)|[_ ->]]; unfold byte; lia. Qed.

Lemma land_low_byte x k : 0 <= k <= 8 -> byte x ->
  Z.land x (2 ^ k - 1) = x mod 2 ^ k /\ byte (x mod 2 ^ k).
Proof.
  intros Hk Hx. rewrite land_ones by lia. split; [done|]. unfold byte.
  pose proof (Z.mod_pos_bound x (2 ^ k) ltac:(lia)).
  pose proof (Z.pow_le_mono_r 2 k 8 ltac:(lia) ltac:(lia)). lia.
Qed.

Lemma flag_64 b : (u8 (Z.shiftl (b2z b) 6) <? 64) = negb b /\ 0 <= u8 (Z.shiftl (b2z b) 6).
Proof. by destruct b. Qed.

(** The decoder's state once everything is read. *)
Definition decoded_all (alphabet : Alphabet) (content : list Z) (L m : nat)
    '((output, err) : list Z * Z) : Prop :=
  length output = L /\ b64_content alphabet content = if err <? 64 then Some (take m output) else None.

Lemma decode_tail_2 alphabet data n L k s : bytes data -> (n <= length data)%nat ->
  n = (4 * k + 2)%nat -> (3 * k + 1 <= L)%nat -> decoded_to alphabet (take n data) L k s ->
  wp (decode_tail alphabet data n (4 * k) (3 * k) s) (decoded_all alphabet (take n data) L (3 * k + 1)).
Proof.
  destruct s as [o e]. intros Hd Hn -> HL (Hl & He & Hc). unfold decode_tail.
  replace (4 * k + 2 - 4 * k)%nat with 2%nat by lia. cbv zeta.
  rewrite (proj2 (Nat.ltb_lt (4 * k + 1) (4 * k + 2))), (proj2 (Nat.ltb_ge (4 * k + 2) (4 * k + 2))),
    (proj2 (Nat.ltb_lt (4 * k) (4 * k + 2))) by lia. do 6 wp_step.
  change (2 =? 2)%nat with true. change (2 =? 3)%nat with false. cbn [b2z].
  change (u8 (0 - 1)) with 255. change (u8 (0 - 0)) with 0. rewrite !Z.land_0_r, !Z.lor_0_r.
  assert (Hdrop : drop (4 * k) (take (4 * k + 2) data) = [x; x0]).
  { rewrite (drop_S _ x) by (rewrite lookup_take_lt by lia; done).
    rewrite (drop_S _ x0) by (rewrite lookup_take_lt by lia; rewrite <- Nat.add_1_r; done).
    by rewrite drop_ge by (rewrite length_take; lia). }
  rewrite Hdrop in Hc. cbn [b64_content] in Hc. wp_steps. unfold decoded_all. rewrite length_insert.
  split; [done|]. rewrite Hc.
  assert (B0 : byte x) by eauto using bytes_lookup. assert (B1 : byte x0) by eauto using bytes_lookup.
  pose proof (sextet_byte alphabet _ B0) as S0. pose proof (sextet_byte alphabet _ B1) as S1.
  destruct (land_low_byte _ 4 ltac:(lia) S1) as [E1 Bt]. change (2 ^ 4 - 1) with 15 in E1.
  rewrite E1, !(land_255 _ Bt), !land_255 by done.
  match goal with |- context [u8 (Z.shiftl (b2z ?b) 6)] => destruct (flag_64 b) as [Hf Hf0] end.
  rewrite !b64_err_or, Hf by (repeat (apply Z.lor_nonneg; split); unfold byte in *; lia). rewrite negb_involutive.
  destruct (e <? 64); [|done].
  destruct (sextet_cases alphabet _ B0) as [(v0 & -> & -> & V0)|[-> ->]]; [|done].
  rewrite (proj2 (Z.ltb_lt v0 64)) by lia. cbn [mbind option_bind andb].
  destruct (sextet_cases alphabet _ B1) as [(v1 & -> & -> & V1)|[-> ->]]; [|done].
  rewrite (proj2 (Z.ltb_lt v1 64)) by lia. cbn [mbind option_bind andb]. change (2 ^ 4) with 16.
  destruct (v1 mod 16 =? 0); [|done]. cbn [mbind option_bind]. f_equal.
  destruct (quad_bytes v0 v1 0 0 V0 V1 ltac:(lia) ltac:(lia)) as (-> & _).
  symmetry. apply take_insert_app; [lia|done|lia].
Qed.

Lemma decode_tail_3 alphabet data n L k s : bytes data -> (n <= length data)%nat ->
  n = (4 * k + 3)%nat -> (3 * k + 2 <= L)%nat -> decoded_to alphabet (take n data) L k s ->
  wp (decode_tail alphabet data n (4 * k) (3 * k) s) (decoded_all alphabet (take n data) L (3 * k + 2)).
Proof.
  destruct s as [o e]. intros Hd Hn -> HL (Hl & He & Hc). unfold decode_tail.
  replace (4 * k + 3 - 4 * k)%nat with 3%nat by lia. cbv zeta.
  rewrite (proj2 (Nat.ltb_lt (4 * k + 1) (4 * k + 3))), (proj2 (Nat.ltb_lt (4 * k + 2) (4 * k + 3))),
    (proj2 (Nat.ltb_lt (4 * k) (4 * k + 3))) by lia. do 6 wp_step.
  change (3 =? 2)%nat with false. change (3 =? 3)%nat with true. cbn [b2z].
  change (u8 (0 - 1)) with 255. change (u8 (0 - 0)) with 0. rewrite !Z.land_0_r, !Z.lor_0_l.
  assert (Hdrop : drop (4 * k) (take (4 * k + 3) data) = [x; x0; x1]).
  { rewrite (drop_three _ _ x x0 x1) by (rewrite lookup_take_lt by lia; done).
    by rewrite drop_ge by (rewrite length_take; lia). }
  rewrite Hdrop in Hc. cbn [b64_content] in Hc. wp_steps; [rewrite length_insert; lia|].
  unfold decoded_all. rewrite !length_insert. split; [done|]. rewrite Hc.
  assert (B0 : byte x) by eauto using bytes_lookup. assert (B1 : byte x0) by eauto using bytes_lookup.
  assert (B2 : byte x1) by eauto using bytes_lookup.
  pose proof (sextet_byte alphabet _ B0) as S0. pose proof (sextet_byte alphabet _ B1) as S1.
  pose proof (sextet_byte alphabet _ B2) as S2.
  destruct (land_low_byte _ 2 ltac:(lia) S2) as [E2 Bt]. change (2 ^ 2 - 1) with 3 in E2.
  rewrite E2, !(land_255 _ Bt), !land_255 by done.
  match goal with |- context [u8 (Z.shiftl (b2z ?b) 6)] => destruct (flag_64 b) as [Hf Hf0] end.
  rewrite !b64_err_or, Hf by (repeat (apply Z.lor_nonneg; split); unfold byte in *; lia). rewrite negb_involutive.
  destruct (e <? 64); [|done].
  destruct (sextet_cases alphabet _ B0) as [(v0 & -> & -> & V0)|[-> ->]]; [|done].
  rewrite (proj2 (Z.ltb_lt v0 64)) by lia. cbn [mbind option_bind andb].
  destruct (sextet_cases alphabet _ B1) as [(v1 & -> & -> & V1)|[-> ->]]; [|done].
  rewrite (proj2 (Z.ltb_lt v1 64)) by lia. cbn [mbind option_bind andb].
  destruct (sextet_cases alphabet _ B2) as [(v2 & -> & -> & V2)|[-> ->]]; [|done].
  rewrite (proj2 (Z.ltb_lt v2 64)) by lia. cbn [mbind option_bind andb]. change (2 ^ 2) with 4.
  destruct (v2 mod 4 =? 0); [|done]. cbn [mbind option_bind]. f_equal.
  destruct (quad_bytes v0 v1 v2 0 V0 V1 V2 ltac:(lia)) as (-> & -> & _). symmetry.
  erewrite (take_insert_app _ _ (3 * k + 1)); [|rewrite length_insert; lia| |lia].
  2:{ eapply (take_insert_app _ _ (3 * k)); [lia|reflexivity|lia]. }
  by rewrite <- app_assoc.
Qed.

(** ** Padding *)

(** [s] is [content] followed by an admissible number [p] of pads. *)
Definition padded_as (padded : bool) (s : list Z) (n p : nat) : Prop :=
  (n + p = length s)%nat /\ drop n s = replicate p PAD /\
  (p = 0%nat \/ (padded = true /\ (p <= 2)%nat /\ (length s mod 4 = 0)%nat)).

Lemma from_end_some s k : (0 < k)%nat -> exists b, from_end s k = Some b /\
  (b = PAD -> (k <= length s)%nat /\ s !! (length s - k)%nat = Some PAD) /\
  (b <> PAD -> (k <= length s)%nat -> s !! (length s - k)%nat <> Some PAD).
Proof.
  intros Hk. unfold from_end. destruct (Nat.leb_spec k (length s)) as [Hle|Hgt].
  - destruct (lookup_lt_is_Some_2 s (length s - k)) as [b Hb]; [lia|]. exists b. rewrite Hb.
    split; [done|]. split; [by intros ->|]. congruence.
  - exists 0. split; [done|]. split; [done|]. lia.
Qed.

Lemma check_padding_spec n p :
  match check_padding n p with
  | Ok (m, q) => m = (n - p)%nat /\ q = p /\ (p = 0%nat \/ ((p <= 2)%nat /\ (n mod 4 = 0)%nat))
  | Err e => e = InvalidPadding \/ e = InvalidInputLength
  end.
Proof.
  unfold check_padding. destruct p as [|[|[|p]]].
  - split_and!; [done|done|by left].
  - destruct (Nat.eqb_spec (n mod 4) 0), ((n - 1) mod 4 =? 4 - 1)%nat; simpl; auto with lia.
  - destruct (Nat.eqb_spec (n mod 4) 0), ((n - 2) mod 4 =? 4 - 2)%nat; simpl; auto with lia.
  - change (2 <? S (S (S p)))%nat with true. change (S (S (S p)) =? 0)%nat with false.
    destruct (n mod 4 =? 0)%nat, ((n - S (S (S p))) mod 4 =? 4 - S (S (S p)))%nat; simpl; auto.
Qed.

Lemma check_padding_ok n p : (p <= n)%nat -> (p = 0 \/ (p <= 2 /\ n mod 4 = 0))%nat ->
  check_padding n p = Ok ((n - p)%nat, p).
Proof.
  intros Hle [->|[Hp Hm]]; [done|]. unfold check_padding.
  assert (n = 4 * (n / 4))%nat by (pose proof (Nat.div_mod_eq n 4); lia).
  destruct p as [|[|[|p]]]; [done| | |lia]; rewrite Hm.
  - replace ((n - 1) mod 4)%nat with 3%nat by (apply (Nat.mod_unique _ _ (n / 4 - 1)); lia). done.
  - replace ((n - 2) mod 4)%nat with 2%nat by (apply (Nat.mod_unique _ _ (n / 4 - 1)); lia). done.
Qed.

Lemma count_pads_eq b0 b1 b2 : count_pads b0 b1 b2
  = if b0 =? PAD then if b1 =? PAD then if b2 =? PAD then 3%nat else 2%nat else 1%nat else 0%nat.
Proof. unfold count_pads. by destruct (b0 =? PAD), (b1 =? PAD), (b2 =? PAD). Qed.

Lemma strip_total s padded : exists r, strip_padding_info s padded = Some r /\
  match r with
  | Ok (n, p) => padded_as padded s n p
  | Err e => e = InvalidPadding \/ e = InvalidInputLength
  end.
Proof.
  unfold strip_padding_info. destruct padded; cbn [negb].
  - destruct (from_end_some s 1 ltac:(lia)) as (b0 & -> & H0 & _).
    destruct (from_end_some s 2 ltac:(lia)) as (b1 & -> & H1 & _).
    destruct (from_end_some s 3 ltac:(lia)) as (b2 & -> & _ & _). cbn [mbind option_bind].
    eexists. split; [reflexivity|]. pose proof (check_padding_spec (length s) (count_pads b0 b1 b2)) as Hc.
    destruct (check_padding _ _) as [[m q]|e]; [|exact Hc]. destruct Hc as (-> & -> & Hp).
    unfold padded_as. rewrite count_pads_eq in *.
    destruct (Z.eqb_spec b0 PAD) as [E0|_]; [|split_and!; [lia|by rewrite drop_ge by lia|by left]].
    destruct (H0 E0) as [Hl0 Hg0].
    assert (Hd1 : drop (length s - 1) s = [PAD]) by (rewrite (drop_S _ _ _ Hg0), drop_ge by lia; done).
    destruct (Z.eqb_spec b1 PAD) as [E1|_];
      [|split_and!; [lia|by rewrite Hd1|right; split_and!; [done|lia|lia]]].
    destruct (H1 E1) as [Hl1 Hg1]. destruct (b2 =? PAD); [lia|].
    split_and!; [lia| |right; split_and!; [done|lia|lia]].
    rewrite (drop_S _ _ _ Hg1). replace (S (length s - 2)) with (length s - 1)%nat by lia. by rewrite Hd1.
  - destruct (Nat.ltb_spec 0 (length s)) as [Hl|Hl].
    + destruct (lookup_lt_is_Some_2 s (length s - 1)) as [c ->]; [lia|]. cbn [mbind option_bind].
      destruct (c =? PAD); [eexists; split; [reflexivity|by left]|].
      eexists. split; [reflexivity|]. split; [lia|]. split; [by rewrite drop_ge|by left].
    + cbn [mbind option_bind]. eexists. split; [reflexivity|].
      split; [lia|]. split; [by rewrite drop_ge|by left].
Qed.

(** Content that does not itself end in a pad is recognised. *)
Lemma strip_complete padded content p :
  content !! (length content - 1)%nat <> Some PAD ->
  (p = 0%nat \/ (padded = true /\ (p <= 2)%nat /\ (length (content ++ replicate p PAD) mod 4 = 0)%nat)) ->
  strip_padding_info (content ++ replicate p PAD) padded = Some (Ok (length content, p)).
Proof.
  intros Hlast Hp. set (s := content ++ replicate p PAD) in *.
  assert (Hlen : length s = (length content + p)%nat) by (subst s; by rewrite length_app, length_replicate).
  assert (Hpad : forall k, (1 <= k <= p)%nat -> s !! (length s - k)%nat = Some PAD).
  { intros k Hk. subst s. rewrite lookup_app_r by lia. apply lookup_replicate_2. lia. }
  assert (Hend : (p + 1 <= length s)%nat -> s !! (length s - (p + 1))%nat <> Some PAD).
  { intros Hle. subst s. rewrite lookup_app_l by lia.
    replace (length (content ++ replicate p PAD) - (p + 1))%nat with (length content - 1)%nat by lia. done. }
  unfold strip_padding_info. destruct padded; cbn [negb].
  - destruct (from_end_some s 1 ltac:(lia)) as (b0 & -> & H0 & N0).
    destruct (from_end_some s 2 ltac:(lia)) as (b1 & -> & H1 & N1).
    destruct (from_end_some s 3 ltac:(lia)) as (b2 & -> & H2 & N2). cbn [mbind option_bind]. do 2 f_equal.
    assert (Hcount : count_pads b0 b1 b2 = p).
    { rewrite count_pads_eq. assert (p = 0 \/ p = 1 \/ p = 2)%nat as [-> | [-> | ->]] by lia; simpl in Hend.
      - destruct (Z.eqb_spec b0 PAD) as [E|E]; [destruct (H0 E) as [? G]; by destruct (Hend ltac:(lia))|done].
      - destruct (Z.eqb_spec b0 PAD) as [E|E]; [|destruct (N0 E); [lia|apply Hpad; lia]].
        destruct (Z.eqb_spec b1 PAD) as [E1|E1]; [destruct (H1 E1) as [? G]; by destruct (Hend ltac:(lia))|done].
      - destruct (Z.eqb_spec b0 PAD) as [E|E]; [|destruct (N0 E); [lia|apply Hpad; lia]].
        destruct (Z.eqb_spec b1 PAD) as [E1|E1]; [|destruct (N1 E1); [lia|apply Hpad; lia]].
        destruct (Z.eqb_spec b2 PAD) as [E2|E2]; [destruct (H2 E2) as [? G]; by destruct (Hend ltac:(lia))|done]. }
    rewrite Hcount, check_padding_ok by (lia || naive_solver). do 2 f_equal. lia.
  - destruct Hp as [->|[? _]]; [|done]. subst s. simpl in *. rewrite app_nil_r in *.
    destruct (Nat.ltb_spec 0 (length content)); [|by cbn [mbind option_bind]].
    destruct (lookup_lt_is_Some_2 content (length content - 1)) as [c Hc]; [lia|]. rewrite Hc.
    cbn [mbind option_bind]. destruct (Z.eqb_spec c PAD) as [->|]; [|done].
    exfalso. apply Hend; [lia|done].
Qed.

(** ** The decoder as a whole *)

(** The number of bytes in [n] characters of content. *)
Definition dlen (n : nat) : nat := (n / 4 * 3 + (n mod 4 - 1))%nat.

Lemma decoded_length_spec n : Z.of_nat n < 2 ^ 63 ->
  decoded_length (Z.of_nat n)
  = if (n mod 4 =? 1)%nat then Err InvalidInputLength else Ok (Z.of_nat (dlen n)).
Proof.
  intros Hn. unfold decoded_length, checked, usize_max, dlen.
  pose proof (Nat.div_mod_eq n 4). pose proof (Nat.mod_upper_bound n 4 ltac:(lia)) as Hr.
  change 4 with (Z.of_nat 4). rewrite <- Nat2Z.inj_div, <- Nat2Z.inj_mod.
  set (q := (n / 4)%nat) in *. set (r := (n mod 4)%nat) in *.
  destruct (Z.leb_spec (Z.of_nat q * 3) (2 ^ 64 - 1)); [|lia].
  destruct (Z.leb_spec (Z.of_nat q * 3 + 1) (2 ^ 64 - 1)); [|lia].
  destruct (Z.leb_spec (Z.of_nat q * 3 + 2) (2 ^ 64 - 1)); [|lia].
  assert (r = 0 \/ r = 1 \/ r = 2 \/ r = 3)%nat as [E|[E|[E|E]]] by lia; rewrite E; simpl; try done;
    f_equal; lia.
Qed.

(** The loop state with [4 k] characters read. *)
Definition dec_inv (alphabet : Alphabet) (content : list Z) (L : nat)
    '((s, i, o) : list Z * Z * nat * nat) : Prop :=
  exists k, i = (4 * k)%nat /\ o = (3 * k)%nat /\ (4 * k <= length content)%nat /\
    decoded_to alphabet content L k s.

(** The two loops of the decoder, and what follows them. *)
Lemma decode_loops_wp {A} alphabet data n L output (K : list Z * Z * nat * nat -> option A) Q :
  bytes data -> (n <= length data)%nat -> length output = L -> (dlen n <= L)%nat ->
  (forall t, dec_inv alphabet (take n data) L t ->
     (let '(_, i, _) := t in (n < i + 4)%nat) -> wp (K t) Q) ->
  wp ('(s, i, o) ← while_loop (S n)
        (fun '(_, i, _) => (i + 32 <=? n)%nat)
        (fun '(s, i, o) =>
           s ← for_from 8 0 (fun j => decode_quad alphabet data (i + 4 * j) (o + 3 * j)) s;
           Some (s, (i + 32)%nat, (o + 24)%nat)) ((output, 0), 0%nat, 0%nat);
      t ← while_loop (S n)
        (fun '(_, i, _) => (i + 4 <=? n)%nat)
        (fun '(s, i, o) =>
           s ← decode_quad alphabet data i o s;
           Some (s, (i + 4)%nat, (o + 3)%nat)) (s, i, o);
      K t) Q.
Proof.
  intros Hd Hn HL Hlen HK. pose proof (Nat.div_mod_eq n 4). unfold dlen in Hlen.
  assert (Hc : length (take n data) = n) by (rewrite length_take; lia).
  wp_step. apply (wp_while (dec_inv alphabet (take n data) L) (fun '(_, i, _) => n - i)%nat);
    [|lia| |].
  - exists 0%nat. split_and!; [done|done|lia|]. unfold decoded_to.
    split_and!; [done|lia|]. simpl. rewrite drop_0.
    by destruct (b64_content alphabet (take n data)).
  - intros [[s i] o] (k & -> & -> & Hk & Hs) Hb. bool_hyps. wp_step.
    eapply wp_mono; [apply (wp_for_from (fun j => decoded_to alphabet (take n data) L (k + j)));
      [|by rewrite Nat.add_0_r]|].
    { intros j t Hj Ht. replace (4 * k + 4 * j)%nat with (4 * (k + j))%nat by lia.
      replace (3 * k + 3 * j)%nat with (3 * (k + j))%nat by lia.
      replace (k + S j)%nat with (k + j + 1)%nat by lia.
      apply decode_quad_wp; auto; lia. }
    intros s' Hs'. wp_step. split; [|lia]. exists (k + 8)%nat. split_and!; [lia|lia|lia|exact Hs'].
  - intros [[s i] o] Hi Hb. wp_step.
    apply (wp_while (dec_inv alphabet (take n data) L) (fun '(_, i, _) => n - i)%nat);
      [done|lia| |].
    + intros [[s' i'] o'] (k & -> & -> & Hk & Hs) Hb'. bool_hyps. wp_step.
      eapply wp_mono; [apply (decode_quad_wp _ _ n L); auto; lia|].
      intros s2 Hs2. wp_step. split; [|lia]. exists (k + 1)%nat. split_and!; [lia|lia|lia|done].
    + intros [[s' i'] o'] Hi' Hb'. bool_hyps. apply HK; [done|lia].
Qed.

(** What the decoder returns on a large enough buffer, for [n] characters of
    content with a valid length. *)
Definition decode_post (alphabet : Alphabet) (content output : list Z)
    '((output', r) : list Z * result Z DecodeError) : Prop :=
  length output' = length output /\
  match b64_content alphabet content with
  | Some d => r = Ok (Z.of_nat (dlen (length content))) /\ take (dlen (length content)) output' = d
  | None => r = Err InvalidInput
  end.

Lemma b64_decode_into_constant_time_wp output s alphabet n p : bytes s ->
  Z.of_nat (length s) < 2 ^ 63 ->
  strip_padding_info s (is_padded alphabet) = Some (Ok (n, p)) -> (n <= length s)%nat ->
  (n mod 4 <> 1)%nat -> (dlen n <= length output)%nat ->
  wp (decode_into_constant_time output s alphabet) (decode_post alphabet (take n s) output).
Proof.
  intros Hs Hlt Hstrip Hn Hm Hl. unfold decode_into_constant_time.
  assert (Hc : length (take n s) = n) by (rewrite length_take; lia).
  assert (Hnil : n = 0%nat -> decode_post alphabet (take n s) output (output, Ok 0)).
  { intros ->. by split. }
  destruct (Nat.eqb_spec (length s) 0); [apply wp_ret, Hnil; lia|].
  rewrite Hstrip. cbn [mbind option_bind].
  destruct (Nat.eqb_spec n 0); [by apply wp_ret, Hnil|].
  rewrite decoded_length_spec by lia. rewrite (proj2 (Nat.eqb_neq _ _) Hm).
  rewrite (proj2 (Z.ltb_ge (Z.of_nat (length output)) (Z.of_nat (dlen n)))) by lia.
  apply (decode_loops_wp alphabet s n (length output)); auto.
  intros [[[o e] i] w] (k & -> & -> & Hk & Hd) Hi. cbv zeta. rewrite Hc in Hk.
  assert (Hr : (n mod 4 = n - 4 * k)%nat) by (symmetry; apply (Nat.mod_unique _ _ k); lia).
  assert (Hq : (n / 4 = k)%nat) by (symmetry; apply (Nat.div_unique _ _ _ (n - 4 * k)); lia).
  assert (Hdl : dlen n = (3 * k + (n - 4 * k - 1))%nat) by (unfold dlen; rewrite Hq, Hr; lia).
  assert (Hval : Z.lor e (u8 (Z.shiftl (1 - Z.lor (Z.lor (b2z (n - 4 * k =? 0)%nat) (b2z (n - 4 * k =? 2)%nat))
      (b2z (n - 4 * k =? 3)%nat)) 6)) = e).
  { assert (n - 4 * k = 0 \/ n - 4 * k = 2 \/ n - 4 * k = 3)%nat as [E|[E|E]] by lia; rewrite E;
      apply Z.lor_0_r. }
  rewrite Hval. wp_step.
  assert (Hfin : forall t, decoded_all alphabet (take n s) (length output) (dlen n) t ->
    wp (let '(o', e') := t in if 64 <=? e' then Some (o', Err InvalidInput) else Some (o', Ok (Z.of_nat (dlen n))))
       (decode_post alphabet (take n s) output)).
  { intros [o' e'] (Hl' & He'). rewrite Z.leb_antisym. unfold decode_post.
    rewrite Hc. rewrite He'. by destruct (e' <? 64). }
  assert (n - 4 * k = 0 \/ n - 4 * k = 2 \/ n - 4 * k = 3)%nat as [E|[E|E]] by lia.
  - rewrite E. apply (Hfin (o, e)). destruct Hd as (Hl' & _ & He'). split; [done|].
    rewrite drop_ge in He' by lia. rewrite He'.
    replace (dlen n) with (3 * k)%nat by lia. cbn [b64_content mbind option_bind]. by rewrite app_nil_r.
  - rewrite (proj2 (Nat.ltb_lt 0 (n - 4 * k))) by lia. eapply wp_mono.
    + apply (decode_tail_2 _ _ _ (length output)); auto; lia.
    + intros t Ht. apply Hfin. replace (dlen n) with (3 * k + 1)%nat by lia. done.
  - rewrite (proj2 (Nat.ltb_lt 0 (n - 4 * k))) by lia. eapply wp_mono.
    + apply (decode_tail_3 _ _ _ (length output)); auto; lia.
    + intros t Ht. apply Hfin. replace (dlen n) with (3 * k + 2)%nat by lia. done.
Qed.

(** The content decoder never returns more than [dlen]. *)
Lemma decode_eq s alphabet : bytes s -> Z.of_nat (length s) < 2 ^ 63 ->
  decode s alphabet
  = r ← strip_padding_info s (is_padded alphabet);
    Some (match r with
          | Err e => Err e
          | Ok (n, _) =>
              if (n mod 4 =? 1)%nat then Err InvalidInputLength
              else match b64_content alphabet (take n s) with
                   | Some d => Ok d | None => Err InvalidInput end
          end).
Proof.
  intros Hs Hlt. unfold decode, decode_into.
  destruct (strip_total s (is_padded alphabet)) as (r & Hstrip & Hr). rewrite Hstrip. cbn [mbind option_bind].
  destruct r as [[n p]|e]; [|done]. destruct Hr as (Hnp & _).
  rewrite !decoded_length_spec by lia. destruct (Nat.eqb_spec (n mod 4) 1) as [|Hm]; [done|].
  cbn [mbind option_bind]. rewrite length_replicate, Nat2Z.id, Z.ltb_irrefl.
  pose proof (b64_decode_into_constant_time_wp (replicate (dlen n) 0) s alphabet n p Hs Hlt Hstrip
    ltac:(lia) Hm ltac:(rewrite length_replicate; lia)) as H.
  apply wp_elim in H as ([o r] & -> & Hl & H). cbn [mbind option_bind]. rewrite length_replicate in Hl.
  destruct (b64_content alphabet (take n s)) as [d|]; [|by rewrite H].
  destruct H as [-> H]. rewrite length_take_le in H by lia. by rewrite take_ge in H by lia; rewrite H.
Qed.

(** ** Encoding and content decoding are inverse *)

(** The alphabet without its padding. *)
Definition nopad (alphabet : Alphabet) : Alphabet :=
  match alphabet with
  | Standard | StandardNoPadding => StandardNoPadding
  | Url | UrlNoPadding => UrlNoPadding
  end.

Lemma nopad_char alphabet v : b64_char (nopad alphabet) v = b64_char alphabet v.
Proof. by destruct alphabet. Qed.

Lemma encoding_split alphabet d : let c := b64_encoding (nopad alphabet) d in
  b64_encoding alphabet d = c ++ pad_if alphabet ((4 - length c mod 4) mod 4).
Proof.
  induction d as [|x|x y|x y z l IH] using triples_ind; cbv zeta.
  - by destruct alphabet.
  - by destruct alphabet.
  - by destruct alphabet.
  - cbn [b64_encoding app length]. rewrite !nopad_char, IH. do 5 f_equal.
    set (n := length _). do 3 f_equal.
    replace (S (S (S (S n)))) with (n + 1 * 4)%nat by lia. by rewrite Nat.Div0.mod_add.
Qed.

(** Four at a time. *)
Lemma quads_ind {A} (P : list A -> Prop) : P [] -> (forall x, P [x]) -> (forall x y, P [x; y]) ->
  (forall x y z, P [x; y; z]) -> (forall x y z w l, P l -> P (x :: y :: z :: w :: l)) -> forall l, P l.
Proof.
  intros H0 H1 H2 H3 H4.
  enough (forall n l, (length l <= n)%nat -> P l) as H by (intros l; by apply (H (length l))).
  induction n as [|n IH]; intros [|x [|y [|z [|w l]]]] Hl; simpl in *; auto; try lia. apply H4, IH. lia.
Qed.

(** Splitting and joining bytes and sextets. *)
Lemma sextets_join b0 b1 b2 : byte b0 -> byte b1 -> byte b2 ->
  b0 / 4 * 4 + (b0 mod 4 * 16 + b1 / 16) / 16 = b0 /\
  (b0 mod 4 * 16 + b1 / 16) mod 16 * 16 + (b1 mod 16 * 4 + b2 / 64) / 4 = b1 /\
  (b1 mod 16 * 4 + b2 / 64) mod 4 * 64 + b2 mod 64 = b2.
Proof.
  intros H0 H1 H2. pose proof (triple_bounds _ _ _ H0 H1 H2) as (B0 & B1 & B2 & B3 & _).
  destruct (byte_shr b1 4 ltac:(lia) H1) as [_ D1]. destruct (byte_shr b2 6 ltac:(lia) H2) as [_ D2].
  change (2 ^ 4) with 16 in D1. change (2 ^ 6) with 64 in D2.
  change (2 ^ (8 - 4)) with 16 in D1. change (2 ^ (8 - 6)) with 4 in D2.
  rewrite !Z.div_add_l by lia. rewrite (Z.div_small (b1 / 16)), (Z.div_small (b2 / 64)) by lia.
  rewrite (Z.add_comm (b0 mod 4 * 16)), (Z.add_comm (b1 mod 16 * 4) (b2 / 64)), !Z.mod_add by lia.
  rewrite (Z.mod_small (b1 / 16)), (Z.mod_small (b2 / 64)) by lia.
  pose proof (Z.div_mod b0 4). pose proof (Z.div_mod b1 16). pose proof (Z.div_mod b2 64). lia.
Qed.

Lemma content_encoding alphabet d : bytes d ->
  b64_content alphabet (b64_encoding (nopad alphabet) d) = Some d.
Proof.
  assert (B00 : byte 0) by (unfold byte; lia).
  assert (Hv : forall v, 0 <= v < 64 -> b64_value alphabet (b64_char (nopad alphabet) v) = Some v).
  { intros v Hv. rewrite nopad_char. by apply b64_value_char. }
  assert (Hnp : forall n, pad_if (nopad alphabet) n = []) by (by destruct alphabet).
  induction d as [|x|x y|x y z l IH] using triples_ind; intros Hb.
  - done.
  - inversion_clear Hb as [|? ? Hx _].
    pose proof (triple_bounds x 0 0 Hx B00 B00) as (V0 & _ & _ & _ & V1 & _).
    pose proof (sextets_join x 0 0 Hx B00 B00) as (J0 & _). rewrite Z.add_0_r in J0.
    cbn [b64_encoding]. rewrite Hnp. cbn [app b64_content]. rewrite !Hv by done. cbn [mbind option_bind].
    by rewrite Z.mul_comm, Z.mul_comm in J0; rewrite (Z.mod_mul (x mod 4) 16), J0 by lia.
  - inversion_clear Hb as [|? ? Hx Hb']. inversion_clear Hb' as [|? ? Hy _].
    pose proof (triple_bounds x y 0 Hx Hy B00) as (V0 & V1 & _ & _ & _ & V2).
    pose proof (sextets_join x y 0 Hx Hy B00) as (J0 & J1 & _). rewrite Z.add_0_r in J1.
    cbn [b64_encoding]. rewrite Hnp. cbn [app b64_content]. rewrite !Hv by done. cbn [mbind option_bind].
    by rewrite (Z.mod_mul (y mod 16) 4), J0, J1 by lia.
  - inversion_clear Hb as [|? ? Hx Hb']. inversion_clear Hb' as [|? ? Hy Hb]. inversion_clear Hb as [|? ? Hz Hl].
    pose proof (triple_bounds x y z Hx Hy Hz) as (V0 & V1 & V2 & V3 & _).
    pose proof (sextets_join x y z Hx Hy Hz) as (J0 & J1 & J2).
    cbn [b64_encoding app b64_content]. rewrite !Hv by done. cbn [mbind option_bind].
    rewrite IH by done. cbn [mbind option_bind app]. by rewrite J0, J1, J2.
Qed.

Lemma bytes_join v0 v1 v2 v3 : 0 <= v0 < 64 -> 0 <= v1 < 64 -> 0 <= v2 < 64 -> 0 <= v3 < 64 ->
  let b0 := v0 * 4 + v1 / 16 in let b1 := v1 mod 16 * 16 + v2 / 4 in let b2 := v2 mod 4 * 64 + v3 in
  (byte b0 /\ byte b1 /\ byte b2) /\
  b0 / 4 = v0 /\ b0 mod 4 * 16 + b1 / 16 = v1 /\ b1 mod 16 * 4 + b2 / 64 = v2 /\ b2 mod 64 = v3.
Proof.
  intros H0 H1 H2 H3. cbv zeta. unfold byte.
  assert (D1 : 0 <= v1 / 16 < 4) by (split; [apply Z.div_pos|apply Z.div_lt_upper_bound]; lia).
  assert (D2 : 0 <= v2 / 4 < 16) by (split; [apply Z.div_pos|apply Z.div_lt_upper_bound]; lia).
  pose proof (Z.mod_pos_bound v1 16 ltac:(lia)). pose proof (Z.mod_pos_bound v2 4 ltac:(lia)).
  split; [lia|]. rewrite !Z.div_add_l by lia.
  rewrite (Z.div_small (v1 / 16)), (Z.div_small (v2 / 4)), (Z.div_small v3) by lia.
  rewrite (Z.add_comm (v0 * 4)), (Z.add_comm (v1 mod 16 * 16)), (Z.add_comm (v2 mod 4 * 64)), !Z.mod_add by lia.
  rewrite (Z.mod_small (v1 / 16)), (Z.mod_small (v2 / 4)), (Z.mod_small v3) by lia.
  pose proof (Z.div_mod v1 16). pose proof (Z.div_mod v2 4). lia.
Qed.

(** The content decoder accepts only canonical encodings. *)
Lemma encoding_content alphabet c d : b64_content alphabet c = Some d ->
  bytes d /\ b64_encoding (nopad alphabet) d = c.
Proof.
  assert (Hnp : forall n, pad_if (nopad alphabet) n = []) by (by destruct alphabet).
  assert (Hch : forall x v, b64_value alphabet x = Some v -> 0 <= v < 64 /\ b64_char (nopad alphabet) v = x).
  { intros x v Hv. split; [by eapply b64_value_bound|]. rewrite nopad_char. by apply b64_char_value. }
  revert d. induction c as [|x|x y|x y z|x y z w l IH] using quads_ind; intros d Hd; cbn [b64_content] in Hd.
  - simplify_eq. by split; [constructor|].
  - done.
  - destruct (b64_value alphabet x) as [v0|] eqn:E0, (b64_value alphabet y) as [v1|] eqn:E1; try done.
    cbn [mbind option_bind] in Hd. destruct (Z.eqb_spec (v1 mod 16) 0) as [Hz|]; [|done]. simplify_eq.
    apply Hch in E0 as [V0 C0], E1 as [V1 C1].
    destruct (bytes_join v0 v1 0 0 V0 V1 ltac:(lia) ltac:(lia)) as [(B0 & _) (J0 & J1 & _)].
    split; [repeat (constructor; [assumption|]); first [assumption|constructor]|]. cbn [b64_encoding app]. rewrite Hnp.
    rewrite Hz in J1. simpl in J1. rewrite Z.add_0_r in J1. by rewrite J0, J1, C0, C1.
  - destruct (b64_value alphabet x) as [v0|] eqn:E0, (b64_value alphabet y) as [v1|] eqn:E1,
      (b64_value alphabet z) as [v2|] eqn:E2; try done.
    cbn [mbind option_bind] in Hd. destruct (Z.eqb_spec (v2 mod 4) 0) as [Hz|]; [|done]. simplify_eq.
    apply Hch in E0 as [V0 C0], E1 as [V1 C1], E2 as [V2 C2].
    destruct (bytes_join v0 v1 v2 0 V0 V1 V2 ltac:(lia)) as [(B0 & B1 & _) (J0 & J1 & J2 & _)].
    split; [repeat (constructor; [assumption|]); first [assumption|constructor]|]. cbn [b64_encoding app]. rewrite Hnp.
    rewrite Hz in J2. simpl in J2. rewrite Z.add_0_r in J2. by rewrite J0, J1, J2, C0, C1, C2.
  - destruct (b64_value alphabet x) as [v0|] eqn:E0, (b64_value alphabet y) as [v1|] eqn:E1,
      (b64_value alphabet z) as [v2|] eqn:E2, (b64_value alphabet w) as [v3|] eqn:E3; try done.
    cbn [mbind option_bind] in Hd. destruct (b64_content alphabet l) as [r|] eqn:Er; [|done].
    cbn [mbind option_bind] in Hd. simplify_eq. destruct (IH r eq_refl) as [Hr He].
    apply Hch in E0 as [V0 C0], E1 as [V1 C1], E2 as [V2 C2], E3 as [V3 C3].
    destruct (bytes_join v0 v1 v2 v3 V0 V1 V2 V3) as [(B0 & B1 & B2) (J0 & J1 & J2 & J3)].
    split; [repeat (constructor; [assumption|]); first [assumption|constructor]|]. cbn [b64_encoding app]. by rewrite J0, J1, J2, J3, C0, C1, C2, C3, He.
Qed.

Lemma content_no_pad alphabet c d : b64_content alphabet c = Some d ->
  c !! (length c - 1)%nat <> Some PAD /\ (length c mod 4 <> 1)%nat.
Proof.
  intros H. apply encoding_content in H as [Hd <-].
  assert (Hall : Forall (fun x => x <> PAD) (b64_encoding (nopad alphabet) d) /\
    (length (b64_encoding (nopad alphabet) d) mod 4 <> 1)%nat).
  { assert (B00 : byte 0) by (unfold byte; lia). clear -Hd B00.
    assert (Hnp : forall n, pad_if (nopad alphabet) n = []) by (by destruct alphabet).
    induction d as [|x|x y|x y z l IH] using triples_ind.
    - by split; [constructor|].
    - inversion_clear Hd as [|? ? Hx _]. pose proof (triple_bounds x 0 0 Hx B00 B00) as (V0 & _ & _ & _ & V1 & _).
      cbn [b64_encoding]. rewrite Hnp. split; [|done]. repeat constructor; by apply b64_char_byte.
    - inversion_clear Hd as [|? ? Hx Hb']. inversion_clear Hb' as [|? ? Hy _].
      pose proof (triple_bounds x y 0 Hx Hy B00) as (V0 & V1 & _ & _ & _ & V2).
      cbn [b64_encoding]. rewrite Hnp. split; [|done]. repeat constructor; by apply b64_char_byte.
    - inversion_clear Hd as [|? ? Hx Hb']. inversion_clear Hb' as [|? ? Hy Hb]. inversion_clear Hb as [|? ? Hz Hl].
      pose proof (triple_bounds x y z Hx Hy Hz) as (V0 & V1 & V2 & V3 & _).
      destruct (IH Hl) as [IH1 IH2]. cbn [b64_encoding app length]. split.
      + repeat (constructor; [by apply b64_char_byte|]). done.
      + match goal with |- (S (S (S (S ?n))) mod 4 <> 1)%nat =>
          replace (S (S (S (S n)))) with (n + 1 * 4)%nat by lia end.
        by rewrite Nat.Div0.mod_add. }
  destruct Hall as [Hall Hm]. split; [|done]. intros Hlast.
  by apply (Forall_lookup_1 _ _ _ _ Hall Hlast).
Qed.

(** ** The theorems *)

Lemma bytes_encoding alphabet d : bytes d -> bytes (b64_encoding alphabet d).
Proof.
  assert (B00 : byte 0) by (unfold byte; lia).
  assert (Hp : forall n, bytes (pad_if alphabet n)).
  { intros n. unfold pad_if. destruct (is_padded alphabet); [|constructor].
    apply Forall_replicate. unfold byte, PAD. lia. }
  induction d as [|x|x y|x y z l IH] using triples_ind; intros Hd.
  - constructor.
  - inversion_clear Hd as [|? ? Hx _]. pose proof (triple_bounds x 0 0 Hx B00 B00) as (V0 & _ & _ & _ & V1 & _).
    cbn [b64_encoding app]. repeat (constructor; [by apply b64_char_byte|]). apply Hp.
  - inversion_clear Hd as [|? ? Hx Hb']. inversion_clear Hb' as [|? ? Hy _].
    pose proof (triple_bounds x y 0 Hx Hy B00) as (V0 & V1 & _ & _ & _ & V2).
    cbn [b64_encoding app]. repeat (constructor; [by apply b64_char_byte|]). apply Hp.
  - inversion_clear Hd as [|? ? Hx Hb']. inversion_clear Hb' as [|? ? Hy Hb]. inversion_clear Hb as [|? ? Hz Hl].
    pose proof (triple_bounds x y z Hx Hy Hz) as (V0 & V1 & V2 & V3 & _).
    cbn [b64_encoding app]. repeat (constructor; [by apply b64_char_byte|]). by apply IH.
Qed.

Lemma length_encoding_le alphabet d : (length (b64_encoding alphabet d) <= 4 * length d)%nat.
Proof.
  induction d as [|x|x y|x y z l IH] using triples_ind;
    [by destruct alphabet; simpl; lia..|]. cbn [b64_encoding app length]. lia.
Qed.

(** The pads of an encoding fill the last group. *)
Lemma pads_fill n : (n mod 4 <> 1)%nat -> true = true /\ ((4 - n mod 4) mod 4 <= 2)%nat /\
  ((n + (4 - n mod 4) mod 4) mod 4 = 0)%nat.
Proof.
  intros Hm. pose proof (Nat.div_mod_eq n 4) as Hn. pose proof (Nat.mod_upper_bound n 4 ltac:(lia)).
  set (r := (n mod 4)%nat) in *. rewrite Hn.
  assert (r = 0 \/ r = 2 \/ r = 3)%nat as [E|[E|E]] by lia; rewrite E; (split; [done|]).
  - split; [simpl; lia|]. change ((4 - 0) mod 4)%nat with 0%nat. rewrite !Nat.add_0_r, Nat.mul_comm. apply Nat.Div0.mod_mul.
  - split; [simpl; lia|]. change ((4 - 2) mod 4)%nat with 2%nat. replace (4 * (n / 4) + 2 + 2)%nat with ((n / 4 + 1) * 4)%nat by lia. apply Nat.Div0.mod_mul.
  - split; [simpl; lia|]. change ((4 - 3) mod 4)%nat with 1%nat. replace (4 * (n / 4) + 3 + 1)%nat with ((n / 4 + 1) * 4)%nat by lia. apply Nat.Div0.mod_mul.
Qed.

Lemma encode_eq alphabet data : bytes data -> Z.of_nat (length data) < 2 ^ 63 ->
  encode data alphabet = Some (b64_encoding alphabet data).
Proof.
  intros Hd Hlt. unfold encode, encode_into. rewrite encoded_length_spec by done. cbn [mbind option_bind].
  by rewrite Nat2Z.id, b64_encode_into_constant_time_wp by (done || apply length_replicate).
Qed.

(** The base64 encoder produces the RFC 4648 encoding in each of the four
    alphabets, rejects a buffer of any other size without writing, and the
    allocating and appending forms agree with it. *)
Theorem base64_encode_correct output data alphabet prefix : bytes data ->
  Z.of_nat (length data) < 2 ^ 63 ->
  encode_into_constant_time output data alphabet
  = Some (if (length output =? length (b64_encoding alphabet data))%nat
          then (b64_encoding alphabet data, Ok tt) else (output, Err InvalidOutputLength)) /\
  encode data alphabet = Some (b64_encoding alphabet data) /\
  encode_into_string prefix data alphabet = Some (prefix ++ b64_encoding alphabet data).
Proof.
  intros Hd Hlt. split_and!; [|by apply encode_eq|].
  - destruct (Nat.eqb_spec (length output) (length (b64_encoding alphabet data))) as [E|E].
    + by rewrite b64_encode_into_constant_time_wp.
    + unfold encode_into_constant_time, check_encode_output_length.
      rewrite encoded_length_spec by done.
      by destruct (Z.eqb_spec (Z.of_nat (length output)) (Z.of_nat (length (b64_encoding alphabet data)))); [lia|].
  - unfold encode_into_string, encode_into. rewrite encoded_length_spec by done. cbn [mbind option_bind].
    rewrite Nat2Z.id. destruct (Z.leb_spec (Z.of_nat (length (b64_encoding alphabet data))) 256).
    + unfold slice. rewrite decide_True by (rewrite length_replicate; lia). cbn [mbind option_bind].
      rewrite b64_encode_into_constant_time_wp; [done..|].
      rewrite length_take, length_drop, length_replicate. lia.
    + by rewrite b64_encode_into_constant_time_wp by (done || apply length_replicate).
Qed.

(** What the decoder accepts: valid content followed by no pads or, in a padded
    alphabet, by the pads that fill the last group of four. *)
Lemma decode_accepts s alphabet d : bytes s -> Z.of_nat (length s) < 2 ^ 63 ->
  (exists r, decode s alphabet = Some r) /\
  (decode s alphabet = Some (Ok d) <->
   exists content p, s = content ++ replicate p PAD /\
     (p = 0%nat \/ (is_padded alphabet = true /\ (p <= 2)%nat /\ (length s mod 4 = 0)%nat)) /\
     b64_content alphabet content = Some d).
Proof.
  intros Hs Hlt. rewrite decode_eq by done.
  destruct (strip_total s (is_padded alphabet)) as (r & Hr & Hp). split; [rewrite Hr; by eexists|]. split.
  - rewrite Hr. cbn [mbind option_bind]. destruct r as [[n p]|e]; [|congruence].
    destruct Hp as (Hnp & Hdrop & Hp). destruct (n mod 4 =? 1)%nat; [congruence|].
    destruct (b64_content alphabet (take n s)) as [d'|] eqn:E; [|congruence]. intros [= ->].
    exists (take n s), p. split; [by rewrite <- Hdrop, take_drop|done].
  - intros (c & p & -> & Hpad & Hc). destruct (content_no_pad _ _ _ Hc) as [Hlast Hm].
    rewrite strip_complete by done. cbn [mbind option_bind].
    by rewrite take_app_length, (proj2 (Nat.eqb_neq _ _) Hm), Hc.
Qed.

Lemma pad_count_unique n p : (1 <= p <= 2)%nat -> ((n + p) mod 4 = 0)%nat -> ((4 - n mod 4) mod 4 = p)%nat.
Proof.
  intros Hp Hm. pose proof (Nat.div_mod_eq n 4). pose proof (Nat.mod_upper_bound n 4 ltac:(lia)).
  pose proof (Nat.div_mod_eq (n + p) 4). set (r := (n mod 4)%nat) in *.
  assert (r + p = 4 \/ r + p = 0)%nat as [E|E] by lia; [|lia].
  rewrite Nat.mod_small by lia. lia.
Qed.

(** C27: the base64 decoder returns on every input, and on inputs of a length the
    alphabet allows (any, without padding; a multiple of four with it) it
    accepts exactly the encodings: [decode] answers the bytes [d] if and only if
    the input is the encoding of [d], to the last unused bit and pad.  Shorter
    padding than that is a separate theorem ([base64_missing_padding_accepted]). *)
Theorem base64_decode_iff s alphabet d : bytes s -> Z.of_nat (length s) < 2 ^ 63 ->
  (exists r, decode s alphabet = Some r) /\
  ((is_padded alphabet = true -> (length s mod 4 = 0)%nat) ->
   decode s alphabet = Some (Ok d) <-> bytes d /\ s = b64_encoding alphabet d).
Proof.
  intros Hs Hlt. destruct (decode_accepts s alphabet d Hs Hlt) as [Hr Hiff]. split; [done|]. intros Hm. rewrite Hiff. split.
  - intros (c & p & -> & Hp & Hc). apply encoding_content in Hc as [Hd <-]. split; [done|].
    rewrite (encoding_split alphabet d). f_equal. unfold pad_if. rewrite length_app, length_replicate in *.
    destruct Hp as [->|(Hpad & Hp & Hlen)]; [destruct (is_padded alphabet) eqn:E; [|done]|rewrite Hpad].
    + rewrite Nat.add_0_r in Hm. by rewrite (Hm eq_refl).
    + destruct p as [|p]; [rewrite Nat.add_0_r in Hlen; by rewrite Hlen|]. by rewrite (pad_count_unique _ (S p)) by lia.
  - intros [Hd ->]. set (c := b64_encoding (nopad alphabet) d).
    assert (Hc : b64_content alphabet c = Some d) by by apply content_encoding.
    destruct (content_no_pad _ _ _ Hc) as [_ Hn]. rewrite encoding_split. fold c. unfold pad_if.
    destruct (is_padded alphabet) eqn:E; [|exists c, 0%nat; auto].
    exists c, ((4 - length c mod 4) mod 4)%nat. split; [done|]. split; [|done]. right.
    rewrite length_app, length_replicate. by apply pads_fill.
Qed.

(** Base64 round-trips, and decoding is canonical: data that is encoded
    decodes to itself, and a string that decodes is the encoding of its result,
    save that a padded alphabet also accepts it without its pads. *)
Theorem base64_round_trip data s d alphabet : bytes data -> Z.of_nat (length data) < 2 ^ 61 ->
  bytes s -> Z.of_nat (length s) < 2 ^ 63 -> decode s alphabet = Some (Ok d) ->
  (exists e, encode data alphabet = Some e /\ decode e alphabet = Some (Ok data)) /\
  (b64_encoding alphabet d = s \/
   exists p, is_padded alphabet = true /\ b64_encoding alphabet d = s ++ replicate p PAD).
Proof.
  intros Hd Hdl Hs Hsl Hdec. split.
  - exists (b64_encoding alphabet data). rewrite encode_eq by (done || lia). split; [done|].
    assert (Hlen : Z.of_nat (length (b64_encoding alphabet data)) < 2 ^ 63).
    { pose proof (length_encoding_le alphabet data). lia. }
    assert (Hb : bytes (b64_encoding alphabet data)) by (by apply bytes_encoding).
    rewrite decode_eq, encoding_split by done. set (c := b64_encoding (nopad alphabet) data) in *.
    assert (Hc : b64_content alphabet c = Some data) by (by apply content_encoding).
    destruct (content_no_pad _ _ _ Hc) as [Hlast Hm]. unfold pad_if.
    destruct (is_padded alphabet) eqn:Ep.
    + rewrite strip_complete; [|done|].
      * cbn [mbind option_bind]. by rewrite take_app_length, (proj2 (Nat.eqb_neq _ _) Hm), Hc.
      * right. rewrite length_app, length_replicate. by apply pads_fill.
    + change [] with (replicate 0 PAD). rewrite strip_complete by auto.
      cbn [mbind option_bind]. by rewrite take_app_length, (proj2 (Nat.eqb_neq _ _) Hm), Hc.
  - rewrite decode_eq in Hdec by done.
    destruct (strip_total s (is_padded alphabet)) as (r & Hr & Hp). rewrite Hr in Hdec.
    cbn [mbind option_bind] in Hdec. destruct r as [[n p]|e]; [|congruence].
    destruct Hp as (Hnp & Hdrop & Hp). destruct (n mod 4 =? 1)%nat; [congruence|].
    destruct (b64_content alphabet (take n s)) as [d'|] eqn:E; [|congruence]. simplify_eq.
    apply encoding_content in E as [_ E]. rewrite encoding_split, E, length_take_le by lia. unfold pad_if.
    destruct Hp as [->|(Hpad & Hp2 & Hm)].
    + replace (take n s) with s by (rewrite take_ge by lia; done).
      destruct (is_padded alphabet); [right; by eexists|left; apply app_nil_r].
    + rewrite Hpad. destruct p as [|p].
      * replace (take n s) with s by (rewrite take_ge by lia; done). right; by eexists.
      * left. rewrite <- Hnp in Hm. rewrite (pad_count_unique n (S p)) by lia.
        by rewrite <- Hdrop, take_drop.
Qed.

(** In a padded alphabet missing pads are accepted: ["Zg"] decodes to
    ["f"] with [Alphabet::Standard], like ["Zg=="]. *)
Theorem base64_missing_padding_accepted :
  decode [90; 103] Standard = Some (Ok [102]) /\ decode [90; 103; 61; 61] Standard = Some (Ok [102]).
Proof. split; vm_compute; reflexivity. Qed.

(** ** Concrete instances *)

Definition foobar : list Z := [102; 111; 111; 98; 97].

Lemma foobar_bytes : bytes foobar.
Proof. repeat (constructor; [unfold byte; lia|]). constructor. Qed.

Lemma base64_encode_witness : encode foobar Url = Some [90; 109; 57; 118; 89; 109; 69; 61].
Proof. apply (base64_encode_correct [] foobar Url []); [apply foobar_bytes|vm_compute; congruence]. Defined.

Lemma base64_decode_witness :
  (exists r, decode [90; 103; 61; 61] Standard = Some r) /\ decode [90; 103; 61; 61] Standard = Some (Ok [102]).
Proof.
  assert (Hb : bytes [90; 103; 61; 61]) by (repeat (constructor; [unfold byte; lia|]); constructor).
  destruct (base64_decode_iff [90; 103; 61; 61] Standard [102] Hb ltac:(simpl; lia)) as [H1 H2].
  split; [exact H1|]. apply H2; [intros _; reflexivity|]. split; [|vm_compute; reflexivity].
  repeat constructor; unfold byte; lia.
Defined.

Lemma base64_round_trip_witness :
  (exists e, encode foobar Url = Some e /\ decode e Url = Some (Ok foobar)) /\
  (b64_encoding Url [102] = [90; 103] \/
   exists p, is_padded Url = true /\ b64_encoding Url [102] = [90; 103] ++ replicate p PAD).
Proof.
  apply base64_round_trip; [apply foobar_bytes|vm_compute; congruence| |vm_compute; congruence|
    vm_compute; reflexivity].
  repeat (constructor; [unfold byte; lia|]). constructor.
Defined.

End Base64.
