(* ===== verification/ConstEq.v ===== *)
(** * constant_time_eq: comparison without early exit

    src/constant_time_eq/src/generic.rs, and the wrappers of lib.rs in a build
    without a vector implementation.  [word] is the size in bytes of the
    target's natural word type; [optimizer_hide] and [with_dit] are the identity
    on values.  Only the values are modelled, not the time. *)
From Stdlib Require Import ZArith Lia.
From stdpp Require Import base list numbers option.
From S2P Require Import Prelude Words.

Module ConstEq.

Section Generic.
(** [size_of::<Word>()]. *)
Context (word : nat).

(** [cmp_step::<T>] for a [T] of [n] bytes: the difference, and what is left
    of the two slices. *)
Definition cmp_step (n : nat) (a b : list Z) : option (Z * list Z * list Z) :=
  wa ← slice a 0 n;
  wb ← slice b 0 n;
  Some (Z.lxor (from_le wa) (from_le wb), drop n a, drop n b).

(** [let cmp = optimizer_hide(cmp_step::<T>(..) as Word); tmp |= cmp]. *)
Definition accumulate (n : nat) (s : list Z * list Z * Z) : option (list Z * list Z * Z) :=
  let '(a, b, tmp) := s in
  '(cmp, a, b) ← cmp_step n a b;
  Some (a, b, Z.lor tmp (cmp mod 2 ^ (8 * Z.of_nat word))).

Definition left_at_least (n : nat) (s : list Z * list Z * Z) : bool :=
  let '(a, _, _) := s in (n <=? length a)%nat.

Definition accumulate_if (n : nat) (s : list Z * list Z * Z) : option (list Z * list Z * Z) :=
  if left_at_least n s then accumulate n s else Some s.

Definition constant_time_eq_impl (a b : list Z) (tmp : Z) : option bool :=
  if negb (length a =? length b)%nat then Some false else
  b ← slice b 0 (length a);
  if (length a =? 0)%nat then Some (tmp =? 0) else
  let fuel := S (length a) in
  s ← while_loop fuel (left_at_least word) (accumulate word) (a, b, tmp);
  s ← while_loop fuel (left_at_least 16) (accumulate 16) s;
  s ← accumulate_if 8 s;
  s ← accumulate_if 4 s;
  s ← accumulate_if 2 s;
  '(_, _, tmp) ← accumulate_if 1 s;
  Some (tmp =? 0).

Definition constant_time_eq (a b : list Z) : option bool := constant_time_eq_impl a b 0.

(** ** The accumulator *)

Hypothesis word_ok : (0 < word)%nat.

(** What is left decides, with the accumulator, what the whole comparison is. *)
Definition Pending (a b : list Z) (tmp : Z) (s : list Z * list Z * Z) : Prop :=
  let '(a', b', tmp') := s in
  length a' = length b' /\ bytes a' /\ bytes b' /\ 0 <= tmp' /\ (tmp' = 0 /\ a' = b' <-> tmp = 0 /\ a = b).

Lemma from_le_inj x y : bytes x -> bytes y -> length x = length y -> from_le x = from_le y -> x = y.
Proof. intros Hx Hy Hl He. rewrite <- (to_from_le x Hx), <- (to_from_le y Hy). by rewrite He, Hl. Qed.

(** One block: no bit of the difference is lost when the block fits a word. *)
Lemma accumulate_wp n a b tmp s : (n <= word)%nat -> Pending a b tmp s -> left_at_least n s = true ->
  wp (accumulate n s) (fun s' => Pending a b tmp s' /\ s'.1.1 = drop n s.1.1).
Proof.
  destruct s as [[a' b'] t]. intros Hn (Hl & Ha & Hb & Ht & He) Hge. cbn [left_at_least] in Hge. apply Nat.leb_le in Hge.
  unfold accumulate, cmp_step. do 2 apply wp_bind. apply wp_slice; [lia|done|]. apply wp_bind, wp_slice; [lia|by rewrite <- Hl|].
  rewrite !drop_0, Nat.sub_0_r. cbn [wp].
  pose proof (from_le_bound (take n a') (Forall_take _ _ _ Ha)) as Ba.
  pose proof (from_le_bound (take n b') (Forall_take _ _ _ Hb)) as Bb.
  rewrite length_take, Nat.min_l in Ba, Bb by (rewrite <- ?Hl; lia).
  assert (Hpow : 256 ^ Z.of_nat n = 2 ^ (8 * Z.of_nat n)) by (rewrite Z.pow_mul_r; [done|lia|lia]).
  assert (Hle : 2 ^ (8 * Z.of_nat n) <= 2 ^ (8 * Z.of_nat word)) by (apply Z.pow_le_mono_r; lia).
  rewrite Hpow in Ba, Bb. set (x := Z.lxor _ _).
  assert (Hx : 0 <= x < 2 ^ (8 * Z.of_nat n)) by (apply lxor_nonneg_bound; [lia|done|done]).
  rewrite Z.mod_small by lia. split; [|done]. split; [by rewrite !length_drop, Hl|].
  split; [by apply Forall_drop|]. split; [by apply Forall_drop|]. split; [apply Z.lor_nonneg; lia|].
  rewrite <- He, lor_0_iff by lia. unfold x. rewrite Z.lxor_eq_0_iff. split.
  - intros [[Ht0 Hx0] Hd]. split; [done|]. rewrite <- (take_drop n a'), <- (take_drop n b'), Hd. f_equal.
    apply from_le_inj; [by apply Forall_take|by apply Forall_take|by rewrite !length_take, Hl|done].
  - intros [Ht0 ->]. done.
Qed.

Lemma accumulate_all n a b tmp s fuel : (0 < n <= word)%nat -> Pending a b tmp s -> (length s.1.1 < fuel)%nat ->
  wp (while_loop fuel (left_at_least n) (accumulate n) s) (fun s' => Pending a b tmp s' /\ left_at_least n s' = false).
Proof.
  intros Hn Hs Hf. apply (wp_while (Pending a b tmp) (fun s => length s.1.1)); [done|done| |auto].
  intros t Ht Hc. eapply wp_mono; [by apply (accumulate_wp n); [lia|..]|]. intros t' [Ht' Hd]. split; [done|].
  rewrite Hd, length_drop. destruct t as [[a' b'] x]. cbn [left_at_least] in Hc. apply Nat.leb_le in Hc. simpl. lia.
Qed.

(** The narrower blocks: at most one of each is left, and none if it is wider
    than the word. *)
Lemma accumulate_if_wp n a b tmp s : Pending a b tmp s -> (length s.1.1 < 2 * n)%nat -> (length s.1.1 < word)%nat ->
  wp (accumulate_if n s) (fun s' => Pending a b tmp s' /\ (length s'.1.1 < n)%nat /\ (length s'.1.1 < word)%nat).
Proof.
  intros Hs H2 Hw. unfold accumulate_if. destruct (left_at_least n s) eqn:Hc.
  - destruct s as [[a' b'] x]. pose proof Hc as Hc'. cbn [left_at_least] in Hc'. apply Nat.leb_le in Hc'. simpl in H2, Hw.
    eapply wp_mono; [by apply (accumulate_wp n a b tmp (a', b', x)); [lia|..]|]. intros s' [Hs' Hd]. split; [done|].
    rewrite Hd, length_drop. simpl. lia.
  - cbn [wp]. split; [done|]. destruct s as [[a' b'] x]. cbn [left_at_least] in Hc. apply Nat.leb_gt in Hc. simpl in *. lia.
Qed.

Lemma constant_time_eq_wp a b tmp : (word <= 16)%nat -> bytes a -> bytes b -> 0 <= tmp ->
  wp (constant_time_eq_impl a b tmp) (fun r => r = bool_decide (tmp = 0 /\ a = b)).
Proof.
  intros H16 Ha Hb Ht. unfold constant_time_eq_impl. destruct (Nat.eqb_spec (length a) (length b)) as [Hl|Hl]; cbn [negb].
  2: { cbn [wp]. symmetry. apply bool_decide_eq_false_2. intros [_ ->]. done. }
  apply wp_bind, wp_slice; [lia|lia|]. rewrite drop_0, Nat.sub_0_r, take_ge by lia.
  destruct (Nat.eqb_spec (length a) 0) as [H0|H0].
  { cbn [wp]. destruct a; [|done]. destruct b; [|done]. case_bool_decide as Hd; [apply Z.eqb_eq|apply Z.eqb_neq]; naive_solver. }
  assert (H : Pending a b tmp (a, b, tmp)) by (split_and!; done).
  apply wp_bind. eapply wp_mono; [by apply (accumulate_all word); [lia|exact H|simpl; lia]|].
  intros s1 [P1 L1]. assert (W1 : (length s1.1.1 < word)%nat).
  { destruct s1 as [[a1 b1] t1]. cbn [left_at_least] in L1. by apply Nat.leb_gt in L1. }
  apply wp_bind. cbn [while_loop]. replace (left_at_least 16 s1) with false.
  2: { destruct s1 as [[a1 b1] t1]. cbn [left_at_least fst] in *. symmetry. apply Nat.leb_gt. lia. }
  cbn [wp]. apply wp_bind. eapply wp_mono; [apply (accumulate_if_wp 8); [exact P1|lia|lia]|].
  intros s2 (P2 & L2 & W2). apply wp_bind. eapply wp_mono; [apply (accumulate_if_wp 4); [exact P2|lia|lia]|].
  intros s3 (P3 & L3 & W3). apply wp_bind. eapply wp_mono; [apply (accumulate_if_wp 2); [exact P3|lia|lia]|].
  intros s4 (P4 & L4 & W4). apply wp_bind. eapply wp_mono; [apply (accumulate_if_wp 1); [exact P4|lia|lia]|].
  intros [[a' b'] t'] ((Hl' & _ & _ & _ & He) & L5 & _). cbn [wp]. simpl in L5. destruct a'; [|simpl in L5; lia].
  destruct b'; [|done]. case_bool_decide as Hd; [apply Z.eqb_eq|apply Z.eqb_neq]; naive_solver.
Qed.
End Generic.

(** The comparison without early exit decides equality of byte strings: for
    every word size of a target (1, 2, 4 or 8 bytes) it returns on strings of
    any lengths, no slice is out of range, no block is wider than the word it is
    folded into, and the answer is [true] exactly on equal strings. *)
Theorem constant_time_eq_correct (word : nat) (a b : list Z) :
  word ∈ [1; 2; 4; 8]%nat -> bytes a -> bytes b ->
  constant_time_eq word a b = Some (bool_decide (a = b)).
Proof.
  intros Hw Ha Hb. assert (H : (0 < word <= 16)%nat).
  { apply list_elem_of_In in Hw. simpl in Hw. lia. }
  pose proof (wp_elim _ _ (constant_time_eq_wp word ltac:(lia) a b 0 ltac:(lia) Ha Hb ltac:(lia))) as (r & Hr & ->).
  unfold constant_time_eq. rewrite Hr. f_equal. apply bool_decide_ext. naive_solver.
Qed.

Lemma constant_time_eq_witness :
  constant_time_eq 8 (seqZ 0 19) (seqZ 0 19) = Some (bool_decide (seqZ 0 19 = seqZ 0 19)) /\
  constant_time_eq 8 (seqZ 0 19) (seqZ 0 18 ++ [255]) = Some (bool_decide (seqZ 0 19 = seqZ 0 18 ++ [255])).
Proof.
  split; apply constant_time_eq_correct; try (repeat constructor; unfold byte; lia);
    repeat (constructor; [unfold byte; lia|]); constructor.
Defined.

End ConstEq.
