(* ===== verification/Poly1305.v ===== *)
(** * crypto: the Poly1305 message authentication code

    src/crypto/src/poly1305.rs: key clamping, block absorption with 64-bit
    limbs, final reduction, and the streaming interface.  The accumulator [h]
    is three limbs.  [overflowing_add]/[overflowing_sub] wrap; a plain [+] that
    would overflow is a panic ([None]), so the theorems also show that none
    does.  [poly1305_spec] is the definition of RFC 8439. *)
From Stdlib Require Import ZArith Lia.
From stdpp Require Import base list numbers option.
From S2P Require Import Prelude Words.

Module Poly1305.

Definition R_MASK_0 : Z := 0x0ffffffc0fffffff.
Definition R_MASK_1 : Z := 0x0ffffffc0ffffffc.
Definition P_0 : Z := 0xfffffffffffffffb.
Definition P_1 : Z := 0xffffffffffffffff.
Definition P_2 : Z := 3.

(** [[u64; 3]] and [[u64; 2]]. *)
Record limbs3 := L3 { l0 : Z; l1 : Z; l2 : Z }.
Record limbs2 := L2 { k0 : Z; k1 : Z }.

Record State := mkState {
  h : limbs3;
  r : limbs2;
  s : limbs2;
  buffer : list Z;
  buffer_len : nat;
}.

(** A 64-bit [+] that must not overflow. *)
Definition chk64 (x : Z) : option Z := if x <? 2 ^ 64 then Some x else None.

Definition mul64 (a b : Z) : Z * Z :=
  let p := u128 (a * b) in (u64 p, u64 (Z.shiftr p 64)).

Definition overflowing_add (a b : Z) : Z * bool := (u64 (a + b), 2 ^ 64 <=? a + b).
Definition overflowing_sub (a b : Z) : Z * bool := (u64 (a - b), a <? b).

Definition add64 (a b carry : Z) : Z * Z :=
  let '(s1, c1) := overflowing_add a b in
  let '(s2, c2) := overflowing_add s1 carry in
  (s2, b2z c1 + b2z c2).

Definition sub64 (a b borrow : Z) : Z * Z :=
  let '(d1, c1) := overflowing_sub a b in
  let '(d2, c2) := overflowing_sub d1 borrow in
  (d2, b2z c1 + b2z c2).

Definition select64 (v x y : Z) : Z :=
  Z.lor (Z.land (notw 64 (u64 (v - 1))) x) (Z.land (u64 (v - 1)) y).

Definition add128 (a_lo a_hi b_lo b_hi : Z) : option (Z * Z) :=
  let '(lo, c) := overflowing_add a_lo b_lo in
  x ← chk64 (a_hi + b_hi);
  hi ← chk64 (x + b2z c);
  Some (lo, hi).

Definition key_init (key : list Z) : option (limbs2 * limbs2) :=
  k0 ← slice key 0 8;
  k1 ← slice key 8 16;
  k2 ← slice key 16 24;
  k3 ← slice key 24 32;
  let r0 := Z.land (from_le k0) R_MASK_0 in
  let r1 := Z.land (from_le k1) R_MASK_1 in
  Some (L2 r0 r1, L2 (from_le k2) (from_le k3)).

Definition absorb (h : limbs3) (r : limbs2) (t0 t1 : Z) (hibit : bool) : option limbs3 :=
  let '(h0, c) := add64 (l0 h) t0 0 in
  let '(h1, c) := add64 (l1 h) t1 c in
  x ← chk64 (l2 h + c);
  h2 ← chk64 (x + b2z hibit);
  let '(h0r0l, h0r0h) := mul64 h0 (k0 r) in
  let '(h1r0l, h1r0h) := mul64 h1 (k0 r) in
  let '(h2r0l, _) := mul64 h2 (k0 r) in
  let '(h0r1l, h0r1h) := mul64 h0 (k1 r) in
  let '(h1r1l, h1r1h) := mul64 h1 (k1 r) in
  let '(h2r1l, _) := mul64 h2 (k1 r) in
  let '(m0l, m0h) := (h0r0l, h0r0h) in
  '(m1l, m1h) ← add128 h1r0l h1r0h h0r1l h0r1h;
  '(m2l, m2h) ← add128 h2r0l 0 h1r1l h1r1h;
  let m3l := h2r1l in
  let t0 := m0l in
  let '(t1, c) := add64 m1l m0h 0 in
  let '(t2, c) := add64 m2l m1h c in
  let '(t3, _) := add64 m3l m2h c in
  let '(h0, h1, h2) := (t0, t1, Z.land t2 3) in
  let cc0 := Z.land t2 (notw 64 3) in
  let cc1 := t3 in
  let '(nh0, c) := add64 h0 cc0 0 in
  let '(nh1, c) := add64 h1 cc1 c in
  nh2 ← chk64 (h2 + c);
  let cc20 := Z.lor (Z.shiftr cc0 2) (u64 (Z.shiftl (Z.land cc1 3) 62)) in
  let cc21 := Z.shiftr cc1 2 in
  let '(h0, c) := add64 nh0 cc20 0 in
  let '(h1, c) := add64 nh1 cc21 c in
  h2 ← chk64 (nh2 + c);
  Some (L3 h0 h1 h2).

(** [data.as_chunks::<16>().0]: the whole blocks, in order. *)
Fixpoint as_chunks (fuel : nat) (data : list Z) : list (list Z) :=
  match fuel with
  | O => []
  | S fuel' =>
      if (length data <? 16)%nat then []
      else take 16 data :: as_chunks fuel' (drop 16 data)
  end.

Fixpoint absorb_chunks (h : limbs3) (r : limbs2) (chunks : list (list Z)) : option limbs3 :=
  match chunks with
  | [] => Some h
  | chunk :: rest =>
      a ← slice chunk 0 8;
      b ← slice chunk 8 16;
      h ← absorb h r (from_le a) (from_le b) true;
      absorb_chunks h r rest
  end.

Definition blocks (h : limbs3) (r : limbs2) (data : list Z) : option limbs3 :=
  absorb_chunks h r (as_chunks (length data) data).

Definition final_block (h : limbs3) (r : limbs2) (partial : list Z) : option limbs3 :=
  _ ← rassert (negb (length partial =? 0)%nat);
  m ← copy_at (replicate 16 0) 0 partial;
  m ← upd m (length partial) 1;
  a ← slice m 0 8;
  b ← slice m 8 16;
  absorb h r (from_le a) (from_le b) false.

Definition finish (h : limbs3) (s : limbs2) : option (list Z) :=
  let '(hmp0, b) := sub64 (l0 h) P_0 0 in
  let '(hmp1, b) := sub64 (l1 h) P_1 b in
  let '(_, b) := sub64 (l2 h) P_2 b in
  let h0 := select64 b (l0 h) hmp0 in
  let h1 := select64 b (l1 h) hmp1 in
  let '(t0, c) := add64 h0 (k0 s) 0 in
  let '(t1, _) := add64 h1 (k1 s) c in
  out ← copy_at (replicate 16 0) 0 (to_le 8 t0);
  copy_at out 8 (to_le 8 t1).

Definition new (key : list Z) : option State :=
  '(r, s) ← key_init key;
  Some (mkState (L3 0 0 0) r s (replicate 16 0) 0).

Definition update (self : State) (data : list Z) : option State :=
  '(self, offset, done) ←
    (if (0 <? buffer_len self)%nat then
       let to_copy := Nat.min (16 - buffer_len self) (length data) in
       src ← slice data 0 to_copy;
       buf ← copy_at (buffer self) (buffer_len self) src;
       let len := (buffer_len self + to_copy)%nat in
       if (len =? 16)%nat then
         h' ← blocks (h self) (r self) buf;
         Some (mkState h' (r self) (s self) buf 0, to_copy, false)
       else Some (mkState (h self) (r self) (s self) buf len, to_copy, true)
     else Some (self, 0%nat, false));
  if (done : bool) then Some self else
  let remaining := (length data - offset)%nat in
  let nblocks := (remaining / 16)%nat in
  self ← (if (0 <? nblocks)%nat then
            blocks_slice ← slice data offset (offset + nblocks * 16);
            h' ← blocks (h self) (r self) blocks_slice;
            Some (mkState h' (r self) (s self) (buffer self) (buffer_len self))
          else Some self);
  tail ← slice data (length data - remaining mod 16) (length data);
  if negb (length tail =? 0)%nat then
    buf ← copy_at (buffer self) 0 tail;
    Some (mkState (h self) (r self) (s self) buf (length tail))
  else Some self.

Definition finalize (self : State) : option (list Z) :=
  h' ← (if (0 <? buffer_len self)%nat then
          partial ← slice (buffer self) 0 (buffer_len self);
          final_block (h self) (r self) partial
        else Some (h self));
  finish h' (s self).

Definition mac (key data : list Z) : option (list Z) :=
  m ← new key;
  m ← update m data;
  finalize m.

(** ** RFC 8439 *)

Definition p : Z := 2 ^ 130 - 5.
Definition clamp_mask : Z := 0x0ffffffc0ffffffc0ffffffc0fffffff.
Definition rfc_r (key : list Z) : Z := Z.land (from_le (take 16 key)) clamp_mask.
Definition rfc_s (key : list Z) : Z := from_le (drop 16 key).

(** Absorb the message in blocks of 16 bytes, each with a one byte appended. *)
Fixpoint rfc_blocks (fuel : nat) (r a : Z) (msg : list Z) : Z :=
  match fuel with
  | O => a
  | S fuel' =>
      if (length msg =? 0)%nat then a
      else rfc_blocks fuel' r ((a + from_le (take 16 msg ++ [1])) * r mod p) (drop 16 msg)
  end.

Definition poly1305_spec (key msg : list Z) : list Z :=
  to_le 16 (rfc_blocks (length msg) (rfc_r key) 0 msg + rfc_s key).

(** ** Limb arithmetic *)

Abbreviation B := (2 ^ 64).

Lemma u64_split x : 0 <= x < 2 * B -> x = u64 x + B * b2z (B <=? x) /\ word (u64 x).
Proof.
  intros Hx. split; [|apply u64_word]. unfold u64. destruct (Z.leb_spec B x); simpl b2z.
  - rewrite <- (Z.mod_unique_pos x B 1 (x - B)); lia.
  - rewrite Z.mod_small; lia.
Qed.

Lemma add64_spec a b c : word a -> word b -> 0 <= c <= 1 ->
  exists s c', add64 a b c = (s, c') /\ s + B * c' = a + b + c /\ word s /\ 0 <= c' <= 1.
Proof.
  unfold word. intros Ha Hb Hc. unfold add64, overflowing_add.
  destruct (u64_split (a + b) ltac:(lia)) as [E1 W1]. unfold word in W1.
  destruct (u64_split (u64 (a + b) + c) ltac:(lia)) as [E2 W2]. unfold word in W2.
  eexists _, _. split; [done|]. destruct (B <=? a + b), (B <=? u64 (a + b) + c); simpl b2z in *; lia.
Qed.

Lemma sub64_spec a b c : word a -> word b -> 0 <= c <= 1 ->
  exists s c', sub64 a b c = (s, c') /\ s - B * c' = a - b - c /\ word s /\ 0 <= c' <= 1.
Proof.
  unfold word. intros Ha Hb Hc. unfold sub64, overflowing_sub.
  assert (H : forall x y, 0 <= x < B -> 0 <= y < B -> x - y = u64 (x - y) - B * b2z (x <? y) /\ 0 <= u64 (x - y) < B).
  { intros x y Hx Hy. split; [|apply u64_word]. unfold u64. destruct (Z.ltb_spec x y); simpl b2z.
    - rewrite <- (Z.mod_unique_pos (x - y) B (-1) (x - y + B)); lia.
    - rewrite Z.mod_small; lia. }
  destruct (H a b Ha Hb) as [E1 W1]. destruct (H (u64 (a - b)) c W1 ltac:(lia)) as [E2 W2].
  eexists _, _. split; [done|]. destruct (a <? b), (u64 (a - b) <? c); simpl b2z in *; lia.
Qed.

Lemma mul64_spec a b : word a -> word b ->
  exists l g, mul64 a b = (l, g) /\ l + B * g = a * b /\ word l /\ word g.
Proof.
  unfold word. intros Ha Hb. unfold mul64. assert (Hp : 0 <= a * b < B * B) by nia.
  unfold u128. rewrite (Z.mod_small (a * b)) by (change (2 ^ 128) with (B * B); lia).
  eexists _, _. split; [done|]. rewrite shiftr_div by lia. set (q := a * b) in *.
  assert (0 <= q / B < B) by (split; [apply Z.div_pos; lia|apply Z.div_lt_upper_bound; lia]).
  unfold u64. rewrite (Z.mod_small (q / B)) by lia.
  pose proof (Z.div_mod q B ltac:(lia)). pose proof (Z.mod_pos_bound q B ltac:(lia)). lia.
Qed.

Lemma chk64_wp x (Q : Z -> Prop) : x < B -> Q x -> wp (chk64 x) Q.
Proof. intros Hx HQ. unfold chk64. by rewrite (proj2 (Z.ltb_lt x B) Hx). Qed.

Lemma add128_wp al ah bl bh : word al -> word bl -> 0 <= ah < 2 ^ 62 -> 0 <= bh < 2 ^ 62 ->
  wp (add128 al ah bl bh) (fun '(l, g) => l + B * g = al + B * ah + (bl + B * bh) /\ word l /\ word g).
Proof.
  unfold word. intros Ha Hb Hah Hbh. unfold add128, overflowing_add.
  destruct (u64_split (al + bl) ltac:(lia)) as [E W]. unfold word in W.
  wp_step. apply chk64_wp; [lia|]. wp_step.
  assert (0 <= b2z (B <=? al + bl) <= 1) by (destruct (B <=? al + bl); simpl; lia).
  apply chk64_wp; [lia|]. wp_step. lia.
Qed.

(** ** Absorbing a block *)

Definition val3 (h : limbs3) : Z := l0 h + B * l1 h + B * B * l2 h.
Definition val2 (r : limbs2) : Z := k0 r + B * k1 r.

(** The accumulator between blocks, and a clamped key. *)
Definition hwf (h : limbs3) : Prop := word (l0 h) /\ word (l1 h) /\ 0 <= l2 h <= 4.
Definition rwf (r : limbs2) : Prop := 0 <= k0 r < 2 ^ 60 /\ 0 <= k1 r < 2 ^ 60.

Lemma land_not3 x : 0 <= x < B -> Z.land x (notw 64 (4 - 1)) = 4 * (x / 4).
Proof.
  intros Hx. replace (notw 64 (4 - 1)) with (Z.ldiff (Z.ones 64) (Z.ones 2)) by done.
  replace (Z.land x (Z.ldiff (Z.ones 64) (Z.ones 2))) with (Z.ldiff (Z.land x (Z.ones 64)) (Z.ones 2)).
  - rewrite Z.land_ones, Z.mod_small by lia. rewrite Z.ldiff_ones_r, Z.shiftl_mul_pow2, Z.shiftr_div_pow2 by lia. change (2 ^ 2) with 4. lia.
  - apply Z.bits_inj'. intros n Hn. rewrite !Z.ldiff_spec, !Z.land_spec, !Z.ldiff_spec. symmetry. apply andb_assoc.
Qed.

(** The folding of the high part: [cc] is four times the quotient by [2^130]. *)
Lemma fold_parts t2 t3 : word t2 -> word t3 ->
  let q := (t2 / 4 + 2 ^ 62 * t3) in
  Z.land t2 3 = t2 mod 4 /\ Z.land t2 (notw 64 3) = 4 * (t2 / 4) /\
  Z.lor (Z.shiftr (4 * (t2 / 4)) 2) (u64 (Z.shiftl (Z.land t3 3) 62)) + B * Z.shiftr t3 2 = q /\
  word (Z.lor (Z.shiftr (4 * (t2 / 4)) 2) (u64 (Z.shiftl (Z.land t3 3) 62))) /\ word (Z.shiftr t3 2).
Proof.
  unfold word. intros H2 H3. cbv zeta. change 3 with (2 ^ 2 - 1). rewrite !land_ones by lia.
  change (2 ^ 2) with 4. pose proof (Z.div_mod t2 4 ltac:(lia)). pose proof (Z.mod_pos_bound t2 4 ltac:(lia)).
  pose proof (Z.div_mod t3 4 ltac:(lia)). pose proof (Z.mod_pos_bound t3 4 ltac:(lia)).
  rewrite !shiftr_div, shiftl_mul by lia. change (2 ^ 2) with 4.
  replace (4 * (t2 / 4) / 4) with (t2 / 4) by (rewrite Z.mul_comm, Z.div_mul; lia).
  unfold u64. rewrite (Z.mod_small (t3 mod 4 * 2 ^ 62)) by lia.
  rewrite Z.lor_comm, (lor_add _ _ 62) by (lia || apply Z.mod_mul; lia).
  split; [done|]. split; [|lia]. apply land_not3. lia.
Qed.

(** Use the specification of the next word operation. *)
Ltac use_add64 s c E := 
  match goal with |- context [add64 ?a ?b ?d] =>
    let W := fresh "W" in let C := fresh "C" in
    destruct (add64_spec a b d) as (s & c & -> & E & W & C); [unfold word in *; lia..|]
  end; cbn beta iota zeta.
Ltac use_mul64 l g E :=
  match goal with |- context [mul64 ?a ?b] =>
    let W := fresh "W" in let G := fresh "G" in
    destruct (mul64_spec a b) as (l & g & -> & E & W & G); [unfold word in *; lia..|]
  end; cbn beta iota zeta.

(** A product with a clamped word, and with a small one. *)
Lemma mul_clamped a b l g : 0 <= a < B -> 0 <= b < 2 ^ 60 -> l + B * g = a * b -> 0 <= l < B -> g < 2 ^ 60.
Proof. nia. Qed.

Lemma mul_small a b l g : 0 <= a <= 6 -> 0 <= b < 2 ^ 60 -> l + B * g = a * b -> 0 <= l < B -> 0 <= g -> g = 0.
Proof. nia. Qed.

Lemma wide_bound x y : 0 <= x < 7 * (B * B) -> 0 <= y < 2 ^ 60 * (B + 1) -> 0 <= x * y < 2 ^ 255.
Proof.
  intros Hx Hy. split; [nia|]. apply Z.lt_le_trans with (7 * (B * B) * (2 ^ 60 * (B + 1))); [|lia].
  apply Z.mul_lt_mono_nonneg; lia.
Qed.

(** The folded value is congruent to the product modulo [2^130 - 5]. *)
Lemma fold_mod low q T v : T = low + 2 ^ 130 * q -> v = low + 5 * q -> v mod p = T mod p.
Proof.
  intros -> ->. replace (low + 2 ^ 130 * q) with (low + 5 * q + q * p) by (unfold p; lia).
  symmetry. apply Z.mod_add. unfold p. lia.
Qed.

Lemma absorb_wp h r t0 t1 hibit : hwf h -> rwf r -> word t0 -> word t1 ->
  wp (absorb h r t0 t1 hibit) (fun h' => hwf h' /\
    val3 h' mod p = (val3 h + (t0 + B * t1 + b2z hibit * (B * B))) * val2 r mod p).
Proof.
  intros (H0 & H1 & H2) (R0 & R1) T0 T1. unfold absorb, val3, val2.
  set (r0 := k0 r) in *. set (r1 := k1 r) in *.
  assert (Hb : 0 <= b2z hibit <= 1) by (destruct hibit; simpl; lia). set (hb := b2z hibit) in *.
  use_add64 a0 c0 Ea0. use_add64 a1 c1 Ea1.
  wp_step. apply chk64_wp; [lia|]. wp_step. apply chk64_wp; [lia|].
  set (a2 := l2 h + c1 + hb) in *. assert (Ha2 : 0 <= a2 <= 6) by lia.
  use_mul64 p00 q00 E00. use_mul64 p10 q10 E10. use_mul64 p20 q20 E20.
  use_mul64 p01 q01 E01. use_mul64 p11 q11 E11. use_mul64 p21 q21 E21. unfold word in *.
  pose proof (mul_clamped a1 r0 p10 q10 ltac:(lia) R0 E10 ltac:(lia)).
  pose proof (mul_clamped a0 r1 p01 q01 ltac:(lia) R1 E01 ltac:(lia)).
  pose proof (mul_clamped a1 r1 p11 q11 ltac:(lia) R1 E11 ltac:(lia)).
  pose proof (mul_small _ _ _ _ Ha2 R0 E20 ltac:(lia) ltac:(lia)) as ->.
  pose proof (mul_small _ _ _ _ Ha2 R1 E21 ltac:(lia) ltac:(lia)) as ->.
  wp_step. eapply wp_mono; [apply add128_wp; unfold word; lia|]. intros [m1l m1h] (Em1 & Wm1 & Wm1h).
  wp_step. eapply wp_mono; [apply add128_wp; unfold word; lia|]. intros [m2l m2h] (Em2 & Wm2 & Wm2h).
  use_add64 u1 d1 Eu1. use_add64 u2 d2 Eu2. use_add64 u3 d3 Eu3. unfold word in *.
  set (T := (l0 h + B * l1 h + B * B * l2 h + (t0 + B * t1 + hb * (B * B))) * (r0 + B * r1)).
  assert (ET : T = p00 + B * u1 + B * B * u2 + B * B * B * (u3 + B * d3)).
  { replace T with ((a0 + B * a1 + B * B * a2) * (r0 + B * r1)) by (subst T a2; f_equal; lia).
    replace ((a0 + B * a1 + B * B * a2) * (r0 + B * r1)) with
      (a0 * r0 + B * (a1 * r0 + a0 * r1) + B * B * (a2 * r0 + a1 * r1) + B * B * B * (a2 * r1)) by ring. lia. }
  assert (HT : 0 <= T < 2 ^ 255) by (apply wide_bound; lia).
  assert (d3 = 0 /\ u3 < 2 ^ 63) as [-> Hu3] by lia. rewrite Z.mul_0_r, Z.add_0_r in ET.
  destruct (fold_parts u2 u3 ltac:(done) ltac:(done)) as (-> & -> & Eq & Wq0 & Wq1).
  pose proof (Z.div_mod u2 4 ltac:(lia)). pose proof (Z.mod_pos_bound u2 4 ltac:(lia)).
  set (cq0 := Z.lor _ _) in *. set (cq1 := Z.shiftr u3 2) in *.
  use_add64 n0 e0 En0. use_add64 n1 e1 En1. wp_step. apply chk64_wp; [lia|].
  use_add64 v0 f0 Ev0. use_add64 v1 f1 Ev1. wp_step. apply chk64_wp; [lia|]. wp_step. unfold hwf, word in *. simpl.
  split; [lia|]. apply (fold_mod (p00 + B * u1 + B * B * (u2 mod 4)) (u2 / 4 + 2 ^ 62 * u3)); lia.
Qed.

(** ** Blocks *)

(** The accumulator after a whole message, from [a]. *)
Definition rfc (r a : Z) (msg : list Z) : Z := rfc_blocks (length msg) r a msg.

Definition rfc_step (r a : Z) (block : list Z) : Z := (a + from_le (block ++ [1])) * r mod p.

Lemma rfc_blocks_fuel n m r a msg : (length msg <= n)%nat -> (length msg <= m)%nat ->
  rfc_blocks n r a msg = rfc_blocks m r a msg.
Proof.
  revert m a msg. induction n as [|n IH]; intros [|m] a msg Hn Hm; cbn [rfc_blocks]; try done.
  - by rewrite (proj2 (Nat.eqb_eq (length msg) 0)) by lia.
  - by rewrite (proj2 (Nat.eqb_eq (length msg) 0)) by lia.
  - destruct (Nat.eqb_spec (length msg) 0); [done|]. apply IH; rewrite length_drop; lia.
Qed.

Lemma rfc_cons r a msg : msg <> [] -> rfc r a msg = rfc r (rfc_step r a (take 16 msg)) (drop 16 msg).
Proof.
  intros Hne. unfold rfc at 1. destruct msg as [|x msg]; [done|]. cbn [length rfc_blocks Nat.eqb].
  apply rfc_blocks_fuel; [rewrite length_drop; simpl; lia|done].
Qed.

(** Whole blocks first. *)
Lemma rfc_app r n : forall a x y, length x = (16 * n)%nat -> rfc r a (x ++ y) = rfc r (rfc r a x) y.
Proof.
  induction n as [|n IH]; intros a x y Hx.
  - by destruct x; [|simpl in Hx; lia].
  - assert (x <> []) by (intros ->; simpl in Hx; lia).
    rewrite (rfc_cons r a (x ++ y)) by (destruct x; done). rewrite (rfc_cons r a x) by done.
    rewrite take_app_le, drop_app_le by lia. apply IH. rewrite length_drop. lia.
Qed.

Lemma word_le8 l : bytes l -> length l = 8%nat -> word (from_le l).
Proof. intros Hb Hl. pose proof (from_le_bound l Hb) as H. rewrite Hl in H. exact H. Qed.

Lemma from_le_16 c : length c = 16%nat -> from_le c = from_le (take 8 c) + B * from_le (drop 8 c).
Proof.
  intros Hc. rewrite <- (take_drop 8 c) at 1. rewrite from_le_app, length_take_le by lia. done.
Qed.

(** The two words of a block. *)
Lemma halves (c : list Z) : length c = 16%nat -> slice c 0 8 = Some (take 8 c) /\ slice c 8 16 = Some (drop 8 c).
Proof.
  intros Hc. unfold slice. rewrite !decide_True by lia. split; [done|].
  by rewrite take_ge by (rewrite length_drop; lia).
Qed.

Lemma as_chunks_fuel n m data : (length data <= n)%nat -> (length data <= m)%nat ->
  as_chunks n data = as_chunks m data.
Proof.
  revert m data. induction n as [|n IH]; intros [|m] data Hn Hm; cbn [as_chunks]; try done.
  - by rewrite (proj2 (Nat.ltb_lt (length data) 16)) by lia.
  - by rewrite (proj2 (Nat.ltb_lt (length data) 16)) by lia.
  - destruct (Nat.ltb_spec (length data) 16); [done|]. f_equal. apply IH; rewrite length_drop; lia.
Qed.

Lemma as_chunks_cons data : (16 <= length data)%nat ->
  as_chunks (length data) data = take 16 data :: as_chunks (length (drop 16 data)) (drop 16 data).
Proof.
  intros Hl. destruct data as [|x data]; [simpl in Hl; lia|].
  change (as_chunks (length (x :: data)) (x :: data)) with
    (if (length (x :: data) <? 16)%nat then [] else take 16 (x :: data) :: as_chunks (length data) (drop 16 (x :: data))).
  rewrite (proj2 (Nat.ltb_ge _ _) Hl). f_equal. apply as_chunks_fuel; rewrite length_drop; simpl; lia.
Qed.

Lemma absorb_chunks_wp n : forall h r data, hwf h -> rwf r -> bytes data -> length data = (16 * n)%nat ->
  wp (absorb_chunks h r (as_chunks (length data) data))
     (fun h' => hwf h' /\ val3 h' mod p = rfc (val2 r) (val3 h mod p) data).
Proof.
  induction n as [|n IH]; intros h r data Hh Hr Hd Hl.
  - by destruct data; [|simpl in Hl; lia].
  - rewrite (as_chunks_cons data) by lia. cbn [absorb_chunks].
    assert (Hc : length (take 16 data) = 16%nat) by (rewrite length_take; lia).
    assert (Hb : bytes (take 16 data)) by (by apply Forall_take).
    destruct (halves _ Hc) as [-> ->]. cbn [mbind option_bind].
    wp_step. eapply wp_mono.
    { apply absorb_wp; [done|done|apply word_le8; [by apply Forall_take|rewrite length_take; lia]|
        apply word_le8; [by apply Forall_drop|rewrite length_drop; lia]]. }
    intros h' [Hh' He]. rewrite (rfc_cons _ _ data) by (intros ->; simpl in Hl; lia).
    eapply wp_mono; [apply IH; [done|done|by apply Forall_drop|rewrite length_drop; lia]|].
    intros h2 [Hh2 ->]. split; [done|]. f_equal. unfold rfc_step. rewrite He, from_le_app, Hc, (from_le_16 _ Hc).
    rewrite <- Z.mul_mod_idemp_l, <- Z.add_mod_idemp_l, Z.mul_mod_idemp_l by (unfold p; lia).
    simpl b2z. simpl from_le. by do 2 f_equal.
Qed.

Lemma blocks_wp h r data n : hwf h -> rwf r -> bytes data -> length data = (16 * n)%nat ->
  wp (blocks h r data) (fun h' => hwf h' /\ val3 h' mod p = rfc (val2 r) (val3 h mod p) data).
Proof. intros. by apply (absorb_chunks_wp n). Qed.

(** The trailing block is padded with a one byte, and zeros. *)
Lemma from_le_zeros n : from_le (replicate n 0) = 0.
Proof. induction n as [|n IH]; [done|]. simpl. rewrite IH. done. Qed.

Lemma padded_block (l : list Z) : (0 < length l < 16)%nat -> bytes l ->
  exists m, (m ← copy_at (replicate 16 0) 0 l; upd m (length l) 1) = Some m /\
    length m = 16%nat /\ bytes m /\ from_le m = from_le (l ++ [1]).
Proof.
  intros Hl Hb. exists ((l ++ [1]) ++ replicate (15 - length l) 0).
  unfold copy_at, upd. rewrite decide_True by (rewrite length_replicate; lia). cbn [mbind option_bind].
  rewrite decide_True by (rewrite take_0, app_nil_l, length_app, length_drop, length_replicate; lia).
  split_and!.
  - f_equal. rewrite take_0, app_nil_l, Nat.add_0_l, insert_app_r_alt, Nat.sub_diag by lia.
    rewrite drop_replicate. replace (16 - length l)%nat with (S (15 - length l)) by lia. simpl. by rewrite <- app_assoc.
  - rewrite !length_app, length_replicate. simpl. lia.
  - apply Forall_app. split; [apply Forall_app; split; [done|repeat constructor; done]|].
    apply Forall_replicate. unfold byte. lia.
  - rewrite from_le_app, from_le_zeros. lia.
Qed.

Lemma final_block_wp h r l : hwf h -> rwf r -> bytes l -> (0 < length l < 16)%nat ->
  wp (final_block h r l) (fun h' => hwf h' /\ val3 h' mod p = rfc_step (val2 r) (val3 h mod p) l).
Proof.
  intros Hh Hr Hb Hl. unfold final_block. wp_step. apply wp_assert.
  { destruct (Nat.eqb_spec (length l) 0); [lia|done]. }
  destruct (padded_block l Hl Hb) as (m & Hm & Hml & Hmb & Hmv).
  destruct (copy_at (replicate 16 0) 0 l) as [m0|]; [|done]. cbn [mbind option_bind] in Hm |- *.
  rewrite Hm. cbn [mbind option_bind]. destruct (halves _ Hml) as [-> ->]. cbn [mbind option_bind].
  eapply wp_mono.
  { apply absorb_wp; [done|done|apply word_le8; [by apply Forall_take|rewrite length_take; lia]|
      apply word_le8; [by apply Forall_drop|rewrite length_drop; lia]]. }
  intros h' [Hh' He]. split; [done|]. unfold rfc_step. rewrite He, <- Hmv, (from_le_16 _ Hml).
  rewrite <- Z.mul_mod_idemp_l, <- Z.add_mod_idemp_l, Z.mul_mod_idemp_l by (unfold p; lia).
  do 2 f_equal. simpl b2z. lia.
Qed.

(** ** The tag *)

Lemma to_le_mod n x : to_le n (x mod 256 ^ Z.of_nat n) = to_le n x.
Proof.
  rewrite <- from_to_le. rewrite <- (length_to_le n x) at 1. apply to_from_le, bytes_to_le.
Qed.

Lemma to_le_halves t0 t1 : word t0 -> word t1 -> to_le 8 t0 ++ to_le 8 t1 = to_le 16 (t0 + B * t1).
Proof.
  unfold word. intros H0 H1. rewrite <- (to_from_le (to_le 8 t0 ++ to_le 8 t1))
    by (apply Forall_app; split; apply bytes_to_le).
  rewrite length_app, !length_to_le, from_le_app, !from_to_le, length_to_le.
  change (256 ^ Z.of_nat 8) with B. by rewrite !Z.mod_small by lia.
Qed.

Lemma select64_spec v x y : 0 <= v <= 1 -> word x -> word y -> select64 v x y = if v =? 1 then x else y.
Proof.
  unfold word. intros Hv Hx Hy. unfold select64. assert (v = 0 \/ v = 1) as [-> | ->] by lia.
  - change (u64 (0 - 1)) with (2 ^ 64 - 1). change (notw 64 (2 ^ 64 - 1)) with 0.
    rewrite Z.land_0_l, Z.lor_0_l, Z.land_comm, land_ones by lia. by apply Z.mod_small.
  - change (u64 (1 - 1)) with 0. change (notw 64 0) with (2 ^ 64 - 1).
    rewrite Z.land_0_l, Z.lor_0_r, Z.land_comm, land_ones by lia. by apply Z.mod_small.
Qed.

Lemma finish_wp h s : hwf h -> word (k0 s) -> word (k1 s) ->
  finish h s = Some (to_le 16 (val3 h mod p + val2 s)).
Proof.
  intros (H0 & H1 & H2) S0 S1. unfold finish.
  destruct (sub64_spec (l0 h) P_0 0) as (d0 & b0 & -> & E0 & W0 & C0); [done|done|lia|].
  destruct (sub64_spec (l1 h) P_1 b0) as (d1 & b1 & -> & E1 & W1 & C1); [done|done|lia|].
  destruct (sub64_spec (l2 h) P_2 b1) as (d2 & b2 & -> & E2 & W2 & C2); [unfold word; lia|done|lia|].
  rewrite !select64_spec by (done || lia).
  set (h0 := if b2 =? 1 then l0 h else d0). set (h1 := if b2 =? 1 then l1 h else d1).
  assert (Hh0 : word h0) by (subst h0; by destruct (b2 =? 1)).
  assert (Hh1 : word h1) by (subst h1; by destruct (b2 =? 1)).
  assert (Hv : exists k, val3 h mod p = h0 + B * h1 + B * B * k).
  { unfold word, P_0, P_1, P_2, val3 in *. subst h0 h1.
    assert (b2 = 0 \/ b2 = 1) as [-> | ->] by lia; simpl.
    - exists d2. symmetry. apply (Z.mod_unique_pos _ _ 1); unfold p; lia.
    - exists (l2 h). apply Z.mod_small. unfold p. lia. }
  destruct Hv as [k Hv].
  destruct (add64_spec h0 (k0 s) 0) as (t0 & c & -> & F0 & T0 & D0); [done|done|lia|].
  destruct (add64_spec h1 (k1 s) c) as (t1 & c' & -> & F1 & T1 & D1); [done|done|lia|].
  unfold copy_at. rewrite decide_True by (rewrite length_to_le, length_replicate; lia). cbn [mbind option_bind].
  rewrite take_0, app_nil_l, Nat.add_0_l, length_to_le.
  rewrite decide_True by (rewrite length_app, length_drop, length_replicate, !length_to_le; lia).
  rewrite take_app_le, take_ge by (rewrite length_to_le; lia).
  rewrite (drop_ge (_ ++ _)), app_nil_r by (rewrite length_app, length_drop, length_replicate, !length_to_le; lia).
  f_equal. rewrite to_le_halves by done. rewrite <- (to_le_mod 16), <- (to_le_mod 16 (_ + _)). f_equal.
  rewrite Hv. unfold val2. change (256 ^ Z.of_nat 16) with (B * B).
  replace (h0 + B * h1 + B * B * k + (k0 s + B * k1 s)) with (t0 + B * t1 + (k + c') * (B * B)) by lia.
  by rewrite Z.mod_add by lia.
Qed.

(** ** The key *)

Lemma testbit_cat x y i : word x -> 0 <= i ->
  Z.testbit (x + B * y) i = if i <? 64 then Z.testbit x i else Z.testbit y (i - 64).
Proof.
  unfold word. intros Hx Hi. destruct (Z.ltb_spec i 64).
  - rewrite <- (Z.mod_pow2_bits_low (x + B * y) 64) by lia.
    rewrite Z.mul_comm, Z.mod_add, Z.mod_small by lia. done.
  - rewrite <- (Z.sub_add 64 i) at 1. rewrite <- Z.div_pow2_bits by lia.
    rewrite Z.mul_comm, Z.div_add, Z.div_small by lia. done.
Qed.

Lemma word_land a b : word a -> word b -> word (Z.land a b).
Proof.
  unfold word. intros Ha Hb. rewrite <- (Z.mod_small b B), <- land_ones, Z.land_assoc, land_ones by lia.
  apply Z.mod_pos_bound. lia.
Qed.

Lemma land_cat a b m0 m1 : word a -> word m0 ->
  Z.land (a + B * b) (m0 + B * m1) = Z.land a m0 + B * Z.land b m1.
Proof.
  intros Ha Hm. apply Z.bits_inj'. intros i Hi.
  rewrite Z.land_spec, !testbit_cat by (done || by apply word_land).
  by destruct (i <? 64); rewrite Z.land_spec.
Qed.

Lemma land_60 x m : m = Z.land m (Z.ones 60) -> 0 <= Z.land x m < 2 ^ 60.
Proof. intros ->. rewrite Z.land_assoc, Z.land_ones by lia. apply Z.mod_pos_bound. lia. Qed.

Lemma key_init_spec key : bytes key -> length key = 32%nat ->
  exists r s, key_init key = Some (r, s) /\ rwf r /\ word (k0 s) /\ word (k1 s) /\
    val2 r = rfc_r key /\ val2 s = rfc_s key.
Proof.
  intros Hb Hl. unfold key_init, slice. rewrite !decide_True by lia. cbn [mbind option_bind].
  eexists _, _. split; [done|]. unfold rwf, val2, rfc_r, rfc_s. simpl k0. simpl k1.
  assert (Hw : forall n, (n + 8 <= 32)%nat -> word (from_le (take 8 (drop n key)))).
  { intros n Hn. apply word_le8; [by apply Forall_take, Forall_drop|rewrite length_take, length_drop; lia]. }
  split; [split; apply land_60; done|]. split; [apply (Hw 16%nat); lia|]. split; [apply (Hw 24%nat); lia|]. split.
  - rewrite (from_le_16 (take 16 key)) by (rewrite length_take; lia).
    rewrite take_take, skipn_firstn_comm. change (8 `min` 16)%nat with 8%nat. change (16 - 8)%nat with 8%nat.
    change clamp_mask with (R_MASK_0 + B * R_MASK_1). symmetry. apply land_cat; [apply (Hw 0%nat); lia|done].
  - rewrite (from_le_16 (drop 16 key)) by (rewrite length_drop; lia). rewrite drop_drop.
    change (16 + 8)%nat with 24%nat. f_equal.
    by rewrite (take_ge (drop 24 key)) by (rewrite length_drop; lia).
Qed.

(** ** The streaming interface *)

(** The state stands for the message [M] absorbed so far. *)
Definition repr (key M : list Z) (st : State) : Prop :=
  hwf (h st) /\ rwf (r st) /\ word (k0 (s st)) /\ word (k1 (s st)) /\
  val2 (r st) = rfc_r key /\ val2 (s st) = rfc_s key /\
  length (buffer st) = 16%nat /\ bytes (buffer st) /\ (buffer_len st < 16)%nat /\
  exists full n, M = full ++ take (buffer_len st) (buffer st) /\ length full = (16 * n)%nat /\
    val3 (h st) mod p = rfc (rfc_r key) 0 full.

Lemma new_wp key : bytes key -> length key = 32%nat -> wp (new key) (repr key []).
Proof.
  intros Hb Hl. unfold new. destruct (key_init_spec key Hb Hl) as (r & s & -> & Hr & H0 & H1 & Hrv & Hsv).
  cbn [mbind option_bind]. wp_step. unfold repr. simpl. split_and!; auto; try lia.
  - unfold hwf, word. simpl. lia.
  - repeat constructor; unfold byte; lia.
  - by exists [], 0%nat.
Qed.

Lemma finalize_wp key M st : repr key M st ->
  finalize st = Some (to_le 16 (rfc (rfc_r key) 0 M + rfc_s key)).
Proof.
  intros (Hh & Hr & S0 & S1 & Hrv & Hsv & Hbl & Hbb & Hlt & full & n & -> & Hn & Hv).
  unfold finalize. rewrite <- Hsv. destruct (Nat.ltb_spec 0 (buffer_len st)) as [Hpos|Hz].
  - unfold slice. rewrite decide_True by lia. cbn [mbind option_bind]. rewrite Nat.sub_0_r, drop_0.
    set (l := take (buffer_len st) (buffer st)).
    assert (Hl : length l = buffer_len st) by (subst l; rewrite length_take; lia).
    pose proof (final_block_wp (h st) (r st) l Hh Hr ltac:(by apply Forall_take) ltac:(lia)) as H.
    apply wp_elim in H as (h' & -> & Hh' & He). cbn [mbind option_bind]. rewrite finish_wp by done.
    do 3 f_equal. rewrite He, Hv, Hrv, (rfc_app _ n) by done.
    rewrite (rfc_cons _ _ l) by (intros E; rewrite E in Hl; simpl in Hl; lia).
    by rewrite (take_ge l), (drop_ge l) by lia.
  - cbn [mbind option_bind]. rewrite finish_wp by done. do 3 f_equal.
    assert (buffer_len st = 0%nat) as -> by lia. by rewrite take_0, app_nil_r.
Qed.

(** Filling the buffer from the front of [data]. *)
Lemma buffer_fill (buf data : list Z) len n : length buf = 16%nat -> (n <= length data)%nat ->
  (len + n <= 16)%nat -> bytes buf -> bytes data ->
  exists buf', (src ← slice data 0 n; copy_at buf len src) = Some buf' /\
    length buf' = 16%nat /\ bytes buf' /\ take (len + n) buf' = take len buf ++ take n data.
Proof.
  intros Hb Hn Hle Bb Bd. unfold slice. rewrite decide_True by lia. cbn [mbind option_bind].
  rewrite Nat.sub_0_r, drop_0. unfold copy_at.
  assert (Hln : length (take n data) = n) by (rewrite length_take; lia).
  rewrite decide_True by lia. eexists. split; [done|]. rewrite Hln. split_and!.
  - rewrite !length_app, length_take, length_drop, Hln. lia.
  - apply Forall_app. split; [by apply Forall_take|]. apply Forall_app.
    split; [by apply Forall_take|by apply Forall_drop].
  - rewrite app_assoc. apply take_app_length'. rewrite length_app, length_take, Hln. lia.
Qed.

(** The first half of [update]: complete a partial block. *)
Lemma update_fill key M st data : repr key M st -> bytes data -> (0 < buffer_len st)%nat ->
  wp (let to_copy := Nat.min (16 - buffer_len st) (length data) in
      src ← slice data 0 to_copy;
      buf ← copy_at (buffer st) (buffer_len st) src;
      let len := (buffer_len st + to_copy)%nat in
      if (len =? 16)%nat then
        h' ← blocks (h st) (r st) buf;
        Some (mkState h' (r st) (s st) buf 0, to_copy, false)
      else Some (mkState (h st) (r st) (s st) buf len, to_copy, true))
     (fun '(st', offset, fin) => (offset <= length data)%nat /\ repr key (M ++ take offset data) st' /\
        if (fin : bool) then offset = length data else buffer_len st' = 0%nat).
Proof.
  intros (Hh & Hr & S0 & S1 & Hrv & Hsv & Hbl & Hbb & Hlt & full & n & -> & Hn & Hv) Hd Hpos. cbv zeta.
  set (k := Nat.min (16 - buffer_len st) (length data)).
  destruct (buffer_fill (buffer st) data (buffer_len st) k) as (buf & Hbuf & Lb & Bb & Tb); auto; [lia..|].
  destruct (slice data 0 k) as [src|]; [|done]. cbn [mbind option_bind] in Hbuf |- *. rewrite Hbuf.
  cbn [mbind option_bind]. destruct (Nat.eqb_spec (buffer_len st + k) 16) as [E|E].
  - wp_step. eapply wp_mono; [by apply (blocks_wp _ _ _ 1)|]. intros h' [Hh' He]. wp_step.
    split; [lia|]. split; [|done]. unfold repr. simpl. split_and!; auto; [lia|].
    exists (full ++ buf), (n + 1)%nat. split_and!.
    + rewrite take_0, app_nil_r, <- app_assoc. f_equal. rewrite <- Tb, E. apply take_ge. lia.
    + rewrite length_app. lia.
    + rewrite He, Hv, Hrv. symmetry. by apply (rfc_app _ n).
  - wp_step. split; [lia|]. split; [|simpl; lia]. unfold repr. simpl. split_and!; auto; [lia|].
    exists full, n. split_and!; [|done|done]. by rewrite Tb, <- app_assoc.
Qed.

(** The second half: whole blocks, then the new partial block. *)
Lemma update_rest key M st data offset : repr key M st -> bytes data -> buffer_len st = 0%nat ->
  (offset <= length data)%nat ->
  wp (let remaining := (length data - offset)%nat in
      let nblocks := (remaining / 16)%nat in
      st ← (if (0 <? nblocks)%nat then
              blocks_slice ← slice data offset (offset + nblocks * 16);
              h' ← blocks (h st) (r st) blocks_slice;
              Some (mkState h' (r st) (s st) (buffer st) (buffer_len st))
            else Some st);
      tail ← slice data (length data - remaining mod 16) (length data);
      if negb (length tail =? 0)%nat then
        buf ← copy_at (buffer st) 0 tail;
        Some (mkState (h st) (r st) (s st) buf (length tail))
      else Some st)
     (repr key (M ++ drop offset data)).
Proof.
  intros (Hh & Hr & S0 & S1 & Hrv & Hsv & Hbl & Hbb & Hlt & full & n & -> & Hn & Hv) Hd Hz Ho. cbv zeta.
  rewrite Hz, take_0, app_nil_r in *. set (rest := drop offset data).
  assert (Hrest : length rest = (length data - offset)%nat) by (subst rest; by rewrite length_drop).
  rewrite <- Hrest. pose proof (Nat.div_mod_eq (length rest) 16) as Hdm.
  pose proof (Nat.mod_upper_bound (length rest) 16 ltac:(lia)) as Hm.
  set (nb := (length rest / 16)%nat) in *. set (tl := (length rest mod 16)%nat) in *.
  assert (Bd : bytes rest) by (by apply Forall_drop).
  assert (Htail : slice data (length data - tl) (length data) = Some (drop (nb * 16) rest)).
  { unfold slice. rewrite decide_True by lia. f_equal. subst rest. rewrite drop_drop, take_ge by (rewrite length_drop; lia).
    f_equal. lia. }
  wp_step. apply (wp_mono _ (fun st' => exists h', st' = mkState h' (r st) (s st) (buffer st) 0 /\ hwf h' /\
    val3 h' mod p = rfc (rfc_r key) 0 (full ++ take (nb * 16) rest))).
  { destruct (Nat.ltb_spec 0 nb) as [Hnb|Hnb].
    - assert (Hsl : slice data offset (offset + nb * 16) = Some (take (nb * 16) rest)).
      { unfold slice. rewrite decide_True by lia. do 2 f_equal. lia. }
      rewrite Hsl. cbn [mbind option_bind]. wp_step.
      eapply wp_mono; [apply (blocks_wp _ _ _ nb); [done|done|by apply Forall_take|rewrite length_take; lia]|].
      intros h' [Hh' He]. wp_step. exists h'. split; [done|]. split; [done|].
      rewrite He, Hv, Hrv. symmetry. by apply (rfc_app _ n).
    - wp_step. exists (h st). split; [by destruct st; simpl in *; subst|]. split; [done|].
      assert (nb = 0%nat) as -> by lia. by rewrite take_0, app_nil_r. }
  intros st' (h' & -> & Hh' & He). wp_step. rewrite Htail. simpl wp.
  set (tail := drop (nb * 16) rest). assert (Hlt' : length tail = tl) by (subst tail; rewrite length_drop; lia).
  assert (Hsplit : full ++ rest = (full ++ take (nb * 16) rest) ++ tail) by (subst tail; by rewrite <- app_assoc, take_drop).
  assert (Hfl : length (full ++ take (nb * 16) rest) = (16 * (n + nb))%nat) by (rewrite length_app, length_take; lia).
  destruct (Nat.eqb_spec (length tail) 0) as [E|E]; cbn [negb].
  - wp_step. unfold repr. simpl. split_and!; auto. exists (full ++ take (nb * 16) rest), (n + nb)%nat.
    split_and!; [|done|done]. rewrite Hsplit. f_equal. by apply nil_length_inv.
  - wp_step. unfold copy_at. simpl. rewrite decide_True by lia. simpl.
    unfold repr. simpl. split_and!; auto; [rewrite length_app, length_drop; lia| |lia|].
    + apply Forall_app. split; [by apply Forall_drop|by apply Forall_drop].
    + exists (full ++ take (nb * 16) rest), (n + nb)%nat. split_and!; [|done|done].
      rewrite Hsplit. f_equal. symmetry. apply take_app_length.
Qed.

Lemma update_wp key M st data : repr key M st -> bytes data -> wp (update st data) (repr key (M ++ data)).
Proof.
  intros Hst Hd. unfold update. wp_step.
  apply (wp_mono _ (fun '(st', offset, fin) => (offset <= length data)%nat /\
    repr key (M ++ take offset data) st' /\ if (fin : bool) then offset = length data else buffer_len st' = 0%nat)).
  { destruct (Nat.ltb_spec 0 (buffer_len st)); [by apply update_fill|]. wp_step.
    split; [lia|]. split; [by rewrite take_0, app_nil_r|lia]. }
  intros [[st' offset] fin] (Ho & Hr & Hf). destruct fin.
  - wp_step. rewrite Hf, take_ge in Hr by lia. done.
  - replace (M ++ data) with ((M ++ take offset data) ++ drop offset data)
      by (by rewrite <- app_assoc, take_drop). by apply update_rest.
Qed.

(** ** The theorems *)

(** One call of [absorb] multiplies: from a well-formed accumulator and a
    clamped key the new accumulator is well formed and congruent to
    [(h + block) * r] modulo [2^130 - 5], and no addition overflows. *)
Theorem absorb_correct h r t0 t1 hibit : hwf h -> rwf r -> word t0 -> word t1 ->
  exists h', absorb h r t0 t1 hibit = Some h' /\ hwf h' /\
    val3 h' mod p = (val3 h + (t0 + B * t1 + b2z hibit * (B * B))) * val2 r mod p.
Proof. intros. by apply wp_elim, absorb_wp. Qed.

(** The streaming MAC is Poly1305 of RFC 8439: feeding any sequence of
    chunks to a fresh state and finalizing returns, without panicking, the tag
    of the concatenated message, wherever the chunk boundaries fall. *)
Theorem poly1305_streaming key chunks : bytes key -> length key = 32%nat -> Forall bytes chunks ->
  (st ← new key; st ← foldl (fun st c => st ← st; update st c) (Some st) chunks; finalize st)
  = Some (poly1305_spec key (concat chunks)).
Proof.
  intros Hk Hl Hc. pose proof (new_wp key Hk Hl) as (st0 & -> & H0)%wp_elim. cbn [mbind option_bind].
  enough (forall M st, repr key M st ->
    exists st', foldl (fun st c => st ← st; update st c) (Some st) chunks = Some st' /\ repr key (M ++ concat chunks) st') as H.
  { destruct (H [] st0 H0) as (st' & -> & Hr). cbn [mbind option_bind]. by rewrite (finalize_wp key _ _ Hr). }
  clear H0 st0. induction Hc as [|c chunks Hc Hcs IH]; intros M st Hst; simpl.
  - exists st. by rewrite app_nil_r.
  - pose proof (update_wp key M st c Hst Hc) as (st' & -> & Hst')%wp_elim.
    destruct (IH _ _ Hst') as (st2 & -> & H2). exists st2. by rewrite app_assoc.
Qed.

(** ** Concrete instances *)

Definition test_key : list Z := seqZ 1 32.

Lemma test_key_bytes : bytes test_key.
Proof. repeat (constructor; [unfold byte; lia|]). constructor. Qed.

Lemma absorb_witness : exists h', absorb (L3 1 2 3) (L2 5 7) 11 13 true = Some h' /\ hwf h' /\
  val3 h' mod p = (val3 (L3 1 2 3) + (11 + B * 13 + b2z true * (B * B))) * val2 (L2 5 7) mod p.
Proof. apply absorb_correct; unfold hwf, rwf, word; simpl; lia. Defined.

Lemma poly1305_streaming_witness :
  (st ← new test_key;
   st ← foldl (fun st c => st ← st; update st c) (Some st) [[1; 2; 3]; seqZ 0 20; []];
   finalize st)
  = Some (poly1305_spec test_key (concat [[1; 2; 3]; seqZ 0 20; []])).
Proof.
  apply poly1305_streaming; [apply test_key_bytes|reflexivity|].
  repeat (constructor; [repeat (constructor; [unfold byte; lia|]); constructor|]). constructor.
Defined.

End Poly1305.
