(* ===== verification/ChaCha.v ===== *)
(** * crypto: the ChaCha stream ciphers

    src/crypto/src/chacha/chacha.rs (as compiled without a vector unit) and
    hchacha20.rs.  The const parameters [ROUNDS] and [IS_IETF] are section
    variables; a [u32] is a [Z] below [2^32]; [None] is a panic: the assertion
    on the block counter, or an index out of range. *)
From Stdlib Require Import ZArith Lia ZifyNat.
From stdpp Require Import base list numbers option.
From S2P Require Import Prelude Words.

Module ChaCha.

Definition STATE_WORDS : nat := 16.
Definition BLOCK_SIZE : nat := 64.
Definition CHACHA20_IETF_MAX_LEN : Z := (2 ^ 32 - 1 - 1) * 64.
Definition CONSTANT : list Z := [0x61707865; 0x3320646e; 0x79622d32; 0x6b206574].

(** ** The quarter round

    [state[a] = state[a].wrapping_add(state[b])], [state[d] ^= state[a]] and
    [state[d] = state[d].rotate_left(n)]. *)
Definition rotate_left (x n : Z) : Z := u32 (Z.lor (Z.shiftl x n) (Z.shiftr x (32 - n))).

Definition add_at (state : list Z) (a b : nat) : option (list Z) :=
  x ← state !! a; y ← state !! b; upd state a (u32 (x + y)).
Definition xor_at (state : list Z) (d a : nat) : option (list Z) :=
  x ← state !! d; y ← state !! a; upd state d (Z.lxor x y).
Definition rotate_at (state : list Z) (d : nat) (n : Z) : option (list Z) :=
  x ← state !! d; upd state d (rotate_left x n).

Definition quarter_round (state : list Z) (a b c d : nat) : option (list Z) :=
  state ← add_at state a b;
  state ← xor_at state d a;
  state ← rotate_at state d 16;
  state ← add_at state c d;
  state ← xor_at state b c;
  state ← rotate_at state b 12;
  state ← add_at state a b;
  state ← xor_at state d a;
  state ← rotate_at state d 8;
  state ← add_at state c d;
  state ← xor_at state b c;
  rotate_at state b 7.

(** The body of the loop over double rounds. *)
Definition double_round (state : list Z) : option (list Z) :=
  state ← quarter_round state 0 4 8 12;
  state ← quarter_round state 1 5 9 13;
  state ← quarter_round state 2 6 10 14;
  state ← quarter_round state 3 7 11 15;
  state ← quarter_round state 0 5 10 15;
  state ← quarter_round state 1 6 11 12;
  state ← quarter_round state 2 7 8 13;
  quarter_round state 3 4 9 14.

(** Four bytes of [bytes] from [i] as a word; [key.as_chunks::<4>()] as words. *)
Definition word_at (bytes : list Z) (i : nat) : option Z := b ← slice bytes i (i + 4); Some (from_le b).
Definition key_words (key : list Z) : option (list Z) := mapM (fun i => word_at key (4 * i)) (seq 0 8).

Section ChaCha.
Context (ROUNDS : nat) (IS_IETF : bool).

Record ChaCha := mkChaCha {
  state : list Z;
  keystream_leftover : list Z;
  keystream_leftover_offset : Z;
}.

Definition extract_counter (state : list Z) : option Z :=
  s12 ← state !! 12%nat;
  if IS_IETF then Some s12 else s13 ← state !! 13%nat; Some (Z.lor (Z.shiftl s13 32) s12).

Definition inject_counter (state : list Z) (counter : Z) : option (list Z) :=
  state ← upd state 12 (u32 counter);
  if negb IS_IETF then upd state 13 (u32 (Z.shiftr counter 32)) else Some state.

(** The two [new]: a key of 32 bytes, a nonce of 12 (IETF) or 8 bytes. *)
Definition new (key nonce : list Z) : option ChaCha :=
  k ← key_words key;
  counter_nonce ← (if IS_IETF then n ← mapM (fun i => word_at nonce (4 * i)) (seq 0 3); Some (0 :: n)
                   else n ← mapM (fun i => word_at nonce (4 * i)) (seq 0 2); Some (0 :: 0 :: n));
  Some (mkChaCha (CONSTANT ++ k ++ counter_nonce) (replicate 63 0) 63).

Definition set_counter (self : ChaCha) (counter : Z) : option ChaCha :=
  state ← inject_counter (state self) counter;
  Some (mkChaCha state (keystream_leftover self) 63).

(** [iter_mut().zip(keystream).for_each(|(p, k)| *p ^= k)]. *)
Fixpoint xor_zip (plaintext keystream : list Z) : list Z :=
  match plaintext, keystream with
  | p :: ps, k :: ks => Z.lxor p k :: xor_zip ps ks
  | _, _ => plaintext
  end.

(** The keystream block of a state: the rounds, the addition, the bytes. *)
Definition serialize (tmp_state state : list Z) : list Z :=
  concat (zip_with (fun t s => to_le 4 (u32 (t + s))) tmp_state state).
Definition keystream_block (state : list Z) : option (list Z) :=
  tmp_state ← for_loop 0 (ROUNDS / 2) (fun _ => double_round) state;
  Some (serialize tmp_state state).

(** The loop over the blocks of the input: the state, the counter, the last
    keystream block and the output so far. *)
Fixpoint generic_blocks (blocks : list (list Z)) (state : list Z) (counter : Z) (keystream out : list Z)
    : option (list Z * Z * list Z * list Z) :=
  match blocks with
  | [] => Some (state, counter, keystream, out)
  | plaintext_block :: rest =>
      state ← inject_counter state counter;
      keystream ← keystream_block state;
      generic_blocks rest state (u64 (counter + 1)) keystream (out ++ xor_zip plaintext_block keystream)
  end.

Definition chacha_generic (state keystream_leftover plaintext : list Z) : option (list Z * list Z * list Z) :=
  counter ← extract_counter state;
  '(state, counter, keystream, out) ←
    generic_blocks (chunks BLOCK_SIZE plaintext) state counter (replicate BLOCK_SIZE 0) [];
  state ← inject_counter state counter;
  keystream_leftover ←
    (if negb (length plaintext mod BLOCK_SIZE =? 0)%nat
     then slice keystream 1 BLOCK_SIZE else Some keystream_leftover);
  Some (state, keystream_leftover, out).

Definition div_ceil (a b : nat) : nat := ((a + b - 1) / b)%nat.

Definition xor_keystream (self : ChaCha) (in_out : list Z) : option (ChaCha * list Z) :=
  if (length in_out =? 0)%nat then Some (self, in_out) else
  _ ← (if IS_IETF then
         let leftover_len :=
           if keystream_leftover_offset self <? 63 then 63 - keystream_leftover_offset self else 0 in
         let new_blocks := div_ceil (length in_out - Z.to_nat leftover_len) BLOCK_SIZE in
         counter ← extract_counter (state self);
         rassert (counter + Z.of_nat new_blocks <=? 2 ^ 32 - 1)
       else Some tt);
  let generic self done in_out :=
    let self := mkChaCha (state self) (keystream_leftover self) (Z.of_nat ((length in_out + 64 - 1) mod 64)) in
    '(state', leftover', out) ← chacha_generic (state self) (keystream_leftover self) in_out;
    Some (mkChaCha state' leftover' (keystream_leftover_offset self), done ++ out) in
  if keystream_leftover_offset self <? 63 then
    keystream_leftover_tail ← slice (keystream_leftover self) (Z.to_nat (keystream_leftover_offset self)) 63;
    let xored := xor_zip in_out keystream_leftover_tail in
    let n := length keystream_leftover_tail in
    if (n <? length in_out)%nat then generic self (take n xored) (drop n xored)
    else if (length in_out <? n)%nat then
      let offset := keystream_leftover_offset self + u8 (Z.of_nat (length in_out)) in
      _ ← rassert (offset <? 256);
      Some (mkChaCha (state self) (keystream_leftover self) offset, xored)
    else Some (mkChaCha (state self) (keystream_leftover self) 63, xored)
  else generic self [] in_out.
End ChaCha.

(** ** HChaCha20 and XChaCha *)

Definition hchacha20 (key input : list Z) : option (list Z) :=
  k ← key_words key;
  n ← mapM (fun i => word_at input (4 * i)) (seq 0 4);
  state ← for_loop 0 10 (fun _ => double_round) (CONSTANT ++ k ++ n);
  lo ← slice state 0 4;
  hi ← slice state 12 16;
  Some (concat (map (to_le 4) lo) ++ concat (map (to_le 4) hi)).

(** The subkey and the inner nonce of a 24-byte nonce. *)
Definition derive_subkey (key nonce : list Z) : option (list Z * list Z) :=
  n16 ← slice nonce 0 16;
  subkey ← hchacha20 key n16;
  n8 ← slice nonce 16 24;
  ietf_nonce ← copy_at (replicate 12 0) 4 n8;
  Some (subkey, ietf_nonce).

Definition xchacha_new (key nonce : list Z) : option ChaCha :=
  '(subkey, ietf_nonce) ← derive_subkey key nonce;
  new true subkey ietf_nonce.

(** ** The cipher by rows

    The reference: the state as four rows of four words, a round applied to
    whole rows, the diagonals reached by rotating the rows. *)
Definition vadd (x y : list Z) : list Z := zip_with (fun a b => u32 (a + b)) x y.
Definition vxor (x y : list Z) : list Z := zip_with Z.lxor x y.
Definition vrotl (n : Z) (x : list Z) : list Z := map (fun a => rotate_left a n) x.
Definition turn_row (k : nat) (x : list Z) : list Z := drop k x ++ take k x.

Definition row_round (m : list Z * list Z * list Z * list Z) : list Z * list Z * list Z * list Z :=
  let '(a, b, c, d) := m in
  let a := vadd a b in let d := vrotl 16 (vxor d a) in
  let c := vadd c d in let b := vrotl 12 (vxor b c) in
  let a := vadd a b in let d := vrotl 8 (vxor d a) in
  let c := vadd c d in let b := vrotl 7 (vxor b c) in
  (a, b, c, d).

Definition rfc_double_round (s : list Z) : list Z :=
  let '(a, b, c, d) := row_round (take 4 s, take 4 (drop 4 s), take 4 (drop 8 s), drop 12 s) in
  let '(a, b, c, d) := row_round (a, turn_row 1 b, turn_row 2 c, turn_row 3 d) in
  a ++ turn_row 3 b ++ turn_row 2 c ++ turn_row 1 d.

Definition rfc_rounds (n : nat) (s : list Z) : list Z := Nat.iter n rfc_double_round s.
Definition rfc_block (rounds : nat) (s : list Z) : list Z := serialize (rfc_rounds (rounds / 2) s) s.

Lemma double_round_rfc s : length s = 16%nat ->
  double_round s = Some (rfc_double_round s) /\ length (rfc_double_round s) = 16%nat.
Proof.
  intros H. do 16 (destruct s as [|? s]; [discriminate H|]). destruct s as [|? ?]; [|discriminate H]. clear H.
  split; lazy -[u32 rotate_left Z.lxor Z.add]; reflexivity.
Qed.

Lemma rounds_rfc n s : length s = 16%nat ->
  for_loop 0 n (fun _ => double_round) s = Some (rfc_rounds n s) /\ length (rfc_rounds n s) = 16%nat.
Proof.
  intros H. split.
  - unfold for_loop. rewrite Nat.sub_0_r. enough (forall i, for_from n i (fun _ => double_round) s = Some (rfc_rounds n s)) by done.
    revert s H. induction n as [|n IH]; intros s H i; [done|]. cbn [for_from].
    destruct (double_round_rfc s H) as [-> H']. cbn [mbind option_bind]. rewrite IH by done. f_equal.
    apply Nat.iter_swap.
  - induction n as [|n IH]; [done|]. by apply double_round_rfc.
Qed.

Lemma length_serialize t s : length t = 16%nat -> length s = 16%nat -> length (serialize t s) = 64%nat.
Proof.
  intros Ht Hs. do 16 (destruct t as [|? t]; [discriminate Ht|]). destruct t; [|discriminate Ht].
  do 16 (destruct s as [|? s]; [discriminate Hs|]). destruct s; [|discriminate Hs]. reflexivity.
Qed.

Lemma block_rfc rounds s : length s = 16%nat ->
  keystream_block rounds s = Some (rfc_block rounds s) /\ length (rfc_block rounds s) = 64%nat.
Proof.
  intros H. unfold keystream_block. destruct (rounds_rfc (rounds / 2) s H) as [-> Hl]. cbn [mbind option_bind].
  split; [done|]. by apply length_serialize.
Qed.

(** ** XOR with a stream *)

(** [data] from position [p] on, against the stream [f]. *)
Fixpoint xor_stream (f : nat -> Z) (p : nat) (data : list Z) : list Z :=
  match data with [] => [] | x :: t => Z.lxor x (f p) :: xor_stream f (S p) t end.

Lemma length_xor_stream f p d : length (xor_stream f p d) = length d.
Proof. revert p. induction d; intros p; simpl; auto. Qed.

Lemma xor_stream_app f p x y : xor_stream f p (x ++ y) = xor_stream f p x ++ xor_stream f (p + length x) y.
Proof.
  revert p. induction x as [|a x IH]; intros p; simpl; [by rewrite Nat.add_0_r|]. rewrite IH.
  by replace (p + S (length x))%nat with (S p + length x)%nat by lia.
Qed.

Lemma bytes_xor_stream f p d : (forall i, byte (f i)) -> bytes d -> bytes (xor_stream f p d).
Proof.
  intros Hf Hd. revert p. induction Hd as [|x d Hx Hd IH]; intros p; simpl; constructor; [|apply IH].
  specialize (Hf p). unfold byte in *. pose proof (lxor_nonneg_bound x (f p) 8). lia.
Qed.

Lemma xor_stream_involutive f p d : xor_stream f p (xor_stream f p d) = d.
Proof.
  revert p. induction d as [|x d IH]; intros p; simpl; [done|]. rewrite IH. f_equal.
  by rewrite Z.lxor_assoc, Z.lxor_nilpotent, Z.lxor_0_r.
Qed.

Lemma xor_stream_ext f g p q d : (forall i, (i < length d)%nat -> f (p + i)%nat = g (q + i)%nat) ->
  xor_stream f p d = xor_stream g q d.
Proof.
  revert p q. induction d as [|x d IH]; intros p q H; simpl; [done|]. f_equal.
  - f_equal. specialize (H 0%nat ltac:(simpl; lia)). by rewrite !Nat.add_0_r in H.
  - apply IH. intros i Hi. specialize (H (S i) ltac:(simpl; lia)). by rewrite !Nat.add_succ_r in H.
Qed.

Lemma xor_zip_stream f p d k : (forall i, (i < length k)%nat -> k !! i = Some (f (p + i)%nat)) ->
  xor_zip d k = xor_stream f p (take (length k) d) ++ drop (length k) d.
Proof.
  revert p k. induction d as [|x d IH]; intros p k H; [by destruct k|]. destruct k as [|y k]; [done|].
  cbn [xor_zip length take drop xor_stream app]. f_equal.
  - specialize (H 0%nat ltac:(simpl; lia)). rewrite Nat.add_0_r in H. injection H as ->. done.
  - apply IH. intros i Hi. specialize (H (S i) ltac:(simpl; lia)). by rewrite Nat.add_succ_r in H.
Qed.

(** ** The key stream *)

Section Stream.
Context (ROUNDS : nat) (IS_IETF : bool).

(** The number of block counters, and the state of block [n]. *)
Definition counters : Z := if IS_IETF then 2 ^ 32 else 2 ^ 64.
Definition inject (s : list Z) (n : Z) : list Z :=
  let s := <[12%nat := u32 n]> s in if IS_IETF then s else <[13%nat := u32 (Z.shiftr n 32)]> s.
Definition block (s : list Z) (n : Z) : list Z := rfc_block ROUNDS (inject s n).
(** Byte [i] of the key stream that starts at block [c]. *)
Definition key_byte (s : list Z) (c : Z) (i : nat) : Z :=
  default 0 (block s (c + Z.of_nat (i / 64)) !! (i mod 64)%nat).

Lemma length_inject s n : length (inject s n) = length s.
Proof. unfold inject. destruct IS_IETF; by rewrite !length_insert. Qed.

Lemma inject_counter_spec s n : length s = 16%nat -> inject_counter IS_IETF s n = Some (inject s n).
Proof.
  intros H. unfold inject_counter, inject, upd. rewrite decide_True by lia. cbn [mbind option_bind].
  destruct IS_IETF; cbn [negb]; [done|]. rewrite decide_True by (rewrite length_insert; lia). done.
Qed.

Lemma inject_inject s a b : inject (inject s a) b = inject s b.
Proof.
  unfold inject. destruct IS_IETF; [by rewrite list_insert_insert_eq|].
  rewrite list_insert_insert_ne by done. rewrite list_insert_insert_eq.
  rewrite (list_insert_insert_ne _ 13%nat 12%nat) by done. rewrite list_insert_insert_eq. by apply list_insert_insert_ne.
Qed.

(** Only the counter modulo the number of counters matters. *)
Lemma inject_cong s a b : a mod counters = b mod counters -> inject s a = inject s b.
Proof.
  unfold inject, counters. destruct IS_IETF; [by unfold u32; intros ->|]. intros H.
  assert (H32 : forall x, u32 x = u32 (x mod 2 ^ 64)).
  { intros x. unfold u32. symmetry. rewrite <- (Z.mod_mod_divide x (2 ^ 64) (2 ^ 32)); [done|]. by exists (2 ^ 32). }
  assert (Hhi : forall x, u32 (Z.shiftr x 32) = x mod 2 ^ 64 / 2 ^ 32).
  { intros x. rewrite shiftr_div by lia. unfold u32. change (2 ^ 64) with (2 ^ 32 * 2 ^ 32).
    rewrite Z.rem_mul_r, (Z.mul_comm (2 ^ 32) (_ mod _)), Z.div_add by lia.
    rewrite (Z.div_small (x mod _)) by (apply Z.mod_pos_bound; lia). lia. }
  by rewrite (H32 a), (H32 b), (Hhi a), (Hhi b), H.
Qed.

Lemma extract_inject s n : length s = 16%nat -> extract_counter IS_IETF (inject s n) = Some (n mod counters).
Proof.
  intros H. unfold extract_counter, inject, counters. destruct IS_IETF.
  - rewrite list_lookup_insert_eq by lia. done.
  - rewrite (list_lookup_insert_ne _ 13 12), (list_lookup_insert_eq _ 12) by (done || lia). cbn [mbind option_bind].
    rewrite list_lookup_insert_eq by (rewrite length_insert; lia). cbn [mbind option_bind]. f_equal.
    rewrite shiftl_mul, shiftr_div by lia. unfold u32.
    rewrite (lor_add _ _ 32); [|lia|apply Z.mod_mul; lia|apply Z.mod_pos_bound; lia].
    change (2 ^ 64) with (2 ^ 32 * 2 ^ 32). rewrite Z.rem_mul_r by lia. lia.
Qed.

(** [s] is [s0] up to the counter. *)
Definition Same (s0 s : list Z) : Prop := length s = 16%nat /\ forall n, inject s n = inject s0 n.

Lemma same_inject s0 s n : Same s0 s -> Same s0 (inject s n).
Proof. intros [Hl Hs]. split; [by rewrite length_inject|]. intros m. by rewrite inject_inject. Qed.

Lemma counters_divide : exists q, 2 ^ 64 = q * counters /\ 0 < counters.
Proof. unfold counters. destruct IS_IETF; [by exists (2 ^ 32)|by exists 1]. Qed.

Lemma next_counter k c : k mod counters = c mod counters -> u64 (k + 1) mod counters = (c + 1) mod counters.
Proof.
  intros H. destruct counters_divide as (q & Hq & Hpos). unfold u64.
  rewrite (Z.mod_mod_divide (k + 1) (2 ^ 64) counters) by (by exists q).
  rewrite Z.add_mod, H, <- Z.add_mod by lia. done.
Qed.

Lemma key_byte_shift s c k i : key_byte s c (64 * k + i) = key_byte s (c + Z.of_nat k) i.
Proof.
  unfold key_byte. replace ((64 * k + i) / 64)%nat with (k + i / 64)%nat by lia.
  replace ((64 * k + i) mod 64)%nat with (i mod 64)%nat by lia. do 3 f_equal. lia.
Qed.

Lemma block_bytes s0 c i : length s0 = 16%nat -> (i < 64)%nat -> block s0 c !! i = Some (key_byte s0 c i).
Proof.
  intros Hl Hi. unfold key_byte. rewrite Nat.div_small, Nat.mod_small by done. rewrite Z.add_0_r.
  destruct (lookup_lt_is_Some_2 (block s0 c) i) as [x ->]; [|done].
  unfold block. destruct (block_rfc ROUNDS (inject s0 c)) as [_ ->]; [by rewrite length_inject|done].
Qed.

Lemma length_block s0 c : length s0 = 16%nat -> length (block s0 c) = 64%nat.
Proof. intros H. unfold block. apply block_rfc. by rewrite length_inject. Qed.

Lemma div_ceil_step n : (0 < n)%nat -> div_ceil n 64 = S (div_ceil (n - 64) 64).
Proof. unfold div_ceil. lia. Qed.

Lemma generic_blocks_wp n data s0 s c k ks out : (length data <= n)%nat -> length s0 = 16%nat -> Same s0 s ->
  k mod counters = c mod counters ->
  wp (generic_blocks ROUNDS IS_IETF (chunks BLOCK_SIZE data) s k ks out) (fun '(s', k', ks', out') =>
    Same s0 s' /\ k' mod counters = (c + Z.of_nat (div_ceil (length data) 64)) mod counters /\
    out' = out ++ xor_stream (key_byte s0 c) 0 data /\
    ks' = match data with [] => ks | _ => block s0 (c + Z.of_nat ((length data - 1) / 64)) end).
Proof.
  revert data s c k ks out. induction n as [|n IH]; intros data s c k ks out Hn H0 Hs Hk.
  { destruct data; [|simpl in Hn; lia]. cbn. rewrite app_nil_r, Z.add_0_r. by split_and!. }
  destruct (decide (data = [])) as [->|Hne].
  { cbn. rewrite app_nil_r, Z.add_0_r. by split_and!. }
  rewrite chunks_cons by (done || (unfold BLOCK_SIZE; lia)). cbn [generic_blocks]. pose proof Hs as [Hl Hinj].
  rewrite inject_counter_spec by done. cbn [mbind option_bind].
  rewrite Hinj, (inject_cong s0 k c) by done.
  destruct (block_rfc ROUNDS (inject s0 c)) as [-> _]; [by rewrite length_inject|]. cbn [mbind option_bind].
  fold (block s0 c). assert (Hpos : (0 < length data)%nat) by (destruct data; [done|simpl; lia]).
  eapply wp_mono; [apply (IH (drop BLOCK_SIZE data) _ (c + 1)); [|exact H0| |exact (next_counter k c Hk)]|].
  - rewrite length_drop. unfold BLOCK_SIZE. lia.
  - apply same_inject. split; [exact H0|reflexivity].
  - intros [[[s' k'] ks'] out'] (Hs' & Hk' & -> & Hks). rewrite length_drop in Hk', Hks. unfold BLOCK_SIZE in *.
    split; [done|]. split; [|split].
    + rewrite Hk'. f_equal. rewrite (div_ceil_step (length data)) by done. clear. lia.
    + clear Hk Hk'. rewrite <- app_assoc. f_equal.
      rewrite (xor_zip_stream (key_byte s0 c) 0) by (intros i; rewrite length_block by done; by apply block_bytes).
      rewrite length_block, take_take, Nat.min_id, (drop_ge (take 64 data)), app_nil_r
        by (done || (rewrite length_take; lia)).
      rewrite <- (take_drop 64 data) at 3. rewrite xor_stream_app. f_equal. apply xor_stream_ext.
      intros i Hi. rewrite length_drop in Hi. rewrite length_take, Nat.min_l by lia.
      symmetry. apply (key_byte_shift s0 c 1 i).
    + clear Hk Hk'. rewrite Hks. destruct data as [|x t]; [done|].
      destruct (decide (length (x :: t) <= 64)%nat) as [Hle|Hgt].
      * rewrite (drop_ge (x :: t)) by done. f_equal. rewrite (Nat.div_small (_ - 1)) by (simpl in *; lia). lia.
      * destruct (drop 64 (x :: t)) eqn:Hd.
        { apply (f_equal length) in Hd. rewrite length_drop in Hd. simpl in Hd, Hgt. lia. }
        f_equal. revert Hgt. generalize (length (x :: t)) as m. clear. lia.
Qed.

(** The state at position [p] of the stream that starts at block [c]. *)
Definition At (s0 : list Z) (c : Z) (p : nat) (self : ChaCha) : Prop :=
  Same s0 (state self) /\
  extract_counter IS_IETF (state self) = Some ((c + Z.of_nat (div_ceil p 64)) mod counters) /\
  length (keystream_leftover self) = 63%nat /\
  if decide (p mod 64 = 0)%nat then keystream_leftover_offset self = 63
  else keystream_leftover_offset self = Z.of_nat (p mod 64) - 1 /\
       keystream_leftover self = drop 1 (block s0 (c + Z.of_nat (p / 64))).

Lemma chacha_generic_wp s0 s c lo data : length s0 = 16%nat -> Same s0 s ->
  extract_counter IS_IETF s = Some (c mod counters) -> length lo = 63%nat -> data <> [] ->
  wp (chacha_generic ROUNDS IS_IETF s lo data) (fun '(s', lo', out) =>
    At s0 c (length data) (mkChaCha s' lo' (Z.of_nat ((length data + 64 - 1) mod 64))) /\
    out = xor_stream (key_byte s0 c) 0 data).
Proof.
  intros H0 Hs Hc Hlo Hne. unfold chacha_generic. rewrite Hc. cbn [mbind option_bind].
  destruct counters_divide as (q & _ & Hpos).
  apply wp_bind. eapply wp_mono; [apply (generic_blocks_wp (length data) data s0 s c); [done|done|done|]|].
  { apply Z.mod_mod. lia. }
  intros [[[s' k'] ks'] out] (Hs' & Hk' & Hout & Hks). destruct Hs' as [Hl' Hi'].
  rewrite inject_counter_spec by done. cbn [mbind option_bind].
  assert (Hks2 : ks' = block s0 (c + Z.of_nat ((length data - 1) / 64))) by (by destruct data).
  assert (Hpl : (0 < length data)%nat) by (destruct data; [done|simpl; lia]).
  assert (Hat : forall lo', length lo' = 63%nat ->
    ((length data mod 64)%nat <> 0%nat -> lo' = drop 1 (block s0 (c + Z.of_nat (length data / 64)))) ->
    At s0 c (length data) (mkChaCha (inject s' k') lo' (Z.of_nat ((length data + 64 - 1) mod 64)))).
  { intros lo' Hlo' Hd. split; [by apply same_inject|]. split; [|split; [done|]].
    - cbn [state]. rewrite extract_inject by done. by rewrite Hk'.
    - cbn [keystream_leftover_offset keystream_leftover]. clear - Hd Hpl. revert Hd Hpl.
      generalize (length data) as m. intros m Hd Hm. case_decide as Hz; [lia|]. split; [lia|by apply Hd]. }
  destruct (Nat.eqb_spec (length data mod BLOCK_SIZE) 0) as [Hz|Hz]; cbn [negb].
  - cbn [mbind option_bind wp]. split; [|done]. apply Hat; done.
  - apply wp_bind, wp_slice; [unfold BLOCK_SIZE; lia|by rewrite Hks2, length_block|]. cbn [wp]. split; [|done].
    rewrite take_ge by (rewrite length_drop, Hks2, length_block by done; unfold BLOCK_SIZE; lia).
    apply Hat; [by rewrite length_drop, Hks2, length_block|]. intros _. rewrite Hks2. do 4 f_equal.
    clear - Hz Hpl. unfold BLOCK_SIZE in Hz. lia.
Qed.

Lemma at_shift s0 c k m self : At s0 (c + Z.of_nat k) m self -> At s0 c (64 * k + m) self.
Proof.
  intros (Hs & Hc & Hl & Ho). split; [done|]. split; [|split; [done|]].
  - rewrite Hc. do 2 f_equal. unfold div_ceil. clear. lia.
  - replace ((64 * k + m) mod 64)%nat with (m mod 64)%nat by (clear; lia).
    replace (c + Z.of_nat ((64 * k + m) / 64)) with (c + Z.of_nat k + Z.of_nat (m / 64)) by (clear; lia). done.
Qed.

(** The part of [xor_keystream] after the leftover, at a block boundary. *)
Lemma from_boundary s0 c k self data done_ : length s0 = 16%nat -> Same s0 (state self) ->
  extract_counter IS_IETF (state self) = Some ((c + Z.of_nat k) mod counters) ->
  length (keystream_leftover self) = 63%nat -> data <> [] ->
  wp ('(state', leftover', out) ← chacha_generic ROUNDS IS_IETF (state self) (keystream_leftover self) data;
      Some (mkChaCha state' leftover' (Z.of_nat ((length data + 64 - 1) mod 64)), done_ ++ out))
    (fun '(self', out) => out = done_ ++ xor_stream (key_byte s0 c) (64 * k) data /\ At s0 c (64 * k + length data) self').
Proof.
  intros H0 Hs Hc Hl Hne. apply wp_bind. eapply wp_mono; [by apply (chacha_generic_wp s0 _ (c + Z.of_nat k))|].
  intros [[s' lo'] out] [Hat ->]. cbn [wp]. split; [|by apply at_shift]. f_equal. apply xor_stream_ext.
  intros i _. rewrite <- key_byte_shift. done.
Qed.

(** The leftover is the key stream from [p] to the end of its block. *)
Lemma leftover_tail s0 c p (lo : list Z) off : length s0 = 16%nat -> (p mod 64 <> 0)%nat ->
  off = Z.of_nat (p mod 64) - 1 -> lo = drop 1 (block s0 (c + Z.of_nat (p / 64))) ->
  slice lo (Z.to_nat off) 63 = Some (drop (p mod 64) (block s0 (c + Z.of_nat (p / 64)))) /\
  forall i, (i < 64 - p mod 64)%nat ->
    drop (p mod 64) (block s0 (c + Z.of_nat (p / 64))) !! i = Some (key_byte s0 c (p + i)).
Proof.
  intros H0 Hp -> ->. pose proof (length_block s0 (c + Z.of_nat (p / 64)) H0) as Hlb. split.
  - unfold slice. rewrite decide_True by (rewrite length_drop, Hlb; clear - Hp; lia). f_equal.
    rewrite drop_drop. replace (1 + Z.to_nat (Z.of_nat (p mod 64) - 1))%nat with (p mod 64)%nat by (clear - Hp; lia).
    apply take_ge. rewrite length_drop, Hlb. clear - Hp. lia.
  - intros i Hi. rewrite lookup_drop. rewrite block_bytes by (done || lia). f_equal.
    rewrite <- key_byte_shift. f_equal. clear. lia.
Qed.

Lemma xor_keystream_wp s0 c p self data : length s0 = 16%nat -> 0 <= c -> At s0 c p self ->
  (IS_IETF = true -> c + Z.of_nat (div_ceil (p + length data) 64) <= 2 ^ 32 - 1) ->
  wp (xor_keystream ROUNDS IS_IETF self data) (fun '(self', out) =>
    out = xor_stream (key_byte s0 c) p data /\ At s0 c (p + length data) self').
Proof.
  intros H0 Hc0 Hat Hmax. pose proof Hat as (Hs & Hc & Hl & Ho). unfold xor_keystream.
  destruct (Nat.eqb_spec (length data) 0) as [Hz|Hz].
  { destruct data; [|done]. cbn [wp]. by rewrite Nat.add_0_r. }
  set (left := if keystream_leftover_offset self <? 63 then 63 - keystream_leftover_offset self else 0).
  assert (Hleft : left = if decide (p mod 64 = 0)%nat then 0 else Z.of_nat (64 - p mod 64)).
  { unfold left. clear Hc Hat. case_decide; [by rewrite Ho|]. destruct Ho as [-> _].
    destruct (Z.ltb_spec (Z.of_nat (p mod 64) - 1) 63); lia. }
  apply wp_bind. apply (wp_mono _ (fun _ => True)).
  { destruct IS_IETF eqn:Hi; [|done]. rewrite Hc. cbn [mbind option_bind]. apply wp_assert; [|done].
    apply Z.leb_le. specialize (Hmax eq_refl). replace counters with (2 ^ 32) by (unfold counters; by rewrite Hi). rewrite Hleft.
    rewrite Z.mod_small; revert Hmax; clear - Hc0; unfold div_ceil, BLOCK_SIZE; try case_decide; lia. }
  intros _ _. destruct (Z.ltb_spec (keystream_leftover_offset self) 63) as [Hlt|Hge].
  - case_decide as Hp; [lia|]. destruct Ho as [Hoff Hlo].
    destruct (leftover_tail s0 c p _ _ H0 Hp Hoff Hlo) as [-> Hks]. cbn [mbind option_bind].
    set (tail := drop (p mod 64) _). assert (Htl : length tail = (64 - p mod 64)%nat) by (unfold tail; by rewrite length_drop, length_block).
    rewrite (xor_zip_stream (key_byte s0 c) p data tail) by (rewrite Htl; done). rewrite Htl.
    remember (64 - p mod 64)%nat as n eqn:Hnd. assert (Hn : (p + n = 64 * (p / 64 + 1))%nat) by (clear - Hp Hnd; lia).
    destruct (Nat.ltb_spec n (length data)) as [Hlong|Hshort].
    + rewrite take_app_length', drop_app_length' by (rewrite length_xor_stream, length_take; lia).
      eapply wp_mono; [apply (from_boundary s0 c (p / 64 + 1) self (drop n data)); [done|done| |done|]|].
      * rewrite Hc. do 4 f_equal. clear - Hp. unfold div_ceil. lia.
      * intros Hd. apply (f_equal length) in Hd. rewrite length_drop in Hd. simpl in Hd. clear - Hd Hlong. lia.
      * intros [self' out] [-> Hat']. rewrite <- Hn in *. rewrite length_drop in Hat'. split.
        -- rewrite <- (take_drop n data) at 3. rewrite xor_stream_app, length_take, Nat.min_l by (clear - Hlong; lia). done.
        -- replace (p + length data)%nat with (p + n + (length data - n))%nat by (clear - Hlong; lia). done.
    + rewrite (drop_ge data), (take_ge data), app_nil_r by done.
      destruct (Nat.ltb_spec (length data) n) as [Hlt2|Hge2]; cbn [mbind option_bind].
      * assert (Hu8 : u8 (Z.of_nat (length data)) = Z.of_nat (length data)) by (apply u8_id; unfold byte; clear - Hlt2 Hnd; lia).
        rewrite Hu8. apply wp_bind, wp_assert; [apply Z.ltb_lt; rewrite Hoff; clear - Hlt2 Hnd; lia|]. cbn [wp].
        split; [done|]. split; [done|]. split; [|split; [done|]].
        -- cbn [state]. rewrite Hc. do 4 f_equal. clear - Hp Hlt2 Hnd. unfold div_ceil. lia.
        -- cbn [keystream_leftover_offset keystream_leftover]. rewrite Hoff, Hlo.
           rewrite decide_False by (clear - Hp Hlt2 Hnd; lia). split; [clear - Hp Hlt2 Hnd; lia|].
           do 4 f_equal. clear - Hp Hlt2 Hnd. lia.
      * cbn [wp]. assert (Hdn : length data = n) by (clear - Hshort Hge2; lia). split; [done|].
        split; [done|]. split; [|split; [done|]].
        -- cbn [state]. rewrite Hc. do 4 f_equal. clear - Hp Hdn Hnd. unfold div_ceil. lia.
        -- rewrite decide_True by (clear - Hn Hdn; lia). done.
  - case_decide as Hp; [|destruct Ho as [Ho _]; clear - Ho Hge Hp; lia].
    assert (Hp64 : p = (64 * (p / 64))%nat) by (clear - Hp; lia).
    eapply wp_mono; [apply (from_boundary s0 c (p / 64) self data [] H0 Hs); [|done|by destruct data]|].
    + rewrite Hc. do 4 f_equal. clear - Hp. unfold div_ceil. lia.
    + intros [self' out] [-> Hat']. rewrite <- Hp64 in Hat'. by rewrite <- Hp64.
Qed.

(** Past the last counter the cipher panics, before it has changed anything. *)
Lemma xor_keystream_panics s0 c p self data : IS_IETF = true -> 0 <= c -> At s0 c p self -> data <> [] ->
  c + Z.of_nat (div_ceil p 64) <= 2 ^ 32 - 1 < c + Z.of_nat (div_ceil (p + length data) 64) ->
  xor_keystream ROUNDS IS_IETF self data = None.
Proof.
  intros Hi Hc0 (Hs & Hc & Hl & Ho) Hne Hmax. unfold xor_keystream.
  destruct (Nat.eqb_spec (length data) 0) as [Hz|Hz]; [by destruct data|]. rewrite Hi in *. rewrite Hc.
  cbn [mbind option_bind]. replace counters with (2 ^ 32) by (unfold counters; by rewrite Hi).
  set (left := if keystream_leftover_offset self <? 63 then 63 - keystream_leftover_offset self else 0).
  assert (Hleft : left = if decide (p mod 64 = 0)%nat then 0 else Z.of_nat (64 - p mod 64)).
  { unfold left. clear Hc. case_decide; [by rewrite Ho|]. destruct Ho as [-> _].
    destruct (Z.ltb_spec (Z.of_nat (p mod 64) - 1) 63); lia. }
  unfold rassert. replace (_ <=? 2 ^ 32 - 1) with false; [done|]. symmetry. apply Z.leb_gt. rewrite Hleft.
  rewrite Z.mod_small; revert Hmax; clear - Hc0 Hz; unfold div_ceil, BLOCK_SIZE; try case_decide; lia.
Qed.

(** A caller that feeds pieces one after another. *)
Fixpoint xor_all (self : ChaCha) (pieces : list (list Z)) : option (list (list Z)) :=
  match pieces with
  | [] => Some []
  | piece :: rest =>
      '(self, out) ← xor_keystream ROUNDS IS_IETF self piece;
      outs ← xor_all self rest;
      Some (out :: outs)
  end.

Lemma xor_all_wp s0 c pieces p self : length s0 = 16%nat -> 0 <= c -> At s0 c p self ->
  (IS_IETF = true -> c + Z.of_nat (div_ceil (p + length (concat pieces)) 64) <= 2 ^ 32 - 1) ->
  wp (xor_all self pieces) (fun outs =>
    concat outs = xor_stream (key_byte s0 c) p (concat pieces) /\ map length outs = map length pieces).
Proof.
  intros H0 Hc. revert p self. induction pieces as [|d rest IH]; intros p self Hat Hmax; [done|]. cbn [xor_all concat] in *.
  rewrite length_app in Hmax. apply wp_bind. eapply wp_mono; [apply (xor_keystream_wp s0 c p); [done|done|done|]|].
  { intros Hi. specialize (Hmax Hi). unfold div_ceil in *. lia. }
  intros [self' out] [-> Hat']. apply wp_bind. eapply wp_mono; [apply (IH _ _ Hat')|].
  { by rewrite <- Nat.add_assoc. }
  intros outs [Ho Hl]. cbn [wp concat map]. rewrite Ho, Hl, xor_stream_app, length_xor_stream. done.
Qed.

Lemma xor_all_panics s0 c pieces p self : length s0 = 16%nat -> 0 <= c -> At s0 c p self -> IS_IETF = true ->
  c + Z.of_nat (div_ceil p 64) <= 2 ^ 32 - 1 < c + Z.of_nat (div_ceil (p + length (concat pieces)) 64) ->
  xor_all self pieces = None.
Proof.
  intros H0 Hc. revert p self. induction pieces as [|d rest IH]; intros p self Hat Hi Hmax.
  { cbn in Hmax. rewrite Nat.add_0_r in Hmax. lia. }
  cbn [xor_all concat] in *. rewrite length_app in Hmax.
  destruct (decide (2 ^ 32 - 1 < c + Z.of_nat (div_ceil (p + length d) 64))) as [Hover|Hfit].
  - rewrite (xor_keystream_panics s0 c p); [done|done|done|done| |lia].
    intros ->. cbn [length] in Hover. rewrite Nat.add_0_r in Hover. lia.
  - pose proof (wp_elim _ _ (xor_keystream_wp s0 c p self d H0 Hc Hat ltac:(intros _; lia))) as ([self' out] & -> & -> & Hat').
    cbn [mbind option_bind]. rewrite (IH _ _ Hat' Hi); [done|]. rewrite <- Nat.add_assoc. lia.
Qed.

(** Jumping to a block, from any state of the same key and nonce. *)
Lemma set_counter_wp s0 c self : Same s0 (state self) -> length (keystream_leftover self) = 63%nat ->
  wp (set_counter IS_IETF self c) (At s0 c 0).
Proof.
  intros Hs Hl. unfold set_counter. rewrite inject_counter_spec by apply Hs. cbn [mbind option_bind wp].
  split; [by apply same_inject|]. split; [|split; [done|done]]. cbn [state].
  rewrite extract_inject by apply Hs. by rewrite Z.add_0_r.
Qed.

Lemma at_same s0 c p self : At s0 c p self -> Same s0 (state self) /\ length (keystream_leftover self) = 63%nat.
Proof. intros (Hs & _ & Hl & _). by split. Qed.

Lemma bytes_block s0 c : bytes (block s0 c).
Proof.
  unfold block, rfc_block, serialize. generalize (inject s0 c) as y, (rfc_rounds (ROUNDS / 2) (inject s0 c)) as x.
  intros y x. revert y. induction x as [|a x IH]; intros [|b y]; [constructor..|].
  apply (Forall_app_2 _ (to_le 4 _)); [apply bytes_to_le|apply IH].
Qed.

Lemma byte_key s0 c i : byte (key_byte s0 c i).
Proof.
  unfold key_byte. destruct (block s0 (c + Z.of_nat (i / 64)) !! _) as [b|] eqn:E; [|unfold byte; simpl; lia].
  by apply (bytes_lookup _ _ _ (bytes_block _ _) E).
Qed.

Lemma block_stream s0 c : length s0 = 16%nat -> xor_stream (key_byte s0 c) 0 (replicate 64 0) = block s0 c.
Proof.
  intros H0. assert (Hz : forall f n p, xor_stream f p (replicate n 0) = map f (seq p n)).
  { intros f n. induction n as [|n IH]; intros p; simpl; [done|]. by rewrite IH. }
  rewrite Hz. apply list_eq. intros i. rewrite list_lookup_fmap.
  destruct (decide (i < 64)%nat) as [Hi|Hi].
  - rewrite lookup_seq_lt by done. cbn [fmap option_fmap option_map]. by rewrite block_bytes.
  - rewrite lookup_seq_ge by lia. symmetry. apply lookup_ge_None_2. rewrite length_block by done. lia.
Qed.

(** ** Initial states *)

Definition words_of (n : nat) (l : list Z) : list Z := map (fun i => from_le (take 4 (drop (4 * i) l))) (seq 0 n).

Definition initial (key nonce : list Z) : list Z :=
  CONSTANT ++ words_of 8 key ++ (if IS_IETF then 0 :: words_of 3 nonce else 0 :: 0 :: words_of 2 nonce).

End Stream.

Lemma words_at n l : length l = (4 * n)%nat -> mapM (fun i => word_at l (4 * i)) (seq 0 n) = Some (words_of n l).
Proof.
  intros Hl. unfold words_of. apply mapM_Some. apply Forall2_fmap_r. apply Forall_Forall2_diag.
  apply Forall_seq. intros i Hi. unfold word_at, slice. rewrite decide_True by lia. cbn [mbind option_bind].
  by replace (4 * i + 4 - 4 * i)%nat with 4%nat by lia.
Qed.

Section Start.
Context (ROUNDS : nat) (IS_IETF : bool) (key nonce : list Z).
Hypothesis key_ok : length key = 32%nat.
Hypothesis nonce_ok : length nonce = if IS_IETF then 12%nat else 8%nat.

Lemma length_initial : length (initial IS_IETF key nonce) = 16%nat.
Proof. unfold initial. by destruct IS_IETF. Qed.

Lemma new_spec : new IS_IETF key nonce = Some (mkChaCha (initial IS_IETF key nonce) (replicate 63 0) 63).
Proof.
  unfold new, key_words, initial. rewrite (words_at 8) by done. cbn [mbind option_bind].
  destruct IS_IETF; by rewrite words_at by done.
Qed.

Lemma start_wp c : exists self, (self ← new IS_IETF key nonce; set_counter IS_IETF self c) = Some self /\
  At ROUNDS IS_IETF (initial IS_IETF key nonce) c 0 self.
Proof.
  rewrite new_spec. cbn [mbind option_bind].
  apply wp_elim, set_counter_wp; [|done]. split; [by apply length_initial|done].
Qed.
End Start.

(** HChaCha20 by rows: the first and the last row after ten double rounds. *)
Definition rfc_hchacha20 (key input : list Z) : list Z :=
  let s := rfc_rounds 10 (CONSTANT ++ words_of 8 key ++ words_of 4 input) in
  concat (map (to_le 4) (take 4 s ++ drop 12 s)).

Lemma length_words l : length (concat (map (to_le 4) l)) = (4 * length l)%nat.
Proof. induction l as [|x l IH]; [done|]. cbn [map concat length]. rewrite length_app, IH, length_to_le. lia. Qed.

Lemma outer_rows s : length s = 16%nat ->
  (lo ← slice s 0 4; hi ← slice s 12 16; Some (concat (map (to_le 4) lo) ++ concat (map (to_le 4) hi)))
    = Some (concat (map (to_le 4) (take 4 s ++ drop 12 s))) /\
  length (concat (map (to_le 4) (take 4 s ++ drop 12 s))) = 32%nat.
Proof.
  intros Hl. unfold slice. rewrite !decide_True by lia. cbn [mbind option_bind].
  split; [|by rewrite length_words, length_app, length_take, length_drop, Hl].
  rewrite drop_0, (take_ge (drop 12 s)) by (rewrite length_drop; lia). by rewrite map_app, concat_app.
Qed.

Lemma hchacha20_spec key input : length key = 32%nat -> length input = 16%nat ->
  hchacha20 key input = Some (rfc_hchacha20 key input) /\ length (rfc_hchacha20 key input) = 32%nat.
Proof.
  intros Hk Hi. assert (Hl : length (CONSTANT ++ words_of 8 key ++ words_of 4 input) = 16%nat) by done.
  unfold rfc_hchacha20, hchacha20, key_words. rewrite (words_at 8), (words_at 4), !some_bind by done.
  destruct (rounds_rfc 10 _ Hl) as [Hr Hl']. rewrite Hr, some_bind. by apply outer_rows.
Qed.

Lemma derive_subkey_spec key nonce : length key = 32%nat -> length nonce = 24%nat ->
  derive_subkey key nonce = Some (rfc_hchacha20 key (take 16 nonce), [0; 0; 0; 0] ++ drop 16 nonce).
Proof.
  intros Hk Hn. unfold derive_subkey, slice. rewrite !decide_True by lia. cbn [mbind option_bind].
  rewrite drop_0. destruct (hchacha20_spec key (take (16 - 0) nonce) Hk) as [-> _]; [rewrite length_take; lia|].
  cbn [mbind option_bind]. unfold copy_at. rewrite (take_ge (drop 16 nonce)) by (rewrite length_drop; lia).
  rewrite decide_True by (rewrite length_drop; simpl; lia). cbn [mbind option_bind].
  rewrite length_drop, Hn. by rewrite app_nil_r.
Qed.

(** ** The theorems *)

(** The cipher is the RFC 8439 stream, however it is fed.  With any number
    of rounds, either layout and any start counter, the outputs for a list of
    pieces are, put together, the whole input XORed with the key stream: byte
    [i] of it is byte [i mod 64] of the block with counter [c + i / 64], and a
    block is computed by rows ([row_round], rotating the rows for the
    diagonals) instead of by index; applying the stream again gives the input
    back.  In the IETF layout the call that would need a counter above
    [2^32 - 2] panics, and no other call does. *)
Theorem chacha_streaming (ROUNDS : nat) (IS_IETF : bool) (key nonce : list Z) (c : Z) (pieces : list (list Z)) :
  length key = 32%nat -> length nonce = (if IS_IETF then 12 else 8)%nat -> 0 <= c < counters IS_IETF ->
  let stream := xor_stream (key_byte ROUNDS IS_IETF (initial IS_IETF key nonce) c) 0 in
  let run := self ← new IS_IETF key nonce; self ← set_counter IS_IETF self c; xor_all ROUNDS IS_IETF self pieces in
  if IS_IETF && (2 ^ 32 - 1 <? c + Z.of_nat (div_ceil (length (concat pieces)) 64)) then run = None
  else exists outs, run = Some outs /\ map length outs = map length pieces /\
    concat outs = stream (concat pieces) /\ stream (concat outs) = concat pieces.
Proof.
  intros Hk Hn Hc stream run. destruct (start_wp ROUNDS IS_IETF key nonce Hk Hn c) as (self & Hself & Hat).
  pose proof (length_initial IS_IETF key nonce Hn) as Hl.
  assert (Hrun : run = xor_all ROUNDS IS_IETF self pieces).
  { unfold run. destruct (new IS_IETF key nonce) as [s0|]; [|done]. cbn [mbind option_bind] in *. by rewrite Hself. }
  rewrite Hrun. destruct IS_IETF eqn:Hi; cbn [andb].
  - destruct (Z.ltb_spec (2 ^ 32 - 1) (c + Z.of_nat (div_ceil (length (concat pieces)) 64))) as [Hover|Hfit].
    + apply (xor_all_panics ROUNDS true (initial true key nonce) c pieces 0); try done; [lia|].
      split; [|done]. unfold counters in Hc. change (div_ceil 0 64) with 0%nat. lia.
    + pose proof (wp_elim _ _ (xor_all_wp ROUNDS true _ c pieces 0 self Hl ltac:(lia) Hat ltac:(intros _; exact Hfit)))
        as (outs & -> & Ho & Hm). exists outs. split_and!; [done|done|done|]. rewrite Ho. apply xor_stream_involutive.
  - pose proof (wp_elim _ _ (xor_all_wp ROUNDS false _ c pieces 0 self Hl ltac:(lia) Hat ltac:(done)))
      as (outs & -> & Ho & Hm). exists outs. split_and!; [done|done|done|]. rewrite Ho. apply xor_stream_involutive.
Qed.

Definition rfc_nonce : list Z := [0; 0; 0; 9; 0; 0; 0; 74; 0; 0; 0; 0].

Lemma chacha_streaming_witness :
  let pieces := [replicate 3 0; replicate 100 7; []; replicate 61 1] in
  let stream := xor_stream (key_byte 20 true (initial true (seqZ 0 32) rfc_nonce) 1) 0 in
  exists outs, (self ← new true (seqZ 0 32) rfc_nonce; self ← set_counter true self 1; xor_all 20 true self pieces) = Some outs /\
    map length outs = map length pieces /\ concat outs = stream (concat pieces) /\ stream (concat outs) = concat pieces.
Proof. apply (chacha_streaming 20 true (seqZ 0 32) rfc_nonce 1 [replicate 3 0; replicate 100 7; []; replicate 61 1]); [done|done|done]. Defined.

(** The block of RFC 8439, section 2.3.2. *)
Example rfc_8439_block :
  take 16 (rfc_block 20 (inject true (initial true (seqZ 0 32) rfc_nonce) 1)) =
  [16; 241; 231; 228; 209; 59; 89; 21; 80; 15; 221; 31; 163; 32; 113; 196].
Proof. vm_compute. reflexivity. Qed.

End ChaCha.
