(* ===== verification/ChaChaPoly.v ===== *)
(** * crypto: ChaCha20-Poly1305 and XChaCha20-Poly1305

    src/crypto/src/chacha/chacha20_poly1305.rs, and the trait [Aead] of
    src/crypto/src/crypto.rs with its provided methods.  The stream cipher, the
    MAC and the comparison are those of [ChaCha], [Poly1305] and [ConstEq]
    ([word] is the word size of the comparison); a [Hash] is the list of its
    bytes; zeroization is not modelled.

    [AeadLaws] is the contract of the trait: there is a sealing function;
    encrypting computes it, decrypting finds its preimage or rejects.  The
    theorem on the provided methods is proved from it, and each construction
    discharges it with the function RFC 8439 prescribes. *)
From Stdlib Require Import ZArith Lia ZifyNat.
From stdpp Require Import base list numbers option.
From S2P Require Import Prelude Words ConstEq Poly1305 ChaCha.
Import ChaCha.

Module ChaChaPoly.

#[local] Opaque rfc_rounds double_round.

Inductive AeadError := InvalidKey | InvalidNonce | InvalidCiphertext | Unsupported.

(** ** The trait *)

(** The methods that work in place: the buffer is passed and returned. *)
Class Aead (A : Type) := {
  TAG_SIZE : nat;
  NONCE_SIZE : nat;
  encrypt_in_place : A -> list Z -> list Z -> list Z -> option (list Z * list Z);
  decrypt_in_place : A -> list Z -> list Z -> list Z -> list Z -> option (list Z * result unit AeadError);
}.
Arguments TAG_SIZE A {_}.
Arguments NONCE_SIZE A {_}.

Section Provided.
Context {A : Type} `{!Aead A}.

Definition encrypt (self : A) (plaintext nonce aad : list Z) : option (list Z) :=
  '(ciphertext, tag) ← encrypt_in_place self plaintext nonce aad;
  Some (ciphertext ++ tag).

Definition decrypt (self : A) (ciphertext nonce aad : list Z) : option (result (list Z) AeadError) :=
  if (length ciphertext <? TAG_SIZE A)%nat then Some (Err InvalidCiphertext) else
  let plaintext_length := (length ciphertext - TAG_SIZE A)%nat in
  plaintext ← slice ciphertext 0 plaintext_length;
  tag ← slice ciphertext plaintext_length (length ciphertext);
  '(plaintext, r) ← decrypt_in_place self plaintext nonce aad tag;
  Some (match r with Ok _ => Ok plaintext | Err e => Err e end).
End Provided.

(** The contract.  [valid] are the keys, [MAX_LEN] the longest message. *)
Class AeadLaws (A : Type) `{!Aead A} := {
  valid : A -> Prop;
  MAX_LEN : Z;
  seal : A -> list Z -> list Z -> list Z -> list Z * list Z;
  seal_length self nonce aad m : length (seal self nonce aad m).1 = length m /\
    length (seal self nonce aad m).2 = TAG_SIZE A;
  seal_inj self nonce aad m m' : seal self nonce aad m = seal self nonce aad m' -> m = m';
  seal_bytes self nonce aad m : bytes m -> bytes (seal self nonce aad m).1 /\ bytes (seal self nonce aad m).2;
  encrypt_law self nonce aad m : valid self -> bytes m -> bytes aad -> length nonce = NONCE_SIZE A ->
    Z.of_nat (length m) <= MAX_LEN -> encrypt_in_place self m nonce aad = Some (seal self nonce aad m);
  decrypt_law self nonce aad c tag : valid self -> bytes c -> bytes aad -> bytes tag -> length nonce = NONCE_SIZE A ->
    wp (decrypt_in_place self c nonce aad tag) (fun '(m, r) => match r with
      | Ok _ => seal self nonce aad m = (c, tag) /\ bytes m /\ Z.of_nat (length m) <= MAX_LEN
      | Err e => e = InvalidCiphertext /\
          forall m, Z.of_nat (length m) <= MAX_LEN -> seal self nonce aad m <> (c, tag)
      end);
}.

(** ** The constructions *)

Section Constructions.
Context (word : nat).

Record ChaCha20Poly1305 := mkChaCha20Poly1305 { key : list Z }.
Record XChaCha20Poly1305 := mkXChaCha20Poly1305 { xkey : list Z }.

Definition update_poly1305_padded (mac : Poly1305.State) (data : list Z) : option Poly1305.State :=
  mac ← Poly1305.update mac data;
  let rem := (length data mod 16)%nat in
  if negb (rem =? 0)%nat then pad ← slice (replicate 15 0) 0 (16 - rem); Poly1305.update mac pad else Some mac.

(** The tag of the associated data and the ciphertext. *)
Definition compute_tag (poly1305_key aad in_out : list Z) : option (list Z) :=
  mac ← Poly1305.new poly1305_key;
  mac ← update_poly1305_padded mac aad;
  mac ← update_poly1305_padded mac in_out;
  mac ← Poly1305.update mac (to_le 8 (Z.of_nat (length aad)));
  mac ← Poly1305.update mac (to_le 8 (Z.of_nat (length in_out)));
  Poly1305.finalize mac.

Definition poly1305_key_gen (key nonce : list Z) : option (list Z * ChaCha) :=
  cipher ← ChaCha.new true key nonce;
  cipher ← set_counter true cipher 0;
  '(cipher, block) ← xor_keystream 20 true cipher (replicate 64 0);
  key ← slice block 0 32;
  Some (key, cipher).

Definition chacha_encrypt_in_place (self : ChaCha20Poly1305) (in_out nonce aad : list Z) : option (list Z * list Z) :=
  _ ← rassert (Z.of_nat (length in_out) <=? CHACHA20_IETF_MAX_LEN);
  _ ← rassert (length nonce =? 12)%nat;
  '(poly1305_key, cipher) ← poly1305_key_gen (key self) nonce;
  cipher ← set_counter true cipher 1;
  '(_, in_out) ← xor_keystream 20 true cipher in_out;
  tag ← compute_tag poly1305_key aad in_out;
  Some (in_out, tag).

Definition chacha_decrypt_in_place (self : ChaCha20Poly1305) (in_out nonce aad tag : list Z)
    : option (list Z * result unit AeadError) :=
  if CHACHA20_IETF_MAX_LEN <? Z.of_nat (length in_out) then Some (in_out, Err InvalidCiphertext) else
  if negb (length tag =? 16)%nat then Some (in_out, Err InvalidCiphertext) else
  if negb (length nonce =? 12)%nat then Some (in_out, Err InvalidNonce) else
  '(poly1305_key, cipher) ← poly1305_key_gen (key self) nonce;
  computed ← compute_tag poly1305_key aad in_out;
  equal ← ConstEq.constant_time_eq word computed tag;
  if negb equal then Some (in_out, Err InvalidCiphertext) else
  cipher ← set_counter true cipher 1;
  '(_, in_out) ← xor_keystream 20 true cipher in_out;
  Some (in_out, Ok tt).

(** The one-time key of the extended construction, from its own cipher. *)
Definition xchacha_otk (subkey ietf_nonce : list Z) : option (list Z) :=
  keygen ← ChaCha.new true subkey ietf_nonce;
  keygen ← set_counter true keygen 0;
  '(_, block) ← xor_keystream 20 true keygen (replicate 64 0);
  slice block 0 32.

Definition xchacha_encrypt_in_place (self : XChaCha20Poly1305) (in_out nonce aad : list Z) : option (list Z * list Z) :=
  _ ← rassert (Z.of_nat (length in_out) <=? CHACHA20_IETF_MAX_LEN);
  _ ← rassert (length nonce =? 24)%nat;
  '(subkey, ietf_nonce) ← derive_subkey (xkey self) nonce;
  otk ← xchacha_otk subkey ietf_nonce;
  cipher ← ChaCha.new true subkey ietf_nonce;
  cipher ← set_counter true cipher 1;
  '(_, in_out) ← xor_keystream 20 true cipher in_out;
  tag ← compute_tag otk aad in_out;
  Some (in_out, tag).

Definition xchacha_decrypt_in_place (self : XChaCha20Poly1305) (in_out nonce aad tag : list Z)
    : option (list Z * result unit AeadError) :=
  if CHACHA20_IETF_MAX_LEN <? Z.of_nat (length in_out) then Some (in_out, Err InvalidCiphertext) else
  if negb (length tag =? 16)%nat then Some (in_out, Err InvalidCiphertext) else
  if negb (length nonce =? 24)%nat then Some (in_out, Err InvalidNonce) else
  '(subkey, ietf_nonce) ← derive_subkey (xkey self) nonce;
  otk ← xchacha_otk subkey ietf_nonce;
  cipher ← ChaCha.new true subkey ietf_nonce;
  cipher ← set_counter true cipher 1;
  computed ← compute_tag otk aad in_out;
  equal ← ConstEq.constant_time_eq word computed tag;
  if negb equal then Some (replicate (length in_out) 0, Err InvalidCiphertext) else
  '(_, in_out) ← xor_keystream 20 true cipher in_out;
  Some (in_out, Ok tt).

#[export] Instance ChaCha20Poly1305_Aead : Aead ChaCha20Poly1305 := {|
  TAG_SIZE := 16; NONCE_SIZE := 12;
  encrypt_in_place := chacha_encrypt_in_place; decrypt_in_place := chacha_decrypt_in_place;
|}.
#[export] Instance XChaCha20Poly1305_Aead : Aead XChaCha20Poly1305 := {|
  TAG_SIZE := 16; NONCE_SIZE := 24;
  encrypt_in_place := xchacha_encrypt_in_place; decrypt_in_place := xchacha_decrypt_in_place;
|}.
End Constructions.

(** ** The construction of RFC 8439 *)

Definition rfc_key_byte (key nonce : list Z) (c : Z) (i : nat) : Z := key_byte 20 true (initial true key nonce) c i.
Definition rfc_otk (key nonce : list Z) : list Z := take 32 (block 20 true (initial true key nonce) 0).
Definition pad16 (d : list Z) : list Z := d ++ replicate ((16 - length d mod 16) mod 16) 0.
Definition mac_data (aad c : list Z) : list Z :=
  pad16 aad ++ pad16 c ++ to_le 8 (Z.of_nat (length aad)) ++ to_le 8 (Z.of_nat (length c)).
Definition rfc_tag (key nonce aad c : list Z) : list Z := Poly1305.poly1305_spec (rfc_otk key nonce) (mac_data aad c).
Definition rfc_seal (key nonce aad m : list Z) : list Z * list Z :=
  let c := xor_stream (rfc_key_byte key nonce 1) 0 m in (c, rfc_tag key nonce aad c).

Lemma update_padded_wp k M st data : Poly1305.repr k M st -> bytes data ->
  wp (update_poly1305_padded st data) (Poly1305.repr k (M ++ pad16 data)).
Proof.
  intros Hst Hd. unfold update_poly1305_padded, pad16. apply wp_bind.
  eapply wp_mono; [by apply Poly1305.update_wp|]. intros st' Hst'. rewrite app_assoc.
  destruct (Nat.eqb_spec (length data mod 16) 0) as [Hz|Hz]; cbn [negb].
  - cbn [wp]. rewrite Hz. cbn. by rewrite app_nil_r.
  - apply wp_bind, wp_slice; [lia|rewrite length_replicate; lia|]. rewrite drop_0, take_replicate, Nat.sub_0_r.
    replace (16 - length data mod 16)%nat with ((16 - length data mod 16) mod 16)%nat at 1 by lia.
    rewrite Nat.min_l by lia. apply Poly1305.update_wp; [done|]. apply Forall_replicate. unfold byte. lia.
Qed.

Lemma compute_tag_spec k aad c : bytes k -> length k = 32%nat -> bytes aad -> bytes c ->
  compute_tag k aad c = Some (Poly1305.poly1305_spec k (mac_data aad c)).
Proof.
  intros Hk Hl Ha Hc. enough (wp (compute_tag k aad c) (fun t => t = Poly1305.poly1305_spec k (mac_data aad c))) as H.
  { apply wp_elim in H as (t & -> & ->). done. }
  unfold compute_tag. apply wp_bind. eapply wp_mono; [by apply Poly1305.new_wp|]. intros s0 H0.
  apply wp_bind. eapply wp_mono; [by apply (update_padded_wp k [])|]. intros s1 H1.
  apply wp_bind. eapply wp_mono; [by apply update_padded_wp|]. intros s2 H2.
  apply wp_bind. eapply wp_mono; [apply Poly1305.update_wp; [done|apply bytes_to_le]|]. intros s3 H3.
  apply wp_bind. eapply wp_mono; [apply Poly1305.update_wp; [done|apply bytes_to_le]|]. intros s4 H4.
  rewrite (Poly1305.finalize_wp _ _ _ H4). cbn [wp]. unfold mac_data. by rewrite <- !app_assoc.
Qed.

Section Spec.
Context (key nonce : list Z).
Hypothesis key_ok : length key = 32%nat.
Hypothesis nonce_ok : length nonce = 12%nat.

Let s0 := initial true key nonce.

Lemma otk_ok : bytes (rfc_otk key nonce) /\ length (rfc_otk key nonce) = 32%nat.
Proof.
  unfold rfc_otk. split; [apply Forall_take, bytes_block|].
  rewrite length_take, length_block; [done|]. by apply length_initial.
Qed.

Lemma bytes_seal aad m : bytes m -> bytes (rfc_seal key nonce aad m).1.
Proof. apply bytes_xor_stream. intros i. unfold rfc_key_byte. apply byte_key. Qed.

Lemma rfc_seal_fst aad m c : (rfc_seal key nonce aad m).1 = c <-> m = xor_stream (rfc_key_byte key nonce 1) 0 c.
Proof. cbn [rfc_seal fst]. split; [intros <-|intros ->]; by rewrite xor_stream_involutive. Qed.

(** The one-time key, and the cipher it leaves behind. *)
Lemma key_gen_wp : wp (poly1305_key_gen key nonce) (fun '(k, cipher) =>
  k = rfc_otk key nonce /\ Same true s0 (state cipher) /\ length (keystream_leftover cipher) = 63%nat).
Proof.
  unfold poly1305_key_gen. destruct (start_wp 20 true key nonce key_ok nonce_ok 0) as (self & Hself & Hat).
  destruct (ChaCha.new true key nonce) as [c0|]; [|done]. rewrite some_bind in Hself. rewrite some_bind, Hself, some_bind.
  pose proof (length_initial true key nonce nonce_ok) as Hl. apply wp_bind.
  eapply wp_mono; [apply (xor_keystream_wp 20 true s0 0 0); [done|done|done|]|].
  { intros _. rewrite length_replicate. by vm_compute. }
  intros [cipher out] [Hout Hat']. rewrite block_stream in Hout by done.
  apply wp_bind, wp_slice; [lia|rewrite Hout, length_block by done; lia|]. cbn [wp].
  split; [by rewrite Hout|]. eapply (at_same 20 true s0 0). exact Hat'.
Qed.

Lemma otk_wp : wp (xchacha_otk key nonce) (fun k => k = rfc_otk key nonce).
Proof.
  pose proof key_gen_wp as H. revert H. unfold poly1305_key_gen, xchacha_otk.
  destruct (ChaCha.new true key nonce) as [c|]; [|done]. rewrite !some_bind.
  destruct (set_counter true c 0) as [c0|]; [|done]. rewrite !some_bind.
  destruct (xor_keystream 20 true c0 (replicate 64 0)) as [[c1 out]|]; [|done]. rewrite !some_bind.
  destruct (slice out 0 32) as [k|]; [|done]. rewrite some_bind. by intros [H _].
Qed.

(** Block 1 onwards fits the counter for every admitted length. *)
Lemma xor_wp {B} cipher m (k : list Z -> option B) (Q : B -> Prop) : At 20 true s0 1 0 cipher ->
  Z.of_nat (length m) <= CHACHA20_IETF_MAX_LEN -> wp (k (xor_stream (rfc_key_byte key nonce 1) 0 m)) Q ->
  wp ('(_, out) ← xor_keystream 20 true cipher m; k out) Q.
Proof.
  intros Hat Hm Hk. apply wp_bind.
  eapply wp_mono; [apply (xor_keystream_wp 20 true s0 1 0 cipher m); [by apply length_initial|done|done|]|].
  - intros _. unfold CHACHA20_IETF_MAX_LEN in Hm. unfold div_ceil. lia.
  - intros [c2 out] [-> _]. exact Hk.
Qed.

Lemma message_wp {B} cipher m (k : list Z -> option B) (Q : B -> Prop) :
  Same true s0 (state cipher) -> length (keystream_leftover cipher) = 63%nat ->
  Z.of_nat (length m) <= CHACHA20_IETF_MAX_LEN -> wp (k (xor_stream (rfc_key_byte key nonce 1) 0 m)) Q ->
  wp (cipher ← set_counter true cipher 1; '(_, out) ← xor_keystream 20 true cipher m; k out) Q.
Proof.
  intros Hs Hl Hm Hk. apply wp_bind. eapply wp_mono; [by apply (set_counter_wp 20 true s0 1)|]. intros c1 Hat.
  by apply xor_wp.
Qed.

Lemma tag_wp {B} aad c (k : list Z -> option B) (Q : B -> Prop) : bytes aad -> bytes c ->
  wp (k (rfc_tag key nonce aad c)) Q -> wp (tag ← compute_tag (rfc_otk key nonce) aad c; k tag) Q.
Proof. intros Ha Hc Hk. destruct otk_ok. unfold rfc_tag in Hk. by rewrite compute_tag_spec, some_bind by done. Qed.

Lemma length_seal aad m : length (rfc_seal key nonce aad m).1 = length m /\ length (rfc_seal key nonce aad m).2 = 16%nat.
Proof. split; [apply length_xor_stream|apply length_to_le]. Qed.

Lemma rfc_seal_iff aad m c tag : rfc_seal key nonce aad m = (c, tag) <->
  m = xor_stream (rfc_key_byte key nonce 1) 0 c /\ tag = rfc_tag key nonce aad c.
Proof.
  rewrite <- (rfc_seal_fst aad). unfold rfc_seal. cbn [fst]. split; [by intros [= <- <-]|by intros [<- ->]].
Qed.
End Spec.

(** ** The constructions compute it *)

Section Correct.
Context (word : nat).
Hypothesis word_ok : (0 < word <= 16)%nat.

Lemma byte_tag key nonce aad c : bytes (rfc_tag key nonce aad c).
Proof. apply bytes_to_le. Qed.

Lemma check_wp {B} key nonce aad c tag (k : bool -> option B) (Q : B -> Prop) :
  length key = 32%nat -> length nonce = 12%nat -> bytes aad -> bytes c -> bytes tag ->
  wp (k (bool_decide (rfc_tag key nonce aad c = tag))) Q ->
  wp (computed ← compute_tag (rfc_otk key nonce) aad c; equal ← ConstEq.constant_time_eq word computed tag; k equal) Q.
Proof.
  intros Hk Hn Ha Hc Ht H. apply tag_wp; [done..|]. apply wp_bind.
  eapply wp_mono; [apply (ConstEq.constant_time_eq_wp word); [lia|lia|apply byte_tag|done|done]|].
  intros r ->. erewrite bool_decide_ext; [exact H|]. naive_solver.
Qed.

(** Whether a ciphertext is long enough to be one, and its tag right. *)
Definition authentic (key nonce aad c tag : list Z) : Prop :=
  Z.of_nat (length c) <= CHACHA20_IETF_MAX_LEN /\ tag = rfc_tag key nonce aad c.

Lemma chacha_encrypt_spec self m nonce aad : length (key self) = 32%nat -> length nonce = 12%nat ->
  bytes m -> bytes aad -> Z.of_nat (length m) <= CHACHA20_IETF_MAX_LEN ->
  chacha_encrypt_in_place self m nonce aad = Some (rfc_seal (key self) nonce aad m).
Proof.
  intros Hk Hn Hm Ha Hl. apply wp_eq. unfold chacha_encrypt_in_place.
  apply wp_bind, wp_assert; [by apply Z.leb_le|]. apply wp_bind, wp_assert; [by apply Nat.eqb_eq|].
  apply wp_bind. eapply wp_mono; [by apply key_gen_wp|]. intros [k cipher] (-> & Hs & Hlo).
  apply (message_wp _ _ Hk Hn cipher m (fun in_out => tag ← compute_tag _ aad in_out; Some (in_out, tag))); [done..|].
  apply tag_wp; [done|done|by apply (bytes_seal _ _ aad)|done].
Qed.

Lemma chacha_decrypt_spec self c nonce aad tag : length (key self) = 32%nat -> length nonce = 12%nat ->
  bytes c -> bytes aad -> bytes tag ->
  wp (chacha_decrypt_in_place word self c nonce aad tag) (fun '(buf, r) =>
    authentic (key self) nonce aad c tag /\ buf = xor_stream (rfc_key_byte (key self) nonce 1) 0 c /\ r = Ok tt \/
    ~ authentic (key self) nonce aad c tag /\ buf = c /\ r = Err InvalidCiphertext).
Proof.
  intros Hk Hn Hc Ha Ht. unfold chacha_decrypt_in_place, authentic.
  destruct (Z.ltb_spec CHACHA20_IETF_MAX_LEN (Z.of_nat (length c))) as [Hl|Hl]; [right; cbn [wp]; split_and!; [lia|done..]|].
  destruct (Nat.eqb_spec (length tag) 16) as [H16|H16]; cbn [negb].
  2: { right. split_and!; [|done..]. intros [_ ->]. apply H16, length_to_le. }
  destruct (Nat.eqb_spec (length nonce) 12) as [_|]; [|done]. cbn [negb].
  apply wp_bind. eapply wp_mono; [by apply key_gen_wp|]. intros [k cipher] (-> & Hs & Hlo).
  apply check_wp; [done..|]. case_bool_decide as He; cbn [negb].
  - apply (message_wp _ _ Hk Hn cipher c (fun in_out => Some (in_out, Ok tt))); [done..|]. left. by split_and!.
  - right. split_and!; [|done..]. intros [_ Htag]. exact (He (eq_sym Htag)).
Qed.

(** The subkey and the inner nonce. *)
Definition xkey_of (k nonce : list Z) : list Z := rfc_hchacha20 k (take 16 nonce).
Definition xnonce_of (nonce : list Z) : list Z := [0; 0; 0; 0] ++ drop 16 nonce.

Lemma derive_wp {B} xk nonce (k : list Z -> list Z -> option B) (Q : B -> Prop) :
  length xk = 32%nat -> length nonce = 24%nat ->
  (length (xkey_of xk nonce) = 32%nat -> length (xnonce_of nonce) = 12%nat -> wp (k (xkey_of xk nonce) (xnonce_of nonce)) Q) ->
  wp ('(subkey, ietf_nonce) ← derive_subkey xk nonce; k subkey ietf_nonce) Q.
Proof.
  clear word_ok. intros Hk Hn H. rewrite derive_subkey_spec, some_bind by done. apply H.
  - apply hchacha20_spec; [done|]. rewrite length_take. lia.
  - unfold xnonce_of. rewrite length_app, length_drop, Hn. done.
Qed.

(** The two ciphers of the extended construction: the one-time key, and the
    cipher set to block 1. *)
Lemma cipher_wp {B} k n (f : ChaCha -> option B) (Q : B -> Prop) : length k = 32%nat -> length n = 12%nat ->
  (forall cipher, Same true (initial true k n) (state cipher) -> length (keystream_leftover cipher) = 63%nat -> wp (f cipher) Q) ->
  wp (cipher ← ChaCha.new true k n; f cipher) Q.
Proof. intros Hk Hn H. rewrite new_spec, some_bind by done. apply H; [|done]. split; [by apply length_initial|done]. Qed.

Lemma xchacha_encrypt_spec self m nonce aad : length (xkey self) = 32%nat -> length nonce = 24%nat ->
  bytes m -> bytes aad -> Z.of_nat (length m) <= CHACHA20_IETF_MAX_LEN ->
  xchacha_encrypt_in_place self m nonce aad = Some (rfc_seal (xkey_of (xkey self) nonce) (xnonce_of nonce) aad m).
Proof.
  intros Hk Hn Hm Ha Hl. apply wp_eq. unfold xchacha_encrypt_in_place.
  apply wp_bind, wp_assert; [by apply Z.leb_le|]. apply wp_bind, wp_assert; [by apply Nat.eqb_eq|].
  apply derive_wp; [done..|]. intros Hk' Hn'.
  apply wp_bind. eapply wp_mono; [by apply otk_wp|]. intros k ->. apply cipher_wp; [done..|]. intros cipher Hs Hlo.
  apply (message_wp _ _ Hk' Hn' cipher m (fun in_out => tag ← compute_tag _ aad in_out; Some (in_out, tag))); [done..|].
  apply tag_wp; [done|done|by apply (bytes_seal _ _ aad)|done].
Qed.

Lemma xchacha_decrypt_spec self c nonce aad tag : length (xkey self) = 32%nat -> length nonce = 24%nat ->
  bytes c -> bytes aad -> bytes tag ->
  wp (xchacha_decrypt_in_place word self c nonce aad tag) (fun '(buf, r) =>
    authentic (xkey_of (xkey self) nonce) (xnonce_of nonce) aad c tag /\
      buf = xor_stream (rfc_key_byte (xkey_of (xkey self) nonce) (xnonce_of nonce) 1) 0 c /\ r = Ok tt \/
    ~ authentic (xkey_of (xkey self) nonce) (xnonce_of nonce) aad c tag /\ r = Err InvalidCiphertext /\
      buf = if (Z.of_nat (length c) <=? CHACHA20_IETF_MAX_LEN) && (length tag =? 16)%nat then replicate (length c) 0 else c).
Proof.
  intros Hk Hn Hc Ha Ht. unfold xchacha_decrypt_in_place, authentic.
  destruct (Z.ltb_spec CHACHA20_IETF_MAX_LEN (Z.of_nat (length c))) as [Hl|Hl].
  { right. replace (_ <=? _) with false by (symmetry; by apply Z.leb_gt). split_and!; [lia|done..]. }
  replace (_ <=? _) with true by (symmetry; by apply Z.leb_le).
  destruct (Nat.eqb_spec (length tag) 16) as [H16|H16]; cbn [negb andb].
  2: { right. split_and!; [|done..]. intros [_ ->]. apply H16, length_to_le. }
  destruct (Nat.eqb_spec (length nonce) 24) as [_|]; [|done]. cbn [negb].
  apply derive_wp; [done..|]. intros Hk' Hn'.
  apply wp_bind. eapply wp_mono; [by apply otk_wp|]. intros k ->. apply cipher_wp; [done..|]. intros cipher Hs Hlo.
  apply wp_bind. eapply wp_mono; [by eapply (set_counter_wp 20 true _ 1)|]. intros c1 Hat.
  apply check_wp; [done..|]. case_bool_decide as He; cbn [negb].
  - apply (xor_wp _ _ Hk' Hn' c1 c (fun in_out => Some (in_out, Ok tt))); [exact Hat|exact Hl|]. left. by split_and!.
  - right. split_and!; [|done..]. intros [_ Htag]. exact (He (eq_sym Htag)).
Qed.

(** The contract holds of both.  The laws of the sealing function are those of
    [rfc_seal], under a key and a nonce that depend on the construction. *)
Lemma rfc_seal_laws k n aad m :
  (length (rfc_seal k n aad m).1 = length m /\ length (rfc_seal k n aad m).2 = 16%nat) /\
  (forall m', rfc_seal k n aad m = rfc_seal k n aad m' -> m = m') /\
  (bytes m -> bytes (rfc_seal k n aad m).1 /\ bytes (rfc_seal k n aad m).2).
Proof.
  split_and!; [apply length_seal|apply length_seal| |].
  - intros m' E. apply (f_equal fst) in E. apply rfc_seal_fst in E. rewrite E.
    cbn [rfc_seal fst]. apply xor_stream_involutive.
  - intros Hm. split; [by apply bytes_seal|apply byte_tag].
Qed.

Lemma opened k n aad c tag : bytes c -> authentic k n aad c tag ->
  let m := xor_stream (rfc_key_byte k n 1) 0 c in
  rfc_seal k n aad m = (c, tag) /\ bytes m /\ Z.of_nat (length m) <= CHACHA20_IETF_MAX_LEN.
Proof.
  intros Hc [Hl Ht] m. split_and!; [by apply rfc_seal_iff| |by unfold m; rewrite length_xor_stream].
  apply bytes_xor_stream; [|done]. intros i. unfold rfc_key_byte. apply byte_key.
Qed.

Lemma not_sealed k n aad c tag : ~ authentic k n aad c tag ->
  forall m, Z.of_nat (length m) <= CHACHA20_IETF_MAX_LEN -> rfc_seal k n aad m <> (c, tag).
Proof.
  intros Hn m Hl E. apply Hn. pose proof (length_seal k n aad m) as [Hlen _]. rewrite E in Hlen. cbn [fst] in Hlen.
  apply rfc_seal_iff in E as [_ E]. split; [by rewrite Hlen|done].
Qed.

#[export] Program Instance ChaCha20Poly1305_laws : @AeadLaws ChaCha20Poly1305 (ChaCha20Poly1305_Aead word) := {|
  valid self := length (key self) = 32%nat;
  MAX_LEN := CHACHA20_IETF_MAX_LEN;
  seal self := rfc_seal (key self);
|}.
Next Obligation. intros. apply rfc_seal_laws. Qed.
Next Obligation. intros self nonce aad m m'. apply rfc_seal_laws. Qed.
Next Obligation. intros self nonce aad m. apply rfc_seal_laws. Qed.
Next Obligation. intros self nonce aad m Hk Hm Ha Hn Hl. by apply chacha_encrypt_spec. Qed.
Next Obligation.
  intros self nonce aad c tag Hk Hc Ha Ht Hn. eapply wp_mono; [by apply chacha_decrypt_spec|].
  intros [buf r] [(Hau & -> & ->)|(Hau & -> & ->)]; [by apply opened|]. split; [done|]. by apply not_sealed.
Qed.

#[export] Program Instance XChaCha20Poly1305_laws : @AeadLaws XChaCha20Poly1305 (XChaCha20Poly1305_Aead word) := {|
  valid self := length (xkey self) = 32%nat;
  MAX_LEN := CHACHA20_IETF_MAX_LEN;
  seal self nonce := rfc_seal (xkey_of (xkey self) nonce) (xnonce_of nonce);
|}.
Next Obligation. intros. apply rfc_seal_laws. Qed.
Next Obligation. intros self nonce aad m m'. apply rfc_seal_laws. Qed.
Next Obligation. intros self nonce aad m. apply rfc_seal_laws. Qed.
Next Obligation. intros self nonce aad m Hk Hm Ha Hn Hl. by apply xchacha_encrypt_spec. Qed.
Next Obligation.
  intros self nonce aad c tag Hk Hc Ha Ht Hn. eapply wp_mono; [by apply xchacha_decrypt_spec|].
  intros [buf r] [(Hau & -> & ->)|(Hau & -> & _)]; [by apply opened|]. split; [done|]. by apply not_sealed.
Qed.

End Correct.

(** ** The provided methods, from the laws *)

Section FromLaws.
Context {A : Type} `{AeadLaws A} (self : A) (nonce aad : list Z).
Hypothesis self_ok : valid self.
Hypothesis nonce_ok : length nonce = NONCE_SIZE A.
Hypothesis aad_ok : bytes aad.

(** The messages the construction admits. *)
Definition message (m : list Z) : Prop := bytes m /\ Z.of_nat (length m) <= MAX_LEN.

Lemma encrypt_seal m : message m ->
  encrypt self m nonce aad = Some ((seal self nonce aad m).1 ++ (seal self nonce aad m).2).
Proof. intros [Hm Hl]. unfold encrypt. rewrite encrypt_law, some_bind by done. by destruct (seal _ _ _ _). Qed.

(** The text of a sealed message splits in one way. *)
Lemma seal_split m ct : (seal self nonce aad m).1 ++ (seal self nonce aad m).2 = ct ->
  length ct = (length m + TAG_SIZE A)%nat /\ seal self nonce aad m = (take (length m) ct, drop (length m) ct).
Proof.
  destruct (seal_length self nonce aad m) as [L1 L2]. destruct (seal self nonce aad m) as [c t]. cbn [fst snd] in *.
  intros <-. rewrite <- L1, take_app_length, drop_app_length, length_app. split; [lia|done].
Qed.

Lemma encrypt_inj m m' : message m -> message m' -> encrypt self m nonce aad = encrypt self m' nonce aad -> m = m'.
Proof.
  intros Hm Hm'. rewrite !encrypt_seal by done. intros [= E].
  apply (seal_inj self nonce aad). revert E. generalize (eq_refl ((seal self nonce aad m').1 ++ (seal self nonce aad m').2)).
  generalize ((seal self nonce aad m').1 ++ (seal self nonce aad m').2) at 2 3 as ct. intros ct E' E.
  destruct (seal_split m _ E) as [L ->], (seal_split m' _ E') as [L' ->]. by replace (length m') with (length m) by lia.
Qed.

Lemma decrypt_wp ct : bytes ct -> wp (decrypt self ct nonce aad) (fun r => match r with
  | Ok m => message m /\ encrypt self m nonce aad = Some ct
  | Err e => e = InvalidCiphertext /\ forall m, message m -> encrypt self m nonce aad <> Some ct
  end).
Proof.
  intros Hct. unfold decrypt. destruct (Nat.ltb_spec (length ct) (TAG_SIZE A)) as [Hs|Hs].
  { split; [done|]. intros m Hm. rewrite encrypt_seal by done. intros [= E]. apply seal_split in E as [E _]. lia. }
  apply wp_bind, wp_slice; [lia|lia|]. apply wp_bind, wp_slice; [lia|lia|].
  rewrite drop_0, Nat.sub_0_r, (take_ge (drop _ ct)) by (rewrite length_drop; lia).
  set (n := (length ct - TAG_SIZE A)%nat). apply wp_bind.
  eapply wp_mono; [apply decrypt_law; [done|by apply Forall_take|done|by apply Forall_drop|done]|].
  intros [m [[]|e]]; cbn [wp].
  - intros (E & Hm). split; [done|]. rewrite encrypt_seal, E by done. cbn [fst snd]. by rewrite take_drop.
  - intros [-> Hno]. split; [done|]. intros m' Hm. rewrite encrypt_seal by done. intros [= E]. apply (Hno m'); [apply Hm|].
    apply seal_split in E as [L ->]. by replace n with (length m') by lia.
Qed.
End FromLaws.
Arguments message A {_ _} m.

(** ** The theorems *)

(** C5: decryption inverts encryption and rejects everything else: for any
    construction with the laws of the trait, a valid key, a nonce of its size
    and byte strings, [encrypt] of a message of at most [MAX_LEN] bytes returns
    a ciphertext that [decrypt] opens to the message; and on an arbitrary byte
    string [decrypt] returns without a panic, either the message whose
    encryption the string is, or [InvalidCiphertext], when it is the encryption
    of no message (shorter than the tag included). *)
Theorem aead_open_correct {A : Type} `{AeadLaws A} (self : A) (nonce aad : list Z) :
  valid self -> length nonce = NONCE_SIZE A -> bytes aad ->
  (forall m, message A m -> exists ct, encrypt self m nonce aad = Some ct /\
     length ct = (length m + TAG_SIZE A)%nat /\ decrypt self ct nonce aad = Some (Ok m)) /\
  (forall ct, bytes ct -> exists r, decrypt self ct nonce aad = Some r /\ match r with
     | Ok m => message A m /\ encrypt self m nonce aad = Some ct
     | Err e => e = InvalidCiphertext /\ forall m, message A m -> encrypt self m nonce aad <> Some ct
     end).
Proof.
  intros Hv Hn Ha.
  assert (Hdec := fun ct Hct => wp_elim _ _ (decrypt_wp self nonce aad Hv Hn Ha ct Hct)). split; [|exact Hdec].
  intros m Hm. pose proof (encrypt_seal self nonce aad Hv Hn Ha m Hm) as He. eexists. split; [exact He|].
  split; [by eapply seal_split|]. destruct (seal_bytes self nonce aad m (proj1 Hm)) as [B1 B2].
  destruct (Hdec _ (Forall_app_2 _ _ _ B1 B2)) as (r & -> & Hr). destruct r as [m'|e].
  - do 2 f_equal. destruct Hr as [Hm' E]. apply (encrypt_inj self nonce aad); [done..|]. by rewrite E, He.
  - destruct Hr as [_ Hno]. by destruct (Hno m Hm).
Qed.

Lemma aead_open_witness :
  let self := mkXChaCha20Poly1305 (seqZ 0 32) in
  let aead := XChaCha20Poly1305_Aead 8 in let nonce := seqZ 64 24 in
  (exists ct, @encrypt _ aead self [1; 2; 3] nonce [9] = Some ct /\ length ct = 19%nat /\
    @decrypt _ aead self ct nonce [9] = Some (Ok [1; 2; 3])) /\
  (exists r, @decrypt _ aead self (replicate 20 7) nonce [9] = Some r /\ match r with
     | Ok m => @encrypt _ aead self m nonce [9] = Some (replicate 20 7)
     | Err e => e = InvalidCiphertext
     end).
Proof.
  intros self aead nonce.
  pose proof (@aead_open_correct _ aead (XChaCha20Poly1305_laws 8 ltac:(lia)) self nonce [9] eq_refl eq_refl
    ltac:(repeat constructor; lia)) as [Hseal Hopen].
  split.
  - apply (Hseal [1; 2; 3]). split; [repeat constructor; lia|done].
  - destruct (Hopen (replicate 20 7)) as (r & Hr & H); [apply Forall_replicate; unfold byte; lia|].
    exists r. split; [exact Hr|]. destruct r; apply H.
Defined.

(** C3: both constructions are those of RFC 8439 and its extension to long
    nonces, and never panic on input of the right shape: sealing XORs the
    message with the key stream from block 1 and appends the Poly1305 tag, under
    the one-time key of block 0, of the padded associated data, the padded
    ciphertext and the two lengths; opening checks the length and the tag before
    it touches the text, and on a mismatch ChaCha20-Poly1305 leaves the buffer as
    it was, XChaCha20-Poly1305 zeroes it.  The extended construction runs under
    the HChaCha20 subkey of the first 16 nonce bytes. *)
Theorem chacha20_poly1305_correct (word : nat) (k nonce aad text tag : list Z) (extended : bool) :
  word ∈ [1; 2; 4; 8]%nat -> length k = 32%nat -> length nonce = (if extended then 24 else 12)%nat ->
  bytes aad -> bytes text -> bytes tag ->
  let k' := if extended then rfc_hchacha20 k (take 16 nonce) else k in
  let n' := if extended then [0; 0; 0; 0] ++ drop 16 nonce else nonce in
  let fits := Z.of_nat (length text) <=? CHACHA20_IETF_MAX_LEN in
  let stream := xor_stream (rfc_key_byte k' n' 1) 0 text in
  (if extended then xchacha_encrypt_in_place (mkXChaCha20Poly1305 k) text nonce aad
   else chacha_encrypt_in_place (mkChaCha20Poly1305 k) text nonce aad)
    = (if fits then Some (stream, Poly1305.poly1305_spec (rfc_otk k' n') (mac_data aad stream)) else None) /\
  (if extended then xchacha_decrypt_in_place word (mkXChaCha20Poly1305 k) text nonce aad tag
   else chacha_decrypt_in_place word (mkChaCha20Poly1305 k) text nonce aad tag)
    = Some (if fits && bool_decide (tag = Poly1305.poly1305_spec (rfc_otk k' n') (mac_data aad text)) then (stream, Ok tt)
            else (if extended && fits && (length tag =? 16)%nat then replicate (length text) 0 else text, Err InvalidCiphertext)).
Proof.
  intros Hw Hk Hn Ha Ht Htag k' n' fits stream. assert (Hw' : (0 < word <= 16)%nat).
  { apply list_elem_of_In in Hw. simpl in Hw. lia. }
  assert (Hau : authentic k' n' aad text tag <->
    fits && bool_decide (tag = Poly1305.poly1305_spec (rfc_otk k' n') (mac_data aad text)) = true).
  { unfold authentic, fits. by rewrite andb_true_iff, Z.leb_le, bool_decide_eq_true. }
  split.
  - unfold fits. destruct (Z.leb_spec (Z.of_nat (length text)) CHACHA20_IETF_MAX_LEN) as [Hl|Hl].
    + destruct extended; [by apply xchacha_encrypt_spec|by apply chacha_encrypt_spec].
    + destruct extended; unfold xchacha_encrypt_in_place, chacha_encrypt_in_place;
        replace (_ <=? _) with false by (symmetry; by apply Z.leb_gt); done.
  - apply wp_eq. destruct extended.
    + eapply wp_mono; [by apply (xchacha_decrypt_spec word Hw' (mkXChaCha20Poly1305 k))|].
      intros [buf r] [(HA & -> & ->)|(HA & -> & ->)]; [by rewrite (proj1 Hau HA)|].
      by rewrite (not_true_is_false _ (fun E => HA (proj2 Hau E))).
    + eapply wp_mono; [by apply (chacha_decrypt_spec word Hw' (mkChaCha20Poly1305 k))|].
      intros [buf r] [(HA & -> & ->)|(HA & -> & ->)]; [by rewrite (proj1 Hau HA)|].
      by rewrite (not_true_is_false _ (fun E => HA (proj2 Hau E))).
Qed.

Lemma chacha20_poly1305_witness :
  chacha_encrypt_in_place (mkChaCha20Poly1305 (seqZ 0 32)) [1; 2; 3] (seqZ 64 12) [9] =
    Some (xor_stream (rfc_key_byte (seqZ 0 32) (seqZ 64 12) 1) 0 [1; 2; 3],
      Poly1305.poly1305_spec (rfc_otk (seqZ 0 32) (seqZ 64 12))
        (mac_data [9] (xor_stream (rfc_key_byte (seqZ 0 32) (seqZ 64 12) 1) 0 [1; 2; 3]))).
Proof.
  exact (proj1 (chacha20_poly1305_correct 8 (seqZ 0 32) (seqZ 64 12) [9] [1; 2; 3] (replicate 16 0) false
    ltac:(apply list_elem_of_In; simpl; tauto) eq_refl eq_refl ltac:(repeat constructor; lia) ltac:(repeat constructor; lia)
    ltac:(apply Forall_replicate; unfold byte; lia))).
Defined.

(** The test vector of RFC 8439, section 2.8.2: the tag. *)
Example rfc_8439_tag :
    let text := [76; 97; 100; 105; 101; 115; 32; 97; 110; 100; 32; 71; 101; 110; 116; 108; 101; 109; 101; 110;
    32; 111; 102; 32; 116; 104; 101; 32; 99; 108; 97; 115; 115; 32; 111; 102; 32; 39; 57; 57; 58; 32; 73; 102;
    32; 73; 32; 99; 111; 117; 108; 100; 32; 111; 102; 102; 101; 114; 32; 121; 111; 117; 32; 111; 110; 108;
    121; 32; 111; 110; 101; 32; 116; 105; 112; 32; 102; 111; 114; 32; 116; 104; 101; 32; 102; 117; 116; 117;
    114; 101; 44; 32; 115; 117; 110; 115; 99; 114; 101; 101; 110; 32; 119; 111; 117; 108; 100; 32; 98; 101;
    32; 105; 116; 46] in
  (chacha_encrypt_in_place (mkChaCha20Poly1305 (seqZ 128 32)) text ([7; 0; 0; 0] ++ seqZ 64 8)
    ([80; 81; 82; 83] ++ seqZ 192 8)) ≫= (fun '(_, tag) => Some tag)
  = Some [26; 225; 11; 89; 79; 9; 226; 106; 126; 144; 46; 203; 208; 96; 6; 145].
Proof. vm_compute. reflexivity. Qed.

End ChaChaPoly.
