(* ===== verification/Semver.v ===== *)
(** * semver: parsing, printing and precedence

    src/semver/semver.rs.  A string is the list of its bytes; every character
    test of the code is about ASCII, so the byte at which a test on [char]s
    fails in a UTF-8 string is the one at which the test on bytes fails.
    Precedence is proved against [TotalCmp], the interface of a three-way
    comparison that is a total order up to an equivalence. *)
From Stdlib Require Import ZArith Lia.
From stdpp Require Import base list numbers option.
From S2P Require Import Prelude Words Order.

Module Semver.

Inductive ParseError :=
| EmptyInput | InvalidCharacter | LeadingZero | EmptyIdentifier
| InvalidNumber | InvalidFormat | TrailingData.

Inductive Identifier := Numeric (n : Z) | Alpha (s : list Z).

Record PreRelease := mkPre { identifiers : list Identifier }.
Record BuildMetadata := mkBuild { raw : list Z }.

Record Version := mkVersion {
  major : Z; minor : Z; patch : Z;
  pre_release : option PreRelease;
  build : option BuildMetadata;
}.

(** ** Characters and numbers *)

Definition is_ascii_alphanumeric (c : Z) : bool :=
  is_ascii_digit c || ((65 <=? c) && (c <=? 90)) || ((97 <=? c) && (c <=? 122)).

Definition ident_char (c : Z) : bool := is_ascii_alphanumeric c || (c =? 45).

(** [str::parse::<u64>] on a string of digits, the only ones it is given. *)
Definition parse_u64 (s : list Z) : option Z :=
  match s with
  | [] => None
  | _ => if forallb is_ascii_digit s
         then let v := dec_value 0 s in if v <? 2 ^ 64 then Some v else None
         else None
  end.

(** [s.split('.')]. *)
Definition split_dot (s : list Z) : list (list Z) := split_on 46 s.

(** ** Parsing *)

Definition starts_with_zero (s : list Z) : bool :=
  match s with c :: _ => c =? 48 | [] => false end.

Definition Identifier_parse (input : list Z) : result Identifier ParseError :=
  if (length input =? 0)%nat then Err EmptyIdentifier else
  if negb (forallb ident_char input) then Err InvalidCharacter else
  if forallb is_ascii_digit input then
    if (1 <? length input)%nat && starts_with_zero input then Err LeadingZero else
    match parse_u64 input with Some n => Ok (Numeric n) | None => Err InvalidNumber end
  else Ok (Alpha input).

(** [map(Identifier::parse).collect::<Result<Vec<_>, _>>()]. *)
Fixpoint collect_identifiers (parts : list (list Z)) : result (list Identifier) ParseError :=
  match parts with
  | [] => Ok []
  | part :: rest =>
      let? i := Identifier_parse part in
      let? others := collect_identifiers rest in
      Ok (i :: others)
  end.

Definition PreRelease_parse (input : list Z) : result PreRelease ParseError :=
  if (length input =? 0)%nat then Err EmptyIdentifier else
  let? identifiers := collect_identifiers (split_dot input) in
  Ok (mkPre identifiers).

Fixpoint check_build_parts (parts : list (list Z)) : result unit ParseError :=
  match parts with
  | [] => Ok tt
  | part :: rest =>
      if (length part =? 0)%nat then Err EmptyIdentifier
      else if negb (forallb ident_char part) then Err InvalidCharacter
      else check_build_parts rest
  end.

Definition BuildMetadata_parse (input : list Z) : result BuildMetadata ParseError :=
  if (length input =? 0)%nat then Err EmptyIdentifier else
  let? _ := check_build_parts (split_dot input) in
  Ok (mkBuild input).

Definition check_digits (s : list Z) : result nat ParseError :=
  if (length s =? 0)%nat then Err InvalidCharacter else
  match position (fun c => negb (is_ascii_digit c)) s with
  | Some 0%nat => Err InvalidCharacter
  | Some pos => Ok pos
  | None => Ok (length s)
  end.

Definition parse_number (s : list Z) : result Z ParseError :=
  if (1 <? length s)%nat && starts_with_zero s then Err LeadingZero else
  match parse_u64 s with Some n => Ok n | None => Err InvalidNumber end.

Definition expect_dot (s : list Z) : result (list Z) ParseError :=
  match s with
  | c :: t => if c =? 46 then Ok t else Err InvalidFormat
  | [] => Err InvalidFormat
  end.

Definition parse (input : list Z) : result Version ParseError :=
  if (length input =? 0)%nat then Err EmptyInput else
  let? after_major := check_digits input in
  let '(major_str, rest) := (take after_major input, drop after_major input) in
  let? major := parse_number major_str in
  let? rest := expect_dot rest in
  let? after_minor := check_digits rest in
  let '(minor_str, rest) := (take after_minor rest, drop after_minor rest) in
  let? minor := parse_number minor_str in
  let? rest := expect_dot rest in
  let? after_patch := check_digits rest in
  let '(patch_str, rest) := (take after_patch rest, drop after_patch rest) in
  let? patch := parse_number patch_str in
  let? (pre_release, after_pre_release) :=
    match strip_prefix 45 rest with
    | Some r =>
        let end_ := default (length r) (position (fun c => c =? 43) r) in
        let? p := PreRelease_parse (take end_ r) in
        Ok (Some p, drop end_ r)
    | None => Ok (None, rest)
    end in
  let? build :=
    match strip_prefix 43 after_pre_release with
    | Some r => let? b := BuildMetadata_parse r in Ok (Some b)
    | None => if negb (length after_pre_release =? 0)%nat then Err TrailingData else Ok None
    end in
  Ok (mkVersion major minor patch pre_release build).

(** ** Printing *)

Definition show_identifier (i : Identifier) : list Z :=
  match i with Numeric n => show_dec n | Alpha s => s end.

(** The loop of [Display for PreRelease], with the separator before every
    identifier but the first. *)
Fixpoint show_identifiers (i : nat) (l : list Identifier) : list Z :=
  match l with
  | [] => []
  | x :: l' => (if (0 <? i)%nat then [46] else []) ++ show_identifier x ++ show_identifiers (S i) l'
  end.

Definition show_pre_release (p : PreRelease) : list Z := show_identifiers 0 (identifiers p).

Definition to_string (v : Version) : list Z :=
  show_dec (major v) ++ [46] ++ show_dec (minor v) ++ [46] ++ show_dec (patch v) ++
  match pre_release v with Some p => 45 :: show_pre_release p | None => [] end ++
  match build v with Some b => 43 :: raw b | None => [] end.

(** ** Equality and precedence *)

Definition Identifier_cmp (a b : Identifier) : comparison :=
  match a, b with
  | Numeric _, Alpha _ => Lt
  | Alpha _, Numeric _ => Gt
  | Numeric x, Numeric y => Z.compare x y
  | Alpha x, Alpha y => list_cmp Z.compare x y
  end.

(** The loop over [zip], which stops at the first difference. *)
Fixpoint zip_cmp (l1 l2 : list Identifier) : comparison :=
  match l1, l2 with
  | a :: l1', b :: l2' => match Identifier_cmp a b with Eq => zip_cmp l1' l2' | c => c end
  | _, _ => Eq
  end.

Definition PreRelease_cmp (a b : PreRelease) : comparison :=
  match zip_cmp (identifiers a) (identifiers b) with
  | Eq => Nat.compare (length (identifiers a)) (length (identifiers b))
  | non_eq => non_eq
  end.

Definition Version_cmp (a b : Version) : comparison :=
  match Z.compare (major a) (major b) with
  | Eq =>
      match Z.compare (minor a) (minor b) with
      | Eq =>
          match Z.compare (patch a) (patch b) with
          | Eq =>
              match pre_release a, pre_release b with
              | None, Some _ => Gt
              | Some _, None => Lt
              | None, None => Eq
              | Some x, Some y => PreRelease_cmp x y
              end
          | c => c
          end
      | c => c
      end
  | c => c
  end.

#[export] Instance Identifier_eq_dec : EqDecision Identifier.
Proof. solve_decision. Defined.
#[export] Instance PreRelease_eq_dec : EqDecision PreRelease.
Proof. solve_decision. Defined.

Definition Version_eq (a b : Version) : bool :=
  (major a =? major b) && (minor a =? minor b) && (patch a =? patch b) &&
  bool_decide (pre_release a = pre_release b).

(** ** Precedence is a total order *)

#[export] Instance Identifier_cmp_total : TotalCmp (@eq Identifier) Identifier_cmp.
Proof.
  split.
  - intros [x|x] [y|y]; simpl; try done.
    + rewrite (cmp_eqv (cmp := Z.compare)). naive_solver.
    + rewrite (cmp_eqv (cmp := list_cmp Z.compare)). naive_solver.
  - intros [x|x] [y|y]; simpl; try done; apply cmp_antisym.
  - intros [x|x] [y|y] [z|z]; simpl; try done; apply cmp_trans.
Qed.

(** The zip loop followed by the comparison of lengths is lexicographic order. *)
Lemma PreRelease_cmp_lex a b :
  PreRelease_cmp a b = list_cmp Identifier_cmp (identifiers a) (identifiers b).
Proof.
  unfold PreRelease_cmp. generalize (identifiers a), (identifiers b). clear a b.
  induction l as [|x l1 IH]; intros [|y l2]; simpl; try done.
  destruct (Identifier_cmp x y); [apply IH|done|done].
Qed.

#[export] Instance PreRelease_cmp_total : TotalCmp (@eq PreRelease) PreRelease_cmp.
Proof.
  split.
  - intros [x] [y]. rewrite PreRelease_cmp_lex, (cmp_eqv (cmp := list_cmp Identifier_cmp)). simpl. naive_solver.
  - intros x y. rewrite !PreRelease_cmp_lex. apply cmp_antisym.
  - intros x y z. rewrite !PreRelease_cmp_lex. apply cmp_trans.
Qed.

(** What precedence looks at. *)
Definition key (v : Version) : Z * (Z * (Z * option PreRelease)) :=
  (major v, (minor v, (patch v, pre_release v))).

Definition key_cmp : (Z * (Z * (Z * option PreRelease))) -> _ -> comparison :=
  pair_cmp Z.compare (pair_cmp Z.compare (pair_cmp Z.compare (none_last_cmp PreRelease_cmp))).

Lemma Version_cmp_key a b : Version_cmp a b = key_cmp (key a) (key b).
Proof. done. Qed.

Lemma Version_eq_key a b : Version_eq a b = true <-> key a = key b.
Proof.
  unfold Version_eq, key. rewrite !andb_true_iff, !Z.eqb_eq, bool_decide_eq_true.
  split; [intros [[[? ?] ?] ?]; congruence|intros [=]; auto].
Qed.

#[export] Instance Version_cmp_total : TotalCmp (fun a b => Version_eq a b = true) Version_cmp.
Proof.
  assert (TotalCmp eq key_cmp) by (unfold key_cmp; apply _). split.
  - intros a b. by rewrite Version_cmp_key, Version_eq_key, (cmp_eqv (cmp := key_cmp)).
  - intros a b. rewrite !Version_cmp_key. apply cmp_antisym.
  - intros a b c. rewrite !Version_cmp_key. apply cmp_trans.
Qed.

(** ** Decimal numbers *)

(** A canonical digit string: not empty, digits only, no leading zero. *)
Definition canonical (s : list Z) : Prop :=
  s <> [] /\ Forall (fun c => is_ascii_digit c = true) s /\ ((1 < length s)%nat -> starts_with_zero s = false).

Lemma show_value s : canonical s -> dec_value 0 s < 2 ^ 64 -> show_dec (dec_value 0 s) = s.
Proof.
  intros (Hne & Hd & Hz). induction s as [|c s IH] using rev_ind; [done|]. clear Hne.
  rewrite dec_value_snoc. intros Hv. apply Forall_app in Hd as [Hd Hc]. inversion_clear Hc as [|? ? Hc' _].
  unfold is_ascii_digit in Hc'. bool_hyps.
  destruct s as [|x s].
  - simpl. rewrite show_dec_eq by lia. destruct (Z.ltb_spec (0 * 10 + (c - 48)) 10); [f_equal; lia|lia].
  - assert (Hx : starts_with_zero (x :: s ++ [c]) = false) by (apply Hz; rewrite length_app; simpl; lia).
    simpl in Hx. assert (Hge : 1 <= dec_value 0 (x :: s)).
    { inversion_clear Hd as [|? ? Hx' Hs]. unfold is_ascii_digit in Hx'. bool_hyps. simpl.
      pose proof (dec_value_ge s (0 * 10 + (x - 48)) Hs ltac:(lia)). lia. }
    set (v := dec_value 0 (x :: s)) in *. rewrite show_dec_eq by lia.
    destruct (Z.ltb_spec (v * 10 + (c - 48)) 10); [lia|].
    rewrite Z.div_add_l, (Z.div_small (c - 48)), Z.add_0_r by lia.
    rewrite (Z.add_comm (v * 10)), Z.mod_add, (Z.mod_small (c - 48)) by lia.
    rewrite IH; [f_equal; f_equal; lia|done|done|done|lia].
Qed.

Lemma show_canonical n : 0 <= n < 2 ^ 64 -> canonical (show_dec n) /\ dec_value 0 (show_dec n) = n.
Proof.
  intros Hn. assert (Hn0 : 0 <= n) by lia. revert Hn. pattern n. apply Zlt_0_ind; [|done]. clear n Hn0.
  intros n IH _ Hn. rewrite show_dec_eq by done. destruct (Z.ltb_spec n 10) as [Hlt|Hge].
  - split; [|simpl; lia]. split; [done|]. split; [|simpl; lia].
    constructor; [|constructor]. unfold is_ascii_digit. apply andb_true_iff. rewrite !Z.leb_le. lia.
  - assert (0 <= n / 10 < n) by (split; [apply Z.div_pos|apply Z.div_lt]; lia).
    destruct (IH (n / 10)) as [(Hne & Hd & Hz) Hv]; [lia|lia|].
    pose proof (Z.mod_pos_bound n 10). pose proof (Z.div_mod n 10).
    split; [|rewrite dec_value_snoc, Hv; lia]. split; [by destruct (show_dec (n / 10))|]. split.
    + apply Forall_app. split; [done|]. constructor; [|constructor].
      unfold is_ascii_digit. apply andb_true_iff. rewrite !Z.leb_le. lia.
    + intros _. destruct (show_dec (n / 10)) as [|c [|d s]] eqn:E; [done| |by apply Hz; simpl; lia].
      simpl in Hv |- *. apply Z.eqb_neq. pose proof (Z.div_le_mono 10 n 10). simpl in *. lia.
Qed.

(** ** What the parsers accept *)

Definition u64 (n : Z) : Prop := 0 <= n < 2 ^ 64.

Definition no_digit (s : list Z) : Prop :=
  match s with c :: _ => is_ascii_digit c = false | [] => True end.

Definition wf_identifier (i : Identifier) : Prop :=
  match i with
  | Numeric n => u64 n
  | Alpha s => s <> [] /\ Forall (fun c => ident_char c = true) s /\ forallb is_ascii_digit s = false
  end.

Definition wf_pre (p : PreRelease) : Prop :=
  identifiers p <> [] /\ Forall wf_identifier (identifiers p).

Definition wf_part (part : list Z) : Prop :=
  part <> [] /\ Forall (fun c => ident_char c = true) part.
Definition wf_build (b : BuildMetadata) : Prop := Forall wf_part (split_dot (raw b)).

(** The versions the grammar describes, with 64-bit numbers. *)
Definition wf_version (v : Version) : Prop :=
  u64 (major v) /\ u64 (minor v) /\ u64 (patch v) /\
  match pre_release v with Some p => wf_pre p | None => True end /\
  match build v with Some b => wf_build b | None => True end.

Lemma forallb_Forall {A} (f : A -> bool) l : forallb f l = true <-> Forall (fun c => f c = true) l.
Proof. induction l as [|a l IH]; simpl; [by split|].
  by rewrite andb_true_iff, Forall_cons_iff, IH. Qed.

Lemma parse_number_ok s n :
  parse_number s = Ok n <-> s = show_dec n /\ u64 n.
Proof.
  unfold parse_number, parse_u64, u64. split.
  - destruct ((1 <? length s)%nat && starts_with_zero s) eqn:Hz; [done|].
    destruct s as [|c s]; [done|]. destruct (forallb is_ascii_digit (c :: s)) eqn:Hd; [|done].
    destruct (Z.ltb_spec (dec_value 0 (c :: s)) (2 ^ 64)) as [Hv|]; [|done]. intros [= <-].
    apply forallb_Forall in Hd. pose proof (dec_value_ge (c :: s) 0 Hd ltac:(lia)). split; [|cbn [dec_value] in *; lia].
    symmetry. apply (show_value (c :: s)); [|done]. split; [done|]. split; [done|]. intros Hl.
    apply andb_false_iff in Hz as [Hz|Hz]; [|done]. apply Nat.ltb_ge in Hz. lia.
  - intros [-> Hn]. destruct (show_canonical n Hn) as [(Hne & Hd & Hz) Hv].
    destruct (Nat.ltb_spec 1 (length (show_dec n))) as [Hl|]; simpl; [rewrite Hz by done|].
    all: destruct (show_dec n) as [|c s] eqn:E; [done|]; rewrite (proj2 (forallb_Forall _ _) Hd), Hv;
      destruct (Z.ltb_spec n (2 ^ 64)); [done|lia].
Qed.

(** The scan of a maximal non-empty run of characters. *)
Lemma position_split {A} (p : A -> bool) (a b : list A) :
  Forall (fun c => p c = false) a -> match b with c :: _ => p c = true | [] => True end ->
  default (length (a ++ b)) (position p (a ++ b)) = length a.
Proof.
  intros Ha Hb. induction Ha as [|x a Hx Ha IH]; simpl.
  - destruct b as [|c b]; [done|]. simpl. by rewrite Hb.
  - rewrite Hx. destruct (position p (a ++ b)); simpl in *; lia.
Qed.

Lemma position_sound {A} (p : A -> bool) (s : list A) :
  let k := default (length s) (position p s) in
  (k <= length s)%nat /\ Forall (fun c => p c = false) (take k s) /\
  match drop k s with c :: _ => p c = true | [] => True end.
Proof.
  induction s as [|x s IH]; simpl; [auto|]. destruct (p x) eqn:E; simpl; [split; [lia|auto]|].
  destruct (position p s); simpl in *; (split; [lia|]); (split; [constructor; tauto|tauto]).
Qed.

Lemma check_digits_default s k :
  check_digits s = Ok k <-> k = default (length s) (position (fun c => negb (is_ascii_digit c)) s) /\ (0 < k)%nat.
Proof.
  unfold check_digits. destruct s as [|c s]; simpl; [split; [done|lia]|].
  destruct (is_ascii_digit c); simpl; [|split; [done|lia]].
  destruct (position _ s) as [j|]; simpl; split; [intros [= <-]; lia|by intros [-> _]|intros [= <-]; lia|by intros [-> _]].
Qed.

Lemma number_inv s a n : check_digits s = Ok a -> parse_number (take a s) = Ok n ->
  s = show_dec n ++ drop a s /\ u64 n.
Proof. intros _ [Hs Hn]%parse_number_ok. by rewrite <- Hs, take_drop. Qed.

Lemma number_run n rest : u64 n -> no_digit rest ->
  check_digits (show_dec n ++ rest) = Ok (length (show_dec n)) /\ parse_number (show_dec n) = Ok n.
Proof.
  intros Hn Hr. split; [|by apply parse_number_ok]. destruct (show_canonical n Hn) as [(Hne & Hd & _) _].
  apply check_digits_default. rewrite position_split.
  - split; [done|]. destruct (show_dec n); [done|simpl; lia].
  - eapply Forall_impl; [|exact Hd]. by intros c ->.
  - destruct rest; [done|]. simpl in Hr. by rewrite Hr.
Qed.

Lemma expect_dot_ok s r : expect_dot s = Ok r <-> s = 46 :: r.
Proof.
  destruct s as [|c s]; simpl; [done|]. destruct (Z.eqb_spec c 46) as [->|]; split; congruence.
Qed.

(** ** Identifiers, pre-releases and build metadata *)

Lemma digit_ident c : is_ascii_digit c = true -> ident_char c = true.
Proof. unfold ident_char, is_ascii_alphanumeric. by intros ->. Qed.

Lemma ident_not_sep c : ident_char c = true -> c <> 46 /\ c <> 43.
Proof. intros H. split; intros ->; by vm_compute in H. Qed.

Lemma wf_identifier_chars i : wf_identifier i ->
  show_identifier i <> [] /\ Forall (fun c => ident_char c = true) (show_identifier i).
Proof.
  destruct i as [n|s]; simpl; [|tauto]. intros Hn. destruct (show_canonical n Hn) as [(Hne & Hd & _) _].
  split; [done|]. eapply Forall_impl; [|exact Hd]. apply digit_ident.
Qed.

Lemma Identifier_parse_ok s i :
  Identifier_parse s = Ok i <-> s = show_identifier i /\ wf_identifier i.
Proof.
  pose proof (fun n => parse_number_ok s n) as Hnum. unfold parse_number in Hnum.
  unfold Identifier_parse. split.
  - destruct (Nat.eqb_spec (length s) 0) as [|Hl]; [done|].
    destruct (forallb ident_char s) eqn:Hc; [|done]. simpl.
    destruct (forallb is_ascii_digit s) eqn:Hd.
    + destruct (_ && _); [done|]. intros H. destruct (parse_u64 s) as [n|]; [|done]. injection H as <-. by apply Hnum.
    + intros [= <-]. simpl. split; [done|]. split; [by intros ->|]. split; [by apply forallb_Forall|done].
  - intros [Hs Hi]. destruct (wf_identifier_chars i Hi) as [Hne Hc]. rewrite <- Hs in Hne, Hc.
    apply forallb_Forall in Hc. rewrite Hc. destruct (Nat.eqb_spec (length s) 0) as [Hl|]; [by destruct s|].
    simpl. destruct i as [m|a]; simpl in *.
    + destruct (show_canonical m Hi) as [(_ & Hd & _) _]. rewrite <- Hs in Hd. apply forallb_Forall in Hd. rewrite Hd.
      pose proof (proj2 (Hnum m) (conj Hs Hi)) as H. destruct (_ && _); [done|].
      destruct (parse_u64 s); [by injection H as ->|done].
    + destruct Hi as (_ & _ & Hd). by rewrite Hs, Hd.
Qed.

Lemma collect_ok parts ids :
  collect_identifiers parts = Ok ids <-> parts = show_identifier <$> ids /\ Forall wf_identifier ids.
Proof.
  revert ids. induction parts as [|p parts IH]; intros ids; simpl.
  - split; [intros [= <-]; by split|]. intros [H _]. by destruct ids.
  - rewrite rbind_ok. setoid_rewrite rbind_ok. setoid_rewrite Identifier_parse_ok. setoid_rewrite IH. split.
    + intros (i & [-> Hi] & l & [-> Hl] & [= <-]). split; [done|]. by constructor.
    + intros [H Hids]. destruct ids as [|i l]; [done|]. simplify_list_eq. inversion_clear Hids. eauto 10.
Qed.

Lemma show_identifiers_S ids k :
  show_identifiers (S k) ids = match ids with [] => [] | _ => 46 :: join_with 46 (show_identifier <$> ids) end.
Proof.
  revert k. induction ids as [|i l IH]; intros k; [done|]. cbn [show_identifiers]. rewrite IH. simpl.
  destruct l; simpl; [by rewrite app_nil_r|done].
Qed.

Lemma show_identifiers_join ids : show_identifiers 0 ids = join_with 46 (show_identifier <$> ids).
Proof.
  destruct ids as [|i l]; [done|]. cbn [show_identifiers]. rewrite show_identifiers_S. simpl.
  destruct l; simpl; [by rewrite app_nil_r|done].
Qed.

Lemma wf_identifiers_no_dot ids : Forall wf_identifier ids -> Forall (avoids 46) (show_identifier <$> ids).
Proof.
  intros H. apply Forall_fmap. eapply Forall_impl; [|exact H]. intros i Hi. unfold avoids. simpl.
  eapply Forall_impl; [|apply (wf_identifier_chars i Hi)]. intros c Hc. by apply ident_not_sep.
Qed.

Lemma PreRelease_parse_ok s p :
  PreRelease_parse s = Ok p <-> s = show_pre_release p /\ wf_pre p.
Proof.
  unfold PreRelease_parse, show_pre_release, wf_pre. rewrite show_identifiers_join. split.
  - destruct (Nat.eqb_spec (length s) 0); [done|]. rewrite rbind_ok. setoid_rewrite collect_ok.
    intros (ids & [Hs Hi] & [= <-]). simpl. rewrite <- Hs. split; [symmetry; apply split_join|].
    split; [|done]. intros ->. by apply (split_on_nonempty 46 s).
  - destruct p as [ids]. simpl. intros (-> & Hne & Hi).
    destruct (Nat.eqb_spec (length (join_with 46 (show_identifier <$> ids))) 0) as [H0|].
    + destruct ids as [|i ids]; [done|]. inversion_clear Hi as [|? ? Hi' _].
      destruct (wf_identifier_chars i Hi') as [Hn _]. simpl in H0. destruct (show_identifier i); [done|].
      by destruct ids.
    + rewrite rbind_ok. exists ids. split; [|done]. apply collect_ok. split; [|done].
      apply join_split; [by destruct ids|by apply wf_identifiers_no_dot].
Qed.

Lemma check_build_ok parts : check_build_parts parts = Ok tt <-> Forall wf_part parts.
Proof.
  induction parts as [|p parts IH]; simpl; [by split|]. rewrite Forall_cons_iff, <- IH. unfold wf_part.
  destruct (Nat.eqb_spec (length p) 0) as [H|H]; [destruct p; [by split; [|intros [[? _] _]]|done]|].
  rewrite <- forallb_Forall. destruct (forallb ident_char p); simpl; [|by split; [|intros [[_ ?] _]]].
  split; [|tauto]. intros ?. split; [split; [by intros ->|done]|done].
Qed.

Lemma BuildMetadata_parse_ok s b : BuildMetadata_parse s = Ok b <-> s = raw b /\ wf_build b.
Proof.
  unfold BuildMetadata_parse, wf_build. split.
  - destruct (Nat.eqb_spec (length s) 0); [done|]. rewrite rbind_ok. intros ([] & Hc & [= <-]).
    simpl. by apply check_build_ok in Hc.
  - destruct b as [r]. simpl. intros [-> H]. destruct (Nat.eqb_spec (length r) 0) as [H0|].
    + destruct r; [|done]. simpl in H. inversion_clear H as [|? ? [? _] _]. done.
    + apply check_build_ok in H. by rewrite H.
Qed.

(** ** The whole version *)

Definition show_pre_opt (p : option PreRelease) : list Z :=
  match p with Some p => 45 :: show_pre_release p | None => [] end.
Definition show_build_opt (b : option BuildMetadata) : list Z :=
  match b with Some b => 43 :: raw b | None => [] end.

Lemma show_pre_no_plus p : wf_pre p -> Forall (fun c => (c =? 43) = false) (show_pre_release p).
Proof.
  intros [_ Hi]. unfold show_pre_release. rewrite show_identifiers_join.
  induction Hi as [|i ids Hi Hids IH]; [constructor|].
  assert (Forall (fun c => (c =? 43) = false) (show_identifier i)).
  { eapply Forall_impl; [|apply (wf_identifier_chars i Hi)]. intros c Hc. apply Z.eqb_neq. by apply ident_not_sep. }
  destruct ids; [done|]. simpl in IH |- *. apply Forall_app. by split; [|constructor].
Qed.

(** What may follow the pre-release. *)
Definition build_start (s : list Z) : Prop := match s with c :: _ => (c =? 43) = true | [] => True end.

Lemma pre_ok rest (pre : option PreRelease) after : build_start after ->
  match strip_prefix 45 rest with
  | Some r =>
      let end_ := default (length r) (position (fun c => c =? 43) r) in
      let? p := PreRelease_parse (take end_ r) in
      Ok (Some p, drop end_ r)
  | None => Ok (None, rest)
  end = Ok (pre, after) <->
  rest = show_pre_opt pre ++ after /\ match pre with Some p => wf_pre p | None => True end.
Proof.
  intros Ha. destruct (strip_prefix 45 rest) as [r|] eqn:Hr.
  - apply strip_prefix_some in Hr as ->. simpl. rewrite rbind_ok. setoid_rewrite PreRelease_parse_ok. split.
    + intros (p & [Hp Hw] & [= <- <-]). simpl. split; [|done]. by rewrite <- Hp, take_drop.
    + destruct pre as [p|]; simpl; intros [Hs Hw].
      * injection Hs as ->. exists p. rewrite position_split by (auto using show_pre_no_plus).
        by rewrite take_app_length, drop_app_length.
      * subst after. by simpl in Ha.
  - split; [intros [= <- <-]; by split|]. destruct pre as [p|]; [|by intros [-> _]].
    intros [-> _]. by simpl in Hr.
Qed.

Lemma build_ok after (b : option BuildMetadata) :
  match strip_prefix 43 after with
  | Some r => let? b := BuildMetadata_parse r in Ok (Some b)
  | None => if negb (length after =? 0)%nat then Err TrailingData else Ok None
  end = Ok b <->
  after = show_build_opt b /\ match b with Some b => wf_build b | None => True end.
Proof.
  destruct (strip_prefix 43 after) as [r|] eqn:Hr.
  - apply strip_prefix_some in Hr as ->. rewrite rbind_ok. setoid_rewrite BuildMetadata_parse_ok. split.
    + by intros (m & [-> Hm] & [= <-]).
    + destruct b as [m|]; simpl; intros [Hs Hm]; [|done]. injection Hs as ->. by exists m.
  - destruct after as [|c after]; simpl; [split; [by intros [= <-]|by destruct b; [intros [? _]|]]|].
    split; [done|]. destruct b as [m|]; simpl; [|by intros [? _]]. intros [[= -> ->] _]. by simpl in Hr.
Qed.

(** The remainder is handed to the build parser, which only accepts one that
    starts with a plus sign or is empty. *)
Lemma tail_ok rest ma mi pa v :
  (let? (pre_release, after_pre_release) :=
    match strip_prefix 45 rest with
    | Some r =>
        let end_ := default (length r) (position (fun c => c =? 43) r) in
        let? p := PreRelease_parse (take end_ r) in
        Ok (Some p, drop end_ r)
    | None => Ok (None, rest)
    end in
  let? build :=
    match strip_prefix 43 after_pre_release with
    | Some r => let? b := BuildMetadata_parse r in Ok (Some b)
    | None => if negb (length after_pre_release =? 0)%nat then Err TrailingData else Ok None
    end in
  Ok (mkVersion ma mi pa pre_release build)) = Ok v <->
  exists pre b, v = mkVersion ma mi pa pre b /\ rest = show_pre_opt pre ++ show_build_opt b /\
    match pre with Some p => wf_pre p | None => True end /\
    match b with Some b => wf_build b | None => True end.
Proof.
  assert (Hstart : forall b, build_start (show_build_opt b)) by by intros [?|].
  rewrite rbind_ok. split.
  - intros ([pre after] & Hp & Hb). apply rbind_ok in Hb as (b & Hb & [= <-]). apply build_ok in Hb as [-> Hb].
    apply pre_ok in Hp as [-> Hp]; [|done]. by exists pre, b.
  - intros (pre & b & -> & -> & Hp & Hb). exists (pre, show_build_opt b). split; [by apply pre_ok|].
    apply rbind_ok. exists b. split; [by apply build_ok|done].
Qed.

(** One number of the triple, re-read. *)
Ltac run_number n :=
  match goal with |- context [check_digits (show_dec n ++ ?rest)] =>
    let H1 := fresh in let H2 := fresh in
    destruct (number_run n rest) as [H1 H2]; [done| |
      rewrite H1; cbn [rbind]; rewrite take_app_length, H2, drop_app_length; cbn [rbind]] end.

Lemma parse_inv s v : parse s = Ok v -> s = to_string v /\ wf_version v.
Proof.
  unfold parse. destruct (length s =? 0)%nat; [done|]. intros H.
  apply rbind_ok in H as (a1 & Ha1 & H). apply rbind_ok in H as (ma & Hma & H).
  apply rbind_ok in H as (r1 & Hr1%expect_dot_ok & H).
  apply rbind_ok in H as (a2 & Ha2 & H). apply rbind_ok in H as (mi & Hmi & H).
  apply rbind_ok in H as (r2 & Hr2%expect_dot_ok & H).
  apply rbind_ok in H as (a3 & Ha3 & H). apply rbind_ok in H as (pa & Hpa & H).
  apply tail_ok in H as (pre & b & -> & Ht & Hpre & Hb).
  destruct (number_inv _ _ _ Ha1 Hma) as [Hs1 ?], (number_inv _ _ _ Ha2 Hmi) as [Hs2 ?], (number_inv _ _ _ Ha3 Hpa) as [Hs3 ?].
  unfold to_string, wf_version. cbn [major minor patch pre_release build]. split; [|done].
  by rewrite Hs1, Hr1, Hs2, Hr2, Hs3, Ht at 1.
Qed.

Lemma parse_run v : wf_version v -> parse (to_string v) = Ok v.
Proof.
  destruct v as [ma mi pa pre b]. unfold wf_version. cbn [major minor patch pre_release build].
  intros (Hma & Hmi & Hpa & Hpre & Hb).
  change (to_string _) with (show_dec ma ++ [46] ++ show_dec mi ++ [46] ++ show_dec pa ++
    show_pre_opt pre ++ show_build_opt b). unfold parse.
  destruct (Nat.eqb_spec (length (show_dec ma ++ [46] ++ show_dec mi ++ [46] ++ show_dec pa ++
    show_pre_opt pre ++ show_build_opt b)) 0) as [H0|_].
  { destruct (show_canonical _ Hma) as [(Hne & _) _]. by destruct (show_dec ma). }
  run_number ma; [done|]. rewrite (proj2 (expect_dot_ok ([46] ++ _) _) eq_refl). cbn [rbind].
  run_number mi; [done|]. rewrite (proj2 (expect_dot_ok ([46] ++ _) _) eq_refl). cbn [rbind].
  run_number pa; [by destruct pre, b|].
  apply tail_ok. by exists pre, b.
Qed.

(** ** Claims *)

(** C26: [parse] accepts exactly the printed forms of the well-formed versions,
    and returns the version printed: a string that parses is reprinted as it
    was, and printing followed by parsing gives the version back.  Empty or
    ill-formed identifiers, leading zeros, numbers past 64 bits and trailing
    characters are all rejected. *)
Theorem semver_parse_iff s v : parse s = Ok v <-> s = to_string v /\ wf_version v.
Proof. split; [apply parse_inv|intros [-> Hv]; by apply parse_run]. Qed.

(** Precedence is a strict total order on parsed versions: transitive,
    antisymmetric, [Equal] exactly when [==] holds (so build metadata does not
    count), and a pre-release comes before its release. *)
Theorem semver_precedence a b c :
  (Version_cmp a b = Lt -> Version_cmp b c = Lt -> Version_cmp a c = Lt) /\
  Version_cmp b a = CompOpp (Version_cmp a b) /\
  (Version_cmp a b = Eq <-> Version_eq a b = true) /\
  Version_cmp a (mkVersion (major a) (minor a) (patch a) None (build b)) =
    match pre_release a with Some _ => Lt | None => Eq end.
Proof.
  split; [apply cmp_trans|]. split; [apply cmp_antisym|].
  split; [apply (cmp_eqv (eqv := fun a b => Version_eq a b = true))|].
  unfold Version_cmp. simpl. rewrite !Z.compare_refl. by destruct (pre_release a).
Qed.

(** A parsed string, and the order of the specification's examples. *)
Lemma semver_precedence_witness :
  let alpha1 := mkVersion 1 0 0 (Some (mkPre [Alpha [97]; Numeric 1])) None in
  let beta11 := mkVersion 1 0 0 (Some (mkPre [Alpha [98]; Numeric 11])) None in
  parse [49; 46; 48; 46; 48; 45; 98; 46; 49; 49] = Ok beta11 /\ Version_cmp alpha1 beta11 = Lt.
Proof.
  split; [reflexivity|].
  refine (proj1 (semver_precedence _ (mkVersion 1 0 0 (Some (mkPre [Alpha [98]; Numeric 2])) None) _) _ _); reflexivity.
Defined.

End Semver.
