(* ===== verification/Utf8.v ===== *)
(** * UTF-8 in the standard library

    What [str::from_utf8] and [String::from_utf8_lossy] compute, on lists of
    bytes: the next well-formed sequence, or the length of the maximal prefix of
    one that has to be replaced.  [Cow] says whether a result borrows its
    input. *)
From Stdlib Require Import ZArith Lia.
From stdpp Require Import base list numbers option.
From S2P Require Import Prelude Words.

Module Utf8.

(** The first sequence of a non-empty string: a character of [n] bytes, [n]
    bytes that start no character, or [n] bytes cut short by the end. *)
Inductive Step := Char (n : nat) | Bad (n : nat) | Truncated (n : nat).

Definition between (lo hi b : Z) : bool := (lo <=? b) && (b <=? hi).
Definition continuation (b : Z) : bool := between 0x80 0xBF b.

(** The second byte a three-byte or four-byte sequence may have. *)
Definition second3 (b0 b1 : Z) : bool :=
  if b0 =? 0xE0 then between 0xA0 0xBF b1 else if b0 =? 0xED then between 0x80 0x9F b1 else continuation b1.
Definition second4 (b0 b1 : Z) : bool :=
  if b0 =? 0xF0 then between 0x90 0xBF b1 else if b0 =? 0xF4 then between 0x80 0x8F b1 else continuation b1.

Definition step (b0 : Z) (t : list Z) : Step :=
  if b0 <? 0x80 then Char 1 else
  if between 0xC2 0xDF b0 then
    match t with [] => Truncated 1 | b1 :: _ => if continuation b1 then Char 2 else Bad 1 end
  else if between 0xE0 0xEF b0 then
    match t with
    | [] => Truncated 1
    | b1 :: t1 => if negb (second3 b0 b1) then Bad 1 else
        match t1 with [] => Truncated 2 | b2 :: _ => if continuation b2 then Char 3 else Bad 2 end
    end
  else if between 0xF0 0xF4 b0 then
    match t with
    | [] => Truncated 1
    | b1 :: t1 => if negb (second4 b0 b1) then Bad 1 else
        match t1 with
        | [] => Truncated 2
        | b2 :: t2 => if negb (continuation b2) then Bad 2 else
            match t2 with [] => Truncated 3 | b3 :: _ => if continuation b3 then Char 4 else Bad 3 end
        end
    end
  else Bad 1.

(** [Utf8Error]: where the valid prefix ends and how long the bad sequence is
    ([None] at an unexpected end of input). *)
Record Utf8Error := mkUtf8Error { valid_up_to : nat; error_len : option nat }.

Fixpoint validate (fuel : nat) (pos : nat) (s : list Z) : result unit Utf8Error :=
  match fuel, s with
  | S fuel', b0 :: t =>
      match step b0 t with
      | Char n => validate fuel' (pos + n) (drop n s)
      | Bad n => Err (mkUtf8Error pos (Some n))
      | Truncated _ => Err (mkUtf8Error pos None)
      end
  | _, _ => Ok tt
  end.

Definition from_utf8 (s : list Z) : result (list Z) Utf8Error :=
  let? _ := validate (length s) 0 s in Ok s.

Definition REPLACEMENT : list Z := [0xEF; 0xBF; 0xBD].

Fixpoint lossy (fuel : nat) (s : list Z) : list Z :=
  match fuel, s with
  | S fuel', b0 :: t =>
      match step b0 t with
      | Char n => take n s ++ lossy fuel' (drop n s)
      | Bad n => REPLACEMENT ++ lossy fuel' (drop n s)
      | Truncated n => REPLACEMENT ++ lossy fuel' (drop n s)
      end
  | _, _ => []
  end.

(** The text of [from_utf8_lossy(s)]. *)
Definition lossy_text (s : list Z) : list Z := lossy (length s) s.

Definition valid (s : list Z) : Prop := from_utf8 s = Ok s.

Definition is_valid (s : list Z) : bool := match from_utf8 s with Ok _ => true | Err _ => false end.

Inductive Cow := Borrowed (l : list Z) | Owned (l : list Z).
Definition into_owned (c : Cow) : list Z := match c with Borrowed l => l | Owned l => l end.

(** [String::from_utf8_lossy]. *)
Definition from_utf8_lossy (bytes : list Z) : Cow :=
  if is_valid bytes then Borrowed bytes else Owned (lossy_text bytes).

Lemma lossy_validate fuel pos s : (length s <= fuel)%nat -> validate fuel pos s = Ok tt -> lossy fuel s = s.
Proof.
  revert pos s. induction fuel as [|fuel IH]; intros pos s Hf Hv; destruct s as [|b0 t]; [done|simpl in Hf; lia|done|].
  cbn [validate lossy] in *. destruct (step b0 t) as [n|n|n] eqn:E; [|done|done].
  assert (n <> 0)%nat by (intros ->; revert E; unfold step; repeat case_match; discriminate).
  rewrite (IH (pos + n)%nat); [apply take_drop| |done]. rewrite length_drop. simpl in *. lia.
Qed.

Lemma is_valid_iff s : is_valid s = true <-> valid s.
Proof. unfold is_valid, valid, from_utf8. by destruct (validate _ 0 s) as [[]|]; split. Qed.

Lemma lossy_valid s : valid s -> lossy_text s = s.
Proof.
  unfold valid, from_utf8. rewrite rbind_ok. intros ([] & H & _). by apply (lossy_validate _ 0).
Qed.

Lemma ascii_valid s : Forall (fun b => b < 128) s -> valid s.
Proof.
  intros H. unfold valid, from_utf8. rewrite rbind_ok. exists tt. split; [|done].
  generalize 0%nat as pos. induction H as [|b s Hb Hs IH]; intros pos; [done|]. cbn [length validate].
  assert (E : step b s = Char 1) by (unfold step; by destruct (Z.ltb_spec b 0x80); [|lia]). rewrite E. apply IH.
Qed.

Lemma from_utf8_lossy_text b : into_owned (from_utf8_lossy b) = lossy_text b.
Proof.
  unfold from_utf8_lossy. destruct (is_valid b) eqn:E; [|done]. simpl. symmetry. by apply lossy_valid, is_valid_iff.
Qed.

Lemma from_utf8_ok s t : from_utf8 s = Ok t -> t = s.
Proof. unfold from_utf8. rewrite rbind_ok. by intros (? & _ & [= <-]). Qed.

End Utf8.
