(* ===== verification/PercentEncoding.v ===== *)
(** * percent_encoding: ASCII sets, the encoding and the decoding iterators

    src/percent_encoding/ascii_set.rs and percent_encoding.rs.  A byte string
    is the list of its bytes, an [AsciiSet] its four 32-bit masks, a slice
    iterator the bytes it has left.  Indexing outside the mask is a panic, so
    the operations on sets are computations in [option]. *)
From Stdlib Require Import ZArith Lia String Ascii.
From stdpp Require Import base list numbers option.
From S2P Require Import Prelude Words Utf8.
Import Utf8.

#[local] Close Scope string_scope.

Module PercentEncoding.

(** ** ASCII sets *)

Definition ASCII_RANGE_LEN : Z := 0x80.
Definition BITS_PER_CHUNK : Z := 32.

Record AsciiSet := mkSet { mask : list Z }.

Definition EMPTY : AsciiSet := mkSet (replicate (Z.to_nat (ASCII_RANGE_LEN / BITS_PER_CHUNK)) 0).

Definition chunk_index (byte : Z) : nat := Z.to_nat (byte / BITS_PER_CHUNK).
Definition bit_mask (byte : Z) : Z := u32 (Z.shiftl 1 (byte mod BITS_PER_CHUNK)).

Definition contains (self : AsciiSet) (byte : Z) : option bool :=
  chunk ← mask self !! chunk_index byte;
  Some (negb (Z.land chunk (bit_mask byte) =? 0)).

Definition is_ascii (byte : Z) : bool := byte <? 128.

Definition should_percent_encode (self : AsciiSet) (byte : Z) : option bool :=
  if negb (is_ascii byte) then Some true else contains self byte.

Definition add (self : AsciiSet) (byte : Z) : option AsciiSet :=
  chunk ← mask self !! chunk_index byte;
  m ← upd (mask self) (chunk_index byte) (Z.lor chunk (bit_mask byte));
  Some (mkSet m).

Definition remove (self : AsciiSet) (byte : Z) : option AsciiSet :=
  chunk ← mask self !! chunk_index byte;
  m ← upd (mask self) (chunk_index byte) (Z.land chunk (notw 32 (bit_mask byte)));
  Some (mkSet m).

Definition union (self other : AsciiSet) : option AsciiSet :=
  a0 ← mask self !! 0%nat; b0 ← mask other !! 0%nat;
  a1 ← mask self !! 1%nat; b1 ← mask other !! 1%nat;
  a2 ← mask self !! 2%nat; b2 ← mask other !! 2%nat;
  a3 ← mask self !! 3%nat; b3 ← mask other !! 3%nat;
  Some (mkSet [Z.lor a0 b0; Z.lor a1 b1; Z.lor a2 b2; Z.lor a3 b3]).

Definition complement (self : AsciiSet) : option AsciiSet :=
  a0 ← mask self !! 0%nat; a1 ← mask self !! 1%nat;
  a2 ← mask self !! 2%nat; a3 ← mask self !! 3%nat;
  Some (mkSet [notw 32 a0; notw 32 a1; notw 32 a2; notw 32 a3]).

Definition CONTROLS : AsciiSet :=
  mkSet [notw 32 0; 0; 0; Z.shiftl 1 (0x7F mod 32)].

Fixpoint add_all (s : AsciiSet) (l : list Z) : option AsciiSet :=
  match l with [] => Some s | b :: l' => s' ← add s b; add_all s' l' end.

(** The chain of [.add]s: space, [!], the double quote (34), and so on. *)
Definition NON_ALPHANUMERIC : option AsciiSet :=
  add_all CONTROLS (lit " !" ++ [34] ++ lit "#$%&'()*+,-./:;<=>?@[\]^_`{|}~").

(** ** Encoding *)

Definition ENC_TABLE : list Z := lit
  ("%00%01%02%03%04%05%06%07%08%09%0A%0B%0C%0D%0E%0F" ++
   "%10%11%12%13%14%15%16%17%18%19%1A%1B%1C%1D%1E%1F" ++
   "%20%21%22%23%24%25%26%27%28%29%2A%2B%2C%2D%2E%2F" ++
   "%30%31%32%33%34%35%36%37%38%39%3A%3B%3C%3D%3E%3F" ++
   "%40%41%42%43%44%45%46%47%48%49%4A%4B%4C%4D%4E%4F" ++
   "%50%51%52%53%54%55%56%57%58%59%5A%5B%5C%5D%5E%5F" ++
   "%60%61%62%63%64%65%66%67%68%69%6A%6B%6C%6D%6E%6F" ++
   "%70%71%72%73%74%75%76%77%78%79%7A%7B%7C%7D%7E%7F" ++
   "%80%81%82%83%84%85%86%87%88%89%8A%8B%8C%8D%8E%8F" ++
   "%90%91%92%93%94%95%96%97%98%99%9A%9B%9C%9D%9E%9F" ++
   "%A0%A1%A2%A3%A4%A5%A6%A7%A8%A9%AA%AB%AC%AD%AE%AF" ++
   "%B0%B1%B2%B3%B4%B5%B6%B7%B8%B9%BA%BB%BC%BD%BE%BF" ++
   "%C0%C1%C2%C3%C4%C5%C6%C7%C8%C9%CA%CB%CC%CD%CE%CF" ++
   "%D0%D1%D2%D3%D4%D5%D6%D7%D8%D9%DA%DB%DC%DD%DE%DF" ++
   "%E0%E1%E2%E3%E4%E5%E6%E7%E8%E9%EA%EB%EC%ED%EE%EF" ++
   "%F0%F1%F2%F3%F4%F5%F6%F7%F8%F9%FA%FB%FC%FD%FE%FF")%string.

Definition percent_encode_byte (byte : Z) : option (list Z) :=
  let index := Z.to_nat (byte * 3) in
  slice ENC_TABLE index (index + 3).

Record PercentEncode := mkEnc { bytes_left : list Z; ascii_set : AsciiSet }.

Definition percent_encode (input : list Z) (set : AsciiSet) : PercentEncode := mkEnc input set.

Definition utf8_percent_encode (input : list Z) (set : AsciiSet) : PercentEncode := percent_encode input set.

(** The index of the first byte to encode. *)
Fixpoint first_to_encode (set : AsciiSet) (i : nat) (l : list Z) : option (option nat) :=
  match l with
  | [] => Some None
  | byte :: l' =>
      b ← should_percent_encode set byte;
      if (b : bool) then Some (Some i) else first_to_encode set (S i) l'
  end.

(** [Iterator::next]: the item, if any, and the iterator afterwards. *)
Definition PercentEncode_next (self : PercentEncode) : option (option (list Z) * PercentEncode) :=
  match bytes_left self with
  | first_byte :: remaining =>
      e ← should_percent_encode (ascii_set self) first_byte;
      if (e : bool) then
        item ← percent_encode_byte first_byte;
        Some (Some item, mkEnc remaining (ascii_set self))
      else
        found ← first_to_encode (ascii_set self) 0 remaining;
        match found with
        | Some i =>
            unchanged_slice ← slice (bytes_left self) 0 (1 + i);
            Some (Some unchanged_slice, mkEnc (drop (1 + i) (bytes_left self)) (ascii_set self))
        | None => Some (Some (bytes_left self), mkEnc [] (ascii_set self))
        end
  | [] => Some (None, self)
  end.

Definition PercentEncode_size_hint (self : PercentEncode) : nat * option nat :=
  if (length (bytes_left self) =? 0)%nat then (0%nat, Some 0%nat)
  else (1%nat, Some (length (bytes_left self))).

(** [for c in iter { out.write_str(c) }], also [String::extend]. *)
Fixpoint write_all (fuel : nat) (it : PercentEncode) (out : list Z) : option (list Z) :=
  match fuel with
  | O => None
  | S fuel' =>
      r ← PercentEncode_next it;
      match r with
      | (Some c, it') => write_all fuel' it' (out ++ c)
      | (None, _) => Some out
      end
  end.

(** Every item takes at least one byte. *)
Definition enc_fuel (it : PercentEncode) : nat := S (length (bytes_left it)).

Definition PercentEncode_fmt (self : PercentEncode) : option (list Z) := write_all (enc_fuel self) self [].

Definition PercentEncode_into_cow (iter : PercentEncode) : option Cow :=
  r ← PercentEncode_next iter;
  match r with
  | (None, _) => Some (Borrowed [])
  | (Some first, iter) =>
      r ← PercentEncode_next iter;
      match r with
      | (None, _) => Some (Borrowed first)
      | (Some second, iter) =>
          string ← write_all (enc_fuel iter) iter (first ++ second);
          Some (Owned string)
      end
  end.

(** ** Decoding *)

(** [char::to_digit(16)]. *)
Definition to_digit (c : Z) : option Z :=
  if (48 <=? c) && (c <=? 57) then Some (c - 48)
  else if (65 <=? c) && (c <=? 70) then Some (c - 55)
  else if (97 <=? c) && (c <=? 102) then Some (c - 87)
  else None.

(** The decoded byte and the iterator, which only moves on success. *)
Definition after_percent_sign (iter : list Z) : option Z * list Z :=
  match iter with
  | a :: b :: cloned_iter =>
      match to_digit a, to_digit b with
      | Some h, Some l => (Some (u8 (u8 h * 0x10 + u8 l)), cloned_iter)
      | _, _ => (None, iter)
      end
  | _ => (None, iter)
  end.

Definition percent_decode (input : list Z) : list Z := input.

Definition PercentDecode_next (bytes : list Z) : option Z * list Z :=
  match bytes with
  | [] => (None, bytes)
  | byte :: rest =>
      if byte =? 37 then
        let '(d, rest') := after_percent_sign rest in (Some (default byte d), rest')
      else (Some byte, rest)
  end.

Definition PercentDecode_size_hint (bytes : list Z) : nat * option nat :=
  (((length bytes + 2) / 3)%nat, Some (length bytes)).

(** [collect] and [extend]. *)
Fixpoint decode_all (fuel : nat) (bytes : list Z) (out : list Z) : option (list Z) :=
  match fuel with
  | O => None
  | S fuel' =>
      match PercentDecode_next bytes with
      | (Some b, rest) => decode_all fuel' rest (out ++ [b])
      | (None, _) => Some out
      end
  end.

Definition dec_fuel (bytes : list Z) : nat := S (length bytes).

(** [iter.any(|&b| b == b'%')], which consumes up to and with the match. *)
Fixpoint any_percent (iter : list Z) : bool * list Z :=
  match iter with
  | [] => (false, [])
  | b :: rest => if b =? 37 then (true, rest) else any_percent rest
  end.

Fixpoint if_any_loop (fuel : nat) (initial_bytes bytes_iter : list Z) : option (option (list Z)) :=
  match fuel with
  | O => None
  | S fuel' =>
      match any_percent bytes_iter with
      | (false, _) => Some None
      | (true, bytes_iter) =>
          match after_percent_sign bytes_iter with
          | (Some decoded_byte, bytes_iter) =>
              _ ← rassert (length bytes_iter + 3 <=? length initial_bytes)%nat;
              let unchanged_bytes_len := (length initial_bytes - length bytes_iter - 3)%nat in
              unchanged ← slice initial_bytes 0 unchanged_bytes_len;
              decoded ← decode_all (dec_fuel bytes_iter) bytes_iter (unchanged ++ [decoded_byte]);
              Some (Some decoded)
          | (None, bytes_iter) => if_any_loop fuel' initial_bytes bytes_iter
          end
      end
  end.

Definition if_any (bytes : list Z) : option (option (list Z)) := if_any_loop (dec_fuel bytes) bytes bytes.

Definition PercentDecode_into_cow (bytes : list Z) : option Cow :=
  r ← if_any bytes;
  match r with Some vec => Some (Owned vec) | None => Some (Borrowed bytes) end.

Definition decode_utf8 (self : list Z) : option (result Cow Utf8Error) :=
  c ← PercentDecode_into_cow self;
  match c with
  | Borrowed bytes => Some (let? s := from_utf8 bytes in Ok (Borrowed s))
  | Owned bytes => Some (let? s := from_utf8 bytes in Ok (Owned s))
  end.

(** The private function, which keeps the owned buffer when it is valid. *)
Definition decode_utf8_lossy (input : Cow) : Cow :=
  match input with
  | Borrowed bytes => from_utf8_lossy bytes
  | Owned bytes =>
      match from_utf8_lossy bytes with
      | Borrowed _ => Owned bytes
      | Owned s => Owned s
      end
  end.

Definition PercentDecode_decode_utf8_lossy (self : list Z) : option Cow :=
  c ← PercentDecode_into_cow self; Some (decode_utf8_lossy c).

Example encode_ex : (s ← NON_ALPHANUMERIC; PercentEncode_fmt (percent_encode (lit "foo bar?") s))
  = Some (lit "foo%20bar%3F").
Proof. reflexivity. Qed.
Example decode_ex : PercentDecode_into_cow (lit "foo%20bar%3f") = Some (Owned (lit "foo bar?")).
Proof. reflexivity. Qed.

(** ** Sets as predicates on bytes *)

Definition wf_set (s : AsciiSet) : Prop :=
  length (mask s) = 4%nat /\ Forall (fun c => 0 <= c < 2 ^ 32) (mask s).

Definition has (s : AsciiSet) (b : Z) : bool :=
  Z.testbit (default 0 (mask s !! chunk_index b)) (b mod BITS_PER_CHUNK).

Definition ascii (b : Z) : Prop := 0 <= b < 128.

Lemma land_bit x k : 0 <= k -> negb (Z.land x (Z.shiftl 1 k) =? 0) = Z.testbit x k.
Proof.
  intros Hk. destruct (Z.testbit x k) eqn:E.
  - apply negb_true_iff, Z.eqb_neq. intros H. assert (Hb : Z.testbit (Z.land x (Z.shiftl 1 k)) k = false) by (by rewrite H, Z.bits_0).
    rewrite Z.land_spec, E, Z.shiftl_spec, Z.sub_diag in Hb by done. done.
  - apply negb_false_iff, Z.eqb_eq, Z.bits_inj_0. intros n. rewrite Z.land_spec.
    destruct (decide (n = k)) as [->|Hn]; [by rewrite E|]. rewrite Z.shiftl_1_l, Z.pow2_bits_false by done. apply andb_false_r.
Qed.

Lemma bit_mask_eq b : bit_mask b = Z.shiftl 1 (b mod 32).
Proof.
  unfold bit_mask, BITS_PER_CHUNK, u32. pose proof (Z.mod_pos_bound b 32 ltac:(lia)).
  rewrite Z.shiftl_1_l, Z.mod_small; [done|]. split; [apply Z.pow_nonneg; lia|apply Z.pow_lt_mono_r; lia].
Qed.

Lemma bit_mask_bit b c : Z.testbit (bit_mask b) (c mod 32) = (b mod 32 =? c mod 32).
Proof.
  rewrite bit_mask_eq, Z.shiftl_1_l. pose proof (Z.mod_pos_bound b 32 ltac:(lia)). by rewrite Z.pow2_bits_eqb by lia.
Qed.

Lemma bit_mask_bound b : 0 <= bit_mask b < 2 ^ 32.
Proof. unfold bit_mask, u32. apply Z.mod_pos_bound. lia. Qed.

Lemma chunk_index_lt b : ascii b -> (chunk_index b < 4)%nat.
Proof.
  intros Hb. unfold chunk_index, BITS_PER_CHUNK, ascii in *.
  pose proof (Z.div_pos b 32). pose proof (Z.div_lt_upper_bound b 32 4). lia.
Qed.

Lemma notw_bits x k : 0 <= x < 2 ^ 32 -> 0 <= k < 32 -> Z.testbit (notw 32 x) k = negb (Z.testbit x k).
Proof.
  intros Hx Hk. unfold notw. replace (2 ^ 32 - 1) with (Z.ones 32) by done.
  rewrite Z.sub_nocarry_ldiff, Z.ldiff_spec, Z.ones_spec_low; [done|lia|].
  by rewrite Z.ldiff_ones_r, shiftr_div, Z.div_small, Z.shiftl_0_l by lia.
Qed.

Lemma notw_bound x : 0 <= x < 2 ^ 32 -> 0 <= notw 32 x < 2 ^ 32.
Proof. unfold notw. lia. Qed.

Lemma land_bound x y : 0 <= x < 2 ^ 32 -> 0 <= y -> 0 <= Z.land x y < 2 ^ 32.
Proof.
  intros Hx Hy. rewrite <- (Z.mod_small x (2 ^ 32)), <- land_ones by lia.
  rewrite <- Z.land_assoc, (Z.land_comm _ y), Z.land_assoc, land_ones by lia. apply Z.mod_pos_bound. lia.
Qed.

Lemma same_bit b c : chunk_index b = chunk_index c -> ascii b -> ascii c -> (b mod 32 =? c mod 32) = (c =? b).
Proof.
  unfold chunk_index, BITS_PER_CHUNK, ascii. intros H Hb Hc.
  pose proof (Z.div_mod b 32). pose proof (Z.div_mod c 32). pose proof (Z.div_pos b 32). pose proof (Z.div_pos c 32).
  destruct (Z.eqb_spec (b mod 32) (c mod 32)), (Z.eqb_spec c b); try done; [lia|congruence].
Qed.

(** Replacing one chunk by one that differs in a single bit. *)
Lemma chunk_update s b f (v : bool) : wf_set s -> ascii b ->
  (forall x, 0 <= x < 2 ^ 32 -> 0 <= f x < 2 ^ 32) ->
  (forall x k, 0 <= x < 2 ^ 32 -> 0 <= k < 32 -> Z.testbit (f x) k = if b mod 32 =? k then v else Z.testbit x k) ->
  wp (chunk ← mask s !! chunk_index b; m ← upd (mask s) (chunk_index b) (f chunk); Some (mkSet m))
    (fun s' => wf_set s' /\ forall c, ascii c -> has s' c = if c =? b then v else has s c).
Proof.
  intros [Hl Hf] Hb Hbound Hbit. pose proof (chunk_index_lt b Hb). wp_step. wp_step.
  pose proof (proj1 (Forall_lookup _ _) Hf _ _ Hget) as Hx. wp_steps. split.
  - split; cbn [mask]; [by rewrite length_insert|]. by apply Forall_insert; auto.
  - intros c Hc. unfold has. cbn [mask]. pose proof (Z.mod_pos_bound c 32 ltac:(lia)).
    destruct (decide (chunk_index b = chunk_index c)) as [E|E].
    + rewrite <- E, list_lookup_insert_eq, Hget by lia. unfold BITS_PER_CHUNK, default, from_option, id.
      rewrite Hbit by done. by rewrite same_bit.
    + rewrite list_lookup_insert_ne by done. destruct (Z.eqb_spec c b) as [->|]; [done|done].
Qed.

Lemma add_wp s b : wf_set s -> ascii b ->
  wp (add s b) (fun s' => wf_set s' /\ forall c, ascii c -> has s' c = if c =? b then true else has s c).
Proof.
  intros Hs Hb. apply (chunk_update s b (fun x => Z.lor x (bit_mask b))); [done|done|..].
  - intros x Hx. apply lor_nonneg_bound; [lia|done|apply bit_mask_bound].
  - intros x k Hx Hk. rewrite Z.lor_spec. rewrite <- (Z.mod_small k 32) at 2 by done. rewrite bit_mask_bit, (Z.mod_small k) by done.
    destruct (b mod 32 =? k); [apply orb_true_r|apply orb_false_r].
Qed.

Lemma remove_wp s b : wf_set s -> ascii b ->
  wp (remove s b) (fun s' => wf_set s' /\ forall c, ascii c -> has s' c = if c =? b then false else has s c).
Proof.
  intros Hs Hb. pose proof (bit_mask_bound b). apply (chunk_update s b (fun x => Z.land x (notw 32 (bit_mask b)))); [done|done|..].
  - intros x Hx. apply land_bound; [done|by apply notw_bound].
  - intros x k Hx Hk. rewrite Z.land_spec, notw_bits by done.
    rewrite <- (Z.mod_small k 32) at 2 by done. rewrite bit_mask_bit, (Z.mod_small k) by done.
    destruct (b mod 32 =? k); [apply andb_false_r|apply andb_true_r].
Qed.

(** A set has exactly four chunks. *)
Lemma wf_set_inv s : wf_set s -> exists a0 a1 a2 a3, s = mkSet [a0; a1; a2; a3] /\
  Forall (fun c => 0 <= c < 2 ^ 32) [a0; a1; a2; a3].
Proof.
  destruct s as [[|a0 [|a1 [|a2 [|a3 [|]]]]]]; intros [Hl Hf]; try done. by exists a0, a1, a2, a3.
Qed.

Lemma chunk_cases b : ascii b -> chunk_index b = 0%nat \/ chunk_index b = 1%nat \/ chunk_index b = 2%nat \/ chunk_index b = 3%nat.
Proof. intros Hb%chunk_index_lt. lia. Qed.

Lemma union_wp s t : wf_set s -> wf_set t ->
  wp (union s t) (fun r => wf_set r /\ forall c, ascii c -> has r c = has s c || has t c).
Proof.
  intros (a0 & a1 & a2 & a3 & -> & Ha)%wf_set_inv (b0 & b1 & b2 & b3 & -> & Hb)%wf_set_inv.
  simpl. split.
  - split; [done|]. cbn [mask]. rewrite !Forall_cons_iff in Ha, Hb. destruct Ha as (? & ? & ? & ? & _), Hb as (? & ? & ? & ? & _).
    do 4 (constructor; [by apply lor_nonneg_bound|]). constructor.
  - intros c Hc. unfold has. cbn [mask]. destruct (chunk_cases c Hc) as [->|[->|[->| ->]]]; simpl; apply Z.lor_spec.
Qed.

Lemma complement_wp s : wf_set s ->
  wp (complement s) (fun r => wf_set r /\ forall c, ascii c -> has r c = negb (has s c)).
Proof.
  intros (a0 & a1 & a2 & a3 & -> & Ha)%wf_set_inv. simpl. rewrite !Forall_cons_iff in Ha.
  destruct Ha as (? & ? & ? & ? & _). split.
  - split; [done|]. cbn [mask]. rewrite !Forall_cons_iff. auto 10 using notw_bound.
  - intros c Hc. unfold has. cbn [mask]. pose proof (Z.mod_pos_bound c 32 ltac:(lia)).
    destruct (chunk_cases c Hc) as [->|[->|[->| ->]]]; simpl; by apply notw_bits.
Qed.

Lemma contains_has s b : wf_set s -> ascii b -> contains s b = Some (has s b).
Proof.
  intros [Hl _] Hb. unfold contains, has.
  destruct (lookup_lt_is_Some_2 (mask s) (chunk_index b)) as [x Hx]; [rewrite Hl; by apply chunk_index_lt|].
  rewrite Hx. simpl. f_equal. rewrite bit_mask_eq. apply land_bit. unfold BITS_PER_CHUNK. pose proof (Z.mod_pos_bound b 32 ltac:(lia)). lia.
Qed.

(** ** What the iterators produce *)

Definition encoded (s : AsciiSet) (b : Z) : bool := negb (is_ascii b) || has s b.

Definition hex_digit (n : Z) : Z := if n <? 10 then 48 + n else 55 + n.

Definition enc_byte (s : AsciiSet) (b : Z) : list Z :=
  if encoded s b then [37; hex_digit (b / 16); hex_digit (b mod 16)] else [b].

Definition enc (s : AsciiSet) (l : list Z) : list Z := l ≫= enc_byte s.
Arguments enc : simpl never.

Fixpoint dec (l : list Z) : list Z :=
  match l with
  | [] => []
  | c :: t =>
      if c =? 37 then
        match t with
        | a :: b :: r =>
            match to_digit a, to_digit b with
            | Some h, Some l => h * 16 + l :: dec r
            | _, _ => c :: dec t
            end
        | _ => c :: dec t
        end
      else c :: dec t
  end.

(** An escape: a percent sign before two hexadecimal digits. *)
Fixpoint has_escape (l : list Z) : bool :=
  match l with
  | [] => false
  | c :: t => ((c =? 37) && match (after_percent_sign t).1 with Some _ => true | None => false end) || has_escape t
  end.

Lemma should_encode s b : wf_set s -> byte b -> should_percent_encode s b = Some (encoded s b).
Proof.
  intros Hs Hb. unfold should_percent_encode, encoded, is_ascii. destruct (Z.ltb_spec b 128); simpl; [|done].
  apply contains_has; [done|]. unfold ascii, byte in *. lia.
Qed.

Lemma percent_encode_byte_eq b : byte b ->
  percent_encode_byte b = Some [37; hex_digit (b / 16); hex_digit (b mod 16)].
Proof.
  intros Hb. pose proof (byte_forall (fun b => match percent_encode_byte b with
    | Some [x; y; z] => (x =? 37) && (y =? hex_digit (b / 16)) && (z =? hex_digit (b mod 16))
    | _ => false end) b ltac:(vm_compute; reflexivity) Hb) as H. simpl in H.
  destruct (percent_encode_byte b) as [[|x [|y [|z [|]]]]|]; try done. bool_hyps. by subst.
Qed.

Lemma first_to_encode_eq s l i : wf_set s -> bytes l ->
  first_to_encode s i l = Some ((fun k => i + k)%nat <$> position (encoded s) l).
Proof.
  intros Hs Hl. revert i. induction Hl as [|b l Hb Hl IH]; intros i; simpl; [done|].
  rewrite should_encode by done. simpl. destruct (encoded s b); simpl; [by rewrite Nat.add_0_r|].
  rewrite IH. destruct (position _ l); simpl; [|done]. do 2 f_equal. lia.
Qed.

Lemma enc_cons s b l : enc s (b :: l) = enc_byte s b ++ enc s l.
Proof. done. Qed.

Lemma enc_plain s l : Forall (fun b => encoded s b = false) l -> enc s l = l.
Proof. induction 1 as [|b l Hb Hl IH]; [done|]. rewrite enc_cons, IH. unfold enc_byte. by rewrite Hb. Qed.

Lemma position_take {A} (p : A -> bool) l k : position p l = Some k ->
  (k < length l)%nat /\ Forall (fun b => p b = false) (take k l).
Proof.
  revert k. induction l as [|x l IH]; intros k; simpl; [done|]. destruct (p x) eqn:E; [intros [= <-]; split; [lia|constructor]|].
  destruct (position p l) as [j|]; [|done]. intros [= <-]. destruct (IH j eq_refl). split; [lia|]. by constructor.
Qed.

Lemma position_none {A} (p : A -> bool) l : position p l = None -> Forall (fun b => p b = false) l.
Proof.
  induction l as [|x l IH]; simpl; [constructor|]. destruct (p x) eqn:E; [done|].
  destruct (position p l); [done|]. constructor; auto.
Qed.

(** One item is the encoding of a non-empty prefix of what is left. *)
Lemma next_wp s b l : wf_set s -> bytes (b :: l) ->
  exists p r, p <> [] /\ b :: l = p ++ r /\ PercentEncode_next (mkEnc (b :: l) s) = Some (Some (enc s p), mkEnc r s) /\
    (encoded s b = false -> enc s p = p /\ Forall (fun b => encoded s b = false) p /\
       match r with c :: _ => encoded s c = true | [] => True end).
Proof.
  intros Hs Hl. apply Forall_cons_iff in Hl as [Hb Hl]. unfold PercentEncode_next. simpl.
  rewrite should_encode by done. simpl. destruct (encoded s b) eqn:E.
  - exists [b], l. split_and!; try done. rewrite enc_cons. unfold enc_byte. by rewrite percent_encode_byte_eq, E.
  - rewrite first_to_encode_eq by done. simpl. destruct (position (encoded s) l) as [k|] eqn:Hp; simpl.
    + destruct (position_take _ _ _ Hp) as [Hk Hf]. exists (b :: take k l), (drop k l).
      assert (Hplain : Forall (fun b => encoded s b = false) (b :: take k l)) by by constructor.
      split_and!; [done|by simpl; rewrite take_drop| |].
      * rewrite enc_plain by done. unfold slice. rewrite decide_True by (simpl; lia). done.
      * intros _. split_and!; [by apply enc_plain|done|].
        clear -Hp. revert k Hp. induction l as [|x l IH]; intros k; simpl; [done|]. destruct (encoded s x) eqn:E; [by intros [= <-]|].
        destruct (position _ l); [|done]. intros [= <-]. by apply IH.
    + apply position_none in Hp. assert (Hplain : Forall (fun b => encoded s b = false) (b :: l)) by by constructor.
      exists (b :: l), []. rewrite enc_plain, app_nil_r by done. split_and!; try done.
Qed.

Lemma enc_app s l1 l2 : enc s (l1 ++ l2) = enc s l1 ++ enc s l2.
Proof. apply bind_app. Qed.

Lemma write_all_eq s fuel l out : wf_set s -> bytes l -> (length l < fuel)%nat ->
  write_all fuel (mkEnc l s) out = Some (out ++ enc s l).
Proof.
  intros Hs. revert l out. induction fuel as [|fuel IH]; intros l out Hl Hf; [lia|].
  destruct l as [|b l]; cbn [write_all]; [simpl; by rewrite app_nil_r|].
  destruct (next_wp s b l Hs Hl) as (p & r & Hp & Heq & -> & _). simpl. rewrite Heq in *.
  apply Forall_app in Hl as [_ Hr]. rewrite IH; [by rewrite enc_app, (assoc_L (++))|done|].
  rewrite length_app in Hf. destruct p; [done|simpl in Hf; lia].
Qed.

Lemma into_cow_eq s l : wf_set s -> bytes l ->
  wp (PercentEncode_into_cow (mkEnc l s)) (fun c => into_owned c = enc s l /\
    (Forall (fun b => encoded s b = false) l -> c = Borrowed l)).
Proof.
  intros Hs Hl. unfold PercentEncode_into_cow. destruct l as [|b l]; [done|].
  destruct (next_wp s b l Hs Hl) as (p & r & Hp & Heq & -> & Hplain). rewrite Heq in *. cbn beta iota delta [mbind option_bind].
  apply Forall_app in Hl as [_ Hr]. destruct r as [|c r].
  - simpl. rewrite app_nil_r in *. split; [done|]. intros Hf. by rewrite enc_plain.
  - destruct (next_wp s c r Hs Hr) as (q & t & Hq & Heq2 & -> & _). cbn beta iota delta [mbind option_bind]. rewrite Heq2 in Hr |- *.
    apply Forall_app in Hr as [_ Ht]. rewrite write_all_eq by (done || unfold enc_fuel; simpl; lia). simpl.
    split; [by rewrite !enc_app, !(assoc_L (++))|]. intros Hf. exfalso.
    rewrite <- Heq2 in Hf. apply Forall_app in Hf as [Hfp Hfc]. inversion_clear Hfc as [|? ? Hc _].
    destruct p as [|b' p]; [done|]. inversion_clear Hfp as [|? ? Hb _]. injection Heq as <- _.
    destruct (Hplain Hb) as (_ & _ & Hc'). congruence.
Qed.

(** ** Decoding *)

Lemma to_digit_bound c d : to_digit c = Some d -> 0 <= d < 16.
Proof. unfold to_digit. repeat case_match; intros [= <-]; bool_hyps; lia. Qed.

(** [dec] and [has_escape] follow the scan of the two digits. *)
Lemma dec_percent t :
  dec (37 :: t) = match after_percent_sign t with (Some d, r) => d :: dec r | (None, _) => 37 :: dec t end.
Proof.
  destruct t as [|a [|b r]]; [done|done|]. cbn [dec after_percent_sign]. rewrite Z.eqb_refl.
  destruct (to_digit a) as [h|] eqn:Ha; [|done]. destruct (to_digit b) as [l|] eqn:Hb; [|done].
  apply to_digit_bound in Ha, Hb. by rewrite !u8_id by (unfold byte; rewrite ?u8_id by (unfold byte; lia); lia).
Qed.

Lemma after_percent_length t d r : after_percent_sign t = (d, r) ->
  match d with Some _ => length t = (2 + length r)%nat | None => r = t end.
Proof. destruct t as [|a [|b t]]; simpl; try (by intros [= <- <-]).
  destruct (to_digit a), (to_digit b); by intros [= <- <-]. Qed.

Lemma decode_all_eq fuel l out : (length l < fuel)%nat -> decode_all fuel l out = Some (out ++ dec l).
Proof.
  revert l out. induction fuel as [|fuel IH]; intros l out Hf; [lia|]. cbn [decode_all].
  destruct l as [|c t]; [by rewrite app_nil_r|]. cbn [PercentDecode_next]. simpl in Hf.
  destruct (Z.eqb_spec c 37) as [->|Hc].
  - rewrite dec_percent. destruct (after_percent_sign t) as [[d|] r] eqn:E; apply after_percent_length in E; simpl in E;
      [|subst r]; cbn [default]; rewrite IH by lia; by rewrite <- (assoc_L (++)).
  - rewrite IH by lia. rewrite <- (assoc_L (++)). simpl. apply Z.eqb_neq in Hc. by rewrite Hc.
Qed.

Lemma any_percent_spec l : match any_percent l with
  | (true, r) => exists p, l = p ++ 37 :: r /\ Forall (fun c => c <> 37) p
  | (false, _) => Forall (fun c => c <> 37) l end.
Proof.
  induction l as [|c l IH]; simpl; [constructor|]. destruct (Z.eqb_spec c 37) as [->|Hc].
  - exists []. by split; [|constructor].
  - destruct (any_percent l) as [[] r]; [|by constructor].
    destruct IH as (p & -> & Hp). exists (c :: p). by split; [|constructor].
Qed.

Lemma dec_plain p r : Forall (fun c => c <> 37) p -> dec (p ++ r) = p ++ dec r /\ has_escape (p ++ r) = has_escape r.
Proof.
  induction 1 as [|c p Hc Hp [IH1 IH2]]; [done|]. apply Z.eqb_neq in Hc. simpl. by rewrite Hc, IH1, IH2.
Qed.

Lemma no_escape_id l : has_escape l = false -> dec l = l.
Proof.
  induction l as [|c t IH]; intros H; [done|]. cbn [has_escape] in H. apply orb_false_elim in H as [H1 H2].
  destruct (Z.eqb_spec c 37) as [->|Hc].
  - rewrite dec_percent, IH by done. by destruct (after_percent_sign t) as [[d|] r].
  - simpl. apply Z.eqb_neq in Hc. by rewrite Hc, IH.
Qed.

#[local] Arguments decode_all : simpl never.

(** The scan resumes after a percent sign that starts no escape; what is
    before it stays as it is. *)
Lemma if_any_loop_eq fuel pre it : (length it < fuel)%nat ->
  if_any_loop fuel (pre ++ it) it = Some (if has_escape it then Some (pre ++ dec it) else None).
Proof.
  revert pre it. induction fuel as [|fuel IH]; intros pre it Hf; [lia|]. cbn [if_any_loop].
  pose proof (any_percent_spec it) as Hany. destruct (any_percent it) as [[] r].
  - destruct Hany as (p & -> & Hp). destruct (dec_plain p (37 :: r) Hp) as [-> ->].
    rewrite dec_percent. cbn [has_escape]. rewrite Z.eqb_refl. simpl.
    destruct (after_percent_sign r) as [[d|] r'] eqn:E; apply after_percent_length in E as Hr; simpl in Hr.
    + rewrite !length_app in *. simpl in Hf |- *. unfold rassert. destruct (Nat.leb_spec (length r' + 3) (length pre + (length p + S (length r)))); [|lia].
      simpl. unfold slice. rewrite decide_True by (rewrite !length_app; simpl; lia). simpl.
      rewrite decode_all_eq by (unfold dec_fuel; lia). simpl. do 2 f_equal.
      replace (length pre + (length p + S (length r)) - length r' - 3 - 0)%nat with (length (pre ++ p)) by (rewrite length_app; lia).
      rewrite (assoc_L (++) pre), drop_0, take_app_length. by rewrite <- !(assoc_L (++)).
    + subst r'. simpl. replace (pre ++ p ++ 37 :: r) with ((pre ++ p ++ [37]) ++ r) by by rewrite <- !(assoc_L (++)).
      rewrite IH by (rewrite length_app in Hf; simpl in Hf; lia). destruct (has_escape r); [|done].
      by rewrite <- !(assoc_L (++)).
  - destruct (dec_plain it [] Hany) as [_ H]. rewrite app_nil_r in H. by rewrite H.
Qed.

Lemma hex_digit_inv n : 0 <= n < 16 -> to_digit (hex_digit n) = Some n.
Proof.
  intros Hn. pose proof (byte_forall (fun n => negb (n <? 16) || match to_digit (hex_digit n) with
    Some m => m =? n | None => false end) n ltac:(vm_compute; reflexivity) ltac:(unfold byte; lia)) as H.
  simpl in H. destruct (Z.ltb_spec n 16); [|lia]. simpl in H. destruct (to_digit _); [|done]. bool_hyps. by subst.
Qed.

Lemma dec_enc s l : has s 37 = true -> bytes l -> dec (enc s l) = l.
Proof.
  intros H37. induction 1 as [|b l Hb Hl IH]; [done|]. rewrite enc_cons. unfold enc_byte.
  destruct (encoded s b) eqn:E.
  - simpl. rewrite !hex_digit_inv by (unfold byte in Hb; (split; [apply Z.div_pos|apply Z.div_lt_upper_bound]; lia) || (apply Z.mod_pos_bound; lia)).
    rewrite IH. f_equal. pose proof (Z.div_mod b 16). lia.
  - simpl. destruct (Z.eqb_spec b 37) as [->|]; [|by rewrite IH]. unfold encoded in E. by rewrite H37, orb_true_r in E.
Qed.

Lemma dec_length l : (length (dec l) <= length l <= 3 * length (dec l))%nat.
Proof.
  induction l as [l IH] using (induction_ltof1 _ (@length Z)). unfold ltof in IH. destruct l as [|c t]; [simpl; lia|].
  destruct (Z.eqb_spec c 37) as [->|Hc].
  - rewrite dec_percent. destruct (after_percent_sign t) as [[d|] r] eqn:E; apply after_percent_length in E; simpl in E |- *.
    + specialize (IH r). simpl in IH. lia.
    + specialize (IH t). simpl in IH. lia.
  - apply Z.eqb_neq in Hc. specialize (IH t). simpl in IH |- *. rewrite Hc. simpl. lia.
Qed.

Lemma enc_ascii s l : bytes l -> Forall ascii (enc s l).
Proof.
  induction 1 as [|b l Hb Hl IH]; [constructor|]. rewrite enc_cons. apply Forall_app. split; [|done].
  unfold enc_byte, encoded, is_ascii, hex_digit, ascii, byte in *.
  pose proof (Z.div_pos b 16). pose proof (Z.div_lt_upper_bound b 16 16). pose proof (Z.mod_pos_bound b 16).
  destruct (Z.ltb_spec b 128); simpl; [destruct (has s b)|]; repeat constructor; repeat case_match; lia.
Qed.

Lemma decode_utf8_lossy_text c : into_owned (decode_utf8_lossy c) = lossy_text (into_owned c).
Proof.
  destruct c as [b|b]; cbn [decode_utf8_lossy into_owned]; [apply from_utf8_lossy_text|]. rewrite <- from_utf8_lossy_text.
  unfold from_utf8_lossy. by destruct (is_valid b).
Qed.

Lemma into_cow_dec l :
  PercentDecode_into_cow l = Some (if has_escape l then Owned (dec l) else Borrowed l).
Proof.
  unfold PercentDecode_into_cow, if_any.
  pose proof (if_any_loop_eq (dec_fuel l) [] l ltac:(unfold dec_fuel; lia)) as H. rewrite !app_nil_l in H.
  rewrite H. by destruct (has_escape l).
Qed.

(** The bytes of the conversion into [Cow] are the decoded ones. *)
Lemma escape_dec l : into_owned (if has_escape l then Owned (dec l) else Borrowed l) = dec l.
Proof. destruct (has_escape l) eqn:E; [done|]. symmetry. by apply no_escape_id. Qed.

(** ** Claims *)

(** Percent-encoding.  The [Display] form of the encoding iterator is the
    concatenation of the bytes, each one outside ASCII or in the set replaced by
    its [%XX] escape (read from the 768-byte table); the conversion into [Cow]
    gives the same text, and borrows the input when no byte is encoded; the
    output is ASCII; and, as long as the set has the percent sign, decoding
    gives the input back. *)
Theorem percent_encode_correct set input : wf_set set -> bytes input ->
  PercentEncode_fmt (percent_encode input set) = Some (enc set input) /\
  wp (PercentEncode_into_cow (percent_encode input set)) (fun c => into_owned c = enc set input /\
    (Forall (fun b => encoded set b = false) input -> c = Borrowed input)) /\
  Forall ascii (enc set input) /\
  (has set 37 = true ->
    decode_all (dec_fuel (enc set input)) (percent_decode (enc set input)) [] = Some input).
Proof.
  intros Hs Hi. split; [by apply write_all_eq; [..|unfold enc_fuel; simpl; lia]|].
  split; [by apply into_cow_eq|]. split; [by apply enc_ascii|]. intros H37.
  rewrite decode_all_eq by (unfold dec_fuel, percent_decode; lia). simpl. unfold percent_decode. by rewrite dec_enc.
Qed.

Lemma percent_encode_witness :
  let set := mkSet [2 ^ 32 - 1; 2 ^ 5; 0; 0] in
  decode_all (dec_fuel (enc set [102; 37; 10; 200])) (percent_decode (enc set [102; 37; 10; 200])) []
    = Some [102; 37; 10; 200].
Proof.
  apply (percent_encode_correct (mkSet [2 ^ 32 - 1; 2 ^ 5; 0; 0]) [102; 37; 10; 200]); [| |reflexivity].
  - split; [reflexivity|]. repeat constructor; simpl; lia.
  - repeat constructor; lia.
Defined.

(** Percent-decoding never panics and ends.  Collecting the iterator
    replaces every [%] followed by two hexadecimal digits by the byte and keeps
    all the rest; the conversion into [Cow] finds the first escape by its own
    scan and gives the same bytes, borrowed exactly when there is no escape;
    [decode_utf8] checks those bytes and [decode_utf8_lossy] repairs them; the
    size hint bounds the length. *)
Theorem percent_decode_correct input :
  let cow := if has_escape input then Owned (dec input) else Borrowed input in
  decode_all (dec_fuel input) (percent_decode input) [] = Some (dec input) /\
  PercentDecode_into_cow (percent_decode input) = Some cow /\ into_owned cow = dec input /\
  decode_utf8 (percent_decode input) =
    Some (match from_utf8 (dec input) with Ok _ => Ok cow | Err e => Err e end) /\
  into_owned <$> PercentDecode_decode_utf8_lossy (percent_decode input) = Some (lossy_text (dec input)) /\
  ((PercentDecode_size_hint input).1 <= length (dec input) <= length input)%nat.
Proof.
  intros cow. unfold percent_decode. split; [by rewrite decode_all_eq by (unfold dec_fuel; lia)|].
  pose proof (into_cow_dec input) as Hcow. pose proof (escape_dec input) as Hdec. fold cow in Hcow, Hdec.
  split; [done|]. split; [done|]. split; [|split].
  - unfold decode_utf8. rewrite Hcow. cbn [mbind option_bind]. destruct cow as [b|b]; simpl in Hdec; subst b;
      destruct (from_utf8 (dec input)) eqn:E; simpl; try done; by apply from_utf8_ok in E as ->.
  - unfold PercentDecode_decode_utf8_lossy. rewrite Hcow. simpl. by rewrite decode_utf8_lossy_text, Hdec.
  - pose proof (dec_length input). split; [|lia]. unfold PercentDecode_size_hint. cbn [fst].
    transitivity ((3 * length (dec input) + 2) / 3)%nat; [apply Nat.Div0.div_le_mono; lia|].
    rewrite Nat.mul_comm, Nat.div_add_l by lia. change (2 / 3)%nat with 0%nat. lia.
Qed.

(** The operations on [AsciiSet] are the set operations: [add] and
    [remove] change the membership of one byte, [union] and [complement] are
    pointwise, on every ASCII byte, none of them panics there, and [contains]
    reads the result. *)
Theorem ascii_set_operations s t b c : wf_set s -> wf_set t -> ascii b -> ascii c ->
  contains s c = Some (has s c) /\
  wp (add s b) (fun r => wf_set r /\ contains r c = Some ((c =? b) || has s c)) /\
  wp (remove s b) (fun r => wf_set r /\ contains r c = Some (negb (c =? b) && has s c)) /\
  wp (union s t) (fun r => wf_set r /\ contains r c = Some (has s c || has t c)) /\
  wp (complement s) (fun r => wf_set r /\ contains r c = Some (negb (has s c))).
Proof.
  intros Hs Ht Hb Hc. split; [by apply contains_has|].
  split; [eapply wp_mono; [by apply add_wp|]|split; [eapply wp_mono; [by apply remove_wp|]|
    split; [eapply wp_mono; [by apply union_wp|]|eapply wp_mono; [by apply complement_wp|]]]];
    intros r [Hr Hhas]; (split; [done|]); rewrite contains_has, Hhas by done; by try destruct (c =? b).
Qed.

Lemma ascii_set_witness :
  wp (remove CONTROLS 127) (fun r => wf_set r /\ contains r 127 = Some false).
Proof.
  refine (proj1 (proj2 (proj2 (ascii_set_operations CONTROLS EMPTY 127 127 _ _ _ _)))).
  - split; [reflexivity|]. repeat constructor; vm_compute; congruence.
  - split; [reflexivity|]. repeat constructor; vm_compute; congruence.
  - unfold ascii. lia.
  - unfold ascii. lia.
Defined.

End PercentEncoding.
