(* ===== verification/FormUrlencoded.v ===== *)
(** * form_urlencoded: the parser and the serializer

    src/form_urlencoded/form_urlencoded.rs, on top of percent_encoding.  The
    [Target] of a serializer is an interface: something that holds a string
    which can be read and replaced. *)
From Stdlib Require Import ZArith Lia.
From stdpp Require Import base list numbers option.
From S2P Require Import Prelude Words PercentEncoding Utf8.
Import PercentEncoding Utf8.

Module FormUrlencoded.

(** ** Decoding *)

Definition replace_plus (input : list Z) : option Cow :=
  match position (fun b => b =? 43) input with
  | None => Some (Borrowed input)
  | Some first_position =>
      replaced ← upd input first_position 32;
      rest ← slice replaced (first_position + 1) (length replaced);
      Some (Owned (take (first_position + 1) replaced ++ ((fun b => if b =? 43 then 32 else b) <$> rest)))
  end.

Definition decode_utf8_lossy (input : Cow) : Cow :=
  match input with
  | Borrowed bytes => from_utf8_lossy bytes
  | Owned bytes =>
      match from_utf8_lossy bytes with
      | Borrowed _ => Owned bytes
      | Owned s => Owned s
      end
  end.

Definition decode (input : list Z) : option Cow :=
  replaced ← replace_plus input;
  decoded ← PercentDecode_into_cow (percent_decode (into_owned replaced));
  Some (decode_utf8_lossy (match decoded with Owned vec => Owned vec | Borrowed _ => replaced end)).

(** ** The parser *)

Record Parse := mkParse { input : list Z }.
Definition parse (input : list Z) : Parse := mkParse input.

(** [s.splitn(2, |&b| b == c)]: the first part and, if there is one, the rest. *)
Fixpoint splitn2 (c : Z) (s : list Z) : list Z * option (list Z) :=
  match s with
  | [] => ([], None)
  | x :: t => if x =? c then ([], Some t) else let '(p, r) := splitn2 c t in (x :: p, r)
  end.

(** The [loop] of [Iterator::next]; every round but the last drops a byte. *)
Fixpoint next_loop (fuel : nat) (self : Parse) : option (option (Cow * Cow) * Parse) :=
  match fuel with
  | O => None
  | S fuel' =>
      if (length (input self) =? 0)%nat then Some (None, self) else
      let '(sequence, rest) := splitn2 38 (input self) in
      let self := mkParse (default [] rest) in
      if (length sequence =? 0)%nat then next_loop fuel' self else
      let '(name, value) := splitn2 61 sequence in
      n ← decode name;
      v ← decode (default [] value);
      Some (Some (n, v), self)
  end.

Definition Parse_next (self : Parse) : option (option (Cow * Cow) * Parse) :=
  next_loop (S (length (input self))) self.

Definition ParseIntoOwned_next (self : Parse) : option (option (list Z * list Z) * Parse) :=
  r ← Parse_next self;
  match r with
  | (Some (k, v), inner) => Some (Some (into_owned k, into_owned v), inner)
  | (None, inner) => Some (None, inner)
  end.

(** [parse(input).into_owned().collect()]. *)
Fixpoint collect_pairs (fuel : nat) (self : Parse) : option (list (list Z * list Z)) :=
  match fuel with
  | O => None
  | S fuel' =>
      r ← ParseIntoOwned_next self;
      match r with
      | (None, _) => Some []
      | (Some p, self) => ps ← collect_pairs fuel' self; Some (p :: ps)
      end
  end.

Definition parse_all (s : list Z) : option (list (list Z * list Z)) := collect_pairs (S (length s)) (parse s).

(** ** The byte serializer *)

Definition byte_serialized_unchanged (b : Z) : bool :=
  (b =? 42) || (b =? 45) || (b =? 46) || ((48 <=? b) && (b <=? 57)) || ((65 <=? b) && (b <=? 90)) ||
  (b =? 95) || ((97 <=? b) && (b <=? 122)).

Definition ByteSerialize_next (bytes : list Z) : option (option (list Z) * list Z) :=
  match bytes with
  | first :: tail =>
      if negb (byte_serialized_unchanged first) then
        item ← (if first =? 32 then Some [43] else percent_encode_byte first);
        Some (Some item, tail)
      else
        match position (fun b => negb (byte_serialized_unchanged b)) tail with
        | Some i =>
            unchanged_slice ← slice bytes 0 (1 + i);
            Some (Some unchanged_slice, drop (1 + i) bytes)
        | None => Some (Some bytes, [])
        end
  | [] => Some (None, bytes)
  end.

Definition ByteSerialize_size_hint (bytes : list Z) : nat * option nat :=
  if (length bytes =? 0)%nat then (0%nat, Some 0%nat) else (1%nat, Some (length bytes)).

(** [string.extend(byte_serialize(bytes))]. *)
Fixpoint extend_serialized (fuel : nat) (string bytes : list Z) : option (list Z) :=
  match fuel with
  | O => None
  | S fuel' =>
      r ← ByteSerialize_next bytes;
      match r with
      | (Some item, bytes) => extend_serialized fuel' (string ++ item) bytes
      | (None, _) => Some string
      end
  end.

(** ** The serializer *)

Definition EncodingOverride : Type := option (list Z -> list Z).

Definition encode (encoding_override : EncodingOverride) (input : list Z) : list Z :=
  match encoding_override with Some o => o input | None => input end.

Definition append_separator_if_needed (string : list Z) (start_position : nat) : list Z :=
  if (start_position <? length string)%nat then string ++ [38] else string.

Definition append_encoded (s string : list Z) (encoding : EncodingOverride) : option (list Z) :=
  let bytes := encode encoding s in
  extend_serialized (S (length bytes)) string bytes.

Definition append_pair_to (string : list Z) (start_position : nat) (encoding : EncodingOverride)
    (name value : list Z) : option (list Z) :=
  let string := append_separator_if_needed string start_position in
  string ← append_encoded name string encoding;
  let string := string ++ [61] in
  append_encoded value string encoding.

Definition append_key_only_to (string : list Z) (start_position : nat) (encoding : EncodingOverride)
    (name : list Z) : option (list Z) :=
  let string := append_separator_if_needed string start_position in
  append_encoded name string encoding.

(** [String::truncate]: panics inside a character. *)
Definition is_char_boundary (s : list Z) (i : nat) : bool :=
  (i =? 0)%nat || (i =? length s)%nat ||
  match s !! i with Some b => negb (continuation b) | None => false end.
Definition truncate (s : list Z) (n : nat) : option (list Z) :=
  if (n <=? length s)%nat then _ ← rassert (is_char_boundary s n); Some (take n s) else Some s.

(** The trait [Target]: [as_mut_string] gives access to a string. *)
Class Target (T : Type) := {
  get_string : T -> list Z;
  set_string : T -> list Z -> T;
  get_set t s : get_string (set_string t s) = s;
}.

#[export] Instance String_Target : Target (list Z) := {
  get_string s := s;
  set_string _ s := s;
  get_set _ s := eq_refl;
}.

Section Serializer.
Context {T : Type} `{!Target T}.

Record Serializer := mkSerializer {
  target : option T;
  start_position : nat;
  encoding : EncodingOverride;
}.

Definition for_suffix (target : T) (start_position : nat) : option Serializer :=
  if (length (get_string target) <? start_position)%nat then None
  else Some (mkSerializer (Some target) start_position None).

Definition new (target : T) : option Serializer := for_suffix target 0.

(** [string(&mut self.target)], which panics once the target is taken, and
    the update of the string behind it. *)
Definition with_string (self : Serializer) (f : list Z -> option (list Z)) : option Serializer :=
  t ← target self;
  s ← f (get_string t);
  Some (mkSerializer (Some (set_string t s)) (start_position self) (encoding self)).

Definition clear (self : Serializer) : option Serializer :=
  with_string self (fun s => truncate s (start_position self)).

Definition encoding_override (self : Serializer) (e : EncodingOverride) : Serializer :=
  mkSerializer (target self) (start_position self) e.

Definition append_pair (self : Serializer) (name value : list Z) : option Serializer :=
  with_string self (fun s => append_pair_to s (start_position self) (encoding self) name value).

Definition append_key_only (self : Serializer) (name : list Z) : option Serializer :=
  with_string self (fun s => append_key_only_to s (start_position self) (encoding self) name).

Fixpoint append_pairs_loop (string : list Z) (start : nat) (e : EncodingOverride) (pairs : list (list Z * list Z))
    : option (list Z) :=
  match pairs with
  | [] => Some string
  | (k, v) :: rest => string ← append_pair_to string start e k v; append_pairs_loop string start e rest
  end.

Definition extend_pairs (self : Serializer) (pairs : list (list Z * list Z)) : option Serializer :=
  with_string self (fun s => append_pairs_loop s (start_position self) (encoding self) pairs).

Fixpoint append_keys_loop (string : list Z) (start : nat) (e : EncodingOverride) (keys : list (list Z))
    : option (list Z) :=
  match keys with
  | [] => Some string
  | k :: rest => string ← append_key_only_to string start e k; append_keys_loop string start e rest
  end.

Definition extend_keys_only (self : Serializer) (keys : list (list Z)) : option Serializer :=
  with_string self (fun s => append_keys_loop s (start_position self) (encoding self) keys).

(** [finish] takes the target: the value returned and the serializer left. *)
Definition finish (self : Serializer) : option (T * Serializer) :=
  t ← target self;
  Some (t, mkSerializer None (start_position self) (encoding self)).
End Serializer.
Arguments Serializer : clear implicits.

Definition foo_bar : list (list Z * list Z) := [([102; 111; 111], [98; 32; 38]); ([195; 169], []); ([], [])].

Example round_ex :
  (s ← new ([] : list Z); s ← extend_pairs s foo_bar; r ← finish s; parse_all r.1) = Some foo_bar.
Proof. reflexivity. Qed.

(** ** What decoding computes *)

Definition plus_to_space (l : list Z) : list Z := (fun b => if b =? 43 then 32 else b) <$> l.
Arguments plus_to_space : simpl never.

Definition decoded (l : list Z) : list Z := lossy_text (dec (plus_to_space l)).

Lemma plus_app a b : plus_to_space (a ++ b) = plus_to_space a ++ plus_to_space b.
Proof. apply fmap_app. Qed.

Lemma plus_cons x l : plus_to_space (x :: l) = (if x =? 43 then 32 else x) :: plus_to_space l.
Proof. done. Qed.

Lemma plus_free l : Forall (fun b => (b =? 43) = false) l -> plus_to_space l = l.
Proof. induction 1 as [|b l Hb Hl IH]; [done|]. by rewrite plus_cons, Hb, IH. Qed.

Lemma position_split_at {A} (p : A -> bool) l k : position p l = Some k ->
  exists a x b, l = a ++ x :: b /\ p x = true /\ Forall (fun y => p y = false) a /\ k = length a.
Proof.
  revert k. induction l as [|y l IH]; intros k; simpl; [done|]. destruct (p y) eqn:E.
  - intros [= <-]. by exists [], y, l.
  - destruct (position p l) as [j|]; [|done]. intros [= <-]. destruct (IH j eq_refl) as (a & x & b & -> & Hx & Ha & ->).
    exists (y :: a), x, b. by split_and!; [|done|constructor|].
Qed.

Lemma replace_plus_eq l : wp (replace_plus l) (fun c => into_owned c = plus_to_space l).
Proof.
  unfold replace_plus. destruct (position (fun b => b =? 43) l) as [k|] eqn:E; [|apply position_none in E; simpl; by rewrite plus_free].
  destruct (position_split_at _ _ _ E) as (a & x & b & -> & Hx & Ha & ->). clear E.
  wp_step. apply wp_upd; [rewrite length_app; simpl; lia|]. wp_step.
  assert (Hins : <[length a:=32]> (a ++ x :: b) = (a ++ [32]) ++ b).
  { rewrite (insert_app_r_alt a), Nat.sub_diag by lia. simpl. by rewrite <- (assoc_L (++)). }
  rewrite Hins.
  replace (length a + 1)%nat with (length (a ++ [32])) by (rewrite length_app; simpl; lia).
  apply wp_slice; [rewrite !length_app; lia|done|]. apply wp_ret. cbn [into_owned].
  rewrite take_app_length, drop_app_length, take_ge by (rewrite !length_app; lia).
  cbn beta in Hx. rewrite plus_app, plus_cons, Hx, (plus_free a Ha). by rewrite <- (assoc_L (++)).
Qed.

Lemma form_decode_utf8_lossy_text c : into_owned (decode_utf8_lossy c) = lossy_text (into_owned c).
Proof.
  destruct c as [b|b]; cbn [decode_utf8_lossy into_owned]; [apply from_utf8_lossy_text|]. rewrite <- from_utf8_lossy_text.
  unfold from_utf8_lossy. by destruct (is_valid b).
Qed.

Lemma decode_wp l : wp (decode l) (fun c => into_owned c = decoded l).
Proof.
  unfold decode. apply wp_bind. eapply wp_mono; [apply replace_plus_eq|]. intros r Hr.
  unfold percent_decode. rewrite into_cow_dec, Hr. apply wp_ret. rewrite form_decode_utf8_lossy_text. unfold decoded. f_equal.
  destruct (has_escape (plus_to_space l)) eqn:E; [done|]. rewrite Hr. symmetry. by apply no_escape_id.
Qed.

(** ** What the parser yields *)

Lemma splitn2_split c s :
  split_on c s = (splitn2 c s).1 :: match (splitn2 c s).2 with Some r => split_on c r | None => [] end.
Proof.
  induction s as [|x s IH]; simpl; [done|]. destruct (x =? c); [done|]. rewrite IH. by destruct (splitn2 c s) as [p [r|]].
Qed.

Lemma splitn2_rest c s : (length (default [] (splitn2 c s).2) < length s)%nat \/ s = [].
Proof.
  induction s as [|x s IH]; [by right|]. left. simpl. destruct (x =? c); simpl; [lia|].
  destruct (splitn2 c s) as [p [r|]] eqn:E; simpl in *; [|lia].
  destruct IH as [?| ->]; [lia|by simpl in E].
Qed.

Definition pair_of (sequence : list Z) : list Z * list Z :=
  let '(name, value) := splitn2 61 sequence in (decoded name, decoded (default [] value)).

(** The specification: one pair for every non-empty part between ampersands. *)
Definition parse_spec (s : list Z) : list (list Z * list Z) :=
  pair_of <$> filter (fun p => p <> []) (split_on 38 s).

Lemma parse_spec_step s : s <> [] ->
  parse_spec s = (if (length (splitn2 38 s).1 =? 0)%nat then [] else [pair_of (splitn2 38 s).1]) ++
    parse_spec (default [] (splitn2 38 s).2).
Proof.
  intros _. unfold parse_spec. rewrite splitn2_split at 1.
  assert (Hnil : pair_of <$> filter (fun p : list Z => p <> []) (split_on 38 []) = []) by done.
  destruct (splitn2 38 s) as [[|x p] [r|]]; simpl; done.
Qed.

Lemma next_loop_wp fuel s : (length s < fuel)%nat ->
  wp (next_loop fuel (mkParse s)) (fun r => match r with
    | (Some (n, v), rest) => parse_spec s = (into_owned n, into_owned v) :: parse_spec (input rest) /\
                             (length (input rest) < length s)%nat
    | (None, _) => parse_spec s = [] end).
Proof.
  revert s. induction fuel as [|fuel IH]; intros s Hf; [lia|]. cbn [next_loop input].
  destruct (Nat.eqb_spec (length s) 0) as [H0|H0]; [by destruct s|].
  assert (Hne : s <> []) by (by intros ->). rewrite (parse_spec_step s Hne).
  destruct (splitn2_rest 38 s) as [Hr|]; [|done]. destruct (splitn2 38 s) as [sq rest]. cbn [fst snd] in *.
  destruct (Nat.eqb_spec (length sq) 0) as [Hs|Hs].
  - eapply wp_mono; [apply IH; lia|]. intros [[[n v]|] t]; [|done]. intros [-> ?]. split; [done|]. simpl in *. lia.
  - unfold pair_of. destruct (splitn2 61 sq) as [name value].
    apply wp_bind. eapply wp_mono; [apply decode_wp|]. intros n Hn.
    apply wp_bind. eapply wp_mono; [apply decode_wp|]. intros v Hv. apply wp_ret. simpl. by rewrite Hn, Hv.
Qed.

Lemma collect_pairs_eq fuel s : (length s < fuel)%nat -> collect_pairs fuel (mkParse s) = Some (parse_spec s).
Proof.
  revert s. induction fuel as [|fuel IH]; intros s Hf; [lia|]. cbn [collect_pairs]. unfold ParseIntoOwned_next, Parse_next. cbn [input].
  destruct (wp_elim _ _ (next_loop_wp (S (length s)) s ltac:(lia))) as ([[[n v]|] [t]] & -> & H); simpl.
  - destruct H as [-> Hl]. simpl in Hl. by rewrite IH by lia.
  - by rewrite H.
Qed.

(** ** What the serializer writes *)

Definition ser_byte (b : Z) : list Z :=
  if byte_serialized_unchanged b then [b] else if b =? 32 then [43]
  else [37; hex_digit (b / 16); hex_digit (b mod 16)].
Definition ser (l : list Z) : list Z := l ≫= ser_byte.
Arguments ser : simpl never.

Lemma ser_cons b l : ser (b :: l) = ser_byte b ++ ser l.
Proof. done. Qed.

Lemma ser_app a b : ser (a ++ b) = ser a ++ ser b.
Proof. apply bind_app. Qed.

Lemma ser_unchanged l : Forall (fun b => byte_serialized_unchanged b = true) l -> ser l = l.
Proof. induction 1 as [|b l Hb Hl IH]; [done|]. rewrite ser_cons, IH. unfold ser_byte. by rewrite Hb. Qed.

Lemma unchanged_negb l : Forall (fun b => negb (byte_serialized_unchanged b) = false) l ->
  Forall (fun b => byte_serialized_unchanged b = true) l.
Proof. intros H. eapply Forall_impl; [|exact H]. intros b Hb. by apply negb_false_iff in Hb. Qed.

Lemma ByteSerialize_next_wp b l : bytes (b :: l) ->
  exists p r, p <> [] /\ b :: l = p ++ r /\ ByteSerialize_next (b :: l) = Some (Some (ser p), r).
Proof.
  intros Hl. apply Forall_cons_iff in Hl as [Hb Hl]. cbn [ByteSerialize_next].
  destruct (byte_serialized_unchanged b) eqn:E; cbn [negb].
  - destruct (position _ l) as [k|] eqn:Hp.
    + destruct (position_take _ _ _ Hp) as [Hk Hf]. exists (b :: take k l), (drop k l).
      split_and!; [done|by simpl; rewrite take_drop|]. rewrite ser_unchanged by (constructor; [done|by apply unchanged_negb]).
      unfold slice. by rewrite decide_True by (simpl; lia).
    + apply position_none in Hp. exists (b :: l), [].
      rewrite ser_unchanged, app_nil_r by (constructor; [done|by apply unchanged_negb]). done.
  - exists [b], l. split_and!; [done|done|]. rewrite ser_cons. unfold ser_byte. rewrite E.
    destruct (b =? 32); [done|]. by rewrite percent_encode_byte_eq.
Qed.

Lemma extend_serialized_eq fuel string l : bytes l -> (length l < fuel)%nat ->
  extend_serialized fuel string l = Some (string ++ ser l).
Proof.
  revert string l. induction fuel as [|fuel IH]; intros string l Hl Hf; [lia|]. cbn [extend_serialized].
  destruct l as [|b l]; [simpl; by rewrite app_nil_r|].
  destruct (ByteSerialize_next_wp b l Hl) as (p & r & Hp & Heq & ->). simpl. rewrite Heq in *.
  apply Forall_app in Hl as [_ Hr]. rewrite IH; [by rewrite ser_app, (assoc_L (++))|done|].
  rewrite length_app in Hf. destruct p; [done|simpl in Hf; lia].
Qed.

#[local] Arguments extend_serialized : simpl never.
#[local] Arguments append_pair_to : simpl never.

Definition segment (e : EncodingOverride) (p : list Z * list Z) : list Z :=
  ser (encode e p.1) ++ 61 :: ser (encode e p.2).

(** The override gives bytes on the strings it is called with. *)
Definition encodes (e : EncodingOverride) (s : list Z) : Prop := bytes (encode e s).

Lemma append_pair_to_eq string start e n v : encodes e n -> encodes e v ->
  append_pair_to string start e n v = Some (append_separator_if_needed string start ++ segment e (n, v)).
Proof.
  intros Hn Hv. unfold append_pair_to, append_encoded. rewrite extend_serialized_eq by (done || lia). simpl.
  rewrite extend_serialized_eq by (done || lia). unfold segment. by rewrite <- !(assoc_L (++)).
Qed.

Definition pair_encodes (e : EncodingOverride) (p : list Z * list Z) : Prop := encodes e p.1 /\ encodes e p.2.

(** Past the first pair, every pair comes with its separator. *)
Lemma append_pairs_more string start e pairs : (start < length string)%nat -> Forall (pair_encodes e) pairs ->
  append_pairs_loop string start e pairs = Some (string ++ (pairs ≫= fun p => 38 :: segment e p)).
Proof.
  intros Hs Hp. revert string Hs. induction Hp as [|[k v] pairs [Hk Hv] Hp IH]; intros string Hs; simpl; [by rewrite app_nil_r|].
  rewrite append_pair_to_eq by done. simpl. unfold append_separator_if_needed.
  destruct (Nat.ltb_spec start (length string)); [|lia]. rewrite IH by (rewrite !length_app; lia).
  by rewrite <- !(assoc_L (++)).
Qed.

Lemma segment_length e p : (0 < length (segment e p))%nat.
Proof. unfold segment. rewrite length_app. simpl. lia. Qed.

Lemma join_bind c (segs : list (list Z)) s : join_with c (s :: segs) = s ++ (segs ≫= fun p => c :: p).
Proof. revert s. induction segs as [|t segs IH]; intros s; [by rewrite app_nil_r|].
  change (join_with c (s :: t :: segs)) with (s ++ c :: join_with c (t :: segs)). by rewrite IH. Qed.

(** From a suffix that is empty the pairs are joined by ampersands. *)
Lemma append_pairs_fresh string e pairs : Forall (pair_encodes e) pairs ->
  append_pairs_loop string (length string) e pairs = Some (string ++ join_with 38 (segment e <$> pairs)).
Proof.
  intros Hp. destruct pairs as [|[k v] pairs]; [simpl; by rewrite app_nil_r|].
  inversion_clear Hp as [|? ? [Hk Hv] Hps]. rewrite fmap_cons, join_bind. cbn [append_pairs_loop].
  rewrite append_pair_to_eq by done. cbn [mbind option_bind]. unfold append_separator_if_needed. rewrite Nat.ltb_irrefl.
  pose proof (segment_length e (k, v)). rewrite append_pairs_more by (rewrite ?length_app; done || lia).
  f_equal. rewrite <- (assoc_L (++)). do 2 f_equal. clear. induction pairs as [|p pairs IH]; [done|].
  rewrite fmap_cons. rewrite !bind_cons. by rewrite IH.
Qed.

(** ** Reading it back *)

Lemma unchanged_range b : byte_serialized_unchanged b = true -> b <> 37 /\ b <> 38 /\ b <> 43 /\ b <> 61.
Proof. intros H. split_and!; intros ->; by vm_compute in H. Qed.

Lemma hex_digit_range n : 0 <= n < 16 -> 48 <= hex_digit n <= 57 \/ 65 <= hex_digit n <= 70.
Proof. unfold hex_digit. intros H. destruct (Z.ltb_spec n 10); lia. Qed.

Lemma byte_nibbles b : byte b -> 0 <= b / 16 < 16 /\ 0 <= b mod 16 < 16.
Proof. unfold byte. intros H. pose proof (Z.div_pos b 16). pose proof (Z.div_lt_upper_bound b 16 16). pose proof (Z.mod_pos_bound b 16). lia. Qed.

Lemma ser_avoids c l : (c = 38 \/ c = 61) -> bytes l -> avoids c (ser l).
Proof.
  intros Hc. induction 1 as [|b l Hb Hl IH]; [constructor|]. rewrite ser_cons. apply Forall_app. split; [|done].
  unfold ser_byte. destruct (byte_nibbles b Hb) as [H1%hex_digit_range H2%hex_digit_range].
  destruct (byte_serialized_unchanged b) eqn:E; [apply unchanged_range in E; repeat constructor; lia|].
  destruct (b =? 32); repeat constructor; lia.
Qed.

Lemma dec_ser l : bytes l -> dec (plus_to_space (ser l)) = l.
Proof.
  induction 1 as [|b l Hb Hl IH]; [done|]. rewrite ser_cons, plus_app. unfold ser_byte.
  destruct (byte_nibbles b Hb) as [H1 H2].
  destruct (byte_serialized_unchanged b) eqn:E.
  - apply unchanged_range in E as (E1%Z.eqb_neq & _ & E2%Z.eqb_neq & _).
    rewrite plus_cons, E2. simpl. by rewrite E1, IH.
  - destruct (Z.eqb_spec b 32) as [->|]; [rewrite plus_cons; simpl; by rewrite IH|].
    pose proof (hex_digit_range _ H1). pose proof (hex_digit_range _ H2). rewrite !plus_cons.
    destruct (Z.eqb_spec (hex_digit (b / 16)) 43), (Z.eqb_spec (hex_digit (b mod 16)) 43); try lia.
    simpl. rewrite !hex_digit_inv, IH by done. f_equal. pose proof (Z.div_mod b 16). lia.
Qed.

Lemma splitn2_app c p s : avoids c p -> splitn2 c (p ++ c :: s) = (p, Some s).
Proof.
  induction 1 as [|x p Hx Hp IH]; simpl; [by rewrite Z.eqb_refl|]. apply Z.eqb_neq in Hx. by rewrite Hx, IH.
Qed.

Lemma pair_of_segment e p : pair_encodes e p ->
  pair_of (segment e p) = (lossy_text (encode e p.1), lossy_text (encode e p.2)).
Proof.
  intros [H1 H2]. unfold pair_of, segment, decoded. rewrite splitn2_app by (apply ser_avoids; auto). simpl.
  by rewrite !dec_ser.
Qed.

(** Parsing the joined segments. *)
Lemma parse_segments e pairs : Forall (pair_encodes e) pairs ->
  parse_spec (join_with 38 (segment e <$> pairs)) =
  (fun p => (lossy_text (encode e p.1), lossy_text (encode e p.2))) <$> pairs.
Proof.
  intros Hp. destruct (decide (pairs = [])) as [->|Hne]; [done|]. unfold parse_spec.
  assert (Hav : Forall (avoids 38) (segment e <$> pairs)).
  { apply Forall_fmap. eapply Forall_impl; [|exact Hp]. intros p [H1 H2]. unfold compose, segment. apply Forall_app.
    split; [apply ser_avoids; auto|]. constructor; [lia|apply ser_avoids; auto]. }
  rewrite join_split by (done || by destruct pairs). clear Hne Hav.
  induction Hp as [|p pairs H Hp IH]; [done|].
  change (segment e <$> p :: pairs) with (segment e p :: (segment e <$> pairs)).
  rewrite filter_cons_True by (intros E; pose proof (segment_length e p); rewrite E in *; simpl in *; lia).
  rewrite !fmap_cons, IH. by rewrite pair_of_segment.
Qed.

Lemma ser_ascii l : bytes l -> Forall (fun b => b < 128) (ser l).
Proof.
  induction 1 as [|b l Hb Hl IH]; [constructor|]. rewrite ser_cons. apply Forall_app. split; [|done].
  unfold ser_byte. destruct (byte_nibbles b Hb) as [H1%hex_digit_range H2%hex_digit_range].
  destruct (byte_serialized_unchanged b) eqn:E; [|destruct (b =? 32); repeat constructor; lia].
  pose proof (byte_forall (fun b => negb (byte_serialized_unchanged b) || (b <? 128)) b ltac:(vm_compute; reflexivity) Hb) as H.
  cbn beta in H. rewrite E in H. simpl in H. bool_hyps. by repeat constructor.
Qed.

Lemma join_ascii e pairs : Forall (pair_encodes e) pairs ->
  Forall (fun b => b < 128) (join_with 38 (segment e <$> pairs)).
Proof.
  assert (Hseg : forall p, pair_encodes e p -> Forall (fun b => b < 128) (segment e p)).
  { intros p [H1 H2]. unfold segment. apply Forall_app. split; [by apply ser_ascii|]. constructor; [lia|by apply ser_ascii]. }
  induction 1 as [|p pairs Hp Hps IH]; [constructor|]. destruct pairs as [|q pairs]; [by apply Hseg|].
  apply Forall_app. split; [by apply Hseg|]. by constructor.
Qed.

(** Truncating at the start of an ASCII suffix. *)
Lemma truncate_suffix s x : Forall (fun b => b < 128) x -> truncate (s ++ x) (length s) = Some s.
Proof.
  intros Hx. unfold truncate, is_char_boundary. destruct (Nat.leb_spec (length s) (length (s ++ x))) as [_|H]; [|rewrite length_app in H; lia].
  rewrite take_app_length. destruct x as [|b x].
  - rewrite app_nil_r, Nat.eqb_refl, orb_true_r. done.
  - rewrite lookup_app_r, Nat.sub_diag by lia. cbn [lookup list_lookup]. inversion_clear Hx.
    unfold continuation, between. destruct (Z.leb_spec 0x80 b); [lia|]. by rewrite orb_true_r.
Qed.

(** A finished serializer cannot be used: [finish] hands the target over once,
    after which every operation on the string panics. *)
Lemma serializer_finished {T} `{!Target T} (s s' : Serializer T) (t : T) : finish s = Some (t, s') ->
  target s = Some t /\ finish s' = None /\ clear s' = None /\
  (forall n v, append_pair s' n v = None) /\ (forall n, append_key_only s' n = None) /\
  (forall ps, extend_pairs s' ps = None) /\ (forall ks, extend_keys_only s' ks = None).
Proof. destruct s as [[u|] start e]; [|done]. unfold finish. simpl. by intros [= -> <-]. Qed.

(** ** Claims *)

(** The strings of the language: UTF-8 byte strings. *)
Definition str (s : list Z) : Prop := bytes s /\ valid s.

(** What the serializer appends is read back by the parser.  A serializer
    started at the end of any target, given any list of pairs of strings, never
    panics, only appends to the target, and the text it appended parses to the
    very pairs, in order; [clear] instead of [finish] gives the target back. *)
Theorem form_round_trip {T} `{!Target T} (t : T) pairs : Forall (fun p => str p.1 /\ str p.2) pairs ->
  wp (s ← for_suffix t (length (get_string t)); extend_pairs s pairs) (fun s =>
    wp (finish s) (fun '(t', _) => exists suffix,
      get_string t' = get_string t ++ suffix /\ parse_all suffix = Some pairs) /\
    wp (s' ← clear s; finish s') (fun '(t', _) => get_string t' = get_string t)).
Proof.
  intros Hp. assert (He : Forall (pair_encodes None) pairs).
  { eapply Forall_impl; [|exact Hp]. intros p [[H1 _] [H2 _]]. by split. }
  unfold for_suffix. rewrite Nat.ltb_irrefl. cbn [mbind option_bind]. unfold extend_pairs, with_string.
  cbn [target start_position encoding mbind option_bind]. rewrite append_pairs_fresh by done. apply wp_ret. split.
  - eexists. split; [by rewrite get_set|]. unfold parse_all, parse.
    rewrite collect_pairs_eq by lia. rewrite parse_segments by done. f_equal. clear He.
    induction Hp as [|[k v] pairs [[_ H1] [_ H2]] Hps IH]; [done|].
    rewrite fmap_cons, IH. cbn [fst snd encode]. by rewrite !lossy_valid.
  - unfold clear, with_string. cbn [target start_position encoding mbind option_bind].
    rewrite get_set, truncate_suffix by (by apply join_ascii). simpl. by rewrite get_set.
Qed.

Lemma form_round_trip_witness :
  let t : list Z := [63] in
  wp (s ← for_suffix t (length (get_string t)); extend_pairs s foo_bar) (fun s =>
    wp (finish s) (fun '(t', _) => exists suffix,
      get_string t' = get_string t ++ suffix /\ parse_all suffix = Some foo_bar) /\
    wp (s' ← clear s; finish s') (fun '(t', _) => get_string t' = get_string t)).
Proof.
  intros t. apply (form_round_trip t foo_bar).
  repeat apply Forall_cons_2; try apply Forall_nil_2; split; (split; [repeat constructor; lia|vm_compute; reflexivity]).
Defined.

(** Parsing any byte string ends without panicking and yields one pair for
    every non-empty part between ampersands, split at its first equals sign
    (the value is empty without one), with plus signs read as spaces,
    percent-escapes decoded and ill-formed UTF-8 replaced. *)
Theorem form_parse_correct s : parse_all s = Some (parse_spec s).
Proof. apply collect_pairs_eq. lia. Qed.

End FormUrlencoded.
