(* ===== verification/Memchr.v ===== *)
(** * The memchr package

    Byte searches of the external package [memchr]: the operations as a class,
    its documented behaviour (the first position of any of the given bytes) as
    the laws, and a plain implementation that satisfies them. *)
From Stdlib Require Import ZArith Lia.
From stdpp Require Import base list numbers option.
From S2P Require Import Prelude.

Class Memchr := {
  memchr : Z -> list Z -> option nat;
  memchr2 : Z -> Z -> list Z -> option nat;
  memchr3 : Z -> Z -> Z -> list Z -> option nat;
}.

Class MemchrLaws `{!Memchr} : Prop := {
  memchr_spec a h : memchr a h = position (fun x => x =? a) h;
  memchr2_spec a b h : memchr2 a b h = position (fun x => (x =? a) || (x =? b)) h;
  memchr3_spec a b c h : memchr3 a b c h = position (fun x => (x =? a) || (x =? b) || (x =? c)) h;
}.

Definition plain_memchr : Memchr := {|
  memchr a := position (fun x => x =? a);
  memchr2 a b := position (fun x => (x =? a) || (x =? b));
  memchr3 a b c := position (fun x => (x =? a) || (x =? b) || (x =? c));
|}.

Lemma plain_laws : @MemchrLaws plain_memchr.
Proof. by split. Qed.

(** A search splits its haystack at the first hit. *)
Lemma position_first p (l : list Z) i : position p l = Some i ->
  exists x, l = take i l ++ x :: drop (S i) l /\ p x = true /\ Forall (fun y => p y = false) (take i l) /\ (i < length l)%nat.
Proof.
  revert i. induction l as [|y l IH]; intros i H; simpl in H; [done|]. destruct (p y) eqn:E.
  - injection H as <-. exists y. simpl. split_and!; [done|done|constructor|lia].
  - destruct (position p l) as [j|]; [|done]. simpl in H. injection H as <-.
    destruct (IH j eq_refl) as (x & Hl & Hx & Hf & Hlen). exists x. simpl. split_and!; [by f_equal|done|by constructor|lia].
Qed.

Lemma position_absent p (l : list Z) : position p l = None -> Forall (fun y => p y = false) l.
Proof.
  induction l as [|y l IH]; simpl; [constructor|]. destruct (p y) eqn:E; [done|].
  destruct (position p l); [done|]. intros _. constructor; [done|by apply IH].
Qed.
