(* ===== verification/CsvReader.v ===== *)
(** * csv: the streaming reader

    src/csv/reader.rs and src/csv/error.rs, in the build without the [std] and
    [serde] features.  The reader's struct is the record [Reader], updated with
    [r <| field := v |>]; a [Vec<u8>] is the list of its bytes (its capacity is
    not modelled), a [usize] a [nat], and slicing out of range or subtracting
    below zero is the panic [None].  [Read] is the code's trait. *)
From Stdlib Require Import ZArith Lia.
From stdpp Require Import base list numbers option.
From S2P Require Import Prelude Words Utf8 Memchr.
Import Utf8.

Module CsvReader.

(** ** Errors *)

Inductive ReadErrorKind :=
| UnterminatedQuote
| TrailingContent
| InvalidUtf8
| InconsistentFieldCount (expected found : nat)
| RecordTooLarge (limit : nat)
| FieldTooLarge (limit : nat)
| TooManyColumns (limit : nat)
| NoProgress
| Io.

Record ReadError := mkReadError { kind : ReadErrorKind; err_line : nat; column : nat }.

(** ** Data *)

(** [fn read(&mut self, buf: &mut Vec<u8>) -> Result<bool, ReadError>]. *)
Class Read (R : Type) := read : R -> list Z -> R * list Z * result bool ReadError.

(** A byte slice, read in chunks of at most 16384 bytes. *)
Definition slice_read (self buf : list Z) : list Z * list Z * result bool ReadError :=
  let chunk := Z.to_nat 16384 in
  let to_copy := Nat.min chunk (length self) in
  if (to_copy =? 0)%nat then (self, buf, Ok false)
  else (drop to_copy self, buf ++ take to_copy self, Ok true).
#[export] Instance slice_Read : Read (list Z) := slice_read.

Inductive State := StartOfField | InUnquoted | InQuoted | AfterQuote.
Definition state_eqb (a b : State) : bool :=
  match a, b with
  | StartOfField, StartOfField | InUnquoted, InUnquoted | InQuoted, InQuoted | AfterQuote, AfterQuote => true
  | _, _ => false
  end.
Inductive Src := Buf | Scratch.
Record RawField := mkRaw { raw_start : nat; raw_end : nat; src : Src }.
Record FieldRange := mkRange { range_start : nat; range_end : nat }.

(** Record update. *)
Class Setter {S T} (proj : S -> T) := set_with : T -> S -> S.
Notation "r <| f := v |>" := (set_with (proj := f) v r) (at level 1, left associativity, f at next level).

Section Reader.
Context {R : Type} `{!Read R}.

Record Reader := mkReader {
  buf : list Z;
  scratch : list Z;
  ranges : list RawField;
  start : nat;
  end_ : nat;
  discarded : nat;
  record_start : nat;
  line : nat;
  record_line : nat;
  field_start : nat;
  scratch_field_start : nat;
  state : State;
  delimiter : Z;
  flexible : bool;
  num_fields : option nat;
  headers_parsed : bool;
  pending_cr : bool;
  pending_lf_quoted : bool;
  bom_checked : bool;
  strip_bom : bool;
  max_record_bytes : option nat;
  max_field_bytes : option nat;
  max_columns : option nat;
  headers : list (list Z);
  source : R;
  eof : bool;
}.

#[export] Instance upd_buf : Setter buf := fun v r =>
  mkReader v (scratch r) (ranges r) (start r) (end_ r) (discarded r) (record_start r) (line r)
    (record_line r) (field_start r) (scratch_field_start r) (state r) (delimiter r) (flexible r)
    (num_fields r) (headers_parsed r) (pending_cr r) (pending_lf_quoted r) (bom_checked r) (strip_bom r)
    (max_record_bytes r) (max_field_bytes r) (max_columns r) (headers r) (source r) (eof r).
#[export] Instance upd_scratch : Setter scratch := fun v r =>
  mkReader (buf r) v (ranges r) (start r) (end_ r) (discarded r) (record_start r) (line r)
    (record_line r) (field_start r) (scratch_field_start r) (state r) (delimiter r) (flexible r)
    (num_fields r) (headers_parsed r) (pending_cr r) (pending_lf_quoted r) (bom_checked r) (strip_bom r)
    (max_record_bytes r) (max_field_bytes r) (max_columns r) (headers r) (source r) (eof r).
#[export] Instance upd_ranges : Setter ranges := fun v r =>
  mkReader (buf r) (scratch r) v (start r) (end_ r) (discarded r) (record_start r) (line r)
    (record_line r) (field_start r) (scratch_field_start r) (state r) (delimiter r) (flexible r)
    (num_fields r) (headers_parsed r) (pending_cr r) (pending_lf_quoted r) (bom_checked r) (strip_bom r)
    (max_record_bytes r) (max_field_bytes r) (max_columns r) (headers r) (source r) (eof r).
#[export] Instance upd_start : Setter start := fun v r =>
  mkReader (buf r) (scratch r) (ranges r) v (end_ r) (discarded r) (record_start r) (line r)
    (record_line r) (field_start r) (scratch_field_start r) (state r) (delimiter r) (flexible r)
    (num_fields r) (headers_parsed r) (pending_cr r) (pending_lf_quoted r) (bom_checked r) (strip_bom r)
    (max_record_bytes r) (max_field_bytes r) (max_columns r) (headers r) (source r) (eof r).
#[export] Instance upd_end_ : Setter end_ := fun v r =>
  mkReader (buf r) (scratch r) (ranges r) (start r) v (discarded r) (record_start r) (line r)
    (record_line r) (field_start r) (scratch_field_start r) (state r) (delimiter r) (flexible r)
    (num_fields r) (headers_parsed r) (pending_cr r) (pending_lf_quoted r) (bom_checked r) (strip_bom r)
    (max_record_bytes r) (max_field_bytes r) (max_columns r) (headers r) (source r) (eof r).
#[export] Instance upd_discarded : Setter discarded := fun v r =>
  mkReader (buf r) (scratch r) (ranges r) (start r) (end_ r) v (record_start r) (line r) (record_line
    r) (field_start r) (scratch_field_start r) (state r) (delimiter r) (flexible r) (num_fields r)
    (headers_parsed r) (pending_cr r) (pending_lf_quoted r) (bom_checked r) (strip_bom r)
    (max_record_bytes r) (max_field_bytes r) (max_columns r) (headers r) (source r) (eof r).
#[export] Instance upd_record_start : Setter record_start := fun v r =>
  mkReader (buf r) (scratch r) (ranges r) (start r) (end_ r) (discarded r) v (line r) (record_line r)
    (field_start r) (scratch_field_start r) (state r) (delimiter r) (flexible r) (num_fields r)
    (headers_parsed r) (pending_cr r) (pending_lf_quoted r) (bom_checked r) (strip_bom r)
    (max_record_bytes r) (max_field_bytes r) (max_columns r) (headers r) (source r) (eof r).
#[export] Instance upd_line : Setter line := fun v r =>
  mkReader (buf r) (scratch r) (ranges r) (start r) (end_ r) (discarded r) (record_start r) v
    (record_line r) (field_start r) (scratch_field_start r) (state r) (delimiter r) (flexible r)
    (num_fields r) (headers_parsed r) (pending_cr r) (pending_lf_quoted r) (bom_checked r) (strip_bom r)
    (max_record_bytes r) (max_field_bytes r) (max_columns r) (headers r) (source r) (eof r).
#[export] Instance upd_record_line : Setter record_line := fun v r =>
  mkReader (buf r) (scratch r) (ranges r) (start r) (end_ r) (discarded r) (record_start r) (line r) v
    (field_start r) (scratch_field_start r) (state r) (delimiter r) (flexible r) (num_fields r)
    (headers_parsed r) (pending_cr r) (pending_lf_quoted r) (bom_checked r) (strip_bom r)
    (max_record_bytes r) (max_field_bytes r) (max_columns r) (headers r) (source r) (eof r).
#[export] Instance upd_field_start : Setter field_start := fun v r =>
  mkReader (buf r) (scratch r) (ranges r) (start r) (end_ r) (discarded r) (record_start r) (line r)
    (record_line r) v (scratch_field_start r) (state r) (delimiter r) (flexible r) (num_fields r)
    (headers_parsed r) (pending_cr r) (pending_lf_quoted r) (bom_checked r) (strip_bom r)
    (max_record_bytes r) (max_field_bytes r) (max_columns r) (headers r) (source r) (eof r).
#[export] Instance upd_scratch_field_start : Setter scratch_field_start := fun v r =>
  mkReader (buf r) (scratch r) (ranges r) (start r) (end_ r) (discarded r) (record_start r) (line r)
    (record_line r) (field_start r) v (state r) (delimiter r) (flexible r) (num_fields r)
    (headers_parsed r) (pending_cr r) (pending_lf_quoted r) (bom_checked r) (strip_bom r)
    (max_record_bytes r) (max_field_bytes r) (max_columns r) (headers r) (source r) (eof r).
#[export] Instance upd_state : Setter state := fun v r =>
  mkReader (buf r) (scratch r) (ranges r) (start r) (end_ r) (discarded r) (record_start r) (line r)
    (record_line r) (field_start r) (scratch_field_start r) v (delimiter r) (flexible r) (num_fields r)
    (headers_parsed r) (pending_cr r) (pending_lf_quoted r) (bom_checked r) (strip_bom r)
    (max_record_bytes r) (max_field_bytes r) (max_columns r) (headers r) (source r) (eof r).
#[export] Instance upd_delimiter : Setter delimiter := fun v r =>
  mkReader (buf r) (scratch r) (ranges r) (start r) (end_ r) (discarded r) (record_start r) (line r)
    (record_line r) (field_start r) (scratch_field_start r) (state r) v (flexible r) (num_fields r)
    (headers_parsed r) (pending_cr r) (pending_lf_quoted r) (bom_checked r) (strip_bom r)
    (max_record_bytes r) (max_field_bytes r) (max_columns r) (headers r) (source r) (eof r).
#[export] Instance upd_flexible : Setter flexible := fun v r =>
  mkReader (buf r) (scratch r) (ranges r) (start r) (end_ r) (discarded r) (record_start r) (line r)
    (record_line r) (field_start r) (scratch_field_start r) (state r) (delimiter r) v (num_fields r)
    (headers_parsed r) (pending_cr r) (pending_lf_quoted r) (bom_checked r) (strip_bom r)
    (max_record_bytes r) (max_field_bytes r) (max_columns r) (headers r) (source r) (eof r).
#[export] Instance upd_num_fields : Setter num_fields := fun v r =>
  mkReader (buf r) (scratch r) (ranges r) (start r) (end_ r) (discarded r) (record_start r) (line r)
    (record_line r) (field_start r) (scratch_field_start r) (state r) (delimiter r) (flexible r) v
    (headers_parsed r) (pending_cr r) (pending_lf_quoted r) (bom_checked r) (strip_bom r)
    (max_record_bytes r) (max_field_bytes r) (max_columns r) (headers r) (source r) (eof r).
#[export] Instance upd_headers_parsed : Setter headers_parsed := fun v r =>
  mkReader (buf r) (scratch r) (ranges r) (start r) (end_ r) (discarded r) (record_start r) (line r)
    (record_line r) (field_start r) (scratch_field_start r) (state r) (delimiter r) (flexible r)
    (num_fields r) v (pending_cr r) (pending_lf_quoted r) (bom_checked r) (strip_bom r)
    (max_record_bytes r) (max_field_bytes r) (max_columns r) (headers r) (source r) (eof r).
#[export] Instance upd_pending_cr : Setter pending_cr := fun v r =>
  mkReader (buf r) (scratch r) (ranges r) (start r) (end_ r) (discarded r) (record_start r) (line r)
    (record_line r) (field_start r) (scratch_field_start r) (state r) (delimiter r) (flexible r)
    (num_fields r) (headers_parsed r) v (pending_lf_quoted r) (bom_checked r) (strip_bom r)
    (max_record_bytes r) (max_field_bytes r) (max_columns r) (headers r) (source r) (eof r).
#[export] Instance upd_pending_lf_quoted : Setter pending_lf_quoted := fun v r =>
  mkReader (buf r) (scratch r) (ranges r) (start r) (end_ r) (discarded r) (record_start r) (line r)
    (record_line r) (field_start r) (scratch_field_start r) (state r) (delimiter r) (flexible r)
    (num_fields r) (headers_parsed r) (pending_cr r) v (bom_checked r) (strip_bom r) (max_record_bytes
    r) (max_field_bytes r) (max_columns r) (headers r) (source r) (eof r).
#[export] Instance upd_bom_checked : Setter bom_checked := fun v r =>
  mkReader (buf r) (scratch r) (ranges r) (start r) (end_ r) (discarded r) (record_start r) (line r)
    (record_line r) (field_start r) (scratch_field_start r) (state r) (delimiter r) (flexible r)
    (num_fields r) (headers_parsed r) (pending_cr r) (pending_lf_quoted r) v (strip_bom r)
    (max_record_bytes r) (max_field_bytes r) (max_columns r) (headers r) (source r) (eof r).
#[export] Instance upd_strip_bom : Setter strip_bom := fun v r =>
  mkReader (buf r) (scratch r) (ranges r) (start r) (end_ r) (discarded r) (record_start r) (line r)
    (record_line r) (field_start r) (scratch_field_start r) (state r) (delimiter r) (flexible r)
    (num_fields r) (headers_parsed r) (pending_cr r) (pending_lf_quoted r) (bom_checked r) v
    (max_record_bytes r) (max_field_bytes r) (max_columns r) (headers r) (source r) (eof r).
#[export] Instance upd_max_record_bytes : Setter max_record_bytes := fun v r =>
  mkReader (buf r) (scratch r) (ranges r) (start r) (end_ r) (discarded r) (record_start r) (line r)
    (record_line r) (field_start r) (scratch_field_start r) (state r) (delimiter r) (flexible r)
    (num_fields r) (headers_parsed r) (pending_cr r) (pending_lf_quoted r) (bom_checked r) (strip_bom r)
    v (max_field_bytes r) (max_columns r) (headers r) (source r) (eof r).
#[export] Instance upd_max_field_bytes : Setter max_field_bytes := fun v r =>
  mkReader (buf r) (scratch r) (ranges r) (start r) (end_ r) (discarded r) (record_start r) (line r)
    (record_line r) (field_start r) (scratch_field_start r) (state r) (delimiter r) (flexible r)
    (num_fields r) (headers_parsed r) (pending_cr r) (pending_lf_quoted r) (bom_checked r) (strip_bom r)
    (max_record_bytes r) v (max_columns r) (headers r) (source r) (eof r).
#[export] Instance upd_max_columns : Setter max_columns := fun v r =>
  mkReader (buf r) (scratch r) (ranges r) (start r) (end_ r) (discarded r) (record_start r) (line r)
    (record_line r) (field_start r) (scratch_field_start r) (state r) (delimiter r) (flexible r)
    (num_fields r) (headers_parsed r) (pending_cr r) (pending_lf_quoted r) (bom_checked r) (strip_bom r)
    (max_record_bytes r) (max_field_bytes r) v (headers r) (source r) (eof r).
#[export] Instance upd_headers : Setter headers := fun v r =>
  mkReader (buf r) (scratch r) (ranges r) (start r) (end_ r) (discarded r) (record_start r) (line r)
    (record_line r) (field_start r) (scratch_field_start r) (state r) (delimiter r) (flexible r)
    (num_fields r) (headers_parsed r) (pending_cr r) (pending_lf_quoted r) (bom_checked r) (strip_bom r)
    (max_record_bytes r) (max_field_bytes r) (max_columns r) v (source r) (eof r).
#[export] Instance upd_source : Setter source := fun v r =>
  mkReader (buf r) (scratch r) (ranges r) (start r) (end_ r) (discarded r) (record_start r) (line r)
    (record_line r) (field_start r) (scratch_field_start r) (state r) (delimiter r) (flexible r)
    (num_fields r) (headers_parsed r) (pending_cr r) (pending_lf_quoted r) (bom_checked r) (strip_bom r)
    (max_record_bytes r) (max_field_bytes r) (max_columns r) (headers r) v (eof r).
#[export] Instance upd_eof : Setter eof := fun v r =>
  mkReader (buf r) (scratch r) (ranges r) (start r) (end_ r) (discarded r) (record_start r) (line r)
    (record_line r) (field_start r) (scratch_field_start r) (state r) (delimiter r) (flexible r)
    (num_fields r) (headers_parsed r) (pending_cr r) (pending_lf_quoted r) (bom_checked r) (strip_bom r)
    (max_record_bytes r) (max_field_bytes r) (max_columns r) (headers r) (source r) v.


Definition BOM : list Z := [0xEF; 0xBB; 0xBF].

Record BytesRow := mkBytesRow {
  row_buf : list Z; row_ranges : list FieldRange; row_error : option ReadError; row_line : nat;
}.
Record Row := mkRow { inner : BytesRow }.

(** ** Configuration *)

Definition new (source : R) : Reader :=
  mkReader [] [] [] 0 0 0 0 1 1 0 0 StartOfField 44 false None false false false false true None None None []
    source false.

Definition set_delimiter (self : Reader) (byte : Z) : option Reader :=
  _ ← rassert (negb (byte =? 34) && negb (byte =? 13) && negb (byte =? 10));
  Some (self <| delimiter := byte |>).
Definition set_flexible (self : Reader) (yes : bool) : Reader := self <| flexible := yes |>.
Definition set_strip_bom (self : Reader) (yes : bool) : Reader := self <| strip_bom := yes |>.
Definition set_max_record_bytes (self : Reader) (max : nat) : Reader := self <| max_record_bytes := Some max |>.
Definition set_max_field_bytes (self : Reader) (max : nat) : Reader := self <| max_field_bytes := Some max |>.
Definition set_max_columns (self : Reader) (max : nat) : Reader := self <| max_columns := Some max |>.
Definition set_headers (self : Reader) (names : list (list Z)) : Reader :=
  let self := self <| headers_parsed := true |> in
  let self := if negb (length names =? 0)%nat then self <| num_fields := Some (length names) |> else self in
  self <| headers := names |>.
Definition get_headers (self : Reader) : option (list (list Z)) :=
  if headers_parsed self then Some (headers self) else None.

(** ** The input buffer *)

(** [a - b] on [usize], and a byte of the buffer. *)
Definition usub (a b : nat) : option nat := if (b <=? a)%nat then Some (a - b)%nat else None.
Definition byte_at (self : Reader) (i : nat) : option Z := buf self !! i.

Definition fill_buf (self : Reader) : Reader * result bool ReadError :=
  if eof self then (self, Ok false) else
  let before := length (buf self) in
  let '(source', buf', r) := read (source self) (buf self) in
  let self := self <| source := source' |> <| buf := buf' |> in
  match r with
  | Err e => (self, Err e)
  | Ok true =>
      if (length buf' =? before)%nat
      then (self <| eof := true |>, Err (mkReadError NoProgress (record_line self) 0))
      else (self <| end_ := length buf' |>, Ok true)
  | Ok false => (self <| eof := true |>, Ok false)
  end.

Definition compact (self : Reader) : option Reader :=
  if (start self =? 0)%nat then Some self else
  if (start self <? 4096)%nat && (start self * 2 <? length (buf self))%nat then Some self else
  let shift := start self in
  remaining ← usub (end_ self) shift;
  buf' ← (if (0 <? remaining)%nat then slice (buf self) shift (end_ self) else Some []);
  Some (self <| buf := buf' |> <| end_ := remaining |> <| start := 0%nat |>
             <| discarded := (discarded self + shift)%nat |>).

(** [while self.end - self.start < 3 && !self.eof { self.fill_buf()?; }] *)
Fixpoint fill_three (fuel : nat) (self : Reader) : option (Reader * result unit ReadError) :=
  match fuel with
  | O => None
  | S fuel' =>
      n ← usub (end_ self) (start self);
      if (n <? 3)%nat && negb (eof self) then
        match fill_buf self with
        | (self, Err e) => Some (self, Err e)
        | (self, Ok _) => fill_three fuel' self
        end
      else Some (self, Ok tt)
  end.

Definition strip_leading_bom (fuel : nat) (self : Reader) : option (Reader * result unit ReadError) :=
  if bom_checked self then Some (self, Ok tt) else
  let self := self <| bom_checked := true |> in
  if negb (strip_bom self) then Some (self, Ok tt) else
  '(self, r) ← fill_three fuel self;
  match r with
  | Err e => Some (self, Err e)
  | Ok _ =>
      rest ← slice (buf self) (start self) (length (buf self));
      Some (if bool_decide (take 3 rest = BOM) then self <| start := (start self + 3)%nat |> else self, Ok tt)
  end.

(** ** Line endings *)

Definition consume_newline (self : Reader) : option Reader :=
  cr ← (if (start self <? end_ self)%nat then b ← byte_at self (start self); Some (b =? 13) else Some false);
  let self :=
    if (cr : bool) then
      let self := self <| start := S (start self) |> in
      if (end_ self <=? start self)%nat then self <| pending_cr := true |> else self
    else self in
  lf ← (if (start self <? end_ self)%nat then b ← byte_at self (start self); Some (b =? 10) else Some false);
  let self := if (lf : bool) then self <| start := S (start self) |> else self in
  Some (self <| line := S (line self) |>).

(** The loop of [count_line_breaks] on the rest of the slice: the breaks and
    whether it ended on a bare carriage return. *)
Fixpoint count_breaks (bytes : list Z) (breaks : nat) : nat * bool :=
  match bytes with
  | [] => (breaks, false)
  | b :: t =>
      if b =? 10 then count_breaks t (S breaks)
      else if b =? 13 then
        match t with
        | [] => (S breaks, true)
        | b' :: t' => if b' =? 10 then count_breaks t' (S breaks) else count_breaks t (S breaks)
        end
      else count_breaks t breaks
  end.

Context `{!Memchr}.

Definition count_line_breaks (bytes : list Z) (pending_cr : bool) : nat * bool :=
  match memchr2 13 10 bytes with
  | None => (0%nat, if negb (length bytes =? 0)%nat then false else pending_cr)
  | Some _ =>
      match pending_cr, bytes with
      | true, b :: t => count_breaks (if b =? 10 then t else bytes) 0
      | _, _ => count_breaks bytes 0
      end
  end.

Definition is_newline (b : Z) : bool := (b =? 10) || (b =? 13).

(** ** Rows *)

Definition push_range (self : Reader) (s e : nat) (src : Src) : Reader :=
  self <| ranges := ranges self ++ [mkRaw s e src] |>.

Definition finalize_current_field (self : Reader) : Reader :=
  match state self with
  | InUnquoted => push_range self (field_start self) (start self) Buf
  | InQuoted => push_range self (scratch_field_start self) (length (scratch self)) Scratch
  | AfterQuote => self
  | StartOfField =>
      if negb (length (ranges self) =? 0)%nat then push_range self (start self) (start self) Buf else self
  end.

Fixpoint assemble (self : Reader) (ranges : list RawField) (row_buf : list Z) (row_ranges : list FieldRange)
    : option (list Z * list FieldRange) :=
  match ranges with
  | [] => Some (row_buf, row_ranges)
  | r :: rest =>
      s ← slice (match src r with Buf => buf self | Scratch => scratch self end) (raw_start r) (raw_end r);
      let start := length row_buf in
      let row_buf := row_buf ++ s in
      assemble self rest row_buf (row_ranges ++ [mkRange start (length row_buf)])
  end.

Definition build_bytes_row (self : Reader) (error : option ReadError) : option (Reader * BytesRow) :=
  '(row_buf, row_ranges) ← assemble self (ranges self) [] [];
  let field_count := length row_ranges in
  let error :=
    if negb (flexible self) then
      match error with
      | Some e => Some e
      | None =>
          match num_fields self with
          | Some expected =>
              if negb (field_count =? expected)%nat
              then Some (mkReadError (InconsistentFieldCount expected field_count) (record_line self) 0) else None
          | None => None
          end
      end
    else error in
  let self :=
    match num_fields self, error with
    | None, None => if (0 <? field_count)%nat then self <| num_fields := Some field_count |> else self
    | _, _ => self
    end in
  Some (self, mkBytesRow row_buf row_ranges error (record_line self)).

Definition build_row (self : Reader) (error : option ReadError) : option (Reader * Row) :=
  '(self, bytes_row) ← build_bytes_row self error; Some (self, mkRow bytes_row).

(** ** Limits and recovery *)

Definition limit_exceeded (self : Reader) : option (option ReadErrorKind) :=
  record ← match max_record_bytes self with
           | Some limit =>
               consumed ← usub (discarded self + start self) (record_start self);
               Some (if (limit <? consumed)%nat then Some (RecordTooLarge limit) else None)
           | None => Some None
           end;
  match record with
  | Some k => Some (Some k)
  | None =>
      Some (match max_columns self with
            | Some limit => if (limit <? length (ranges self))%nat then Some (TooManyColumns limit) else None
            | None => None
            end)
  end.

Definition field_limit_exceeded (self : Reader) (len : nat) : option ReadErrorKind :=
  match max_field_bytes self with
  | Some limit => if (limit <? len)%nat then Some (FieldTooLarge limit) else None
  | None => None
  end.

Fixpoint skip_record_tail (fuel : nat) (self : Reader) : option (Reader * bool) :=
  match fuel with
  | O => None
  | S fuel' =>
      let '(self, filled) :=
        if (end_ self <=? start self)%nat then
          match fill_buf self with (self, Ok true) => (self, true) | (self, _) => (self, false) end
        else (self, true) in
      if negb filled then Some (self, false) else
      if pending_cr self then
        b ← byte_at self (start self);
        let self := if b =? 10 then self <| start := S (start self) |> else self in
        Some (self <| pending_cr := false |>, true)
      else
        haystack ← slice (buf self) (start self) (end_ self);
        match memchr2 13 10 haystack with
        | Some offset =>
            self ← consume_newline (self <| start := (start self + offset)%nat |>);
            Some (self, true)
        | None =>
            let self := self <| start := end_ self |> in
            over ← match max_record_bytes self with
                   | Some limit => n ← usub (discarded self + start self) (record_start self); Some (limit <? n)%nat
                   | None => Some false
                   end;
            if (over : bool) then Some (self, false) else skip_record_tail fuel' self
        end
  end.

Definition abandon_record (fuel : nat) (self : Reader) (kind : ReadErrorKind) : option (Reader * Row) :=
  let error := mkReadError kind (record_line self) 0 in
  self ← match kind with
         | RecordTooLarge _ | FieldTooLarge _ | TooManyColumns _ =>
             Some (self <| start := end_ self |> <| eof := true |>)
         | _ =>
             '(self, skipped) ← skip_record_tail fuel (finalize_current_field self);
             Some (if negb skipped then self <| eof := true |> else self)
         end;
  build_row self (Some error).

(** ** The parser *)

(** One turn of the loop of [read_row]: go on, or return. *)
Inductive Turn := Continue (self : Reader) | Return (self : Reader) (row : option Row).

Definition return_row (m : option (Reader * Row)) : option Turn :=
  '(self, row) ← m; Some (Return self (Some row)).

Definition start_of_field (self : Reader) (byte : Z) : option Turn :=
  if (byte =? 13) || (byte =? 10) then
    let self := if negb (length (ranges self) =? 0)%nat then push_range self (start self) (start self) Buf else self in
    self ← consume_newline self;
    if (length (ranges self) =? 0)%nat then Some (Continue self) else return_row (build_row self None)
  else
    let self := self <| field_start := start self |> in
    if byte =? delimiter self then
      let self := push_range self (start self) (start self) Buf in
      Some (Continue (self <| start := S (start self) |>))
    else if byte =? 34 then
      Some (Continue (self <| scratch_field_start := length (scratch self) |>
                           <| start := S (start self) |> <| state := InQuoted |>))
    else Some (Continue (self <| start := S (start self) |> <| state := InUnquoted |>)).

Definition in_unquoted (fuel : nat) (self : Reader) : option Turn :=
  haystack ← slice (buf self) (start self) (end_ self);
  match memchr3 (delimiter self) 13 10 haystack with
  | Some offset =>
      let pos := (start self + offset)%nat in
      len ← usub pos (field_start self);
      match field_limit_exceeded self len with
      | Some kind => return_row (abandon_record fuel self kind)
      | None =>
          let self := push_range self (field_start self) pos Buf in
          b ← byte_at self pos;
          if b =? delimiter self then
            Some (Continue (self <| start := S pos |> <| state := StartOfField |>))
          else
            self ← consume_newline (self <| start := pos |>);
            return_row (build_row self None)
      end
  | None =>
      let self := self <| start := end_ self |> in
      len ← usub (end_ self) (field_start self);
      match field_limit_exceeded self len with
      | Some kind => return_row (abandon_record fuel self kind)
      | None => Some (Continue self)
      end
  end.

(** The closing quote of a field: its range is complete. *)
Definition close_quoted (self : Reader) (after_quote : nat) : Reader :=
  (push_range self (scratch_field_start self) (length (scratch self)) Scratch)
    <| start := after_quote |> <| state := AfterQuote |>.

Definition in_quoted (fuel : nat) (self : Reader) : option Turn :=
  haystack ← slice (buf self) (start self) (end_ self);
  match memchr 34 haystack with
  | Some offset =>
      let quote_pos := (start self + offset)%nat in
      segment ← slice (buf self) (start self) quote_pos;
      len ← usub (length (scratch self)) (scratch_field_start self);
      match field_limit_exceeded self (len + length segment) with
      | Some kind => return_row (abandon_record fuel self kind)
      | None =>
          let '(breaks, _) := count_line_breaks segment (pending_lf_quoted self) in
          let self := self <| line := (line self + breaks)%nat |> <| pending_lf_quoted := false |>
                           <| scratch := scratch self ++ segment |> in
          let after_quote := S quote_pos in
          next ← (if (after_quote <? end_ self)%nat then b ← byte_at self after_quote; Some (b =? 34) else Some false);
          if (next : bool) then
            Some (Continue (self <| scratch := scratch self ++ [34] |> <| start := S after_quote |>))
          else if (after_quote <? end_ self)%nat then Some (Continue (close_quoted self after_quote))
          else
            match fill_buf self with
            | (self, Ok true) =>
                if bool_decide (byte_at self after_quote = Some 34)
                then Some (Continue (self <| scratch := scratch self ++ [34] |> <| start := S after_quote |>))
                else Some (Continue (close_quoted self after_quote))
            | (self, Ok false) => Some (Continue (close_quoted self after_quote))
            | (self, Err e) => return_row (build_row (close_quoted self after_quote) (Some e))
            end
      end
  | None =>
      let '(breaks, pending) := count_line_breaks haystack (pending_lf_quoted self) in
      let self := self <| line := (line self + breaks)%nat |> <| pending_lf_quoted := pending |>
                       <| scratch := scratch self ++ haystack |> <| start := end_ self |> in
      len ← usub (length (scratch self)) (scratch_field_start self);
      match field_limit_exceeded self len with
      | Some kind => return_row (abandon_record fuel self kind)
      | None => Some (Continue self)
      end
  end.

Definition after_quote_state (fuel : nat) (self : Reader) (byte : Z) : option Turn :=
  if byte =? delimiter self then Some (Continue (self <| start := S (start self) |> <| state := StartOfField |>))
  else if is_newline byte then self ← consume_newline self; return_row (build_row self None)
  else return_row (abandon_record fuel self TrailingContent).

(** The part of a turn after the buffer holds a byte. *)
Definition turn (fuel : nat) (self : Reader) : option Turn :=
  exceeded ← limit_exceeded self;
  match exceeded with
  | Some kind => return_row (abandon_record fuel self kind)
  | None =>
      if pending_cr self then
        b ← byte_at self (start self);
        let self := if b =? 10 then self <| start := S (start self) |> else self in
        Some (Continue (self <| pending_cr := false |>))
      else
        byte ← byte_at self (start self);
        match state self with
        | StartOfField => start_of_field self byte
        | InUnquoted => in_unquoted fuel self
        | InQuoted => in_quoted fuel self
        | AfterQuote => after_quote_state fuel self byte
        end
  end.

(** The end of the input, or an error of the source. *)
Definition read_error (self : Reader) (e : ReadError) : option Turn :=
  let self := self <| eof := true |> in
  match state self with
  | InQuoted => return_row (build_row self (Some e))
  | _ => return_row (build_row (finalize_current_field self) (Some e))
  end.

Definition at_eof (self : Reader) : option Turn :=
  if (length (ranges self) =? 0)%nat && state_eqb (state self) StartOfField then Some (Return self None) else
  match state self with
  | InQuoted => return_row (build_row self (Some (mkReadError UnterminatedQuote (record_line self) 0)))
  | _ => return_row (build_row (finalize_current_field self) None)
  end.

Fixpoint read_loop (fuel : nat) (self : Reader) : option (Reader * option Row) :=
  match fuel with
  | O => None
  | S fuel' =>
      t ← (if (end_ self <=? start self)%nat then
             match fill_buf self with
             | (self, Err e) => read_error self e
             | (self, Ok false) => at_eof self
             | (self, Ok true) => turn fuel' self
             end
           else turn fuel' self);
      match t with
      | Continue self => read_loop fuel' self
      | Return self row => Some (self, row)
      end
  end.

Definition read_row (fuel : nat) (self : Reader) : option (Reader * option Row) :=
  self ← compact self;
  let self := self <| ranges := [] |> <| scratch := [] |> <| state := StartOfField |>
                   <| pending_lf_quoted := false |> <| record_line := line self |> in
  '(self, r) ← strip_leading_bom fuel self;
  match r with
  | Err e =>
      '(self, row) ← build_row (self <| eof := true |>) (Some e);
      Some (self, Some row)
  | Ok _ => read_loop fuel (self <| record_start := (discarded self + start self)%nat |>)
  end.

(** ** Access to rows *)

Definition range_bytes (self : BytesRow) (r : FieldRange) : option (list Z) :=
  slice (row_buf self) (range_start r) (range_end r).

(** [BytesRow::get], the inner [option] the code's own; [BytesRow::to_vec]. *)
Definition BytesRow_get (self : BytesRow) (index : nat) : option (option (list Z)) :=
  match row_ranges self !! index with
  | Some r => b ← range_bytes self r; Some (Some b)
  | None => Some None
  end.

Definition BytesRow_to_vec (self : BytesRow) : option (result (list (list Z)) ReadError) :=
  match row_error self with
  | Some e => Some (Err e)
  | None => fields ← mapM (range_bytes self) (row_ranges self); Some (Ok fields)
  end.

Definition field_str (self : BytesRow) (bytes : list Z) : result (list Z) ReadError :=
  match from_utf8 bytes with Ok s => Ok s | Err _ => Err (mkReadError InvalidUtf8 (row_line self) 0) end.

Definition Row_get (self : Row) (index : nat) : option (option (result (list Z) ReadError)) :=
  b ← BytesRow_get (inner self) index;
  Some (match b with
        | None => None
        | Some bytes =>
            match row_error (inner self) with
            | Some e => Some (Err e)
            | None => Some (field_str (inner self) bytes)
            end
        end).

(** [collect()] into a [Result] stops at the first error. *)
Fixpoint collect_fields (self : BytesRow) (ranges : list FieldRange) : option (result (list (list Z)) ReadError) :=
  match ranges with
  | [] => Some (Ok [])
  | r :: rest =>
      bytes ← range_bytes self r;
      match field_str self bytes with
      | Err e => Some (Err e)
      | Ok s => fields ← collect_fields self rest; Some (let? fs := fields in Ok (s :: fs))
      end
  end.

Definition Row_to_vec (self : Row) : option (result (list (list Z)) ReadError) :=
  match row_error (inner self) with
  | Some e => Some (Err e)
  | None => collect_fields (inner self) (row_ranges (inner self))
  end.

Definition parse_headers (fuel : nat) (self : Reader) : option (Reader * result (list (list Z)) ReadError) :=
  '(self, row) ← read_row fuel self;
  match row with
  | None => Some (self, Ok [])
  | Some row =>
      v ← Row_to_vec row;
      match v with
      | Err e => Some (self, Err e)
      | Ok names =>
          Some (self <| headers_parsed := true |> <| num_fields := Some (length names) |> <| headers := names |>,
                Ok names)
      end
  end.

(** [rows_bytes()] collected: at most [n] rows, each with its own fuel. *)
Fixpoint collect_rows (n fuel : nat) (self : Reader) : option (list BytesRow) :=
  match n with
  | O => None
  | S n' =>
      '(self, row) ← read_row fuel self;
      match row with
      | None => Some []
      | Some row => rows ← collect_rows n' fuel self; Some (inner row :: rows)
      end
  end.
End Reader.

End CsvReader.
