(* ===== verification/CsvSpec.v ===== *)
(** * csv: what the reader computes

    The reference parser [records] reads the whole input byte by byte; the
    reader of [CsvReader] searches its buffer in bulk, refills it from the
    source in pieces of any size and compacts it.  The theorem says that the
    rows are the same. *)
From Stdlib Require Import ZArith Lia.
From stdpp Require Import base list numbers option.
From S2P Require Import Prelude Words Memchr CsvReader.
Import CsvReader.

Module CsvSpec.

(** ** The reference parser *)

Inductive Phase := InRecord (q : State) | Skipping.

Definition row : Type := list (list Z) * option ReadErrorKind.

(** The rows of [l]; [cr] says that the byte before ended a line and was a
    carriage return, [fs] are the complete fields of the current record, [cur]
    is the text of the one being read. *)
Fixpoint records (d : Z) (l : list Z) (cr : bool) (p : Phase) (fs : list (list Z)) (cur : list Z) : list row :=
  match l with
  | [] =>
      match p with
      | Skipping => []
      | InRecord StartOfField => match fs with [] => [] | _ => [(fs ++ [[]], None)] end
      | InRecord InQuoted => [(fs, Some UnterminatedQuote)]
      | InRecord _ => [(fs ++ [cur], None)]
      end
  | b :: t =>
      if cr && (b =? 10) then records d t false p fs cur else
      let end_line := records d t (b =? 13) (InRecord StartOfField) [] [] in
      match p with
      | Skipping => if is_newline b then end_line else records d t false Skipping [] []
      | InRecord StartOfField =>
          if is_newline b then match fs with [] => end_line | _ => (fs ++ [[]], None) :: end_line end
          else if b =? d then records d t false (InRecord StartOfField) (fs ++ [[]]) []
          else if b =? 34 then records d t false (InRecord InQuoted) fs []
          else records d t false (InRecord InUnquoted) fs [b]
      | InRecord InUnquoted =>
          if b =? d then records d t false (InRecord StartOfField) (fs ++ [cur]) []
          else if is_newline b then (fs ++ [cur], None) :: end_line
          else records d t false (InRecord InUnquoted) fs (cur ++ [b])
      | InRecord InQuoted =>
          if b =? 34 then records d t false (InRecord AfterQuote) fs cur
          else records d t false (InRecord InQuoted) fs (cur ++ [b])
      | InRecord AfterQuote =>
          if b =? 34 then records d t false (InRecord InQuoted) fs (cur ++ [34])
          else if b =? d then records d t false (InRecord StartOfField) (fs ++ [cur]) []
          else if is_newline b then (fs ++ [cur], None) :: end_line
          else (fs ++ [cur], Some TrailingContent) :: records d t false Skipping [] []
      end
  end.

(** The field counts: the first sound row fixes the number the others need. *)
Definition count_error (flex : bool) (expected : option nat) (r : row) : option ReadErrorKind :=
  match r.2, expected with
  | Some e, _ => Some e
  | None, Some n =>
      if negb flex && negb (length r.1 =? n)%nat then Some (InconsistentFieldCount n (length r.1)) else None
  | None, None => None
  end.
Definition next_count (flex : bool) (expected : option nat) (r : row) : option nat :=
  match expected, count_error flex expected r with
  | None, None => if (0 <? length r.1)%nat then Some (length r.1) else None
  | _, _ => expected
  end.
Fixpoint with_counts (flex : bool) (expected : option nat) (rows : list row) : list row :=
  match rows with
  | [] => []
  | r :: rest => (r.1, count_error flex expected r) :: with_counts flex (next_count flex expected r) rest
  end.

Definition without_bom (l : list Z) : list Z := if bool_decide (take 3 l = BOM) then drop 3 l else l.

Definition csv_spec (d : Z) (flex strip : bool) (l : list Z) : list row :=
  with_counts flex None (records d (if strip then without_bom l else l) false (InRecord StartOfField) [] []).

(** ** Sources

    What a source promises: it delivers its content in pieces that are not
    empty, and says so at the end. *)
Class Stream (R : Type) `{!Read R} := {
  content : R -> list Z;
  read_law s buf : match read s buf with
    | (s', buf', Ok true) => exists c, c <> [] /\ buf' = buf ++ c /\ content s = c ++ content s'
    | (s', buf', Ok false) => buf' = buf /\ content s = [] /\ content s' = []
    | (_, _, Err _) => False
    end;
}.

Lemma chunk_law C (s buf : list Z) : (0 < C)%nat ->
  match (if (Nat.min C (length s) =? 0)%nat then (s, buf, Ok (E := ReadError) false)
         else (drop (Nat.min C (length s)) s, buf ++ take (Nat.min C (length s)) s, Ok true)) with
  | (s', buf', Ok true) => exists c, c <> [] /\ buf' = buf ++ c /\ s = c ++ s'
  | (s', buf', Ok false) => buf' = buf /\ s = [] /\ s' = []
  | (_, _, Err _) => False
  end.
Proof.
  intros HC. destruct (Nat.eqb_spec (Nat.min C (length s)) 0) as [H|H].
  - destruct s; [done|]. cbn [length] in H. lia.
  - exists (take (Nat.min C (length s)) s). split_and!; [|done|by rewrite take_drop].
    intros Hn. apply (f_equal length) in Hn. rewrite length_take in Hn. cbn [length] in Hn. lia.
Qed.

#[export, refine] Instance slice_Stream : Stream (list Z) := {| content := fun l => l |}.
Proof. intros s buf. apply chunk_law. lia. Defined.

(** A source that delivers the given pieces one by one. *)
Record Pieces := mkPieces { pieces : list (list Z); pieces_ok : Forall (fun c => c <> []) pieces }.

#[export] Instance Pieces_Read : Read Pieces := fun s buf =>
  match s with
  | mkPieces [] ok => (mkPieces [] ok, buf, Ok false)
  | mkPieces (c :: rest) ok => (mkPieces rest (Forall_inv_tail ok), buf ++ c, Ok true)
  end.

#[export, refine] Instance Pieces_Stream : Stream Pieces := {| content := fun s => concat (pieces s) |}.
Proof.
  intros [[|c rest] ok] buf; simpl; [done|]. exists c. split_and!; [|done|done].
  exact (Forall_inv ok).
Defined.

(** ** The grammar on runs of bytes *)

Section Grammar.
Context {d : Z}.

Lemma records_after_cr l p fs cur : head l <> Some 10 -> records d l true p fs cur = records d l false p fs cur.
Proof. destruct l as [|b t]; simpl; [done|]. intros Hb. destruct (Z.eqb_spec b 10) as [->|]; [done|]. done. Qed.

(** A bare byte that ends a line. *)
Lemma newline_cases b : is_newline b = true -> b = 13 \/ b = 10.
Proof. unfold is_newline. destruct (Z.eqb_spec b 10), (Z.eqb_spec b 13); simpl; auto; done. Qed.

Lemma records_unquoted_run seg l fs cur :
  Forall (fun x => (x =? d) || (x =? 13) || (x =? 10) = false) seg ->
  records d (seg ++ l) false (InRecord InUnquoted) fs cur = records d l false (InRecord InUnquoted) fs (cur ++ seg).
Proof.
  intros Hs. revert cur. induction Hs as [|x seg Hx Hs IH]; intros cur; [by rewrite app_nil_r|].
  bool_hyps. cbn [app records andb]. unfold is_newline.
  destruct (Z.eqb_spec x d), (Z.eqb_spec x 10), (Z.eqb_spec x 13); try done. cbn [orb]. by rewrite IH, <- app_assoc.
Qed.

Lemma records_quoted_run seg l fs cur : Forall (fun x => (x =? 34) = false) seg ->
  records d (seg ++ l) false (InRecord InQuoted) fs cur = records d l false (InRecord InQuoted) fs (cur ++ seg).
Proof.
  intros Hs. revert cur. induction Hs as [|x seg Hx Hs IH]; intros cur; [by rewrite app_nil_r|].
  cbn [app records andb]. rewrite Hx. by rewrite IH, <- app_assoc.
Qed.

Lemma records_skip_run seg l : Forall (fun x => (x =? 13) || (x =? 10) = false) seg ->
  records d (seg ++ l) false Skipping [] [] = records d l false Skipping [] [].
Proof.
  induction 1 as [|x seg Hx Hs IH]; [done|]. bool_hyps. cbn [app records andb]. unfold is_newline.
  destruct (Z.eqb_spec x 10), (Z.eqb_spec x 13); done.
Qed.

Lemma records_length l cr p fs cur : (length (records d l cr p fs cur) <= S (length l))%nat.
Proof.
  revert cr p fs cur. induction l as [|b l IH]; intros cr p fs cur; [cbn; repeat case_match; simpl; lia|].
  cbn [records]. repeat case_match; cbn [length]; match goal with |- context [length (records d l ?c ?p ?f ?u)] =>
    specialize (IH c p f u) end; lia.
Qed.
End Grammar.

Section Refinement.
Context {R : Type} `{!Read R, !Stream R, !Memchr, !MemchrLaws}.
Context (d : Z) (flex : bool).
Hypothesis d_ok : d <> 34 /\ d <> 13 /\ d <> 10.

(** ** Invariant *)

Definition bytes_of (r : Reader (R := R)) (f : RawField) : list Z :=
  match src f with Buf => buf r | Scratch => scratch r end.
Definition fval (r : Reader (R := R)) (f : RawField) : list Z :=
  take (raw_end f - raw_start f) (drop (raw_start f) (bytes_of r f)).
Definition bounded (r : Reader (R := R)) (f : RawField) : Prop :=
  (raw_start f <= raw_end f)%nat /\ (raw_end f <= length (bytes_of r f))%nat.
Definition fields (r : Reader (R := R)) : list (list Z) := map (fval r) (ranges r).
Definition rest (r : Reader (R := R)) : list Z := drop (start r) (buf r) ++ content (source r).

Record Inv (nf : option nat) (r : Reader (R := R)) : Prop := {
  inv_end : end_ r = length (buf r);
  inv_start : (start r <= end_ r)%nat;
  inv_eof : eof r = true -> content (source r) = [];
  inv_delimiter : delimiter r = d;
  inv_flexible : flexible r = flex;
  inv_count : num_fields r = nf;
  inv_bom : bom_checked r = true;
  inv_record : max_record_bytes r = None;
  inv_field : max_field_bytes r = None;
  inv_columns : max_columns r = None;
  inv_ranges : Forall (bounded r) (ranges r);
}.

(** The state of the reader against that of the reference parser. *)
Definition Rel (r : Reader (R := R)) (q : State) (fs : list (list Z)) (cur : list Z) : Prop :=
  state r = q /\ (pending_cr r = true -> q = StartOfField /\ fs = []) /\
  match q with
  | StartOfField => fields r = fs /\ cur = []
  | InUnquoted => fields r = fs /\ (field_start r <= start r)%nat /\
      cur = take (start r - field_start r) (drop (field_start r) (buf r))
  | InQuoted => fields r = fs /\ (scratch_field_start r <= length (scratch r))%nat /\
      cur = drop (scratch_field_start r) (scratch r)
  | AfterQuote => fields r = fs ++ [cur] /\ head (rest r) <> Some 34
  end.

Definition meas (r : Reader (R := R)) : nat := (2 * length (rest r) + if pending_cr r then 1 else 0)%nat.

Ltac rd := cbn [set_with upd_buf upd_scratch upd_ranges upd_start upd_end_ upd_discarded upd_record_start upd_line
  upd_record_line upd_field_start upd_scratch_field_start upd_state upd_delimiter upd_flexible upd_num_fields
  upd_headers_parsed upd_pending_cr upd_pending_lf_quoted upd_bom_checked upd_strip_bom upd_max_record_bytes
  upd_max_field_bytes upd_max_columns upd_headers upd_source upd_eof
  buf scratch ranges start end_ discarded record_start line record_line field_start scratch_field_start state
  delimiter flexible num_fields headers_parsed pending_cr pending_lf_quoted bom_checked strip_bom max_record_bytes
  max_field_bytes max_columns headers source eof] in *.

(** ** Filling the buffer *)

Lemma fill_buf_spec nf r : Inv nf r ->
  (exists c s', c <> [] /\ fill_buf r = (r <| source := s' |> <| buf := buf r ++ c |> <| end_ := length (buf r ++ c) |>, Ok true) /\
     content (source r) = c ++ content s') \/
  (exists s', fill_buf r = (r <| source := s' |> <| eof := true |>, Ok false) /\
     content (source r) = [] /\ content s' = []).
Proof.
  intros Hi. unfold fill_buf. destruct (eof r) eqn:He.
  { right. exists (source r). pose proof (inv_eof _ _ Hi He). split_and!; [|done|done]. by destruct r; rd; subst. }
  pose proof (read_law (source r) (buf r)) as Hl. destruct (read (source r) (buf r)) as [[s' buf'] [[|]|e]]; [| |done].
  - destruct Hl as (c & Hc & -> & Hs). left. exists c, s'. split_and!; [done| |done].
    rewrite length_app. destruct (Nat.eqb_spec (length (buf r) + length c) (length (buf r))) as [Hz|]; [|by rd].
    destruct c; [done|]. simpl in Hz. lia.
  - destruct Hl as (-> & H1 & H2). right. exists s'. split_and!; [|done|done]. by destruct r; rd.
Qed.

(** ** Growing buffers keep the fields read so far *)

Definition extends (r r' : Reader (R := R)) : Prop :=
  exists c e, buf r' = buf r ++ c /\ scratch r' = scratch r ++ e.

Lemma fval_extends r r' f : extends r r' -> bounded r f -> bounded r' f /\ fval r' f = fval r f.
Proof.
  intros (c & e & Hb & Hs) [H1 H2].
  assert (Hx : exists x, bytes_of r' f = bytes_of r f ++ x) by (unfold bytes_of; destruct (src f); eauto).
  destruct Hx as [x Hx]. unfold bounded, fval. rewrite Hx, length_app. split; [lia|].
  rewrite drop_app_le by lia. rewrite take_app_le; [done|]. rewrite length_drop. lia.
Qed.

Lemma fields_extends r r' l : extends r r' -> Forall (bounded r) l ->
  Forall (bounded r') l /\ map (fval r') l = map (fval r) l.
Proof.
  intros He. induction 1 as [|f l Hf Hl [IH1 IH2]]; simpl; [by split|].
  destruct (fval_extends r r' f He Hf) as [? ->]. split; [by constructor|by rewrite IH2].
Qed.

Lemma extends_refl r r' : buf r' = buf r -> scratch r' = scratch r -> extends r r'.
Proof. intros H1 H2. unfold extends. rewrite H1, H2. exists [], []. by rewrite !app_nil_r. Qed.

Lemma fields_ext r r' : extends r r' -> ranges r' = ranges r -> Forall (bounded r) (ranges r) -> fields r' = fields r.
Proof. intros He Hr Hb. unfold fields. rewrite Hr. by apply fields_extends. Qed.

Lemma fields_push r s e k : fields (push_range r s e k) = fields r ++ [fval r (mkRaw s e k)].
Proof. unfold fields, push_range. rd. rewrite map_app. done. Qed.

(** ** The input that is left *)

Lemma rest_cons r nf : Inv nf r -> (start r < end_ r)%nat -> exists b,
  buf r !! start r = Some b /\ rest r = b :: drop (S (start r)) (buf r) ++ content (source r).
Proof.
  intros Hi Hlt. rewrite (inv_end _ _ Hi) in Hlt. destruct (lookup_lt_is_Some_2 _ _ Hlt) as [b Hb].
  exists b. split; [done|]. unfold rest. by rewrite (drop_S _ _ _ Hb).
Qed.

Lemma consume_newline_wp nf r b t : Inv nf r -> (start r < end_ r)%nat -> rest r = b :: t -> is_newline b = true ->
  pending_cr r = false ->
  wp (consume_newline r) (fun r' => Inv nf r' /\ ranges r' = ranges r /\ buf r' = buf r /\ scratch r' = scratch r /\
    state r' = state r /\ (length (rest r') < length (rest r))%nat /\
    records d t (b =? 13) (InRecord StartOfField) [] [] =
    records d (rest r') (pending_cr r') (InRecord StartOfField) [] []).
Proof.
  intros Hi Hlt Hr Hn Hp. destruct (rest_cons r nf Hi Hlt) as (b' & Hb & Hr'). rewrite Hr in Hr'. injection Hr' as <- ->.
  unfold consume_newline, byte_at. destruct (Nat.ltb_spec (start r) (end_ r)); [|lia]. rewrite Hb. cbn [mbind option_bind].
  destruct (newline_cases b Hn) as [-> | ->]; cbn [Z.eqb Pos.eqb]; rd.
  - destruct (Nat.leb_spec (end_ r) (S (start r))) as [Hle|Hle]; rd; (destruct (Nat.ltb_spec (S (start r)) (end_ r)); [try lia|try lia]).
    + cbn [mbind option_bind wp]. rd. split_and!; try done.
      * destruct Hi; split; rd; done || lia.
      * rewrite Hr. unfold rest. rd. simpl. lia.
    + rewrite (inv_end _ _ Hi) in Hle. destruct (lookup_lt_is_Some_2 _ _ Hle) as [x Hx]. rewrite Hx.
      cbn [mbind option_bind wp]. rewrite Hr. unfold rest. rewrite (drop_S _ _ _ Hx).
      destruct (Z.eqb_spec x 10) as [->|Hx10]; rd.
      * split_and!; try done; [|simpl; lia|simpl; by rewrite Hp].
        destruct Hi; split; rd; done || lia.
      * rewrite (drop_S _ _ _ Hx). split_and!; try done; [|simpl; lia|].
        { destruct Hi; split; rd; done || lia. }
        rewrite Hp. apply records_after_cr. simpl. congruence.
  - destruct (Nat.ltb_spec (start r) (end_ r)); [|lia]. rewrite Hb. cbn [mbind option_bind Z.eqb Pos.eqb wp]. rd.
    split_and!; try done; [|rewrite Hr; unfold rest; rd; simpl; lia|unfold rest; rd; by rewrite Hp].
    destruct Hi; split; rd; done || lia.
Qed.

(** ** Rows *)

Definition viewed (b : BytesRow) (x : row) : Prop :=
  mapM (range_bytes b) (row_ranges b) = Some x.1 /\ kind <$> row_error b = x.2.

Lemma slice_app_l {A} (l x : list A) lo hi s : slice l lo hi = Some s -> slice (l ++ x) lo hi = Some s.
Proof.
  unfold slice. destruct (decide (lo <= hi /\ hi <= length l)%nat) as [[H1 H2]|]; [|done]. intros [= <-].
  rewrite decide_True by (rewrite length_app; lia). f_equal. rewrite drop_app_le by lia.
  apply take_app_le. rewrite length_drop. lia.
Qed.

Lemma mapM_slice_app (b x : list Z) rs vs : mapM (fun g => slice b (range_start g) (range_end g)) rs = Some vs ->
  mapM (fun g => slice (b ++ x) (range_start g) (range_end g)) rs = Some vs.
Proof.
  revert vs. induction rs as [|g rs IH]; intros vs; simpl; [done|]. intros Hm.
  apply bind_Some in Hm as (v & Hv & Hm). apply bind_Some in Hm as (vs' & Hvs & [= <-]).
  by rewrite (slice_app_l _ _ _ _ _ Hv), (IH _ Hvs).
Qed.

Lemma mapM_snoc {A B} (f : A -> option B) l vs x v : mapM f l = Some vs -> f x = Some v ->
  mapM f (l ++ [x]) = Some (vs ++ [v]).
Proof.
  intros Hl Hx. revert vs Hl. induction l as [|y l IH]; intros vs Hl; simpl in *.
  - injection Hl as <-. by rewrite Hx.
  - apply bind_Some in Hl as (w & -> & Hl). apply bind_Some in Hl as (ws & Hws & [= <-]).
    simpl. by rewrite (IH _ Hws).
Qed.

Lemma assemble_wp r rs rb rr vs : Forall (bounded r) rs ->
  mapM (fun g => slice rb (range_start g) (range_end g)) rr = Some vs ->
  wp (assemble r rs rb rr) (fun '(rb', rr') =>
    mapM (fun g => slice rb' (range_start g) (range_end g)) rr' = Some (vs ++ map (fval r) rs) /\
    length rr' = (length rr + length rs)%nat).
Proof.
  intros Hb. revert rb rr vs. induction Hb as [|f rs [H1 H2] Hrs IH]; intros rb rr vs Hvs; simpl.
  { rewrite app_nil_r. split; [done|lia]. }
  change (match src f with Buf => buf r | Scratch => scratch r end) with (bytes_of r f).
  apply wp_bind, wp_slice; [done|done|]. fold (fval r f). eapply wp_mono; [apply IH|].
  - apply (mapM_snoc _ rr vs _ (fval r f)); [by apply mapM_slice_app|]. cbn [range_start range_end]. unfold slice.
    rewrite decide_True by (rewrite length_app; lia). f_equal.
    rewrite drop_app_length, take_ge by (rewrite length_app; lia). done.
  - intros [rb' rr'] [Hm Hl]. rewrite length_app in Hl. simpl in *. split; [|lia].
    by rewrite Hm, <- app_assoc.
Qed.

Lemma build_row_wp nf r e : Inv nf r ->
  wp (build_row r e) (fun '(r', w) =>
    let x := (fields r, kind <$> e) in
    viewed (inner w) (x.1, count_error flex nf x) /\ Inv (next_count flex nf x) r' /\
    rest r' = rest r /\ pending_cr r' = pending_cr r).
Proof.
  intros Hi. unfold build_row, build_bytes_row.
  apply wp_bind, wp_bind. eapply wp_mono; [by apply (assemble_wp r _ [] [] []); [apply (inv_ranges _ _ Hi)|]|].
  intros [rb rr] [Hm Hl]. simpl in Hl. cbn beta iota zeta. rewrite (inv_flexible _ _ Hi), (inv_count _ _ Hi).
  assert (Hlen : length rr = length (fields r)) by (unfold fields; rewrite length_map; done).
  rewrite Hlen. unfold count_error, next_count, count_error, viewed. cbn [fst snd].
  assert (Hkeep : Inv nf r) by done.
  assert (Hset : nf = None -> Inv (Some (length (fields r))) (r <| num_fields := Some (length (fields r)) |>)).
  { intros ->. destruct Hi; split; rd; done. }
  destruct e as [e|], nf as [n|], flex; cbn [negb fmap option_fmap option_map andb wp inner row_ranges row_buf row_error];
    try (destruct (Nat.eqb_spec (length (fields r)) n)); cbn [negb fmap option_fmap option_map wp inner row_ranges row_buf row_error kind];
    repeat case_match; rd; split_and!; try done; try (by apply Hset); auto.
Qed.


(** ** A filled buffer *)

Definition filled (r : Reader (R := R)) (c : list Z) (s' : R) : Reader :=
  r <| source := s' |> <| buf := buf r ++ c |> <| end_ := length (buf r ++ c) |>.

Lemma filled_inv nf r c s' : Inv nf r -> content (source r) = c ++ content s' -> c <> [] -> Inv nf (filled r c s').
Proof.
  intros Hi Hc Hn. unfold filled. destruct Hi; split; rd; try done.
  - rewrite length_app. lia.
  - intros He. rewrite inv_eof0 in Hc by done. destruct c; done.
  - eapply fields_extends; [|done]. exists c, []. rd. by rewrite app_nil_r.
Qed.

Lemma filled_rest nf r c s' : Inv nf r -> content (source r) = c ++ content s' -> rest (filled r c s') = rest r.
Proof.
  intros Hi Hc. unfold rest, filled. rd. rewrite drop_app_le, Hc, app_assoc; [done|].
  rewrite <- (inv_end _ _ Hi). apply (inv_start _ _ Hi).
Qed.

Lemma filled_extends r c s' : extends r (filled r c s').
Proof. exists c, []. unfold filled. rd. by rewrite app_nil_r. Qed.

Lemma filled_lt nf r c s' : Inv nf r -> c <> [] -> (start (filled r c s') < end_ (filled r c s'))%nat.
Proof.
  intros Hi Hc. unfold filled. rd. rewrite length_app, <- (inv_end _ _ Hi). pose proof (inv_start _ _ Hi).
  destruct c; [done|simpl; lia].
Qed.

Lemma rest_nil r nf : Inv nf r -> (end_ r <= start r)%nat -> rest r = content (source r).
Proof. intros Hi Hle. unfold rest. rewrite drop_ge; [done|]. rewrite <- (inv_end _ _ Hi). done. Qed.

(** The bytes a bulk search looks at. *)
Lemma haystack_eq r nf : Inv nf r -> slice (buf r) (start r) (end_ r) = Some (drop (start r) (buf r)).
Proof.
  intros Hi. unfold slice. rewrite (inv_end _ _ Hi). pose proof (inv_start _ _ Hi) as Hs. rewrite (inv_end _ _ Hi) in Hs.
  rewrite decide_True by lia. f_equal. apply take_ge. rewrite length_drop. lia.
Qed.

(** ** Recovery *)

Lemma skip_wp fuel nf r : Inv nf r -> pending_cr r = false -> (length (rest r) < fuel)%nat ->
  wp (skip_record_tail fuel r) (fun '(r', ok) => Inv nf r' /\ extends r r' /\ ranges r' = ranges r /\
    (length (rest r') <= length (rest r))%nat /\
    if (ok : bool) then
      records d (rest r) false Skipping [] [] = records d (rest r') (pending_cr r') (InRecord StartOfField) [] []
    else rest r' = [] /\ content (source r') = [] /\ records d (rest r) false Skipping [] [] = []).
Proof.
  revert r. induction fuel as [|fuel IH]; intros r Hi Hp Hf; [lia|]. cbn [skip_record_tail].
  assert (Hgo : forall r1, Inv nf r1 -> pending_cr r1 = false -> extends r r1 -> ranges r1 = ranges r ->
    rest r1 = rest r -> (start r1 < end_ r1)%nat ->
    wp (haystack ← slice (buf r1) (start r1) (end_ r1);
        match memchr2 13 10 haystack with
        | Some offset => r2 ← consume_newline (r1 <| start := (start r1 + offset)%nat |>); Some (r2, true)
        | None =>
            let r2 := r1 <| start := end_ r1 |> in
            over ← match max_record_bytes r2 with
                   | Some limit => n ← usub (discarded r2 + start r2) (record_start r2); Some (limit <? n)%nat
                   | None => Some false
                   end;
            if (over : bool) then Some (r2, false) else skip_record_tail fuel r2
        end)
      (fun '(r', ok) => Inv nf r' /\ extends r r' /\ ranges r' = ranges r /\ (length (rest r') <= length (rest r))%nat /\
       if (ok : bool) then
         records d (rest r) false Skipping [] [] = records d (rest r') (pending_cr r') (InRecord StartOfField) [] []
       else rest r' = [] /\ content (source r') = [] /\ records d (rest r) false Skipping [] [] = [])).
  { intros r1 Hi1 Hp1 He1 Hr1 Hrest Hlt. rewrite (haystack_eq r1 nf Hi1). cbn [mbind option_bind].
    rewrite memchr2_spec. set (hay := drop (start r1) (buf r1)).
    assert (Hsplit : rest r = hay ++ content (source r1)) by (by rewrite <- Hrest).
    destruct (position _ hay) as [off|] eqn:Hpos.
    - apply position_first in Hpos as (b & Hhay & Hb & Hrun & Hoff).
      set (r2 := r1 <| start := (start r1 + off)%nat |>).
      assert (Hi2 : Inv nf r2).
      { unfold hay in Hoff. rewrite length_drop, <- (inv_end _ _ Hi1) in Hoff. destruct Hi1; split; unfold r2; rd; done || lia. }
      assert (Hrest2 : rest r2 = b :: drop (S off) hay ++ content (source r1)).
      { unfold r2, rest. rd. rewrite <- drop_drop. fold hay. rewrite Hhay at 1.
        rewrite drop_app_length' by (rewrite length_take; lia). done. }
      assert (Hlt2 : (start r2 < end_ r2)%nat).
      { unfold r2. rd. unfold hay in Hoff. rewrite length_drop, <- (inv_end _ _ Hi1) in Hoff. lia. }
      apply wp_bind. eapply wp_mono; [apply (consume_newline_wp nf r2 b _ Hi2 Hlt2 Hrest2); [|exact Hp1]|].
      { unfold is_newline. by rewrite orb_comm. }
      intros r3 (Hi3 & Hr3 & Hb3 & Hs3 & _ & Hlen & Hrec). cbn [wp].
      split; [done|]. split; [|split; [|split]].
      + destruct He1 as (c & e & H1 & H2). exists c, e. by rewrite Hb3, Hs3.
      + by rewrite Hr3.
      + rewrite Hsplit, Hhay, <- app_assoc, length_app, <- (app_comm_cons _ _ b), <- Hrest2. lia.
      + rewrite Hsplit, Hhay, <- app_assoc, records_skip_run by done. rewrite <- Hrec. cbn [app records andb].
        unfold is_newline. rewrite orb_comm, Hb. done.
    - apply position_absent in Hpos. rd. rewrite (inv_record _ _ Hi1). cbn [mbind option_bind].
      set (r2 := r1 <| start := end_ r1 |>).
      assert (Hi2 : Inv nf r2) by (destruct Hi1; split; unfold r2; rd; done || lia).
      assert (Hrest2 : rest r2 = content (source r1)) by (apply (rest_nil r2 nf Hi2); unfold r2; rd; lia).
      assert (Hlen : (length hay > 0)%nat) by (unfold hay; rewrite length_drop, <- (inv_end _ _ Hi1); lia).
      eapply wp_mono; [apply IH; [done|exact Hp1|rewrite Hrest2, Hsplit, length_app in *; lia]|].
      intros [r3 ok] (Hi3 & He3 & Hr3 & Hlen3 & Hres).
      split; [done|]. split; [|split; [|split]].
      + destruct He1 as (c & e & H1 & H2), He3 as (c' & e' & H3 & H4). exists (c ++ c'), (e ++ e').
        unfold r2 in H3, H4. rd. by rewrite H3, H4, H1, H2, !app_assoc.
      + by rewrite Hr3.
      + rewrite Hrest2 in Hlen3. rewrite Hsplit, length_app. lia.
      + rewrite Hsplit, records_skip_run, <- Hrest2 by done. exact Hres. }
  destruct (Nat.leb_spec (end_ r) (start r)) as [Hle|Hlt].
  - destruct (fill_buf_spec nf r Hi) as [(c & s' & Hc & -> & Hcs)|(s' & -> & H1 & H2)].
    + fold (filled r c s'). cbn [negb]. change (pending_cr (filled r c s')) with (pending_cr r). rewrite Hp.
      apply Hgo; [by apply filled_inv|done|apply filled_extends|done|by eapply filled_rest|by eapply filled_lt].
    + cbn [negb wp]. rewrite (rest_nil r nf Hi Hle), H1. split_and!; try done.
      * destruct Hi; split; rd; done.
      * by apply extends_refl.
      * unfold rest. rd. rewrite H2, drop_ge; [simpl; lia|]. rewrite <- (inv_end _ _ Hi). done.
      * unfold rest. rd. rewrite H2, drop_ge; [done|]. rewrite <- (inv_end _ _ Hi). done.
  - cbn [negb]. rewrite Hp. apply Hgo; try done. by apply extends_refl.
Qed.

(** ** One turn of the loop *)

Definition good_turn (nf : option nat) (L : list row) (n m : nat) (t : Turn (R := R)) : Prop :=
  match t with
  | Continue r' => Inv nf r' /\ (meas r' < m)%nat /\ (length (rest r') <= n)%nat /\
      exists q fs cur, Rel r' q fs cur /\ L = records d (rest r') (pending_cr r') (InRecord q) fs cur
  | Return r' (Some w) => exists x L', L = x :: L' /\ viewed (inner w) (x.1, count_error flex nf x) /\
      Inv (next_count flex nf x) r' /\ (length (rest r') <= n)%nat /\
      L' = records d (rest r') (pending_cr r') (InRecord StartOfField) [] []
  | Return _ None => L = []
  end.

Lemma built_wp nf r e L n m : Inv nf r -> (length (rest r) <= n)%nat ->
  L = (fields r, kind <$> e) :: records d (rest r) (pending_cr r) (InRecord StartOfField) [] [] ->
  wp (build_row r e) (fun '(r', w) => good_turn nf L n m (Return r' (Some w))).
Proof.
  intros Hi Hn ->. eapply wp_mono; [by apply build_row_wp|].
  intros [r' w] (Hv & Hi' & Hr & Hp). simpl. eexists _, _. split; [done|].
  by rewrite Hr, Hp.
Qed.

Lemma return_wp nf r e L n m : Inv nf r -> (length (rest r) <= n)%nat ->
  L = (fields r, kind <$> e) :: records d (rest r) (pending_cr r) (InRecord StartOfField) [] [] ->
  wp (return_row (build_row r e)) (good_turn nf L n m).
Proof.
  intros Hi Hn HL. unfold return_row. apply wp_bind. eapply wp_mono; [by apply (built_wp nf r e L n m)|]. by intros [r' w].
Qed.

Lemma push_inv nf r s e k : Inv nf r -> bounded r (mkRaw s e k) -> Inv nf (push_range r s e k).
Proof.
  intros Hi Hb. unfold push_range. destruct Hi; split; rd; try done. apply Forall_app. split; [done|]. by constructor.
Qed.

Lemma ranges_nil r : (length (ranges r) =? 0)%nat = match fields r with [] => true | _ => false end.
Proof. unfold fields. by destruct (ranges r). Qed.

Lemma start_inv nf r i : Inv nf r -> (i <= end_ r)%nat -> Inv nf (r <| start := i |>).
Proof. intros Hi Hle. destruct Hi; split; rd; done. Qed.

Lemma state_inv nf r q : Inv nf r -> Inv nf (r <| state := q |>).
Proof. intros Hi. destruct Hi; split; rd; done. Qed.

Lemma start_of_field_wp nf r fs b t n m : Inv nf r -> Rel r StartOfField fs [] -> pending_cr r = false ->
  (start r < end_ r)%nat -> rest r = b :: t -> (S (length t) <= n)%nat -> (2 * S (length t) <= m)%nat ->
  wp (start_of_field r b) (good_turn nf (records d (rest r) false (InRecord StartOfField) fs []) n m).
Proof.
  intros Hi (Hq & _ & Hfs & _) Hp Hlt Hr Hn Hm. unfold start_of_field.
  destruct (rest_cons r nf Hi Hlt) as (b' & Hb & Hr'). rewrite Hr in Hr'. injection Hr' as <- Ht.
  rewrite Hr. cbn [records andb]. assert (Hnl : (b =? 13) || (b =? 10) = is_newline b) by apply orb_comm. rewrite Hnl.
  assert (Hempty : fval r (mkRaw (start r) (start r) Buf) = []) by (unfold fval; simpl; by rewrite Nat.sub_diag).
  assert (Hpush : Inv nf (push_range r (start r) (start r) Buf)).
  { apply push_inv; [done|]. pose proof (inv_start _ _ Hi). pose proof (inv_end _ _ Hi). split; simpl; [done|unfold bytes_of; simpl; lia]. }
  destruct (is_newline b) eqn:Hnb.
  - rewrite ranges_nil, Hfs. set (r1 := if negb _ then _ else _).
    assert (H1 : Inv nf r1 /\ rest r1 = rest r /\ start r1 = start r /\ end_ r1 = end_ r /\ pending_cr r1 = false /\
      state r1 = StartOfField /\ fields r1 = match fs with [] => [] | _ => fs ++ [[]] end).
    { unfold r1. destruct fs as [|f fs]; cbn [negb]; [by split_and!|]. rewrite fields_push, Hfs, Hempty. by split_and!. }
    destruct H1 as (Hi1 & Hr1 & Hs1 & He1 & Hp1 & Hq1 & Hf1).
    apply wp_bind. eapply wp_mono; [apply (consume_newline_wp nf r1 b t Hi1); [lia|by rewrite Hr1|done|done]|].
    intros r2 (Hi2 & Hrg2 & Hb2 & Hsc2 & Hst2 & Hlen2 & Hrec2).
    assert (Hf2 : fields r2 = fields r1) by (apply fields_ext; [by apply extends_refl|done|apply (inv_ranges _ _ Hi1)]).
    rewrite ranges_nil, Hf2, Hf1. rewrite Hr1, Hr in Hlen2. simpl in Hlen2. destruct fs as [|f fs].
    + simpl. split; [done|]. split; [unfold meas; case_match; lia|]. split; [lia|]. exists StartOfField, [], [].
      split; [|exact Hrec2]. split; [rd; intros; congruence|]. split; [done|]. by rewrite Hf2, Hf1.
    + cbn [app]. apply return_wp; [done|lia|]. by rewrite Hf2, Hf1, Hrec2.
  - change (delimiter (r <| field_start := start r |>)) with (delimiter r). rewrite (inv_delimiter _ _ Hi).
    assert (Hrest' : forall r', buf r' = buf r -> source r' = source r -> start r' = S (start r) -> rest r' = t).
    { intros r' H1 H2 H3. unfold rest. by rewrite H1, H2, H3, Ht. }
    assert (Hle : (S (start r) <= end_ r)%nat) by lia.
    destruct (Z.eqb_spec b d) as [->|Hbd]; [|destruct (Z.eqb_spec b 34) as [->|Hb34]]; cbn [wp good_turn];
      (split; [|split; [unfold meas; rewrite Hrest' by done; unfold push_range; rd; rewrite Hp; lia|split; [rewrite Hrest' by done; lia|]]]).
    + destruct Hpush; split; rd; done.
    + exists StartOfField, (fs ++ [[]]), []. rewrite Hrest' by done. unfold push_range. rd. rewrite Hp. split; [|done].
      split; [done|]. split; [rd; intros; congruence|]. split; [|done]. unfold fields. rd. rewrite map_app. simpl.
      f_equal; [exact Hfs|]. f_equal. exact Hempty.
    + destruct Hi; split; rd; done.
    + exists InQuoted, fs, []. rewrite Hrest' by done. rd. rewrite Hp. split; [|done].
      split; [done|]. split; [rd; intros; congruence|]. split; [exact Hfs|]. split; [done|]. symmetry. apply drop_ge. rd. lia.
    + destruct Hi; split; rd; done.
    + exists InUnquoted, fs, [b]. rewrite Hrest' by done. rd. rewrite Hp. split; [|done].
      split; [done|]. split; [rd; intros; congruence|]. split; [exact Hfs|]. rd. split; [lia|]. rewrite (drop_S _ _ _ Hb).
      by replace (S (start r) - start r)%nat with 1%nat by lia.
Qed.

(** A field of the buffer that goes on. *)
Lemma cur_extend (l : list Z) s e n : (s <= e)%nat ->
  take (e + n - s) (drop s l) = take (e - s) (drop s l) ++ take n (drop e l).
Proof.
  intros Hle. replace (e + n - s)%nat with ((e - s) + n)%nat by lia. rewrite <- take_take_drop, drop_drop.
  by replace (s + (e - s))%nat with e by lia.
Qed.

Lemma in_unquoted_wp fuel nf r fs cur n m : Inv nf r -> Rel r InUnquoted fs cur -> pending_cr r = false ->
  (start r < end_ r)%nat -> (length (rest r) <= n)%nat -> (2 * length (rest r) <= m)%nat ->
  wp (in_unquoted fuel r) (good_turn nf (records d (rest r) false (InRecord InUnquoted) fs cur) n m).
Proof.
  intros Hi (Hq & _ & Hfs & Hle & Hcur) Hp Hlt Hn Hm. unfold in_unquoted.
  rewrite (haystack_eq r nf Hi). cbn [mbind option_bind]. rewrite memchr3_spec, (inv_delimiter _ _ Hi).
  set (hay := drop (start r) (buf r)). assert (Hsplit : rest r = hay ++ content (source r)) by done.
  assert (Hhl : length hay = (end_ r - start r)%nat) by (unfold hay; rewrite length_drop, (inv_end _ _ Hi); lia).
  destruct (position _ hay) as [off|] eqn:Hpos.
  - apply position_first in Hpos as (b & Hhay & Hb & Hrun & Hoff).
    unfold usub. destruct (Nat.leb_spec (field_start r) (start r + off)); [|lia]. cbn [mbind option_bind].
    unfold field_limit_exceeded. rewrite (inv_field _ _ Hi).
    set (pos := (start r + off)%nat). set (r1 := push_range r (field_start r) pos Buf).
    assert (Hi1 : Inv nf r1).
    { apply push_inv; [done|]. split; simpl; unfold bytes_of, pos; simpl; [lia|]. rewrite <- (inv_end _ _ Hi). lia. }
    assert (Hf1 : fields r1 = fs ++ [cur ++ take off hay]).
    { unfold r1. rewrite fields_push, Hfs. unfold fval, bytes_of, pos. simpl. by rewrite cur_extend, <- Hcur by done. }
    assert (Hbuf : byte_at r1 pos = Some b).
    { unfold byte_at, pos. change (buf r1) with (buf r). rewrite <- lookup_drop. fold hay. rewrite Hhay at 1.
      rewrite lookup_app_r by (rewrite length_take; lia). rewrite length_take.
      by replace (off - off `min` length hay)%nat with 0%nat by lia. }
    rewrite Hbuf. cbn [mbind option_bind]. set (tl := drop (S off) hay ++ content (source r)).
    assert (Hrest : rest r = take off hay ++ b :: tl) by (rewrite Hsplit, Hhay at 1; by rewrite <- app_assoc).
    assert (Hlen : length (rest r) = (off + S (length tl))%nat).
    { rewrite Hrest, length_app, length_take. simpl. lia. }
    assert (Hpos_rest : rest (r1 <| start := pos |>) = b :: tl).
    { unfold rest, pos, r1, push_range. rd. rewrite <- drop_drop. fold hay. rewrite Hhay at 1.
      rewrite drop_app_length' by (rewrite length_take; lia). done. }
    rewrite Hrest, records_unquoted_run by done. change (delimiter r1) with (delimiter r). rewrite (inv_delimiter _ _ Hi).
    destruct (Z.eqb_spec b d) as [->|Hbd].
    + cbn [wp good_turn]. assert (Hrest2 : rest (r1 <| start := S pos |> <| state := StartOfField |>) = tl).
      { unfold rest, pos, r1, push_range. rd. rewrite <- Nat.add_succ_r, <- drop_drop. done. }
      assert (Hi2 : Inv nf (r1 <| start := S pos |> <| state := StartOfField |>)).
      { apply state_inv, start_inv; [done|]. change (end_ r1) with (end_ r). unfold pos. lia. }
      split; [done|]. split; [unfold meas; rewrite Hrest2; rd; change (pending_cr r1) with (pending_cr r); rewrite Hp; lia|].
      split; [rewrite Hrest2; lia|]. exists StartOfField, (fs ++ [cur ++ take off hay]), []. rewrite Hrest2.
      change (pending_cr _) with (pending_cr r). rewrite Hp. split; [split; [done|]; split; [unfold r1, push_range; rd; intros; congruence|]; by split|].
      cbn [records andb]. by rewrite Z.eqb_refl.
    + assert (Hnb : is_newline b = true).
      { unfold is_newline. destruct (Z.eqb_spec b d); [done|]. cbn [orb] in Hb. by rewrite orb_comm. }
      apply wp_bind. eapply wp_mono; [apply (consume_newline_wp nf (r1 <| start := pos |>) b tl); try done|].
      { apply start_inv; [done|]. change (end_ r1) with (end_ r). unfold pos. lia. }
      { rd. change (end_ r1) with (end_ r). unfold pos. lia. }
      intros r2 (Hi2 & Hrg2 & Hb2 & Hsc2 & _ & Hlen2 & Hrec2). rewrite Hpos_rest in Hlen2. simpl in Hlen2.
      assert (Hf2 : fields r2 = fields r1) by (apply fields_ext; [by apply extends_refl|done|apply (inv_ranges _ _ Hi1)]).
      apply return_wp; [done|lia|]. rewrite Hf2, Hf1. cbn [records andb].
      destruct (Z.eqb_spec b d); [done|]. by rewrite Hnb, Hrec2.
  - apply position_absent in Hpos. rd. unfold usub. destruct (Nat.leb_spec (field_start r) (end_ r)); [|lia].
    cbn [mbind option_bind]. unfold field_limit_exceeded. rd. rewrite (inv_field _ _ Hi). cbn [wp good_turn].
    assert (Hi1 : Inv nf (r <| start := end_ r |>)) by by apply start_inv.
    assert (Hrest1 : rest (r <| start := end_ r |>) = content (source r)) by (apply (rest_nil _ nf Hi1); rd; lia).
    rewrite Hsplit, length_app in Hn, Hm. split; [done|].
    split; [unfold meas; rewrite Hrest1; rd; rewrite Hp; lia|]. split; [rewrite Hrest1; lia|].
    exists InUnquoted, fs, (cur ++ hay). rewrite Hrest1. rd. rewrite Hp. split.
    + split; [done|]. split; [rd; intros; congruence|]. split; [exact Hfs|]. rd. split; [lia|].
      replace (end_ r) with (start r + length hay)%nat by lia. rewrite cur_extend, <- Hcur by done.
      fold hay. by rewrite take_ge by lia.
    + rewrite Hsplit. by apply records_unquoted_run.
Qed.

(** ** Quoted fields *)

Lemma scratch_inv nf r e : Inv nf r -> Inv nf (r <| scratch := scratch r ++ e |>) /\
  fields (r <| scratch := scratch r ++ e |>) = fields r.
Proof.
  intros Hi. assert (He : extends r (r <| scratch := scratch r ++ e |>)) by (exists [], e; rd; by rewrite app_nil_r).
  split; [|apply fields_ext; [done|done|apply (inv_ranges _ _ Hi)]].
  destruct Hi; split; rd; try done. by eapply fields_extends.
Qed.

(** What is known when a quote has been seen at [after - 1]. *)
Record Seen (nf : option nat) (r : Reader (R := R)) (after : nat) (fs : list (list Z)) (cur : list Z) : Prop := {
  seen_inv : Inv nf r;
  seen_fields : fields r = fs;
  seen_scratch : (scratch_field_start r <= length (scratch r))%nat;
  seen_cur : drop (scratch_field_start r) (scratch r) = cur;
  seen_state : state r = InQuoted;
  seen_cr : pending_cr r = false;
  seen_after : (after <= end_ r)%nat;
}.

Definition tail_at (r : Reader (R := R)) (after : nat) : list Z := drop after (buf r) ++ content (source r).

Lemma quote_again nf r after fs cur n m : Seen nf r after fs cur -> buf r !! after = Some 34 ->
  (length (tail_at r after) <= n)%nat -> (2 * length (tail_at r after) <= m)%nat ->
  good_turn nf (records d (tail_at r after) false (InRecord AfterQuote) fs cur) n m
    (Continue (r <| scratch := scratch r ++ [34] |> <| start := S after |>)).
Proof.
  intros [Hi Hf Hs Hc Hq Hp Ha] Hb Hn Hm. unfold tail_at in *. rewrite (drop_S _ _ _ Hb) in *. simpl in Hn, Hm.
  destruct (scratch_inv nf r [34] Hi) as [Hi1 Hf1]. apply lookup_lt_Some in Hb as Hlt.
  set (r1 := r <| scratch := scratch r ++ [34] |>) in *.
  assert (Hi2 : Inv nf (r1 <| start := S after |>)).
  { apply start_inv; [done|]. change (end_ r1) with (end_ r). rewrite (inv_end _ _ Hi). lia. }
  assert (Hrest : rest (r1 <| start := S after |>) = drop (S after) (buf r) ++ content (source r)) by done.
  split; [done|]. split; [unfold meas; rewrite Hrest; rd; change (pending_cr r1) with (pending_cr r); rewrite Hp; lia|].
  split; [rewrite Hrest; lia|]. exists InQuoted, fs, (cur ++ [34]). rewrite Hrest. split.
  - split; [done|]. change (pending_cr _) with (pending_cr r). split; [congruence|].
    split; [by rewrite <- Hf, <- Hf1|]. unfold r1. rd. rewrite length_app. split; [lia|].
    by rewrite drop_app_le, Hc by done.
  - change (pending_cr _) with (pending_cr r). rewrite Hp. done.
Qed.

Lemma quote_close nf r after fs cur n m : Seen nf r after fs cur -> head (tail_at r after) <> Some 34 ->
  (length (tail_at r after) <= n)%nat -> (2 * length (tail_at r after) < m)%nat ->
  good_turn nf (records d (tail_at r after) false (InRecord AfterQuote) fs cur) n m (Continue (close_quoted r after)).
Proof.
  intros [Hi Hf Hs Hc Hq Hp Ha] Hh Hn Hm. unfold close_quoted.
  set (r1 := push_range r _ _ _). assert (Hi1 : Inv nf r1).
  { apply push_inv; [done|]. split; simpl; [done|]. unfold bytes_of. simpl. done. }
  assert (Hf1 : fields r1 = fs ++ [cur]).
  { unfold r1. rewrite fields_push, Hf. do 2 f_equal. unfold fval, bytes_of. simpl. rewrite take_ge; [done|].
    rewrite length_drop. lia. }
  assert (Hi2 : Inv nf (r1 <| start := after |> <| state := AfterQuote |>)) by by apply state_inv, start_inv.
  assert (Hrest : rest (r1 <| start := after |> <| state := AfterQuote |>) = tail_at r after) by done.
  split; [done|]. split; [unfold meas; rewrite Hrest; change (pending_cr _) with (pending_cr r); rewrite Hp; lia|].
  split; [by rewrite Hrest|]. exists AfterQuote, fs, cur. rewrite Hrest. change (pending_cr _) with (pending_cr r).
  rewrite Hp. split; [|done]. split; [done|]. change (pending_cr _) with (pending_cr r). split; [congruence|].
  split; [exact Hf1|]. by rewrite Hrest.
Qed.

Lemma in_quoted_wp fuel nf r fs cur n m : Inv nf r -> Rel r InQuoted fs cur -> pending_cr r = false ->
  (start r < end_ r)%nat -> (length (rest r) <= n)%nat -> (2 * length (rest r) <= m)%nat ->
  wp (in_quoted fuel r) (good_turn nf (records d (rest r) false (InRecord InQuoted) fs cur) n m).
Proof.
  intros Hi (Hq & _ & Hfs & Hle & Hcur) Hp Hlt Hn Hm. unfold in_quoted.
  rewrite (haystack_eq r nf Hi). cbn [mbind option_bind]. rewrite memchr_spec.
  set (hay := drop (start r) (buf r)). assert (Hsplit : rest r = hay ++ content (source r)) by done.
  assert (Hhl : length hay = (end_ r - start r)%nat) by (unfold hay; rewrite length_drop, (inv_end _ _ Hi); lia).
  destruct (position _ hay) as [off|] eqn:Hpos.
  - apply position_first in Hpos as (b & Hhay & Hb & Hrun & Hoff). bool_hyps. subst b.
    apply wp_bind, wp_slice; [lia|rewrite <- (inv_end _ _ Hi); lia|].
    replace (start r + off - start r)%nat with off by lia. fold hay.
    unfold usub. destruct (Nat.leb_spec (scratch_field_start r) (length (scratch r))); [|lia]. cbn [mbind option_bind].
    unfold field_limit_exceeded. rewrite (inv_field _ _ Hi).
    destruct (count_line_breaks (take off hay) (pending_lf_quoted r)) as [br pd]. cbv zeta.
    set (after := S (start r + off)).
    set (r1 := r <| line := (line r + br)%nat |> <| pending_lf_quoted := false |> <| scratch := scratch r ++ take off hay |>).
    change (end_ r1) with (end_ r).
    assert (Hseen : Seen nf r1 after fs (cur ++ take off hay)).
    { destruct (scratch_inv nf r (take off hay) Hi) as [Hi1 Hf1]. split; try done; unfold r1; rd.
      - destruct Hi1; split; rd; done.
      - rewrite <- Hfs, <- Hf1. done.
      - rewrite length_app. lia.
      - rewrite drop_app_le, Hcur by done. done.
      - unfold after. lia. }
    assert (Ht1 : tail_at r1 after = drop (S off) hay ++ content (source r)).
    { unfold tail_at, after, hay, r1. rd. rewrite drop_drop, Nat.add_succ_r. done. }
    assert (Hrest : rest r = take off hay ++ 34 :: tail_at r1 after).
    { rewrite Hsplit, Ht1. transitivity ((take off hay ++ 34 :: drop (S off) hay) ++ content (source r));
        [by rewrite <- Hhay|by rewrite <- app_assoc]. }
    assert (Hlen : length (rest r) = (off + S (length (tail_at r1 after)))%nat).
    { rewrite Hrest, length_app, length_take. simpl. lia. }
    rewrite Hrest, records_quoted_run by done. cbn [records andb Z.eqb Pos.eqb].
    destruct (Nat.ltb_spec after (end_ r)) as [Hin|Hend].
    + change (end_ r) with (end_ r1) in Hin. rewrite (inv_end _ _ (seen_inv _ _ _ _ _ Hseen)) in Hin.
      destruct (lookup_lt_is_Some_2 _ _ Hin) as [x Hx]. unfold byte_at. rewrite Hx. cbn [mbind option_bind].
      destruct (Z.eqb_spec x 34) as [->|Hx34]; cbn [wp].
      * apply (quote_again nf r1 after); (done || lia).
      * apply quote_close; try done; try lia. unfold tail_at. rewrite (drop_S _ _ _ Hx). simpl. congruence.
    + cbn [mbind option_bind]. change (end_ r) with (end_ r1) in Hend.
      pose proof (seen_inv _ _ _ _ _ Hseen) as Hi1. pose proof (seen_after _ _ _ _ _ Hseen) as Ha1.
      assert (Ht : tail_at r1 after = content (source r1)).
      { unfold tail_at. rewrite drop_ge; [done|]. rewrite <- (inv_end _ _ Hi1). done. }
      destruct (fill_buf_spec nf r1 Hi1) as [(c & s' & Hc & -> & Hcs)|(s' & -> & Hc1 & Hc2)].
      * fold (filled r1 c s'). assert (Ht2 : tail_at (filled r1 c s') after = tail_at r1 after).
        { unfold tail_at, filled. rd. rewrite drop_app_le, Hcs, app_assoc; [done|]. by rewrite <- (inv_end _ _ Hi1). }
        assert (Hseen2 : Seen nf (filled r1 c s') after fs (cur ++ take off hay)).
        { destruct Hseen. split; try done.
          - by apply filled_inv.
          - rewrite <- seen_fields0. apply fields_ext; [apply filled_extends|done|apply (inv_ranges _ _ Hi1)].
          - unfold filled. rd. rewrite length_app. rewrite (inv_end _ _ Hi1) in Ha1. lia. }
        rewrite <- Ht2. rewrite <- Ht2 in Hlen. case_bool_decide as H34; cbn [wp].
        { apply quote_again; (done || lia). }
        { apply quote_close; try done; try lia. rewrite Ht2, Ht, Hcs. destruct c as [|x c]; [done|]. simpl.
          intros [= ->]. apply H34. unfold byte_at, filled. rd. rewrite lookup_app_r by (rewrite <- (inv_end _ _ Hi1); lia).
          rewrite <- (inv_end _ _ Hi1). by replace (after - end_ r1)%nat with 0%nat by lia. }
      * cbn [wp]. assert (Ht2 : tail_at (r1 <| source := s' |> <| eof := true |>) after = tail_at r1 after).
        { rewrite Ht, Hc1. unfold tail_at. rd. rewrite Hc2, drop_ge; [done|]. by rewrite <- (inv_end _ _ Hi1). }
        rewrite <- Ht2. rewrite <- Ht2 in Hlen. apply quote_close; try lia.
        { destruct Hseen. split; try done. destruct seen_inv0; split; rd; done. }
        { rewrite Ht2, Ht, Hc1. done. }
  - apply position_absent in Hpos. destruct (count_line_breaks hay (pending_lf_quoted r)) as [br pd]. cbv zeta.
    set (r1 := r <| line := (line r + br)%nat |> <| pending_lf_quoted := pd |> <| scratch := scratch r ++ hay |>
                 <| start := end_ r |>).
    destruct (scratch_inv nf r hay Hi) as [Hi0 Hf0].
    assert (Hi1 : Inv nf r1) by (destruct Hi0; split; unfold r1; rd; done).
    unfold usub. change (scratch_field_start r1) with (scratch_field_start r). change (scratch r1) with (scratch r ++ hay).
    rewrite length_app. destruct (Nat.leb_spec (scratch_field_start r) (length (scratch r) + length hay)); [|lia].
    cbn [mbind option_bind]. unfold field_limit_exceeded. rewrite (inv_field _ _ Hi1). cbn [wp good_turn].
    assert (Hrest1 : rest r1 = content (source r)) by (apply (rest_nil _ nf Hi1); unfold r1; rd; lia).
    rewrite Hsplit, length_app in Hn, Hm. split; [done|].
    split; [unfold meas; rewrite Hrest1; change (pending_cr r1) with (pending_cr r); rewrite Hp; lia|].
    split; [rewrite Hrest1; lia|]. exists InQuoted, fs, (cur ++ hay). rewrite Hrest1.
    change (pending_cr r1) with (pending_cr r). rewrite Hp. split.
    + split; [done|]. change (pending_cr r1) with (pending_cr r). split; [congruence|].
      split; [by rewrite <- Hfs, <- Hf0|]. unfold r1. rd. rewrite length_app. split; [lia|].
      by rewrite drop_app_le, Hcur by done.
    + rewrite Hsplit. by apply records_quoted_run.
Qed.

(** ** After a quoted field *)

Lemma after_quote_wp fuel nf r fs cur b t n m : Inv nf r -> Rel r AfterQuote fs cur -> pending_cr r = false ->
  (start r < end_ r)%nat -> rest r = b :: t -> (S (length t) <= n)%nat -> (2 * S (length t) <= m)%nat ->
  (S (length t) < fuel)%nat ->
  wp (after_quote_state fuel r b) (good_turn nf (records d (rest r) false (InRecord AfterQuote) fs cur) n m).
Proof.
  intros Hi (Hq & _ & Hfs & Hh) Hp Hlt Hr Hn Hm Hf. unfold after_quote_state.
  rewrite Hr in Hh. simpl in Hh. destruct (rest_cons r nf Hi Hlt) as (b' & Hb & Hr'). rewrite Hr in Hr'. injection Hr' as <- Ht.
  rewrite (inv_delimiter _ _ Hi). rewrite Hr. cbn [records andb].
  destruct (Z.eqb_spec b 34) as [->|_]; [done|]. destruct (Z.eqb_spec b d) as [->|Hbd].
  - assert (Hrest : rest (r <| start := S (start r) |> <| state := StartOfField |>) = t) by done.
    cbn [wp good_turn]. split; [apply state_inv, start_inv; [done|lia]|].
    split; [unfold meas; rewrite Hrest; rd; rewrite Hp; lia|]. split; [rewrite Hrest; lia|].
    exists StartOfField, (fs ++ [cur]), []. rewrite Hrest. rd. rewrite Hp. split; [|done].
    split; [done|]. split; [rd; intros; congruence|]. split; [exact Hfs|done].
  - destruct (is_newline b) eqn:Hnb.
    + apply wp_bind. eapply wp_mono; [by apply (consume_newline_wp nf r b t)|].
      intros r2 (Hi2 & Hrg2 & Hb2 & Hsc2 & _ & Hlen2 & Hrec2). rewrite Hr in Hlen2. simpl in Hlen2.
      assert (Hf2 : fields r2 = fields r) by (apply fields_ext; [by apply extends_refl|done|apply (inv_ranges _ _ Hi)]).
      apply return_wp; [done|lia|]. by rewrite Hf2, Hfs, Hrec2.
    + unfold abandon_record, finalize_current_field. rewrite Hq. unfold return_row.
      apply wp_bind, wp_bind, wp_bind. eapply wp_mono; [apply (skip_wp fuel nf r Hi Hp); rewrite Hr; simpl; lia|].
      intros [r2 ok] (Hi2 & He2 & Hrg2 & Hlen2 & Hrec2). cbn [wp].
      assert (Hf2 : fields r2 = fs ++ [cur]).
      { rewrite <- Hfs. apply fields_ext; [done|done|apply (inv_ranges _ _ Hi)]. }
      set (r3 := if negb ok then _ else _).
      assert (H3 : Inv nf r3 /\ rest r3 = rest r2 /\ fields r3 = fields r2 /\
        records d t false Skipping [] [] = records d (rest r3) (pending_cr r3) (InRecord StartOfField) [] []).
      { assert (Hskip : records d (rest r) false Skipping [] [] = records d t false Skipping [] []) by (rewrite Hr; simpl; by rewrite Hnb).
        rewrite Hskip in Hrec2. unfold r3. destruct ok; cbn [negb]; [done|]. destruct Hrec2 as (H1 & H2 & H3).
        split_and!; [|done|done|]. { destruct Hi2; split; rd; done. }
        change (rest (r2 <| eof := true |>)) with (rest r2). by rewrite H1, H3. }
      destruct H3 as (Hi3 & Hr3 & Hf3 & Hrec3). rewrite Hr in Hlen2. simpl in Hlen2.
      eapply wp_mono; [apply (built_wp nf r3 _ ((fs ++ [cur], Some TrailingContent) :: records d t false Skipping [] []) n m Hi3)|];
        [rewrite Hr3; lia|by rewrite Hf3, Hf2, Hrec3|by intros [r' w]].
Qed.

(** ** A row *)

Lemma turn_wp fuel nf r q fs cur n m : Inv nf r -> Rel r q fs cur -> (start r < end_ r)%nat ->
  (length (rest r) <= n)%nat -> (meas r <= m)%nat -> (length (rest r) < fuel)%nat ->
  wp (turn fuel r) (good_turn nf (records d (rest r) (pending_cr r) (InRecord q) fs cur) n m).
Proof.
  intros Hi Hrel Hlt Hn Hm Hf. destruct (rest_cons r nf Hi Hlt) as (b & Hb & Hr).
  set (t := drop (S (start r)) (buf r) ++ content (source r)) in *.
  unfold turn, limit_exceeded, byte_at. rewrite (inv_record _ _ Hi), (inv_columns _ _ Hi), Hb. cbn [mbind option_bind].
  pose proof Hrel as Hrel0. destruct Hrel as (Hq & Hcr & Hrel). destruct (pending_cr r) eqn:Hp.
  - destruct (Hcr eq_refl) as [-> ->]. destruct Hrel as [Hfs ->].
    assert (Hdone : forall r1, Inv nf r1 -> pending_cr r1 = false -> state r1 = StartOfField -> fields r1 = [] ->
      (length (rest r1) <= length (rest r))%nat ->
      records d (rest r) true (InRecord StartOfField) [] [] = records d (rest r1) false (InRecord StartOfField) [] [] ->
      good_turn nf (records d (rest r) true (InRecord StartOfField) [] []) n m (Continue r1)).
    { intros r1 Hi1 Hp1 Hq1 Hf1 Hl1 Hrec. split; [done|]. unfold meas in *. rewrite Hp in Hm. rewrite Hp1.
      split; [lia|]. split; [lia|]. exists StartOfField, [], []. split; [|exact Hrec].
      split; [done|]. split; [congruence|]. by split. }
    destruct (Z.eqb_spec b 10) as [->|Hb10]; cbn [wp]; apply Hdone; try done.
    + destruct Hi; split; rd; done || lia.
    + rewrite Hr. unfold rest. rd. fold t. simpl. lia.
    + rewrite Hr. done.
    + destruct Hi; split; rd; done.
    + apply records_after_cr. unfold rest. rd. rewrite (drop_S _ _ _ Hb). simpl. congruence.
  - assert (Hlen : length (rest r) = S (length t)) by (by rewrite Hr). unfold meas in Hm. rewrite Hp in Hm. rewrite Hq.
    destruct q.
    + destruct Hrel as [Hfs ->]. apply (start_of_field_wp nf r fs b t); try done; lia.
    + apply in_unquoted_wp; try done; lia.
    + apply in_quoted_wp; try done; lia.
    + apply (after_quote_wp fuel nf r fs cur b t); try done; lia.
Qed.

Lemma at_eof_wp nf r q fs cur n m : Inv nf r -> Rel r q fs cur -> rest r = [] ->
  wp (at_eof r) (good_turn nf (records d [] (pending_cr r) (InRecord q) fs cur) n m).
Proof.
  intros Hi (Hq & _ & Hrel) Hr. unfold at_eof, finalize_current_field. rewrite ranges_nil, Hq.
  pose proof (inv_start _ _ Hi) as Hs. pose proof (inv_end _ _ Hi) as He.
  assert (Hpush : forall s e k, bounded r (mkRaw s e k) -> fs ++ [fval r (mkRaw s e k)] = fields (push_range r s e k) ->
    wp (return_row (build_row (push_range r s e k) None)) (good_turn nf [(fs ++ [fval r (mkRaw s e k)], None)] n m)).
  { intros s e k Hb Hf. apply return_wp; [by apply push_inv| |].
    - change (rest (push_range r s e k)) with (rest r). rewrite Hr. simpl. lia.
    - change (rest (push_range r s e k)) with (rest r). rewrite Hr, Hf. done. }
  destruct q; cbn [state_eqb records].
  - destruct Hrel as [Hfs ->]. rewrite Hfs. destruct fs as [|f fs]; [done|]. cbn [andb negb].
    assert (Hv : fval r (mkRaw (start r) (start r) Buf) = []) by (unfold fval; simpl; by rewrite Nat.sub_diag).
    rewrite <- Hv. apply Hpush; [split; simpl; [done|unfold bytes_of; simpl; lia]|]. by rewrite fields_push, Hfs.
  - destruct Hrel as (Hfs & Hle & ->). rewrite andb_false_r.
    apply (Hpush (field_start r) (start r) Buf); [split; simpl; [done|unfold bytes_of; simpl; lia]|]. by rewrite fields_push, Hfs.
  - destruct Hrel as (Hfs & _ & _). rewrite andb_false_r. apply return_wp; [done|rewrite Hr; simpl; lia|]. by rewrite Hr, Hfs.
  - destruct Hrel as [Hfs _]. rewrite andb_false_r. apply return_wp; [done|rewrite Hr; simpl; lia|]. by rewrite Hr, Hfs.
Qed.

Definition good_row (nf : option nat) (L : list row) (n : nat) (p : Reader (R := R) * option Row) : Prop :=
  match p with
  | (r', Some w) => exists x L', L = x :: L' /\ viewed (inner w) (x.1, count_error flex nf x) /\
      Inv (next_count flex nf x) r' /\ (length (rest r') <= n)%nat /\
      L' = records d (rest r') (pending_cr r') (InRecord StartOfField) [] []
  | (_, None) => L = []
  end.

Lemma read_loop_wp fuel nf r q fs cur n : Inv nf r -> Rel r q fs cur -> (meas r < fuel)%nat -> (length (rest r) <= n)%nat ->
  wp (read_loop fuel r) (good_row nf (records d (rest r) (pending_cr r) (InRecord q) fs cur) n).
Proof.
  revert r q fs cur. induction fuel as [|fuel IH]; intros r q fs cur Hi Hrel Hf Hn; [lia|]. cbn [read_loop].
  apply wp_bind, (wp_mono _ (good_turn nf (records d (rest r) (pending_cr r) (InRecord q) fs cur) n (meas r))).
  - destruct (Nat.leb_spec (end_ r) (start r)) as [Hle|Hlt].
    + destruct (fill_buf_spec nf r Hi) as [(c & s' & Hc & -> & Hcs)|(s' & -> & H1 & H2)].
      * fold (filled r c s'). rewrite <- (filled_rest nf r c s' Hi Hcs).
        assert (Hrel' : Rel (filled r c s') q fs cur).
        { pose proof (filled_extends r c s') as Hext. destruct Hrel as (Hq & Hcr & Hrel).
          assert (Hff : fields (filled r c s') = fields r) by (apply fields_ext; [done|done|apply (inv_ranges _ _ Hi)]).
          split; [done|]. split; [done|]. destruct q.
          - by rewrite Hff.
          - rewrite Hff. destruct Hrel as (H1 & H2 & ->). split; [done|]. split; [done|]. unfold filled. rd.
            pose proof (inv_start _ _ Hi). pose proof (inv_end _ _ Hi). rewrite drop_app_le by lia.
            rewrite take_app_le; [done|]. rewrite length_drop. lia.
          - by rewrite Hff.
          - by rewrite Hff, (filled_rest nf). }
        assert (Hm : meas (filled r c s') = meas r) by (unfold meas; by rewrite (filled_rest nf r c s' Hi Hcs)).
        change (pending_cr r) with (pending_cr (filled r c s')).
        apply turn_wp; [by apply filled_inv|done|by eapply filled_lt|rewrite (filled_rest nf) by done; lia|lia|].
        destruct (rest_cons _ nf (filled_inv nf r c s' Hi Hcs Hc) (filled_lt nf r c s' Hi Hc)) as (x & _ & Hx).
        rewrite (filled_rest nf r c s' Hi Hcs) in Hx |- *. unfold meas in Hf. rewrite Hx in *. simpl in *. lia.
      * set (r1 := r <| source := s' |> <| eof := true |>).
        assert (Hr1 : rest r1 = []).
        { unfold rest, r1. rd. rewrite H2, drop_ge; [done|]. rewrite <- (inv_end _ _ Hi). done. }
        rewrite (rest_nil r nf Hi Hle), H1. change (pending_cr r) with (pending_cr r1). apply at_eof_wp; [| |done].
        { destruct Hi; split; unfold r1; rd; done. }
        destruct Hrel as (Hq & Hcr & Hrel). split; [done|]. split; [done|]. destruct q; try done.
        destruct Hrel as [Hfs _]. split; [exact Hfs|]. by rewrite Hr1.
    + destruct (rest_cons _ nf Hi Hlt) as (x & _ & Hx). apply turn_wp; try done; try lia.
      unfold meas in Hf. rewrite Hx in *. simpl in *. lia.
  - intros [r'|r' [w|]] Hg; cbn [wp good_row]; [|exact Hg|exact Hg].
    destruct Hg as (Hi' & Hm' & Hn' & q' & fs' & cur' & Hrel' & ->). apply IH; try done. lia.
Qed.

(** ** Between rows *)

(** The reader before a row: as [Inv], the mark perhaps still to be considered. *)
Definition Ready (nf : option nat) (r : Reader (R := R)) : Prop := Inv nf (r <| bom_checked := true |>).

Definition input (r : Reader (R := R)) : list Z :=
  if negb (bom_checked r) && strip_bom r then without_bom (rest r) else rest r.

(** Nothing of the row before is left. *)
Definition reset (r : Reader (R := R)) : Reader :=
  r <| ranges := [] |> <| scratch := [] |> <| state := StartOfField |> <| pending_lf_quoted := false |>
    <| record_line := line r |>.

Lemma reset_ready nf r : Ready nf r -> Ready nf (reset r).
Proof. unfold Ready, reset. intros Hi. destruct Hi; split; rd; done. Qed.

Lemma compact_spec nf r : Ready nf r -> exists r', compact r = Some r' /\ Ready nf (reset r') /\
  rest r' = rest r /\ pending_cr r' = pending_cr r /\ strip_bom r' = strip_bom r /\ bom_checked r' = bom_checked r.
Proof.
  intros Hi. unfold compact. pose proof (reset_ready nf r Hi) as Hsame.
  destruct (start r =? 0)%nat; [by exists r|]. destruct ((start r <? 4096)%nat && (start r * 2 <? length (buf r))%nat); [by exists r|].
  pose proof (haystack_eq _ nf Hi) as Hh. pose proof (inv_start _ _ Hi) as Hs. pose proof (inv_end _ _ Hi) as He. rd.
  unfold usub. destruct (Nat.leb_spec (start r) (end_ r)); [|lia]. cbn [mbind option_bind].
  replace (if (0 <? end_ r - start r)%nat then slice (buf r) (start r) (end_ r) else Some [])
    with (Some (drop (start r) (buf r))).
  2: { destruct (Nat.ltb_spec 0 (end_ r - start r)); [done|]. rewrite drop_ge; [done|lia]. }
  cbn [mbind option_bind]. eexists. split; [done|]. split; [|by split_and!].
  unfold Ready, reset in *. destruct Hsame; split; rd; try done; rewrite ?length_drop; lia.
Qed.

Lemma bom_eq (r : Reader (R := R)) : bom_checked r = true -> r <| bom_checked := true |> = r.
Proof. intros Hb. destruct r; rd. by subst. Qed.

(** Filling until three bytes are there changes nothing but the buffer. *)
Definition quiet (r r' : Reader (R := R)) : Prop :=
  ranges r' = ranges r /\ state r' = state r /\ pending_cr r' = pending_cr r.

Lemma fill_three_wp fuel nf r : Inv nf r -> (3 - (end_ r - start r) + (if eof r then 0 else 1) < fuel)%nat ->
  wp (fill_three fuel r) (fun '(r', res) => res = Ok tt /\ Inv nf r' /\ rest r' = rest r /\ quiet r r' /\
    ((3 <= end_ r' - start r')%nat \/ content (source r') = [])).
Proof.
  revert r. induction fuel as [|fuel IH]; intros r Hi Hf; [lia|]. cbn [fill_three].
  pose proof (inv_start _ _ Hi) as Hs. unfold usub. destruct (Nat.leb_spec (start r) (end_ r)); [|lia]. cbn [mbind option_bind].
  destruct (Nat.ltb_spec (end_ r - start r) 3) as [Hlt|Hge]; cbn [andb].
  2: { cbn [wp]. split_and!; try done. by left. }
  destruct (eof r) eqn:He; cbn [negb].
  { cbn [wp]. split_and!; try done. right. by apply (inv_eof _ _ Hi). }
  destruct (fill_buf_spec nf r Hi) as [(c & s' & Hc & -> & Hcs)|(s' & -> & Hs1 & Hs2)].
  - fold (filled r c s'). eapply wp_mono; [apply IH; [by apply filled_inv|]|].
    + unfold filled. rd. rewrite He, length_app, <- (inv_end _ _ Hi). destruct c; [done|simpl in *; lia].
    + intros [r' res] (-> & Hi' & Hr' & Hq & Hb). rewrite (filled_rest nf r c s' Hi Hcs) in Hr'. by split_and!.
  - set (r1 := r <| source := s' |> <| eof := true |>).
    assert (Hi1 : Inv nf r1) by (destruct Hi; split; unfold r1; rd; done).
    eapply wp_mono; [apply IH; [done|unfold r1; rd; lia]|].
    intros [r' res] (-> & Hi' & Hr' & Hq & Hb). split_and!; try done.
    rewrite Hr'. unfold rest, r1. rd. by rewrite Hs1, Hs2.
Qed.

Lemma strip_wp fuel nf r : Ready nf r -> (5 <= fuel)%nat ->
  wp (strip_leading_bom fuel r) (fun '(r', res) => res = Ok tt /\ Inv nf r' /\ rest r' = input r /\ quiet r r').
Proof.
  intros Hi Hf. unfold strip_leading_bom, input. unfold Ready in Hi. destruct (bom_checked r) eqn:Hbc; cbn [negb andb].
  { rewrite bom_eq in Hi by done. by cbn [wp]. }
  change (strip_bom (r <| bom_checked := true |>)) with (strip_bom r).
  set (r0 := r <| bom_checked := true |>) in *. destruct (strip_bom r); cbn [negb]; [|by split_and!].
  apply wp_bind. eapply wp_mono; [apply (fill_three_wp fuel nf r0 Hi); unfold r0; rd; destruct (eof r); lia|].
  intros [r1 res] (-> & Hi1 & Hrest & Hq & Hb1). pose proof (inv_start _ _ Hi1) as Hs1. pose proof (inv_end _ _ Hi1) as He1.
  change (rest r0) with (rest r) in Hrest.
  assert (Htake : take 3 (drop (start r1) (buf r1)) = take 3 (rest r)).
  { rewrite <- Hrest. unfold rest. destruct Hb1 as [Hb1|Hb1].
    - rewrite take_app_le; [done|]. rewrite length_drop. lia.
    - by rewrite Hb1, app_nil_r. }
  apply wp_bind, wp_slice; [lia|done|]. rewrite (take_ge (drop _ _)) by (rewrite length_drop; lia). rewrite Htake.
  unfold without_bom. case_bool_decide as Hbom; cbn [wp]; [|by split_and!].
  assert (Hlen : (3 <= end_ r1 - start r1)%nat).
  { rewrite <- Htake in Hbom. apply (f_equal length) in Hbom. rewrite length_take, length_drop in Hbom.
    change (length BOM) with 3%nat in Hbom. lia. }
  split; [done|]. split; [destruct Hi1; split; rd; done || lia|]. split; [|done].
  rewrite <- Hrest. unfold rest. rd. rewrite drop_app_le, drop_drop by (rewrite length_drop; lia). do 2 f_equal; lia.
Qed.

Lemma input_length r : (length (input r) <= length (rest r))%nat.
Proof. unfold input, without_bom. repeat case_match; rewrite ?length_drop; lia. Qed.

(** ** Whole rows *)

Lemma read_row_wp fuel nf r : Ready nf r -> (2 * length (rest r) + 4 < fuel)%nat ->
  wp (read_row fuel r)
    (good_row nf (records d (input r) (pending_cr r) (InRecord StartOfField) [] []) (length (rest r))).
Proof.
  intros Hi Hf. unfold read_row. destruct (compact_spec nf r Hi) as (rc & -> & Hic & Hrc & Hpc & Hsc & Hbc).
  cbn [mbind option_bind]. fold (reset rc).
  assert (Hin : input (reset rc) = input r).
  { unfold input. change (rest (reset rc)) with (rest rc). unfold reset. rd. by rewrite Hbc, Hsc, Hrc. }
  apply wp_bind. eapply wp_mono; [apply (strip_wp fuel nf _ Hic); lia|].
  intros [r1 res] (-> & Hi1 & Hr1 & Hq1 & Hq2 & Hq3). rewrite Hin in Hr1. pose proof (input_length r) as Hlen.
  set (r2 := r1 <| record_start := _ |>).
  assert (Hi2 : Inv nf r2) by (destruct Hi1; split; unfold r2; rd; done).
  change (rest r1) with (rest r2) in Hr1. rewrite <- Hr1.
  replace (pending_cr r) with (pending_cr r2) by (unfold r2, reset in *; rd; congruence).
  apply read_loop_wp; [done| |unfold meas; rewrite Hr1; case_match; lia|by rewrite Hr1].
  split; [done|]. split; [done|]. split; [|done]. unfold fields, r2. rd. by rewrite Hq1.
Qed.

Lemma collect_rows_wp n fuel nf r : Ready nf r -> (2 * length (rest r) + 4 < fuel)%nat ->
  let L := records d (input r) (pending_cr r) (InRecord StartOfField) [] [] in (length L < n)%nat ->
  wp (collect_rows n fuel r) (fun rows => Forall2 viewed rows (with_counts flex nf L)).
Proof.
  revert nf r. induction n as [|n IH]; intros nf r Hi Hf L Hn; [lia|]. cbn [collect_rows].
  apply wp_bind. eapply wp_mono; [by apply (read_row_wp fuel nf r)|]. fold L.
  intros [r' [w|]] Hg; cbn [good_row] in Hg; [|by rewrite Hg; constructor].
  destruct Hg as (x & L' & HL & Hv & Hi' & Hr' & HL'). rewrite HL in *. cbn [with_counts]. cbn [length] in Hn.
  assert (Hin : input r' = rest r') by (unfold input; by rewrite (inv_bom _ _ Hi')).
  apply wp_bind. eapply wp_mono; [apply (IH (next_count flex nf x) r')|].
  - unfold Ready. by rewrite (bom_eq r' (inv_bom _ _ Hi')).
  - lia.
  - rewrite Hin, <- HL'. lia.
  - intros rows Hrows. rewrite Hin, <- HL' in Hrows. constructor; [exact Hv|done].
Qed.

Lemma configured_ready src strip : exists r0, set_delimiter (new src) d = Some r0 /\
  let r := set_strip_bom (set_flexible r0 flex) strip in
  Ready None r /\ rest r = content src /\ input r = (if strip then without_bom (content src) else content src) /\
  pending_cr r = false.
Proof.
  unfold set_delimiter. destruct d_ok as (Hd1 & Hd2 & Hd3).
  destruct (Z.eqb_spec d 34), (Z.eqb_spec d 13), (Z.eqb_spec d 10); try done. cbn.
  eexists. split; [done|]. split; [|by split_and!]. split; rd; try done.
Qed.

Lemma reader_wp strip src n fuel : (2 * length (content src) + 4 < fuel)%nat -> (S (length (content src)) < n)%nat ->
  wp (r ← set_delimiter (new src) d; collect_rows n fuel (set_strip_bom (set_flexible r flex) strip))
    (fun rows => Forall2 viewed rows (csv_spec d flex strip (content src))).
Proof.
  intros Hf Hn. destruct (configured_ready src strip) as (r0 & -> & Hi & Hr & Hin & Hp). cbn [mbind option_bind].
  set (r := set_strip_bom _ strip) in *. unfold csv_spec. rewrite <- Hin, <- Hp.
  apply (collect_rows_wp n fuel None r Hi); [by rewrite Hr|].
  pose proof (records_length (d := d) (input r) (pending_cr r) (InRecord StartOfField) [] []).
  pose proof (input_length r). rewrite Hr in *. lia.
Qed.

End Refinement.

(** The pieces of a list that are not empty. *)
Program Definition of_list (ls : list (list Z)) : Pieces := mkPieces (filter (fun c => c <> []) ls) _.
Next Obligation. intros ls. induction ls; simpl; [constructor|]. rewrite filter_cons. case_decide; auto. Qed.

(** C6: The streaming CSV reader refines the byte-by-byte grammar.  Whatever
    pieces the source delivers its bytes in, the rows [read_row] returns one
    after another (the fields of each, and its error) are those of the
    reference parser followed by the check of the field counts: quoted fields
    and doubled quotes, the three line endings (a carriage return at the end of
    one piece and its line feed at the start of the next are one ending), blank
    lines, a leading byte-order mark, an unterminated quote, text after a
    closing quote.  (The numbers of the lines, which rows and errors carry, are
    modelled but not compared here.)  The loops end: fuel twice the length of the input is
    enough, no slice is out of range and no subtraction goes below zero. *)
Theorem csv_reader_correct (R : Type) `{!Read R, !Stream R, !Memchr, !MemchrLaws} (d : Z) (flex strip : bool)
    (src : R) (n fuel : nat) :
  d <> 34 /\ d <> 13 /\ d <> 10 ->
  (2 * length (content src) + 4 < fuel)%nat -> (S (length (content src)) < n)%nat ->
  wp (r ← set_delimiter (new src) d; collect_rows n fuel (set_strip_bom (set_flexible r flex) strip))
    (fun rows => Forall2 viewed rows (csv_spec d flex strip (content src))).
Proof.
  intros Hd Hf Hn. by apply reader_wp.
Qed.

(** Three pieces, the second record's ending split between two of them. *)
Definition sample : Pieces :=
  of_list [BOM ++ [97; 44; 34; 120; 13]; [10; 34; 34; 34; 13]; [10; 49; 44; 50; 44; 51; 10; 44]].

#[local] Existing Instances plain_memchr plain_laws.

Lemma csv_reader_witness :
  csv_spec 44 false true (content sample) =
    [([[97]; [120; 13; 10; 34]], None); ([[49]; [50]; [51]], Some (InconsistentFieldCount 2 3)); ([[]; []], None)] /\
  wp (r ← set_delimiter (new sample) 44;
      collect_rows 30 60 (set_strip_bom (set_flexible r false) true))
    (fun rows => Forall2 viewed rows (csv_spec 44 false true (content sample))).
Proof.
  split; [vm_compute; reflexivity|].
  apply (csv_reader_correct Pieces 44 false true sample 30 60).
  - done.
  - vm_compute. lia.
  - vm_compute. lia.
Defined.

End CsvSpec.
