(* ===== verification/CsvWriter.v ===== *)
(** * csv: the writer

    src/csv/writer.rs and the [WriteError] of src/csv/error.rs, in the build
    without the [std] and [serde] features.  A [Vec<u8>] is the list of its
    bytes, a [usize] a [nat]; [None] is a panic, a slice out of range.  [Write]
    is the code's trait.  The last part composes the writer with the reader. *)
From Stdlib Require Import ZArith Lia.
From stdpp Require Import base list numbers option.
From S2P Require Import Prelude Words Memchr CsvReader CsvSpec.
Import CsvReader CsvSpec.

Module CsvWriter.

Inductive WriteError :=
| WInconsistentFieldCount (expected found row : nat)
| HeadersAlreadyWritten
| WIo.

(** [trait Write]; the instance for [Vec<u8>]. *)
Class Write (W : Type) := {
  write : W -> list Z -> W * result unit WriteError;
  sink_flush : W -> W * result unit WriteError;
}.
Definition vec_write (self buf : list Z) : list Z * result unit WriteError := (self ++ buf, Ok tt).
Definition vec_flush (self : list Z) : list Z * result unit WriteError := (self, Ok tt).
#[export] Instance Vec_Write : Write (list Z) := {| write := vec_write; sink_flush := vec_flush |}.

(** The loop of [write_csv_field] over the quotes of the field, and the
    function. *)
Fixpoint double_quotes `{!Memchr} (fuel : nat) (buf field : list Z) (pos : nat) : option (list Z) :=
  match fuel with
  | O => None
  | S fuel' =>
      hay ← slice field pos (length field);
      match memchr 34 hay with
      | Some quote_offset =>
          let abs_pos := (pos + quote_offset)%nat in
          seg ← slice field pos abs_pos;
          double_quotes fuel' (buf ++ seg ++ [34; 34]) field (abs_pos + 1)
      | None => Some (buf ++ hay)
      end
  end.

Definition write_csv_field `{!Memchr} (buf : list Z) (delimiter : Z) (field : list Z) : option (list Z) :=
  let needs_quoting := bool_decide (is_Some (memchr3 delimiter 13 10 field)) || bool_decide (is_Some (memchr 34 field)) in
  if negb needs_quoting then Some (buf ++ field) else
  buf ← double_quotes (S (length field)) (buf ++ [34]) field 0;
  Some (buf ++ [34]).

Section Writer.
Context {W : Type} `{!Write W}.

Record Writer := mkWriter {
  writer : option W;
  delimiter : Z;
  flexible : bool;
  num_fields : option nat;
  row_count : nat;
  buf : list Z;
  headers : option (list (list Z));
  headers_written : bool;
  write_bom : bool;
  bom_written : bool;
}.

#[export] Instance upd_w_writer : Setter writer := fun v w => mkWriter v (delimiter w) (flexible w) (num_fields w)
  (row_count w) (buf w) (headers w) (headers_written w) (write_bom w) (bom_written w).
#[export] Instance upd_w_delimiter : Setter delimiter := fun v w => mkWriter (writer w) v (flexible w) (num_fields w)
  (row_count w) (buf w) (headers w) (headers_written w) (write_bom w) (bom_written w).
#[export] Instance upd_w_flexible : Setter flexible := fun v w => mkWriter (writer w) (delimiter w) v (num_fields w)
  (row_count w) (buf w) (headers w) (headers_written w) (write_bom w) (bom_written w).
#[export] Instance upd_w_num_fields : Setter num_fields := fun v w => mkWriter (writer w) (delimiter w) (flexible w) v
  (row_count w) (buf w) (headers w) (headers_written w) (write_bom w) (bom_written w).
#[export] Instance upd_w_row_count : Setter row_count := fun v w => mkWriter (writer w) (delimiter w) (flexible w)
  (num_fields w) v (buf w) (headers w) (headers_written w) (write_bom w) (bom_written w).
#[export] Instance upd_w_buf : Setter buf := fun v w => mkWriter (writer w) (delimiter w) (flexible w)
  (num_fields w) (row_count w) v (headers w) (headers_written w) (write_bom w) (bom_written w).
#[export] Instance upd_w_headers : Setter headers := fun v w => mkWriter (writer w) (delimiter w) (flexible w)
  (num_fields w) (row_count w) (buf w) v (headers_written w) (write_bom w) (bom_written w).
#[export] Instance upd_w_headers_written : Setter headers_written := fun v w => mkWriter (writer w) (delimiter w)
  (flexible w) (num_fields w) (row_count w) (buf w) (headers w) v (write_bom w) (bom_written w).
#[export] Instance upd_w_write_bom : Setter write_bom := fun v w => mkWriter (writer w) (delimiter w)
  (flexible w) (num_fields w) (row_count w) (buf w) (headers w) (headers_written w) v (bom_written w).
#[export] Instance upd_w_bom_written : Setter bom_written := fun v w => mkWriter (writer w) (delimiter w)
  (flexible w) (num_fields w) (row_count w) (buf w) (headers w) (headers_written w) (write_bom w) v.

(** ** Configuration *)

Definition new (writer : W) : Writer := mkWriter (Some writer) 44 false None 0 [] None false false false.

Definition set_delimiter (self : Writer) (byte : Z) : option Writer :=
  _ ← rassert (negb (byte =? 34) && negb (byte =? 13) && negb (byte =? 10));
  Some (self <| delimiter := byte |>).
Definition set_flexible (self : Writer) (yes : bool) : Writer := self <| flexible := yes |>.
Definition set_write_bom (self : Writer) (yes : bool) : Writer := self <| write_bom := yes |>.
Definition set_headers (self : Writer) (hs : list (list Z)) : Writer := self <| headers := Some hs |>.

Definition write_pending_bom (self : Writer) : Writer :=
  if write_bom self && negb (bom_written self)
  then self <| buf := buf self ++ BOM |> <| bom_written := true |> else self.

(** ** Output *)

Definition flush (self : Writer) : Writer * result unit WriteError :=
  match writer self with
  | Some sink =>
      let '(sink, r) := write sink (buf self) in
      let self := self <| writer := Some sink |> in
      match r with
      | Err e => (self, Err e)
      | Ok _ =>
          let '(sink, r) := sink_flush sink in
          let self := self <| writer := Some sink |> in
          match r with Err e => (self, Err e) | Ok _ => (self <| buf := [] |>, Ok tt) end
      end
  | None => (self <| buf := [] |>, Ok tt)
  end.

(** [if self.buf.len() >= 8192 { self.flush()?; } Ok(())] *)
Definition flush_if_full (self : Writer) : Writer * result unit WriteError :=
  if (8 * 1024 <=? length (buf self))%nat then flush self else (self, Ok tt).

Definition into_inner (self : Writer) : option (result W WriteError) :=
  match flush self with
  | (_, Err e) => Some (Err e)
  | (self, Ok _) => w ← writer self; Some (Ok w)
  end.

Context `{!Memchr}.

Definition write_field (self : Writer) (field : list Z) : option Writer :=
  buf' ← write_csv_field (buf self) (delimiter self) field; Some (self <| buf := buf' |>).

(** The loop over the fields, each after the first behind a delimiter. *)
Fixpoint write_fields (self : Writer) (i : nat) (row : list (list Z)) : option Writer :=
  match row with
  | [] => Some self
  | field :: rest =>
      let self := if (0 <? i)%nat then self <| buf := buf self ++ [delimiter self] |> else self in
      self ← write_field self field;
      write_fields self (S i) rest
  end.

Definition write_headers (self : Writer) (strings : list (list Z)) : option (Writer * result unit WriteError) :=
  if headers_written self then Some (self, Err HeadersAlreadyWritten) else
  let count := length strings in
  let expected := match num_fields self with Some n => Some n | None => length <$> headers self end in
  let mismatch :=
    if negb (flexible self) then
      match expected with Some n => if negb (count =? n)%nat then Some n else None | None => None end
    else None in
  match mismatch with
  | Some n => Some (self, Err (WInconsistentFieldCount n count (row_count self + 1)))
  | None =>
      self ← write_fields (write_pending_bom self) 0 strings;
      let self := self <| buf := buf self ++ [13; 10] |> <| row_count := (row_count self + 1)%nat |>
                       <| headers := Some strings |> <| headers_written := true |> <| num_fields := Some count |> in
      Some (flush_if_full self)
  end.

Definition write_row (self : Writer) (row : list (list Z)) : option (Writer * result unit WriteError) :=
  let self := write_pending_bom self in
  let buf_start := length (buf self) in
  let field_count := length row in
  self ← write_fields self 0 row;
  if flexible self then
    let self :=
      match num_fields self with
      | None => if (0 <? field_count)%nat then self <| num_fields := Some field_count |> else self
      | Some _ => self
      end in
    Some (flush_if_full (self <| buf := buf self ++ [13; 10] |> <| row_count := (row_count self + 1)%nat |>))
  else
    let finish self :=
      Some (flush_if_full (self <| buf := buf self ++ [13; 10] |> <| row_count := (row_count self + 1)%nat |>)) in
    match num_fields self with
    | Some expected =>
        if negb (field_count =? expected)%nat then
          Some (self <| buf := take buf_start (buf self) |>,
                Err (WInconsistentFieldCount expected field_count (row_count self + 1)))
        else finish self
    | None => finish (self <| num_fields := Some field_count |>)
    end.

(** A caller's loop [for row in rows { w.write_row(row)?; }]. *)
Fixpoint write_rows (self : Writer) (rows : list (list (list Z))) : option (Writer * result unit WriteError) :=
  match rows with
  | [] => Some (self, Ok tt)
  | row :: rest =>
      '(self, r) ← write_row self row;
      match r with Err e => Some (self, Err e) | Ok _ => write_rows self rest end
  end.
End Writer.

(** A caller that writes rows to a [Vec] and takes it back. *)
Definition write_all `{!Memchr} (d : Z) (flex bom : bool) (rows : list (list (list Z)))
    : option (result (list Z) WriteError) :=
  w ← set_delimiter (new ([] : list Z)) d;
  '(w, r) ← write_rows (set_write_bom (set_flexible w flex) bom) rows;
  match r with Err e => Some (Err e) | Ok _ => into_inner w end.

(** ** What is written *)

Definition doubled (f : list Z) : list Z := mbind (fun x => if x =? 34 then [34; 34] else [x]) f.
Definition quotable (d : Z) (f : list Z) : bool :=
  existsb (fun x => (x =? d) || (x =? 13) || (x =? 10)) f || existsb (fun x => x =? 34) f.
Definition encode_field (d : Z) (f : list Z) : list Z := if quotable d f then 34 :: doubled f ++ [34] else f.
Definition encode_tail (d : Z) (fs : list (list Z)) : list Z := mbind (fun f => d :: encode_field d f) fs.
Definition encode_fields (d : Z) (fs : list (list Z)) : list Z :=
  match fs with [] => [] | f :: rest => encode_field d f ++ encode_tail d rest end.
Definition encode_row (d : Z) (fs : list (list Z)) : list Z := encode_fields d fs ++ [13; 10].

Section Written.
Context `{!Memchr, !MemchrLaws}.

Lemma position_existsb (p : Z -> bool) l : bool_decide (is_Some (position p l)) = existsb p l.
Proof.
  induction l as [|x l IH]; [done|]. cbn [position existsb]. destruct (p x); [done|]. rewrite <- IH.
  destruct (position p l); simpl; done.
Qed.

Lemma doubled_plain l : Forall (fun y => (y =? 34) = false) l -> doubled l = l.
Proof. unfold doubled. induction 1 as [|x l Hx _ IH]; [done|]. cbn [mbind list_bind]. by rewrite Hx, IH. Qed.

Lemma double_quotes_wp fuel buf field pos : (pos <= length field)%nat -> (length field - pos < fuel)%nat ->
  wp (double_quotes fuel buf field pos) (fun b => b = buf ++ doubled (drop pos field)).
Proof.
  revert buf pos. induction fuel as [|fuel IH]; intros buf pos Hp Hf; [lia|]. cbn [double_quotes].
  apply wp_bind, wp_slice; [done|done|]. rewrite take_ge by (rewrite length_drop; lia). rewrite memchr_spec.
  destruct (position _ (drop pos field)) as [i|] eqn:Hpos.
  - destruct (position_first _ _ _ Hpos) as (x & Hsplit & Hx & Hpre & Hlen). rewrite length_drop in Hlen.
    apply wp_bind, wp_slice; [lia|lia|]. replace (pos + i - pos)%nat with i by lia.
    eapply wp_mono; [apply IH; lia|]. intros b ->.
    replace (drop (pos + i + 1) field) with (drop (S i) (drop pos field)) by (rewrite drop_drop; f_equal; lia).
    assert (HD : doubled (drop pos field) = take i (drop pos field) ++ [34; 34] ++ doubled (drop (S i) (drop pos field))).
    { rewrite Hsplit at 1. unfold doubled. rewrite bind_app. f_equal; [by apply doubled_plain|]. cbn [mbind list_bind].
      by rewrite Hx. }
    by rewrite HD, <- !app_assoc.
  - rewrite doubled_plain; [done|]. by apply position_absent.
Qed.

Lemma write_csv_field_wp buf d field : wp (write_csv_field buf d field) (fun b => b = buf ++ encode_field d field).
Proof.
  unfold write_csv_field, encode_field, quotable. rewrite memchr_spec, memchr3_spec, !position_existsb.
  destruct (_ || _); cbn [negb]; [|done]. apply wp_bind. eapply wp_mono; [apply double_quotes_wp; lia|].
  intros b ->. rewrite drop_0, <- !app_assoc. done.
Qed.

Context {W : Type} `{!Write W}.

Lemma write_fields_wp (w : Writer (W := W)) i row : wp (write_fields w i row) (fun w' =>
  w' = w <| buf := buf w ++ (if (0 <? i)%nat then encode_tail (delimiter w) row else encode_fields (delimiter w) row) |>).
Proof.
  revert w i. induction row as [|f row IH]; intros w i; cbn [write_fields].
  - destruct w, (0 <? i)%nat; simpl; by rewrite app_nil_r.
  - apply wp_bind. unfold write_field. apply wp_bind. eapply wp_mono; [apply write_csv_field_wp|].
    intros b ->. cbn [wp]. eapply wp_mono; [apply IH|]. intros w' ->. cbn [Nat.ltb Nat.leb].
    destruct w, i; cbn; rewrite <- !app_assoc; done.
Qed.
End Written.

(** ** Rows written to a [Vec] *)

(** Everything written so far; the mark, when one is still due; what an
    operation must answer. *)
Definition out (w : Writer (W := list Z)) : list Z := default [] (writer w) ++ buf w.
Definition mark (w : Writer (W := list Z)) : list Z := if write_bom w && negb (bom_written w) then BOM else [].
Definition count_check (flex : bool) (expected : option nat) (count row : nat) : result unit WriteError :=
  match expected with
  | Some n => if negb flex && negb (count =? n)%nat then Err (WInconsistentFieldCount n count row) else Ok tt
  | None => Ok tt
  end.

(** The settings, which no operation changes. *)
Definition same_setup (w w' : Writer (W := list Z)) : Prop :=
  delimiter w' = delimiter w /\ flexible w' = flexible w /\ write_bom w' = write_bom w /\
  (is_Some (writer w) -> is_Some (writer w')).

Lemma flush_vec (w : Writer (W := list Z)) : is_Some (writer w) ->
  exists v, flush w = (w <| writer := Some v |> <| buf := [] |>, Ok tt) /\ v = out w.
Proof. intros [v Hv]. unfold flush, out. rewrite Hv. by eexists. Qed.

Lemma flush_if_full_vec (w : Writer (W := list Z)) : is_Some (writer w) ->
  exists v b, flush_if_full w = (w <| writer := Some v |> <| buf := b |>, Ok tt) /\ v ++ b = out w.
Proof.
  intros Hw. unfold flush_if_full. destruct (_ <=? _)%nat.
  - destruct (flush_vec w Hw) as (v & -> & Hv). exists v, []. by rewrite app_nil_r.
  - destruct Hw as [v Hv]. exists v, (buf w). unfold out. rewrite Hv. split; [|done]. destruct w; cbn in *; by subst.
Qed.

Lemma pending_bom_spec (w : Writer (W := list Z)) :
  write_pending_bom w = w <| buf := buf w ++ mark w |> <| bom_written := bom_written w || write_bom w |>.
Proof.
  unfold write_pending_bom, mark. destruct w as [? ? ? ? ? ? ? ? [|] [|]]; cbn; by rewrite ?app_nil_r.
Qed.

Ltac wd := cbn [set_with upd_w_writer upd_w_delimiter upd_w_flexible upd_w_num_fields upd_w_row_count upd_w_buf
  upd_w_headers upd_w_headers_written upd_w_write_bom upd_w_bom_written writer delimiter flexible num_fields row_count
  buf headers headers_written write_bom bom_written] in *.

(** The last steps of a row that is accepted. *)
Ltac written Hd nf :=
  eapply wp_mono; [apply (Hd _ nf)|]; wd; try done; [by rewrite <- !app_assoc|]; intros [? ?] (-> & ?); done.

Section Rows.
Context `{!Memchr, !MemchrLaws}.

Lemma write_row_wp (w : Writer (W := list Z)) row : is_Some (writer w) ->
  wp (write_row w row) (fun '(w', r) =>
    r = count_check (flexible w) (num_fields w) (length row) (row_count w + 1) /\
    out w' = out w ++ mark w ++ (if r is Ok _ then encode_row (delimiter w) row else []) /\
    row_count w' = (row_count w + if r is Ok _ then 1 else 0)%nat /\
    num_fields w' = match num_fields w with
                    | None => if flexible w && (length row =? 0)%nat then None else Some (length row)
                    | Some n => Some n
                    end /\
    bom_written w' = bom_written w || write_bom w /\ same_setup w w').
Proof.
  intros [v Hv]. unfold write_row, count_check, encode_row, same_setup. rewrite pending_bom_spec.
  apply wp_bind. eapply wp_mono; [apply write_fields_wp|]. intros w1 ->. cbn [Nat.ltb Nat.leb]. wd.
  assert (Hdone : forall w2 nf, is_Some (writer w2) -> row_count w2 = (row_count w + 1)%nat -> num_fields w2 = nf ->
    out w2 = out w ++ mark w ++ encode_fields (delimiter w) row ++ [13; 10] -> same_setup w w2 ->
    bom_written w2 = bom_written w || write_bom w ->
    wp (Some (flush_if_full w2)) (fun '(w', r) =>
      r = Ok tt /\ out w' = out w ++ mark w ++ encode_fields (delimiter w) row ++ [13; 10] /\
      row_count w' = (row_count w + 1)%nat /\ num_fields w' = nf /\ bom_written w' = bom_written w || write_bom w /\
      same_setup w w')).
  { intros w2 nf H2 Hrc Hnf Ho (Hs1 & Hs2 & Hs3 & _) Hb. destruct (flush_if_full_vec w2 H2) as (v' & b & -> & Hvb). cbn [wp].
    unfold out at 1, same_setup. wd. rewrite <- Ho, <- Hvb. split_and!; by try done. }
  unfold out, same_setup in *. wd. destruct (flexible w) eqn:Hf, (num_fields w) as [n|] eqn:Hn; cbn [negb andb]; wd.
  - written Hdone (Some n).
  - destruct (length row) as [|k]; cbn [Nat.eqb Nat.ltb Nat.leb].
    + written Hdone (@None nat).
    + written Hdone (Some (S k)).
  - destruct (length row =? n)%nat; cbn [negb].
    + written Hdone (Some n).
    + cbn [wp]. wd. rewrite take_app_length. split_and!; try done; try lia; by rewrite app_nil_r, <- app_assoc.
  - written Hdone (Some (length row)).
Qed.

Lemma write_rows_wp (w : Writer (W := list Z)) rows : is_Some (writer w) ->
  (flexible w = false -> exists n, Forall (fun r => length r = n) rows /\ (num_fields w = None \/ num_fields w = Some n)) ->
  wp (write_rows w rows) (fun '(w', r) => r = Ok tt /\ is_Some (writer w') /\
    out w' = out w ++ (match rows with [] => [] | _ => mark w end) ++ mbind (encode_row (delimiter w)) rows).
Proof.
  revert w. induction rows as [|row rows IH]; intros w Hw Hc; cbn [write_rows].
  { cbn [wp]. split_and!; [done|done|]. by rewrite app_nil_r. }
  apply wp_bind. eapply wp_mono; [by apply write_row_wp|].
  intros [w1 r] (Hr & Ho & _ & Hn & Hb & Hd & Hf & Hm & Hs).
  assert (Hok : r = Ok tt).
  { rewrite Hr. unfold count_check. destruct (flexible w); [by destruct (num_fields w)|].
    destruct (Hc eq_refl) as (n & Hall & [-> | ->]); [done|]. inversion Hall; subst. by rewrite Nat.eqb_refl. }
  rewrite Hok in *. clear Hr Hok. eapply wp_mono; [apply IH|].
  - by apply Hs.
  - rewrite Hf. intros Hflex. destruct (Hc Hflex) as (n & Hall & Hnf). rewrite Hflex in Hn. inversion Hall; subst.
    eexists. split; [done|]. right. rewrite Hn. by destruct Hnf as [-> | ->].
  - intros [w2 r2] (-> & Hw2 & Ho2). split_and!; [done|done|]. rewrite Ho2, Ho, Hd.
    assert (Hmark : mark w1 = []) by (unfold mark; rewrite Hm, Hb; by destruct (write_bom w), (bom_written w)).
    rewrite Hmark. cbn [mbind list_bind]. destruct rows; by rewrite <- !app_assoc.
Qed.
End Rows.

(** ** Reading back what was written *)

Section ReadBack.
Context (d : Z).
Hypothesis d_ok : d <> 34 /\ d <> 13 /\ d <> 10.

Lemma records_doubled f l fs cur : head l <> Some 34 ->
  records d (doubled f ++ 34 :: l) false (InRecord InQuoted) fs cur =
  records d l false (InRecord AfterQuote) fs (cur ++ f).
Proof.
  intros Hl. revert cur. induction f as [|x f IH]; intros cur; [by rewrite app_nil_r|].
  unfold doubled. cbn [mbind list_bind]. destruct (Z.eqb_spec x 34) as [->|Hx]; cbn [app records andb Z.eqb Pos.eqb].
  - fold (doubled f). rewrite IH. by rewrite <- app_assoc.
  - rewrite (proj2 (Z.eqb_neq x 34) Hx). fold (doubled f). rewrite IH. by rewrite <- app_assoc.
Qed.

Lemma quotable_false f : quotable d f = false -> Forall (fun x => (x =? d) || (x =? 13) || (x =? 10) = false) f /\
  Forall (fun x => (x =? 34) = false) f.
Proof.
  unfold quotable. intros Hq. apply orb_false_iff in Hq as [H1 H2].
  split; apply List.Forall_forall; intros x Hx; apply not_true_iff_false; intros Ht.
  - apply not_true_iff_false in H1. apply H1. apply existsb_exists. by exists x.
  - apply not_true_iff_false in H2. apply H2. apply existsb_exists. by exists x.
Qed.

(** An encoded field, up to the byte that ends it. *)
Lemma records_field f l fs : (exists x t, l = x :: t /\ (x = d \/ x = 13)) -> (fs <> [] \/ f <> []) ->
  exists q, records d (encode_field d f ++ l) false (InRecord StartOfField) fs [] =
    records d l false (InRecord q) fs f /\ (q = StartOfField -> f = []) /\ q <> InQuoted.
Proof.
  intros (x & t & -> & Hx) Hne. destruct d_ok as (Hd1 & Hd2 & Hd3). unfold encode_field. destruct (quotable d f) eqn:Hq.
  - exists AfterQuote. split; [|done]. rewrite <- app_comm_cons, <- app_assoc.
    replace (records d (34 :: doubled f ++ [34] ++ x :: t) false (InRecord StartOfField) fs [])
      with (records d (doubled f ++ 34 :: x :: t) false (InRecord InQuoted) fs []).
    + rewrite records_doubled; [done|]. simpl. intros [=]. lia.
    + change ([34] ++ x :: t) with (34 :: x :: t). set (l := doubled f ++ _).
      cbn [records andb]. by rewrite (proj2 (Z.eqb_neq 34 d)) by congruence.
  - destruct (quotable_false f Hq) as [Hf1 Hf2]. destruct f as [|a f]; [by exists StartOfField|].
    exists InUnquoted. split; [|done]. inversion Hf1 as [|? ? Ha Hf]; subst. inversion Hf2 as [|? ? Ha2 _]; subst.
    apply orb_false_iff in Ha as [Ha H10]. apply orb_false_iff in Ha as [Had H13].
    rewrite <- app_comm_cons. cbn [records andb]. unfold is_newline. rewrite H10, H13, Had, Ha2. cbn [orb].
    by rewrite records_unquoted_run.
Qed.

Lemma records_tail rest l f fs q : (q = StartOfField -> f = []) -> q <> InQuoted -> (fs <> [] \/ f <> [] \/ rest <> []) ->
  records d (encode_tail d rest ++ 13 :: 10 :: l) false (InRecord q) fs f =
  (fs ++ f :: rest, None) :: records d l false (InRecord StartOfField) [] [].
Proof.
  destruct d_ok as (Hd1 & Hd2 & Hd3). revert f fs q. induction rest as [|g rest IH]; intros f fs q Hq Hq2 Hne.
  - cbn [encode_tail mbind list_bind app records andb]. rewrite (proj2 (Z.eqb_neq 13 d)) by congruence.
    destruct q; try done.
    rewrite Hq in * by done. destruct fs; [by destruct Hne as [?|[?|?]]|done].
  - unfold encode_tail. cbn [mbind list_bind]. fold (encode_tail d rest). rewrite <- !app_comm_cons, <- app_assoc.
    destruct (records_field g (encode_tail d rest ++ 13 :: 10 :: l) (fs ++ [f])) as (q' & Hr & Hq' & Hq2').
    { destruct rest as [|h rest]; cbn; eauto. }
    { left. by destruct fs. }
    assert (Hstep : records d (d :: encode_field d g ++ encode_tail d rest ++ 13 :: 10 :: l) false (InRecord q) fs f =
      records d (encode_field d g ++ encode_tail d rest ++ 13 :: 10 :: l) false (InRecord StartOfField) (fs ++ [f]) []).
    { cbn [records andb]. unfold is_newline. rewrite Z.eqb_refl.
      rewrite !(proj2 (Z.eqb_neq _ _)) by congruence. cbn [orb]. destruct q; try done. by rewrite Hq. }
    rewrite Hstep, Hr, IH; [|done|done|left; by destruct fs]. by rewrite <- app_assoc.
Qed.

Lemma records_row row l : row <> [] -> row <> [[]] ->
  records d (encode_row d row ++ l) false (InRecord StartOfField) [] [] =
  (row, None) :: records d l false (InRecord StartOfField) [] [].
Proof.
  destruct row as [|f rest]; [done|]. intros _ Hne. unfold encode_row, encode_fields. rewrite <- !app_assoc. cbn [app].
  destruct (decide (f = [])) as [->|Hf].
  - cbn [encode_field app quotable existsb orb]. apply (records_tail rest l [] [] StartOfField); [done|done|].
    right. right. congruence.
  - destruct (records_field f (encode_tail d rest ++ 13 :: 10 :: l) []) as (q & -> & Hq & Hq2).
    { destruct rest as [|h rest]; cbn; eauto 10. }
    { by right. }
    apply (records_tail rest l f [] q); auto.
Qed.

Lemma records_rows rows : Forall (fun r => r <> [] /\ r <> [[]]) rows ->
  records d (mbind (encode_row d) rows) false (InRecord StartOfField) [] [] = map (fun r => (r, None)) rows.
Proof.
  induction 1 as [|r rows [H1 H2] _ IH]; [done|]. cbn [mbind list_bind map]. by rewrite records_row, IH.
Qed.

Lemma with_counts_sound flex nf rows : (flex = false -> exists n, Forall (fun r => length r = n) rows /\ (nf = None \/ nf = Some n)) ->
  with_counts flex nf (map (fun r => (r, None)) rows) = map (fun r => (r, None)) rows.
Proof.
  revert nf. induction rows as [|r rows IH]; intros nf Hc; [done|]. cbn [map with_counts].
  assert (He : count_error flex nf (r, None) = None).
  { unfold count_error. cbn [fst snd]. destruct flex; [by destruct nf|].
    destruct (Hc eq_refl) as (n & Hall & [-> | ->]); [done|]. inversion Hall; subst. by rewrite Nat.eqb_refl. }
  rewrite He, IH; [done|]. intros Hf. destruct (Hc Hf) as (n & Hall & Hnf). exists n. inversion Hall; subst.
  split; [done|]. unfold next_count, count_error. cbn [fst snd]. destruct Hnf as [-> | ->]; [|by right].
  destruct (0 <? length r)%nat; auto.
Qed.
End ReadBack.

(** ** Whole files *)

(** The rows the format can hold: not blank; and, when the reader drops a mark
    the writer did not put there, a first field that does not begin with it. *)
Definition writable (row : list (list Z)) : Prop := row <> [] /\ row <> [[]].
Definition rectangular (rows : list (list (list Z))) : Prop := exists n, Forall (fun r => length r = n) rows.
Definition no_mark (d : Z) (rows : list (list (list Z))) : Prop :=
  d < 128 /\ match rows with (f :: _) :: _ => take 3 f <> BOM | _ => True end.

Lemma no_mark_kept d rows : no_mark d rows ->
  without_bom (mbind (encode_row d) rows) = mbind (encode_row d) rows.
Proof.
  intros [Hd Hm]. unfold without_bom. rewrite bool_decide_eq_false_2; [done|].
  destruct rows as [|[|f rest] rows]; [done|done|]. cbn [mbind list_bind]. unfold encode_row, encode_fields, encode_field.
  destruct (quotable d f); [done|]. unfold BOM.
  destruct f as [|a [|b [|c f]]]; [| | |done]; destruct rest as [|g rest]; cbn [encode_tail mbind list_bind app take];
    intros [=]; lia.
Qed.

Section Whole.
Context `{!Memchr, !MemchrLaws}.

Lemma write_all_wp d flex bom rows : d <> 34 /\ d <> 13 /\ d <> 10 -> (flex = false -> rectangular rows) ->
  wp (write_all d flex bom rows) (fun r =>
    r = Ok ((match rows with [] => [] | _ => if bom then BOM else [] end) ++ mbind (encode_row d) rows)).
Proof.
  intros (Hd1 & Hd2 & Hd3) Hc. unfold write_all, set_delimiter.
  destruct (Z.eqb_spec d 34), (Z.eqb_spec d 13), (Z.eqb_spec d 10); try done. cbn [negb andb rassert mbind option_bind].
  apply wp_bind. eapply wp_mono; [apply write_rows_wp; [by eexists|]|].
  - cbn. intros Hf. destruct (Hc Hf) as [m Hm]. exists m. auto.
  - intros [w r] (-> & Hw & Ho). unfold into_inner. destruct (flush_vec w Hw) as (v & -> & ->).
    cbn [set_with upd_w_writer upd_w_buf writer mbind option_bind wp]. rewrite Ho. unfold out, mark. cbn.
    by destruct rows, bom.
Qed.

Lemma viewed_to_vec b row : viewed b (row, None) -> BytesRow_to_vec b = Some (Ok row).
Proof. unfold viewed, BytesRow_to_vec. intros [Hm He]. cbn in *. destruct (row_error b); [done|]. by rewrite Hm. Qed.

(** C7: CSV files round-trip.  Rows written with [write_row] to a [Vec], in
    strict or flexible mode, with or without a byte-order mark, are accepted,
    and the reader gives back exactly these rows from any source that delivers
    the bytes written, in pieces of any size: the fields may hold delimiters,
    quotes, line endings.  The rows the format cannot hold are excluded: a row
    without fields or with one empty field is a blank line, and a first field
    that begins with an unannounced mark loses it. *)
Theorem csv_round_trip (d : Z) (flex bom strip : bool) (rows : list (list (list Z))) :
  d <> 34 /\ d <> 13 /\ d <> 10 -> Forall writable rows -> (flex = false -> rectangular rows) ->
  bom = strip \/ (bom = false /\ no_mark d rows) ->
  wp (write_all d flex bom rows) (fun r => exists bytes, r = Ok bytes /\
    forall (R : Type) `{SR : Stream R} (src : R) (n fuel : nat), content src = bytes ->
      (2 * length bytes + 4 < fuel)%nat -> (S (length bytes) < n)%nat ->
      wp (r ← CsvReader.set_delimiter (CsvReader.new src) d;
          collect_rows n fuel (set_strip_bom (CsvReader.set_flexible r flex) strip))
        (fun got => Forall2 (fun b row => BytesRow_to_vec b = Some (Ok row)) got rows)).
Proof.
  intros Hd Hw Hc Hb. eapply wp_mono; [by apply write_all_wp|]. intros r ->. eexists. split; [done|].
  intros R HR HS src n fuel Hsrc Hf Hn. rewrite <- Hsrc in Hf, Hn.
  eapply wp_mono; [by apply (reader_wp d flex Hd strip src n fuel)|]. intros got Hgot.
  assert (Hspec : csv_spec d flex strip (content src) = map (fun r => (r, None)) rows).
  { unfold csv_spec. rewrite Hsrc.
    assert (Hin : (if strip then without_bom ((match rows with [] => [] | _ => if bom then BOM else [] end) ++ mbind (encode_row d) rows)
        else (match rows with [] => [] | _ => if bom then BOM else [] end) ++ mbind (encode_row d) rows) =
      mbind (encode_row d) rows).
    { destruct Hb as [->|[-> Hm]].
      - destruct strip; [by destruct rows|by destruct rows].
      - pose proof (no_mark_kept d rows Hm). by destruct rows, strip. }
    rewrite Hin, (records_rows d Hd rows Hw). apply with_counts_sound. intros Hflex.
    destruct (Hc Hflex) as [m Hm]. exists m. auto. }
  rewrite Hspec in Hgot. change (map ?f ?l) with (f <$> l) in Hgot.
  rewrite Forall2_fmap_r in Hgot. revert Hgot. apply Forall2_impl. intros b row. apply viewed_to_vec.
Qed.

(** Every branch of the writer.  [write_row] answers the count check
    (strict mode against the first row's count, flexible mode nothing) and the
    output grows by the mark, when one is due, and by the encoded row exactly
    when the row is accepted: a rejected row is taken back whole; the row and
    field counts follow.  [write_headers] answers [HeadersAlreadyWritten] the
    second time, checks the count before it writes, changes nothing when it
    refuses.  Buffering never shows: what counts is the sink followed by the
    buffer. *)
Theorem csv_writer_correct (w : Writer (W := list Z)) (row : list (list Z)) : is_Some (writer w) ->
  wp (write_row w row) (fun '(w', r) =>
    r = count_check (flexible w) (num_fields w) (length row) (row_count w + 1) /\
    out w' = out w ++ mark w ++ (if r is Ok _ then encode_row (delimiter w) row else []) /\
    row_count w' = (row_count w + if r is Ok _ then 1 else 0)%nat /\
    num_fields w' = match num_fields w with
                    | None => if flexible w && (length row =? 0)%nat then None else Some (length row)
                    | Some n => Some n
                    end /\
    bom_written w' = bom_written w || write_bom w /\ same_setup w w') /\
  wp (write_headers w row) (fun '(w', r) =>
    if headers_written w then w' = w /\ r = Err HeadersAlreadyWritten else
    r = count_check (flexible w) (match num_fields w with Some n => Some n | None => length <$> headers w end)
          (length row) (row_count w + 1) /\
    match r with
    | Ok _ => out w' = out w ++ mark w ++ encode_row (delimiter w) row /\ headers w' = Some row /\
        headers_written w' = true /\ num_fields w' = Some (length row) /\ row_count w' = (row_count w + 1)%nat /\
        same_setup w w'
    | Err _ => w' = w
    end).
Proof.
  intros Hw. split; [by apply write_row_wp|]. unfold write_headers, count_check.
  destruct (headers_written w); [done|]. set (expected := match num_fields w with Some n => Some n | None => _ end).
  assert (Hgo : wp (w1 ← write_fields (write_pending_bom w) 0 row;
      Some (flush_if_full (w1 <| buf := buf w1 ++ [13; 10] |> <| row_count := (row_count w1 + 1)%nat |>
        <| headers := Some row |> <| headers_written := true |> <| num_fields := Some (length row) |>)))
    (fun '(w', r) => r = Ok tt /\ out w' = out w ++ mark w ++ encode_row (delimiter w) row /\ headers w' = Some row /\
      headers_written w' = true /\ num_fields w' = Some (length row) /\ row_count w' = (row_count w + 1)%nat /\
      same_setup w w')).
  { rewrite pending_bom_spec. apply wp_bind. eapply wp_mono; [apply write_fields_wp|]. intros w1 ->. cbn [Nat.ltb Nat.leb]. wd.
    edestruct flush_if_full_vec as (v & b & -> & Hb); [|cbn [wp]; unfold out at 1, same_setup; wd].
    { by wd. }
    change (default [] (Some v)) with v. rewrite Hb. unfold out, encode_row. wd. rewrite <- !app_assoc. by split_and!. }
  destruct (flexible w), expected as [n|]; cbn [negb andb];
    try (eapply wp_mono; [exact Hgo|]; intros [w' r] (-> & Ho); by split).
  destruct (length row =? n)%nat; cbn [negb];
    [eapply wp_mono; [exact Hgo|]; intros [w' r] (-> & Ho); by split|by cbn [wp]].
Qed.
End Whole.

#[local] Existing Instances plain_memchr plain_laws.

(** Two rows with every kind of special byte, read back in two pieces. *)
Definition table : list (list (list Z)) := [[[97]; [120; 13; 10; 34; 121]]; [[]; [49; 44; 50]]].
Definition table_bytes : list Z := [97; 44; 34; 120; 13; 10; 34; 34; 121; 34; 13; 10; 44; 34; 49; 44; 50; 34; 13; 10].

Lemma csv_round_trip_witness :
  write_all 44 false true table = Some (Ok (BOM ++ table_bytes)) /\
  wp (write_all 44 false true table) (fun r => exists bytes, r = Ok bytes /\
    forall (R : Type) `{SR : Stream R} (src : R) (n fuel : nat), content src = bytes ->
      (2 * length bytes + 4 < fuel)%nat -> (S (length bytes) < n)%nat ->
      wp (r ← CsvReader.set_delimiter (CsvReader.new src) 44;
          collect_rows n fuel (set_strip_bom (CsvReader.set_flexible r false) true))
        (fun got => Forall2 (fun b row => BytesRow_to_vec b = Some (Ok row)) got table)).
Proof.
  split; [vm_compute; reflexivity|]. apply csv_round_trip.
  - done.
  - by repeat constructor.
  - intros _. exists 2%nat. by repeat constructor.
  - by left.
Defined.

(** A row that is refused after the mark was written. *)
Lemma csv_writer_witness :
  let w := mkWriter (Some [1]) 59 false (Some 2%nat) 4 [2] None false true false in
  is_Some (writer w) /\
  wp (write_row w [[59]]) (fun '(w', r) =>
    r = Err (WInconsistentFieldCount 2 1 5) /\ out w' = [1; 2] ++ BOM /\ row_count w' = 4%nat) /\
  wp (write_headers w [[59]; [65]]) (fun '(w', r) => r = Ok tt /\ out w' = [1; 2] ++ BOM ++ [34; 59; 34; 59; 65; 13; 10]).
Proof.
  intros w. assert (Hw : is_Some (writer w)) by by eexists. split; [exact Hw|]. split.
  - eapply wp_mono; [exact (proj1 (csv_writer_correct w [[59]] Hw))|]. intros [w' r] (-> & Ho & Hr & _).
    split; [reflexivity|]. split; [exact Ho|]. rewrite Hr. reflexivity.
  - eapply wp_mono; [exact (proj2 (csv_writer_correct w [[59]; [65]] Hw))|]. intros [w' r] (-> & Ho & _).
    split; [reflexivity|]. exact Ho.
Defined.

(** What [csv_round_trip] excludes, and the documentation of [write_row] does
    not: a row without fields is written and not read back, and a leading mark
    in the first field is lost. *)
Definition read_back (bytes : list Z) : option (list (option (result (list (list Z)) ReadError))) :=
  rows ← collect_rows 20 60 (CsvReader.new bytes); Some (map BytesRow_to_vec rows).
Example blank_row_lost : write_all 44 true false [[]; [[97]]] = Some (Ok [13; 10; 97; 13; 10]) /\
  read_back [13; 10; 97; 13; 10] = Some [Some (Ok [[97]])].
Proof. split; vm_compute; reflexivity. Qed.
Example mark_lost : write_all 44 false false [[BOM ++ [97]]] = Some (Ok (BOM ++ [97; 13; 10])) /\
  read_back (BOM ++ [97; 13; 10]) = Some [Some (Ok [[97]])].
Proof. split; vm_compute; reflexivity. Qed.

End CsvWriter.
