(* ===== verification/Civil.v ===== *)
(** * time: proleptic Gregorian calendar

    src/time/civil.rs.  Rust's [/] and [%] on signed integers truncate
    ([Z.quot], [Z.rem]); [rem_euclid] is [Z.modulo].  The arithmetic is [i64]
    and does not overflow for the dates the crate admits, so it is exact; the
    narrowing casts are written out, and [civil_from_days], which [add_days]
    calls with any day number, has its overflows.  The calendar itself is specified by
    [next_day]: the day after a valid date. *)
From Stdlib Require Import ZArith Lia.
From stdpp Require Import base list numbers option.
From S2P Require Import Prelude Words.

Module Civil.

Definition SECS_PER_DAY : Z := 86400.
Definition NANOS_PER_SEC : Z := 1000000000.
Definition DAYS_PER_CYCLE : Z := 146097.
Definition EPOCH_DAYS : Z := 719468.

Definition is_leap (year : Z) : bool :=
  ((Z.rem year 4 =? 0) && negb (Z.rem year 100 =? 0)) || (Z.rem year 400 =? 0).

Definition days_in_month (year month : Z) : Z :=
  match month with
  | 1 | 3 | 5 | 7 | 8 | 10 | 12 => 31
  | 4 | 6 | 9 | 11 => 30
  | 2 => if is_leap year then 29 else 28
  | _ => 0
  end.

Definition days_from_civil (year month day : Z) : Z :=
  let year := year - (if month <=? 2 then 1 else 0) in
  let era := Z.quot (if 0 <=? year then year else year - 399) 400 in
  let yoe := year - era * 400 in
  let doy := Z.quot (153 * (month + (if 2 <? month then -3 else 9)) + 2) 5 + day - 1 in
  let doe := yoe * 365 + Z.quot yoe 4 - Z.quot yoe 100 + doy in
  era * DAYS_PER_CYCLE + doe - EPOCH_DAYS.

(** The arithmetic of [civil_from_days], and the function with its two sums that
    can overflow: the day number of the Gregorian epoch, an [i64], and the year
    after the narrowing cast, an [i32]. *)
Definition civil_fields (days : Z) : Z * Z * Z :=
  let days := days + EPOCH_DAYS in
  let era := Z.quot (if 0 <=? days then days else days - (DAYS_PER_CYCLE - 1)) DAYS_PER_CYCLE in
  let doe := days - era * DAYS_PER_CYCLE in
  let yoe := Z.quot (doe - Z.quot doe 1460 + Z.quot doe 36524 - Z.quot doe 146096) 365 in
  let year := i32 (yoe + era * 400) in
  let doy := doe - (365 * yoe + Z.quot yoe 4 - Z.quot yoe 100) in
  let mp := Z.quot (5 * doy + 2) 153 in
  let day := u8 (doy - Z.quot (153 * mp + 2) 5 + 1) in
  let month := u8 (mp + (if mp <? 10 then 3 else -9)) in
  (if month <=? 2 then year + 1 else year, month, day).

Definition civil_from_days (days : Z) : option (Z * Z * Z) :=
  _ ← i64_checked (days + EPOCH_DAYS);
  let '(year, month, day) := civil_fields days in
  year ← i32_checked year;
  Some (year, month, day).

Definition ordinal (year month day : Z) : Z :=
  u16 (days_from_civil year month day - days_from_civil year 1 1 + 1).

Definition weekday_from_days (days : Z) : Z := u8 ((days + 3) mod 7).

Definition iso_weeks_in_year (year : Z) : Z :=
  let jan1 := weekday_from_days (days_from_civil year 1 1) in
  if (jan1 =? 3) || (is_leap year && (jan1 =? 2)) then 53 else 52.

Definition iso_week (year month day : Z) : Z * Z :=
  let days := days_from_civil year month day in
  let weekday := weekday_from_days days + 1 in
  let week := Z.quot (ordinal year month day - weekday + 10) 7 in
  if week <? 1 then (year - 1, iso_weeks_in_year (year - 1))
  else if iso_weeks_in_year year <? week then (year + 1, 1)
  else (year, u8 week).

(** ** The calendar *)

Definition valid (year month day : Z) : Prop :=
  1 <= month <= 12 /\ 1 <= day <= days_in_month year month.

(** Years whose dates, and the neighbouring years, fit the code's types. *)
Definition year_ok (year : Z) : Prop := - 2 ^ 31 < year < 2 ^ 31 - 1.

Definition next_day '((year, month, day) : Z * Z * Z) : Z * Z * Z :=
  if day <? days_in_month year month then (year, month, day + 1)
  else if month <? 12 then (year, month + 1, 1)
  else (year + 1, 1, 1).

(** ** Truncating division on the code's ranges *)

Lemma floor_quot x n : 0 < n -> Z.quot (if 0 <=? x then x else x - (n - 1)) n = x / n.
Proof.
  intros Hn. destruct (Z.leb_spec 0 x).
  - apply Z.quot_div_nonneg; lia.
  - pose proof (Z.div_mod x n ltac:(lia)). pose proof (Z.mod_pos_bound x n Hn).
    assert (x / n <= -1) by nia.
    set (q := x / n) in *. set (r := x mod n) in *.
    replace (x - (n - 1)) with (- (n * (- q) + (n - 1 - r))) by lia.
    rewrite Z.quot_opp_l, Z.quot_div_nonneg by nia.
    replace ((n * - q + (n - 1 - r)) / n) with (- q); [lia|].
    apply (Z.div_unique_pos _ _ _ (n - 1 - r)); lia.
Qed.

(** The first day of the March-based year [y] of the era. *)
Definition mar_start (y : Z) : Z := 365 * y + y / 4 - y / 100.

(** The first day of the March-based month [mp]. *)
Definition mon_start (mp : Z) : Z := (153 * mp + 2) / 5.

(** The year of the day [doe] of the era, as the code computes it. *)
Definition year_of (doe : Z) : Z := (doe - doe / 1460 + doe / 36524 - doe / 146096) / 365.

(** A check over [0..n-1], by evaluation. *)
Lemma range_forall (f : Z -> bool) n x : forallb f (seqZ 0 n) = true -> 0 <= x < n -> f x = true.
Proof. intros H Hx. rewrite forallb_forall in H. apply H, list_elem_of_In, elem_of_seqZ. lia. Qed.

Lemma year_of_mono a b : a <= b -> year_of a <= year_of b.
Proof.
  intros Hab. apply Z.div_le_mono; [lia|].
  replace 146096 with (36524 * 4) by lia. rewrite <- !Z.div_div by lia.
  assert (Ha : a / 36524 <= b / 36524) by (apply Z.div_le_mono; lia).
  assert (b / 1460 - a / 1460 <= b - a).
  { pose proof (Z.div_mod a 1460 ltac:(lia)). pose proof (Z.div_mod b 1460 ltac:(lia)).
    pose proof (Z.mod_pos_bound a 1460 ltac:(lia)). pose proof (Z.mod_pos_bound b 1460 ltac:(lia)). lia. }
  set (p := a / 36524) in *. set (q := b / 36524) in *.
  pose proof (Z.div_mod p 4 ltac:(lia)). pose proof (Z.div_mod q 4 ltac:(lia)).
  pose proof (Z.mod_pos_bound p 4 ltac:(lia)). pose proof (Z.mod_pos_bound q 4 ltac:(lia)). lia.
Qed.

(** At the ends of every year of the era the estimate is exact. *)
Lemma year_of_ends y : 0 <= y < 400 ->
  year_of (mar_start y) = y /\ year_of (mar_start (y + 1) - 1 + (if y =? 399 then 1 else 0)) = y.
Proof.
  intros Hy. pose proof (range_forall (fun y => (year_of (mar_start y) =? y) &&
    (year_of (mar_start (y + 1) - 1 + (if y =? 399 then 1 else 0)) =? y)) 400 y ltac:(vm_compute; reflexivity) Hy) as H.
  cbv beta in H. bool_hyps. done.
Qed.

(** The length of the March-based year [y]: the leap day is at its end. *)
Definition mar_len (y : Z) : Z := if is_leap (y + 1) then 366 else 365.

Lemma mar_len_spec y : 0 <= y < 400 ->
  mar_start y + mar_len y = (if y =? 399 then 146097 else mar_start (y + 1)).
Proof.
  intros Hy. pose proof (range_forall (fun y => mar_start y + mar_len y =?
    (if y =? 399 then 146097 else mar_start (y + 1))) 400 y ltac:(vm_compute; reflexivity) Hy) as H.
  cbv beta in H. bool_hyps. done.
Qed.

Lemma year_of_spec y doy : 0 <= y < 400 -> 0 <= doy < mar_len y -> year_of (mar_start y + doy) = y.
Proof.
  intros Hy Hd. destruct (year_of_ends y Hy) as [H1 H2]. pose proof (mar_len_spec y Hy) as Hl.
  pose proof (year_of_mono (mar_start y) (mar_start y + doy) ltac:(lia)).
  pose proof (year_of_mono (mar_start y + doy)
    (mar_start (y + 1) - 1 + (if y =? 399 then 1 else 0))) as H3.
  rewrite H2 in H3. destruct (Z.eqb_spec y 399) as [->|]; [|lia].
  change (mar_start (399 + 1)) with 146096 in *. lia.
Qed.

(** Every day of the era is in some year. *)
Lemma year_exists doe : 0 <= doe < 146097 ->
  exists y, 0 <= y < 400 /\ mar_start y <= doe < mar_start y + mar_len y.
Proof.
  intros Hd. assert (H : forall n : nat, (n <= 400)%nat -> doe < (if (n =? 400)%nat then 146097 else mar_start (Z.of_nat n)) ->
    exists y, 0 <= y < 400 /\ mar_start y <= doe < mar_start y + mar_len y).
  { induction n as [|n IH]; intros Hn Hlt; [change (mar_start (Z.of_nat 0)) with 0 in Hlt; simpl in Hlt; lia|].
    destruct (Z.lt_ge_cases doe (mar_start (Z.of_nat n))) as [Hlo|Hhi].
    - apply IH; [lia|]. destruct (Nat.eqb_spec n 400); [lia|done].
    - exists (Z.of_nat n). pose proof (mar_len_spec (Z.of_nat n) ltac:(lia)) as Hl.
      replace (Z.of_nat (S n)) with (Z.of_nat n + 1) in Hlt by lia.
      destruct (Nat.eqb_spec (S n) 400), (Z.eqb_spec (Z.of_nat n) 399); lia. }
  apply (H 400%nat); [lia|]. simpl. lia.
Qed.

(** ** Leap years and the March-based calendar *)

Lemma rem_eqb y n : 0 < n -> (Z.rem y n =? 0) = (y mod n =? 0).
Proof.
  intros Hn. apply eq_true_iff_eq. rewrite !Z.eqb_eq, Z.rem_divide, Z.mod_divide by lia. done.
Qed.

Lemma is_leap_mod y : is_leap y = ((y mod 4 =? 0) && negb (y mod 100 =? 0)) || (y mod 400 =? 0).
Proof. unfold is_leap. by rewrite !rem_eqb by lia. Qed.

Lemma is_leap_cycle k y : is_leap (k * 400 + y) = is_leap y.
Proof.
  rewrite !is_leap_mod.
  replace (k * 400 + y) with (y + (k * 100) * 4) at 1 by lia.
  replace (k * 400 + y) with (y + (k * 4) * 100) at 1 by lia.
  replace (k * 400 + y) with (y + k * 400) by lia. by rewrite !Z.mod_add by lia.
Qed.

(** The first day of the March-based year [y], counted from [0000-03-01]. *)
Definition mar_day (y : Z) : Z := y / 400 * DAYS_PER_CYCLE + mar_start (y mod 400).

Lemma mar_day_succ y : mar_day (y + 1) = mar_day y + (if is_leap (y + 1) then 366 else 365).
Proof.
  unfold mar_day, DAYS_PER_CYCLE. pose proof (Z.div_mod y 400 ltac:(lia)).
  pose proof (Z.mod_pos_bound y 400 ltac:(lia)). set (k := y / 400) in *. set (r := y mod 400) in *.
  pose proof (mar_len_spec r ltac:(lia)) as Hl. unfold mar_len in Hl.
  replace (is_leap (y + 1)) with (is_leap (r + 1))
    by (rewrite <- (is_leap_cycle k (r + 1)); f_equal; lia).
  destruct (Z.eqb_spec r 399) as [E|E].
  - replace ((y + 1) / 400) with (k + 1) by (apply (Z.div_unique_pos _ _ _ 0); lia).
    replace ((y + 1) mod 400) with 0 by (apply (Z.mod_unique_pos _ _ (k + 1)); lia).
    change (mar_start 0) with 0. lia.
  - replace ((y + 1) / 400) with k by (apply (Z.div_unique_pos _ _ _ (r + 1)); lia).
    replace ((y + 1) mod 400) with (r + 1) by (apply (Z.mod_unique_pos _ _ k); lia). lia.
Qed.

Definition mp_of (month : Z) : Z := month + (if 2 <? month then -3 else 9).
Definition month_of (mp : Z) : Z := mp + (if mp <? 10 then 3 else -9).
Definition mar_year (year month : Z) : Z := year - (if month <=? 2 then 1 else 0).

(** The code's day count in closed form. *)
Lemma days_from_civil_eq year month day : 1 <= month <= 12 ->
  days_from_civil year month day
  = mar_day (mar_year year month) + mon_start (mp_of month) + day - 1 - EPOCH_DAYS.
Proof.
  intros Hm. unfold days_from_civil, mar_day, mar_start, mon_start. cbv zeta.
  fold (mar_year year month). fold (mp_of month).
  change 399 with (400 - 1). rewrite floor_quot by lia. set (y := mar_year year month).
  pose proof (Z.mod_pos_bound y 400 ltac:(lia)).
  replace (y - y / 400 * 400) with (y mod 400) by (rewrite Z.mod_eq by lia; lia).
  assert (0 <= 153 * mp_of month + 2) by (unfold mp_of; destruct (Z.ltb_spec 2 month); lia).
  rewrite !Z.quot_div_nonneg by lia. lia.
Qed.

(** Months from 1 to 12, by evaluation. *)
Lemma month_cases (P : Z -> Prop) m : 1 <= m <= 12 ->
  P 1 -> P 2 -> P 3 -> P 4 -> P 5 -> P 6 -> P 7 -> P 8 -> P 9 -> P 10 -> P 11 -> P 12 -> P m.
Proof.
  intros Hm. assert (m = 1 \/ m = 2 \/ m = 3 \/ m = 4 \/ m = 5 \/ m = 6 \/ m = 7 \/ m = 8
    \/ m = 9 \/ m = 10 \/ m = 11 \/ m = 12) as H by lia.
  repeat (destruct H as [->|H]; [auto|]). by subst.
Qed.

(** A month is as long as the distance to the next. *)
Lemma month_step year month : 1 <= month < 12 ->
  days_from_civil year (month + 1) 1 = days_from_civil year month 1 + days_in_month year month.
Proof.
  intros Hm. destruct (Z.eq_dec month 2) as [->|H2].
  - rewrite !days_from_civil_eq by lia. change (mar_year year (2 + 1)) with (year - 0).
    change (mar_year year 2) with (year - 1). change (mp_of (2 + 1)) with 0. change (mp_of 2) with 11.
    change (mon_start 0) with 0. change (mon_start 11) with 337.
    pose proof (mar_day_succ (year - 1)) as Hs. rewrite Z.sub_add in Hs. rewrite Z.sub_0_r, Hs.
    unfold days_in_month. destruct (is_leap year); lia.
  - assert (Hy : mar_year year (month + 1) = mar_year year month).
    { unfold mar_year. destruct (Z.leb_spec (month + 1) 2), (Z.leb_spec month 2); lia. }
    rewrite !days_from_civil_eq, Hy by lia.
    enough (mon_start (mp_of (month + 1)) = mon_start (mp_of month) + days_in_month year month) by lia.
    revert H2. apply (month_cases (fun m => m <> 2 ->
      mon_start (mp_of (m + 1)) = mon_start (mp_of m) + days_in_month year m)); [lia|..];
      intros; done.
Qed.

Lemma days_linear year month day : 1 <= month <= 12 ->
  days_from_civil year month day = days_from_civil year month 1 + day - 1.
Proof. intros. rewrite !days_from_civil_eq by done. lia. Qed.

(** The year after: December is followed by January. *)
Lemma year_step year :
  days_from_civil (year + 1) 1 1 = days_from_civil year 12 1 + 31.
Proof.
  rewrite !days_from_civil_eq by lia. change (mar_year (year + 1) 1) with (year + 1 - 1).
  change (mar_year year 12) with (year - 0). replace (year + 1 - 1) with (year - 0) by lia.
  change (mon_start (mp_of 1)) with 306. change (mon_start (mp_of 12)) with 275. lia.
Qed.

(** ** The inverse *)

Lemma mon_of_day doy : 0 <= doy < 366 -> let mp := (5 * doy + 2) / 153 in
  0 <= mp < 12 /\ mon_start mp <= doy < (if mp =? 11 then 366 else mon_start (mp + 1)).
Proof.
  intros Hd. pose proof (range_forall (fun doy => let mp := (5 * doy + 2) / 153 in
    (0 <=? mp) && (mp <? 12) && (mon_start mp <=? doy) &&
    (doy <? (if mp =? 11 then 366 else mon_start (mp + 1)))) 366 doy ltac:(vm_compute; reflexivity) Hd) as H.
  cbv beta zeta in H |- *. bool_hyps. lia.
Qed.

Lemma mon_start_mono a b : a <= b -> mon_start a <= mon_start b.
Proof. intros. apply Z.div_le_mono; lia. Qed.

(** The month of a day is the only one whose days contain it. *)
Lemma mon_of_unique doy mp : 0 <= mp < 12 ->
  mon_start mp <= doy < (if mp =? 11 then 366 else mon_start (mp + 1)) ->
  (5 * doy + 2) / 153 = mp.
Proof.
  intros Hmp Hd. assert (Hr : 0 <= doy < 366).
  { pose proof (mon_start_mono 0 mp ltac:(lia)). change (mon_start 0) with 0 in *.
    destruct (Z.eqb_spec mp 11); [lia|]. pose proof (mon_start_mono (mp + 1) 11 ltac:(lia)).
    change (mon_start 11) with 337 in *. lia. }
  destruct (mon_of_day doy Hr) as [Hm Hb]. set (mp' := (5 * doy + 2) / 153) in *.
  destruct (Z.lt_trichotomy mp' mp) as [H|[H|H]]; [exfalso|done|exfalso].
  - pose proof (mon_start_mono (mp' + 1) mp ltac:(lia)). destruct (Z.eqb_spec mp' 11); lia.
  - pose proof (mon_start_mono (mp + 1) mp' ltac:(lia)). destruct (Z.eqb_spec mp 11); lia.
Qed.

(** The days of a valid date within its March-based month. *)
Lemma valid_day year month day : valid year month day ->
  let mp := mp_of month in let y := mar_year year month mod 400 in
  0 <= mp < 12 /\ mon_start mp <= mon_start mp + day - 1 < (if mp =? 11 then mar_len y else mon_start (mp + 1)) /\
  month_of mp = month.
Proof.
  intros [Hm Hd]. cbv zeta. destruct (Z.eq_dec month 2) as [->|H2].
  - change (mp_of 2) with 11. change (mon_start 11) with 337. change (11 =? 11) with true.
    split; [lia|]. split; [|done]. unfold mar_len, days_in_month in *. change (mar_year year 2) with (year - 1).
    pose proof (Z.div_mod (year - 1) 400 ltac:(lia)).
    replace (is_leap ((year - 1) mod 400 + 1)) with (is_leap year); [destruct (is_leap year); lia|].
    rewrite <- (is_leap_cycle ((year - 1) / 400) ((year - 1) mod 400 + 1)). f_equal. lia.
  - revert H2 Hd. apply (month_cases (fun m => m <> 2 -> 1 <= day <= days_in_month year m ->
      0 <= mp_of m < 12 /\ mon_start (mp_of m) <= mon_start (mp_of m) + day - 1 <
      (if mp_of m =? 11 then mar_len (mar_year year m mod 400) else mon_start (mp_of m + 1)) /\
      month_of (mp_of m) = m)); [done|..]; intros; try done;
      cbn [days_in_month] in *;
      match goal with |- context [mp_of ?m] => let v := eval vm_compute in (mp_of m) in
        change (mp_of m) with v end;
      match goal with |- context [mon_start (?a + 1)] => let v := eval vm_compute in (mon_start (a + 1)) in
        change (mon_start (a + 1)) with v end;
      match goal with |- context [mon_start ?a] => let v := eval vm_compute in (mon_start a) in
        change (mon_start a) with v end; cbn [Z.eqb Pos.eqb]; split_and!; try done; lia.
Qed.

Lemma i32_id x : - 2 ^ 31 <= x < 2 ^ 31 -> i32 x = x.
Proof. intros. unfold i32. rewrite Z.mod_small; lia. Qed.

Lemma mar_start_range y doy : 0 <= y < 400 -> 0 <= doy < mar_len y ->
  0 <= mar_start y /\ mar_start y + doy < 146097.
Proof.
  intros Hy Hd. pose proof (range_forall (fun y => (0 <=? mar_start y) && (mar_start y + mar_len y <=? 146097))
    400 y ltac:(vm_compute; reflexivity) Hy) as H. cbv beta in H. bool_hyps. lia.
Qed.

Lemma mon_len_le mp : mon_start (mp + 1) <= mon_start mp + 31.
Proof. unfold mon_start. Z.to_euclidean_division_equations. lia. Qed.

(** What [civil_fields] returns for the day [d] of the month [mp] of the
    March-based year [y] of the era. *)
Lemma civil_fields_eq era y mp d :
  0 <= y < 400 -> 0 <= mp < 12 ->
  mon_start mp <= mon_start mp + d - 1 < (if mp =? 11 then mar_len y else mon_start (mp + 1)) ->
  - 2 ^ 31 <= era * 400 + y < 2 ^ 31 ->
  civil_fields (era * DAYS_PER_CYCLE + mar_start y + mon_start mp + d - 1 - EPOCH_DAYS)
  = (era * 400 + y + (if month_of mp <=? 2 then 1 else 0), month_of mp, d).
Proof.
  intros Hy Hmp Hd Hok. set (doy := mon_start mp + d - 1) in *.
  assert (Hlen : 365 <= mar_len y <= 366) by (unfold mar_len; destruct (is_leap _); lia).
  assert (Hdoy : 0 <= doy < mar_len y).
  { pose proof (mon_start_mono 0 mp ltac:(lia)). change (mon_start 0) with 0 in *. split; [lia|].
    destruct (Z.eqb_spec mp 11); [lia|]. pose proof (mon_start_mono (mp + 1) 11 ltac:(lia)).
    change (mon_start 11) with 337 in *. lia. }
  destruct (mar_start_range y doy Hy Hdoy) as [Hs Hlt].
  unfold civil_fields. cbv zeta. rewrite floor_quot by (unfold DAYS_PER_CYCLE; lia).
  replace (era * DAYS_PER_CYCLE + mar_start y + mon_start mp + d - 1 - EPOCH_DAYS + EPOCH_DAYS)
    with (era * DAYS_PER_CYCLE + (mar_start y + doy)) by lia.
  rewrite Z.div_add_l, (Z.div_small (mar_start y + doy)), Z.add_0_r by (unfold DAYS_PER_CYCLE; lia).
  rewrite Z.add_simpl_l.
  assert (Hyo : Z.quot (mar_start y + doy - Z.quot (mar_start y + doy) 1460 + Z.quot (mar_start y + doy) 36524
      - Z.quot (mar_start y + doy) 146096) 365 = y).
  { rewrite !(Z.quot_div_nonneg (mar_start y + doy)) by lia. rewrite Z.quot_div_nonneg; [by apply year_of_spec| |lia].
    pose proof (Z.div_le_upper_bound (mar_start y + doy) 1460 (mar_start y + doy) ltac:(lia) ltac:(lia)).
    pose proof (Z.div_le_mono (mar_start y + doy) (mar_start y + doy) 36524 ltac:(lia) ltac:(lia)).
    pose proof (Z.div_pos (mar_start y + doy) 36524 ltac:(lia) ltac:(lia)).
    pose proof (Z.div_le_compat_l (mar_start y + doy) 36524 146096 ltac:(lia) ltac:(lia)). lia. }
  rewrite Hyo, !(Z.quot_div_nonneg y) by lia. fold (mar_start y). rewrite Z.add_simpl_l.
  assert (Hm : (5 * doy + 2) / 153 = mp).
  { apply mon_of_unique; [done|]. destruct (Z.eqb_spec mp 11); lia. }
  rewrite (Z.quot_div_nonneg (5 * doy + 2)), Hm, (Z.quot_div_nonneg (153 * mp + 2)) by lia.
  fold (mon_start mp). fold (month_of mp).
  replace (doy - mon_start mp + 1) with d by (subst doy; lia).
  assert (Bm : byte (month_of mp)) by (unfold byte, month_of; destruct (Z.ltb_spec mp 10); lia).
  assert (Bd : byte d).
  { unfold byte. pose proof (mon_len_le mp). destruct (Z.eqb_spec mp 11) as [->|]; [|lia].
    change (mon_start 11) with 337 in *. lia. }
  rewrite i32_id, (u8_id _ Bm), (u8_id _ Bd) by lia.
  destruct (Z.leb_spec (month_of mp) 2); do 2 f_equal; lia.
Qed.

(** ** Round trips *)

Lemma civil_of_days year month day : valid year month day -> year_ok year ->
  civil_fields (days_from_civil year month day) = (year, month, day).
Proof.
  intros Hv Hy. pose proof (proj1 Hv) as Hm. unfold year_ok in Hy.
  destruct (valid_day _ _ _ Hv) as (Hmp & Hd & Hmo). rewrite days_from_civil_eq by done.
  set (my := mar_year year month) in *. assert (Hmy : my = year - (if month <=? 2 then 1 else 0)) by done.
  pose proof (Z.div_mod my 400 ltac:(lia)). pose proof (Z.mod_pos_bound my 400 ltac:(lia)).
  unfold mar_day. rewrite civil_fields_eq; [|done|done|done|destruct (month <=? 2); lia].
  rewrite Hmo. do 2 f_equal. destruct (month <=? 2); lia.
Qed.

(** The day numbers whose years fit an [i32] with room to spare. *)
Definition days_ok (n : Z) : Prop := - 784351 * 10 ^ 6 <= n <= 784351 * 10 ^ 6.

Lemma month_of_mp mp : 0 <= mp < 12 -> 1 <= month_of mp <= 12 /\ mp_of (month_of mp) = mp /\
  (mp = 11 <-> month_of mp = 2).
Proof.
  intros Hmp. unfold month_of, mp_of. destruct (Z.ltb_spec mp 10); [rewrite (proj2 (Z.ltb_lt 2 (mp + 3))) by lia|
    rewrite (proj2 (Z.ltb_ge 2 (mp + -9))) by lia]; lia.
Qed.

Lemma month_days year mp y : 0 <= mp < 12 -> is_leap (y + 1) = is_leap year ->
  days_in_month year (month_of mp) = (if mp =? 11 then mar_len y else mon_start (mp + 1)) - mon_start mp.
Proof.
  intros Hmp Hl. destruct (Z.eqb_spec mp 11) as [->|Hne].
  - change (month_of 11) with 2. change (mon_start 11) with 337. unfold days_in_month, mar_len. rewrite Hl.
    by destruct (is_leap year).
  - assert (mp = 0 \/ mp = 1 \/ mp = 2 \/ mp = 3 \/ mp = 4 \/ mp = 5 \/ mp = 6 \/ mp = 7 \/ mp = 8
      \/ mp = 9 \/ mp = 10) as H by lia. repeat (destruct H as [->|H]; [done|]). by subst.
Qed.

Lemma nonfeb_days a b month : month <> 2 -> days_in_month a month = days_in_month b month.
Proof. intros H. unfold days_in_month. by repeat case_match. Qed.

(** Every day is the day of a valid date. *)
Lemma date_exists n : days_ok n -> exists year month day,
  valid year month day /\ year_ok year /\ days_from_civil year month day = n.
Proof.
  intros Hn. unfold days_ok in Hn. pose proof (Z.div_mod (n + EPOCH_DAYS) 146097 ltac:(lia)) as Hdm.
  pose proof (Z.mod_pos_bound (n + EPOCH_DAYS) 146097 ltac:(lia)) as Hr. unfold EPOCH_DAYS in *.
  set (era := (n + 719468) / 146097) in *. set (doe := (n + 719468) mod 146097) in *.
  destruct (year_exists doe Hr) as (y & Hy & Hdoy). set (doy := doe - mar_start y).
  assert (Hlen : 365 <= mar_len y <= 366) by (unfold mar_len; destruct (is_leap _); lia).
  destruct (mon_of_day doy ltac:(lia)) as [Hmp Hmd]. set (mp := (5 * doy + 2) / 153) in *.
  destruct (month_of_mp mp Hmp) as (Hmo & Hmpo & Hfeb).
  set (year := era * 400 + y + (if month_of mp <=? 2 then 1 else 0)).
  assert (Hmy : mar_year year (month_of mp) = era * 400 + y) by (unfold mar_year, year; lia).
  exists year, (month_of mp), (doy - mon_start mp + 1). split_and!.
  - split; [done|]. assert (Hd : days_in_month year (month_of mp)
      = (if mp =? 11 then mar_len y else mon_start (mp + 1)) - mon_start mp).
    { destruct (Z.eq_dec mp 11) as [E|E].
      - apply month_days; [done|]. rewrite <- (is_leap_cycle era). f_equal. unfold year.
        rewrite (proj1 Hfeb E). simpl. lia.
      - rewrite <- (month_days (y + 1) mp y Hmp eq_refl). apply nonfeb_days. by rewrite <- Hfeb. }
    rewrite Hd. destruct (Z.eqb_spec mp 11); lia.
  - unfold year_ok, year. destruct (month_of mp <=? 2); lia.
  - rewrite days_from_civil_eq, Hmy, Hmpo by done. unfold mar_day, EPOCH_DAYS, DAYS_PER_CYCLE.
    rewrite Z.div_add_l, (Z.div_small y) by lia. rewrite (Z.add_comm _ y), Z.mod_add, (Z.mod_small y) by lia. lia.
Qed.

(** ** Years *)

Definition jan1 (year : Z) : Z := days_from_civil year 1 1.

Lemma jan1_succ year : jan1 (year + 1) = jan1 year + (if is_leap year then 366 else 365).
Proof.
  unfold jan1. rewrite !days_from_civil_eq by lia. change (mar_year (year + 1) 1) with (year + 1 - 1).
  change (mar_year year 1) with (year - 1). pose proof (mar_day_succ (year - 1)) as H.
  rewrite Z.sub_add in H. replace (year + 1 - 1) with year by lia. lia.
Qed.

Lemma jan1_mono a b : a <= b -> jan1 a + 365 * (b - a) <= jan1 b.
Proof.
  intros Hab. pattern b. apply Zlt_lower_bound_ind with (z := a); [|done]. intros x IH Hx.
  destruct (Z.eq_dec x a) as [->|]; [lia|]. specialize (IH (x - 1) ltac:(lia)).
  pose proof (jan1_succ (x - 1)) as H. rewrite Z.sub_add in H. destruct (is_leap (x - 1)); lia.
Qed.

(** The days of the months before [month]. *)
Fixpoint days_before_n (year : Z) (n : nat) : Z :=
  match n with
  | O => 0
  | S n' => days_before_n year n' + days_in_month year (Z.of_nat n)
  end.
Definition days_before (year month : Z) : Z := days_before_n year (Z.to_nat (month - 1)).

Lemma month_start year month : 1 <= month <= 12 ->
  days_from_civil year month 1 = jan1 year + days_before year month.
Proof.
  intros Hm. unfold days_before.
  enough (forall n : nat, (n < 12)%nat -> days_from_civil year (Z.of_nat n + 1) 1 = jan1 year + days_before_n year n) as H.
  { rewrite <- H by lia. f_equal. lia. }
  induction n as [|n IH]; intros Hn; [change (jan1 year = jan1 year + 0); lia|]. cbn [days_before_n].
  rewrite Nat2Z.inj_succ. unfold Z.succ. rewrite month_step, IH by lia. lia.
Qed.

Lemma days_before_bound year month day : valid year month day ->
  0 <= days_before year month /\ days_before year month + day <= (if is_leap year then 366 else 365).
Proof.
  intros [Hm Hd]. pose proof (Z.leb_le day (days_in_month year month)) as _. revert Hd.
  apply (month_cases (fun m => 1 <= day <= days_in_month year m ->
    0 <= days_before year m /\ days_before year m + day <= (if is_leap year then 366 else 365))); [done|..];
    unfold days_before, days_in_month; simpl; destruct (is_leap year); lia.
Qed.

(** A date lies in its year. *)
Lemma date_in_year year month day : valid year month day ->
  jan1 year <= days_from_civil year month day < jan1 (year + 1) /\
  days_from_civil year month day = jan1 year + days_before year month + day - 1.
Proof.
  intros Hv. pose proof (proj1 Hv). pose proof (days_before_bound _ _ _ Hv). destruct Hv as [_ Hd].
  rewrite days_linear, month_start, jan1_succ by done. destruct (is_leap year); lia.
Qed.

(** No overflow on the dates of the [year_ok] years. *)
Lemma civil_from_days_date year month day : valid year month day -> year_ok year ->
  civil_from_days (days_from_civil year month day) = Some (year, month, day).
Proof.
  intros Hv Hy. unfold civil_from_days. rewrite civil_of_days by done. unfold year_ok in Hy.
  assert (Hb : - 2 ^ 40 <= days_from_civil year month day <= 2 ^ 40).
  { pose proof (jan1_mono (- 2 ^ 31) year ltac:(lia)). pose proof (jan1_mono year (2 ^ 31) ltac:(lia)).
    assert (jan1 (- 2 ^ 31) = -784353015833) as E1 by (vm_compute; reflexivity).
    assert (jan1 (2 ^ 31) = 784351576777) as E2 by (vm_compute; reflexivity).
    destruct (date_in_year _ _ _ Hv). pose proof (jan1_mono (year + 1) (2 ^ 31) ltac:(lia)). lia. }
  unfold EPOCH_DAYS. rewrite i64_checked_ok by lia. cbn [mbind option_bind]. by rewrite i32_checked_ok by lia.
Qed.

Lemma civil_from_days_some n : days_ok n -> exists y m d, civil_from_days n = Some (y, m, d) /\
  valid y m d /\ year_ok y /\ days_from_civil y m d = n.
Proof.
  intros Hn. destruct (date_exists n Hn) as (y & m & d & Hv & Hy & <-). exists y, m, d.
  by rewrite civil_from_days_date.
Qed.

(** The instants at which every modelled time zone query answers: those of the
    years an [i32] holds, but for the last few thousand at either end; a
    [DateTime] holds far fewer. *)
Definition instant_ok (t : Z) : Prop := - 67767 * 10 ^ 12 <= t <= 67767 * 10 ^ 12.

Lemma instant_year t o : instant_ok t -> - 10 ^ 6 <= o <= 10 ^ 6 ->
  i64_checked (t + o) = Some (t + o) /\ exists y m d, civil_from_days ((t + o) / SECS_PER_DAY) = Some (y, m, d).
Proof.
  unfold instant_ok, SECS_PER_DAY. intros Ht Ho. split; [apply i64_checked_ok; lia|].
  destruct (civil_from_days_some ((t + o) / 86400)) as (y & m & d & Hc & _); [|by exists y, m, d].
  unfold days_ok. pose proof (Z.div_mod (t + o) 86400 ltac:(lia)). pose proof (Z.mod_pos_bound (t + o) 86400 ltac:(lia)). lia.
Qed.

Lemma ordinal_eq year month day : valid year month day ->
  ordinal year month day = days_before year month + day /\
  1 <= ordinal year month day <= (if is_leap year then 366 else 365) /\
  ordinal year month day = days_from_civil year month day - jan1 year + 1.
Proof.
  intros Hv. destruct (date_in_year _ _ _ Hv) as [_ He]. pose proof (days_before_bound _ _ _ Hv).
  destruct Hv as [_ Hd]. unfold ordinal. fold (jan1 year). rewrite He. unfold u16.
  rewrite Z.mod_small by (destruct (is_leap year); lia). destruct (is_leap year); lia.
Qed.

(** ** Weeks *)

Lemma weekday_eq n : weekday_from_days n = (n + 3) mod 7.
Proof.
  unfold weekday_from_days. pose proof (Z.mod_pos_bound (n + 3) 7 ltac:(lia)).
  apply u8_id. unfold byte. lia.
Qed.

(** The number of weeks of a year: those whose Thursday it contains. *)
Lemma weeks_eq year : exists j : Z, jan1 year + 3 = 7 * j + weekday_from_days (jan1 year) /\
  0 <= weekday_from_days (jan1 year) < 7 /\
  iso_weeks_in_year year = (if (weekday_from_days (jan1 year) =? 3) ||
     (is_leap year && (weekday_from_days (jan1 year) =? 2)) then 53 else 52).
Proof.
  exists ((jan1 year + 3) / 7). rewrite weekday_eq. pose proof (Z.mod_pos_bound (jan1 year + 3) 7 ltac:(lia)).
  split_and!; [apply Z.div_mod; lia|lia|lia|]. unfold iso_weeks_in_year. fold (jan1 year). by rewrite weekday_eq.
Qed.

(** The code's week number, before the correction at the ends of the year. *)
Lemma week_eq year month day : valid year month day ->
  let days := days_from_civil year month day in
  let thursday := days - weekday_from_days days + 3 in
  Z.quot (ordinal year month day - (weekday_from_days days + 1) + 10) 7 = (thursday - jan1 year) / 7 + 1.
Proof.
  intros Hv. cbv zeta. destruct (ordinal_eq _ _ _ Hv) as (_ & Hr & ->).
  destruct (ordinal_eq _ _ _ Hv) as (_ & _ & He). rewrite weekday_eq.
  set (n := days_from_civil year month day) in *. pose proof (Z.mod_pos_bound (n + 3) 7 ltac:(lia)).
  rewrite Z.quot_div_nonneg by (destruct (is_leap year); lia).
  rewrite <- Z.div_add by lia. f_equal. lia.
Qed.

(** The ISO week of a date is the week of its Thursday: [(T - jan1 Y) / 7 + 1]
    for the year [Y] that contains it. *)
Lemma iso_week_eq year month day : valid year month day ->
  let days := days_from_civil year month day in
  let thursday := days - weekday_from_days days + 3 in
  let '(y, w) := iso_week year month day in
  jan1 y <= thursday < jan1 (y + 1) /\ w = (thursday - jan1 y) / 7 + 1.
Proof.
  intros Hv. pose proof (week_eq _ _ _ Hv) as Hw. destruct (date_in_year _ _ _ Hv) as [Hin _].
  cbv zeta in *. unfold iso_week. cbv zeta. rewrite Hw. clear Hw Hv.
  set (n := days_from_civil year month day) in *. rewrite weekday_eq in *.
  pose proof (Z.div_mod (n + 3) 7 ltac:(lia)) as Hn. pose proof (Z.mod_pos_bound (n + 3) 7 ltac:(lia)) as Hn2.
  set (a := (n + 3) / 7) in *. replace (n - (n + 3) mod 7 + 3) with (7 * a) in * by lia.
  pose proof (Z.div_mod (7 * a - jan1 year) 7 ltac:(lia)) as Hq.
  pose proof (Z.mod_pos_bound (7 * a - jan1 year) 7 ltac:(lia)) as Hq2.
  set (q := (7 * a - jan1 year) / 7) in *.
  destruct (Z.ltb_spec (q + 1) 1) as [Hlo|Hlo]; [|destruct (Z.ltb_spec (iso_weeks_in_year year) (q + 1)) as [Hhi|Hhi]].
  - rewrite Z.sub_add. pose proof (jan1_succ (year - 1)) as Hs. rewrite Z.sub_add in Hs.
    destruct (weeks_eq (year - 1)) as (j & Hj & Hw & ->).
    set (w := weekday_from_days (jan1 (year - 1))) in *.
    split; [destruct (is_leap (year - 1)); lia|].
    symmetry. rewrite <- (Z.div_unique_pos (7 * a - jan1 (year - 1)) 7
      ((if (w =? 3) || (is_leap (year - 1) && (w =? 2)) then 53 else 52) - 1)
      (7 * a - jan1 (year - 1) - 7 * ((if (w =? 3) || (is_leap (year - 1) && (w =? 2)) then 53 else 52) - 1)));
      [lia| |lia].
    destruct (is_leap (year - 1)), (Z.eqb_spec w 3), (Z.eqb_spec w 2); cbn [orb andb]; lia.
  - pose proof (jan1_succ year) as Hs. pose proof (jan1_succ (year + 1)) as Hs2.
    destruct (weeks_eq year) as (j & Hj & Hw & He). rewrite He in Hhi.
    set (w := weekday_from_days (jan1 year)) in *.
    assert (jan1 (year + 1) <= 7 * a < jan1 (year + 1) + 4).
    { destruct (is_leap year), (Z.eqb_spec w 3), (Z.eqb_spec w 2); cbn [orb andb] in Hhi; lia. }
    split; [destruct (is_leap (year + 1)); lia|]. rewrite Z.div_small; lia.
  - pose proof (jan1_succ year) as Hs. destruct (weeks_eq year) as (j & Hj & Hw & He). rewrite He in Hhi.
    set (w := weekday_from_days (jan1 year)) in *.
    split; [destruct (is_leap year), (Z.eqb_spec w 3), (Z.eqb_spec w 2); cbn [orb andb] in Hhi; lia|].
    apply u8_id. unfold byte. destruct ((w =? 3) || (is_leap year && (w =? 2))); lia.
Qed.

(** ** The theorems *)

(** C37: the two date conversions are inverse to each other, on every valid
    date of a year strictly inside the [i32] range and on every day number up to
    [784351 * 10^6] either way (the days of those years but for the last):
    [civil_from_days] does not overflow, a valid date comes back from its day
    number, and a day number comes back from its date, which is valid.  Outside
    this range the narrowing of the year to [i32] loses information. *)
Theorem civil_round_trip year month day n : valid year month day -> year_ok year -> days_ok n ->
  civil_from_days (days_from_civil year month day) = Some (year, month, day) /\
  (exists y m d, civil_from_days n = Some (y, m, d) /\ valid y m d /\ year_ok y /\ days_from_civil y m d = n).
Proof.
  intros Hv Hy Hn. split; [by apply civil_from_days_date|].
  destruct (civil_from_days_some n Hn) as (y & m & d & Hc & Hrest). by exists y, m, d.
Qed.

(** The day number is the Gregorian calendar's: day zero is 1970-01-01 and
    the day after any valid date, across month and year ends and leap days,
    has the next number and is valid. *)
Theorem calendar_successor year month day : valid year month day ->
  days_from_civil 1970 1 1 = 0 /\
  (let '(y, m, d) := next_day (year, month, day) in
   valid y m d /\ days_from_civil y m d = days_from_civil year month day + 1).
Proof.
  intros [Hm Hd]. split; [done|]. unfold next_day.
  destruct (Z.ltb_spec day (days_in_month year month)).
  - split; [split; [done|lia]|]. rewrite (days_linear _ _ (day + 1)), (days_linear _ _ day) by done. lia.
  - replace day with (days_in_month year month) by lia.
    destruct (Z.ltb_spec month 12).
    + split; [split; [lia|]|].
      * assert (1 <= month + 1 <= 12) as Hm' by lia. revert Hm'.
        generalize (month + 1). intros m' Hm'. split; [lia|].
        apply (month_cases (fun m => 1 <= days_in_month year m)); [done|..]; simpl; try destruct (is_leap year); lia.
      * rewrite month_step, (days_linear year month (days_in_month _ _)) by lia. lia.
    + assert (month = 12) as -> by lia. split; [split; simpl; lia|].
      rewrite year_step, (days_linear year 12 (days_in_month _ _)) by lia. simpl. lia.
Qed.

(** The ordinal is the day of the year, the days of the earlier months
    plus the day, and the weekday advances by one each day from the Thursday of
    1970-01-01. *)
Theorem ordinal_and_weekday year month day n : valid year month day ->
  ordinal year month day = days_before year month + day /\
  1 <= ordinal year month day <= (if is_leap year then 366 else 365) /\
  weekday_from_days 0 = 3 /\ weekday_from_days (n + 1) = (weekday_from_days n + 1) mod 7.
Proof.
  intros Hv. destruct (ordinal_eq _ _ _ Hv) as (H1 & H2 & _). split_and!; [done|lia|lia|done|].
  rewrite !weekday_eq. rewrite Z.add_mod_idemp_l by lia. f_equal. lia.
Qed.

(** The ISO week date is the ISO 8601 one: the year is the year of the
    Thursday of the date's week, and the week number counts the Thursdays of
    that year up to it. *)
Theorem iso_week_of_thursday year month day : valid year month day -> year_ok year ->
  days_ok (days_from_civil year month day + 3) -> days_ok (days_from_civil year month day - 3) ->
  let days := days_from_civil year month day in
  let thursday := days - weekday_from_days days + 3 in
  weekday_from_days thursday = 3 /\
  let '(y, m, d) := civil_fields thursday in
  iso_week year month day = (y, (ordinal y m d - 1) / 7 + 1).
Proof.
  intros Hv Hy Hn1 Hn2. pose proof (iso_week_eq _ _ _ Hv) as H. cbv zeta in *.
  set (n := days_from_civil year month day) in *. rewrite (weekday_eq n) in *.
  pose proof (Z.mod_pos_bound (n + 3) 7 ltac:(lia)). set (t := n - (n + 3) mod 7 + 3) in *.
  split.
  - rewrite weekday_eq. symmetry. apply (Z.mod_unique_pos _ _ ((n + 3) / 7)); [lia|].
    pose proof (Z.div_mod (n + 3) 7 ltac:(lia)). lia.
  - assert (Ht : days_ok t) by (unfold days_ok in *; lia). clearbody t.
    destruct (date_exists t Ht) as (y & m & d & Hv' & Hy' & <-).
    rewrite civil_of_days by done. destruct (iso_week year month day) as [y' w]. destruct H as [Hb ->].
    destruct (date_in_year _ _ _ Hv') as [Hb' _]. destruct (ordinal_eq _ _ _ Hv') as (_ & _ & ->).
    assert (y' = y) as ->; [|f_equal; f_equal; f_equal; lia].
    destruct (Z.lt_trichotomy y' y) as [Hlt|[?|Hlt]]; [exfalso|done|exfalso].
    + pose proof (jan1_mono (y' + 1) y ltac:(lia)). lia.
    + pose proof (jan1_mono (y + 1) y' ltac:(lia)). lia.
Qed.

(** ** Concrete instances *)

Lemma civil_round_trip_witness :
  civil_from_days (days_from_civil 2024 2 29) = Some (2024, 2, 29) /\
  (exists y m d, civil_from_days (-1) = Some (y, m, d) /\ valid y m d /\ year_ok y /\ days_from_civil y m d = -1).
Proof.
  apply (civil_round_trip 2024 2 29 (-1));
    [unfold valid; vm_compute; intuition congruence|unfold year_ok; lia|unfold days_ok; lia].
Defined.

Lemma calendar_successor_witness : days_from_civil 2000 3 1 = days_from_civil 2000 2 29 + 1.
Proof. apply (calendar_successor 2000 2 29). unfold valid. vm_compute. intuition congruence. Defined.

Lemma ordinal_and_weekday_witness : ordinal 2024 12 31 = 366.
Proof. apply (ordinal_and_weekday 2024 12 31 0). unfold valid. vm_compute. intuition congruence. Defined.

Lemma iso_week_witness : iso_week 2021 1 3 = (2020, 53).
Proof.
  apply (iso_week_of_thursday 2021 1 3);
    [unfold valid; vm_compute; intuition congruence|unfold year_ok; lia|unfold days_ok; vm_compute; intuition congruence..].
Defined.

End Civil.
