(* ===== verification/Posix.v ===== *)
(** * time: POSIX [TZ] strings

    src/time/posix.rs: the transition rules of a time zone, their evaluation,
    and the parser of the [TZ] grammar.  A [&str] is the list of its bytes; the
    parser cuts it only next to ASCII characters, so every cut is at a character
    boundary.  The outcome [None] of a parsing function is the code's own
    [None]; evaluation may index out of range or overflow, which is the panic
    [None]. *)
From Stdlib Require Import ZArith Lia.
From stdpp Require Import base list numbers option.
From S2P Require Import Prelude Words Civil.
Import Civil.

Module Posix.

(** ** Local time and rules *)

Record ZoneInfo := mkInfo { offset : Z; is_dst : bool; abbrev : list Z }.

Inductive Rule :=
| JulianNoLeap (n : Z)
| Julian (n : Z)
| MonthWeekDay (month week day : Z).

Record DstRule := mkDst { dst_name : list Z; dst_east : Z; dst_start : Rule * Z; dst_end : Rule * Z }.

Record PosixTz := mkPosix { std_name : list Z; std_east : Z; dst : option DstRule }.

(** ** Evaluation *)

Definition daylight_rule_from_packed_day (day : Z) : Rule :=
  let tag := Z.shiftr day 14 in
  if tag =? 1 then Julian (Z.land day 0x3FFF)
  else if tag =? 2 then
    MonthWeekDay (u8 (Z.land (Z.shiftr day 10) 0xF)) (u8 (Z.land (Z.shiftr day 7) 0x7))
      (u8 (Z.land (Z.shiftr day 4) 0x7))
  else JulianNoLeap (Z.land day 0x3FFF).

Definition DAYS_BEFORE_MONTH : list Z := [0; 31; 59; 90; 120; 151; 181; 212; 243; 273; 304; 334].
Definition DAYS_PER_MONTH : list (list Z) :=
  [[31; 28; 31; 30; 31; 30; 31; 31; 30; 31; 30; 31];
   [31; 29; 31; 30; 31; 30; 31; 31; 30; 31; 30; 31]].

Definition rule_day_of_year (rule : Rule) (year jan1 : Z) : option Z :=
  match rule with
  | JulianNoLeap n =>
      let ordinal := n - 1 in
      Some (if is_leap year && (60 <=? n) then ordinal + 1 else ordinal)
  | Julian n => Some n
  | MonthWeekDay month week day =>
      _ ← rassert (1 <=? month);
      let month0 := Z.to_nat (month - 1) in
      let leap := is_leap year in
      before ← DAYS_BEFORE_MONTH !! month0;
      let first_doy := before + b2z (leap && (2 <? month)) in
      let first_weekday := (jan1 + first_doy + 3) mod 7 in
      let target := Z.rem (day + 6) 7 in
      let dom := 1 + (target - first_weekday) mod 7 + (week - 1) * 7 in
      row ← DAYS_PER_MONTH !! Z.to_nat (b2z leap);
      last ← row !! month0;
      let dom := if (week =? 5) && (last <? dom) then dom - 7 else dom in
      Some (first_doy + dom - 1)
  end.

(** The year is an [i32], so the sums stay far inside [i64]. *)
Definition transition_instant_fast (year jan1 : Z) (rule : Rule) (time offset_before : Z) : option Z :=
  doy ← rule_day_of_year rule year jan1;
  Some ((jan1 + doy) * SECS_PER_DAY + time - offset_before).

Definition evaluate_daylight (rule : DstRule) (standard_east : Z) (standard_name : list Z) (seconds : Z)
    : option ZoneInfo :=
  approx_local ← i64_checked (seconds + standard_east);
  let days := approx_local / SECS_PER_DAY in
  '(year, _, _) ← civil_from_days days;
  let jan1 := days_from_civil year 1 1 in
  start ← transition_instant_fast year jan1 (dst_start rule).1 (dst_start rule).2 standard_east;
  end_ ← transition_instant_fast year jan1 (dst_end rule).1 (dst_end rule).2 (dst_east rule);
  let in_dst := if start <=? end_ then (start <=? seconds) && (seconds <? end_)
                else (start <=? seconds) || (seconds <? end_) in
  Some (if in_dst then mkInfo (dst_east rule) true (dst_name rule)
        else mkInfo standard_east false standard_name).

Definition PosixTz_lookup (self : PosixTz) (secs : Z) : option ZoneInfo :=
  match dst self with
  | None => Some (mkInfo (std_east self) false (std_name self))
  | Some d =>
      evaluate_daylight (mkDst (dst_name d) (dst_east d) (dst_start d) (dst_end d))
        (std_east self) (std_name self) secs
  end.

(** ** Parsing *)

(** [bytes.iter().position(..).unwrap_or(bytes.len())]. *)
Definition end_of (p : Z -> bool) (s : list Z) : nat :=
  default (length s) (position (fun b => negb (p b)) s).

(** [str::parse::<i32>] on a non-empty run of digits. *)
Definition parse_i32 (s : list Z) : option Z :=
  let v := dec_value 0 s in if v <? 2 ^ 31 then Some v else None.

Definition parse_name (s : list Z) : option (list Z * list Z) :=
  match s with
  | [] => None
  | b :: _ =>
      if b =? 60 then
        end_ ← position (fun b => b =? 62) s;
        Some (drop 1 (take end_ s), drop (end_ + 1) s)
      else
        let end_ := end_of is_ascii_alphabetic s in
        if (end_ =? 0)%nat then None else Some (take end_ s, drop end_ s)
  end.

(** The two-digit field after a colon: its value and the rest. *)
Definition parse_two (s : list Z) : option (Z * list Z) :=
  let i := end_of is_ascii_digit s in
  if negb (i =? 2)%nat then None else
  v ← parse_i32 (take i s);
  if 59 <? v then None else Some (v, drop i s).

Definition parse_hms (s : list Z) : option (Z * list Z) :=
  let '(sign, s) :=
    match s with
    | b :: t => if b =? 43 then (1, t) else if b =? 45 then (-1, t) else (1, s)
    | [] => (1, s)
    end in
  let i := end_of is_ascii_digit s in
  if (i =? 0)%nat then None else
  hours ← parse_i32 (take i s);
  if 167 <? hours then None else
  let total := hours * 3600 in
  let s := drop i s in
  '(total, s) ←
    match strip_prefix 58 s with
    | None => Some (total, s)
    | Some s =>
        '(minutes, s) ← parse_two s;
        let total := total + minutes * 60 in
        match strip_prefix 58 s with
        | None => Some (total, s)
        | Some s => '(seconds, s) ← parse_two s; Some (total + seconds, s)
        end
    end;
  Some (sign * total, s).

Definition parse_digits (s : list Z) : option (Z * list Z) :=
  let end_ := end_of is_ascii_digit s in
  if (end_ =? 0)%nat then None else
  v ← parse_i32 (take end_ s); Some (v, drop end_ s).

(** The day of a rule, before the optional time. *)
Definition parse_day (s : list Z) : option (Rule * list Z) :=
  match s with
  | [] => None
  | b :: t =>
      if b =? 74 then
        '(n, rest) ← parse_digits t;
        if negb ((1 <=? n) && (n <=? 365)) then None else Some (JulianNoLeap (u16 n), rest)
      else if b =? 77 then
        '(month, rest) ← parse_digits t;
        rest ← strip_prefix 46 rest;
        '(week, rest) ← parse_digits rest;
        rest ← strip_prefix 46 rest;
        '(day, rest) ← parse_digits rest;
        if negb ((1 <=? month) && (month <=? 12)) || negb ((1 <=? week) && (week <=? 5)) || (6 <? day)
        then None else Some (MonthWeekDay (u8 month) (u8 week) (u8 day), rest)
      else
        '(n, rest) ← parse_digits s;
        if 365 <? n then None else Some (Julian (u16 n), rest)
  end.

Definition parse_rule (s : list Z) : option (Rule * Z * list Z) :=
  '(rule, rest) ← parse_day s;
  match strip_prefix 47 rest with
  | Some rest => '(time, rest) ← parse_hms rest; Some (rule, time, rest)
  | None => Some (rule, 2 * 3600, rest)
  end.

(** Is the first character of the rest one that can start a daylight name? *)
Definition starts_name (s : list Z) : bool :=
  match s with b :: _ => is_ascii_alphabetic b || (b =? 60) | [] => false end.
Definition starts_offset (s : list Z) : bool :=
  match s with b :: _ => is_ascii_digit b || (b =? 43) || (b =? 45) | [] => false end.

Definition PosixTz_parse (s : list Z) : option PosixTz :=
  '(std_name, rest) ← parse_name s;
  '(std_west, rest) ← parse_hms rest;
  let std_east := - std_west in
  if negb (starts_name rest) then Some (mkPosix std_name std_east None) else
  '(dst_name, rest) ← parse_name rest;
  '(dst_east, rest) ←
    (if starts_offset rest
     then '(dst_west, rest) ← parse_hms rest; Some (- dst_west, rest)
     else Some (std_east + 3600, rest));
  '(start, end_) ←
    match strip_prefix 44 rest with
    | Some rest =>
        '(start_rule, start_time, rest) ← parse_rule rest;
        rest ← strip_prefix 44 rest;
        '(end_rule, end_time, rest) ← parse_rule rest;
        if negb (length rest =? 0)%nat then None
        else Some ((start_rule, start_time), (end_rule, end_time))
    | None =>
        if (length rest =? 0)%nat
        then Some ((MonthWeekDay 3 2 0, 2 * 3600), (MonthWeekDay 11 1 0, 2 * 3600))
        else None
    end;
  Some (mkPosix std_name std_east (Some (mkDst dst_name dst_east start end_))).

(** The rule of New York, and the instant daylight saving ends in 2024. *)
Example new_york : exists p,
  PosixTz_parse [69; 83; 84; 53; 69; 68; 84; 44; 77; 51; 46; 50; 46; 48; 44; 77; 49; 49; 46; 49; 46; 48] = Some p /\
  PosixTz_lookup p 1730613599 = Some (mkInfo (-14400) true [69; 68; 84]) /\
  PosixTz_lookup p 1730613600 = Some (mkInfo (-18000) false [69; 83; 84]).
Proof. eexists. split; [vm_compute; reflexivity|]. split; vm_compute; reflexivity. Qed.

(** The instant plus the offset is an [i64] sum, which can overflow. *)
Example far_instant_overflows rule name : evaluate_daylight rule 3600 name (2 ^ 63 - 1) = None.
Proof. reflexivity. Qed.

(** ** Well-formed rules evaluate within reach *)

Definition wf_rule (r : Rule) : Prop :=
  match r with MonthWeekDay month _ _ => 1 <= month <= 12 | _ => True end.

Lemma rule_day_some r year jan1 : wf_rule r -> exists d, rule_day_of_year r year jan1 = Some d.
Proof.
  destruct r as [n|n|month week day]; simpl; [eauto|eauto|]. intros Hm.
  destruct (Z.leb_spec 1 month); [|lia]. simpl.
  assert (Hi : (Z.to_nat (month - 1) < 12)%nat) by lia.
  destruct (lookup_lt_is_Some_2 DAYS_BEFORE_MONTH (Z.to_nat (month - 1)) Hi) as [b ->]. simpl.
  destruct (is_leap year); simpl.
  - destruct (lookup_lt_is_Some_2 [31; 29; 31; 30; 31; 30; 31; 31; 30; 31; 30; 31] _ Hi) as [x ->]. simpl. eauto.
  - destruct (lookup_lt_is_Some_2 [31; 28; 31; 30; 31; 30; 31; 31; 30; 31; 30; 31] _ Hi) as [x ->]. simpl. eauto.
Qed.


(** A rule answers at every instant within reach, whose year an [i32] holds. *)
Lemma evaluate_some rule east name t : instant_ok t -> - 10 ^ 6 <= east <= 10 ^ 6 ->
  wf_rule (dst_start rule).1 -> wf_rule (dst_end rule).1 ->
  exists i, evaluate_daylight rule east name t = Some i /\ (offset i = east \/ offset i = dst_east rule).
Proof.
  intros Ht He H1 H2. unfold evaluate_daylight, transition_instant_fast.
  destruct (instant_year t east Ht He) as (-> & y & m & d & Hc). cbn [mbind option_bind]. rewrite Hc.
  cbn [mbind option_bind]. destruct (rule_day_some _ y (days_from_civil y 1 1) H1) as [d1 ->].
  destruct (rule_day_some _ y (days_from_civil y 1 1) H2) as [d2 ->].
  cbn [mbind option_bind]. eexists. split; [done|]. case_match; [by right|by left].
Qed.

Lemma evaluate_offset rule east name t i : evaluate_daylight rule east name t = Some i ->
  offset i = east \/ offset i = dst_east rule.
Proof.
  unfold evaluate_daylight. intros (l & _ & H)%bind_Some. apply bind_Some in H as ([[y m] d] & _ & H).
  apply bind_Some in H as (s & _ & H). apply bind_Some in H as (e & _ & [= <-]). case_match; [by right|by left].
Qed.

(** What the parser produces: rules in range, offsets and times within a week. *)
Definition week_time (t : Z) : Prop := - 604799 <= t <= 604799.

Definition parsed_rule (r : Rule) : Prop :=
  match r with
  | JulianNoLeap n => 1 <= n <= 365
  | Julian n => 0 <= n <= 365
  | MonthWeekDay month week day => 1 <= month <= 12 /\ 1 <= week <= 5 /\ 0 <= day <= 6
  end.

Definition wf_posix (p : PosixTz) : Prop :=
  week_time (std_east p) /\
  match dst p with
  | None => True
  | Some d => - 608399 <= dst_east d <= 608399 /\
      parsed_rule (dst_start d).1 /\ week_time (dst_start d).2 /\
      parsed_rule (dst_end d).1 /\ week_time (dst_end d).2
  end.

Lemma parsed_wf r : parsed_rule r -> wf_rule r.
Proof. destruct r; simpl; [done|done|tauto]. Qed.

Lemma end_of_forall p s : Forall (fun b => p b = true) (take (end_of p s) s).
Proof.
  unfold end_of. induction s as [|x s IH]; simpl; [constructor|]. destruct (p x) eqn:E; simpl; [|constructor].
  destruct (position _ s); simpl in *; by constructor.
Qed.

Lemma digits_nonneg s v : parse_i32 (take (end_of is_ascii_digit s) s) = Some v -> 0 <= v < 2 ^ 31.
Proof.
  unfold parse_i32. destruct (Z.ltb_spec (dec_value 0 (take (end_of is_ascii_digit s) s)) (2 ^ 31)); [|done].
  intros [= <-]. split; [|done]. apply dec_value_ge; [apply end_of_forall|lia].
Qed.

Lemma parse_digits_range s v rest : parse_digits s = Some (v, rest) -> 0 <= v < 2 ^ 31.
Proof.
  unfold parse_digits. case_match; [done|]. intros HH. apply bind_Some in HH as (v' & Hv & [= <- _]).
  by eapply digits_nonneg.
Qed.

Lemma parse_two_range s v rest : parse_two s = Some (v, rest) -> 0 <= v <= 59.
Proof.
  unfold parse_two. case_match; [done|]. intros HH. apply bind_Some in HH as (v' & Hv & HH).
  apply digits_nonneg in Hv. destruct (Z.ltb_spec 59 v'); [done|]. injection HH as -> _. lia.
Qed.

Lemma parse_hms_range s v rest : parse_hms s = Some (v, rest) -> week_time v.
Proof.
  unfold parse_hms. set (p := match s with [] => _ | _ => _ end). assert (Hp : p.1 = 1 \/ p.1 = -1).
  { unfold p. destruct s as [|b t]; [by left|]. destruct (b =? 43), (b =? 45); simpl; auto. }
  destruct p as [sign t]; cbn [fst] in Hp. case_match; [done|]. intros HH. apply bind_Some in HH as (h & Hh & HH).
  apply digits_nonneg in Hh. destruct (Z.ltb_spec 167 h); [done|]. apply bind_Some in HH as ([tot t'] & Ht & [= <- _]).
  enough (0 <= tot <= 604799) by (unfold week_time; destruct Hp as [-> | ->]; lia).
  destruct (strip_prefix 58 (drop _ t)) as [u|]; [|injection Ht as <- _; lia].
  apply bind_Some in Ht as ([m u'] & Hm & Ht). apply parse_two_range in Hm.
  destruct (strip_prefix 58 u') as [u''|]; [|injection Ht as <- _; lia].
  apply bind_Some in Ht as ([sec ?] & Hs & [= <- _]). apply parse_two_range in Hs. lia.
Qed.

Lemma u16_id x : 0 <= x < 2 ^ 16 -> u16 x = x.
Proof. apply Z.mod_small. Qed.

Lemma parse_day_range s r rest : parse_day s = Some (r, rest) -> parsed_rule r.
Proof.
  unfold parse_day. destruct s as [|b t]; [done|]. destruct (b =? 74); [|destruct (b =? 77)]; intros HH.
  - apply bind_Some in HH as ([n ?] & Hn & HH). case_match; [done|]. injection HH as <- _. bool_hyps. simpl.
    rewrite u16_id; lia.
  - apply bind_Some in HH as ([m ?] & Hm & HH). apply bind_Some in HH as (? & _ & HH).
    apply bind_Some in HH as ([w ?] & Hw & HH). apply bind_Some in HH as (? & _ & HH).
    apply bind_Some in HH as ([d ?] & Hd & HH). apply parse_digits_range in Hd. case_match; [done|].
    injection HH as <- _. bool_hyps. simpl. rewrite !u8_id by (unfold byte; lia). lia.
  - apply bind_Some in HH as ([n ?] & Hn & HH). apply parse_digits_range in Hn.
    destruct (Z.ltb_spec 365 n); [done|]. injection HH as <- _. simpl. rewrite u16_id; lia.
Qed.

Lemma parse_rule_range s r t rest : parse_rule s = Some (r, t, rest) -> parsed_rule r /\ week_time t.
Proof.
  unfold parse_rule. intros HH. apply bind_Some in HH as ([r' u] & Hr & HH). apply parse_day_range in Hr.
  destruct (strip_prefix 47 u) as [u'|].
  - apply bind_Some in HH as ([t' ?] & Ht & [= <- <- _]). split; [done|]. by eapply parse_hms_range.
  - injection HH as <- <- _. split; [done|]. unfold week_time. lia.
Qed.

Lemma PosixTz_parse_wf s p : PosixTz_parse s = Some p -> wf_posix p.
Proof.
  unfold PosixTz_parse. intros HH. apply bind_Some in HH as ([n r] & _ & HH).
  apply bind_Some in HH as ([w r1] & Hw & HH). apply parse_hms_range in Hw.
  assert (Hstd : week_time (- w)) by (unfold week_time in *; lia).
  case_match; [injection HH as <-; by split|]. apply bind_Some in HH as ([dn r2] & _ & HH).
  apply bind_Some in HH as ([de r3] & Hde & HH). apply bind_Some in HH as ([st en] & Hr & [= <-]).
  split; [done|]. simpl. unfold week_time in *. split.
  { destruct (starts_offset r2); [|injection Hde as <- _; lia]. apply bind_Some in Hde as ([dw ?] & Hdw & [= <- _]).
    apply parse_hms_range in Hdw. unfold week_time in Hdw. lia. }
  destruct (strip_prefix 44 r3) as [r4|].
  - apply bind_Some in Hr as ([[sr stime] r5] & Hs & Hr). apply bind_Some in Hr as (r6 & _ & Hr).
    apply bind_Some in Hr as ([[er etime] r7] & He & Hr). case_match; [done|]. injection Hr as <- <-.
    apply parse_rule_range in Hs as [??], He as [??]. unfold week_time in *. simpl. tauto.
  - case_match; [|done]. injection Hr as <- <-. simpl. lia.
Qed.

Lemma PosixTz_lookup_some p t : wf_posix p -> instant_ok t -> exists i, PosixTz_lookup p t = Some i /\ - 608399 <= offset i <= 608399.
Proof.
  intros [Hs Hd] Ht. unfold PosixTz_lookup, week_time in *. destruct (dst p) as [d|]; [|eexists; split; [done|simpl; lia]].
  destruct Hd as (He & H1 & _ & H2 & _).
  destruct (evaluate_some (mkDst (dst_name d) (dst_east d) (dst_start d) (dst_end d)) (std_east p) (std_name p) t) as (i & -> & Hi);
    [done|lia|by apply parsed_wf..|]. eexists. split; [done|]. simpl in Hi. lia.
Qed.

(** ** The days the rules name *)

Lemma month_tables year m : 1 <= m <= 12 -> exists b row,
  DAYS_BEFORE_MONTH !! Z.to_nat (m - 1) = Some b /\
  DAYS_PER_MONTH !! Z.to_nat (b2z (is_leap year)) = Some row /\
  row !! Z.to_nat (m - 1) = Some (days_in_month year m) /\
  b + b2z (is_leap year && (2 <? m)) = days_before year m.
Proof.
  intros Hm. unfold days_before, days_in_month.
  destruct (is_leap year) eqn:Hl; (pattern m; apply month_cases; [exact Hm|..]);
    do 2 eexists; (split; [reflexivity|]); (split; [reflexivity|]); (split; [reflexivity|]);
    lazy -[is_leap]; rewrite ?Hl; reflexivity.
Qed.

(** The day of the month of the [w]-th given weekday, the first of the month
    being the weekday [f]. *)
Lemma nth_weekday f t w n : 0 <= f < 7 -> 0 <= t < 7 -> 1 <= w <= 5 -> 28 <= n <= 31 ->
  let dom := 1 + (t - f) mod 7 + (w - 1) * 7 in
  let dom' := if (w =? 5) && (n <? dom) then dom - 7 else dom in
  1 <= dom' <= n /\ (f + dom' - 1) mod 7 = t /\ (if w =? 5 then n < dom' + 7 else (dom' - 1) / 7 + 1 = w).
Proof.
  intros Hf Ht Hw Hn. cbv zeta. pose proof (Z.mod_pos_bound (t - f) 7 ltac:(lia)).
  destruct (Z.eqb_spec w 5) as [->|]; cbn [andb]; [destruct (Z.ltb_spec n (1 + (t - f) mod 7 + (5 - 1) * 7))|]; split_and!; Z.to_euclidean_division_equations; lia.
Qed.

Lemma month_lengths year m : 1 <= m <= 12 -> 28 <= days_in_month year m <= 31.
Proof.
  intros Hm. apply (month_cases (fun m => 28 <= days_in_month year m <= 31)); [done|..];
    simpl; try destruct (is_leap year); lia.
Qed.

Lemma week_rule_day year m w d : 1 <= m <= 12 -> 1 <= w <= 5 -> 0 <= d <= 6 ->
  exists doy dom, rule_day_of_year (MonthWeekDay m w d) year (jan1 year) = Some doy /\
    valid year m dom /\ jan1 year + doy = days_from_civil year m dom /\
    weekday_from_days (jan1 year + doy) = (d + 6) mod 7 /\
    (if w =? 5 then days_in_month year m < dom + 7 else (dom - 1) / 7 + 1 = w).
Proof.
  intros Hm Hw Hd. destruct (month_tables year m Hm) as (b & row & Hb & Hrow & Hlast & Hsum).
  simpl rule_day_of_year. destruct (Z.leb_spec 1 m); [|lia]. cbn [rassert mbind option_bind].
  rewrite Hb. cbn [mbind option_bind]. rewrite Hrow. cbn [mbind option_bind]. rewrite Hlast. cbn [mbind option_bind].
  rewrite Hsum. rewrite Z.rem_mod_nonneg by lia.
  pose proof (nth_weekday ((jan1 year + days_before year m + 3) mod 7) ((d + 6) mod 7) w (days_in_month year m)) as Hn.
  set (dom := if _ && _ then _ else _) in *. cbv zeta in Hn. fold dom in Hn.
  destruct Hn as (H1 & H2 & H3); [apply Z.mod_pos_bound; lia|apply Z.mod_pos_bound; lia|done|by apply month_lengths|].
  assert (Hv : valid year m dom) by (split; [done|lia]).
  assert (Hday : jan1 year + (days_before year m + dom - 1) = days_from_civil year m dom).
  { rewrite days_linear, month_start by done. lia. }
  exists (days_before year m + dom - 1), dom. split_and!; [done|done..| |done].
  rewrite weekday_eq, <- H2. clear. generalize (jan1 year) (days_before year m) dom. intros. Z.to_euclidean_division_equations. lia.
Qed.

(** Compute the month tables at a constant month. *)
Ltac months :=
  repeat match goal with
  | |- context [Z.to_nat ?e] => let v := eval vm_compute in (Z.to_nat e) in change (Z.to_nat e) with v
  end;
  cbv [days_before_n days_in_month Z.of_nat Pos.of_succ_nat Pos.succ Z.eqb Pos.eqb orb];
  change (is_leap 2001) with false.

Lemma julian_rule_day year m d n : valid 2001 m d -> ordinal 2001 m d = n ->
  exists doy, rule_day_of_year (JulianNoLeap n) year (jan1 year) = Some doy /\
    jan1 year + doy = days_from_civil year m d.
Proof.
  intros Hv Hn. destruct (ordinal_eq 2001 m d Hv) as (Ho & _ & _). rewrite Hn in Ho. subst n.
  eexists. split; [reflexivity|]. destruct Hv as [Hm Hd]. rewrite days_linear, month_start by done.
  rewrite Ho. unfold days_before.
  destruct (Z.leb_spec 60 (days_before_n 2001 (Z.to_nat (m - 1)) + d)) as [Hc|Hc]; clear Ho; revert d Hd Hc;
    pattern m; (apply month_cases; [exact Hm|..]); intros d; months; destruct (is_leap year); simpl; lia.
Qed.

(** ** The property *)

(** The rules of a [TZ] string name the days POSIX says.  In any year,
    [Mm.w.d] is the [w]-th weekday [d] of month [m], and the last one for
    [w = 5]; [Jn] is the [n]-th day of a year without leap day; [n] counts from
    zero with it.  A parsed string always has rules in these ranges, so asking
    it for the local time at an instant within reach never panics. *)
Theorem posix_rules_correct year m w d n j mj dj s p t :
  1 <= m <= 12 -> 1 <= w <= 5 -> 0 <= d <= 6 ->
  valid 2001 mj dj -> ordinal 2001 mj dj = j -> PosixTz_parse s = Some p -> instant_ok t ->
  (exists doy dom, rule_day_of_year (MonthWeekDay m w d) year (jan1 year) = Some doy /\
     valid year m dom /\ jan1 year + doy = days_from_civil year m dom /\
     weekday_from_days (jan1 year + doy) = (d + 6) mod 7 /\
     (if w =? 5 then days_in_month year m < dom + 7 else (dom - 1) / 7 + 1 = w)) /\
  (exists doy, rule_day_of_year (JulianNoLeap j) year (jan1 year) = Some doy /\
     jan1 year + doy = days_from_civil year mj dj) /\
  rule_day_of_year (Julian n) year (jan1 year) = Some n /\
  wf_posix p /\ (exists info, PosixTz_lookup p t = Some info).
Proof.
  intros Hm Hw Hd Hv Hj Hp Ht. pose proof (PosixTz_parse_wf _ _ Hp) as Hwf.
  split; [by apply week_rule_day|]. split; [by apply julian_rule_day|]. split; [done|]. split; [done|].
  destruct (PosixTz_lookup_some p t Hwf Ht) as (i & ? & _). eauto.
Qed.

Definition EST5EDT : list Z := [69; 83; 84; 53; 69; 68; 84].

Lemma posix_rules_witness :
  exists doy dom, rule_day_of_year (MonthWeekDay 3 2 0) 2024 (jan1 2024) = Some doy /\
     valid 2024 3 dom /\ jan1 2024 + doy = days_from_civil 2024 3 dom /\
     weekday_from_days (jan1 2024 + doy) = (0 + 6) mod 7 /\
     (if 2 =? 5 then days_in_month 2024 3 < dom + 7 else (dom - 1) / 7 + 1 = 2).
Proof.
  assert (Hp : exists p, PosixTz_parse EST5EDT = Some p) by (eexists; vm_compute; reflexivity).
  destruct Hp as [p Hp].
  refine (proj1 (posix_rules_correct 2024 3 2 0 0 60 3 1 EST5EDT p 0 _ _ _ _ _ Hp _)); [lia|lia|lia| |reflexivity|unfold instant_ok; lia].
  split; vm_compute; split; congruence.
Defined.

End Posix.
