(* ===== verification/Tzif.v ===== *)
(** * time: the TZif reader

    src/time/tzif.rs.  A slice is the list of its bytes, a [usize] is a [Z] with
    the 64-bit bound of the checked operations written out.  A function that
    returns [Option] and cannot panic has the same type here; where a panic is
    possible (slicing, the search loop, subtraction of instants) the outer
    [option] is the panic and the inner one the code's own [Option]. *)
From Stdlib Require Import ZArith Lia.
From stdpp Require Import base list numbers option.
From S2P Require Import Prelude Words Utf8 Civil Posix.
Import Civil Utf8 Posix.

Module Tzif.

(** The [?] operator on an [Option] inside a computation that may panic. *)
Notation "'try' x := m 'in' k" := (match m with Some x => k | None => Some None end)
  (at level 10, x pattern, m at level 100, k at level 200).

(** [checked_add], [checked_mul] on [usize]. *)
Definition usize (x : Z) : option Z := if x <? 2 ^ 64 then Some x else None.

(** [data.get(lo..hi)], [data.get(lo..)] and [data[lo..hi]]. *)
Definition get_range (data : list Z) (lo hi : Z) : option (list Z) :=
  if (lo <=? hi) && (hi <=? Z.of_nat (length data))
  then Some (take (Z.to_nat (hi - lo)) (drop (Z.to_nat lo) data)) else None.
Definition get_from (data : list Z) (lo : Z) : option (list Z) := get_range data lo (Z.of_nat (length data)).
Definition get (data : list Z) (i : Z) : option Z :=
  if i <? Z.of_nat (length data) then data !! Z.to_nat i else None.

(** [crate::timezone::OFFSET_LIMIT]. *)
Definition OFFSET_LIMIT : Z := 93599.

(** ** Data *)

Record Header := mkHeader {
  leapcnt : Z; timecnt : Z; typecnt : Z; charcnt : Z; isstdcnt : Z; isutcnt : Z;
}.

Definition block_len (self : Header) (time_size : Z) : option Z :=
  a ← usize (timecnt self * time_size);
  a ← usize (a + timecnt self);
  b ← usize (typecnt self * 6);
  a ← usize (a + b);
  a ← usize (a + charcnt self);
  c ← usize (time_size + 4);
  c ← usize (leapcnt self * c);
  a ← usize (a + c);
  a ← usize (a + isstdcnt self);
  usize (a + isutcnt self).

Record Tzif := mkTzif {
  time_size : Z;
  tz_timecnt : Z;
  tz_typecnt : Z;
  transitions : list Z;
  transition_types : list Z;
  types : list Z;
  designations : list Z;
  footer : list Z;
}.

(** ** Reading *)

Definition be_u32 (data : list Z) (offset : Z) : option Z :=
  hi ← usize (offset + 4);
  bytes ← get_range data offset hi;
  Some (from_be bytes).

Definition be_i32 (data : list Z) (offset : Z) : option Z := i32 <$> be_u32 data offset.

Definition be_i64 (data : list Z) (offset : Z) : option Z :=
  hi ← usize (offset + 8);
  bytes ← get_range data offset hi;
  Some (i64 (from_be bytes)).

Definition read_header (data : list Z) (offset : Z) : option Header :=
  o20 ← usize (offset + 20); isutcnt ← be_u32 data o20;
  o24 ← usize (offset + 24); isstdcnt ← be_u32 data o24;
  o28 ← usize (offset + 28); leapcnt ← be_u32 data o28;
  o32 ← usize (offset + 32); timecnt ← be_u32 data o32;
  o36 ← usize (offset + 36); typecnt ← be_u32 data o36;
  o40 ← usize (offset + 40); charcnt ← be_u32 data o40;
  Some (mkHeader leapcnt timecnt typecnt charcnt isstdcnt isutcnt).

Definition TZIF_MAGIC : list Z := [84; 90; 105; 102].

(** The value of the transition at a byte offset. *)
Definition time_at (time_size : Z) (transitions : list Z) (offset : Z) : option Z :=
  if time_size =? 8 then be_i64 transitions offset else be_i32 transitions offset.

(** The three validation loops: [None] where the code returns [None]. *)
Fixpoint check_times (n : nat) (index previous time_size : Z) (transitions : list Z) : option unit :=
  match n with
  | O => Some tt
  | S n' =>
      offset ← usize (index * time_size);
      value ← time_at time_size transitions offset;
      if value <=? previous then None
      else check_times n' (index + 1) value time_size transitions
  end.

Definition check_type_indices (typecnt : Z) (transition_types : list Z) : option unit :=
  if forallb (fun type_index => type_index <? typecnt) transition_types then Some tt else None.

Fixpoint check_designations (n : nat) (index : Z) (types designations : list Z) : option unit :=
  match n with
  | O => Some tt
  | S n' =>
      base ← usize (index * 6);
      at_ ← usize (base + 5);
      designation ← get types at_;
      rest ← get_from designations designation;
      if existsb (fun b => b =? 0) rest then check_designations n' (index + 1) types designations else None
  end.

Definition parse_footer (data : list Z) (block_end version : Z) : option (list Z) :=
  if 50 <=? version then
    rest ← get_from data block_end;
    content ← strip_prefix 10 rest;
    end_ ← position (fun b => b =? 10) content;
    Some (take end_ content)
  else Some [].

(** The header to use: its offset, the size of a time, and the version. *)
Definition select_header (data : list Z) (version : Z) : option (option (Z * Z * Z)) :=
  if 50 <=? version then
    try first := read_header data 0 in
    try len := block_len first 4 in
    try first_end := usize (44 + len) in
    let header_offset := first_end in
    try limit := usize (header_offset + 44) in
    if Z.of_nat (length data) <? limit then Some None else
    magic ← get_range data header_offset (header_offset + 4);
    if negb (bool_decide (magic = TZIF_MAGIC)) then Some None else
    Some (Some (header_offset, 8, version))
  else Some (Some (0, 4, 49)).

Definition Tzif_parse (data : list Z) : option (option Tzif) :=
  if (length data <? 44)%nat then Some None else
  magic ← get_range data 0 4;
  if negb (bool_decide (magic = TZIF_MAGIC)) then Some None else
  version ← data !! 4%nat;
  selected ← select_header data version;
  try (header_offset, time_size, version) := selected in
  try header := read_header data header_offset in
  if (typecnt header =? 0) || (charcnt header =? 0) then Some None else
  try block_offset := usize (header_offset + 44) in
  try block_len := block_len header time_size in
  try block_end := usize (block_offset + block_len) in
  if Z.of_nat (length data) <? block_end then Some None else
  block ← get_range data block_offset block_end;
  let cursor := 0 in
  try times_len := usize (timecnt header * time_size) in
  try hi := usize (cursor + times_len) in
  try transitions := get_range block cursor hi in
  let cursor := cursor + times_len in
  try hi := usize (cursor + timecnt header) in
  try transition_types := get_range block cursor hi in
  let cursor := cursor + timecnt header in
  try types_len := usize (typecnt header * 6) in
  try hi := usize (cursor + types_len) in
  try types := get_range block cursor hi in
  let cursor := cursor + types_len in
  try hi := usize (cursor + charcnt header) in
  try designations := get_range block cursor hi in
  try _ := check_times (Z.to_nat (timecnt header)) 0 (- 2 ^ 63) time_size transitions in
  try _ := check_type_indices (typecnt header) transition_types in
  try _ := check_designations (Z.to_nat (typecnt header)) 0 types designations in
  try footer := parse_footer data block_end version in
  Some (Some (mkTzif time_size (timecnt header) (typecnt header) transitions transition_types
                types designations footer)).

(** ** Queries *)

Definition transition_at (self : Tzif) (index : Z) : Z :=
  let offset := index * time_size self in
  if time_size self =? 8 then default (- 2 ^ 63) (be_i64 (transitions self) offset)
  else default (- 2 ^ 31) (be_i32 (transitions self) offset).

Definition tzif_abbrev (self : Tzif) (index : Z) : option (list Z) :=
  bytes ← get_from (designations self) index;
  end_ ← position (fun b => b =? 0) bytes;
  Some (match from_utf8 (take end_ bytes) with Ok s => s | Err _ => [] end).

Definition info_for_type (self : Tzif) (index : Z) : option ZoneInfo :=
  if tz_typecnt self <=? index then None else
  base ← usize (index * 6);
  offset ← be_i32 (types self) base;
  o4 ← usize (base + 4);
  dst ← get (types self) o4;
  o5 ← usize (base + 5);
  designation ← get (types self) o5;
  abbrev ← tzif_abbrev self designation;
  Some (mkInfo offset (negb (dst =? 0)) abbrev).

(** The binary search of both queries: the last transition at or before [t]. *)
Definition search (self : Tzif) (t : Z) : option (Z * Z) :=
  while_loop (S (Z.to_nat (tz_timecnt self))) (fun '(low, high) => low + 1 <? high)
    (fun '(low, high) =>
       let mid := (low + high) / 2 in
       if transition_at self mid <=? t then Some (mid, high) else Some (low, mid))
    (0, tz_timecnt self).

(** [(self.transition_at(i) - local).abs()]. *)
Definition distance_to (self : Tzif) (local i : Z) : option Z :=
  d ← i64_checked (transition_at self i - local);
  i64_checked (Z.abs d).

Definition nearby_offsets (self : Tzif) (local : Z) : option (option (Z * Z)) :=
  if tz_timecnt self =? 0 then Some None else
  '(low, _) ← search self local;
  best_distance ← distance_to self local low;
  '(best, best_distance) ←
    (if low + 1 <? tz_timecnt self then
       distance ← distance_to self local (low + 1);
       Some (if distance <? best_distance then (low + 1, distance) else (low, best_distance))
     else Some (low, best_distance));
  if 2 * OFFSET_LIMIT <? best_distance then Some None else
  try ty := get (transition_types self) best in
  try after := info_for_type self ty in
  try before :=
    (if best =? 0 then info_for_type self 0
     else ty ← get (transition_types self) (best - 1); info_for_type self ty) in
  Some (Some (offset before, offset after)).

Definition Tzif_lookup (self : Tzif) (secs : Z) : option (option ZoneInfo) :=
  try footer_dst :=
    (if (length (footer self) =? 0)%nat then Some None
     else match from_utf8 (footer self) with Ok s => Some (PosixTz_parse s) | Err _ => None end) in
  if tz_timecnt self =? 0 then
    match footer_dst with
    | Some dst => info ← PosixTz_lookup dst secs; Some (Some info)
    | None => Some (info_for_type self 0)
    end
  else if secs <? transition_at self 0 then Some (info_for_type self 0) else
  '(low, _) ← search self secs;
  match (if low =? tz_timecnt self - 1 then footer_dst else None) with
  | Some dst => info ← PosixTz_lookup dst secs; Some (Some info)
  | None =>
      try type_index := get (transition_types self) low in
      Some (info_for_type self type_index)
  end.

(** ** Bounds of the reading functions *)

Lemma usize_some x y : usize x = Some y -> y = x /\ x < 2 ^ 64.
Proof. unfold usize. destruct (Z.ltb_spec x (2 ^ 64)); [|done]. by intros [= ->]. Qed.

Lemma usize_ok x : x < 2 ^ 64 -> usize x = Some x.
Proof. intros. unfold usize. by destruct (Z.ltb_spec x (2 ^ 64)); [|lia]. Qed.

Lemma get_range_some data lo hi r : get_range data lo hi = Some r ->
  lo <= hi <= Z.of_nat (length data) /\ r = take (Z.to_nat (hi - lo)) (drop (Z.to_nat lo) data).
Proof. unfold get_range. case_match; [|done]. bool_hyps. by intros [= <-]. Qed.

Lemma get_range_ok data lo hi : lo <= hi <= Z.of_nat (length data) ->
  get_range data lo hi = Some (take (Z.to_nat (hi - lo)) (drop (Z.to_nat lo) data)).
Proof.
  intros. unfold get_range.
  by destruct (Z.leb_spec lo hi), (Z.leb_spec hi (Z.of_nat (length data))); simpl; try lia.
Qed.

Lemma get_range_length data lo hi r : 0 <= lo -> get_range data lo hi = Some r -> Z.of_nat (length r) = hi - lo.
Proof. intros ? [Hb ->]%get_range_some. rewrite length_take, length_drop. lia. Qed.

Lemma get_range_bytes data lo hi r : bytes data -> get_range data lo hi = Some r -> bytes r.
Proof. intros Hd [_ ->]%get_range_some. by apply Forall_take, Forall_drop. Qed.

Lemma get_ok data i : 0 <= i < Z.of_nat (length data) -> exists b, get data i = Some b.
Proof.
  intros. unfold get. destruct (Z.ltb_spec i (Z.of_nat (length data))); [|lia].
  apply lookup_lt_is_Some_2. lia.
Qed.

Lemma get_lookup data i b : get data i = Some b -> data !! Z.to_nat i = Some b.
Proof. unfold get. by case_match. Qed.

Lemma be_u32_range data o v : bytes data -> 0 <= o -> be_u32 data o = Some v -> 0 <= v < 2 ^ 32.
Proof.
  intros Hd Ho H. unfold be_u32 in H. apply bind_Some in H as (hi & Hhi & H). apply usize_some in Hhi as [-> _].
  apply bind_Some in H as (r & Hr & [= <-]). pose proof (get_range_length _ _ _ _ Ho Hr).
  pose proof (get_range_bytes _ _ _ _ Hd Hr) as Hb.
  pose proof (from_le_bound (reverse r) (bytes_reverse _ Hb)) as Hv. unfold from_be.
  rewrite length_reverse in Hv. replace (Z.of_nat (length r)) with 4 in Hv by lia. lia.
Qed.

Lemma be_u32_ok data o : 0 <= o -> o + 4 <= Z.of_nat (length data) -> o + 4 < 2 ^ 64 ->
  exists v, be_u32 data o = Some v.
Proof.
  intros. unfold be_u32. rewrite usize_ok by done. cbn [mbind option_bind].
  rewrite get_range_ok by lia. by eexists.
Qed.

Lemma header_range data o h : bytes data -> 0 <= o -> read_header data o = Some h ->
  0 <= timecnt h < 2 ^ 32 /\ 0 <= typecnt h < 2 ^ 32 /\ 0 <= charcnt h < 2 ^ 32 /\
  0 <= leapcnt h /\ 0 <= isstdcnt h /\ 0 <= isutcnt h.
Proof.
  intros Hd Ho H. unfold read_header in H.
  repeat (apply bind_Some in H as (? & ?Hu & H); apply bind_Some in H as (? & ?Hb & H)).
  injection H as <-. repeat match goal with
  | Hu : usize _ = Some _ |- _ => apply usize_some in Hu as [-> _]
  | Hb : be_u32 data _ = Some _ |- _ => apply be_u32_range in Hb; [|done|lia]
  end. simpl. lia.
Qed.

Lemma block_len_spec h ts n : block_len h ts = Some n ->
  n = timecnt h * ts + timecnt h + typecnt h * 6 + charcnt h + leapcnt h * (ts + 4) + isstdcnt h + isutcnt h.
Proof.
  intros H. unfold block_len in H.
  repeat (apply bind_Some in H as (? & [-> _]%usize_some & H)). apply usize_some in H as [-> _]. lia.
Qed.

(** ** What [parse] establishes *)

Record wf_tzif (self : Tzif) : Prop := {
  wt_size : time_size self = 4 \/ time_size self = 8;
  wt_count : 0 <= tz_timecnt self < 2 ^ 32;
  wt_ttypes : Z.of_nat (length (transition_types self)) = tz_timecnt self;
  wt_indices : Forall (fun i => 0 <= i < tz_typecnt self) (transition_types self);
  wt_typecnt : 0 < tz_typecnt self < 2 ^ 32;
  wt_types : Z.of_nat (length (types self)) = tz_typecnt self * 6;
  wt_bytes : bytes (types self);
  wt_designations : forall i, 0 <= i < tz_typecnt self -> exists d rest,
    get (types self) (i * 6 + 5) = Some d /\ get_from (designations self) d = Some rest /\ 0 ∈ rest;
  wt_sorted : forall i j, 0 <= i < j -> j < tz_timecnt self -> transition_at self i < transition_at self j;
}.

Lemma check_times_spec n index previous ts tr : 0 <= index -> check_times n index previous ts tr = Some tt ->
  (forall k, index <= k < index + Z.of_nat n -> exists v, time_at ts tr (k * ts) = Some v /\ previous < v) /\
  (forall j k v w, index <= j < k -> k < index + Z.of_nat n ->
     time_at ts tr (j * ts) = Some v -> time_at ts tr (k * ts) = Some w -> v < w).
Proof.
  revert index previous. induction n as [|n IH]; intros index previous Hi H; [split; intros; lia|].
  cbn [check_times] in H. apply bind_Some in H as (? & [-> _]%usize_some & H).
  apply bind_Some in H as (v & Hv & H). destruct (Z.leb_spec v previous); [done|].
  apply IH in H as [H1 H2]; [|lia]. split.
  - intros k Hk. destruct (Z.eq_dec k index) as [->|]; [by exists v|].
    destruct (H1 k ltac:(lia)) as (w & Hw & ?). exists w. split; [done|lia].
  - intros j k x w Hj Hk Hx Hw. destruct (Z.eq_dec j index) as [->|]; [|by eapply (H2 j k); try lia].
    rewrite Hv in Hx. injection Hx as <-. destruct (H1 k ltac:(lia)) as (w' & Hw' & ?). congruence.
Qed.

Lemma check_designations_spec n index ty des : 0 <= index -> check_designations n index ty des = Some tt ->
  forall i, index <= i < index + Z.of_nat n -> exists d rest,
    get ty (i * 6 + 5) = Some d /\ get_from des d = Some rest /\ 0 ∈ rest.
Proof.
  revert index. induction n as [|n IH]; intros index Hi H i Hin; [lia|].
  cbn [check_designations] in H. apply bind_Some in H as (? & [-> _]%usize_some & H).
  apply bind_Some in H as (? & [-> _]%usize_some & H). apply bind_Some in H as (d & Hd & H).
  apply bind_Some in H as (rest & Hr & H). destruct (existsb _ rest) eqn:E; [|done].
  destruct (Z.eq_dec i index) as [->|]; [|apply (IH (index + 1)); [lia|done|lia]].
  exists d, rest. split_and!; [done|done|]. apply existsb_exists in E as (x & Hx & He). bool_hyps. subst x.
  by apply list_elem_of_In.
Qed.

Lemma select_header_wp data version : bytes data -> Z.of_nat (length data) < 2 ^ 63 ->
  wp (select_header data version) (fun r => match r with
    | Some (o, ts, _) => 0 <= o /\ (ts = 4 \/ ts = 8)
    | None => True end).
Proof.
  intros Hd Hlen. unfold select_header. destruct (50 <=? version); [|simpl; lia].
  destruct (read_header data 0) as [h|] eqn:Hh; [|done]. destruct (block_len h 4) as [n|] eqn:Hn; [|done].
  apply header_range in Hh; [|done|lia]. apply block_len_spec in Hn.
  destruct (usize (44 + n)) as [e|] eqn:He; [|done]. apply usize_some in He as [-> _].
  destruct (usize (44 + n + 44)) as [l|] eqn:Hl; [|done]. apply usize_some in Hl as [-> _].
  destruct (Z.ltb_spec (Z.of_nat (length data)) (44 + n + 44)); [done|].
  rewrite get_range_ok by lia. cbn [mbind option_bind]. case_bool_decide; simpl; [lia|done].
Qed.

(** A time in range is what the query reads. *)
Lemma time_at_transition self k v :
  time_at (time_size self) (transitions self) (k * time_size self) = Some v -> transition_at self k = v.
Proof. unfold time_at, transition_at. by destruct (time_size self =? 8); intros ->. Qed.

Lemma Tzif_parse_wp data : bytes data -> Z.of_nat (length data) < 2 ^ 63 ->
  wp (Tzif_parse data) (fun r => match r with Some self => wf_tzif self | None => True end).
Proof.
  intros Hd Hlen. unfold Tzif_parse. destruct (Nat.ltb_spec (length data) 44); [done|].
  rewrite get_range_ok by lia. cbn [mbind option_bind]. case_bool_decide; [|done]. cbn [negb].
  destruct (lookup_lt_is_Some_2 data 4) as [version ->]; [lia|]. cbn [mbind option_bind].
  apply wp_bind. eapply wp_mono; [by apply select_header_wp|]. intros [[[o ts] ver]|] Hsel; [|done]. destruct Hsel as [Ho Hts].
  destruct (read_header data o) as [h|] eqn:Hh; [|done]. apply header_range in Hh as (Hn & Ht & Hc & Hrest); [|done..].
  destruct (Z.eqb_spec (typecnt h) 0), (Z.eqb_spec (charcnt h) 0); try done. cbn [orb].
  destruct (usize (o + 44)) as [bo|] eqn:Hbo; [|done]. apply usize_some in Hbo as [-> _].
  destruct (block_len h ts) as [bl|] eqn:Hbl; [|done]. apply block_len_spec in Hbl.
  destruct (usize (o + 44 + bl)) as [be|] eqn:Hbe; [|done]. apply usize_some in Hbe as [-> _].
  destruct (Z.ltb_spec (Z.of_nat (length data)) (o + 44 + bl)); [done|].
  assert (Hbl0 : 0 <= bl) by (destruct Hts as [-> | ->]; lia).
  destruct (get_range data (o + 44) (o + 44 + bl)) as [block|] eqn:Hblock; [|rewrite get_range_ok in Hblock by lia; done].
  cbn [mbind option_bind]. pose proof (get_range_bytes _ _ _ _ Hd Hblock) as Hbb.
  repeat (lazymatch goal with
  | |- wp (match ?m with Some _ => _ | None => _ end) _ => destruct m eqn:?E; [|done]
  end).
  repeat match goal with H : usize _ = Some _ |- _ => apply usize_some in H as [-> _] end.
  repeat match goal with u : () |- _ => destruct u end.
  match goal with E : check_times _ _ _ _ _ = _ |- _ => apply check_times_spec in E as [Hex Hinc]; [|lia] end.
  match goal with E : check_designations _ _ _ _ = _ |- _ =>
    pose proof (check_designations_spec _ 0 _ _ ltac:(lia) E) as Hdes; clear E end.
  match goal with E : check_type_indices _ ?l = _ |- _ =>
    unfold check_type_indices in E; destruct (forallb _ l) eqn:Hall; [|done]; clear E end.
  rewrite Z2Nat.id in * by lia. cbn [wp].
  repeat match goal with H : get_range block _ _ = Some ?r |- _ =>
    pose proof (get_range_bytes _ _ _ _ Hbb H); apply get_range_length in H; [|lia] end.
  split; cbn [time_size tz_timecnt tz_typecnt transitions transition_types types designations]; try done; try lia.
  - apply Forall_lookup. intros k x Hx. rewrite forallb_forall in Hall.
    specialize (Hall x (proj1 (list_elem_of_In _ _) (list_elem_of_lookup_2 _ _ _ Hx))). bool_hyps.
    match goal with Hb : bytes ?l, Hx : ?l !! _ = _ |- _ => pose proof (bytes_lookup _ _ _ Hb Hx) as Hx0 end.
    unfold byte in Hx0. lia.
  - intros i j Hij Hj. cbn [tz_timecnt] in Hj.
    destruct (Hex i ltac:(lia)) as (v & Hv & _), (Hex j ltac:(lia)) as (w & Hw & _).
    erewrite !time_at_transition by (cbn [time_size transitions]; eassumption).
    eapply (Hinc i j v w); done || lia.
Qed.

(** ** The queries *)

Lemma position_elem x l : x ∈ l -> exists i, position (fun b => b =? x) l = Some i.
Proof.
  induction l as [|y l IH]; intros Hx; [by apply elem_of_nil in Hx|]. simpl.
  destruct (Z.eqb_spec y x); [eauto|]. apply elem_of_cons in Hx as [->|Hx]; [done|].
  destruct (IH Hx) as [i ->]. simpl. eauto.
Qed.

(** Run the option monad as far as it goes. *)
Ltac run := cbn [mbind option_bind fmap option_fmap option_map].

(** Every type of a parsed image can be read. *)
Lemma info_some self i : wf_tzif self -> 0 <= i < tz_typecnt self ->
  exists info, info_for_type self i = Some info.
Proof.
  intros Hwf Hi. pose proof (wt_typecnt _ Hwf). pose proof (wt_types _ Hwf) as Hty. unfold info_for_type.
  destruct (Z.leb_spec (tz_typecnt self) i); [lia|]. rewrite usize_ok by lia. run.
  unfold be_i32. destruct (be_u32_ok (types self) (i * 6)) as [o ->]; [lia..|]. run.
  rewrite (usize_ok (i * 6 + 4)) by lia. run. destruct (get_ok (types self) (i * 6 + 4)) as [b ->]; [lia|]. run.
  rewrite usize_ok by lia. run. destruct (wt_designations _ Hwf i Hi) as (d & rest & -> & Hr & Hz). run.
  unfold tzif_abbrev. rewrite Hr. run. destruct (position_elem 0 rest Hz) as [k ->]. simpl. eauto.
Qed.

Lemma type_at_some self i : wf_tzif self -> 0 <= i < tz_timecnt self ->
  exists ty info, get (transition_types self) i = Some ty /\ info_for_type self ty = Some info.
Proof.
  intros Hwf Hi. pose proof (wt_ttypes _ Hwf). destruct (get_ok (transition_types self) i) as [ty Hty]; [lia|].
  pose proof (Forall_lookup_1 _ _ _ _ (wt_indices _ Hwf) (get_lookup _ _ _ Hty)) as Hr.
  destruct (info_some self ty Hwf Hr) as [info ?]. eauto.
Qed.

(** The search ends at the last transition at or before [t], or at the first. *)
Lemma search_wp self t : wf_tzif self -> 0 < tz_timecnt self ->
  wp (search self t) (fun '(low, _) => 0 <= low < tz_timecnt self /\
    (low = 0 \/ transition_at self low <= t) /\
    (low + 1 = tz_timecnt self \/ t < transition_at self (low + 1))).
Proof.
  intros Hwf Hn. unfold search.
  apply (wp_while (fun '(low, high) => 0 <= low < high /\ high <= tz_timecnt self /\
      (low = 0 \/ transition_at self low <= t) /\ (high = tz_timecnt self \/ t < transition_at self high))
    (fun '(low, high) => Z.to_nat (high - low))); [split_and!; lia|lia| |].
  - intros [low high] (H1 & H2 & H3 & H4) Hc. bool_hyps.
    assert (low < (low + high) / 2 < high) by (Z.to_euclidean_division_equations; lia).
    destruct (Z.leb_spec (transition_at self ((low + high) / 2)) t); cbn [wp]; split; try lia; split_and!; lia.
  - intros [low high] (H1 & H2 & H3 & H4) Hc. bool_hyps. replace (low + 1) with high by lia.
    split_and!; [lia|lia|done|done].
Qed.

(** The rule that governs after the last transition, if the footer has one. *)
Definition footer_rule (self : Tzif) : option PosixTz :=
  if (length (footer self) =? 0)%nat then None else PosixTz_parse (footer self).

(** The type of local time the table gives at [t]. *)
Inductive table_type (self : Tzif) (t : Z) : Z -> Prop :=
| before_first : 0 < tz_timecnt self -> t < transition_at self 0 -> table_type self t 0
| no_transition : tz_timecnt self = 0 -> footer_rule self = None -> table_type self t 0
| between i ty : 0 <= i < tz_timecnt self - 1 ->
    transition_at self i <= t < transition_at self (i + 1) ->
    get (transition_types self) i = Some ty -> table_type self t ty
| after_last ty : 0 < tz_timecnt self -> transition_at self (tz_timecnt self - 1) <= t ->
    footer_rule self = None ->
    get (transition_types self) (tz_timecnt self - 1) = Some ty -> table_type self t ty.

Definition text_footer (self : Tzif) : Prop := footer self = [] \/ valid (footer self).

Lemma footer_dst_eq self : text_footer self ->
  (if (length (footer self) =? 0)%nat then Some None
   else match from_utf8 (footer self) with Ok s => Some (PosixTz_parse s) | Err _ => None end)
  = Some (footer_rule self).
Proof.
  unfold footer_rule. intros [-> | Hv]; [done|]. destruct (length (footer self) =? 0)%nat; [done|].
  unfold valid in Hv. by rewrite Hv.
Qed.

Lemma lookup_wp self t : wf_tzif self -> text_footer self -> instant_ok t ->
  wp (Tzif_lookup self t) (fun r => exists info, r = Some info /\
    ((exists ty, table_type self t ty /\ info_for_type self ty = Some info) \/
     (exists p, footer_rule self = Some p /\ PosixTz_lookup p t = Some info /\
        (tz_timecnt self = 0 \/ transition_at self (tz_timecnt self - 1) <= t)))).
Proof.
  intros Hwf Hf Ht. unfold Tzif_lookup. rewrite (footer_dst_eq self Hf). pose proof (wt_count _ Hwf). pose proof (wt_typecnt _ Hwf).
  assert (Hrule : forall p, footer_rule self = Some p -> exists info, PosixTz_lookup p t = Some info).
  { intros p Hp. unfold footer_rule in Hp. destruct (length _ =? 0)%nat; [done|].
    destruct (PosixTz_lookup_some p t (PosixTz_parse_wf _ _ Hp) Ht) as (i & ? & _). eauto. }
  assert (Hz : exists info, info_for_type self 0 = Some info) by (apply info_some; [done|lia]).
  destruct Hz as [info0 Hz]. destruct (Z.eqb_spec (tz_timecnt self) 0).
  { destruct (footer_rule self) as [p|] eqn:Hp.
    - destruct (Hrule p eq_refl) as [info Hi]. rewrite Hi. simpl. exists info. split; [done|]. right. eauto.
    - rewrite Hz. simpl. exists info0. split; [done|]. left. exists 0. split; [by apply no_transition|done]. }
  destruct (Z.ltb_spec t (transition_at self 0)).
  { rewrite Hz. simpl. exists info0. split; [done|]. left. exists 0. split; [apply before_first; [lia|done]|done]. }
  apply wp_bind. eapply wp_mono; [apply search_wp; [done|lia]|]. intros [low high] (Hl & Hlow & Hhigh).
  assert (Hle : transition_at self low <= t) by (destruct Hlow as [-> |]; done).
  destruct (type_at_some self low Hwf Hl) as (ty & info & Hty & Hinfo).
  destruct (Z.eqb_spec low (tz_timecnt self - 1)) as [Hlast|Hlast].
  - subst low. destruct (footer_rule self) as [p|] eqn:Hp.
    + destruct (Hrule p eq_refl) as [i Hi]. rewrite Hi. simpl. exists i. split; [done|]. right. eauto.
    + rewrite Hty, Hinfo. simpl. exists info. split; [done|]. left. exists ty. split; [apply after_last; (done || lia)|done].
  - rewrite Hty, Hinfo. simpl. exists info. split; [done|]. left. exists ty. split; [|done].
    apply (between self t low); [lia|lia|done].
Qed.

(** ** The nearest transition *)

Definition quarter (x : Z) : Prop := - 2 ^ 62 < x < 2 ^ 62.

Lemma distance_eq self local i : quarter local -> quarter (transition_at self i) ->
  distance_to self local i = Some (Z.abs (transition_at self i - local)).
Proof.
  unfold quarter, distance_to, i64_checked. intros. set (d := transition_at self i - local).
  destruct (Z.leb_spec (- 2 ^ 63) d), (Z.ltb_spec d (2 ^ 63)); try lia. cbn [andb mbind option_bind].
  destruct (Z.leb_spec (- 2 ^ 63) (Z.abs d)), (Z.ltb_spec (Z.abs d) (2 ^ 63)); try lia. done.
Qed.

(** The offsets on the two sides of transition [i]. *)
Definition sides (self : Tzif) (i : Z) (b a : Z) : Prop := exists tb ta,
  (if i =? 0 then info_for_type self 0 else ty ← get (transition_types self) (i - 1); info_for_type self ty) = Some tb /\
  (ty ← get (transition_types self) i; info_for_type self ty) = Some ta /\ b = offset tb /\ a = offset ta.

Lemma sorted_le self i j : wf_tzif self -> 0 <= i <= j -> j < tz_timecnt self ->
  transition_at self i <= transition_at self j.
Proof.
  intros Hwf Hij Hj. destruct (Z.eq_dec i j) as [->|]; [lia|].
  pose proof (wt_sorted _ Hwf i j ltac:(lia) Hj). lia.
Qed.

Lemma nearby_wp self local : wf_tzif self -> quarter local ->
  (forall i, 0 <= i < tz_timecnt self -> quarter (transition_at self i)) ->
  wp (nearby_offsets self local) (fun r => match r with
    | None => forall i, 0 <= i < tz_timecnt self -> 2 * OFFSET_LIMIT < Z.abs (transition_at self i - local)
    | Some (b, a) => exists i, 0 <= i < tz_timecnt self /\ sides self i b a /\
        (forall j, 0 <= j < tz_timecnt self -> Z.abs (transition_at self i - local) <= Z.abs (transition_at self j - local)) /\
        Z.abs (transition_at self i - local) <= 2 * OFFSET_LIMIT end).
Proof.
  intros Hwf Hl Hq. unfold nearby_offsets. pose proof (wt_count _ Hwf).
  destruct (Z.eqb_spec (tz_timecnt self) 0); [simpl; lia|].
  apply wp_bind. eapply wp_mono; [apply search_wp; [done|lia]|]. intros [low high] (Hlow & Hle & Hgt).
  rewrite (distance_eq _ _ low) by (done || apply Hq; lia). run.
  assert (Hnear : forall j, 0 <= j < tz_timecnt self ->
    Z.abs (transition_at self low - local) <= Z.abs (transition_at self j - local) \/
    (low + 1 < tz_timecnt self /\ Z.abs (transition_at self (low + 1) - local) <= Z.abs (transition_at self j - local))).
  { intros j Hj. destruct (Z.le_gt_cases j low).
    - left. pose proof (sorted_le self j low Hwf ltac:(lia) ltac:(lia)). destruct Hle as [-> |]; [|lia].
      replace j with 0 by lia. lia.
    - right. split; [lia|]. pose proof (sorted_le self (low + 1) j Hwf ltac:(lia) ltac:(lia)). lia. }
  apply wp_bind, (wp_mono _ (fun '(best, d) => 0 <= best < tz_timecnt self /\ d = Z.abs (transition_at self best - local) /\
    forall j, 0 <= j < tz_timecnt self -> d <= Z.abs (transition_at self j - local))).
  { destruct (Z.ltb_spec (low + 1) (tz_timecnt self)).
    - rewrite distance_eq by (done || apply Hq; lia). run. case_match; bool_hyps; (split_and!; [lia|lia|done|]);
        intros j Hj; destruct (Hnear j Hj) as [|[_ ?]]; lia.
    - simpl. split_and!; [lia|lia|done|]. intros j Hj. destruct (Hnear j Hj) as [|[? _]]; lia. }
  intros [best d] (Hb & -> & Hmin). destruct (Z.ltb_spec (2 * OFFSET_LIMIT) (Z.abs (transition_at self best - local))).
  { simpl. intros i Hi. pose proof (Hmin i Hi). lia. }
  destruct (type_at_some self best Hwf Hb) as (ta & ia & Hta & Hia). rewrite Hta, Hia.
  assert (Hbefore : exists ib, (if best =? 0 then info_for_type self 0
    else ty ← get (transition_types self) (best - 1); info_for_type self ty) = Some ib).
  { destruct (Z.eqb_spec best 0); [apply info_some; [done|pose proof (wt_typecnt _ Hwf); lia]|].
    destruct (type_at_some self (best - 1) Hwf ltac:(lia)) as (tb & ib & -> & Hib). exists ib. done. }
  destruct Hbefore as [ib Hib]. rewrite Hib. simpl. exists best. split_and!; [lia|lia| |done|lia].
  exists ib, ia. split_and!; [done| |done|done]. by rewrite Hta.
Qed.

(** ** The properties *)

(** C34: reading a time zone image never panics, whatever the bytes: [parse]
    returns, and an image it accepts is well formed (strictly increasing
    transitions, every index in range).  An accepted image whose footer is text
    answers [lookup] at every instant up to [67767 * 10^12] seconds from the
    epoch, which is two thousand million years and contains every instant of a
    [DateTime].  (The sum of the instant and the standard offset is an [i64], so
    an instant at the end of that type would overflow under a daylight rule.) *)
Theorem tzif_parse_safe data : bytes data -> Z.of_nat (length data) < 2 ^ 63 ->
  wp (Tzif_parse data) (fun r => match r with
    | Some self => wf_tzif self /\
        (text_footer self -> forall t, instant_ok t -> exists info, Tzif_lookup self t = Some (Some info))
    | None => True end).
Proof.
  intros Hd Hlen. eapply wp_mono; [by apply Tzif_parse_wp|]. intros [self|] Hwf; [|done]. split; [done|].
  intros Hf t Ht. pose proof (wp_elim _ _ (lookup_wp self t Hwf Hf Ht)) as (r & Hr & info & -> & _). eauto.
Qed.

(** C35: the queries of a well-formed image whose footer is text are right.  At
    an instant up to [67767 * 10^12] seconds from the epoch, [lookup] gives the local
    time of the last transition at or before the instant, of the first type
    before the first transition, and of the footer's rule, if there is one,
    from the last transition on.  When the wall-clock time and all transitions
    are within [2^62] seconds of the epoch, so that their distances do not
    overflow, the neighbouring offsets are those around the transition nearest
    to the wall-clock time, and missing exactly when every transition is further
    away than two offset limits. *)
Theorem tzif_queries_correct self t : wf_tzif self -> text_footer self ->
  (instant_ok t ->
   wp (Tzif_lookup self t) (fun r => exists info, r = Some info /\
    ((exists ty, table_type self t ty /\ info_for_type self ty = Some info) \/
     (exists p, footer_rule self = Some p /\ PosixTz_lookup p t = Some info /\
        (tz_timecnt self = 0 \/ transition_at self (tz_timecnt self - 1) <= t))))) /\
  (quarter t -> (forall i, 0 <= i < tz_timecnt self -> quarter (transition_at self i)) ->
   wp (nearby_offsets self t) (fun r => match r with
    | None => forall i, 0 <= i < tz_timecnt self -> 2 * OFFSET_LIMIT < Z.abs (transition_at self i - t)
    | Some (b, a) => exists i, 0 <= i < tz_timecnt self /\ sides self i b a /\
        (forall j, 0 <= j < tz_timecnt self -> Z.abs (transition_at self i - t) <= Z.abs (transition_at self j - t)) /\
        Z.abs (transition_at self i - t) <= 2 * OFFSET_LIMIT end)).
Proof. intros Hwf Hf. split; [by apply lookup_wp|by apply nearby_wp]. Qed.

(** Eastern time with the transitions of 2024, and the same image with a footer
    that is not text. *)
Definition eastern : list Z := [
    84; 90; 105; 102; 50; 0; 0; 0; 0; 0; 0; 0; 0; 0; 0; 0; 0; 0; 0; 0; 0; 0; 0; 0; 0; 0; 0; 0; 0; 0; 0;
    0; 0; 0; 0; 0; 0; 0; 0; 0; 0; 0; 0; 0; 84; 90; 105; 102; 50; 0; 0; 0; 0; 0; 0; 0; 0; 0; 0; 0; 0; 0;
    0; 0; 0; 0; 0; 0; 0; 0; 0; 0; 0; 0; 0; 0; 0; 0; 0; 2; 0; 0; 0; 2; 0; 0; 0; 8; 0; 0; 0; 0; 101; 237;
    90; 112; 0; 0; 0; 0; 103; 39; 17; 96; 1; 0; 255; 255; 185; 176; 0; 0; 255; 255; 199; 192; 1; 4; 69;
    83; 84; 0; 69; 68; 84; 0; 10; 69; 83; 84; 53; 69; 68; 84; 44; 77; 51; 46; 50; 46; 48; 44; 77; 49;
    49; 46; 49; 46; 48; 10 ].

Definition bad_footer : list Z := [
    84; 90; 105; 102; 50; 0; 0; 0; 0; 0; 0; 0; 0; 0; 0; 0; 0; 0; 0; 0; 0; 0; 0; 0; 0; 0; 0; 0; 0; 0; 0;
    0; 0; 0; 0; 0; 0; 0; 0; 0; 0; 0; 0; 0; 84; 90; 105; 102; 50; 0; 0; 0; 0; 0; 0; 0; 0; 0; 0; 0; 0; 0;
    0; 0; 0; 0; 0; 0; 0; 0; 0; 0; 0; 0; 0; 0; 0; 0; 0; 2; 0; 0; 0; 2; 0; 0; 0; 8; 0; 0; 0; 0; 101; 237;
    90; 112; 0; 0; 0; 0; 103; 39; 17; 96; 1; 0; 255; 255; 185; 176; 0; 0; 255; 255; 199; 192; 1; 4; 69;
    83; 84; 0; 69; 68; 84; 0; 10; 255; 10 ].

Definition far_past : list Z := [
    84; 90; 105; 102; 50; 0; 0; 0; 0; 0; 0; 0; 0; 0; 0; 0; 0; 0; 0; 0; 0; 0; 0; 0; 0; 0; 0; 0; 0; 0; 0;
    0; 0; 0; 0; 0; 0; 0; 0; 0; 0; 0; 0; 0; 84; 90; 105; 102; 50; 0; 0; 0; 0; 0; 0; 0; 0; 0; 0; 0; 0; 0;
    0; 0; 0; 0; 0; 0; 0; 0; 0; 0; 0; 0; 0; 0; 0; 0; 0; 2; 0; 0; 0; 2; 0; 0; 0; 8; 128; 0; 0; 0; 0; 0;
    0; 1; 0; 0; 0; 232; 212; 165; 16; 0; 1; 0; 255; 255; 185; 176; 0; 0; 255; 255; 199; 192; 1; 4; 69;
    83; 84; 0; 69; 68; 84; 0; 10; 10 ].

Definition eastern_image : Tzif := Eval vm_compute in
  match Tzif_parse eastern with Some (Some self) => self | _ => mkTzif 0 0 0 [] [] [] [] [] end.

Example eastern_lookup :
  Tzif_parse eastern = Some (Some eastern_image) /\
  Tzif_lookup eastern_image 1710053999 = Some (Some (mkInfo (-18000) false [69; 83; 84])) /\
  Tzif_lookup eastern_image 1710054000 = Some (Some (mkInfo (-14400) true [69; 68; 84])) /\
  Tzif_lookup eastern_image 1741503600 = Some (Some (mkInfo (-14400) true [69; 68; 84])) /\
  nearby_offsets eastern_image 1710054000 = Some (Some (-18000, -14400)).
Proof. split_and!; vm_compute; reflexivity. Qed.

(** An accepted image that cannot answer: the footer is not validated. *)
Example footer_not_validated : exists self, Tzif_parse bad_footer = Some (Some self) /\ Tzif_lookup self 0 = Some None.
Proof. eexists. split; [vm_compute; reflexivity|]. vm_compute. reflexivity. Qed.

(** At the end of [i64] the footer's rule overflows; no caller goes there. *)
Example far_lookup_overflows : Tzif_lookup eastern_image (- 2 ^ 63) = Some (info_for_type eastern_image 0) /\
  Tzif_lookup (mkTzif 8 0 2 [] [] (types eastern_image) (designations eastern_image)
    [85; 84; 67; 45; 49; 68; 83; 84]) (2 ^ 63 - 1) = None.
Proof. split; vm_compute; reflexivity. Qed.

(** An accepted image on which the distance to a transition overflows. *)
Example distance_overflows : exists self, Tzif_parse far_past = Some (Some self) /\ nearby_offsets self 2 = None.
Proof. eexists. split; [vm_compute; reflexivity|]. vm_compute. reflexivity. Qed.

Lemma eastern_bytes : bytes eastern.
Proof. repeat (constructor; [unfold byte; lia|]). constructor. Qed.

Lemma tzif_parse_witness : wf_tzif eastern_image /\
  (text_footer eastern_image -> forall t, instant_ok t -> exists info, Tzif_lookup eastern_image t = Some (Some info)).
Proof.
  pose proof (tzif_parse_safe eastern eastern_bytes) as Hp.
  change (Tzif_parse eastern) with (Some (Some eastern_image)) in Hp. apply Hp. reflexivity.
Defined.

Lemma tzif_queries_witness : exists info, Tzif_lookup eastern_image 1710054000 = Some (Some info).
Proof.
  assert (Hwf : wf_tzif eastern_image).
  { pose proof (Tzif_parse_wp eastern eastern_bytes) as Hp.
    change (Tzif_parse eastern) with (Some (Some eastern_image)) in Hp. apply Hp. reflexivity. }
  assert (Hf : text_footer eastern_image) by (right; vm_compute; reflexivity).
  assert (Ht : instant_ok 1710054000) by (unfold instant_ok; lia).
  destruct (wp_elim _ _ (proj1 (tzif_queries_correct eastern_image 1710054000 Hwf Hf) Ht)) as (r & Hr & info & -> & _).
  exists info. exact Hr.
Defined.

End Tzif.
