(* ===== verification/TimeZone.v ===== *)
(** * time: errors, time zones and their transitions

    src/time/error.rs, src/time/timezone.rs and the lookups of
    src/time/tzdb.rs, on top of the rules of [Posix] and the images of [Tzif].
    The generated data (the abbreviation table) is the class [TzData].  Sums and
    differences of instants are checked [i64] operations; their overflow, and
    indexing out of range, is the panic [None]. *)
From Stdlib Require Import ZArith Lia String.
From stdpp Require Import base list numbers option.
From S2P Require Import Prelude Words Civil Posix Tzif.
Import Civil Posix Tzif.

#[local] Close Scope string_scope.

Module TimeZone.

(** ** Errors *)

Inductive ErrorKind :=
| Parse | OutOfRange | Invalid | Ambiguous | UnknownTimeZone | OffsetConflict
| UnknownSystemTimeZone | BufferTooSmall.

Record Error := mkError { kind : ErrorKind; message : string }.

Definition parse (message : string) : Error := mkError Parse message.
Definition out_of_range (message : string) : Error := mkError OutOfRange message.
Definition invalid (message : string) : Error := mkError Invalid message.
Definition unknown_time_zone (message : string) : Error := mkError UnknownTimeZone message.
Definition offset_conflict (message : string) : Error := mkError OffsetConflict message.
Definition ambiguous (message : string) : Error := mkError Ambiguous message.
Definition buffer_too_small (message : string) : Error := mkError BufferTooSmall message.

(** ** Records of local time *)

(** One stretch of constant offset, its abbreviation by index. *)
Record Rec := mkRec { rec_offset : Z; rec_dst : bool; rec_abbrev : Z }.

(** The generated tables. *)
Class TzData := { ABBREVIATIONS : list (list Z) }.

Inductive Future :=
| FixedFuture (record : Rec)
| DaylightSaving (standard daylight : Rec) (start end_ : Z * Z).

Record ZoneData := mkZone {
  initial : Rec;
  starts : list Z;
  records : list Z;
  record_table : list Rec;
  future : Future;
}.

Inductive ZoneRules := Embedded (z : ZoneData) | Runtime (t : Tzif).
Record ZoneEntry := mkEntry { entry_name : list Z; rules : ZoneRules }.

(** ** The embedded database *)

Definition record_at (z : ZoneData) (index : nat) : option Rec :=
  i ← records z !! index;
  record_table z !! Z.to_nat i.

Section Lookup.
Context `{!TzData}.

Definition abbreviation (index : Z) : option (list Z) := ABBREVIATIONS !! Z.to_nat index.

Definition record_info (r : Rec) : ZoneInfo :=
  mkInfo (rec_offset r) (rec_dst r) (default [] (abbreviation (rec_abbrev r))).

Definition future_info (z : ZoneData) (seconds : Z) : option ZoneInfo :=
  match future z with
  | FixedFuture record => Some (record_info record)
  | DaylightSaving standard daylight start end_ =>
      evaluate_daylight
        (mkDst (default [] (abbreviation (rec_abbrev daylight))) (rec_offset daylight)
           (daylight_rule_from_packed_day start.1, start.2)
           (daylight_rule_from_packed_day end_.1, end_.2))
        (rec_offset standard) (default [] (abbreviation (rec_abbrev standard))) seconds
  end.

Definition ZoneData_lookup (z : ZoneData) (seconds : Z) : option ZoneInfo :=
  if (length (starts z) =? 0)%nat then future_info z seconds else
  let past := partition_point (fun start => start <=? seconds) (starts z) in
  if (past =? 0)%nat then Some (record_info (initial z)) else
  if (past =? length (starts z))%nat then future_info z seconds else
  r ← record_at z (past - 1); Some (record_info r).
End Lookup.

(** ** Time zones *)

Definition PROBE : Z := 2 * SECS_PER_DAY.

Inductive Disambiguation := Compatible | Earlier | Later | Reject.

Inductive Ambiguity :=
| Exact (offset : Z)
| Fold (earlier later : Z)
| Gap (before after : Z).

Inductive TimeZone := Utc | Fixed (offset : Z) | Named (entry : ZoneEntry).

Definition UTC : TimeZone := Utc.

Definition fixed (offset : Z) : result TimeZone Error :=
  if (offset <? - OFFSET_LIMIT) || (OFFSET_LIMIT <? offset)
  then Err (out_of_range "UTC offset is outside the supported range")
  else Ok (Fixed offset).

(** [consider] of [embedded_nearby]: the best index and distance so far. *)
Definition consider (starts : list Z) (local : Z) (best : nat * Z) (index : nat) : option (nat * Z) :=
  match starts !! index with
  | Some s =>
      difference ← i64_checked (s - local);
      distance ← i64_checked (Z.abs difference);
      Some (if distance <? best.2 then (index, distance) else best)
  | None => Some best
  end.

Definition embedded_nearby (z : ZoneData) (local : Z) : option (option (Z * Z)) :=
  if (length (starts z) =? 0)%nat then Some None else
  let past := partition_point (fun start => start <=? local) (starts z) in
  let best := (0%nat, 2 ^ 63 - 1) in
  best ← match past with O => Some best | S index => consider (starts z) local best index end;
  '(best_index, best_distance) ← consider (starts z) local best past;
  if 2 * OFFSET_LIMIT <? best_distance then Some None else
  after ← record_at z best_index;
  before ← (if (best_index =? 0)%nat then Some (initial z) else record_at z (best_index - 1));
  Some (Some (rec_offset before, rec_offset after)).

Section Zones.
Context `{!TzData}.

(** The outer [option] is the panic, the inner one the value returned. *)
Definition info_at (self : TimeZone) (secs : Z) : option (option ZoneInfo) :=
  match self with
  | Utc => Some (Some (mkInfo 0 false [85; 84; 67]))
  | Fixed o => Some (Some (mkInfo o false []))
  | Named entry =>
      match rules entry with
      | Embedded zone => info ← ZoneData_lookup zone secs; Some (Some info)
      | Runtime tzif => Tzif_lookup tzif secs
      end
  end.

Definition offset_at (self : TimeZone) (secs : Z) : option Z :=
  i ← info_at self secs;
  Some (match i with Some info => offset info | None => 0 end).

Definition is_dst_at (self : TimeZone) (secs : Z) : option bool :=
  i ← info_at self secs;
  Some (match i with Some info => is_dst info | None => false end).

Definition candidate_offsets (self : TimeZone) (local_secs : Z) : option (Z * Z) :=
  nearby ← match self with
           | Named entry =>
               match rules entry with
               | Embedded zone => embedded_nearby zone local_secs
               | Runtime tzif => nearby_offsets tzif local_secs
               end
           | _ => Some None
           end;
  match nearby with
  | Some p => Some p
  | None =>
      low ← i64_checked (local_secs - PROBE); a ← offset_at self low;
      high ← i64_checked (local_secs + PROBE); b ← offset_at self high;
      Some (a, b)
  end.

Definition resolve_with (self : TimeZone) (local_secs : Z) (disambiguation : Disambiguation)
    : option (result Z Error) :=
  match self with
  | Utc => Some (Ok local_secs)
  | Fixed o => instant ← i64_checked (local_secs - o); Some (Ok instant)
  | Named _ =>
      candidates ← candidate_offsets self local_secs;
      let '(offset_before, offset_after) := candidates in
      if offset_before =? offset_after then instant ← i64_checked (local_secs - offset_before); Some (Ok instant) else
      instant_before ← i64_checked (local_secs - offset_before);
      instant_after ← i64_checked (local_secs - offset_after);
      ob ← offset_at self instant_before;
      oa ← offset_at self instant_after;
      Some (match ob =? offset_before, oa =? offset_after with
      | true, true =>
          match disambiguation with
          | Later => Ok instant_after
          | Reject => Err (ambiguous "civil time occurs twice in this time zone")
          | _ => Ok instant_before
          end
      | true, false => Ok instant_before
      | false, true => Ok instant_after
      | false, false =>
          match disambiguation with
          | Reject => Err (ambiguous "civil time does not exist in this time zone")
          | _ => Ok instant_before
          end
      end)
  end.

Definition resolve_compatible (self : TimeZone) (local_secs : Z) : option Z :=
  r ← resolve_with self local_secs Compatible;
  Some (match r with Ok instant => instant | Err _ => local_secs end).

Definition classify (self : TimeZone) (local_secs : Z) : option Ambiguity :=
  match self with
  | Utc => Some (Exact 0)
  | Fixed o => Some (Exact o)
  | Named _ =>
      candidates ← candidate_offsets self local_secs;
      let '(offset_before, offset_after) := candidates in
      if offset_before =? offset_after then Some (Exact offset_before) else
      instant_before ← i64_checked (local_secs - offset_before);
      instant_after ← i64_checked (local_secs - offset_after);
      ob ← offset_at self instant_before;
      oa ← offset_at self instant_after;
      Some (match ob =? offset_before, oa =? offset_after with
      | true, true => Fold offset_before offset_after
      | true, false => Exact offset_before
      | false, true => Exact offset_after
      | false, false => Gap offset_before offset_after
      end)
  end.

Definition bounds_at (self : TimeZone) (secs : Z) : option (option Z * option Z) :=
  match self with
  | Named entry =>
      match rules entry with
      | Embedded zone =>
          let starts := starts zone in
          if (length starts =? 0)%nat then Some (None, None) else
          let past := partition_point (fun start => start <=? secs) starts in
          if (past =? 0)%nat then s ← starts !! 0%nat; Some (None, Some s) else
          if (past =? length starts)%nat then s ← starts !! (length starts - 1)%nat; Some (Some s, None) else
          a ← starts !! (past - 1)%nat; b ← starts !! past; Some (Some a, Some b)
      | Runtime _ => Some (None, None)
      end
  | _ => Some (None, None)
  end.
End Zones.

(** A zone that leaves offset 3600 for 7200 at instant 1000000 and returns at 5000000. *)
Definition sample : ZoneData :=
  mkZone (mkRec 3600 false 0) [1000000; 5000000] [0; 1] [mkRec 7200 true 0; mkRec 3600 false 0] (FixedFuture (mkRec 3600 false 0)).
#[local] Instance sample_data : TzData := {| ABBREVIATIONS := [] |}.
Definition sample_zone : TimeZone := Named (mkEntry [] (Embedded sample)).
Example sample_gap : classify sample_zone (1000000 + 3600 + 100) = Some (Gap 3600 7200).
Proof. reflexivity. Qed.
Example sample_fold : classify sample_zone (5000000 + 3600 + 100) = Some (Fold 7200 3600).
Proof. reflexivity. Qed.

(** ** Disambiguation follows the classification *)

Definition expected (local : Z) (a : Ambiguity) (d : Disambiguation) : result Z Error :=
  match a, d with
  | Exact o, _ => Ok (local - o)
  | Fold _ _, Reject => Err (ambiguous "civil time occurs twice in this time zone")
  | Fold _ l, Later => Ok (local - l)
  | Fold e _, _ => Ok (local - e)
  | Gap _ _, Reject => Err (ambiguous "civil time does not exist in this time zone")
  | Gap b _, _ => Ok (local - b)
  end.

(** ** Well-formed zones *)

Definition small (o : Z) : Prop := - OFFSET_LIMIT <= o <= OFFSET_LIMIT.

(** The wall-clock times all modelled zones resolve: the instants within reach,
    with room for an offset and for the probes. *)
Definition local_ok (local : Z) : Prop := - 67766 * 10 ^ 12 <= local <= 67766 * 10 ^ 12.

Lemma resolve_classify `{!TzData} entry local d b a : candidate_offsets (Named entry) local = Some (b, a) ->
  small b -> small a -> local_ok local ->
  resolve_with (Named entry) local d = m ← classify (Named entry) local; Some (expected local m d).
Proof.
  unfold small, OFFSET_LIMIT, local_ok. intros Hc Hb Ha Hl. unfold resolve_with, classify. rewrite Hc.
  cbn [mbind option_bind]. rewrite (i64_checked_ok (local - b)), (i64_checked_ok (local - a)) by lia.
  destruct (b =? a); [done|]. cbn [mbind option_bind].
  destruct (offset_at _ (local - b)) as [ob|]; simpl; [|done]. destruct (offset_at _ (local - a)) as [oa|]; simpl; [|done].
  destruct (ob =? b), (oa =? a); by destruct d.
Qed.

Definition wf_future (f : Future) : Prop :=
  match f with
  | FixedFuture r => small (rec_offset r)
  | DaylightSaving st dl start end_ => small (rec_offset st) /\ small (rec_offset dl) /\
      wf_rule (daylight_rule_from_packed_day start.1) /\ wf_rule (daylight_rule_from_packed_day end_.1)
  end.

Record wf_zone (z : ZoneData) : Prop := {
  wf_records : length (records z) = length (starts z);
  wf_indices : Forall (fun i => (Z.to_nat i < length (record_table z))%nat) (records z);
  wf_table : Forall (fun r => small (rec_offset r)) (record_table z);
  wf_initial : small (rec_offset (initial z));
  wf_fut : wf_future (future z);
  wf_starts : Forall quarter (starts z);
}.

(** Transitions in order and further apart than any two offsets can be. *)
Definition separated (z : ZoneData) : Prop :=
  forall i s s', starts z !! i = Some s -> starts z !! S i = Some s' -> s + 4 * OFFSET_LIMIT < s'.

(** The offset in effect before transition [k]. *)
Definition segment_offset (z : ZoneData) (k : nat) : Z :=
  match k with
  | O => rec_offset (initial z)
  | S i => match record_at z i with Some r => rec_offset r | None => 0 end
  end.

(** Where the explicit transitions decide: before the last of them, or
    anywhere when the future keeps the last offset. *)
Definition decided (z : ZoneData) (t : Z) : Prop :=
  (exists s, starts z !! (length (starts z) - 1)%nat = Some s /\ t < s) \/
  (exists r, future z = FixedFuture r /\ rec_offset r = segment_offset z (length (starts z))).

Definition pp (z : ZoneData) (t : Z) : nat := partition_point (fun start => start <=? t) (starts z).

Lemma separated_lt z i j s s' : separated z -> (i < j)%nat -> starts z !! i = Some s -> starts z !! j = Some s' ->
  s + 4 * OFFSET_LIMIT < s'.
Proof.
  intros Hsep Hij Hi. revert s'. induction Hij as [|j Hij IH]; intros s' Hj; [by eapply Hsep|].
  destruct (starts z !! j) as [s1|] eqn:E.
  - pose proof (IH s1 eq_refl). pose proof (Hsep j _ _ E Hj). unfold OFFSET_LIMIT in *. lia.
  - apply lookup_ge_None in E. apply lookup_lt_Some in Hj. lia.
Qed.

Lemma pp_low z t i s : (i < pp z t)%nat -> starts z !! i = Some s -> s <= t.
Proof. intros Hi Hs. apply (partition_point_low _ _ _ _ Hi) in Hs. by apply Z.leb_le. Qed.

Lemma pp_high z t i s : separated z -> (pp z t <= i)%nat -> starts z !! i = Some s -> t < s.
Proof.
  intros Hsep Hi Hs. destruct (starts z !! pp z t) as [s0|] eqn:E.
  - apply partition_point_at in E as E'. cbn beta in E'. apply Z.leb_gt in E'.
    destruct (decide (pp z t = i)) as [<-|]; [rewrite E in Hs; injection Hs as <-; lia|].
    pose proof (separated_lt z (pp z t) i _ _ Hsep ltac:(lia) E Hs). unfold OFFSET_LIMIT in *. lia.
  - apply lookup_ge_None in E. apply lookup_lt_Some in Hs. lia.
Qed.

Lemma pp_unique z t k : separated z -> (k <= length (starts z))%nat ->
  (forall i s, (i < k)%nat -> starts z !! i = Some s -> s <= t) ->
  (forall i s, (k <= i)%nat -> starts z !! i = Some s -> t < s) -> pp z t = k.
Proof.
  intros Hsep Hk Hlow Hhigh. destruct (lt_eq_lt_dec (pp z t) k) as [[H|H]|H]; [|done|].
  - destruct (lookup_lt_is_Some_2 (starts z) (pp z t)) as [s Hs]; [lia|].
    pose proof (Hlow _ _ H Hs). pose proof (pp_high z t _ s Hsep (Nat.le_refl _) Hs). lia.
  - pose proof (partition_point_le (fun start => start <=? t) (starts z)) as Hle. fold (pp z t) in Hle.
    destruct (lookup_lt_is_Some_2 (starts z) k) as [s Hs]; [lia|].
    pose proof (pp_low z t k s H Hs). pose proof (Hhigh k s (Nat.le_refl _) Hs). lia.
Qed.

Lemma record_at_some z i : wf_zone z -> (i < length (starts z))%nat ->
  exists r, record_at z i = Some r /\ small (rec_offset r).
Proof.
  intros Hwf Hi. unfold record_at. rewrite <- (wf_records z Hwf) in Hi.
  destruct (lookup_lt_is_Some_2 _ _ Hi) as [k Hk]. rewrite Hk. simpl.
  pose proof (proj1 (Forall_lookup _ _) (wf_indices z Hwf) _ _ Hk) as Hlt. cbn beta in Hlt.
  destruct (lookup_lt_is_Some_2 _ _ Hlt) as [r Hr]. exists r. split; [done|].
  exact (proj1 (Forall_lookup _ _) (wf_table z Hwf) _ _ Hr).
Qed.

Lemma segment_small z k : wf_zone z -> (k <= length (starts z))%nat -> small (segment_offset z k).
Proof.
  intros Hwf Hk. destruct k as [|i]; simpl; [by apply wf_initial|].
  destruct (record_at_some z i Hwf ltac:(lia)) as (r & -> & Hr). done.
Qed.

(** What [consider] keeps: the smallest distance seen. *)
Lemma consider_spec st local best i : Forall quarter st -> local_ok local -> exists r, consider st local best i = Some r /\
  r.2 <= best.2 /\ (forall s, st !! i = Some s -> r.2 <= Z.abs (s - local)) /\
  (r = best \/ exists s, st !! r.1 = Some s /\ r.2 = Z.abs (s - local)).
Proof.
  unfold local_ok. intros Hst Hl. unfold consider. destruct (st !! i) as [s|] eqn:E; [|exists best; split_and!; [done|lia|done|by left]].
  pose proof (Forall_lookup_1 _ _ _ _ Hst E) as Hq. unfold quarter in Hq.
  rewrite (i64_checked_ok (s - local)) by lia. cbn [mbind option_bind]. rewrite i64_checked_ok by lia. cbn [mbind option_bind].
  eexists. split; [done|]. destruct (Z.ltb_spec (Z.abs (s - local)) best.2); simpl.
  - split_and!; [lia|by intros ? [= <-]|right; eauto].
  - split_and!; [lia|by intros ? [= <-]|by left].
Qed.

Section Resolution.
Context `{!TzData} (name : list Z) (z : ZoneData).
Let zone : TimeZone := Named (mkEntry name (Embedded z)).
Context (Hwf : wf_zone z) (Hsep : separated z).

(** The future rule answers within reach, with one of its two offsets. *)
Lemma future_small t : instant_ok t -> exists i, future_info z t = Some i /\ small (offset i).
Proof.
  intros Ht. pose proof (wf_fut z Hwf) as Hf. unfold future_info. destruct (future z) as [r|st dl start end_]; simpl in Hf; [eauto|].
  destruct Hf as (H1 & H2 & H3 & H4).
  destruct (evaluate_some (mkDst (default [] (abbreviation (rec_abbrev dl))) (rec_offset dl)
    (daylight_rule_from_packed_day start.1, start.2) (daylight_rule_from_packed_day end_.1, end_.2))
    (rec_offset st) (default [] (abbreviation (rec_abbrev st))) t Ht ltac:(unfold small, OFFSET_LIMIT in H1; lia) H3 H4) as (i & -> & Hi).
  exists i. split; [done|]. by destruct Hi as [-> | ->].
Qed.

Lemma offset_at_small t : instant_ok t -> exists o, offset_at zone t = Some o /\ small o.
Proof.
  intros Ht. unfold offset_at, zone. simpl. unfold ZoneData_lookup. fold (pp z t). pose proof (partition_point_le (fun s => s <=? t) (starts z)) as Hle.
  fold (pp z t) in Hle. destruct (future_small t Ht) as (i & Hi & Hs).
  destruct (length (starts z) =? 0)%nat; [rewrite Hi; simpl; eauto|].
  destruct (Nat.eqb_spec (pp z t) 0); [simpl; eexists; split; [done|by apply wf_initial]|].
  destruct (Nat.eqb_spec (pp z t) (length (starts z))); [rewrite Hi; simpl; eauto|].
  destruct (record_at_some z (pp z t - 1) Hwf ltac:(lia)) as (r & -> & Hr). simpl. eauto.
Qed.

(** An offset it answers is small, at any instant. *)
Lemma offset_at_is_small t o : offset_at zone t = Some o -> small o.
Proof.
  assert (Hf : forall i, future_info z t = Some i -> small (offset i)).
  { intros i Hi. pose proof (wf_fut z Hwf) as Hf. unfold future_info in Hi. destruct (future z); [by injection Hi as <-|].
    apply evaluate_offset in Hi as [-> | ->]; apply Hf. }
  unfold offset_at, zone. simpl. unfold ZoneData_lookup. fold (pp z t).
  pose proof (partition_point_le (fun s => s <=? t) (starts z)) as Hle. fold (pp z t) in Hle.
  destruct (length (starts z) =? 0)%nat; [destruct (future_info z t) eqn:E; simpl; [intros [= <-]; by apply Hf|done]|].
  destruct (Nat.eqb_spec (pp z t) 0); [simpl; intros [= <-]; by apply wf_initial|].
  destruct (Nat.eqb_spec (pp z t) (length (starts z))); [destruct (future_info z t) eqn:E; simpl; [intros [= <-]; by apply Hf|done]|].
  destruct (record_at_some z (pp z t - 1) Hwf ltac:(lia)) as (r & -> & Hr). simpl. by intros [= <-].
Qed.

Lemma offset_at_segment t : decided z t -> offset_at zone t = Some (segment_offset z (pp z t)).
Proof.
  intros Hd. unfold offset_at, zone. simpl. unfold ZoneData_lookup. fold (pp z t).
  pose proof (partition_point_le (fun s => s <=? t) (starts z)) as Hle. fold (pp z t) in Hle.
  assert (Hfut : pp z t = length (starts z) -> exists i, future_info z t = Some i /\ offset i = segment_offset z (length (starts z))).
  { intros Hpp. destruct Hd as [(s & Hs & Ht)|(r & Hr & Ho)].
    - apply lookup_lt_Some in Hs as Hlt. pose proof (pp_low z t (length (starts z) - 1)%nat s ltac:(lia) Hs). lia.
    - unfold future_info. rewrite Hr. by eexists. }
  destruct (Nat.eqb_spec (length (starts z)) 0) as [H0|H0].
  { destruct (Hfut ltac:(lia)) as (i & -> & Hi). simpl. rewrite Hi. do 2 f_equal. lia. }
  destruct (Nat.eqb_spec (pp z t) 0) as [->|Hp]; [done|].
  destruct (Nat.eqb_spec (pp z t) (length (starts z))) as [Hpn|Hpn].
  { destruct (Hfut Hpn) as (i & -> & Hi). simpl. by rewrite Hi, Hpn. }
  destruct (pp z t) as [|k]; [done|]. simpl. rewrite Nat.sub_0_r.
  by destruct (record_at_some z k Hwf ltac:(lia)) as (r & -> & Hr).
Qed.

(** The transitions on both sides of an instant are the nearest ones. *)
Lemma nearest_bound local bd i s :
  (forall s, starts z !! pp z local = Some s -> bd <= Z.abs (s - local)) ->
  (forall s, (0 < pp z local)%nat -> starts z !! (pp z local - 1)%nat = Some s -> bd <= Z.abs (s - local)) ->
  starts z !! i = Some s -> bd <= Z.abs (s - local).
Proof.
  intros Hhi Hlo Hs. apply lookup_lt_Some in Hs as Hlt. unfold OFFSET_LIMIT in *.
  destruct (decide (pp z local <= i)%nat) as [Hi|Hi].
  - destruct (lookup_lt_is_Some_2 (starts z) (pp z local)) as [s0 Hs0]; [lia|]. pose proof (Hhi s0 Hs0).
    pose proof (pp_high z local _ s0 Hsep (Nat.le_refl _) Hs0).
    destruct (decide (pp z local = i)) as [E|]; [rewrite <- E, Hs0 in Hs; injection Hs as <-; done|].
    pose proof (separated_lt z (pp z local) i _ _ Hsep ltac:(lia) Hs0 Hs). unfold OFFSET_LIMIT in *. lia.
  - pose proof (partition_point_le (fun s => s <=? local) (starts z)) as Hle. fold (pp z local) in Hle.
    destruct (lookup_lt_is_Some_2 (starts z) (pp z local - 1)) as [s0 Hs0]; [lia|]. pose proof (Hlo s0 ltac:(lia) Hs0).
    pose proof (pp_low z local (pp z local - 1) s0 ltac:(lia) Hs0).
    destruct (decide (i = pp z local - 1)%nat) as [E|]; [rewrite E, Hs0 in Hs; injection Hs as <-; done|].
    pose proof (separated_lt z i (pp z local - 1) _ _ Hsep ltac:(lia) Hs Hs0). unfold OFFSET_LIMIT in *. lia.
Qed.

(** [embedded_nearby] finds the transition within reach, if there is one. *)
Lemma nearby_spec local : local_ok local -> exists r, embedded_nearby z local = Some r /\
  match r with
  | Some (before, after) => exists b s, starts z !! b = Some s /\ Z.abs (s - local) <= 2 * OFFSET_LIMIT /\
      before = segment_offset z b /\ after = segment_offset z (S b)
  | None => forall i s, starts z !! i = Some s -> 2 * OFFSET_LIMIT < Z.abs (s - local)
  end.
Proof.
  intros Hl. pose proof (wf_starts z Hwf) as Hst.
  unfold embedded_nearby. destruct (Nat.eqb_spec (length (starts z)) 0) as [H0|H0].
  { exists None. split; [done|]. intros i s Hs%lookup_lt_Some. lia. }
  fold (pp z local).
  assert (Hbest : exists best,
    match pp z local with O => Some (0%nat, 2 ^ 63 - 1) | S i => consider (starts z) local (0%nat, 2 ^ 63 - 1) i end = Some best /\
    (best.2 = 2 ^ 63 - 1 \/ exists s, starts z !! best.1 = Some s /\ best.2 = Z.abs (s - local)) /\
    forall s, (0 < pp z local)%nat -> starts z !! (pp z local - 1)%nat = Some s -> best.2 <= Z.abs (s - local)).
  { destruct (pp z local) as [|k]; [eexists; split; [done|]; split; [by left|lia]|].
    destruct (consider_spec (starts z) local (0%nat, 2 ^ 63 - 1) k Hst Hl) as (r & Hr & _ & H2 & H3). exists r.
    split; [done|]. split; [destruct H3 as [->|?]; [by left|by right]|]. simpl. rewrite Nat.sub_0_r. auto. }
  destruct Hbest as (best & -> & Hb1 & Hb2). cbn [mbind option_bind].
  destruct (consider_spec (starts z) local best (pp z local) Hst Hl) as ([bi bd] & -> & H1 & H2 & H3). simpl in H1, H2, H3.
  cbn [mbind option_bind].
  destruct (Z.ltb_spec (2 * OFFSET_LIMIT) bd) as [Hbd|Hbd].
  { exists None. split; [done|]. intros i s Hs. apply Z.lt_le_trans with bd; [done|]. 
    apply (nearest_bound local bd i s); [exact H2| |exact Hs]. intros s' Hp Hs'. pose proof (Hb2 s' Hp Hs'). lia. }
  assert (Hs : exists s, starts z !! bi = Some s /\ bd = Z.abs (s - local)).
  { unfold OFFSET_LIMIT in Hbd. destruct H3 as [Heq|H3]; [|done]. destruct Hb1 as [Hb1|Hb1]; rewrite <- Heq in Hb1; simpl in Hb1; [lia|done]. }
  destruct Hs as (s & Hs & ->). destruct (record_at_some z bi Hwf (lookup_lt_Some _ _ _ Hs)) as (ra & Ha & _). rewrite Ha.
  cbn [mbind option_bind]. destruct bi as [|k]; simpl.
  - eexists. split; [done|]. exists 0%nat, s. split_and!; [done|done|done|]. simpl. by rewrite Ha.
  - rewrite Nat.sub_0_r. apply lookup_lt_Some in Hs as Hlt. destruct (record_at_some z k Hwf ltac:(lia)) as (rb & Hb & _). rewrite Hb.
    simpl. eexists. split; [done|]. exists (S k), s. split_and!; [done|done|simpl; by rewrite Hb|simpl; by rewrite Ha].
Qed.
Lemma decided_below t t' : t' <= t -> decided z t -> decided z t'.
Proof. intros Hle [(s & Hs & Ht)|Hr]; [left; exists s; split; [done|lia]|by right]. Qed.

(** Within reach of a transition only its two offsets occur. *)
Lemma offset_near local b s t : decided z (local + 2 * OFFSET_LIMIT) -> starts z !! b = Some s ->
  Z.abs (s - local) <= 2 * OFFSET_LIMIT -> Z.abs (t - local) <= 2 * OFFSET_LIMIT ->
  offset_at zone t = Some (if t <? s then segment_offset z b else segment_offset z (S b)).
Proof.
  intros Hd Hb Hs Ht. rewrite offset_at_segment by (eapply decided_below; [|exact Hd]; lia).
  apply lookup_lt_Some in Hb as Hlt.
  assert (Hother : forall i s', starts z !! i = Some s' -> ((i < b)%nat -> s' <= t) /\ ((b < i)%nat -> t < s')).
  { intros i s' Hi. split; intros Hib.
    - pose proof (separated_lt z i b _ _ Hsep Hib Hi Hb). unfold OFFSET_LIMIT in *. lia.
    - pose proof (separated_lt z b i _ _ Hsep Hib Hb Hi). unfold OFFSET_LIMIT in *. lia. }
  destruct (Z.ltb_spec t s) as [Hts|Hts].
  - rewrite (pp_unique z t b); [done|done|lia| |].
    + intros i s' Hib Hi. by apply (Hother i s' Hi).
    + intros i s' Hib Hi. destruct (decide (b = i)) as [<-|]; [congruence|]. apply (Hother i s' Hi). lia.
  - rewrite (pp_unique z t (S b)); [done|done|lia| |].
    + intros i s' Hib Hi. destruct (decide (b = i)) as [<-|]; [congruence|]. apply (Hother i s' Hi). lia.
    + intros i s' Hib Hi. apply (Hother i s' Hi). lia.
Qed.

(** Away from the transitions there is a single offset. *)
Lemma offset_far local t : decided z (local + 2 * OFFSET_LIMIT) ->
  (forall i s, starts z !! i = Some s -> 2 * OFFSET_LIMIT < Z.abs (s - local)) ->
  Z.abs (t - local) <= 2 * OFFSET_LIMIT -> offset_at zone t = Some (segment_offset z (pp z local)).
Proof.
  intros Hd Hfar Ht. rewrite offset_at_segment by (eapply decided_below; [|exact Hd]; lia).
  pose proof (partition_point_le (fun s => s <=? local) (starts z)) as Hle. fold (pp z local) in Hle.
  rewrite (pp_unique z t (pp z local)); [done|done|done| |]; intros i s Hi Hs; pose proof (Hfar i s Hs).
  - pose proof (pp_low z local i s Hi Hs). lia.
  - pose proof (pp_high z local i s Hsep Hi Hs). lia.
Qed.

(** The instants at which the wall clock of the zone shows [local]. *)
Definition shows (local t : Z) : Prop := exists o, offset_at zone t = Some o /\ t + o = local.

Lemma shows_near local t : shows local t -> Z.abs (t - local) <= 2 * OFFSET_LIMIT.
Proof.
  intros (o & Ho & Heq). pose proof (offset_at_is_small t o Ho) as Hs.
  unfold small, OFFSET_LIMIT in *. lia.
Qed.

Definition classified (local : Z) (a : Ambiguity) : Prop :=
  match a with
  | Exact o => forall t, shows local t <-> t = local - o
  | Fold e l => local - e < local - l /\ forall t, shows local t <-> t = local - e \/ t = local - l
  | Gap b a => b < a /\ (forall t, ~ shows local t) /\ shows (local + (a - b)) (local - b)
  end.

Lemma classify_single local before : small before ->
  (forall t, Z.abs (t - local) <= 2 * OFFSET_LIMIT -> offset_at zone t = Some before) -> classified local (Exact before).
Proof.
  intros Hs Hoff t. split.
  - intros Ht. pose proof (shows_near local t Ht) as Hn. destruct Ht as (o & Ho & Heq).
    rewrite Hoff in Ho by done. injection Ho as <-. lia.
  - intros ->. exists before. split; [|lia]. apply Hoff. unfold small, OFFSET_LIMIT in *. lia.
Qed.

Lemma classify_two local s before after : small before -> small after -> before <> after ->
  (forall t, Z.abs (t - local) <= 2 * OFFSET_LIMIT -> offset_at zone t = Some (if t <? s then before else after)) ->
  classified local
    match local - before <? s, s <=? local - after with
    | true, true => Fold before after
    | true, false => Exact before
    | false, true => Exact after
    | false, false => Gap before after
    end.
Proof.
  intros Hb Ha Hne Hoff.
  assert (Hshow : forall t, shows local t <-> (t < s /\ t = local - before) \/ (s <= t /\ t = local - after)).
  { intros t. split.
    - intros Ht. pose proof (shows_near local t Ht) as Hn. destruct Ht as (o & Ho & Heq).
      rewrite Hoff in Ho by done. injection Ho as Ho. destruct (Z.ltb_spec t s); lia.
    - intros [[Hlt Heq]|[Hle Heq]]; (eexists; split; [apply Hoff; subst; unfold small, OFFSET_LIMIT in *; lia|]);
        destruct (Z.ltb_spec t s); lia. }
  destruct (Z.ltb_spec (local - before) s) as [H1|H1], (Z.leb_spec s (local - after)) as [H2|H2]; simpl;
    try (split; [lia|]); try (intros t; rewrite Hshow; lia).
  split; [intros t; rewrite Hshow; lia|]. exists after. split; [|lia].
  rewrite Hoff by (unfold small, OFFSET_LIMIT in *; lia). destruct (Z.ltb_spec (local - before) s); [lia|done].
Qed.

(** The candidates are offsets of the zone. *)
Lemma candidates_small local : local_ok local -> exists b a, candidate_offsets zone local = Some (b, a) /\ small b /\ small a.
Proof.
  intros Hl. unfold candidate_offsets, zone. cbn [rules]. fold zone. destruct (nearby_spec local Hl) as (r & -> & Hr).
  cbn [mbind option_bind]. destruct r as [[b a]|].
  - destruct Hr as (k & s & Hk & _ & -> & ->). apply lookup_lt_Some in Hk. do 2 eexists. split; [done|].
    split; apply segment_small; (done || lia).
  - unfold local_ok, PROBE, SECS_PER_DAY in *. rewrite !i64_checked_ok by lia. cbn [mbind option_bind].
    destruct (offset_at_small (local - 2 * 86400)) as (o1 & -> & H1); [unfold instant_ok; lia|].
    destruct (offset_at_small (local + 2 * 86400)) as (o2 & -> & H2); [unfold instant_ok; lia|]. eauto.
Qed.

Lemma classify_correct local : local_ok local -> decided z (local + 2 * OFFSET_LIMIT) ->
  wp (classify zone local) (classified local).
Proof.
  intros Hl Hd. unfold zone, classify, candidate_offsets. cbn [rules]. fold zone.
  destruct (nearby_spec local Hl) as (r & -> & Hr). cbn [mbind option_bind]. destruct r as [[before after]|].
  - destruct Hr as (b & s & Hb & Hs & -> & ->). apply lookup_lt_Some in Hb as Hlt.
    pose proof (segment_small z b Hwf ltac:(lia)) as Hsb. pose proof (segment_small z (S b) Hwf ltac:(lia)) as Hsa.
    pose proof (fun t Ht => offset_near local b s t Hd Hb Hs Ht) as Hoff.
    cbn [mbind option_bind]. destruct (Z.eqb_spec (segment_offset z b) (segment_offset z (S b))) as [Heq|Hne].
    { apply wp_ret, classify_single; [done|]. intros t Ht. rewrite Hoff by done. rewrite Heq. by destruct (t <? s). }
    assert (Hi : forall o, small o -> i64_checked (local - o) = Some (local - o))
      by (intros; apply i64_checked_ok; unfold small, OFFSET_LIMIT, local_ok in *; lia).
    rewrite (Hi _ Hsb), (Hi _ Hsa). cbn [mbind option_bind].
    rewrite !Hoff by (unfold small, OFFSET_LIMIT in *; lia). cbn [mbind option_bind]. apply wp_ret.
    pose proof (classify_two local s _ _ Hsb Hsa Hne Hoff) as Hc.
    pose proof (proj2 (Z.eqb_neq _ _) Hne) as E1. pose proof (proj2 (Z.eqb_neq _ _) (not_eq_sym Hne)) as E2.
    destruct (Z.ltb_spec (local - segment_offset z b) s), (Z.ltb_spec (local - segment_offset z (S b)) s),
      (Z.leb_spec s (local - segment_offset z (S b))); try lia; by rewrite ?Z.eqb_refl, ?E1, ?E2.
  - pose proof (fun t Ht => offset_far local t Hd Hr Ht) as Hoff.
    pose proof (partition_point_le (fun s => s <=? local) (starts z)) as Hle. fold (pp z local) in Hle.
    rewrite !i64_checked_ok by (unfold local_ok, PROBE, SECS_PER_DAY in *; lia). cbn [mbind option_bind].
    rewrite !Hoff by (unfold OFFSET_LIMIT, PROBE, SECS_PER_DAY; lia). cbn [mbind option_bind]. rewrite Z.eqb_refl.
    apply wp_ret, classify_single; [by apply segment_small|done].
Qed.
End Resolution.

(** ** Claims *)

(** C25: civil times in a zone of the embedded database, before its last explicit
    transition (or at any time when the zone keeps its last offset for good; the
    times that only a recurring rule decides are left out).  The zone is well
    formed: its indices are in range, its offsets within the limit, its
    transitions within [2^62] seconds of the epoch and further apart than four
    limits; the wall-clock time is within [67766 * 10^12] seconds.  Then
    classifying it never panics and is right (exactly one instant shows it, or
    exactly two, the earlier one listed first, or none, and then the one of the
    first candidate shows it shifted forward by the gap), and [resolve_with] picks
    the instant the strategy asks for, or the [Ambiguous] error for [Reject]. *)
Theorem zone_resolution_correct `{!TzData} name z local d :
  wf_zone z -> separated z -> local_ok local -> decided z (local + 2 * OFFSET_LIMIT) ->
  let zone := Named (mkEntry name (Embedded z)) in
  wp (classify zone local) (fun a => classified name z local a /\
    resolve_with zone local d = Some (expected local a d)).
Proof.
  intros Hwf Hsep Hl Hd zone. destruct (wp_elim _ _ (classify_correct name z Hwf Hsep local Hl Hd)) as (a & Ha & Hc).
  fold zone in Ha. destruct (candidates_small name z Hwf Hsep local Hl) as (o1 & o2 & Hcand & H1 & H2). fold zone in Hcand.
  unfold zone in *. rewrite (resolve_classify _ _ d o1 o2 Hcand H1 H2 Hl), Ha. by split.
Qed.

Lemma sample_wf : wf_zone sample.
Proof. split; simpl; unfold small, quarter, OFFSET_LIMIT; simpl; repeat constructor; simpl; lia. Qed.

Lemma sample_separated : separated sample.
Proof. intros [|[|[|i]]] s s'; simpl; intros [=] [=]; subst; unfold OFFSET_LIMIT; lia. Qed.

(** The gap of the sample zone: Later resolves to the shifted instant. *)
Lemma zone_resolution_witness :
  wp (classify sample_zone 1003700) (fun a => classified [] sample 1003700 a /\
    resolve_with sample_zone 1003700 Later = Some (expected 1003700 a Later)).
Proof.
  apply (zone_resolution_correct [] sample 1003700 Later sample_wf sample_separated);
    [unfold local_ok; lia|]. left. exists 5000000. split; [reflexivity|unfold OFFSET_LIMIT; lia].
Defined.

End TimeZone.
