(* ===== verification/DateTime.v ===== *)
(** * time: the [DateTime] type

    src/time/datetime.rs on top of [Civil] and [TimeZone], in the build without
    the [std] feature (no monotonic reading).  Fields are mathematical integers
    with the widths of the code written out where a conversion or a checked
    operation can fail.  A computation is [option] (the panic) of [result] (the
    error value). *)
From Stdlib Require Import ZArith Lia String.
From stdpp Require Import base list numbers option.
From S2P Require Import Prelude Words Civil Posix Tzif TimeZone.
Import Civil Posix Tzif TimeZone.

#[local] Close Scope string_scope.

Module DateTime.

(** [let! x := m in k]: propagate both the panic and the error. *)
Definition tbind {A B} (m : option (result A Error)) (k : A -> option (result B Error)) : option (result B Error) :=
  r ← m; match r with Ok a => k a | Err e => Some (Err e) end.
Notation "'let!' x := m 'in' k" := (tbind m (fun x => k))
  (at level 10, x pattern, m at level 100, k at level 200).

Definition MIN_YEAR : Z := -9999.
Definition MAX_YEAR : Z := 9999.
Definition MIN_SECS : Z := days_from_civil MIN_YEAR 1 1 * SECS_PER_DAY.
Definition MAX_SECS : Z := days_from_civil MAX_YEAR 12 31 * SECS_PER_DAY + (SECS_PER_DAY - 1).

Definition fits64 (x : Z) : bool := (- 2 ^ 63 <=? x) && (x <? 2 ^ 63).
Definition fits32 (x : Z) : bool := (- 2 ^ 31 <=? x) && (x <? 2 ^ 31).
Definition fits128 (x : Z) : bool := (- 2 ^ 127 <=? x) && (x <? 2 ^ 127).

Definition local_seconds_checked (year month day hour minute second : Z) : result Z Error :=
  if negb ((MIN_YEAR <=? year) && (year <=? MAX_YEAR)) then
    Err (out_of_range "year is outside the supported range") else
  if negb ((1 <=? month) && (month <=? 12)) then Err (invalid "month is not in 1..=12") else
  if (day <? 1) || (days_in_month year month <? day) then
    Err (invalid "day is not valid for the given month") else
  if 23 <? hour then Err (invalid "hour is not in 0..=23") else
  if 59 <? minute then Err (invalid "minute is not in 0..=59") else
  if 60 <? second then Err (invalid "second is not in 0..=60") else
  let second := if second =? 60 then 59 else second in
  Ok (days_from_civil year month day * SECS_PER_DAY + hour * 3600 + minute * 60 + second).

(** ** Weekdays *)

Inductive Weekday := Monday | Tuesday | Wednesday | Thursday | Friday | Saturday | Sunday.

Definition from_index (index : Z) : Weekday :=
  if index =? 0 then Monday else if index =? 1 then Tuesday else if index =? 2 then Wednesday
  else if index =? 3 then Thursday else if index =? 4 then Friday else if index =? 5 then Saturday else Sunday.

Definition name (w : Weekday) : string :=
  match w with
  | Monday => "Monday" | Tuesday => "Tuesday" | Wednesday => "Wednesday" | Thursday => "Thursday"
  | Friday => "Friday" | Saturday => "Saturday" | Sunday => "Sunday"
  end.

Definition short_name (w : Weekday) : string :=
  match w with
  | Monday => "Mon" | Tuesday => "Tue" | Wednesday => "Wed" | Thursday => "Thu"
  | Friday => "Fri" | Saturday => "Sat" | Sunday => "Sun"
  end.

Definition number_from_monday (w : Weekday) : Z :=
  match w with
  | Monday => 1 | Tuesday => 2 | Wednesday => 3 | Thursday => 4 | Friday => 5 | Saturday => 6 | Sunday => 7
  end.

Definition number_from_sunday (w : Weekday) : Z :=
  match w with
  | Sunday => 0 | Monday => 1 | Tuesday => 2 | Wednesday => 3 | Thursday => 4 | Friday => 5 | Saturday => 6
  end.

(** ** The value *)

Record DateTime := from_raw { secs : Z; nanos : Z; dt_offset : Z; zone : TimeZone }.

Definition UNIX_EPOCH : DateTime := from_raw 0 0 0 UTC.

(** [core::time::Duration]. *)
Record Duration := mkDuration { as_secs : Z; subsec_nanos : Z }.

Section Ops.
Context `{!TzData}.

Definition from_raw_checked (secs nanos : Z) (zone : TimeZone) : option (result DateTime Error) :=
  if negb ((MIN_SECS <=? secs) && (secs <=? MAX_SECS)) then
    Some (Err (out_of_range "instant is outside the supported range")) else
  offset ← offset_at zone secs;
  Some (Ok (from_raw secs nanos offset zone)).

Definition from_unix_nanos (nanoseconds : Z) : option (result DateTime Error) :=
  let seconds := nanoseconds / 1000000000 in
  if negb (fits64 seconds) then Some (Err (out_of_range "instant is outside the supported range")) else
  let nanos := u32 (nanoseconds mod 1000000000) in
  from_raw_checked seconds nanos UTC.

Definition from_unix (seconds : Z) : option (result DateTime Error) := from_unix_nanos (seconds * 1000000000).

Definition from_parts_with (year month day hour minute second nanosecond : Z) (zone : TimeZone)
    (disambiguation : Disambiguation) : option (result DateTime Error) :=
  if NANOS_PER_SEC <=? nanosecond then Some (Err (invalid "nanosecond is not in 0..1_000_000_000")) else
  let! local := Some (local_seconds_checked year month day hour minute second) in
  let! instant := resolve_with zone local disambiguation in
  from_raw_checked instant nanosecond zone.

Definition from_parts (year month day hour minute second nanosecond : Z) (zone : TimeZone)
    : option (result DateTime Error) :=
  from_parts_with year month day hour minute second nanosecond zone Compatible.

Definition unix (self : DateTime) : Z := secs self.
Definition unix_nanos (self : DateTime) : Z := secs self * 1000000000 + nanos self.

Definition in_timezone (self : DateTime) (zone : TimeZone) : option DateTime :=
  offset ← offset_at zone (secs self);
  Some (from_raw (secs self) (nanos self) offset zone).

Definition in_timezone_checked (self : DateTime) (zone : TimeZone) : option (result DateTime Error) :=
  if (secs self <? MIN_SECS) || (MAX_SECS <? secs self) then
    Some (Err (out_of_range "instant is outside the supported range")) else
  dt ← in_timezone self zone; Some (Ok dt).

Definition dt_is_dst (self : DateTime) : option bool := is_dst_at (zone self) (secs self).

(** The civil fields: year, month, day, hour, minute, second, nanosecond.  A
    [DateTime] holds an instant of the supported range, so the sum with the
    offset and [civil_from_days] do not overflow ([parts_no_overflow]); [parts]
    is written without the checks. *)
Definition parts (self : DateTime) : Z * Z * Z * Z * Z * Z * Z :=
  let local := secs self + dt_offset self in
  let days := local / SECS_PER_DAY in
  let seconds := local mod SECS_PER_DAY in
  let '(year, month, day) := civil_fields days in
  let hour := u8 (Z.quot seconds 3600) in
  let minute := u8 (Z.quot (Z.rem seconds 3600) 60) in
  let second := u8 (Z.rem seconds 60) in
  (year, month, day, hour, minute, second, nanos self).

Definition year (self : DateTime) : Z := let '(y, _, _, _, _, _, _) := parts self in y.
Definition month (self : DateTime) : Z := let '(_, m, _, _, _, _, _) := parts self in m.
Definition day (self : DateTime) : Z := let '(_, _, d, _, _, _, _) := parts self in d.
Definition hour (self : DateTime) : Z := let '(_, _, _, h, _, _, _) := parts self in h.
Definition minute (self : DateTime) : Z := let '(_, _, _, _, m, _, _) := parts self in m.
Definition second (self : DateTime) : Z := let '(_, _, _, _, _, s, _) := parts self in s.
Definition nanosecond (self : DateTime) : Z := nanos self.
Definition millisecond (self : DateTime) : Z := Z.quot (nanos self) 1000000.
Definition microsecond (self : DateTime) : Z := Z.quot (nanos self) 1000.

Definition weekday (self : DateTime) : Weekday :=
  let days := (secs self + dt_offset self) / SECS_PER_DAY in
  from_index (weekday_from_days days).

Definition dt_ordinal (self : DateTime) : Z :=
  let '(year, month, day, _, _, _, _) := parts self in ordinal year month day.

Definition dt_iso_week (self : DateTime) : Z * Z :=
  let '(year, month, day, _, _, _, _) := parts self in iso_week year month day.

(** ** Durations *)

(** [checked_add] and [checked_sub] on [i128]. *)
Definition checked128 (x : Z) : result Z Error :=
  if fits128 x then Ok x else Err (out_of_range "result is outside the supported range").

Definition checked_add (self : DateTime) (duration : Duration) : option (result DateTime Error) :=
  let! v := Some (checked128 (unix_nanos self + as_secs duration * 1000000000)) in
  let! total := Some (checked128 (v + subsec_nanos duration)) in
  let! dt := from_unix_nanos total in
  in_timezone_checked dt (zone self).

Definition checked_sub (self : DateTime) (duration : Duration) : option (result DateTime Error) :=
  let! v := Some (checked128 (unix_nanos self - as_secs duration * 1000000000)) in
  let! total := Some (checked128 (v - subsec_nanos duration)) in
  let! dt := from_unix_nanos total in
  in_timezone_checked dt (zone self).

Definition saturating_add (self : DateTime) (duration : Duration) : option DateTime :=
  r ← checked_add self duration;
  match r with
  | Ok dt => Some dt
  | Err _ =>
      r ← from_raw_checked MAX_SECS 999999999 (zone self);
      Some (match r with Ok dt => dt | Err _ => from_raw MAX_SECS 999999999 (dt_offset self) (zone self) end)
  end.

Definition saturating_sub (self : DateTime) (duration : Duration) : option DateTime :=
  r ← checked_sub self duration;
  match r with
  | Ok dt => Some dt
  | Err _ =>
      r ← from_raw_checked MIN_SECS 0 (zone self);
      Some (match r with Ok dt => dt | Err _ => from_raw MIN_SECS 0 (dt_offset self) (zone self) end)
  end.

Definition signed_duration_since (self other : DateTime) : Z * Z :=
  let seconds := secs self - secs other in
  let nanos := nanos self - nanos other in
  if nanos <? 0 then (seconds - 1, u32 (nanos + 1000000000)) else (seconds, u32 nanos).

Definition duration_since (self earlier : DateTime) : result Duration Error :=
  let '(seconds, nanos) := signed_duration_since self earlier in
  if seconds <? 0 then Err (out_of_range "earlier is later than self")
  else Ok (mkDuration (u64 seconds) nanos).

Definition duration_until (self later : DateTime) : result Duration Error := duration_since later self.

Definition op_add (self : DateTime) (rhs : Duration) : option DateTime :=
  r ← checked_add self rhs; match r with Ok dt => Some dt | Err _ => None end.
Definition op_sub (self : DateTime) (rhs : Duration) : option DateTime :=
  r ← checked_sub self rhs; match r with Ok dt => Some dt | Err _ => None end.

(** ** Calendar arithmetic *)

Definition add_days (self : DateTime) (days : Z) : option (result DateTime Error) :=
  let '(year, month, day, hour, minute, second, nanos) := parts self in
  let target := days_from_civil year month day + days in
  if negb (fits64 target) then Some (Err (out_of_range "result is outside the supported range")) else
  '(year, month, day) ← civil_from_days target;
  from_parts year month day hour minute second nanos (zone self).

Definition add_months (self : DateTime) (months : Z) : option (result DateTime Error) :=
  let '(year, month, day, hour, minute, second, nanos) := parts self in
  let total := year * 12 + month - 1 + months in
  if negb (fits32 (total / 12)) then Some (Err (out_of_range "result is outside the supported range")) else
  let new_year := total / 12 in
  let new_month := u8 (total mod 12 + 1) in
  let new_day := Z.min day (days_in_month new_year new_month) in
  from_parts new_year new_month new_day hour minute second nanos (zone self).

Definition add_years (self : DateTime) (years : Z) : option (result DateTime Error) :=
  let '(year, month, day, hour, minute, second, nanos) := parts self in
  let new_year := year + years in
  if negb (fits32 new_year) then Some (Err (out_of_range "result is outside the supported range")) else
  let new_day := Z.min day (days_in_month new_year month) in
  from_parts new_year month new_day hour minute second nanos (zone self).

(** ** Order *)

Definition DateTime_eq (self other : DateTime) : bool :=
  (secs self =? secs other) && (nanos self =? nanos other).

Definition DateTime_cmp (self other : DateTime) : comparison :=
  match Z.compare (secs self) (secs other) with
  | Eq => Z.compare (nanos self) (nanos other)
  | c => c
  end.
End Ops.

(** ** What a time zone promises to a [DateTime]

    It answers every instant and wall-clock time within reach, with offsets
    inside the limit; the client's theorems use only this. *)
Class CivilZone `{!TzData} (z : TimeZone) := {
  cz_offset t : instant_ok t -> exists o, offset_at z t = Some o /\ small o;
  cz_resolve local d : local_ok local -> exists r, resolve_with z local d = Some r;
}.

#[export] Instance utc_civil `{!TzData} : CivilZone Utc.
Proof. split; [intros t _; exists 0; split; [done|unfold small, OFFSET_LIMIT; lia]|by eexists]. Qed.

Lemma fixed_resolve `{!TzData} o local d : small o -> local_ok local -> resolve_with (Fixed o) local d = Some (Ok (local - o)).
Proof. unfold small, local_ok, OFFSET_LIMIT. intros Ho Hl. simpl. by rewrite i64_checked_ok by lia. Qed.

Lemma fixed_civil `{!TzData} o : small o -> CivilZone (Fixed o).
Proof. intros Ho. split; [by exists o|intros local d Hl; rewrite fixed_resolve by done; by eexists]. Qed.

Lemma embedded_civil `{!TzData} name z : wf_zone z -> separated z -> CivilZone (Named (mkEntry name (Embedded z))).
Proof.
  intros Hwf Hsep. pose proof (offset_at_small name z Hwf) as Hoff. split; [done|]. intros local d Hl.
  destruct (candidates_small name z Hwf Hsep local Hl) as (b & a & Hc & Hb & Ha).
  rewrite (resolve_classify _ _ d b a Hc Hb Ha Hl). unfold classify. rewrite Hc. cbn [mbind option_bind].
  destruct (b =? a); [by eexists|]. unfold small, local_ok, OFFSET_LIMIT in *. rewrite !i64_checked_ok by lia. cbn [mbind option_bind].
  destruct (Hoff (local - b)) as (o1 & -> & _); [unfold instant_ok; lia|].
  destruct (Hoff (local - a)) as (o2 & -> & _); [unfold instant_ok; lia|]. by eexists.
Qed.

(** ** Invariant *)

Definition wf_dt `{!TzData} (dt : DateTime) : Prop :=
  MIN_SECS <= secs dt <= MAX_SECS /\ 0 <= nanos dt < 1000000000 /\
  offset_at (zone dt) (secs dt) = Some (dt_offset dt) /\ small (dt_offset dt).

Lemma secs_limits : MIN_SECS = -377705116800 /\ MAX_SECS = 253402300799.
Proof. done. Qed.

Ltac limits := destruct secs_limits as [?Hmin ?Hmax]; unfold small, OFFSET_LIMIT, MIN_YEAR, MAX_YEAR, SECS_PER_DAY, NANOS_PER_SEC in *.

Section Proofs.
Context `{!TzData}.

Lemma from_raw_checked_wp t ns z : CivilZone z -> 0 <= ns < 1000000000 ->
  wp (from_raw_checked t ns z) (fun r => match r with
    | Ok dt => MIN_SECS <= t <= MAX_SECS /\ wf_dt dt /\ secs dt = t /\ nanos dt = ns /\ zone dt = z
    | Err e => kind e = OutOfRange /\ ~ (MIN_SECS <= t <= MAX_SECS) end).
Proof.
  intros Hz Hns. unfold from_raw_checked.
  destruct (Z.leb_spec MIN_SECS t), (Z.leb_spec t MAX_SECS); simpl; try (split; [done|lia]).
  destruct (cz_offset t) as (o & Ho & Hs); [unfold instant_ok; limits; lia|]. rewrite Ho. simpl. by unfold wf_dt.
Qed.

Lemma tbind_wp {A B} (m : option (result A Error)) (k : A -> option (result B Error)) Q :
  wp m (fun r => match r with Ok a => wp (k a) Q | Err e => Q (Err e) end) -> wp (tbind m k) Q.
Proof. unfold tbind. destruct m as [[a|e]|]; simpl; auto. Qed.

(** ** Civil fields *)

Definition local_of (y m d h mi s : Z) : Z := days_from_civil y m d * SECS_PER_DAY + h * 3600 + mi * 60 + s.

Lemma parts_of_local dt y m d h mi s : valid y m d -> year_ok y -> 0 <= h <= 23 -> 0 <= mi <= 59 -> 0 <= s <= 59 ->
  secs dt + dt_offset dt = local_of y m d h mi s -> parts dt = (y, m, d, h, mi, s, nanos dt).
Proof.
  intros Hv Hy Hh Hmi Hs Heq. unfold parts. rewrite Heq. unfold local_of, SECS_PER_DAY.
  set (r := h * 3600 + mi * 60 + s). assert (Hr : 0 <= r < 86400) by lia.
  replace (days_from_civil y m d * 86400 + h * 3600 + mi * 60 + s) with (days_from_civil y m d * 86400 + r) by lia.
  rewrite Z.div_add_l, (Z.div_small r), Z.add_0_r, civil_of_days by done.
  rewrite (Z.add_comm _ r), Z.mod_add, (Z.mod_small r) by lia.
  rewrite !Z.quot_div_nonneg, !Z.rem_mod_nonneg by (rewrite ?Z.rem_mod_nonneg by lia; try apply Z.mod_pos_bound; lia).
  assert (E1 : r / 3600 = h) by (symmetry; apply (Z.div_unique_pos _ _ _ (mi * 60 + s)); lia).
  assert (E2 : r mod 3600 = mi * 60 + s) by (symmetry; apply (Z.mod_unique_pos _ _ h); lia).
  assert (E3 : r mod 60 = s) by (symmetry; apply (Z.mod_unique_pos _ _ (h * 60 + mi)); lia).
  assert (E4 : (mi * 60 + s) / 60 = mi) by (symmetry; apply (Z.div_unique_pos _ _ _ s); lia).
  rewrite E1, E2, E3, E4. by rewrite !u8_id by (unfold byte; lia).
Qed.

(** The fields of a well-formed value are a valid date and time of day. *)
Lemma parts_valid dt : wf_dt dt -> exists y m d h mi s, parts dt = (y, m, d, h, mi, s, nanos dt) /\
  valid y m d /\ year_ok y /\ 0 <= h <= 23 /\ 0 <= mi <= 59 /\ 0 <= s <= 59 /\
  secs dt + dt_offset dt = local_of y m d h mi s /\ -10001 <= y <= 10001.
Proof.
  intros (Hs & Hn & _ & Ho). limits. set (l := secs dt + dt_offset dt).
  pose proof (Z.div_mod l 86400 ltac:(lia)) as Hdm. pose proof (Z.mod_pos_bound l 86400 ltac:(lia)) as Hr.
  set (r := l mod 86400) in *. set (n := l / 86400) in *.
  destruct (date_exists n) as (y & m & d & Hv & Hy & Hd); [unfold days_ok; lia|].
  pose proof (Z.div_mod r 3600 ltac:(lia)). pose proof (Z.mod_pos_bound r 3600 ltac:(lia)).
  pose proof (Z.div_mod (r mod 3600) 60 ltac:(lia)). pose proof (Z.mod_pos_bound (r mod 3600) 60 ltac:(lia)).
  assert (0 <= r / 3600) by (apply Z.div_pos; lia). assert (0 <= r mod 3600 / 60) by (apply Z.div_pos; lia).
  exists y, m, d, (r / 3600), (r mod 3600 / 60), ((r mod 3600) mod 60).
  assert (Hl : l = local_of y m d (r / 3600) (r mod 3600 / 60) ((r mod 3600) mod 60))
    by (unfold local_of, SECS_PER_DAY; rewrite Hd; lia).
  split; [apply parts_of_local; try done; lia|]. split_and!; try done; try lia.
  - destruct (Z.le_gt_cases (-10001) y) as [|Hlt]; [done|]. destruct (date_in_year y m d Hv) as [Hj _].
    pose proof (jan1_mono (y + 1) (-10001) ltac:(lia)). assert (jan1 (-10001) = -4372318) by done. lia.
  - destruct (Z.le_gt_cases y 10001) as [|Hlt]; [done|]. destruct (date_in_year y m d Hv) as [Hj _].
    pose proof (jan1_mono 10002 y ltac:(lia)). assert (jan1 10002 = 2933628) by done. lia.
Qed.

(** Neither sum of [parts] overflows on a well-formed value. *)
Lemma parts_no_overflow dt : wf_dt dt -> exists date,
  i64_checked (secs dt + dt_offset dt) = Some (secs dt + dt_offset dt) /\
  civil_from_days ((secs dt + dt_offset dt) / SECS_PER_DAY) = Some date /\
  (year dt, month dt, day dt) = date.
Proof.
  intros Hwf. destruct (parts_valid dt Hwf) as (y & m & d & h & mi & s & Hp & Hv & Hy & Hh & Hmi & Hs & Hl & _).
  pose proof Hwf as (Hsec & _ & _ & Ho). exists (y, m, d). split_and!.
  - apply i64_checked_ok. limits. lia.
  - rewrite Hl. unfold local_of, SECS_PER_DAY.
    replace ((days_from_civil y m d * 86400 + h * 3600 + mi * 60 + s) / 86400) with (days_from_civil y m d);
      [by apply civil_from_days_date|]. apply (Z.div_unique_pos _ _ _ (h * 3600 + mi * 60 + s)); lia.
  - unfold year, month, day. by rewrite Hp.
Qed.

Definition civil_ok (y m d h mi s ns : Z) : Prop :=
  MIN_YEAR <= y <= MAX_YEAR /\ valid y m d /\ h <= 23 /\ mi <= 59 /\ s <= 60 /\ ns < 1000000000.

Lemma civil_ok_ns y m d h mi s ns : ns < 1000000000 -> civil_ok y m d h mi s ns <-> civil_ok y m d h mi s 0.
Proof. intros Hns. unfold civil_ok. intuition lia. Qed.

(** The checks accept exactly the civil times; the error says which failed. *)
Lemma local_seconds_spec y m d h mi s : match local_seconds_checked y m d h mi s with
  | Ok l => l = local_of y m d h mi (Z.min s 59) /\ civil_ok y m d h mi s 0
  | Err e => ~ civil_ok y m d h mi s 0 /\ (kind e = OutOfRange <-> ~ (MIN_YEAR <= y <= MAX_YEAR)) end.
Proof.
  unfold local_seconds_checked, civil_ok, valid.
  destruct (Z.leb_spec MIN_YEAR y), (Z.leb_spec y MAX_YEAR); simpl; try (split; [lia|]; split; [lia|done]).
  destruct (Z.leb_spec 1 m), (Z.leb_spec m 12); simpl; try (split; [lia|]; split; [done|lia]).
  destruct (Z.ltb_spec d 1), (Z.ltb_spec (days_in_month y m) d); simpl; try (split; [lia|]; split; [done|lia]).
  destruct (Z.ltb_spec 23 h), (Z.ltb_spec 59 mi), (Z.ltb_spec 60 s); simpl; try (split; [lia|]; split; [done|lia]).
  split; [|lia]. unfold local_of. destruct (Z.eqb_spec s 60) as [->|]; [done|]. by rewrite Z.min_l by lia.
Qed.

(** The zone shows the wall-clock time at the instant it resolves it to. *)
Definition tracks (z : TimeZone) (local : Z) (dis : Disambiguation) : Prop :=
  forall t, resolve_with z local dis = Some (Ok t) -> offset_at z t = Some (local - t).

Lemma fixed_tracks z local dis : (z = Utc \/ exists o, z = Fixed o) -> tracks z local dis.
Proof.
  intros [->|[o ->]] t; simpl; [intros [= <-]; unfold offset_at; simpl; f_equal; lia|].
  unfold i64_checked. case_match; [|done]. intros [= <-]. unfold offset_at; simpl; f_equal; lia.
Qed.

(** Outside the gaps of an embedded zone. *)
Lemma embedded_tracks name ez local dis a : wf_zone ez -> separated ez -> local_ok local ->
  decided ez (local + 2 * OFFSET_LIMIT) -> classify (Named (mkEntry name (Embedded ez))) local = Some a ->
  (forall b c, a <> Gap b c) -> tracks (Named (mkEntry name (Embedded ez))) local dis.
Proof.
  intros Hwf Hsep Hl Hd Ha Hgap t Ht. pose proof (classify_correct name ez Hwf Hsep local Hl Hd) as Hc.
  rewrite Ha in Hc. simpl in Hc. destruct (candidates_small name ez Hwf Hsep local Hl) as (o1 & o2 & Hcand & H1 & H2).
  rewrite (resolve_classify _ _ dis o1 o2 Hcand H1 H2 Hl), Ha in Ht. cbn [mbind option_bind] in Ht.
  assert (Hshow : forall o, (forall t', t' = local - o -> shows name ez local t') ->
    offset_at (Named (mkEntry name (Embedded ez))) (local - o) = Some (local - (local - o))).
  { intros o Ho. destruct (Ho (local - o) eq_refl) as (o' & -> & Heq). f_equal. lia. }
  destruct a as [o|e l|b c]; [|destruct Hc as [_ Hc]|by destruct (Hgap b c)].
  - destruct dis; cbn in Ht; injection Ht as <-; apply Hshow; intros t' ->; by apply Hc.
  - destruct dis; cbn in Ht; try discriminate; injection Ht as <-; apply Hshow; intros t' ->; apply Hc; auto.
Qed.

(** The wall-clock times of two thousand million years are within reach. *)
Lemma local_of_ok y m d h mi s : - 2 * 10 ^ 9 <= y <= 2 * 10 ^ 9 -> valid y m d -> 0 <= h <= 23 -> 0 <= mi <= 59 ->
  0 <= s -> local_ok (local_of y m d h mi (Z.min s 59)).
Proof.
  intros Hy Hv Hh Hmi Hs. destruct (date_in_year y m d Hv) as [Hj _].
  pose proof (jan1_mono (- 2 * 10 ^ 9) y ltac:(lia)). pose proof (jan1_mono (y + 1) (2 * 10 ^ 9 + 1) ltac:(lia)).
  assert (jan1 (- 2 * 10 ^ 9) = -730485719528) by done. assert (jan1 (2 * 10 ^ 9 + 1) = 730484280838) by done.
  unfold local_ok, local_of, SECS_PER_DAY. lia.
Qed.

Lemma from_parts_wp y m d h mi s ns z dis : CivilZone z -> 0 <= h -> 0 <= mi -> 0 <= s -> 0 <= ns ->
  wp (from_parts_with y m d h mi s ns z dis) (fun r => match r with
    | Ok dt => civil_ok y m d h mi s ns /\ wf_dt dt /\ zone dt = z /\
        resolve_with z (local_of y m d h mi (Z.min s 59)) dis = Some (Ok (secs dt)) /\
        (tracks z (local_of y m d h mi (Z.min s 59)) dis -> parts dt = (y, m, d, h, mi, Z.min s 59, ns))
    | Err e => ~ civil_ok y m d h mi s ns \/
        resolve_with z (local_of y m d h mi (Z.min s 59)) dis = Some (Err e) \/
        (kind e = OutOfRange /\ exists t, resolve_with z (local_of y m d h mi (Z.min s 59)) dis = Some (Ok t) /\
           ~ (MIN_SECS <= t <= MAX_SECS)) end).
Proof.
  intros Hz Hh Hmi Hs Hns. unfold from_parts_with, NANOS_PER_SEC.
  destruct (Z.leb_spec 1000000000 ns); [simpl; left; unfold civil_ok; lia|].
  pose proof (local_seconds_spec y m d h mi s) as Hl. apply tbind_wp. simpl.
  destruct (local_seconds_checked y m d h mi s) as [l|e]; [|left; rewrite civil_ok_ns by lia; apply Hl].
  destruct Hl as [-> Hok]. assert (Hok' : civil_ok y m d h mi s ns) by by apply civil_ok_ns.
  assert (Hlok : local_ok (local_of y m d h mi (Z.min s 59)))
    by (destruct Hok as (? & ? & ? & ? & ? & _); apply local_of_ok; limits; (done || lia)).
  set (l := local_of y m d h mi (Z.min s 59)) in *. apply tbind_wp.
  destruct (cz_resolve l dis Hlok) as [[t|e] Ht]; rewrite Ht; simpl; [|by right; left].
  eapply wp_mono; [apply from_raw_checked_wp; [done|lia]|]. intros [dt|e]; cbn beta iota.
  - intros (Hin & Hwf & <- & <- & <-). split_and!; try done. intros Htr.
    destruct Hok as (Hy & Hv & Hh' & Hm' & Hs' & _). limits.
    apply parts_of_local; [done|unfold year_ok; lia|lia|lia|lia|]. fold l.
    destruct Hwf as (_ & _ & Hoff & _). pose proof (Htr _ Ht) as Ho. rewrite Hoff in Ho. injection Ho as Ho. lia.
  - intros [Hk Hout]. right. right. split; [done|]. by exists t.
Qed.

(** ** Durations *)

Definition wf_duration (d : Duration) : Prop := 0 <= as_secs d < 2 ^ 64 /\ 0 <= subsec_nanos d < 1000000000.
Definition dur_nanos (d : Duration) : Z := as_secs d * 1000000000 + subsec_nanos d.

Definition MIN_NANOS : Z := MIN_SECS * 1000000000.
Definition MAX_NANOS : Z := MAX_SECS * 1000000000 + 999999999.

Lemma from_unix_nanos_eq n : from_unix_nanos n =
  if decide (MIN_NANOS <= n <= MAX_NANOS) then Some (Ok (from_raw (n / 1000000000) (n mod 1000000000) 0 Utc))
  else Some (Err (out_of_range "instant is outside the supported range")).
Proof.
  unfold from_unix_nanos, from_raw_checked, MIN_NANOS, MAX_NANOS, fits64. limits. rewrite Hmin, Hmax.
  pose proof (Z.div_mod n 1000000000 ltac:(lia)). pose proof (Z.mod_pos_bound n 1000000000 ltac:(lia)).
  set (q := n / 1000000000) in *. set (r := n mod 1000000000) in *.
  assert (Hr : u32 r = r) by (apply Z.mod_small; lia). rewrite Hr. case_decide as Hd.
  - destruct (Z.leb_spec (- 2 ^ 63) q), (Z.ltb_spec q (2 ^ 63)); try lia. simpl.
    destruct (Z.leb_spec (-377705116800) q), (Z.leb_spec q 253402300799); try lia. done.
  - destruct ((- 2 ^ 63 <=? q) && (q <? 2 ^ 63)); simpl; [|done].
    destruct (Z.leb_spec (-377705116800) q), (Z.leb_spec q 253402300799); try done. lia.
Qed.

Lemma unix_nanos_wf dt : wf_dt dt -> MIN_NANOS <= unix_nanos dt <= MAX_NANOS /\
  unix_nanos dt / 1000000000 = secs dt /\ unix_nanos dt mod 1000000000 = nanos dt.
Proof.
  intros (Hs & Hn & _). unfold MIN_NANOS, MAX_NANOS, unix_nanos. split; [lia|].
  split; symmetry; [apply (Z.div_unique_pos _ _ _ (nanos dt))|apply (Z.mod_unique_pos _ _ (secs dt))]; lia.
Qed.

(** Both directions: the exact sum when it is in range, else the error. *)
Lemma shift_wp dt n : wf_dt dt -> CivilZone (zone dt) ->
  wp (let! t := from_unix_nanos n in in_timezone_checked t (zone dt)) (fun r => match r with
    | Ok dt' => wf_dt dt' /\ unix_nanos dt' = n /\ zone dt' = zone dt
    | Err e => kind e = OutOfRange /\ ~ (MIN_NANOS <= n <= MAX_NANOS) end).
Proof.
  intros Hwf Hz. apply tbind_wp. rewrite from_unix_nanos_eq. case_decide as Hd; simpl; [|done].
  pose proof (Z.div_mod n 1000000000 ltac:(lia)). pose proof (Z.mod_pos_bound n 1000000000 ltac:(lia)).
  unfold MIN_NANOS, MAX_NANOS in Hd. unfold in_timezone_checked. simpl.
  destruct (Z.ltb_spec (n / 1000000000) MIN_SECS); [lia|]. destruct (Z.ltb_spec MAX_SECS (n / 1000000000)); [lia|]. simpl.
  unfold in_timezone. simpl. destruct (cz_offset (n / 1000000000)) as (o & Ho & Hs); [unfold instant_ok; limits; lia|]. rewrite Ho. simpl.
  unfold wf_dt, unix_nanos. simpl. split_and!; try done; lia.
Qed.

Lemma checked128_ok x : - 2 ^ 126 <= x <= 2 ^ 126 -> checked128 x = Ok x.
Proof.
  intros Hx. unfold checked128, fits128. destruct (Z.leb_spec (- 2 ^ 127) x), (Z.ltb_spec x (2 ^ 127)); try lia. done.
Qed.

Lemma checked_add_wp dt d : wf_dt dt -> CivilZone (zone dt) -> wf_duration d ->
  wp (checked_add dt d) (fun r => match r with
    | Ok dt' => wf_dt dt' /\ unix_nanos dt' = unix_nanos dt + dur_nanos d /\ zone dt' = zone dt
    | Err e => kind e = OutOfRange /\ MAX_NANOS < unix_nanos dt + dur_nanos d end).
Proof.
  intros Hwf Hz [Hd1 Hd2]. destruct (unix_nanos_wf dt Hwf) as (Hu & _). unfold MIN_NANOS, MAX_NANOS in *. limits.
  unfold checked_add. rewrite checked128_ok by lia. unfold tbind at 1. cbn [mbind option_bind].
  rewrite checked128_ok by lia. unfold tbind at 1. cbn [mbind option_bind].
  eapply wp_mono; [by apply shift_wp|]. intros [dt'|e]; unfold dur_nanos; [intros (? & -> & ?); split_and!; [done|lia|done]|].
  unfold MIN_NANOS, MAX_NANOS. intros [? ?]. split; [done|lia].
Qed.

Lemma checked_sub_wp dt d : wf_dt dt -> CivilZone (zone dt) -> wf_duration d ->
  wp (checked_sub dt d) (fun r => match r with
    | Ok dt' => wf_dt dt' /\ unix_nanos dt' = unix_nanos dt - dur_nanos d /\ zone dt' = zone dt
    | Err e => kind e = OutOfRange /\ unix_nanos dt - dur_nanos d < MIN_NANOS end).
Proof.
  intros Hwf Hz [Hd1 Hd2]. destruct (unix_nanos_wf dt Hwf) as (Hu & _). unfold MIN_NANOS, MAX_NANOS in *. limits.
  unfold checked_sub. rewrite checked128_ok by lia. unfold tbind at 1. cbn [mbind option_bind].
  rewrite checked128_ok by lia. unfold tbind at 1. cbn [mbind option_bind].
  eapply wp_mono; [by apply shift_wp|]. intros [dt'|e]; unfold dur_nanos; [intros (? & -> & ?); split_and!; [done|lia|done]|].
  unfold MIN_NANOS, MAX_NANOS. intros [? ?]. split; [done|lia].
Qed.

(** ** Calendar arithmetic in a zone of constant offset *)

Definition constant_zone (z : TimeZone) : Prop := z = Utc \/ exists o, z = Fixed o /\ small o.

Lemma constant_civil z : constant_zone z -> CivilZone z.
Proof. intros [->|(o & -> & Ho)]; [apply _|by apply fixed_civil]. Qed.

Lemma constant_tracks z local dis : constant_zone z -> tracks z local dis.
Proof. intros [->|(o & -> & _)]; apply fixed_tracks; eauto. Qed.

(** The one failure left to a valid date of a supported year: the instant is
    outside the supported range. *)
Definition out_of_reach (e : Error) (t : Z) : Prop :=
  kind e = OutOfRange /\ ~ (MIN_SECS <= t <= MAX_SECS).

Lemma constant_resolve z local dis t0 o : constant_zone z -> offset_at z t0 = Some o -> local_ok local ->
  resolve_with z local dis = Some (Ok (local - o)).
Proof.
  intros [->|(o' & -> & Ho')] Ho Hl; unfold offset_at in Ho; simpl in Ho; injection Ho as <-; [|by apply fixed_resolve].
  simpl. by rewrite Z.sub_0_r.
Qed.

(** Rebuilding a value from a valid date and its own time of day. *)
Lemma rebuild_wp y m d h mi s ns z t0 o : constant_zone z -> offset_at z t0 = Some o -> valid y m d -> 0 <= h <= 23 -> 0 <= mi <= 59 -> 0 <= s <= 59 ->
  0 <= ns < 1000000000 ->
  wp (from_parts y m d h mi s ns z) (fun r => match r with
    | Ok dt => wf_dt dt /\ zone dt = z /\ parts dt = (y, m, d, h, mi, s, ns)
    | Err e => ~ (MIN_YEAR <= y <= MAX_YEAR) \/ out_of_reach e (local_of y m d h mi s - o) end).
Proof.
  intros Hz Ho Hv Hh Hmi Hs Hns. pose proof (constant_civil z Hz).
  eapply wp_mono; [apply from_parts_wp; [done|lia..]|]. rewrite Z.min_l by lia. intros [dt|e].
  - intros (_ & Hwf & Hzn & _ & Hp). split_and!; [done|done|]. apply Hp. by apply constant_tracks.
  - intros He. destruct (decide (MIN_YEAR <= y <= MAX_YEAR)) as [Hy|]; [|by left]. revert He.
    rewrite (constant_resolve z _ _ t0 o) by (done || rewrite <- (Z.min_l s 59) by lia;
      apply local_of_ok; limits; (done || lia)).
    intros [Hn|[?|(Hk & t & [= <-] & Ht)]]; [exfalso; apply Hn; unfold civil_ok; split_and!; (done || lia)|done|by right].
Qed.

Lemma days_in_month_pos y m : 1 <= m <= 12 -> 1 <= days_in_month y m.
Proof. intros Hm. apply (month_cases (fun m => 1 <= days_in_month y m)); [done|..]; simpl; try destruct (is_leap y); lia. Qed.

(** The day of the month, clamped to the month's length. *)
Definition month_day (y m d : Z) : Z := Z.min d (days_in_month y m).

Lemma fits32_year y : fits32 y = false -> ~ (MIN_YEAR <= y <= MAX_YEAR).
Proof. unfold fits32, MIN_YEAR, MAX_YEAR. intros Hf ?. apply andb_false_iff in Hf. lia. Qed.

Lemma clamp_valid y m d : 1 <= m <= 12 -> 1 <= d -> valid y m (month_day y m d).
Proof. intros Hm Hd. pose proof (days_in_month_pos y m Hm). unfold month_day. split; [done|lia]. Qed.

Lemma add_months_wp dt k y m d h mi s ns : wf_dt dt -> constant_zone (zone dt) -> - 2 ^ 31 <= k < 2 ^ 31 ->
  parts dt = (y, m, d, h, mi, s, ns) ->
  let total := y * 12 + m - 1 + k in
  wp (add_months dt k) (fun r => match r with
    | Ok dt' => wf_dt dt' /\ zone dt' = zone dt /\
        parts dt' = (total / 12, total mod 12 + 1, month_day (total / 12) (total mod 12 + 1) d, h, mi, s, ns)
    | Err e => ~ (MIN_YEAR <= total / 12 <= MAX_YEAR) \/
        out_of_reach e (local_of (total / 12) (total mod 12 + 1) (month_day (total / 12) (total mod 12 + 1) d) h mi s - dt_offset dt) end).
Proof.
  intros Hwf Hz Hk Hp total. destruct (parts_valid dt Hwf) as (y' & m' & d' & h' & mi' & s' & Hp' & Hv & _ & Hh & Hmi & Hs & _).
  rewrite Hp in Hp'. injection Hp' as -> -> -> -> -> -> ->. unfold add_months. rewrite Hp. fold total.
  destruct (fits32 (total / 12)) eqn:Hf; [|simpl; left; by apply fits32_year]. cbn [negb].
  pose proof (Z.mod_pos_bound total 12 ltac:(lia)). rewrite u8_id by (unfold byte; lia).
  eapply rebuild_wp; try done; try apply Hwf. apply clamp_valid; [lia|]. apply Hv.
Qed.

Lemma add_years_wp dt k y m d h mi s ns : wf_dt dt -> constant_zone (zone dt) ->
  parts dt = (y, m, d, h, mi, s, ns) ->
  wp (add_years dt k) (fun r => match r with
    | Ok dt' => wf_dt dt' /\ zone dt' = zone dt /\
        parts dt' = (y + k, m, month_day (y + k) m d, h, mi, s, ns)
    | Err e => ~ (MIN_YEAR <= y + k <= MAX_YEAR) \/
        out_of_reach e (local_of (y + k) m (month_day (y + k) m d) h mi s - dt_offset dt) end).
Proof.
  intros Hwf Hz Hp. destruct (parts_valid dt Hwf) as (y' & m' & d' & h' & mi' & s' & Hp' & Hv & _ & Hh & Hmi & Hs & _).
  rewrite Hp in Hp'. injection Hp' as -> -> -> -> -> -> ->. unfold add_years. rewrite Hp.
  destruct (fits32 (y' + k)) eqn:Hf; [|simpl; left; by apply fits32_year]. cbn [negb].
  eapply rebuild_wp; try done; try apply Hwf. apply clamp_valid; apply Hv.
Qed.

Lemma add_days_wp dt k y m d h mi s ns : wf_dt dt -> constant_zone (zone dt) -> - 10 ^ 9 <= k <= 10 ^ 9 ->
  parts dt = (y, m, d, h, mi, s, ns) ->
  wp (add_days dt k) (fun r => match r with
    | Ok dt' => wf_dt dt' /\ zone dt' = zone dt /\ secs dt' = secs dt + k * SECS_PER_DAY /\ nanos dt' = ns /\
        exists y' m' d', parts dt' = (y', m', d', h, mi, s, ns) /\ days_from_civil y' m' d' = days_from_civil y m d + k
    | Err e => forall y' m' d', valid y' m' d' -> days_from_civil y' m' d' = days_from_civil y m d + k ->
        ~ (MIN_YEAR <= y' <= MAX_YEAR) \/ out_of_reach e (secs dt + k * SECS_PER_DAY) end).
Proof.
  intros Hwf Hz Hk Hp. destruct (parts_valid dt Hwf) as (y0 & m0 & d0 & h0 & mi0 & s0 & Hp' & Hv & Hy & Hh & Hmi & Hs & Hl & _).
  rewrite Hp in Hp'. injection Hp' as -> -> -> -> -> -> ->. unfold add_days. rewrite Hp.
  set (target := days_from_civil y0 m0 d0 + k).
  assert (Hb : -4400000 <= days_from_civil y0 m0 d0 <= 4400000).
  { pose proof Hwf as (Hsec & _ & _ & Ho). unfold local_of in Hl. limits. lia. }
  assert (Ht : days_ok target) by (unfold days_ok, target; lia).
  destruct (date_exists target Ht) as (y1 & m1 & d1 & Hv1 & Hy1 & Hd1).
  unfold fits64. unfold days_ok in Ht.
  destruct (Z.leb_spec (- 2 ^ 63) target), (Z.ltb_spec target (2 ^ 63)); try lia. cbn [negb andb].
  rewrite <- Hd1, civil_from_days_date by done. cbn [mbind option_bind]. eapply wp_mono; [eapply rebuild_wp; try done; apply Hwf|].
  intros [dt'|e]; cbn beta iota.
  - intros (Hwf' & Hzn & Hp1). split; [done|]. split; [done|].
    destruct (parts_valid dt' Hwf') as (? & ? & ? & ? & ? & ? & Hp2 & _ & _ & _ & _ & _ & Hl2 & _).
    rewrite Hp1 in Hp2. injection Hp2 as <- <- <- <- <- <- Hns. split; [|split; [done|by exists y1, m1, d1]].
    assert (Hoff : dt_offset dt' = dt_offset dt).
    { destruct Hwf as (_ & _ & Ho1 & _), Hwf' as (_ & _ & Ho2 & _). rewrite Hzn in Ho2.
      destruct Hz as [Hz|(o & Hz & _)]; rewrite Hz in Ho1, Ho2; unfold offset_at in *; simpl in *; congruence. }
    unfold local_of, target in *. lia.
  - intros He y2 m2 d2 Hv2 Hd2. destruct (decide (MIN_YEAR <= y2 <= MAX_YEAR)) as [Hy2|]; [|by left]. limits.
    assert (Heq : (y1, m1, d1) = (y2, m2, d2)).
    { rewrite <- (civil_of_days y1 m1 d1), <- (civil_of_days y2 m2 d2) by (done || unfold year_ok; lia). congruence. }
    injection Heq as -> -> ->. destruct He as [?|He]; [lia|right].
    replace (secs dt + k * 86400) with (local_of y2 m2 d2 h0 mi0 s0 - dt_offset dt); [done|].
    unfold local_of, target, SECS_PER_DAY in *. lia.
Qed.

(** A well-formed value is its instant and its zone. *)
Lemma dt_ext a b : wf_dt a -> wf_dt b -> zone a = zone b -> unix_nanos a = unix_nanos b -> a = b.
Proof.
  intros Ha Hb Hz Hn. destruct (unix_nanos_wf a Ha) as (_ & Ha1 & Ha2), (unix_nanos_wf b Hb) as (_ & Hb1 & Hb2).
  rewrite Hn in Ha1, Ha2. destruct Ha as (_ & _ & Hoa & _), Hb as (_ & _ & Hob & _). rewrite Hz in Hoa.
  destruct a, b; simpl in *. subst. congruence.
Qed.

Lemma saturating_add_wp dt d : wf_dt dt -> CivilZone (zone dt) -> wf_duration d ->
  wp (saturating_add dt d) (fun r => wf_dt r /\ zone r = zone dt /\ unix_nanos r = Z.min (unix_nanos dt + dur_nanos d) MAX_NANOS).
Proof.
  intros Hwf Hz Hd. unfold saturating_add. apply wp_bind. eapply wp_mono; [by apply checked_add_wp|].
  intros [r|e]; cbn beta iota.
  - intros (Hr & Heq & Hzr). apply wp_ret. split; [done|]. split; [done|]. destruct (unix_nanos_wf r Hr) as [Hb _]. lia.
  - intros [_ Hlt]. apply wp_bind. eapply wp_mono; [apply from_raw_checked_wp; [done|lia]|]. limits.
    intros [r|e']; cbn beta iota; [|lia]. intros (_ & Hr & Hs & Hn & Hzr). apply wp_ret. split; [done|]. split; [done|].
    unfold unix_nanos at 1. rewrite Hs, Hn. unfold MAX_NANOS in *. lia.
Qed.

Lemma saturating_sub_wp dt d : wf_dt dt -> CivilZone (zone dt) -> wf_duration d ->
  wp (saturating_sub dt d) (fun r => wf_dt r /\ zone r = zone dt /\ unix_nanos r = Z.max (unix_nanos dt - dur_nanos d) MIN_NANOS).
Proof.
  intros Hwf Hz Hd. unfold saturating_sub. apply wp_bind. eapply wp_mono; [by apply checked_sub_wp|].
  intros [r|e]; cbn beta iota.
  - intros (Hr & Heq & Hzr). apply wp_ret. split; [done|]. split; [done|]. destruct (unix_nanos_wf r Hr) as [Hb _]. lia.
  - intros [_ Hlt]. apply wp_bind. eapply wp_mono; [apply from_raw_checked_wp; [done|lia]|]. limits.
    intros [r|e']; cbn beta iota; [|lia]. intros (_ & Hr & Hs & Hn & Hzr). apply wp_ret. split; [done|]. split; [done|].
    unfold unix_nanos at 1. rewrite Hs, Hn. unfold MIN_NANOS in *. lia.
Qed.

Lemma signed_duration_eq a b : wf_dt a -> wf_dt b ->
  let '(s, n) := signed_duration_since a b in
  s * 1000000000 + n = unix_nanos a - unix_nanos b /\ 0 <= n < 1000000000.
Proof.
  intros (_ & Ha & _) (_ & Hb & _). unfold signed_duration_since, unix_nanos, u32.
  destruct (Z.ltb_spec (nanos a - nanos b) 0); rewrite Z.mod_small by lia; lia.
Qed.

Lemma cmp_eq a b : wf_dt a -> wf_dt b -> DateTime_cmp a b = Z.compare (unix_nanos a) (unix_nanos b).
Proof.
  intros (_ & Ha & _) (_ & Hb & _). unfold DateTime_cmp, unix_nanos. destruct (Z.compare_spec (secs a) (secs b)) as [->|Hlt|Hgt];
    symmetry.
  - apply Zcompare_plus_compat.
  - apply Z.compare_lt_iff. lia.
  - apply Z.compare_gt_iff. lia.
Qed.
End Proofs.

(** ** Claims *)

(** C24: building a value from civil fields.  In any zone that keeps its
    promises, [from_parts_with] never panics; it succeeds only on fields that
    are a valid date and time (a leap second counts as second 59), the value is
    well formed and its instant is the one the zone resolves.  Where the zone
    shows the wall-clock time at that instant, the fields read back are the ones
    given; that is everywhere for UTC and fixed offsets, and for a well-formed
    zone of the database before its last explicit transition wherever
    [classify] does not answer a gap, in which the time is shifted forward.  It
    fails only on invalid fields, on the zone's own rejection, or when the
    instant is outside the supported range. *)
Theorem from_parts_correct `{!TzData} y m d h mi s ns z dis :
  CivilZone z -> 0 <= h -> 0 <= mi -> 0 <= s -> 0 <= ns ->
  let local := local_of y m d h mi (Z.min s 59) in
  wp (from_parts_with y m d h mi s ns z dis) (fun r => match r with
    | Ok dt => civil_ok y m d h mi s ns /\ wf_dt dt /\ zone dt = z /\
        resolve_with z local dis = Some (Ok (secs dt)) /\
        (tracks z local dis -> parts dt = (y, m, d, h, mi, Z.min s 59, ns))
    | Err e => ~ civil_ok y m d h mi s ns \/ resolve_with z local dis = Some (Err e) \/
        (kind e = OutOfRange /\ exists t, resolve_with z local dis = Some (Ok t) /\ ~ (MIN_SECS <= t <= MAX_SECS))
    end) /\
  (constant_zone z -> tracks z local dis) /\
  (forall name ez a, z = Named (mkEntry name (Embedded ez)) -> wf_zone ez -> separated ez -> local_ok local ->
     decided ez (local + 2 * OFFSET_LIMIT) -> classify z local = Some a -> (forall b c, a <> Gap b c) -> tracks z local dis).
Proof.
  intros Hz Hh Hmi Hs Hns local. split; [by apply from_parts_wp|]. split; [apply constant_tracks|].
  intros name ez a ->. by apply embedded_tracks.
Qed.

(** Arithmetic on instants is exact in nanoseconds.  Adding or subtracting
    a duration gives the exact instant in the same zone, or [OutOfRange] when
    it leaves the supported range; the saturating forms stop at the ends;
    subtracting what was added gives the value back; the signed difference is
    the exact one with a normalised fraction; and the order is that of the
    instants. *)
Theorem duration_arithmetic `{!TzData} dt other d :
  wf_dt dt -> wf_dt other -> CivilZone (zone dt) -> wf_duration d ->
  wp (checked_add dt d) (fun r => match r with
    | Ok dt' => wf_dt dt' /\ unix_nanos dt' = unix_nanos dt + dur_nanos d /\ zone dt' = zone dt /\
        checked_sub dt' d = Some (Ok dt)
    | Err e => kind e = OutOfRange /\ MAX_NANOS < unix_nanos dt + dur_nanos d end) /\
  wp (checked_sub dt d) (fun r => match r with
    | Ok dt' => wf_dt dt' /\ unix_nanos dt' = unix_nanos dt - dur_nanos d /\ zone dt' = zone dt
    | Err e => kind e = OutOfRange /\ unix_nanos dt - dur_nanos d < MIN_NANOS end) /\
  wp (saturating_add dt d) (fun r => wf_dt r /\ zone r = zone dt /\ unix_nanos r = Z.min (unix_nanos dt + dur_nanos d) MAX_NANOS) /\
  wp (saturating_sub dt d) (fun r => wf_dt r /\ zone r = zone dt /\ unix_nanos r = Z.max (unix_nanos dt - dur_nanos d) MIN_NANOS) /\
  (let '(s, n) := signed_duration_since dt other in
   s * 1000000000 + n = unix_nanos dt - unix_nanos other /\ 0 <= n < 1000000000) /\
  DateTime_cmp dt other = Z.compare (unix_nanos dt) (unix_nanos other).
Proof.
  intros Hwf Hwo Hz Hd. split.
  { eapply wp_mono; [by apply checked_add_wp|]. intros [dt'|e]; [|done]. intros (Hwf' & Hn & Hzn). split_and!; try done.
    rewrite <- Hzn in Hz. destruct (wp_elim _ _ (checked_sub_wp dt' d Hwf' Hz Hd)) as ([r|e] & -> & Hsub).
    - destruct Hsub as (Hr & Hrn & Hrz). do 2 f_equal. apply dt_ext; [done|done|congruence|lia].
    - destruct Hsub as [_ Hsub]. destruct (unix_nanos_wf dt Hwf) as [Hb _]. lia. }
  split; [by apply checked_sub_wp|]. split; [by apply saturating_add_wp|]. split; [by apply saturating_sub_wp|].
  split; [by apply signed_duration_eq|by apply cmp_eq].
Qed.

(** C36: calendar arithmetic in UTC or at a fixed offset keeps the time of day.
    [add_months] and [add_years] move the month and clamp the day to its
    length; [add_days], for up to a thousand million days either way, moves the
    day number and the instant by exactly that many days; the results are well
    formed, and a date whose year is supported fails only when the instant
    leaves the supported range. *)
Theorem calendar_arithmetic `{!TzData} dt k y m d h mi s ns :
  wf_dt dt -> constant_zone (zone dt) -> parts dt = (y, m, d, h, mi, s, ns) -> - 10 ^ 9 <= k <= 10 ^ 9 ->
  let total := y * 12 + m - 1 + k in
  wp (add_months dt k) (fun r => match r with
    | Ok dt' => wf_dt dt' /\ zone dt' = zone dt /\
        parts dt' = (total / 12, total mod 12 + 1, month_day (total / 12) (total mod 12 + 1) d, h, mi, s, ns)
    | Err e => ~ (MIN_YEAR <= total / 12 <= MAX_YEAR) \/
        out_of_reach e (local_of (total / 12) (total mod 12 + 1) (month_day (total / 12) (total mod 12 + 1) d) h mi s - dt_offset dt) end) /\
  wp (add_years dt k) (fun r => match r with
    | Ok dt' => wf_dt dt' /\ zone dt' = zone dt /\ parts dt' = (y + k, m, month_day (y + k) m d, h, mi, s, ns)
    | Err e => ~ (MIN_YEAR <= y + k <= MAX_YEAR) \/
        out_of_reach e (local_of (y + k) m (month_day (y + k) m d) h mi s - dt_offset dt) end) /\
  wp (add_days dt k) (fun r => match r with
    | Ok dt' => wf_dt dt' /\ zone dt' = zone dt /\ secs dt' = secs dt + k * SECS_PER_DAY /\ nanos dt' = ns /\
        exists y' m' d', parts dt' = (y', m', d', h, mi, s, ns) /\ days_from_civil y' m' d' = days_from_civil y m d + k
    | Err e => forall y' m' d', valid y' m' d' -> days_from_civil y' m' d' = days_from_civil y m d + k ->
        ~ (MIN_YEAR <= y' <= MAX_YEAR) \/ out_of_reach e (secs dt + k * SECS_PER_DAY) end).
Proof.
  intros Hwf Hz Hp Hk total. split; [apply add_months_wp; try done; lia|]. split; [by apply add_years_wp|by apply add_days_wp].
Qed.

(** [add_days] does not report every result that is out of range, because
    the year is narrowed to 32 bits before it is checked: adding 1568704592610
    days to the epoch (2^32 years) gives the epoch again.  And a day count near
    the largest [i64] passes the checked addition, then overflows inside
    [civil_from_days]. *)
Theorem add_days_wraps `{!TzData} :
  days_from_civil (1970 + 2 ^ 32) 1 1 = 1568704592610 /\
  add_days UNIX_EPOCH 1568704592610 = Some (Ok UNIX_EPOCH) /\
  add_days UNIX_EPOCH (2 ^ 63 - 1) = None.
Proof. split; [reflexivity|]. split; reflexivity. Qed.

(** ** Concrete instances *)

Lemma epoch_wf `{!TzData} : wf_dt UNIX_EPOCH.
Proof. destruct secs_limits as [H1 H2]. unfold wf_dt, small, OFFSET_LIMIT. simpl. split_and!; try done; lia. Qed.

Section Instances.
#[local] Existing Instance sample_data.

Lemma from_parts_witness :
  let dt := from_raw 951782400 5 3600 (Fixed 3600) in
  from_parts_with 2000 2 29 1 0 0 5 (Fixed 3600) Reject = Some (Ok dt) /\
  parts dt = (2000, 2, 29, 1, 0, 0, 5).
Proof.
  assert (Ho : small 3600) by (unfold small, OFFSET_LIMIT; lia). split; [reflexivity|].
  destruct (from_parts_correct 2000 2 29 1 0 0 5 (Fixed 3600) Reject (fixed_civil 3600 Ho)
    ltac:(lia) ltac:(lia) ltac:(lia) ltac:(lia)) as (H & Ht & _).
  change (from_parts_with 2000 2 29 1 0 0 5 (Fixed 3600) Reject)
    with (Some (Ok (E := Error) (from_raw 951782400 5 3600 (Fixed 3600)))) in H.
  apply H. apply Ht. right. by exists 3600.
Defined.

Lemma duration_arithmetic_witness :
  let later := from_raw 1 500000000 0 Utc in
  checked_add UNIX_EPOCH (mkDuration 1 500000000) = Some (Ok later) /\
  checked_sub later (mkDuration 1 500000000) = Some (Ok UNIX_EPOCH).
Proof.
  split; [reflexivity|].
  assert (Hd : wf_duration (mkDuration 1 500000000)) by (split; simpl; lia).
  destruct (duration_arithmetic UNIX_EPOCH UNIX_EPOCH (mkDuration 1 500000000) epoch_wf epoch_wf utc_civil Hd) as [Hadd _].
  change (checked_add UNIX_EPOCH (mkDuration 1 500000000))
    with (Some (Ok (E := Error) (from_raw 1 500000000 0 Utc))) in Hadd.
  destruct Hadd as (_ & _ & _ & Hsub). exact Hsub.
Defined.

Lemma calendar_arithmetic_witness :
  wp (add_years UNIX_EPOCH 30) (fun r => match r with
    | Ok dt' => wf_dt dt' /\ zone dt' = zone UNIX_EPOCH /\
        parts dt' = (1970 + 30, 1, month_day (1970 + 30) 1 1, 0, 0, 0, 0)
    | Err e => ~ (MIN_YEAR <= 1970 + 30 <= MAX_YEAR) \/
        out_of_reach e (local_of (1970 + 30) 1 (month_day (1970 + 30) 1 1) 0 0 0 - dt_offset UNIX_EPOCH) end).
Proof.
  assert (Hz : constant_zone (zone UNIX_EPOCH)) by (left; reflexivity).
  assert (Hp : parts UNIX_EPOCH = (1970, 1, 1, 0, 0, 0, 0)) by (vm_compute; reflexivity).
  assert (Hk : - 10 ^ 9 <= 30 <= 10 ^ 9) by lia.
  exact (proj1 (proj2 (calendar_arithmetic UNIX_EPOCH 30 1970 1 1 0 0 0 0 epoch_wf Hz Hp Hk))).
Defined.

End Instances.

End DateTime.
