(* ===== verification/TzIndex.v ===== *)
(** * time: zones by name

    The name index of src/time/tzdb.rs and [TimeZone::named] of
    src/time/timezone.rs, in the build with the embedded database and without
    the system zone.  The generated table is the class [TzNames], its order the
    class [TzNamesLaws]. *)
From Stdlib Require Import ZArith Lia String.
From stdpp Require Import base list numbers option.
From S2P Require Import Prelude Words Order Civil Posix Tzif TimeZone.
Import TimeZone.

#[local] Close Scope string_scope.

Module TzIndex.

Definition to_ascii_lowercase (c : Z) : Z := if (65 <=? c) && (c <=? 90) then c + 32 else c.
Definition eq_ignore_ascii_case (a b : list Z) : bool :=
  bool_decide (map to_ascii_lowercase a = map to_ascii_lowercase b).

(** The loop over the common length, then the lengths. *)
Fixpoint compare_lowercase (left right : list Z) : comparison :=
  match left, right with
  | x :: left', y :: right' =>
      let a := to_ascii_lowercase x in
      let b := to_ascii_lowercase y in
      if negb (a =? b) then Z.compare a b else compare_lowercase left' right'
  | _, _ => Nat.compare (length left) (length right)
  end.

(** The generated table, one entry for each name. *)
Class TzNames := { ZONES : list ZoneEntry }.

Section Names.
Context `{!TzNames}.

Definition lookup (name : list Z) : option (option ZoneEntry) :=
  r ← binary_search_by ZONES (fun zone => compare_lowercase (entry_name zone) name);
  match r with Ok index => zone ← ZONES !! index; Some (Some zone) | Err _ => Some None end.

Definition is_utc_convenience (name : list Z) : bool := eq_ignore_ascii_case name (lit "z").

Definition system : result TimeZone Error := Ok UTC.

Definition named (name : list Z) : option (result TimeZone Error) :=
  if is_utc_convenience name then Some (Ok UTC) else
  if eq_ignore_ascii_case name (lit "local") then Some system else
  entry ← lookup name;
  Some (match entry with
        | Some entry => Ok (Named entry)
        | None => Err (unknown_time_zone "unknown time zone")
        end).

Definition annotation_name (self : TimeZone) : option (list Z) :=
  match self with Named entry => Some (entry_name entry) | _ => None end.
End Names.

(** The generator sorts the table by the lowered names, without repetition. *)
Class TzNamesLaws `{!TzNames} := {
  ZONES_sorted i j a b : (i < j)%nat -> ZONES !! i = Some a -> ZONES !! j = Some b ->
    compare_lowercase (entry_name a) (entry_name b) = Lt;
}.

(** ** The order of the table *)

Definition lowered (name : list Z) : list Z := map to_ascii_lowercase name.

Lemma compare_lowercase_eq a b : compare_lowercase a b = list_cmp Z.compare (lowered a) (lowered b).
Proof.
  revert b. induction a as [|x a IH]; intros [|y b]; try done. cbn [compare_lowercase lowered map list_cmp].
  destruct (Z.eqb_spec (to_ascii_lowercase x) (to_ascii_lowercase y)) as [->|Hne]; cbn [negb].
  - rewrite Z.compare_refl. apply IH.
  - by destruct (Z.compare_spec (to_ascii_lowercase x) (to_ascii_lowercase y)).
Qed.

Lemma eq_ignore_case_iff a b : eq_ignore_ascii_case a b = true <-> lowered a = lowered b.
Proof. apply bool_decide_eq_true. Qed.

Section Search.
Context `{!TzNames, !TzNamesLaws}.

(** The search finds exactly the entry of that name, up to case. *)
Lemma lookup_name_wp name : wp (lookup name) (fun r => match r with
  | Some e => e ∈ ZONES /\ lowered (entry_name e) = lowered name
  | None => forall e, e ∈ ZONES -> lowered (entry_name e) <> lowered name
  end).
Proof.
  unfold lookup. apply wp_bind. eapply wp_mono; [apply binary_search_wp|].
  - intros i j x y Hij Hx Hy Hg. pose proof (ZONES_sorted i j x y Hij Hx Hy) as Hxy.
    rewrite compare_lowercase_eq in *. destruct (list_cmp Z.compare (lowered (entry_name y)) (lowered name)) eqn:E; [|by eapply cmp_trans|done].
    apply (cmp_eqv (cmp := list_cmp Z.compare)) in E. by rewrite <- E.
  - intros [i|i].
    + intros (e & He & Heq). rewrite He. cbn [mbind option_bind wp]. split; [by eapply list_elem_of_lookup_2|].
      rewrite compare_lowercase_eq in Heq. by apply (cmp_eqv (cmp := list_cmp Z.compare)) in Heq.
    + intros Hno. cbn [wp]. intros e [j He]%list_elem_of_lookup_1 Heq. apply (Hno j e He).
      rewrite compare_lowercase_eq. by apply (cmp_eqv (cmp := list_cmp Z.compare)).
Qed.

Lemma lowered_unique a b : a ∈ ZONES -> b ∈ ZONES -> lowered (entry_name a) = lowered (entry_name b) -> a = b.
Proof.
  intros [i Ha]%list_elem_of_lookup_1 [j Hb]%list_elem_of_lookup_1 Heq.
  assert (Hne : forall i j x y, (i < j)%nat -> ZONES !! i = Some x -> ZONES !! j = Some y ->
    lowered (entry_name x) <> lowered (entry_name y)).
  { intros i' j' x y Hij Hx Hy E. pose proof (ZONES_sorted i' j' x y Hij Hx Hy) as Hc.
    rewrite compare_lowercase_eq, E, (proj2 (cmp_eqv (cmp := list_cmp Z.compare) _ _)) in Hc; done. }
  destruct (lt_eq_lt_dec i j) as [[Hlt| ->]|Hlt].
  - by destruct (Hne i j a b Hlt Ha Hb).
  - rewrite Ha in Hb. by injection Hb.
  - by destruct (Hne j i b a Hlt Hb Ha).
Qed.

(** A zone is found again by its own name, unless the name is an alias that
    [named] answers before it looks. *)
Lemma named_wp name : wp (named name) (fun r => match r with
  | Ok z => z = Utc \/ exists e, z = Named e /\ e ∈ ZONES /\ lowered (entry_name e) = lowered name
  | Err e => kind e = UnknownTimeZone /\ forall e, e ∈ ZONES -> lowered (entry_name e) <> lowered name
  end).
Proof.
  unfold named. destruct (is_utc_convenience name); [by left|]. destruct (eq_ignore_ascii_case name _); [by left|].
  apply wp_bind. eapply wp_mono; [apply lookup_name_wp|]. intros [e|] Hl; cbn [wp]; [right; by exists e|by split].
Qed.

Definition reserved (name : list Z) : Prop := lowered name = lit "z" \/ lowered name = lit "local".

Lemma named_own e : e ∈ ZONES -> ~ reserved (entry_name e) -> named (entry_name e) = Some (Ok (Named e)).
Proof.
  intros He Hr. apply wp_eq. unfold named, is_utc_convenience.
  destruct (eq_ignore_ascii_case _ (lit "z")) eqn:E1; [apply eq_ignore_case_iff in E1; destruct Hr; by left|].
  destruct (eq_ignore_ascii_case _ (lit "local")) eqn:E2; [apply eq_ignore_case_iff in E2; destruct Hr; by right|].
  apply wp_bind. eapply wp_mono; [apply lookup_name_wp|]. intros [e'|] Hl; cbn [wp].
  - do 2 f_equal. destruct Hl as [He' Heq]. by apply lowered_unique.
  - by destruct (Hl e He).
Qed.
End Search.

End TzIndex.
