(* ===== verification/TimeFormat.v ===== *)
(** * time: formatting

    src/time/format.rs, and the formatting methods of src/time/datetime.rs.  A
    text is the list of its bytes.  Every [Display] implementation renders into
    a buffer on the stack first and falls back to the [fmt] machinery when that
    fails; both paths are here, [fmt] as the text it appends (a writer that
    fails is outside the model).  [step] is a method of [Buf]: it returns the
    buffer and whether it had room. *)
From Stdlib Require Import ZArith Lia String.
From stdpp Require Import base list numbers option.
From S2P Require Import Prelude Words Utf8 Civil Posix Tzif TimeZone DateTime TzIndex.
Import Civil Posix Tzif TimeZone DateTime TzIndex.

#[local] Close Scope string_scope.

Module TimeFormat.

Definition MAX_FORMATTED_LENGTH : nat := 96.

Inductive Format := Rfc3339 | Rfc9557 | Iso8601 | Rfc2822 | HttpDate | DateOnly | TimeOnly.

(** ** The buffer *)

Record Buf := mkBuf { out : list Z; len : nat }.
Definition step : Type := Buf -> option (Buf * bool).

(** [f && g]: the second runs when the first had room. *)
Definition and_then (f g : step) : step := fun buf =>
  '(buf, ok) ← f buf; if (ok : bool) then g buf else Some (buf, false).
Infix "&&>" := and_then (at level 61, left associativity).

Definition put_byte (byte : Z) : step := fun self =>
  if (len self <? length (out self))%nat then
    bytes ← upd (out self) (len self) byte;
    Some (mkBuf bytes (len self + 1), true)
  else Some (self, false).

Definition put_bytes (bytes : list Z) : step := fun self =>
  if (len self + length bytes <=? length (out self))%nat then
    out ← copy_at (out self) (len self) bytes;
    Some (mkBuf out (len self + length bytes), true)
  else Some (self, false).

(** The digits of a [u32], from the end of the scratch array. *)
Fixpoint scratch_loop (index : nat) (value : Z) (scratch : list Z) : option (nat * list Z) :=
  match index with
  | O => None
  | S index =>
      scratch ← upd scratch index (48 + u8 (value mod 10));
      let value := value / 10 in
      if value =? 0 then Some (index, scratch) else scratch_loop index value scratch
  end.

Definition pad (value : Z) (width : nat) : step := fun self =>
  '(index, scratch) ← scratch_loop 10 value (replicate 10 48);
  let digits := (10 - index)%nat in
  if (width <? digits)%nat then Some (self, false) else
  padding ← slice (replicate 10 48) 0 (width - digits);
  rest ← slice scratch index 10;
  (put_bytes padding &&> put_bytes rest) self.

Definition put_year (year : Z) : step :=
  if (0 <=? year) && (year <=? 9999) then pad (u32 year) 4
  else if year <? 0 then put_byte 45 &&> pad (u32 (- year)) 4
  else put_byte 43 &&> pad (u32 year) 1.

Definition sign_of (offset : Z) : Z := if offset <? 0 then 45 else 43.

Definition put_offset (offset : Z) : step :=
  let abs := Z.abs offset in
  let seconds := abs mod 60 in
  put_byte (sign_of offset) &&> pad (abs / 3600) 2 &&> put_byte 58 &&> pad (abs mod 3600 / 60) 2 &&>
  (if seconds =? 0 then (fun buf => Some (buf, true)) else put_byte 58 &&> pad seconds 2).

Definition offset_compact (offset : Z) : step :=
  let abs := Z.abs offset in
  put_byte (sign_of offset) &&> pad (abs / 3600) 2 &&> pad (abs mod 3600 / 60) 2.

Definition fraction (nanos : Z) : step :=
  if nanos =? 0 then (fun buf => Some (buf, true))
  else if nanos mod 1000000 =? 0 then put_byte 46 &&> pad (nanos / 1000000) 3
  else if nanos mod 1000 =? 0 then put_byte 46 &&> pad (nanos / 1000) 6
  else put_byte 46 &&> pad nanos 9.

Definition MONTHS : list (list Z) :=
  map lit ["Jan"; "Feb"; "Mar"; "Apr"; "May"; "Jun"; "Jul"; "Aug"; "Sep"; "Oct"; "Nov"; "Dec"]%string.
Definition month_short (month : Z) : list Z :=
  if month <? 1 then lit "???" else default (lit "???") (MONTHS !! Z.to_nat (month - 1)).
Definition month_short_name (month : Z) : list Z := month_short month.

Definition timezone_name (self : DateTime) : option (list Z) := annotation_name (zone self).

(** ** The formats, into the buffer *)

Section Formats.
Context `{!TzData}.

Definition format_iso (dt : DateTime) (z_suffix with_zone : bool) : step := fun buf =>
  let '(year, month, day, hour, minute, second, nanos) := parts dt in
  '(buf, base) ← (put_year year &&> put_byte 45 &&> pad month 2 &&> put_byte 45 &&> pad day 2 &&>
    put_byte 84 &&> pad hour 2 &&> put_byte 58 &&> pad minute 2 &&> put_byte 58 &&> pad second 2 &&>
    fraction nanos &&>
    (if z_suffix && (dt_offset dt =? 0) then put_byte 90 else put_offset (dt_offset dt))) buf;
  if negb base || negb with_zone then Some (buf, base) else
  match timezone_name dt with
  | Some name => (put_byte 91 &&> put_bytes name &&> put_byte 93) buf
  | None => Some (buf, true)
  end.

Definition format_rfc2822 (dt : DateTime) : step :=
  let '(year, month, day, hour, minute, second, _) := parts dt in
  put_bytes (lit (short_name (weekday dt))) &&> put_bytes (lit ", ") &&> pad day 2 &&> put_byte 32 &&>
  put_bytes (month_short_name month) &&> put_byte 32 &&> put_year year &&> put_byte 32 &&>
  pad hour 2 &&> put_byte 58 &&> pad minute 2 &&> put_byte 58 &&> pad second 2 &&> put_byte 32 &&>
  offset_compact (dt_offset dt).

Definition format_http (dt : DateTime) : step := fun buf =>
  utc ← in_timezone dt UTC;
  let '(year, month, day, hour, minute, second, _) := parts utc in
  (put_bytes (lit (short_name (weekday utc))) &&> put_bytes (lit ", ") &&> pad day 2 &&> put_byte 32 &&>
   put_bytes (month_short_name month) &&> put_byte 32 &&> put_year year &&> put_byte 32 &&>
   pad hour 2 &&> put_byte 58 &&> pad minute 2 &&> put_byte 58 &&> pad second 2 &&> put_bytes (lit " GMT")) buf.

Definition format_date (dt : DateTime) : step :=
  let '(year, month, day, _, _, _, _) := parts dt in
  put_year year &&> put_byte 45 &&> pad month 2 &&> put_byte 45 &&> pad day 2.

Definition format_time (dt : DateTime) : step :=
  let '(_, _, _, hour, minute, second, nanos) := parts dt in
  pad hour 2 &&> put_byte 58 &&> pad minute 2 &&> put_byte 58 &&> pad second 2 &&> fraction nanos.

(** The buffer, and the number of bytes written unless it was too small. *)
Definition format_into (out_ : list Z) (dt : DateTime) (format : Format) : option (list Z * option nat) :=
  let buf := mkBuf out_ 0 in
  '(buf, ok) ← match format with
    | Rfc3339 => format_iso dt true false buf
    | Rfc9557 => format_iso dt true true buf
    | Iso8601 => format_iso dt false false buf
    | Rfc2822 => format_rfc2822 dt buf
    | HttpDate => format_http dt buf
    | DateOnly => format_date dt buf
    | TimeOnly => format_time dt buf
    end;
  Some (out buf, if (ok : bool) then Some (len buf) else None).

(** ** The formats, through [fmt] *)

(** [{v:0width}] of a number that is not negative. *)
Definition fmt_width (width : nat) (v : Z) : list Z :=
  let digits := show_dec v in replicate (width - length digits) 48 ++ digits.

Definition write_year (year : Z) : list Z :=
  if (0 <=? year) && (year <=? 9999) then fmt_width 4 year
  else if year <? 0 then 45 :: fmt_width 4 (- year)
  else 43 :: show_dec year.

Definition write_offset (offset : Z) : list Z :=
  let abs := Z.abs offset in
  let hours := abs / 3600 in
  let minutes := abs mod 3600 / 60 in
  let seconds := abs mod 60 in
  if seconds =? 0 then sign_of offset :: fmt_width 2 hours ++ [58] ++ fmt_width 2 minutes
  else sign_of offset :: fmt_width 2 hours ++ [58] ++ fmt_width 2 minutes ++ [58] ++ fmt_width 2 seconds.

Definition write_offset_compact (offset : Z) : list Z :=
  let abs := Z.abs offset in
  sign_of offset :: fmt_width 2 (abs / 3600) ++ fmt_width 2 (abs mod 3600 / 60).

Definition write_fraction (nanos : Z) : list Z :=
  if nanos =? 0 then []
  else if nanos mod 1000000 =? 0 then 46 :: fmt_width 3 (nanos / 1000000)
  else if nanos mod 1000 =? 0 then 46 :: fmt_width 6 (nanos / 1000)
  else 46 :: fmt_width 9 nanos.

Definition write_clock (hour minute second : Z) : list Z :=
  fmt_width 2 hour ++ [58] ++ fmt_width 2 minute ++ [58] ++ fmt_width 2 second.
Definition write_month_day (month day : Z) : list Z := [45] ++ fmt_width 2 month ++ [45] ++ fmt_width 2 day.

Definition write_iso (dt : DateTime) (z_suffix with_zone : bool) : list Z :=
  let '(year, month, day, hour, minute, second, nanos) := parts dt in
  write_year year ++ write_month_day month day ++ [84] ++ write_clock hour minute second ++ write_fraction nanos ++
  (if z_suffix && (dt_offset dt =? 0) then [90] else write_offset (dt_offset dt)) ++
  (if with_zone then match timezone_name dt with Some name => [91] ++ name ++ [93] | None => [] end else []).

Definition write_date (dt : DateTime) : list Z :=
  let '(year, month, day, _, _, _, _) := parts dt in write_year year ++ write_month_day month day.

Definition write_time (dt : DateTime) : list Z :=
  let '(_, _, _, hour, minute, second, nanos) := parts dt in write_clock hour minute second ++ write_fraction nanos.

Definition write_rfc2822 (dt : DateTime) : list Z :=
  let '(year, month, day, hour, minute, second, _) := parts dt in
  lit (short_name (weekday dt)) ++ lit ", " ++ fmt_width 2 day ++ [32] ++ month_short month ++ [32] ++
  write_year year ++ [32] ++ write_clock hour minute second ++ [32] ++ write_offset_compact (dt_offset dt).

Definition write_http_date (dt : DateTime) : option (list Z) :=
  utc ← in_timezone dt UTC;
  let '(year, month, day, hour, minute, second, _) := parts utc in
  Some (lit (short_name (weekday utc)) ++ lit ", " ++ fmt_width 2 day ++ [32] ++ month_short month ++ [32] ++
    write_year year ++ [32] ++ write_clock hour minute second ++ lit " GMT").

Definition write_format (dt : DateTime) (format : Format) : option (list Z) :=
  match format with
  | Rfc3339 => Some (write_iso dt true false)
  | Rfc9557 => Some (write_iso dt true true)
  | Iso8601 => Some (write_iso dt false false)
  | Rfc2822 => Some (write_rfc2822 dt)
  | HttpDate => write_http_date dt
  | DateOnly => Some (write_date dt)
  | TimeOnly => Some (write_time dt)
  end.

(** ** The public methods *)

(** [Display for Formatted]; the error is the one of [fmt]. *)
Definition Formatted_fmt (dt : DateTime) (format : Format) : option (result (list Z) unit) :=
  '(buffer, len) ← format_into (replicate MAX_FORMATTED_LENGTH 0) dt format;
  match len with
  | Some len => s ← slice buffer 0 len; Some (match Utf8.from_utf8 s with Ok t => Ok t | Err _ => Err tt end)
  | None => t ← write_format dt format; Some (Ok t)
  end.

(** [Display for DateTime]. *)
Definition write_datetime (dt : DateTime) : option (result (list Z) unit) :=
  '(buffer, len) ← format_into (replicate MAX_FORMATTED_LENGTH 0) dt Rfc9557;
  match len with
  | Some len => s ← slice buffer 0 len; Some (match Utf8.from_utf8 s with Ok t => Ok t | Err _ => Err tt end)
  | None =>
      let '(year, month, day, hour, minute, second, nanos) := parts dt in
      Some (Ok (write_year year ++ write_month_day month day ++ [84] ++ write_clock hour minute second ++
        write_fraction nanos ++ (if dt_offset dt =? 0 then [90] else write_offset (dt_offset dt)) ++
        match timezone_name dt with Some name => [91] ++ name ++ [93] | None => [] end))
  end.

Definition write_to (dt : DateTime) (format : Format) (buffer : list Z) : option (list Z * result nat Error) :=
  '(buffer, len) ← format_into buffer dt format;
  Some (buffer, match len with
    | Some len => Ok len
    | None => Err (buffer_too_small "buffer is too small for the formatted value")
    end).

Definition has_seconds_offset (format : Format) : bool :=
  match format with Rfc3339 | Rfc9557 | Iso8601 | Rfc2822 => true | _ => false end.

Definition try_format (self : DateTime) (format : Format) : result unit Error :=
  if negb (match format with TimeOnly => true | _ => false end) && negb ((0 <=? year self) && (year self <=? 9999)) then
    Err (out_of_range "value cannot be represented in the requested format") else
  if has_seconds_offset format && negb (Z.rem (dt_offset self) 60 =? 0) then
    Err (out_of_range "offset cannot be represented in the requested format") else
  Ok tt.

Definition format_to (self : DateTime) (buffer : list Z) (format : Format) : option (list Z * result nat Error) :=
  match try_format self format with
  | Err e => Some (buffer, Err e)
  | Ok _ => write_to self format buffer
  end.
End Formats.

(** ** What a step renders

    [renders f s]: [f] appends [s] when it fits, and otherwise reports that it
    does not; [refuses f]: it reports that, whatever the room. *)
Definition extend (b : Buf) (s : list Z) : Buf :=
  mkBuf (take (len b) (out b) ++ s ++ drop (len b + length s) (out b)) (len b + length s).

Definition sane (b : Buf) : Prop := (len b <= length (out b))%nat.

Definition renders (f : step) (s : list Z) : Prop := forall b, sane b ->
  wp (f b) (fun '(b', ok) => length (out b') = length (out b) /\
    if (ok : bool) then (len b + length s <= length (out b))%nat /\ b' = extend b s
    else (length (out b) < len b + length s)%nat).

Definition refuses (f : step) : Prop := forall b, sane b ->
  wp (f b) (fun '(b', ok) => length (out b') = length (out b) /\ ok = false).

Lemma extend_sane b s : (len b + length s <= length (out b))%nat ->
  sane (extend b s) /\ length (out (extend b s)) = length (out b).
Proof. intros H. unfold sane, extend. cbn [out len]. rewrite !length_app, length_take, length_drop. lia. Qed.

Lemma extend_extend b s t : (len b + length s <= length (out b))%nat -> extend (extend b s) t = extend b (s ++ t).
Proof.
  intros H. unfold extend. cbn [out len]. rewrite length_app. f_equal; [|lia].
  rewrite !(app_assoc _ s), take_app_length' by (rewrite length_app, length_take; lia).
  rewrite drop_app_ge by (rewrite length_app, length_take; lia). rewrite drop_drop, length_app, length_take.
  rewrite <- !app_assoc. do 4 f_equal. lia.
Qed.

Lemma renders_and f g s t : renders f s -> renders g t -> renders (f &&> g) (s ++ t).
Proof.
  intros Hf Hg b Hb. unfold and_then. apply wp_bind. eapply wp_mono; [by apply Hf|]. intros [b1 [|]] [Hl H1].
  - destruct H1 as [Hfit ->]. destruct (extend_sane b s Hfit) as [Hs _].
    eapply wp_mono; [by apply Hg|]. intros [b2 ok] [Hl2 H2]. rewrite Hl2, Hl. split; [done|].
    rewrite Hl in H2. cbn [len extend] in H2. rewrite length_app. destruct ok; [|lia].
    destruct H2 as [Hfit2 ->]. split; [lia|]. by apply extend_extend.
  - cbn [wp]. split; [done|]. rewrite length_app. lia.
Qed.

Lemma refuses_left f g : refuses f -> refuses (f &&> g).
Proof.
  intros Hf b Hb. unfold and_then. apply wp_bind. eapply wp_mono; [by apply Hf|]. by intros [b1 ok] [Hl ->].
Qed.

Lemma refuses_right f g s : renders f s -> refuses g -> refuses (f &&> g).
Proof.
  intros Hf Hg b Hb. unfold and_then. apply wp_bind. eapply wp_mono; [by apply Hf|]. intros [b1 [|]] [Hl H1]; [|done].
  destruct H1 as [Hfit ->]. destruct (extend_sane b s Hfit) as [Hs _].
  eapply wp_mono; [by apply Hg|]. intros [b2 ok] [Hl2 H2]. by rewrite Hl2, Hl.
Qed.

Lemma renders_nil : renders (fun buf => Some (buf, true)) [].
Proof.
  intros [o n] Hb. unfold sane in Hb. cbn [out len] in *. cbn [wp]. split; [done|]. split; [simpl; lia|].
  unfold extend. cbn [out len length app]. by rewrite Nat.add_0_r, take_drop.
Qed.

Lemma renders_bytes s : renders (put_bytes s) s.
Proof.
  intros b Hb. unfold put_bytes. destruct (Nat.leb_spec (len b + length s) (length (out b))) as [H|H].
  - unfold copy_at. rewrite decide_True by done. cbn [mbind option_bind wp].
    split; [apply (extend_sane b s H)|]. by split.
  - cbn [wp]. by split.
Qed.

Lemma renders_byte c : renders (put_byte c) [c].
Proof.
  intros b Hb. unfold put_byte, upd. destruct (Nat.ltb_spec (len b) (length (out b))) as [H|H].
  - rewrite decide_True by done. cbn [mbind option_bind wp]. assert (Hf : (len b + length [c] <= length (out b))%nat) by (simpl; lia).
    split; [cbn [out]; apply length_insert|]. split; [done|]. unfold extend. f_equal. cbn [app length].
    rewrite insert_take_drop by done. by rewrite Nat.add_1_r.
  - cbn [wp]. simpl. split; [done|lia].
Qed.

(** ** Digits *)

(** The last [w] decimal digits of [v]. *)
Fixpoint digits (w : nat) (v : Z) : list Z :=
  match w with O => [] | S w' => digits w' (v / 10) ++ [48 + v mod 10] end.

Lemma length_digits w v : length (digits w v) = w.
Proof. revert v. induction w as [|w IH]; intros v; [done|]. simpl. rewrite length_app, IH. simpl. lia. Qed.

Lemma digits_zero w : digits w 0 = replicate w 48.
Proof. induction w as [|w IH]; [done|]. cbn [digits]. change (0 / 10) with 0. by rewrite IH, <- replicate_S_end. Qed.

Lemma digits_pad n w v : (n <= w)%nat -> 0 <= v < 10 ^ Z.of_nat n -> digits w v = replicate (w - n) 48 ++ digits n v.
Proof.
  revert w v. induction n as [|n IH]; intros w v Hn Hv.
  - simpl in Hv. replace v with 0 by lia. by rewrite digits_zero, Nat.sub_0_r, app_nil_r.
  - destruct w as [|w]; [lia|]. cbn [digits]. rewrite (IH w (v / 10)), app_assoc; [done|lia|].
    rewrite Nat2Z.inj_succ, Z.pow_succ_r in Hv by lia. split; [apply Z.div_pos; lia|apply Z.div_lt_upper_bound; lia].
Qed.

(** Printing without padding: [n] digits, no more than needed. *)
Definition needed (n : nat) (v : Z) : Prop := 0 <= v < 10 ^ Z.of_nat n /\ (1 <= n)%nat /\ (n = 1%nat \/ 10 ^ Z.of_nat (n - 1) <= v).

Lemma needed_step n v : needed n (v / 10) -> 10 <= v -> needed (S n) v.
Proof.
  intros (Hv & Hn & Hm) Hge. pose proof (Z.div_mod v 10 ltac:(lia)). pose proof (Z.mod_pos_bound v 10 ltac:(lia)).
  unfold needed. rewrite Nat2Z.inj_succ, Z.pow_succ_r by lia. split_and!; [lia|lia|lia|right].
  replace (S n - 1)%nat with n by lia. destruct Hm as [->|Hm]; [simpl; lia|].
  replace (Z.of_nat n) with (Z.succ (Z.of_nat (n - 1))) by lia. rewrite Z.pow_succ_r by lia. lia.
Qed.

Lemma needed_cases n v : needed n v -> v < 10 /\ n = 1%nat \/ 10 <= v /\ exists m, n = S m /\ needed m (v / 10).
Proof.
  intros (Hv & Hn & Hm). destruct n as [|n]; [lia|]. rewrite Nat2Z.inj_succ, Z.pow_succ_r in Hv by lia.
  destruct n as [|n]; [left; simpl in Hv; lia|right]. destruct Hm as [?|Hm]; [lia|].
  replace (S (S n) - 1)%nat with (S n) in Hm by lia. rewrite Nat2Z.inj_succ, Z.pow_succ_r in Hm by lia.
  assert (0 < 10 ^ Z.of_nat n) by lia. split; [lia|]. exists (S n). split; [done|].
  split; [split; [apply Z.div_pos; lia|apply Z.div_lt_upper_bound; lia]|]. split; [lia|].
  destruct n as [|n]; [by left|right]. apply Z.div_le_lower_bound; [lia|]. by replace (S (S n) - 1)%nat with (S n) by lia.
Qed.

Lemma show_dec_digits n v : needed n v -> v < 2 ^ 64 -> show_dec v = digits n v.
Proof.
  revert v. induction n as [|n IH]; intros v Hv H64; [destruct Hv; lia|].
  assert (H0 : 0 <= v) by apply Hv. rewrite show_dec_eq by lia. cbn [digits].
  destruct (needed_cases _ _ Hv) as [[Hlt [= ->]]|(Hge & m & [= <-] & Hm)].
  - destruct (Z.ltb_spec v 10); [|lia]. cbn [digits app]. by rewrite Z.mod_small by lia.
  - destruct (Z.ltb_spec v 10); [lia|]. rewrite IH; [done|done|apply Z.div_lt_upper_bound; lia].
Qed.

Lemma needed_exists v w : 0 <= v < 10 ^ Z.of_nat w -> (1 <= w)%nat -> exists n, needed n v /\ (n <= w)%nat.
Proof.
  revert v. induction w as [|w IH]; intros v Hv Hw; [lia|]. destruct (decide (v < 10)) as [Hlt|Hge].
  - exists 1%nat. unfold needed. simpl. split_and!; lia.
  - rewrite Nat2Z.inj_succ, Z.pow_succ_r in Hv by lia. destruct w as [|w]; [simpl in Hv; lia|].
    destruct (IH (v / 10)) as (n & Hn & Hle); [split; [apply Z.div_pos; lia|apply Z.div_lt_upper_bound; lia]|lia|].
    exists (S n). split; [apply needed_step; [done|lia]|lia].
Qed.

Lemma fmt_width_digits w v : (1 <= w <= 18)%nat -> 0 <= v < 10 ^ Z.of_nat w -> fmt_width w v = digits w v.
Proof.
  intros Hw Hv. destruct (needed_exists v w Hv ltac:(lia)) as (n & Hn & Hle). unfold fmt_width.
  assert (v < 10 ^ 18) by (assert (10 ^ Z.of_nat w <= 10 ^ 18) by (apply Z.pow_le_mono_r; lia); lia).
  rewrite (show_dec_digits n v Hn) by lia. rewrite length_digits. symmetry. apply digits_pad; [done|apply Hn].
Qed.

(** The scratch array ends in the digits needed. *)
Lemma scratch_loop_wp n : forall index v scratch, needed n v -> (n <= index <= length scratch)%nat ->
  wp (scratch_loop index v scratch) (fun '(i, scratch') => i = (index - n)%nat /\ length scratch' = length scratch /\
    drop i scratch' = digits n v ++ drop index scratch).
Proof.
  induction n as [|n IH]; intros index v scratch Hv Hi; [destruct Hv; lia|]. destruct index as [|index]; [lia|].
  cbn [scratch_loop]. apply wp_bind, wp_upd; [lia|].
  pose proof (Z.mod_pos_bound v 10 ltac:(lia)). rewrite u8_id by (unfold byte; lia).
  assert (Hd : drop index (<[index := 48 + v mod 10]> scratch) = [48 + v mod 10] ++ drop (S index) scratch).
  { rewrite insert_take_drop by lia. rewrite drop_app_ge by (rewrite length_take; lia).
    rewrite length_take. replace (index - index `min` length scratch)%nat with 0%nat by lia. done. }
  destruct (needed_cases _ _ Hv) as [[Hlt [= ->]]|(Hge & m & [= <-] & Hm)].
  - rewrite Z.div_small, Z.eqb_refl by (destruct Hv; lia). cbn [wp digits app]. rewrite length_insert.
    split_and!; [lia|done|exact Hd].
  - destruct (Z.eqb_spec (v / 10) 0) as [Hz|_]; [assert (1 <= v / 10) by (apply Z.div_le_lower_bound; lia); lia|].
    eapply wp_mono; [apply IH; [done|rewrite length_insert; lia]|]. intros [i scratch'] (-> & Hl & Hdr).
    rewrite length_insert in Hl. split_and!; [lia|done|]. rewrite Hdr, Hd. cbn [digits]. by rewrite <- app_assoc.
Qed.

Lemma pad_wp v n w b : needed n v -> (n <= 10)%nat -> sane b ->
  pad v w b = if (w <? n)%nat then Some (b, false) else
    padding ← slice (replicate 10 48) 0 (w - n); (put_bytes padding &&> put_bytes (digits n v)) b.
Proof.
  intros Hv Hn Hb. unfold pad.
  destruct (wp_elim _ _ (scratch_loop_wp n 10 v (replicate 10 48) Hv ltac:(rewrite length_replicate; lia)))
    as ([i scratch'] & -> & -> & Hl & Hd).
  cbn [mbind option_bind]. replace (10 - (10 - n))%nat with n by lia. destruct (w <? n)%nat; [done|].
  destruct (slice _ 0 (w - n)) as [padding|]; [|done]. cbn [mbind option_bind]. rewrite length_replicate in Hl.
  unfold slice. rewrite decide_True by lia. cbn [mbind option_bind]. rewrite Hd, take_ge; [by rewrite app_nil_r|].
  rewrite length_app, length_digits. simpl. lia.
Qed.

Lemma renders_pad v w : (1 <= w <= 10)%nat -> 0 <= v < 10 ^ Z.of_nat w -> renders (pad v w) (fmt_width w v).
Proof.
  intros Hw Hv b Hb. destruct (needed_exists v w Hv ltac:(lia)) as (n & Hn & Hle).
  rewrite (pad_wp v n w b Hn ltac:(lia) Hb). destruct (Nat.ltb_spec w n); [lia|].
  rewrite fmt_width_digits, (digits_pad n w v) by (lia || apply Hn).
  unfold slice. rewrite decide_True by (rewrite length_replicate; lia). cbn [mbind option_bind].
  rewrite drop_0, take_replicate. replace ((w - n - 0) `min` 10)%nat with (w - n)%nat by lia.
  apply renders_and; [apply renders_bytes|apply renders_bytes|done].
Qed.

Lemma refuses_pad v w : (w < 10)%nat -> 10 ^ Z.of_nat w <= v < 10 ^ 10 -> refuses (pad v w).
Proof.
  intros Hw Hv b Hb. assert (0 < 10 ^ Z.of_nat w) by lia.
  destruct (needed_exists v 10 ltac:(lia) ltac:(lia)) as (n & Hn & Hle).
  rewrite (pad_wp v n w b Hn Hle Hb). destruct (Nat.ltb_spec w n) as [|Hge]; [done|]. exfalso.
  destruct Hn as (Hv' & _). assert (10 ^ Z.of_nat n <= 10 ^ Z.of_nat w) by (apply Z.pow_le_mono_r; lia). lia.
Qed.

#[local] Hint Resolve renders_bytes renders_byte renders_nil : renders.

Lemma renders_year y : -9999 <= y <= 9999 -> renders (put_year y) (write_year y).
Proof.
  intros Hy. unfold put_year, write_year. destruct ((0 <=? y) && (y <=? 9999)) eqn:E; bool_hyps.
  - unfold u32. rewrite Z.mod_small by lia. apply renders_pad; simpl; lia.
  - destruct (Z.ltb_spec y 0); [|lia]. unfold u32. rewrite Z.mod_small by lia.
    apply (renders_and _ _ [45]); [apply renders_byte|]. apply renders_pad; simpl; lia.
Qed.

Lemma refuses_year y : -100000 <= y <= 100000 -> ~ (-9999 <= y <= 9999) -> refuses (put_year y).
Proof.
  intros Hb Hy. unfold put_year. destruct ((0 <=? y) && (y <=? 9999)) eqn:E; bool_hyps; [lia|].
  destruct (Z.ltb_spec y 0); unfold u32; rewrite Z.mod_small by lia;
    (eapply refuses_right; [apply renders_byte|apply refuses_pad; simpl; lia]).
Qed.

Lemma offset_fields o : small o -> 0 <= Z.abs o / 3600 < 100 /\ 0 <= Z.abs o mod 3600 / 60 < 60 /\ 0 <= Z.abs o mod 60 < 60.
Proof.
  unfold small, OFFSET_LIMIT. intros Ho. split; [split; [apply Z.div_pos; lia|apply Z.div_lt_upper_bound; lia]|].
  pose proof (Z.mod_pos_bound (Z.abs o) 3600 ltac:(lia)). pose proof (Z.mod_pos_bound (Z.abs o) 60 ltac:(lia)).
  split; [split; [apply Z.div_pos; lia|apply Z.div_lt_upper_bound; lia]|lia].
Qed.

Lemma renders_offset o : small o -> renders (put_offset o) (write_offset o).
Proof.
  intros Ho. destruct (offset_fields o Ho) as (Hh & Hm & Hs). unfold put_offset, write_offset. cbn zeta.
  destruct (Z.eqb_spec (Z.abs o mod 60) 0) as [E|E].
  - change (sign_of o :: ?l) with ([sign_of o] ++ l). rewrite <- (app_nil_r ([sign_of o] ++ _)).
    apply renders_and; [|apply renders_nil]. rewrite !app_assoc.
    repeat apply renders_and; first [apply renders_byte|apply renders_pad; simpl; lia].
  - change (sign_of o :: ?l) with ([sign_of o] ++ l). rewrite !app_assoc, <- (app_assoc _ [58] (fmt_width 2 (_ mod 60))).
    repeat apply renders_and; first [apply renders_byte|apply renders_pad; simpl; lia].
Qed.

Lemma renders_compact o : small o -> renders (offset_compact o) (write_offset_compact o).
Proof.
  intros Ho. destruct (offset_fields o Ho) as (Hh & Hm & _). unfold offset_compact, write_offset_compact. cbn zeta.
  change (sign_of o :: ?l) with ([sign_of o] ++ l). rewrite !app_assoc.
  repeat apply renders_and; first [apply renders_byte|apply renders_pad; simpl; lia].
Qed.

Lemma renders_fraction ns : 0 <= ns < 1000000000 -> renders (fraction ns) (write_fraction ns).
Proof.
  intros Hn. unfold fraction, write_fraction. destruct (ns =? 0); [apply renders_nil|].
  destruct (ns mod 1000000 =? 0); [|destruct (ns mod 1000 =? 0)]; change (46 :: ?l) with ([46] ++ l);
    (apply renders_and; [apply renders_byte|apply renders_pad; [lia|]]); simpl; try lia;
    (split; [apply Z.div_pos; lia|apply Z.div_lt_upper_bound; lia]).
Qed.

(** ** The formats *)

Section Rendered.
Context `{!TzData}.

Definition year_fits (dt : DateTime) : Prop := -9999 <= year dt <= 9999.

(** The fields of a value, with the bounds the printers need. *)
Lemma parts_bounds dt : wf_dt dt -> exists y m d h mi s, parts dt = (y, m, d, h, mi, s, nanos dt) /\ year dt = y /\
  -10001 <= y <= 10001 /\ 1 <= m <= 12 /\ 0 <= d < 100 /\ 0 <= h < 100 /\ 0 <= mi < 100 /\ 0 <= s < 100.
Proof.
  intros Hwf. destruct (parts_valid dt Hwf) as (y & m & d & h & mi & s & Hp & [Hm Hd] & _ & Hh & Hmi & Hs & _ & Hy).
  exists y, m, d, h, mi, s. split; [done|]. split; [unfold year; by rewrite Hp|].
  assert (days_in_month y m <= 31).
  { apply (month_cases (fun m => days_in_month y m <= 31)); [done|..]; simpl; try destruct (is_leap y); lia. }
  split_and!; lia.
Qed.

Ltac rendered := rewrite <- ?app_assoc; rewrite ?app_assoc; repeat apply renders_and;
  first [apply renders_byte|apply renders_bytes|by apply renders_year|by apply renders_fraction|
         apply renders_pad; simpl; lia|by apply renders_compact|idtac].

Ltac fields dt := destruct (parts_bounds dt) as (y & m & d & h & mi & s & Hp & Hy & Hb & Hm & Hd & Hh & Hmi & Hs); [done|];
  rewrite Hp; rewrite ?Hy in *.

Lemma renders_date dt : wf_dt dt -> year_fits dt -> renders (format_date dt) (write_date dt).
Proof.
  intros Hwf Hf. unfold format_date, write_date, write_month_day, year_fits in *. fields dt. rendered.
Qed.

Lemma renders_time dt : wf_dt dt -> renders (format_time dt) (write_time dt).
Proof.
  intros Hwf. assert (Hn : 0 <= nanos dt < 1000000000) by apply Hwf.
  unfold format_time, write_time, write_clock. fields dt. rendered.
Qed.

Lemma renders_rfc2822 dt : wf_dt dt -> year_fits dt -> renders (format_rfc2822 dt) (write_rfc2822 dt).
Proof.
  intros Hwf Hf. assert (Ho : small (dt_offset dt)) by apply Hwf.
  unfold format_rfc2822, write_rfc2822, write_clock, year_fits in *. fields dt. rendered.
Qed.

(** The part of [format_iso] before the annotation. *)
Lemma iso_base dt z b : wf_dt dt -> sane b ->
  let tail := match timezone_name dt with Some name => [91] ++ name ++ [93] | None => [] end in
  forall with_zone, year_fits dt -> wp (format_iso dt z with_zone b) (fun '(b', ok) => length (out b') = length (out b) /\
    if (ok : bool) then (len b + length (write_iso dt z with_zone) <= length (out b))%nat /\ b' = extend b (write_iso dt z with_zone)
    else (length (out b) < len b + length (write_iso dt z with_zone))%nat).
Proof.
  intros Hwf Hsane tail with_zone Hf. assert (Ho : small (dt_offset dt)) by apply Hwf.
  assert (Hn : 0 <= nanos dt < 1000000000) by apply Hwf.
  set (base := write_iso dt z false).
  assert (Hw : write_iso dt z with_zone = base ++ if with_zone then tail else []).
  { unfold base, write_iso. destruct (parts dt) as [[[[[[? ?] ?] ?] ?] ?] ?]. rewrite app_nil_r, <- !app_assoc. done. }
  rewrite Hw. clear Hw. unfold format_iso. assert (Hbase : renders (let '(year, month, day, hour, minute, second, nanos) := parts dt in
    put_year year &&> put_byte 45 &&> pad month 2 &&> put_byte 45 &&> pad day 2 &&>
    put_byte 84 &&> pad hour 2 &&> put_byte 58 &&> pad minute 2 &&> put_byte 58 &&> pad second 2 &&>
    fraction nanos &&> (if z && (dt_offset dt =? 0) then put_byte 90 else put_offset (dt_offset dt))) base).
  { unfold base, write_iso, write_month_day, write_clock, year_fits in *. fields dt. rewrite app_nil_r. rendered.
    destruct (z && _); [apply renders_byte|by apply renders_offset]. }
  destruct (parts dt) as [[[[[[y m] d] h] mi] s] ns]. apply wp_bind. eapply wp_mono; [by apply Hbase|].
  intros [b1 [|]] [Hl H1]; cbn [negb orb].
  2: { cbn [wp]. split; [done|]. rewrite length_app. lia. }
  destruct H1 as [Hfit ->]. destruct (extend_sane b base Hfit) as [Hs1 _].
  assert (Htail : renders (fun buf => if negb with_zone then Some (buf, true) else
    match timezone_name dt with
    | Some name => (put_byte 91 &&> put_bytes name &&> put_byte 93) buf
    | None => Some (buf, true)
    end) (if with_zone then tail else [])).
  { unfold tail. destruct with_zone; cbn [negb]; [|apply renders_nil]. destruct (timezone_name dt); [rendered|apply renders_nil]. }
  eapply wp_mono; [by apply Htail|]. intros [b2 ok] [Hl2 H2]. rewrite Hl2, Hl. split; [done|]. rewrite Hl in H2.
  cbn [len extend] in H2. rewrite length_app. destruct ok; [|lia]. destruct H2 as [Hfit2 ->]. split; [lia|].
  by apply extend_extend.
Qed.

Lemma renders_iso dt z with_zone : wf_dt dt -> year_fits dt -> renders (format_iso dt z with_zone) (write_iso dt z with_zone).
Proof. intros Hwf Hf b Hb. by apply iso_base. Qed.

(** An instant in the supported range has a supported year in UTC. *)
Lemma utc_wf dt : wf_dt dt -> in_timezone dt UTC = Some (from_raw (secs dt) (nanos dt) 0 Utc) /\
  wf_dt (from_raw (secs dt) (nanos dt) 0 Utc) /\ year_fits (from_raw (secs dt) (nanos dt) 0 Utc).
Proof.
  intros (Hs & Hn & _). split; [done|].
  assert (Hwf : wf_dt (from_raw (secs dt) (nanos dt) 0 Utc)).
  { unfold wf_dt, small, OFFSET_LIMIT. cbn [secs nanos dt_offset zone]. split_and!; try done; lia. }
  split; [done|]. destruct (parts_valid _ Hwf) as (y & m & d & h & mi & s & Hp & Hv & _ & Hh & Hmi & Hsec & Hl & _).
  unfold year_fits, year. rewrite Hp. cbn [secs dt_offset] in Hl. unfold local_of, SECS_PER_DAY in Hl.
  destruct (date_in_year y m d Hv) as [Hj1 Hj2]. destruct secs_limits as [Hmin Hmax]. rewrite Hmin, Hmax in Hs.
  split.
  - destruct (Z.le_gt_cases (-9999) y) as [|Hlt]; [done|]. pose proof (jan1_mono (y + 1) (-9999) ltac:(lia)).
    assert (jan1 (-9999) = -4371587) by done. lia.
  - destruct (Z.le_gt_cases y 9999) as [|Hlt]; [done|]. pose proof (jan1_mono 10000 y ltac:(lia)).
    assert (jan1 10000 = 2932897) by done. lia.
Qed.

Lemma renders_http dt : wf_dt dt -> exists text, write_http_date dt = Some text /\ renders (format_http dt) text.
Proof.
  intros Hwf. destruct (utc_wf dt Hwf) as (Hutc & Hwf' & Hf). unfold write_http_date, format_http. rewrite Hutc.
  cbn [mbind option_bind]. set (utc := from_raw (secs dt) (nanos dt) 0 Utc) in *. clearbody utc. clear Hutc Hwf dt.
  unfold write_clock, year_fits in *. fields utc. eexists. split; [done|].
  match goal with |- renders (fun buf => ?f buf) ?t => change (renders f t) end. rendered.
Qed.

(** ** Rendering into a buffer *)

(** Where [put_year] has room for the year: always in UTC, and for a time of day. *)
Definition renderable (dt : DateTime) (format : Format) : Prop :=
  match format with HttpDate | TimeOnly => True | _ => year_fits dt end.

Lemma from_empty f text (out_ : list Z) : renders f text ->
  wp ('(buf, ok) ← f (mkBuf out_ 0); Some (out buf, if (ok : bool) then Some (len buf) else None))
    (fun '(out', r) => length out' = length out_ /\
      r = (if (length text <=? length out_)%nat then Some (length text) else None) /\
      (is_Some r -> out' = text ++ drop (length text) out_)).
Proof.
  intros Hf. apply wp_bind. eapply wp_mono; [apply Hf; unfold sane; simpl; lia|]. cbn [out len].
  intros [b [|]] [Hl Hb]; cbn [wp]; (split; [done|]).
  - destruct Hb as [Hfit ->]. destruct (Nat.leb_spec (length text) (length out_)); [|simpl in Hfit; lia]. by split.
  - destruct (Nat.leb_spec (length text) (length out_)); [simpl in Hb; lia|]. split; [done|]. by intros [? ?].
Qed.

Lemma format_into_wp dt format (out_ : list Z) : wf_dt dt -> renderable dt format ->
  exists text, write_format dt format = Some text /\
    wp (format_into out_ dt format) (fun '(out', r) => length out' = length out_ /\
      r = (if (length text <=? length out_)%nat then Some (length text) else None) /\
      (is_Some r -> out' = text ++ drop (length text) out_)).
Proof.
  intros Hwf Hr. destruct format; cbn [renderable] in Hr; unfold format_into; cbn [write_format].
  1-3: eexists; (split; [done|]); apply from_empty; by apply renders_iso.
  - eexists; (split; [done|]); apply from_empty; by apply renders_rfc2822.
  - destruct (renders_http dt Hwf) as (text & Ht & Hf). exists text. split; [done|]. by apply from_empty.
  - eexists; (split; [done|]); apply from_empty; by apply renders_date.
  - eexists; (split; [done|]); apply from_empty; by apply renders_time.
Qed.

(** A five-digit year never fits, whatever the buffer. *)
Lemma refuses_iso dt z with_zone : wf_dt dt -> ~ year_fits dt -> refuses (format_iso dt z with_zone).
Proof.
  intros Hwf Hf b Hsn. unfold format_iso, year_fits in *. fields dt. apply wp_bind.
  match goal with |- wp (and_then ?f ?g b) _ => assert (Hrf : refuses (f &&> g)) end.
  { do 12 apply refuses_left. apply refuses_year; [lia|done]. }
  eapply wp_mono; [by apply Hrf|]. intros [b' ok] [Hl ->]. cbn [negb orb wp].
  by split.
Qed.

Lemma format_into_refuses dt format (out_ : list Z) : wf_dt dt -> ~ renderable dt format ->
  wp (format_into out_ dt format) (fun '(out', r) => length out' = length out_ /\ r = None).
Proof.
  intros Hwf Hr. assert (Hsn : sane (mkBuf out_ 0)) by (unfold sane; simpl; lia).
  assert (Hgen : forall f, refuses f -> wp ('(buf, ok) ← f (mkBuf out_ 0); Some (out buf, if (ok : bool) then Some (len buf) else None))
    (fun '(out', r) => length out' = length out_ /\ r = None)).
  { intros f Hf. apply wp_bind. eapply wp_mono; [by apply Hf|]. by intros [b ok] [Hl ->]. }
  destruct format; cbn [renderable] in Hr; try (exfalso; exact (Hr I)); unfold format_into; apply Hgen.
  1-3: by apply refuses_iso.
  - unfold format_rfc2822, year_fits in *. fields dt. do 8 apply refuses_left.
    eapply refuses_right; [rendered|apply refuses_year; [lia|done]].
  - unfold format_date, year_fits in *. fields dt. do 4 apply refuses_left. apply refuses_year; [lia|done].
Qed.

(** ** The texts are ASCII *)

Definition ascii (t : list Z) : Prop := Forall (fun b => b < 128) t.

Lemma ascii_width w v : ascii (fmt_width w v).
Proof.
  assert (Hd : forall fuel n, ascii (show_dec_aux fuel n)).
  { induction fuel as [|fuel IH]; intros n; [constructor|]. cbn [show_dec_aux].
    destruct (Z.ltb_spec n 10); [repeat constructor; lia|]. apply Forall_app. split; [apply IH|].
    pose proof (Z.mod_pos_bound n 10 ltac:(lia)). repeat constructor. lia. }
  apply Forall_app. split; [by apply Forall_replicate|apply Hd].
Qed.

Lemma ascii_dec v : ascii (show_dec v).
Proof. pose proof (ascii_width 0 v) as Ha. exact Ha. Qed.

Lemma ascii_month m : ascii (month_short m).
Proof.
  assert (HM : Forall ascii (lit "???" :: MONTHS)) by (repeat constructor; done). apply Forall_cons_1 in HM as [Hd HM].
  unfold month_short. destruct (m <? 1); [done|]. destruct (MONTHS !! _) as [x|] eqn:E; [|done].
  by apply (Forall_lookup_1 _ _ _ _ HM E).
Qed.

Lemma ascii_weekday w : ascii (lit (short_name w)).
Proof. destruct w; repeat constructor; done. Qed.

Ltac ascii_step := first
  [ apply ascii_width | apply ascii_dec | apply ascii_month | apply ascii_weekday | done
  | apply Forall_nil; exact I | apply Forall_app; split | apply Forall_cons_2 | match goal with |- context [if ?b then _ else _] => destruct b end ].

Ltac ascii_text := repeat ascii_step.

Lemma ascii_year y : ascii (write_year y).
Proof. unfold write_year. ascii_text. Qed.
Lemma ascii_offset o : ascii (write_offset o).
Proof. unfold write_offset, sign_of. cbn zeta. destruct (o <? 0), (_ =? 0); ascii_text. Qed.
Lemma ascii_compact o : ascii (write_offset_compact o).
Proof. unfold write_offset_compact, sign_of. cbn zeta. destruct (o <? 0); ascii_text. Qed.
Lemma ascii_fraction ns : ascii (write_fraction ns).
Proof. unfold write_fraction. ascii_text. Qed.
Lemma ascii_clock h m s : ascii (write_clock h m s).
Proof. unfold write_clock. ascii_text. Qed.
Lemma ascii_month_day m d : ascii (write_month_day m d).
Proof. unfold write_month_day. ascii_text. Qed.

(** IANA names are ASCII. *)
Definition ascii_name (dt : DateTime) : Prop := match timezone_name dt with Some n => ascii n | None => True end.

Ltac ascii_all := repeat first [apply ascii_year | apply ascii_offset | apply ascii_compact | apply ascii_fraction
  | apply ascii_clock | apply ascii_month_day | ascii_step].

Ltac ascii_fields dt := destruct (parts dt) as [[[[[[? ?] ?] ?] ?] ?] ?]; ascii_all.

Lemma ascii_iso dt z with_zone : ascii_name dt -> ascii (write_iso dt z with_zone).
Proof. unfold ascii_name, write_iso. destruct (timezone_name dt); intros Hname; ascii_fields dt. Qed.
Lemma ascii_rfc2822 dt : ascii (write_rfc2822 dt).
Proof. unfold write_rfc2822. ascii_fields dt. Qed.
Lemma ascii_date dt : ascii (write_date dt).
Proof. unfold write_date. ascii_fields dt. Qed.
Lemma ascii_time dt : ascii (write_time dt).
Proof. unfold write_time. ascii_fields dt. Qed.
Lemma ascii_http dt text : write_http_date dt = Some text -> ascii text.
Proof.
  unfold write_http_date. destruct (in_timezone dt UTC) as [utc|]; [|done]. rewrite some_bind.
  destruct (parts utc) as [[[[[[? ?] ?] ?] ?] ?] ?]. intros E. apply (inj Some) in E as <-. ascii_all.
Qed.

Lemma ascii_format dt format text : ascii_name dt -> write_format dt format = Some text -> ascii text.
Proof.
  intros Hname. destruct format; cbn [write_format]; intros Hw; try (apply (inj Some) in Hw as <-);
    eauto using ascii_iso, ascii_rfc2822, ascii_date, ascii_time, ascii_http.
Qed.

(** Both paths of [Display] print the same text. *)
Lemma fmt_wp dt format : wf_dt dt -> ascii_name dt ->
  exists text, write_format dt format = Some text /\ Formatted_fmt dt format = Some (Ok text).
Proof.
  intros Hwf Hname. assert (Hd : renderable dt format \/ ~ renderable dt format).
  { destruct format; cbn [renderable]; unfold year_fits; try (by left); lia. }
  destruct Hd as [Hr|Hr].
  - destruct (format_into_wp dt format (replicate MAX_FORMATTED_LENGTH 0) Hwf Hr) as (text & Ht & Hwp). exists text. split; [done|].
    unfold Formatted_fmt. destruct (wp_elim _ _ Hwp) as ([b r] & -> & Hl & -> & Hb). cbn [mbind option_bind].
    rewrite length_replicate in *. destruct (Nat.leb_spec (length text) MAX_FORMATTED_LENGTH) as [Hfit|_]; [|by rewrite Ht].
    rewrite (Hb ltac:(done)). unfold slice. rewrite decide_True by (rewrite length_app, length_drop, length_replicate; lia).
    cbn [mbind option_bind]. rewrite drop_0, Nat.sub_0_r, take_app_length.
    pose proof (Utf8.ascii_valid text (ascii_format dt format text Hname Ht)) as Hv. unfold Utf8.valid in Hv. by rewrite Hv.
  - assert (Ht : exists text, write_format dt format = Some text) by (destruct format; try (exfalso; exact (Hr I)); by eexists).
    destruct Ht as [text Ht]. exists text. split; [done|]. unfold Formatted_fmt.
    destruct (wp_elim _ _ (format_into_refuses dt format (replicate MAX_FORMATTED_LENGTH 0) Hwf Hr)) as ([b r] & -> & _ & ->).
    cbn [mbind option_bind]. by rewrite Ht.
Qed.

Lemma write_iso_eq dt : write_iso dt true true =
  let '(year, month, day, hour, minute, second, nanos) := parts dt in
  write_year year ++ write_month_day month day ++ [84] ++ write_clock hour minute second ++ write_fraction nanos ++
  (if dt_offset dt =? 0 then [90] else write_offset (dt_offset dt)) ++
  match timezone_name dt with Some name => [91] ++ name ++ [93] | None => [] end.
Proof. reflexivity. Qed.

Lemma write_datetime_eq dt : write_datetime dt = Formatted_fmt dt Rfc9557.
Proof.
  unfold write_datetime, Formatted_fmt. cbn [write_format]. rewrite write_iso_eq, some_bind. generalize (parts dt) as p.
  intros [[[[[[? ?] ?] ?] ?] ?] ?]. reflexivity.
Qed.

End Rendered.

(** ** The properties *)

(** A year of five digits, which a value near the limits has in a zone away from
    UTC, is refused whatever the buffer, by every format that prints the local
    year. *)
Theorem write_to_refuses `{!TzData} (dt : DateTime) (format : Format) (buffer : list Z) : wf_dt dt -> ~ renderable dt format ->
  exists buffer' e, write_to dt format buffer = Some (buffer', Err e) /\ length buffer' = length buffer /\ kind e = BufferTooSmall.
Proof.
  intros Hwf Hr. unfold write_to. destruct (wp_elim _ _ (format_into_refuses dt format buffer Hwf Hr)) as ([b r] & -> & Hl & ->).
  cbn [mbind option_bind]. by do 2 eexists.
Qed.

(** C32: formatting a value.  For every well-formed value, with the name of its
    zone in ASCII, and every format, [Display] prints the text of the format,
    whichever of its two paths runs (the rendering into a stack buffer, or [fmt]
    when that fails), and never fails; [DateTime]'s own [Display] is the RFC 9557
    one.  When the format prints a year of at most four digits ([renderable]:
    [HttpDate] and [TimeOnly] always are, [Rfc2822] and the others when the local
    year is within 9999), [write_to] fills the front of a buffer that has room for
    the text, leaves the rest and reports the length; for a shorter buffer it
    answers [BufferTooSmall]. *)
Theorem format_correct `{!TzData} (dt : DateTime) (format : Format) (buffer : list Z) : wf_dt dt -> ascii_name dt ->
  exists text, write_format dt format = Some text /\ Formatted_fmt dt format = Some (Ok text) /\
  (format = Rfc9557 -> write_datetime dt = Some (Ok text)) /\
  (renderable dt format -> exists buffer' r, write_to dt format buffer = Some (buffer', r) /\ length buffer' = length buffer /\
    if (length text <=? length buffer)%nat then r = Ok (length text) /\ buffer' = text ++ drop (length text) buffer
    else exists e, r = Err e /\ kind e = BufferTooSmall).
Proof.
  intros Hwf Hname. destruct (fmt_wp dt format Hwf Hname) as (text & Ht & Hf). exists text.
  split; [done|]. split; [done|]. split; [intros ->; by rewrite write_datetime_eq|]. intros Hr. unfold write_to.
  destruct (format_into_wp dt format buffer Hwf Hr) as (text' & Ht' & Hwp). rewrite Ht in Ht'. injection Ht' as <-.
  destruct (wp_elim _ _ Hwp) as ([b r] & -> & Hl & -> & Hb). cbn [mbind option_bind]. do 2 eexists. split; [done|].
  split; [done|]. destruct (Nat.leb_spec (length text) (length buffer)); [|by eexists]. split; [done|by apply Hb].
Qed.

(** ** Concrete instances, and what the code does at the edges *)

Section Instances.
#[local] Existing Instance sample_data.

Lemma format_correct_witness : write_format UNIX_EPOCH Rfc3339 = Some (lit "1970-01-01T00:00:00Z") /\
  Formatted_fmt UNIX_EPOCH Rfc3339 = Some (Ok (lit "1970-01-01T00:00:00Z")).
Proof.
  destruct (format_correct UNIX_EPOCH Rfc3339 [] epoch_wf I) as (text & Ht & Hf & _).
  assert (Hw : write_format UNIX_EPOCH Rfc3339 = Some (lit "1970-01-01T00:00:00Z")) by (vm_compute; reflexivity).
  split; [exact Hw|]. rewrite Hw in Ht. injection Ht as <-. exact Hf.
Defined.

(** The last instant in the zone of one hour east is in the year 10000:
    [Display] prints it, [write_to] calls every buffer too small. *)
Example five_digit_year : let dt := from_raw MAX_SECS 0 3600 (Fixed 3600) in
  write_format dt DateOnly = Some (lit "+10000-01-01") /\
  write_to dt DateOnly (replicate 64 0) =
    Some (43 :: replicate 63 0, Err (buffer_too_small "buffer is too small for the formatted value")).
Proof. split; vm_compute; reflexivity. Qed.

(** [try_format] looks at the local year: the first hours of the year 0 in a
    zone east of Greenwich pass, and the HTTP date names the year before. *)
Example http_year : let dt := from_raw (-62167219200 - 3600) 0 3600 (Fixed 3600) in
  try_format dt HttpDate = Ok tt /\ write_format dt HttpDate = Some (lit "Fri, 31 Dec -0001 23:00:00 GMT").
Proof. split; vm_compute; reflexivity. Qed.

(** [try_format] passes an offset of more than a day, which RFC 3339 has no
    text for. *)
Example long_offset : let dt := from_raw 0 0 90000 (Fixed 90000) in
  try_format dt Rfc3339 = Ok tt /\ write_format dt Rfc3339 = Some (lit "1970-01-02T01:00:00+25:00").
Proof. split; vm_compute; reflexivity. Qed.
End Instances.

End TimeFormat.
