(* ===== verification/TimeParse.v ===== *)
(** * time: parsing

    src/time/parse.rs, and the parsing entry points of src/time/datetime.rs.
    A text is the list of its bytes, valid UTF-8 when it is a [str].  The
    parser is a record passed along: an operation returns its value and the
    parser after it.  Machine arithmetic is exact where the digits read bound
    it, and [number] has the check of the code. *)
From Stdlib Require Import ZArith Lia String.
From stdpp Require Import base list numbers option.
From S2P Require Import Prelude Words Order Utf8 Civil Posix Tzif TimeZone DateTime TzIndex TimeFormat.
Import Civil Posix Tzif TimeZone DateTime TzIndex TimeFormat.

#[local] Close Scope string_scope.

Module TimeParse.

Record Parser := mkParser { bytes : list Z; pos : nat }.

(** What a fallible operation of the parser returns. *)
Definition parses (A : Type) : Type := option (result (A * Parser) Error).

Definition new (input : list Z) : Parser := mkParser input 0.
Definition peek (self : Parser) : option Z := bytes self !! pos self.

Definition bump (self : Parser) : option Z * Parser :=
  match peek self with
  | Some byte => (Some byte, mkParser (bytes self) (pos self + 1))
  | None => (None, self)
  end.

Definition eat (self : Parser) (byte : Z) : bool * Parser :=
  if bool_decide (peek self = Some byte) then (true, mkParser (bytes self) (pos self + 1)) else (false, self).

Definition expect (self : Parser) (byte : Z) : result Parser Error :=
  let '(ok, self) := eat self byte in
  if (ok : bool) then Ok self else Err (TimeZone.parse "unexpected character").

Fixpoint fixed_loop (count : nat) (value : Z) (self : Parser) : result (Z * Parser) Error :=
  match count with
  | O => Ok (value, self)
  | S count =>
      match bump self with
      | (Some byte, self) =>
          if is_ascii_digit byte then fixed_loop count (value * 10 + (byte - 48)) self
          else Err (TimeZone.parse "expected a digit")
      | (None, _) => Err (TimeZone.parse "expected a digit")
      end
  end.
Definition fixed (self : Parser) (count : nat) : result (Z * Parser) Error := fixed_loop count 0 self.

Fixpoint number_loop (value : Z) (l : list Z) : result Z Error :=
  match l with
  | [] => Ok value
  | byte :: l =>
      if negb (is_ascii_digit byte) then Err (TimeZone.parse "expected a digit") else
      if negb (fits64 (value * 10)) then Err (TimeZone.parse "number is too large") else
      if negb (fits64 (value * 10 + (byte - 48))) then Err (TimeZone.parse "number is too large") else
      number_loop (value * 10 + (byte - 48)) l
  end.
Definition number (self : Parser) (start end_ : nat) : option (result Z Error) :=
  l ← slice (bytes self) start end_; Some (number_loop 0 l).

Definition done_ (self : Parser) : bool := (pos self =? length (bytes self))%nat.

(** [parser.peek().is_some_and(p)], the condition of the loops; the fuel is
    one more than the bytes left. *)
Definition next_is (p : Z -> bool) (self : Parser) : bool := match peek self with Some b => p b | None => false end.
Definition fuel (self : Parser) : nat := S (length (bytes self) - pos self).

(** ** Fields of the ISO grammar *)

Definition parse_year_month_day (parser : Parser) : parses (Z * Z * Z) :=
  let '(negative_year, parser) := eat parser 45 in
  let '(_, parser) := eat parser 43 in
  let year_start := pos parser in
  '(parser, digits) ← while_loop (fuel parser) (fun '(parser, _) => next_is is_ascii_digit parser)
    (fun '(parser, digits) => Some ((bump parser).2, S digits)) (parser, 0%nat);
  if (digits <? 4)%nat then Some (Err (TimeZone.parse "expected a four digit year")) else
  let! year := number parser year_start (pos parser) in
  let year := if (negative_year : bool) then - year else year in
  if (year <? MIN_YEAR) || (MAX_YEAR <? year) then
    Some (Err (out_of_range "year is outside the supported range")) else
  let! parser := Some (expect parser 45) in
  let! (month, parser) := Some (fixed parser 2) in
  let! parser := Some (expect parser 45) in
  let! (day, parser) := Some (fixed parser 2) in
  Some (Ok ((year, u8 month, u8 day), parser)).

(** The loop over a fraction; its state is the parser, the digits counted, the
    scale and the sum. *)
Definition fraction_step : Parser * nat * Z * Z -> option (Parser * nat * Z * Z) :=
  fun '(parser, significant, scale, nanos) =>
    byte ← (bump parser).1;
    let parser := (bump parser).2 in
    let digit := byte - 48 in
    Some (if (significant <? 9)%nat then (parser, S significant, scale / 10, nanos + digit * scale)
          else (parser, significant, scale, nanos)).
Definition fraction_loop (parser : Parser) : option (Parser * nat * Z * Z) :=
  while_loop (fuel parser) (fun '(parser, _, _, _) => next_is is_ascii_digit parser) fraction_step
    (parser, 0%nat, 100000000, 0).

Definition parse_clock (parser : Parser) : parses (Z * Z * Z * Z) :=
  let! (hour, parser) := Some (fixed parser 2) in
  let hour := u8 hour in
  let! parser := Some (expect parser 58) in
  let! (minute, parser) := Some (fixed parser 2) in
  let minute := u8 minute in
  let '(colon, parser) := eat parser 58 in
  let! (second, parser) := Some (if (colon : bool) then fixed parser 2 else Ok (0, parser)) in
  let second := u8 second in
  if next_is (fun b => (b =? 46) || (b =? 44)) parser then
    let parser := (bump parser).2 in
    let start := pos parser in
    '(parser, _, _, nanos) ← fraction_loop parser;
    if (pos parser =? start)%nat then Some (Err (TimeZone.parse "expected fractional digits")) else
    Some (Ok ((hour, minute, second, nanos), parser))
  else Some (Ok ((hour, minute, second, 0), parser)).

Definition parse_offset (parser : Parser) : parses (option Z) :=
  if next_is (fun b => (b =? 90) || (b =? 122)) parser then Some (Ok (Some 0, (bump parser).2)) else
  if next_is (fun b => (b =? 43) || (b =? 45)) parser then
    let '(sign, parser) := bump parser in
    let negative := bool_decide (sign = Some 45) in
    let! (hours, parser) := Some (fixed parser 2) in
    let '(colon, parser) := eat parser 58 in
    let! (minutes, seconds, parser) := Some (
      if (colon : bool) then
        let? (minutes, parser) := fixed parser 2 in
        let '(colon, parser) := eat parser 58 in
        if (colon : bool) then let? (seconds, parser) := fixed parser 2 in Ok (minutes, seconds, parser)
        else Ok (minutes, 0, parser)
      else if next_is is_ascii_digit parser then
        let? (minutes, parser) := fixed parser 2 in
        if next_is is_ascii_digit parser then
          let? (seconds, parser) := fixed parser 2 in Ok (minutes, seconds, parser)
        else Ok (minutes, 0, parser)
      else Ok (0, 0, parser)) in
    let magnitude := hours * 3600 + minutes * 60 + seconds in
    if (23 <? hours) || (59 <? minutes) || (59 <? seconds) then
      Some (Err (TimeZone.parse "offset is out of range")) else
    let offset := if negative then - magnitude else magnitude in
    let! _ := Some (TimeZone.fixed offset) in
    Some (Ok (Some offset, parser))
  else Some (Ok (None, parser)).

Section Parsing.
Context `{!TzData, !TzNames}.

Definition parse_zone_annotation (parser : Parser) : parses (option TimeZone) :=
  if negb (bool_decide (peek parser = Some 91)) then Some (Ok (None, parser)) else
  let parser := (bump parser).2 in
  let start := pos parser in
  parser ← while_loop (fuel parser) (next_is (fun b => negb (b =? 93))) (fun parser => Some (bump parser).2) parser;
  let '(closed, parser) := eat parser 93 in
  if negb closed then Some (Err (TimeZone.parse "unterminated time zone annotation")) else
  l ← slice (bytes parser) start (pos parser - 1);
  match Utf8.from_utf8 l with
  | Ok name => let! zone := named name in Some (Ok (Some zone, parser))
  | Err _ => Some (Err (TimeZone.parse "invalid time zone name"))
  end.

Definition assemble (year month day hour minute second nanos : Z) (zone : option TimeZone) (offset : option Z)
    (default_zone : option TimeZone) : option (result DateTime Error) :=
  if negb ((1 <=? month) && (month <=? 12)) then Some (Err (invalid "month is not in 1..=12")) else
  if (day <? 1) || (days_in_month year month <? day) then
    Some (Err (invalid "day is not valid for the given month")) else
  if 23 <? hour then Some (Err (invalid "hour is not in 0..=23")) else
  if 59 <? minute then Some (Err (invalid "minute is not in 0..=59")) else
  let second := if second =? 60 then 59 else second in
  if 59 <? second then Some (Err (invalid "second is not in 0..=60")) else
  if NANOS_PER_SEC <=? nanos then Some (Err (invalid "fractional seconds are out of range")) else
  let local := days_from_civil year month day * SECS_PER_DAY + hour * 3600 + minute * 60 + second in
  let! (zone, instant) :=
    match zone, offset with
    | Some zone, Some offset =>
        let instant := local - offset in
        o ← offset_at zone instant;
        if negb (o =? offset) then Some (Err (offset_conflict "offset does not match the time zone"))
        else Some (Ok (zone, instant))
    | Some zone, None => instant ← resolve_compatible zone local; Some (Ok (zone, instant))
    | None, Some offset =>
        let! zone := Some (if offset =? 0 then Ok UTC else TimeZone.fixed offset) in
        Some (Ok (zone, local - offset))
    | None, None =>
        let zone := default UTC default_zone in
        instant ← resolve_compatible zone local; Some (Ok (zone, instant))
    end in
  from_raw_checked instant nanos zone.

Definition parse (input : list Z) (default_zone : option TimeZone) : option (result DateTime Error) :=
  let parser := new input in
  let! (year, month, day, parser) := parse_year_month_day parser in
  if done_ parser then assemble year month day 0 0 0 0 None None default_zone else
  match bump parser with
  | (Some b, parser) =>
      if negb ((b =? 84) || (b =? 116) || (b =? 32)) then Some (Err (TimeZone.parse "expected a date/time separator")) else
      let! (hour, minute, second, nanos, parser) := parse_clock parser in
      let! (offset, parser) := parse_offset parser in
      let! (zone, parser) := parse_zone_annotation parser in
      if negb (done_ parser) then Some (Err (TimeZone.parse "trailing characters")) else
      assemble year month day hour minute second nanos zone offset default_zone
  | (None, _) => Some (Err (TimeZone.parse "expected a date/time separator"))
  end.

Definition parse_date_only (input : list Z) : option (result DateTime Error) :=
  let! (year, month, day, parser) := parse_year_month_day (new input) in
  if negb (done_ parser) then Some (Err (TimeZone.parse "trailing characters")) else
  assemble year month day 0 0 0 0 None None None.

Definition parse_time_only (input : list Z) : option (result DateTime Error) :=
  let! (hour, minute, second, nanos, parser) := parse_clock (new input) in
  if negb (done_ parser) then Some (Err (TimeZone.parse "trailing characters")) else
  assemble 1970 1 1 hour minute second nanos None None None.

(** ** The strict shapes *)

(** [digits(lo..hi)]: the range is inside the text and holds digits. *)
Definition digits_in (bytes : list Z) (lo hi : nat) : bool :=
  forallb (fun index => match bytes !! index with Some b => is_ascii_digit b | None => false end) (seq lo (hi - lo)).

(** [bytes[index] == b], behind the check of the length. *)
Definition byte_is (bytes : list Z) (index : nat) (b : Z) : option bool := x ← bytes !! index; Some (x =? b).

(** [a || b] of conditions that may index out of range. *)
Definition or_else (a b : option bool) : option bool := x ← a; if (x : bool) then Some true else b.
Infix "||?" := or_else (at level 61, left associativity).
Definition not_ (a : option bool) : option bool := negb <$> a.

Definition rfc3339_shape (bytes : list Z) : option bool :=
  reject ← Some (length bytes <? 20)%nat ||? Some (negb (digits_in bytes 0 4)) ||? not_ (byte_is bytes 4 45)
    ||? Some (negb (digits_in bytes 5 7)) ||? not_ (byte_is bytes 7 45) ||? Some (negb (digits_in bytes 8 10))
    ||? not_ (b ← bytes !! 10%nat; Some ((b =? 84) || (b =? 116)))
    ||? Some (negb (digits_in bytes 11 13)) ||? not_ (byte_is bytes 13 58) ||? Some (negb (digits_in bytes 14 16))
    ||? not_ (byte_is bytes 16 58) ||? Some (negb (digits_in bytes 17 19));
  if (reject : bool) then Some false else
  dot ← byte_is bytes 19 46;
  index ← (if (dot : bool) then
      while_loop (S (length bytes)) (fun index => match bytes !! index with Some b => is_ascii_digit b | None => false end)
        (fun index => Some (index + 1)%nat) 20%nat
    else Some 19%nat);
  if (dot : bool) && (index =? 20)%nat then Some false else
  match bytes !! index with
  | Some b =>
      if (b =? 90) || (b =? 122) then Some (index + 1 =? length bytes)%nat
      else if (b =? 43) || (b =? 45) then
        if negb (index + 6 =? length bytes)%nat then Some false else
        if negb (digits_in bytes (index + 1) (index + 3)) then Some false else
        colon ← byte_is bytes (index + 3) 58;
        Some ((colon : bool) && digits_in bytes (index + 4) (index + 6))
      else Some false
  | None => Some false
  end.

Definition parse_rfc3339_strict (input : list Z) : option (result DateTime Error) :=
  shape ← rfc3339_shape input;
  if negb shape then Some (Err (TimeZone.parse "input is not an RFC 3339 date-time")) else parse input None.

(** [str::rfind] of an ASCII byte, [ends_with], [contains]. *)
Fixpoint rfind (c : Z) (s : list Z) : option nat :=
  match s with
  | [] => None
  | x :: t => match rfind c t with Some i => Some (S i) | None => if x =? c then Some 0%nat else None end
  end.
Definition ends_with (c : Z) (s : list Z) : bool := bool_decide (list.last s = Some c).
Definition contains (c : Z) (s : list Z) : bool := existsb (Z.eqb c) s.

Definition parse_rfc9557_strict (input : list Z) : option (result DateTime Error) :=
  datetime ← match rfind 91 input with
    | Some index => if ends_with 93 input then d ← slice input 0 index; Some (Some d)
                    else Some (if negb (contains 91 input) then Some input else None)
    | None => Some (if negb (contains 91 input) then Some input else None)
    end;
  match datetime with
  | None => Some (Err (TimeZone.parse "malformed RFC 9557 time zone annotation"))
  | Some datetime =>
      shape ← rfc3339_shape datetime;
      if negb shape then Some (Err (TimeZone.parse "input is not an RFC 9557 date-time")) else parse input None
  end.

(** ** Small helpers *)

Definition ascii_str (bytes : list Z) : result (list Z) Error :=
  match Utf8.from_utf8 bytes with Ok s => Ok s | Err _ => Err (TimeZone.parse "expected ASCII") end.

Definition one_digit (byte : Z) : result Z Error :=
  let value := u8 (byte - 48) in
  if value <? 10 then Ok value else Err (TimeZone.parse "expected a digit").

(** The product and the sum are those of [u8]: at most 99. *)
Definition two_digits (bytes : list Z) : result Z Error :=
  match bytes with
  | [a; b] => let? x := one_digit a in let? y := one_digit b in Ok (x * 10 + y)
  | _ => Err (TimeZone.parse "expected two digits")
  end.

Fixpoint four_digits_loop (value : Z) (l : list Z) : result Z Error :=
  match l with
  | [] => Ok value
  | byte :: l => let? d := one_digit byte in four_digits_loop (value * 10 + d) l
  end.
Definition four_digits (bytes : list Z) : result Z Error :=
  if negb (length bytes =? 4)%nat then Err (TimeZone.parse "expected four digits") else four_digits_loop 0 bytes.

Definition two_digit_year (year : Z) : Z := if year <? 50 then 2000 + year else 1900 + year.

Fixpoint month_index (n : Z) (names : list (list Z)) (name : list Z) : result Z Error :=
  match names with
  | [] => Err (TimeZone.parse "invalid month name")
  | x :: names => if bool_decide (name = x) then Ok n else month_index (n + 1) names name
  end.
Definition month_from_abbrev (name : list Z) : result Z Error :=
  month_index 1
    (map lit ["Jan"; "Feb"; "Mar"; "Apr"; "May"; "Jun"; "Jul"; "Aug"; "Sep"; "Oct"; "Nov"; "Dec"]%string) name.

Definition validate_weekday_short (name : list Z) : result unit Error :=
  if bool_decide (name ∈ map lit ["Mon"; "Tue"; "Wed"; "Thu"; "Fri"; "Sat"; "Sun"]%string) then Ok tt
  else Err (TimeZone.parse "invalid weekday name").

Definition validate_weekday_long (name : list Z) : result unit Error :=
  if bool_decide (name ∈ map lit ["Mon"; "Monday"; "Tue"; "Tuesday"; "Wed"; "Wednesday"; "Thu"; "Thursday"; "Fri";
      "Friday"; "Sat"; "Saturday"; "Sun"; "Sunday"]%string) then Ok tt
  else Err (TimeZone.parse "invalid weekday name").

(** [str::strip_prefix] of a string. *)
Fixpoint strip_prefix_str (p s : list Z) : option (list Z) :=
  match p, s with
  | [], _ => Some s
  | a :: p, b :: s => if a =? b then strip_prefix_str p s else None
  | _ :: _, [] => None
  end.

Fixpoint strip_first (names : list (list Z)) (s : list Z) : result (list Z) Error :=
  match names with
  | [] => Err (TimeZone.parse "invalid weekday name")
  | name :: names => match strip_prefix_str name s with Some rest => Ok rest | None => strip_first names s end
  end.
Definition strip_weekday_long (s : list Z) : result (list Z) Error :=
  strip_first (map lit ["Monday, "; "Tuesday, "; "Wednesday, "; "Thursday, "; "Friday, "; "Saturday, "; "Sunday, "]%string) s.

(** ** RFC 2822 *)

(** [split_ascii_whitespace]: the tokens between runs of white space. *)
Definition is_ascii_whitespace (c : Z) : bool := (c =? 32) || (c =? 9) || (c =? 10) || (c =? 12) || (c =? 13).
Fixpoint tokens_from (token : list Z) (s : list Z) : list (list Z) :=
  match s with
  | [] => match token with [] => [] | _ => [token] end
  | c :: s =>
      if is_ascii_whitespace c then match token with [] => tokens_from [] s | _ => token :: tokens_from [] s end
      else tokens_from (token ++ [c]) s
  end.
Definition split_ascii_whitespace (s : list Z) : list (list Z) := tokens_from [] s.

(** [tokens.next().ok_or_else(..)]. *)
Definition next_token (tokens : list (list Z)) (message : string) : result (list Z * list (list Z)) Error :=
  match tokens with t :: tokens => Ok (t, tokens) | [] => Err (TimeZone.parse message) end.

(** [s.strip_suffix(c)]. *)
Definition strip_suffix (c : Z) (s : list Z) : option (list Z) :=
  if bool_decide (list.last s = Some c) then Some (take (length s - 1) s) else None.

Fixpoint decimal_loop (value : Z) (l : list Z) : result Z Error :=
  match l with
  | [] => Ok value
  | byte :: l =>
      let digit := u8 (byte - 48) in
      if 10 <=? digit then Err (TimeZone.parse "expected a decimal number") else decimal_loop (value * 10 + digit) l
  end.
Definition parse_decimal (token : list Z) (min max : nat) : result Z Error :=
  if (length token <? min)%nat || (max <? length token)%nat then Err (TimeZone.parse "expected a decimal number")
  else decimal_loop 0 token.

Definition parse_rfc2822_year (token : list Z) : result Z Error :=
  let? value := parse_decimal token 2 4 in
  if (length token =? 2)%nat then Ok (two_digit_year (u16 value)) else Ok value.

Definition parse_rfc2822_zone (token : list Z) : option (result Z Error) :=
  if eq_ignore_ascii_case token (lit "gmt") || eq_ignore_ascii_case token (lit "ut")
     || eq_ignore_ascii_case token (lit "utc") || eq_ignore_ascii_case token (lit "z") then Some (Ok 0) else
  bad ← Some (negb (length token =? 5)%nat) ||? not_ (b ← token !! 0%nat; Some ((b =? 43) || (b =? 45)));
  if (bad : bool) then Some (Err (TimeZone.parse "invalid RFC 2822 time zone")) else
  h ← slice token 1 3;
  let! hours := Some (two_digits h) in
  m ← slice token 3 5;
  let! minutes := Some (two_digits m) in
  if (23 <? hours) || (59 <? minutes) then Some (Err (TimeZone.parse "RFC 2822 time zone is out of range")) else
  let magnitude := hours * 3600 + minutes * 60 in
  sign ← token !! 0%nat;
  Some (Ok (if sign =? 45 then - magnitude else magnitude)).

Definition parse_hms (token : list Z) : result (Z * Z * Z) Error :=
  let parts := split_on 58 token in
  let? (part, parts) := next_token parts "missing hour" in
  let? hour := parse_decimal part 1 2 in
  let? (part, parts) := next_token parts "missing minute" in
  let? minute := parse_decimal part 2 2 in
  let? (second, parts) := match parts with
    | part :: parts => let? second := parse_decimal part 2 2 in Ok (u8 second, parts)
    | [] => Ok (0, [])
    end in
  match parts with
  | _ :: _ => Err (TimeZone.parse "invalid time")
  | [] => Ok (u8 hour, u8 minute, second)
  end.

Definition parse_rfc2822 (input : list Z) : option (result DateTime Error) :=
  let! (first, tokens) := Some (next_token (split_ascii_whitespace input) "empty RFC 2822 date") in
  let! (day_token, tokens) := Some match strip_suffix 44 first with
    | Some weekday => let? _ := validate_weekday_long weekday in next_token tokens "missing day"
    | None => Ok (first, tokens)
    end in
  let! day := Some (parse_decimal day_token 1 2) in
  let! (month_token, tokens) := Some (next_token tokens "missing month") in
  let! month := Some (month_from_abbrev month_token) in
  let! (year_token, tokens) := Some (next_token tokens "missing year") in
  let! year := Some (parse_rfc2822_year year_token) in
  let! (time, tokens) := Some (next_token tokens "missing time") in
  let! (hour, minute, second) := Some (parse_hms time) in
  let! (offset, tokens) := match tokens with
    | [] => Some (Ok (0, []))
    | zone :: tokens => let! offset := parse_rfc2822_zone zone in Some (Ok (offset, tokens))
    end in
  match tokens with
  | _ :: _ => Some (Err (TimeZone.parse "trailing characters"))
  | [] => assemble year month (u8 day) hour minute second 0 None (Some offset) None
  end.

(** ** HTTP dates *)

(** [str::trim]: the white space of Unicode, as the bytes of its characters. *)
Definition WHITE_SPACE : list (list Z) :=
  [[9]; [10]; [11]; [12]; [13]; [32]; [0xC2; 0x85]; [0xC2; 0xA0]; [0xE1; 0x9A; 0x80]]
  ++ map (fun k => [0xE2; 0x80; 0x80 + Z.of_nat k]) (seq 0 11)
  ++ [[0xE2; 0x80; 0xA8]; [0xE2; 0x80; 0xA9]; [0xE2; 0x80; 0xAF]; [0xE2; 0x81; 0x9F]; [0xE3; 0x80; 0x80]].

Fixpoint strip_any (ws : list (list Z)) (s : list Z) : option (list Z) :=
  match ws with
  | [] => None
  | w :: ws => match strip_prefix_str w s with Some rest => Some rest | None => strip_any ws s end
  end.

Fixpoint trim_with (fuel : nat) (ws : list (list Z)) (s : list Z) : list Z :=
  match fuel with
  | O => s
  | S fuel => match strip_any ws s with Some rest => trim_with fuel ws rest | None => s end
  end.
Definition trim_start (s : list Z) : list Z := trim_with (length s) WHITE_SPACE s.
Definition trim_end (s : list Z) : list Z :=
  reverse (trim_with (length s) (map reverse WHITE_SPACE) (reverse s)).
Definition trim (s : list Z) : list Z := trim_end (trim_start s).

Definition is_ascii (s : list Z) : bool := forallb (fun b => b <? 128) s.

(** [&b[lo..hi]], in the chain of a result. *)
Definition field {A} (b : list Z) (lo hi : nat) (f : list Z -> result A Error) : option (result A Error) :=
  l ← slice b lo hi; Some (f l).

Definition parse_imf_fixdate (b : list Z) : option (result DateTime Error) :=
  bad ← Some (negb (length b =? 29)%nat) ||? not_ (byte_is b 3 44) ||? not_ (byte_is b 4 32) ||? not_ (byte_is b 7 32)
    ||? not_ (byte_is b 11 32) ||? not_ (byte_is b 16 32) ||? not_ (byte_is b 19 58) ||? not_ (byte_is b 22 58)
    ||? (l ← slice b 25 29; Some (negb (bool_decide (l = lit " GMT"))));
  if (bad : bool) then Some (Err (TimeZone.parse "invalid IMF-fixdate")) else
  let! weekday := field b 0 3 ascii_str in
  let! _ := Some (validate_weekday_short weekday) in
  let! day := field b 5 7 two_digits in
  let! month := field b 8 11 ascii_str in
  let! month := Some (month_from_abbrev month) in
  let! year := field b 12 16 four_digits in
  let! hour := field b 17 19 two_digits in
  let! minute := field b 20 22 two_digits in
  let! second := field b 23 25 two_digits in
  assemble year month day hour minute second 0 None (Some 0) None.

Definition parse_rfc850_date (s : list Z) : option (result DateTime Error) :=
  let! b := Some (strip_weekday_long s) in
  bad ← Some (negb (length b =? 22)%nat) ||? not_ (byte_is b 2 45) ||? not_ (byte_is b 6 45) ||? not_ (byte_is b 9 32)
    ||? not_ (byte_is b 12 58) ||? not_ (byte_is b 15 58) ||? (l ← slice b 18 22; Some (negb (bool_decide (l = lit " GMT"))));
  if (bad : bool) then Some (Err (TimeZone.parse "invalid RFC 850 date")) else
  let! day := field b 0 2 two_digits in
  let! month := field b 3 6 ascii_str in
  let! month := Some (month_from_abbrev month) in
  let! year := field b 7 9 two_digits in
  let year := two_digit_year (u16 year) in
  let! hour := field b 10 12 two_digits in
  let! minute := field b 13 15 two_digits in
  let! second := field b 16 18 two_digits in
  assemble year month day hour minute second 0 None (Some 0) None.

Definition parse_asctime (b : list Z) : option (result DateTime Error) :=
  bad ← Some (negb (length b =? 24)%nat) ||? not_ (byte_is b 3 32) ||? not_ (byte_is b 7 32) ||? not_ (byte_is b 10 32)
    ||? not_ (byte_is b 13 58) ||? not_ (byte_is b 16 58) ||? not_ (byte_is b 19 32);
  if (bad : bool) then Some (Err (TimeZone.parse "invalid asctime date")) else
  let! weekday := field b 0 3 ascii_str in
  let! _ := Some (validate_weekday_short weekday) in
  let! month := field b 4 7 ascii_str in
  let! month := Some (month_from_abbrev month) in
  let! day := (
    field ← slice b 8 10;
    tens ← field !! 0%nat;
    if tens =? 32 then units ← field !! 1%nat; Some (one_digit units) else Some (two_digits field)) in
  let! hour := field b 11 13 two_digits in
  let! minute := field b 14 16 two_digits in
  let! second := field b 17 19 two_digits in
  let! year := field b 20 24 four_digits in
  assemble year month day hour minute second 0 None (Some 0) None.

Definition parse_http (input : list Z) : option (result DateTime Error) :=
  let input := trim input in
  if negb (is_ascii input) then Some (Err (TimeZone.parse "date is not ASCII")) else
  r ← parse_imf_fixdate input;
  match r with Ok datetime => Some (Ok datetime) | Err _ =>
    r ← parse_rfc850_date input;
    match r with Ok datetime => Some (Ok datetime) | Err _ =>
      r ← parse_asctime input;
      match r with Ok datetime => Some (Ok datetime) | Err _ =>
        Some (Err (TimeZone.parse "input is not an IMF-fixdate (RFC 9110), RFC 850 or asctime date"))
      end
    end
  end.

(** ** The public functions *)

Definition parse_with_format (input : list Z) (format : Format) : option (result DateTime Error) :=
  match format with
  | Rfc3339 | Iso8601 => parse_rfc3339_strict input
  | Rfc9557 => parse_rfc9557_strict input
  | DateOnly => parse_date_only input
  | TimeOnly => parse_time_only input
  | Rfc2822 => parse_rfc2822 input
  | HttpDate => parse_http input
  end.

Definition parse_bytes (input : list Z) (default_zone : option TimeZone) : option (result DateTime Error) :=
  match Utf8.from_utf8 input with
  | Ok text => parse text default_zone
  | Err _ => Some (Err (TimeZone.parse "input is not valid UTF-8"))
  end.

Definition parse_bytes_with_format (input : list Z) (format : Format) : option (result DateTime Error) :=
  match Utf8.from_utf8 input with
  | Ok text => parse_with_format text format
  | Err _ => Some (Err (TimeZone.parse "input is not valid UTF-8"))
  end.

(** [FromStr for DateTime] and the methods that name a zone. *)
Definition from_str (s : list Z) : option (result DateTime Error) := parse s None.
Definition parse_with_timezone (input : list Z) (zone : TimeZone) : option (result DateTime Error) :=
  parse input (Some zone).
Definition parse_bytes_with_timezone (input : list Z) (zone : TimeZone) : option (result DateTime Error) :=
  parse_bytes input (Some zone).
End Parsing.

End TimeParse.
