(* ===== verification/TimeParseSafe.v ===== *)
(** * time: the parsers always return

    The text left to a parser of [TimeParse], what its loops compute, and the
    proof that no input makes it panic; [assemble], from fields to an instant.
    [sound] and [steps] are the specifications its pieces compose by;
    [CivilNames] is what parsing needs of the zone table. *)
From Stdlib Require Import ZArith Lia String.
From stdpp Require Import base list numbers option.
From S2P Require Import Prelude Words Order Utf8 Civil Posix Tzif TimeZone DateTime TzIndex TimeFormat TimeParse.
Import Civil Posix Tzif TimeZone DateTime TzIndex TimeFormat TimeParse.

#[local] Close Scope string_scope.

Module TimeParseSafe.

(** ** The text left to a parser *)

Definition view (p : Parser) : list Z := drop (pos p) (bytes p).
Definition adv (p : Parser) (n : nat) : Parser := mkParser (bytes p) (pos p + n).
Definition inside (p : Parser) : Prop := (pos p <= length (bytes p))%nat.

Lemma view_adv p n : view (adv p n) = drop n (view p).
Proof. unfold view, adv. cbn [bytes pos]. by rewrite drop_drop. Qed.

Lemma view_length p : inside p -> (pos p + length (view p) = length (bytes p))%nat.
Proof. unfold inside, view. rewrite length_drop. lia. Qed.

Lemma inside_adv p n : inside p -> (n <= length (view p))%nat -> inside (adv p n).
Proof. intros Hp Hn. pose proof (view_length p Hp). unfold inside, adv in *. cbn [bytes pos]. lia. Qed.

Lemma adv_adv p n m : adv (adv p n) m = adv p (n + m).
Proof. unfold adv. cbn [bytes pos]. f_equal. lia. Qed.

Lemma adv_0 p : adv p 0 = p.
Proof. destruct p as [b i]. unfold adv. simpl. f_equal. lia. Qed.

Lemma adv_app p s l : view p = s ++ l -> view (adv p (length s)) = l.
Proof. intros Hv. by rewrite view_adv, Hv, drop_app_length. Qed.

Lemma view_next p c l : view p = c :: l -> view (adv p 1) = l.
Proof. intros E. by rewrite view_adv, E. Qed.

Lemma peek_view p : peek p = head (view p).
Proof. unfold peek, view. rewrite head_lookup, lookup_drop. f_equal. lia. Qed.

Lemma bump_view p : bump p = match view p with c :: _ => (Some c, adv p 1) | [] => (None, p) end.
Proof. unfold bump. rewrite peek_view. by destruct (view p). Qed.

Lemma eat_view p b : eat p b = match view p with c :: _ => if c =? b then (true, adv p 1) else (false, p) | [] => (false, p) end.
Proof.
  unfold eat. rewrite peek_view. destruct (view p) as [|c l]; [by rewrite bool_decide_false|]. cbn [head].
  destruct (Z.eqb_spec c b) as [->|Hne]; [by rewrite bool_decide_true|]. rewrite bool_decide_false; congruence.
Qed.

Lemma next_is_view f p : next_is f p = match view p with c :: _ => f c | [] => false end.
Proof. unfold next_is. rewrite peek_view. by destruct (view p). Qed.

Lemma done_view p : inside p -> done_ p = bool_decide (view p = []).
Proof.
  intros Hp. pose proof (view_length p Hp) as Hl. unfold done_. destruct (Nat.eqb_spec (pos p) (length (bytes p))) as [E|E].
  - rewrite bool_decide_true; [done|]. apply length_zero_iff_nil. lia.
  - rewrite bool_decide_false; [done|]. intros Hn. rewrite Hn in Hl. simpl in Hl. lia.
Qed.

(** The length of the longest prefix of bytes that satisfy [f]. *)
Fixpoint run (f : Z -> bool) (l : list Z) : nat :=
  match l with [] => O | c :: l => if f c then S (run f l) else O end.

Lemma run_le f l : (run f l <= length l)%nat.
Proof. induction l as [|c l IH]; simpl; [lia|]. destruct (f c); lia. Qed.

Lemma run_take f l : Forall (fun c => f c = true) (take (run f l) l).
Proof. induction l as [|c l IH]; simpl; [constructor|]. destruct (f c) eqn:E; simpl; by constructor. Qed.

Lemma run_drop f l : match drop (run f l) l with c :: _ => f c = false | [] => True end.
Proof. induction l as [|c l IH]; simpl; [done|]. destruct (f c) eqn:E; [exact IH|exact E]. Qed.

Lemma run_app f s l : Forall (fun c => f c = true) s -> match l with c :: _ => f c = false | [] => True end ->
  run f (s ++ l) = length s.
Proof.
  intros Hs Hl. induction Hs as [|c s Hc Hs IH]; simpl; [|by rewrite Hc, IH]. destruct l as [|c l]; [done|]. simpl. by rewrite Hl.
Qed.

(** The three loops of the parser stop at the end of such a prefix. *)
Lemma skip_loop f n p : (length (view p) < n)%nat ->
  while_loop n (next_is f) (fun p => Some (bump p).2) p = Some (adv p (run f (view p))).
Proof.
  revert p. induction n as [|n IH]; intros p; [lia|]. cbn [while_loop]. rewrite next_is_view.
  destruct (view p) as [|c l] eqn:E; [intros _; simpl; by rewrite adv_0|]. cbn [run]. intros Hn. destruct (f c); [|by rewrite adv_0].
  cbn [mbind option_bind]. rewrite bump_view, E. cbn [snd]. rewrite IH, adv_adv; rewrite (view_next p c l E); [done|]. simpl in Hn. lia.
Qed.

Lemma digits_loop f n p k : (length (view p) < n)%nat ->
  while_loop n (fun '(p, _) => next_is f p) (fun '(p, k) => Some ((bump p).2, S k)) (p, k)
  = Some (adv p (run f (view p)), (k + run f (view p))%nat).
Proof.
  revert p k. induction n as [|n IH]; intros p k; [lia|]. cbn [while_loop]. rewrite next_is_view.
  destruct (view p) as [|c l] eqn:E; [intros _; simpl; by rewrite adv_0, Nat.add_0_r|]. cbn [run]. intros Hn.
  destruct (f c); [|by rewrite adv_0, Nat.add_0_r].
  cbn [mbind option_bind]. rewrite bump_view, E. cbn [snd]. rewrite IH, adv_adv; rewrite (view_next p c l E); [|simpl in Hn; lia]. do 2 f_equal. lia.
Qed.

Lemma fuel_enough p : (length (view p) < fuel p)%nat.
Proof. unfold fuel, view. rewrite length_drop. lia. Qed.

(** The sum over a fraction: at most nine digits count. *)
Fixpoint frac_sum (k : nat) (scale : Z) (l : list Z) : Z :=
  match k, l with
  | S k, c :: l => (c - 48) * scale + frac_sum k (scale / 10) l
  | _, _ => 0
  end.

Lemma fraction_step_eq p c l k scale acc : view p = c :: l ->
  fraction_step (p, k, scale, acc) = Some (if (k <? 9)%nat then (adv p 1, S k, scale / 10, acc + (c - 48) * scale)
    else (adv p 1, k, scale, acc)).
Proof. intros E. unfold fraction_step. by rewrite bump_view, E. Qed.

Lemma frac_loop n p k scale acc : (length (view p) < n)%nat -> (k <= 9)%nat ->
  exists k' scale', while_loop n (fun '(p, _, _, _) => next_is is_ascii_digit p) fraction_step
    (p, k, scale, acc)
  = Some (adv p (run is_ascii_digit (view p)), k', scale',
      acc + frac_sum (9 - k) scale (take (run is_ascii_digit (view p)) (view p))).
Proof.
  revert p k scale acc. induction n as [|n IH]; intros p k scale acc; [lia|]. cbn [while_loop]. rewrite next_is_view.
  destruct (view p) as [|c l] eqn:E.
  { intros _ Hk. exists k, scale. simpl. rewrite adv_0. destruct (9 - k)%nat; simpl; by rewrite Z.add_0_r. }
  intros Hn Hk. cbn [run]. destruct (is_ascii_digit c).
  2: { exists k, scale. rewrite adv_0. simpl. destruct (9 - k)%nat; simpl; by rewrite Z.add_0_r. }
  rewrite (fraction_step_eq p c l), some_bind by done.
  assert (Hn' : (length (view (adv p 1)) < n)%nat) by (rewrite (view_next p c l E); simpl in Hn; lia).
  destruct (Nat.ltb_spec k 9) as [Hlt|Hge].
  - destruct (IH (adv p 1) (S k) (scale / 10) (acc + (c - 48) * scale) Hn' Hlt) as (k' & scale' & Heq).
    exists k', scale'. rewrite Heq, adv_adv, (view_next p c l E). cbn [take].
    replace (9 - k)%nat with (S (9 - S k)) by lia. cbn [frac_sum]. do 2 f_equal. lia.
  - destruct (IH (adv p 1) k scale acc Hn' Hk) as (k' & scale' & Heq). exists k', scale'.
    rewrite Heq, adv_adv, (view_next p c l E). cbn [take]. by replace (9 - k)%nat with 0%nat by lia.
Qed.

Lemma frac_sum_bound k l : Forall (fun c => is_ascii_digit c = true) l -> (k <= 9)%nat ->
  0 <= frac_sum k (10 ^ Z.of_nat k / 10) l < 10 ^ Z.of_nat k.
Proof.
  intros Hl. revert k. induction Hl as [|c l Hc Hl IH]; intros k Hk; (destruct k as [|k]; cbn [frac_sum]; [simpl; lia|]).
  - lia.
  - specialize (IH k ltac:(lia)). rewrite Nat2Z.inj_succ, Z.pow_succ_r, (Z.mul_comm 10), Z.div_mul by lia.
    unfold is_ascii_digit in Hc. bool_hyps. assert (0 < 10 ^ Z.of_nat k) by lia. nia.
Qed.

(** ** Digits *)

Definition is_digits (l : list Z) : Prop := Forall (fun c => is_ascii_digit c = true) l.

Lemma dec_value_lt l acc : is_digits l -> dec_value acc l < (acc + 1) * 10 ^ Z.of_nat (length l).
Proof.
  intros H. revert acc. induction H as [|c l Hc Hl IH]; intros acc; cbn [dec_value length]; [simpl; lia|].
  unfold is_ascii_digit in Hc. bool_hyps. rewrite Nat2Z.inj_succ, Z.pow_succ_r by lia. specialize (IH (acc * 10 + (c - 48))).
  assert (0 < 10 ^ Z.of_nat (length l)) by lia. nia.
Qed.

Lemma is_digits_digits w v : is_digits (digits w v).
Proof.
  revert v. induction w as [|w IH]; intros v; cbn [digits]; [constructor|]. apply Forall_app. split; [apply IH|].
  pose proof (Z.mod_pos_bound v 10 ltac:(lia)). constructor; [|constructor]. unfold is_ascii_digit.
  destruct (Z.leb_spec 48 (48 + v mod 10)), (Z.leb_spec (48 + v mod 10) 57); (done || lia).
Qed.

Lemma dec_value_digits w v acc : 0 <= v < 10 ^ Z.of_nat w -> dec_value acc (digits w v) = acc * 10 ^ Z.of_nat w + v.
Proof.
  revert v acc. induction w as [|w IH]; intros v acc Hv; [simpl in *; lia|]. cbn [digits]. rewrite dec_value_snoc.
  rewrite Nat2Z.inj_succ, Z.pow_succ_r in * by lia. rewrite IH by (split; [apply Z.div_pos; lia|apply Z.div_lt_upper_bound; lia]).
  pose proof (Z.div_mod v 10 ltac:(lia)). lia.
Qed.

Lemma fixed_loop_eq n v p : (forall s l, is_digits s -> length s = n -> view p = s ++ l -> fixed_loop n v p = Ok (dec_value v s, adv p n)) /\
  match fixed_loop n v p with
  | Ok (x, p') => p' = adv p n /\ exists s l, is_digits s /\ length s = n /\ view p = s ++ l /\ x = dec_value v s
  | Err e => kind e = Parse
  end.
Proof.
  revert v p. induction n as [|n IH]; intros v p; cbn [fixed_loop].
  - split; [|rewrite adv_0; split; [done|]; exists [], (view p); split_and!; (done || constructor)].
    intros [|c s] l _ Hl; [|done]. by rewrite adv_0.
  - rewrite bump_view. split.
    + intros [|c s] l Hs Hl Hv; [done|]. inversion_clear Hs as [|? ? Hc Hs']. rewrite Hv. cbn [app]. rewrite Hc.
      cbn [app] in Hv. destruct (IH (v * 10 + (c - 48)) (adv p 1)) as [IH1 _].
      rewrite (IH1 s l), adv_adv; [done|done|by injection Hl|]. by apply (view_next p c).
    + destruct (view p) as [|c l] eqn:E; [done|]. destruct (is_ascii_digit c) eqn:Hc; [|done].
      destruct (IH (v * 10 + (c - 48)) (adv p 1)) as [_ IH2].
      destruct (fixed_loop n _ (adv p 1)) as [[x p']|e]; [|done]. destruct IH2 as (-> & s & l' & Hs & Hl & Hv & ->).
      rewrite (view_next p c l E) in Hv. subst l. rewrite adv_adv. split; [done|]. exists (c :: s), l'.
      split_and!; [by constructor|simpl; by rewrite Hl|done|done].
Qed.

Lemma fixed_reads p n v l : view p = digits n v ++ l -> 0 <= v < 10 ^ Z.of_nat n -> fixed p n = Ok (v, adv p n).
Proof.
  intros Hv Hb. unfold fixed. destruct (fixed_loop_eq n 0 p) as [Heq _].
  rewrite (Heq (digits n v) l), dec_value_digits; [by rewrite Z.mul_0_l|done|apply is_digits_digits|apply length_digits|done].
Qed.

Lemma number_loop_eq l v : is_digits l -> 0 <= v < 2 ^ 63 ->
  match number_loop v l with
  | Ok x => x = dec_value v l /\ 0 <= x < 2 ^ 63
  | Err e => kind e = Parse /\ 2 ^ 63 <= dec_value v l
  end.
Proof.
  intros H. revert v. induction H as [|c l Hc Hl IH]; intros v Hv; cbn [number_loop dec_value]; [done|]. rewrite Hc.
  cbn [negb]. unfold is_ascii_digit in Hc. bool_hyps. unfold fits64.
  pose proof (dec_value_ge l (v * 10 + (c - 48)) Hl ltac:(lia)) as Hge.
  destruct (Z.leb_spec (- 2 ^ 63) (v * 10)), (Z.ltb_spec (v * 10) (2 ^ 63)); cbn [andb negb]; try (split; [done|lia]); try lia.
  destruct (Z.leb_spec (- 2 ^ 63) (v * 10 + (c - 48))), (Z.ltb_spec (v * 10 + (c - 48)) (2 ^ 63)); cbn [andb negb];
    try (split; [done|lia]); try lia. apply IH. lia.
Qed.

(** ** No input makes the parser panic *)

(** The errors a text can produce. *)
Definition reported (e : Error) : Prop :=
  match kind e with Parse | OutOfRange | Invalid | UnknownTimeZone | OffsetConflict => True | _ => False end.

(** The computation returns, with a value of which [P] holds or an error. *)
Definition sound {A} (m : option (result A Error)) (P : A -> Prop) : Prop :=
  wp m (fun r => match r with Ok a => P a | Err e => reported e end).

(** The same, where the value comes with the parser after it. *)
Definition steps {A} (m : parses A) (P : A -> Prop) : Prop := sound m (fun '(a, p) => inside p /\ P a).

Lemma reported_parse e : kind e = Parse -> reported e.
Proof. unfold reported. by intros ->. Qed.

Lemma sound_err {A} e (P : A -> Prop) : reported e -> sound (Some (Err e)) P.
Proof. done. Qed.

Lemma sound_bind {A B} (m : option (result A Error)) (k : A -> option (result B Error)) P Q :
  sound m P -> (forall a, P a -> sound (k a) Q) -> sound (tbind m k) Q.
Proof. unfold sound, tbind. destruct m as [[a|e]|]; simpl; auto. Qed.

Lemma sound_mono {A} (m : option (result A Error)) (P Q : A -> Prop) : sound m P -> (forall a, P a -> Q a) -> sound m Q.
Proof. unfold sound. intros Hm H. eapply wp_mono; [exact Hm|]. intros [a|e]; auto. Qed.

Lemma sound_fixed p n : inside p -> sound (Some (fixed p n)) (fun '(v, p') => inside p' /\ 0 <= v < 10 ^ Z.of_nat n).
Proof.
  intros Hp. unfold fixed, sound, wp. destruct (fixed_loop_eq n 0 p) as [_ Hf].
  destruct (fixed_loop n 0 p) as [[x p']|e]; [|by apply reported_parse]. destruct Hf as (-> & s & l & Hs & Hl & Hv & ->). split.
  - apply inside_adv; [done|]. rewrite Hv, length_app. lia.
  - pose proof (dec_value_ge s 0 Hs ltac:(lia)). pose proof (dec_value_lt s 0 Hs). rewrite Hl in *. lia.
Qed.

Lemma inside_eat p b : inside p -> inside (eat p b).2.
Proof.
  intros Hp. rewrite eat_view. destruct (view p) as [|c l] eqn:E; [done|]. destruct (c =? b); [|done].
  apply inside_adv; [done|]. rewrite E. simpl. lia.
Qed.

Lemma inside_bump p : inside p -> inside (bump p).2.
Proof.
  intros Hp. rewrite bump_view. destruct (view p) as [|c l] eqn:E; [done|]. apply inside_adv; [done|]. rewrite E. simpl. lia.
Qed.

Lemma sound_expect p b : inside p -> sound (Some (expect p b)) inside.
Proof.
  intros Hp. unfold expect. pose proof (inside_eat p b Hp) as Hi. by destruct (eat p b) as [[|] p'].
Qed.

Lemma inside_run f p : inside p -> inside (adv p (run f (view p))).
Proof. intros Hp. apply inside_adv; [done|apply run_le]. Qed.

Lemma number_digits p : inside p ->
  number (adv p (run is_ascii_digit (view p))) (pos p) (pos p + run is_ascii_digit (view p))
  = Some (number_loop 0 (take (run is_ascii_digit (view p)) (view p))).
Proof.
  intros Hp. unfold number, slice, adv. cbn [bytes]. pose proof (view_length p Hp). pose proof (run_le is_ascii_digit (view p)).
  rewrite decide_True by lia. cbn [mbind option_bind].
  by replace (pos p + run is_ascii_digit (view p) - pos p)%nat with (run is_ascii_digit (view p)) by lia.
Qed.

(** A year, as [parse_year_month_day] reads it. *)
Lemma sound_number p : inside p ->
  sound (number (adv p (run is_ascii_digit (view p))) (pos p) (pos p + run is_ascii_digit (view p))) (fun y => 0 <= y).
Proof.
  intros Hp. rewrite number_digits by done. unfold sound, wp.
  pose proof (number_loop_eq (take (run is_ascii_digit (view p)) (view p)) 0 (run_take _ _) ltac:(lia)) as Hn.
  destruct (number_loop 0 _); [lia|]. apply reported_parse, Hn.
Qed.

Ltac sounds_fixed := eapply sound_bind; [by apply sound_fixed|]; intros [? ?] [? ?].
Ltac sounds_expect := eapply sound_bind; [by apply sound_expect|]; intros ? ?.

Lemma steps_year_month_day p : inside p -> steps (parse_year_month_day p) (fun '(y, m, d) => MIN_YEAR <= y <= MAX_YEAR /\ 0 <= m < 256 /\ 0 <= d < 256).
Proof.
  intros Hp. unfold parse_year_month_day. pose proof (inside_eat p 45 Hp) as Hp1.
  destruct (eat p 45) as [neg p1]. cbn [snd] in Hp1. pose proof (inside_eat p1 43 Hp1) as Hp2.
  destruct (eat p1 43) as [plus p2]. cbn [snd] in Hp2.
  rewrite digits_loop by apply fuel_enough. rewrite some_bind. destruct (_ <? 4)%nat; [done|].
  pose proof (inside_run is_ascii_digit p2 Hp2) as Hp3.
  eapply sound_bind; [by apply sound_number|]. intros y Hy. cbn beta zeta. set (y' := if neg then - y else y).
  destruct (Z.ltb_spec y' MIN_YEAR), (Z.ltb_spec MAX_YEAR y'); try done. cbn [orb].
  sounds_expect. sounds_fixed. sounds_expect. sounds_fixed. unfold sound, wp. split; [done|].
  pose proof (u8_byte z). pose proof (u8_byte z0). unfold byte in *. lia.
Qed.

Lemma fraction_loop_eq p : exists k' scale', fraction_loop p = Some (adv p (run is_ascii_digit (view p)), k', scale',
  frac_sum 9 100000000 (take (run is_ascii_digit (view p)) (view p))).
Proof. apply (frac_loop (fuel p) p 0 100000000 0); [apply fuel_enough|lia]. Qed.

Lemma steps_clock p : inside p -> steps (parse_clock p) (fun '(h, m, s, ns) => 0 <= h /\ 0 <= m /\ 0 <= s /\ 0 <= ns < 1000000000).
Proof.
  intros Hp. unfold parse_clock. sounds_fixed. sounds_expect. sounds_fixed.
  match goal with |- context [eat ?p ?b] => pose proof (inside_eat p b ltac:(assumption)) as Hi; destruct (eat p b) as [colon p4] end.
  eapply (sound_bind _ _ (fun '(v, p') => inside p' /\ 0 <= v)).
  { destruct colon; [|done]. eapply sound_mono; [by apply sound_fixed|]. intros [? ?] [? ?]. split; [done|lia]. }
  intros [s p5] [Hp5 Hs]. cbn beta zeta iota. destruct (next_is _ p5).
  - pose proof (inside_bump p5 Hp5) as Hp6. destruct (fraction_loop_eq (bump p5).2) as (k & sc & ->). rewrite some_bind.
    destruct (_ =? _)%nat; [done|]. unfold steps, sound, wp. split; [by apply inside_run|].
    pose proof (frac_sum_bound 9 _ (run_take is_ascii_digit (view (bump p5).2)) ltac:(lia)) as Hb.
    split_and!; try apply u8_byte; apply Hb.
  - unfold steps, sound, wp. split; [done|]. split_and!; try apply u8_byte; lia.
Qed.

Lemma fixed_spec o : match TimeZone.fixed o with Ok z => z = Fixed o /\ small o | Err e => kind e = OutOfRange /\ ~ small o end.
Proof.
  unfold TimeZone.fixed, small. destruct (Z.ltb_spec o (- OFFSET_LIMIT)), (Z.ltb_spec OFFSET_LIMIT o); cbn [orb]; (split; [done|lia]).
Qed.

Lemma steps_offset p : inside p -> steps (parse_offset p) (fun o => match o with Some o => small o | None => True end).
Proof.
  intros Hp. unfold parse_offset. pose proof (inside_bump p Hp) as Hb. destruct (next_is _ p).
  { split; [done|]. unfold small, OFFSET_LIMIT. lia. }
  destruct (next_is _ p); [|by split]. destruct (bump p) as [sign p1]. cbn [snd] in Hb. cbn beta zeta. sounds_fixed.
  match goal with |- context [eat ?p ?b] => pose proof (inside_eat p b ltac:(assumption)) as Hi; destruct (eat p b) as [colon p4] end.
  cbn [snd] in Hi. eapply (sound_bind _ _ (fun '(_, _, p') => inside p')).
  { assert (Hf : forall p, inside p -> match fixed p 2 with Ok (_, p') => inside p' | Err e => reported e end).
    { intros q Hq. pose proof (sound_fixed q 2 Hq) as Hs. unfold sound, wp in Hs. destruct (fixed q 2) as [[? ?]|]; [apply Hs|done]. }
    unfold sound, wp. destruct colon; [|destruct (next_is _ p4); [|done]];
      pose proof (Hf p4 Hi) as Hf4; destruct (fixed p4 2) as [[mi p5]|e5]; cbn [rbind]; try done.
    - pose proof (inside_eat p5 58 Hf4) as Hi5. destruct (eat p5 58) as [[|] p6]; cbn [snd] in Hi5; [|done].
      pose proof (Hf p6 Hi5) as Hf6. by destruct (fixed p6 2) as [[? ?]|].
    - destruct (next_is _ p5); [|done]. pose proof (Hf p5 Hf4) as Hf6. by destruct (fixed p5 2) as [[? ?]|]. }
  intros [[mi s] p5] Hp5. cbn beta zeta. destruct (_ || _); [done|].
  match goal with |- context [TimeZone.fixed ?o] => pose proof (fixed_spec o) as Ho; destruct (TimeZone.fixed o) end.
  - unfold tbind, sound, wp. cbn [mbind option_bind]. split; [done|apply Ho].
  - unfold tbind, sound, wp. cbn [mbind option_bind]. unfold reported. by rewrite (proj1 Ho).
Qed.

Section Zones.
Context `{!TzData, !TzNames, !TzNamesLaws}.

(** Every zone of the database is fit for a [DateTime]. *)
Class CivilNames := civil_names e : e ∈ ZONES -> CivilZone (Named e).
Context `{!CivilNames}.

Lemma sound_named name : sound (named name) CivilZone.
Proof.
  unfold sound. eapply wp_mono; [apply named_wp|]. intros [z|e].
  - intros [->|(e & -> & He & _)]; [apply utc_civil|by apply civil_names].
  - intros [He _]. unfold reported. by rewrite He.
Qed.

Lemma steps_annotation p : inside p ->
  steps (parse_zone_annotation p) (fun z => match z with Some z => CivilZone z | None => True end).
Proof.
  intros Hp. unfold parse_zone_annotation. destruct (negb _); [by split|]. pose proof (inside_bump p Hp) as Hb.
  set (p1 := (bump p).2) in *. cbn zeta. rewrite skip_loop by apply fuel_enough. rewrite some_bind.
  set (p2 := adv p1 (run _ (view p1))). assert (Hp2 : inside p2) by by apply inside_run.
  assert (Hpos : (pos p1 <= pos p2)%nat) by (unfold p2, adv; simpl; lia). clearbody p2. clearbody p1.
  rewrite eat_view. destruct (view p2) as [|c l] eqn:E; [done|]. destruct (c =? 93); [|done]. cbn [negb].
  assert (Hi : inside (adv p2 1)) by (apply inside_adv; [done|rewrite E; simpl; lia]).
  unfold slice. rewrite decide_True; [|unfold inside, adv in *; cbn [bytes pos] in *; lia]. cbn [mbind option_bind].
  destruct (Utf8.from_utf8 _) as [name|]; [|done]. eapply sound_bind; [apply sound_named|]. intros z Hz.
  unfold sound, wp. by split.
Qed.

(** ** From fields to an instant *)

(** The checks of [assemble] on the fields; the year has its own. *)
Definition fields_ok (y m d h mi s ns : Z) : Prop := valid y m d /\ h <= 23 /\ mi <= 59 /\ s <= 60 /\ ns < 1000000000.

Definition offset_zone (o : Z) : TimeZone := if o =? 0 then UTC else Fixed o.
Definition chosen (zone : option TimeZone) (offset : option Z) (default_zone : option TimeZone) : TimeZone :=
  match zone, offset with
  | Some zone, _ => zone
  | None, Some o => offset_zone o
  | None, None => default UTC default_zone
  end.

(** Why [assemble] refuses fields; a leap second counts as the second before. *)
Definition refused (y m d h mi s ns : Z) (zone : option TimeZone) (offset : option Z) (default_zone : option TimeZone) (e : Error) : Prop :=
  let local := local_of y m d h mi (Z.min s 59) in
  match kind e with
  | Invalid => ~ fields_ok y m d h mi s ns
  | OffsetConflict => exists z o, zone = Some z /\ offset = Some o /\ offset_at z (local - o) <> Some o
  | OutOfRange =>
      match offset with
      | Some o => (zone = None /\ ~ small o) \/ ~ (MIN_SECS <= local - o <= MAX_SECS)
      | None => exists t, resolve_compatible (chosen zone None default_zone) local = Some t /\ ~ (MIN_SECS <= t <= MAX_SECS)
      end
  | _ => False
  end.

Definition assembled (y m d h mi s ns : Z) (zone : option TimeZone) (offset : option Z) (default_zone : option TimeZone) (dt : DateTime) : Prop :=
  let local := local_of y m d h mi (Z.min s 59) in
  fields_ok y m d h mi s ns /\ wf_dt dt /\ nanos dt = ns /\ DateTime.zone dt = chosen zone offset default_zone /\
  match offset with
  | Some o => secs dt = local - o /\ dt_offset dt = o
  | None => resolve_compatible (chosen zone None default_zone) local = Some (secs dt)
  end.

Definition civil_option (z : option TimeZone) : Prop := match z with Some z => CivilZone z | None => True end.

Lemma resolve_civil z local : CivilZone z -> local_ok local -> exists t, resolve_compatible z local = Some t.
Proof. intros Hz Hl. unfold resolve_compatible. destruct (cz_resolve local Compatible Hl) as [r ->]. by eexists. Qed.

(** Fields of the types of the code, the year short of the ends of [i32]; with
    an offset and no zone, [assemble] asks no zone before the range check, so
    any year will do. *)
Definition in_reach (y h mi s : Z) (zone : option TimeZone) (offset : option Z) : Prop :=
  (zone = None /\ is_Some offset) \/
  (- 2 * 10 ^ 9 <= y <= 2 * 10 ^ 9 /\ 0 <= h /\ 0 <= mi /\ 0 <= s /\
   match offset with Some o => - 2 ^ 31 <= o < 2 ^ 31 | None => True end).

(** [from_raw_checked], with the outcome each client asks for. *)
Lemma raw_checked_wp t ns z Q : CivilZone z -> 0 <= ns < 1000000000 ->
  (forall dt, wf_dt dt -> secs dt = t -> nanos dt = ns -> DateTime.zone dt = z -> Q (Ok dt)) ->
  (forall e, kind e = OutOfRange -> ~ (MIN_SECS <= t <= MAX_SECS) -> Q (Err e)) ->
  wp (from_raw_checked t ns z) Q.
Proof.
  intros Hz Hns Hok Herr. eapply wp_mono; [by apply from_raw_checked_wp|]. intros [dt|e].
  - intros (_ & Hwf & Hs & Hn & Hzz). by apply Hok.
  - intros [He Hr]. by apply Herr.
Qed.

Lemma reach_small y h mi s zone offset : MIN_YEAR <= y <= MAX_YEAR -> 0 <= h -> 0 <= mi -> 0 <= s ->
  match offset with Some o => small o | None => True end -> in_reach y h mi s zone offset.
Proof. intros Hy ??? Ho. right. limits. split_and!; try lia. destruct offset; [lia|done]. Qed.

Lemma reach_offset y h mi s o : in_reach y h mi s None (Some o).
Proof. left. by split. Qed.

Lemma assemble_spec y m d h mi s ns zone offset default_zone : 0 <= ns -> in_reach y h mi s zone offset -> civil_option zone -> civil_option default_zone ->
  wp (assemble y m d h mi s ns zone offset default_zone) (fun r => match r with
    | Ok dt => assembled y m d h mi s ns zone offset default_zone dt
    | Err e => refused y m d h mi s ns zone offset default_zone e end).
Proof.
  intros Hns Hreach Hz Hdz. unfold assemble, refused, fields_ok, valid.
  destruct (Z.leb_spec 1 m), (Z.leb_spec m 12); cbn [andb negb]; try (cbn; lia).
  destruct (Z.ltb_spec d 1), (Z.ltb_spec (days_in_month y m) d); cbn [orb]; try (cbn; lia).
  destruct (Z.ltb_spec 23 h); [cbn; lia|]. destruct (Z.ltb_spec 59 mi); [cbn; lia|].
  assert (Hs : (if s =? 60 then 59 else s) = Z.min s 59 /\ s <= 60 \/ 60 < s).
  { destruct (Z.eqb_spec s 60) as [->|]; [left; by split|]. lia. }
  destruct Hs as [[-> Hs]|Hs]; [|destruct (Z.eqb_spec s 60); [lia|]; destruct (Z.ltb_spec 59 s); [cbn; lia|lia]].
  destruct (Z.ltb_spec 59 (Z.min s 59)); [lia|]. unfold NANOS_PER_SEC. destruct (Z.leb_spec 1000000000 ns); [cbn; lia|].
  change (days_from_civil y m d * SECS_PER_DAY + h * 3600 + mi * 60 + Z.min s 59) with (local_of y m d h mi (Z.min s 59)).
  set (local := local_of y m d h mi (Z.min s 59)). assert (Hf : fields_ok y m d h mi s ns) by (unfold fields_ok, valid; lia).
  assert (Hlok : (zone = None /\ is_Some offset) \/
    (local_ok local /\ match offset with Some o => - 2 ^ 31 <= o < 2 ^ 31 | None => True end)).
  { destruct Hreach as [?|(Hy & Hh & Hmi & Hs' & Ho)]; [by left|right]. split; [|done].
    apply local_of_ok; [done|apply Hf|lia..]. }
  unfold assembled. fold local. apply tbind_wp. destruct zone as [z|], offset as [o|]; cbn [chosen civil_option] in *;
    try (destruct Hlok as [[? [? ?]]|[Hlok Ho32]]; [done|]).
  - destruct (cz_offset (local - o)) as (o' & Ho' & _); [unfold instant_ok, local_ok in *; lia|]. rewrite Ho'. cbn [mbind option_bind].
    destruct (Z.eqb_spec o' o) as [->|Hne]; cbn [negb wp].
    + apply raw_checked_wp; [done|lia| |].
      * intros dt Hwf Hsec Hn Hzz. split_and!; try done. destruct Hwf as (_ & _ & Hoff & _). rewrite Hsec, Hzz, Ho' in Hoff. by injection Hoff.
      * intros e He Hr. rewrite He. by right.
    + cbn. exists z, o. split_and!; try done. rewrite Ho'. congruence.
  - destruct (resolve_civil z local Hz Hlok) as [t Ht]. rewrite Ht. cbn [mbind option_bind wp]. apply raw_checked_wp; [done|lia| |].
    + intros dt Hwf Hsec Hn Hzz. by rewrite Hsec.
    + intros e He Hr. rewrite He. by exists t.
  - assert (Ho : match (if o =? 0 then Ok (E := Error) UTC else TimeZone.fixed o) with Ok z => z = offset_zone o /\ small o | Err e => kind e = OutOfRange /\ ~ small o end).
    { unfold offset_zone. destruct (Z.eqb_spec o 0) as [->|]; [split; [done|unfold small, OFFSET_LIMIT; lia]|apply fixed_spec]. }
    unfold tbind at 1. cbn [mbind option_bind]. destruct (if o =? 0 then _ else _) as [z|e]; cbn [wp].
    2: { destruct Ho as [He Hr]. rewrite He. left. by split. }
    destruct Ho as [-> Ho]. assert (Hcz : CivilZone (offset_zone o)).
    { unfold offset_zone. destruct (o =? 0); [apply utc_civil|by apply fixed_civil]. }
    apply raw_checked_wp; [done|lia| |].
    + intros dt Hwf Hsec Hn Hzz. split_and!; try done. destruct Hwf as (_ & _ & Hoff & _). rewrite Hzz in Hoff.
      unfold offset_zone in Hoff. destruct (Z.eqb_spec o 0) as [->|]; by injection Hoff.
    + intros e He Hr. rewrite He. by right.
  - assert (Hcz : CivilZone (default UTC default_zone)) by (destruct default_zone; [done|apply utc_civil]).
    destruct (resolve_civil _ local Hcz Hlok) as [t Ht]. rewrite Ht. cbn [mbind option_bind wp]. apply raw_checked_wp; [done|lia| |].
    + intros dt Hwf Hsec Hn Hzz. by rewrite Hsec.
    + intros e He Hr. rewrite He. by exists t.
Qed.

Lemma sound_assemble y m d h mi s ns zone offset default_zone : 0 <= ns -> in_reach y h mi s zone offset -> civil_option zone -> civil_option default_zone ->
  sound (assemble y m d h mi s ns zone offset default_zone) wf_dt.
Proof.
  intros Hns Hreach Hz Hdz. unfold sound. eapply wp_mono; [by apply assemble_spec|]. intros [dt|e]; [by intros (_ & Hwf & _)|].
  unfold refused, reported. by destruct (kind e).
Qed.

Lemma sound_parse input default_zone : civil_option default_zone -> sound (parse input default_zone) wf_dt.
Proof.
  intros Hdz. unfold parse. eapply sound_bind; [apply steps_year_month_day; unfold inside; simpl; lia|].
  intros [[[y m] d] p] [Hp Hymd]. destruct (done_ p); [apply sound_assemble; [done|apply reach_small; (tauto || lia)|done|done]|]. pose proof (inside_bump p Hp) as Hb.
  destruct (bump p) as [[b|] p1]; [|done]. cbn [snd] in Hb. destruct (negb _); [done|].
  eapply sound_bind; [by apply steps_clock|]. intros [[[[h mi] s] ns] p2] [Hp2 Hc].
  eapply sound_bind; [by apply steps_offset|]. intros [o p3] [Hp3 Ho].
  eapply sound_bind; [by apply steps_annotation|]. intros [z p4] [Hp4 Hz].
  destruct (negb _); [done|]. apply sound_assemble; [apply Hc|apply reach_small; (tauto || lia)|done|done].
Qed.

Lemma sound_date_only input : sound (parse_date_only input) wf_dt.
Proof.
  unfold parse_date_only. eapply sound_bind; [apply steps_year_month_day; unfold inside; simpl; lia|].
  intros [[[y m] d] p] [_ Hymd]. destruct (negb _); [done|]. apply sound_assemble; [done|apply reach_small; (tauto || lia)|done|done].
Qed.

Lemma sound_time_only input : sound (parse_time_only input) wf_dt.
Proof.
  unfold parse_time_only. eapply sound_bind; [apply steps_clock; unfold inside; simpl; lia|].
  intros [[[[h mi] s] ns] p] [_ Hc]. destruct (negb _); [done|]. apply sound_assemble; [apply Hc|apply reach_small; limits; (tauto || lia)|done|done].
Qed.
End Zones.

(** *** The strict shapes *)

Lemma byte_is_some l i b : (i < length l)%nat -> is_Some (byte_is l i b).
Proof. intros [x Hx]%lookup_lt_is_Some. unfold byte_is. rewrite Hx. by eexists. Qed.

Lemma not_some a : is_Some a -> is_Some (not_ a).
Proof. intros [x ->]. by eexists. Qed.

Lemma or_some a b : is_Some a -> is_Some b -> is_Some (or_else a b).
Proof. intros [[|] ->] Hb; [by eexists|exact Hb]. Qed.

Lemma index_loop f l n i : (length l - i < n)%nat ->
  while_loop n (fun index => match l !! index with Some b => f b | None => false end) (fun index => Some (index + 1)%nat) i
  = Some (i + run f (drop i l))%nat.
Proof.
  revert i. induction n as [|n IH]; intros i Hn; [lia|]. cbn [while_loop]. destruct (l !! i) as [c|] eqn:E.
  - rewrite (drop_S l c i E). cbn [run]. destruct (f c); [|f_equal; lia]. rewrite some_bind, IH.
    + f_equal. rewrite Nat.add_1_r. lia.
    + apply lookup_lt_Some in E. lia.
  - apply lookup_ge_None in E. rewrite drop_ge by done. simpl. f_equal. lia.
Qed.

Ltac chain_some := repeat apply or_some; first [by eexists | by apply not_some, byte_is_some; lia | idtac].

Lemma shape_some l : is_Some (rfc3339_shape l).
Proof.
  unfold rfc3339_shape. destruct (Nat.ltb_spec (length l) 20) as [Hlt|Hge]; [by eexists|].
  match goal with |- is_Some (?c ≫= _) => assert (Hc : is_Some c) end.
  { chain_some. apply not_some. destruct (lookup_lt_is_Some_2 l 10) as [b ->]; [lia|by eexists]. }
  destruct Hc as [[|] ->]; [by eexists|]. rewrite some_bind.
  destruct (byte_is_some l 19 46) as [dot ->]; [lia|]. rewrite some_bind.
  match goal with |- is_Some (?c ≫= _) => assert (Hc : exists i, c = Some i) end.
  { destruct dot; [|by eexists]. rewrite index_loop by lia. by eexists. }
  destruct Hc as [index ->]. rewrite some_bind. destruct (_ && _); [by eexists|].
  destruct (l !! index) as [b|]; [|by eexists]. destruct (_ || _); [by eexists|]. destruct (_ || _); [|by eexists].
  destruct (Nat.eqb_spec (index + 6) (length l)); [|by eexists]. cbn [negb]. destruct (negb _); [by eexists|].
  destruct (byte_is_some l (index + 3) 58) as [c ->]; [lia|by eexists].
Qed.

Lemma rfind_lt c l i : rfind c l = Some i -> (i < length l)%nat.
Proof.
  revert i. induction l as [|x l IH]; intros i; [done|]. cbn [rfind length]. destruct (rfind c l) as [j|].
  - intros [= <-]. specialize (IH j eq_refl). lia.
  - destruct (x =? c); [intros [= <-]; lia|done].
Qed.

Section Strict.
Context `{!TzData, !TzNames, !TzNamesLaws, !CivilNames}.

Lemma sound_rfc3339 input : sound (parse_rfc3339_strict input) wf_dt.
Proof.
  unfold parse_rfc3339_strict. destruct (shape_some input) as [[|] ->]; rewrite some_bind; [|done]. by apply sound_parse.
Qed.

Lemma sound_rfc9557 input : sound (parse_rfc9557_strict input) wf_dt.
Proof.
  unfold parse_rfc9557_strict.
  match goal with |- sound (?c ≫= _) _ => assert (Hc : exists d, c = Some d) end.
  { destruct (rfind 91 input) as [i|] eqn:E; [|by eexists]. destruct (ends_with 93 input); [|by eexists].
    apply rfind_lt in E. unfold slice. rewrite decide_True by lia. by eexists. }
  destruct Hc as [[d|] ->]; rewrite some_bind; [|done]. destruct (shape_some d) as [[|] ->]; rewrite some_bind; [|done].
  by apply sound_parse.
Qed.

(** *** RFC 2822 and HTTP dates *)

Definition reports {A} (r : result A Error) : Prop := match r with Ok _ => True | Err e => reported e end.

Lemma reports_sound {A} (r : result A Error) : reports r -> sound (Some r) (fun _ => True).
Proof. by destruct r. Qed.

Lemma reports_bind {A B} (m : result A Error) (k : A -> result B Error) : reports m -> (forall a, reports (k a)) -> reports (rbind m k).
Proof. destruct m; simpl; auto. Qed.

Lemma reports_ascii l : reports (ascii_str l).
Proof. unfold ascii_str. by destruct (Utf8.from_utf8 l). Qed.
Lemma reports_one c : reports (one_digit c).
Proof. unfold one_digit. cbn zeta. by destruct (_ <? 10). Qed.
Lemma reports_two l : reports (two_digits l).
Proof.
  destruct l as [|a [|b [|c l]]]; try done. cbn [two_digits]. apply reports_bind; [apply reports_one|]. intros x.
  by apply reports_bind; [apply reports_one|].
Qed.
Lemma reports_four l : reports (four_digits l).
Proof.
  unfold four_digits. destruct (negb _); [done|]. generalize 0. induction l as [|c l IH]; intros v; [done|].
  cbn [four_digits_loop]. apply reports_bind; [apply reports_one|]. intros d. apply IH.
Qed.
Lemma reports_month_index l n name : reports (month_index n l name).
Proof. revert n. induction l as [|x l IH]; intros n; [done|]. cbn [month_index]. by destruct (bool_decide _). Qed.
Lemma reports_month name : reports (month_from_abbrev name).
Proof. apply reports_month_index. Qed.
Lemma reports_short name : reports (validate_weekday_short name).
Proof. unfold validate_weekday_short. by destruct (bool_decide _). Qed.
Lemma reports_long name : reports (validate_weekday_long name).
Proof. unfold validate_weekday_long. by destruct (bool_decide _). Qed.
Lemma reports_strip_first names s : reports (strip_first names s).
Proof. induction names as [|x l IH]; [done|]. cbn [strip_first]. by destruct (strip_prefix_str _ _). Qed.
Lemma reports_next tokens message : reports (next_token tokens message).
Proof. by destruct tokens. Qed.
Lemma reports_decimal l a b : reports (parse_decimal l a b).
Proof.
  unfold parse_decimal. destruct (_ || _); [done|]. generalize 0. induction l as [|c l IH]; intros v; [done|].
  cbn [decimal_loop]. cbn zeta. by destruct (10 <=? _).
Qed.
Lemma reports_year l : reports (parse_rfc2822_year l).
Proof. unfold parse_rfc2822_year. apply reports_bind; [apply reports_decimal|]. intros v. by destruct (_ =? _)%nat. Qed.

#[local] Hint Resolve reports_ascii reports_one reports_two reports_four reports_month reports_short reports_long
  reports_strip_first reports_next reports_decimal reports_year : reports.

Lemma reports_hms l : reports (parse_hms l).
Proof.
  unfold parse_hms. cbn zeta. apply reports_bind; [auto with reports|]. intros [p1 parts1].
  apply reports_bind; [auto with reports|]. intros hour. apply reports_bind; [auto with reports|]. intros [p2 parts2].
  apply reports_bind; [auto with reports|]. intros minute. apply reports_bind.
  - destruct parts2; [done|]. by apply reports_bind; [auto with reports|].
  - by intros [second [|? ?]].
Qed.
#[local] Hint Resolve reports_hms : reports.

(** A fallible step whose value does not matter. *)
Lemma sound_seq {A B} (r : result A Error) (k : A -> option (result B Error)) Q :
  reports r -> (forall a, sound (k a) Q) -> sound (tbind (Some r) k) Q.
Proof. intros Hr Hk. eapply sound_bind; [by apply reports_sound|]. auto. Qed.

Lemma sound_field {A B} l lo hi (f : list Z -> result A Error) (k : A -> option (result B Error)) Q :
  (lo <= hi <= length l)%nat -> (forall x, reports (f x)) -> (forall a, sound (k a) Q) -> sound (tbind (field l lo hi f) k) Q.
Proof.
  intros Hl Hf Hk. eapply sound_bind; [|intros a _; apply Hk]. unfold field, slice. rewrite decide_True by lia.
  cbn [mbind option_bind]. by apply reports_sound.
Qed.

Ltac sound_step := first
  [ apply sound_field; [lia|auto with reports|intros ?]
  | apply sound_seq; [auto with reports|intros ?; cbn beta zeta; repeat match goal with |- sound (let '(_, _) := ?a in _) _ => destruct a end]
  | apply sound_assemble; [done|apply reach_offset|done|done] ].

Lemma sound_zone token : sound (parse_rfc2822_zone token) (fun _ => True).
Proof.
  unfold parse_rfc2822_zone. destruct (_ || _); [done|]. destruct (Nat.eqb_spec (length token) 5) as [Hl|]; cbn [negb]; [|done].
  destruct (lookup_lt_is_Some_2 token 0) as [sign Hsign]; [lia|]. cbn [or_else mbind option_bind]. rewrite Hsign.
  cbn [not_ fmap option_map option_fmap mbind option_bind]. destruct (negb _); [done|].
  unfold slice. rewrite !decide_True by lia. cbn [mbind option_bind].
  apply sound_seq; [auto with reports|intros hours]. apply sound_seq; [auto with reports|intros minutes]. by destruct (_ || _).
Qed.

Lemma sound_rfc2822 input : sound (parse_rfc2822 input) wf_dt.
Proof.
  unfold parse_rfc2822. sound_step. sound_step.
  { destruct (strip_suffix 44 _); [|done]. apply reports_bind; auto with reports. }
  do 7 sound_step. eapply (sound_bind _ _ (fun _ => True)).
  { match goal with |- sound (match ?t with [] => _ | _ => _ end) _ => destruct t as [|zone rest] end; [done|]. eapply sound_bind; [apply sound_zone|]. done. }
  intros [offset [|? ?]] _; [|done]. apply sound_assemble; [done|apply reach_offset|done|done].
Qed.

Lemma sound_imf input : sound (parse_imf_fixdate input) wf_dt.
Proof.
  unfold parse_imf_fixdate. destruct (Nat.eqb_spec (length input) 29) as [Hl|]; cbn [negb]; [|done].
  match goal with |- sound (?c ≫= _) _ => assert (Hc : is_Some c) end.
  { chain_some. unfold slice. rewrite decide_True by lia. by eexists. }
  destruct Hc as [[|] ->]; rewrite some_bind; [done|]. repeat sound_step.
Qed.

Lemma sound_rfc850 input : sound (parse_rfc850_date input) wf_dt.
Proof.
  unfold parse_rfc850_date, strip_weekday_long. sound_step.
  destruct (Nat.eqb_spec (length a) 22) as [Hl|]; cbn [negb]; [|done].
  match goal with |- sound (?c ≫= _) _ => assert (Hc : is_Some c) end.
  { chain_some. unfold slice. rewrite decide_True by lia. by eexists. }
  destruct Hc as [[|] ->]; rewrite some_bind; [done|]. repeat sound_step.
Qed.

Lemma sound_asctime input : sound (parse_asctime input) wf_dt.
Proof.
  unfold parse_asctime. destruct (Nat.eqb_spec (length input) 24) as [Hl|]; cbn [negb]; [|done].
  match goal with |- sound (?c ≫= _) _ => assert (Hc : is_Some c) by chain_some end.
  destruct Hc as [[|] ->]; rewrite some_bind; [done|]. do 4 sound_step.
  eapply (sound_bind _ _ (fun _ => True)); [|intros day _; repeat sound_step].
  unfold slice. rewrite decide_True by lia. rewrite some_bind.
  assert (Hf : length (take (10 - 8) (drop 8 input)) = 2%nat) by (rewrite length_take, length_drop; lia).
  destruct (take _ _) as [|x [|y [|? ?]]]; try done.
  change ([x; y] !! 0%nat) with (Some x). change ([x; y] !! 1%nat) with (Some y). rewrite !some_bind.
  destruct (x =? 32); apply reports_sound; auto with reports.
Qed.

Lemma sound_http input : sound (parse_http input) wf_dt.
Proof.
  unfold parse_http. destruct (negb _); [done|].
  assert (Hor : forall m k, sound m wf_dt -> sound k wf_dt ->
    sound (r ← m; match r with Ok dt => Some (Ok dt) | Err _ => k end) wf_dt).
  { intros m k Hm Hk. unfold sound, wp in Hm. destruct m as [[dt|e]|]; done. }
  apply Hor; [apply sound_imf|]. apply Hor; [apply sound_rfc850|]. apply Hor; [apply sound_asctime|]. done.
Qed.

Lemma sound_with_format input format : sound (parse_with_format input format) wf_dt.
Proof.
  destruct format; cbn [parse_with_format]; auto using sound_rfc3339, sound_rfc9557, sound_rfc2822, sound_http, sound_date_only, sound_time_only.
Qed.
End Strict.

End TimeParseSafe.
