(* ===== verification/TimeParseText.v ===== *)
(** * time: reading back what the formats print

    For each format, the text of [TimeFormat] field by field and the value that
    the parser of [TimeParse] makes of it; the grammars of the strict formats
    and of the three forms of an HTTP date. *)
From Stdlib Require Import ZArith Lia String.
From stdpp Require Import base list numbers option.
From S2P Require Import Prelude Words Order Utf8 Civil Posix Tzif TimeZone DateTime TzIndex TimeFormat TimeParse TimeParseSafe.
Import Civil Posix Tzif TimeZone DateTime TzIndex TimeFormat TimeParse TimeParseSafe.

#[local] Close Scope string_scope.

Module TimeParseText.

(** ** Reading back what the formats print *)

Lemma digits2 v : exists a b, digits 2 v = [a; b] /\ is_ascii_digit a = true /\ is_ascii_digit b = true.
Proof.
  pose proof (is_digits_digits 2 v) as H. pose proof (length_digits 2 v) as Hl. destruct (digits 2 v) as [|a [|b [|? ?]]]; try done.
  apply Forall_cons_1 in H as [Ha H]. apply Forall_cons_1 in H as [Hb _]. by exists a, b.
Qed.

Lemma digits4 v : exists a b c d, digits 4 v = [a; b; c; d] /\
  is_ascii_digit a = true /\ is_ascii_digit b = true /\ is_ascii_digit c = true /\ is_ascii_digit d = true.
Proof.
  pose proof (is_digits_digits 4 v) as H. pose proof (length_digits 4 v) as Hl. destruct (digits 4 v) as [|a [|b [|c [|d [|? ?]]]]]; try done.
  apply Forall_cons_1 in H as [Ha H]. apply Forall_cons_1 in H as [Hb H]. apply Forall_cons_1 in H as [Hc H].
  apply Forall_cons_1 in H as [Hd _]. by exists a, b, c, d.
Qed.

Lemma digit_range c : is_ascii_digit c = true -> 48 <= c <= 57.
Proof. unfold is_ascii_digit. intros H. bool_hyps. lia. Qed.

Lemma digit_not c b : is_ascii_digit c = true -> b < 48 \/ 57 < b -> (c =? b) = false.
Proof. intros Hc%digit_range Hb. apply Z.eqb_neq. lia. Qed.

Lemma eat_hit p b l : view p = b :: l -> eat p b = (true, adv p 1).
Proof. intros Hv. by rewrite eat_view, Hv, Z.eqb_refl. Qed.

Lemma eat_miss p b : match view p with c :: _ => c <> b | [] => True end -> eat p b = (false, p).
Proof. rewrite eat_view. destruct (view p) as [|c l]; [done|]. by intros ->%Z.eqb_neq. Qed.

Lemma expect_hit p b l : view p = b :: l -> expect p b = Ok (adv p 1).
Proof. intros Hv. unfold expect. by rewrite (eat_hit p b l). Qed.

(** The two digits of a field and the byte after it. *)
Lemma fixed2 p v l : view p = digits 2 v ++ l -> 0 <= v < 100 -> fixed p 2 = Ok (v, adv p 2) /\ view (adv p 2) = l.
Proof.
  intros Hv Hb. split; [by apply (fixed_reads p 2 v l)|]. apply (adv_app p (digits 2 v)) in Hv. by rewrite length_digits in Hv.
Qed.

Lemma width2 v : 0 <= v < 100 -> fmt_width 2 v = digits 2 v.
Proof. intros Hv. apply fmt_width_digits; simpl; lia. Qed.

Lemma u8_field v : 0 <= v < 100 -> u8 v = v.
Proof. intros Hv. apply u8_id. unfold byte. lia. Qed.

Lemma tbind_ok {A B} a (k : A -> option (result B Error)) : tbind (Some (Ok a)) k = k a.
Proof. done. Qed.

(** A date, with the sign of its year. *)
Definition sign_text (y : Z) : list Z := if y <? 0 then [45] else [].

Lemma write_year_digits y : -9999 <= y <= 9999 -> write_year y = sign_text y ++ digits 4 (Z.abs y).
Proof.
  intros Hy. unfold write_year, sign_text. destruct (Z.leb_spec 0 y), (Z.leb_spec y 9999), (Z.ltb_spec y 0); cbn [andb]; try lia;
    rewrite fmt_width_digits by (simpl; lia); [by rewrite Z.abs_eq by lia|by rewrite Z.abs_neq by lia].
Qed.

Lemma eat_sign p y l : view p = sign_text y ++ digits 4 (Z.abs y) ++ l ->
  eat p 45 = (y <? 0, adv p (length (sign_text y))).
Proof.
  unfold sign_text. destruct (y <? 0); intros Hv; [by apply (eat_hit p 45 (digits 4 (Z.abs y) ++ l))|].
  destruct (digits4 (Z.abs y)) as (a & b & c & d & Hd & Ha & _). rewrite eat_miss; [simpl; by rewrite adv_0|].
  rewrite Hv, Hd. simpl. apply digit_range in Ha. lia.
Qed.

Lemma reads_date p y m d l : inside p -> -9999 <= y <= 9999 -> 0 <= m < 100 -> 0 <= d < 100 ->
  view p = write_year y ++ write_month_day m d ++ l ->
  parse_year_month_day p = Some (Ok ((y, m, d), adv p (length (write_year y ++ write_month_day m d)))).
Proof.
  intros Hp Hy Hm Hd Hv. unfold write_month_day in *. rewrite !width2 in * by done. rewrite write_year_digits, <- !app_assoc in * by done.
  unfold parse_year_month_day. rewrite (eat_sign p y _ Hv). pose proof (adv_app _ _ _ Hv) as Hv1.
  assert (Hp1 : inside (adv p (length (sign_text y)))) by (apply inside_adv; [done|rewrite Hv, length_app; lia]).
  set (p1 := adv p (length (sign_text y))) in *.
  assert (E1 : eat p1 43 = (false, p1)).
  { apply eat_miss. rewrite Hv1. destruct (digits4 (Z.abs y)) as (a & ? & ? & ? & -> & Ha & _). simpl. apply digit_range in Ha. lia. }
  rewrite E1. cbn zeta. assert (Hrun : run is_ascii_digit (view p1) = 4%nat).
  { rewrite Hv1. rewrite run_app; [apply length_digits|apply is_digits_digits|done]. }
  rewrite digits_loop by apply fuel_enough. rewrite some_bind. rewrite Hrun. cbn [Nat.add Nat.ltb Nat.leb].
  pose proof (number_digits p1 Hp1) as Hn. rewrite Hrun in Hn. cbn [adv pos]. change (mkParser (bytes p1) (pos p1 + 4)) with (adv p1 4).
  rewrite Hn. rewrite Hv1, take_app_length' by (by rewrite length_digits).
  pose proof (number_loop_eq (digits 4 (Z.abs y)) 0 (is_digits_digits _ _) ltac:(lia)) as Hl.
  rewrite dec_value_digits, Z.mul_0_l, Z.add_0_l in Hl by (simpl; lia).
  destruct (number_loop 0 (digits 4 (Z.abs y))) as [x|e]; [destruct Hl as [-> _]|lia]. rewrite tbind_ok.
  assert (Hy' : (if y <? 0 then - Z.abs y else Z.abs y) = y) by (destruct (Z.ltb_spec y 0); lia). rewrite Hy'.
  unfold MIN_YEAR, MAX_YEAR. destruct (Z.ltb_spec y (-9999)), (Z.ltb_spec 9999 y); try lia. cbn [orb].
  pose proof (adv_app _ _ _ Hv1) as Hv2. rewrite length_digits in Hv2. cbn [app] in Hv2.
  rewrite (expect_hit _ _ _ Hv2), tbind_ok. apply view_next in Hv2.
  destruct (fixed2 _ m _ Hv2 Hm) as [Hf Hv3]. rewrite Hf, tbind_ok.
  rewrite (expect_hit _ _ _ Hv3), tbind_ok. apply view_next in Hv3.
  destruct (fixed2 _ d l Hv3 Hd) as [Hf2 Hv4]. rewrite Hf2, tbind_ok.
  rewrite !u8_field by done. unfold p1. rewrite !adv_adv. do 4 f_equal. rewrite !length_app, !length_digits. simpl. lia.
Qed.

(** A time of day, with the fraction that says what it must. *)
Lemma dec_value_acc l acc : dec_value acc l = acc * 10 ^ Z.of_nat (length l) + dec_value 0 l.
Proof.
  revert acc. induction l as [|c l IH]; intros acc; cbn [dec_value length]; [simpl; lia|].
  rewrite IH, (IH (0 * 10 + (c - 48))), Nat2Z.inj_succ, Z.pow_succ_r by lia. lia.
Qed.

Lemma frac_sum_dec k l : (length l <= k)%nat -> frac_sum k (10 ^ Z.of_nat k / 10) l = dec_value 0 l * 10 ^ Z.of_nat (k - length l).
Proof.
  revert k. induction l as [|c l IH]; intros k Hk; destruct k as [|k]; simpl in Hk; try lia; try done.
  cbn [frac_sum dec_value length]. rewrite Nat2Z.inj_succ, Z.pow_succ_r, (Z.mul_comm 10), Z.div_mul by lia.
  rewrite IH, (dec_value_acc l (0 * 10 + _)) by lia. rewrite Nat.sub_succ.
  replace (Z.of_nat k) with (Z.of_nat (length l) + Z.of_nat (k - length l)) by lia. rewrite Z.pow_add_r by lia. lia.
Qed.

Lemma frac_digits w v : (w <= 9)%nat -> 0 <= v < 10 ^ Z.of_nat w ->
  frac_sum 9 100000000 (digits w v) = v * 10 ^ Z.of_nat (9 - w).
Proof.
  intros Hw Hv. change 100000000 with (10 ^ Z.of_nat 9 / 10). rewrite frac_sum_dec by (rewrite length_digits; lia).
  rewrite dec_value_digits, length_digits by done. lia.
Qed.

(** The fraction is absent, or some digits that sum to it. *)
Lemma fraction_text ns : 0 <= ns < 1000000000 -> write_fraction ns = [] /\ ns = 0 \/
  exists w v, write_fraction ns = 46 :: digits w v /\ (1 <= w <= 9)%nat /\ frac_sum 9 100000000 (digits w v) = ns.
Proof.
  intros Hns. unfold write_fraction. destruct (Z.eqb_spec ns 0) as [->|]; [by left|right].
  assert (Hgen : forall w q, (1 <= w <= 9)%nat -> q = 10 ^ Z.of_nat (9 - w) -> ns mod q = 0 ->
    exists w' v, 46 :: fmt_width w (ns / q) = 46 :: digits w' v /\ (1 <= w' <= 9)%nat /\ frac_sum 9 100000000 (digits w' v) = ns).
  { intros w q Hw Hq Hmod. assert (0 < q) by lia. pose proof (Z.div_mod ns q ltac:(lia)) as Hdm.
    assert (Hv : 0 <= ns / q < 10 ^ Z.of_nat w).
    { split; [apply Z.div_pos; lia|]. apply Z.div_lt_upper_bound; [lia|]. rewrite Hq, <- Z.pow_add_r by lia.
      replace (Z.of_nat (9 - w) + Z.of_nat w) with 9 by lia. lia. }
    exists w, (ns / q). rewrite fmt_width_digits, frac_digits by (done || lia). split_and!; [done|lia|lia|rewrite <- Hq; lia]. }
  destruct (Z.eqb_spec (ns mod 1000000) 0); [apply (Hgen 3%nat); [lia|done|done]|].
  destruct (Z.eqb_spec (ns mod 1000) 0); [apply (Hgen 6%nat); [lia|done|done]|].
  pose proof (Hgen 9%nat 1 ltac:(lia) ltac:(done) (Z.mod_1_r ns)) as H9. by rewrite Z.div_1_r in H9.
Qed.

(** What may follow a time of day: not a byte that continues it. *)
Definition clock_ends (l : list Z) : Prop :=
  match l with c :: _ => is_ascii_digit c = false /\ c <> 46 /\ c <> 44 | [] => True end.

Lemma reads_clock p h mi s ns l : 0 <= h < 100 -> 0 <= mi < 100 -> 0 <= s < 100 -> 0 <= ns < 1000000000 -> clock_ends l ->
  view p = write_clock h mi s ++ write_fraction ns ++ l ->
  parse_clock p = Some (Ok ((h, mi, s, ns), adv p (length (write_clock h mi s ++ write_fraction ns)))).
Proof.
  intros Hh Hmi Hs Hns Hl Hv. unfold write_clock in *. rewrite !width2, <- !app_assoc in * by done. unfold parse_clock.
  destruct (fixed2 _ h _ Hv Hh) as [-> Hv1]. cbn [app] in Hv1. rewrite tbind_ok, (expect_hit _ _ _ Hv1), tbind_ok.
  apply view_next in Hv1. destruct (fixed2 _ mi _ Hv1 Hmi) as [-> Hv2]. cbn [app] in Hv2. rewrite tbind_ok, (eat_hit _ _ _ Hv2).
  apply view_next in Hv2. destruct (fixed2 _ s _ Hv2 Hs) as [-> Hv3]. rewrite tbind_ok. cbn zeta. rewrite !u8_field by done.
  assert (Hq : length (digits 2 h ++ [58] ++ digits 2 mi ++ [58] ++ digits 2 s) = 8%nat) by (rewrite !length_app, !length_digits; done).
  rewrite !adv_adv in *. cbn [Nat.add] in Hv3 |- *. rewrite next_is_view, Hv3, !app_assoc, length_app, <- !app_assoc, Hq.
  destruct (fraction_text ns Hns) as [[E ->]|(w & v & E & Hw & Hf)]; rewrite E in *; cbn [app length].
  - assert (Hc : match l with c :: _ => (c =? 46) || (c =? 44) | [] => false end = false).
    { destruct l as [|c l]; [done|]. destruct Hl as (_ & H1 & H2). apply Z.eqb_neq in H1, H2. by rewrite H1, H2. }
    by rewrite Hc.
  - cbn [Z.eqb Pos.eqb orb]. rewrite bump_view, Hv3. cbn [app snd]. rewrite adv_adv. cbn [Nat.add].
    assert (Hv4 : view (adv p 9) = digits w v ++ l) by (change 9%nat with (8 + 1)%nat; rewrite <- adv_adv; by apply (view_next _ 46)).
    set (q := adv p 9) in *. destruct (fraction_loop_eq q) as (k & sc & ->). rewrite some_bind.
    assert (Hr : run is_ascii_digit (digits w v ++ l) = w).
    { rewrite run_app; [apply length_digits|apply is_digits_digits|]. destruct l; [done|apply Hl]. }
    rewrite Hv4, Hr. destruct (Nat.eqb_spec (pos (adv q w)) (pos q)) as [E'|_]; [unfold adv in E'; cbn [pos] in E'; lia|].
    rewrite take_app_length' by (by rewrite length_digits). rewrite Hf, length_digits. unfold q. by rewrite adv_adv.
Qed.

(** An offset shorter than a day. *)
Lemma sign_byte o : sign_of o = 43 \/ sign_of o = 45.
Proof. unfold sign_of. destruct (o <? 0); auto. Qed.

Definition offset_ends (l : list Z) : Prop := match l with c :: _ => is_ascii_digit c = false /\ c <> 58 | [] => True end.

Lemma reads_offset p o l : -86400 < o < 86400 -> offset_ends l -> view p = write_offset o ++ l ->
  parse_offset p = Some (Ok (Some o, adv p (length (write_offset o)))).
Proof.
  intros Ho Hl Hv. assert (Hsm : small o) by (unfold small, OFFSET_LIMIT; lia).
  destruct (offset_fields o Hsm) as (_ & Hm & Hsec). assert (Hh : 0 <= Z.abs o / 3600 < 24).
  { split; [apply Z.div_pos; lia|apply Z.div_lt_upper_bound; lia]. }
  pose proof (Z.div_mod (Z.abs o) 3600 ltac:(lia)) as D1. pose proof (Z.div_mod (Z.abs o mod 3600) 60 ltac:(lia)) as D2.
  assert (D3 : (Z.abs o mod 3600) mod 60 = Z.abs o mod 60) by (symmetry; apply (Znumtheory.Zmod_div_mod 60 3600); [lia|lia|by exists 60]).
  unfold write_offset in *. cbn zeta in *. set (hh := Z.abs o / 3600) in *. set (mm := Z.abs o mod 3600 / 60) in *.
  set (ss := Z.abs o mod 60) in *. rewrite !width2 in * by lia.
  assert (Hdone : forall q : Parser, (if (23 <? hh) || (59 <? mm) || (59 <? ss) then Some (Err (TimeZone.parse "offset is out of range")) else
    let offset := if bool_decide (Some (sign_of o) = Some 45) then - (hh * 3600 + mm * 60 + ss) else hh * 3600 + mm * 60 + ss in
    let! _ := Some (TimeZone.fixed offset) in Some (Ok (Some offset, q))) = Some (Ok (E := Error) (Some o, q))).
  { intros q. destruct (Z.ltb_spec 23 hh), (Z.ltb_spec 59 mm), (Z.ltb_spec 59 ss); try lia. cbn [orb]. cbn zeta.
    assert (Hval : (if bool_decide (Some (sign_of o) = Some 45) then - (hh * 3600 + mm * 60 + ss) else hh * 3600 + mm * 60 + ss) = o).
    { unfold sign_of. destruct (Z.ltb_spec o 0); simpl; lia. }
    rewrite Hval. pose proof (fixed_spec o) as Hf. destruct (TimeZone.fixed o); [done|]. by destruct Hf. }
  unfold parse_offset. rewrite !next_is_view.
  assert (Hs : exists t, view p = sign_of o :: digits 2 hh ++ 58 :: digits 2 mm ++ t /\
    (ss = 0 /\ t = l /\ (if ss =? 0 then sign_of o :: digits 2 hh ++ [58] ++ digits 2 mm else
       sign_of o :: digits 2 hh ++ [58] ++ digits 2 mm ++ [58] ++ digits 2 ss) = sign_of o :: digits 2 hh ++ [58] ++ digits 2 mm \/
     t = 58 :: digits 2 ss ++ l /\ (if ss =? 0 then sign_of o :: digits 2 hh ++ [58] ++ digits 2 mm else
       sign_of o :: digits 2 hh ++ [58] ++ digits 2 mm ++ [58] ++ digits 2 ss) = sign_of o :: digits 2 hh ++ [58] ++ digits 2 mm ++ [58] ++ digits 2 ss)).
  { destruct (Z.eqb_spec ss 0) as [E|E]; rewrite Hv; [exists l|exists (58 :: digits 2 ss ++ l)];
      (split; [cbn [app]; rewrite <- !app_assoc; cbn [app]; rewrite <- ?app_assoc; done|auto]). }
  clear Hv. destruct Hs as (t & Hv & Ht). rewrite bump_view, Hv.
  assert (Hsg : ((sign_of o =? 90) || (sign_of o =? 122) = false) /\ ((sign_of o =? 43) || (sign_of o =? 45) = true)).
  { by destruct (sign_byte o) as [-> | ->]. }
  destruct Hsg as [-> ->]. apply view_next in Hv. cbn zeta.
  destruct (fixed2 _ hh _ Hv ltac:(lia)) as [-> Hv1]. rewrite tbind_ok, (eat_hit _ _ _ Hv1). apply view_next in Hv1.
  destruct (fixed2 _ mm _ Hv1 ltac:(lia)) as [-> Hv2]. cbn [rbind].
  destruct Ht as [(Hss & -> & ->)|(-> & ->)].
  - rewrite eat_miss by (rewrite Hv2; destruct l; [done|apply Hl]). rewrite tbind_ok. rewrite Hss in Hdone. rewrite Hdone.
    rewrite !adv_adv. do 4 f_equal; cbn [length]; rewrite ?length_app; cbn [length]; rewrite ?length_app, ?length_digits; done.
  - rewrite (eat_hit _ _ _ Hv2). apply view_next in Hv2. destruct (fixed2 _ ss _ Hv2 ltac:(lia)) as [-> Hv3]. cbn [rbind].
    rewrite tbind_ok, Hdone, !adv_adv. do 4 f_equal; cbn [length]; rewrite ?length_app; cbn [length]; rewrite ?length_app, ?length_digits; done.
Qed.

Section Round.
Context `{!TzData, !TzNames, !TzNamesLaws, !CivilNames}.

(** A name that an annotation can carry. *)
Definition printable (name : list Z) : Prop := ascii name /\ avoids 93 name /\ avoids 91 name /\ ~ reserved name.

Lemma reads_annotation p e l : inside p -> e ∈ ZONES -> printable (entry_name e) ->
  view p = 91 :: entry_name e ++ 93 :: l ->
  parse_zone_annotation p = Some (Ok (Some (Named e), adv p (length (91 :: entry_name e ++ [93])))).
Proof.
  intros Hp He (Ha & Hav & _ & Hr) Hv. unfold parse_zone_annotation. rewrite bool_decide_true by (by rewrite peek_view, Hv).
  cbn [negb]. rewrite bump_view, Hv. cbn [snd]. assert (Hp1 : inside (adv p 1)) by (apply inside_adv; [done|rewrite Hv; simpl; lia]).
  apply view_next in Hv. cbn zeta. rewrite skip_loop by apply fuel_enough. rewrite some_bind.
  assert (Hrun : run (fun b => negb (b =? 93)) (view (adv p 1)) = length (entry_name e)).
  { rewrite Hv. apply run_app; [|done]. eapply Forall_impl; [|exact Hav]. intros c Hc. by apply negb_true_iff, Z.eqb_neq. }
  rewrite Hrun. pose proof (adv_app _ _ _ Hv) as Hv2. rewrite (eat_hit _ _ _ Hv2). cbn [negb].
  pose proof (view_length _ Hp1) as Hlen. rewrite Hv, length_app in Hlen. cbn [length] in Hlen.
  set (n := length (entry_name e)) in *. unfold slice. rewrite decide_True by (unfold adv in *; cbn [bytes pos] in *; lia).
  rewrite some_bind. replace (pos (adv (adv (adv p 1) n) 1) - 1 - pos (adv p 1))%nat with n by (unfold adv; simpl; lia).
  change (drop (pos (adv p 1)) (bytes (adv (adv (adv p 1) n) 1))) with (view (adv p 1)).
  rewrite Hv. unfold n at 1. rewrite take_app_length. pose proof (Utf8.ascii_valid _ Ha) as Hval. unfold Utf8.valid in Hval. rewrite Hval.
  rewrite named_own, tbind_ok by done. rewrite !adv_adv. do 4 f_equal. cbn [length]. rewrite length_app. simpl. lia.
Qed.

Lemma dt_eq (a b : DateTime) : secs a = secs b -> nanos a = nanos b -> dt_offset a = dt_offset b -> zone a = zone b -> a = b.
Proof. destruct a, b. cbn. by intros -> -> -> ->. Qed.

Lemma assemble_own y m d h mi s zone default_zone dt : fields_ok y m d h mi s (nanos dt) -> s <= 59 ->
  in_reach y h mi s zone (Some (dt_offset dt)) ->
  civil_option zone -> civil_option default_zone -> wf_dt dt -> secs dt + dt_offset dt = local_of y m d h mi s ->
  DateTime.zone dt = chosen zone (Some (dt_offset dt)) default_zone ->
  assemble y m d h mi s (nanos dt) zone (Some (dt_offset dt)) default_zone = Some (Ok dt).
Proof.
  intros Hf Hs Hreach Hz Hdz Hwf Hl Hzone. pose proof Hwf as (Hrange & Hn & Hoff & Hsm).
  destruct (wp_elim _ _ (assemble_spec y m d h mi s (nanos dt) zone (Some (dt_offset dt)) default_zone ltac:(lia) Hreach Hz Hdz)) as (r & -> & Hr).
  destruct r as [dt'|e].
  - destruct Hr as (_ & _ & Hn' & Hz' & Hs' & Ho'). rewrite Z.min_l in Hs' by done. do 2 f_equal. apply dt_eq; [lia|done|done|by rewrite Hz', Hzone].
  - exfalso. unfold refused in Hr. rewrite Z.min_l in Hr by done. destruct (kind e); try done.
    + destruct Hr as [[_ Hr]|Hr]; [done|]. apply Hr. rewrite <- Hl. lia.
    + destruct Hr as (z & o & -> & [= <-] & Hr). apply Hr. cbn [chosen] in Hzone. rewrite <- Hzone.
      replace (local_of y m d h mi s - dt_offset dt) with (secs dt) by lia. done.
Qed.

(** Civil times of the supported years are in range. *)
Lemma local_in_range y m d h mi s : -9999 <= y <= 9999 -> valid y m d -> 0 <= h <= 23 -> 0 <= mi <= 59 -> 0 <= s <= 59 ->
  MIN_SECS <= local_of y m d h mi s <= MAX_SECS.
Proof.
  intros Hy Hv Hh Hmi Hs. destruct secs_limits as [-> ->]. destruct (date_in_year y m d Hv) as [Hj1 Hj2].
  pose proof (jan1_mono (-9999) y ltac:(lia)). pose proof (jan1_mono (y + 1) 10000 ltac:(lia)).
  assert (jan1 (-9999) = -4371587) by done. assert (jan1 10000 = 2932897) by done. unfold local_of, SECS_PER_DAY. lia.
Qed.

Lemma wf_utc t ns : MIN_SECS <= t <= MAX_SECS -> 0 <= ns < 1000000000 -> wf_dt (from_raw t ns 0 Utc).
Proof. intros Ht Hns. unfold wf_dt, small, OFFSET_LIMIT. cbn. split_and!; try done; lia. Qed.

Lemma assemble_utc y m d h mi s ns offset : -9999 <= y <= 9999 -> valid y m d -> 0 <= h <= 23 -> 0 <= mi <= 59 -> 0 <= s <= 59 ->
  0 <= ns < 1000000000 -> offset = Some 0 \/ offset = None ->
  assemble y m d h mi s ns None offset None = Some (Ok (from_raw (local_of y m d h mi s) ns 0 Utc)).
Proof.
  intros Hy Hv Hh Hmi Hs Hns Ho. pose proof (local_in_range y m d h mi s Hy Hv Hh Hmi Hs) as Hr.
  pose proof (wf_utc _ ns Hr Hns) as Hwf. assert (Hf : fields_ok y m d h mi s ns) by (unfold fields_ok; split; [done|lia]).
  destruct Ho as [->| ->].
  - apply (assemble_own y m d h mi s None None (from_raw (local_of y m d h mi s) ns 0 Utc)); try done; [lia|apply reach_offset|cbn [secs dt_offset]; lia].
  - destruct (wp_elim _ _ (assemble_spec y m d h mi s ns None None None ltac:(lia)
      (reach_small y h mi s None None Hy ltac:(lia) ltac:(lia) ltac:(lia) I) I I)) as (r & -> & Hra).
    destruct r as [dt|e].
    + destruct Hra as (_ & Hwf' & Hn & Hz & Ht). rewrite Z.min_l in Ht by lia. injection Ht as Ht.
      destruct Hwf' as (_ & _ & Hoff & _). rewrite Hz in Hoff. injection Hoff as Hoff. do 2 f_equal. by apply dt_eq.
    + exfalso. unfold refused in Hra. rewrite Z.min_l in Hra by lia. destruct (kind e); try done.
      * destruct Hra as (t & [= <-] & Hra). by apply Hra.
      * by destruct Hra as (? & ? & ? & ? & ?).
Qed.

(** *** The ISO family *)

Definition canonical_zone (dt : DateTime) : TimeZone :=
  match zone dt with Named e => Named e | _ => offset_zone (dt_offset dt) end.
Definition short_offset (dt : DateTime) : Prop := -86400 < dt_offset dt < 86400.
Definition zone_printable (dt : DateTime) : Prop :=
  match zone dt with Named e => e ∈ ZONES /\ printable (entry_name e) | _ => True end.

Definition zone_text (dt : DateTime) (with_zone : bool) : list Z :=
  if with_zone then match timezone_name dt with Some name => [91] ++ name ++ [93] | None => [] end else [].
Definition offset_text (o : Z) (z_suffix : bool) : list Z := if z_suffix && (o =? 0) then [90] else write_offset o.

Lemma zone_text_head dt with_zone : match zone_text dt with_zone with c :: _ => c = 91 | [] => True end.
Proof. unfold zone_text. destruct with_zone; [|done]. by destruct (timezone_name dt). Qed.

Lemma offset_text_head o z l : match offset_text o z ++ l with c :: _ => c = 90 \/ c = 43 \/ c = 45 | [] => False end.
Proof.
  unfold offset_text, write_offset. destruct (z && _); [by left|]. cbn zeta. destruct (_ =? 0); simpl; destruct (sign_byte o) as [-> | ->]; lia.
Qed.

Lemma reads_offset_text p o z l : -86400 < o < 86400 -> match l with c :: _ => c = 91 | [] => True end ->
  view p = offset_text o z ++ l -> parse_offset p = Some (Ok (Some o, adv p (length (offset_text o z)))).
Proof.
  intros Ho Hl Hv. unfold offset_text in *. destruct (z && (o =? 0)) eqn:E.
  - bool_hyps. subst o. unfold parse_offset. by rewrite next_is_view, bump_view, Hv.
  - apply (reads_offset p o l); [done| |done]. destruct l; [done|]. by subst.
Qed.

Lemma reads_zone_text p dt with_zone : inside p -> (with_zone = true -> zone_printable dt) -> view p = zone_text dt with_zone ->
  parse_zone_annotation p = Some (Ok (match zone dt with Named e => if with_zone then Some (Named e) else None | _ => None end,
    adv p (length (zone_text dt with_zone)))).
Proof.
  intros Hp Hz Hv. unfold zone_text, zone_printable, timezone_name, annotation_name in *.
  assert (Hnone : view p = [] -> parse_zone_annotation p = Some (Ok (None, adv p 0))).
  { intros E. unfold parse_zone_annotation. by rewrite bool_decide_false, adv_0 by (rewrite peek_view, E; done). }
  destruct with_zone; [|destruct (zone dt); by apply Hnone]. destruct (zone dt) as [|o|e]; try by apply Hnone.
  destruct (Hz eq_refl) as [He Hpr]. by apply (reads_annotation p e []).
Qed.

Lemma chosen_canonical dt (with_zone : bool) default_zone : wf_dt dt ->
  chosen (match zone dt with Named e => if with_zone then Some (Named e) else None | _ => None end) (Some (dt_offset dt)) default_zone
  = if (with_zone : bool) then canonical_zone dt else offset_zone (dt_offset dt).
Proof. unfold canonical_zone. by destruct (zone dt), with_zone. Qed.

(** The value with the zone that a text names. *)
Definition rezoned (dt : DateTime) (with_zone : bool) : DateTime :=
  from_raw (secs dt) (nanos dt) (dt_offset dt) (if with_zone then canonical_zone dt else offset_zone (dt_offset dt)).

Lemma wf_rezoned dt with_zone : wf_dt dt -> wf_dt (rezoned dt with_zone).
Proof.
  intros (Hs & Hn & Ho & Hsm). unfold wf_dt, rezoned. cbn [secs nanos dt_offset DateTime.zone]. split; [done|]. split; [done|]. split; [|done].
  assert (Hof : offset_at (offset_zone (dt_offset dt)) (secs dt) = Some (dt_offset dt)).
  { unfold offset_zone. destruct (Z.eqb_spec (dt_offset dt) 0) as [->|]; done. }
  unfold canonical_zone. destruct with_zone; [|done]. revert Ho. by destruct (zone dt).
Qed.

Lemma parse_iso dt z with_zone default_zone : wf_dt dt -> year_fits dt -> short_offset dt -> (with_zone = true -> zone_printable dt) ->
  civil_option default_zone -> parse (write_iso dt z with_zone) default_zone = Some (Ok (rezoned dt with_zone)).
Proof.
  intros Hwf Hy Ho Hzp Hdz. destruct (parts_valid dt Hwf) as (y & m & d & h & mi & s & Hp & Hval & _ & Hh & Hmi & Hs & Hl & _).
  unfold year_fits, year in Hy. rewrite Hp in Hy. assert (Hns : 0 <= nanos dt < 1000000000) by apply Hwf.
  destruct (parts_bounds dt Hwf) as (y' & m' & d' & h' & mi' & s' & Hp' & _ & _ & Hm & Hd & _). rewrite Hp in Hp'. injection Hp' as <- <- <- <- <- <-.
  set (text := write_iso dt z with_zone). assert (Ht : text = (write_year y ++ write_month_day m d) ++ [84] ++
    (write_clock h mi s ++ write_fraction (nanos dt)) ++ offset_text (dt_offset dt) z ++ zone_text dt with_zone).
  { unfold text, write_iso. rewrite Hp. unfold offset_text, zone_text. by rewrite <- !app_assoc. }
  assert (Hv : view (new text) = text) by done. assert (Hin : inside (new text)) by (unfold inside; simpl; lia).
  unfold parse. set (p := new text) in *. cbn zeta. rewrite Ht in Hv. rewrite <- app_assoc in Hv.
  rewrite (reads_date p y m d _ Hin Hy ltac:(lia) Hd Hv), tbind_ok. rewrite app_assoc in Hv.
  assert (Hin1 := Hin). apply (inside_adv p (length (write_year y ++ write_month_day m d))) in Hin1; [|rewrite Hv, !length_app; lia].
  apply adv_app in Hv. set (p1 := adv p _) in *. rewrite done_view by done. rewrite bool_decide_false by (by rewrite Hv).
  rewrite bump_view, Hv. cbn [app Z.eqb Pos.eqb orb negb]. assert (Hin2 : inside (adv p1 1)) by (apply inside_adv; [done|rewrite Hv; simpl; lia]).
  apply view_next in Hv. set (p2 := adv p1 1) in *. rewrite <- app_assoc in Hv.
  assert (Hends : clock_ends (offset_text (dt_offset dt) z ++ zone_text dt with_zone)).
  { unfold clock_ends. pose proof (offset_text_head (dt_offset dt) z (zone_text dt with_zone)) as Hc.
    revert Hc. destruct (offset_text (dt_offset dt) z ++ zone_text dt with_zone) as [|c l]; [done|]. intros Hc. unfold is_ascii_digit. split; [|lia]. destruct (Z.leb_spec 48 c), (Z.leb_spec c 57); done || lia. }
  rewrite (reads_clock p2 h mi s (nanos dt) _ ltac:(lia) ltac:(lia) ltac:(lia) Hns Hends Hv), tbind_ok. rewrite app_assoc in Hv.
  apply (inside_adv p2 (length (write_clock h mi s ++ write_fraction (nanos dt)))) in Hin2; [|rewrite Hv, !length_app; lia].
  apply adv_app in Hv. set (p3 := adv p2 _) in *.
  rewrite (reads_offset_text p3 _ z _ Ho (zone_text_head dt with_zone) Hv), tbind_ok.
  apply (inside_adv p3 (length (offset_text (dt_offset dt) z))) in Hin2; [|rewrite Hv, !length_app; lia].
  apply adv_app in Hv. set (p4 := adv p3 _) in *. rewrite (reads_zone_text p4 dt with_zone Hin2 Hzp Hv), tbind_ok.
  apply (inside_adv p4 (length (zone_text dt with_zone))) in Hin2; [|by rewrite Hv].
  rewrite done_view by done. rewrite bool_decide_true by (rewrite view_adv, Hv; apply drop_all). cbn [negb].
  apply (assemble_own y m d h mi s _ default_zone (rezoned dt with_zone)); try done.
  - unfold fields_ok. cbn [rezoned nanos]. split; [done|lia].
  - lia.
  - apply reach_small; [unfold MIN_YEAR, MAX_YEAR; lia|lia..|]. cbn [rezoned dt_offset]. apply Hwf.
  - destruct (zone dt) as [|o|e] eqn:E; try done. destruct with_zone; [|done]. apply civil_names.
    specialize (Hzp eq_refl). unfold zone_printable in Hzp. rewrite E in Hzp. apply Hzp.
  - by apply wf_rezoned.
  - cbn [rezoned dt_offset DateTime.zone]. by rewrite chosen_canonical.
Qed.
End Round.

(** *** The strict shapes hold of the strict texts *)

Lemma lookup_shift {A} (pre t : list A) k : (pre ++ t) !! (length pre + k)%nat = t !! k.
Proof. rewrite lookup_app_r by lia. f_equal. lia. Qed.

Lemma lookup_end {A} (pre t : list A) : (pre ++ t) !! length pre = t !! 0%nat.
Proof. rewrite lookup_app_r by lia. f_equal. lia. Qed.

Lemma digits_in_app pre t a b : digits_in (pre ++ t) (length pre + a) (length pre + b) = digits_in t a b.
Proof.
  unfold digits_in. replace (length pre + b - (length pre + a))%nat with (b - a)%nat by lia.
  generalize (b - a)%nat as n. intros n. revert a. induction n as [|n IH]; intros a; [done|]. cbn [seq forallb].
  rewrite lookup_shift. f_equal. rewrite <- IH. by replace (S (length pre + a)) with (length pre + S a)%nat by lia.
Qed.

(** [n] digits. *)
Definition field_of (n : nat) (l : list Z) : Prop := is_digits l /\ length l = n.

Lemma field2 l : field_of 2 l -> exists a b, l = [a; b] /\ is_ascii_digit a = true /\ is_ascii_digit b = true.
Proof.
  intros [H Hl]. destruct l as [|a [|b [|? ?]]]; try done. apply Forall_cons_1 in H as [Ha H]. apply Forall_cons_1 in H as [Hb _]. by exists a, b.
Qed.

Lemma field4 l : field_of 4 l -> exists a b c d, l = [a; b; c; d] /\
  is_ascii_digit a = true /\ is_ascii_digit b = true /\ is_ascii_digit c = true /\ is_ascii_digit d = true.
Proof.
  intros [H Hl]. destruct l as [|a [|b [|c [|d [|? ?]]]]]; try done.
  apply Forall_cons_1 in H as [Ha H]. apply Forall_cons_1 in H as [Hb H]. apply Forall_cons_1 in H as [Hc H].
  apply Forall_cons_1 in H as [Hd _]. by exists a, b, c, d.
Qed.

Lemma field_intro2 a b : is_ascii_digit a = true -> is_ascii_digit b = true -> field_of 2 [a; b].
Proof. intros. split; [by repeat apply Forall_cons_2|done]. Qed.

(** The grammar of a strict date-time: RFC 3339 with its letters in either
    case.  [zulu_or_offset] is the end, [fraction_part] what may precede it. *)
Definition zulu_or_offset (t : list Z) : Prop :=
  (t = [90] \/ t = [122]) \/ exists c a b, (c = 43 \/ c = 45) /\ field_of 2 a /\ field_of 2 b /\ t = c :: a ++ 58 :: b.
Definition fraction_part (t : list Z) : Prop := t = [] \/ exists ds, t = 46 :: ds /\ is_digits ds /\ ds <> [].
Definition rfc3339_grammar (text : list Z) : Prop := exists y m d sep h mi s frac t,
  field_of 4 y /\ field_of 2 m /\ field_of 2 d /\ (sep = 84 \/ sep = 116) /\ field_of 2 h /\ field_of 2 mi /\ field_of 2 s /\
  fraction_part frac /\ zulu_or_offset t /\
  text = y ++ [45] ++ m ++ [45] ++ d ++ [sep] ++ h ++ [58] ++ mi ++ [58] ++ s ++ frac ++ t.

(** The end of [rfc3339_shape], from the offset on. *)
Lemma shape_tail pre t :
  match (pre ++ t) !! length pre with
  | Some b =>
      if (b =? 90) || (b =? 122) then Some (length pre + 1 =? length (pre ++ t))%nat
      else if (b =? 43) || (b =? 45) then
        if negb (length pre + 6 =? length (pre ++ t))%nat then Some false else
        if negb (digits_in (pre ++ t) (length pre + 1) (length pre + 3)) then Some false else
        colon ← byte_is (pre ++ t) (length pre + 3) 58;
        Some ((colon : bool) && digits_in (pre ++ t) (length pre + 4) (length pre + 6))
      else Some false
  | None => Some false
  end = Some true <-> zulu_or_offset t.
Proof.
  rewrite !digits_in_app. unfold byte_is. rewrite lookup_shift, lookup_end, length_app. split.
  - destruct t as [|c t]; [done|]. change ((c :: t) !! 0%nat) with (Some c). cbn beta iota. cbn [length].
    destruct ((c =? 90) || (c =? 122)) eqn:E.
    + intros [= Hl%Nat.eqb_eq]. assert (length t = 0)%nat by lia. destruct t; [|done]. left.
      apply orb_true_iff in E as [->%Z.eqb_eq | ->%Z.eqb_eq]; auto.
    + clear E. destruct ((c =? 43) || (c =? 45)) eqn:E; [|done]. destruct (Nat.eqb_spec (length pre + 6) (length pre + S (length t))) as [Hl|]; [|done].
      cbn [negb]. destruct t as [|a1 [|a2 [|x [|b1 [|b2 [|? ?]]]]]]; try (simpl in Hl; lia). unfold digits_in. cbn -[is_ascii_digit].
      destruct (is_ascii_digit a1) eqn:H1, (is_ascii_digit a2) eqn:H2; try done. cbn -[is_ascii_digit]. intros [= Hx]. bool_hyps. subst x.
      right. exists c, [a1; a2], [b1; b2]. split_and!; try done; try (by apply field_intro2).
      apply orb_true_iff in E as [->%Z.eqb_eq | ->%Z.eqb_eq]; auto.
  - intros [[->| ->]|(c & a & b & Hc & Ha & Hb & ->)]; [cbn; by rewrite Nat.eqb_refl..|].
    destruct (field2 a Ha) as (a1 & a2 & -> & H1 & H2), (field2 b Hb) as (b1 & b2 & -> & H3 & H4).
    unfold digits_in. cbn -[is_ascii_digit]. rewrite Nat.eqb_refl, H1, H2, H3, H4. destruct Hc as [-> | ->]; done.
Qed.

(** The loop over the digits of a fraction, from where the fields end. *)
Definition after_fields (head rest : list Z) : option bool :=
  let text := head ++ rest in
  dot ← byte_is text (length head) 46;
  index ← (if (dot : bool) then Some (S (length head) + run is_ascii_digit (drop (S (length head)) text))%nat else Some (length head));
  if (dot : bool) && (index =? S (length head))%nat then Some false else
  match text !! index with
  | Some b =>
      if (b =? 90) || (b =? 122) then Some (index + 1 =? length text)%nat
      else if (b =? 43) || (b =? 45) then
        if negb (index + 6 =? length text)%nat then Some false else
        if negb (digits_in text (index + 1) (index + 3)) then Some false else
        colon ← byte_is text (index + 3) 58;
        Some ((colon : bool) && digits_in text (index + 4) (index + 6))
      else Some false
  | None => Some false
  end.

Lemma zulu_head t : zulu_or_offset t -> exists c u, t = c :: u /\ (c =? 46) = false /\ is_ascii_digit c = false.
Proof.
  intros [[->| ->]|(c & a & b & Hc & _ & _ & ->)]; [by do 2 eexists..|]. do 2 eexists. split; [done|]. by destruct Hc as [-> | ->].
Qed.

Lemma after_fields_iff head rest : rest <> [] ->
  after_fields head rest = Some true <-> exists frac t, fraction_part frac /\ zulu_or_offset t /\ rest = frac ++ t.
Proof.
  intros Hne. destruct rest as [|c rest]; [done|]. unfold after_fields. cbn zeta.
  assert (H46 : byte_is (head ++ c :: rest) (length head) 46 = Some (c =? 46)) by (unfold byte_is; by rewrite lookup_end).
  rewrite H46, some_bind. clear H46. destruct (Z.eqb_spec c 46) as [->|Hc]; rewrite some_bind.
  - set (w := run is_ascii_digit rest). assert (Hd : drop (S (length head)) (head ++ 46 :: rest) = rest).
    { rewrite drop_app_ge by lia. by replace (S (length head) - length head)%nat with 1%nat by lia. }
    rewrite Hd. fold w. pose proof (run_le is_ascii_digit rest) as Hle. fold w in Hle.
    pose proof (shape_tail (head ++ 46 :: take w rest) (drop w rest)) as Htail. rewrite <- app_assoc in Htail. cbn [app] in Htail.
    rewrite take_drop, length_app in Htail. cbn [length] in Htail. rewrite length_take_le in Htail by done.
    replace (length head + S w)%nat with (S (length head) + w)%nat in Htail by lia.
    destruct (Nat.eqb_spec (S (length head) + w) (S (length head))) as [Hw|Hw]; cbn [andb].
    + split; [done|]. intros (frac & t & Hf & Ht & E). exfalso. assert (Hw0 : run is_ascii_digit rest = 0%nat) by (fold w; lia). clear Htail.
      destruct Hf as [->|(ds & -> & Hds & Hn)].
      * destruct (zulu_head t Ht) as (x & u & -> & Hx & _). injection E as <- _. done.
      * injection E as ->. destruct ds as [|x ds]; [done|]. apply Forall_cons_1 in Hds as [Hx _]. cbn [app run] in Hw0. by rewrite Hx in Hw0.
    + rewrite Htail. split.
      * intros Ht. exists (46 :: take w rest), (drop w rest). split_and!; [|done|cbn [app]; by rewrite take_drop].
        right. exists (take w rest). split_and!; [done|apply run_take|]. intros E. apply (f_equal length) in E. rewrite length_take_le in E by done. simpl in E. lia.
      * intros (frac & t & Hf & Ht & E). destruct Hf as [->|(ds & -> & Hds & Hn)].
        { destruct (zulu_head t Ht) as (x & u & -> & Hx & _). injection E as <- _. done. }
        injection E as ->. destruct (zulu_head t Ht) as (x & u & Et & _ & Hx).
        assert (Hww : w = length ds) by (unfold w; apply run_app; [done|by rewrite Et]). by rewrite Hww, drop_app_length.
  - rewrite (shape_tail head (c :: rest)). split.
    + intros Ht. exists [], (c :: rest). split_and!; [by left|done|done].
    + intros (frac & t & Hf & Ht & E). destruct Hf as [->|(ds & -> & _)]; [cbn [app] in E; by rewrite E|]. by injection E as -> _.
Qed.

(** The checks on the first nineteen bytes. *)
Lemma shape_fields y1 y2 y3 y4 x1 m1 m2 x2 d1 d2 x3 h1 h2 x4 i1 i2 x5 s1 s2 rest :
  let D := is_ascii_digit in rest <> [] ->
  rfc3339_shape ([y1; y2; y3; y4; x1; m1; m2; x2; d1; d2; x3; h1; h2; x4; i1; i2; x5; s1; s2] ++ rest) =
  if (D y1 && D y2 && D y3 && D y4) && (x1 =? 45) && (D m1 && D m2) && (x2 =? 45) && (D d1 && D d2) && ((x3 =? 84) || (x3 =? 116)) &&
     (D h1 && D h2) && (x4 =? 58) && (D i1 && D i2) && (x5 =? 58) && (D s1 && D s2)
  then after_fields [y1; y2; y3; y4; x1; m1; m2; x2; d1; d2; x3; h1; h2; x4; i1; i2; x5; s1; s2] rest else Some false.
Proof.
  intros D Hne. set (head := [y1; y2; y3; y4; x1; m1; m2; x2; d1; d2; x3; h1; h2; x4; i1; i2; x5; s1; s2]).
  assert (Hl : (20 <= length (head ++ rest))%nat) by (rewrite length_app; destruct rest; [done|simpl; lia]).
  unfold rfc3339_shape. destruct (Nat.ltb_spec (length (head ++ rest)) 20) as [|_]; [lia|]. rewrite index_loop by lia.
  match goal with |- ?c ≫= ?k = if ?b then _ else _ => assert (Hc : c = Some (negb b)) end.
  { unfold digits_in, byte_is, head. cbn -[is_ascii_digit]. subst D.
    destruct (is_ascii_digit y1), (is_ascii_digit y2), (is_ascii_digit y3), (is_ascii_digit y4); try reflexivity.
    destruct (x1 =? 45); [|reflexivity]. destruct (is_ascii_digit m1), (is_ascii_digit m2); try reflexivity.
    destruct (x2 =? 45); [|reflexivity]. destruct (is_ascii_digit d1), (is_ascii_digit d2); try reflexivity.
    destruct ((x3 =? 84) || (x3 =? 116)); [|reflexivity]. destruct (is_ascii_digit h1), (is_ascii_digit h2); try reflexivity.
    destruct (x4 =? 58); [|reflexivity]. destruct (is_ascii_digit i1), (is_ascii_digit i2); try reflexivity.
    destruct (x5 =? 58); [|reflexivity]. destruct (is_ascii_digit s1), (is_ascii_digit s2); reflexivity. }
  rewrite Hc, some_bind. destruct (_ && _ && _); reflexivity.
Qed.

Lemma shape_iff text : rfc3339_shape text = Some true <-> rfc3339_grammar text.
Proof.
  split.
  - destruct text as [|y1 [|y2 [|y3 [|y4 [|x1 [|m1 [|m2 [|x2 [|d1 [|d2 [|x3 [|h1 [|h2 [|x4 [|i1 [|i2 [|x5 [|s1 [|s2 [|c rest]]]]]]]]]]]]]]]]]]]]; try done.
    match goal with |- rfc3339_shape ?l = _ -> _ =>
      change l with ([y1; y2; y3; y4; x1; m1; m2; x2; d1; d2; x3; h1; h2; x4; i1; i2; x5; s1; s2] ++ (c :: rest)) end.
    rewrite shape_fields by done. match goal with |- (if ?b then _ else _) = _ -> _ => destruct b eqn:E; [|done] end.
    intros Ha. apply after_fields_iff in Ha as (frac & t & Hf & Ht & ->); [|done]. bool_hyps. subst.
    exists [y1; y2; y3; y4], [m1; m2], [d1; d2], x3, [h1; h2], [i1; i2], [s1; s2], frac, t.
    assert (Hf4 : field_of 4 [y1; y2; y3; y4]) by (split; [by repeat apply Forall_cons_2|done]).
    assert (Hx3 : x3 = 84 \/ x3 = 116) by (match goal with H : (x3 =? 84) || (x3 =? 116) = true |- _ => apply orb_true_iff in H as [->%Z.eqb_eq | ->%Z.eqb_eq]; auto end).
    split_and!; try done; by apply field_intro2.
  - intros (y & m & d & sep & h & mi & s & frac & t & Hy & Hm & Hd & Hsep & Hh & Hi & Hs & Hf & Ht & ->).
    destruct (field4 y Hy) as (y1 & y2 & y3 & y4 & -> & Y1 & Y2 & Y3 & Y4), (field2 m Hm) as (m1 & m2 & -> & M1 & M2),
      (field2 d Hd) as (d1 & d2 & -> & D1 & D2), (field2 h Hh) as (h1 & h2 & -> & H1 & H2), (field2 mi Hi) as (i1 & i2 & -> & I1 & I2),
      (field2 s Hs) as (s1 & s2 & -> & S1 & S2).
    assert (Hne : frac ++ t <> []) by (destruct (zulu_head t Ht) as (c & u & -> & _); by destruct frac).
    pose proof (shape_fields y1 y2 y3 y4 45 m1 m2 45 d1 d2 sep h1 h2 58 i1 i2 58 s1 s2 (frac ++ t) Hne) as Heq. cbn zeta in Heq.
    cbn [app] in *. rewrite Heq. rewrite Y1, Y2, Y3, Y4, M1, M2, D1, D2, H1, H2, I1, I2, S1, S2.
    assert (Hsp : (sep =? 84) || (sep =? 116) = true) by (by destruct Hsep as [-> | ->]). rewrite Hsp. cbn [andb Z.eqb Pos.eqb].
    apply after_fields_iff; [done|]. by exists frac, t.
Qed.

Lemma digits_avoid c l : is_digits l -> c < 48 \/ 57 < c -> avoids c l.
Proof. intros Hd Hc. eapply Forall_impl; [|exact Hd]. intros x Hx%digit_range. lia. Qed.

Lemma avoids_digits c w v : c < 48 \/ 57 < c -> avoids c (digits w v).
Proof. apply digits_avoid, is_digits_digits. Qed.

Lemma field_digits n v : field_of n (digits n v).
Proof. split; [apply is_digits_digits|apply length_digits]. Qed.

Lemma grammar_avoids text : rfc3339_grammar text -> avoids 91 text.
Proof.
  intros (y & m & d & sep & h & mi & s & frac & t & [Hy _] & [Hm _] & [Hd _] & Hsep & [Hh _] & [Hi _] & [Hs _] & Hf & Ht & ->).
  assert (Hfr : avoids 91 frac).
  { destruct Hf as [->|(ds & -> & Hds & _)]; [by apply Forall_nil|apply Forall_cons_2; [lia|apply digits_avoid; [done|lia]]]. }
  assert (Htt : avoids 91 t).
  { destruct Ht as [[->| ->]|(c & a & b & Hc & [Ha _] & [Hb _] & ->)]; [by apply Forall_cons_2; [lia|apply Forall_nil]..|].
    apply Forall_cons_2; [lia|]. apply Forall_app. split; [apply digits_avoid; [done|lia]|apply Forall_cons_2; [lia|apply digits_avoid; [done|lia]]]. }
  repeat first [assumption | apply digits_avoid; [assumption|lia] | apply Forall_nil; exact I | apply Forall_app; split | apply Forall_cons_2; [lia|]].
Qed.

Lemma rfind_none c l : avoids c l -> rfind c l = None /\ contains c l = false.
Proof.
  induction 1 as [|x l Hx Hl [IH1 IH2]]; [done|]. cbn [rfind contains existsb]. rewrite IH1. apply Z.eqb_neq in Hx. rewrite Hx.
  split; [done|]. rewrite Z.eqb_sym, Hx. exact IH2.
Qed.

Lemma rfind_last c pre l : avoids c l -> rfind c (pre ++ c :: l) = Some (length pre).
Proof.
  intros Hl. induction pre as [|x pre IH]; cbn [app rfind length]; [|by rewrite IH].
  destruct (rfind_none c l Hl) as [-> _]. by rewrite Z.eqb_refl.
Qed.

Lemma rfind_split c l : match rfind c l with
  | Some i => l = take i l ++ c :: drop (S i) l /\ avoids c (drop (S i) l) /\ contains c l = true
  | None => avoids c l /\ contains c l = false
  end.
Proof.
  induction l as [|x l IH]; [split; [by apply Forall_nil|done]|]. cbn [rfind contains existsb]. destruct (rfind c l) as [i|].
  - destruct IH as (E & Ha & Hc). cbn [take drop app]. split; [by rewrite <- E|]. split; [exact Ha|]. unfold contains in Hc. by rewrite Hc, orb_true_r.
  - destruct IH as [Ha Hc]. rewrite (Z.eqb_sym c x). destruct (Z.eqb_spec x c) as [->|Hx]; [done|]. split; [by apply Forall_cons_2|exact Hc].
Qed.

(** RFC 9557: a strict date-time and perhaps one annotation. *)
Definition rfc9557_grammar (text : list Z) : Prop :=
  rfc3339_grammar text \/ exists base name, rfc3339_grammar base /\ avoids 91 name /\ text = base ++ 91 :: name ++ [93].

Section Formats.
Context `{!TzData, !TzNames, !TzNamesLaws, !CivilNames}.

(** What [try_format] accepts, as far as the text is concerned. *)
Lemma try_format_ok dt format : try_format dt format = Ok tt ->
  (format = TimeOnly \/ 0 <= year dt <= 9999) /\ (has_seconds_offset format = true -> dt_offset dt mod 60 = 0).
Proof.
  unfold try_format. intros Ht. split.
  - destruct format; try (by left); right; destruct (Z.leb_spec 0 (year dt)), (Z.leb_spec (year dt) 9999); try done; cbn in Ht; done || lia.
  - intros Hf. revert Ht. rewrite Hf, rem_eqb by lia. destruct (negb _ && negb _); [done|]. destruct (Z.eqb_spec (dt_offset dt mod 60) 0); [done|]. done.
Qed.

Lemma offset_text_shape o z : -86400 < o < 86400 -> o mod 60 = 0 -> zulu_or_offset (offset_text o z).
Proof.
  intros Ho Hm. unfold offset_text. destruct (z && (o =? 0)); [by left; left|right]. unfold write_offset. cbn zeta.
  assert (Hsm : small o) by (unfold small, OFFSET_LIMIT; lia). destruct (offset_fields o Hsm) as (Hh & Hmi & Hs).
  assert (Ha : Z.abs o mod 60 = 0).
  { apply Z.mod_divide in Hm; [|lia]. apply Z.mod_divide; [lia|]. by apply Z.divide_abs_r. }
  rewrite Ha. cbn [Z.eqb]. rewrite !width2 by lia. exists (sign_of o), (digits 2 (Z.abs o / 3600)), (digits 2 (Z.abs o mod 3600 / 60)).
  split_and!; [apply sign_byte|apply field_digits|apply field_digits|done].
Qed.

Lemma iso_strict dt z : wf_dt dt -> short_offset dt -> 0 <= year dt <= 9999 -> dt_offset dt mod 60 = 0 -> rfc3339_grammar (write_iso dt z false).
Proof.
  intros Hwf Ho Hy Hm. destruct (parts_bounds dt Hwf) as (y & m & d & h & mi & s & Hp & Hyy & _ & Hmm & Hd & Hh & Hmi & Hs).
  rewrite Hyy in Hy. unfold write_iso. rewrite Hp. unfold write_clock, write_month_day. rewrite !width2 by lia.
  rewrite write_year_digits by lia. unfold sign_text. destruct (Z.ltb_spec y 0); [lia|]. rewrite Z.abs_eq by lia.
  assert (Hns : 0 <= nanos dt < 1000000000) by apply Hwf.
  exists (digits 4 y), (digits 2 m), (digits 2 d), 84, (digits 2 h), (digits 2 mi), (digits 2 s), (write_fraction (nanos dt)), (offset_text (dt_offset dt) z).
  split_and!; try apply field_digits; [by left| |by apply offset_text_shape|].
  - destruct (fraction_text (nanos dt) Hns) as [[-> _]|(w & v & -> & Hw & _)]; [by left|right]. exists (digits w v).
    split_and!; [done|apply is_digits_digits|]. intros E. apply (f_equal length) in E. rewrite length_digits in E. simpl in E. lia.
  - by rewrite app_nil_r, <- !app_assoc.
Qed.

Lemma write_iso_zone dt z : write_iso dt z true = write_iso dt z false ++ zone_text dt true.
Proof.
  unfold write_iso, zone_text. destruct (parts dt) as [[[[[[? ?] ?] ?] ?] ?] ?]. rewrite app_nil_r, <- !app_assoc. done.
Qed.

Lemma parse_rfc3339_round dt z : wf_dt dt -> short_offset dt -> 0 <= year dt <= 9999 -> dt_offset dt mod 60 = 0 ->
  parse_rfc3339_strict (write_iso dt z false) = Some (Ok (rezoned dt false)).
Proof.
  intros Hwf Ho Hy Hm. unfold parse_rfc3339_strict. rewrite (proj2 (shape_iff _) (iso_strict dt z Hwf Ho Hy Hm)), some_bind. cbn [negb].
  apply parse_iso; try done. unfold year_fits. lia.
Qed.

Lemma parse_rfc9557_round dt : wf_dt dt -> short_offset dt -> 0 <= year dt <= 9999 -> dt_offset dt mod 60 = 0 -> zone_printable dt ->
  parse_rfc9557_strict (write_iso dt true true) = Some (Ok (rezoned dt true)).
Proof.
  intros Hwf Ho Hy Hm Hz. unfold parse_rfc9557_strict. pose proof (iso_strict dt true Hwf Ho Hy Hm) as Hst.
  assert (Hparse : parse (write_iso dt true true) None = Some (Ok (rezoned dt true))).
  { apply parse_iso; try done. unfold year_fits. lia. }
  rewrite write_iso_zone in *. set (base := write_iso dt true false) in *. pose proof (proj2 (shape_iff _) Hst) as Hsh. pose proof (grammar_avoids _ Hst) as Hav.
  unfold zone_printable in Hz. revert Hparse. unfold zone_text, timezone_name, annotation_name.
  destruct (zone dt) as [|o|e] eqn:Ez; intros Hparse.
  1-2: rewrite app_nil_r in *; destruct (rfind_none 91 base Hav) as [-> ->]; cbn [negb]; rewrite some_bind, Hsh, some_bind; exact Hparse.
  destruct Hz as (He & _ & _ & Hn91 & _). cbn [app] in *.
  rewrite rfind_last by (apply Forall_app; split; [exact Hn91|apply Forall_cons_2; [lia|by apply Forall_nil]]).
  assert (Hend : ends_with 93 (base ++ 91 :: entry_name e ++ [93]) = true).
  { unfold ends_with. apply bool_decide_eq_true.
    change (91 :: entry_name e ++ [93]) with (([91] ++ entry_name e) ++ [93]). rewrite app_assoc. apply last_snoc. }
  rewrite Hend. unfold slice. rewrite decide_True by (rewrite length_app; lia). rewrite some_bind, drop_0, Nat.sub_0_r, take_app_length.
  rewrite some_bind, Hsh, some_bind. exact Hparse.
Qed.

(** *** Dates and times alone *)

Lemma parse_date_round dt : wf_dt dt -> 0 <= year dt <= 9999 ->
  parse_date_only (write_date dt) = Some (Ok (from_raw ((secs dt + dt_offset dt) / 86400 * 86400) 0 0 Utc)).
Proof.
  intros Hwf Hy. destruct (parts_valid dt Hwf) as (y & m & d & h & mi & s & Hp & Hval & _ & Hh & Hmi & Hs & Hl & _).
  destruct (parts_bounds dt Hwf) as (y' & m' & d' & h' & mi' & s' & Hp' & Hyy & _ & Hm & Hd & _). rewrite Hp in Hp'. injection Hp' as <- <- <- <- <- <-.
  rewrite Hyy in Hy. unfold parse_date_only, write_date. rewrite Hp.
  set (text := write_year y ++ write_month_day m d). assert (Hin : inside (new text)) by (unfold inside; simpl; lia).
  rewrite (reads_date (new text) y m d [] Hin ltac:(lia) ltac:(lia) Hd); [|by rewrite app_assoc, app_nil_r].
  rewrite tbind_ok. rewrite done_view by (apply inside_adv; [done|done]).
  rewrite bool_decide_true by (rewrite view_adv; apply drop_all). cbn [negb].
  rewrite assemble_utc by (done || lia || auto). do 3 f_equal. rewrite Hl. unfold local_of, SECS_PER_DAY.
  rewrite <- !Z.add_assoc, Z.div_add_l, (Z.div_small (_ + _)) by lia. lia.
Qed.

Lemma parse_time_round dt : wf_dt dt ->
  parse_time_only (write_time dt) = Some (Ok (from_raw ((secs dt + dt_offset dt) mod 86400) (nanos dt) 0 Utc)).
Proof.
  intros Hwf. destruct (parts_valid dt Hwf) as (y & m & d & h & mi & s & Hp & Hval & _ & Hh & Hmi & Hs & Hl & _).
  assert (Hns : 0 <= nanos dt < 1000000000) by apply Hwf. unfold parse_time_only, write_time. rewrite Hp.
  set (text := write_clock h mi s ++ write_fraction (nanos dt)).
  rewrite (reads_clock (new text) h mi s (nanos dt) [] ltac:(lia) ltac:(lia) ltac:(lia) Hns I); [|by rewrite app_assoc, app_nil_r].
  rewrite tbind_ok. rewrite done_view by (apply inside_adv; [unfold inside; simpl; lia|done]).
  rewrite bool_decide_true by (rewrite view_adv; apply drop_all). cbn [negb].
  rewrite assemble_utc by (done || lia || auto). do 3 f_equal. rewrite Hl. unfold local_of, SECS_PER_DAY.
  change (days_from_civil 1970 1 1) with 0. rewrite Z.mul_0_l, Z.add_0_l.
  rewrite <- !Z.add_assoc, (Z.add_comm (_ * 86400)), Z.mod_add, Z.mod_small by lia. lia.
Qed.
End Formats.

(** *** Fields of known length *)

Lemma one_digit_of c : is_ascii_digit c = true -> one_digit c = Ok (c - 48).
Proof.
  intros Hc%digit_range. unfold one_digit. rewrite u8_id by (unfold byte; lia). cbn zeta. destruct (Z.ltb_spec (c - 48) 10); [done|lia].
Qed.

Lemma two_digits_of v : 0 <= v < 100 -> two_digits (digits 2 v) = Ok v.
Proof.
  intros Hv. destruct (digits2 v) as (a & b & E & Ha & Hb). pose proof (dec_value_digits 2 v 0 ltac:(simpl; lia)) as Hd. rewrite E in *.
  cbn [two_digits]. rewrite !one_digit_of by done. cbn [rbind dec_value] in *. f_equal. lia.
Qed.

Lemma four_digits_of v : 0 <= v < 10000 -> four_digits (digits 4 v) = Ok v.
Proof.
  intros Hv. destruct (digits4 v) as (a & b & c & d & E & Ha & Hb & Hc & Hd). pose proof (dec_value_digits 4 v 0 ltac:(simpl; lia)) as Hdv.
  rewrite E in *. unfold four_digits. cbn [length Nat.eqb negb four_digits_loop]. rewrite !one_digit_of by done. cbn [rbind dec_value] in *. f_equal. lia.
Qed.

Lemma decimal_of l a b : is_digits l -> (a <= length l <= b)%nat -> parse_decimal l a b = Ok (dec_value 0 l).
Proof.
  intros Hl Hn. unfold parse_decimal. destruct (Nat.ltb_spec (length l) a), (Nat.ltb_spec b (length l)); try lia. cbn [orb].
  clear - Hl. generalize 0. induction Hl as [|c l Hc Hl IH]; intros v; [done|]. cbn [decimal_loop dec_value]. cbn zeta. apply digit_range in Hc.
  rewrite u8_id by (unfold byte; lia). destruct (Z.leb_spec 10 (c - 48)); [lia|apply IH].
Qed.

Lemma decimal_digits w v a b : 0 <= v < 10 ^ Z.of_nat w -> (a <= w <= b)%nat -> parse_decimal (digits w v) a b = Ok v.
Proof.
  intros Hv Hw. rewrite decimal_of, dec_value_digits by (rewrite ?length_digits; done || apply is_digits_digits). done.
Qed.

Lemma month_text m : 1 <= m <= 12 -> exists a b c, month_short m = [a; b; c] /\ month_from_abbrev [a; b; c] = Ok m /\
  ascii_str [a; b; c] = Ok [a; b; c] /\ Forall (fun c => is_ascii_whitespace c = false) [a; b; c].
Proof.
  intros Hm. apply (month_cases (fun m => exists a b c, month_short m = [a; b; c] /\ month_from_abbrev [a; b; c] = Ok m /\
    ascii_str [a; b; c] = Ok [a; b; c] /\ Forall (fun c => is_ascii_whitespace c = false) [a; b; c]) m Hm);
    do 3 eexists; (split; [reflexivity|]); (split; [reflexivity|]); (split; [reflexivity|]); repeat constructor.
Qed.

Lemma weekday_text w : exists a b c, lit (short_name w) = [a; b; c] /\ validate_weekday_short [a; b; c] = Ok tt /\
  validate_weekday_long [a; b; c] = Ok tt /\ ascii_str [a; b; c] = Ok [a; b; c] /\
  Forall (fun c => is_ascii_whitespace c = false) [a; b; c] /\ strip_any WHITE_SPACE (a :: [b; c]) = None.
Proof.
  destruct w; do 3 eexists; (split; [reflexivity|]); (split; [reflexivity|]); (split; [reflexivity|]); (split; [reflexivity|]);
    (split; [repeat constructor|reflexivity]).
Qed.

Lemma field_eq {A} l lo hi (f : list Z -> result A Error) s : (lo <= hi <= length l)%nat -> take (hi - lo) (drop lo l) = s ->
  field l lo hi f = Some (f s).
Proof. intros Hl <-. unfold field, slice. by rewrite decide_True by lia. Qed.

(** *** RFC 2822 *)

Definition no_space (t : list Z) : Prop := Forall (fun c => is_ascii_whitespace c = false) t.

Lemma tokens_step acc t s : no_space t -> acc ++ t <> [] -> tokens_from acc (t ++ 32 :: s) = (acc ++ t) :: tokens_from [] s.
Proof.
  intros Ht. revert acc. induction Ht as [|c t Hc Ht IH]; intros acc Hne; cbn [app tokens_from].
  - rewrite app_nil_r in *. change (is_ascii_whitespace 32) with true. cbn beta iota. by destruct acc.
  - rewrite Hc, IH; [by rewrite <- app_assoc|by rewrite <- app_assoc].
Qed.

Lemma tokens_end acc t : no_space t -> acc ++ t <> [] -> tokens_from acc t = [acc ++ t].
Proof.
  intros Ht. revert acc. induction Ht as [|c t Hc Ht IH]; intros acc Hne; cbn [app tokens_from].
  - rewrite app_nil_r in *. by destruct acc.
  - rewrite Hc, IH; [by rewrite <- app_assoc|by rewrite <- app_assoc].
Qed.

Lemma digit_space c : is_ascii_digit c = true -> is_ascii_whitespace c = false.
Proof.
  intros Hc%digit_range. unfold is_ascii_whitespace.
  destruct (Z.eqb_spec c 32), (Z.eqb_spec c 9), (Z.eqb_spec c 10), (Z.eqb_spec c 12), (Z.eqb_spec c 13); done || lia.
Qed.

Lemma no_space_digits w v : no_space (digits w v).
Proof. eapply Forall_impl; [|apply (is_digits_digits w v)]. apply digit_space. Qed.

Definition clock_text (h mi s : Z) : list Z := digits 2 h ++ [58] ++ digits 2 mi ++ [58] ++ digits 2 s.

Lemma hms_text h mi s : 0 <= h < 100 -> 0 <= mi < 100 -> 0 <= s < 100 -> parse_hms (clock_text h mi s) = Ok (h, mi, s).
Proof.
  intros Hh Hmi Hs. unfold parse_hms, clock_text. cbn [app].
  rewrite !split_on_app by (apply avoids_digits; lia). rewrite split_on_avoids by (apply avoids_digits; lia). cbn zeta. cbn [next_token rbind].
  rewrite !decimal_digits by (simpl; lia). cbn [rbind]. by rewrite !u8_field.
Qed.

Lemma zone_text_2822 o : -86400 < o < 86400 -> o mod 60 = 0 -> parse_rfc2822_zone (write_offset_compact o) = Some (Ok o).
Proof.
  intros Ho Hm. assert (Hsm : small o) by (unfold small, OFFSET_LIMIT; lia). destruct (offset_fields o Hsm) as (_ & Hmi & _).
  assert (Hh : 0 <= Z.abs o / 3600 < 24) by (split; [apply Z.div_pos; lia|apply Z.div_lt_upper_bound; lia]).
  unfold write_offset_compact. cbn zeta. set (hh := Z.abs o / 3600) in *. set (mm := Z.abs o mod 3600 / 60) in *. rewrite !width2 by lia.
  assert (Hval : hh * 3600 + mm * 60 = Z.abs o).
  { unfold hh, mm. pose proof (Z.div_mod (Z.abs o) 3600 ltac:(lia)). pose proof (Z.div_mod (Z.abs o mod 3600) 60 ltac:(lia)).
    assert ((Z.abs o mod 3600) mod 60 = 0); [|lia]. rewrite <- (Znumtheory.Zmod_div_mod 60 3600); [|lia|lia|by exists 60].
    apply Z.mod_divide in Hm; [|lia]. apply Z.mod_divide; [lia|]. by apply Z.divide_abs_r. }
  pose proof (two_digits_of hh ltac:(lia)) as H1. pose proof (two_digits_of mm ltac:(lia)) as H2.
  destruct (digits2 hh) as (a & b & Ea & _), (digits2 mm) as (c & d & Ec & _). rewrite Ea, Ec in *. cbn [app].
  assert (Hci : forall t, length t <> 5%nat -> eq_ignore_ascii_case [sign_of o; a; b; c; d] t = false).
  { intros t Ht. apply bool_decide_eq_false. intros E. apply (f_equal length) in E. rewrite !length_map in E. simpl in E. lia. }
  unfold parse_rfc2822_zone. rewrite !Hci by (simpl; lia). cbn [orb]. cbn [length Nat.eqb negb].
  change ([sign_of o; a; b; c; d] !! 0%nat) with (Some (sign_of o)).
  assert (Hsg : (sign_of o =? 43) || (sign_of o =? 45) = true) by (by destruct (sign_byte o) as [-> | ->]).
  cbn [or_else not_ mbind option_bind fmap option_fmap option_map]. rewrite Hsg. cbn [negb].
  unfold slice. rewrite !decide_True by (simpl; lia). rewrite !some_bind.
  change (take (3 - 1) (drop 1 [sign_of o; a; b; c; d])) with [a; b]. change (take (5 - 3) (drop 3 [sign_of o; a; b; c; d])) with [c; d].
  rewrite H1, tbind_ok, some_bind, H2, tbind_ok. destruct (Z.ltb_spec 23 hh), (Z.ltb_spec 59 mm); try lia. cbn [orb]. cbn zeta.
  do 2 f_equal. rewrite Hval. unfold sign_of. destruct (Z.ltb_spec o 0); simpl; lia.
Qed.

Section Rfc2822.
Context `{!TzData, !TzNames, !TzNamesLaws, !CivilNames}.

Lemma no_space_compact o : small o -> no_space (write_offset_compact o) /\ write_offset_compact o <> [].
Proof.
  intros Hsm. destruct (offset_fields o Hsm) as (Hh & Hmi & _). unfold write_offset_compact. cbn zeta. split; [|done].
  rewrite !width2 by lia. apply Forall_cons_2; [by destruct (sign_byte o) as [-> | ->]|]. apply Forall_app. split; apply no_space_digits.
Qed.

Lemma parse_rfc2822_round dt : wf_dt dt -> short_offset dt -> 0 <= year dt <= 9999 -> dt_offset dt mod 60 = 0 ->
  parse_rfc2822 (write_rfc2822 dt) = Some (Ok (from_raw (secs dt) 0 (dt_offset dt) (offset_zone (dt_offset dt)))).
Proof.
  intros Hwf Ho Hy Hm. destruct (parts_valid dt Hwf) as (y & m & d & h & mi & s & Hp & Hval & _ & Hh & Hmi & Hs & Hl & _).
  destruct (parts_bounds dt Hwf) as (y' & m' & d' & h' & mi' & s' & Hp' & Hyy & _ & Hmm & Hd & _). rewrite Hp in Hp'. injection Hp' as <- <- <- <- <- <-.
  rewrite Hyy in Hy. unfold write_rfc2822. rewrite Hp. unfold write_clock. rewrite !width2 by lia.
  rewrite write_year_digits by lia. unfold sign_text. destruct (Z.ltb_spec y 0); [lia|]. rewrite Z.abs_eq by lia.
  destruct (weekday_text (weekday dt)) as (a & b & c & Ew & _ & Hlong & _ & Hws & _). rewrite Ew.
  destruct (month_text m Hmm) as (a' & b' & c' & Em & Hmon & _ & Hms). rewrite Em.
  destruct (no_space_compact (dt_offset dt) ltac:(apply Hwf)) as [Hcs Hcn].
  assert (Htok : split_ascii_whitespace ([a; b; c] ++ lit ", " ++ digits 2 d ++ [32] ++ [a'; b'; c'] ++ [32] ++ ([] ++ digits 4 y) ++ [32]
      ++ (digits 2 h ++ [58] ++ digits 2 mi ++ [58] ++ digits 2 s) ++ [32] ++ write_offset_compact (dt_offset dt))
    = [[a; b; c; 44]; digits 2 d; [a'; b'; c']; digits 4 y; clock_text h mi s; write_offset_compact (dt_offset dt)]).
  { change ([a; b; c] ++ lit ", " ++ ?l) with ([a; b; c; 44] ++ 32 :: l). unfold split_ascii_whitespace.
    assert (Hne : forall w v, [] ++ digits (S w) v <> []) by (intros w v E; apply (f_equal length) in E; rewrite length_app, length_digits in E; done).
    rewrite tokens_step; [|change [a; b; c; 44] with ([a; b; c] ++ [44]); apply Forall_app; split; [done|repeat constructor]|done].
    cbn [app]. f_equal. rewrite tokens_step by (apply no_space_digits || apply Hne). f_equal.
    change (a' :: b' :: c' :: ?l) with ([a'; b'; c'] ++ l). rewrite tokens_step by done. f_equal.
    rewrite tokens_step by (apply no_space_digits || apply Hne). f_equal.
    change (digits 2 h ++ 58 :: digits 2 mi ++ 58 :: digits 2 s) with (clock_text h mi s).
    assert (Hc : no_space (clock_text h mi s) /\ [] ++ clock_text h mi s <> []).
    { split; [|intros E; apply (f_equal length) in E; unfold clock_text in E; rewrite !length_app, !length_digits in E; done].
      unfold clock_text. apply Forall_app. split; [apply no_space_digits|]. apply Forall_cons_2; [done|].
      apply Forall_app. split; [apply no_space_digits|]. apply Forall_cons_2; [done|apply no_space_digits]. }
    rewrite tokens_step by apply Hc. f_equal. by rewrite tokens_end. }
  unfold parse_rfc2822. rewrite Htok. cbn [next_token]. rewrite tbind_ok.
  change (strip_suffix 44 [a; b; c; 44]) with (Some [a; b; c]). cbn beta iota. rewrite Hlong. cbn [rbind next_token]. rewrite tbind_ok.
  rewrite decimal_digits, tbind_ok by (simpl; lia). cbn [next_token]. rewrite tbind_ok, Hmon, tbind_ok. cbn [next_token]. rewrite tbind_ok.
  unfold parse_rfc2822_year. rewrite decimal_digits by (simpl; lia). cbn [rbind]. rewrite length_digits. cbn [Nat.eqb]. rewrite tbind_ok.
  cbn [next_token]. rewrite tbind_ok, hms_text, tbind_ok by lia. rewrite zone_text_2822 by done. rewrite !tbind_ok, u8_field by lia.
  pose proof (wf_rezoned dt false Hwf) as (Hs1 & _ & Hs3 & Hs4). cbn [rezoned secs nanos dt_offset zone] in *.
  apply (assemble_own y m d h mi s None None (from_raw (secs dt) 0 (dt_offset dt) (offset_zone (dt_offset dt)))); try done.
  - unfold fields_ok. split; [done|]. cbn [nanos]. lia.
  - lia.
  - apply reach_offset.
Qed.
End Rfc2822.

(** *** HTTP dates *)

Definition imf_text (w : Weekday) (y m d h mi s : Z) : list Z :=
  lit (short_name w) ++ lit ", " ++ digits 2 d ++ [32] ++ month_short m ++ [32] ++ digits 4 y ++ [32] ++ clock_text h mi s ++ lit " GMT".
Definition rfc850_text (w : Weekday) (y m d h mi s : Z) : list Z :=
  lit (name w) ++ lit ", " ++ digits 2 d ++ [45] ++ month_short m ++ [45] ++ digits 2 (y mod 100) ++ [32] ++ clock_text h mi s ++ lit " GMT".
(** The day of [asctime] has a space in place of a leading zero. *)
Definition asctime_day (d : Z) : list Z := if d <? 10 then [32; 48 + d] else digits 2 d.
Definition asctime_text (w : Weekday) (y m d h mi s : Z) : list Z :=
  lit (short_name w) ++ [32] ++ month_short m ++ [32] ++ asctime_day d ++ [32] ++ clock_text h mi s ++ [32] ++ digits 4 y.

(** No white space at the ends. *)
Lemma trim_id a l b : strip_any WHITE_SPACE (a :: l ++ [b]) = None ->
  strip_any (map reverse WHITE_SPACE) (b :: reverse (a :: l)) = None -> trim (a :: l ++ [b]) = a :: l ++ [b].
Proof.
  intros H1 H2. unfold trim, trim_start. assert (Hs : forall n, trim_with n WHITE_SPACE (a :: l ++ [b]) = a :: l ++ [b]).
  { intros [|n]; [done|]. cbn [trim_with]. by rewrite H1. }
  rewrite Hs. unfold trim_end. change (a :: l ++ [b]) with ((a :: l) ++ [b]). rewrite reverse_snoc.
  assert (He : forall n, trim_with n (map reverse WHITE_SPACE) (b :: reverse (a :: l)) = b :: reverse (a :: l)).
  { intros [|n]; [done|]. cbn [trim_with]. by rewrite H2. }
  by rewrite He, reverse_cons, reverse_involutive.
Qed.

(** An ASCII letter in front, and a letter or a digit at the end. *)
Definition solid (c : Z) : bool := is_ascii_digit c || is_ascii_alphabetic c.
Lemma solid_strip c l : solid c = true -> strip_any WHITE_SPACE (c :: l) = None /\ strip_any (map reverse WHITE_SPACE) (c :: l) = None.
Proof.
  intros Hc. assert (Hr : 48 <= c <= 122) by (unfold solid, is_ascii_digit, is_ascii_alphabetic in Hc; lia).
  assert (Hgen : forall ws, Forall (fun w => match w with x :: _ => x < 48 \/ 122 < x | [] => False end) ws -> strip_any ws (c :: l) = None).
  { induction 1 as [|w ws Hw Hws IH]; [done|]. destruct w as [|x w]; [done|]. cbn [strip_any strip_prefix_str].
    destruct (Z.eqb_spec x c); [lia|exact IH]. }
  split; apply Hgen; repeat (apply Forall_cons_2; [vm_compute; auto|]); by apply Forall_nil.
Qed.

Section Http.
Context `{!TzData, !TzNames, !TzNamesLaws, !CivilNames}.

Lemma parse_imf_text w y m d h mi s : 0 <= y < 10000 -> 1 <= m <= 12 -> 0 <= d < 100 -> 0 <= h < 100 -> 0 <= mi < 100 -> 0 <= s < 100 ->
  parse_imf_fixdate (imf_text w y m d h mi s) = assemble y m d h mi s 0 None (Some 0) None.
Proof.
  intros Hy Hm Hd Hh Hmi Hs. unfold imf_text, clock_text.
  destruct (weekday_text w) as (a & b & c & -> & Hshort & _ & Hasc & _). destruct (month_text m Hm) as (a' & b' & c' & -> & Hmon & Hasc' & _).
  pose proof (two_digits_of d Hd) as Td. pose proof (two_digits_of h Hh) as Th. pose proof (two_digits_of mi Hmi) as Ti. pose proof (two_digits_of s Hs) as Ts.
  pose proof (four_digits_of y Hy) as Ty. destruct (digits4 y) as (y1 & y2 & y3 & y4 & Ey & _), (digits2 d) as (d1 & d2 & Ed & _),
    (digits2 h) as (h1 & h2 & Eh & _), (digits2 mi) as (i1 & i2 & Ei & _), (digits2 s) as (s1 & s2 & Es & _).
  rewrite Ey, Ed, Eh, Ei, Es in *. clear Ey Ed Eh Ei Es. cbn [app]. match goal with |- parse_imf_fixdate ?l = _ => set (text := l) end.
  unfold parse_imf_fixdate. match goal with |- ?c ≫= _ = _ => assert (Hc : c = Some false) by reflexivity end. rewrite Hc, some_bind. clear Hc.
  rewrite (field_eq text 0 3 ascii_str [a; b; c]), Hasc, tbind_ok by (simpl; lia || reflexivity).
  rewrite Hshort, tbind_ok. rewrite (field_eq text 5 7 two_digits [d1; d2]), Td, tbind_ok by (simpl; lia || reflexivity).
  rewrite (field_eq text 8 11 ascii_str [a'; b'; c']), Hasc', tbind_ok by (simpl; lia || reflexivity). rewrite Hmon, tbind_ok.
  rewrite (field_eq text 12 16 four_digits [y1; y2; y3; y4]), Ty, tbind_ok by (simpl; lia || reflexivity).
  rewrite (field_eq text 17 19 two_digits [h1; h2]), Th, tbind_ok by (simpl; lia || reflexivity).
  rewrite (field_eq text 20 22 two_digits [i1; i2]), Ti, tbind_ok by (simpl; lia || reflexivity).
  rewrite (field_eq text 23 25 two_digits [s1; s2]), Ts, tbind_ok by (simpl; lia || reflexivity). done.
Qed.
Lemma strip_long w l : strip_weekday_long (lit (name w) ++ lit ", " ++ l) = Ok l.
Proof. by destruct w. Qed.

Lemma parse_rfc850_text w y m d h mi s : 1950 <= y < 2050 -> 1 <= m <= 12 -> 0 <= d < 100 -> 0 <= h < 100 -> 0 <= mi < 100 -> 0 <= s < 100 ->
  parse_rfc850_date (rfc850_text w y m d h mi s) = assemble y m d h mi s 0 None (Some 0) None.
Proof.
  intros Hy Hm Hd Hh Hmi Hs. unfold rfc850_text, clock_text, parse_rfc850_date. rewrite strip_long, tbind_ok.
  destruct (month_text m Hm) as (a' & b' & c' & -> & Hmon & Hasc' & _). set (yy := y mod 100). assert (Hyy : 0 <= yy < 100) by (apply Z.mod_pos_bound; lia).
  assert (Hyear : two_digit_year (u16 yy) = y).
  { unfold u16. rewrite Z.mod_small by lia. unfold two_digit_year. assert (y = 1900 + yy \/ y = 2000 + yy).
    { unfold yy. pose proof (Z.div_mod y 100 ltac:(lia)). pose proof (Z.mod_pos_bound y 100 ltac:(lia)). lia. }
    destruct (Z.ltb_spec yy 50); lia. }
  pose proof (two_digits_of d Hd) as Td. pose proof (two_digits_of h Hh) as Th. pose proof (two_digits_of mi Hmi) as Ti. pose proof (two_digits_of s Hs) as Ts.
  pose proof (two_digits_of yy Hyy) as Ty. destruct (digits2 yy) as (y1 & y2 & Ey & _), (digits2 d) as (d1 & d2 & Ed & _),
    (digits2 h) as (h1 & h2 & Eh & _), (digits2 mi) as (i1 & i2 & Ei & _), (digits2 s) as (s1 & s2 & Es & _).
  rewrite Ey, Ed, Eh, Ei, Es in *. clear Ey Ed Eh Ei Es. cbn [app].
  match goal with |- context [(length ?l =? 22)%nat] => set (text := l) end.
  match goal with |- ?c ≫= _ = _ => assert (Hc : c = Some false) by reflexivity end. rewrite Hc, some_bind. clear Hc.
  rewrite (field_eq text 0 2 two_digits [d1; d2]), Td, tbind_ok by (simpl; lia || reflexivity).
  rewrite (field_eq text 3 6 ascii_str [a'; b'; c']), Hasc', tbind_ok by (simpl; lia || reflexivity). rewrite Hmon, tbind_ok.
  rewrite (field_eq text 7 9 two_digits [y1; y2]), Ty, tbind_ok by (simpl; lia || reflexivity). cbn zeta. rewrite Hyear.
  rewrite (field_eq text 10 12 two_digits [h1; h2]), Th, tbind_ok by (simpl; lia || reflexivity).
  rewrite (field_eq text 13 15 two_digits [i1; i2]), Ti, tbind_ok by (simpl; lia || reflexivity).
  rewrite (field_eq text 16 18 two_digits [s1; s2]), Ts, tbind_ok by (simpl; lia || reflexivity). done.
Qed.

Lemma asctime_day_text d : 0 <= d < 100 -> exists x z, asctime_day d = [x; z] /\
  (if x =? 32 then one_digit z else two_digits [x; z]) = Ok d.
Proof.
  intros Hd. unfold asctime_day. destruct (Z.ltb_spec d 10).
  - exists 32, (48 + d). split; [done|]. cbn [Z.eqb Pos.eqb]. rewrite one_digit_of; [f_equal; lia|].
    unfold is_ascii_digit. destruct (Z.leb_spec 48 (48 + d)), (Z.leb_spec (48 + d) 57); done || lia.
  - pose proof (two_digits_of d Hd) as Td. destruct (digits2 d) as (x & z & E & Hx & _). exists x, z. rewrite E in *.
    split; [done|]. by rewrite (digit_not x 32) by (done || lia).
Qed.

Lemma parse_asctime_text w y m d h mi s : 0 <= y < 10000 -> 1 <= m <= 12 -> 0 <= d < 100 -> 0 <= h < 100 -> 0 <= mi < 100 -> 0 <= s < 100 ->
  parse_asctime (asctime_text w y m d h mi s) = assemble y m d h mi s 0 None (Some 0) None.
Proof.
  intros Hy Hm Hd Hh Hmi Hs. unfold asctime_text, clock_text.
  destruct (weekday_text w) as (a & b & c & -> & Hshort & _ & Hasc & _). destruct (month_text m Hm) as (a' & b' & c' & -> & Hmon & Hasc' & _).
  destruct (asctime_day_text d Hd) as (x & z & -> & Td). pose proof (two_digits_of h Hh) as Th. pose proof (two_digits_of mi Hmi) as Ti.
  pose proof (two_digits_of s Hs) as Ts. pose proof (four_digits_of y Hy) as Ty. destruct (digits4 y) as (y1 & y2 & y3 & y4 & Ey & _),
    (digits2 h) as (h1 & h2 & Eh & _), (digits2 mi) as (i1 & i2 & Ei & _), (digits2 s) as (s1 & s2 & Es & _).
  rewrite Ey, Eh, Ei, Es in *. clear Ey Eh Ei Es. cbn [app]. match goal with |- parse_asctime ?l = _ => set (text := l) end.
  unfold parse_asctime. match goal with |- ?c ≫= _ = _ => assert (Hc : c = Some false) by reflexivity end. rewrite Hc, some_bind. clear Hc.
  rewrite (field_eq text 0 3 ascii_str [a; b; c]), Hasc, tbind_ok by (simpl; lia || reflexivity). rewrite Hshort, tbind_ok.
  rewrite (field_eq text 4 7 ascii_str [a'; b'; c']), Hasc', tbind_ok by (simpl; lia || reflexivity). rewrite Hmon, tbind_ok.
  assert (Hday : (field ← slice text 8 10; tens ← field !! 0%nat;
    if tens =? 32 then units ← field !! 1%nat; Some (one_digit units) else Some (two_digits field)) = Some (Ok d)).
  { unfold slice. rewrite decide_True by (simpl; lia). rewrite some_bind. change (take (10 - 8) (drop 8 text)) with [x; z].
    change ([x; z] !! 0%nat) with (Some x). change ([x; z] !! 1%nat) with (Some z). rewrite !some_bind. rewrite <- Td. by destruct (x =? 32). }
  rewrite Hday, tbind_ok. clear Hday.
  rewrite (field_eq text 11 13 two_digits [h1; h2]), Th, tbind_ok by (simpl; lia || reflexivity).
  rewrite (field_eq text 14 16 two_digits [i1; i2]), Ti, tbind_ok by (simpl; lia || reflexivity).
  rewrite (field_eq text 17 19 two_digits [s1; s2]), Ts, tbind_ok by (simpl; lia || reflexivity).
  rewrite (field_eq text 20 24 four_digits [y1; y2; y3; y4]), Ty, tbind_ok by (simpl; lia || reflexivity). done.
Qed.

(** The texts are ASCII and have no white space at the ends. *)
Definition clean (t : list Z) : Prop := is_ascii t = true /\ trim t = t.

Lemma clean_intro t a u v b : ascii t -> t = a :: u -> t = v ++ [b] -> (2 <= length t)%nat -> solid a = true -> solid b = true -> clean t.
Proof.
  intros Ha E1 E2 Hl Hsa Hsb. split.
  - unfold is_ascii. apply forallb_forall. intros x Hx. unfold ascii in Ha. rewrite List.Forall_forall in Ha. apply Z.ltb_lt. by apply Ha.
  - destruct v as [|a' v]; [rewrite E2 in Hl; simpl in Hl; lia|].
    assert (Haa : a' = a) by (rewrite E1 in E2; by injection E2). subst a'. rewrite E2. cbn [app].
    exact (trim_id a v b (proj1 (solid_strip a _ Hsa)) (proj2 (solid_strip b _ Hsb))).
Qed.

Lemma ascii_digits w v : ascii (digits w v).
Proof. eapply Forall_impl; [|apply (is_digits_digits w v)]. intros c Hc%digit_range. lia. Qed.

Lemma ascii_clock_text h mi s : ascii (clock_text h mi s).
Proof.
  unfold clock_text. repeat first [apply ascii_digits | apply Forall_nil; exact I | apply Forall_app; split | apply Forall_cons_2; [lia|]].
Qed.

Lemma solid_weekday w : exists a u, lit (short_name w) = a :: u /\ solid a = true.
Proof. destruct w; do 2 eexists; by split. Qed.

Lemma solid_name w : exists a u, lit (name w) = a :: u /\ solid a = true.
Proof. destruct w; do 2 eexists; by split. Qed.
Ltac ascii_parts := repeat first [ apply ascii_digits | apply ascii_clock_text | apply ascii_month | apply ascii_weekday
  | apply Forall_nil; exact I | apply Forall_app; split | apply Forall_cons_2; [lia|]
  | apply (bool_decide_unpack _); vm_compute; exact I ].

Lemma clean_imf w y m d h mi s : clean (imf_text w y m d h mi s).
Proof.
  destruct (solid_weekday w) as (a & u & E & Ha). assert (Hasc : ascii (imf_text w y m d h mi s)).
  { unfold imf_text. ascii_parts. }
  eapply (clean_intro _ a _ _ 84); [done| | | |done|done].
  - unfold imf_text. rewrite E. reflexivity.
  - unfold imf_text. change (lit " GMT") with ([32; 71; 77] ++ [84]). rewrite !app_assoc. reflexivity.
  - unfold imf_text. rewrite E, !length_app. simpl. lia.
Qed.

Lemma clean_rfc850 w y m d h mi s : clean (rfc850_text w y m d h mi s).
Proof.
  destruct (solid_name w) as (a & u & E & Ha). assert (Hn : ascii (lit (name w))) by (destruct w; apply (bool_decide_unpack _); vm_compute; exact I).
  assert (Hasc : ascii (rfc850_text w y m d h mi s)).
  { unfold rfc850_text. apply Forall_app. split; [exact Hn|]. ascii_parts. }
  eapply (clean_intro _ a _ _ 84); [done| | | |done|done].
  - unfold rfc850_text. rewrite E. reflexivity.
  - unfold rfc850_text. change (lit " GMT") with ([32; 71; 77] ++ [84]). rewrite !app_assoc. reflexivity.
  - unfold rfc850_text. rewrite E, !length_app. simpl. lia.
Qed.

Lemma clean_asctime w y m d h mi s : 0 <= d < 100 -> clean (asctime_text w y m d h mi s).
Proof.
  intros Hd. destruct (solid_weekday w) as (a & u & E & Ha), (digits4 y) as (y1 & y2 & y3 & y4 & Ey & Hy1 & Hy2 & Hy3 & Hy4).
  assert (Hday : ascii (asctime_day d)) by (unfold asctime_day; destruct (Z.ltb_spec d 10); ascii_parts).
  assert (Hasc : ascii (asctime_text w y m d h mi s)).
  { unfold asctime_text. repeat first [exact Hday | apply ascii_digits | apply ascii_clock_text | apply ascii_month | apply ascii_weekday
      | apply Forall_nil; exact I | apply Forall_app; split | apply Forall_cons_2; [lia|]]. }
  eapply (clean_intro _ a _ _ y4); [done| | | |done|].
  - unfold asctime_text. rewrite E. reflexivity.
  - unfold asctime_text. rewrite Ey. change [y1; y2; y3; y4] with ([y1; y2; y3] ++ [y4]). rewrite !app_assoc. reflexivity.
  - unfold asctime_text. rewrite E, !length_app. simpl. lia.
  - unfold solid. by rewrite Hy4.
Qed.

(** The parsers that come first refuse the later forms. *)
Lemma imf_refuses l : length l <> 29%nat -> exists e, parse_imf_fixdate l = Some (Err e).
Proof. intros Hl. unfold parse_imf_fixdate. apply Nat.eqb_neq in Hl. rewrite Hl. by eexists. Qed.

Lemma rfc850_refuses w l : exists e, parse_rfc850_date (lit (short_name w) ++ 32 :: l) = Some (Err e).
Proof. unfold parse_rfc850_date. destruct w; by eexists. Qed.

Lemma length_rfc850 w y m d h mi s : 1 <= m <= 12 -> (30 <= length (rfc850_text w y m d h mi s))%nat.
Proof.
  intros Hm. unfold rfc850_text, clock_text. destruct (month_text m Hm) as (a & b & c & -> & _). rewrite !length_app, !length_digits.
  destruct w; simpl; lia.
Qed.

Lemma length_asctime w y m d h mi s : 1 <= m <= 12 -> 0 <= d < 100 -> length (asctime_text w y m d h mi s) = 24%nat.
Proof.
  intros Hm Hd. unfold asctime_text, clock_text. destruct (month_text m Hm) as (a & b & c & -> & _), (asctime_day_text d Hd) as (x & z & -> & _).
  rewrite !length_app, !length_digits. by destruct w.
Qed.

Lemma http_of_imf text r : clean text -> parse_imf_fixdate text = Some (Ok r) -> parse_http text = Some (Ok r).
Proof. intros [Ha Ht] Hi. unfold parse_http. by rewrite Ht, Ha, Hi. Qed.

Lemma http_of_rfc850 text r : clean text -> length text <> 29%nat -> parse_rfc850_date text = Some (Ok r) -> parse_http text = Some (Ok r).
Proof. intros [Ha Ht] Hl Hi. unfold parse_http. destruct (imf_refuses text Hl) as [e He]. by rewrite Ht, Ha, He, some_bind, Hi. Qed.

Lemma parse_http_round dt : wf_dt dt -> 0 <= year (from_raw (secs dt) (nanos dt) 0 Utc) <= 9999 ->
  exists text, write_http_date dt = Some text /\ parse_http text = Some (Ok (from_raw (secs dt) 0 0 Utc)).
Proof.
  intros Hwf Hy. destruct (utc_wf dt Hwf) as (Hutc & Hwf' & _). unfold write_http_date. rewrite Hutc. cbn [mbind option_bind].
  set (utc := from_raw (secs dt) (nanos dt) 0 Utc) in *.
  destruct (parts_valid utc Hwf') as (y & m & d & h & mi & s & Hp & Hval & _ & Hh & Hmi & Hs & Hl & _).
  destruct (parts_bounds utc Hwf') as (y' & m' & d' & h' & mi' & s' & Hp' & Hyy & _ & Hm & Hd & _). rewrite Hp in Hp'. injection Hp' as <- <- <- <- <- <-.
  rewrite Hyy in Hy. rewrite Hp. eexists. split; [done|].
  assert (Ht : lit (short_name (weekday utc)) ++ lit ", " ++ fmt_width 2 d ++ [32] ++ month_short m ++ [32] ++ write_year y ++ [32] ++ write_clock h mi s ++ lit " GMT"
    = imf_text (weekday utc) y m d h mi s).
  { unfold imf_text, write_clock, clock_text. rewrite !width2, write_year_digits by lia. unfold sign_text.
    destruct (Z.ltb_spec y 0); [lia|]. rewrite Z.abs_eq by lia. by rewrite <- !app_assoc. }
  rewrite Ht. apply http_of_imf; [apply clean_imf|]. rewrite parse_imf_text by lia.
  rewrite assemble_utc by (done || lia || auto). do 3 f_equal. cbn [utc secs dt_offset] in Hl. lia.
Qed.
End Http.

End TimeParseText.
