(* ===== verification/TimeParseTheorems.v ===== *)
(** * time: the properties of parsing

    Safety, strictness and round trips of the parsers, stated on the public
    functions, with instances over a small zone table. *)
From Stdlib Require Import ZArith Lia String.
From stdpp Require Import base list numbers option.
From S2P Require Import Prelude Words Order Utf8 Civil Posix Tzif TimeZone DateTime TzIndex TimeFormat TimeParse TimeParseSafe TimeParseText.
Import Civil Posix Tzif TimeZone DateTime TzIndex TimeFormat TimeParse TimeParseSafe TimeParseText.

#[local] Close Scope string_scope.

Module TimeParseTheorems.

(** ** The properties *)

(** The value that the text of a format stands for. *)
Definition reparsed (dt : DateTime) (format : Format) : DateTime :=
  match format with
  | Rfc3339 | Iso8601 => from_raw (secs dt) (nanos dt) (dt_offset dt) (offset_zone (dt_offset dt))
  | Rfc9557 => from_raw (secs dt) (nanos dt) (dt_offset dt) (canonical_zone dt)
  | Rfc2822 => from_raw (secs dt) 0 (dt_offset dt) (offset_zone (dt_offset dt))
  | HttpDate => from_raw (secs dt) 0 0 Utc
  | DateOnly => from_raw ((secs dt + dt_offset dt) / 86400 * 86400) 0 0 Utc
  | TimeOnly => from_raw ((secs dt + dt_offset dt) mod 86400) (nanos dt) 0 Utc
  end.

(** What [try_format] does not ask: an offset of less than a day, a name that
    an annotation can hold, and, for an HTTP date, a four-digit year in UTC. *)
Definition expressible `{!TzNames} (dt : DateTime) (format : Format) : Prop :=
  zone_printable dt /\
  match format with
  | Rfc3339 | Iso8601 | Rfc9557 | Rfc2822 => short_offset dt
  | HttpDate => 0 <= year (from_raw (secs dt) (nanos dt) 0 Utc) <= 9999
  | _ => True
  end.

Lemma printable_ascii `{!TzNames} dt : zone_printable dt -> ascii_name dt.
Proof.
  unfold zone_printable, ascii_name, timezone_name, annotation_name. destruct (zone dt) as [|o|e]; [done|done|]. by intros [_ [Ha _]].
Qed.

Lemma reparse_text `{!TzData, !TzNames, !TzNamesLaws, !CivilNames} dt format : wf_dt dt -> try_format dt format = Ok tt ->
  expressible dt format -> exists text, write_format dt format = Some text /\ parse_with_format text format = Some (Ok (reparsed dt format)).
Proof.
  intros Hwf Ht [Hz He]. destruct (try_format_ok dt format Ht) as [Hy Hm].
  destruct format; cbn [write_format parse_with_format reparsed]; cbn [has_seconds_offset] in Hm; try specialize (Hm eq_refl);
    try (destruct Hy as [[=]|Hy]).
  - eexists. split; [done|]. by apply parse_rfc3339_round.
  - eexists. split; [done|]. by apply parse_rfc9557_round.
  - eexists. split; [done|]. by apply parse_rfc3339_round.
  - eexists. split; [done|]. by apply parse_rfc2822_round.
  - by apply parse_http_round.
  - eexists. split; [done|]. by apply parse_date_round.
  - eexists. split; [done|]. by apply parse_time_round.
  - eexists. split; [done|]. by apply parse_time_round.
Qed.

Section Claims.
Context `{!TzData, !TzNames, !TzNamesLaws, !CivilNames}.

(** C23: no text makes the parsers panic or loop: for every input, format and
    default zone they return, and what they return is either a well-formed
    value or one of five kinds of error. *)
Theorem parsing_is_safe input format default_zone : civil_option default_zone ->
  sound (parse input default_zone) wf_dt /\ sound (parse_bytes input default_zone) wf_dt /\
  sound (parse_with_format input format) wf_dt /\ sound (parse_bytes_with_format input format) wf_dt.
Proof.
  intros Hdz. split_and!.
  - by apply sound_parse.
  - unfold parse_bytes. destruct (Utf8.from_utf8 input); [by apply sound_parse|done].
  - apply sound_with_format.
  - unfold parse_bytes_with_format. destruct (Utf8.from_utf8 input); [apply sound_with_format|done].
Qed.

(** C31: fields to instant, for fields of the types of the code (the year up to
    two thousand million either way, unless an offset without a zone makes any
    year safe).  [assemble] accepts exactly the fields of a civil
    date and time (a sixtieth second counting as the fifty-ninth) whose offset,
    when both are given, is the zone's at that instant, and whose instant is in
    range; the value has the zone of the annotation, else the offset, else the
    default, and the instant they fix.  Every error says which check failed. *)
Theorem assemble_correct y m d h mi s ns zone offset default_zone : 0 <= ns -> in_reach y h mi s zone offset ->
  civil_option zone -> civil_option default_zone ->
  wp (assemble y m d h mi s ns zone offset default_zone) (fun r => match r with
    | Ok dt => assembled y m d h mi s ns zone offset default_zone dt
    | Err e => refused y m d h mi s ns zone offset default_zone e end).
Proof. apply assemble_spec. Qed.

(** C22: [DateTime] parses what it displays, in any default zone, when its local
    year has at most four digits, its offset is shorter than a day and its zone,
    if it is named, is one of the database under an ASCII name without brackets
    that is neither [z] nor [local]: the same instant and offset, and the same
    zone, except that the fixed offset zero comes back as UTC.  ([five_digit_year] and
    [unread_offset] show that the first two conditions are needed.) *)
Theorem display_round_trip dt default_zone : wf_dt dt -> year_fits dt -> short_offset dt -> zone_printable dt -> civil_option default_zone ->
  exists text, write_datetime dt = Some (Ok text) /\ parse text default_zone = Some (Ok (rezoned dt true)) /\
    parse_bytes text default_zone = Some (Ok (rezoned dt true)) /\ (zone dt <> Fixed 0 -> rezoned dt true = dt).
Proof.
  intros Hwf Hy Ho Hz Hdz. destruct (fmt_wp dt Rfc9557 Hwf (printable_ascii dt Hz)) as (text & Ht & Hf).
  exists text. rewrite write_datetime_eq. split; [done|]. pose proof (ascii_format dt Rfc9557 text (printable_ascii dt Hz) Ht) as Ha.
  change (write_format dt Rfc9557) with (Some (write_iso dt true true)) in Ht. apply (inj Some) in Ht as <-.
  assert (Hp : parse (write_iso dt true true) default_zone = Some (Ok (rezoned dt true))) by by apply parse_iso.
  split; [done|]. split.
  - unfold parse_bytes. pose proof (Utf8.ascii_valid _ Ha) as Hv. unfold Utf8.valid in Hv. by rewrite Hv.
  - intros Hne. apply dt_eq; [done|done|done|]. unfold rezoned, canonical_zone, offset_zone. cbn [DateTime.zone].
    destruct Hwf as (_ & _ & Hoff & _). destruct (zone dt) as [|o|e]; [by injection Hoff as <-| |done].
    injection Hoff as ->. destruct (Z.eqb_spec (dt_offset dt) 0) as [E|]; [|done]. by rewrite E in Hne.
Qed.

(** C21: for every format, what [try_format] accepts and the text can express
    is parsed back from the text [Display] prints, as a [str] and as bytes: the
    instant, offset and zone that the format keeps. *)
Theorem format_round_trip dt format : wf_dt dt -> try_format dt format = Ok tt -> expressible dt format ->
  exists text, Formatted_fmt dt format = Some (Ok text) /\
    parse_with_format text format = Some (Ok (reparsed dt format)) /\
    parse_bytes_with_format text format = Some (Ok (reparsed dt format)).
Proof.
  intros Hwf Ht He. destruct (reparse_text dt format Hwf Ht He) as (text & Hw & Hp). pose proof (printable_ascii dt (proj1 He)) as Hn.
  destruct (fmt_wp dt format Hwf Hn) as (text' & Hw' & Hf). rewrite Hw in Hw'. injection Hw' as <-. exists text.
  split; [done|]. split; [done|]. unfold parse_bytes_with_format. pose proof (Utf8.ascii_valid _ (ascii_format dt format text Hn Hw)) as Hv.
  unfold Utf8.valid in Hv. by rewrite Hv.
Qed.

(** The three forms of an HTTP date that RFC 9110 has recipients accept
    denote the same value: [IMF-fixdate] and [asctime] for every year of four
    digits, RFC 850 for the years that its two digits can mean. *)
Theorem http_forms_agree w y m d h mi s : valid y m d -> 0 <= h <= 23 -> 0 <= mi <= 59 -> 0 <= s <= 59 ->
  let dt := from_raw (local_of y m d h mi s) 0 0 Utc in
  (0 <= y <= 9999 -> parse_http (imf_text w y m d h mi s) = Some (Ok dt) /\ parse_http (asctime_text w y m d h mi s) = Some (Ok dt)) /\
  (1950 <= y < 2050 -> parse_http (rfc850_text w y m d h mi s) = Some (Ok dt)).
Proof.
  intros Hval Hh Hmi Hs dt. pose proof Hval as [Hm Hd]. assert (Hd31 : days_in_month y m <= 31).
  { apply (month_cases (fun m => days_in_month y m <= 31)); [done|..]; simpl; try destruct (is_leap y); lia. }
  assert (Has : -9999 <= y <= 9999 -> assemble y m d h mi s 0 None (Some 0) None = Some (Ok dt)) by (intros Hy; apply assemble_utc; done || lia || auto).
  split; intros Hy; [split|].
  - apply http_of_imf; [apply clean_imf|]. rewrite parse_imf_text by lia. apply Has. lia.
  - destruct (clean_asctime w y m d h mi s ltac:(lia)) as [Ha Ht]. unfold parse_http. rewrite Ht, Ha. cbn [negb].
    destruct (imf_refuses (asctime_text w y m d h mi s)) as [e ->]; [by rewrite length_asctime by lia|]. rewrite some_bind.
    assert (H850 : exists e, parse_rfc850_date (asctime_text w y m d h mi s) = Some (Err e)) by apply rfc850_refuses.
    destruct H850 as [e' ->]. rewrite some_bind, parse_asctime_text by lia. rewrite Has by lia. done.
  - apply http_of_rfc850; [apply clean_rfc850|pose proof (length_rfc850 w y m d h mi s ltac:(lia)); lia|].
    rewrite parse_rfc850_text by lia. apply Has. lia.
Qed.

(** A strict parser hands texts of its grammar to the lenient one. *)
Definition strict_for (grammar : list Z -> Prop) (parser : list Z -> option (result DateTime Error)) (text : list Z) : Prop :=
  grammar text /\ parser text = parse text None \/ ~ grammar text /\ exists e, parser text = Some (Err e) /\ kind e = Parse.

Lemma strict_rfc3339 text : strict_for rfc3339_grammar parse_rfc3339_strict text.
Proof.
  unfold strict_for, parse_rfc3339_strict. destruct (shape_some text) as [[|] Hs].
  - left. split; [by apply shape_iff|]. by rewrite Hs.
  - right. split; [intros Hg%shape_iff; congruence|]. rewrite Hs. by eexists.
Qed.

Lemma strict_rfc9557 text : strict_for rfc9557_grammar parse_rfc9557_strict text.
Proof.
  unfold strict_for, parse_rfc9557_strict. pose proof (rfind_split 91 text) as Hr.
  assert (Hlast : forall (base name : list Z), text = base ++ 91 :: name ++ [93] -> ends_with 93 text = true).
  { intros base name ->. unfold ends_with. apply bool_decide_eq_true. change (91 :: name ++ [93]) with (([91] ++ name) ++ [93]).
    rewrite app_assoc. apply last_snoc. }
  destruct (rfind 91 text) as [i|] eqn:Ei.
  - destruct Hr as (E & Ha & Hc). assert (Hn : ~ rfc3339_grammar text).
    { intros Hg%grammar_avoids. destruct (rfind_none 91 text Hg) as [Hx _]. congruence. }
    destruct (ends_with 93 text) eqn:Ee.
    2: { right. split; [|rewrite Hc; by eexists]. intros [Hg|(base & name & _ & _ & Ht)]; [done|]. pose proof (Hlast base name Ht). congruence. }
    unfold slice. rewrite decide_True by (apply rfind_lt in Ei; lia). rewrite !some_bind, drop_0, Nat.sub_0_r.
    destruct (shape_some (take i text)) as [[|] Hs]; rewrite Hs, some_bind; cbn [negb].
    + left. split; [|done]. right. apply shape_iff in Hs.
      unfold ends_with in Ee. apply bool_decide_eq_true in Ee. revert E Ha. generalize (drop (S i) text) as u. intros u E Ha.
      destruct u as [|x l _] using rev_ind; rewrite E in Ee; [by rewrite last_snoc in Ee|].
      change (91 :: l ++ [x]) with (([91] ++ l) ++ [x]) in Ee. rewrite app_assoc, last_snoc in Ee. injection Ee as ->.
      exists (take i text), l. split_and!; [done|by apply Forall_app in Ha as [? _]|exact E].
    + right. split; [|by eexists]. intros [Hg|(base & name & Hg & Hav & Ht)]; [done|].
      assert (Hi : rfind 91 text = Some (length base)).
      { rewrite Ht. apply rfind_last. apply Forall_app. split; [exact Hav|apply Forall_cons_2; [lia|by apply Forall_nil]]. }
      rewrite Ei in Hi. injection Hi as ->. rewrite Ht, take_app_length in Hs. apply shape_iff in Hg. congruence.
  - destruct Hr as [Ha Hc]. rewrite Hc. cbn [negb]. rewrite some_bind. destruct (shape_some text) as [[|] Hs]; rewrite Hs, some_bind; cbn [negb].
    + left. split; [|done]. left. by apply shape_iff.
    + right. split; [|by eexists]. intros [Hg%shape_iff|(base & name & _ & _ & ->)]; [congruence|].
      apply Forall_app in Ha as [_ Ha]. by apply Forall_cons_1 in Ha as [Ha _].
Qed.

(** C30: the strict formats are strict.  RFC 3339 (and ISO 8601) input is
    accepted for parsing exactly when it matches the grammar of RFC 3339, RFC
    9557 input exactly when it is such a text or one followed by a single
    annotation; everything else is a [Parse] error. *)
Theorem strict_formats text :
  strict_for rfc3339_grammar (fun t => parse_with_format t Rfc3339) text /\
  strict_for rfc3339_grammar (fun t => parse_with_format t Iso8601) text /\
  strict_for rfc9557_grammar (fun t => parse_with_format t Rfc9557) text.
Proof. split_and!; [apply strict_rfc3339|apply strict_rfc3339|apply strict_rfc9557]. Qed.
End Claims.

(** ** Concrete instances, and what the code does at the edges *)

Section Instances.
#[local] Existing Instance sample_data.

Definition sample_entry : ZoneEntry := mkEntry (lit "Test/Zone") (Embedded sample).
#[local] Instance sample_names : TzNames := {| ZONES := [sample_entry] |}.

#[local] Instance sample_laws : TzNamesLaws.
Proof. split. intros [|i] [|j] a b Hij Ha Hb; try lia; done. Qed.

#[local] Instance sample_civil : CivilNames.
Proof. intros e He. apply list_elem_of_singleton in He as ->. apply embedded_civil; [apply sample_wf|apply sample_separated]. Qed.

Definition sample_dt : DateTime := from_raw 2000000 500000000 7200 (Named sample_entry).

Lemma sample_dt_wf : wf_dt sample_dt.
Proof. destruct secs_limits as [H1 H2]. unfold wf_dt, small, OFFSET_LIMIT. rewrite H1, H2. cbn [sample_dt secs nanos dt_offset zone]. split_and!; try lia. vm_compute. reflexivity. Qed.

Lemma sample_printable : zone_printable sample_dt.
Proof.
  unfold zone_printable, printable, reserved. cbn [sample_dt zone]. split; [by apply list_elem_of_singleton|].
  unfold ascii, avoids. split_and!; try (apply (bool_decide_unpack _); vm_compute; exact I).
Qed.

Lemma parsing_is_safe_witness : sound (parse (lit "2024-02-29T12:00:00+01:00[Test/Zone]") None) wf_dt.
Proof. exact (proj1 (parsing_is_safe (lit "2024-02-29T12:00:00+01:00[Test/Zone]") Rfc3339 None I)). Defined.

Lemma assemble_correct_witness : wp (assemble 2024 2 30 12 0 60 0 None (Some 3600) None) (fun r => match r with
    | Ok dt => assembled 2024 2 30 12 0 60 0 None (Some 3600) None dt
    | Err e => refused 2024 2 30 12 0 60 0 None (Some 3600) None e end).
Proof. apply (assemble_correct 2024 2 30 12 0 60 0 None (Some 3600) None); [lia|apply reach_offset|exact I|exact I]. Defined.

Lemma display_round_trip_witness :
  write_datetime sample_dt = Some (Ok (lit "1970-01-24T05:33:20.500+02:00[Test/Zone]")) /\
  parse (lit "1970-01-24T05:33:20.500+02:00[Test/Zone]") None = Some (Ok sample_dt).
Proof.
  assert (Hy : year_fits sample_dt) by (unfold year_fits; vm_compute; split; discriminate).
  assert (Ho : short_offset sample_dt) by (unfold short_offset; simpl; lia).
  destruct (display_round_trip sample_dt None sample_dt_wf Hy Ho sample_printable I) as (text & Hw & Hp & _ & Hid).
  assert (E : write_datetime sample_dt = Some (Ok (lit "1970-01-24T05:33:20.500+02:00[Test/Zone]"))) by (vm_compute; reflexivity).
  split; [exact E|]. rewrite E in Hw. injection Hw as <-. rewrite Hid in Hp by done. exact Hp.
Defined.

Lemma format_round_trip_witness :
  parse_with_format (lit "Sat, 24 Jan 1970 05:33:20 +0200") Rfc2822 = Some (Ok (from_raw 2000000 0 7200 (Fixed 7200))).
Proof.
  assert (He : expressible sample_dt Rfc2822) by (split; [apply sample_printable|unfold short_offset; simpl; lia]).
  assert (Ht : try_format sample_dt Rfc2822 = Ok tt) by (vm_compute; reflexivity).
  destruct (format_round_trip sample_dt Rfc2822 sample_dt_wf Ht He) as (text & Hf & Hp & _).
  assert (E : Formatted_fmt sample_dt Rfc2822 = Some (Ok (lit "Sat, 24 Jan 1970 05:33:20 +0200"))) by (vm_compute; reflexivity).
  rewrite E in Hf. injection Hf as <-. exact Hp.
Defined.

Lemma http_forms_agree_witness :
  parse_http (lit "Sun, 06 Nov 1994 08:49:37 GMT") = Some (Ok (from_raw 784111777 0 0 Utc)) /\
  parse_http (lit "Sunday, 06-Nov-94 08:49:37 GMT") = Some (Ok (from_raw 784111777 0 0 Utc)) /\
  parse_http (lit "Sun Nov  6 08:49:37 1994") = Some (Ok (from_raw 784111777 0 0 Utc)).
Proof.
  assert (Hv : valid 1994 11 6) by (unfold valid; vm_compute; repeat split; discriminate).
  destruct (http_forms_agree Sunday 1994 11 6 8 49 37 Hv ltac:(lia) ltac:(lia) ltac:(lia)) as [H1 H2].
  destruct (H1 ltac:(lia)) as [Hi Ha]. split; [exact Hi|]. split; [exact (H2 ltac:(lia))|exact Ha].
Defined.

(** Both signs: the grammar of the comment has one. *)
Example two_signs : parse (lit "-+0001-01-01") None = Some (Ok (from_raw (local_of (-1) 1 1 0 0 0) 0 0 Utc)).
Proof. vm_compute. reflexivity. Qed.

(** Texts that the crate prints and does not read: an offset of a day, and the
    HTTP date of a year that is 0 in the zone of the value and -1 in UTC. *)
Example unread_offset : let dt := from_raw 0 0 90000 (Fixed 90000) in
  try_format dt Rfc3339 = Ok tt /\ wp (write_format dt Rfc3339) (fun text =>
    parse_with_format text Rfc3339 = Some (Err (TimeZone.parse "offset is out of range"))).
Proof. split; vm_compute; reflexivity. Qed.

Example unread_http : let dt := from_raw (-62167219200 - 3600) 0 3600 (Fixed 3600) in
  try_format dt HttpDate = Ok tt /\ wp (write_format dt HttpDate) (fun text =>
    wp (parse_with_format text HttpDate) (fun r => match r with Ok _ => False | Err e => kind e = Parse end)).
Proof. split; vm_compute; reflexivity. Qed.
End Instances.

End TimeParseTheorems.
