(* ===== verification/CronUnits.v ===== *)
(** * cron: the fields of an expression

    src/cron/src/{ordinal,specifier,error}.rs, src/cron/src/time_unit/ and the
    part of parsing.rs that follows the grammar: what a parsed field denotes,
    and the schedules of the shorthands.  The grammar itself is written with
    the nom combinators and is not modelled.  A [BTreeSet<u32>] is the
    ascending list of its elements, a text the list of its bytes. *)
From Stdlib Require Import ZArith Lia String Sorted.
From stdpp Require Import base list numbers option sorting sets.
From S2P Require Import Prelude Words.

#[local] Close Scope string_scope.

Module CronUnits.

(** ** Sets of ordinals *)

Notation Ordinal := Z (only parsing).
Notation OrdinalSet := (list Z) (only parsing).

(** [BTreeSet::insert]. *)
Fixpoint insert (x : Ordinal) (s : OrdinalSet) : OrdinalSet :=
  match s with
  | [] => [x]
  | y :: s' => if x <? y then x :: s else if x =? y then s else y :: insert x s'
  end.

(** [iter.collect()] into a set. *)
Definition collect (l : list Ordinal) : OrdinalSet := foldl (fun s x => insert x s) [] l.

(** [BTreeSet::contains]. *)
Definition contains (s : OrdinalSet) (x : Ordinal) : bool := existsb (Z.eqb x) s.

(** [BTreeSet::range] with included or absent bounds: it panics when the lower
    one is above the upper one. *)
Definition range (s : OrdinalSet) (lo hi : option Ordinal) : option (list Ordinal) :=
  match lo, hi with
  | Some a, Some b => if b <? a then None else Some (List.filter (fun x => (a <=? x) && (x <=? b)) s)
  | Some a, None => Some (List.filter (fun x => a <=? x) s)
  | None, Some b => Some (List.filter (fun x => x <=? b) s)
  | None, None => Some s
  end.

(** [Iterator::step_by]: the first element, then one in [step]. *)
Fixpoint step_from (wait step : Z) (l : list Ordinal) : list Ordinal :=
  match l with
  | [] => []
  | x :: l' => if wait =? 0 then x :: step_from (step - 1) step l' else step_from (wait - 1) step l'
  end.
Definition step_by (step : Z) (l : list Ordinal) : list Ordinal := step_from 0 step l.

(** [start..end]. *)
Definition ordinals_between (start bound : Ordinal) : list Ordinal := seqZ start (bound - start).

(** ** Specifiers and errors *)

Inductive Specifier :=
| All | Point (ordinal : Ordinal) | Range (start bound : Ordinal) | NamedRange (start bound : list Z).

Inductive RootSpecifier :=
| Spec (specifier : Specifier) | Period (start : Specifier) (step : Z) | NamedPoint (name : list Z).

#[export] Instance specifier_eq_dec : EqDecision Specifier.
Proof. solve_decision. Defined.
#[export] Instance root_eq_dec : EqDecision RootSpecifier.
Proof. solve_decision. Defined.

Inductive ErrorKind := Expression (expr : list Z).
Record Error := from_kind { kind : ErrorKind }.

Definition fmt (self : Error) : list Z :=
  match kind self with Expression expr => lit "Invalid expression: " ++ expr end.

Definition expression {A} (text : list Z) : result A Error := Err (from_kind (Expression text)).

(** ** The interface of a unit of time *)

Class TimeUnitField (Self : Type) := {
  from_optional_ordinal_set : option OrdinalSet -> Self;
  name : list Z;
  inclusive_min : Ordinal;
  inclusive_max : Ordinal;
  ordinals : Self -> OrdinalSet;
  ordinal_from_name : list Z -> result Ordinal Error;
}.
Arguments name Self {_}.
Arguments inclusive_min Self {_}.
Arguments inclusive_max Self {_}.
Arguments ordinal_from_name Self {_} _.

Definition supported_ordinals (inclusive_min inclusive_max : Ordinal) : OrdinalSet :=
  collect (ordinals_between inclusive_min (inclusive_max + 1)).

(** The default of [ordinal_from_name]. *)
Definition no_names (unit text : list Z) : result Ordinal Error :=
  expression (lit "The '" ++ unit ++ lit "' field does not support using names. '" ++ text ++ lit "' specified.").

Section Methods.
Context (Self : Type) `{!TimeUnitField Self}.

Definition from_ordinal_set (ordinal_set : OrdinalSet) : Self := from_optional_ordinal_set (Some ordinal_set).
Definition from_ordinal (ordinal : Ordinal) : Self := from_ordinal_set (collect [ordinal]).
Definition all : Self := from_optional_ordinal_set None.

Definition validate_ordinal (ordinal : Ordinal) : result Ordinal Error :=
  if ordinal <? inclusive_min Self then
    expression (name Self ++ lit " must be greater than or equal to " ++ show_dec (inclusive_min Self)
      ++ lit ". ('" ++ show_dec ordinal ++ lit "' specified.)")
  else if inclusive_max Self <? ordinal then
    expression (name Self ++ lit " must be less than " ++ show_dec (inclusive_max Self)
      ++ lit ". ('" ++ show_dec ordinal ++ lit "' specified.)")
  else Ok ordinal.

Definition ordinals_from_specifier (specifier : Specifier) : result OrdinalSet Error :=
  match specifier with
  | All => Ok (supported_ordinals (inclusive_min Self) (inclusive_max Self))
  | Point ordinal => Ok (collect [ordinal])
  | Range start bound =>
      let invalid := expression (lit "Invalid range for " ++ name Self ++ lit ": " ++ show_dec start ++ lit "-" ++ show_dec bound) in
      match validate_ordinal start, validate_ordinal bound with
      | Ok start, Ok bound => if start <=? bound then Ok (collect (ordinals_between start (bound + 1))) else invalid
      | _, _ => invalid
      end
  | NamedRange start_name end_name =>
      let? start := ordinal_from_name Self start_name in
      let? bound := ordinal_from_name Self end_name in
      let invalid := expression (lit "Invalid named range for " ++ name Self ++ lit ": " ++ start_name ++ lit "-" ++ end_name) in
      match validate_ordinal start, validate_ordinal bound with
      | Ok start, Ok bound => if start <=? bound then Ok (collect (ordinals_between start (bound + 1))) else invalid
      | _, _ => invalid
      end
  end.

Definition ordinals_from_root_specifier (root_specifier : RootSpecifier) : result OrdinalSet Error :=
  match root_specifier with
  | Spec specifier => ordinals_from_specifier specifier
  | Period start step =>
      if step =? 0 then expression (lit "range step cannot be zero") else
      let? base_set :=
        match start with
        | Point start =>
            let? start := validate_ordinal start in
            Ok (collect (ordinals_between start (inclusive_max Self + 1)))
        | specifier => ordinals_from_specifier specifier
        end in
      Ok (collect (step_by step base_set))
  | NamedPoint name =>
      let? ordinal := ordinal_from_name Self name in
      Ok (collect [ordinal])
  end.

(** The inner loop of [from_field]: validate and insert. *)
Fixpoint insert_validated (specifier_ordinals : list Ordinal) (ordinals : OrdinalSet) : result OrdinalSet Error :=
  match specifier_ordinals with
  | [] => Ok ordinals
  | ordinal :: rest =>
      let? ordinal := validate_ordinal ordinal in
      insert_validated rest (insert ordinal ordinals)
  end.

Fixpoint collect_specifiers (specifiers : list RootSpecifier) (ordinals : OrdinalSet) : result OrdinalSet Error :=
  match specifiers with
  | [] => Ok ordinals
  | specifier :: rest =>
      let? specifier_ordinals := ordinals_from_root_specifier specifier in
      let? ordinals := insert_validated specifier_ordinals ordinals in
      collect_specifiers rest ordinals
  end.

Definition from_field (specifiers : list RootSpecifier) : result Self Error :=
  if decide (specifiers = [Spec All]) then Ok all else
  let? ordinals := collect_specifiers specifiers [] in
  Ok (from_ordinal_set ordinals).

(** The [TimeUnitSpec] implementation. *)
Definition includes (self : Self) (ordinal : Ordinal) : bool := contains (ordinals self) ordinal.
Definition iter (self : Self) : list Ordinal := ordinals self.
Definition unit_range (self : Self) (lo hi : option Ordinal) : option (list Ordinal) := range (ordinals self) lo hi.
Definition count (self : Self) : Z := u32 (Z.of_nat (length (ordinals self))).
Definition is_all (self : Self) : bool :=
  let max_supported_ordinals := inclusive_max Self - inclusive_min Self + 1 in
  Z.of_nat (length (ordinals self)) =? max_supported_ordinals.
Definition unit_eq (self other : Self) : bool := bool_decide (ordinals self = ordinals other).
End Methods.

(** ** The seven units *)

(** [str::to_lowercase], on the bytes of ASCII letters: no name below holds a
    letter that another character lowers to. *)
Definition lower (c : Z) : Z := if (65 <=? c) && (c <=? 90) then c + 32 else c.
Definition to_lowercase (s : list Z) : list Z := lower <$> s.

(** The arms of a [match] on names. *)
Definition name_arm (text : list Z) (names : list string) : bool :=
  existsb (fun n => bool_decide (text = lit n)) names.
Fixpoint match_names (text : list Z) (arms : list (list string * Ordinal)) : option Ordinal :=
  match arms with
  | [] => None
  | (names, ordinal) :: rest => if name_arm text names then Some ordinal else match_names text rest
  end.

Definition month_arms : list (list string * Ordinal) :=
  [(["jan"; "january"], 1); (["feb"; "february"], 2); (["mar"; "march"], 3); (["apr"; "april"], 4);
   (["may"], 5); (["jun"; "june"], 6); (["jul"; "july"], 7); (["aug"; "august"], 8);
   (["sep"; "september"], 9); (["oct"; "october"], 10); (["nov"; "november"], 11); (["dec"; "december"], 12)]%string.

Definition month_from_name (text : list Z) : result Ordinal Error :=
  match match_names (to_lowercase text) month_arms with
  | Some ordinal => Ok ordinal
  | None => expression (lit "'" ++ text ++ lit "' is not a valid month name.")
  end.

Definition day_arms : list (list string * Ordinal) :=
  [(["sun"; "sunday"], 1); (["mon"; "monday"], 2); (["tue"; "tues"; "tuesday"], 3); (["wed"; "wednesday"], 4);
   (["thu"; "thurs"; "thursday"], 5); (["fri"; "friday"], 6); (["sat"; "saturday"], 7)]%string.

Definition day_of_week_from_name (text : list Z) : result Ordinal Error :=
  match match_names (to_lowercase text) day_arms with
  | Some ordinal => Ok ordinal
  | None => expression (lit "'" ++ text ++ lit "' is not a valid day of the week.")
  end.

Record Seconds := mkSeconds { seconds_ordinals : option OrdinalSet }.
Record Minutes := mkMinutes { minutes_ordinals : option OrdinalSet }.
Record Hours := mkHours { hours_ordinals : option OrdinalSet }.
Record DaysOfMonth := mkDaysOfMonth { days_of_month_ordinals : option OrdinalSet }.
Record Months := mkMonths { months_ordinals : option OrdinalSet }.
Record DaysOfWeek := mkDaysOfWeek { days_of_week_ordinals : option OrdinalSet }.
Record Years := mkYears { years_ordinals : option OrdinalSet }.

(** [ordinals]: the set, or the static [ALL]. *)
Definition set_or_all (lo hi : Ordinal) (s : option OrdinalSet) : OrdinalSet :=
  match s with Some ordinal_set => ordinal_set | None => supported_ordinals lo hi end.

#[export] Instance SecondsField : TimeUnitField Seconds := {|
  from_optional_ordinal_set := mkSeconds; name := lit "Seconds"; inclusive_min := 0; inclusive_max := 59;
  ordinals self := set_or_all 0 59 (seconds_ordinals self); ordinal_from_name := no_names (lit "Seconds") |}.
#[export] Instance MinutesField : TimeUnitField Minutes := {|
  from_optional_ordinal_set := mkMinutes; name := lit "Minutes"; inclusive_min := 0; inclusive_max := 59;
  ordinals self := set_or_all 0 59 (minutes_ordinals self); ordinal_from_name := no_names (lit "Minutes") |}.
#[export] Instance HoursField : TimeUnitField Hours := {|
  from_optional_ordinal_set := mkHours; name := lit "Hours"; inclusive_min := 0; inclusive_max := 23;
  ordinals self := set_or_all 0 23 (hours_ordinals self); ordinal_from_name := no_names (lit "Hours") |}.
#[export] Instance DaysOfMonthField : TimeUnitField DaysOfMonth := {|
  from_optional_ordinal_set := mkDaysOfMonth; name := lit "Days of Month"; inclusive_min := 1; inclusive_max := 31;
  ordinals self := set_or_all 1 31 (days_of_month_ordinals self); ordinal_from_name := no_names (lit "Days of Month") |}.
#[export] Instance MonthsField : TimeUnitField Months := {|
  from_optional_ordinal_set := mkMonths; name := lit "Months"; inclusive_min := 1; inclusive_max := 12;
  ordinals self := set_or_all 1 12 (months_ordinals self); ordinal_from_name := month_from_name |}.
#[export] Instance DaysOfWeekField : TimeUnitField DaysOfWeek := {|
  from_optional_ordinal_set := mkDaysOfWeek; name := lit "Days of Week"; inclusive_min := 1; inclusive_max := 7;
  ordinals self := set_or_all 1 7 (days_of_week_ordinals self); ordinal_from_name := day_of_week_from_name |}.
#[export] Instance YearsField : TimeUnitField Years := {|
  from_optional_ordinal_set := mkYears; name := lit "Years"; inclusive_min := 1970; inclusive_max := 2100;
  ordinals self := set_or_all 1970 2100 (years_ordinals self); ordinal_from_name := no_names (lit "Years") |}.

(** ** Schedules of the shorthands *)

Record ScheduleFields := mkFields {
  years : Years; days_of_week : DaysOfWeek; months : Months; days_of_month : DaysOfMonth;
  hours : Hours; minutes : Minutes; seconds : Seconds }.

(** [ScheduleFields::new]. *)
Definition new_fields (seconds : Seconds) (minutes : Minutes) (hours : Hours) (days_of_month : DaysOfMonth)
    (months : Months) (days_of_week : DaysOfWeek) (years : Years) : ScheduleFields :=
  mkFields years days_of_week months days_of_month hours minutes seconds.

(** The fields each shorthand stands for, its tag having been read. *)
Definition shorthand_yearly : ScheduleFields :=
  new_fields (from_ordinal _ 0) (from_ordinal _ 0) (from_ordinal _ 0) (from_ordinal _ 1) (from_ordinal _ 1) (all _) (all _).
Definition shorthand_monthly : ScheduleFields :=
  new_fields (from_ordinal _ 0) (from_ordinal _ 0) (from_ordinal _ 0) (from_ordinal _ 1) (all _) (all _) (all _).
Definition shorthand_weekly : ScheduleFields :=
  new_fields (from_ordinal _ 0) (from_ordinal _ 0) (from_ordinal _ 0) (all _) (all _) (from_ordinal _ 1) (all _).
Definition shorthand_daily : ScheduleFields :=
  new_fields (from_ordinal _ 0) (from_ordinal _ 0) (from_ordinal _ 0) (all _) (all _) (all _) (all _).
Definition shorthand_hourly : ScheduleFields :=
  new_fields (from_ordinal _ 0) (from_ordinal _ 0) (all _) (all _) (all _) (all _) (all _).

(** ** Specification *)

(** A set in order, as [BTreeSet] keeps it. *)
Definition ascending (s : OrdinalSet) : Prop := StronglySorted Z.lt s.

(** What a client may rely on, and what the seven units provide. *)
Class TimeUnitLaws (Self : Type) `{!TimeUnitField Self} := {
  unit_bounds : 0 <= inclusive_min Self <= inclusive_max Self /\ inclusive_max Self < 2 ^ 31;
  ordinals_some s : ordinals (from_optional_ordinal_set (Some s)) = s;
  ordinals_none : ordinals (from_optional_ordinal_set None) = supported_ordinals (inclusive_min Self) (inclusive_max Self);
}.

#[export] Instance seconds_laws : TimeUnitLaws Seconds.
Proof. split; [by vm_compute|done|done]. Qed.
#[export] Instance minutes_laws : TimeUnitLaws Minutes.
Proof. split; [by vm_compute|done|done]. Qed.
#[export] Instance hours_laws : TimeUnitLaws Hours.
Proof. split; [by vm_compute|done|done]. Qed.
#[export] Instance days_of_month_laws : TimeUnitLaws DaysOfMonth.
Proof. split; [by vm_compute|done|done]. Qed.
#[export] Instance months_laws : TimeUnitLaws Months.
Proof. split; [by vm_compute|done|done]. Qed.
#[export] Instance days_of_week_laws : TimeUnitLaws DaysOfWeek.
Proof. split; [by vm_compute|done|done]. Qed.
#[export] Instance years_laws : TimeUnitLaws Years.
Proof. split; [by vm_compute|done|done]. Qed.

(** The invariant of a unit: its ordinals in order and within its bounds. *)
Definition wf_unit {Self} `{!TimeUnitField Self} (self : Self) : Prop :=
  ascending (ordinals self) /\ Forall (fun x => inclusive_min Self <= x <= inclusive_max Self) (ordinals self).

Section Meaning.
Context (Self : Type) `{!TimeUnitField Self}.

(** The interval a specifier writes; [None] for an unknown name. *)
Definition span (specifier : Specifier) : option (Z * Z) :=
  match specifier with
  | All => Some (inclusive_min Self, inclusive_max Self)
  | Point p => Some (p, p)
  | Range a b => Some (a, b)
  | NamedRange a b =>
      match ordinal_from_name Self a, ordinal_from_name Self b with Ok x, Ok y => Some (x, y) | _, _ => None end
  end.

(** The progression a list item writes: first, last and step.  A point with a
    step runs to the end of the unit. *)
Definition meaning (r : RootSpecifier) : option (Z * Z * Z) :=
  match r with
  | Spec specifier => '(lo, hi) ← span specifier; Some (lo, hi, 1)
  | Period (Point p) step => Some (p, inclusive_max Self, step)
  | Period specifier step => '(lo, hi) ← span specifier; Some (lo, hi, step)
  | NamedPoint text => match ordinal_from_name Self text with Ok x => Some (x, x, 1) | Err _ => None end
  end.

Definition denotes (r : RootSpecifier) (x : Ordinal) : Prop :=
  exists lo hi step, meaning r = Some (lo, hi, step) /\ lo <= x <= hi /\ (x - lo) mod step = 0.

Definition meaningful (r : RootSpecifier) : Prop :=
  exists lo hi step, meaning r = Some (lo, hi, step) /\
    inclusive_min Self <= lo <= hi /\ hi <= inclusive_max Self /\ step <> 0.
End Meaning.

(** Steps are unsigned. *)
Definition unsigned (r : RootSpecifier) : Prop := match r with Period _ step => 0 <= step | _ => True end.

(** ** Sets *)

Lemma ascending_cons x s : ascending (x :: s) <-> (forall y, y ∈ s -> x < y) /\ ascending s.
Proof.
  unfold ascending. split.
  - intros H. apply StronglySorted_inv in H as [H1 H2]. rewrite Forall_forall in H2. done.
  - intros [H1 H2]. constructor; [done|]. by apply Forall_forall.
Qed.

Lemma contains_spec s x : contains s x = true <-> x ∈ s.
Proof.
  unfold contains. rewrite existsb_exists. split.
  - intros (y & Hy & He). apply Z.eqb_eq in He as ->. by apply list_elem_of_In.
  - intros Hx. exists x. split; [by apply list_elem_of_In|apply Z.eqb_refl].
Qed.

Lemma insert_elem x s y : y ∈ insert x s <-> y = x \/ y ∈ s.
Proof.
  induction s as [|z s IH]; simpl; [by rewrite list_elem_of_singleton, elem_of_nil; tauto|].
  destruct (x <? z); [by rewrite elem_of_cons|].
  destruct (Z.eqb_spec x z) as [->|]; rewrite !elem_of_cons; [tauto|]. rewrite IH. tauto.
Qed.

Lemma insert_ascending x s : ascending s -> ascending (insert x s).
Proof.
  induction s as [|z s IH]; simpl; intros H; [by repeat constructor|]. pose proof H as [H1 H2]%ascending_cons.
  destruct (Z.ltb_spec x z).
  - apply ascending_cons. split; [|done]. intros y [->|Hy]%elem_of_cons; [done|]. specialize (H1 y Hy). lia.
  - destruct (Z.eqb_spec x z) as [->|]; [done|]. apply ascending_cons. split; [|by apply IH].
    intros y [->|Hy]%insert_elem; [lia|by apply H1].
Qed.

Lemma insert_last x s : Forall (fun y => y < x) s -> insert x s = s ++ [x].
Proof.
  induction 1 as [|y s Hy Hs IH]; simpl; [done|]. rewrite IH.
  destruct (Z.ltb_spec x y); [lia|]. destruct (Z.eqb_spec x y); [lia|done].
Qed.

Lemma foldl_insert l : forall s, ascending s ->
  ascending (foldl (fun s x => insert x s) s l) /\
  (forall y, y ∈ foldl (fun s x => insert x s) s l <-> y ∈ s \/ y ∈ l).
Proof.
  induction l as [|x l IH]; intros s Hs; simpl; [split; [done|set_solver]|].
  destruct (IH (insert x s)) as [H1 H2]; [by apply insert_ascending|]. split; [done|].
  intros y. rewrite H2, insert_elem. set_solver.
Qed.

Lemma collect_ascending l : ascending (collect l).
Proof. unfold collect. apply (proj1 (foldl_insert l [] ltac:(constructor))). Qed.

Lemma collect_elem l y : y ∈ collect l <-> y ∈ l.
Proof. unfold collect. rewrite (proj2 (foldl_insert l [] ltac:(constructor))). set_solver. Qed.

Lemma collect_sorted l : ascending l -> collect l = l.
Proof.
  induction l as [|x l IH] using rev_ind; intros H; [done|]. unfold collect. rewrite foldl_snoc.
  pose proof (StronglySorted_app_1_l _ _ _ H) as Hl. fold (collect l). rewrite (IH Hl).
  apply insert_last. apply Forall_forall. intros y Hy. eapply StronglySorted_app_1_elem_of; [exact H|done|set_solver].
Qed.

Lemma seqZ_ascending lo n : ascending (seqZ lo n).
Proof.
  destruct (Z.le_gt_cases n 0); [by rewrite seqZ_nil by done; constructor|].
  revert lo. pattern n. apply Zlt_lower_bound_ind with (z := 0); [|lia]. clear n H. intros n IH Hn lo.
  destruct (Z.eq_dec n 0) as [->|]; [constructor|]. rewrite seqZ_cons by lia. apply ascending_cons. split.
  - intros y Hy%elem_of_seqZ. lia.
  - apply IH. lia.
Qed.

Lemma between_eq a b : collect (ordinals_between a (b + 1)) = seqZ a (b + 1 - a).
Proof. apply collect_sorted, seqZ_ascending. Qed.

Lemma step_from_elem k n : forall w lo x, 0 <= w < k ->
  x ∈ step_from w k (seqZ lo n) <-> lo <= x < lo + n /\ (x - lo - w) mod k = 0.
Proof.
  destruct (Z.le_gt_cases n 0); [intros; rewrite seqZ_nil by done; set_solver by lia|].
  pattern n. apply Zlt_lower_bound_ind with (z := 0); [|lia]. clear n H. intros n IH Hn w lo x Hw.
  destruct (Z.eq_dec n 0) as [->|]; [rewrite seqZ_nil by done; set_solver by lia|]. rewrite seqZ_cons by lia. cbn [step_from].
  unfold Z.pred, Z.succ. destruct (Z.eqb_spec w 0) as [->|Hw0].
  - rewrite elem_of_cons, (IH (n + -1) ltac:(lia) (k - 1)) by lia.
    replace (x - (lo + 1) - (k - 1)) with (x - lo - 0 + (-1) * k) by lia. rewrite Z.mod_add by lia.
    split; [intros [->|[H1 H2]]|intros [H1 H2]].
    + split; [lia|]. by replace (lo - lo - 0) with 0 by lia.
    + split; [lia|done].
    + destruct (Z.eq_dec x lo); [by left|right; split; [lia|done]].
  - rewrite (IH (n + -1) ltac:(lia) (w - 1)) by lia. replace (x - (lo + 1) - (w - 1)) with (x - lo - w) by lia.
    split; intros [H1 H2]; (split; [|done]); [lia|]. destruct (Z.eq_dec x lo) as [->|]; [|lia].
    exfalso. replace (lo - lo - w) with (k - w + (-1) * k) in H2 by lia. rewrite Z.mod_add, Z.mod_small in H2 by lia. lia.
Qed.

Lemma range_elem s lo hi l : range s lo hi = Some l -> ascending s ->
  ascending l /\ forall x, x ∈ l <-> x ∈ s /\ from_option (fun a => a <= x) True lo /\ from_option (fun b => x <= b) True hi.
Proof.
  assert (Hf : forall p, ascending s -> ascending (List.filter p s)).
  { intros p. induction s as [|y s IH]; [done|]. intros [H1 H2]%ascending_cons. simpl. destruct (p y); [|by apply IH].
    apply ascending_cons. split; [|by apply IH]. intros z Hz. apply H1.
    apply list_elem_of_In, filter_In in Hz as [Hz _]. by apply list_elem_of_In. }
  assert (He : forall p x, x ∈ List.filter p s <-> x ∈ s /\ p x = true)
    by (intros p x; rewrite !list_elem_of_In; apply filter_In).
  unfold range. intros Hr Hs. destruct lo as [a|], hi as [b|]; simpl; [destruct (b <? a); [done|]|..]; injection Hr as <-;
    (split; [by first [apply Hf|exact Hs]|]); intros x; rewrite ?He, ?andb_true_iff, ?Z.leb_le; intuition.
Qed.


(** ** Fields *)

Section Fields.
Context {Self : Type} `{!TimeUnitField Self, !TimeUnitLaws Self}.

Notation in_unit x := (inclusive_min Self <= x <= inclusive_max Self).

Lemma validate_spec x : match validate_ordinal Self x with Ok y => y = x /\ in_unit x | Err _ => ~ in_unit x end.
Proof.
  unfold validate_ordinal. destruct (Z.ltb_spec x (inclusive_min Self)); simpl; [lia|].
  destruct (Z.ltb_spec (inclusive_max Self) x); simpl; [lia|done].
Qed.

(** Both ranges of [ordinals_from_specifier]. *)
Lemma range_spec a b text :
  match (match validate_ordinal Self a, validate_ordinal Self b with
         | Ok a, Ok b => if a <=? b then Ok (collect (ordinals_between a (b + 1))) else expression text
         | _, _ => expression text end) with
  | Ok s => a <= b /\ s = seqZ a (b + 1 - a) /\ inclusive_min Self <= a /\ b <= inclusive_max Self
  | Err _ => ~ (inclusive_min Self <= a <= b /\ b <= inclusive_max Self)
  end.
Proof.
  pose proof (validate_spec a) as Ha. pose proof (validate_spec b) as Hb.
  destruct (validate_ordinal Self a) as [a'|]; [|simpl; lia]. destruct (validate_ordinal Self b) as [b'|]; [|simpl; lia].
  destruct Ha as [-> Ha], Hb as [-> Hb]. destruct (Z.leb_spec a b); [|simpl; lia]. rewrite between_eq. split_and!; [lia|done|lia|lia].
Qed.

Lemma specifier_spec sp : match ordinals_from_specifier Self sp with
  | Ok s => exists lo hi, span Self sp = Some (lo, hi) /\ lo <= hi /\ s = seqZ lo (hi + 1 - lo) /\
      ((exists p, sp = Point p) \/ inclusive_min Self <= lo /\ hi <= inclusive_max Self)
  | Err _ => forall lo hi, span Self sp = Some (lo, hi) -> ~ (inclusive_min Self <= lo <= hi /\ hi <= inclusive_max Self) end.
Proof.
  pose proof unit_bounds as Hu. destruct sp as [|p|a b|a b]; cbn [ordinals_from_specifier span].
  - eexists _, _. split_and!; [done|lia|apply between_eq|right; lia].
  - exists p, p. split_and!; [done|lia| |by left; eexists].
    rewrite seqZ_cons by lia. unfold Z.succ, Z.pred. by replace (p + 1 - p + -1) with 0 by lia.
  - match goal with |- context [expression ?t] => pose proof (range_spec a b t) as H end. revert H.
    match goal with |- match ?m with _ => _ end -> _ => destruct m as [s|e] end.
    + intros (H1 & H2 & H3 & H4). exists a, b. split_and!; auto.
    + by intros H lo hi [= <- <-].
  - destruct (ordinal_from_name Self a) as [x|e]; simpl; [|done].
    destruct (ordinal_from_name Self b) as [y|e]; simpl; [|done].
    match goal with |- context [expression ?t] => pose proof (range_spec x y t) as H end. revert H.
    match goal with |- match ?m with _ => _ end -> _ => destruct m as [s|e] end.
    + intros (H1 & H2 & H3 & H4). exists x, y. split_and!; auto.
    + by intros H lo hi [= <- <-].
Qed.

(** One item of a list: the progression it means, or an error. *)
Definition item_ok (r : RootSpecifier) (s : OrdinalSet) : Prop :=
  exists lo hi step, meaning Self r = Some (lo, hi, step) /\ 0 < step /\ lo <= hi /\
    (forall x, x ∈ s <-> lo <= x <= hi /\ (x - lo) mod step = 0) /\
    (lo = hi \/ inclusive_min Self <= lo /\ hi <= inclusive_max Self).

Lemma stepped lo hi step x : 0 < step ->
  x ∈ collect (step_by step (seqZ lo (hi + 1 - lo))) <-> lo <= x <= hi /\ (x - lo) mod step = 0.
Proof. intros Hs. unfold step_by. rewrite collect_elem, step_from_elem, Z.sub_0_r by lia. intuition lia. Qed.

Lemma period_spec sp step : 0 < step -> (forall p, sp <> Point p) ->
  match (let? base_set := ordinals_from_specifier Self sp in Ok (collect (step_by step base_set))) with
  | Ok s => item_ok (Period sp step) s
  | Err _ => ~ meaningful Self (Period sp step) end.
Proof.
  intros Hs Hp. pose proof (specifier_spec sp) as H.
  assert (Hm : meaning Self (Period sp step) = '(lo, hi) ← span Self sp; Some (lo, hi, step)) by (destruct sp; [done|by destruct (Hp ordinal)|done|done]).
  unfold item_ok, meaningful. rewrite Hm. destruct (ordinals_from_specifier Self sp) as [s|e]; simpl.
  - destruct H as (lo & hi & -> & Hle & -> & [[p ->]|Hb]); [by destruct (Hp p)|]. simpl.
    exists lo, hi, step. split_and!; [done|done|done|intros x; by apply stepped|by right].
  - intros (lo & hi & k & Hk & H1 & H2 & _). destruct (span Self sp) as [[a b]|]; simpl in Hk; [|done].
    injection Hk as -> -> ->. by destruct (H lo hi eq_refl).
Qed.

Lemma item_spec r : unsigned r -> match ordinals_from_root_specifier Self r with
  | Ok s => item_ok r s | Err _ => ~ meaningful Self r end.
Proof.
  destruct r as [sp|sp step|text]; intros Hr; cbn [ordinals_from_root_specifier].
  - pose proof (specifier_spec sp) as H. unfold item_ok, meaningful, meaning. destruct (ordinals_from_specifier Self sp) as [s|e].
    + destruct H as (lo & hi & Hsp & Hle & -> & Hb). rewrite Hsp. simpl. exists lo, hi, 1. split_and!; [done|lia|done| |].
      * intros x. rewrite elem_of_seqZ, Z.mod_1_r. intuition lia.
      * destruct Hb as [[p ->]|Hb]; [|by right]. injection Hsp as <- <-. by left.
    + intros (lo & hi & k & Hk & H1 & H2 & _). destruct (span Self sp) as [[a b]|]; simpl in Hk; [|done].
      injection Hk as -> -> _. by destruct (H lo hi eq_refl).
  - simpl in Hr. destruct (Z.eqb_spec step 0) as [->|Hs0].
    { intros (lo & hi & k & Hk & _ & _ & Hk0). apply Hk0. unfold meaning in Hk. destruct sp; try (injection Hk; intros; congruence);
        destruct (span Self _) as [[a b]|]; simpl in Hk; congruence. }
    assert (Hp : (exists p, sp = Point p) \/ forall p, sp <> Point p) by (destruct sp; eauto).
    destruct Hp as [[p ->]|Hp].
    + pose proof (validate_spec p) as Hv. unfold item_ok, meaningful. cbn [meaning]. destruct (validate_ordinal Self p) as [q|e]; simpl.
      * destruct Hv as [-> Hv]. exists p, (inclusive_max Self), step. rewrite between_eq.
        split_and!; [done|lia|lia|intros x; by apply stepped; lia|by right; lia].
      * intros (lo & hi & k & [= <- <- <-] & H1 & H2 & _). lia.
    + pose proof (period_spec sp step ltac:(lia) Hp) as H. by destruct sp; [|by destruct (Hp ordinal)|..].
  - unfold item_ok, meaningful, meaning. destruct (ordinal_from_name Self text) as [x|e]; cbn [rbind]; [|by intros (? & ? & ? & ? & _)].
    exists x, x, 1. split_and!; [done|lia|lia| |by left]. intros y. rewrite collect_elem, list_elem_of_singleton, Z.mod_1_r. intuition lia.
Qed.

Lemma insert_validated_spec l acc : match insert_validated Self l acc with
  | Ok s => Forall (fun x => in_unit x) l /\ s = foldl (fun s x => insert x s) acc l
  | Err _ => ~ Forall (fun x => in_unit x) l end.
Proof.
  revert acc. induction l as [|x l IH]; intros acc; simpl; [by split; [constructor|]|].
  pose proof (validate_spec x) as Hv. destruct (validate_ordinal Self x) as [y|e]; simpl.
  - destruct Hv as [-> Hv]. specialize (IH (insert x acc)). destruct (insert_validated Self l _) as [s|e]; [|by inversion 1].
    destruct IH as [H1 H2]. split; [by constructor|done].
  - by inversion 1.
Qed.

(** Checking every element of an item is checking the ends of what it means. *)
Lemma item_bounds r s : item_ok r s -> Forall (fun x => in_unit x) s <-> meaningful Self r.
Proof.
  intros (lo & hi & k & Hm & Hk & Hle & Hs & Hb). unfold meaningful. rewrite Hm, Forall_forall. split.
  - intros H. assert (Hlo : lo ∈ s) by (apply Hs; rewrite Z.sub_diag, Z.mod_0_l by lia; lia). specialize (H lo Hlo).
    exists lo, hi, k. split_and!; [done|..]; lia.
  - intros (lo' & hi' & k' & [= <- <- <-] & H1 & H2 & _) x Hx. apply Hs in Hx. lia.
Qed.

Lemma collect_spec specs : Forall unsigned specs -> forall acc, ascending acc -> Forall (fun x => in_unit x) acc ->
  match collect_specifiers Self specs acc with
  | Ok s => ascending s /\ Forall (fun x => in_unit x) s /\ Forall (meaningful Self) specs /\
      (forall x, x ∈ s <-> x ∈ acc \/ exists r, r ∈ specs /\ denotes Self r x)
  | Err _ => ~ Forall (meaningful Self) specs end.
Proof.
  induction 1 as [|r specs Hr Hspecs IH]; intros acc Hacc Hin; simpl; [split_and!; [done|done|constructor|set_solver]|].
  pose proof (item_spec r Hr) as Hi. destruct (ordinals_from_root_specifier Self r) as [s|e]; simpl; [|by inversion 1].
  pose proof (insert_validated_spec s acc) as Hv. pose proof (item_bounds r s Hi) as Hb.
  destruct (insert_validated Self s acc) as [acc'|e]; simpl; [|by inversion 1; subst; destruct Hv; apply Hb].
  destruct Hv as [Hv ->]. destruct (foldl_insert s acc Hacc) as [Ha Hel].
  specialize (IH (foldl (fun s x => insert x s) acc s) Ha).
  destruct (collect_specifiers Self specs _) as [t|e].
  - destruct IH as (H1 & H2 & H3 & H4); [apply Forall_forall; intros x [Hx|Hx]%Hel; revert x Hx; by apply Forall_forall|].
    split_and!; [done|done|by constructor; [apply Hb|]|]. intros x. rewrite H4, Hel.
    assert (Hd : denotes Self r x <-> x ∈ s).
    { destruct Hi as (lo & hi & k & Hm & Hk & Hle & Hs & _). rewrite Hs. unfold denotes. rewrite Hm.
      split; [by intros (? & ? & ? & [= <- <- <-] & ?)|intros ?; by exists lo, hi, k]. }
    setoid_rewrite elem_of_cons. rewrite <- Hd. split; [naive_solver|]. intros [?|(q & [->|?] & ?)]; naive_solver.
  - inversion 1; subst. apply IH; [|done]. apply Forall_forall; intros x [Hx|Hx]%Hel; revert x Hx; by apply Forall_forall.
Qed.

Lemma ascending_nodup s : ascending s -> NoDup s.
Proof.
  induction s as [|x s IH]; [constructor|]. intros [H1 H2]%ascending_cons. constructor; [|by apply IH].
  intros Hx. specialize (H1 x Hx). lia.
Qed.

Lemma full_iff (u : Self) : wf_unit u -> is_all Self u = true <-> forall x, in_unit x -> includes Self u x = true.
Proof.
  intros [Ha Hb]. pose proof unit_bounds as Hu. unfold is_all, includes. rewrite Z.eqb_eq.
  set (full := seqZ (inclusive_min Self) (inclusive_max Self - inclusive_min Self + 1)).
  assert (Hlen : Z.of_nat (length full) = inclusive_max Self - inclusive_min Self + 1) by (unfold full; rewrite length_seqZ; lia).
  assert (Hsub : ordinals u ⊆+ full).
  { apply NoDup_submseteq; [by apply ascending_nodup|]. intros x Hx. rewrite Forall_forall in Hb. specialize (Hb x Hx).
    apply elem_of_seqZ. lia. }
  setoid_rewrite contains_spec. split.
  - intros He x Hx. assert (Hp : ordinals u ≡ₚ full) by (apply submseteq_length_Permutation; [done|lia]).
    rewrite Hp. apply elem_of_seqZ. lia.
  - intros H. rewrite <- Hlen. f_equal. apply Nat.le_antisymm; [by apply submseteq_length|]. apply submseteq_length.
    apply NoDup_submseteq; [apply NoDup_seqZ|]. intros x Hx%elem_of_seqZ. apply H. lia.
Qed.

(** Everything: [all] in the code. *)
Lemma all_elem x : x ∈ ordinals (all Self) <-> in_unit x.
Proof.
  pose proof unit_bounds. unfold all. rewrite ordinals_none. unfold supported_ordinals. rewrite between_eq, elem_of_seqZ. lia.
Qed.

Lemma all_wf : wf_unit (all Self).
Proof.
  split; [unfold all; rewrite ordinals_none; apply collect_ascending|]. apply Forall_forall. intros x. apply all_elem.
Qed.

Lemma from_ordinal_wf x : in_unit x -> wf_unit (from_ordinal Self x).
Proof.
  intros Hx. unfold wf_unit, from_ordinal, from_ordinal_set. rewrite ordinals_some. split; [apply collect_ascending|].
  apply Forall_forall. intros y Hy%collect_elem%list_elem_of_singleton. by subst.
Qed.
End Fields.


(** ** Claims *)

(** C40: a list field denotes the union of the arithmetic progressions its items
    write.  [from_field] accepts the list exactly when every item names known
    ordinals, runs upwards, stays inside the unit and has a step; the unit it
    returns keeps its ordinals in order and in bounds, includes exactly the
    ordinals of those progressions, and calls itself complete exactly when it
    includes them all. *)
Theorem from_field_correct {Self} `{!TimeUnitField Self, !TimeUnitLaws Self} specifiers : Forall unsigned specifiers ->
  match from_field Self specifiers with
  | Ok u => Forall (meaningful Self) specifiers /\ wf_unit u /\
      (forall x, includes Self u x = true <-> exists r, r ∈ specifiers /\ denotes Self r x) /\
      (is_all Self u = true <-> forall x, inclusive_min Self <= x <= inclusive_max Self -> includes Self u x = true)
  | Err _ => ~ Forall (meaningful Self) specifiers
  end.
Proof.
  intros Hs. pose proof (collect_spec specifiers Hs [] ltac:(constructor) ltac:(constructor)) as H. pose proof unit_bounds as Hu.
  unfold from_field. destruct (decide (specifiers = [Spec All])) as [->|_].
  - pose proof all_wf as Hwf.
    split_and!; [|done| |by apply full_iff].
    + constructor; [|constructor]. eexists _, _, _. split_and!; [done|lia..].
    + intros x. unfold includes. rewrite contains_spec, all_elem. split.
      * intros Hx. exists (Spec All). split; [set_solver|]. eexists _, _, _. split_and!; [done|lia|lia|apply Z.mod_1_r].
      * intros (r & ->%list_elem_of_singleton & lo & hi & k & [= <- <- <-] & Hx & _). done.
  - destruct (collect_specifiers Self specifiers []) as [s|e]; cbn [rbind]; [|done]. destruct H as (H1 & H2 & H3 & H4).
    assert (Hwf : wf_unit (from_ordinal_set Self s)) by (unfold wf_unit, from_ordinal_set; by rewrite ordinals_some).
    split_and!; [done|done| |by apply full_iff]. intros x. unfold includes, from_ordinal_set.
    rewrite contains_spec, ordinals_some, H4. set_solver.
Qed.

(** ** Concrete instances *)

Lemma from_field_witness :
  let specifiers := [NamedPoint (lit "Jan"); Spec (NamedRange (lit "mar") (lit "MAY")); Period (Point 6) 3] in
  (match from_field Months specifiers with Ok u => ordinals u = [1; 3; 4; 5; 6; 9; 12] | Err _ => False end) /\
  match from_field Months specifiers with
  | Ok u => Forall (meaningful Months) specifiers /\ wf_unit u /\
      (forall x, includes Months u x = true <-> exists r, r ∈ specifiers /\ denotes Months r x) /\
      (is_all Months u = true <-> forall x, inclusive_min Months <= x <= inclusive_max Months -> includes Months u x = true)
  | Err _ => ~ Forall (meaningful Months) specifiers
  end.
Proof. split; [by vm_compute|]. apply (from_field_correct (Self := Months)). repeat constructor; simpl; lia. Defined.

(** The weekly shorthand runs on Sundays; a complete range is the same as [*]. *)
Example weekly_fields :
  ordinals (days_of_week shorthand_weekly) = [1] /\ is_all _ (days_of_month shorthand_weekly) = true /\
  match from_field DaysOfWeek [Spec (Range 1 7)] with Ok u => unit_eq _ u (all _) = true | Err _ => False end.
Proof. by vm_compute. Qed.

(** The upper bound is accepted, though the message for what exceeds it says
    "must be less than"; a range that runs downwards is refused. *)
Example bounds_messages :
  (match validate_ordinal Seconds 59 with Ok x => x = 59 | Err _ => False end) /\
  (match validate_ordinal Seconds 60 with
   | Ok _ => False | Err e => fmt e = lit "Invalid expression: Seconds must be less than 59. ('60' specified.)" end) /\
  (match from_field Hours [Period (Range 10 2) 2] with Ok _ => False | Err _ => True end).
Proof. by vm_compute. Qed.

End CronUnits.
