(* ===== verification/CronNextQuery.v ===== *)
(** * cron: the query forwards

    [NextAfterQuery] of src/cron/src/queries.rs: where the search
    starts, and which units still have to start there.  A [&mut self] method
    returns the new query beside its result. *)
From Stdlib Require Import ZArith.
From stdpp Require Import base option.
From S2P Require Import Prelude Words TimeZone DateTime CronUnits.
Import TimeZone DateTime CronUnits.

Module NextAfterQuery.

Record NextAfterQuery := mkQuery {
  initial_datetime : DateTime; first_month : bool; first_day_of_month : bool;
  first_hour : bool; first_minute : bool; first_second : bool }.

Section Query.
Context `{!TzData}.

Definition from (after : DateTime) : option NextAfterQuery :=
  initial ← saturating_add after (mkDuration 1 0);
  Some (mkQuery initial true true true true true).
End Query.

Definition year_lower_bound (self : NextAfterQuery) : Ordinal := u32 (year (initial_datetime self)).

Definition reset_second (self : NextAfterQuery) : NextAfterQuery :=
  mkQuery (initial_datetime self) (first_month self) (first_day_of_month self) (first_hour self) (first_minute self) false.

Definition reset_minute (self : NextAfterQuery) : NextAfterQuery :=
  reset_second (mkQuery (initial_datetime self) (first_month self) (first_day_of_month self) (first_hour self) false (first_second self)).

Definition reset_hour (self : NextAfterQuery) : NextAfterQuery :=
  reset_minute (mkQuery (initial_datetime self) (first_month self) (first_day_of_month self) false (first_minute self) (first_second self)).

Definition reset_day_of_month (self : NextAfterQuery) : NextAfterQuery :=
  reset_hour (mkQuery (initial_datetime self) (first_month self) false (first_hour self) (first_minute self) (first_second self)).

Definition reset_month (self : NextAfterQuery) : NextAfterQuery :=
  reset_day_of_month (mkQuery (initial_datetime self) false (first_day_of_month self) (first_hour self) (first_minute self) (first_second self)).

Definition month_lower_bound (self : NextAfterQuery) : Ordinal * NextAfterQuery :=
  if first_month self then
    (month (initial_datetime self),
     mkQuery (initial_datetime self) false (first_day_of_month self) (first_hour self) (first_minute self) (first_second self))
  else (inclusive_min Months, self).

Definition day_of_month_lower_bound (self : NextAfterQuery) : Ordinal * NextAfterQuery :=
  if first_day_of_month self then
    (day (initial_datetime self),
     mkQuery (initial_datetime self) (first_month self) false (first_hour self) (first_minute self) (first_second self))
  else (inclusive_min DaysOfMonth, self).

Definition hour_lower_bound (self : NextAfterQuery) : Ordinal * NextAfterQuery :=
  if first_hour self then
    (hour (initial_datetime self),
     mkQuery (initial_datetime self) (first_month self) (first_day_of_month self) false (first_minute self) (first_second self))
  else (inclusive_min Hours, self).

Definition minute_lower_bound (self : NextAfterQuery) : Ordinal * NextAfterQuery :=
  if first_minute self then
    (minute (initial_datetime self),
     mkQuery (initial_datetime self) (first_month self) (first_day_of_month self) (first_hour self) false (first_second self))
  else (inclusive_min Minutes, self).

Definition second_lower_bound (self : NextAfterQuery) : Ordinal * NextAfterQuery :=
  if first_second self then
    (second (initial_datetime self),
     mkQuery (initial_datetime self) (first_month self) (first_day_of_month self) (first_hour self) (first_minute self) false)
  else (inclusive_min Seconds, self).

End NextAfterQuery.
