(* ===== verification/CronSchedule.v ===== *)
(** * cron: schedules and their iterators

    src/cron/src/schedule.rs.  The six nested loops of [next_after] and
    [prev_from] are one definition each, from the seconds outwards; what an
    iteration does to the loops around it is a [Flow].  [DateTime] is the model
    of src/time. *)
From Stdlib Require Import ZArith Lia String.
From stdpp Require Import base list numbers option.
From S2P Require Import Prelude Words Civil TimeZone DateTime CronUnits CronNextQuery CronPrevQuery.
Import TimeZone DateTime CronUnits.

#[local] Close Scope string_scope.

Module CronSchedule.

Definition is_leap_year (year : Ordinal) : bool :=
  let by_four := year mod 4 =? 0 in
  let by_hundred := year mod 100 =? 0 in
  let by_four_hundred := year mod 400 =? 0 in
  by_four && (negb by_hundred || by_four_hundred).

Definition days_in_month (month year : Ordinal) : Z :=
  let is_leap_year := is_leap_year year in
  if (month =? 9) || (month =? 4) || (month =? 6) || (month =? 11) then 30
  else if (month =? 2) && is_leap_year then 29
  else if month =? 2 then 28 else 31.

(** What an iteration of a loop does next: go on, [continue 'day_loop], or
    return from the function. *)
Inductive Flow := Next | NextDay | Return (candidate : DateTime).

(** [for x in l { body }], left early on anything but [Next]. *)
Fixpoint for_each {Q} (l : list Ordinal) (body : Ordinal -> Q -> option (Q * Flow)) (query : Q) : option (Q * Flow) :=
  match l with
  | [] => Some (query, Next)
  | x :: rest =>
      '(query, flow) ← body x query;
      match flow with Next => for_each rest body query | _ => Some (query, flow) end
  end.

(** The statement after an inner loop, reached when it ran to its end. *)
Definition at_end {Q} (reset : Q -> Q) (r : Q * Flow) : Q * Flow :=
  let '(query, flow) := r in match flow with Next => (reset query, Next) | _ => (query, flow) end.

(** [continue 'day_loop] is over once the day loop sees it. *)
Definition day_loop {Q} (r : Q * Flow) : Q * Flow :=
  let '(query, flow) := r in match flow with NextDay => (query, Next) | _ => (query, flow) end.

Section Search.
Context `{!TzData}.
Variable fields : ScheduleFields.
Variable zone : TimeZone.

(** The body of the loop on seconds. *)
Definition try_candidate (year month day_of_month hour minute second : Ordinal) : option Flow :=
  r ← from_parts (i32 year) (u8 month) (u8 day_of_month) (u8 hour) (u8 minute) (u8 second) 0 zone;
  match r with
  | Err _ => Some Next
  | Ok candidate =>
      if negb (contains (ordinals (days_of_week fields)) (number_from_sunday (weekday candidate) + 1)) then Some NextDay
      else Some (Return candidate)
  end.

(** *** [next_after] *)

Import NextAfterQuery.

Definition next_seconds (year month day_of_month hour minute : Ordinal) (query : NextAfterQuery) : option (NextAfterQuery * Flow) :=
  let '(second_start, query) := second_lower_bound query in
  let query := if negb (contains (ordinals (seconds fields)) second_start) then reset_second query else query in
  second_range ← range (ordinals (seconds fields)) (Some second_start) (Some (inclusive_max Seconds));
  for_each second_range (fun second query =>
    flow ← try_candidate year month day_of_month hour minute second; Some (query, flow)) query.

Definition next_minutes (year month day_of_month hour : Ordinal) (query : NextAfterQuery) : option (NextAfterQuery * Flow) :=
  let '(minute_start, query) := minute_lower_bound query in
  let query := if negb (contains (ordinals (minutes fields)) minute_start) then reset_minute query else query in
  minute_range ← range (ordinals (minutes fields)) (Some minute_start) (Some (inclusive_max Minutes));
  for_each minute_range (fun minute query =>
    at_end reset_minute <$> next_seconds year month day_of_month hour minute query) query.

Definition next_hours (year month day_of_month : Ordinal) (query : NextAfterQuery) : option (NextAfterQuery * Flow) :=
  let '(hour_start, query) := hour_lower_bound query in
  let query := if negb (contains (ordinals (hours fields)) hour_start) then reset_hour query else query in
  hour_range ← range (ordinals (hours fields)) (Some hour_start) (Some (inclusive_max Hours));
  for_each hour_range (fun hour query =>
    at_end reset_hour <$> next_minutes year month day_of_month hour query) query.

Definition next_days (year month : Ordinal) (query : NextAfterQuery) : option (NextAfterQuery * Flow) :=
  let '(day_of_month_start, query) := day_of_month_lower_bound query in
  let query := if negb (contains (ordinals (days_of_month fields)) day_of_month_start) then reset_day_of_month query else query in
  let day_of_month_end := days_in_month month year in
  day_of_month_range ← range (ordinals (days_of_month fields)) (Some (Z.min day_of_month_start day_of_month_end)) (Some day_of_month_end);
  for_each day_of_month_range (fun day_of_month query =>
    day_loop <$> (at_end reset_day_of_month <$> next_hours year month day_of_month query)) query.

Definition next_months (year : Ordinal) (query : NextAfterQuery) : option (NextAfterQuery * Flow) :=
  let '(month_start, query) := month_lower_bound query in
  let query := if negb (contains (ordinals (months fields)) month_start) then reset_month query else query in
  month_range ← range (ordinals (months fields)) (Some month_start) (Some (inclusive_max Months));
  for_each month_range (fun month query => at_end reset_month <$> next_days year month query) query.

Definition next_years (query : NextAfterQuery) : option (NextAfterQuery * Flow) :=
  year_range ← range (ordinals (years fields)) (Some (year_lower_bound query)) None;
  for_each year_range next_months query.

(** *** [prev_from] *)

Import PrevFromQuery.

Definition prev_seconds (year month day_of_month hour minute : Ordinal) (query : PrevFromQuery) : option (PrevFromQuery * Flow) :=
  let '(second_start, query) := second_upper_bound query in
  let query := if negb (contains (ordinals (seconds fields)) second_start) then reset_second query else query in
  second_range ← range (ordinals (seconds fields)) (Some (inclusive_min Seconds)) (Some second_start);
  for_each (rev second_range) (fun second query =>
    flow ← try_candidate year month day_of_month hour minute second; Some (query, flow)) query.

Definition prev_minutes (year month day_of_month hour : Ordinal) (query : PrevFromQuery) : option (PrevFromQuery * Flow) :=
  let '(minute_start, query) := minute_upper_bound query in
  let query := if negb (contains (ordinals (minutes fields)) minute_start) then reset_minute query else query in
  minute_range ← range (ordinals (minutes fields)) (Some (inclusive_min Minutes)) (Some minute_start);
  for_each (rev minute_range) (fun minute query =>
    at_end reset_minute <$> prev_seconds year month day_of_month hour minute query) query.

Definition prev_hours (year month day_of_month : Ordinal) (query : PrevFromQuery) : option (PrevFromQuery * Flow) :=
  let '(hour_start, query) := hour_upper_bound query in
  let query := if negb (contains (ordinals (hours fields)) hour_start) then reset_hour query else query in
  hour_range ← range (ordinals (hours fields)) (Some (inclusive_min Hours)) (Some hour_start);
  for_each (rev hour_range) (fun hour query =>
    at_end reset_hour <$> prev_minutes year month day_of_month hour query) query.

Definition prev_days (year month : Ordinal) (query : PrevFromQuery) : option (PrevFromQuery * Flow) :=
  let '(day_of_month_end, query) := day_of_month_upper_bound query in
  let query := if negb (contains (ordinals (days_of_month fields)) day_of_month_end) then reset_day_of_month query else query in
  let day_of_month_end := Z.min (days_in_month month year) day_of_month_end in
  day_of_month_range ← range (ordinals (days_of_month fields)) (Some (inclusive_min DaysOfMonth)) (Some day_of_month_end);
  for_each (rev day_of_month_range) (fun day_of_month query =>
    day_loop <$> (at_end reset_day_of_month <$> prev_hours year month day_of_month query)) query.

Definition prev_months (year : Ordinal) (query : PrevFromQuery) : option (PrevFromQuery * Flow) :=
  let '(month_start, query) := month_upper_bound query in
  let query := if negb (contains (ordinals (months fields)) month_start) then reset_month query else query in
  month_range ← range (ordinals (months fields)) (Some (inclusive_min Months)) (Some month_start);
  for_each (rev month_range) (fun month query => at_end reset_month <$> prev_days year month query) query.

Definition prev_years (query : PrevFromQuery) : option (PrevFromQuery * Flow) :=
  year_range ← range (ordinals (years fields)) None (Some (year_upper_bound query));
  for_each (rev year_range) prev_months query.

End Search.

(** *** Schedules *)

Record Schedule := new { source : list Z; fields : ScheduleFields }.

Definition returned {Q} (r : Q * Flow) : option DateTime := match snd r with Return candidate => Some candidate | _ => None end.

Section Schedules.
Context `{!TzData}.

Definition next_after (self : Schedule) (after : DateTime) : option (option DateTime) :=
  query ← NextAfterQuery.from after;
  returned <$> next_years (fields self) (zone after) query.

Definition prev_from (self : Schedule) (before : DateTime) : option (option DateTime) :=
  query ← PrevFromQuery.from before;
  returned <$> prev_years (fields self) (zone before) query.

(** [Schedule::includes]; the name is also the method of a unit. *)
Definition schedule_includes (self : Schedule) (date_time : DateTime) : bool :=
  includes _ (years (fields self)) (u32 (year date_time))
  && includes _ (months (fields self)) (month date_time)
  && includes _ (days_of_week (fields self)) (number_from_sunday (weekday date_time) + 1)
  && includes _ (days_of_month (fields self)) (day date_time)
  && includes _ (hours (fields self)) (hour date_time)
  && includes _ (minutes (fields self)) (minute date_time)
  && includes _ (seconds (fields self)) (second date_time).

Definition fields_eq (self other : ScheduleFields) : bool :=
  unit_eq _ (years self) (years other) && unit_eq _ (days_of_week self) (days_of_week other)
  && unit_eq _ (months self) (months other) && unit_eq _ (days_of_month self) (days_of_month other)
  && unit_eq _ (hours self) (hours other) && unit_eq _ (minutes self) (minutes other)
  && unit_eq _ (seconds self) (seconds other).

Definition timeunitspec_eq (self other : Schedule) : bool := fields_eq (fields self) (fields other).
Definition schedule_eq (self other : Schedule) : bool := bool_decide (source self = source other).
Definition schedule_fmt (self : Schedule) : list Z := source self.

(** *** Iterators: [ScheduleIterator], and [OwnedScheduleIterator] with the same code *)

Record ScheduleIterator := mkIterator { schedule : Schedule; previous_datetime : option DateTime }.

Definition after (self : Schedule) (starting_datetime : DateTime) : ScheduleIterator :=
  mkIterator self (Some starting_datetime).

Definition next (self : ScheduleIterator) : option (option DateTime * ScheduleIterator) :=
  match previous_datetime self with
  | None => Some (None, self)
  | Some previous =>
      r ← next_after (schedule self) previous;
      match r with
      | Some next => Some (Some next, mkIterator (schedule self) (Some next))
      | None => Some (None, mkIterator (schedule self) None)
      end
  end.

Definition next_back (self : ScheduleIterator) : option (option DateTime * ScheduleIterator) :=
  match previous_datetime self with
  | None => Some (None, self)
  | Some previous =>
      r ← prev_from (schedule self) previous;
      match r with
      | Some prev => Some (Some prev, mkIterator (schedule self) (Some prev))
      | None => Some (None, mkIterator (schedule self) None)
      end
  end.

(** The first [n] calls of [next], [iter.take(n).collect()]. *)
Fixpoint take_next (n : nat) (self : ScheduleIterator) : option (list DateTime) :=
  match n with
  | O => Some []
  | S n =>
      '(item, self) ← next self;
      match item with None => Some [] | Some x => rest ← take_next n self; Some (x :: rest) end
  end.
End Schedules.

End CronSchedule.
