(* ===== verification/CronSearch.v ===== *)
(** * cron: the nested search

    The loops of [next_after] and [prev_from] are ten instances of one pattern:
    take the bound of a unit, reset the finer units when the bound is not in
    the set, run through the range.  Here the pattern is proved once, for
    either direction: it finds the first good key at or beyond the bound, a key
    being the list of ordinals from the coarsest unit to the seconds. *)
From Stdlib Require Import ZArith Lia Sorted.
From stdpp Require Import base list numbers option sorting sets.
From S2P Require Import Prelude Words Civil TimeZone DateTime CronUnits CronSchedule.
Import DateTime CronUnits CronSchedule.

Module CronSearch.

(** ** Keys in a direction *)

Fixpoint key_le (lt : Z -> Z -> Prop) (a b : list Z) : Prop :=
  match a, b with
  | [], _ => True
  | x :: a', y :: b' => lt x y \/ (x = y /\ key_le lt a' b')
  | _ :: _, [] => False
  end.

(** [P] restricted to the keys at or beyond [B], when the search starts there. *)
Definition from_bound (lt : Z -> Z -> Prop) (tight : bool) (B : list Z) (P : list Z -> DateTime -> Prop)
    (k : list Z) (dt : DateTime) : Prop := P k dt /\ (tight = true -> key_le lt B k).

(** A unit in front: the ordinal is one of [S], the rest is good for it. *)
Definition with_unit (S : Z -> Prop) (P : Z -> list Z -> DateTime -> Prop) (k : list Z) (dt : DateTime) : Prop :=
  exists x k', k = x :: k' /\ S x /\ P x k' dt.

(** What a loop delivers: the first good key, or none with the query exhausted
    ([L]), or the news that the day is [dead]. *)
Definition finds {Q} (lt : Z -> Z -> Prop) (L : Q) (dead : Prop) (P : list Z -> DateTime -> Prop)
    (r : option (Q * Flow)) : Prop :=
  exists query flow, r = Some (query, flow) /\
    match flow with
    | Return dt => exists k, P k dt /\ forall k' dt', P k' dt' -> key_le lt k k'
    | Next => query = L /\ forall k dt, ~ P k dt
    | NextDay => query = L /\ dead
    end.

(** The common shape of the loops. *)
Definition level {Q} (has : Z -> bool) (bound : Q -> Z * Q) (reset : Q -> Q) (rng : Z -> option (list Z))
    (body : Z -> Q -> option (Q * Flow)) (query : Q) : option (Q * Flow) :=
  let '(start, query) := bound query in
  let query := if negb (has start) then reset query else query in
  r ← rng start;
  for_each r body query.

Section Search.
Context {Q : Type} (lt : Z -> Z -> Prop) `{!StrictOrder lt} (L : Q).

Lemma finds_iff dead P P' r : (forall k dt, P k dt <-> P' k dt) -> finds lt L dead P r -> finds lt L dead P' r.
Proof.
  intros He (q & f & -> & Hf). exists q, f. split; [done|]. destruct f as [| |dt]; [|done|].
  - destruct Hf as [-> Hf]. split; [done|]. intros k dt Hk%He. by apply (Hf k dt).
  - destruct Hf as (k & Hk & Hf). exists k. split; [by apply He|]. intros k' dt' Hk'%He. by apply (Hf k' dt').
Qed.

Lemma finds_at_end dead P r (reset : Q -> Q) : reset L = L -> finds lt L dead P r -> finds lt L dead P (at_end reset <$> r).
Proof.
  intros Hr (q & f & -> & Hf). destruct f as [| |dt]; [exists L, Next|exists q, NextDay|exists q, (Return dt)]; simpl.
  - destruct Hf as [-> Hf]. by rewrite Hr.
  - done.
  - done.
Qed.

Lemma finds_day_loop dead P r : (dead -> forall k dt, ~ P k dt) -> finds lt L dead P r -> finds lt L False P (day_loop <$> r).
Proof.
  intros Hd (q & f & -> & Hf). destruct f as [| |dt]; [exists q, Next|exists q, Next|exists q, (Return dt)]; simpl; [done| |done].
  split; [done|]. split; [apply Hf|]. apply Hd, Hf.
Qed.

Lemma sorted_inv x l : StronglySorted lt (x :: l) -> (forall y, y ∈ l -> lt x y) /\ StronglySorted lt l.
Proof. intros [H1 H2]%StronglySorted_inv. rewrite Forall_forall in H2. done. Qed.

(** One iteration, then the rest. *)
Lemma loop_step dead P0 P x l body q0 : StronglySorted lt (x :: l) ->
  finds lt L dead P0 (body x q0) ->
  finds lt L dead (with_unit (fun y => y ∈ l) P) (for_each l body L) ->
  finds lt L dead (fun k dt => exists y k', k = y :: k' /\ ((y = x /\ P0 k' dt) \/ (y ∈ l /\ P y k' dt)))
    (for_each (x :: l) body q0).
Proof.
  intros [Hlt _]%sorted_inv (q & f & Hb & Hf) Hrest. cbn [for_each]. rewrite Hb. cbn [mbind option_bind].
  destruct f as [| |dt].
  - destruct Hf as [-> Hf]. eapply finds_iff; [|exact Hrest]. intros k dt. unfold with_unit. split.
    + intros (y & k' & -> & Hy & Hk). exists y, k'. auto.
    + intros (y & k' & -> & [[-> Hk]|[Hy Hk]]); [by destruct (Hf _ _ Hk)|by exists y, k'].
  - by exists q, NextDay.
  - exists q, (Return dt). split; [done|]. destruct Hf as (k & Hk & Hmin). exists (x :: k). split; [exists x, k; auto|].
    intros k' dt' (y & k'' & -> & [[-> Hk']|[Hy _]]); simpl; [right; split; [done|by eapply Hmin]|left; by apply Hlt].
Qed.

Lemma loop_loose dead P l body : StronglySorted lt l ->
  (forall x, x ∈ l -> finds lt L dead (P x) (body x L)) ->
  finds lt L dead (with_unit (fun y => y ∈ l) P) (for_each l body L).
Proof.
  induction l as [|x l IH]; intros Hs Hb.
  - exists L, Next. split; [done|]. split; [done|]. intros k dt (y & k' & _ & Hy & _). by apply elem_of_nil in Hy.
  - eapply finds_iff; [|apply (loop_step dead (P x) P); [done|apply Hb; by left|apply IH; [by apply sorted_inv in Hs as [_ ?]|intros y Hy; apply Hb; by right]]].
    intros k dt. unfold with_unit. setoid_rewrite elem_of_cons. split.
    + intros (y & k' & -> & [[-> Hk]|[Hy Hk]]); eauto 10.
    + intros (y & k' & -> & [->|Hy] & Hk); eauto 10.
Qed.

(** The pattern: with the query fresh ([tight]) the search starts at the bound
    [b :: B], with the query exhausted it starts at the first ordinal. *)
Lemma level_finds dead (tight : bool) T0 T1 b e B S P has bound reset rng body l :
  bound (if tight then T0 else L) = (if tight then b else e, if tight then T1 else L) ->
  reset T1 = L -> reset L = L ->
  rng (if tight then b else e) = Some l -> StronglySorted lt l ->
  (forall x, x ∈ l <-> S x /\ (tight = true -> x = b \/ lt b x)) ->
  (tight = true -> has b = true <-> S b) ->
  (forall x, S x -> finds lt L dead (from_bound lt false B (P x)) (body x L)) ->
  (tight = true -> S b -> finds lt L dead (from_bound lt true B (P b)) (body b T1)) ->
  finds lt L dead (from_bound lt tight (b :: B) (with_unit S P)) (level has bound reset rng body (if tight then T0 else L)).
Proof.
  intros Hbound HrT HrL Hrng Hs Hl Hhas Hbody Htight. unfold level. rewrite Hbound, Hrng. cbn [mbind option_bind].
  assert (Hloose : forall l', StronglySorted lt l' -> (forall x, x ∈ l' -> x ∈ l) ->
    finds lt L dead (with_unit (fun y => y ∈ l') P) (for_each l' body L)).
  { intros l' Hs' Hin. apply loop_loose; [done|]. intros x [Hx _]%Hin%Hl. eapply finds_iff; [|by apply Hbody].
    intros k dt. unfold from_bound. naive_solver. }
  destruct tight.
  - destruct (has b) eqn:Hb; simpl.
    + assert (HSb : S b) by by apply Hhas. assert (Hin : b ∈ l) by (apply Hl; auto). destruct l as [|x l]; [by apply elem_of_nil in Hin|].
      pose proof (sorted_inv _ _ Hs) as [Hlt Hs']. assert (x = b) as ->.
      { apply elem_of_cons in Hin as [->|Hin]; [done|].
        destruct (proj1 (Hl x) (list_elem_of_here x l)) as [_ Hx]. destruct (Hx eq_refl) as [|Hx']; [done|]. specialize (Hlt _ Hin).
        exfalso. apply (irreflexivity lt x). by transitivity b. }
      clear Hin.
      eapply finds_iff; [|apply (loop_step dead (from_bound lt true B (P b)) P); [done|by apply Htight|apply Hloose; [done|intros z Hz; by right]]].
      intros k dt. unfold from_bound, with_unit. split.
      * intros (y & k' & -> & [[-> [Hk Hle]]|[Hy Hk]]); (split; [exists y, k' || exists b, k'|]); auto.
        -- intros _. simpl. auto.
        -- split_and!; [done|apply (Hl y); by right|done].
        -- intros _. simpl. auto.
      * intros [(y & k' & -> & Hy & Hk) Hle]. exists y, k'. split; [done|]. specialize (Hle eq_refl) as [Hlt'|[<- Hle]].
        -- right. split; [|done]. assert (Hin : y ∈ b :: l) by (apply Hl; auto).
           apply elem_of_cons in Hin as [->|Hin]; [|done]. by apply irreflexivity in Hlt'; [|apply _].
        -- left. split; [done|]. split; [done|]. intros _. done.
    + rewrite HrT. assert (HSb : ~ S b) by (intros Hx; apply Hhas in Hx; [congruence|done]).
      eapply finds_iff; [|by apply Hloose]. intros k dt. unfold from_bound, with_unit. split.
      * intros (y & k' & -> & [Hy Hby]%Hl & Hk). split; [by exists y, k'|]. intros _. simpl.
        destruct (Hby eq_refl) as [->|]; [done|by left].
      * intros [(y & k' & -> & Hy & Hk) Hle]. exists y, k'. split_and!; [done| |done]. apply Hl. split; [done|].
        intros _. destruct (Hle eq_refl) as [|[-> _]]; [by right|done].
  - replace (if negb (has e) then reset L else L) with L by (rewrite HrL; by destruct (negb _)).
    eapply finds_iff; [|by apply Hloose]. intros k dt. unfold from_bound, with_unit. split.
    + intros (y & k' & -> & [Hy _]%Hl & Hk). split; [by exists y, k'|done].
    + intros [(y & k' & -> & Hy & Hk) _]. exists y, k'. split_and!; [done|by apply Hl|done].
Qed.

(** The seconds' body: the key ends here. *)
Lemma leaf_finds dead (tight : bool) (try : option Flow) flow : try = Some flow -> (flow = NextDay -> dead) ->
  finds lt L dead (from_bound lt tight [] (fun k dt => k = [] /\ try = Some (Return dt)))
    (flow ← try; Some (L, flow)).
Proof.
  intros -> Hd. exists L, flow. split; [done|]. unfold from_bound. destruct flow as [| |dt].
  - split; [done|]. by intros k dt [[_ ?] _].
  - auto.
  - exists []. split; [done|]. by intros k' dt' [[-> _] _].
Qed.
End Search.

End CronSearch.
