(* ===== verification/CronLevels.v ===== *)
(** * cron: the ten loops

    Each loop of schedule.rs is an instance of [CronSearch.level]; a search
    started at a fresh query finds the first good key at or beyond the key of
    the query's start, one restarted with an exhausted query the first good key
    of all. *)
From Stdlib Require Import ZArith Lia Sorted.
From stdpp Require Import base list numbers option sorting sets.
From S2P Require Import Prelude Words Civil TimeZone DateTime CronUnits CronNextQuery CronPrevQuery CronSchedule CronSearch.
Import TimeZone DateTime CronUnits CronSchedule CronSearch.

Module CronLevels.

(** The invariant of a schedule: that of its units. *)
Definition wf_fields (f : ScheduleFields) : Prop :=
  wf_unit (years f) /\ wf_unit (days_of_week f) /\ wf_unit (months f) /\ wf_unit (days_of_month f) /\
  wf_unit (hours f) /\ wf_unit (minutes f) /\ wf_unit (seconds f).

(** The fields of the time a search starts from are in range. *)
Definition in_range (I : DateTime) : Prop :=
  1 <= month I <= 12 /\ 1 <= day I <= 31 /\ 0 <= hour I <= 23 /\ 0 <= minute I <= 59 /\ 0 <= second I <= 59.

#[local] Instance gt_strict : StrictOrder (fun a b : Z => b < a).
Proof. split; [intros x Hx; lia|intros x y z; lia]. Qed.

Lemma sorted_app_gt l x : StronglySorted (fun a b : Z => b < a) l -> (forall y, y ∈ l -> x < y) ->
  StronglySorted (fun a b : Z => b < a) (l ++ [x]).
Proof.
  induction l as [|z l IH]; simpl; intros Hs H; [repeat constructor|]. apply StronglySorted_inv in Hs as [Hs Hz].
  constructor; [apply IH; [done|set_solver]|]. apply Forall_app. split; [done|]. constructor; [|constructor]. apply H. set_solver.
Qed.

Lemma elem_of_rev (l : list Z) x : x ∈ rev l <-> x ∈ l.
Proof. rewrite !list_elem_of_In. symmetry. apply in_rev. Qed.

Lemma rev_descending l : ascending l -> StronglySorted (fun a b : Z => b < a) (rev l).
Proof.
  induction l as [|x l IH]; simpl; [constructor|]. intros [H1 H2]%ascending_cons. apply sorted_app_gt; [by apply IH|].
  intros y Hy. apply H1. by apply elem_of_rev.
Qed.

Lemma range_between s lo hi : lo <= hi -> ascending s ->
  exists l, range s (Some lo) (Some hi) = Some l /\ ascending l /\ forall x, x ∈ l <-> x ∈ s /\ lo <= x <= hi.
Proof.
  intros Hle Hs. assert (Hr : exists l, range s (Some lo) (Some hi) = Some l)
    by (unfold range; destruct (Z.ltb_spec hi lo); [lia|by eexists]).
  destruct Hr as [l Hr]. exists l. split; [done|]. destruct (range_elem _ _ _ _ Hr Hs) as [H1 H2]. split; [done|].
  intros x. by rewrite H2.
Qed.

Section Levels.
Context `{!TzData}.
Variable fields : ScheduleFields.
Variable zone : TimeZone.
Hypothesis Hwf : wf_fields fields.
Variable I : DateTime.
Hypothesis HI : in_range I.

(** Days without an allowed weekday. *)
Variable dead : Z -> Z -> Z -> Prop.

Definition real (y mo d h mi s : Z) : Prop :=
  1970 <= y <= 2100 /\ 1 <= mo <= 12 /\ 1 <= d <= days_in_month mo y /\ 0 <= h <= 23 /\ 0 <= mi <= 59 /\ 0 <= s <= 59.

Hypothesis Htry : forall y mo d h mi s, real y mo d h mi s ->
  exists flow, try_candidate fields zone y mo d h mi s = Some flow /\ (flow = NextDay -> dead y mo d) /\
    (dead y mo d -> forall dt, flow <> Return dt).

Notation try := (try_candidate fields zone).
Notation day_ok y mo x := (x ∈ ordinals (days_of_month fields) /\ x <= days_in_month mo y).

Definition good_second (y mo d h mi : Z) : list Z -> DateTime -> Prop :=
  with_unit (fun s => s ∈ ordinals (seconds fields)) (fun s k dt => k = [] /\ try y mo d h mi s = Some (Return dt)).
Definition good_minute (y mo d h : Z) : list Z -> DateTime -> Prop :=
  with_unit (fun mi => mi ∈ ordinals (minutes fields)) (good_second y mo d h).
Definition good_hour (y mo d : Z) : list Z -> DateTime -> Prop :=
  with_unit (fun h => h ∈ ordinals (hours fields)) (good_minute y mo d).
Definition good_day (y mo : Z) : list Z -> DateTime -> Prop :=
  with_unit (fun d => day_ok y mo d) (good_hour y mo).
Definition good_month (y : Z) : list Z -> DateTime -> Prop :=
  with_unit (fun mo => mo ∈ ordinals (months fields)) (good_day y).
Definition good_year : list Z -> DateTime -> Prop :=
  with_unit (fun y => y ∈ ordinals (years fields)) good_month.

Definition Bs : list Z := [second I].
Definition Bmi : list Z := minute I :: Bs.
Definition Bh : list Z := hour I :: Bmi.
Definition Bd : list Z := day I :: Bh.
Definition Bmo : list Z := month I :: Bd.

Lemma unit_in {T} `{!TimeUnitField T} (u : T) x : wf_unit u -> x ∈ ordinals u -> inclusive_min T <= x <= inclusive_max T.
Proof. intros [_ Hb] Hx. rewrite Forall_forall in Hb. by apply Hb. Qed.

Lemma good_second_real y mo d h mi k dt : 1970 <= y <= 2100 -> 1 <= mo <= 12 -> 1 <= d <= days_in_month mo y -> 0 <= h <= 23 -> 0 <= mi <= 59 ->
  good_second y mo d h mi k dt -> ~ dead y mo d.
Proof.
  intros Hy Hmo Hd Hh Hmi (s & k' & -> & Hs & -> & Ht) Hdead. destruct Hwf as (_ & _ & _ & _ & _ & _ & Hws).
  apply (unit_in _ _ Hws) in Hs. simpl in Hs. destruct (Htry y mo d h mi s) as (flow & Hf & _ & Hn); [by unfold real|].
  rewrite Ht in Hf. injection Hf as <-. by destruct (Hn Hdead dt).
Qed.

Lemma dead_hours y mo d t : 1970 <= y <= 2100 -> 1 <= mo <= 12 -> 1 <= d <= days_in_month mo y ->
  dead y mo d -> forall lt k dt, ~ from_bound lt t Bh (good_hour y mo d) k dt.
Proof.
  intros Hy Hmo Hd Hdead lt k dt [(h & k1 & -> & Hh & mi & k2 & -> & Hmi & Hk) _].
  destruct Hwf as (_ & _ & _ & _ & Hwh & Hwm & _). apply (unit_in _ _ Hwh) in Hh. apply (unit_in _ _ Hwm) in Hmi. simpl in *.
  by eapply good_second_real in Hk.
Qed.

Lemma days_in_month_28 mo y : 28 <= days_in_month mo y <= 31.
Proof. unfold days_in_month. repeat case_match; lia. Qed.

(** One unit, upwards: the range runs from the bound to [cap]. *)
Lemma level_up {T} `{!TimeUnitField T} {Q} (u : T) (S : Z -> Prop) (L : Q) dd (t : bool) T0 T1 b cap B P bound reset rng body :
  wf_unit u -> (forall x, S x <-> x ∈ ordinals u /\ x <= cap) -> inclusive_min T <= cap ->
  (t = true -> b <= cap) ->
  bound (if t then T0 else L) = (if t then b else inclusive_min T, if t then T1 else L) ->
  reset T1 = L -> reset L = L ->
  (forall st, st <= cap -> rng st = range (ordinals u) (Some st) (Some cap)) ->
  (forall (t' : bool) x, S x -> (t' = true -> t = true /\ x = b) ->
     finds Z.lt L dd (from_bound Z.lt t' B (P x)) (body x (if t' then T1 else L))) ->
  finds Z.lt L dd (from_bound Z.lt t (b :: B) (with_unit S P)) (level (contains (ordinals u)) bound reset rng body (if t then T0 else L)).
Proof.
  intros Hu HS Hcap Hb Hbound Hr1 Hr2 Hrng Hbody.
  destruct (range_between (ordinals u) (if t then b else inclusive_min T) cap) as (l & Hr & Hsort & Hl); [destruct t; auto|apply Hu|].
  apply (level_finds Z.lt L dd t T0 T1 b (inclusive_min T) B S P _ bound reset rng body l); try done.
  - rewrite Hrng; [done|]. destruct t; auto.
  - intros x. rewrite Hl, HS. split; intros [Hx ?]; [|destruct Hx as [Hx ?]]; pose proof (unit_in u x Hu Hx); destruct t; intuition lia.
  - intros Ht. rewrite contains_spec, HS. intuition.
  - intros x Hx. by apply (Hbody false).
  - intros Ht Hx. by apply (Hbody true).
Qed.

(** One unit, downwards: the range runs back from the bound, or from [cap]. *)
Lemma level_down {T} `{!TimeUnitField T} {Q} (u : T) (S : Z -> Prop) (L : Q) dd (t : bool) T0 T1 b e cap B P bound reset rng body :
  wf_unit u -> (forall x, S x <-> x ∈ ordinals u /\ x <= cap) -> inclusive_min T <= cap ->
  (t = true -> inclusive_min T <= b <= cap) ->
  bound (if t then T0 else L) = (if t then b else e, if t then T1 else L) ->
  reset T1 = L -> reset L = L -> cap <= e ->
  (forall st, st <= e -> rng st = rev (A := Z) <$> range (ordinals u) (Some (inclusive_min T)) (Some (Z.min cap st))) -> 
  (t = true -> b <= e) ->
  (forall (t' : bool) x, S x -> (t' = true -> t = true /\ x = b) ->
     finds (fun a b => b < a) L dd (from_bound (fun a b => b < a) t' B (P x)) (body x (if t' then T1 else L))) ->
  finds (fun a b => b < a) L dd (from_bound (fun a b => b < a) t (b :: B) (with_unit S P))
    (level (contains (ordinals u)) bound reset rng body (if t then T0 else L)).
Proof.
  intros Hu HS Hcap Hb Hbound Hr1 Hr2 He Hrng Hbe Hbody.
  destruct (range_between (ordinals u) (inclusive_min T) (Z.min cap (if t then b else e))) as (l & Hr & Hsort & Hl);
    [destruct t; [specialize (Hb eq_refl)|]; lia|apply Hu|].
  apply (level_finds (fun a b => b < a) L dd t T0 T1 b e B S P _ bound reset rng body (rev l)); try done.
  - rewrite Hrng, Hr; [done|]. destruct t; [by apply Hbe|lia].
  - by apply rev_descending.
  - intros x. rewrite elem_of_rev, Hl, HS. split; intros [Hx ?]; [|destruct Hx as [Hx ?]]; pose proof (unit_in u x Hu Hx);
      destruct t; try specialize (Hb eq_refl); intuition lia.
  - intros Ht. rewrite contains_spec, HS. specialize (Hb Ht). intuition lia.
  - intros x Hx. by apply (Hbody false).
  - intros Ht Hx. by apply (Hbody true).
Qed.

(** A range taken before it is reversed. *)
Lemma bind_rev {Q} (m : option (list Z)) (body : Z -> Q -> option (Q * Flow)) q :
  (r ← m; for_each (rev r) body q) = (r ← (rev (A := Z) <$> m); for_each r body q).
Proof. by destruct m. Qed.

Lemma whole_unit {T} `{!TimeUnitField T} (u : T) x : wf_unit u -> x ∈ ordinals u <-> x ∈ ordinals u /\ x <= inclusive_max T.
Proof. intros Hu. split; [|by intros [? _]]. intros Hx. pose proof (unit_in u x Hu Hx). split; [done|lia]. Qed.

(** The loop on years: fresh for the first year of the range only. *)
Lemma years_finds {Q} (lt : Z -> Z -> Prop) `{!StrictOrder lt} (L q0 : Q) (body : Z -> Q -> option (Q * Flow)) y0 l B P :
  StronglySorted lt l -> y0 ∈ ordinals (years fields) ->
  (forall x, x ∈ l <-> x ∈ ordinals (years fields) /\ (x = y0 \/ lt y0 x)) ->
  finds lt L False (from_bound lt true B (P y0)) (body y0 q0) ->
  (forall y, y ∈ ordinals (years fields) -> finds lt L False (from_bound lt false B (P y)) (body y L)) ->
  finds lt L False (from_bound lt true (y0 :: B) (with_unit (fun y => y ∈ ordinals (years fields)) P)) (for_each l body q0).
Proof.
  intros Hs Hy0 Hl H0 Hrest. assert (Hl' : exists l', l = y0 :: l').
  { assert (Hin : y0 ∈ l) by (apply Hl; auto). destruct l as [|x l]; [by apply elem_of_nil in Hin|]. exists l.
    apply elem_of_cons in Hin as [->|Hin]; [done|]. destruct (proj1 (Hl x) (list_elem_of_here x l)) as [_ [->|Hx]]; [done|].
    pose proof (proj1 (sorted_inv lt x l Hs) _ Hin). destruct (irreflexivity lt x). by transitivity y0. }
  destruct Hl' as [l' ->]. destruct (sorted_inv lt _ _ Hs) as [Hlt Hs'].
  eapply finds_iff; [|apply (loop_step lt L False (from_bound lt true B (P y0)) P); [done|done|apply loop_loose; [done|]]].
  - intros k dt. unfold from_bound, with_unit. split.
    + intros (y & k' & -> & [[-> [Hk Hle]]|[Hy Hk]]).
      * split; [by exists y0, k'|]. simpl. auto.
      * split; [exists y, k'; split_and!; [done| |done]; apply (Hl y); by right|]. simpl. auto.
    + intros [(y & k' & -> & Hy & Hk) Hle]. exists y, k'. split; [done|]. destruct (Hle eq_refl) as [Hlt'|[<- Hle']]; [right|by left].
      split; [|done]. assert (Hin : y ∈ y0 :: l') by (apply Hl; auto). apply elem_of_cons in Hin as [->|Hin]; [|done].
      by destruct (irreflexivity lt y0).
  - intros x Hx. assert (Hin : x ∈ ordinals (years fields)) by (apply (Hl x); by right). eapply finds_iff; [|by apply Hrest].
    intros k dt. unfold from_bound. naive_solver.
Qed.

(** ** [next_after] *)
Section Next.
Import NextAfterQuery.

Definition NL : NextAfterQuery := mkQuery I false false false false false.
Definition N0 : NextAfterQuery := mkQuery I true true true true true.
Definition N1 : NextAfterQuery := mkQuery I false true true true true.
Definition N2 : NextAfterQuery := mkQuery I false false true true true.
Definition N3 : NextAfterQuery := mkQuery I false false false true true.
Definition N4 : NextAfterQuery := mkQuery I false false false false true.

Lemma next_seconds_finds y mo d h mi (t : bool) :
  1970 <= y <= 2100 -> 1 <= mo <= 12 -> 1 <= d <= days_in_month mo y -> 0 <= h <= 23 -> 0 <= mi <= 59 ->
  finds Z.lt NL (dead y mo d) (from_bound Z.lt t Bs (good_second y mo d h mi))
    (next_seconds fields zone y mo d h mi (if t then N4 else NL)).
Proof.
  intros Hy Hmo Hd Hh Hmi. destruct Hwf as (_ & _ & _ & _ & _ & _ & Hw). destruct HI as (_ & _ & _ & _ & Hs).
  apply (level_up (seconds fields) _ NL (dead y mo d) t N4 NL (second I) 59 [] _ second_lower_bound reset_second
    (fun st => range (ordinals (seconds fields)) (Some st) (Some 59))); try done; try lia.
  - intros x. exact (whole_unit (seconds fields) x Hw).
  - by destruct t.
  - intros t' x Hx Ht'. apply (unit_in _ _ Hw) in Hx. simpl in Hx. replace (if t' then NL else NL) with NL by by destruct t'.
    destruct (Htry y mo d h mi x) as (flow & Hf & Hn & _); [by unfold real|]. by eapply leaf_finds.
Qed.

Lemma next_minutes_finds y mo d h (t : bool) :
  1970 <= y <= 2100 -> 1 <= mo <= 12 -> 1 <= d <= days_in_month mo y -> 0 <= h <= 23 ->
  finds Z.lt NL (dead y mo d) (from_bound Z.lt t Bmi (good_minute y mo d h))
    (next_minutes fields zone y mo d h (if t then N3 else NL)).
Proof.
  intros Hy Hmo Hd Hh. destruct Hwf as (_ & _ & _ & _ & _ & Hw & _). destruct HI as (_ & _ & _ & Hm & _).
  apply (level_up (minutes fields) _ NL (dead y mo d) t N3 N4 (minute I) 59 Bs _ minute_lower_bound reset_minute
    (fun st => range (ordinals (minutes fields)) (Some st) (Some 59))
    (fun minute query => at_end reset_minute <$> next_seconds fields zone y mo d h minute query)); try done; try lia.
  - intros x. exact (whole_unit (minutes fields) x Hw).
  - by destruct t.
  - intros t' x Hx Ht'. apply (unit_in _ _ Hw) in Hx. apply finds_at_end; [done|]. by apply next_seconds_finds.
Qed.

Lemma next_hours_finds y mo d (t : bool) :
  1970 <= y <= 2100 -> 1 <= mo <= 12 -> 1 <= d <= days_in_month mo y ->
  finds Z.lt NL (dead y mo d) (from_bound Z.lt t Bh (good_hour y mo d))
    (next_hours fields zone y mo d (if t then N2 else NL)).
Proof.
  intros Hy Hmo Hd. destruct Hwf as (_ & _ & _ & _ & Hw & _). destruct HI as (_ & _ & Hm & _).
  apply (level_up (hours fields) _ NL (dead y mo d) t N2 N3 (hour I) 23 Bmi _ hour_lower_bound reset_hour
    (fun st => range (ordinals (hours fields)) (Some st) (Some 23))
    (fun hour query => at_end reset_hour <$> next_minutes fields zone y mo d hour query)); try done; try lia.
  - intros x. exact (whole_unit (hours fields) x Hw).
  - by destruct t.
  - intros t' x Hx Ht'. apply (unit_in _ _ Hw) in Hx. apply finds_at_end; [done|]. by apply next_minutes_finds.
Qed.

Lemma next_days_finds y mo (t : bool) :
  1970 <= y <= 2100 -> 1 <= mo <= 12 -> (t = true -> day I <= days_in_month mo y) ->
  finds Z.lt NL False (from_bound Z.lt t Bd (good_day y mo)) (next_days fields zone y mo (if t then N1 else NL)).
Proof.
  intros Hy Hmo Ht. destruct Hwf as (_ & _ & _ & Hw & _). pose proof (days_in_month_28 mo y) as Hp.
  apply (level_up (days_of_month fields) _ NL False t N1 N2 (day I) (days_in_month mo y) Bh _ day_of_month_lower_bound reset_day_of_month
    (fun st => range (ordinals (days_of_month fields)) (Some (Z.min st (days_in_month mo y))) (Some (days_in_month mo y)))
    (fun day query => day_loop <$> (at_end reset_day_of_month <$> next_hours fields zone y mo day query))); try done; simpl; try lia.
  - by destruct t.
  - intros st Hst. by rewrite Z.min_l.
  - intros t' x [Hx Hle] Ht'. apply (unit_in _ _ Hw) in Hx. simpl in Hx. eapply finds_day_loop; [|apply finds_at_end; [done|by apply next_hours_finds; [..|lia]]].
    intros Hdead. by apply dead_hours; [..|lia|].
Qed.

Lemma next_months_finds y (t : bool) :
  1970 <= y <= 2100 -> (t = true -> day I <= days_in_month (month I) y) ->
  finds Z.lt NL False (from_bound Z.lt t Bmo (good_month y)) (next_months fields zone y (if t then N0 else NL)).
Proof.
  intros Hy Ht. destruct Hwf as (_ & _ & Hw & _). destruct HI as (Hm & _).
  apply (level_up (months fields) _ NL False t N0 N1 (month I) 12 Bd _ month_lower_bound reset_month
    (fun st => range (ordinals (months fields)) (Some st) (Some 12))
    (fun month query => at_end reset_month <$> next_days fields zone y month query)); try done; simpl; try lia.
  - intros x. exact (whole_unit (months fields) x Hw).
  - by destruct t.
  - intros t' x Hx Ht'. apply (unit_in _ _ Hw) in Hx. apply finds_at_end; [done|]. apply next_days_finds; [done|done|].
    intros H'. destruct (Ht' H') as [H1 ->]. by apply Ht.
Qed.

(** The loop on years: fresh for the first year of the range only. *)
Lemma next_years_finds y0 : y0 ∈ ordinals (years fields) -> year_lower_bound N0 <= y0 ->
  (forall y, y ∈ ordinals (years fields) -> year_lower_bound N0 <= y -> y0 <= y) ->
  day I <= days_in_month (month I) y0 ->
  finds Z.lt NL False (from_bound Z.lt true (y0 :: Bmo) good_year) (next_years fields zone N0).
Proof.
  intros Hin Hlo Hmin Hday. destruct Hwf as (Hw & _). unfold next_years.
  destruct (range_elem (ordinals (years fields)) (Some (year_lower_bound N0)) None _ eq_refl (proj1 Hw)) as [Hs Hl].
  cbn [range mbind option_bind] in *. simpl in Hl. set (l := List.filter _ _) in *. clearbody l.
  apply (years_finds Z.lt NL N0 (next_months fields zone) y0 l); try done.
  - intros x. rewrite Hl. split; [intros (Hx & Hle & _)|intros [Hx Hle]; split; [done|]].
    + split; [done|]. specialize (Hmin x Hx Hle). lia.
    + destruct Hle; lia.
  - apply (next_months_finds y0 true); [|done]. by apply (unit_in _ _ Hw) in Hin.
  - intros y Hy. apply (unit_in _ _ Hw) in Hy. exact (next_months_finds y false Hy ltac:(discriminate)).
Qed.

Lemma next_years_none : (forall y, y ∈ ordinals (years fields) -> y < year_lower_bound N0) ->
  next_years fields zone N0 = Some (N0, Next).
Proof.
  intros H'. destruct Hwf as (Hw & _). unfold next_years.
  destruct (range_elem (ordinals (years fields)) (Some (year_lower_bound N0)) None _ eq_refl (proj1 Hw)) as [_ Hl].
  cbn [range mbind option_bind] in *. destruct (List.filter _ _) as [|x l]; [done|].
  destruct (proj1 (Hl x) (list_elem_of_here x l)) as (Hx & Hle & _). specialize (H' x Hx). simpl in Hle. lia.
Qed.
End Next.

(** ** [prev_from] *)
Section Prev.
Import PrevFromQuery.

Notation gt := (fun a b : Z => b < a).

Definition PL : PrevFromQuery := mkQuery I false false false false false.
Definition P0 : PrevFromQuery := mkQuery I true true true true true.
Definition P1 : PrevFromQuery := mkQuery I false true true true true.
Definition P2 : PrevFromQuery := mkQuery I false false true true true.
Definition P3 : PrevFromQuery := mkQuery I false false false true true.
Definition P4 : PrevFromQuery := mkQuery I false false false false true.

Lemma prev_seconds_finds y mo d h mi (t : bool) :
  1970 <= y <= 2100 -> 1 <= mo <= 12 -> 1 <= d <= days_in_month mo y -> 0 <= h <= 23 -> 0 <= mi <= 59 ->
  finds gt PL (dead y mo d) (from_bound gt t Bs (good_second y mo d h mi)) (prev_seconds fields zone y mo d h mi (if t then P4 else PL)).
Proof.
  intros Hy Hmo Hd Hh Hmi. destruct Hwf as (_ & _ & _ & _ & _ & _ & Hw). destruct HI as (_ & _ & _ & _ & Hs).
  enough (H' : finds gt PL (dead y mo d) (from_bound gt t Bs (good_second y mo d h mi))
    (level (contains (ordinals (seconds fields))) second_upper_bound reset_second
      (fun st => rev (A := Z) <$> range (ordinals (seconds fields)) (Some 0) (Some st))
      (fun second query => flow ← try y mo d h mi second; Some (query, flow)) (if t then P4 else PL)))
    by (revert H'; unfold level, prev_seconds; destruct (second_upper_bound _); by rewrite bind_rev).
  apply (level_down (seconds fields) _ PL (dead y mo d) t P4 PL (second I) 59 59 []); try done; simpl; try lia.
  - intros x. exact (whole_unit (seconds fields) x Hw).
  - by destruct t.
  - intros st Hst. by rewrite Z.min_r.
  - intros t' x Hx Ht'. apply (unit_in _ _ Hw) in Hx. simpl in Hx. replace (if t' then PL else PL) with PL by by destruct t'.
    destruct (Htry y mo d h mi x) as (flow & Hf & Hn & _); [by unfold real|]. by eapply leaf_finds.
Qed.

Lemma prev_minutes_finds y mo d h (t : bool) :
  1970 <= y <= 2100 -> 1 <= mo <= 12 -> 1 <= d <= days_in_month mo y -> 0 <= h <= 23 ->
  finds gt PL (dead y mo d) (from_bound gt t Bmi (good_minute y mo d h)) (prev_minutes fields zone y mo d h (if t then P3 else PL)).
Proof.
  intros Hy Hmo Hd Hh. destruct Hwf as (_ & _ & _ & _ & _ & Hw & _). destruct HI as (_ & _ & _ & Hm & _).
  enough (H' : finds gt PL (dead y mo d) (from_bound gt t Bmi (good_minute y mo d h))
    (level (contains (ordinals (minutes fields))) minute_upper_bound reset_minute
      (fun st => rev (A := Z) <$> range (ordinals (minutes fields)) (Some 0) (Some st))
      (fun minute query => at_end reset_minute <$> prev_seconds fields zone y mo d h minute query) (if t then P3 else PL)))
    by (revert H'; unfold level, prev_minutes; destruct (minute_upper_bound _); by rewrite bind_rev).
  apply (level_down (minutes fields) _ PL (dead y mo d) t P3 P4 (minute I) 59 59 Bs); try done; simpl; try lia.
  - intros x. exact (whole_unit (minutes fields) x Hw).
  - by destruct t.
  - intros st Hst. by rewrite Z.min_r.
  - intros t' x Hx Ht'. apply (unit_in _ _ Hw) in Hx. apply finds_at_end; [done|]. by apply prev_seconds_finds.
Qed.

Lemma prev_hours_finds y mo d (t : bool) :
  1970 <= y <= 2100 -> 1 <= mo <= 12 -> 1 <= d <= days_in_month mo y ->
  finds gt PL (dead y mo d) (from_bound gt t Bh (good_hour y mo d)) (prev_hours fields zone y mo d (if t then P2 else PL)).
Proof.
  intros Hy Hmo Hd. destruct Hwf as (_ & _ & _ & _ & Hw & _). destruct HI as (_ & _ & Hm & _).
  enough (H' : finds gt PL (dead y mo d) (from_bound gt t Bh (good_hour y mo d))
    (level (contains (ordinals (hours fields))) hour_upper_bound reset_hour
      (fun st => rev (A := Z) <$> range (ordinals (hours fields)) (Some 0) (Some st))
      (fun hour query => at_end reset_hour <$> prev_minutes fields zone y mo d hour query) (if t then P2 else PL)))
    by (revert H'; unfold level, prev_hours; destruct (hour_upper_bound _); by rewrite bind_rev).
  apply (level_down (hours fields) _ PL (dead y mo d) t P2 P3 (hour I) 23 23 Bmi); try done; simpl; try lia.
  - intros x. exact (whole_unit (hours fields) x Hw).
  - by destruct t.
  - intros st Hst. by rewrite Z.min_r.
  - intros t' x Hx Ht'. apply (unit_in _ _ Hw) in Hx. apply finds_at_end; [done|]. by apply prev_minutes_finds.
Qed.

Lemma prev_days_finds y mo (t : bool) :
  1970 <= y <= 2100 -> 1 <= mo <= 12 -> (t = true -> day I <= days_in_month mo y) ->
  finds gt PL False (from_bound gt t Bd (good_day y mo)) (prev_days fields zone y mo (if t then P1 else PL)).
Proof.
  intros Hy Hmo Ht. destruct Hwf as (_ & _ & _ & Hw & _). destruct HI as (_ & Hm & _). pose proof (days_in_month_28 mo y) as Hp.
  enough (H' : finds gt PL False (from_bound gt t Bd (good_day y mo))
    (level (contains (ordinals (days_of_month fields))) day_of_month_upper_bound reset_day_of_month
      (fun st => rev (A := Z) <$> range (ordinals (days_of_month fields)) (Some 1) (Some (Z.min (days_in_month mo y) st)))
      (fun day query => day_loop <$> (at_end reset_day_of_month <$> prev_hours fields zone y mo day query)) (if t then P1 else PL)))
    by (revert H'; unfold level, prev_days; destruct (day_of_month_upper_bound _); by rewrite bind_rev).
  apply (level_down (days_of_month fields) _ PL False t P1 P2 (day I) 31 (days_in_month mo y) Bh); try done; simpl; try lia.
  - intros Htt. specialize (Ht Htt). lia.
  - by destruct t.
  - intros t' x [Hx Hle] Ht'. apply (unit_in _ _ Hw) in Hx. simpl in Hx. eapply finds_day_loop; [|apply finds_at_end; [done|by apply prev_hours_finds; [..|lia]]].
    intros Hdead. by apply dead_hours; [..|lia|].
Qed.

Lemma prev_months_finds y (t : bool) :
  1970 <= y <= 2100 -> (t = true -> day I <= days_in_month (month I) y) ->
  finds gt PL False (from_bound gt t Bmo (good_month y)) (prev_months fields zone y (if t then P0 else PL)).
Proof.
  intros Hy Ht. destruct Hwf as (_ & _ & Hw & _). destruct HI as (Hm & _).
  enough (H' : finds gt PL False (from_bound gt t Bmo (good_month y))
    (level (contains (ordinals (months fields))) month_upper_bound reset_month
      (fun st => rev (A := Z) <$> range (ordinals (months fields)) (Some 1) (Some st))
      (fun month query => at_end reset_month <$> prev_days fields zone y month query) (if t then P0 else PL)))
    by (revert H'; unfold level, prev_months; destruct (month_upper_bound _); by rewrite bind_rev).
  apply (level_down (months fields) _ PL False t P0 P1 (month I) 12 12 Bd); try done; simpl; try lia.
  - intros x. exact (whole_unit (months fields) x Hw).
  - by destruct t.
  - intros st Hst. by rewrite Z.min_r.
  - intros t' x Hx Ht'. apply (unit_in _ _ Hw) in Hx. apply finds_at_end; [done|]. apply prev_days_finds; [done|done|].
    intros Htt. destruct (Ht' Htt) as [H1 ->]. by apply Ht.
Qed.

Lemma prev_years_finds y0 : y0 ∈ ordinals (years fields) -> y0 <= year_upper_bound P0 ->
  (forall y, y ∈ ordinals (years fields) -> y <= year_upper_bound P0 -> y <= y0) ->
  day I <= days_in_month (month I) y0 ->
  finds gt PL False (from_bound gt true (y0 :: Bmo) good_year) (prev_years fields zone P0).
Proof.
  intros Hin Hlo Hmin Hday. destruct Hwf as (Hw & _). unfold prev_years.
  destruct (range_elem (ordinals (years fields)) None (Some (year_upper_bound P0)) _ eq_refl (proj1 Hw)) as [Hs Hl].
  cbn [range mbind option_bind] in *. simpl in Hl. set (l := List.filter _ _) in *. clearbody l.
  apply (years_finds gt PL P0 (prev_months fields zone) y0 (rev l)); try done.
  - by apply rev_descending.
  - intros x. rewrite elem_of_rev, Hl. split; [intros (Hx & _ & Hle)|intros [Hx Hle]; split; [done|split; [done|]]].
    + split; [done|]. specialize (Hmin x Hx Hle). lia.
    + destruct Hle; lia.
  - apply (prev_months_finds y0 true); [|done]. by apply (unit_in _ _ Hw) in Hin.
  - intros y Hy. apply (unit_in _ _ Hw) in Hy. exact (prev_months_finds y false Hy ltac:(discriminate)).
Qed.

Lemma prev_years_none : (forall y, y ∈ ordinals (years fields) -> year_upper_bound P0 < y) ->
  prev_years fields zone P0 = Some (P0, Next).
Proof.
  intros H'. destruct Hwf as (Hw & _). unfold prev_years.
  destruct (range_elem (ordinals (years fields)) None (Some (year_upper_bound P0)) _ eq_refl (proj1 Hw)) as [_ Hl].
  cbn [range mbind option_bind] in *. destruct (List.filter _ _) as [|x l]; [done|].
  destruct (proj1 (Hl x) (list_elem_of_here x l)) as (Hx & _ & Hle). specialize (H' x Hx). simpl in Hle. lia.
Qed.
End Prev.
End Levels.
End CronLevels.
