(* ===== verification/CronTheorems.v ===== *)
(** * cron: what the schedules promise

    In UTC and at a fixed offset a key is an instant and the order of keys is
    that of instants, so the first good key is the first firing of the
    schedule.  [next_after] and [prev_from] are the nearest firings, and the
    iterator enumerates them all. *)
From Stdlib Require Import ZArith Lia Sorted String.
From stdpp Require Import base list numbers option sorting sets.
From S2P Require Import Prelude Words Civil Posix Tzif TimeZone DateTime CronUnits CronNextQuery CronPrevQuery CronSchedule CronSearch CronLevels.
Import Civil Posix Tzif TimeZone DateTime CronUnits CronSchedule CronSearch CronLevels.

#[local] Close Scope string_scope.

Module CronTheorems.

Notation dim := CronSchedule.days_in_month.

(** ** Dates in order *)

Lemma dim_civil y mo : 1 <= mo <= 12 -> dim mo y = Civil.days_in_month y mo.
Proof.
  intros Hm. assert (Hl : CronSchedule.is_leap_year y = is_leap y).
  { rewrite is_leap_mod. unfold CronSchedule.is_leap_year.
    destruct (Z.eqb_spec (y mod 400) 0) as [H4|]; [|by destruct (y mod 4 =? 0), (y mod 100 =? 0)].
    assert (H' : y mod 4 = 0) by (Z.div_mod_to_equations; lia). rewrite H', orb_true_r, orb_true_r. done. }
  apply (month_cases (fun m => dim m y = Civil.days_in_month y m)); [done|..];
    unfold CronSchedule.days_in_month, Civil.days_in_month; rewrite Hl; simpl; by destruct (is_leap y).
Qed.

Lemma months_apart y m m' : 1 <= m -> m < m' <= 12 ->
  days_from_civil y m 1 + Civil.days_in_month y m <= days_from_civil y m' 1.
Proof.
  intros Hm Hm'. assert (Hle : m + 1 <= m') by lia. revert Hm'. pattern m'.
  apply Zlt_lower_bound_ind with (z := m + 1); [|done]. intros x IH Hx Hx'.
  pose proof (month_step y (x - 1) ltac:(lia)) as Hstep. rewrite Z.sub_add in Hstep.
  destruct (Z.eq_dec x (m + 1)) as [->|]; [rewrite Z.add_simpl_r in Hstep; lia|].
  specialize (IH (x - 1) ltac:(lia) ltac:(lia)). pose proof (days_in_month_pos y (x - 1) ltac:(lia)). lia.
Qed.

Lemma dates_apart y m d y' m' d' : valid y m d -> valid y' m' d' ->
  y < y' \/ (y = y' /\ (m < m' \/ (m = m' /\ d < d'))) ->
  days_from_civil y m d < days_from_civil y' m' d'.
Proof.
  intros Hv Hv' [Hy|[<- [Hm|[<- Hd]]]].
  - pose proof (date_in_year _ _ _ Hv) as [H1 _]. pose proof (date_in_year _ _ _ Hv') as [H2 _].
    pose proof (jan1_mono (y + 1) y' ltac:(lia)). lia.
  - destruct Hv as [Hv1 Hv2], Hv' as [Hv1' Hv2']. pose proof (months_apart y m m' ltac:(lia) ltac:(lia)).
    rewrite (days_linear y m d), (days_linear y m' d') by done. lia.
  - rewrite (days_linear y m d), (days_linear y m d') by apply Hv. lia.
Qed.

Definition local_key (k : list Z) : Z :=
  match k with [y; mo; d; h; mi; s] => local_of y mo d h mi s | _ => 0 end.

Definition real_key (k : list Z) : Prop :=
  exists y mo d h mi s, k = [y; mo; d; h; mi; s] /\ real y mo d h mi s.

Lemma real_valid y mo d h mi s : real y mo d h mi s -> valid y mo d.
Proof. intros (_ & Hmo & Hd & _). split; [done|]. by rewrite <- dim_civil. Qed.

(** The order of keys is that of instants. *)
Lemma key_order k k' : real_key k -> real_key k' -> key_le Z.lt k k' <-> local_key k <= local_key k'.
Proof.
  intros (y & mo & d & h & mi & s & -> & Hr) (y' & mo' & d' & h' & mi' & s' & -> & Hr').
  pose proof (real_valid _ _ _ _ _ _ Hr) as Hv. pose proof (real_valid _ _ _ _ _ _ Hr') as Hv'.
  destruct Hr as (_ & _ & _ & Hh & Hmi & Hs), Hr' as (_ & _ & _ & Hh' & Hmi' & Hs').
  pose proof (dates_apart _ _ _ _ _ _ Hv Hv') as H1. pose proof (dates_apart _ _ _ _ _ _ Hv' Hv) as H2.
  assert (H3 : y = y' -> mo = mo' -> d = d' -> days_from_civil y mo d = days_from_civil y' mo' d') by (by intros -> -> ->).
  simpl. unfold local_of, SECS_PER_DAY. set (D := days_from_civil y mo d) in *. set (D' := days_from_civil y' mo' d') in *.
  clearbody D D'. clear Hv Hv'. lia.
Qed.

Lemma key_order_down k k' : real_key k -> real_key k' -> key_le (fun a b => b < a) k k' <-> local_key k' <= local_key k.
Proof.
  intros Hk Hk'. rewrite <- key_order by done. destruct Hk as (y & mo & d & h & mi & s & -> & _).
  destruct Hk' as (y' & mo' & d' & h' & mi' & s' & -> & _). simpl. lia.
Qed.

(** ** Zones of constant offset *)

Section Constant.
Context `{!TzData}.

Lemma constant_offset z : constant_zone z -> exists o, small o /\ forall t, offset_at z t = Some o.
Proof.
  intros [->|(o & -> & Ho)]; [exists 0; split; [unfold small, OFFSET_LIMIT; lia|done]|by exists o].
Qed.

Variable fields : ScheduleFields.
Variable z : TimeZone.
Variable o : Z.
Hypothesis Hwf : wf_fields fields.
Hypothesis Hz : constant_zone z.
Hypothesis Hsmall : small o.
Hypothesis Ho : forall t, offset_at z t = Some o.

Definition instant (y mo d h mi s : Z) : DateTime := from_raw (local_of y mo d h mi s - o) 0 o z.

Lemma real_secs y mo d h mi s : real y mo d h mi s -> 0 <= local_of y mo d h mi s < 4133980800.
Proof.
  intros Hr. pose proof (real_valid _ _ _ _ _ _ Hr) as Hv. pose proof (date_in_year _ _ _ Hv) as [Hd _].
  destruct Hr as (Hy & _ & _ & Hh & Hmi & Hs). pose proof (jan1_mono 1970 y ltac:(lia)). pose proof (jan1_mono (y + 1) 2101 ltac:(lia)).
  assert (jan1 1970 = 0) by done. assert (jan1 2101 = 47847) by done. unfold local_of, SECS_PER_DAY. lia.
Qed.

Lemma instant_wf y mo d h mi s : real y mo d h mi s -> wf_dt (instant y mo d h mi s) /\
  parts (instant y mo d h mi s) = (y, mo, d, h, mi, s, 0).
Proof.
  intros Hr. pose proof (real_secs _ _ _ _ _ _ Hr) as Hs. pose proof (real_valid _ _ _ _ _ _ Hr) as Hv. split.
  - unfold wf_dt, instant. destruct secs_limits as [-> ->]. unfold small, OFFSET_LIMIT in *. cbn [secs nanos dt_offset DateTime.zone].
    split_and!; try lia. apply Ho.
  - destruct Hr as (Hy & _ & _ & Hh & Hmi & Hss). rewrite (parts_of_local _ y mo d h mi s); try done.
    + unfold year_ok. lia.
    + simpl. lia.
Qed.

Lemma candidate_eq y mo d h mi s : real y mo d h mi s ->
  from_parts (i32 y) (u8 mo) (u8 d) (u8 h) (u8 mi) (u8 s) 0 z = Some (Ok (instant y mo d h mi s)).
Proof.
  intros Hr. pose proof (real_secs _ _ _ _ _ _ Hr) as Hl. pose proof (real_valid _ _ _ _ _ _ Hr) as Hv.
  destruct Hr as (Hy & Hmo & Hd & Hh & Hmi & Hs). pose proof (days_in_month_28 mo y).
  rewrite i32_id, !u8_id by (unfold byte; lia).
  unfold from_parts, from_parts_with, NANOS_PER_SEC. cbn [Z.leb Z.compare]. pose proof (local_seconds_spec y mo d h mi s) as Hspec.
  destruct (local_seconds_checked y mo d h mi s) as [l|e].
  - destruct Hspec as [-> _]. rewrite Z.min_l by lia. unfold tbind at 1. cbn [mbind option_bind].
    rewrite (constant_resolve z _ _ 0 o) by (done || unfold local_ok; lia). unfold tbind. cbn [mbind option_bind]. unfold from_raw_checked.
    destruct secs_limits as [-> ->]. unfold small, OFFSET_LIMIT in *.
    destruct (Z.leb_spec (-377705116800) (local_of y mo d h mi s - o)), (Z.leb_spec (local_of y mo d h mi s - o) 253402300799); try lia.
    cbn [andb negb]. by rewrite Ho.
  - destruct Hspec as [[] _]. unfold civil_ok, MIN_YEAR, MAX_YEAR. split_and!; try lia; try apply Hv.
Qed.

(** The number of the weekday of a date, Sunday being 1. *)
Definition weekday_number (y mo d : Z) : Z := number_from_sunday (from_index (weekday_from_days (days_from_civil y mo d))) + 1.
Definition dead_day (y mo d : Z) : Prop := contains (ordinals (days_of_week fields)) (weekday_number y mo d) = false.

Lemma instant_weekday y mo d h mi s : real y mo d h mi s ->
  number_from_sunday (weekday (instant y mo d h mi s)) + 1 = weekday_number y mo d.
Proof.
  intros (_ & _ & _ & Hh & Hmi & Hs). unfold weekday, weekday_number. do 4 f_equal. simpl. unfold local_of, SECS_PER_DAY.
  symmetry. apply (Z.div_unique_pos _ _ _ (h * 3600 + mi * 60 + s)); lia.
Qed.

Lemma try_eq y mo d h mi s : real y mo d h mi s -> try_candidate fields z y mo d h mi s =
  Some (if contains (ordinals (days_of_week fields)) (weekday_number y mo d) then Return (instant y mo d h mi s) else NextDay).
Proof.
  intros Hr. unfold try_candidate. rewrite candidate_eq by done. cbn [mbind option_bind].
  rewrite instant_weekday by done. by destruct (contains _ _).
Qed.

Lemma try_total y mo d h mi s : real y mo d h mi s ->
  exists flow, try_candidate fields z y mo d h mi s = Some flow /\ (flow = NextDay -> dead_day y mo d) /\
    (dead_day y mo d -> forall dt, flow <> Return dt).
Proof.
  intros Hr. eexists. split; [by apply try_eq|]. unfold dead_day. destruct (contains _ _); split; done.
Qed.

(** ** Firings *)

(** A time the schedule fires at: a whole second that it includes. *)
Definition fires (s : Schedule) (z : TimeZone) (x : DateTime) : Prop :=
  wf_dt x /\ zone x = z /\ nanos x = 0 /\ schedule_includes s x = true.

Lemma good_year_inv k dt : good_year fields z k dt -> exists y mo d h mi s, k = [y; mo; d; h; mi; s] /\ real y mo d h mi s /\
  y ∈ ordinals (years fields) /\ mo ∈ ordinals (months fields) /\ d ∈ ordinals (days_of_month fields) /\
  h ∈ ordinals (hours fields) /\ mi ∈ ordinals (minutes fields) /\ s ∈ ordinals (seconds fields) /\
  contains (ordinals (days_of_week fields)) (weekday_number y mo d) = true /\ dt = instant y mo d h mi s.
Proof.
  intros (y & k1 & -> & Hy & mo & k2 & -> & Hmo & d & k3 & -> & [Hd Hdim] & h & k4 & -> & Hh & mi & k5 & -> & Hmi & s & k6 & -> & Hs & -> & Ht).
  destruct Hwf as (W1 & _ & W3 & W4 & W5 & W6 & W7).
  pose proof (unit_in _ _ W1 Hy). pose proof (unit_in _ _ W3 Hmo). pose proof (unit_in _ _ W4 Hd). pose proof (unit_in _ _ W5 Hh).
  pose proof (unit_in _ _ W6 Hmi). pose proof (unit_in _ _ W7 Hs). simpl in *.
  assert (Hr : real y mo d h mi s) by (unfold real; lia). rewrite try_eq in Ht by done.
  exists y, mo, d, h, mi, s. destruct (contains _ _); [|done]. injection Ht as <-. split_and!; first [assumption|reflexivity].
Qed.

Lemma good_year_intro y mo d h mi s : real y mo d h mi s -> y ∈ ordinals (years fields) -> mo ∈ ordinals (months fields) ->
  d ∈ ordinals (days_of_month fields) -> h ∈ ordinals (hours fields) -> mi ∈ ordinals (minutes fields) -> s ∈ ordinals (seconds fields) ->
  contains (ordinals (days_of_week fields)) (weekday_number y mo d) = true ->
  good_year fields z [y; mo; d; h; mi; s] (instant y mo d h mi s).
Proof.
  intros Hr Hy Hmo Hd Hh Hmi Hs Hw. do 2 (eexists _, _; split; [reflexivity|]; split; [eassumption|]).
  eexists _, _. split; [reflexivity|]. split; [split; [exact Hd|apply Hr]|]. do 3 (eexists _, _; split; [reflexivity|]; split; [eassumption|]).
  split; [reflexivity|]. rewrite try_eq by exact Hr. by rewrite Hw.
Qed.

(** The good keys are the firings. *)
Lemma fires_key src x : fires (CronSchedule.new src fields) z x <-> exists k, real_key k /\ good_year fields z k x /\ secs x + o = local_key k.
Proof.
  unfold fires, schedule_includes, includes. cbn [CronSchedule.fields]. rewrite !andb_true_iff, !contains_spec. split.
  - intros (Hx & Hzx & Hn & ((((((Hy & Hmo) & Hw) & Hd) & Hh) & Hmi) & Hs)).
    destruct (parts_valid x Hx) as (y & mo & d & h & mi & s & Hp & Hv & Hyo & Hhb & Hmib & Hsb & Hl & Hyb).
    unfold year, month, day, hour, minute, second in Hy, Hmo, Hd, Hh, Hmi, Hs. rewrite Hp in Hy, Hmo, Hd, Hh, Hmi, Hs.
    destruct Hwf as (W1 & _). pose proof (unit_in _ _ W1 Hy) as Hyr. cbn in Hyr.
    assert (Hu : u32 y = y).
    { unfold u32 in *. destruct (Z.le_gt_cases 0 y); [apply Z.mod_small; lia|].
      assert (y mod 2 ^ 32 = y + 2 ^ 32) by (symmetry; apply (Z.mod_unique_pos _ _ (-1)); lia). lia. }
    rewrite Hu in *. assert (Hoff : dt_offset x = o) by (destruct Hx as (_ & _ & Hx & _); rewrite Hzx, Ho in Hx; by injection Hx).
    assert (Hr : real y mo d h mi s).
    { unfold real. rewrite dim_civil by apply Hv. split_and!; try lia; apply Hv. }
    assert (Hxi : x = instant y mo d h mi s).
    { unfold instant. destruct x as [sx nx ox zx]. simpl in *. subst. f_equal. lia. }
    exists [y; mo; d; h; mi; s]. split; [by exists y, mo, d, h, mi, s|]. split; [|simpl; lia]. rewrite Hxi.
    apply good_year_intro; [exact Hr|exact Hy|exact Hmo|exact Hd|exact Hh|exact Hmi|exact Hs|].
    rewrite <- (instant_weekday y mo d h mi s Hr), <- Hxi. by apply contains_spec.
  - intros (k & _ & Hk & _). destruct (good_year_inv k x Hk) as (y & mo & d & h & mi & s & -> & Hr & Hy & Hmo & Hd & Hh & Hmi & Hs & Hw & ->).
    destruct (instant_wf y mo d h mi s Hr) as [Hx Hp]. split; [exact Hx|]. split; [reflexivity|]. split; [reflexivity|].
    unfold year, month, day, hour, minute, second. rewrite Hp.
    repeat match goal with |- _ /\ _ => split end; [|exact Hmo| |exact Hd|exact Hh|exact Hmi|exact Hs].
    + unfold u32. rewrite Z.mod_small; [exact Hy|]. unfold real in Hr. lia.
    + rewrite instant_weekday by exact Hr. by apply contains_spec.
Qed.

(** ** From keys to instants *)

(** The first firing at or after the second [lo], the last one up to [hi]. *)
Definition first_from (src : list Z) (lo : Z) (r : option DateTime) : Prop :=
  match r with
  | Some dt => fires (CronSchedule.new src fields) z dt /\ lo <= secs dt /\
      forall x, fires (CronSchedule.new src fields) z x -> lo <= secs x -> secs dt <= secs x
  | None => forall x, fires (CronSchedule.new src fields) z x -> secs x < lo
  end.

Definition last_to (src : list Z) (hi : Z) (r : option DateTime) : Prop :=
  match r with
  | Some dt => fires (CronSchedule.new src fields) z dt /\ secs dt <= hi /\
      forall x, fires (CronSchedule.new src fields) z x -> secs x <= hi -> secs x <= secs dt
  | None => forall x, fires (CronSchedule.new src fields) z x -> hi < secs x
  end.

Lemma good_year_real k dt : good_year fields z k dt -> real_key k /\ secs dt + o = local_key k.
Proof.
  intros Hk. destruct (good_year_inv k dt Hk) as (y & mo & d & h & mi & s & -> & Hr & _ & _ & _ & _ & _ & _ & _ & ->).
  split; [by exists y, mo, d, h, mi, s|]. simpl. lia.
Qed.

Lemma finds_first {Q} (L : Q) B src r : real_key B -> finds Z.lt L False (from_bound Z.lt true B (good_year fields z)) r ->
  exists q, r = Some q /\ first_from src (local_key B - o) (returned q).
Proof.
  intros HB (q & f & -> & Hf). exists (q, f). split; [done|]. unfold returned. cbn [snd]. destruct f as [| |dt].
  - destruct Hf as [_ Hf]. intros x (k & Hk & Hg & Hs)%fires_key. destruct (Z.lt_ge_cases (secs x) (local_key B - o)); [done|].
    destruct (Hf k x). split; [done|]. intros _. apply key_order; [done|done|lia].
  - by destruct Hf.
  - destruct Hf as (k & [Hg Hle] & Hmin). specialize (Hle eq_refl). destruct (good_year_real k dt Hg) as [Hk Hs].
    apply key_order in Hle; [|done|done]. split; [apply fires_key; by exists k|]. split; [lia|].
    intros x (k' & Hk' & Hg' & Hs')%fires_key Hx. assert (Hkk : key_le Z.lt k k').
    { apply (Hmin k' x). split; [done|]. intros _. apply key_order; [done|done|lia]. }
    apply key_order in Hkk; [lia|done|done].
Qed.

Lemma finds_last {Q} (L : Q) B src r : real_key B ->
  finds (fun a b => b < a) L False (from_bound (fun a b => b < a) true B (good_year fields z)) r ->
  exists q, r = Some q /\ last_to src (local_key B - o) (returned q).
Proof.
  intros HB (q & f & -> & Hf). exists (q, f). split; [done|]. unfold returned. cbn [snd]. destruct f as [| |dt].
  - destruct Hf as [_ Hf]. intros x (k & Hk & Hg & Hs)%fires_key. destruct (Z.lt_ge_cases (local_key B - o) (secs x)); [done|].
    destruct (Hf k x). split; [done|]. intros _. apply key_order_down; [done|done|lia].
  - by destruct Hf.
  - destruct Hf as (k & [Hg Hle] & Hmin). specialize (Hle eq_refl). destruct (good_year_real k dt Hg) as [Hk Hs].
    apply key_order_down in Hle; [|done|done]. split; [apply fires_key; by exists k|]. split; [lia|].
    intros x (k' & Hk' & Hg' & Hs')%fires_key Hx. assert (Hkk : key_le (fun a b => b < a) k k').
    { apply (Hmin k' x). split; [done|]. intros _. apply key_order_down; [done|done|lia]. }
    apply key_order_down in Hkk; [lia|done|done].
Qed.

(** The fields of a well-formed time of the zone. *)
Lemma start_fields start : wf_dt start -> zone start = z ->
  in_range start /\ valid (year start) (month start) (day start) /\ -10001 <= year start <= 10001 /\
  secs start + o = local_of (year start) (month start) (day start) (hour start) (minute start) (second start).
Proof.
  intros Hst Hzs. destruct (parts_valid start Hst) as (y & mo & d & h & mi & s & Hp & Hv & Hyo & Hh & Hmi & Hs & Hl & Hy).
  assert (Hoff : dt_offset start = o) by (destruct Hst as (_ & _ & Hx & _); rewrite Hzs, Ho in Hx; by injection Hx).
  unfold in_range, year, month, day, hour, minute, second. rewrite Hp. rewrite <- Hoff. split_and!; try lia; try apply Hv; try done.
  destruct Hv as [Hm Hd]. rewrite <- dim_civil in Hd by done. pose proof (days_in_month_28 mo y). lia.
Qed.

(** The key a search resumes from in year [y0]. *)
Definition resume (start : DateTime) (y0 : Z) : Z :=
  local_of y0 (month start) (day start) (hour start) (minute start) (second start).

Lemma resume_real start y0 : in_range start -> 1970 <= y0 <= 2100 -> day start <= dim (month start) y0 ->
  real y0 (month start) (day start) (hour start) (minute start) (second start).
Proof. intros (? & ? & ? & ? & ?) Hy Hd. unfold real. lia. Qed.

Lemma year_before y mo d h mi s y' mo' d' h' mi' s' : valid y mo d -> valid y' mo' d' -> y < y' ->
  0 <= h <= 23 -> 0 <= mi <= 59 -> 0 <= s <= 59 -> 0 <= h' <= 23 -> 0 <= mi' <= 59 -> 0 <= s' <= 59 ->
  local_of y mo d h mi s < local_of y' mo' d' h' mi' s'.
Proof. intros Hv Hv' Hy **. pose proof (dates_apart _ _ _ _ _ _ Hv Hv' ltac:(lia)). unfold local_of, SECS_PER_DAY. lia. Qed.

(** The two searches, exactly: they resume in the nearest year of the schedule
    at the month, day and time of day of the start. *)
Lemma next_search src start y0 : wf_dt start -> zone start = z -> 0 <= year start ->
  y0 ∈ ordinals (years fields) -> year start <= y0 ->
  (forall y, y ∈ ordinals (years fields) -> year start <= y -> y0 <= y) -> day start <= dim (month start) y0 ->
  exists q, next_years fields z (N0 start) = Some q /\ first_from src (resume start y0 - o) (returned q).
Proof.
  intros Hst Hzs Hy0 Hin Hle Hmin Hd. destruct (start_fields start Hst Hzs) as (Hr & _ & Hyr & _).
  assert (Hu : NextAfterQuery.year_lower_bound (N0 start) = year start)
    by (unfold NextAfterQuery.year_lower_bound, u32; simpl; apply Z.mod_small; lia).
  pose proof (unit_in _ _ (proj1 Hwf) Hin) as Hb. simpl in Hb.
  apply (finds_first (NL start) (y0 :: Bmo start)); [exists y0; do 5 eexists; split; [done|by apply resume_real]|].
  apply (next_years_finds fields z Hwf start Hr dead_day try_total y0); rewrite ?Hu; done.
Qed.

Lemma prev_search src start y0 : wf_dt start -> zone start = z -> 0 <= year start ->
  y0 ∈ ordinals (years fields) -> y0 <= year start ->
  (forall y, y ∈ ordinals (years fields) -> y <= year start -> y <= y0) -> day start <= dim (month start) y0 ->
  exists q, prev_years fields z (P0 start) = Some q /\ last_to src (resume start y0 - o) (returned q).
Proof.
  intros Hst Hzs Hy0 Hin Hle Hmin Hd. destruct (start_fields start Hst Hzs) as (Hr & _ & Hyr & _).
  assert (Hu : PrevFromQuery.year_upper_bound (P0 start) = year start)
    by (unfold PrevFromQuery.year_upper_bound, u32; simpl; apply Z.mod_small; lia).
  pose proof (unit_in _ _ (proj1 Hwf) Hin) as Hb. simpl in Hb.
  apply (finds_last (PL start) (y0 :: Bmo start)); [exists y0; do 5 eexists; split; [done|by apply resume_real]|].
  apply (prev_years_finds fields z Hwf start Hr dead_day try_total y0); rewrite ?Hu; done.
Qed.

Lemma first_from_shift src lo lo' r : (forall x, fires (CronSchedule.new src fields) z x -> lo <= secs x <-> lo' <= secs x) ->
  first_from src lo r -> first_from src lo' r.
Proof.
  intros Hs. destruct r as [dt|]; simpl.
  - intros (Hdt & Hle & Hmin). split; [done|]. split; [by apply Hs|]. intros x Hx Hlx. apply Hmin; [done|]. by apply Hs.
  - intros Hn x Hx. specialize (Hn x Hx). specialize (Hs x Hx). lia.
Qed.

Lemma last_to_shift src hi hi' r : (forall x, fires (CronSchedule.new src fields) z x -> secs x <= hi <-> secs x <= hi') ->
  last_to src hi r -> last_to src hi' r.
Proof.
  intros Hs. destruct r as [dt|]; simpl.
  - intros (Hdt & Hle & Hmin). split; [done|]. split; [by apply Hs|]. intros x Hx Hlx. apply Hmin; [done|]. by apply Hs.
  - intros Hn x Hx. specialize (Hn x Hx). specialize (Hs x Hx). lia.
Qed.

(** A firing lies in one of the schedule's years, a start in its own. *)
Lemma firing_span src x : fires (CronSchedule.new src fields) z x -> exists y, y ∈ ordinals (years fields) /\
  jan1 y * SECS_PER_DAY <= secs x + o < jan1 (y + 1) * SECS_PER_DAY.
Proof.
  intros (k & _ & Hg & Hs)%fires_key. destruct (good_year_inv k x Hg) as (y & mo & d & h & mi & s & -> & Hr & Hy & _).
  exists y. split; [done|]. pose proof (date_in_year _ _ _ (real_valid _ _ _ _ _ _ Hr)) as [Hj _].
  destruct Hr as (_ & _ & _ & Hh & Hmi & Hss). rewrite Hs. simpl. unfold local_of, SECS_PER_DAY. lia.
Qed.

Lemma start_span start : wf_dt start -> zone start = z ->
  jan1 (year start) * SECS_PER_DAY <= secs start + o < jan1 (year start + 1) * SECS_PER_DAY.
Proof.
  intros Hst Hzs. destruct (start_fields start Hst Hzs) as ((_ & _ & Hh & Hm & Hs) & Hv & _ & ->).
  pose proof (date_in_year _ _ _ Hv) as [Hj _]. unfold local_of, SECS_PER_DAY. lia.
Qed.

(** Resuming in the start's own year is resuming at the start. *)
Lemma resume_same start : wf_dt start -> zone start = z -> resume start (year start) = secs start + o.
Proof. intros Hst Hzs. by destruct (start_fields start Hst Hzs) as (_ & _ & _ & ->). Qed.

Lemma resume_first start y0 : month start = 1 -> day start = 1 -> hour start = 0 -> minute start = 0 -> second start = 0 ->
  resume start y0 = jan1 y0 * SECS_PER_DAY.
Proof. unfold resume, local_of. intros -> -> -> -> ->. fold (jan1 y0). lia. Qed.

Lemma year_end y : days_from_civil y 12 31 = jan1 (y + 1) - 1.
Proof.
  assert (Hv : valid y 12 31) by (unfold valid, Civil.days_in_month; simpl; lia).
  rewrite (proj2 (date_in_year _ _ _ Hv)), jan1_succ. unfold days_before, Civil.days_in_month. simpl. destruct (is_leap y); lia.
Qed.

Lemma resume_last start y0 : month start = 12 -> day start = 31 -> hour start = 23 -> minute start = 59 -> second start = 59 ->
  resume start y0 = jan1 (y0 + 1) * SECS_PER_DAY - 1.
Proof. unfold resume, local_of. intros -> -> -> -> ->. rewrite year_end. unfold SECS_PER_DAY. lia. Qed.

Lemma resume_small start y0 : in_range start -> 1970 <= y0 <= 2100 -> day start <= dim (month start) y0 ->
  0 <= resume start y0 < 4133980800.
Proof. intros Hr Hy Hd. by apply real_secs, resume_real. Qed.
End Constant.

Lemma first_year l lo : ascending l -> (forall y, y ∈ l -> y < lo) \/
  exists y0, y0 ∈ l /\ lo <= y0 /\ forall y, y ∈ l -> lo <= y -> y0 <= y.
Proof.
  induction l as [|x l IH]; intros Hl; [left; intros y Hy; by apply elem_of_nil in Hy|].
  apply ascending_cons in Hl as [Hx Hl]. destruct (Z.le_gt_cases lo x) as [Hle|Hlt].
  - right. exists x. split; [set_solver|]. split; [done|]. intros y [->|Hy]%elem_of_cons _; [lia|]. specialize (Hx y Hy). lia.
  - destruct (IH Hl) as [Hn|(y0 & H1 & H2 & H3)]; [left; intros y [->|Hy]%elem_of_cons; [lia|by apply Hn]|right].
    exists y0. split; [set_solver|]. split; [done|]. intros y [->|Hy]%elem_of_cons; [lia|by apply H3].
Qed.

Lemma last_year l hi : ascending l -> (forall y, y ∈ l -> hi < y) \/
  exists y0, y0 ∈ l /\ y0 <= hi /\ forall y, y ∈ l -> y <= hi -> y <= y0.
Proof.
  induction l as [|x l IH]; intros Hl; [left; intros y Hy; by apply elem_of_nil in Hy|].
  apply ascending_cons in Hl as [Hx Hl]. destruct (IH Hl) as [Hn|(y0 & H1 & H2 & H3)].
  - destruct (Z.le_gt_cases x hi); [right; exists x; split; [set_solver|]; split; [done|]|left].
    + intros y [->|Hy]%elem_of_cons; [lia|]. specialize (Hn y Hy). lia.
    + intros y [->|Hy]%elem_of_cons; [lia|by apply Hn].
  - right. exists y0. split; [set_solver|]. split; [done|]. intros y [->|Hy]%elem_of_cons; [|by apply H3].
    specialize (Hx y0 H1). lia.
Qed.

Section Promises.
Context `{!TzData}.

Lemma plus_second a : wf_dt a -> constant_zone (zone a) -> exists start, saturating_add a (mkDuration 1 0) = Some start /\
  wf_dt start /\ zone start = zone a /\ secs start = Z.min (secs a + 1) MAX_SECS.
Proof.
  intros Ha Hz. pose proof (constant_civil _ Hz) as Hcz.
  destruct (wp_elim _ _ (saturating_add_wp a (mkDuration 1 0) Ha Hcz ltac:(split; simpl; lia))) as (st & Hst & Hwf & Hzs & Hn).
  exists st. split_and!; try done. destruct Ha as (Hs1 & Hn1 & _), Hwf as (Hs2 & Hn2 & _).
  unfold unix_nanos, dur_nanos, MAX_NANOS in Hn. simpl in Hn. lia.
Qed.

Lemma minus_second a : wf_dt a -> constant_zone (zone a) -> exists start, saturating_sub a (mkDuration 1 0) = Some start /\
  wf_dt start /\ zone start = zone a /\ secs start = Z.max (secs a - 1) MIN_SECS.
Proof.
  intros Ha Hz. pose proof (constant_civil _ Hz) as Hcz.
  destruct (wp_elim _ _ (saturating_sub_wp a (mkDuration 1 0) Ha Hcz ltac:(split; simpl; lia))) as (st & Hst & Hwf & Hzs & Hn).
  exists st. split_and!; try done. destruct Ha as (Hs1 & Hn1 & _), Hwf as (Hs2 & Hn2 & _).
  unfold unix_nanos, dur_nanos, MIN_NANOS in Hn. simpl in Hn. lia.
Qed.

(** Starts the searches are right from: the year is not negative and is one of
    the schedule's, or the date is the first (last) second of its year, or no
    year of the schedule remains. *)
Definition aligned_next (s : Schedule) (start : DateTime) : Prop :=
  0 <= year start /\
  (year start ∈ ordinals (years (fields s)) \/
   (month start = 1 /\ day start = 1 /\ hour start = 0 /\ minute start = 0 /\ second start = 0) \/
   forall y, y ∈ ordinals (years (fields s)) -> y < year start).

Definition aligned_prev (s : Schedule) (start : DateTime) : Prop :=
  0 <= year start /\
  (year start ∈ ordinals (years (fields s)) \/
   (month start = 12 /\ day start = 31 /\ hour start = 23 /\ minute start = 59 /\ second start = 59) \/
   forall y, y ∈ ordinals (years (fields s)) -> year start < y).

(** The year the search resumes in, when there is one. *)
Lemma next_after_year s start y0 : aligned_next s start -> valid (year start) (month start) (day start) ->
  y0 ∈ ordinals (years (fields s)) -> year start <= y0 ->
  (forall y, y ∈ ordinals (years (fields s)) -> year start <= y -> y0 <= y) ->
  day start <= dim (month start) y0 /\ (y0 = year start \/ (year start < y0 /\ month start = 1 /\ day start = 1 /\ hour start = 0 /\ minute start = 0 /\ second start = 0)).
Proof.
  intros [_ [Hys|[(Hm & Hd & Hh & Hmi & Hs)|Hn]]] Hv Hin Hle Hmin.
  - assert (y0 = year start) as -> by (specialize (Hmin _ Hys); lia). rewrite dim_civil by apply Hv. split; [apply Hv|by left].
  - rewrite Hm. pose proof (days_in_month_28 1 y0). split; [lia|]. destruct (Z.eq_dec y0 (year start)); [by left|right; lia].
  - specialize (Hn y0 Hin). lia.
Qed.

Lemma next_after_first s a start : wf_fields (fields s) -> constant_zone (zone a) -> wf_dt a ->
  saturating_add a (mkDuration 1 0) = Some start -> aligned_next s start ->
  exists r, next_after s a = Some r /\ first_from (fields s) (zone a) (source s) (secs a + 1) r.
Proof.
  destruct s as [src f]. cbn [fields source]. intros Hwf Hz Ha Hadd Hal. pose proof (proj1 Hal) as Hy0.
  destruct (plus_second a Ha Hz) as (st & Hadd' & Hst & Hzs & Hsec). rewrite Hadd in Hadd'. injection Hadd' as <-.
  destruct (constant_offset _ Hz) as (o & Hsm & Ho). destruct (start_fields _ o Ho start Hst Hzs) as (Hr & Hv & Hyr & _).
  pose proof (start_span _ o Ho start Hst Hzs) as Hspan. destruct secs_limits as [_ HMax].
  assert (Hrun : next_after (CronSchedule.new src f) a = returned <$> next_years f (zone a) (N0 start))
    by (unfold next_after, NextAfterQuery.from; by rewrite Hadd).
  assert (Hxs : forall x, fires (CronSchedule.new src f) (zone a) x -> secs x <= MAX_SECS) by (intros x (Hx & _); apply Hx).
  destruct (first_year (ordinals (years f)) (year start) (proj1 (proj1 Hwf))) as [Hn|(y0 & Hin & Hle & Hmin)].
  - exists None. rewrite Hrun, next_years_none; [split; [done|]|done|].
    + intros x Hx. destruct (firing_span f _ o Hwf Hz Hsm Ho src x Hx) as (y & Hy & Hxy). specialize (Hn y Hy).
      pose proof (jan1_mono (y + 1) (year start) ltac:(lia)). unfold SECS_PER_DAY in *. lia.
    + intros y Hy. unfold NextAfterQuery.year_lower_bound, u32. simpl. rewrite Z.mod_small by lia. by apply Hn.
  - destruct (next_after_year (CronSchedule.new src f) start y0 Hal Hv Hin Hle Hmin) as [Hd Hcase].
    destruct (next_search f _ o Hwf Hz Hsm Ho src start y0 Hst Hzs Hy0 Hin Hle Hmin Hd) as (q & Hq & Hff).
    exists (returned q). split; [by rewrite Hrun, Hq|]. eapply first_from_shift; [|exact Hff]. intros x Hx. specialize (Hxs x Hx).
    pose proof (unit_in _ _ (proj1 Hwf) Hin) as Hyb. simpl in Hyb. destruct Hcase as [->|(Hlt & Hm & Hd1 & Hh & Hmi & Hs)].
    + pose proof (resume_small start (year start) Hr Hyb Hd) as Hsmall. rewrite (resume_same _ o Ho start Hst Hzs) in *.
      unfold small, OFFSET_LIMIT in Hsm. lia.
    + rewrite resume_first by done. destruct (firing_span f _ o Hwf Hz Hsm Ho src x Hx) as (y & Hy & Hxy). specialize (Hmin y Hy).
      pose proof (jan1_mono (y + 1) (year start)) as J1. pose proof (jan1_mono (year start + 1) y0) as J2. pose proof (jan1_mono y0 y) as J3. unfold SECS_PER_DAY in *. lia.
Qed.

(** The year the search resumes in, when there is one. *)
Lemma prev_from_year s start y0 : aligned_prev s start -> valid (year start) (month start) (day start) ->
  y0 ∈ ordinals (years (fields s)) -> y0 <= year start ->
  (forall y, y ∈ ordinals (years (fields s)) -> y <= year start -> y <= y0) ->
  day start <= dim (month start) y0 /\ (y0 = year start \/ (y0 < year start /\ month start = 12 /\ day start = 31 /\ hour start = 23 /\ minute start = 59 /\ second start = 59)).
Proof.
  intros [_ [Hys|[(Hm & Hd & Hh & Hmi & Hs)|Hn]]] Hv Hin Hle Hmin.
  - assert (y0 = year start) as -> by (specialize (Hmin _ Hys); lia). rewrite dim_civil by apply Hv. split; [apply Hv|by left].
  - rewrite Hm, Hd. split; [change (dim 12 y0) with 31; lia|]. destruct (Z.eq_dec y0 (year start)); [by left|right; lia].
  - specialize (Hn y0 Hin). lia.
Qed.

Lemma prev_from_last s a start : wf_fields (fields s) -> constant_zone (zone a) -> wf_dt a ->
  saturating_sub a (mkDuration 1 0) = Some start -> aligned_prev s start ->
  exists r, prev_from s a = Some r /\ last_to (fields s) (zone a) (source s) (secs a - 1) r.
Proof.
  destruct s as [src f]. cbn [fields source]. intros Hwf Hz Ha Hadd Hal. pose proof (proj1 Hal) as Hy0.
  destruct (minus_second a Ha Hz) as (st & Hadd' & Hst & Hzs & Hsec). rewrite Hadd in Hadd'. injection Hadd' as <-.
  destruct (constant_offset _ Hz) as (o & Hsm & Ho). destruct (start_fields _ o Ho start Hst Hzs) as (Hr & Hv & Hyr & _).
  pose proof (start_span _ o Ho start Hst Hzs) as Hspan. destruct secs_limits as [HMin _].
  assert (Hrun : prev_from (CronSchedule.new src f) a = returned <$> prev_years f (zone a) (P0 start))
    by (unfold prev_from, PrevFromQuery.from; by rewrite Hadd).
  assert (Hxs : forall x, fires (CronSchedule.new src f) (zone a) x -> MIN_SECS <= secs x) by (intros x (Hx & _); apply Hx).
  destruct (last_year (ordinals (years f)) (year start) (proj1 (proj1 Hwf))) as [Hn|(y0 & Hin & Hle & Hmin)].
  - exists None. rewrite Hrun, prev_years_none; [split; [done|]|done|].
    + intros x Hx. destruct (firing_span f _ o Hwf Hz Hsm Ho src x Hx) as (y & Hy & Hxy). specialize (Hn y Hy).
      pose proof (jan1_mono (year start + 1) y ltac:(lia)). unfold SECS_PER_DAY in *. lia.
    + intros y Hy. unfold PrevFromQuery.year_upper_bound, u32. simpl. rewrite Z.mod_small by lia. by apply Hn.
  - destruct (prev_from_year (CronSchedule.new src f) start y0 Hal Hv Hin Hle Hmin) as [Hd Hcase].
    destruct (prev_search f _ o Hwf Hz Hsm Ho src start y0 Hst Hzs Hy0 Hin Hle Hmin Hd) as (q & Hq & Hff).
    exists (returned q). split; [by rewrite Hrun, Hq|]. eapply last_to_shift; [|exact Hff]. intros x Hx. specialize (Hxs x Hx).
    pose proof (unit_in _ _ (proj1 Hwf) Hin) as Hyb. simpl in Hyb. destruct Hcase as [->|(Hlt & Hm & Hd1 & Hh & Hmi & Hs)].
    + pose proof (resume_small start (year start) Hr Hyb Hd) as Hsmall. rewrite (resume_same _ o Ho start Hst Hzs) in *.
      unfold small, OFFSET_LIMIT in Hsm. lia.
    + rewrite resume_last by done. destruct (firing_span f _ o Hwf Hz Hsm Ho src x Hx) as (y & Hy & Hxy). specialize (Hmin y Hy).
      pose proof (jan1_mono (year start + 1) y) as J1. pose proof (jan1_mono (y0 + 1) (year start)) as J2. pose proof (jan1_mono (y + 1) (y0 + 1)) as J3. unfold SECS_PER_DAY in *. lia.
Qed.

(** ** In nanoseconds *)

(** The first firing strictly after a time; the last one at least a second
    before it. *)
Definition first_after (s : Schedule) (a : DateTime) (r : option DateTime) : Prop :=
  match r with
  | Some dt => fires s (zone a) dt /\ unix_nanos a < unix_nanos dt /\
      forall x, fires s (zone a) x -> unix_nanos a < unix_nanos x -> unix_nanos dt <= unix_nanos x
  | None => forall x, fires s (zone a) x -> unix_nanos x <= unix_nanos a
  end.

Definition last_before (s : Schedule) (a : DateTime) (r : option DateTime) : Prop :=
  match r with
  | Some dt => fires s (zone a) dt /\ unix_nanos dt + NANOS_PER_SEC <= unix_nanos a /\
      forall x, fires s (zone a) x -> unix_nanos x + NANOS_PER_SEC <= unix_nanos a -> unix_nanos x <= unix_nanos dt
  | None => forall x, fires s (zone a) x -> unix_nanos a < unix_nanos x + NANOS_PER_SEC
  end.

Lemma fires_nanos s z x : fires s z x -> unix_nanos x = secs x * NANOS_PER_SEC.
Proof. intros (_ & _ & Hn & _). unfold unix_nanos, NANOS_PER_SEC. lia. Qed.

Lemma first_from_after s a r : wf_dt a -> first_from (fields s) (zone a) (source s) (secs a + 1) r -> first_after s a r.
Proof.
  intros (_ & Hn & _). destruct s as [src f]. unfold first_from, first_after. cbn [fields source]. destruct r as [dt|].
  - intros (Hdt & Hle & Hmin). split; [done|]. rewrite (fires_nanos _ _ dt Hdt). unfold unix_nanos, NANOS_PER_SEC in *.
    split; [lia|]. intros x Hx. pose proof (fires_nanos _ _ x Hx) as Hxn. unfold unix_nanos, NANOS_PER_SEC in Hxn.
    specialize (Hmin x Hx). lia.
  - intros Hnone x Hx. specialize (Hnone x Hx). pose proof (fires_nanos _ _ x Hx) as Hxn. unfold unix_nanos, NANOS_PER_SEC in *. lia.
Qed.

Lemma last_to_before s a r : wf_dt a -> last_to (fields s) (zone a) (source s) (secs a - 1) r -> last_before s a r.
Proof.
  intros (_ & Hn & _). destruct s as [src f]. unfold last_to, last_before. cbn [fields source]. destruct r as [dt|].
  - intros (Hdt & Hle & Hmin). split; [done|]. rewrite (fires_nanos _ _ dt Hdt). unfold unix_nanos, NANOS_PER_SEC in *.
    split; [lia|]. intros x Hx. pose proof (fires_nanos _ _ x Hx) as Hxn. unfold unix_nanos, NANOS_PER_SEC in Hxn.
    specialize (Hmin x Hx). lia.
  - intros Hnone x Hx. specialize (Hnone x Hx). pose proof (fires_nanos _ _ x Hx) as Hxn. unfold unix_nanos, NANOS_PER_SEC in *. lia.
Qed.

Lemma fires_unique s z x y : fires s z x -> fires s z y -> unix_nanos x = unix_nanos y -> x = y.
Proof. intros (Hx & Hzx & _) (Hy & Hzy & _) Heq. apply dt_ext; [done|done|congruence|done]. Qed.

(** ** Iterating *)

(** A time the iterator can go on from. *)
Definition ready (s : Schedule) (a : DateTime) : Prop :=
  wf_dt a /\ constant_zone (zone a) /\ exists start, saturating_add a (mkDuration 1 0) = Some start /\ aligned_next s start.

(** A firing always is: its next second is in the same year, or is the first
    of the next one. *)
Lemma fires_ready s z p : wf_fields (fields s) -> constant_zone z -> fires s z p -> ready s p.
Proof.
  destruct s as [src f]. cbn [fields]. intros Hwf Hz Hp. pose proof Hp as (Hwp & Hzp & _). subst z. split; [done|]. split; [done|].
  destruct (plus_second p Hwp Hz) as (st & Hadd & Hst & Hzs & Hsec). exists st. split; [done|].
  destruct (constant_offset _ Hz) as (o & Hsm & Ho). destruct (firing_span f _ o Hwf Hz Hsm Ho src p Hp) as (y & Hy & Hspan).
  pose proof (start_span _ o Ho st Hst Hzs) as Hsspan. pose proof (unit_in _ _ (proj1 Hwf) Hy) as Hyb. simpl in Hyb.
  pose proof (jan1_mono (y + 1) 2101 ltac:(lia)). assert (jan1 2101 = 47847) by done. destruct secs_limits as [_ HMax].
  unfold small, OFFSET_LIMIT in Hsm. unfold SECS_PER_DAY in *.
  assert (Hsec' : secs st = secs p + 1) by lia. clear Hsec HMax.
  pose proof (jan1_mono (y + 1) (year st)) as J1. pose proof (jan1_mono (year st + 1) y) as J2.
  pose proof (jan1_mono (y + 2) (year st)) as J3. pose proof (jan1_succ (y + 1)) as J4. replace (y + 1 + 1) with (y + 2) in J4 by lia.
  split; [destruct (Z.le_gt_cases 0 (year st)); [done|lia]|]. cbn [fields].
  destruct (Z.eq_dec (year st) y) as [->|Hne]; [by left|]. right. left.
  assert (Hys : year st = y + 1) by (destruct (is_leap (y + 1)); lia).
  assert (Hoff : dt_offset st = o) by (destruct Hst as (_ & _ & Hx & _); rewrite Hzs, Ho in Hx; by injection Hx).
  rewrite Hys in Hsspan. assert (Hv : valid (y + 1) 1 1) by (unfold valid, Civil.days_in_month; simpl; lia).
  assert (Hp' : parts st = (y + 1, 1, 1, 0, 0, 0, nanos st)).
  { apply parts_of_local; [done|unfold year_ok; lia|lia|lia|lia|]. rewrite Hoff. unfold local_of, SECS_PER_DAY.
    fold (jan1 (y + 1)). lia. }
  unfold month, day, hour, minute, second. by rewrite Hp'.
Qed.

Lemma next_ready s a : wf_fields (fields s) -> ready s a -> exists r,
  next (after s a) = Some (r, mkIterator s r) /\ first_after s a r /\
  forall p, r = Some p -> ready s p /\ zone p = zone a.
Proof.
  intros Hwf (Ha & Hz & start & Hadd & Hal). destruct (next_after_first s a start Hwf Hz Ha Hadd Hal) as (r & Hr & Hff).
  apply first_from_after in Hff; [|done]. exists r. split; [|split; [done|]].
  - unfold next, after. cbn [previous_datetime schedule]. rewrite Hr. by destruct r.
  - intros p ->. destruct Hff as (Hp & _). split; [by apply (fires_ready s (zone a))|apply Hp].
Qed.

Lemma take_next_spec s n : wf_fields (fields s) -> forall a, ready s a -> exists l, take_next n (after s a) = Some l /\
  StronglySorted (fun x y => unix_nanos x < unix_nanos y) l /\
  (forall x, x ∈ l -> fires s (zone a) x /\ unix_nanos a < unix_nanos x) /\
  (forall x, fires s (zone a) x -> unix_nanos a < unix_nanos x -> x ∈ l \/ (length l = n /\ forall y, y ∈ l -> unix_nanos y < unix_nanos x)).
Proof.
  intros Hwf. induction n as [|n IH]; intros a Ha.
  { exists []. split; [done|]. split; [constructor|]. split; [intros x Hx; by apply elem_of_nil in Hx|].
    intros x _ _. right. split; [done|]. intros y Hy. by apply elem_of_nil in Hy. }
  destruct (next_ready s a Hwf Ha) as (r & Hr & Hf & Hp). cbn [take_next]. rewrite Hr. cbn [mbind option_bind]. destruct r as [p|].
  - destruct (Hp p eq_refl) as [Hrp Hzp]. destruct (IH p Hrp) as (l & Hl & Hs & Hin & Hall). unfold after in Hl. rewrite Hl.
    cbn [mbind option_bind]. rewrite Hzp in *. destruct Hf as (Hfp & Hlt & Hmin). exists (p :: l). split; [done|]. split.
    { constructor; [done|]. apply Forall_forall. intros x Hx. by apply Hin. }
    split. { intros x [->|Hx]%elem_of_cons; [done|]. destruct (Hin x Hx). split; [done|lia]. }
    intros x Hx Hax. specialize (Hmin x Hx Hax). destruct (Z.eq_dec (unix_nanos x) (unix_nanos p)) as [He|Hne].
    + left. rewrite (fires_unique s (zone a) x p Hx Hfp He). by left.
    + destruct (Hall x Hx ltac:(lia)) as [?|[Hlen Hy]]; [left; by right|right]. split; [simpl; lia|].
      intros y [->|Hyl]%elem_of_cons; [lia|by apply Hy].
  - exists []. split; [done|]. split; [constructor|]. split; [intros x Hx; by apply elem_of_nil in Hx|].
    intros x Hx Hax. specialize (Hf x Hx). lia.
Qed.

Lemma reaches s x : wf_fields (fields s) -> forall n a, ready s a -> fires s (zone a) x -> unix_nanos a < unix_nanos x ->
  unix_nanos x - unix_nanos a <= Z.of_nat n -> exists m l, take_next m (after s a) = Some l /\ x ∈ l.
Proof.
  intros Hwf. induction n as [|n IH]; intros a Ha Hx Hlt Hn; [lia|].
  destruct (next_ready s a Hwf Ha) as (r & Hr & Hf & Hp). destruct r as [p|]; [|specialize (Hf x Hx); lia].
  destruct Hf as (Hfp & Hap & Hmin). specialize (Hmin x Hx Hlt). destruct (Hp p eq_refl) as [Hrp Hzp].
  assert (Hcons : forall m l, take_next m (after s p) = Some l -> take_next (S m) (after s a) = Some (p :: l)).
  { intros m l Hl. cbn [take_next]. rewrite Hr. cbn [mbind option_bind]. unfold after in Hl. by rewrite Hl. }
  destruct (Z.eq_dec (unix_nanos x) (unix_nanos p)) as [He|Hne].
  - exists 1%nat, [p]. split; [by apply Hcons|]. rewrite (fires_unique s (zone a) x p Hx Hfp He). by left.
  - destruct (IH p Hrp) as (m & l & Hl & Hin); [by rewrite Hzp|lia|lia|]. exists (S m), (p :: l). split; [by apply Hcons|by right].
Qed.
End Promises.

(** ** Claims *)

(** C38: the nearest firings.  In UTC or at a fixed offset, for a schedule whose
    units are well formed and a time whose next second is in one of the
    schedule's years (or opens its year, or comes after all of them),
    [next_after] does not panic and returns the first firing strictly after the
    time: a whole second that the schedule includes, with no other in between;
    it returns [None] only when there is none.  Under the mirrored condition
    [prev_from] returns the last firing at least a second before the time. *)
Theorem nearest_firings `{!TzData} s a : wf_fields (fields s) -> constant_zone (zone a) -> wf_dt a ->
  (forall start, saturating_add a (mkDuration 1 0) = Some start -> aligned_next s start ->
     exists r, next_after s a = Some r /\ first_after s a r) /\
  (forall start, saturating_sub a (mkDuration 1 0) = Some start -> aligned_prev s start ->
     exists r, prev_from s a = Some r /\ last_before s a r).
Proof.
  intros Hwf Hz Ha. split; intros start Hst Hal.
  - destruct (next_after_first s a start Hwf Hz Ha Hst Hal) as (r & Hr & Hff). exists r. split; [done|]. by apply first_from_after.
  - destruct (prev_from_last s a start Hwf Hz Ha Hst Hal) as (r & Hr & Hff). exists r. split; [done|]. by apply last_to_before.
Qed.

(** C39: the iterator enumerates the firings, in UTC or at a fixed offset, from a
    start that is not itself a firing and that is [ready]: the second after it is
    in a year of the schedule, or is the first second of its year, or is after
    all years of the schedule, and not before the year 0.
    [n] calls of [next] return firings in strictly increasing order and skip
    none: a firing at or after the start that is missing comes after all of the
    [n] returned.  Every firing at or after the start is eventually returned.
    (From a start that fires, the first answer is the firing after it; and
    [first_year_not_reset] shows starts that are not aligned.) *)
Theorem iterator_complete `{!TzData} s a : wf_fields (fields s) -> ready s a -> ~ fires s (zone a) a ->
  (forall n, exists l, take_next n (after s a) = Some l /\
     StronglySorted (fun x y => unix_nanos x < unix_nanos y) l /\
     (forall x, x ∈ l -> fires s (zone a) x /\ unix_nanos a < unix_nanos x) /\
     (forall x, fires s (zone a) x -> unix_nanos a <= unix_nanos x ->
        x ∈ l \/ (length l = n /\ forall y, y ∈ l -> unix_nanos y < unix_nanos x))) /\
  (forall x, fires s (zone a) x -> unix_nanos a <= unix_nanos x -> exists n l, take_next n (after s a) = Some l /\ x ∈ l).
Proof.
  intros Hwf Ha Hna. assert (Hlt : forall x, fires s (zone a) x -> unix_nanos a <= unix_nanos x -> unix_nanos a < unix_nanos x).
  { intros x Hx Hle. destruct (Z.eq_dec (unix_nanos a) (unix_nanos x)) as [E|]; [|lia]. destruct Hna.
    rewrite (dt_ext a x (proj1 Ha) (proj1 Hx) (eq_sym (proj1 (proj2 Hx))) E) at 2. done. }
  split.
  - intros n. destruct (take_next_spec s n Hwf a Ha) as (l & H1 & H2 & H3 & H4). exists l. split_and!; auto.
  - intros x Hx Hle. apply (reaches s x Hwf (Z.to_nat (unix_nanos x - unix_nanos a)) a Ha Hx (Hlt x Hx Hle)). lia.
Qed.

(** ** Concrete instances *)

Section Instances.
#[local] Instance no_data : TzData := {| ABBREVIATIONS := [] |}.

(** A time of UTC. *)
Definition utc (y mo d h mi s ns : Z) : DateTime := from_raw (local_of y mo d h mi s) ns 0 Utc.
Definition weekly : Schedule := CronSchedule.new (lit "@weekly") shorthand_weekly.

Lemma weekly_wf : wf_fields (fields weekly).
Proof.
  unfold wf_fields, weekly, shorthand_weekly, new_fields. cbn [fields years days_of_week months days_of_month hours minutes seconds].
  split_and!; first [apply all_wf|apply from_ordinal_wf; simpl; lia].
Qed.

Lemma utc_time_wf y mo d h mi s ns : MIN_SECS <= local_of y mo d h mi s <= MAX_SECS -> 0 <= ns < 1000000000 ->
  wf_dt (utc y mo d h mi s ns).
Proof. intros Hs Hn. split; [done|]. split; [done|]. split; [done|]. unfold small, OFFSET_LIMIT. simpl. lia. Qed.

(** The Sundays around Wednesday 2024-02-28, across the leap day. *)
Lemma nearest_firings_witness :
  let a := utc 2024 2 28 12 0 0 500000000 in
  next_after weekly a = Some (Some (utc 2024 3 3 0 0 0 0)) /\ prev_from weekly a = Some (Some (utc 2024 2 25 0 0 0 0)) /\
  (exists r, next_after weekly a = Some r /\ first_after weekly a r) /\ (exists r, prev_from weekly a = Some r /\ last_before weekly a r).
Proof.
  intros a. split; [by vm_compute|]. split; [by vm_compute|].
  assert (Ha : wf_dt a) by (apply utc_time_wf; [vm_compute; split; discriminate|lia]).
  destruct (nearest_firings weekly a weekly_wf (or_introl eq_refl) Ha) as [Hnext Hprev]. split.
  - apply (Hnext (utc 2024 2 28 12 0 1 500000000)); [by vm_compute|]. split; [by vm_compute|]. left. apply contains_spec. by vm_compute.
  - apply (Hprev (utc 2024 2 28 11 59 59 500000000)); [by vm_compute|]. split; [by vm_compute|]. left. apply contains_spec. by vm_compute.
Defined.

Lemma weekly_ready : ready weekly (utc 2100 12 12 12 0 0 0).
Proof.
  split; [apply utc_time_wf; [vm_compute; split; discriminate|lia]|]. split; [by left|]. exists (utc 2100 12 12 12 0 1 0).
  split; [by vm_compute|]. split; [by vm_compute|]. left. apply contains_spec. by vm_compute.
Qed.

(** The last Sundays of the last year, then nothing. *)
Lemma iterator_witness :
  take_next 3 (after weekly (utc 2100 12 12 12 0 0 0)) = Some [utc 2100 12 19 0 0 0 0; utc 2100 12 26 0 0 0 0] /\
  exists n l, take_next n (after weekly (utc 2100 12 12 12 0 0 0)) = Some l /\ utc 2100 12 26 0 0 0 0 ∈ l.
Proof.
  split; [by vm_compute|]. assert (Hna : ~ fires weekly (zone (utc 2100 12 12 12 0 0 0)) (utc 2100 12 12 12 0 0 0)).
  { intros (_ & _ & _ & H). vm_compute in H. discriminate H. }
  apply (proj2 (iterator_complete weekly (utc 2100 12 12 12 0 0 0) weekly_wf weekly_ready Hna)).
  - split; [apply utc_time_wf; [vm_compute; split; discriminate|lia]|]. split; [reflexivity|]. split; [reflexivity|]. by vm_compute.
  - by vm_compute.
Defined.

(** A start that fires is not returned: the firing after it comes first. *)
Example start_not_returned :
  schedule_includes weekly (utc 2100 12 12 0 0 0 0) = true /\
  take_next 1 (after weekly (utc 2100 12 12 0 0 0 0)) = Some [utc 2100 12 19 0 0 0 0].
Proof. by vm_compute. Qed.

(** *** Starts outside the schedule's years

    Nothing resets the query when the first year of the range is not the year
    of the start, so the search resumes there at the start's month and day:
    midnight of 2020-01-01 is missed from June 2018, and the days of 2100
    before the 1st of March from February 2024. *)
Definition new_year_2020 : Schedule := CronSchedule.new (lit "0 0 0 1 1 * 2020")
  (new_fields (from_ordinal _ 0) (from_ordinal _ 0) (from_ordinal _ 0) (from_ordinal _ 1) (from_ordinal _ 1) (all _) (from_ordinal _ 2020)).
Definition midnights_2100 : Schedule := CronSchedule.new (lit "0 0 0 * * * 2100")
  (new_fields (from_ordinal _ 0) (from_ordinal _ 0) (from_ordinal _ 0) (all _) (all _) (all _) (from_ordinal _ 2100)).

Example first_year_not_reset :
  next_after new_year_2020 (utc 2018 6 15 0 0 0 0) = Some None /\
  schedule_includes new_year_2020 (utc 2020 1 1 0 0 0 0) = true /\
  next_after midnights_2100 (utc 2024 2 29 10 0 0 0) = Some (Some (utc 2100 3 1 0 0 0 0)) /\
  schedule_includes midnights_2100 (utc 2100 1 1 0 0 0 0) = true.
Proof. by vm_compute. Qed.

(** A negative year becomes a large [u32]: nothing is found after it, and times
    two thousand years later are found "before" it. *)
Example negative_year :
  next_after new_year_2020 (utc (-5) 6 15 0 0 0 0) = Some None /\
  prev_from new_year_2020 (utc (-5) 6 15 0 0 0 0) = Some (Some (utc 2020 1 1 0 0 0 0)).
Proof. by vm_compute. Qed.

(** Going back from within a second skips the second itself. *)
Example back_within_a_second :
  prev_from weekly (utc 2024 3 3 0 0 0 500000000) = Some (Some (utc 2024 2 25 0 0 0 0)).
Proof. by vm_compute. Qed.

(** The example of the crate's documentation, from the end of 2017. *)
Definition items {T} `{!TimeUnitField T} (l : list RootSpecifier) : T :=
  match from_field T l with Ok u => u | Err _ => all T end.
Definition documented : Schedule := CronSchedule.new (lit "0   30   9,12,15     1,15       May-Aug  Mon,Wed,Fri  2018/2")
  (new_fields (items [Spec (Point 0)]) (items [Spec (Point 30)]) (items [Spec (Point 9); Spec (Point 12); Spec (Point 15)])
     (items [Spec (Point 1); Spec (Point 15)]) (items [Spec (NamedRange (lit "May") (lit "Aug"))])
     (items [NamedPoint (lit "Mon"); NamedPoint (lit "Wed"); NamedPoint (lit "Fri")]) (items [Period (Point 2018) 2])).

Example documented_times :
  take_next 10 (after documented (utc 2017 12 31 23 59 59 0)) = Some [
    utc 2018 6 1 9 30 0 0; utc 2018 6 1 12 30 0 0; utc 2018 6 1 15 30 0 0;
    utc 2018 6 15 9 30 0 0; utc 2018 6 15 12 30 0 0; utc 2018 6 15 15 30 0 0;
    utc 2018 8 1 9 30 0 0; utc 2018 8 1 12 30 0 0; utc 2018 8 1 15 30 0 0; utc 2018 8 15 9 30 0 0].
Proof. by vm_compute. Qed.
End Instances.

End CronTheorems.
