(* ===== verification/Hasher.v ===== *)
(** * crypto: digests and the trait [Hasher]

    src/crypto/src/bytes.rs and the trait [Hasher] of src/crypto/src/crypto.rs.
    A [Bytes<N>] is its array, whose length is [N], and the number of bytes in
    use.  [Hasher] is the class of the trait, [HasherLaws] its contract: a
    hasher stands for the message it has absorbed, and its sum is a function of
    that message alone.  [HmacFits] is the bound on the sizes that [Hmac] needs.  [as_mut], a mutable view, is left out. *)
From Stdlib Require Import ZArith Lia.
From stdpp Require Import base list numbers option.
From S2P Require Import Prelude Words ConstEq.
Import ConstEq.

Module Hasher.

Definition MAX_HASH_BLOCK_SIZE : nat := 136.
Definition MAX_HASH_OUTPUT_SIZE : nat := 64.

Inductive HashError := TooLong.

(** ** [Bytes<N>] *)

Record Bytes := mkBytes { array : list Z; length_ : Z }.

Definition Bytes_new (N : nat) : option Bytes :=
  _ ← rassert (Z.of_nat N <=? 65535);
  Some (mkBytes (replicate N 0) 0).

Definition len (self : Bytes) : nat := Z.to_nat (length_ self).

Definition with_length (N len : nat) : option Bytes :=
  _ ← rassert ((Z.of_nat N <=? 65535) && (Z.of_nat len <=? 65535));
  _ ← rassert (len <=? N)%nat;
  Some (mkBytes (replicate N 0) (u16 (Z.of_nat len))).

Definition push (self : Bytes) (b : Z) : option Bytes :=
  _ ← rassert (len self + 1 <=? length (array self))%nat;
  a ← upd (array self) (len self) b;
  _ ← rassert (length_ self + 1 <=? 65535);
  Some (mkBytes a (length_ self + 1)).

Definition append (self : Bytes) (data : list Z) : option Bytes :=
  _ ← rassert (len self + length data <=? length (array self))%nat;
  a ← copy_at (array self) (len self) data;
  let more := u16 (Z.of_nat (length data)) in
  _ ← rassert (length_ self + more <=? 65535);
  Some (mkBytes a (length_ self + more)).

(** [From<[u8; L]>], with [L <= N] checked when compiling. *)
Definition from_array (N : nat) (data : list Z) : option Bytes :=
  a ← copy_at (replicate N 0) 0 data;
  Some (mkBytes a (u16 (Z.of_nat (length data)))).

Definition deref (self : Bytes) : option (list Z) := slice (array self) 0 (len self).

Section Eq.
(** The word size of the comparison. *)
Variable word : nat.

Definition bytes_eq (self other : Bytes) : option bool :=
  a ← deref self;
  b ← deref other;
  constant_time_eq word a b.
End Eq.

(** ** [Hash] *)

Record Hash := mkHash { inner : Bytes }.

Definition as_ref (self : Hash) : option (list Z) := deref (inner self).
Definition hash_eq (word : nat) (self other : Hash) : option bool := bytes_eq word (inner self) (inner other).

Definition try_from (bytes : list Z) : option (result Hash HashError) :=
  if (MAX_HASH_OUTPUT_SIZE <? length bytes)%nat then Some (Err TooLong) else
  buffer ← Bytes_new MAX_HASH_OUTPUT_SIZE;
  buffer ← append buffer bytes;
  Some (Ok (mkHash buffer)).

(** ** The trait *)

Class Hasher (H : Type) := {
  BLOCK_SIZE : nat;
  OUTPUT_SIZE : nat;
  new : H;
  update : H -> list Z -> option H;
  sum : H -> option Hash;
}.
Arguments BLOCK_SIZE H {_}.
Arguments OUTPUT_SIZE H {_}.

(** The provided method. *)
Definition hash (H : Type) `{!Hasher H} (data : list Z) : option Hash :=
  hasher ← update (new (H := H)) data;
  sum hasher.

Class HasherLaws (H : Type) `{!Hasher H} := {
  digest : list Z -> list Z;
  absorbed : H -> list Z -> Prop;
  output_size : (0 < OUTPUT_SIZE H <= MAX_HASH_OUTPUT_SIZE)%nat;
  absorbed_new : absorbed new [];
  absorbed_update h m d : absorbed h m -> bytes d -> wp (update h d) (fun h' => absorbed h' (m ++ d));
  absorbed_sum h m : absorbed h m -> wp (sum h) (fun t => as_ref t = Some (digest m));
  digest_length m : bytes m -> length (digest m) = OUTPUT_SIZE H;
  digest_bytes m : bytes m -> bytes (digest m);
}.
Arguments digest H {_ _} _.

(** What [Hmac] needs of the sizes, and the trait does not ask for: a block
    fits the buffers of [Hmac], and a digest fits a block, as RFC 2104 has it.
    Shake128, with blocks of 168 bytes, and AsconHash256, with blocks of 8 and
    digests of 32, are hashers that do not fit. *)
Class HmacFits (H : Type) `{!Hasher H} : Prop := {
  block_size : (0 < BLOCK_SIZE H <= MAX_HASH_BLOCK_SIZE)%nat;
  output_fits : (OUTPUT_SIZE H <= BLOCK_SIZE H)%nat;
}.

(** A message fed to a hasher piece by piece. *)
Fixpoint updates {H : Type} `{!Hasher H} (h : H) (pieces : list (list Z)) : option H :=
  match pieces with [] => Some h | d :: rest => h ← update h d; updates h rest end.

Definition stream (H : Type) `{!Hasher H} (pieces : list (list Z)) : option (list Z) :=
  h ← updates (new (H := H)) pieces;
  t ← sum h;
  as_ref t.

Section Laws.
Context {H : Type} `{!Hasher H, !HasherLaws H}.

Lemma updates_absorbed h m pieces : absorbed h m -> Forall bytes pieces -> wp (updates h pieces) (fun h' => absorbed h' (m ++ concat pieces)).
Proof.
  intros Hh Hp. revert h m Hh. induction Hp as [|d pieces Hd Hp IH]; intros h m Hh; simpl; [by rewrite app_nil_r|].
  apply wp_bind. eapply wp_mono; [by apply absorbed_update|]. intros h' Hh'. rewrite app_assoc. by apply IH.
Qed.

Lemma sum_digest h m : absorbed h m -> wp (sum h) (fun t => as_ref t = Some (digest H m)).
Proof. apply absorbed_sum. Qed.

Lemma stream_digest pieces : Forall bytes pieces -> stream H pieces = Some (digest H (concat pieces)).
Proof.
  intros Hp. apply wp_eq. unfold stream. apply wp_bind. eapply wp_mono; [apply (updates_absorbed _ []); [apply absorbed_new|exact Hp]|].
  intros h Hh. apply wp_bind. eapply wp_mono; [exact (sum_digest _ _ Hh)|]. intros t Ht. rewrite Ht. apply wp_ret. reflexivity.
Qed.

Lemma hash_digest data : bytes data -> wp (hash H data) (fun t => as_ref t = Some (digest H data)).
Proof.
  intros Hd. unfold hash. apply wp_bind. eapply wp_mono; [apply (absorbed_update _ []); [apply absorbed_new|exact Hd]|].
  intros h Hh. exact (sum_digest _ _ Hh).
Qed.
End Laws.

(** ** Buffers as the bytes in use *)

Definition holds (N : nat) (b : Bytes) (s : list Z) : Prop :=
  length (array b) = N /\ Z.of_nat N <= 65535 /\ length_ b = Z.of_nat (length s) /\ (length s <= N)%nat /\ take (length s) (array b) = s.

Lemma holds_new N : Z.of_nat N <= 65535 -> wp (Bytes_new N) (fun b => holds N b []).
Proof.
  intros HN. unfold Bytes_new. apply wp_bind, wp_assert; [lia|]. apply wp_ret.
  unfold holds. cbn [array length_ length]. rewrite length_replicate. split_and!; [done|lia|done|lia|by rewrite take_0].
Qed.

Lemma holds_deref N b s : holds N b s -> deref b = Some s.
Proof.
  intros (Hl & _ & Hlen & Hle & Ht). unfold deref, len. rewrite Hlen, Nat2Z.id. apply wp_eq, wp_slice; [lia|lia|].
  by rewrite Nat.sub_0_r.
Qed.

Lemma holds_append N b s d : holds N b s -> (length s + length d <= N)%nat -> wp (append b d) (fun b' => holds N b' (s ++ d)).
Proof.
  intros (Hl & HN & Hlen & Hle & Ht) Hd. unfold append, len. rewrite Hlen, Nat2Z.id.
  apply wp_bind, wp_assert; [apply Nat.leb_le; lia|]. apply wp_bind, wp_copy_at; [lia|].
  unfold u16. rewrite Z.mod_small by lia. apply wp_bind, wp_assert; [lia|]. apply wp_ret.
  unfold holds. cbn [array length_]. rewrite !length_app, length_take, length_drop, Ht. split_and!; try lia.
  rewrite app_assoc, take_app_le by (rewrite length_app; lia). apply take_ge. rewrite length_app. lia.
Qed.

Lemma holds_push N b s x : holds N b s -> (length s + 1 <= N)%nat -> wp (push b x) (fun b' => holds N b' (s ++ [x])).
Proof.
  intros (Hl & HN & Hlen & Hle & Ht) Hd. unfold push, len. rewrite Hlen, Nat2Z.id.
  apply wp_bind, wp_assert; [apply Nat.leb_le; lia|]. apply wp_bind, wp_upd; [lia|]. apply wp_bind, wp_assert; [lia|]. apply wp_ret.
  unfold holds. cbn [array length_]. rewrite length_insert, length_app. simpl. split_and!; try lia.
  rewrite Nat.add_1_r, (take_S_r _ _ x) by (apply list_lookup_insert_eq; lia). by rewrite take_insert_ge, Ht by lia.
Qed.

(** A digest made of at most 64 bytes is accepted, and reads back. *)
Lemma try_from_spec s : wp (try_from s) (fun r => match r with
  | Ok t => (length s <= MAX_HASH_OUTPUT_SIZE)%nat /\ as_ref t = Some s
  | Err _ => (MAX_HASH_OUTPUT_SIZE < length s)%nat end).
Proof.
  unfold try_from. destruct (Nat.ltb_spec MAX_HASH_OUTPUT_SIZE (length s)) as [|Hle]; [by apply wp_ret|].
  apply wp_bind. eapply wp_mono; [by apply holds_new; unfold MAX_HASH_OUTPUT_SIZE; lia|]. intros b Hb.
  apply wp_bind. eapply wp_mono; [by apply (holds_append MAX_HASH_OUTPUT_SIZE b [])|]. intros b' Hb'. apply wp_ret. split; [done|].
  exact (holds_deref _ _ _ Hb').
Qed.

(** Comparing digests is comparing the bytes in use. *)
Lemma bytes_eq_spec word N a b s t : (0 < word)%nat -> (word <= 16)%nat -> bytes s -> bytes t -> holds N a s -> holds N b t ->
  wp (bytes_eq word a b) (fun r => r = true <-> s = t).
Proof.
  intros H0 H16 Hs Ht Ha Hb. unfold bytes_eq. rewrite (holds_deref _ _ _ Ha), (holds_deref _ _ _ Hb). cbn [mbind option_bind].
  unfold constant_time_eq. eapply wp_mono; [by apply constant_time_eq_wp; try done; lia|]. intros r ->. rewrite bool_decide_eq_true. naive_solver.
Qed.

End Hasher.
