(* ===== verification/Sha2.v ===== *)
(** * crypto: SHA-2, the part its members share

    src/crypto/src/sha2/.  The files sha256.rs, sha512.rs and sha384.rs hold the
    same code at two widths: the buffering of [update], the padding of [sum]
    and the walk over the blocks are here, with the block size [B], the width of
    the length counter and the block function as arguments; the block functions
    are in Sha256 and Sha512.  The dispatch to vendor instructions is modelled
    as compiled for a target without them, where [detect_sha256_ext] and
    [detect_sha512_ext] answer false and only the portable code remains. *)
From Stdlib Require Import ZArith Lia.
From stdpp Require Import base list numbers option.
From S2P Require Import Prelude Words ConstEq Hasher.
Import Hasher.

Module Sha2.

(** [w.rotate_right(n)] on words of [bits] bits, and wrapping addition. *)
Definition rotate_right (bits x n : Z) : Z := Z.lor (Z.shiftr x n) (Z.shiftl x (bits - n) mod 2 ^ bits).
Definition wrapping_add (bits x y : Z) : Z := (x + y) mod 2 ^ bits.

(** ** The structs

    [Sha256], [Sha512] and [Sha384] have the same fields. *)
Inductive Variant := V256 | V512 | V384.

Record State (v : Variant) := mkState {
  state : list Z; buffer : list Z; buffer_len : nat; total_len : Z; has_sha_ext : bool }.
Arguments mkState {v} _ _ _ _ _.
Arguments state {v} _.
Arguments buffer {v} _.
Arguments buffer_len {v} _.
Arguments total_len {v} _.
Arguments has_sha_ext {v} _.

Section Code.
Context (v : Variant).
(** Bytes of a block, of a word and of the length field; words of output. *)
Context (B word_bytes L out_words : nat).
Variable initial : list Z.
Variable compress_block_software : list Z -> list Z -> option (list Z).

Definition counter_bits : Z := 8 * Z.of_nat L.

Definition new_state (has_sha_ext : bool) : State v := mkState initial (replicate B 0) 0 0 has_sha_ext.

(** [for block in blocks { compress_block_software(state, block) }]. *)
Fixpoint compress_each (st : list Z) (blocks : list (list Z)) : option (list Z) :=
  match blocks with
  | [] => Some st
  | block :: rest => st ← compress_block_software st block; compress_each st rest
  end.

(** The whole blocks are [data.as_chunks().0]. *)
Definition compress_blocks (st data : list Z) (has_sha_ext : bool) : option (list Z) :=
  let n := (length data / B)%nat in
  if (n =? 0)%nat then Some st else
  compress_each st (chunks B (take (n * B) data)).

Definition update (self : State v) (data : list Z) : option (State v) :=
  let total_len := (total_len self + Z.of_nat (length data) mod 2 ^ counter_bits) mod 2 ^ counter_bits in
  '(state, buffer, buffer_len, data) ←
    (if (0 <? buffer_len self)%nat then
       _ ← rassert (buffer_len self <=? B)%nat;
       let to_fill := Nat.min (B - buffer_len self) (length data) in
       chunk ← slice data 0 to_fill;
       buffer ← copy_at (buffer self) (buffer_len self) chunk;
       let buffer_len := (buffer_len self + to_fill)%nat in
       data ← slice data to_fill (length data);
       if (buffer_len =? B)%nat then
         state ← compress_blocks (state self) buffer (has_sha_ext self);
         Some (state, buffer, 0%nat, data)
       else Some (state self, buffer, buffer_len, data)
     else Some (state self, buffer self, buffer_len self, data));
  let full_len := (length data - length data mod B)%nat in
  state ← (if (0 <? full_len)%nat then
             full ← slice data 0 full_len; compress_blocks state full (has_sha_ext self)
           else Some state);
  remainder ← slice data full_len (length data);
  if (0 <? length remainder)%nat then
    buffer ← copy_at buffer 0 remainder;
    Some (mkState state buffer (length remainder) total_len (has_sha_ext self))
  else Some (mkState state buffer buffer_len total_len (has_sha_ext self)).

(** [hash.append(&word.to_be_bytes())] for each word. *)
Fixpoint append_words (hash : Bytes) (l : list Z) : option Bytes :=
  match l with
  | [] => Some hash
  | w :: rest => hash ← append hash (to_be word_bytes w); append_words hash rest
  end.

Definition sum (self : State v) : option Hash :=
  let bit_len := (total_len self * 8) mod 2 ^ counter_bits in
  let tail := replicate (2 * B) 0 in
  kept ← slice (buffer self) 0 (buffer_len self);
  tail ← copy_at tail 0 kept;
  tail ← upd tail (buffer_len self) 128;
  _ ← rassert (buffer_len self <=? 2 * B - L)%nat;
  let padding_len :=
    (if (buffer_len self <? B - L)%nat then (B - L) - buffer_len self else (2 * B - L) - buffer_len self)%nat in
  let length_offset := (buffer_len self + padding_len)%nat in
  tail ← copy_at tail length_offset (to_be L bit_len);
  let total_tail_len := (length_offset + L)%nat in
  tail ← slice tail 0 total_tail_len;
  state ← compress_blocks (state self) tail (has_sha_ext self);
  hash ← Bytes_new 64;
  hash ← append_words hash (take out_words state);
  Some (mkHash hash).
End Code.

(** ** FIPS 180-4

    A member of the family, by its words, its constants and its functions. *)
Record Member := mkMember {
  wbytes : nat; rounds : nat; K : list Z; IV : list Z; outs : nat;
  small0 : Z -> Z; small1 : Z -> Z; big0 : Z -> Z; big1 : Z -> Z }.

Section Spec.
Variable M : Member.
Let bits : Z := 8 * Z.of_nat (wbytes M).
Let block : nat := 16 * wbytes M.
Let add := wrapping_add bits.

Definition message_words (b : list Z) : list Z :=
  (fun i => from_be (take (wbytes M) (drop (i * wbytes M) b))) <$> seq 0 16.

(** The message schedule: [n] more words, each from those 2, 7, 15 and 16
    places before it. *)
Definition next_word (w : list Z) : Z :=
  let at_ i := nth (length w - i) w 0 in
  add (add (add (at_ 16%nat) (small0 M (at_ 15%nat))) (at_ 7%nat)) (small1 M (at_ 2%nat)).
Fixpoint extend (n : nat) (w : list Z) : list Z :=
  match n with O => w | S n' => extend n' (w ++ [next_word w]) end.
Definition schedule (b : list Z) : list Z := extend (rounds M - 16) (message_words b).

Definition choose (x y z : Z) : Z := Z.lxor (Z.land x y) (Z.land (notw bits x) z).
Definition majority (x y z : Z) : Z := Z.lxor (Z.lxor (Z.land x y) (Z.land x z)) (Z.land y z).

Definition Vars : Type := Z * Z * Z * Z * Z * Z * Z * Z.

Definition round (s : Vars) (kw : Z * Z) : Vars :=
  let '(a, b, c, d, e, f, g, h) := s in
  let t1 := add (add (add (add h (big1 M e)) (choose e f g)) (fst kw)) (snd kw) in
  let t2 := add (big0 M a) (majority a b c) in
  (add t1 t2, a, b, c, add d t1, e, f, g).

Definition vars (st : list Z) : Vars :=
  (nth 0 st 0, nth 1 st 0, nth 2 st 0, nth 3 st 0, nth 4 st 0, nth 5 st 0, nth 6 st 0, nth 7 st 0).

Definition add_vars (s t : Vars) : list Z :=
  let '(a, b, c, d, e, f, g, h) := s in
  let '(a', b', c', d', e', f', g', h') := t in
  [add a a'; add b b'; add c c'; add d d'; add e e'; add f f'; add g g'; add h h'].

Definition compress (st b : list Z) : list Z :=
  add_vars (vars st) (foldl round (vars st) (zip (K M) (schedule b))).

(** The padding: a one bit, zeros, the length in bits, up to a whole block. *)
Definition pad (m : list Z) : list Z :=
  let zeros := Z.to_nat ((- Z.of_nat (length m) - 1 - Z.of_nat (2 * wbytes M)) mod Z.of_nat block) in
  m ++ 128 :: replicate zeros 0 ++ to_be (2 * wbytes M) (8 * Z.of_nat (length m)).

Definition fips_digest (m : list Z) : list Z :=
  concat (to_be (wbytes M) <$> take (outs M) (foldl compress (IV M) (chunks block (pad m)))).
End Spec.

End Sha2.
