(* ===== verification/Sha256.v ===== *)
(** * crypto: SHA-256

    src/crypto/src/sha2/sha256.rs: its constants and its block function; the rest
    of the file is the shared code of Sha2 at a block of 64 bytes and a length
    counter of 64 bits. *)
From Stdlib Require Import ZArith Lia.
From stdpp Require Import base list numbers option.
From S2P Require Import Prelude Words ConstEq Hasher Sha2.
Import Sha2 Hasher.

Module Sha256.

Definition SHA256_K : list Z := [
  0x428a_2f98; 0x7137_4491; 0xb5c0_fbcf; 0xe9b5_dba5; 0x3956_c25b; 0x59f1_11f1; 0x923f_82a4; 0xab1c_5ed5;
  0xd807_aa98; 0x1283_5b01; 0x2431_85be; 0x550c_7dc3; 0x72be_5d74; 0x80de_b1fe; 0x9bdc_06a7; 0xc19b_f174;
  0xe49b_69c1; 0xefbe_4786; 0x0fc1_9dc6; 0x240c_a1cc; 0x2de9_2c6f; 0x4a74_84aa; 0x5cb0_a9dc; 0x76f9_88da;
  0x983e_5152; 0xa831_c66d; 0xb003_27c8; 0xbf59_7fc7; 0xc6e0_0bf3; 0xd5a7_9147; 0x06ca_6351; 0x1429_2967;
  0x27b7_0a85; 0x2e1b_2138; 0x4d2c_6dfc; 0x5338_0d13; 0x650a_7354; 0x766a_0abb; 0x81c2_c92e; 0x9272_2c85;
  0xa2bf_e8a1; 0xa81a_664b; 0xc24b_8b70; 0xc76c_51a3; 0xd192_e819; 0xd699_0624; 0xf40e_3585; 0x106a_a070;
  0x19a4_c116; 0x1e37_6c08; 0x2748_774c; 0x34b0_bcb5; 0x391c_0cb3; 0x4ed8_aa4a; 0x5b9c_ca4f; 0x682e_6ff3;
  0x748f_82ee; 0x78a5_636f; 0x84c8_7814; 0x8cc7_0208; 0x90be_fffa; 0xa450_6ceb; 0xbef9_a3f7; 0xc671_78f2].

Definition INITIAL : list Z := [
  0x6a09_e667; 0xbb67_ae85; 0x3c6e_f372; 0xa54f_f53a;
  0x510e_527f; 0x9b05_688c; 0x1f83_d9ab; 0x5be0_cd19].

Notation add := (wrapping_add 32).

(** The working variables [a] to [h]. *)
Definition compress_block_software (state block : list Z) : option (list Z) :=
  let w := replicate 64 0 in
  w ← for_loop 0 16 (fun i w =>
    let offset := (i * 4)%nat in
    b0 ← block !! offset;
    b1 ← block !! (offset + 1)%nat;
    b2 ← block !! (offset + 2)%nat;
    b3 ← block !! (offset + 3)%nat;
    upd w i (from_be [b0; b1; b2; b3])) w;
  w ← for_loop 16 64 (fun i w =>
    w15 ← w !! (i - 15)%nat;
    let s0 := Z.lxor (Z.lxor (rotate_right 32 w15 7) (rotate_right 32 w15 18)) (Z.shiftr w15 3) in
    w2 ← w !! (i - 2)%nat;
    let s1 := Z.lxor (Z.lxor (rotate_right 32 w2 17) (rotate_right 32 w2 19)) (Z.shiftr w2 10) in
    w16 ← w !! (i - 16)%nat;
    w7 ← w !! (i - 7)%nat;
    upd w i (add (add (add w16 s0) w7) s1)) w;
  a ← state !! 0%nat; b ← state !! 1%nat; c ← state !! 2%nat; d ← state !! 3%nat;
  e ← state !! 4%nat; f ← state !! 5%nat; g ← state !! 6%nat; h ← state !! 7%nat;
  '(a', b', c', d', e', f', g', h') ← for_loop 0 64 (fun i '(a, b, c, d, e, f, g, h) =>
    let s1 := Z.lxor (Z.lxor (rotate_right 32 e 6) (rotate_right 32 e 11)) (rotate_right 32 e 25) in
    let ch := Z.lxor (Z.land e f) (Z.land (notw 32 e) g) in
    k ← SHA256_K !! i;
    wi ← w !! i;
    let temp1 := add (add (add (add h s1) ch) k) wi in
    let s0 := Z.lxor (Z.lxor (rotate_right 32 a 2) (rotate_right 32 a 13)) (rotate_right 32 a 22) in
    let maj := Z.lxor (Z.lxor (Z.land a b) (Z.land a c)) (Z.land b c) in
    let temp2 := add s0 maj in
    Some (add temp1 temp2, a, b, c, add d temp1, e, f, g)) (a, b, c, d, e, f, g, h);
  Some [add a a'; add b b'; add c c'; add d d'; add e e'; add f f'; add g g'; add h h'].

Definition detect_sha256_ext : bool := false.

#[global] Instance Sha256_Hasher : Hasher (State V256) := {|
  BLOCK_SIZE := 64; OUTPUT_SIZE := 32;
  new := new_state V256 64 INITIAL detect_sha256_ext;
  update := Sha2.update V256 64 8 compress_block_software;
  sum := Sha2.sum V256 64 4 8 8 compress_block_software |}.

(** The member of the family in FIPS 180-4. *)
Definition sha256 : Member := mkMember 4 64 SHA256_K INITIAL 8
  (fun x => Z.lxor (Z.lxor (rotate_right 32 x 7) (rotate_right 32 x 18)) (Z.shiftr x 3))
  (fun x => Z.lxor (Z.lxor (rotate_right 32 x 17) (rotate_right 32 x 19)) (Z.shiftr x 10))
  (fun x => Z.lxor (Z.lxor (rotate_right 32 x 2) (rotate_right 32 x 13)) (rotate_right 32 x 22))
  (fun x => Z.lxor (Z.lxor (rotate_right 32 x 6) (rotate_right 32 x 11)) (rotate_right 32 x 25)).

Definition hex (n : Z) (len : nat) : list Z := to_be len n.

(** "abc" and the empty message. *)
Example abc : (h ← hash (State V256) [97; 98; 99]; as_ref h) =
  Some (hex 0xba7816bf8f01cfea414140de5dae2223b00361a396177a9cb410ff61f20015ad 32) /\
  fips_digest sha256 [97; 98; 99] = hex 0xba7816bf8f01cfea414140de5dae2223b00361a396177a9cb410ff61f20015ad 32.
Proof. split; vm_compute; reflexivity. Qed.
Example empty_message : (h ← hash (State V256) []; as_ref h) =
  Some (hex 0xe3b0c44298fc1c149afbf4c8996fb92427ae41e4649b934ca495991b7852b855 32).
Proof. vm_compute. reflexivity. Qed.

End Sha256.
