(* ===== verification/Sha512.v ===== *)
(** * crypto: SHA-512 and SHA-384

    src/crypto/src/sha2/sha512.rs and sha384.rs: the constants and the block
    function; the rest is the shared code of Sha2 at a block of 128 bytes and a
    length counter of 128 bits.  SHA-384 has an initial value of its own and
    returns six of the eight words. *)
From Stdlib Require Import ZArith Lia.
From stdpp Require Import base list numbers option.
From S2P Require Import Prelude Words ConstEq Hasher Sha2.
Import Sha2 Hasher.

Module Sha512.

Definition SHA512_K : list Z := [
  0x428a2f98d728ae22; 0x7137449123ef65cd; 0xb5c0fbcfec4d3b2f; 0xe9b5dba58189dbbc;
  0x3956c25bf348b538; 0x59f111f1b605d019; 0x923f82a4af194f9b; 0xab1c5ed5da6d8118;
  0xd807aa98a3030242; 0x12835b0145706fbe; 0x243185be4ee4b28c; 0x550c7dc3d5ffb4e2;
  0x72be5d74f27b896f; 0x80deb1fe3b1696b1; 0x9bdc06a725c71235; 0xc19bf174cf692694;
  0xe49b69c19ef14ad2; 0xefbe4786384f25e3; 0x0fc19dc68b8cd5b5; 0x240ca1cc77ac9c65;
  0x2de92c6f592b0275; 0x4a7484aa6ea6e483; 0x5cb0a9dcbd41fbd4; 0x76f988da831153b5;
  0x983e5152ee66dfab; 0xa831c66d2db43210; 0xb00327c898fb213f; 0xbf597fc7beef0ee4;
  0xc6e00bf33da88fc2; 0xd5a79147930aa725; 0x06ca6351e003826f; 0x142929670a0e6e70;
  0x27b70a8546d22ffc; 0x2e1b21385c26c926; 0x4d2c6dfc5ac42aed; 0x53380d139d95b3df;
  0x650a73548baf63de; 0x766a0abb3c77b2a8; 0x81c2c92e47edaee6; 0x92722c851482353b;
  0xa2bfe8a14cf10364; 0xa81a664bbc423001; 0xc24b8b70d0f89791; 0xc76c51a30654be30;
  0xd192e819d6ef5218; 0xd69906245565a910; 0xf40e35855771202a; 0x106aa07032bbd1b8;
  0x19a4c116b8d2d0c8; 0x1e376c085141ab53; 0x2748774cdf8eeb99; 0x34b0bcb5e19b48a8;
  0x391c0cb3c5c95a63; 0x4ed8aa4ae3418acb; 0x5b9cca4f7763e373; 0x682e6ff3d6b2b8a3;
  0x748f82ee5defb2fc; 0x78a5636f43172f60; 0x84c87814a1f0ab72; 0x8cc702081a6439ec;
  0x90befffa23631e28; 0xa4506cebde82bde9; 0xbef9a3f7b2c67915; 0xc67178f2e372532b;
  0xca273eceea26619c; 0xd186b8c721c0c207; 0xeada7dd6cde0eb1e; 0xf57d4f7fee6ed178;
  0x06f067aa72176fba; 0x0a637dc5a2c898a6; 0x113f9804bef90dae; 0x1b710b35131c471b;
  0x28db77f523047d84; 0x32caab7b40c72493; 0x3c9ebe0a15c9bebc; 0x431d67c49c100d4c;
  0x4cc5d4becb3e42b6; 0x597f299cfc657e2a; 0x5fcb6fab3ad6faec; 0x6c44198c4a475817].

Definition INITIAL_512 : list Z := [
  0x6a09e667f3bcc908; 0xbb67ae8584caa73b; 0x3c6ef372fe94f82b; 0xa54ff53a5f1d36f1;
  0x510e527fade682d1; 0x9b05688c2b3e6c1f; 0x1f83d9abfb41bd6b; 0x5be0cd19137e2179].
Definition INITIAL_384 : list Z := [
  0xcbbb9d5dc1059ed8; 0x629a292a367cd507; 0x9159015a3070dd17; 0x152fecd8f70e5939;
  0x67332667ffc00b31; 0x8eb44a8768581511; 0xdb0c2e0d64f98fa7; 0x47b5481dbefa4fa4].

Notation add := (wrapping_add 64).

(** The working variables [a] to [h]. *)
Definition compress_block_software (state block : list Z) : option (list Z) :=
  let w := replicate 80 0 in
  w ← for_loop 0 16 (fun i w =>
    let offset := (i * 8)%nat in
    b0 ← block !! offset;
    b1 ← block !! (offset + 1)%nat;
    b2 ← block !! (offset + 2)%nat;
    b3 ← block !! (offset + 3)%nat;
    b4 ← block !! (offset + 4)%nat;
    b5 ← block !! (offset + 5)%nat;
    b6 ← block !! (offset + 6)%nat;
    b7 ← block !! (offset + 7)%nat;
    upd w i (from_be [b0; b1; b2; b3; b4; b5; b6; b7])) w;
  w ← for_loop 16 80 (fun i w =>
    w15 ← w !! (i - 15)%nat;
    let s0 := Z.lxor (Z.lxor (rotate_right 64 w15 1) (rotate_right 64 w15 8)) (Z.shiftr w15 7) in
    w2 ← w !! (i - 2)%nat;
    let s1 := Z.lxor (Z.lxor (rotate_right 64 w2 19) (rotate_right 64 w2 61)) (Z.shiftr w2 6) in
    w16 ← w !! (i - 16)%nat;
    w7 ← w !! (i - 7)%nat;
    upd w i (add (add (add w16 s0) w7) s1)) w;
  a ← state !! 0%nat; b ← state !! 1%nat; c ← state !! 2%nat; d ← state !! 3%nat;
  e ← state !! 4%nat; f ← state !! 5%nat; g ← state !! 6%nat; h ← state !! 7%nat;
  '(a', b', c', d', e', f', g', h') ← for_loop 0 80 (fun i '(a, b, c, d, e, f, g, h) =>
    let s1 := Z.lxor (Z.lxor (rotate_right 64 e 14) (rotate_right 64 e 18)) (rotate_right 64 e 41) in
    let ch := Z.lxor (Z.land e f) (Z.land (notw 64 e) g) in
    k ← SHA512_K !! i;
    wi ← w !! i;
    let temp1 := add (add (add (add h s1) ch) k) wi in
    let s0 := Z.lxor (Z.lxor (rotate_right 64 a 28) (rotate_right 64 a 34)) (rotate_right 64 a 39) in
    let maj := Z.lxor (Z.lxor (Z.land a b) (Z.land a c)) (Z.land b c) in
    let temp2 := add s0 maj in
    Some (add temp1 temp2, a, b, c, add d temp1, e, f, g)) (a, b, c, d, e, f, g, h);
  Some [add a a'; add b b'; add c c'; add d d'; add e e'; add f f'; add g g'; add h h'].

Definition detect_sha512_ext : bool := false.

#[global] Instance Sha512_Hasher : Hasher (State V512) := {|
  BLOCK_SIZE := 128; OUTPUT_SIZE := 64;
  new := new_state V512 128 INITIAL_512 detect_sha512_ext;
  update := Sha2.update V512 128 16 compress_block_software;
  sum := Sha2.sum V512 128 8 16 8 compress_block_software |}.

#[global] Instance Sha384_Hasher : Hasher (State V384) := {|
  BLOCK_SIZE := 128; OUTPUT_SIZE := 48;
  new := new_state V384 128 INITIAL_384 detect_sha512_ext;
  update := Sha2.update V384 128 16 compress_block_software;
  sum := Sha2.sum V384 128 8 16 6 compress_block_software |}.

(** The members of the family in FIPS 180-4. *)
Definition sha512 : Member := mkMember 8 80 SHA512_K INITIAL_512 8
  (fun x => Z.lxor (Z.lxor (rotate_right 64 x 1) (rotate_right 64 x 8)) (Z.shiftr x 7))
  (fun x => Z.lxor (Z.lxor (rotate_right 64 x 19) (rotate_right 64 x 61)) (Z.shiftr x 6))
  (fun x => Z.lxor (Z.lxor (rotate_right 64 x 28) (rotate_right 64 x 34)) (rotate_right 64 x 39))
  (fun x => Z.lxor (Z.lxor (rotate_right 64 x 14) (rotate_right 64 x 18)) (rotate_right 64 x 41)).

Definition sha384 : Member := mkMember 8 80 SHA512_K INITIAL_384 6
  (fun x => Z.lxor (Z.lxor (rotate_right 64 x 1) (rotate_right 64 x 8)) (Z.shiftr x 7))
  (fun x => Z.lxor (Z.lxor (rotate_right 64 x 19) (rotate_right 64 x 61)) (Z.shiftr x 6))
  (fun x => Z.lxor (Z.lxor (rotate_right 64 x 28) (rotate_right 64 x 34)) (rotate_right 64 x 39))
  (fun x => Z.lxor (Z.lxor (rotate_right 64 x 14) (rotate_right 64 x 18)) (rotate_right 64 x 41)).

Example abc_512 : (h ← hash (State V512) [97; 98; 99]; as_ref h) = Some (to_be 64
  0xddaf35a193617abacc417349ae20413112e6fa4e89a97ea20a9eeee64b55d39a2192992a274fc1a836ba3c23a3feebbd454d4423643ce80e2a9ac94fa54ca49f).
Proof. vm_compute. reflexivity. Qed.
Example abc_384 : (h ← hash (State V384) [97; 98; 99]; as_ref h) = Some (to_be 48
  0xcb00753f45a35e8bb5a03d699ac65007272c32ab0eded1631a8b605a43ff5bed8086072ba1e7cc2358baeca134c825a7).
Proof. vm_compute. reflexivity. Qed.

End Sha512.
