(* ===== verification/Sha2Theorems.v ===== *)
(** * crypto: SHA-2 computes FIPS 180-4

    The block function fills its schedule and runs its rounds as the standard
    defines them, and the buffered walk of [update] and [sum] compresses the
    padded message, however the message is cut: every member is a lawful
    [Hasher] whose digest is that of the standard. *)
From Stdlib Require Import ZArith Lia.
From stdpp Require Import base list numbers option.
From S2P Require Import Prelude Words ConstEq Hasher Sha2 Sha256 Sha512.
Import Hasher.

Module Sha2Theorems.
Import Sha2.

(** ** The block function *)

Section Block.
Variable M : Member.
Variable load : list Z -> nat -> option Z.
Let add := wrapping_add (8 * Z.of_nat (wbytes M)).

(** The shape of both block functions. *)
Definition block_code (state block : list Z) : option (list Z) :=
  let w := replicate (rounds M) 0 in
  w ← for_loop 0 16 (fun i w => x ← load block i; upd w i x) w;
  w ← for_loop 16 (rounds M) (fun i w =>
    w15 ← w !! (i - 15)%nat; w2 ← w !! (i - 2)%nat; w16 ← w !! (i - 16)%nat; w7 ← w !! (i - 7)%nat;
    upd w i (add (add (add w16 (small0 M w15)) w7) (small1 M w2))) w;
  a ← state !! 0%nat; b ← state !! 1%nat; c ← state !! 2%nat; d ← state !! 3%nat;
  e ← state !! 4%nat; f ← state !! 5%nat; g ← state !! 6%nat; h ← state !! 7%nat;
  s ← for_loop 0 (rounds M) (fun i s => k ← K M !! i; wi ← w !! i; Some (round M s (k, wi))) (a, b, c, d, e, f, g, h);
  Some (add_vars M (a, b, c, d, e, f, g, h) s).

Hypothesis Hrounds : (16 <= rounds M)%nat.
Hypothesis HK : length (K M) = rounds M.
Hypothesis Hload : forall b i, length b = (16 * wbytes M)%nat -> (i < 16)%nat ->
  load b i = Some (from_be (take (wbytes M) (drop (i * wbytes M) b))).

Lemma extend_length n w : length (extend M n w) = (n + length w)%nat.
Proof. revert w. induction n as [|n IH]; intros w; simpl; [done|]. rewrite IH, length_app. simpl. lia. Qed.

Lemma extend_prefix n w i : (i <= length w)%nat -> take i (extend M n w) = take i w.
Proof.
  revert w. induction n as [|n IH]; intros w Hi; simpl; [done|].
  rewrite IH by (rewrite length_app; lia). by rewrite take_app_le.
Qed.

Lemma extend_next n w i : (length w <= i < n + length w)%nat ->
  take (S i) (extend M n w) = take i (extend M n w) ++ [next_word M (take i (extend M n w))].
Proof.
  revert w. induction n as [|n IH]; intros w Hi; [lia|]. cbn [extend]. set (w' := w ++ [next_word M w]).
  assert (Hlen : length w' = S (length w)) by (unfold w'; rewrite length_app; simpl; lia).
  destruct (Nat.eq_dec i (length w)) as [->|Hne]; [|apply IH; lia].
  rewrite !extend_prefix by lia. rewrite take_ge by lia. unfold w' at 2 3. rewrite take_app_le, take_ge by lia. done.
Qed.

Lemma schedule_length b : length (schedule M b) = rounds M.
Proof. unfold schedule, message_words. rewrite extend_length, length_fmap, length_seq. lia. Qed.

Lemma words_done b : take 16 (schedule M b) = message_words M b.
Proof.
  unfold schedule. assert (H : length (message_words M b) = 16%nat) by (unfold message_words; by rewrite length_fmap, length_seq).
  rewrite extend_prefix by lia. apply take_ge. lia.
Qed.

(** Writing element [i] of an array whose tail is still zero. *)
Lemma fill {A} (l : list A) x i n z : (i < n)%nat -> length l = i ->
  wp (upd (l ++ replicate (n - i) z) i x) (fun r => r = (l ++ [x]) ++ replicate (n - S i) z).
Proof.
  intros Hi Hl. apply wp_upd; [rewrite length_app, length_replicate; lia|].
  replace (n - i)%nat with (S (n - S i)) by lia. simpl. rewrite <- app_assoc. simpl.
  rewrite insert_app_r_alt by lia. by rewrite Hl, Nat.sub_diag.
Qed.

Lemma schedule_loops b : length b = (16 * wbytes M)%nat ->
  (w ← for_loop 0 16 (fun i w => x ← load b i; upd w i x) (replicate (rounds M) 0);
   for_loop 16 (rounds M) (fun i w =>
    w15 ← w !! (i - 15)%nat; w2 ← w !! (i - 2)%nat; w16 ← w !! (i - 16)%nat; w7 ← w !! (i - 7)%nat;
    upd w i (add (add (add w16 (small0 M w15)) w7) (small1 M w2))) w) = Some (schedule M b).
Proof.
  intros Hb. apply wp_eq, wp_bind.
  apply (wp_for (fun i w => w = take i (schedule M b) ++ replicate (rounds M - i) 0)); [lia| | |].
  - by rewrite take_0, Nat.sub_0_r.
  - intros i w Hi ->. rewrite Hload by (done || lia). cbn [mbind option_bind].
    eapply wp_mono; [apply fill; [lia|rewrite length_take, schedule_length; lia]|]. intros r ->. f_equal.
    pose proof (words_done b) as Hw. rewrite (take_S_r _ _ (from_be (take (wbytes M) (drop (i * wbytes M) b)))); [done|].
    rewrite <- (lookup_take_lt _ 16) by lia. rewrite Hw. unfold message_words. rewrite list_lookup_fmap, lookup_seq_lt by lia. done.
  - intros w ->. apply (wp_for (fun i w => w = take i (schedule M b) ++ replicate (rounds M - i) 0)); [lia|done| |].
    + intros i w Hi ->. set (p := take i (schedule M b)). assert (Hp : length p = i) by (unfold p; rewrite length_take, schedule_length; lia).
      assert (Hread : forall j, (0 < j <= i)%nat -> (p ++ replicate (rounds M - i) 0) !! (i - j)%nat = Some (nth (length p - j) p 0)).
      { intros j Hj. rewrite lookup_app_l, Hp by lia. destruct (nth_lookup_or_length p (i - j) 0); [done|lia]. }
      rewrite !Hread by lia. cbn [mbind option_bind]. eapply wp_mono; [by apply fill; [lia|]|]. intros r ->. f_equal.
      unfold p, schedule. by rewrite extend_next by (unfold message_words; rewrite length_fmap, length_seq; lia).
    + intros w' ->. by rewrite Nat.sub_diag, app_nil_r, take_ge by (rewrite schedule_length; lia).
Qed.

Lemma rounds_loop w s0 : length w = rounds M ->
  for_loop 0 (rounds M) (fun i s => k ← K M !! i; wi ← w !! i; Some (round M s (k, wi))) s0 = Some (foldl (round M) s0 (zip (K M) w)).
Proof.
  intros Hw. apply wp_eq. assert (Hz : length (zip (K M) w) = rounds M) by (rewrite length_zip_with; lia).
  apply (wp_for (fun i s => s = foldl (round M) s0 (take i (zip (K M) w)))); [lia|by rewrite take_0| |].
  - intros i s Hi ->. destruct (lookup_lt_is_Some_2 (K M) i) as [k Hk]; [lia|]. destruct (lookup_lt_is_Some_2 w i) as [x Hx]; [lia|].
    rewrite Hk, Hx. cbn [mbind option_bind wp]. rewrite (take_S_r _ _ (k, x)), foldl_snoc; [done|].
    rewrite lookup_zip_with, Hk. cbn [mbind option_bind]. by rewrite Hx.
  - intros s ->. by rewrite take_ge by lia.
Qed.

(** The block function is that of the standard. *)
Lemma block_correct st b : length st = 8%nat -> length b = (16 * wbytes M)%nat -> block_code st b = Some (compress M st b).
Proof.
  intros Hst Hb. pose proof (schedule_loops b Hb) as Hs. unfold block_code.
  destruct (for_loop 0 16 _ _) as [w0|]; [|done]. cbn [mbind option_bind] in *. rewrite Hs. cbn [mbind option_bind].
  destruct st as [|a [|b1 [|c [|d [|e [|f [|g [|h [|? ?]]]]]]]]]; try done. cbn [lookup list_lookup mbind option_bind].
  by rewrite rounds_loop by apply schedule_length.
Qed.
End Block.

(** ** Blocks of a message *)

Lemma to_le_truncate n x : to_le n x = to_le n (x mod 256 ^ Z.of_nat n).
Proof.
  revert x. induction n as [|n IH]; intros x; [done|]. cbn [to_le].
  rewrite Nat2Z.inj_succ, Z.pow_succ_r by lia. f_equal.
  - rewrite (Z.mul_comm 256), <- (Z.mod_mod_divide x (256 ^ Z.of_nat n * 256) 256) by (exists (256 ^ Z.of_nat n); lia). done.
  - rewrite (IH (x / 256)), (IH ((x mod _) / 256)). f_equal. rewrite Z.rem_mul_r by lia.
    rewrite (Z.add_comm (x mod 256)), (Z.mul_comm 256 ((x / 256) mod _)), Z.div_add_l by lia.
    rewrite (Z.div_small (x mod 256)) by (apply Z.mod_pos_bound; lia). by rewrite Z.add_0_r, Z.mod_mod by (apply Z.pow_nonzero; lia).
Qed.

Lemma length_to_be n x : length (to_be n x) = n.
Proof. unfold to_be. by rewrite length_reverse, length_to_le. Qed.

Lemma bytes_to_be n x : bytes (to_be n x).
Proof. apply bytes_reverse, bytes_to_le. Qed.

(** ** The buffered walk *)

(** Eight words of state, a digest of at most eight words and 64 bytes. *)
Definition member_ok (M : Member) : Prop :=
  (0 < wbytes M)%nat /\ length (IV M) = 8%nat /\ (outs M <= 8)%nat /\ (outs M * wbytes M <= 64)%nat.

Section Walk.
Variable M : Member.
Variable v : Variant.
Variable code : list Z -> list Z -> option (list Z).
Let B : nat := 16 * wbytes M.
Let L : nat := 2 * wbytes M.
Let cb : Z := counter_bits L.

Hypothesis Hok : member_ok M.
Let Hwb := proj1 Hok.
Let HIV := proj1 (proj2 Hok).
Let Houts := proj1 (proj2 (proj2 Hok)).
Let Hfits := proj2 (proj2 (proj2 Hok)).
Hypothesis Hcode : forall st b, length st = 8%nat -> length b = B -> code st b = Some (compress M st b).

Lemma B_pos : (0 < B)%nat.
Proof. unfold B. lia. Qed.

Lemma compress_length st b : length (compress M st b) = 8%nat.
Proof. unfold compress, add_vars, vars. by destruct (foldl _ _ _) as [[[[[[[a b'] c] d] e] f] g] h]. Qed.

Lemma fold_length st l : length st = 8%nat -> length (foldl (compress M) st l) = 8%nat.
Proof. revert st. induction l as [|b l IH]; intros st Hst; simpl; [done|]. apply IH, compress_length. Qed.

Lemma blocks_correct st data ext : length st = 8%nat -> (length data mod B = 0)%nat ->
  compress_blocks B code st data ext = Some (foldl (compress M) st (chunks B data)).
Proof.
  intros Hst Hmod. unfold compress_blocks. pose proof B_pos as HB.
  pose proof (Nat.div_mod_eq (length data) B) as Hdm. rewrite Hmod, Nat.add_0_r, Nat.mul_comm in Hdm.
  destruct (Nat.eqb_spec (length data / B) 0) as [H0|H0].
  - rewrite H0 in Hdm. destruct data; [done|simpl in Hdm; lia].
  - rewrite take_ge by lia. pose proof (chunks_whole B data HB Hmod) as Hall. revert st Hst.
    induction Hall as [|c l Hc Hall IH]; intros st Hst; simpl; [done|]. rewrite Hcode by done. cbn [mbind option_bind].
    apply IH, compress_length.
Qed.

(** The state after the blocks of [finished], with [buf] in the buffer. *)
Definition walked (h : State v) (finished buf : list Z) : Prop :=
  (length finished mod B = 0)%nat /\ (length buf < B)%nat /\
  state h = foldl (compress M) (IV M) (chunks B finished) /\
  length (buffer h) = B /\ buffer_len h = length buf /\ take (length buf) (buffer h) = buf.

(** A hasher stands for the message [m]: its blocks are compressed, the rest
    is in the buffer. *)
Definition stands (h : State v) (m : list Z) : Prop :=
  total_len h = Z.of_nat (length m) mod 2 ^ cb /\ exists finished buf, m = finished ++ buf /\ walked h finished buf.

Lemma stands_new ext : stands (new_state v B (IV M) ext) [].
Proof.
  split; [done|]. exists [], []. pose proof B_pos. unfold walked. cbn [new_state state buffer buffer_len app length].
  rewrite length_replicate, take_0, Nat.Div0.mod_0_l. done.
Qed.

Lemma finished_more st finished data ext : st = foldl (compress M) (IV M) (chunks B finished) ->
  (length finished mod B = 0)%nat -> (length data mod B = 0)%nat ->
  compress_blocks B code st data ext = Some (foldl (compress M) (IV M) (chunks B (finished ++ data))).
Proof.
  intros -> Hf Hd. rewrite blocks_correct by (done || by apply fold_length). by rewrite chunks_app, foldl_app by (done || apply B_pos).
Qed.

Lemma mod_app a b : (a mod B = 0)%nat -> (b mod B = 0)%nat -> ((a + b) mod B = 0)%nat.
Proof. intros Ha Hb. by rewrite Nat.Div0.add_mod, Ha, Hb, Nat.Div0.mod_0_l. Qed.

Lemma whole_part n : ((n - n mod B) mod B = 0)%nat /\ (n mod B < B)%nat.
Proof.
  pose proof B_pos. pose proof (Nat.div_mod_eq n B). split; [|apply Nat.mod_upper_bound; lia].
  replace (n - n mod B)%nat with (n / B * B)%nat by lia. apply Nat.Div0.mod_mul.
Qed.

(** Whole blocks straight from the input, the rest into the empty buffer. *)
Lemma take_rest finished bufr data total ext : (length finished mod B = 0)%nat -> length bufr = B ->
  let st := foldl (compress M) (IV M) (chunks B finished) in
  wp (let full_len := (length data - length data mod B)%nat in
      state ← (if (0 <? full_len)%nat then full ← slice data 0 full_len; compress_blocks B code st full ext else Some st);
      remainder ← slice data full_len (length data);
      if (0 <? length remainder)%nat then
        buffer ← copy_at bufr 0 remainder; Some (mkState state buffer (length remainder) total ext)
      else Some (mkState state bufr 0 total ext))
    (fun h : State v => total_len h = total /\ exists finished' buf, finished ++ data = finished' ++ buf /\ walked h finished' buf).
Proof.
  intros Hf Hb st. cbv zeta. destruct (whole_part (length data)) as [Hw Hlt]. set (n := (length data - length data mod B)%nat) in *.
  assert (Hn : (n <= length data)%nat) by lia. apply wp_bind.
  apply (wp_mono _ (fun s => s = foldl (compress M) (IV M) (chunks B (finished ++ take n data)))).
  { destruct (Nat.ltb_spec 0 n).
    - apply wp_bind, wp_slice; [lia|lia|]. rewrite drop_0, Nat.sub_0_r.
      by rewrite (finished_more st finished) by (done || rewrite length_take, Nat.min_l by lia; done).
    - replace n with 0%nat by lia. by rewrite take_0, app_nil_r. }
  intros s ->. apply wp_bind, wp_slice; [lia|lia|]. rewrite take_ge by (rewrite length_drop; lia). rewrite length_drop.
  assert (Hfin : (length (finished ++ take n data) mod B = 0)%nat) by (rewrite length_app, length_take, Nat.min_l by lia; by apply mod_app).
  destruct (Nat.ltb_spec 0 (length data - n)) as [Hpos|Hz].
  - apply wp_bind, wp_copy_at; [rewrite length_drop; lia|]. apply wp_ret. split; [done|].
    exists (finished ++ take n data), (drop n data). unfold walked. cbn [state buffer buffer_len]. rewrite take_0. cbn [app].
    split_and!; [by rewrite <- app_assoc, take_drop|done|rewrite length_drop; lia|done| |by rewrite length_drop|by rewrite take_app_length].
    rewrite length_app, !length_drop. lia.
  - apply wp_ret. split; [done|]. exists (finished ++ take n data), []. unfold walked. cbn [state buffer buffer_len]. rewrite app_nil_r.
    split_and!; try done; [by rewrite take_ge by lia|apply B_pos].
Qed.

Lemma update_stands h m d : stands h m -> wp (Sha2.update v B L code h d) (fun h' => stands h' (m ++ d)).
Proof.
  intros [Htot (finished & buf & -> & Hf & Hbuf & Hst & Hlen & Hbl & Htake)]. unfold Sha2.update. cbv zeta. fold cb.
  set (total := ((total_len h + _) mod _)).
  assert (Ht : total = Z.of_nat (length ((finished ++ buf) ++ d)) mod 2 ^ cb).
  { unfold total. rewrite Htot, <- Z.add_mod, <- Nat2Z.inj_add, <- length_app by (apply Z.pow_nonzero; unfold cb, counter_bits; lia). done. }
  clearbody total. apply wp_bind. destruct (Nat.ltb_spec 0 (buffer_len h)) as [Hpos|Hzero].
  2:{ apply wp_ret. replace (buffer_len h) with 0%nat by lia. rewrite Hst.
      eapply wp_mono; [exact (take_rest finished (buffer h) d total _ Hf Hlen)|]. intros h' [Etot H]. split; [by rewrite Etot|].
      destruct buf; [by rewrite app_nil_r|simpl in Hbl; lia]. }
  apply wp_bind, wp_assert; [apply Nat.leb_le; lia|]. set (n := Nat.min (B - buffer_len h) (length d)).
  apply wp_bind, wp_slice; [lia|lia|]. rewrite drop_0, Nat.sub_0_r.
  apply wp_bind, wp_copy_at; [rewrite length_take; lia|]. apply wp_bind, wp_slice; [lia|lia|].
  rewrite (take_ge (drop n d)) by (rewrite length_drop; lia). rewrite Hbl, Htake, length_take, Nat.min_l by lia.
  set (b' := buf ++ take n d ++ drop (length buf + n) (buffer h)).
  assert (Hb' : length b' = B) by (unfold b'; rewrite !length_app, length_take, length_drop; lia).
  assert (Hpre : take (length buf + n) b' = buf ++ take n d).
  { unfold b'. rewrite app_assoc, take_app_le by (rewrite length_app, length_take; lia). apply take_ge. rewrite length_app, length_take. lia. }
  destruct (Nat.eqb_spec (length buf + n) B) as [Hfull|Hpart].
  - assert (E : b' = buf ++ take n d) by (rewrite <- Hpre; symmetry; apply take_ge; lia).
    assert (Hmod : (length b' mod B = 0)%nat) by (rewrite Hb'; apply Nat.Div0.mod_same).
    rewrite (finished_more _ finished b') by done. cbn [mbind option_bind wp].
    eapply wp_mono; [apply (take_rest (finished ++ b') b' (drop n d) total); [rewrite length_app; by apply mod_app|done]|].
    intros h' [Etot H]. split; [by rewrite Etot|]. rewrite E in H. rewrite <- !app_assoc, take_drop in H. by rewrite <- app_assoc.
  - assert (Hd : drop n d = []) by (apply drop_ge; lia). apply wp_ret. rewrite Hd. cbn [length]. rewrite Nat.Div0.mod_0_l. cbn [Nat.sub Nat.ltb Nat.leb mbind option_bind].
    apply wp_bind, wp_slice; [done|done|]. cbn [length take Nat.ltb Nat.leb]. apply wp_ret. split; [done|].
    exists finished, (buf ++ d). unfold walked. cbn [state buffer buffer_len]. rewrite (take_ge d) in Hpre by lia.
    rewrite length_app. replace (length buf + length d)%nat with (length buf + n)%nat by lia. rewrite <- app_assoc. split_and!; try done; lia.
Qed.

(** [sum] lays out the end of the padded message. *)
Definition last_blocks (off bl : nat) (buf field : list Z) : list Z := buf ++ 128 :: replicate (off - bl - 1) 0 ++ field.

Lemma last_whole off buf field : (length buf < off)%nat -> ((off + L) mod B = 0)%nat -> length field = L ->
  (length (last_blocks off (length buf) buf field) mod B = 0)%nat.
Proof.
  intros Hb Hmod Hfield. unfold last_blocks. rewrite length_app. cbn [length]. rewrite length_app, length_replicate.
  rewrite <- Hmod. f_equal. lia.
Qed.

Lemma tail_layout kept off field : (length kept < off)%nat -> (off + L <= 2 * B)%nat -> length field = L ->
  wp (tail ← copy_at (replicate (2 * B) 0) 0 kept; tail ← upd tail (length kept) 128;
      tail ← copy_at tail off field; slice tail 0 (off + L)) (fun t => t = last_blocks off (length kept) kept field).
Proof.
  intros Hk Hoff Hfield. apply wp_bind, wp_copy_at; [rewrite length_replicate; lia|]. rewrite take_0, drop_replicate. cbn [app Nat.add].
  apply wp_bind, wp_upd; [rewrite length_app, length_replicate; lia|]. rewrite insert_app_r_alt, Nat.sub_diag by lia.
  replace (2 * B - length kept)%nat with (S ((off - length kept - 1) + (2 * B - off)))%nat by lia. rewrite replicate_S. cbn [insert list_insert].
  rewrite replicate_add. apply wp_bind. set (z := replicate (off - length kept - 1) 0).
  assert (Hz : length (kept ++ 128 :: z) = off) by (unfold z; rewrite length_app; simpl; rewrite length_replicate; lia).
  rewrite app_comm_cons, app_assoc. apply wp_copy_at; [rewrite length_app, Hz, length_replicate; lia|].
  rewrite take_app_le, take_ge by lia. apply wp_slice; [lia|rewrite length_app, Hz, length_app; lia|]. rewrite drop_0, Nat.sub_0_r, app_assoc.
  rewrite take_app_le by (rewrite length_app; lia). rewrite take_ge by (rewrite length_app; lia).
  unfold last_blocks. by rewrite <- app_assoc.
Qed.

Lemma pad_split finished buf off : (length finished mod B = 0)%nat -> (length buf < off <= length buf + B)%nat -> ((off + L) mod B = 0)%nat ->
  pad M (finished ++ buf) = finished ++ last_blocks off (length buf) buf (to_be L (8 * Z.of_nat (length (finished ++ buf)))).
Proof.
  intros Hf Hoff Hmod. unfold pad, last_blocks. fold L B. rewrite <- app_assoc. do 4 f_equal. rewrite length_app.
  replace (off - length buf - 1)%nat with (Z.to_nat (Z.of_nat (off - length buf - 1))) by lia. do 2 f_equal.
  apply Nat.Div0.mod_divides in Hf as [j Hj]. apply Nat.Div0.mod_divides in Hmod as [k Hk]. symmetry.
  apply (Z.mod_unique_pos _ _ (- Z.of_nat j - Z.of_nat k)); [lia|]. nia.
Qed.

Lemma append_words_wp hash s l : holds 64 hash s -> (length s + length l * wbytes M <= 64)%nat ->
  wp (append_words (wbytes M) hash l) (fun hash' => holds 64 hash' (s ++ concat (to_be (wbytes M) <$> l))).
Proof.
  revert hash s. induction l as [|w l IH]; intros hash s Hs Hl; simpl in *; [by rewrite app_nil_r|].
  apply wp_bind. eapply wp_mono; [apply holds_append; [exact Hs|rewrite length_to_be; lia]|]. intros hash' Hs'.
  rewrite app_assoc. apply IH; [exact Hs'|]. rewrite length_app, length_to_be. lia.
Qed.

Lemma sum_stands h m : stands h m -> wp (Sha2.sum v B (wbytes M) L (outs M) code h) (fun t => as_ref t = Some (fips_digest M m)).
Proof.
  intros [Htot (finished & buf & -> & Hf & Hbuf & Hst & Hlen & Hbl & Htake)]. unfold Sha2.sum. cbv zeta. fold cb.
  set (off := (buffer_len h + _)%nat).
  assert (Hoff : (length buf < off <= length buf + B)%nat /\ (off + L <= 2 * B)%nat /\ ((off + L) mod B = 0)%nat).
  { unfold off. rewrite Hbl. clear -Hbuf Hwb. destruct (Nat.ltb_spec (length buf) (B - L)).
    - split_and!; try (unfold B, L in *; lia). replace (_ + L)%nat with B by (unfold B, L in *; lia). apply Nat.Div0.mod_same.
    - split_and!; try (unfold B, L in *; lia). replace (_ + L)%nat with (2 * B)%nat by (unfold B, L in *; lia). apply Nat.Div0.mod_mul. }
  destruct Hoff as (H1 & H2 & H3). clearbody off.
  assert (Hfield : to_be L ((total_len h * 8) mod 2 ^ cb) = to_be L (8 * Z.of_nat (length (finished ++ buf)))).
  { unfold to_be. f_equal. rewrite (to_le_truncate L (8 * _)), Htot. f_equal.
    replace (256 ^ Z.of_nat L) with (2 ^ cb) by (unfold cb, counter_bits; by rewrite Z.pow_mul_r by lia). by rewrite Zmult_mod_idemp_l, Z.mul_comm. }
  rewrite Hfield. apply wp_bind, wp_slice; [lia|lia|]. rewrite drop_0, Nat.sub_0_r, Hbl, Htake.
  set (field := to_be L _). pose proof (tail_layout buf off field (proj1 H1) H2 (length_to_be _ _)) as Ht.
  destruct (copy_at _ 0 buf) as [t1|]; [|done]. cbn [mbind option_bind] in *. destruct (upd t1 _ _) as [t2|]; [|done]. cbn [mbind option_bind] in *.
  apply wp_bind, wp_assert; [apply Nat.leb_le; unfold B, L; lia|]. destruct (copy_at t2 off field) as [t3|]; [|done]. cbn [mbind option_bind] in *.
  apply wp_bind. eapply wp_mono; [exact Ht|]. intros t ->. pose proof (pad_split finished buf off Hf H1 H3) as Hpad. fold field in Hpad.
  rewrite (finished_more _ finished _ _ Hst Hf), <- Hpad by (apply last_whole; [exact (proj1 H1)|exact H3|apply length_to_be]). cbn [mbind option_bind].
  set (st := foldl _ _ _). assert (Hst8 : length st = 8%nat) by by apply fold_length.
  apply wp_bind. eapply wp_mono; [by apply holds_new|]. intros hash Hhash.
  apply wp_bind. eapply wp_mono; [apply (append_words_wp hash []); [exact Hhash|rewrite length_take; simpl; lia]|].
  intros hash' Hhash'. apply wp_ret. exact (holds_deref _ _ _ Hhash').
Qed.

Lemma digest_length m : length (fips_digest M m) = (outs M * wbytes M)%nat.
Proof.
  unfold fips_digest. set (st := foldl _ _ _). assert (Hst : length st = 8%nat) by by apply fold_length.
  rewrite length_concat, <- list_fmap_compose. replace (outs M) with (length (take (outs M) st)) at 2 by (rewrite length_take; lia).
  generalize (take (outs M) st). intros l. induction l as [|w l IH]; [done|]. cbn [fmap list_fmap sum_list foldr]. simpl. rewrite length_to_be. f_equal. exact IH.
Qed.

Lemma digest_bytes m : bytes (fips_digest M m).
Proof.
  unfold fips_digest. generalize (take (outs M) (foldl (compress M) (IV M) (chunks (16 * wbytes M) (pad M m)))). intros l.
  induction l as [|w l IH]; [constructor|]. cbn [fmap list_fmap concat]. apply Forall_app. split; [apply bytes_to_be|exact IH].
Qed.
End Walk.

(** ** The members *)

Lemma bind_ext {A A'} (m m' : option A) (f g : A -> option A') : m = m' -> (forall a, f a = g a) -> mbind f m = mbind g m'.
Proof. intros -> H. destruct m'; [apply H|done]. Qed.

Lemma for_from_ext {St} n i (f g : nat -> St -> option St) s : (forall i s, f i s = g i s) -> for_from n i f s = for_from n i g s.
Proof.
  intros H. revert i s. induction n as [|n IH]; intros i s; [done|]. cbn [for_from]. rewrite H. apply bind_ext; [done|]. intros a. apply IH.
Qed.

(** Reading a word byte by byte. *)
Definition load4 (block : list Z) (i : nat) : option Z :=
  let offset := (i * 4)%nat in
  b0 ← block !! offset; b1 ← block !! (offset + 1)%nat; b2 ← block !! (offset + 2)%nat; b3 ← block !! (offset + 3)%nat;
  Some (from_be [b0; b1; b2; b3]).

Definition load8 (block : list Z) (i : nat) : option Z :=
  let offset := (i * 8)%nat in
  b0 ← block !! offset; b1 ← block !! (offset + 1)%nat; b2 ← block !! (offset + 2)%nat; b3 ← block !! (offset + 3)%nat;
  b4 ← block !! (offset + 4)%nat; b5 ← block !! (offset + 5)%nat; b6 ← block !! (offset + 6)%nat; b7 ← block !! (offset + 7)%nat;
  Some (from_be [b0; b1; b2; b3; b4; b5; b6; b7]).

Lemma load4_word b i : length b = 64%nat -> (i < 16)%nat -> load4 b i = Some (from_be (take 4 (drop (i * 4) b))).
Proof.
  intros Hb Hi. unfold load4. cbv zeta. rewrite <- (Nat.add_0_r (i * 4)) at 1. rewrite <- !lookup_drop.
  assert (H : (4 <= length (drop (i * 4) b))%nat) by (rewrite length_drop; lia).
  destruct (drop (i * 4) b) as [|b0 [|b1 [|b2 [|b3 l]]]]; simpl in H; try lia. reflexivity.
Qed.

Lemma load8_word b i : length b = 128%nat -> (i < 16)%nat -> load8 b i = Some (from_be (take 8 (drop (i * 8) b))).
Proof.
  intros Hb Hi. unfold load8. cbv zeta. rewrite <- (Nat.add_0_r (i * 8)) at 1. rewrite <- !lookup_drop.
  assert (H : (8 <= length (drop (i * 8) b))%nat) by (rewrite length_drop; lia).
  destruct (drop (i * 8) b) as [|b0 [|b1 [|b2 [|b3 [|b4 [|b5 [|b6 [|b7 l]]]]]]]]; simpl in H; try lia. reflexivity.
Qed.

(** Both block functions have the shape [block_code], up to where a loop body
    binds its reads. *)
Ltac same_shape :=
  cbv zeta;
  apply bind_ext;
    [apply for_from_ext; intros ? ?;
     unfold load4, load8; cbv zeta;
     repeat match goal with |- context [?l !! ?i] => destruct (l !! i); [cbn [mbind option_bind]|reflexivity] end; reflexivity|intros ?];
  apply bind_ext; [reflexivity|intros ?];
  do 8 (apply bind_ext; [reflexivity|intros ?]);
  apply bind_ext; [apply for_from_ext; intros ? [[[[[[[? ?] ?] ?] ?] ?] ?] ?]; reflexivity|intros [[[[[[[? ?] ?] ?] ?] ?] ?] ?]; reflexivity].

Lemma sha256_block st b : length st = 8%nat -> length b = 64%nat -> Sha256.compress_block_software st b = Some (compress Sha256.sha256 st b).
Proof.
  intros Hst Hb. rewrite <- (block_correct Sha256.sha256 load4); [|by vm_compute; lia|reflexivity|exact load4_word|exact Hst|exact Hb].
  unfold Sha256.compress_block_software, block_code. same_shape.
Qed.

Lemma sha512_block st b : length st = 8%nat -> length b = 128%nat -> Sha512.compress_block_software st b = Some (compress Sha512.sha512 st b).
Proof.
  intros Hst Hb. rewrite <- (block_correct Sha512.sha512 load8); [|by vm_compute; lia|reflexivity|exact load8_word|exact Hst|exact Hb].
  unfold Sha512.compress_block_software, block_code. same_shape.
Qed.

Lemma sha384_block st b : length st = 8%nat -> length b = 128%nat -> Sha512.compress_block_software st b = Some (compress Sha512.sha384 st b).
Proof.
  intros Hst Hb. rewrite <- (block_correct Sha512.sha384 load8); [|by vm_compute; lia|reflexivity|exact load8_word|exact Hst|exact Hb].
  unfold Sha512.compress_block_software, block_code. same_shape.
Qed.

Lemma sha256_ok : member_ok Sha256.sha256.
Proof. vm_compute. repeat split; lia. Qed.
Lemma sha512_ok : member_ok Sha512.sha512.
Proof. vm_compute. repeat split; lia. Qed.
Lemma sha384_ok : member_ok Sha512.sha384.
Proof. vm_compute. repeat split; lia. Qed.

#[global, refine] Instance Sha256_Laws : HasherLaws (State V256) := {|
  digest := fips_digest Sha256.sha256; absorbed := stands Sha256.sha256 V256 |}.
Proof.
  - vm_compute; lia.
  - exact (stands_new Sha256.sha256 V256 sha256_ok false).
  - intros h m d Hh _. exact (update_stands Sha256.sha256 V256 Sha256.compress_block_software sha256_ok sha256_block h m d Hh).
  - intros h m Hh. exact (sum_stands Sha256.sha256 V256 Sha256.compress_block_software sha256_ok sha256_block h m Hh).
  - intros m _. exact (digest_length Sha256.sha256 sha256_ok m).
  - intros m _. exact (digest_bytes Sha256.sha256 m).
Defined.

#[global] Instance Sha256_Fits : HmacFits (State V256).
Proof. split; vm_compute; lia. Qed.

#[global, refine] Instance Sha512_Laws : HasherLaws (State V512) := {|
  digest := fips_digest Sha512.sha512; absorbed := stands Sha512.sha512 V512 |}.
Proof.
  - vm_compute; lia.
  - exact (stands_new Sha512.sha512 V512 sha512_ok false).
  - intros h m d Hh _. exact (update_stands Sha512.sha512 V512 Sha512.compress_block_software sha512_ok sha512_block h m d Hh).
  - intros h m Hh. exact (sum_stands Sha512.sha512 V512 Sha512.compress_block_software sha512_ok sha512_block h m Hh).
  - intros m _. exact (digest_length Sha512.sha512 sha512_ok m).
  - intros m _. exact (digest_bytes Sha512.sha512 m).
Defined.

#[global] Instance Sha512_Fits : HmacFits (State V512).
Proof. split; vm_compute; lia. Qed.

#[global, refine] Instance Sha384_Laws : HasherLaws (State V384) := {|
  digest := fips_digest Sha512.sha384; absorbed := stands Sha512.sha384 V384 |}.
Proof.
  - vm_compute; lia.
  - exact (stands_new Sha512.sha384 V384 sha384_ok false).
  - intros h m d Hh _. exact (update_stands Sha512.sha384 V384 Sha512.compress_block_software sha384_ok sha384_block h m d Hh).
  - intros h m Hh. exact (sum_stands Sha512.sha384 V384 Sha512.compress_block_software sha384_ok sha384_block h m Hh).
  - intros m _. exact (digest_length Sha512.sha384 sha384_ok m).
  - intros m _. exact (digest_bytes Sha512.sha384 m).
Defined.

#[global] Instance Sha384_Fits : HmacFits (State V384).
Proof. split; vm_compute; lia. Qed.

(** C8: SHA-2 computes FIPS 180-4.  A message handed to [Sha256], [Sha384] or
    [Sha512] in any pieces, empty ones and ones that straddle blocks included,
    never panics, and [sum] gives the digest the standard defines for the whole
    message, of 32, 48 or 64 bytes: the padding by a one bit, zeros and the
    length, the message schedule and the rounds. *)
Theorem sha2_correct (pieces : list (list Z)) : Forall bytes pieces ->
  stream (State V256) pieces = Some (fips_digest Sha256.sha256 (concat pieces)) /\
  stream (State V384) pieces = Some (fips_digest Sha512.sha384 (concat pieces)) /\
  stream (State V512) pieces = Some (fips_digest Sha512.sha512 (concat pieces)) /\
  length (fips_digest Sha256.sha256 (concat pieces)) = 32%nat /\
  length (fips_digest Sha512.sha384 (concat pieces)) = 48%nat /\
  length (fips_digest Sha512.sha512 (concat pieces)) = 64%nat.
Proof.
  intros Hp. split_and!.
  - exact (stream_digest (H := State V256) pieces Hp).
  - exact (stream_digest (H := State V384) pieces Hp).
  - exact (stream_digest (H := State V512) pieces Hp).
  - exact (digest_length _ sha256_ok _).
  - exact (digest_length _ sha384_ok _).
  - exact (digest_length _ sha512_ok _).
Qed.

(** "abc", its bytes handed over one at a time. *)
Example sha2_correct_witness : stream (State V256) [[97]; []; [98]; [99]] =
  Some (to_be 32 0xba7816bf8f01cfea414140de5dae2223b00361a396177a9cb410ff61f20015ad).
Proof.
  rewrite (proj1 (sha2_correct [[97]; []; [98]; [99]] ltac:(repeat constructor; lia))). vm_compute. reflexivity.
Defined.

End Sha2Theorems.
