(* ===== verification/Hmac.v ===== *)
(** * crypto: HMAC

    src/crypto/src/hmac.rs over any lawful [Hasher] whose sizes fit ([HmacFits]): the keyed hash is that of
    RFC 2104, whatever the pieces the message comes in. *)
From Stdlib Require Import ZArith Lia.
From stdpp Require Import base list numbers option.
From S2P Require Import Prelude Words ConstEq Hasher.
Import Hasher.

Module Hmac.

(** [Hmac<H>]: the inner hasher, which has absorbed the inner pad, and the
    outer pad. *)
Record Hmac (H : Type) := mkHmac { hash : H; opad : list Z }.
Arguments mkHmac {H} _ _.
Arguments hash {H} _.
Arguments opad {H} _.

Section Code.
Context (H : Type) `{!Hasher H}.

(** [for i in 0..H::BLOCK_SIZE { dst[i] = src[i] ^ pad }]. *)
Definition xor_pad (dst src : list Z) (pad : Z) : option (list Z) :=
  for_loop 0 (BLOCK_SIZE H) (fun i dst => x ← src !! i; upd dst i (Z.lxor x pad)) dst.

Definition new (key : list Z) : option (Hmac H) :=
  let key_block := replicate MAX_HASH_BLOCK_SIZE 0 in
  key_block ←
    (if (BLOCK_SIZE H <? length key)%nat then
       h ← update (Hasher.new (H := H)) key;
       hashed ← sum h;
       hashed_bytes ← as_ref hashed;
       copy_at key_block 0 hashed_bytes
     else copy_at key_block 0 key);
  inner_key ← xor_pad (replicate MAX_HASH_BLOCK_SIZE 0) key_block 0x36;
  opad ← xor_pad (replicate MAX_HASH_BLOCK_SIZE 0) key_block 0x5c;
  ipad ← slice inner_key 0 (BLOCK_SIZE H);
  hash ← update (Hasher.new (H := H)) ipad;
  Some (mkHmac hash opad).

Definition update (self : Hmac H) (data : list Z) : option (Hmac H) :=
  hash ← Hasher.update (hash self) data;
  Some (mkHmac hash (opad self)).

Definition finalize (self : Hmac H) : option Hash :=
  inner_sum ← sum (hash self);
  opad ← slice (opad self) 0 (BLOCK_SIZE H);
  outer ← Hasher.update (Hasher.new (H := H)) opad;
  inner_sum ← as_ref inner_sum;
  outer ← Hasher.update outer inner_sum;
  sum outer.

Definition mac (key data : list Z) : option Hash :=
  mac ← new key;
  mac ← update mac data;
  finalize mac.

(** The message in pieces. *)
Fixpoint updates (self : Hmac H) (pieces : list (list Z)) : option (Hmac H) :=
  match pieces with [] => Some self | d :: rest => self ← update self d; updates self rest end.

Definition mac_pieces (key : list Z) (pieces : list (list Z)) : option (list Z) :=
  mac ← new key;
  mac ← updates mac pieces;
  tag ← finalize mac;
  as_ref tag.
End Code.

(** ** RFC 2104 *)

Section Spec.
Context (H : Type) `{!Hasher H, !HasherLaws H, !HmacFits H}.

Definition key_block (key : list Z) : list Z :=
  let k := if (BLOCK_SIZE H <? length key)%nat then digest H key else key in
  k ++ replicate (BLOCK_SIZE H - length k) 0.

Definition pad (key : list Z) (p : Z) : list Z := (fun x => Z.lxor x p) <$> key_block key.

Definition hmac (key data : list Z) : list Z :=
  digest H (pad key 0x5c ++ digest H (pad key 0x36 ++ data)).

Lemma key_short key : bytes key -> let k := if (BLOCK_SIZE H <? length key)%nat then digest H key else key in
  bytes k /\ (length k <= BLOCK_SIZE H)%nat.
Proof.
  intros Hk. cbv zeta. destruct (Nat.ltb_spec (BLOCK_SIZE H) (length key)); [|by split].
  split; [by apply digest_bytes|]. rewrite digest_length by done. apply output_fits.
Qed.

Lemma key_block_length key : bytes key -> length (key_block key) = BLOCK_SIZE H.
Proof.
  intros Hk. destruct (key_short key Hk) as [_ Hle]. unfold key_block. cbv zeta in *.
  rewrite length_app, length_replicate. lia.
Qed.

Lemma pad_length key p : bytes key -> length (pad key p) = BLOCK_SIZE H.
Proof. intros Hk. unfold pad. by rewrite length_fmap, key_block_length. Qed.

Lemma pad_bytes key p : bytes key -> byte p -> bytes (pad key p).
Proof.
  intros Hk Hp. destruct (key_short key Hk) as [Hb _]. apply Forall_fmap.
  assert (Hall : bytes (key_block key)) by (apply Forall_app; split; [exact Hb|apply Forall_replicate; unfold byte; lia]).
  revert Hall. apply Forall_impl. intros x Hx. unfold byte in *. cbn. by apply (lxor_nonneg_bound x p 8).
Qed.

Lemma hmac_bytes key data : bytes key -> bytes data -> bytes (hmac key data).
Proof.
  intros Hk Hd. apply digest_bytes, Forall_app. split; [apply pad_bytes; [done|unfold byte; lia]|].
  apply digest_bytes, Forall_app. split; [apply pad_bytes; [done|unfold byte; lia]|done].
Qed.

Lemma hmac_length key data : bytes key -> bytes data -> length (hmac key data) = OUTPUT_SIZE H.
Proof.
  intros Hk Hd. apply digest_length, Forall_app. split; [apply pad_bytes; [done|unfold byte; lia]|].
  apply digest_bytes, Forall_app. split; [apply pad_bytes; [done|unfold byte; lia]|done].
Qed.

(** ** The code *)

Lemma xor_pad_spec dst src p : length dst = MAX_HASH_BLOCK_SIZE -> (BLOCK_SIZE H <= length src)%nat ->
  wp (xor_pad H dst src p) (fun r => r = ((fun x => Z.lxor x p) <$> take (BLOCK_SIZE H) src) ++ drop (BLOCK_SIZE H) dst).
Proof.
  intros Hd Hs. pose proof block_size (H := H) as HB. unfold xor_pad.
  apply (wp_for (fun i r => r = ((fun x => Z.lxor x p) <$> take i src) ++ drop i dst)); [lia|done| |done].
  intros i r Hi ->. destruct (lookup_lt_is_Some_2 src i) as [x Hx]; [lia|]. rewrite Hx. cbn [mbind option_bind].
  assert (Hl : length ((fun x => Z.lxor x p) <$> take i src) = i) by (rewrite length_fmap, length_take; lia).
  apply wp_upd; [rewrite length_app, Hl, length_drop; lia|]. rewrite (take_S_r _ _ x Hx), fmap_app.
  destruct (lookup_lt_is_Some_2 dst i) as [y Hy]; [lia|]. rewrite (drop_S dst y i Hy).
  rewrite insert_app_r_alt, Hl, Nat.sub_diag by lia. by rewrite <- app_assoc.
Qed.

(** The state after the key and the message [m]. *)
Definition keyed (s : Hmac H) (key m : list Z) : Prop :=
  absorbed (hash s) (pad key 0x36 ++ m) /\ take (BLOCK_SIZE H) (opad s) = pad key 0x5c /\ length (opad s) = MAX_HASH_BLOCK_SIZE.

Lemma key_copied k : (length k <= BLOCK_SIZE H)%nat ->
  wp (copy_at (replicate MAX_HASH_BLOCK_SIZE 0) 0 k) (fun r => length r = MAX_HASH_BLOCK_SIZE /\
    take (BLOCK_SIZE H) r = k ++ replicate (BLOCK_SIZE H - length k) 0).
Proof.
  intros Hk. pose proof block_size (H := H) as HB. apply wp_copy_at; [rewrite length_replicate; lia|].
  rewrite take_0, drop_replicate. cbn [app Nat.add]. rewrite length_app, length_replicate. split; [lia|].
  rewrite take_app_ge, take_replicate by lia. do 2 f_equal. lia.
Qed.

Lemma new_keyed key : bytes key -> wp (new H key) (fun s => keyed s key []).
Proof.
  intros Hk. pose proof block_size (H := H) as HB. destruct (key_short key Hk) as [Hb Hle]. unfold new.
  apply wp_bind, (wp_mono _ (fun r => length r = MAX_HASH_BLOCK_SIZE /\ take (BLOCK_SIZE H) r = key_block key)).
  { unfold key_block. cbv zeta in *. destruct (BLOCK_SIZE H <? length key)%nat; [|by apply key_copied].
    apply wp_bind. eapply wp_mono; [apply (absorbed_update _ []); [apply absorbed_new|exact Hk]|]. intros h Hh.
    apply wp_bind. eapply wp_mono; [exact (sum_digest _ _ Hh)|]. intros t ->. cbn [mbind option_bind]. by apply key_copied. }
  intros kb [Hkl Hkb].
  assert (Hzero : length (replicate MAX_HASH_BLOCK_SIZE 0) = MAX_HASH_BLOCK_SIZE) by apply length_replicate.
  apply wp_bind. eapply wp_mono; [apply (xor_pad_spec _ _ _ Hzero); lia|]. intros ik ->. rewrite Hkb. fold (pad key 0x36).
  apply wp_bind. eapply wp_mono; [apply (xor_pad_spec _ _ _ Hzero); lia|]. intros ok ->. rewrite Hkb. fold (pad key 0x5c).
  pose proof (pad_length key 0x36 Hk) as H36. pose proof (pad_length key 0x5c Hk) as H5c.
  apply wp_bind, wp_slice; [lia|rewrite length_app; lia|]. rewrite drop_0, Nat.sub_0_r, take_app_length' by done.
  apply wp_bind. eapply wp_mono; [apply (absorbed_update _ []); [apply absorbed_new|apply pad_bytes; [done|unfold byte; lia]]|].
  intros h Hh. apply wp_ret. unfold keyed. cbn [hash opad]. rewrite app_nil_r. split_and!; [exact Hh|by rewrite take_app_length'|].
  rewrite length_app, H5c, length_drop, Hzero. lia.
Qed.

Lemma update_keyed s key m d : bytes d -> keyed s key m -> wp (update H s d) (fun s' => keyed s' key (m ++ d)).
Proof.
  intros Hd (Hh & Ho). unfold update. apply wp_bind. eapply wp_mono; [exact (absorbed_update _ _ _ Hh Hd)|]. intros h' Hh'.
  apply wp_ret. unfold keyed. cbn [hash opad]. by rewrite app_assoc.
Qed.

Lemma updates_keyed s key m pieces : Forall bytes pieces -> keyed s key m -> wp (updates H s pieces) (fun s' => keyed s' key (m ++ concat pieces)).
Proof.
  intros Hp. revert s m. induction Hp as [|d pieces Hd Hp IH]; intros s m Hs; simpl; [by rewrite app_nil_r|].
  apply wp_bind. eapply wp_mono; [exact (update_keyed _ _ _ _ Hd Hs)|]. intros s' Hs'. rewrite app_assoc. by apply IH.
Qed.

Lemma finalize_keyed s key m : bytes key -> bytes m -> keyed s key m -> wp (finalize H s) (fun t => as_ref t = Some (hmac key m)).
Proof.
  intros Hk Hm (Hh & Ho & Hl). pose proof block_size (H := H) as HB. unfold finalize.
  apply wp_bind. eapply wp_mono; [exact (sum_digest _ _ Hh)|]. intros t Ht.
  apply wp_bind, wp_slice; [lia|lia|]. rewrite drop_0, Nat.sub_0_r, Ho.
  apply wp_bind. eapply wp_mono; [apply (absorbed_update _ []); [apply absorbed_new|apply pad_bytes; [done|unfold byte; lia]]|]. intros o Hout.
  rewrite Ht. cbn [mbind option_bind]. apply wp_bind. eapply wp_mono; [apply (absorbed_update _ _ _ Hout)|].
  { apply digest_bytes, Forall_app. split; [apply pad_bytes; [done|unfold byte; lia]|done]. }
  intros o' Ho'. exact (sum_digest _ _ Ho').
Qed.

Lemma hmac_mac_spec key data : bytes key -> bytes data -> wp (mac H key data) (fun t => as_ref t = Some (hmac key data)).
Proof.
  intros Hk Hd. unfold mac. apply wp_bind. eapply wp_mono; [exact (new_keyed key Hk)|]. intros s Hs.
  apply wp_bind. eapply wp_mono; [exact (update_keyed _ _ _ _ Hd Hs)|]. intros s' Hs'. by apply finalize_keyed.
Qed.

Lemma mac_pieces_spec key pieces : bytes key -> Forall bytes pieces -> mac_pieces H key pieces = Some (hmac key (concat pieces)).
Proof.
  intros Hk Hp. apply wp_eq. unfold mac_pieces. apply wp_bind. eapply wp_mono; [exact (new_keyed key Hk)|]. intros s Hs.
  apply wp_bind. eapply wp_mono; [exact (updates_keyed _ _ _ _ Hp Hs)|]. intros s' Hs'.
  apply wp_bind. eapply wp_mono; [apply (finalize_keyed _ key (concat pieces)); [exact Hk|by apply Forall_concat|exact Hs']|].
  intros t Ht. rewrite Ht. apply wp_ret. reflexivity.
Qed.
End Spec.

(** Where a block does not fit the buffers, every key panics: the loop over the
    block runs past the end of the key block. *)
Lemma for_from_stops {St} n i (body : nat -> St -> option St) j : (i <= j < i + n)%nat -> (forall s, body j s = None) -> forall s, for_from n i body s = None.
Proof.
  revert i. induction n as [|n IH]; intros i Hj Hb s; [lia|]. cbn [for_from]. destruct (Nat.eq_dec i j) as [->|]; [by rewrite Hb|].
  destruct (body i s) as [s'|]; [|done]. apply IH; [lia|done].
Qed.

Lemma copied_length (b k : list Z) r : copy_at b 0 k = Some r -> length r = length b.
Proof.
  unfold copy_at. destruct (decide _) as [Hd|]; [|done]. intros H%(inj Some). subst r.
  rewrite !length_app, length_take, length_drop. lia.
Qed.

Lemma hmac_large_block (H : Type) `{!Hasher H} key : (MAX_HASH_BLOCK_SIZE < BLOCK_SIZE H)%nat -> new H key = None.
Proof.
  intros HB. unfold new. cbv zeta. destruct (if (_ <? _)%nat then _ else _) as [kb|] eqn:E; [|done]. cbn [mbind option_bind].
  assert (Hl : length kb = MAX_HASH_BLOCK_SIZE).
  { rewrite <- (length_replicate MAX_HASH_BLOCK_SIZE 0). destruct (_ <? _)%nat; [|by eapply copied_length].
    destruct (Hasher.update _ key) as [h|]; [|done]. cbn [mbind option_bind] in E. destruct (sum h) as [t|]; [|done].
    cbn [mbind option_bind] in E. destruct (as_ref t) as [b|]; [|done]. by eapply copied_length. }
  assert (Hx : forall dst, xor_pad H dst kb 0x36 = None); [|by rewrite Hx].
  intros dst. unfold xor_pad, for_loop. apply (for_from_stops _ _ _ MAX_HASH_BLOCK_SIZE); [lia|].
  intros s. by rewrite (lookup_ge_None_2 kb) by lia.
Qed.

(** C10: HMAC is that of RFC 2104, over any hasher that keeps the contract of
    [Hasher] and whose sizes fit: blocks of at most [MAX_HASH_BLOCK_SIZE] = 136
    bytes and digests no longer than a block ([HmacFits], which Shake128 and
    AsconHash256 do not meet).  A key longer than a block is hashed first, a
    shorter one filled up with zeros; [mac], and [new], [update] in any pieces
    and [finalize], never panic and give the digest of the outer pad and of the
    digest of the inner pad and the message, [OUTPUT_SIZE] bytes long. *)
Theorem hmac_correct (H : Type) `{!Hasher H, !HasherLaws H, !HmacFits H} (key : list Z) (pieces : list (list Z)) :
  bytes key -> Forall bytes pieces ->
  mac_pieces H key pieces = Some (hmac H key (concat pieces)) /\
  (t ← mac H key (concat pieces); as_ref t) = Some (hmac H key (concat pieces)) /\
  length (hmac H key (concat pieces)) = OUTPUT_SIZE H /\ bytes (hmac H key (concat pieces)).
Proof.
  intros Hk Hp. assert (Hm : bytes (concat pieces)) by by apply Forall_concat.
  split_and!; [by apply mac_pieces_spec| |by apply hmac_length|by apply hmac_bytes].
  apply wp_eq, wp_bind. eapply wp_mono; [exact (hmac_mac_spec H key _ Hk Hm)|]. intros t Ht. rewrite Ht. reflexivity.
Qed.

End Hmac.
