(* ===== verification/Kdf.v ===== *)
(** * crypto: key derivation

    src/crypto/src/hkdf.rs and src/crypto/src/pbkdf2.rs over any lawful [Hasher] that [Hmac] fits:
    both produce a stream of blocks, each an HMAC or a combination of HMACs,
    cut to the length asked for. *)
From Stdlib Require Import ZArith Lia.
From stdpp Require Import base list numbers option.
From S2P Require Import Prelude Words ConstEq Hasher Hmac.
Import Hasher Hmac.

(** ** HKDF *)
Module Hkdf.

Inductive HkdfError := PrkIsTooShort (n : nat) | OutputIsTooLong.

Definition DEFAULT_SALT : list Z := replicate MAX_HASH_OUTPUT_SIZE 0.

Section Code.
Context (H : Type) `{!Hasher H}.

Definition extract (ikm : list Z) (salt : option (list Z)) : option Hash :=
  _ ← rassert (OUTPUT_SIZE H <=? MAX_HASH_OUTPUT_SIZE)%nat;
  salt ← (match salt with Some salt => Some salt | None => slice DEFAULT_SALT 0 (OUTPUT_SIZE H) end);
  mac ← Hmac.new H salt;
  mac ← Hmac.update H mac ikm;
  finalize H mac.

(** The buffer [okm] is written in place: the final buffer and the result. *)
Definition expand (okm prk info : list Z) : option (list Z * result unit HkdfError) :=
  _ ← rassert (OUTPUT_SIZE H <=? MAX_HASH_OUTPUT_SIZE)%nat;
  let n := length okm in
  if (length prk <? OUTPUT_SIZE H)%nat then Some (okm, Err (PrkIsTooShort (OUTPUT_SIZE H))) else
  if (255 * OUTPUT_SIZE H <? n)%nat then Some (okm, Err OutputIsTooLong) else
  if (n =? 0)%nat then Some (okm, Ok tt) else
  '(okm, _, _, _, _) ← while_loop (S n) (fun '(_, _, _, offset, _) => (offset <? n)%nat)
    (fun '(okm, t, t_len, offset, counter) =>
      key ← slice prk 0 (OUTPUT_SIZE H);
      mac ← Hmac.new H key;
      previous ← slice t 0 t_len;
      mac ← Hmac.update H mac previous;
      mac ← Hmac.update H mac info;
      mac ← Hmac.update H mac [counter];
      block ← finalize H mac;
      block_bytes ← as_ref block;
      let chunk_len := Nat.min (n - offset) (OUTPUT_SIZE H) in
      chunk ← slice block_bytes 0 chunk_len;
      okm ← copy_at okm offset chunk;
      _ ← rassert (length block_bytes =? OUTPUT_SIZE H)%nat;
      t ← copy_at t 0 block_bytes;
      Some (okm, t, OUTPUT_SIZE H, (offset + chunk_len)%nat, u8 (counter + 1)))
    (okm, replicate MAX_HASH_OUTPUT_SIZE 0, 0%nat, 0%nat, 1);
  Some (okm, Ok tt).

Definition derive_key (N : nat) (ikm info : list Z) (salt : option (list Z)) : option (result (list Z) HkdfError) :=
  prk ← extract ikm salt;
  prk ← as_ref prk;
  '(okm, r) ← expand (replicate N 0) prk info;
  match r with Err e => Some (Err e) | Ok _ => Some (Ok okm) end.
End Code.
End Hkdf.

(** ** PBKDF2 *)
Module Pbkdf2.

Section Code.
Context (H : Type) `{!Hasher H}.

(** [t[..hlen]], [u[..hlen]] for one more iteration. *)
Definition iterate (password : list Z) (t u : list Z) : option (list Z * list Z) :=
  let hlen := OUTPUT_SIZE H in
  mac ← Hmac.new H password;
  kept ← slice u 0 hlen;
  mac ← Hmac.update H mac kept;
  hash ← finalize H mac;
  hash_bytes ← as_ref hash;
  _ ← rassert (length hash_bytes =? hlen)%nat;
  u ← copy_at u 0 hash_bytes;
  t ← for_loop 0 hlen (fun i t => x ← t !! i; y ← u !! i; upd t i (Z.lxor x y)) t;
  Some (t, u).

(** On a 64-bit target; the bound on [N] is checked when compiling. *)
Definition derive (N : nat) (password salt : list Z) (iterations : Z) : option (list Z) :=
  _ ← rassert (negb (iterations =? 0));
  let hlen := OUTPUT_SIZE H in
  _ ← rassert (Z.of_nat N <=? 4294967295 * Z.of_nat hlen);
  let block_count := div_ceil N hlen in
  '(okm, _, _) ← for_loop 1 (S block_count) (fun block '(okm, t, u) =>
    mac ← Hmac.new H password;
    mac ← Hmac.update H mac salt;
    mac ← Hmac.update H mac (to_be 4 (u32 (Z.of_nat block)));
    hash ← finalize H mac;
    hash_bytes ← as_ref hash;
    _ ← rassert (length hash_bytes =? hlen)%nat;
    t ← copy_at t 0 hash_bytes;
    u ← copy_at u 0 hash_bytes;
    '(t, u) ← for_loop 2 (S (Z.to_nat iterations)) (fun _ '(t, u) => iterate password t u) (t, u);
    let start := ((block - 1) * hlen)%nat in
    let end_ := Nat.min (start + hlen) N in
    chunk ← slice t 0 (end_ - start);
    okm ← copy_at okm start chunk;
    Some (okm, t, u))
    (replicate N 0, replicate MAX_HASH_BLOCK_SIZE 0, replicate MAX_HASH_BLOCK_SIZE 0);
  Some okm.
End Code.
End Pbkdf2.

(** ** A stream of blocks, cut to a length *)

Section Blocks.
(** The [i]-th block, from 1, of [B] bytes. *)
Variable T : nat -> list Z.
Variable B : nat.
Hypothesis HB : (0 < B)%nat.
Hypothesis HT : forall i, (0 < i)%nat -> length (T i) = B.

Definition blocks_upto (k : nat) : list Z := concat (T <$> seq 1 k).

(** [n] bytes of the stream, from as many blocks as it takes. *)
Definition cut (n : nat) : list Z := take n (blocks_upto (div_ceil n B)).

Lemma blocks_S k : blocks_upto (S k) = blocks_upto k ++ T (S k).
Proof. unfold blocks_upto. rewrite seq_S, fmap_app, concat_app. simpl. by rewrite app_nil_r. Qed.

Lemma blocks_length k : length (blocks_upto k) = (k * B)%nat.
Proof. induction k as [|k IH]; [done|]. rewrite blocks_S, length_app, IH, HT by lia. lia. Qed.

Lemma div_ceil_bounds n : (n <= div_ceil n B * B)%nat /\ (div_ceil n B * B < n + B)%nat.
Proof. unfold div_ceil. pose proof (Nat.div_mod_eq (n + B - 1) B). pose proof (Nat.mod_upper_bound (n + B - 1) B). nia. Qed.

(** The buffer after [k] blocks: their bytes, as far as they fit, then what
    was there. *)
Definition written (okm0 : list Z) (k : nat) : list Z := take (length okm0) (blocks_upto k) ++ drop (k * B) okm0.

Lemma written_length okm0 k : length (written okm0 k) = length okm0.
Proof. unfold written. rewrite length_app, length_take, length_drop, blocks_length. lia. Qed.

Lemma written_0 okm0 : written okm0 0 = okm0.
Proof. unfold written. change (blocks_upto 0) with (@nil Z). by rewrite take_nil. Qed.

Lemma written_S okm0 k : let n := length okm0 in (k * B < n)%nat ->
  wp (copy_at (written okm0 k) (k * B) (take (Nat.min (n - k * B) B) (T (S k)))) (fun r => r = written okm0 (S k)).
Proof.
  intros n Hk. pose proof (HT (S k) ltac:(lia)) as Hl. pose proof (blocks_length k) as Hbl.
  set (c := Nat.min (n - k * B) B). assert (Hc : length (take c (T (S k))) = c) by (rewrite length_take; lia).
  apply wp_copy_at; [rewrite written_length, Hc; unfold c, n; lia|]. rewrite Hc. unfold written. rewrite blocks_S. fold n.
  rewrite (take_ge (blocks_upto k)) by lia. rewrite take_app_length' by done. rewrite (take_app_ge (blocks_upto k)), Hbl by lia.
  rewrite <- app_assoc. f_equal. rewrite drop_app_ge, Hbl, drop_drop by lia.
  destruct (Nat.le_gt_cases B (n - k * B)).
  - unfold c. rewrite Nat.min_r, !take_ge by lia. do 2 f_equal. lia.
  - unfold c. rewrite Nat.min_l by lia. rewrite !drop_ge by (unfold n in *; lia). done.
Qed.

Lemma written_all okm0 : written okm0 (div_ceil (length okm0) B) = cut (length okm0).
Proof. unfold written, cut. destruct (div_ceil_bounds (length okm0)). by rewrite drop_ge, app_nil_r by lia. Qed.

Lemma div_ceil_unique n k : (n <= k * B)%nat -> (k * B < n + B)%nat -> k = div_ceil n B.
Proof. intros H1 H2. destruct (div_ceil_bounds n). nia. Qed.

Lemma more_blocks n k : (k < div_ceil n B)%nat <-> (k * B < n)%nat.
Proof. destruct (div_ceil_bounds n). split; intros; nia. Qed.
End Blocks.

(** ** HKDF is RFC 5869 *)

Section HkdfSpec.
Context (H : Type) `{!Hasher H, !HasherLaws H, !HmacFits H}.
Import Hkdf.

Definition prk_of (ikm : list Z) (salt : option (list Z)) : list Z :=
  hmac H (default (replicate (OUTPUT_SIZE H) 0) salt) ikm.

(** [T(0)] is empty, [T(i)] the keyed hash of [T(i-1)], the info and one byte
    holding [i], which is at most 255. *)
Fixpoint T (prk info : list Z) (i : nat) : list Z :=
  match i with
  | O => []
  | S i' => hmac H prk (T prk info i' ++ info ++ [u8 (Z.of_nat i)])
  end.

Definition okm_of (prk info : list Z) (n : nat) : list Z := cut (T prk info) (OUTPUT_SIZE H) n.

Lemma T_ok prk info i : bytes prk -> bytes info ->
  bytes (T prk info i) /\ (0 < i -> length (T prk info i) = OUTPUT_SIZE H)%nat.
Proof.
  intros Hp Hi. induction i as [|i [Hb _]]; [split; [constructor|lia]|]. cbn [T].
  assert (Hm : bytes (T prk info i ++ info ++ [u8 (Z.of_nat (S i))])).
  { apply Forall_app. split; [done|]. apply Forall_app. split; [done|]. constructor; [apply u8_byte|constructor]. }
  split; [by apply (hmac_bytes H)|intros _; by apply (hmac_length H)].
Qed.

Lemma salt_ok salt : match salt with Some s => bytes s | None => True end -> bytes (default (replicate (OUTPUT_SIZE H) 0) salt).
Proof. destruct salt; simpl; [done|]. intros _. apply Forall_replicate. unfold byte. lia. Qed.

Lemma extract_spec ikm salt : bytes ikm -> match salt with Some s => bytes s | None => True end ->
  wp (extract H ikm salt) (fun t => as_ref t = Some (prk_of ikm salt)).
Proof.
  intros Hi Hs. pose proof output_size (H := H) as Ho. unfold extract. apply wp_bind, wp_assert; [apply Nat.leb_le; lia|].
  apply wp_bind, (wp_mono _ (fun s => s = default (replicate (OUTPUT_SIZE H) 0) salt)).
  { destruct salt as [s|]; [done|]. apply wp_slice; [lia|unfold DEFAULT_SALT; rewrite length_replicate; lia|].
    unfold DEFAULT_SALT. rewrite drop_0, take_replicate. cbn. f_equal. lia. }
  intros s ->. exact (hmac_mac_spec H _ _ (salt_ok salt Hs) Hi).
Qed.

(** One turn of the loop of [expand]. *)
Lemma expand_turn prk info prev i : bytes prk -> bytes info -> bytes prev ->
  wp (mac ← Hmac.new H prk; mac ← Hmac.update H mac prev; mac ← Hmac.update H mac info; mac ← Hmac.update H mac [u8 i]; finalize H mac)
    (fun t => as_ref t = Some (hmac H prk (prev ++ info ++ [u8 i]))).
Proof.
  intros Hp Hi Hprev. assert (Hc : bytes [u8 i]) by (constructor; [apply u8_byte|constructor]).
  apply wp_bind. eapply wp_mono; [exact (new_keyed H prk Hp)|]. intros s0 H0.
  apply wp_bind. eapply wp_mono; [exact (update_keyed H _ _ _ _ Hprev H0)|]. intros s1 H1.
  apply wp_bind. eapply wp_mono; [exact (update_keyed H _ _ _ _ Hi H1)|]. intros s2 H2.
  apply wp_bind. eapply wp_mono; [exact (update_keyed H _ _ _ _ Hc H2)|]. intros s3 H3.
  rewrite app_nil_l, <- app_assoc in H3. apply (finalize_keyed H); [exact Hp| |exact H3].
  apply Forall_app. split; [exact Hprev|]. apply Forall_app. by split.
Qed.

(** The state after [k] blocks. *)
Definition expanded (okm0 prk info : list Z) (k : nat) (s : list Z * list Z * nat * nat * Z) : Prop :=
  let '(okm, t, t_len, offset, counter) := s in
  okm = written (T prk info) (OUTPUT_SIZE H) okm0 k /\ length t = MAX_HASH_OUTPUT_SIZE /\
  (t_len <= MAX_HASH_OUTPUT_SIZE)%nat /\ take t_len t = T prk info k /\
  offset = Nat.min (length okm0) (k * OUTPUT_SIZE H) /\ counter = u8 (Z.of_nat (S k)) /\
  (k <= div_ceil (length okm0) (OUTPUT_SIZE H))%nat.

Definition expand_body (n : nat) (prk info : list Z) (s : list Z * list Z * nat * nat * Z) : option (list Z * list Z * nat * nat * Z) :=
  let '(okm, t, t_len, offset, counter) := s in
  key ← slice prk 0 (OUTPUT_SIZE H);
  mac ← Hmac.new H key;
  previous ← slice t 0 t_len;
  mac ← Hmac.update H mac previous;
  mac ← Hmac.update H mac info;
  mac ← Hmac.update H mac [counter];
  block ← finalize H mac;
  block_bytes ← as_ref block;
  let chunk_len := Nat.min (n - offset) (OUTPUT_SIZE H) in
  chunk ← slice block_bytes 0 chunk_len;
  okm ← copy_at okm offset chunk;
  _ ← rassert (length block_bytes =? OUTPUT_SIZE H)%nat;
  t ← copy_at t 0 block_bytes;
  Some (okm, t, OUTPUT_SIZE H, (offset + chunk_len)%nat, u8 (counter + 1)).

Lemma bind_assoc {A B C} (m : option A) (f : A -> option B) (g : B -> option C) : (m ≫= f) ≫= g = m ≫= (fun x => f x ≫= g).
Proof. by destruct m. Qed.

Lemma expand_body_spec okm0 prk info k s : bytes prk -> (OUTPUT_SIZE H <= length prk)%nat -> bytes info ->
  let key := take (OUTPUT_SIZE H) prk in
  expanded okm0 key info k s -> (k * OUTPUT_SIZE H < length okm0)%nat ->
  wp (expand_body (length okm0) prk info s) (expanded okm0 key info (S k)).
Proof.
  intros Hp Hlen Hi key. destruct s as [[[[okm t] t_len] offset] counter]. intros (-> & Ht & Htl & HT & Hoff & -> & Hk) Hmore.
  pose proof output_size (H := H) as Ho. assert (Hkey : bytes key) by (apply Forall_take; done).
  assert (Hlens : forall i, (0 < i)%nat -> length (T key info i) = OUTPUT_SIZE H) by (intros i Hpos; by apply T_ok).
  rewrite Nat.min_r in Hoff by lia. subst offset. unfold expand_body. apply wp_bind, wp_slice; [lia|lia|].
  rewrite drop_0, Nat.sub_0_r. fold key.
  pose proof (expand_turn key info (T key info k) (Z.of_nat (S k)) Hkey Hi (proj1 (T_ok _ _ _ Hkey Hi))) as Hturn.
  change (hmac H key (T key info k ++ info ++ [u8 (Z.of_nat (S k))])) with (T key info (S k)) in Hturn. rewrite <- HT in Hturn.
  destruct (Hmac.new H key) as [m0|]; [|done]. cbn [mbind option_bind] in *. apply wp_bind, wp_slice; [lia|lia|]. rewrite drop_0, Nat.sub_0_r.
  destruct (Hmac.update H m0 _) as [m1|]; [|done]. cbn [mbind option_bind] in *.
  destruct (Hmac.update H m1 _) as [m2|]; [|done]. cbn [mbind option_bind] in *.
  destruct (Hmac.update H m2 _) as [m3|]; [|done]. cbn [mbind option_bind] in *.
  apply wp_bind. eapply wp_mono; [exact Hturn|]. intros tag Htag. rewrite Htag. cbn [mbind option_bind].
  pose proof (Hlens (S k) ltac:(lia)) as HlS. set (b := T key info (S k)) in *.
  apply wp_bind, wp_slice; [lia|lia|]. rewrite drop_0, Nat.sub_0_r.
  apply wp_bind. eapply wp_mono; [exact (written_S _ (OUTPUT_SIZE H) ltac:(lia) Hlens okm0 k Hmore)|]. intros okm' ->.
  apply wp_bind, wp_assert; [apply Nat.eqb_eq; exact HlS|]. apply wp_bind, wp_copy_at; [lia|]. apply wp_ret. unfold expanded.
  assert (Hnext : (S k <= div_ceil (length okm0) (OUTPUT_SIZE H))%nat) by (apply more_blocks; [lia|exact Hmore]).
  rewrite take_0. cbn [app]. split_and!; [done| |lia| |lia| |exact Hnext].
  - rewrite length_app, length_drop. lia.
  - by rewrite take_app_length'.
  - unfold u8. rewrite Zplus_mod_idemp_l. f_equal. lia.
Qed.

(** [expand]: the first bytes of the stream, or the buffer untouched. *)
Lemma expand_spec okm prk info : bytes prk -> bytes info ->
  expand H okm prk info = Some (
    if (length prk <? OUTPUT_SIZE H)%nat then (okm, Err (PrkIsTooShort (OUTPUT_SIZE H)))
    else if (255 * OUTPUT_SIZE H <? length okm)%nat then (okm, Err OutputIsTooLong)
    else (okm_of (take (OUTPUT_SIZE H) prk) info (length okm), Ok tt)).
Proof.
  intros Hp Hi. pose proof output_size (H := H) as Ho. apply wp_eq. unfold expand. apply wp_bind, wp_assert; [apply Nat.leb_le; lia|].
  cbv zeta. destruct (Nat.ltb_spec (length prk) (OUTPUT_SIZE H)) as [|Hlen]; [by apply wp_ret|].
  destruct (Nat.ltb_spec (255 * OUTPUT_SIZE H) (length okm)) as [|Hmax]; [by apply wp_ret|].
  destruct (Nat.eqb_spec (length okm) 0) as [Hz|Hnz].
  { apply wp_ret. destruct okm; [|done]. unfold okm_of, cut. by rewrite take_0. }
  apply wp_bind. set (key := take (OUTPUT_SIZE H) prk). set (n := length okm) in *.
  apply (wp_mono _ (fun s => expanded okm key info (div_ceil n (OUTPUT_SIZE H)) s)).
  2:{ intros [[[[okm' t] tl] off] c] (-> & _). apply wp_ret. unfold okm_of. f_equal. apply written_all. lia. }
  apply (wp_while (fun s => exists k, expanded okm key info k s) (fun s => n - s.1.2)%nat).
  - exists 0%nat. unfold expanded. rewrite written_0. split_and!; done || lia.
  - simpl. lia.
  - intros s [k Hk]. assert (Hs := Hk). destruct s as [[[[okm' t] tl] off] c].
    destruct Hs as (_ & _ & _ & _ & Hoff & _). fold n in Hoff. intros Hlt%Nat.ltb_lt.
    eapply wp_mono; [exact (expand_body_spec okm prk info k (okm', t, tl, off, c) Hp Hlen Hi Hk ltac:(fold n; lia))|].
    intros s' Hs'. split; [by eexists|]. destruct s' as [[[[okm1 t1] tl1] off1] c1]. destruct Hs' as (_ & _ & _ & _ & Hoff' & _).
    fold n in Hoff'. simpl. nia.
  - intros s [k Hk]. assert (Hs := Hk). destruct s as [[[[okm' t] tl] off] c].
    destruct Hs as (_ & _ & _ & _ & Hoff & _ & Hle). fold n in Hoff, Hle. intros Hge%Nat.ltb_ge.
    assert (E : ~ (k < div_ceil n (OUTPUT_SIZE H))%nat) by (rewrite more_blocks by lia; lia).
    by replace (div_ceil n (OUTPUT_SIZE H)) with k by lia.
Qed.

(** [derive_key] can only fail by the length asked for. *)
Lemma derive_key_spec N ikm info salt : bytes ikm -> bytes info -> match salt with Some s => bytes s | None => True end ->
  derive_key H N ikm info salt = Some (
    if (255 * OUTPUT_SIZE H <? N)%nat then Err OutputIsTooLong else Ok (okm_of (prk_of ikm salt) info N)).
Proof.
  intros Hk Hi Hs. apply wp_eq. unfold derive_key. apply wp_bind. eapply wp_mono; [exact (extract_spec ikm salt Hk Hs)|]. intros t Ht.
  rewrite Ht. cbn [mbind option_bind]. pose proof (salt_ok salt Hs) as Hsb.
  assert (Hp : bytes (prk_of ikm salt)) by by apply (hmac_bytes H). assert (Hl : length (prk_of ikm salt) = OUTPUT_SIZE H) by by apply (hmac_length H).
  rewrite expand_spec, Hl, Nat.ltb_irrefl, length_replicate by done. cbn [mbind option_bind].
  destruct (255 * OUTPUT_SIZE H <? N)%nat; [done|]. apply wp_ret. by rewrite take_ge by lia.
Qed.
End HkdfSpec.

(** ** PBKDF2 is RFC 2898 *)

Section Pbkdf2Spec.
Context (H : Type) `{!Hasher H, !HasherLaws H, !HmacFits H}.
Import Pbkdf2.

Definition xor_bytes : list Z -> list Z -> list Z := zip_with Z.lxor.

(** The chain of keyed hashes for block [i], and their sum. *)
Fixpoint U (password salt : list Z) (i j : nat) : list Z :=
  match j with
  | O => hmac H password (salt ++ to_be 4 (u32 (Z.of_nat i)))
  | S j' => hmac H password (U password salt i j')
  end.

Fixpoint F (password salt : list Z) (i more : nat) : list Z :=
  match more with
  | O => U password salt i 0
  | S j => xor_bytes (F password salt i j) (U password salt i (S j))
  end.

(** [iterations] is at least 1. *)
Definition pbkdf2 (password salt : list Z) (iterations N : nat) : list Z :=
  cut (fun i => F password salt i (iterations - 1)) (OUTPUT_SIZE H) N.

Lemma U_ok password salt i j : bytes password -> bytes salt ->
  bytes (U password salt i j) /\ length (U password salt i j) = OUTPUT_SIZE H.
Proof.
  intros Hp Hs. induction j as [|j [Hb _]]; cbn [U]; [|split; [by apply (hmac_bytes H)|by apply (hmac_length H)]].
  assert (Hm : bytes (salt ++ to_be 4 (u32 (Z.of_nat i)))) by (apply Forall_app; split; [done|apply bytes_reverse, bytes_to_le]).
  split; [by apply (hmac_bytes H)|by apply (hmac_length H)].
Qed.

Lemma F_length password salt i j : bytes password -> bytes salt -> length (F password salt i j) = OUTPUT_SIZE H.
Proof.
  intros Hp Hs. induction j as [|j IH]; cbn [F]; [by apply U_ok|]. unfold xor_bytes. rewrite length_zip_with, IH.
  rewrite (proj2 (U_ok password salt i (S j) Hp Hs)). lia.
Qed.

Lemma mac_then key parts : bytes key -> Forall bytes parts ->
  wp (mac ← Hmac.new H key; mac ← Hmac.updates H mac parts; finalize H mac) (fun t => as_ref t = Some (hmac H key (concat parts))).
Proof.
  intros Hk Hp. apply wp_bind. eapply wp_mono; [exact (new_keyed H key Hk)|]. intros s Hs.
  apply wp_bind. eapply wp_mono; [exact (updates_keyed H _ _ _ _ Hp Hs)|]. intros s' Hs'.
  apply (finalize_keyed H); [done|by apply Forall_concat|exact Hs'].
Qed.

(** [for i in 0..n { t[i] ^= u[i] }]. *)
Lemma xor_loop n (t u : list Z) : (n <= length t)%nat -> (n <= length u)%nat ->
  wp (for_loop 0 n (fun i t => x ← t !! i; y ← u !! i; upd t i (Z.lxor x y)) t)
    (fun r => r = xor_bytes (take n t) (take n u) ++ drop n t).
Proof.
  intros Ht Hu. apply (wp_for (fun i r => r = xor_bytes (take i t) (take i u) ++ drop i t)); [lia|by rewrite !take_0| |done].
  intros i r Hi ->. destruct (lookup_lt_is_Some_2 t i) as [x Hx]; [lia|]. destruct (lookup_lt_is_Some_2 u i) as [y Hy]; [lia|].
  assert (Hl : length (xor_bytes (take i t) (take i u)) = i) by (unfold xor_bytes; rewrite length_zip_with, !length_take; lia).
  rewrite (drop_S t x i Hx), lookup_app_r, Hl, Nat.sub_diag, Hy by lia. cbn [lookup list_lookup mbind option_bind].
  apply wp_upd; [rewrite length_app, Hl; simpl; rewrite length_drop; lia|].
  rewrite insert_app_r_alt, Hl, Nat.sub_diag by lia. rewrite (take_S_r t i x Hx), (take_S_r u i y Hy). unfold xor_bytes.
  rewrite zip_with_app by (rewrite !length_take; lia). by rewrite <- app_assoc.
Qed.

(** The prefixes of the buffers [t] and [u] after [j] further iterations. *)
Definition chained (password salt : list Z) (i j : nat) (s : list Z * list Z) : Prop :=
  let '(t, u) := s in
  length t = MAX_HASH_BLOCK_SIZE /\ length u = MAX_HASH_BLOCK_SIZE /\
  take (OUTPUT_SIZE H) t = F password salt i j /\ take (OUTPUT_SIZE H) u = U password salt i j.

Lemma out_fits : (0 < OUTPUT_SIZE H <= MAX_HASH_BLOCK_SIZE)%nat.
Proof. pose proof output_size (H := H). pose proof block_size (H := H). pose proof output_fits (H := H). lia. Qed.

(** Writing a digest over the front of a buffer. *)
Lemma write_front (b t : list Z) : length b = MAX_HASH_BLOCK_SIZE -> length t = OUTPUT_SIZE H ->
  wp (copy_at b 0 t) (fun r => length r = MAX_HASH_BLOCK_SIZE /\ take (OUTPUT_SIZE H) r = t).
Proof.
  intros Hb Ht. pose proof out_fits. apply wp_copy_at; [lia|]. rewrite take_0. cbn [app].
  split; [rewrite length_app, length_drop; lia|by rewrite take_app_length'].
Qed.

Lemma iterate_spec password salt i j t u : bytes password -> bytes salt -> chained password salt i j (t, u) ->
  wp (iterate H password t u) (chained password salt i (S j)).
Proof.
  intros Hp Hs (Ht & Hu & HF & HU). pose proof out_fits. destruct (U_ok password salt i j Hp Hs) as [HUb HUl].
  destruct (U_ok password salt i (S j) Hp Hs) as [_ Hnext].
  pose proof (mac_then password [U password salt i j] Hp ltac:(by repeat constructor)) as Hmac.
  cbn [concat Hmac.updates] in Hmac. rewrite app_nil_r in Hmac. change (hmac H password (U password salt i j)) with (U password salt i (S j)) in Hmac.
  unfold iterate. cbv zeta. destruct (Hmac.new H password) as [m0|]; [|done]. cbn [mbind option_bind] in *.
  apply wp_bind, wp_slice; [lia|lia|]. rewrite drop_0, Nat.sub_0_r, HU.
  destruct (Hmac.update H m0 _) as [m1|]; [|done]. cbn [mbind option_bind] in *. apply wp_bind. eapply wp_mono; [exact Hmac|]. intros tag Htag.
  rewrite Htag. cbn [mbind option_bind]. apply wp_bind, wp_assert; [apply Nat.eqb_eq; exact Hnext|].
  apply wp_bind. eapply wp_mono; [exact (write_front u _ Hu Hnext)|]. intros u' [Hu' HU'].
  apply wp_bind. eapply wp_mono; [apply xor_loop; lia|]. intros t' ->. apply wp_ret. rewrite HF, HU'.
  assert (Hl : length (xor_bytes (F password salt i j) (U password salt i (S j))) = OUTPUT_SIZE H) by exact (F_length password salt i (S j) Hp Hs).
  unfold chained. split_and!; [rewrite length_app, length_drop; lia|done|by rewrite take_app_length'|done].
Qed.

Lemma derive_spec N password salt iterations : bytes password -> bytes salt ->
  0 < iterations < 2 ^ 32 -> Z.of_nat N <= 4294967295 * Z.of_nat (OUTPUT_SIZE H) ->
  derive H N password salt iterations = Some (pbkdf2 password salt (Z.to_nat iterations) N).
Proof.
  intros Hp Hs Hit HN. pose proof out_fits as Ho. apply wp_eq. unfold derive. apply wp_bind, wp_assert; [by destruct (Z.eqb_spec iterations 0); [lia|]|].
  cbv zeta. apply wp_bind, wp_assert; [lia|]. set (T := fun i => F password salt i (Z.to_nat iterations - 1)).
  assert (HT : forall i, (0 < i)%nat -> length (T i) = OUTPUT_SIZE H) by (intros i _; by apply F_length).
  set (okm0 := replicate N 0). assert (Hokm : length okm0 = N) by apply length_replicate.
  apply wp_bind, (wp_for (fun i s => let '(okm, t, u) := s in okm = written T (OUTPUT_SIZE H) okm0 (i - 1) /\
    length t = MAX_HASH_BLOCK_SIZE /\ length u = MAX_HASH_BLOCK_SIZE)); [lia| | |].
  - rewrite written_0. done.
  - intros i [[okm t] u] Hi (-> & Ht & Hu). destruct (U_ok password salt i 0 Hp Hs) as [HUb HUl].
    assert (Hmore : ((i - 1) * OUTPUT_SIZE H < N)%nat) by (apply more_blocks; lia).
    pose proof (mac_then password [salt; to_be 4 (u32 (Z.of_nat i))] Hp) as Hmac.
    cbn [concat Hmac.updates] in Hmac. rewrite app_nil_r in Hmac. change (hmac H password _) with (U password salt i 0) in Hmac.
    assert (Hmac' := Hmac ltac:(apply Forall_cons; [done|apply Forall_cons; [apply bytes_reverse, bytes_to_le|constructor]])). clear Hmac.
    destruct (Hmac.new H password) as [m0|]; [|done]. cbn [mbind option_bind] in *.
    destruct (Hmac.update H m0 _) as [m1|]; [|done]. cbn [mbind option_bind] in *.
    destruct (Hmac.update H m1 _) as [m2|]; [|done]. cbn [mbind option_bind] in *.
    apply wp_bind. eapply wp_mono; [exact Hmac'|]. intros tag Htag. rewrite Htag. cbn [mbind option_bind].
    apply wp_bind, wp_assert; [apply Nat.eqb_eq; exact HUl|].
    apply wp_bind. eapply wp_mono; [exact (write_front t _ Ht HUl)|]. intros t0 [Ht0 HT0].
    apply wp_bind. eapply wp_mono; [exact (write_front u _ Hu HUl)|]. intros u0 [Hu0 HU0].
    apply wp_bind, (wp_mono _ (chained password salt i (Z.to_nat iterations - 1))).
    { apply (wp_for (fun k s => chained password salt i (k - 2) s)); [lia|done| |].
      - intros k [t1 u1] Hk Hch. replace (S k - 2)%nat with (S (k - 2)) by lia. by apply iterate_spec.
      - intros s. by replace (S (Z.to_nat iterations) - 2)%nat with (Z.to_nat iterations - 1)%nat by lia. }
    intros [t1 u1] (Ht1 & Hu1 & HT1 & _). change (F _ _ _ _) with (T i) in HT1.
    set (c := (Nat.min ((i - 1) * OUTPUT_SIZE H + OUTPUT_SIZE H) N - (i - 1) * OUTPUT_SIZE H)%nat).
    assert (Ec : c = Nat.min (N - (i - 1) * OUTPUT_SIZE H) (OUTPUT_SIZE H)) by lia.
    apply wp_bind, wp_slice; [lia|lia|]. rewrite drop_0, Nat.sub_0_r, Ec.
    replace (take _ t1) with (take (Nat.min (N - (i - 1) * OUTPUT_SIZE H) (OUTPUT_SIZE H)) (T i)) by (rewrite <- HT1, take_take; f_equal; lia).
    pose proof (written_S T (OUTPUT_SIZE H) ltac:(lia) HT okm0 (i - 1)) as Hw. cbv zeta in Hw. rewrite Hokm in Hw.
    replace (S (i - 1)) with i in Hw by lia. apply wp_bind. eapply wp_mono; [exact (Hw Hmore)|]. intros okm' ->. apply wp_ret.
    replace (S i - 1)%nat with i by lia. done.
  - intros [[okm t] u] (-> & _). apply wp_ret. unfold pbkdf2. fold T. rewrite <- Hokm at 2. rewrite Nat.sub_succ, Nat.sub_0_r, <- Hokm at 1.
    apply written_all. lia.
Qed.
End Pbkdf2Spec.

(** A key longer than a digest is cut to the length of one: [expand] gives the
    stream of RFC 5869 for that prefix, not for the key. *)
Theorem expand_long_prk (H : Type) `{!Hasher H, !HasherLaws H, !HmacFits H} (okm prk info : list Z) :
  bytes prk -> bytes info -> (OUTPUT_SIZE H < length prk)%nat ->
  Hkdf.expand H okm prk info = Hkdf.expand H okm (take (OUTPUT_SIZE H) prk) info.
Proof.
  intros Hp Hi Hl. rewrite (expand_spec H okm prk), (expand_spec H okm (take _ prk)) by first [done|by apply Forall_take].
  rewrite length_take, take_take, Nat.min_id, Nat.min_l by lia. by rewrite (proj2 (Nat.ltb_ge _ _)), Nat.ltb_irrefl by lia.
Qed.

(** C12: Key derivation, over any hasher that keeps the contract of [Hasher] and
    whose sizes [Hmac] fits ([HmacFits]: blocks of at most 136 bytes, digests no
    longer than a block).  HKDF: [extract] is the keyed hash of the input under
    the salt, zeros where there is none; [expand], for a key as long as a digest
    or shorter, refuses a shorter one and an output longer than 255 digests, in
    this order and leaving the buffer alone, and otherwise fills it with the
    stream of RFC 5869; [derive_key] composes them and fails only by the length.
    PBKDF2, for a count of iterations of 32 bits and an output of at most
    2^32 - 1 digests, which the compiler checks: no iterations panic, any other
    number gives the key of RFC 2898. *)
Theorem key_derivation_correct (H : Type) `{!Hasher H, !HasherLaws H, !HmacFits H} (ikm info : list Z) (salt : option (list Z))
    (okm prk password pepper : list Z) (N : nat) (iterations : Z) :
  bytes ikm -> bytes info -> match salt with Some s => bytes s | None => True end -> bytes prk -> bytes password -> bytes pepper ->
  (length prk <= OUTPUT_SIZE H)%nat -> 0 <= iterations < 2 ^ 32 -> Z.of_nat N <= 4294967295 * Z.of_nat (OUTPUT_SIZE H) ->
  (t ← Hkdf.extract H ikm salt; as_ref t) = Some (prk_of H ikm salt) /\
  Hkdf.expand H okm prk info = Some (
    if (length prk <? OUTPUT_SIZE H)%nat then (okm, Err (Hkdf.PrkIsTooShort (OUTPUT_SIZE H)))
    else if (255 * OUTPUT_SIZE H <? length okm)%nat then (okm, Err Hkdf.OutputIsTooLong)
    else (okm_of H prk info (length okm), Ok tt)) /\
  Hkdf.derive_key H N ikm info salt = Some (
    if (255 * OUTPUT_SIZE H <? N)%nat then Err Hkdf.OutputIsTooLong else Ok (okm_of H (prk_of H ikm salt) info N)) /\
  Pbkdf2.derive H N password pepper iterations =
    if iterations =? 0 then None else Some (pbkdf2 H password pepper (Z.to_nat iterations) N).
Proof.
  intros Hi Hinfo Hsalt Hprk Hpw Hpep Hlen Hit HN. split_and!; [|by rewrite (expand_spec H okm prk), take_ge by done|by apply derive_key_spec|].
  - apply wp_eq, wp_bind. eapply wp_mono; [exact (extract_spec H ikm salt Hi Hsalt)|]. intros t Ht. rewrite Ht. reflexivity.
  - destruct (Z.eqb_spec iterations 0) as [->|]; [done|]. apply derive_spec; done || lia.
Qed.
