(* ===== verification/KdfVectors.v ===== *)
(** * crypto: test vectors of HMAC, HKDF and PBKDF2

    The theorems of Hmac and Kdf at SHA-256, on the vectors of RFC 4231,
    RFC 5869 and a key of PBKDF2. *)
From Stdlib Require Import ZArith Lia.
From stdpp Require Import base list numbers option.
From S2P Require Import Prelude Words ConstEq Hasher Sha2 Sha256 Sha512 Sha2Theorems Hmac Kdf.
Import Hasher Sha2 Sha2Theorems.

(** The bytes of a literal are checked by evaluation. *)
Ltac byte_list := apply (bool_decide_unpack _); vm_compute; exact I.

(** RFC 4231, test case 2, the message in two pieces. *)
Example hmac_correct_witness :
  Hmac.mac_pieces (State V256) [74; 101; 102; 101]
    [[119; 104; 97; 116; 32; 100; 111; 32; 121; 97; 32; 119; 97; 110; 116; 32]; [102; 111; 114; 32; 110; 111; 116; 104; 105; 110; 103; 63]] =
  Some (to_be 32 0x5bdcc146bf60754e6a042426089575c75a003f089d2739839dec58b964ec3843).
Proof.
  rewrite (proj1 (Hmac.hmac_correct (State V256) [74; 101; 102; 101]
    [[119; 104; 97; 116; 32; 100; 111; 32; 121; 97; 32; 119; 97; 110; 116; 32]; [102; 111; 114; 32; 110; 111; 116; 104; 105; 110; 103; 63]]
    ltac:(byte_list) ltac:(byte_list))).
  vm_compute. reflexivity.
Defined.

(** RFC 5869, test case 1, and two iterations of PBKDF2. *)
Example key_derivation_correct_witness :
  Hkdf.derive_key (State V256) 42 (replicate 22 0x0b) (to_be 10 0xf0f1f2f3f4f5f6f7f8f9) (Some (to_be 13 0x000102030405060708090a0b0c)) =
    Some (Ok (to_be 42 0x3cb25f25faacd57a90434f64d0362f2a2d2d0a90cf1a5a4c5db02d56ecc4c5bf34007208d5b887185865)) /\
  Pbkdf2.derive (State V256) 42 [112; 97; 115; 115; 119; 111; 114; 100] [115; 97; 108; 116] 2 =
    Some (to_be 42 0xae4d0c95af6b46d32d0adff928f06dd02a303f8ef3c251dfd6e2d85a95474c43830651afcb5c862f0b24).
Proof.
  pose proof (key_derivation_correct (State V256) (replicate 22 0x0b) (to_be 10 0xf0f1f2f3f4f5f6f7f8f9)
    (Some (to_be 13 0x000102030405060708090a0b0c)) [] [] [112; 97; 115; 115; 119; 111; 114; 100] [115; 97; 108; 116] 42 2
    ltac:(byte_list) ltac:(byte_list) ltac:(byte_list) ltac:(byte_list) ltac:(byte_list) ltac:(byte_list) ltac:(vm_compute; lia) ltac:(lia) ltac:(vm_compute; discriminate)) as H.
  rewrite (proj1 (proj2 (proj2 H))), (proj2 (proj2 (proj2 H))). split; vm_compute; reflexivity.
Defined.
