(* ===== verification/Keccak.v ===== *)
(** * crypto: the permutation Keccak-p

    src/crypto/src/sha3/keccak.rs, [p1600]: the lanes of the code against the
    state array of bits of FIPS 202.  The standard gives the offsets of rho by
    a walk and the round constants by a shift register; here they are computed
    from those definitions, and the tables of the code are theirs. *)
From Stdlib Require Import ZArith Lia.
From stdpp Require Import base list numbers option.
From S2P Require Import Prelude Words.

Module Keccak.

(** ** The code *)

Definition RHO : list Z :=
  [1; 3; 6; 10; 15; 21; 28; 36; 45; 55; 2; 14; 27; 41; 56; 8; 25; 43; 62; 18; 39; 61; 20; 44].

Definition PI : list nat :=
  [10; 7; 11; 17; 18; 3; 5; 16; 8; 21; 24; 4; 15; 23; 19; 13; 12; 2; 20; 14; 22; 9; 6; 1]%nat.

Definition ROUND_CONSTANTS : list Z := [
  0x0000000000000001; 0x0000000000008082; 0x800000000000808a; 0x8000000080008000; 0x000000000000808b; 0x0000000080000001;
  0x8000000080008081; 0x8000000000008009; 0x000000000000008a; 0x0000000000000088; 0x0000000080008009; 0x000000008000000a;
  0x000000008000808b; 0x800000000000008b; 0x8000000000008089; 0x8000000000008003; 0x8000000000008002; 0x8000000000000080;
  0x000000000000800a; 0x800000008000000a; 0x8000000080008081; 0x8000000000008080; 0x0000000080000001; 0x8000000080008008].

(** [u64::rotate_left]. *)
Definition rotate_left (x n : Z) : Z := Z.lor (u64 (Z.shiftl x n)) (Z.shiftr x (64 - n)).

(** The steps of a round of [p1600_soft]. *)
Definition theta (state : list Z) : option (list Z) :=
  array ← for_loop 0 5 (fun x array => for_loop 0 5 (fun y array =>
    a ← array !! x; s ← state !! (5 * y + x)%nat; upd array x (Z.lxor a s)) array) (replicate 5 0);
  for_loop 0 5 (fun x state =>
    t1 ← array !! ((x + 4) mod 5)%nat; a ← array !! ((x + 1) mod 5)%nat;
    let t2 := rotate_left a 1 in
    for_loop 0 5 (fun y state => s ← state !! (5 * y + x)%nat; upd state (5 * y + x) (Z.lxor s (Z.lxor t1 t2))) state) state.

Definition rho_pi (state : list Z) : option (list Z) :=
  last ← state !! 1%nat;
  '(state, _) ← for_loop 0 24 (fun x '(state, last) =>
    p ← PI !! x; r ← RHO !! x;
    array0 ← state !! p; state ← upd state p (rotate_left last r); Some (state, array0)) (state, last);
  Some state.

Definition chi (state : list Z) : option (list Z) :=
  for_loop 0 5 (fun y_step state =>
    let y := (5 * y_step)%nat in
    array ← slice state y (y + 5);
    for_loop 0 5 (fun x state =>
      a1 ← array !! ((x + 1) mod 5)%nat; t2 ← array !! ((x + 2) mod 5)%nat; a ← array !! x;
      let t1 := notw 64 a1 in
      upd state (y + x) (Z.lxor a (Z.land t1 t2))) state) state.

Definition iota (rc : Z) (state : list Z) : option (list Z) :=
  s ← state !! 0%nat; upd state 0 (Z.lxor s rc).

Definition round (rc : Z) (state : list Z) : option (list Z) :=
  state ← theta state; state ← rho_pi state; state ← chi state; iota rc state.

Fixpoint rounds (round_consts : list Z) (state : list Z) : option (list Z) :=
  match round_consts with [] => Some state | rc :: rest => state ← round rc state; rounds rest state end.

Definition p1600_soft (ROUNDS : nat) (state : list Z) : option (list Z) :=
  _ ← rassert (ROUNDS <=? 24)%nat;
  round_consts ← slice ROUND_CONSTANTS (24 - ROUNDS) 24;
  rounds round_consts state.

(** ** FIPS 202

    A state array, [A x y z]; [z] counts from the least significant bit of a
    lane, and the lane of [x], [y] has index [5 * y + x]. *)
Definition Array := nat -> nat -> Z -> bool.

Definition up (i d : nat) : nat := ((i + d) mod 5)%nat.
Definition column (A : Array) (x : nat) (z : Z) : bool :=
  xorb (A x 0%nat z) (xorb (A x 1%nat z) (xorb (A x 2%nat z) (xorb (A x 3%nat z) (A x 4%nat z)))).

Definition Theta (A : Array) : Array := fun x y z =>
  xorb (A x y z) (xorb (column A (up x 4) z) (column A (up x 1) ((z - 1) mod 64))).

(** The walk of rho visits every lane but the first. *)
Fixpoint walk (t : nat) : nat * nat :=
  match t with O => (1, 0)%nat | S t' => let '(x, y) := walk t' in (y, (2 * x + 3 * y) mod 5)%nat end.
Definition rho_offset (x y : nat) : Z :=
  match position (fun t => bool_decide (walk t = (x, y))) (seq 0 24) with
  | Some t => Z.of_nat ((t + 1) * (t + 2) / 2)
  | None => 0
  end.
Definition Rho (A : Array) : Array := fun x y z => A x y ((z - rho_offset x y) mod 64).

Definition Pi (A : Array) : Array := fun x y z => A ((x + 3 * y) mod 5)%nat x z.

Definition Chi (A : Array) : Array := fun x y z => xorb (A x y z) (negb (A (up x 1) y z) && A (up x 2) y z).

(** The shift register that gives the bits of the round constants. *)
Fixpoint register (n : nat) : list bool :=
  match n with
  | O => [true; false; false; false; false; false; false; false]
  | S n' =>
      match register n' with
      | [r0; r1; r2; r3; r4; r5; r6; r7] => [r7; r0; r1; r2; xorb r3 r7; xorb r4 r7; xorb r5 r7; r6]
      | _ => []
      end
  end.
Definition rc (t : nat) : bool := nth 0 (register (t mod 255)) false.
Definition round_bit (ir : nat) (z : Z) : bool :=
  match position (fun j => 2 ^ Z.of_nat j - 1 =? z) (seq 0 7) with Some j => rc (j + 7 * ir) | None => false end.
Definition Iota (ir : nat) (A : Array) : Array := fun x y z =>
  if (x =? 0)%nat && (y =? 0)%nat then xorb (A x y z) (round_bit ir z) else A x y z.

Definition Rnd (ir : nat) (A : Array) : Array := Iota ir (Chi (Pi (Rho (Theta A)))).

(** Lanes and their bits. *)
Definition lane (st : list Z) (x y : nat) : Z := nth (5 * y + x) st 0.
Definition array_of (st : list Z) : Array := fun x y z => Z.testbit (lane st x y) z.

Fixpoint of_bits (n : nat) (f : Z -> bool) : Z :=
  match n with O => 0 | S n' => b2z (f 0) + 2 * of_bits n' (fun z => f (z + 1)) end.

Definition lanes_of (A : Array) : list Z := (fun i => of_bits 64 (A (i mod 5)%nat (i / 5)%nat)) <$> seq 0 25.

(** KECCAK-p[1600, nr] on the lanes. *)
Definition keccak_p (nr : nat) (st : list Z) : list Z :=
  foldl (fun st ir => lanes_of (Rnd ir (array_of st))) st (seq (24 - nr) nr).

(** ** Bits of a lane *)

Lemma of_bits_bound n f : 0 <= of_bits n f < 2 ^ Z.of_nat n.
Proof.
  revert f. induction n as [|n IH]; intros f; [simpl; lia|]. cbn [of_bits]. rewrite Nat2Z.inj_succ, Z.pow_succ_r by lia.
  specialize (IH (fun z => f (z + 1))). destruct (f 0); simpl b2z; lia.
Qed.

Lemma of_bits_spec n f z : 0 <= z < Z.of_nat n -> Z.testbit (of_bits n f) z = f z.
Proof.
  revert f z. induction n as [|n IH]; intros f z Hz; [lia|]. cbn [of_bits]. rewrite Z.add_comm.
  destruct (Z.eq_dec z 0) as [->|Hne].
  - destruct (f 0); simpl b2z; [apply Z.testbit_odd_0|rewrite Z.add_0_r; apply Z.testbit_even_0].
  - assert (E : f z = Z.testbit (of_bits n (fun z => f (z + 1))) (z - 1)) by (rewrite IH by lia; f_equal; lia).
    rewrite E. replace z with (Z.succ (z - 1)) at 1 by lia.
    destruct (f 0); simpl b2z; [apply Z.testbit_odd_succ|rewrite Z.add_0_r; apply Z.testbit_even_succ]; lia.
Qed.

Lemma word_high x z : word x -> 64 <= z -> Z.testbit x z = false.
Proof.
  intros Hx Hz. destruct (Z.eq_dec x 0) as [->|]; [apply Z.bits_0|]. unfold word in Hx. apply Z.bits_above_log2; [lia|].
  assert (Z.log2 x < 64) by (apply Z.log2_lt_pow2; lia). lia.
Qed.

Lemma word_ext a b : word a -> word b -> (forall z, 0 <= z < 64 -> Z.testbit a z = Z.testbit b z) -> a = b.
Proof.
  intros Ha Hb H. apply Z.bits_inj'. intros z Hz. destruct (Z.lt_ge_cases z 64); [apply H; lia|]. by rewrite !word_high.
Qed.

Lemma rotate_left_word x n : word x -> 0 <= n <= 64 -> word (rotate_left x n).
Proof.
  intros Hx Hn. apply (lor_nonneg_bound _ _ 64); [lia|apply u64_word|]. unfold word in Hx. rewrite Z.shiftr_div_pow2 by lia.
  pose proof (Z.pow_pos_nonneg 2 (64 - n) ltac:(lia) ltac:(lia)). split; [apply Z.div_pos; lia|].
  apply (Z.le_lt_trans _ x); [|lia]. apply Z.div_le_upper_bound; nia.
Qed.

Lemma rotate_left_bit x n z : word x -> 0 <= n < 64 -> 0 <= z < 64 -> Z.testbit (rotate_left x n) z = Z.testbit x ((z - n) mod 64).
Proof.
  intros Hx Hn Hz. unfold rotate_left, u64. rewrite Z.lor_spec, Z.mod_pow2_bits_low, Z.shiftr_spec by lia. destruct (Z.lt_ge_cases z n).
  - rewrite Z.shiftl_spec_low by lia. simpl. f_equal. apply (Z.mod_unique _ _ (-1)); lia.
  - rewrite Z.shiftl_spec by lia. rewrite (word_high x (z + _)), orb_false_r by (done || lia). by rewrite Z.mod_small by lia.
Qed.

Lemma rotate_left_0 x : word x -> rotate_left x 0 = x.
Proof.
  intros Hx. apply word_ext; [by apply rotate_left_word; [|lia]|done|]. intros z Hz. rewrite rotate_left_bit by (done || lia).
  by rewrite Z.sub_0_r, Z.mod_small by lia.
Qed.

Lemma notw_word x : word x -> word (notw 64 x).
Proof. unfold word, notw. lia. Qed.

Lemma notw_bit x z : word x -> 0 <= z < 64 -> Z.testbit (notw 64 x) z = negb (Z.testbit x z).
Proof.
  intros Hx Hz. unfold notw. replace (2 ^ 64 - 1 - x) with (Z.lnot x mod 2 ^ 64).
  - by rewrite Z.mod_pow2_bits_low, Z.lnot_spec by lia.
  - unfold Z.lnot. unfold word in Hx. symmetry. apply (Z.mod_unique _ _ (-1)); lia.
Qed.

Lemma land_word a b : word a -> word b -> word (Z.land a b).
Proof.
  intros Ha Hb. unfold word in *. split; [apply Z.land_nonneg; lia|].
  destruct (Z.eq_dec a 0) as [->|]; [rewrite Z.land_0_l; lia|]. destruct (Z.eq_dec (Z.land a b) 0) as [->|Hne]; [lia|].
  assert (0 <= Z.land a b) by (apply Z.land_nonneg; lia). apply Z.log2_lt_pow2; [lia|].
  apply (Z.le_lt_trans _ (Z.min (Z.log2 a) (Z.log2 b))); [apply Z.log2_land; lia|]. apply Z.min_lt_iff. left. apply Z.log2_lt_pow2; lia.
Qed.

Lemma lxor_word a b : word a -> word b -> word (Z.lxor a b).
Proof. apply (lxor_nonneg_bound a b 64). lia. Qed.

(** ** The steps on lanes

    On 25 lanes each step of the code evaluates to a list of expressions. *)
Definition state_ok (st : list Z) : Prop := length st = 25%nat /\ words st.

Ltac lanes st H :=
  do 25 (destruct st as [|?s st]; [discriminate H|]); destruct st; [clear H|discriminate H].

Definition parity (st : list Z) (x : nat) : Z :=
  Z.lxor (Z.lxor (Z.lxor (Z.lxor (Z.lxor 0 (lane st x 0)) (lane st x 1)) (lane st x 2)) (lane st x 3)) (lane st x 4).
Definition theta_lane (st : list Z) (x y : nat) : Z :=
  Z.lxor (lane st x y) (Z.lxor (parity st (up x 4)) (rotate_left (parity st (up x 1)) 1)).
Definition rho_pi_lane (st : list Z) (x y : nat) : Z :=
  if (x =? 0)%nat && (y =? 0)%nat then lane st 0 0 else rotate_left (lane st ((x + 3 * y) mod 5) x) (rho_offset ((x + 3 * y) mod 5) x mod 64).
Definition chi_lane (st : list Z) (x y : nat) : Z :=
  Z.lxor (lane st x y) (Z.land (notw 64 (lane st (up x 1) y)) (lane st (up x 2) y)).

Definition by_lane (f : nat -> nat -> Z) : list Z := (fun i => f (i mod 5)%nat (i / 5)%nat) <$> seq 0 25.

Lemma theta_lanes st : length st = 25%nat -> theta st = Some (by_lane (theta_lane st)).
Proof. intros H. lanes st H. lazy -[Z.lxor rotate_left]. reflexivity. Qed.

Lemma rho_pi_lanes st : length st = 25%nat -> rho_pi st = Some (by_lane (rho_pi_lane st)).
Proof. intros H. lanes st H. lazy -[rotate_left]. reflexivity. Qed.

Lemma chi_lanes st : length st = 25%nat -> chi st = Some (by_lane (chi_lane st)).
Proof. intros H. lanes st H. lazy -[Z.lxor Z.land notw]. reflexivity. Qed.

(** ** The steps on bits

    [reads f A]: the lanes [f] are words that hold the array [A]. *)
Definition reads (f : nat -> nat -> Z) (A : Array) : Prop := forall x y, (x < 5)%nat -> (y < 5)%nat ->
  word (f x y) /\ forall z, 0 <= z < 64 -> Z.testbit (f x y) z = A x y z.

Lemma length_by_lane f : length (by_lane f) = 25%nat.
Proof. done. Qed.

Lemma lane_by_lane f x y : (x < 5)%nat -> (y < 5)%nat -> lane (by_lane f) x y = f x y.
Proof.
  intros Hx Hy. unfold lane, by_lane. rewrite nth_lookup, list_lookup_fmap, lookup_seq_lt by lia. cbn [fmap option_fmap option_map default from_option id].
  replace (0 + (5 * y + x))%nat with (x + y * 5)%nat by lia. by rewrite Nat.Div0.mod_add, Nat.div_add, Nat.mod_small, Nat.div_small by lia.
Qed.

Lemma reads_by_lane f A : reads f A -> reads (lane (by_lane f)) A.
Proof. intros H x y Hx Hy. rewrite lane_by_lane by done. by apply H. Qed.

Lemma state_ok_reads st : state_ok st -> reads (lane st) (array_of st).
Proof.
  intros [Hl Hw] x y Hx Hy. split; [|done]. unfold lane. destruct (lookup_lt_is_Some_2 st (5 * y + x)) as [w Hlw]; [lia|].
  rewrite (nth_lookup_Some _ _ _ w Hlw). by apply (words_lookup st (5 * y + x)).
Qed.

(** The lanes are determined by the array. *)
Lemma reads_lanes f A : reads f A -> by_lane f = lanes_of A.
Proof.
  intros H. unfold by_lane, lanes_of. apply list_fmap_ext. intros k i Hi. apply lookup_seq in Hi as [-> Hk].
  assert (H5 : (k / 5 < 5)%nat) by (apply Nat.Div0.div_lt_upper_bound; lia).
  destruct (H (k mod 5)%nat (k / 5)%nat (Nat.mod_upper_bound k 5 ltac:(lia)) H5) as [Hw Hb].
  apply word_ext; [done|exact (of_bits_bound 64 _)|]. intros z Hz. cbn [Nat.add]. rewrite of_bits_spec by lia. by apply Hb.
Qed.

Lemma up_lt x d : (up x d < 5)%nat.
Proof. apply Nat.mod_upper_bound. lia. Qed.

Lemma mod64 z : 0 <= z mod 64 < 64.
Proof. apply Z.mod_pos_bound. lia. Qed.

Lemma parity_word st A x : reads (lane st) A -> (x < 5)%nat -> word (parity st x).
Proof. intros H Hx. unfold parity. repeat apply lxor_word; [unfold word; lia|apply H; lia..]. Qed.

Lemma parity_bit st A x z : reads (lane st) A -> (x < 5)%nat -> 0 <= z < 64 -> Z.testbit (parity st x) z = column A x z.
Proof.
  intros H Hx Hz. unfold parity, column. rewrite !Z.lxor_spec, Z.bits_0, xorb_false_l.
  rewrite !(fun y Hy => proj2 (H x y Hx Hy) z Hz) by lia. by rewrite !xorb_assoc.
Qed.

Lemma theta_reads st A : reads (lane st) A -> reads (theta_lane st) (Theta A).
Proof.
  intros H x y Hx Hy. destruct (H x y Hx Hy) as [Hw Hb]. pose proof (up_lt x 4). pose proof (up_lt x 1).
  assert (Hp : word (parity st (up x 1))) by by eapply parity_word. split.
  - apply lxor_word, lxor_word; [done|by eapply parity_word|apply rotate_left_word; [done|lia]].
  - intros z Hz. unfold theta_lane. rewrite !Z.lxor_spec, rotate_left_bit, Hb by (done || lia).
    by rewrite !(parity_bit st A) by (done || apply mod64).
Qed.

Lemma rho_pi_reads st A : reads (lane st) A -> reads (rho_pi_lane st) (Pi (Rho A)).
Proof.
  intros H x y Hx Hy. unfold rho_pi_lane, Pi, Rho. destruct ((x =? 0)%nat && (y =? 0)%nat) eqn:E.
  - apply andb_prop in E as [->%Nat.eqb_eq ->%Nat.eqb_eq]. destruct (H 0%nat 0%nat ltac:(lia) ltac:(lia)) as [Hw Hb].
    split; [done|]. intros z Hz. rewrite Hb by done. change (rho_offset _ _) with 0. by rewrite Z.sub_0_r, Z.mod_small by lia.
  - set (x' := ((x + 3 * y) mod 5)%nat). destruct (H x' x (Nat.mod_upper_bound _ 5 ltac:(lia)) Hx) as [Hw Hb].
    pose proof (mod64 (rho_offset x' x)). split; [apply rotate_left_word; [done|lia]|]. intros z Hz.
    rewrite rotate_left_bit, Hb by (done || apply mod64). f_equal. by rewrite Zminus_mod_idemp_r.
Qed.

Lemma chi_reads st A : reads (lane st) A -> reads (chi_lane st) (Chi A).
Proof.
  intros H x y Hx Hy. destruct (H x y Hx Hy) as [Hw Hb]. destruct (H (up x 1) y (up_lt x 1) Hy) as [Hw1 Hb1].
  destruct (H (up x 2) y (up_lt x 2) Hy) as [Hw2 Hb2]. split.
  - apply lxor_word; [done|]. apply land_word; [by apply notw_word|done].
  - intros z Hz. unfold chi_lane, Chi. by rewrite Z.lxor_spec, Z.land_spec, notw_bit, Hb, Hb1, Hb2.
Qed.

(** The table of constants is what the shift register gives. *)
Lemma constants_correct ir c : ROUND_CONSTANTS !! ir = Some c -> word c /\ forall z, 0 <= z < 64 -> Z.testbit c z = round_bit ir z.
Proof.
  intros Hc. assert (Hall : forallb (fun ir => forallb (fun z => eqb (Z.testbit (nth ir ROUND_CONSTANTS 0) z) (round_bit ir z)) (seqZ 0 64)) (seq 0 24) = true)
    by (vm_compute; reflexivity).
  assert (Hir : (ir < 24)%nat) by (apply lookup_lt_Some in Hc; exact Hc). split.
  - assert (Hw : words ROUND_CONSTANTS) by (apply (bool_decide_unpack _); vm_compute; exact I). by apply (words_lookup ROUND_CONSTANTS ir).
  - intros z Hz. rewrite forallb_forall in Hall. specialize (Hall ir ltac:(apply in_seq; lia)). rewrite forallb_forall in Hall.
    specialize (Hall z ltac:(apply list_elem_of_In, elem_of_seqZ; lia)). apply eqb_prop in Hall. rewrite <- Hall. f_equal.
    symmetry. by apply nth_lookup_Some.
Qed.

Lemma iota_reads ir c st A : ROUND_CONSTANTS !! ir = Some c -> length st = 25%nat -> reads (lane st) A ->
  wp (iota c st) (fun st' => length st' = 25%nat /\ reads (lane st') (Iota ir A)).
Proof.
  intros Hc Hl H. destruct (constants_correct ir c Hc) as [Hcw Hcb]. unfold iota. destruct st as [|s0 st]; [done|].
  cbn [lookup list_lookup mbind option_bind]. apply wp_upd; [simpl; lia|]. split; [done|]. intros x y Hx Hy.
  destruct (H x y Hx Hy) as [Hw Hb]. unfold Iota. destruct ((x =? 0)%nat && (y =? 0)%nat) eqn:E.
  - apply andb_prop in E as [->%Nat.eqb_eq ->%Nat.eqb_eq]. split; [by apply lxor_word|]. intros z Hz.
    change (lane _ 0 0) with (Z.lxor s0 c). rewrite Z.lxor_spec, Hcb by done. f_equal. by apply Hb.
  - assert (Hi : (5 * y + x)%nat = S (5 * y + x - 1)).
    { apply andb_false_iff in E as [E%Nat.eqb_neq|E%Nat.eqb_neq]; lia. }
    unfold lane in *. rewrite Hi in *. by split.
Qed.

Lemma round_correct ir c st : ROUND_CONSTANTS !! ir = Some c -> state_ok st ->
  round c st = Some (lanes_of (Rnd ir (array_of st))).
Proof.
  intros Hc Hst. apply wp_eq. unfold round. rewrite theta_lanes by apply Hst. cbn [mbind option_bind].
  rewrite rho_pi_lanes by done. cbn [mbind option_bind]. rewrite chi_lanes by done. cbn [mbind option_bind].
  eapply wp_mono; [apply (iota_reads ir c _ (Chi (Pi (Rho (Theta (array_of st))))) Hc); [done|]|].
  - apply reads_by_lane, chi_reads, reads_by_lane, rho_pi_reads, reads_by_lane, theta_reads, state_ok_reads, Hst.
  - intros st' [Hl H]. rewrite <- (reads_lanes _ (Rnd ir (array_of st)) H). apply list_eq_same_length with 25%nat; [done|done|].
    intros i a b Hi Ha Hb. unfold by_lane in Hb. rewrite list_lookup_fmap, lookup_seq_lt in Hb by lia. apply (inj Some) in Hb as <-.
    change (0 + i)%nat with i. unfold lane. rewrite <- (Nat.div_mod_eq i 5). symmetry. by apply nth_lookup_Some.
Qed.

Lemma lanes_of_ok A : state_ok (lanes_of A).
Proof.
  split; [unfold lanes_of; by rewrite length_fmap, length_seq|]. apply Forall_fmap, Forall_forall. intros i _. exact (of_bits_bound 64 _).
Qed.

Lemma keccak_p_ok nr st : state_ok st -> state_ok (keccak_p nr st).
Proof.
  unfold keccak_p. generalize (seq (24 - nr) nr). intros l. revert st. induction l as [|ir l IH]; intros st Hst; [done|].
  apply IH, lanes_of_ok.
Qed.

Lemma p1600_keccak_p nr st : (nr <= 24)%nat -> state_ok st -> p1600_soft nr st = Some (keccak_p nr st).
Proof.
  intros Hnr Hst. unfold p1600_soft, keccak_p. apply wp_eq, wp_bind, wp_assert; [by apply Nat.leb_le|]. apply wp_bind, wp_slice; [lia|done|].
  replace (24 - (24 - nr))%nat with nr by lia.
  assert (Hgo : forall n k st, (k + n <= 24)%nat -> state_ok st ->
    rounds (take n (drop k ROUND_CONSTANTS)) st = Some (foldl (fun st ir => lanes_of (Rnd ir (array_of st))) st (seq k n))).
  { intros n. induction n as [|n IH]; intros k st0 Hk Hst0; [done|].
    destruct (lookup_lt_is_Some_2 ROUND_CONSTANTS k) as [c Hc]; [change (length ROUND_CONSTANTS) with 24%nat; lia|].
    rewrite (drop_S _ c k Hc). cbn [take rounds seq foldl]. rewrite (round_correct k c st0 Hc Hst0). cbn [mbind option_bind].
    apply IH; [lia|apply lanes_of_ok]. }
  rewrite Hgo by (done || lia). by apply wp_ret.
Qed.

End Keccak.
