(* ===== verification/Sponge.v ===== *)
(** * crypto: the Keccak sponge

    src/crypto/src/sha3/keccak.rs, [KeccakSponge], and what it computes: a
    message absorbed in any pieces, then output squeezed in any pieces, is the
    sponge construction of FIPS 202 on the padded message.  The bytes of the
    state are the lanes in little-endian order, as the code assumes of the
    machine. *)
From Stdlib Require Import ZArith Lia.
From stdpp Require Import base list numbers option.
From S2P Require Import Prelude Words Keccak.

Module Sponge.

(** ** The code *)

Inductive SpongeMode := Absorbing | Squeezing.
#[export] Instance SpongeMode_eq : EqDecision SpongeMode.
Proof. solve_decision. Defined.

Record KeccakSponge (ROUNDS : nat) := mkSponge { state : list Z; rate : nat; padding : Z; pos : nat; mode : SpongeMode }.
Arguments mkSponge {ROUNDS} _ _ _ _ _.
Arguments state {ROUNDS} _.
Arguments rate {ROUNDS} _.
Arguments padding {ROUNDS} _.
Arguments pos {ROUNDS} _.
Arguments mode {ROUNDS} _.

(** [xor(dest, source)]: a zip, so the shorter ends it. *)
Definition xor (dest source : list Z) : list Z :=
  zip_with Z.lxor dest source ++ drop (length source) dest.

Section Code.
Context {ROUNDS : nat}.
Implicit Types self : KeccakSponge ROUNDS.

(** The debug assertion on the rate is [rate_ok], below. *)
Definition new (rate : nat) (delimiter : Z) : KeccakSponge ROUNDS := mkSponge (replicate 200 0) rate delimiter 0 Absorbing.

Definition permute_and_reset_pos self : option (KeccakSponge ROUNDS) :=
  lanes ← Keccak.p1600_soft ROUNDS (from_le <$> chunks 8 (state self));
  Some (mkSponge (concat (to_le 8 <$> lanes)) (rate self) (padding self) 0 (mode self)).

Definition absorb_chunk self (chunk : list Z) : option (KeccakSponge ROUNDS) :=
  dest ← slice (state self) (pos self) (pos self + length chunk);
  state ← copy_at (state self) (pos self) (xor dest chunk);
  let self := mkSponge state (rate self) (padding self) (pos self + length chunk) (mode self) in
  if (pos self =? rate self)%nat then permute_and_reset_pos self else Some self.

Fixpoint absorb_chunks self (l : list (list Z)) : option (KeccakSponge ROUNDS) :=
  match l with [] => Some self | chunk :: rest => self ← absorb_chunk self chunk; absorb_chunks self rest end.

Definition absorb self (data : list Z) : option (KeccakSponge ROUNDS) :=
  _ ← rassert (bool_decide (mode self = Absorbing));
  _ ← rassert (pos self <=? rate self)%nat;
  let rate_remainder := Nat.min (rate self - pos self) (length data) in
  first ← slice data 0 rate_remainder;
  self ← absorb_chunk self first;
  rest ← slice data rate_remainder (length data);
  absorb_chunks self (chunks (rate self) rest).

Definition pad_and_permute self : option (KeccakSponge ROUNDS) :=
  s ← state self !! pos self;
  state ← upd (state self) (pos self) (Z.lxor s (padding self));
  _ ← rassert (1 <=? rate self)%nat;
  s ← state !! (rate self - 1)%nat;
  state ← upd state (rate self - 1) (Z.lxor s 0x80);
  permute_and_reset_pos (mkSponge state (rate self) (padding self) (pos self) (mode self)).

(** The buffer comes back filled. *)
Definition squeeze_chunk self (out : list Z) : option (KeccakSponge ROUNDS * list Z) :=
  self ← (if (pos self =? rate self)%nat then permute_and_reset_pos self else Some self);
  filled ← slice (state self) (pos self) (pos self + length out);
  Some (mkSponge (state self) (rate self) (padding self) (pos self + length out) (mode self), filled).

Fixpoint squeeze_chunks self (l : list (list Z)) : option (KeccakSponge ROUNDS * list Z) :=
  match l with
  | [] => Some (self, [])
  | out :: rest =>
      '(self, out) ← squeeze_chunk self out;
      '(self, outs) ← squeeze_chunks self rest;
      Some (self, out ++ outs)
  end.

Definition squeeze self (out : list Z) : option (KeccakSponge ROUNDS * list Z) :=
  self ← (if decide (mode self = Absorbing) then
            self ← pad_and_permute self;
            Some (mkSponge (state self) (rate self) (padding self) (pos self) Squeezing)
          else Some self);
  _ ← rassert (pos self <=? rate self)%nat;
  let rate_remainder := Nat.min (rate self - pos self) (length out) in
  first ← slice out 0 rate_remainder;
  '(self, first) ← squeeze_chunk self first;
  rest ← slice out rate_remainder (length out);
  '(self, rest) ← squeeze_chunks self (chunks (rate self) rest);
  Some (self, first ++ rest).
End Code.

Definition rate_ok (rate : nat) : Prop := (0 < rate < 200)%nat.

(** ** The construction

    On bytes: a rate of whole bytes, and the bits of the suffix that separates
    the domains in the first byte of the padding, as its [delimiter]. *)
Definition keccak_bytes (nr : nat) (b : list Z) : list Z := concat (to_le 8 <$> Keccak.keccak_p nr (from_le <$> chunks 8 b)).

Definition pad_bytes (rate : nat) (delimiter : Z) (n : nat) : list Z :=
  let q := (rate - n mod rate)%nat in
  if (q =? 1)%nat then [Z.lxor delimiter 0x80] else delimiter :: replicate (q - 2) 0 ++ [0x80].

Section Construction.
Variable f : list Z -> list Z.
Variable rate : nat.

Definition absorb_block (s p : list Z) : list Z := f (xor s p).
Definition absorbed_state (m : list Z) : list Z := foldl absorb_block (replicate 200 0) (chunks rate m).

(** Byte [k] of the output, and [n] bytes from there. *)
Definition output_byte (s : list Z) (k : nat) : Z := nth (k mod rate) (Nat.iter (k / rate) f s) 0.
Definition output (s : list Z) (k n : nat) : list Z := output_byte s <$> seq k n.
End Construction.

Definition sponge (nr rate : nat) (delimiter : Z) (m : list Z) (n : nat) : list Z :=
  output (keccak_bytes nr) rate (absorbed_state (keccak_bytes nr) rate (m ++ pad_bytes rate delimiter (length m))) 0 n.

(** The padding in bits: the suffix, then pad10*1. *)
Definition byte_bits (x : Z) : list bool := Z.testbit x <$> seqZ 0 8.
Definition bits_of_bytes (b : list Z) : list bool := concat (byte_bits <$> b).
Definition pad10star1 (x m : Z) : list bool := true :: replicate (Z.to_nat ((- m - 2) mod x)) false ++ [true].

(** A delimiter is its suffix, a one and zeros. *)
Definition delimits (delimiter : Z) (suffix : list bool) : Prop :=
  (length suffix <= 6)%nat /\ byte_bits delimiter = suffix ++ true :: replicate (7 - length suffix) false /\
  byte_bits (Z.lxor delimiter 0x80) = suffix ++ true :: replicate (6 - length suffix) false ++ [true].

Lemma length_bits_of_bytes b : length (bits_of_bytes b) = (8 * length b)%nat.
Proof. unfold bits_of_bytes. induction b as [|x b IH]; [done|]. cbn [fmap list_fmap concat]. rewrite length_app, IH. unfold byte_bits. rewrite length_fmap, length_seqZ. simpl length. lia. Qed.

Lemma bits_of_zeros n : bits_of_bytes (replicate n 0) = replicate (8 * n) false.
Proof.
  induction n as [|n IH]; [done|]. replace (8 * S n)%nat with (8 + 8 * n)%nat by lia. rewrite replicate_add, <- IH. reflexivity.
Qed.

Lemma bits_of_app a b : bits_of_bytes (a ++ b) = bits_of_bytes a ++ bits_of_bytes b.
Proof. unfold bits_of_bytes. by rewrite fmap_app, concat_app. Qed.

(** The bytes of the padding are the bits of the standard. *)
Lemma pad_correct rate delimiter suffix n : (0 < rate)%nat -> delimits delimiter suffix ->
  bits_of_bytes (pad_bytes rate delimiter n) = suffix ++ pad10star1 (8 * Z.of_nat rate) (8 * Z.of_nat n + Z.of_nat (length suffix)).
Proof.
  intros Hr (Hl & Hd & Hlast). unfold pad_bytes, pad10star1. pose proof (Nat.mod_upper_bound n rate ltac:(lia)) as Hm.
  pose proof (Nat.div_mod_eq n rate) as Hdm. set (q := (rate - n mod rate)%nat) in *.
  assert (Hz : (- (8 * Z.of_nat n + Z.of_nat (length suffix)) - 2) mod (8 * Z.of_nat rate) = 8 * Z.of_nat q - 2 - Z.of_nat (length suffix)).
  { symmetry. apply (Z.mod_unique _ _ (- Z.of_nat (n / rate) - 1)); [unfold q; lia|]. unfold q. nia. }
  cbv zeta. rewrite Hz. destruct (Nat.eqb_spec q 1) as [E|E].
  - unfold bits_of_bytes. cbn [fmap list_fmap concat]. rewrite app_nil_r, Hlast. do 2 f_equal.
    replace (Z.to_nat _) with (6 - length suffix)%nat by lia. done.
  - rewrite app_comm_cons, bits_of_app. change (delimiter :: ?l) with ([delimiter] ++ l).
    rewrite bits_of_app, bits_of_zeros. unfold bits_of_bytes at 1 2. cbn [fmap list_fmap concat]. rewrite !app_nil_r, Hd.
    rewrite <- !app_assoc. cbn [app]. do 2 f_equal. change (byte_bits 128) with (replicate 7 false ++ [true]).
    rewrite !app_assoc. f_equal. rewrite <- !replicate_add. f_equal. unfold q in *. lia.
Qed.

(** ** Xor into a state *)

Lemma xor_length s d : (length d <= length s)%nat -> length (xor s d) = length s.
Proof. intros H. unfold xor. rewrite length_app, length_zip_with, length_drop. lia. Qed.

Lemma xor_bytes s d : bytes s -> bytes d -> bytes (xor s d).
Proof.
  intros Hs Hd. unfold xor. apply Forall_app. split; [|by apply Forall_drop]. revert d Hd.
  induction Hs as [|x s Hx Hs IH]; intros d Hd; [constructor|]. destruct Hd as [|y d Hy Hd]; [constructor|]. cbn [zip_with]. constructor; [|by apply IH].
  unfold byte in *. apply (lxor_nonneg_bound x y 8); lia.
Qed.

Lemma xor_nil s : xor s [] = s.
Proof. unfold xor. by rewrite zip_with_nil_r, drop_0. Qed.

Lemma xor_split s1 s2 r d : length s1 = length r -> xor (s1 ++ s2) (r ++ d) = zip_with Z.lxor s1 r ++ xor s2 d.
Proof.
  intros H. unfold xor. rewrite zip_with_app, length_app by done. rewrite drop_app_ge, H by lia.
  replace (length r + length d - length r)%nat with (length d) by lia. by rewrite <- app_assoc.
Qed.

(** Xoring more after what has been xored. *)
Lemma xor_app s r d : (length r + length d <= length s)%nat ->
  xor s (r ++ d) = take (length r) (xor s r) ++ xor (take (length d) (drop (length r) (xor s r))) d ++ drop (length r + length d) (xor s r).
Proof.
  intros H. set (s1 := take (length r) s). set (s2 := take (length d) (drop (length r) s)). set (s3 := drop (length d) (drop (length r) s)).
  assert (E : s = s1 ++ s2 ++ s3) by (unfold s1, s2, s3; by rewrite !take_drop).
  assert (H1 : length s1 = length r) by (unfold s1; rewrite length_take; lia).
  assert (H2 : length s2 = length d) by (unfold s2; rewrite length_take, length_drop; lia). clearbody s1 s2 s3. subst s.
  rewrite xor_split by done. assert (Er : xor (s1 ++ s2 ++ s3) r = zip_with Z.lxor s1 r ++ s2 ++ s3).
  { rewrite <- (app_nil_r r) at 1. rewrite xor_split by done. by rewrite xor_nil. }
  assert (Hz : length (zip_with Z.lxor s1 r) = length r) by (rewrite length_zip_with; lia).
  rewrite Er, <- Hz. rewrite take_app_length, drop_app_length. f_equal. rewrite <- drop_drop, drop_app_length, <- H2, take_app_length, drop_app_length.
  rewrite <- (app_nil_r d) at 1. rewrite xor_split by done. rewrite xor_nil. unfold xor. by rewrite drop_ge, app_nil_r by lia.
Qed.

Lemma xor_lookup s r : xor s r !! length r = s !! length r.
Proof.
  unfold xor. destruct (Nat.le_gt_cases (length r) (length s)).
  - assert (Hz : length (zip_with Z.lxor s r) = length r) by (rewrite length_zip_with; lia).
    by rewrite lookup_app_r, Hz, lookup_drop, Nat.sub_diag, Nat.add_0_r by lia.
  - rewrite (lookup_ge_None_2 s) by lia. apply lookup_ge_None_2. rewrite length_app, length_zip_with, length_drop. lia.
Qed.

Lemma xor_snoc s r d x : s !! length r = Some x -> xor s (r ++ [d]) = <[length r := Z.lxor x d]> (xor s r).
Proof.
  intros Hx. pose proof (lookup_lt_Some _ _ _ Hx) as Hl. rewrite xor_app by (simpl; lia). cbn [length].
  rewrite (drop_S (xor s r) x) by (by rewrite xor_lookup). unfold xor at 2. cbn [take zip_with length drop app]. rewrite insert_take_drop by (rewrite xor_length; lia).
  replace (length r + 1)%nat with (S (length r)) by lia. done.
Qed.

Lemma xor_zeros s r n : (length r + n <= length s)%nat -> xor s (r ++ replicate n 0) = xor s r.
Proof.
  induction n as [|n IH]; intros Hn; [by rewrite app_nil_r|]. rewrite <- IH by lia. replace (S n) with (n + 1)%nat by lia.
  rewrite replicate_add, app_assoc. cbn [replicate]. set (r' := r ++ replicate n 0) in *.
  assert (Hr : length r' = (length r + n)%nat) by (unfold r'; rewrite length_app, length_replicate; lia).
  destruct (lookup_lt_is_Some_2 s (length r')) as [x Hx]; [lia|]. rewrite (xor_snoc _ _ _ x Hx), Z.lxor_0_r. apply list_insert_id.
  by rewrite xor_lookup.
Qed.

(** ** The permutation on bytes *)

Definition bytes_ok (b : list Z) : Prop := length b = 200%nat /\ bytes b.

Lemma bytes_lanes b : bytes_ok b -> Keccak.state_ok (from_le <$> chunks 8 b).
Proof.
  intros [Hl Hb]. pose proof (chunks_whole 8 b ltac:(lia)) as Hw. rewrite Hl in Hw. specialize (Hw eq_refl). pose proof (concat_chunks 8 b ltac:(lia)) as Hc.
  assert (Hbs : Forall bytes (chunks 8 b)) by (apply Forall_concat; by rewrite Hc). split.
  - rewrite length_fmap. assert (Hs : length (concat (chunks 8 b)) = (8 * length (chunks 8 b))%nat).
    { clear -Hw. induction Hw as [|c l Hc Hw IH]; [done|]. cbn [concat length]. rewrite length_app, IH. lia. }
    rewrite Hc in Hs. lia.
  - apply Forall_fmap, Forall_forall. intros c Hin. rewrite Forall_forall in Hw, Hbs. cbn. unfold word.
    pose proof (from_le_bound c (Hbs c Hin)) as Hf. rewrite (Hw c Hin) in Hf. exact Hf.
Qed.

Lemma lanes_bytes l : length l = 25%nat -> bytes_ok (concat (to_le 8 <$> l)).
Proof.
  intros Hl. split.
  - assert (H : length (concat (to_le 8 <$> l)) = (8 * length l)%nat); [|lia].
    clear. induction l as [|x l IH]; [done|]. cbn [fmap list_fmap concat]. rewrite length_app, IH, length_to_le. simpl length. lia.
  - clear. induction l as [|x l IH]; [constructor|]. apply Forall_app. split; [apply bytes_to_le|exact IH].
Qed.

Lemma keccak_bytes_ok nr b : bytes_ok b -> bytes_ok (keccak_bytes nr b).
Proof. intros Hb. apply lanes_bytes. apply Keccak.keccak_p_ok, bytes_lanes, Hb. Qed.

(** ** Absorbing *)

Section Walk.
Context {ROUNDS : nat}.
Variable r : nat.
Variable delimiter : Z.
Hypothesis HR : (ROUNDS <= 24)%nat.
Hypothesis Hr : rate_ok r.
Hypothesis Hdelim : byte delimiter.
Let f := keccak_bytes ROUNDS.
Implicit Types h : KeccakSponge ROUNDS.

Lemma permute_correct h : bytes_ok (state h) -> permute_and_reset_pos h = Some (mkSponge (f (state h)) (rate h) (padding h) 0 (mode h)).
Proof. intros Hb. unfold permute_and_reset_pos. by rewrite Keccak.p1600_keccak_p by (done || by apply bytes_lanes). Qed.

Lemma absorbed_ok m : bytes m -> bytes_ok (absorbed_state f r m).
Proof.
  intros Hm. unfold absorbed_state. assert (Hc : Forall (fun c => bytes c /\ (length c <= 200)%nat) (chunks r m)).
  { apply Forall_and; [apply Forall_concat; by rewrite concat_chunks by apply Hr|]. clear Hm. remember (length m) as k eqn:Hk.
    revert m Hk. induction k as [k IH] using lt_wf_ind. intros m ->. destruct m as [|x m]; [constructor|]. rewrite chunks_cons by (done || apply Hr).
    unfold rate_ok in Hr. constructor; [rewrite length_take; lia|]. apply (IH (length (drop r (x :: m)))); [rewrite length_drop; simpl; lia|done]. }
  assert (H0 : bytes_ok (replicate 200 0)) by (split; [apply length_replicate|apply Forall_replicate; unfold byte; lia]).
  revert H0. generalize (replicate 200 0). induction Hc as [|c l [Hb Hl] Hc IH]; intros s Hs; [done|]. cbn [foldl]. apply IH.
  apply keccak_bytes_ok. destruct Hs as [Hs1 Hs2]. split; [by rewrite xor_length; lia|by apply xor_bytes].
Qed.

(** The sponge has absorbed [m]: whole blocks, and the rest in the state. *)
Definition absorbing h (m : list Z) : Prop :=
  mode h = Absorbing /\ rate h = r /\ padding h = delimiter /\ bytes m /\ exists full rest,
    m = full ++ rest /\ (length full mod r = 0)%nat /\ (length rest < r)%nat /\ pos h = length rest /\
    state h = xor (absorbed_state f r full) rest.

Lemma absorbing_new : absorbing (new r delimiter) [].
Proof.
  unfold absorbing, rate_ok in *. split_and!; try done; [constructor|]. exists [], []. cbn [new pos state length]. rewrite xor_nil, Nat.Div0.mod_0_l.
  split_and!; try done. lia.
Qed.

Lemma absorbed_block full d : (length full mod r = 0)%nat -> length d = r ->
  absorbed_state f r (full ++ d) = f (xor (absorbed_state f r full) d).
Proof.
  intros Hf Hd. unfold absorbed_state. unfold rate_ok in Hr. by rewrite chunks_app, (chunks_single _ d), foldl_app by (done || lia).
Qed.

Lemma whole_more (full d : list Z) : (length full mod r = 0)%nat -> length d = r -> (length (full ++ d) mod r = 0)%nat.
Proof. intros Hf Hd. unfold rate_ok in Hr. rewrite length_app, Hd. replace (length full + r)%nat with (length full + 1 * r)%nat by lia. by rewrite Nat.Div0.mod_add. Qed.

Lemma absorb_chunk_correct h m c : absorbing h m -> bytes c -> (pos h + length c <= r)%nat ->
  wp (absorb_chunk h c) (fun h' => absorbing h' (m ++ c) /\ pos h' = if (pos h + length c =? r)%nat then 0%nat else (pos h + length c)%nat).
Proof.
  intros (Hmode & Hrate & Hpad & Hm & full & rest & -> & Hf & Hrest & Hpos & Hst) Hc Hle. unfold absorb_chunk, rate_ok in *.
  apply Forall_app in Hm as [Hfull Hrb]. destruct (absorbed_ok full Hfull) as [HA HAb]. rewrite Hst, Hpos in *.
  assert (Hx : length (xor (absorbed_state f r full) rest) = 200%nat) by (rewrite xor_length; lia).
  apply wp_bind, wp_slice; [lia|lia|]. replace (length rest + length c - length rest)%nat with (length c) by lia.
  apply wp_bind. assert (Hxc : length (xor (take (length c) (drop (length rest) (xor (absorbed_state f r full) rest))) c) = length c).
  { rewrite xor_length; rewrite length_take, length_drop; lia. }
  apply wp_copy_at; [lia|]. rewrite Hxc, <- xor_app by lia. cbn [pos rate]. rewrite Hrate. destruct (Nat.eqb_spec (length rest + length c) r) as [E|E].
  - assert (Hb : bytes_ok (xor (absorbed_state f r full) (rest ++ c))).
    { split; [rewrite xor_length; rewrite ?length_app; lia|]. apply xor_bytes; [done|by apply Forall_app]. }
    rewrite permute_correct by exact Hb. apply wp_ret. split; [|done]. unfold absorbing. cbn [mode rate padding pos state].
    split_and!; try done; [by repeat apply Forall_app_2|]. exists (full ++ rest ++ c), [].
    rewrite app_nil_r, xor_nil, absorbed_block, <- app_assoc by (done || rewrite length_app; lia).
    split_and!; try done; [apply whole_more; [done|rewrite length_app; lia]|simpl; lia].
  - apply wp_ret. split; [|done]. unfold absorbing. cbn [mode rate padding pos state]. split_and!; try done; [by repeat apply Forall_app_2|].
    exists full, (rest ++ c). rewrite <- app_assoc, length_app. split_and!; try done. lia.
Qed.

Lemma absorb_chunks_correct h m d : absorbing h m -> bytes d -> (pos h = 0)%nat -> wp (absorb_chunks h (chunks r d)) (fun h' => absorbing h' (m ++ d)).
Proof.
  remember (length d) as k eqn:Hk. revert h m d Hk. induction k as [k IH] using lt_wf_ind. intros h m d -> Hh Hd Hpos. unfold rate_ok in *.
  destruct d as [|x d]; [rewrite app_nil_r; exact Hh|]. set (d' := x :: d) in *. rewrite chunks_cons by (done || lia). cbn [absorb_chunks].
  apply wp_bind. eapply wp_mono; [apply (absorb_chunk_correct h m (take r d')); [done|by apply Forall_take|rewrite length_take; lia]|].
  intros h' [Hh' Hpos']. assert (E : m ++ d' = (m ++ take r d') ++ drop r d') by (by rewrite <- app_assoc, take_drop).
  rewrite E. rewrite Hpos, length_take in Hpos'. destruct (Nat.le_gt_cases r (length d')) as [Hge|Hlt].
  - rewrite Nat.min_l in Hpos' by lia. cbn [Nat.add] in Hpos'. rewrite Nat.eqb_refl in Hpos'.
    apply (IH (length (drop r d'))); [rewrite length_drop; unfold d' in *; simpl in *; lia|done|done|by apply Forall_drop|done].
  - rewrite (drop_ge d') by lia. by rewrite app_nil_r.
Qed.

Lemma sponge_absorb_correct h m d : absorbing h m -> bytes d -> wp (absorb h d) (fun h' => absorbing h' (m ++ d)).
Proof.
  intros Hh Hd. pose proof Hh as (Hmode & Hrate & _ & _ & full & rest & _ & _ & Hrest & Hpos & _). unfold absorb.
  apply wp_bind, wp_assert; [by apply bool_decide_eq_true|]. rewrite Hrate. apply wp_bind, wp_assert; [apply Nat.leb_le; lia|]. cbv zeta.
  set (n := Nat.min (r - pos h) (length d)). apply wp_bind, wp_slice; [lia|lia|]. rewrite drop_0, Nat.sub_0_r.
  apply wp_bind. eapply wp_mono; [apply (absorb_chunk_correct h m (take n d)); [done|by apply Forall_take|rewrite length_take; lia]|].
  intros h' [Hh' Hpos']. apply wp_bind, wp_slice; [lia|lia|]. rewrite (take_ge (drop n d)) by (rewrite length_drop; lia).
  pose proof Hh' as (_ & Hrate' & _). rewrite Hrate'. rewrite length_take in Hpos'. destruct (Nat.le_gt_cases (r - pos h) (length d)) as [Hge|Hlt].
  - assert (Hp0 : pos h' = 0%nat) by (rewrite Hpos'; destruct (Nat.eqb_spec (pos h + n `min` length d) r); [done|lia]).
    eapply wp_mono; [apply (absorb_chunks_correct h' (m ++ take n d)); [done|by apply Forall_drop|done]|]. intros h2 Hh2.
    by rewrite <- app_assoc, take_drop in Hh2.
  - rewrite (drop_ge d) by lia. apply wp_ret. by rewrite take_ge in Hh' by lia.
Qed.

(** ** Squeezing *)

(** The sponge has given the first [k] bytes of the output of state [s]. *)
Definition squeezing (s : list Z) h (k : nat) : Prop :=
  mode h = Squeezing /\ rate h = r /\ exists q, state h = Nat.iter q f s /\ (pos h <= r)%nat /\ k = (q * r + pos h)%nat.

Lemma iter_ok q s : bytes_ok s -> bytes_ok (Nat.iter q f s).
Proof. intros Hs. induction q as [|q IH]; [done|]. by apply keccak_bytes_ok. Qed.

Lemma sponge_pad_length n : (0 < r)%nat -> (n mod r + length (pad_bytes r delimiter n) = r)%nat.
Proof using. clear HR.
  intros H0. pose proof (Nat.mod_upper_bound n r ltac:(lia)). unfold pad_bytes. cbv zeta. destruct (Nat.eqb_spec (r - n mod r) 1); [simpl; lia|].
  cbn [length]. rewrite length_app, length_replicate. simpl. lia.
Qed.

Lemma pad_is_bytes n : bytes (pad_bytes r delimiter n).
Proof using Hdelim.
  clear HR. unfold pad_bytes. cbv zeta. destruct (_ =? 1)%nat.
  - constructor; [|constructor]. unfold byte in *. apply (lxor_nonneg_bound _ _ 8); lia.
  - constructor; [done|]. apply Forall_app. split; [apply Forall_replicate; unfold byte; lia|constructor; [unfold byte; lia|constructor]].
Qed.

(** The two xors of [pad_and_permute] are the padding. *)
Lemma pad_updates s rest : length s = 200%nat -> (length rest < r)%nat ->
  wp (x ← xor s rest !! length rest; st ← upd (xor s rest) (length rest) (Z.lxor x delimiter);
      _ ← rassert (1 <=? r)%nat; x ← st !! (r - 1)%nat; upd st (r - 1) (Z.lxor x 0x80))
    (fun st => st = xor s (rest ++ pad_bytes r delimiter (length rest))).
Proof.
  intros Hs Hl. unfold rate_ok in *. unfold pad_bytes. cbv zeta. rewrite (Nat.mod_small (length rest)) by lia.
  destruct (lookup_lt_is_Some_2 s (length rest)) as [x Hx]; [lia|]. rewrite xor_lookup, Hx. cbn [mbind option_bind].
  apply wp_bind, wp_upd; [rewrite xor_length; lia|]. rewrite <- xor_snoc by done. apply wp_bind, wp_assert; [apply Nat.leb_le; lia|].
  destruct (Nat.eqb_spec (r - length rest) 1) as [E|E].
  - replace (r - 1)%nat with (length rest) by lia. rewrite !(xor_snoc s rest _ x) by done.
    rewrite list_lookup_insert_eq by (rewrite xor_length; lia). cbn [mbind option_bind].
    apply wp_upd; [rewrite length_insert, xor_length; lia|]. rewrite list_insert_insert_eq. by rewrite Z.lxor_assoc.
  - rewrite <- (xor_zeros s (rest ++ [delimiter]) (r - length rest - 2)) by (rewrite length_app; simpl; lia).
    set (rest' := (rest ++ [delimiter]) ++ replicate _ 0).
    assert (Hl' : length rest' = (r - 1)%nat) by (unfold rest'; rewrite !length_app, length_replicate; simpl; lia).
    rewrite <- Hl'. destruct (lookup_lt_is_Some_2 s (length rest')) as [y Hy]; [lia|]. rewrite xor_lookup, Hy. cbn [mbind option_bind].
    apply wp_upd; [rewrite xor_length; lia|]. rewrite <- xor_snoc by done. unfold rest'. by rewrite <- !app_assoc.
Qed.

Lemma pad_and_permute_correct h m : absorbing h m ->
  wp (pad_and_permute h) (fun h' => mode h' = Absorbing /\ rate h' = r /\ pos h' = 0%nat /\ padding h' = delimiter /\
    state h' = absorbed_state f r (m ++ pad_bytes r delimiter (length m))).
Proof.
  intros (Hmode & Hrate & Hpad & Hm & full & rest & -> & Hf & Hrest & Hpos & Hst). unfold pad_and_permute.
  apply Forall_app in Hm as [Hfull Hrb]. destruct (absorbed_ok full Hfull) as [HA HAb]. rewrite Hst, Hpos, Hrate, Hpad in *.
  pose proof (pad_updates _ rest HA Hrest) as Hpu. set (padded := rest ++ pad_bytes r delimiter (length rest)) in *.
  assert (Hlen : length padded = r).
  { unfold padded. rewrite length_app. pose proof (sponge_pad_length (length rest) ltac:(lia)) as Hpl. by rewrite Nat.mod_small in Hpl by lia. }
  destruct (xor _ rest !! length rest) as [x|]; [|done]. cbn [mbind option_bind] in *. destruct (upd _ (length rest) _) as [st|]; [|done].
  cbn [mbind option_bind] in *. destruct (rassert _) as [[]|]; [|done]. cbn [mbind option_bind] in *. destruct (st !! (r - 1)%nat) as [y|]; [|done].
  cbn [mbind option_bind] in *. apply wp_bind. eapply wp_mono; [exact Hpu|]. intros st' ->. unfold rate_ok in *. rewrite permute_correct.
  - apply wp_ret. cbn [mode rate pos state padding]. split_and!; try done. rewrite <- absorbed_block by done. f_equal. unfold padded. rewrite <- app_assoc. do 2 f_equal.
    unfold pad_bytes. rewrite length_app. apply Nat.Div0.mod_divides in Hf as [j Hj]. rewrite Hj, (Nat.add_comm (r * j)), (Nat.mul_comm r j), Nat.Div0.mod_add. done.
  - cbn [state]. split; [rewrite xor_length; lia|]. apply xor_bytes; [done|]. apply Forall_app. split; [done|apply pad_is_bytes].
Qed.

Lemma length_output s k n : length (output f r s k n) = n.
Proof. unfold output. by rewrite length_fmap, length_seq. Qed.

Lemma output_add s k a b : output f r s k (a + b) = output f r s k a ++ output f r s (k + a) b.
Proof. unfold output. by rewrite seq_app, fmap_app. Qed.

(** A piece of one block. *)
Lemma output_block s q p n : bytes_ok s -> (p + n <= r)%nat -> take n (drop p (Nat.iter q f s)) = output f r s (q * r + p) n.
Proof.
  intros Hs Hn. unfold rate_ok in *. destruct (iter_ok q s Hs) as [Hl _]. apply list_eq_same_length with n; [apply length_output|rewrite length_take, length_drop; lia|].
  intros i x y Hi Hx Hy. rewrite lookup_take_lt, lookup_drop in Hx by lia. unfold output in Hy. rewrite list_lookup_fmap, lookup_seq_lt in Hy by lia.
  apply (inj Some) in Hy as <-. unfold output_byte. replace (q * r + p + i)%nat with ((p + i) + q * r)%nat by lia.
  rewrite Nat.Div0.mod_add, Nat.div_add, Nat.mod_small, Nat.div_small by lia. symmetry. by apply nth_lookup_Some.
Qed.

Lemma squeeze_chunk_correct s h k out : bytes_ok s -> squeezing s h k -> (pos h = r /\ length out <= r \/ pos h + length out <= r)%nat ->
  wp (squeeze_chunk h out) (fun '(h', out') => squeezing s h' (k + length out) /\ out' = output f r s k (length out) /\
    pos h' = (if (pos h =? r)%nat then length out else (pos h + length out)%nat)).
Proof.
  intros Hs (Hmode & Hrate & q & Hst & Hpos & ->) Hle. unfold squeeze_chunk, rate_ok in *. rewrite Hrate. apply wp_bind.
  destruct (Nat.eqb_spec (pos h) r) as [E|E].
  - rewrite permute_correct by (rewrite Hst; by apply iter_ok). apply wp_ret. cbn [state pos rate mode padding]. rewrite Hst.
    change (f (Nat.iter q f s)) with (Nat.iter (S q) f s). destruct (iter_ok (S q) s Hs) as [Hl _].
    apply wp_bind, wp_slice; [lia|lia|]. apply wp_ret. cbn [Nat.add]. rewrite Nat.sub_0_r, output_block by (done || lia). split; [|split; [f_equal; lia|done]].
    split; [done|split; [done|]]. exists (S q). cbn [state pos]. split_and!; [done|lia|lia].
  - apply wp_ret. rewrite Hst. destruct (iter_ok q s Hs) as [Hl _]. apply wp_bind, wp_slice; [lia|lia|]. apply wp_ret.
    replace (pos h + length out - pos h)%nat with (length out) by lia. rewrite output_block by (done || lia). split; [|done].
    split; [done|split; [done|]]. exists q. cbn [state pos]. split_and!; [done|lia|lia].
Qed.

Lemma squeeze_chunks_correct s h k out : bytes_ok s -> squeezing s h k -> (pos h = 0 \/ pos h = r)%nat ->
  wp (squeeze_chunks h (chunks r out)) (fun '(h', out') => squeezing s h' (k + length out) /\ out' = output f r s k (length out)).
Proof.
  intros Hs. remember (length out) as n eqn:Hn. revert h k out Hn. induction n as [n IH] using lt_wf_ind. intros h k out -> Hh Hpos. unfold rate_ok in *.
  destruct out as [|x out]; [apply wp_ret; cbn [length]; by rewrite Nat.add_0_r|]. set (o := x :: out) in *. rewrite chunks_cons by (done || lia).
  cbn [squeeze_chunks]. apply wp_bind. eapply wp_mono; [apply (squeeze_chunk_correct s h k (take r o) Hs Hh)|].
  { rewrite length_take. lia. }
  intros [h' out'] (Hh' & -> & Hpos'). rewrite length_take in *. apply wp_bind. destruct (Nat.le_gt_cases r (length o)) as [Hge|Hlt].
  - rewrite Nat.min_l in * by lia. assert (Hp : pos h' = r) by (rewrite Hpos'; destruct (Nat.eqb_spec (pos h) r); lia).
    eapply wp_mono; [apply (IH (length (drop r o))); [rewrite length_drop; unfold o in *; simpl in *; lia|done|exact Hh'|by right]|].
    intros [h2 out2] [Hh2 ->]. apply wp_ret. rewrite length_drop in *. split; [by replace (k + length o)%nat with (k + r + (length o - r))%nat by lia|].
    rewrite <- output_add. f_equal. lia.
  - rewrite (drop_ge o) by lia. apply wp_ret. rewrite Nat.min_r in * by lia. by rewrite app_nil_r.
Qed.

Lemma squeeze_from_correct s h k out : bytes_ok s -> squeezing s h k ->
  wp (squeeze h out) (fun '(h', out') => squeezing s h' (k + length out) /\ out' = output f r s k (length out)).
Proof.
  intros Hs Hh. pose proof Hh as (Hmode & Hrate & q & _ & Hpos & _). unfold squeeze, rate_ok in *. apply wp_bind.
  rewrite decide_False by (rewrite Hmode; done). apply wp_ret. rewrite Hrate. apply wp_bind, wp_assert; [apply Nat.leb_le; lia|]. cbv zeta.
  set (n := Nat.min (r - pos h) (length out)). apply wp_bind, wp_slice; [lia|lia|]. rewrite drop_0, Nat.sub_0_r. apply wp_bind.
  eapply wp_mono; [apply (squeeze_chunk_correct s h k (take n out) Hs Hh); rewrite length_take; lia|].
  intros [h' out'] (Hh' & -> & Hpos'). rewrite length_take, (Nat.min_l n) in * by lia. pose proof Hh' as (_ & Hrate' & _).
  apply wp_bind, wp_slice; [lia|lia|]. rewrite (take_ge (drop n out)) by (rewrite length_drop; lia). rewrite Hrate'. apply wp_bind.
  destruct (Nat.le_gt_cases (r - pos h) (length out)) as [Hge|Hlt].
  - eapply wp_mono; [apply (squeeze_chunks_correct s h' (k + n) (drop n out) Hs Hh')|].
    { rewrite Hpos'. destruct (Nat.eqb_spec (pos h) r); lia. }
    intros [h2 out2] [Hh2 ->]. apply wp_ret. rewrite length_drop in *. split; [by replace (k + length out)%nat with (k + n + (length out - n))%nat by lia|].
    rewrite <- output_add. f_equal. lia.
  - rewrite drop_ge by lia. apply wp_ret. rewrite app_nil_r. replace n with (length out) in * by lia. done.
Qed.

(** The first squeeze pads. *)
Lemma squeeze_correct h m out : absorbing h m ->
  wp (squeeze h out) (fun '(h', out') => squeezing (absorbed_state f r (m ++ pad_bytes r delimiter (length m))) h' (length out) /\
    out' = sponge ROUNDS r delimiter m (length out)).
Proof.
  intros Hh. pose proof Hh as (Hmode & _ & _ & Hm & _). set (s := absorbed_state f r _).
  assert (Hs : bytes_ok s) by (apply absorbed_ok; apply Forall_app; split; [done|apply pad_is_bytes]).
  pose proof (pad_and_permute_correct h m Hh) as Hpp. fold s in Hpp. unfold squeeze. rewrite decide_True by done.
  destruct (pad_and_permute h) as [h1|]; [|done]. destruct Hpp as (_ & Hrate & Hpos & _ & Hst).
  assert (Hsq : squeezing s (mkSponge (state h1) (rate h1) (padding h1) (pos h1) Squeezing : KeccakSponge ROUNDS) 0).
  { split; [done|split; [done|]]. exists 0%nat. unfold rate_ok in *. cbn [state pos]. split_and!; [done|lia|lia]. }
  pose proof (squeeze_from_correct s _ 0 out Hs Hsq) as Hgo. unfold squeeze in Hgo. rewrite decide_False in Hgo by done. exact Hgo.
Qed.

(** A squeezed sponge absorbs no more. *)
Lemma absorb_squeezed s h k d : squeezing s h k -> absorb h d = None.
Proof. intros [Hmode _]. unfold absorb. by rewrite Hmode. Qed.

End Walk.

End Sponge.
