(* ===== verification/Sha3.v ===== *)
(** * crypto: SHA-3, SHAKE, cSHAKE, KMAC

    src/crypto/src/sha3: the hashers and the extendable-output functions on top
    of the sponge.  [Xof] is the class of the trait in crypto.rs, [XofLaws] its
    contract: a function stands for the message it has absorbed, then for how
    much of that message's output it has given; KMAC is proved against it. *)
From Stdlib Require Import ZArith Lia.
From stdpp Require Import base list numbers option.
From S2P Require Import Prelude Words ConstEq Hasher Sponge.
Import Sponge Hasher.

Module Sha3.

(** ** The traits

    [out] comes back filled. *)
Class Xof (X : Type) := {
  absorb : X -> list Z -> option X;
  squeeze : X -> list Z -> option (X * list Z);
}.

(** The [seed] is what a function starts from. *)
Class XofLaws (X : Type) `{!Xof X} := {
  seed : Type;
  taking : X -> seed -> list Z -> Prop;
  giving : X -> seed -> list Z -> nat -> Prop;
  out_bytes : seed -> list Z -> nat -> nat -> list Z;
  out_length sd m k n : length (out_bytes sd m k n) = n;
  out_add sd m k a b : out_bytes sd m k (a + b) = out_bytes sd m k a ++ out_bytes sd m (k + a) b;
  taking_absorb x sd m d : taking x sd m -> bytes d -> wp (absorb x d) (fun x' => taking x' sd (m ++ d));
  taking_squeeze x sd m out : taking x sd m ->
    wp (squeeze x out) (fun '(x', out') => giving x' sd m (length out) /\ out' = out_bytes sd m 0 (length out));
  giving_squeeze x sd m k out : giving x sd m k ->
    wp (squeeze x out) (fun '(x', out') => giving x' sd m (k + length out) /\ out' = out_bytes sd m k (length out));
  giving_absorb x sd m k d : giving x sd m k -> absorb x d = None;
}.

(** ** The code *)

Definition SHA3_256_RATE : nat := 136.
Definition SHA3_512_RATE : nat := 72.
Definition SHAKE128_RATE : nat := 168.
Definition SHAKE256_RATE : nat := 136.
Definition KMAC256_RATE : nat := 136.
Definition SHA3_256_DOMAIN_SEPARATOR : Z := 0x06.
Definition SHA3_512_DOMAIN_SEPARATOR : Z := 0x06.
Definition SHAKE128_DOMAIN_SEPARATOR : Z := 0x1f.
Definition SHAKE256_DOMAIN_SEPARATOR : Z := 0x1f.
Definition CSHAKE256_DOMAIN_SEPARATOR : Z := 0x04.

Record Sha3_256 := mkSha3_256 { sha3_256_keccak : KeccakSponge 24 }.
Record Sha3_512 := mkSha3_512 { sha3_512_keccak : KeccakSponge 24 }.
Record Shake128 := mkShake128 { shake128_keccak : KeccakSponge 24 }.
Record Shake256 := mkShake256 { shake256_keccak : KeccakSponge 24 }.
Record CShake256 := mkCShake256 { cshake256_keccak : KeccakSponge 24 }.

(** The body of every [sum]: [hash.as_mut()] is the part of the array in use. *)
Definition squeeze_hash (keccak : KeccakSponge 24) (n : nat) : option Hash :=
  hash ← with_length 64 n;
  out ← deref hash;
  '(_, out) ← Sponge.squeeze keccak out;
  array ← copy_at (array hash) 0 out;
  Some (mkHash (mkBytes array (length_ hash))).

#[export] Instance Sha3_256_Hasher : Hasher Sha3_256 := {|
  BLOCK_SIZE := SHA3_256_RATE; OUTPUT_SIZE := 32;
  new := mkSha3_256 (Sponge.new SHA3_256_RATE SHA3_256_DOMAIN_SEPARATOR);
  update self data := mkSha3_256 <$> Sponge.absorb (sha3_256_keccak self) data;
  sum self := squeeze_hash (sha3_256_keccak self) 32 |}.

#[export] Instance Sha3_512_Hasher : Hasher Sha3_512 := {|
  BLOCK_SIZE := SHA3_512_RATE; OUTPUT_SIZE := 64;
  new := mkSha3_512 (Sponge.new SHA3_512_RATE SHA3_512_DOMAIN_SEPARATOR);
  update self data := mkSha3_512 <$> Sponge.absorb (sha3_512_keccak self) data;
  sum self := squeeze_hash (sha3_512_keccak self) 64 |}.

Definition Shake128_new : Shake128 := mkShake128 (Sponge.new SHAKE128_RATE SHAKE128_DOMAIN_SEPARATOR).
Definition Shake256_new : Shake256 := mkShake256 (Sponge.new SHAKE256_RATE SHAKE256_DOMAIN_SEPARATOR).

#[export] Instance Shake128_Xof : Xof Shake128 := {|
  absorb self data := mkShake128 <$> Sponge.absorb (shake128_keccak self) data;
  squeeze self out := '(k, out) ← Sponge.squeeze (shake128_keccak self) out; Some (mkShake128 k, out) |}.

#[export] Instance Shake256_Xof : Xof Shake256 := {|
  absorb self data := mkShake256 <$> Sponge.absorb (shake256_keccak self) data;
  squeeze self out := '(k, out) ← Sponge.squeeze (shake256_keccak self) out; Some (mkShake256 k, out) |}.

#[export] Instance CShake256_Xof : Xof CShake256 := {|
  absorb self data := mkCShake256 <$> Sponge.absorb (cshake256_keccak self) data;
  squeeze self out := '(k, out) ← Sponge.squeeze (cshake256_keccak self) out; Some (mkCShake256 k, out) |}.

#[export] Instance Shake128_Hasher : Hasher Shake128 := {|
  BLOCK_SIZE := SHAKE128_RATE; OUTPUT_SIZE := 32; new := Shake128_new; update := absorb;
  sum self := squeeze_hash (shake128_keccak self) 32 |}.

#[export] Instance Shake256_Hasher : Hasher Shake256 := {|
  BLOCK_SIZE := SHAKE256_RATE; OUTPUT_SIZE := 64; new := Shake256_new; update := absorb;
  sum self := squeeze_hash (shake256_keccak self) 64 |}.

(** [Shake128::hash] and [Shake256::hash]. *)
Definition xof_hash {X : Type} `{!Xof X} (new : X) (data output : list Z) : option (list Z) :=
  hasher ← absorb new data;
  '(_, output) ← squeeze hasher output;
  Some output.

(** [x.len() * 8], with overflow checks. *)
Definition bit_length (x : list Z) : option Z :=
  let n := 8 * Z.of_nat (length x) in
  _ ← rassert (n <? 2 ^ 64); Some n.

Definition left_encode (x : Z) : option Bytes :=
  let bytes := to_be 8 x in
  let first_non_zero := default (length bytes - 1)%nat (position (fun b => negb (b =? 0)) bytes) in
  let n := (length bytes - first_non_zero)%nat in
  out ← Bytes_new 9;
  out ← push out (u8 (Z.of_nat n));
  tail ← slice bytes first_non_zero (length bytes);
  append out tail.

Definition right_encode (x : Z) : option Bytes :=
  bytes ← left_encode x;
  out ← deref bytes;
  n ← out !! 0%nat;
  b ← out !! 1%nat;
  out ← upd out 0 b;
  out ← for_loop 1 (Z.to_nat n) (fun i out => b ← out !! (i + 1)%nat; upd out i b) out;
  out ← upd out (Z.to_nat n) n;
  array ← copy_at (array bytes) 0 out;
  Some (mkBytes array (length_ bytes)).

(** [bytepad]'s zeros, when there are any. *)
Definition absorb_zeros {X : Type} (absorb : X -> list Z -> option X) (self : X) (rate total : nat) : option X :=
  let pad := ((rate - total mod rate) mod rate)%nat in
  if (0 <? pad)%nat then zeros ← slice (replicate rate 0) 0 pad; absorb self zeros else Some self.

Definition CShake256_new (function_name customization : list Z) : option CShake256 :=
  if bool_decide (function_name = []) && bool_decide (customization = []) then
    Some (mkCShake256 (Sponge.new SHAKE256_RATE SHAKE256_DOMAIN_SEPARATOR))
  else
    let keccak := Sponge.new SHAKE256_RATE CSHAKE256_DOMAIN_SEPARATOR in
    enc_w ← left_encode (Z.of_nat SHAKE256_RATE);
    w ← deref enc_w; keccak ← Sponge.absorb keccak w;
    bits ← bit_length function_name; enc_n ← left_encode bits;
    n ← deref enc_n; keccak ← Sponge.absorb keccak n;
    keccak ← Sponge.absorb keccak function_name;
    bits ← bit_length customization; enc_s ← left_encode bits;
    s ← deref enc_s; keccak ← Sponge.absorb keccak s;
    keccak ← Sponge.absorb keccak customization;
    let total := (len enc_w + len enc_n + length function_name + len enc_s + length customization)%nat in
    keccak ← absorb_zeros Sponge.absorb keccak SHAKE256_RATE total;
    Some (mkCShake256 keccak).

Definition CShake256_hash (data function_name customization output : list Z) : option (list Z) :=
  xof ← CShake256_new function_name customization;
  xof_hash xof data output.

Record Kmac256 := mkKmac256 { cshake : CShake256 }.

Definition Kmac256_new (key customization : list Z) : option Kmac256 :=
  cshake ← CShake256_new [75; 77; 65; 67] customization;
  enc_w ← left_encode (Z.of_nat KMAC256_RATE);
  w ← deref enc_w; cshake ← absorb cshake w;
  bits ← bit_length key; enc_key ← left_encode bits;
  k ← deref enc_key; cshake ← absorb cshake k;
  cshake ← absorb cshake key;
  let total := (len enc_w + len enc_key + length key)%nat in
  cshake ← absorb_zeros absorb cshake KMAC256_RATE total;
  Some (mkKmac256 cshake).

Definition Kmac256_update (self : Kmac256) (data : list Z) : option Kmac256 := mkKmac256 <$> absorb (cshake self) data.

Definition finalize_into (self : Kmac256) (output : list Z) : option (list Z) :=
  output_bits ← bit_length output;
  encoded_output_len ← right_encode output_bits;
  e ← deref encoded_output_len;
  cshake ← absorb (cshake self) e;
  '(_, output) ← squeeze cshake output;
  Some output.

Definition mac (key data customization output : list Z) : option (list Z) :=
  kmac ← Kmac256_new key customization;
  kmac ← Kmac256_update kmac data;
  finalize_into kmac output.

(** ** FIPS 202 and SP 800-185 *)

Definition sha3_256 (m : list Z) : list Z := sponge 24 136 0x06 m 32.
Definition sha3_512 (m : list Z) : list Z := sponge 24 72 0x06 m 64.
Definition shake128 (m : list Z) (n : nat) : list Z := sponge 24 168 0x1f m n.
Definition shake256 (m : list Z) (n : nat) : list Z := sponge 24 136 0x1f m n.

(** The smallest positive [n] with [x < 2 ^ (8 * n)]. *)
Fixpoint smallest (fuel n : nat) (x : Z) : nat :=
  match fuel with O => n | S fuel' => if x <? 256 ^ Z.of_nat n then n else smallest fuel' (S n) x end.
Definition left_enc (x : Z) : list Z := let n := smallest 8 1 x in Z.of_nat n :: to_be n x.
Definition right_enc (x : Z) : list Z := let n := smallest 8 1 x in to_be n x ++ [Z.of_nat n].

Definition encode_string (s : list Z) : list Z := left_enc (8 * Z.of_nat (length s)) ++ s.
Definition bytepad (x : list Z) (w : nat) : list Z :=
  let z := left_enc (Z.of_nat w) ++ x in z ++ replicate ((w - length z mod w) mod w) 0.

Definition cshake256 (m : list Z) (n : nat) (N S : list Z) : list Z :=
  if bool_decide (N = []) && bool_decide (S = []) then shake256 m n
  else sponge 24 136 0x04 (bytepad (encode_string N ++ encode_string S) 136 ++ m) n.

Definition kmac256 (key m : list Z) (n : nat) (S : list Z) : list Z :=
  cshake256 (bytepad (encode_string key) 136 ++ m ++ right_enc (8 * Z.of_nat n)) n [75; 77; 65; 67] S.

(** ** The functions on the sponge *)

Lemma rounds_ok : (24 <= 24)%nat.
Proof. done. Qed.

Lemma sponge_bytes r d m n : rate_ok r -> byte d -> bytes m -> bytes (sponge 24 r d m n).
Proof.
  intros Hr Hd Hm. unfold sponge, output. apply Forall_fmap, Forall_forall. intros k _. cbn. unfold output_byte.
  assert (Hok : bytes_ok (Nat.iter (k / r) (keccak_bytes 24) (absorbed_state (keccak_bytes 24) r (m ++ pad_bytes r d (length m))))).
  { apply iter_ok, absorbed_ok; [done|done|]. apply Forall_app. split; [done|by apply pad_is_bytes]. }
  destruct Hok as [Hl Hb]. unfold rate_ok in *. pose proof (Nat.mod_upper_bound k r ltac:(lia)).
  match type of Hl with length ?l = _ => destruct (lookup_lt_is_Some_2 l (k mod r)%nat) as [x Hx]; [lia|] end.
  rewrite (nth_lookup_Some _ _ _ x Hx). by apply (bytes_lookup _ _ _ Hb Hx).
Qed.

Lemma squeeze_hash_correct r d (k : KeccakSponge 24) m n : rate_ok r -> byte d -> absorbing r d k m -> (n <= 64)%nat ->
  wp (squeeze_hash k n) (fun t => as_ref t = Some (sponge 24 r d m n)).
Proof.
  intros Hr Hd Hk Hn. unfold squeeze_hash. unfold with_length. apply wp_bind, wp_bind, wp_assert; [apply andb_true_intro; split; apply Z.leb_le; lia|].
  apply wp_bind, wp_assert; [by apply Nat.leb_le|]. apply wp_ret. unfold deref, len. cbn [array length_].
  unfold u16. rewrite Z.mod_small, Nat2Z.id by lia. apply wp_bind, wp_slice; [lia|rewrite length_replicate; lia|].
  rewrite drop_0, Nat.sub_0_r, take_replicate. apply wp_bind. eapply wp_mono; [exact (squeeze_correct r d rounds_ok Hr Hd k m _ Hk)|].
  intros [k' out] [_ ->]. rewrite length_replicate, Nat.min_l by lia. set (o := sponge 24 r d m n).
  assert (Ho : length o = n) by apply length_output. apply wp_bind, wp_copy_at; [rewrite length_replicate; lia|]. rewrite take_0. cbn [app]. apply wp_ret.
  unfold as_ref, inner, deref, len. cbn [array length_]. rewrite Nat2Z.id. apply wp_eq, wp_slice; [lia|rewrite length_app; lia|].
  by rewrite drop_0, Nat.sub_0_r, <- Ho, take_app_length.
Qed.

Ltac rate := unfold rate_ok, SHA3_256_RATE, SHA3_512_RATE, SHAKE128_RATE, SHAKE256_RATE; lia.
Ltac delimiter := unfold byte; lia.

Lemma absorb_wrapped {X} (wrap : KeccakSponge 24 -> X) r d k m data (P : X -> Prop) : rate_ok r -> byte d -> absorbing r d k m -> bytes data ->
  (forall k', absorbing r d k' (m ++ data) -> P (wrap k')) -> wp (wrap <$> Sponge.absorb k data) P.
Proof.
  intros Hr Hd Hk Hdata HP. pose proof (sponge_absorb_correct r d rounds_ok Hr k m data Hk Hdata) as H.
  destruct (Sponge.absorb k data) as [k'|]; [by apply HP|done].
Qed.

Lemma squeeze_wrapped {X} (wrap : KeccakSponge 24 -> X) k out (P : KeccakSponge 24 * list Z -> Prop) (Q : X * list Z -> Prop) :
  wp (Sponge.squeeze k out) P -> (forall k' o, P (k', o) -> Q (wrap k', o)) -> wp ('(k, out) ← Sponge.squeeze k out; Some (wrap k, out)) Q.
Proof. intros H HQ. apply wp_bind. eapply wp_mono; [exact H|]. intros [k' o] Ho. apply wp_ret. by apply HQ. Qed.

#[export, refine] Instance Sha3_256_Laws : HasherLaws Sha3_256 := {|
  digest := sha3_256; absorbed self m := absorbing 136 0x06 (sha3_256_keccak self) m |}.
Proof.
  - vm_compute; lia.
  - apply absorbing_new; rate.
  - intros h m d Hh Hd. by apply (absorb_wrapped mkSha3_256 136 6 _ m); [rate|delimiter|exact Hh|exact Hd|].
  - intros h m Hh. by apply (squeeze_hash_correct 136 6); [rate|delimiter|exact Hh|lia].
  - intros m _. apply length_output.
  - intros m Hm. apply sponge_bytes; [rate|delimiter|done].
Defined.

#[export] Instance Sha3_256_Fits : HmacFits Sha3_256.
Proof. split; vm_compute; lia. Qed.

#[export, refine] Instance Sha3_512_Laws : HasherLaws Sha3_512 := {|
  digest := sha3_512; absorbed self m := absorbing 72 0x06 (sha3_512_keccak self) m |}.
Proof.
  - vm_compute; lia.
  - apply absorbing_new; rate.
  - intros h m d Hh Hd. by apply (absorb_wrapped mkSha3_512 72 6 _ m); [rate|delimiter|exact Hh|exact Hd|].
  - intros h m Hh. by apply (squeeze_hash_correct 72 6); [rate|delimiter|exact Hh|lia].
  - intros m _. apply length_output.
  - intros m Hm. apply sponge_bytes; [rate|delimiter|done].
Defined.

#[export] Instance Sha3_512_Fits : HmacFits Sha3_512.
Proof. split; vm_compute; lia. Qed.

(** Lawful, but with a block that [Hmac] has no room for. *)
#[export, refine] Instance Shake128_Laws : HasherLaws Shake128 := {|
  digest m := shake128 m 32; absorbed self m := absorbing 168 0x1f (shake128_keccak self) m |}.
Proof.
  - vm_compute; lia.
  - apply absorbing_new; rate.
  - intros h m d Hh Hd. by apply (absorb_wrapped mkShake128 168 31 _ m); [rate|delimiter|exact Hh|exact Hd|].
  - intros h m Hh. by apply (squeeze_hash_correct 168 31); [rate|delimiter|exact Hh|lia].
  - intros m _. apply length_output.
  - intros m Hm. apply sponge_bytes; [rate|delimiter|done].
Defined.

#[export, refine] Instance Shake256_Laws : HasherLaws Shake256 := {|
  digest m := shake256 m 64; absorbed self m := absorbing 136 0x1f (shake256_keccak self) m |}.
Proof.
  - vm_compute; lia.
  - apply absorbing_new; rate.
  - intros h m d Hh Hd. by apply (absorb_wrapped mkShake256 136 31 _ m); [rate|delimiter|exact Hh|exact Hd|].
  - intros h m Hh. by apply (squeeze_hash_correct 136 31); [rate|delimiter|exact Hh|lia].
  - intros m _. apply length_output.
  - intros m Hm. apply sponge_bytes; [rate|delimiter|done].
Defined.

#[export] Instance Shake256_Fits : HmacFits Shake256.
Proof. split; vm_compute; lia. Qed.

(** ** The extendable-output functions *)

(** The state that gives the output of a message. *)
Definition padded_state (r : nat) (d : Z) (m : list Z) : list Z :=
  absorbed_state (keccak_bytes 24) r (m ++ pad_bytes r d (length m)).
Definition give (r : nat) (d : Z) (k : KeccakSponge 24) (m : list Z) (n : nat) : Prop :=
  bytes m /\ squeezing r (padded_state r d m) k n.

Lemma give_squeeze r d k m n out : rate_ok r -> byte d -> give r d k m n ->
  wp (Sponge.squeeze k out) (fun '(k', out') => give r d k' m (n + length out) /\ out' = output (keccak_bytes 24) r (padded_state r d m) n (length out)).
Proof.
  intros Hr Hd [Hm Hk]. assert (Hs : bytes_ok (padded_state r d m)) by (apply absorbed_ok; [done|done|]; apply Forall_app; split; [done|by apply pad_is_bytes]).
  eapply wp_mono; [exact (squeeze_from_correct r rounds_ok Hr _ k n out Hs Hk)|]. intros [k' out'] [Hk' ->]. by repeat split; [|apply Hk'..].
Qed.

Lemma take_squeeze r d k m out : rate_ok r -> byte d -> absorbing r d k m ->
  wp (Sponge.squeeze k out) (fun '(k', out') => give r d k' m (length out) /\ out' = output (keccak_bytes 24) r (padded_state r d m) 0 (length out)).
Proof.
  intros Hr Hd Hk. pose proof Hk as (_ & _ & _ & Hm & _). eapply wp_mono; [exact (squeeze_correct r d rounds_ok Hr Hd k m out Hk)|].
  intros [k' out'] [Hk' ->]. done.
Qed.

Lemma give_absorb {X} (wrap : KeccakSponge 24 -> X) r d k m n data : give r d k m n -> wrap <$> Sponge.absorb k data = None.
Proof. intros [_ Hk]. by rewrite (absorb_squeezed r _ _ _ _ Hk). Qed.

#[export, refine] Instance Shake128_XofLaws : XofLaws Shake128 := {|
  seed := unit;
  taking x _ m := absorbing 168 0x1f (shake128_keccak x) m;
  giving x _ m n := give 168 0x1f (shake128_keccak x) m n;
  out_bytes _ m n l := output (keccak_bytes 24) 168 (padded_state 168 0x1f m) n l |}.
Proof.
  - intros _ m k n. apply length_output.
  - intros _ m k a b. apply output_add.
  - intros x _ m d Hx Hd. by apply (absorb_wrapped mkShake128 168 0x1f _ m); [rate|delimiter|exact Hx|exact Hd|].
  - intros x _ m out Hx. by eapply (squeeze_wrapped mkShake128); [apply (take_squeeze 168 0x1f _ m); [rate|delimiter|exact Hx]|].
  - intros x _ m k out Hx. by eapply (squeeze_wrapped mkShake128); [apply (give_squeeze 168 0x1f _ m k); [rate|delimiter|exact Hx]|].
  - intros x _ m k d Hx. exact (give_absorb mkShake128 168 0x1f _ m k d Hx).
Defined.

#[export, refine] Instance Shake256_XofLaws : XofLaws Shake256 := {|
  seed := unit;
  taking x _ m := absorbing 136 0x1f (shake256_keccak x) m;
  giving x _ m n := give 136 0x1f (shake256_keccak x) m n;
  out_bytes _ m n l := output (keccak_bytes 24) 136 (padded_state 136 0x1f m) n l |}.
Proof.
  - intros _ m k n. apply length_output.
  - intros _ m k a b. apply output_add.
  - intros x _ m d Hx Hd. by apply (absorb_wrapped mkShake256 136 0x1f _ m); [rate|delimiter|exact Hx|exact Hd|].
  - intros x _ m out Hx. by eapply (squeeze_wrapped mkShake256); [apply (take_squeeze 136 0x1f _ m); [rate|delimiter|exact Hx]|].
  - intros x _ m k out Hx. by eapply (squeeze_wrapped mkShake256); [apply (give_squeeze 136 0x1f _ m k); [rate|delimiter|exact Hx]|].
  - intros x _ m k d Hx. exact (give_absorb mkShake256 136 0x1f _ m k d Hx).
Defined.

(** cSHAKE starts from a delimiter and what it absorbed before the message. *)
#[export, refine] Instance CShake256_XofLaws : XofLaws CShake256 := {|
  seed := Z * list Z;
  taking x '(d, p) m := byte d /\ absorbing 136 d (cshake256_keccak x) (p ++ m);
  giving x '(d, p) m n := byte d /\ give 136 d (cshake256_keccak x) (p ++ m) n;
  out_bytes '(d, p) m n l := output (keccak_bytes 24) 136 (padded_state 136 d (p ++ m)) n l |}.
Proof.
  - intros [d p] m k n. apply length_output.
  - intros [d p] m k a b. apply output_add.
  - intros x [d p] m data [Hd Hx] Hdata. rewrite app_assoc. by apply (absorb_wrapped mkCShake256 136 d _ (p ++ m)); [rate|done|exact Hx|exact Hdata|].
  - intros x [d p] m out [Hd Hx]. eapply (squeeze_wrapped mkCShake256); [apply (take_squeeze 136 d _ (p ++ m)); [rate|done|exact Hx]|].
    by intros k' o [Hg ->].
  - intros x [d p] m k out [Hd Hx]. eapply (squeeze_wrapped mkCShake256); [apply (give_squeeze 136 d _ (p ++ m) k); [rate|done|exact Hx]|].
    by intros k' o [Hg ->].
  - intros x [d p] m k data [Hd Hx]. exact (give_absorb mkCShake256 136 d _ (p ++ m) k data Hx).
Defined.

(** A message absorbed in pieces, and output taken in pieces. *)
Section Pieces.
Context {X : Type} `{!Xof X, !XofLaws X}.

Fixpoint absorb_all (x : X) (pieces : list (list Z)) : option X :=
  match pieces with [] => Some x | d :: rest => x ← absorb x d; absorb_all x rest end.

Fixpoint squeeze_all (x : X) (outs : list (list Z)) : option (X * list Z) :=
  match outs with
  | [] => Some (x, [])
  | out :: rest => '(x, out) ← squeeze x out; '(x, outs) ← squeeze_all x rest; Some (x, out ++ outs)
  end.

Lemma absorb_all_taking x sd m pieces : taking x sd m -> Forall bytes pieces -> wp (absorb_all x pieces) (fun x' => taking x' sd (m ++ concat pieces)).
Proof.
  intros Hx Hp. revert x m Hx. induction Hp as [|d pieces Hd Hp IH]; intros x m Hx; simpl; [by rewrite app_nil_r|].
  apply wp_bind. eapply wp_mono; [exact (taking_absorb _ _ _ _ Hx Hd)|]. intros x' Hx'. rewrite app_assoc. by apply IH.
Qed.

Lemma squeeze_all_giving x sd m k outs : giving x sd m k ->
  wp (squeeze_all x outs) (fun '(x', out) => giving x' sd m (k + length (concat outs)) /\ out = out_bytes sd m k (length (concat outs))).
Proof.
  revert x k. induction outs as [|o outs IH]; intros x k Hx; simpl.
  - rewrite Nat.add_0_r. split; [done|]. symmetry. apply length_zero_iff_nil, out_length.
  - apply wp_bind. eapply wp_mono; [exact (giving_squeeze _ _ _ _ o Hx)|]. intros [x' out] [Hx' ->]. apply wp_bind. eapply wp_mono; [exact (IH _ _ Hx')|].
    intros [x2 out2] [Hx2 ->]. apply wp_ret. rewrite length_app, Nat.add_assoc. split; [done|]. by rewrite out_add.
Qed.

(** The pieces do not matter, and the two phases do not mix. *)
Lemma pieces_correct x sd pieces out outs : taking x sd [] -> Forall bytes pieces ->
  wp (x ← absorb_all x pieces; squeeze_all x (out :: outs)) (fun '(x', o) => o = out_bytes sd (concat pieces) 0 (length (concat (out :: outs))) /\
    forall d, absorb x' d = None).
Proof.
  intros Hx Hp. apply wp_bind. eapply wp_mono; [by apply (absorb_all_taking x sd [])|]. intros x1 Hx1. cbn [squeeze_all].
  apply wp_bind. eapply wp_mono; [exact (taking_squeeze _ _ _ out Hx1)|]. intros [x2 o2] [Hx2 ->]. apply wp_bind.
  eapply wp_mono; [exact (squeeze_all_giving _ _ _ _ outs Hx2)|]. intros [x3 o3] [Hx3 ->]. apply wp_ret. cbn [concat app] in *. rewrite length_app. split; [by rewrite out_add|].
  intros d. by eapply giving_absorb.
Qed.
End Pieces.

End Sha3.
