(* ===== verification/Sha3Theorems.v ===== *)
(** * crypto: what the SHA-3 functions compute

    The encodings of SP 800-185, cSHAKE and KMAC over the contract of the
    functions they call, and the properties of src/crypto/src/sha3. *)
From Stdlib Require Import ZArith Lia.
From stdpp Require Import base list numbers option.
From S2P Require Import Prelude Words ConstEq Hasher Hmac Keccak Sponge Sha3.
Import Sponge Hasher Sha3.

Module Sha3Theorems.

(** ** Encodings *)

Lemma smallest_is fuel n x k : (n <= k <= n + fuel)%nat -> x < 256 ^ Z.of_nat k -> (forall j, (n <= j < k)%nat -> 256 ^ Z.of_nat j <= x) ->
  smallest fuel n x = k.
Proof.
  revert n. induction fuel as [|fuel IH]; intros n Hk Hx Hj; simpl; [lia|]. destruct (Z.ltb_spec x (256 ^ Z.of_nat n)).
  - destruct (Nat.eq_dec n k); [done|]. specialize (Hj n ltac:(lia)). lia.
  - apply IH; [|done|intros j ?; apply Hj; lia]. destruct (Nat.eq_dec n k) as [->|]; lia.
Qed.

Lemma to_le_snoc n x : to_le (S n) x = to_le n x ++ [(x / 256 ^ Z.of_nat n) mod 256].
Proof.
  revert x. induction n as [|n IH]; intros x; [by simpl; rewrite Z.div_1_r|]. change (to_le (S (S n)) x) with (x mod 256 :: to_le (S n) (x / 256)).
  rewrite IH. cbn [to_le app]. do 3 f_equal. rewrite Nat2Z.inj_succ, Z.pow_succ_r, Z.div_div by lia. done.
Qed.

Lemma to_be_cons n x : to_be (S n) x = (x / 256 ^ Z.of_nat n) mod 256 :: to_be n x.
Proof. unfold to_be. by rewrite to_le_snoc, reverse_app. Qed.

Lemma length_be n x : length (to_be n x) = n.
Proof. unfold to_be. by rewrite length_reverse, length_to_le. Qed.

Lemma be_bytes n x : bytes (to_be n x).
Proof. apply bytes_reverse, bytes_to_le. Qed.

Lemma drop_to_be d k x : drop d (to_be (d + k) x) = to_be k x.
Proof. induction d as [|d IH]; [done|]. cbn [Nat.add]. by rewrite to_be_cons. Qed.

(** The position of the first byte that is not zero. *)
Lemma first_significant n x : 0 <= x < 256 ^ Z.of_nat (S n) ->
  exists k, (1 <= k <= S n)%nat /\ x < 256 ^ Z.of_nat k /\ (k = 1%nat \/ 256 ^ Z.of_nat (k - 1) <= x) /\
    default n (position (fun b => negb (b =? 0)) (to_be (S n) x)) = (S n - k)%nat.
Proof.
  induction n as [|n IH]; intros Hx.
  - exists 1%nat. split_and!; [lia|lia|lia|by left|]. cbn. by destruct (negb _).
  - rewrite to_be_cons. cbn [position]. assert (Hq : 0 <= x / 256 ^ Z.of_nat (S n) < 256).
    { split; [apply Z.div_pos; lia|]. apply Z.div_lt_upper_bound; [lia|]. rewrite (Nat2Z.inj_succ (S n)), Z.pow_succ_r in Hx by lia. lia. }
    rewrite Z.mod_small by done. destruct (Z.eqb_spec (x / 256 ^ Z.of_nat (S n)) 0) as [E|E]; cbn [negb].
    + apply Z.div_small_iff in E; [|lia]. destruct IH as (k & Hk & Hlt & Hle & Hp); [lia|]. exists k. split_and!; [lia|lia|done|done|].
      destruct (position _ _) as [p|]; cbn in *; lia.
    + exists (S (S n)). split_and!; [lia|lia|apply Hx| |cbn; lia]. right. replace (S (S n) - 1)%nat with (S n) by lia.
      destruct (Z.le_gt_cases (256 ^ Z.of_nat (S n)) x); [done|]. exfalso. apply E, Z.div_small. lia.
Qed.

Lemma left_encode_correct x : 0 <= x < 2 ^ 64 -> wp (left_encode x) (fun b => holds 9 b (left_enc x)).
Proof.
  intros Hx. destruct (first_significant 7 x Hx) as (k & Hk & Hlt & Hle & Hp). unfold left_encode, left_enc. cbv zeta.
  rewrite length_be. change (8 - 1)%nat with 7%nat. rewrite Hp. replace (8 - (8 - k))%nat with k by lia. assert (Hs : smallest 8 1 x = k).
  { apply smallest_is; [lia|done|]. intros j Hj. destruct Hle as [->|Hle]; [lia|]. apply (Z.le_trans _ (256 ^ Z.of_nat (k - 1))); [|done].
    apply Z.pow_le_mono_r; lia. }
  rewrite Hs. apply wp_bind. eapply wp_mono; [apply holds_new; lia|]. intros b Hb. apply wp_bind.
  eapply wp_mono; [apply (holds_push 9 b [] _ Hb); simpl; lia|]. intros b' Hb'. apply wp_bind, wp_slice; [lia|rewrite length_be; lia|].
  assert (Hd : drop (8 - k) (to_be 8 x) = to_be k x) by (replace 8%nat with (8 - k + k)%nat at 2 by lia; apply drop_to_be).
  rewrite Hd, take_ge by (rewrite length_be; lia). unfold u8 in Hb'. rewrite Z.mod_small in Hb' by lia.
  exact (holds_append 9 b' [Z.of_nat k] (to_be k x) Hb' ltac:(rewrite length_be; simpl; lia)).
Qed.

Lemma smallest_le fuel n x : (n <= smallest fuel n x <= n + fuel)%nat.
Proof. revert n. induction fuel as [|fuel IH]; intros n; simpl; [lia|]. destruct (x <? _); [lia|]. specialize (IH (S n)). lia. Qed.

Lemma left_enc_bytes x : bytes (left_enc x).
Proof. unfold left_enc. cbv zeta. pose proof (smallest_le 8 1 x). constructor; [unfold byte; lia|apply be_bytes]. Qed.

(** The count moves to the end. *)
Lemma rotate_count bs : (1 <= length bs <= 8)%nat ->
  (b ← (Z.of_nat (length bs) :: bs) !! 1%nat;
   out ← upd (Z.of_nat (length bs) :: bs) 0 b;
   out ← for_loop 1 (length bs) (fun i out => b ← out !! (i + 1)%nat; upd out i b) out;
   upd out (length bs) (Z.of_nat (length bs))) = Some (bs ++ [Z.of_nat (length bs)]).
Proof. intros H. do 9 (destruct bs as [|? bs]; [first [reflexivity|simpl in H; lia]|]). simpl in H. lia. Qed.

Lemma right_encode_correct x : 0 <= x < 2 ^ 64 -> wp (right_encode x) (fun b => holds 9 b (right_enc x)).
Proof.
  intros Hx. unfold right_encode. apply wp_bind. eapply wp_mono; [by apply left_encode_correct|]. intros b Hb.
  rewrite (holds_deref _ _ _ Hb). cbn [mbind option_bind]. unfold left_enc, right_enc in *. cbv zeta in *. pose proof (smallest_le 8 1 x) as Hle.
  set (k := smallest 8 1 x) in *. change ((Z.of_nat k :: to_be k x) !! 0%nat) with (Some (Z.of_nat k)). cbn [mbind option_bind]. rewrite Nat2Z.id.
  destruct Hb as (Ha & _ & Hl & Hle9 & Htake). cbn [length] in *. rewrite length_be in *.
  pose proof (rotate_count (to_be k x)) as Hr. rewrite length_be in Hr. specialize (Hr ltac:(lia)).
  destruct ((Z.of_nat k :: to_be k x) !! 1%nat) as [b1|]; [|done]. cbn [mbind option_bind] in *.
  destruct (upd _ 0 b1) as [o1|]; [|done]. cbn [mbind option_bind] in *. destruct (for_loop 1 k _ o1) as [o2|]; [|done]. cbn [mbind option_bind] in *.
  rewrite Hr. cbn [mbind option_bind]. assert (Ho : length (to_be k x ++ [Z.of_nat k]) = S k) by (rewrite length_app, length_be; simpl; lia).
  apply wp_bind, wp_copy_at; [lia|]. rewrite take_0. cbn [app]. apply wp_ret. unfold holds. cbn [array length_].
  rewrite length_app, length_drop, Ho. split_and!; [lia|lia|lia|lia|]. by rewrite <- Ho, take_app_length.
Qed.

Lemma right_enc_bytes x : bytes (right_enc x).
Proof. unfold right_enc. cbv zeta. pose proof (smallest_le 8 1 x). apply Forall_app. split; [apply be_bytes|constructor; [unfold byte; lia|constructor]]. Qed.

Lemma bit_length_correct x : 8 * Z.of_nat (length x) < 2 ^ 64 -> bit_length x = Some (8 * Z.of_nat (length x)).
Proof. intros H. unfold bit_length. apply wp_eq, wp_bind, wp_assert; [by apply Z.ltb_lt|]. done. Qed.

(** ** Encoded prefixes

    Over any [absorb] that extends the message. *)
Section Prefix.
Context {X : Type} (absorb : X -> list Z -> option X) (P : X -> list Z -> Prop).
Hypothesis step : forall x m d, P x m -> bytes d -> wp (absorb x d) (fun x' => P x' (m ++ d)).

Lemma zeros_correct x m rate total : (0 < rate)%nat -> P x m ->
  wp (absorb_zeros absorb x rate total) (fun x' => P x' (m ++ replicate ((rate - total mod rate) mod rate) 0)).
Proof.
  intros Hr Hx. unfold absorb_zeros. cbv zeta. set (n := ((rate - total mod rate) mod rate)%nat).
  assert (Hn : (n < rate)%nat) by (apply Nat.mod_upper_bound; lia). destruct (Nat.ltb_spec 0 n) as [H0|H0].
  - apply wp_bind, wp_slice; [lia|rewrite length_replicate; lia|]. rewrite drop_0, Nat.sub_0_r, take_replicate, Nat.min_l by lia.
    apply step; [done|]. apply Forall_replicate. unfold byte. lia.
  - replace n with 0%nat by lia. apply wp_ret. by rewrite app_nil_r.
Qed.

(** [left_encode] of a number, absorbed. *)
Lemma encoded_correct {R} x m v (k : X -> Bytes -> option R) (Q : R -> Prop) : 0 <= v < 2 ^ 64 -> P x m ->
  (forall x' e, P x' (m ++ left_enc v) -> len e = length (left_enc v) -> wp (k x' e) Q) ->
  wp (e ← left_encode v; d ← deref e; x' ← absorb x d; k x' e) Q.
Proof.
  intros Hv Hx Hk. apply wp_bind. eapply wp_mono; [by apply left_encode_correct|]. intros e He.
  rewrite (holds_deref _ _ _ He). cbn [mbind option_bind]. apply wp_bind. eapply wp_mono; [apply step; [exact Hx|apply left_enc_bytes]|].
  intros x' Hx'. apply Hk; [done|]. destruct He as (_ & _ & Hl & _ & _). unfold len. by rewrite Hl, Nat2Z.id.
Qed.
End Prefix.

Definition KMAC : list Z := [75; 77; 65; 67].

(** Lengths in bits fit a machine word. *)
Definition fits (x : list Z) : Prop := bytes x /\ 8 * Z.of_nat (length x) < 2 ^ 64.

(** What cSHAKE starts from. *)
Definition cshake_seed (N S : list Z) : Z * list Z :=
  if bool_decide (N = []) && bool_decide (S = []) then (0x1f, []) else (0x04, bytepad (encode_string N ++ encode_string S) 136).

Lemma cshake256_out m n N S : cshake256 m n N S = out_bytes (XofLaws := CShake256_XofLaws) (cshake_seed N S) m 0 n.
Proof. unfold cshake256, cshake_seed. by destruct (_ && _). Qed.

Lemma cshake_new_correct N S : fits N -> fits S -> wp (CShake256_new N S) (fun x => taking x (cshake_seed N S) []).
Proof.
  intros [HN HN64] [HS HS64]. unfold CShake256_new, cshake_seed. destruct (_ && _).
  - apply wp_ret. split; [unfold byte; lia|]. apply absorbing_new; [lia|]. unfold rate_ok, SHAKE256_RATE. lia.
  - cbv zeta. assert (Hr : rate_ok 136) by (unfold rate_ok; lia). change SHAKE256_RATE with 136%nat. change CSHAKE256_DOMAIN_SEPARATOR with 4.
    assert (step : forall (k : KeccakSponge 24) m d, absorbing 136 4 k m -> bytes d -> wp (Sponge.absorb k d) (fun k' => absorbing 136 4 k' (m ++ d)))
      by (intros; by apply sponge_absorb_correct).
    apply (encoded_correct _ _ step _ []); [lia|by apply absorbing_new|]. intros k1 w Hk1 Hw.
    cbv beta. rewrite (bit_length_correct N HN64). rewrite some_bind. cbv beta. eapply (encoded_correct _ _ step); [lia|exact Hk1|]. intros k2 n Hk2 Hn.
    apply wp_bind. eapply wp_mono; [exact (step _ _ _ Hk2 HN)|]. intros k3 Hk3.
    cbv beta. rewrite (bit_length_correct S HS64). rewrite some_bind. cbv beta. eapply (encoded_correct _ _ step); [lia|exact Hk3|]. intros k4 s Hk4 Hs.
    apply wp_bind. eapply wp_mono; [exact (step _ _ _ Hk4 HS)|]. intros k5 Hk5. apply wp_bind.
    eapply wp_mono; [exact (zeros_correct _ _ step _ _ 136 _ ltac:(lia) Hk5)|]. intros k6 Hk6. apply wp_ret. split; [unfold byte; lia|].
    rewrite app_nil_r. cbn [cshake256_keccak]. eapply eq_ind; [exact Hk6|]. unfold bytepad, encode_string. cbv zeta. rewrite Hw, Hn, Hs.
    cbn [app]. rewrite <- !app_assoc. rewrite !length_app. by rewrite !Nat.add_assoc.
Qed.

Lemma encoded_key_bytes key : bytes key -> bytes (bytepad (encode_string key) 136).
Proof.
  intros Hk. unfold bytepad, encode_string. cbv zeta. repeat apply Forall_app_2; [apply left_enc_bytes|apply left_enc_bytes|done|].
  apply Forall_replicate. unfold byte. lia.
Qed.

Lemma kmac_new_correct key S : fits key -> fits S -> wp (Kmac256_new key S) (fun x => taking (cshake x) (cshake_seed KMAC S) (bytepad (encode_string key) 136)).
Proof.
  intros [Hk Hk64] HS. unfold Kmac256_new. apply wp_bind.
  eapply wp_mono; [apply cshake_new_correct; [split; [repeat constructor; unfold byte; lia|simpl; lia]|exact HS]|]. intros x Hx.
  change KMAC256_RATE with 136%nat. cbv zeta.
  pose proof (fun x m d => taking_absorb (X := CShake256) x (cshake_seed KMAC S) m d) as step.
  eapply (encoded_correct _ _ step); [lia|exact Hx|]. intros x1 w Hx1 Hw.
  cbv beta. rewrite (bit_length_correct key Hk64). rewrite some_bind. cbv beta. eapply (encoded_correct _ _ step); [lia|exact Hx1|]. intros x2 e Hx2 He.
  apply wp_bind. eapply wp_mono; [exact (step _ _ _ Hx2 Hk)|]. intros x3 Hx3. apply wp_bind.
  eapply wp_mono; [exact (zeros_correct _ _ step _ _ 136 _ ltac:(lia) Hx3)|]. intros x4 Hx4. apply wp_ret. cbn [cshake].
  eapply eq_ind; [exact Hx4|]. unfold bytepad, encode_string. cbv zeta. rewrite Hw, He. cbn [app]. rewrite <- !app_assoc, !length_app.
  by rewrite !Nat.add_assoc.
Qed.

(** The message in pieces. *)
Fixpoint kmac_updates (self : Kmac256) (pieces : list (list Z)) : option Kmac256 :=
  match pieces with [] => Some self | d :: rest => self ← Kmac256_update self d; kmac_updates self rest end.

Definition kmac_pieces (key : list Z) (pieces : list (list Z)) (customization output : list Z) : option (list Z) :=
  kmac ← Kmac256_new key customization; kmac ← kmac_updates kmac pieces; finalize_into kmac output.

Lemma kmac_updates_correct x sd m pieces : taking (cshake x) sd m -> Forall bytes pieces ->
  wp (kmac_updates x pieces) (fun x' => taking (cshake x') sd (m ++ concat pieces)).
Proof.
  intros Hx Hp. revert x m Hx. induction Hp as [|d pieces Hd Hp IH]; intros x m Hx; simpl; [by rewrite app_nil_r|]. apply wp_bind.
  unfold Kmac256_update. pose proof (taking_absorb _ _ _ _ Hx Hd) as H. destruct (absorb (cshake x) d) as [c|]; [|done].
  rewrite app_assoc. apply (IH (mkKmac256 c)). exact H.
Qed.

Lemma kmac_correct key pieces S out : fits key -> fits S -> Forall bytes pieces -> 8 * Z.of_nat (length out) < 2 ^ 64 ->
  kmac_pieces key pieces S out = Some (kmac256 key (concat pieces) (length out) S).
Proof.
  intros Hk HS Hp Ho. apply wp_eq. unfold kmac_pieces. apply wp_bind. eapply wp_mono; [by apply kmac_new_correct|]. intros x Hx.
  apply wp_bind. eapply wp_mono; [exact (kmac_updates_correct x _ _ pieces Hx Hp)|]. intros x1 Hx1. unfold finalize_into.
  cbv beta. rewrite (bit_length_correct out Ho). rewrite some_bind. cbv beta. apply wp_bind. eapply wp_mono; [apply right_encode_correct; lia|]. intros e He.
  rewrite (holds_deref _ _ _ He). cbn [mbind option_bind]. apply wp_bind. eapply wp_mono; [exact (taking_absorb _ _ _ _ Hx1 (right_enc_bytes _))|].
  intros c Hc. apply wp_bind. eapply wp_mono; [exact (taking_squeeze _ _ _ out Hc)|]. intros [c' o] [_ ->]. apply wp_ret.
  unfold kmac256. by rewrite cshake256_out, <- app_assoc.
Qed.

(** ** The delimiters *)

Lemma sha3_delimits : delimits 0x06 [false; true].
Proof. by vm_compute; repeat split; repeat constructor. Qed.
Lemma shake_delimits : delimits 0x1f [true; true; true; true].
Proof. by vm_compute; repeat split; repeat constructor. Qed.
Lemma cshake_delimits : delimits 0x04 [false; false].
Proof. by vm_compute; repeat split; repeat constructor. Qed.

(** ** Claims *)

(** C9: SHA-3 computes FIPS 202 and cSHAKE SP 800-185.  The permutation is
    Keccak-p on the bits of the lanes, with the offsets of the walk and the
    constants of the shift register; the padding is, in bits, the suffix of the
    function and pad10*1.  A message absorbed in any pieces gives the digest of
    the whole message; an extendable-output function squeezed in any pieces
    gives consecutive parts of one output, panics nowhere, and absorbs nothing
    afterwards. *)
Theorem sha3_correct (pieces : list (list Z)) (out : list Z) (outs : list (list Z)) (N S : list Z) :
  Forall bytes pieces -> fits N -> fits S ->
  let m := concat pieces in
  let n := length (concat (out :: outs)) in
  stream Sha3_256 pieces = Some (sha3_256 m) /\
  stream Sha3_512 pieces = Some (sha3_512 m) /\
  wp (x ← absorb_all Shake128_new pieces; squeeze_all x (out :: outs)) (fun '(x, o) => o = shake128 m n /\ forall d, absorb x d = None) /\
  wp (x ← absorb_all Shake256_new pieces; squeeze_all x (out :: outs)) (fun '(x, o) => o = shake256 m n /\ forall d, absorb x d = None) /\
  wp (x ← CShake256_new N S; x ← absorb_all x pieces; squeeze_all x (out :: outs))
    (fun '(x, o) => o = cshake256 m n N S /\ forall d, absorb x d = None) /\
  (forall nr st, (nr <= 24)%nat -> Keccak.state_ok st -> Keccak.p1600_soft nr st = Some (Keccak.keccak_p nr st)) /\
  (forall r d suffix k, (r, d, suffix) ∈ [(136%nat, 0x06, [false; true]); (72%nat, 0x06, [false; true]); (168%nat, 0x1f, [true; true; true; true]);
      (136%nat, 0x1f, [true; true; true; true]); (136%nat, 0x04, [false; false])] ->
    bits_of_bytes (pad_bytes r d k) = suffix ++ pad10star1 (8 * Z.of_nat r) (8 * Z.of_nat k + Z.of_nat (length suffix))).
Proof.
  intros Hp HN HS m n. split_and!.
  - exact (stream_digest (H := Sha3_256) pieces Hp).
  - exact (stream_digest (H := Sha3_512) pieces Hp).
  - apply (pieces_correct Shake128_new (tt : @seed _ _ Shake128_XofLaws)); [|done].
    apply (absorbing_new (ROUNDS := 24) 168 0x1f rounds_ok). unfold rate_ok. lia.
  - apply (pieces_correct Shake256_new (tt : @seed _ _ Shake256_XofLaws)); [|done].
    apply (absorbing_new (ROUNDS := 24) 136 0x1f rounds_ok). unfold rate_ok. lia.
  - apply wp_bind. eapply wp_mono; [exact (cshake_new_correct N S HN HS)|]. intros x Hx. rewrite cshake256_out. by apply pieces_correct.
  - intros nr st Hnr Hst. by apply Keccak.p1600_keccak_p.
  - intros r d suffix k Hin. rewrite !elem_of_cons in Hin.
    destruct Hin as [E|[E|[E|[E|[E|E%elem_of_nil]]]]]; try done; injection E as -> -> ->; apply pad_correct; try lia;
      first [exact sha3_delimits|exact shake_delimits|exact cshake_delimits].
Qed.

(** C11: KMAC256 is that of SP 800-185: with a key, a customization and a
    message of which the lengths in bits fit a word, in any pieces, it returns
    cSHAKE256 of the padded and encoded key, the message and the encoded output
    length, filling the whole output; [mac] is the case of one piece. *)
Theorem kmac256_correct (key S out : list Z) (pieces : list (list Z)) :
  fits key -> fits S -> Forall bytes pieces -> 8 * Z.of_nat (length out) < 2 ^ 64 ->
  kmac_pieces key pieces S out = Some (kmac256 key (concat pieces) (length out) S) /\
  mac key (concat pieces) S out = Some (kmac256 key (concat pieces) (length out) S) /\
  length (kmac256 key (concat pieces) (length out) S) = length out.
Proof.
  intros Hk HS Hp Ho. split_and!; [by apply kmac_correct| |].
  - assert (Hm : Forall bytes [concat pieces]) by (constructor; [by apply Forall_concat|constructor]).
    pose proof (kmac_correct key [concat pieces] S out Hk HS Hm Ho) as H. cbn [concat] in H. rewrite app_nil_r in H. rewrite <- H.
    unfold mac, kmac_pieces. destruct (Kmac256_new key S) as [k|]; [|done]. cbn [mbind option_bind kmac_updates]. by destruct (Kmac256_update k _).
  - unfold kmac256. rewrite cshake256_out. apply out_length.
Qed.

(** [Hmac] reserves [MAX_HASH_BLOCK_SIZE] bytes for a block; SHAKE128, a
    lawful [Hasher] too, has longer ones, and no key is accepted. *)
Theorem hmac_shake128_panics key : Hmac.new Shake128 key = None.
Proof. apply Hmac.hmac_large_block. vm_compute. lia. Qed.

(** ** Witnesses *)

(** The bytes of a literal are checked by evaluation. *)
Ltac byte_list := apply (bool_decide_unpack _); vm_compute; exact I.

(** "abc", its bytes one at a time. *)
Example sha3_correct_witness :
  stream Sha3_256 [[97]; []; [98]; [99]] = Some (to_be 32 0x3a985da74fe225b2045c172d6bd390bd855f086e3e9d525b46bfe24511431532).
Proof.
  pose proof (sha3_correct [[97]; []; [98]; [99]] [0; 0] [[0]; []; [0]] [] []) as H. cbv zeta in H.
  destruct H as [H _]; [byte_list|split; [byte_list|done]|split; [byte_list|done]|].
  etransitivity; [exact H|]. rewrite <- H. vm_compute. reflexivity.
Defined.

(** Sample 4 of the standard, "My Tagged Application", the message in two
    pieces. *)
Example kmac256_correct_witness :
  kmac_pieces (to_be 32 0x404142434445464748494a4b4c4d4e4f505152535455565758595a5b5c5d5e5f) [[0; 1]; [2; 3]]
    (to_be 21 0x4d7920546167676564204170706c69636174696f6e) (replicate 64 0) =
  Some (to_be 64 0x20c570c31346f703c9ac36c61c03cb64c3970d0cfc787e9b79599d273a68d2f7f69d4cc3de9d104a351689f27cf6f5951f0103f33f4f24871024d9c27773a8dd).
Proof.
  pose proof (kmac256_correct (to_be 32 0x404142434445464748494a4b4c4d4e4f505152535455565758595a5b5c5d5e5f)
    (to_be 21 0x4d7920546167676564204170706c69636174696f6e) (replicate 64 0) [[0; 1]; [2; 3]]) as H.
  destruct H as [H _]; [split; [byte_list|done]|split; [byte_list|done]|byte_list|vm_compute; reflexivity|].
  rewrite H, <- H. vm_compute. reflexivity.
Defined.

End Sha3Theorems.
