(* ===== verification/Factorization.v ===== *)
(** * memmem: words, periods and critical factorizations

    The combinatorics behind src/memmem/src/two_way.rs, which its comment states
    without proof: where the maximal suffixes of a word for an order and for
    its opposite start, the later start is a critical position. *)
From Stdlib Require Import ZArith Lia.
From stdpp Require Import base list numbers option.
From S2P Require Import Prelude.

Module Factorization.

Section Words.
(** A word, by its letters and its length; [R] orders letters strictly. *)
Variable f : nat -> Z.
Variable n : nat.

Definition periodic (d : nat) : Prop := forall k, (d <= k < n)%nat -> f k = f (k - d)%nat.

(** [d] is a local period at [c]: a square of [d] letters fits around it, as
    far as the word reaches. *)
Definition local_period (c d : nat) : Prop := forall k, (c <= k < c + d)%nat -> (d <= k < n)%nat -> f k = f (k - d)%nat.

Lemma periodic_local c d : periodic d -> local_period c d.
Proof. intros H k _ Hk. by apply H. Qed.

(** In a word with period [d], letters a multiple of [d] apart agree. *)
Lemma periodic_between lo hi d q k : (forall k, (lo + d <= k < hi)%nat -> f k = f (k - d)%nat) ->
  (lo + q * d <= k < hi)%nat -> f k = f (k - q * d)%nat.
Proof.
  intros H. revert k. induction q as [|q IH]; intros k Hk; [by rewrite Nat.mul_0_l, Nat.sub_0_r|].
  rewrite H by lia. rewrite IH by lia. f_equal. lia.
Qed.

Section Order.
Variable R : Z -> Z -> Prop.
Hypothesis R_irrefl : forall a, ~ R a a.
Hypothesis R_trans : forall a b c, R a b -> R b c -> R a c.

(** The suffix at [s] and that at [i] differ, first at a place before [b] in
    the former, where the former is smaller. *)
Definition differs (s i b : nat) : Prop := exists t, (s + t < b)%nat /\ (i + t < n)%nat /\
  (forall u, (u < t)%nat -> f (s + u)%nat = f (i + u)%nat) /\ R (f (s + t)%nat) (f (i + t)%nat).

(** The suffix at [s] is smaller than that at [i], a prefix counting as
    smaller. *)
Definition below (s i : nat) : Prop :=
  differs s i n \/ (i < s)%nat /\ forall u, (s + u < n)%nat -> f (s + u)%nat = f (i + u)%nat.

Definition maximal (c : nat) : Prop := forall s, (s < n)%nat -> s <> c -> below s c.

Lemma differs_trans s i j b : (b <= n)%nat -> differs s i b -> differs i j n -> differs s j b.
Proof.
  intros Hb (t1 & H1 & H1' & E1 & R1) (t2 & H2 & H2' & E2 & R2). exists (Nat.min t1 t2).
  split; [lia|]. split; [lia|]. split; [intros u Hu; rewrite E1, E2 by lia; done|].
  destruct (Nat.lt_trichotomy t1 t2) as [Hlt|[->|Hgt]].
  - rewrite Nat.min_l by lia. by rewrite <- E2 by lia.
  - rewrite Nat.min_id. by eapply R_trans.
  - rewrite Nat.min_r by lia. by rewrite E1 by lia.
Qed.

Lemma differs_asym s i : differs s i n -> differs i s n -> False.
Proof.
  intros (t1 & _ & _ & E1 & R1) (t2 & _ & _ & E2 & R2). destruct (Nat.lt_trichotomy t1 t2) as [Hlt|[->|Hgt]].
  - rewrite E2 in R1 by lia. by eapply R_irrefl.
  - eapply R_irrefl. by eapply R_trans.
  - rewrite E1 in R2 by lia. by eapply R_irrefl.
Qed.

(** ** The state of the search for the maximal suffix

    [i] is the candidate, [p] the period of what has been read of its suffix,
    [j] starts its last full repetition and [k] letters after [j] are read. *)
Definition scanned (i j k p : nat) : Prop :=
  (i < j /\ j + k <= n /\ k < p)%nat /\
  (exists q, j = i + S q * p)%nat /\
  (forall t, (i + p <= t < j + k)%nat -> f t = f (t - p)%nat) /\
  (forall s, (s < i)%nat -> differs s i n) /\
  (forall s, (0 < s < p)%nat -> differs (i + s) i (i + p)).

Section Scan.
Variables i j k p : nat.
Hypothesis Hscan : scanned i j k p.
Hypothesis Hmore : (j + k < n)%nat.

Lemma scan_multiple q t : (i + q * p <= t < j + k)%nat -> f t = f (t - q * p)%nat.
Proof. destruct Hscan as (_ & _ & Hper & _). exact (periodic_between i (j + k) p q t Hper). Qed.

(** Starts that are not a whole number of periods away lose early. *)
Lemma scan_between q r : (0 < r < p)%nat -> (i + q * p + p <= j + k)%nat -> differs (i + q * p + r) i (i + q * p + p).
Proof.
  clear Hmore. intros Hr Hq. destruct Hscan as (_ & _ & _ & _ & Hl). destruct (Hl r Hr) as (t & Ht & Ht' & E & HR). exists t. split; [lia|].
  split; [lia|].
  assert (Hcopy : forall u, (r + u < p)%nat -> f (i + q * p + r + u)%nat = f (i + r + u)%nat).
  { intros u Hu. rewrite (scan_multiple q) by lia. f_equal. lia. }
  split; [|by rewrite Hcopy by lia]. intros u Hu. rewrite Hcopy by lia. by apply E.
Qed.

(** Reading a letter that is smaller than its copy: one long period. *)
Lemma scan_smaller : R (f (j + k)%nat) (f (i + k)%nat) -> scanned i (j + k + 1) 0 (j + k + 1 - i).
Proof.
  intros HR. destruct Hscan as ((Hij & Hn & Hk) & [Q HQ] & Hper & Hbefore & Hl). split; [lia|]. split; [exists 0%nat; lia|].
  split; [intros t Ht; lia|]. split; [done|]. intros s Hs. replace (i + (j + k + 1 - i))%nat with (j + k + 1)%nat by lia.
  pose proof (Nat.div_mod_eq s p) as Hdm. pose proof (Nat.mod_upper_bound s p ltac:(lia)) as Hr.
  set (q := (s / p)%nat) in *. set (r := (s mod p)%nat) in *. assert (Hqle : (q <= S Q)%nat) by nia.
  destruct (Nat.eq_dec r 0%nat) as [Hr0|Hr0].
  - assert (Hq : (0 < q)%nat) by nia. exists (j + k - (i + s))%nat. split; [lia|]. split; [lia|]. split.
    + intros u Hu. rewrite (scan_multiple q) by nia. f_equal. nia.
    + replace (i + s + (j + k - (i + s)))%nat with (j + k)%nat by nia.
      replace (f (i + (j + k - (i + s)))%nat) with (f (i + k)%nat); [done|].
      rewrite (scan_multiple (S Q - q) (i + (j + k - (i + s)))%nat) by nia. f_equal. nia.
  - destruct (Nat.eq_dec q (S Q)) as [Heq|Hlt].
    + assert (Hs' : s = (S Q * p + r)%nat) by nia. assert (Hrk : (r <= k)%nat) by nia.
      destruct (Hl r ltac:(lia)) as (t & Ht & Ht' & E & HRt).
      assert (Hcopy : forall u, (r + u < k)%nat -> f (i + s + u)%nat = f (i + r + u)%nat).
      { intros u Hu. rewrite (scan_multiple (S Q)) by nia. f_equal. nia. }
      destruct (Nat.lt_ge_cases (r + t) k) as [Hin|Hout].
      * exists t. split; [nia|]. split; [lia|]. split; [|by rewrite Hcopy]. intros u Hu. rewrite Hcopy by lia. by apply E.
      * exists (k - r)%nat. split; [nia|]. split; [lia|]. split.
        { intros u Hu. rewrite Hcopy by lia. apply E. lia. }
        replace (i + s + (k - r))%nat with (j + k)%nat by nia. replace (i + k)%nat with (i + r + (k - r))%nat in HR by lia.
        destruct (Nat.eq_dec (k - r)%nat t) as [Ekt|Hne]; [rewrite Ekt in *; exact (R_trans _ _ _ HR HRt)|]. by rewrite E in HR by lia.
    + destruct (scan_between q r ltac:(lia) ltac:(nia)) as (t & Ht & Ht' & E & HRt). exists t.
      replace (i + s)%nat with (i + q * p + r)%nat by nia. split; [nia|]. done.
Qed.

(** Reading the same letter: on along the period. *)
Lemma scan_equal : f (j + k)%nat = f (i + k)%nat ->
  if (k + 1 =? p)%nat then scanned i (j + k + 1) 0 p else scanned i j (k + 1) p.
Proof.
  intros HE. destruct Hscan as ((Hij & Hn & Hk) & [Q HQ] & Hper & Hbefore & Hl).
  assert (Hper' : forall t, (i + p <= t < j + k + 1)%nat -> f t = f (t - p)%nat).
  { intros t Ht. destruct (Nat.eq_dec t (j + k)%nat) as [->|]; [|apply Hper; lia].
    rewrite HE. destruct Q as [|Q]; [f_equal; lia|]. rewrite (scan_multiple (S Q) (j + k - p)) by nia. f_equal. nia. }
  destruct (Nat.eqb_spec (k + 1) p) as [Hp|Hp].
  - split; [lia|]. split; [exists (S Q); lia|]. split; [intros t Ht; apply Hper'; lia|]. done.
  - split; [lia|]. split; [by exists Q|]. split; [intros t Ht; apply Hper'; lia|]. done.
Qed.

(** Reading a larger letter: every start before [j] loses to [j]. *)
Lemma scan_larger : R (f (i + k)%nat) (f (j + k)%nat) -> scanned j (j + 1) 0 1.
Proof.
  intros HR. destruct Hscan as ((Hij & Hn & Hk) & [Q HQ] & Hper & Hbefore & Hl).
  assert (Hrep : forall q, (q <= Q)%nat -> differs (i + q * p) j n).
  { intros q Hq. exists k. split; [nia|]. split; [lia|]. assert (Hc : forall u, (u <= k)%nat -> f (i + q * p + u)%nat = f (i + u)%nat).
    { intros u Hu. rewrite (scan_multiple q) by nia. f_equal. lia. }
    split; [|by rewrite Hc]. intros u Hu. rewrite Hc by lia. symmetry. rewrite (scan_multiple (S Q)) by nia. f_equal. nia. }
  pose proof (Hrep 0%nat ltac:(lia)) as H0. rewrite Nat.mul_0_l, Nat.add_0_r in H0.
  split; [lia|]. split; [exists 0%nat; lia|]. split; [intros t Ht; lia|]. split; [|intros s Hs; lia].
  intros s Hs. destruct (Nat.lt_ge_cases s i) as [Hlt|Hge]; [by eapply differs_trans; [lia|apply Hbefore|]|].
  pose proof (Nat.div_mod_eq (s - i) p) as Hdm. pose proof (Nat.mod_upper_bound (s - i) p ltac:(lia)) as Hr.
  set (q := ((s - i) / p)%nat) in *. set (r := ((s - i) mod p)%nat) in *. assert (Hq : (q <= Q)%nat) by nia.
  destruct (Nat.eq_dec r 0%nat) as [Hr0|Hr0]; [replace s with (i + q * p)%nat by nia; by apply Hrep|].
  apply (differs_trans s i j n); [lia| |exact H0]. replace s with (i + q * p + r)%nat by nia.
  destruct (scan_between q r ltac:(lia) ltac:(nia)) as (t & Ht & Hrest). exists t. split; [nia|done].
Qed.
End Scan.

(** Everything read: the suffix is maximal and [p] is its least period. *)
Lemma scanned_all i j k p : scanned i j k p -> (n <= j + k)%nat ->
  maximal i /\ (0 < p <= n - i)%nat /\ (forall t, (i + p <= t < n)%nat -> f t = f (t - p)%nat) /\
  (forall d, (0 < d < p)%nat -> (forall t, (i + d <= t < n)%nat -> f t = f (t - d)%nat) -> False).
Proof.
  intros Hscan Hall. assert (Hscan' := Hscan). destruct Hscan as ((Hij & Hn & Hk) & [Q HQ] & Hper & Hbefore & Hl).
  assert (Hend : (j + k = n)%nat) by lia. rewrite Hend in Hper. split; [|split; [nia|split; [done|]]].
  - intros s Hs Hne. destruct (Nat.lt_ge_cases s i) as [Hlt|Hge]; [left; by apply Hbefore|].
    pose proof (Nat.div_mod_eq (s - i) p) as Hdm. pose proof (Nat.mod_upper_bound (s - i) p ltac:(lia)) as Hr.
    set (q := ((s - i) / p)%nat) in *. set (r := ((s - i) mod p)%nat) in *. assert (Hq : (q <= S Q)%nat) by nia.
    destruct (Nat.eq_dec r 0%nat) as [Hr0|Hr0].
    { right. split; [lia|]. intros u Hu. rewrite (scan_multiple i j k p Hscan' q) by nia. f_equal. nia. }
    destruct (Nat.eq_dec q (S Q)) as [Heq|Hlt].
    + destruct (Hl r ltac:(lia)) as (t & Ht & Ht' & E & HR).
      assert (Hcopy : forall u, (s + u < n)%nat -> f (s + u)%nat = f (i + r + u)%nat).
      { intros u Hu. rewrite (scan_multiple i j k p Hscan' (S Q)) by nia. f_equal. nia. }
      destruct (Nat.lt_ge_cases (s + t) n) as [Hin|Hout].
      * left. exists t. split; [lia|]. split; [lia|]. split; [|by rewrite Hcopy]. intros u Hu. rewrite Hcopy by lia. by apply E.
      * right. split; [lia|]. intros u Hu. rewrite Hcopy by lia. apply E. lia.
    + left. destruct (scan_between i j k p Hscan' q r ltac:(lia) ltac:(nia)) as (t & Ht & Hrest). exists t.
      replace s with (i + q * p + r)%nat by nia. split; [nia|done].
  - intros d Hd Hper'. destruct (Hl d Hd) as (t & Ht & Ht' & _ & HR). rewrite (Hper' (i + d + t)%nat) in HR by nia.
    replace (i + d + t - d)%nat with (i + t)%nat in HR by lia. by eapply R_irrefl.
Qed.
End Order.

(** ** The critical factorization theorem

    For two opposite orders, the later of the two starts of a maximal suffix
    admits no local period but the periods of the word beyond it. *)
Section Critical.
Variables R R' : Z -> Z -> Prop.
Hypothesis R_irrefl : forall a, ~ R a a.
Hypothesis R_trans : forall a b c, R a b -> R b c -> R a c.
Hypothesis R'_irrefl : forall a, ~ R' a a.
Hypothesis opposite : forall a b, R a b -> R' a b -> False.
Variables c c' : nat.
Hypothesis Hc : (c' <= c < n)%nat.
Hypothesis Hmax : maximal R c.
Hypothesis Hmax' : maximal R' c'.

(** A local period is longer than the part before the critical position. *)
Lemma critical_beyond d : (0 < d)%nat -> local_period c d -> (c < d)%nat.
Proof.
  intros Hd Hloc. destruct (Nat.lt_ge_cases c d) as [|Hle]; [done|]. exfalso.
  destruct (Hmax (c - d)%nat ltac:(lia) ltac:(lia)) as [(t & Ht & Ht' & E & HR)|[Hlt _]]; [|lia].
  destruct (Nat.lt_ge_cases t d) as [Hin|Hout].
  { rewrite <- (Nat.add_sub (c - d + t)%nat d), <- (Hloc (c - d + t + d)%nat) in HR by lia.
    replace (c - d + t + d)%nat with (c + t)%nat in HR by lia. by eapply R_irrefl. }
  assert (Hback : differs R c (c + d) n).
  { exists (t - d)%nat. split; [lia|]. split; [lia|]. split.
    - intros u Hu. pose proof (E (d + u)%nat ltac:(lia)) as Eu. replace (c - d + (d + u))%nat with (c + u)%nat in Eu by lia.
      by rewrite Eu, Nat.add_assoc.
    - replace (c - d + t)%nat with (c + (t - d))%nat in HR by lia. by replace (c + d + (t - d))%nat with (c + t)%nat by lia. }
  destruct (Hmax (c + d)%nat ltac:(lia) ltac:(lia)) as [Hfwd|[_ Hpre]].
  - exact (differs_asym R R_irrefl R_trans _ _ Hfwd Hback).
  - destruct Hback as (t2 & H2 & H2' & _ & HR2). rewrite Hpre in HR2 by lia. by eapply R_irrefl.
Qed.

Theorem critical_position d : (0 < d)%nat -> local_period c d -> (c < d)%nat /\ periodic d.
Proof.
  intros Hd Hloc. pose proof (critical_beyond d Hd Hloc) as Hcd. split; [done|].
  intros k Hk. destruct (Nat.lt_ge_cases k (c + d)) as [Hlt|Hge]; [apply Hloc; lia|].
  destruct (Hmax (c + d)%nat ltac:(lia) ltac:(lia)) as [(t & Ht & Ht' & E & HR)|[_ Hpre]].
  2:{ replace k with (c + d + (k - (c + d)))%nat at 1 by lia. rewrite Hpre by lia. f_equal. lia. }
  exfalso. set (e := (c - c')%nat).
  assert (Hsame : forall u, (u < e + t)%nat -> f (c' + d + u)%nat = f (c' + u)%nat).
  { intros u Hu. destruct (Nat.lt_ge_cases u e) as [Hin|Hout].
    - rewrite (Hloc (c' + d + u)%nat) by lia. f_equal. lia.
    - pose proof (E (u - e)%nat ltac:(lia)) as Eu. replace (c + d + (u - e))%nat with (c' + d + u)%nat in Eu by lia. rewrite Eu. f_equal. lia. }
  replace (c + d + t)%nat with (c' + d + (e + t))%nat in HR, Ht by lia. replace (c + t)%nat with (c' + (e + t))%nat in HR, Ht' by lia.
  destruct (Hmax' (c' + d)%nat ltac:(lia) ltac:(lia)) as [(t' & H1 & H2 & E' & HR')|[_ Hpre]].
  - destruct (Nat.lt_trichotomy t' (e + t)) as [Hlt|[->|Hgt]].
    + rewrite Hsame in HR' by lia. by eapply R'_irrefl.
    + by eapply opposite.
    + rewrite E' in HR by lia. by eapply R_irrefl.
  - rewrite Hpre in HR by lia. by eapply R_irrefl.
Qed.

(** If the least period [p] of the suffix at the critical position is no
    longer than a period of the word that fits in the suffix, it is itself a
    period of the word. *)
Lemma suffix_period d p : (0 < p)%nat -> (forall t, (c + p <= t < n)%nat -> f t = f (t - p)%nat) ->
  (forall e, (0 < e < p)%nat -> (forall t, (c + e <= t < n)%nat -> f t = f (t - e)%nat) -> False) ->
  (0 < d <= n - c)%nat -> periodic d -> periodic p.
Proof.
  intros Hp Hper Hmin Hd Hperd.
  pose proof (Nat.div_mod_eq d p) as Hdm. pose proof (Nat.mod_upper_bound d p ltac:(lia)) as Hr.
  assert (Hred : forall q e, (0 < e)%nat -> (d = q * p + e)%nat -> periodic e).
  { intros q e He Hde. apply critical_position; [done|]. intros k Hk1 Hk2.
    transitivity (f (k + q * p)%nat).
    - symmetry. rewrite (periodic_between c n p q) by (done || lia). f_equal. lia.
    - rewrite (Hperd (k + q * p)%nat) by lia. f_equal. lia. }
  set (q := (d / p)%nat) in *. set (r := (d mod p)%nat) in *. clearbody q r. destruct (Nat.eq_dec r 0%nat) as [->|Hnz].
  - destruct q as [|q]; [lia|]. apply (Hred q p Hp). lia.
  - exfalso. apply (Hmin r); [lia|]. intros t Ht. apply (Hred q r); lia.
Qed.
End Critical.
End Words.

End Factorization.
