(* ===== verification/Memmem.v ===== *)
(** * memmem: two-way substring search

    src/memmem/src/two_way.rs and the trait of lib.rs.  The index arithmetic is
    on [nat]: the source relies on slices being shorter than [isize::MAX], so
    that no sum overflows; differences are checked. *)
From Stdlib Require Import ZArith Lia.
From stdpp Require Import base list numbers option.
From S2P Require Import Prelude Words Factorization.
Import Factorization.

Module Memmem.

(** ** The code *)

Record TwoWaySearcher := mkSearcher {
  needle : list Z; crit_pos : nat; period : nat; byteset : Z; is_long : bool }.

Record TwoWayState := mkState { position : nat; memory : Z }.

Definition usize_MAX : Z := 2 ^ 64 - 1.

(** [a - b] on [usize]. *)
Definition usize_sub (a b : nat) : option nat := _ ← rassert (b <=? a)%nat; Some (a - b)%nat.

(** The loop state of [maximal_suffix]. *)
Record Suffix := mkSuffix { left : nat; right : nat; offset : nat; speriod : nat }.

Definition suffix_step (arr : list Z) (order_greater : bool) (s : Suffix) : option Suffix :=
  a ← arr !! (right s + offset s)%nat;
  b ← arr !! (left s + offset s)%nat;
  if ((a <? b) && negb order_greater) || ((a >? b) && order_greater) then
    let right := (right s + (offset s + 1))%nat in
    period ← usize_sub right (left s);
    Some (mkSuffix (left s) right 0 period)
  else if a =? b then
    if (offset s + 1 =? speriod s)%nat then Some (mkSuffix (left s) (right s + (offset s + 1)) 0 (speriod s))
    else Some (mkSuffix (left s) (right s) (offset s + 1) (speriod s))
  else Some (mkSuffix (right s) (right s + 1) 0 1).

(** Every turn makes [2 * left + right + offset] larger. *)
Definition maximal_suffix (arr : list Z) (order_greater : bool) : option (nat * nat) :=
  s ← while_loop (4 * length arr + 4) (fun s => (right s + offset s <? length arr)%nat) (suffix_step arr order_greater)
    (mkSuffix 0 1 0 1);
  Some (left s, speriod s).

Definition byteset_create (bytes : list Z) : Z :=
  foldl (fun a b => Z.lor (Z.shiftl 1 (Z.land b 0x3f)) a) 0 bytes.

Definition byteset_contains (self : TwoWaySearcher) (byte : Z) : bool :=
  negb (Z.land (Z.shiftr (byteset self) (Z.land byte 0x3f)) 1 =? 0).

Definition new (needle : list Z) : option TwoWaySearcher :=
  if (length needle =? 0)%nat then Some (mkSearcher needle 0 0 0 false) else
  '(crit_pos_false, period_false) ← maximal_suffix needle false;
  '(crit_pos_true, period_true) ← maximal_suffix needle true;
  let '(crit_pos, period) :=
    (if (crit_pos_true <? crit_pos_false)%nat then (crit_pos_false, period_false) else (crit_pos_true, period_true)) in
  u ← slice needle 0 crit_pos;
  v ← slice needle period (period + crit_pos);
  if decide (u = v) then
    first ← slice needle 0 period;
    Some (mkSearcher needle crit_pos period (byteset_create first) false)
  else
    rest ← usize_sub (length needle) crit_pos;
    Some (mkSearcher needle crit_pos (Nat.max crit_pos rest + 1) (byteset_create needle) true).

(** [for i in lo..lo+n], stopping at the first mismatch. *)
Fixpoint mismatch_right (needle haystack : list Z) (position n i : nat) : option (option nat) :=
  match n with
  | O => Some None
  | S n' =>
      x ← needle !! i;
      y ← haystack !! (position + i)%nat;
      if x =? y then mismatch_right needle haystack position n' (S i) else Some (Some i)
  end.

(** [for i in (lo..lo+n).rev()], stopping at the first mismatch. *)
Fixpoint mismatch_left (needle haystack : list Z) (position n lo : nat) : option bool :=
  match n with
  | O => Some false
  | S n' =>
      x ← needle !! (lo + n')%nat;
      y ← haystack !! (position + (lo + n'))%nat;
      if x =? y then mismatch_left needle haystack position n' lo else Some true
  end.

Inductive Turn := Continue (s : TwoWayState) | Done (r : option nat).

(** One turn of ['search: loop]. *)
Definition turn (self : TwoWaySearcher) (haystack : list Z) (long_period : bool) (state : TwoWayState) : option Turn :=
  needle_last ← usize_sub (length (needle self)) 1;
  match haystack !! (position state + needle_last)%nat with
  | None => Some (Done None)
  | Some tail_byte =>
      if negb (byteset_contains self tail_byte) then
        Some (Continue (mkState (position state + length (needle self)) (if long_period then memory state else 0)))
      else
      let start := if long_period then crit_pos self else Nat.max (crit_pos self) (Z.to_nat (memory state)) in
      right_ ← mismatch_right (needle self) haystack (position state) (length (needle self) - start) start;
      match right_ with
      | Some i =>
          shift ← usize_sub i (crit_pos self);
          Some (Continue (mkState (position state + (shift + 1)) (if long_period then memory state else 0)))
      | None =>
          let start := if long_period then 0%nat else Z.to_nat (memory state) in
          left_ ← mismatch_left (needle self) haystack (position state) (crit_pos self - start) start;
          if (left_ : bool) then
            memory ← (if long_period then Some (memory state) else
                        kept ← usize_sub (length (needle self)) (period self); Some (Z.of_nat kept));
            Some (Continue (mkState (position state + period self) memory))
          else Some (Done (Some (position state)))
      end
  end.

Fixpoint next (fuel : nat) (self : TwoWaySearcher) (haystack : list Z) (long_period : bool) (state : TwoWayState) : option (option nat) :=
  match fuel with
  | O => None
  | S fuel' =>
      t ← turn self haystack long_period state;
      match t with
      | Continue state' => next fuel' self haystack long_period state'
      | Done r => Some r
      end
  end.

(** The position grows in every turn that goes on. *)
Definition search_in (self : TwoWaySearcher) (haystack : list Z) : option (option nat) :=
  if (length (needle self) =? 0)%nat then Some (Some 0%nat)
  else if is_long self then next (length haystack + 2) self haystack true (mkState 0 usize_MAX)
  else next (length haystack + 2) self haystack false (mkState 0 0).

(** ** What a search is to find *)

Definition occurs (needle haystack : list Z) (i : nat) : Prop :=
  (i + length needle <= length haystack)%nat /\ take (length needle) (drop i haystack) = needle.

Definition first_occurrence (needle haystack : list Z) (r : option nat) : Prop :=
  match r with
  | Some i => occurs needle haystack i /\ forall j, (j < i)%nat -> ~ occurs needle haystack j
  | None => forall j, ~ occurs needle haystack j
  end.

Example dog_found : (s ← new [100; 111; 103]; search_in s [116; 104; 101; 32; 100; 111; 100; 111; 103; 46]) = Some (Some 6%nat).
Proof. vm_compute. reflexivity. Qed.
Example repeated_needle : (s ← new [97; 98; 99; 97; 98; 99]; search_in s [97; 98; 99; 97; 98; 97; 97; 98; 99; 97; 98; 97; 97; 98; 99; 97; 98; 99]) = Some (Some 12%nat).
Proof. vm_compute. reflexivity. Qed.

(** ** Maximal suffixes *)

Definition letter (l : list Z) (i : nat) : Z := nth i l 0.

Lemma lookup_letter l i : (i < length l)%nat -> l !! i = Some (letter l i).
Proof. intros Hi. unfold letter. destruct (nth_lookup_or_length l i 0); [done|lia]. Qed.

(** The order of the letters that [order_greater] selects. *)
Definition smaller (order_greater : bool) (a b : Z) : Prop := if order_greater then b < a else a < b.

Lemma smaller_irrefl g a : ~ smaller g a a.
Proof. destruct g; simpl; lia. Qed.
Lemma smaller_trans g a b c : smaller g a b -> smaller g b c -> smaller g a c.
Proof. destruct g; simpl; lia. Qed.
Lemma smaller_opposite g a b : smaller g a b -> smaller (negb g) a b -> False.
Proof. destruct g; simpl; lia. Qed.

Section Suffixes.
Variables (arr : list Z) (g : bool).
Hypothesis Hne : (0 < length arr)%nat.
Let n : nat := length arr.
Let f : nat -> Z := letter arr.

Lemma maximal_suffix_spec : wp (maximal_suffix arr g) (fun '(i, p) => (i < n)%nat /\
  maximal f n (smaller g) i /\ (0 < p <= n - i)%nat /\ (forall t, (i + p <= t < n)%nat -> f t = f (t - p)%nat) /\
  (forall d, (0 < d < p)%nat -> (forall t, (i + d <= t < n)%nat -> f t = f (t - d)%nat) -> False)).
Proof.
  unfold maximal_suffix. apply wp_bind.
  apply (wp_while (fun s => scanned f n (smaller g) (left s) (right s) (offset s) (speriod s) /\ (left s < n)%nat)
    (fun s => 4 * n + 3 - (2 * left s + right s + offset s))%nat).
  - split; [|done]. split; [simpl; unfold n; lia|]. split; [exists 0%nat; done|]. cbn. split; [lia|]. split; lia.
  - simpl. unfold n. lia.
  - intros s [Hs Hl] Hlt%Nat.ltb_lt. assert (Hs' := Hs). destruct Hs' as ((Hij & Hn & Hk) & [Q HQ] & _). fold n in Hlt. unfold suffix_step.
    rewrite !lookup_letter by (unfold n in *; lia). cbn [mbind option_bind]. fold f.
    set (a := f (right s + offset s)%nat). set (b := f (left s + offset s)%nat).
    destruct (((a <? b) && negb g) || ((a >? b) && g)) eqn:Elt.
    + assert (HR : smaller g a b) by (destruct g; simpl in *; lia). unfold usize_sub.
      apply wp_bind, wp_bind, wp_assert; [apply Nat.leb_le; lia|]. apply wp_ret, wp_ret. cbn [left right offset speriod].
      pose proof (scan_smaller f n (smaller g) (smaller_trans g) _ _ _ _ Hs ltac:(lia) HR) as Hnew.
      rewrite Nat.add_assoc. split; [split; [exact Hnew|lia]|lia].
    + destruct (Z.eqb_spec a b) as [Heq|Hneq].
      * pose proof (scan_equal f n (smaller g) _ _ _ _ Hs ltac:(lia) Heq) as Hnew.
        destruct (offset s + 1 =? speriod s)%nat; apply wp_ret; cbn [left right offset speriod]; rewrite ?Nat.add_assoc; split; [split; [exact Hnew|lia]|lia|split; [exact Hnew|lia]|lia].
      * assert (HR : smaller g b a) by (destruct g; simpl in *; lia). apply wp_ret. cbn [left right offset speriod].
        pose proof (scan_larger f n (smaller g) (smaller_trans g) _ _ _ _ Hs ltac:(lia) HR) as Hnew. split; [split; [exact Hnew|lia]|nia].
  - intros s [Hs Hl] Hge%Nat.ltb_ge. apply wp_ret. split; [done|].
    exact (scanned_all f n (smaller g) (smaller_irrefl g) _ _ _ _ Hs Hge).
Qed.
End Suffixes.

(** ** Occurrences, letter by letter *)

Lemma take_drop_letters (l : list Z) i k : (i + k <= length l)%nat -> forall j, (j < k)%nat -> letter (take k (drop i l)) j = letter l (i + j).
Proof.
  intros Hl j Hj. assert (H : take k (drop i l) !! j = l !! (i + j)%nat) by (by rewrite lookup_take_lt, lookup_drop by lia).
  rewrite !lookup_letter in H by (rewrite ?length_take, ?length_drop; lia). by injection H.
Qed.

Lemma letters_eq (a b : list Z) : length a = length b -> (forall j, (j < length a)%nat -> letter a j = letter b j) -> a = b.
Proof.
  intros Hl H. apply list_eq. intros j. destruct (Nat.lt_ge_cases j (length a)).
  - rewrite !lookup_letter by lia. by rewrite H.
  - by rewrite !lookup_ge_None_2 by lia.
Qed.

Lemma occurs_letters needle haystack i : occurs needle haystack i <->
  (i + length needle <= length haystack)%nat /\ forall k, (k < length needle)%nat -> letter haystack (i + k) = letter needle k.
Proof.
  unfold occurs. split; intros [Hl H]; (split; [done|]).
  - intros k Hk. transitivity (letter (take (length needle) (drop i haystack)) k); [symmetry; by apply take_drop_letters|by rewrite H].
  - apply letters_eq; [rewrite length_take, length_drop; lia|]. intros j Hj. rewrite length_take, length_drop in Hj.
    rewrite take_drop_letters by lia. apply H. lia.
Qed.

(** ** The fingerprint of a set of bytes *)

Lemma byteset_testbit l a j : 0 <= j ->
  Z.testbit (foldl (fun a b => Z.lor (Z.shiftl 1 (Z.land b 0x3f)) a) a l) j = Z.testbit a j || existsb (fun b => Z.land b 0x3f =? j) l.
Proof.
  intros Hj. revert a. induction l as [|b l IH]; intros a; simpl; [by rewrite orb_false_r|].
  assert (Hb : 0 <= Z.land b 0x3f) by (apply Z.land_nonneg; lia). rewrite IH, Z.lor_spec, Z.shiftl_spec by done.
  destruct (Z.eqb_spec (Z.land b 0x3f) j) as [->|Hne].
  - rewrite Z.sub_diag. simpl. by destruct (Z.testbit a j).
  - replace (Z.testbit 1 (j - Z.land b 63)) with false; [by rewrite orb_false_l|]. symmetry.
    destruct (Z.lt_ge_cases (j - Z.land b 63) 0); [by apply Z.testbit_neg_r|]. change 1 with (2 ^ 0). rewrite Z.pow2_bits_eqb by lia.
    by apply Z.eqb_neq; lia.
Qed.

Lemma byteset_member self l b : byteset self = byteset_create l -> b ∈ l -> byteset_contains self b = true.
Proof.
  intros Hs Hb. unfold byteset_contains. rewrite Hs. assert (Hj : 0 <= Z.land b 0x3f) by (apply Z.land_nonneg; lia).
  change 1 with (Z.ones 1). rewrite Z.land_ones, Z.pow_1_r by lia. rewrite <- Z.bit0_mod, Z.shiftr_spec, Z.add_0_l by lia.
  unfold byteset_create. rewrite byteset_testbit by done. replace (existsb _ l) with true; [by rewrite orb_true_r|]. symmetry.
  apply existsb_exists. exists b. split; [by apply list_elem_of_In|apply Z.eqb_refl].
Qed.

(** ** A searcher that is right for its needle *)

Record fit (self : TwoWaySearcher) (x : list Z) : Prop := mkFit {
  fit_needle : needle self = x;
  fit_crit : (crit_pos self < length x)%nat;
  fit_critical d : (0 < d)%nat -> local_period (letter x) (length x) (crit_pos self) d -> (crit_pos self < d)%nat /\ periodic (letter x) (length x) d;
  fit_period : (0 < period self)%nat;
  fit_shift d : (0 < d < period self)%nat -> ~ local_period (letter x) (length x) (crit_pos self) d;
  fit_short : is_long self = false -> (crit_pos self < period self <= length x)%nat /\ periodic (letter x) (length x) (period self);
  fit_byteset k : (k < length x)%nat -> byteset_contains self (letter x k) = true;
}.

Lemma letter_elem (l : list Z) k : (k < length l)%nat -> letter l k ∈ l.
Proof. intros Hk. eapply list_elem_of_lookup_2. by apply lookup_letter. Qed.

Lemma halves_agree x c p : (p + c <= length x)%nat ->
  (take c (drop 0 x) = take (p + c - p) (drop p x) <-> forall j, (j < c)%nat -> letter x (p + j) = letter x j).
Proof.
  intros Hl. rewrite Nat.add_comm, Nat.add_sub. split.
  - intros E j Hj. rewrite <- (take_drop_letters x p c), <- E, take_drop_letters by lia. done.
  - intros E. apply letters_eq; [rewrite !length_take, !length_drop; lia|]. intros j Hj. rewrite length_take in Hj.
    rewrite !take_drop_letters by lia. symmetry. apply E. lia.
Qed.

Lemma new_fit x : (0 < length x)%nat -> wp (new x) (fun s => fit s x).
Proof.
  intros Hx. unfold new. destruct (Nat.eqb_spec (length x) 0) as [|_]; [lia|].
  apply wp_bind. eapply wp_mono; [exact (maximal_suffix_spec x false Hx)|]. intros [i1 p1] (H1 & M1 & P1 & Q1 & N1).
  apply wp_bind. eapply wp_mono; [exact (maximal_suffix_spec x true Hx)|]. intros [i2 p2] (H2 & M2 & P2 & Q2 & N2).
  set (m := length x) in *. set (f := letter x) in *.
  assert (Hchoice : let '(c, p) := if (i2 <? i1)%nat then (i1, p1) else (i2, p2) in exists g c', (c' <= c < m)%nat /\
    maximal f m (smaller g) c /\ maximal f m (smaller (negb g)) c' /\ (0 < p <= m - c)%nat /\
    (forall t, (c + p <= t < m)%nat -> f t = f (t - p)%nat) /\
    (forall d, (0 < d < p)%nat -> (forall t, (c + d <= t < m)%nat -> f t = f (t - d)%nat) -> False)).
  { destruct (Nat.ltb_spec i2 i1); [exists false, i2|exists true, i1]; repeat split; done || lia. }
  destruct (if (i2 <? i1)%nat then _ else _) as [c p]. destruct Hchoice as (g & c' & Hc & Mc & Mc' & Hp & Hper & Hmin). cbv beta iota.
  pose proof (critical_position f m _ _ (smaller_irrefl g) (smaller_trans g) (smaller_irrefl (negb g)) (smaller_opposite g) c c' Hc Mc Mc') as Hcrit.
  pose proof (halves_agree x c p ltac:(fold m; lia)) as Hhalves.
  assert (Hsame : periodic f m p <-> take c (drop 0 x) = take (p + c - p) (drop p x)).
  { rewrite Hhalves. fold f. split.
    - intros H j Hj. rewrite (H (p + j)%nat) by lia. f_equal. lia.
    - intros H k Hk. destruct (Nat.lt_ge_cases k (c + p)); [|apply Hper; lia]. replace k with (p + (k - p))%nat at 1 by lia. apply H. lia. }
  apply wp_bind, wp_slice; [lia|fold m; lia|]. rewrite Nat.sub_0_r. apply wp_bind, wp_slice; [lia|fold m; lia|].
  destruct (decide _) as [Heq|Hneq].
  - apply Hsame in Heq. assert (Hcp : (c < p)%nat) by (apply Hcrit; [lia|by apply periodic_local]).
    apply wp_bind, wp_slice; [lia|fold m; lia|]. apply wp_ret. constructor; cbn [needle crit_pos period is_long]; fold m f; [done|lia|exact Hcrit|lia| |intros _; split; [lia|exact Heq]|].
    + intros d Hd Hloc. destruct (Hcrit d ltac:(lia) Hloc) as [_ Hpd]. apply (Hmin d Hd). intros t Ht. apply Hpd. lia.
    + intros k Hk. eapply byteset_member; [reflexivity|]. pose proof (Nat.div_mod_eq k p). pose proof (Nat.mod_upper_bound k p ltac:(lia)).
      rewrite (periodic_between f 0 m p (k / p) k) by (done || lia). replace (k - k / p * p)%nat with (k mod p)%nat by lia.
      unfold f. change (letter x (k mod p)) with (letter x (0 + k mod p)).
      rewrite <- (take_drop_letters x 0 (p - 0)) by (fold m; lia). apply letter_elem. rewrite length_take, length_drop. fold m. lia.
  - apply wp_bind. unfold usize_sub. apply wp_bind, wp_assert; [apply Nat.leb_le; fold m; lia|]. apply wp_ret, wp_ret.
    constructor; cbn [needle crit_pos period is_long]; fold m f; [done|lia|exact Hcrit|lia| |done|].
    + intros d Hd Hloc. destruct (Hcrit d ltac:(lia) Hloc) as [Hcd Hpd]. apply Hneq, Hsame.
      exact (suffix_period f m _ _ (smaller_irrefl g) (smaller_trans g) (smaller_irrefl (negb g)) (smaller_opposite g) c c' Hc Mc Mc' d p ltac:(lia) Hper Hmin ltac:(lia) Hpd).
    + intros k Hk. eapply byteset_member; [reflexivity|]. by apply letter_elem.
Qed.

(** ** The search *)

Section Search.
Variables (self : TwoWaySearcher) (x hay : list Z).
Hypothesis Hfit : fit self x.
Let m : nat := length x.
Let N : nat := length hay.
Let c : nat := crit_pos self.
Let h : nat -> Z := letter hay.
Let f : nat -> Z := letter x.

Definition matches (pos lo hi : nat) : Prop := forall k, (lo <= k < hi)%nat -> h (pos + k)%nat = f k.

Definition found (i : nat) : Prop := (i + m <= N)%nat /\ matches i 0 m.

Lemma found_occurs i : found i <-> occurs x hay i.
Proof.
  rewrite occurs_letters. unfold found, matches, h, f, m, N. split; intros [Hl H]; (split; [done|]); intros k Hk; apply H; lia.
Qed.

Lemma mismatch_right_spec pos n i : (pos + m <= N)%nat -> (i + n <= m)%nat ->
  wp (mismatch_right x hay pos n i) (fun r => match r with
    | None => matches pos i (i + n)
    | Some j => (i <= j < i + n)%nat /\ matches pos i j /\ h (pos + j)%nat <> f j end).
Proof.
  intros Hpos. revert i. induction n as [|n IH]; intros i Hi; [intros k Hk; lia|]. cbn [mismatch_right].
  rewrite !lookup_letter by (fold m N; lia). cbn [mbind option_bind]. fold f h. destruct (Z.eqb_spec (f i) (h (pos + i)%nat)) as [E|E].
  - eapply wp_mono; [apply IH; lia|]. intros [j|].
    + intros (Hj & Hm & Hne). split; [lia|]. split; [|done]. intros k Hk. destruct (Nat.eq_dec k i) as [->|]; [done|apply Hm; lia].
    + intros Hm k Hk. destruct (Nat.eq_dec k i) as [->|]; [done|apply Hm; lia].
  - apply wp_ret. split; [lia|]. split; [intros k Hk; lia|congruence].
Qed.

Lemma mismatch_left_spec pos n lo : (pos + m <= N)%nat -> (lo + n <= m)%nat ->
  wp (mismatch_left x hay pos n lo) (fun r => if (r : bool) then exists k, (lo <= k < lo + n)%nat /\ h (pos + k)%nat <> f k
    else matches pos lo (lo + n)).
Proof.
  intros Hpos. induction n as [|n IH]; intros Hlo; [intros k Hk; lia|]. cbn [mismatch_left].
  rewrite !lookup_letter by (fold m N; lia). cbn [mbind option_bind]. fold f h.
  destruct (Z.eqb_spec (f (lo + n)%nat) (h (pos + (lo + n))%nat)) as [E|E].
  - eapply wp_mono; [apply IH; lia|]. intros [|].
    + intros (k & Hk & Hne). exists k. split; [lia|done].
    + intros Hm k Hk. destruct (Nat.eq_dec k (lo + n)%nat) as [->|]; [done|apply Hm; lia].
  - apply wp_ret. exists (lo + n)%nat. split; [lia|congruence].
Qed.

(** An occurrence [d] places on, while the letters from the critical position
    match here: [d] is a local period. *)
Lemma shift_local pos d i : matches pos c i -> (i <= m)%nat -> (c + d <= i \/ i = m)%nat -> found (pos + d) -> local_period f m c d.
Proof.
  intros Hm Hi Hd [_ Hf] k Hk1 Hk2. rewrite <- (Hm k) by lia. rewrite <- (Hf (k - d)%nat) by lia. f_equal. lia.
Qed.

(** After a mismatch on the right, no occurrence starts before the new place. *)
Lemma right_shift pos i d : (c <= i < m)%nat -> matches pos c i -> h (pos + i)%nat <> f i -> (d <= i - c)%nat -> ~ found (pos + d).
Proof.
  intros Hi Hm Hne Hd Hf. destruct (Nat.eq_dec d 0%nat) as [->|Hpos].
  - apply Hne. rewrite <- (proj2 Hf i) by lia. f_equal. lia.
  - assert (Hloc : local_period f m c d) by (apply (shift_local pos d i); done || lia).
    destruct (fit_critical _ _ Hfit d ltac:(lia) Hloc) as [_ Hper]. apply Hne.
    transitivity (f (i - d)%nat); [|symmetry; apply Hper; fold m; lia]. rewrite <- (proj2 Hf (i - d)%nat) by lia. f_equal. lia.
Qed.

(** After a mismatch on the left likewise. *)
Lemma left_shift pos k d : matches pos c m -> (k < c)%nat -> h (pos + k)%nat <> f k -> (d < period self)%nat -> ~ found (pos + d).
Proof.
  intros Hm Hk Hne Hd Hf. destruct (Nat.eq_dec d 0%nat) as [->|Hpos].
  - apply Hne. pose proof (fit_crit _ _ Hfit) as Hcm. fold c m in Hcm. rewrite <- (proj2 Hf k) by lia. f_equal. lia.
  - apply (fit_shift _ _ Hfit d ltac:(lia)). apply (shift_local pos d m); done || lia.
Qed.

(** A last letter that is not in the fingerprint: no occurrence covers it. *)
Lemma fingerprint_shift pos d : (0 < m)%nat -> byteset_contains self (h (pos + (m - 1))%nat) = false -> (d < m)%nat -> ~ found (pos + d).
Proof.
  intros H0 Hb Hd Hf. pose proof (fit_byteset _ _ Hfit (m - 1 - d)%nat ltac:(fold m; lia)) as Hin. fold f in Hin.
  rewrite <- (proj2 Hf (m - 1 - d)%nat) in Hin by lia. replace (pos + d + (m - 1 - d))%nat with (pos + (m - 1))%nat in Hin by lia. congruence.
Qed.

(** The search has passed [position], and in the short case it remembers that
    the first [memory] letters match. *)
Definition searching (st : TwoWayState) : Prop :=
  (forall j, (j < position st)%nat -> ~ found j) /\
  (is_long self = false -> 0 <= memory st /\ (Z.to_nat (memory st) <= m)%nat /\ matches (position st) 0 (Z.to_nat (memory st))).

Lemma passed st s : (forall j, (j < position st)%nat -> ~ found j) -> (forall d, (d < s)%nat -> ~ found (position st + d)) ->
  forall j, (j < position st + s)%nat -> ~ found j.
Proof.
  intros H1 H2 j Hj. destruct (Nat.lt_ge_cases j (position st)); [by apply H1|].
  replace j with (position st + (j - position st))%nat by lia. apply H2. lia.
Qed.

Lemma matches_join pos lo mid hi : matches pos lo mid -> matches pos mid hi -> matches pos lo hi.
Proof. intros H1 H2 k Hk. destruct (Nat.lt_ge_cases k mid); [apply H1|apply H2]; lia. Qed.

Lemma turn_spec st : searching st -> wp (turn self hay (is_long self) st) (fun t => match t with
  | Continue st' => searching st' /\ (position st < position st')%nat /\ (position st < N)%nat
  | Done (Some i) => found i /\ forall j, (j < i)%nat -> ~ found j
  | Done None => forall j, ~ found j end).
Proof.
  intros [Hpast Hmem]. pose proof (fit_crit _ _ Hfit) as Hcm. fold c m in Hcm. unfold turn, usize_sub. rewrite (fit_needle _ _ Hfit). fold m c.
  apply wp_bind, wp_bind, wp_assert; [apply Nat.leb_le; lia|]. apply wp_ret. set (pos := position st) in *.
  destruct (hay !! (pos + (m - 1))%nat) as [b|] eqn:Hb.
  2:{ apply wp_ret. intros j Hf. apply lookup_ge_None_1 in Hb. fold N in Hb. destruct (Nat.lt_ge_cases j pos); [by eapply Hpast|].
      destruct Hf as [Hf _]. lia. }
  pose proof (lookup_lt_Some _ _ _ Hb) as Hroom. fold N in Hroom. rewrite lookup_letter in Hb by done. injection Hb as Hb. fold h in Hb.
  destruct (byteset_contains self b) eqn:Hbs; cbn [negb].
  2:{ apply wp_ret. rewrite <- Hb in Hbs. split; [|cbn [position]; fold pos; lia]. split; cbn [position memory]; fold pos.
      - apply (passed st); [done|]. intros d Hd. apply fingerprint_shift; done || lia.
      - intros ->. split_and!; try lia. intros k Hk. lia. }
  set (start := if is_long self then c else Nat.max c (Z.to_nat (memory st))).
  assert (Hstart : (c <= start <= m)%nat /\ matches pos c start).
  { unfold start. destruct (is_long self); [split; [lia|intros k Hk; lia]|]. destruct (Hmem eq_refl) as (H0 & Hle & Hmm).
    split; [lia|]. intros k Hk. apply Hmm. lia. }
  destruct Hstart as [Hs Hms].
  apply wp_bind. eapply wp_mono; [apply (mismatch_right_spec pos (m - start) start); lia|]. intros [i|].
  { intros (Hi & Hmr & Hne). pose proof (matches_join _ _ _ _ Hms Hmr) as Hmi.
    apply wp_bind, wp_bind, wp_assert; [apply Nat.leb_le; lia|]. apply wp_ret, wp_ret. cbn [position memory]. split; [|fold pos; lia].
    split; cbn [position memory]; fold pos.
    - apply (passed st); [done|]. intros d Hd. apply (right_shift pos i); done || lia.
    - intros ->. split_and!; try lia. intros k Hk. lia. }
  replace (start + (m - start))%nat with m by lia. intros Hmr. pose proof (matches_join _ _ _ _ Hms Hmr) as Hmc.
  set (start' := if is_long self then 0%nat else Z.to_nat (memory st)).
  assert (Hs' : matches pos 0 start' /\ (start' <= m)%nat).
  { unfold start'. destruct (is_long self); [split; [intros k Hk; lia|lia]|]. by destruct (Hmem eq_refl) as (_ & ? & ?). }
  destruct Hs' as [Hm0 Hle']. apply wp_bind. eapply wp_mono; [apply (mismatch_left_spec pos (c - start') start'); lia|].
  intros [|].
  - intros (k & Hk & Hne). assert (Hkc : (k < c)%nat) by lia. pose proof (fit_period _ _ Hfit) as Hp0.
    assert (Hskip : forall j, (j < pos + period self)%nat -> ~ found j).
    { apply (passed st); [done|]. intros d Hd. by apply (left_shift pos k). }
    destruct (is_long self) eqn:Hl.
    + apply wp_bind, wp_ret, wp_ret. cbn [position]. fold pos. split; [|lia]. split; [done|]. rewrite Hl. done.
    + destruct (fit_short _ _ Hfit Hl) as [Hp Hper]. fold c m in Hp.
      apply wp_bind, wp_bind, wp_bind, wp_assert; [apply Nat.leb_le; lia|]. apply wp_ret, wp_ret, wp_ret. cbn [position memory]. fold pos.
      split; [|lia]. split; [done|]. intros _. cbn [position memory]. fold pos. rewrite Nat2Z.id. split_and!; [lia|lia|].
      intros j Hj. rewrite <- Nat.add_assoc, (Hmc (period self + j)%nat) by lia. fold f m in Hper. rewrite (Hper (period self + j)%nat) by lia.
      fold f. f_equal. lia.
  - intros Hml. apply wp_ret. fold pos. split; [|done]. split; [lia|].
    destruct (Nat.le_gt_cases start' c) as [Hsc|Hsc].
    + replace (start' + (c - start'))%nat with c in Hml by lia. eapply matches_join; [exact Hm0|]. by eapply matches_join.
    + eapply matches_join; [exact Hm0|]. intros k Hk. apply Hmc. lia.
Qed.

Lemma next_spec fuel st : searching st -> (N < fuel + position st)%nat -> (0 < fuel)%nat ->
  wp (next fuel self hay (is_long self) st) (first_occurrence x hay).
Proof.
  revert st. induction fuel as [|fuel IH]; intros st Hs Hfuel Hpos; [lia|]. cbn [next]. apply wp_bind.
  eapply wp_mono; [exact (turn_spec st Hs)|]. intros [st'|[i|]].
  - intros (Hs' & Hlt & HN). apply IH; [done|lia|lia].
  - intros [Hf Hno]. apply wp_ret. split; [by apply found_occurs|]. intros j Hj Ho. apply (Hno j Hj). by apply found_occurs.
  - intros Hno. apply wp_ret. intros j Ho. apply (Hno j). by apply found_occurs.
Qed.

Lemma search_in_spec : wp (search_in self hay) (first_occurrence x hay).
Proof.
  pose proof (fit_crit _ _ Hfit) as Hcm. fold c m in Hcm. unfold search_in. rewrite (fit_needle _ _ Hfit). fold m.
  destruct (Nat.eqb_spec m 0) as [|_]; [lia|]. destruct (is_long self) eqn:Hl; rewrite <- Hl at 1;
    (apply next_spec; [split; cbn [position memory]; [intros j Hj; lia|]|cbn [position]; fold N; lia|lia]).
  - congruence.
  - intros _. split_and!; [done|simpl; lia|intros k Hk; simpl in Hk; lia].
Qed.
End Search.

(** C4: Two-way search finds the first occurrence.  For every needle and every
    haystack, the empty ones included, building the searcher and searching
    return, without an index out of range or a subtraction that underflows,
    and the result is the least position where the needle occurs, or [None]
    when it occurs nowhere.  It rests on the critical factorization theorem,
    which the source states without proof: the maximal suffixes that [new]
    computes are a critical factorization, so that no shift, by a mismatch on
    the right, by the period, by its approximation or by the fingerprint of
    the needle, jumps over an occurrence, and what the short case remembers
    really matches. *)
Theorem two_way_correct (needle haystack : list Z) :
  exists searcher r, new needle = Some searcher /\ search_in searcher haystack = Some r /\ first_occurrence needle haystack r.
Proof.
  destruct (Nat.eq_dec (length needle) 0%nat) as [Hz|Hnz].
  - destruct needle as [|z l]; [|simpl in Hz; lia]. eexists _, (Some 0%nat). split; [reflexivity|]. split; [reflexivity|].
    split; [split; [simpl; lia|reflexivity]|intros j Hj; lia].
  - pose proof (new_fit needle ltac:(lia)) as Hn. destruct (new needle) as [self|]; [|done]. simpl in Hn.
    pose proof (search_in_spec self needle haystack Hn) as Hs. destruct (search_in self haystack) as [r|] eqn:Hr; [|done]. by exists self, r.
Qed.

End Memmem.
