(* ===== verification/Singleflight.v ===== *)
(** * singleflight: concurrent calls by key

    src/singleflight/singleflight.rs.  The state is what the callers share, the
    map from keys to entries and the entries themselves, and where each caller
    is; an event is one atomic action of one caller: a section under a lock, an
    operation on an atomic, or the end of an await.  [exec] runs an event if it
    can happen, so a schedule is a list of events, and every interleaving of
    the callers on any number of threads is one.  [Notify] belongs to tokio: it
    is the class of what its documentation promises of the operations used
    here.  A poisoned lock is left out: nothing panics while it holds one. *)
From Stdlib Require Import ZArith Lia.
From stdpp Require Import base list gmap numbers option.
From S2P Require Import Prelude Words.

(* [naive_solver] clears what it has split. *)
#[local] Set Warnings "-clear-no-such-hyp".

Module Singleflight.

(** ** [tokio::sync::Notify] *)
Class Notify := {
  notify_t : Type;
  future : Type;
  notify_new : notify_t;
  notified : notify_t -> future * notify_t;
  notify_waiters : notify_t -> notify_t;
  ready : notify_t -> future -> bool;
}.

(** A future made before [notify_waiters] is ready after it, polled or not, and
    stays so; it is not ready before. *)
Class NotifyLaws `{!Notify} := {
  issued : notify_t -> future -> Prop;
  issued_notified n : issued (notified n).2 (notified n).1;
  issued_kept n w : issued n w -> issued (notified n).2 w;
  issued_waiters n w : issued n w -> issued (notify_waiters n) w;
  ready_waiters n w : issued n w -> ready (notify_waiters n) w = true;
  ready_kept n w : issued n w -> ready (notified n).2 w = ready n w;
  ready_fresh n : ready (notified n).2 (notified n).1 = false;
}.

(** ** The data *)

Record Call (V : Type) := mkCall { val : V; shared : bool }.
Arguments mkCall {V} _ _.
Arguments val {V} _.
Arguments shared {V} _.

Section Group.
Context `{Countable K} {V : Type} `{!Notify}.

Record Entry := mkEntry { key : K; evalue : option V; notify : notify_t; dups : Z }.

(** Where a caller is in [call_async]; an entry is its place in the store. *)
Inductive Pc :=
| Lookup                        (* map.get(&key) *)
| Join (e : nat)                (* entry.dups.fetch_add *)
| Register (e : nat)            (* let notified = entry.notify.notified() *)
| Examine (e : nat) (w : future) (* entry.val.lock() *)
| Wait (e : nat) (w : future)   (* notified.await *)
| Create                        (* Arc::new(Entry { .. }) *)
| Publish (e : nat)             (* map.insert *)
| Running (e : nat)             (* f().await *)
| Store (e : nat) (v : V)       (* *entry.val.lock() = Some(..) *)
| Wake (e : nat) (v : V)        (* notify_waiters *)
| Unmap (e : nat) (v : V)       (* map.remove *)
| Return (c : Call V)
| Dropped (e : option nat).     (* the future was dropped; e: while running f *)

Record Task := mkTask { tkey : K; pc : Pc }.

Record State := mkState { map : gmap K nat; entries : list Entry; tasks : list Task }.

Definition Group_new : State := mkState ∅ [] [].

(** A call of [call_async]; an action of caller [t]; the [f] of caller [t] ends;
    the future of caller [t] is dropped; a call of [forget]. *)
Inductive Event := Enter (k : K) | Act (t : nat) | Finish (t : nat) (v : V) | Cancel (t : nat) | Forget (k : K).

(** ** The operations *)

Definition set_pc (s : State) (t : nat) (task : Task) (p : Pc) : State :=
  mkState (map s) (entries s) (<[t := mkTask (tkey task) p]> (tasks s)).

Definition set_entry (s : State) (e : nat) (en : Entry) : State :=
  mkState (map s) (<[e := en]> (entries s)) (tasks s).

Definition set_map (s : State) (m : gmap K nat) : State := mkState m (entries s) (tasks s).

Definition forget (s : State) (k : K) : State := set_map s (delete k (map s)).

(** The atomic actions of [call_async], in its order. *)
Definition call_async (s : State) (t : nat) (task : Task) : option State :=
  match pc task with
  | Lookup =>
      Some (set_pc s t task (match map s !! tkey task with Some e => Join e | None => Create end))
  | Join e =>
      en ← entries s !! e;
      Some (set_pc (set_entry s e (mkEntry (key en) (evalue en) (notify en) (u64 (dups en + 1)))) t task (Register e))
  | Register e =>
      en ← entries s !! e;
      let '(w, n) := notified (notify en) in
      Some (set_pc (set_entry s e (mkEntry (key en) (evalue en) n (dups en))) t task (Examine e w))
  | Examine e w =>
      en ← entries s !! e;
      Some (set_pc s t task (match evalue en with Some v => Return (mkCall v true) | None => Wait e w end))
  | Wait e w =>
      en ← entries s !! e;
      if ready (notify en) w then Some (set_pc s t task (Register e)) else None
  | Create =>
      let en := mkEntry (tkey task) None notify_new 0 in
      Some (mkState (map s) (entries s ++ [en]) (<[t := mkTask (tkey task) (Publish (length (entries s)))]> (tasks s)))
  | Publish e =>
      en ← entries s !! e;
      Some (set_pc (set_map s (<[key en := e]> (map s))) t task (Running e))
  | Running e => None
  | Store e v =>
      en ← entries s !! e;
      Some (set_pc (set_entry s e (mkEntry (key en) (Some v) (notify en) (dups en))) t task (Wake e v))
  | Wake e v =>
      en ← entries s !! e;
      Some (set_pc (set_entry s e (mkEntry (key en) (evalue en) (notify_waiters (notify en)) (dups en))) t task (Unmap e v))
  | Unmap e v =>
      en ← entries s !! e;
      Some (set_pc (set_map s (delete (key en) (map s))) t task (Return (mkCall v false)))
  | Return _ | Dropped _ => None
  end.

Definition exec (s : State) (ev : Event) : option State :=
  match ev with
  | Enter k => Some (mkState (map s) (entries s) (tasks s ++ [mkTask k Lookup]))
  | Act t => task ← tasks s !! t; call_async s t task
  | Finish t v =>
      task ← tasks s !! t;
      match pc task with Running e => Some (set_pc s t task (Store e v)) | _ => None end
  | Cancel t =>
      task ← tasks s !! t;
      match pc task with
      | Lookup | Wait _ _ => Some (set_pc s t task (Dropped None))
      | Running e => Some (set_pc s t task (Dropped (Some e)))
      | _ => None
      end
  | Forget k => Some (forget s k)
  end.

Fixpoint run (s : State) (evs : list Event) : option State :=
  match evs with [] => Some s | ev :: rest => s' ← exec s ev; run s' rest end.

Definition reachable (s : State) : Prop := exists evs, run Group_new evs = Some s.

(** ** The invariant *)

(** The entry whose value a caller is to provide. *)
Definition owner (p : Pc) : option nat :=
  match p with
  | Publish e | Running e | Store e _ | Wake e _ | Unmap e _ => Some e
  | Dropped e => e
  | _ => None
  end.

(** Some caller is about to wake those who wait for [e]. *)
Definition waking (s : State) (e : nat) (v : V) : Prop := exists t task, tasks s !! t = Some task /\ pc task = Wake e v.

Context `{!NotifyLaws}.

(** A future made for entry [en] is ready, or will be made so. *)
Definition will_wake (s : State) (e : nat) (en : Entry) (w : future) : Prop :=
  issued (notify en) w /\
  match evalue en with None => ready (notify en) w = false | Some v => ready (notify en) w = true \/ waking s e v end.

(** A future whose caller still looks at the value before it waits. *)
Definition listening (en : Entry) (w : future) : Prop :=
  issued (notify en) w /\ (evalue en = None -> ready (notify en) w = false).

Definition task_ok (s : State) (task : Task) : Prop :=
  match pc task with
  | Lookup | Create | Return _ | Dropped None => True
  | Join e | Register e => exists en, entries s !! e = Some en /\ key en = tkey task
  | Examine e w => exists en, entries s !! e = Some en /\ key en = tkey task /\ listening en w
  | Wait e w => exists en, entries s !! e = Some en /\ key en = tkey task /\ will_wake s e en w
  | Publish e | Running e | Store e _ | Dropped (Some e) => exists en, entries s !! e = Some en /\ key en = tkey task /\ evalue en = None
  | Wake e v | Unmap e v => exists en, entries s !! e = Some en /\ key en = tkey task /\ evalue en = Some v
  end.

Record inv (s : State) : Prop := mkInv {
  inv_map k e : map s !! k = Some e -> exists en, entries s !! e = Some en /\ key en = k;
  inv_task t task : tasks s !! t = Some task -> task_ok s task;
  inv_owner t t' task task' e : tasks s !! t = Some task -> tasks s !! t' = Some task' ->
    owner (pc task) = Some e -> owner (pc task') = Some e -> t = t';
  inv_entry e en : entries s !! e = Some en -> evalue en = None -> exists t task, tasks s !! t = Some task /\ owner (pc task) = Some e;
}.

Lemma owner_exists s task e : task_ok s task -> owner (pc task) = Some e -> exists en, entries s !! e = Some en /\ key en = tkey task.
Proof. unfold task_ok. destruct (pc task) as [| | | | | | | | | | | |[|]]; simpl; intros Hok [= ->]; naive_solver. Qed.

(** An action of caller [t]: its task, and perhaps the entry [e]. *)
Section Step.
Variables (s s' : State) (t : nat) (task : Task) (p : Pc).
Hypothesis Hinv : inv s.
Hypothesis Ht : tasks s !! t = Some task.
Hypothesis Htasks : tasks s' = <[t := mkTask (tkey task) p]> (tasks s).

Lemma other_task t' task' : tasks s' !! t' = Some task' -> (t' = t /\ task' = mkTask (tkey task) p) \/ (t' <> t /\ tasks s !! t' = Some task').
Proof. rewrite Htasks, list_lookup_insert_Some. naive_solver. Qed.

Lemma kept_task t' task' : t' <> t -> tasks s !! t' = Some task' -> tasks s' !! t' = Some task'.
Proof. intros Hne Hl. by rewrite Htasks, list_lookup_insert_ne. Qed.

Lemma acting_task : tasks s' !! t = Some (mkTask (tkey task) p).
Proof. rewrite Htasks. apply list_lookup_insert_eq. by eapply lookup_lt_Some. Qed.

(** The entries of other callers' tasks may gain futures, a value or a wake-up. *)
Hypothesis Hentries : forall e en, entries s !! e = Some en -> exists en', entries s' !! e = Some en' /\ key en' = key en /\
  (owner (pc task) <> Some e -> evalue en' = evalue en) /\
  (forall w, will_wake s e en w -> will_wake s' e en' w) /\ (forall w, listening en w -> listening en' w).
Hypothesis Howner : owner p = owner (pc task) \/ owner p = None \/ (exists e, owner p = Some e /\ entries s !! e = None).
Hypothesis Hself : task_ok s' (mkTask (tkey task) p).
Hypothesis Hmap : forall k e, map s' !! k = Some e -> exists en, entries s' !! e = Some en /\ key en = k.
Hypothesis Hcover : forall e en, entries s' !! e = Some en -> evalue en = None ->
  owner p = Some e \/ (exists en0, entries s !! e = Some en0 /\ evalue en0 = None) /\ owner (pc task) <> Some e.

Lemma step_inv : inv s'.
Proof.
  constructor.
  - exact Hmap.
  - intros t' task' Hl. destruct (other_task _ _ Hl) as [[-> ->]|[Hne Hold]]; [exact Hself|].
    pose proof (inv_task _ Hinv _ _ Hold) as Hok. unfold task_ok in *.
    assert (Hnot : forall e, owner (pc task') = Some e -> owner (pc task) <> Some e).
    { intros e He He'. apply Hne. by apply (inv_owner _ Hinv t' t task' task e). }
    destruct (pc task') as [|e|e|e w|e w| |e|e|e v|e v|e v|c|[e|]] eqn:Hp; try done;
      first [destruct Hok as (en & Hen & Hk & Hv)|destruct Hok as (en & Hen & Hk)];
      destruct (Hentries e en Hen) as (en' & Hen' & Hk' & Hv' & Hw' & Hl'); exists en'; (split; [done|]); try (rewrite Hk'; exact Hk);
      (split; [by rewrite Hk'|]); first [by apply Hw'|by apply Hl'|rewrite Hv'; [done|by apply Hnot]].
  - intros t1 t2 task1 task2 e Ha Hb O1 O2.
    destruct (other_task _ _ Ha) as [[-> ->]|[Hne1 Hold1]], (other_task _ _ Hb) as [[-> ->]|[Hne2 Hold2]]; [done| | |by eapply inv_owner].
    + cbn [pc] in O1. destruct Howner as [Heq|[Heq|(e' & He' & Hnone)]]; rewrite Heq in O1 || rewrite He' in O1; [by eapply inv_owner|done|].
      injection O1 as ->. destruct (owner_exists s task2 e (inv_task _ Hinv _ _ Hold2) O2) as (en & Hen & _). congruence.
    + cbn [pc] in O2. destruct Howner as [Heq|[Heq|(e' & He' & Hnone)]]; rewrite Heq in O2 || rewrite He' in O2; [by eapply inv_owner|done|].
      injection O2 as ->. destruct (owner_exists s task1 e (inv_task _ Hinv _ _ Hold1) O1) as (en & Hen & _). congruence.
  - intros e en Hen Hv. destruct (Hcover e en Hen Hv) as [Ho|[(en0 & Hen0 & Hv0) Hno]].
    + exists t, (mkTask (tkey task) p). split; [apply acting_task|done].
    + destruct (inv_entry _ Hinv e en0 Hen0 Hv0) as (t' & task' & Ht' & Ho').
      exists t', task'. split; [|done]. apply kept_task; [|done]. intros ->. congruence.
Qed.
End Step.

Lemma waking_kept s s' t task p e v : tasks s !! t = Some task -> tasks s' = <[t := mkTask (tkey task) p]> (tasks s) ->
  pc task <> Wake e v -> waking s e v -> waking s' e v.
Proof.
  intros Ht Htasks Hp (t' & task' & Ht' & Hw). exists t', task'. split; [|done]. rewrite Htasks, list_lookup_insert_ne; [done|].
  intros ->. congruence.
Qed.

Lemma will_wake_kept s s' e en en' w : notify en' = notify en -> evalue en' = evalue en ->
  (forall v, waking s e v -> waking s' e v) -> will_wake s e en w -> will_wake s' e en' w.
Proof. intros Hn Hv Hwk [Hi Hr]. unfold will_wake. rewrite Hn, Hv. split; [done|]. destruct (evalue en); naive_solver. Qed.

(** An action that changes only the caller's place, and perhaps the map. *)
Lemma inv_pc s s' t task p : inv s -> tasks s !! t = Some task -> tasks s' = <[t := mkTask (tkey task) p]> (tasks s) ->
  entries s' = entries s -> owner p = owner (pc task) \/ owner (pc task) = None /\ owner p = None \/
    (owner p = None /\ exists e v, pc task = Unmap e v) ->
  (forall e v, pc task <> Wake e v) -> task_ok s' (mkTask (tkey task) p) ->
  (forall k e, map s' !! k = Some e -> exists en, entries s' !! e = Some en /\ key en = k) -> inv s'.
Proof.
  intros Hinv Ht Htasks He Ho Hnw Hself Hmap.
  apply (step_inv s s' t task p Hinv Ht Htasks); [| |done|done|].
  - intros e en Hen. exists en. rewrite He. split_and!; try done. intros w. apply will_wake_kept; [done|done|].
    intros v. eapply waking_kept; [exact Ht|exact Htasks|apply Hnw].
  - naive_solver.
  - intros e en Hen Hv. rewrite He in Hen. destruct (decide (owner (pc task) = Some e)) as [Heq|Hne].
    + left. destruct Ho as [Ho|[[Ho _]|(_ & e' & v & Hu)]]; [congruence|congruence|]. rewrite Hu in Heq. injection Heq as ->.
      pose proof (inv_task _ Hinv _ _ Ht) as Hok. unfold task_ok in Hok. rewrite Hu in Hok. destruct Hok as (en' & Hen' & _ & Hv'). congruence.
    + right. split; [by exists en|done].
Qed.

(** An action that also rewrites the entry [e] the caller refers to. *)
Lemma inv_entry_pc s t task p e en en' : inv s -> tasks s !! t = Some task -> entries s !! e = Some en -> key en' = key en ->
  owner p = owner (pc task) -> (owner (pc task) = Some e \/ evalue en' = evalue en) -> (evalue en' = None -> evalue en = None) ->
  (forall e' v, pc task = Wake e' v -> e' = e) ->
  (forall w, will_wake s e en w -> will_wake (set_pc (set_entry s e en') t task p) e en' w) -> (forall w, listening en w -> listening en' w) ->
  task_ok (set_pc (set_entry s e en') t task p) (mkTask (tkey task) p) ->
  inv (set_pc (set_entry s e en') t task p).
Proof.
  intros Hinv Ht Hen Hk Ho Hval Hnone Hwk Hw Hli Hself. set (s' := set_pc _ _ _ _) in *.
  assert (Hl : forall e0, entries s' !! e0 = if decide (e0 = e) then Some en' else entries s !! e0).
  { intros e0. unfold s', set_pc, set_entry. cbn [entries]. destruct (decide (e0 = e)) as [->|Hne].
    - apply list_lookup_insert_eq. by eapply lookup_lt_Some.
    - by apply list_lookup_insert_ne. }
  apply (step_inv s s' t task p Hinv Ht eq_refl); [|by left|done| |].
  - intros e0 en0 Hen0. rewrite Hl. destruct (decide (e0 = e)) as [->|Hne].
    + assert (en0 = en) as -> by congruence. exists en'. split_and!; try done. intros Hne. destruct Hval; [done|done].
    + exists en0. split_and!; try done. intros w. apply will_wake_kept; [done|done|]. intros v.
      apply (waking_kept s s' t task p); [done|done|]. intros Hp. apply Hne. by eapply Hwk.
  - intros k0 e0 Hm. destruct (inv_map _ Hinv k0 e0 Hm) as (en0 & Hen0 & Hk0). rewrite Hl. destruct (decide (e0 = e)) as [->|Hne]; [|by exists en0].
    exists en'. split; [done|]. rewrite Hk. congruence.
  - intros e0 en0 Hen0 Hv0. rewrite Hl in Hen0. destruct (decide (owner (pc task) = Some e0)) as [Heq|Hno]; [left; congruence|].
    right. split; [|done]. destruct (decide (e0 = e)) as [->|Hne]; [|by exists en0]. injection Hen0 as ->. exists en. split; [done|]. by apply Hnone.
Qed.

Lemma rewritten s e en en' t task p : entries s !! e = Some en -> entries (set_pc (set_entry s e en') t task p) !! e = Some en'.
Proof. intros Hen. cbn. apply list_lookup_insert_eq. by eapply lookup_lt_Some. Qed.

Lemma call_async_inv s s' t task : inv s -> tasks s !! t = Some task -> call_async s t task = Some s' -> inv s'.
Proof.
  intros Hinv Ht Hstep. pose proof (inv_task _ Hinv _ _ Ht) as Hok. unfold call_async, task_ok in *.
  destruct (pc task) as [|e|e|e w|e w| |e|e|e v|e v|e v|c|o] eqn:Hp; try done.
  - injection Hstep as <-. eapply (inv_pc s _ t task); try done; [rewrite Hp; destruct (map s !! tkey task); auto|by rewrite Hp| |by apply Hinv].
    unfold task_ok. cbn [pc tkey]. destruct (map s !! tkey task) as [e|] eqn:Hm; [|done]. exact (inv_map _ Hinv _ _ Hm).
  - destruct Hok as (en & Hen & Hk). rewrite Hen in Hstep. injection Hstep as <-.
    eapply inv_entry_pc; try done; [by rewrite Hp|by right|by rewrite Hp| |].
    + intros w. apply will_wake_kept; [done|done|]. intros v. eapply waking_kept; [exact Ht|done|by rewrite Hp].
    + eexists. split; [eapply rewritten; exact Hen|done].
  - destruct Hok as (en & Hen & Hk). rewrite Hen in Hstep. cbn [mbind option_bind] in Hstep.
    pose proof (issued_notified (notify en)) as Hi. pose proof (ready_fresh (notify en)) as Hr.
    pose proof (fun w => issued_kept (notify en) w) as Hik. pose proof (fun w => ready_kept (notify en) w) as Hrk.
    destruct (notified (notify en)) as [w n]. injection Hstep as <-. cbn [fst snd] in *.
    eapply inv_entry_pc; try done; [by rewrite Hp|by right|by rewrite Hp| | |].
    + intros w0 [Hw0 Hv0]. split; [by apply Hik|]. cbn [evalue notify]. destruct (evalue en) as [v|]; [|by rewrite Hrk].
      destruct Hv0 as [Hv0|Hv0]; [left; by rewrite Hrk|right]. eapply waking_kept; [exact Ht|done|by rewrite Hp|exact Hv0].
    + intros w0 [Hw0 Hv0]. split; [by apply Hik|]. cbn [evalue notify]. intros Hn. rewrite Hrk by done. by apply Hv0.
    + eexists. split; [eapply rewritten; exact Hen|]. by split.
  - destruct Hok as (en & Hen & Hk & Hi & Hr). rewrite Hen in Hstep. injection Hstep as <-.
    eapply (inv_pc s _ t task); try done; [rewrite Hp; destruct (evalue en); auto|by rewrite Hp| |by apply Hinv].
    unfold task_ok. cbn [pc tkey]. destruct (evalue en) eqn:Hv; [done|]. exists en. split_and!; try done. split; [done|]. rewrite Hv. by apply Hr.
  - destruct Hok as (en & Hen & Hk & Hw). rewrite Hen in Hstep. cbn [mbind option_bind] in Hstep. destruct (ready _ _); [|done].
    injection Hstep as <-. eapply (inv_pc s _ t task); try done; [rewrite Hp; auto|by rewrite Hp|by exists en|by apply Hinv].
  - injection Hstep as <-. set (en := mkEntry _ _ _ _).
    assert (Hold : forall e en0, entries s !! e = Some en0 -> (entries s ++ [en]) !! e = Some en0) by (intros e en0 He; by apply lookup_app_l_Some).
    eapply (step_inv s _ t task); [done|done|reflexivity| | | | |].
    + intros e en0 Hen0. exists en0. cbn [entries]. split_and!; try done; [by apply Hold|]. intros w. apply will_wake_kept; [done|done|].
      intros v. eapply waking_kept; [exact Ht|done|by rewrite Hp].
    + right. right. eexists. split; [done|]. by apply lookup_ge_None_2.
    + exists en. split; [|done]. by apply list_lookup_middle.
    + cbn [map entries]. intros k0 e Hm. destruct (inv_map _ Hinv k0 e Hm) as (en0 & Hen0 & Hk0). exists en0. split; [by apply Hold|done].
    + cbn [entries]. intros e en0 Hen0 Hv0. apply lookup_app_Some in Hen0 as [Hen0|[Hge Hen0]].
      * right. split; [by exists en0|by rewrite Hp].
      * left. cbn [owner]. apply list_lookup_singleton_Some in Hen0 as [Hz _]. f_equal. lia.
  - destruct Hok as (en & Hen & Hk & Hv). rewrite Hen in Hstep. injection Hstep as <-.
    eapply (inv_pc s _ t task); try done; [rewrite Hp; auto|by rewrite Hp|by exists en|].
    cbn [map set_pc set_map entries]. intros k0 e0. rewrite lookup_insert_Some. intros [[<- <-]|[_ Hm]]; [by exists en|by apply Hinv].
  - destruct Hok as (en & Hen & Hk & Hv). rewrite Hen in Hstep. injection Hstep as <-.
    eapply inv_entry_pc; try done; [by rewrite Hp|by left; rewrite Hp|by rewrite Hp| | |].
    + intros w [Hi Hr]. split; [done|]. cbn [evalue]. right. exists t, (mkTask (tkey task) (Wake e v)). split; [|reflexivity].
      cbn [tasks set_pc]. apply list_lookup_insert_eq. by eapply lookup_lt_Some.
    + intros w [Hi Hr]. by split.
    + eexists. split; [eapply rewritten; exact Hen|done].
  - destruct Hok as (en & Hen & Hk & Hv). rewrite Hen in Hstep. injection Hstep as <-.
    eapply inv_entry_pc; try done; [by rewrite Hp|by right|rewrite Hp; naive_solver| | |].
    + intros w [Hi Hr]. split; [by apply issued_waiters|]. cbn [evalue notify]. rewrite Hv. left. by apply ready_waiters.
    + intros w [Hi Hr]. split; [by apply issued_waiters|]. cbn [evalue]. congruence.
    + eexists. split; [eapply rewritten; exact Hen|done].
  - destruct Hok as (en & Hen & Hk & Hv). rewrite Hen in Hstep. injection Hstep as <-.
    eapply (inv_pc s _ t task); try done; [right; right; rewrite Hp; eauto|by rewrite Hp|].
    cbn [map set_pc set_map entries]. intros k0 e0. rewrite lookup_delete_Some. intros [_ Hm]. by apply Hinv.
Qed.

Lemma exec_inv s ev s' : inv s -> exec s ev = Some s' -> inv s'.
Proof.
  intros Hinv Hstep. destruct ev as [k|t|t v|t|k]; cbn [exec] in Hstep.
  - injection Hstep as <-. constructor; cbn [map entries tasks].
    + apply Hinv.
    + intros t task [Hl|[_ Hl]]%lookup_app_Some.
      * pose proof (inv_task _ Hinv _ _ Hl) as Hok. unfold task_ok, will_wake, waking in *. cbn [entries tasks].
        destruct (pc task) as [| | | |e w| | | | | | | |[|]]; try done. destruct Hok as (en & Hen & Hk & Hi & Hr). exists en. split_and!; try done.
        destruct (evalue en); [|done]. destruct Hr as [Hr|(t' & task' & Ht' & Hp')]; [by left|right]. exists t', task'.
        split; [by apply lookup_app_l_Some|done].
      * apply list_lookup_singleton_Some in Hl as [_ <-]. done.
    + intros t t' task task' e [Hl|[_ Hl]]%lookup_app_Some [Hl'|[_ Hl']]%lookup_app_Some Ho Ho';
        try (apply list_lookup_singleton_Some in Hl as [_ <-]; done); try (apply list_lookup_singleton_Some in Hl' as [_ <-]; done).
      by eapply inv_owner.
    + intros e en Hen Hv. destruct (inv_entry _ Hinv e en Hen Hv) as (t & task & Ht & Ho). exists t, task. split; [by apply lookup_app_l_Some|done].
  - destruct (tasks s !! t) as [task|] eqn:Ht; [|done]. by eapply call_async_inv.
  - destruct (tasks s !! t) as [task|] eqn:Ht; [|done]. cbn [mbind option_bind] in Hstep. destruct (pc task) as [| | | | | | |e| | | | |] eqn:Hp; try done.
    injection Hstep as <-. pose proof (inv_task _ Hinv _ _ Ht) as Hok. unfold task_ok in Hok. rewrite Hp in Hok.
    eapply (inv_pc s _ t task); try done; [rewrite Hp; auto|by rewrite Hp|by apply Hinv].
  - destruct (tasks s !! t) as [task|] eqn:Ht; [|done]. cbn [mbind option_bind] in Hstep.
    pose proof (inv_task _ Hinv _ _ Ht) as Hok. unfold task_ok in Hok.
    destruct (pc task) as [| | | |e w| | |e| | | | |] eqn:Hp; try done; injection Hstep as <-;
      (eapply (inv_pc s _ t task); try done; [rewrite Hp; auto|by rewrite Hp|by apply Hinv]).
  - injection Hstep as <-. constructor; [|apply Hinv..]. cbn. intros k0 e. rewrite lookup_delete_Some. intros [_ Hm]. by apply Hinv.
Qed.

Lemma run_inv s evs s' : inv s -> run s evs = Some s' -> inv s'.
Proof.
  revert s. induction evs as [|ev evs IH]; intros s Hinv Hrun; [by injection Hrun as <-|]. cbn [run] in Hrun.
  destruct (exec s ev) as [s1|] eqn:He; [|done]. apply (IH s1); [by eapply exec_inv|done].
Qed.

Lemma inv_new : inv Group_new.
Proof. by constructor. Qed.

Lemma run_schedule_app s evs1 evs2 : run s (evs1 ++ evs2) = s' ← run s evs1; run s' evs2.
Proof. revert s. induction evs1 as [|ev evs1 IH]; intros s; [done|]. simpl. destruct (exec s ev); [apply IH|done]. Qed.

(** ** The work left

    What a caller has still to do, in actions; fewer once its entry has a
    value. *)
Definition has_value (s : State) (e : nat) : bool :=
  match entries s !! e with Some en => bool_decide (is_Some (evalue en)) | None => false end.

Definition rank (s : State) (p : Pc) : nat :=
  match p with
  | Lookup => 12
  | Join e => if has_value s e then 3 else 6
  | Register e => if has_value s e then 2 else 5
  | Examine e _ => if has_value s e then 1 else 4
  | Wait _ _ => 3
  | Create => 11
  | Publish _ => 10
  | Running _ => 9
  | Store _ _ => 8
  | Wake _ _ => 7
  | Unmap _ _ => 6
  | Return _ | Dropped _ => 0
  end.

Definition work (s : State) : nat := sum_list ((fun task => rank s (pc task)) <$> tasks s).

(** The caller that an event moves on. *)
Definition actor (ev : Event) : option nat :=
  match ev with Act t | Finish t _ | Cancel t => Some t | Enter _ | Forget _ => None end.

(** That [f] of the caller has returned [v]. *)
Definition led (p : Pc) (v : V) : Prop :=
  match p with
  | Store _ v' | Wake _ v' | Unmap _ v' => v' = v
  | Return c => shared c = false /\ val c = v
  | _ => False
  end.

(** Entries keep their keys, and get a value only from the caller that stores
    it; new ones have none. *)
Definition grown (s s' : State) (task : Task) : Prop :=
  (forall e en, entries s !! e = Some en -> exists en', entries s' !! e = Some en' /\ key en' = key en /\
     (evalue en' = evalue en \/ exists v, pc task = Store e v /\ evalue en' = Some v)) /\
  (forall e en, entries s' !! e = Some en -> is_Some (entries s !! e) \/ evalue en = None).

Lemma grown_same s s' task : entries s' = entries s -> grown s s' task.
Proof. intros He. split; intros e en Hen; rewrite He in *; [|by left]. exists en. auto. Qed.

Lemma grown_set s t task p e en en' : entries s !! e = Some en -> key en' = key en ->
  (evalue en' = evalue en \/ exists v, pc task = Store e v /\ evalue en' = Some v) -> grown s (set_pc (set_entry s e en') t task p) task.
Proof.
  intros Hen Hk Hv. split; intros e0 en0 Hen0; cbn [entries set_pc set_entry] in *.
  - destruct (decide (e = e0)) as [<-|Hne].
    + exists en'. rewrite list_lookup_insert_eq by (by eapply lookup_lt_Some). replace en0 with en by congruence. done.
    + exists en0. rewrite list_lookup_insert_ne by done. auto.
  - apply list_lookup_insert_Some in Hen0 as [(-> & _ & _)|[_ Hen0]]; left; by eexists.
Qed.

Lemma grown_app s m en l task : evalue en = None -> grown s (mkState m (entries s ++ [en]) l) task.
Proof.
  intros Hv. split; intros e en0 Hen0; cbn [entries] in *.
  - exists en0. split; [by apply lookup_app_l_Some|auto].
  - apply lookup_app_Some in Hen0 as [Hen0|[_ Hen0]]; [left; by eexists|right]. by apply list_lookup_singleton_Some in Hen0 as [_ <-].
Qed.

Lemma grown_value s s' task e : grown s s' task -> has_value s e = true -> has_value s' e = true.
Proof.
  intros [Hg _]. unfold has_value. destruct (entries s !! e) as [en|] eqn:Hen; [|done]. destruct (Hg e en Hen) as (en' & -> & _ & Hv).
  rewrite !bool_decide_eq_true. intros [v Hs]. destruct Hv as [->|(v' & _ & ->)]; by eexists.
Qed.

(** What an event of a caller does. *)
Record moved (s s' : State) (ev : Event) (t : nat) (task : Task) (p : Pc) : Prop := mkMoved {
  mv_before : tasks s !! t = Some task;
  mv_after : tasks s' = <[t := mkTask (tkey task) p]> (tasks s);
  mv_grown : grown s s' task;
  mv_rank : (rank s' p < rank s (pc task))%nat;
  mv_led v : led (pc task) v -> led p v;
  mv_led_from v : led p v -> led (pc task) v \/ ev = Finish t v;
  mv_finish v : ev = Finish t v -> led p v /\ (forall v', ~ led (pc task) v');
  mv_shared v : p = Return (mkCall v true) -> exists e en, entries s !! e = Some en /\ key en = tkey task /\ evalue en = Some v;
}.

Ltac move_done Hp := try (intros; first [discriminate|rewrite Hp in *; simpl in *; naive_solver]).

Lemma rank_known s s' task e (a b a' b' : nat) : grown s s' task -> (a < a')%nat -> (b < b')%nat -> (a < b')%nat ->
  ((if has_value s' e then a else b) < (if has_value s e then a' else b'))%nat.
Proof. intros Hg ???. pose proof (grown_value s s' task e Hg) as Hm. destruct (has_value s e); [by rewrite (Hm eq_refl)|]. by destruct (has_value s' e). Qed.

Lemma exec_moved s ev s' t : inv s -> exec s ev = Some s' -> actor ev = Some t -> exists task p, moved s s' ev t task p.
Proof.
  intros Hinv Hstep Hact. destruct ev as [k|t0|t0 v0|t0|k]; try done; injection Hact as ->; cbn [exec] in Hstep;
    (destruct (tasks s !! t) as [task|] eqn:Ht; [|done]); cbn [mbind option_bind] in Hstep; exists task;
    pose proof (inv_task _ Hinv _ _ Ht) as Hok; unfold task_ok in Hok.
  - unfold call_async in Hstep. destruct (pc task) as [|e|e|e w|e w| |e|e|e v|e v|e v|c|o] eqn:Hp; try done.
    + destruct (map s !! tkey task) as [e|]; injection Hstep as <-; eexists;
        (split; [exact Ht|reflexivity|by apply grown_same| |move_done Hp..]); rewrite Hp; cbn [rank]; [destruct (has_value _ e)|]; lia.
    + destruct Hok as (en & Hen & Hk). rewrite Hen in Hstep. injection Hstep as <-. eexists.
      assert (Hg := grown_set s t task (Register e) e en (mkEntry (key en) (evalue en) (notify en) (u64 (dups en + 1))) Hen eq_refl (or_introl eq_refl)).
      split; [exact Ht|reflexivity|exact Hg| |move_done Hp..]. rewrite Hp. cbn [rank]. apply (rank_known _ _ _ _ _ _ _ _ Hg); lia.
    + destruct Hok as (en & Hen & Hk). rewrite Hen in Hstep. cbn [mbind option_bind] in Hstep. destruct (notified (notify en)) as [w n].
      injection Hstep as <-. eexists.
      assert (Hg := grown_set s t task (Examine e w) e en (mkEntry (key en) (evalue en) n (dups en)) Hen eq_refl (or_introl eq_refl)).
      split; [exact Ht|reflexivity|exact Hg| |move_done Hp..]. rewrite Hp. cbn [rank]. apply (rank_known _ _ _ _ _ _ _ _ Hg); lia.
    + destruct Hok as (en & Hen & Hk & _). rewrite Hen in Hstep. cbn [mbind option_bind] in Hstep.
      assert (Hhas : has_value s e = bool_decide (is_Some (evalue en))) by (unfold has_value; by rewrite Hen).
      destruct (evalue en) as [v|] eqn:Hv; injection Hstep as <-; eexists; (split; [exact Ht|reflexivity|by apply grown_same| |move_done Hp..]).
      * rewrite Hp. cbn [rank]. rewrite Hhas. simpl. lia.
      * intros v' [= <-]. by exists e, en.
      * rewrite Hp. cbn [rank]. rewrite Hhas. simpl. lia.
    + destruct Hok as (en & Hen & Hk & Hi & Hr). rewrite Hen in Hstep. cbn [mbind option_bind] in Hstep.
      destruct (ready (notify en) w) eqn:Hrd; [|done]. injection Hstep as <-. eexists.
      split; [exact Ht|reflexivity|by apply grown_same| |move_done Hp..].
      rewrite Hp. cbn [rank]. unfold has_value. cbn [entries set_pc]. rewrite Hen. destruct (evalue en); [cbn; lia|congruence].
    + injection Hstep as <-. eexists. split; [exact Ht|reflexivity|by apply grown_app|rewrite Hp; simpl; lia|move_done Hp..].
    + destruct Hok as (en & Hen & Hk & Hv). rewrite Hen in Hstep. injection Hstep as <-. eexists.
      split; [exact Ht|reflexivity|by apply grown_same|rewrite Hp; simpl; lia|move_done Hp..].
    + destruct Hok as (en & Hen & Hk & Hv). rewrite Hen in Hstep. injection Hstep as <-. eexists.
      split; [exact Ht|reflexivity|apply (grown_set _ _ _ _ _ en); [done|done|right; by exists v]|rewrite Hp; simpl; lia|move_done Hp..].
    + destruct Hok as (en & Hen & Hk & Hv). rewrite Hen in Hstep. injection Hstep as <-. eexists.
      split; [exact Ht|reflexivity|apply (grown_set _ _ _ _ _ en); [done|done|by left]|rewrite Hp; simpl; lia|move_done Hp..].
    + destruct Hok as (en & Hen & Hk & Hv). rewrite Hen in Hstep. injection Hstep as <-. eexists.
      split; [exact Ht|reflexivity|by apply grown_same|rewrite Hp; simpl; lia|move_done Hp..].
  - destruct (pc task) as [| | | | | | |e| | | | |] eqn:Hp; try done. injection Hstep as <-. eexists.
    split; [exact Ht|reflexivity|by apply grown_same|rewrite Hp; simpl; lia|move_done Hp..].
  - destruct (pc task) as [| | | |e w| | |e| | | | |] eqn:Hp; try done; injection Hstep as <-; eexists;
      (split; [exact Ht|reflexivity|by apply grown_same|rewrite Hp; simpl; lia|move_done Hp..]).
Qed.

Lemma rank_le s s' task p : grown s s' task -> (rank s' p <= rank s p)%nat.
Proof.
  intros Hg. destruct p as [|e|e|e w|e w| |e|e|e v|e v|e v|c|o]; cbn [rank]; try lia;
    pose proof (grown_value s s' task e Hg) as Hm;
    (destruct (has_value s e); [rewrite (Hm eq_refl); simpl; lia|destruct (has_value s' e); simpl; lia]).
Qed.

Lemma sum_update (f g : Task -> nat) l t x x' : l !! t = Some x -> (forall y, g y <= f y)%nat -> (g x' < f x)%nat ->
  (sum_list (g <$> <[t := x']> l) < sum_list (f <$> l))%nat.
Proof.
  intros Hl Hle Hlt. assert (Hall : forall l, (sum_list (g <$> l) <= sum_list (f <$> l))%nat).
  { intros l0. induction l0 as [|y l0 IH]; csimpl; [lia|]. pose proof (Hle y). lia. }
  revert t Hl. induction l as [|y l IH]; intros [|t] Hl; csimpl; csimpl in Hl; try done.
  - injection Hl as ->. pose proof (Hall l). lia.
  - pose proof (IH t Hl). pose proof (Hle y). lia.
Qed.

Lemma moved_work s s' ev t task p : moved s s' ev t task p -> (work s' < work s)%nat.
Proof.
  intros Hm. unfold work. rewrite (mv_after _ _ _ _ _ _ Hm). eapply sum_update; [exact (mv_before _ _ _ _ _ _ Hm)| |exact (mv_rank _ _ _ _ _ _ Hm)].
  intros y. eapply rank_le, (mv_grown _ _ _ _ _ _ Hm).
Qed.

(** A schedule of the callers there are is no longer than their work. *)
Lemma run_work s evs s' : inv s -> Forall (fun ev => actor ev <> None) evs -> run s evs = Some s' -> (length evs + work s' <= work s)%nat.
Proof.
  intros Hinv Hevs. revert s Hinv. induction Hevs as [|ev evs Hev Hevs IH]; intros s Hinv Hrun; [injection Hrun as <-; simpl; lia|].
  cbn [run] in Hrun. destruct (exec s ev) as [s1|] eqn:He; [|done]. cbn [mbind option_bind] in Hrun.
  destruct (actor ev) as [t|] eqn:Ha; [|done]. destruct (exec_moved s ev s1 t Hinv He Ha) as (task & p & Hm).
  pose proof (moved_work _ _ _ _ _ _ Hm). pose proof (IH s1 (exec_inv _ _ _ Hinv He) Hrun). simpl. lia.
Qed.

(** ** Progress *)

Definition finished (p : Pc) : Prop := match p with Return _ | Dropped _ => True | _ => False end.

(** Caller [t] can act, or waits for nothing but its own [f]. *)
Definition can_move (s : State) (t : nat) : Prop :=
  (exists s', exec s (Act t) = Some s') \/ (forall v, exists s', exec s (Finish t v) = Some s').

(** No caller went away while it ran [f]. *)
Definition no_deserter (s : State) : Prop := forall t task e, tasks s !! t = Some task -> pc task <> Dropped (Some e).

Lemma active_moves s t task : inv s -> tasks s !! t = Some task ->
  match pc task with Wait _ _ | Return _ | Dropped _ => False | _ => True end -> can_move s t.
Proof.
  intros Hinv Ht Hp. pose proof (inv_task _ Hinv _ _ Ht) as Hok. unfold task_ok, can_move, exec in *. rewrite Ht. cbn [mbind option_bind].
  unfold call_async. destruct (pc task) as [|e|e|e w|e w| |e|e|e v|e v|e v|c|o]; try done;
    try (left; eexists; reflexivity); try (right; intros v; eexists; reflexivity);
    left; destruct Hok as (en & -> & _); cbn [mbind option_bind]; try (destruct (notified _)); eexists; reflexivity.
Qed.

Lemma never_stuck s t task : inv s -> no_deserter s -> tasks s !! t = Some task -> ~ finished (pc task) -> exists t', can_move s t'.
Proof.
  intros Hinv Hno Ht Hf. destruct (pc task) as [|e|e|e w|e w| |e|e|e v|e v|e v|c|o] eqn:Hp; try done;
    try (exists t; apply (active_moves s t task Hinv Ht); by rewrite Hp).
  pose proof (inv_task _ Hinv _ _ Ht) as Hok. unfold task_ok in Hok. rewrite Hp in Hok. destruct Hok as (en & Hen & Hk & Hi & Hr).
  destruct (evalue en) as [v|] eqn:Hv.
  - destruct Hr as [Hr|(t' & task' & Ht' & Hp')]; [|exists t'; apply (active_moves s t' task' Hinv Ht'); by rewrite Hp'].
    exists t. left. unfold exec. rewrite Ht. cbn [mbind option_bind]. unfold call_async. rewrite Hp, Hen. cbn [mbind option_bind]. rewrite Hr. by eexists.
  - destruct (inv_entry _ Hinv e en Hen Hv) as (t' & task' & Ht' & Ho'). exists t'. apply (active_moves s t' task' Hinv Ht').
    destruct (pc task') as [| | | | | |e'|e'|e' v'|e' v'|e' v'|c'|[e'|]] eqn:Hp'; try done. by eapply Hno.
Qed.

(** ** Results *)

(** The runs of [f] so far are those of the callers that came past them, and
    every shared result is one of theirs. *)
Record traced (evs : list Event) (s : State) : Prop := mkTraced {
  tr_led t v : Finish t v ∈ evs <-> exists task, tasks s !! t = Some task /\ led (pc task) v;
  tr_value e en v : entries s !! e = Some en -> evalue en = Some v ->
    exists t task, tasks s !! t = Some task /\ tkey task = key en /\ led (pc task) v;
  tr_shared t task v : tasks s !! t = Some task -> pc task = Return (mkCall v true) ->
    exists t' task', tasks s !! t' = Some task' /\ tkey task' = tkey task /\ led (pc task') v;
}.

Lemma led_unique p v v' : led p v -> led p v' -> v = v'.
Proof. destruct p; simpl; naive_solver. Qed.

Lemma led_kept s s' ev t task p t' task' v : moved s s' ev t task p -> tasks s !! t' = Some task' -> led (pc task') v ->
  exists task'', tasks s' !! t' = Some task'' /\ tkey task'' = tkey task' /\ led (pc task'') v.
Proof.
  intros Hm Ht' Hled. rewrite (mv_after _ _ _ _ _ _ Hm). pose proof (mv_before _ _ _ _ _ _ Hm) as Ht. destruct (decide (t' = t)) as [->|Hne].
  - exists (mkTask (tkey task) p). rewrite list_lookup_insert_eq by (by eapply lookup_lt_Some). assert (task' = task) as -> by congruence.
    split_and!; [done|done|]. by apply (mv_led _ _ _ _ _ _ Hm).
  - exists task'. by rewrite list_lookup_insert_ne.
Qed.

Lemma moved_traced evs s s' ev t task p : inv s -> actor ev = Some t -> moved s s' ev t task p -> traced evs s -> traced (evs ++ [ev]) s'.
Proof.
  intros Hinv Ha Hm [T1 T2 T3]. pose proof (mv_before _ _ _ _ _ _ Hm) as Ht.
  assert (Hback : forall t' task', tasks s' !! t' = Some task' -> t' = t /\ task' = mkTask (tkey task) p \/ t' <> t /\ tasks s !! t' = Some task').
  { intros t' task'. rewrite (mv_after _ _ _ _ _ _ Hm), list_lookup_insert_Some. naive_solver. }
  constructor.
  - intros t' v. rewrite elem_of_app, list_elem_of_singleton, T1. split.
    + intros [(task' & Ht' & Hl) | <-]; [destruct (led_kept _ _ _ _ _ _ _ _ _ Hm Ht' Hl) as (task'' & ? & _ & ?); by exists task''|].
      injection Ha as ->. exists (mkTask (tkey task) p). rewrite (mv_after _ _ _ _ _ _ Hm), list_lookup_insert_eq by (by eapply lookup_lt_Some).
      split; [done|]. by apply (mv_finish _ _ _ _ _ _ Hm).
    + intros (task' & Ht' & Hl). destruct (Hback _ _ Ht') as [[-> ->]|[Hne Hold]]; [|left; by exists task'].
      destruct (mv_led_from _ _ _ _ _ _ Hm v Hl) as [Hl'| ->]; [left; by exists task|by right].
  - intros e en v Hen Hv. destruct (mv_grown _ _ _ _ _ _ Hm) as [Hg Hg']. destruct (Hg' e en Hen) as [[en0 Hen0]|Hnone]; [|congruence].
    destruct (Hg e en0 Hen0) as (en' & Hen' & Hk & Hval). assert (en' = en) as -> by congruence.
    assert (Hfrom : exists t' task', tasks s !! t' = Some task' /\ tkey task' = key en /\ led (pc task') v).
    { destruct Hval as [Heq|(v0 & Hp & Hv0)].
      - destruct (T2 e en0 v Hen0) as (t' & task' & ? & ? & ?); [congruence|]. exists t', task'. split_and!; [done|congruence|done].
      - exists t, task. pose proof (inv_task _ Hinv _ _ Ht) as Hok. unfold task_ok in Hok. rewrite Hp in *.
        destruct Hok as (en1 & Hen1 & Hk1 & _). split_and!; [done|congruence|simpl; congruence]. }
    destruct Hfrom as (t' & task' & Ht' & Hk' & Hl'). destruct (led_kept _ _ _ _ _ _ _ _ _ Hm Ht' Hl') as (task'' & ? & ? & ?).
    exists t', task''. split_and!; [done|congruence|done].
  - intros t' task' v Ht' Hp'. assert (Hfrom : exists t1 task1, tasks s !! t1 = Some task1 /\ tkey task1 = tkey task' /\ led (pc task1) v).
    { destruct (Hback _ _ Ht') as [[-> ->]|[Hne Hold]]; [|by eapply T3]. cbn [pc tkey] in *.
      destruct (mv_shared _ _ _ _ _ _ Hm v Hp') as (e & en & Hen & Hk & Hv).
      destruct (T2 e en v Hen Hv) as (t1 & task1 & ? & ? & ?). exists t1, task1. split_and!; [done|congruence|done]. }
    destruct Hfrom as (t1 & task1 & Ht1 & Hk1 & Hl1). destruct (led_kept _ _ _ _ _ _ _ _ _ Hm Ht1 Hl1) as (task2 & ? & ? & ?).
    exists t1, task2. split_and!; [done|congruence|done].
Qed.

Lemma run_traced evs s : run Group_new evs = Some s -> traced evs s.
Proof.
  revert s. induction evs as [|ev evs IH] using rev_ind; intros s Hrun.
  - injection Hrun as <-. constructor; [|done..]. intros t v. split; [by intros ?%not_elem_of_nil|by intros (? & ? & _)].
  - rewrite run_schedule_app in Hrun. destruct (run Group_new evs) as [s0|] eqn:H0run; [|done]. cbn [mbind option_bind run] in Hrun.
    destruct (exec s0 ev) as [s1|] eqn:He; [|done]. injection Hrun as <-. pose proof (IH s0 eq_refl) as Htr.
    pose proof (run_inv _ _ _ inv_new H0run) as Hinv. destruct (actor ev) as [t|] eqn:Ha.
    + destruct (exec_moved s0 ev s1 t Hinv He Ha) as (task & p & Hm). by eapply moved_traced.
    + destruct Htr as [T1 T2 T3]. destruct ev as [k|t|t v|t|k]; try done; injection He as <-; constructor; cbn [tasks entries forget set_map].
      * intros t v. rewrite elem_of_app, list_elem_of_singleton, T1. split.
        -- intros [(task & ? & ?)|?]; [|done]. exists task. split; [by apply lookup_app_l_Some|done].
        -- intros (task & [Hl|[_ Hl]]%lookup_app_Some & Hled); [left; by exists task|]. by apply list_lookup_singleton_Some in Hl as [_ <-].
      * intros e en v Hen Hv. destruct (T2 e en v Hen Hv) as (t & task & ? & ? & ?). exists t, task. split; [by apply lookup_app_l_Some|done].
      * intros t task v [Hl|[_ Hl]]%lookup_app_Some Hp; [|by apply list_lookup_singleton_Some in Hl as [_ <-]].
        destruct (T3 t task v Hl Hp) as (t' & task' & ? & ? & ?). exists t', task'. split; [by apply lookup_app_l_Some|done].
      * intros t v. rewrite elem_of_app, list_elem_of_singleton, T1. naive_solver.
      * done.
      * done.
Qed.

(** ** A caller that goes away while it runs [f] *)

(** Caller [t] waits on an entry whose runner was dropped, or was dropped
    itself meanwhile. *)
Definition blocked (s : State) (t : nat) : Prop := exists task, tasks s !! t = Some task /\
  (pc task = Dropped None \/ exists e w t' task', pc task = Wait e w /\ tasks s !! t' = Some task' /\ pc task' = Dropped (Some e)).

Lemma dropped_stays s ev s' t task e : inv s -> exec s ev = Some s' -> tasks s !! t = Some task -> pc task = Dropped e -> tasks s' !! t = Some task.
Proof.
  intros Hinv He Ht Hp. destruct (actor ev) as [t0|] eqn:Ha.
  - destruct (exec_moved s ev s' t0 Hinv He Ha) as (task0 & p & Hm). rewrite (mv_after _ _ _ _ _ _ Hm).
    rewrite list_lookup_insert_ne; [done|]. intros ->. pose proof (mv_before _ _ _ _ _ _ Hm) as Ht0. assert (task0 = task) as -> by congruence.
    pose proof (mv_rank _ _ _ _ _ _ Hm) as Hr. rewrite Hp in Hr. simpl in Hr. lia.
  - destruct ev as [k|t0|t0 v|t0|k]; try done; injection He as <-; first [exact Ht|by apply lookup_app_l_Some].
Qed.

Lemma blocked_step s ev s' t : inv s -> exec s ev = Some s' -> blocked s t -> blocked s' t.
Proof.
  intros Hinv He (task & Ht & [Hp|(e & w & t' & task' & Hp & Ht' & Hp')]).
  - exists task. split; [by eapply dropped_stays|by left].
  - pose proof (dropped_stays s ev s' t' task' (Some e) Hinv He Ht' Hp') as Hstay.
    pose proof (inv_task _ Hinv _ _ Ht') as Hok'. unfold task_ok in Hok'. rewrite Hp' in Hok'. destruct Hok' as (en & Hen & _ & Hv).
    pose proof (inv_task _ Hinv _ _ Ht) as Hok. unfold task_ok in Hok. rewrite Hp in Hok. destruct Hok as (en' & Hen' & _ & Hi & Hr).
    assert (en' = en) as -> by congruence. rewrite Hv in Hr.
    assert (Hsame : tasks s' !! t = Some task -> blocked s' t).
    { intros Hs. exists task. split; [done|]. right. by exists e, w, t', task'. }
    destruct ev as [k|t0|t0 v|t0|k]; cbn [exec] in He.
    + injection He as <-. apply Hsame. by apply lookup_app_l_Some.
    + destruct (decide (t0 = t)) as [->|Hne].
      * rewrite Ht in He. cbn [mbind option_bind] in He. unfold call_async in He. rewrite Hp, Hen in He. cbn [mbind option_bind] in He. by rewrite Hr in He.
      * apply Hsame. destruct (exec_moved s (Act t0) s' t0 Hinv He eq_refl) as (task0 & p & Hm).
        by rewrite (mv_after _ _ _ _ _ _ Hm), list_lookup_insert_ne.
    + apply Hsame. destruct (exec_moved s (Finish t0 v) s' t0 Hinv He eq_refl) as (task0 & p & Hm). rewrite (mv_after _ _ _ _ _ _ Hm).
      rewrite list_lookup_insert_ne; [done|]. intros ->. rewrite Ht in He. cbn [mbind option_bind] in He. by rewrite Hp in He.
    + destruct (decide (t0 = t)) as [->|Hne].
      * rewrite Ht in He. cbn [mbind option_bind] in He. rewrite Hp in He. injection He as <-. exists (mkTask (tkey task) (Dropped None)). split; [|by left].
        cbn [tasks set_pc]. apply list_lookup_insert_eq. by eapply lookup_lt_Some.
      * apply Hsame. destruct (exec_moved s (Cancel t0) s' t0 Hinv He eq_refl) as (task0 & p & Hm).
        by rewrite (mv_after _ _ _ _ _ _ Hm), list_lookup_insert_ne.
    + injection He as <-. by apply Hsame.
Qed.

(** ** On one thread

    An executor with a single thread runs a caller from one await to the next
    without another in between. *)
Definition at_await (p : Pc) : Prop :=
  match p with Lookup | Wait _ _ | Running _ | Return _ | Dropped _ => True | _ => False end.

Inductive settles (t : nat) : State -> State -> Prop :=
| settled s task : tasks s !! t = Some task -> at_await (pc task) -> settles t s s
| settle_act s task s1 s' : tasks s !! t = Some task -> ~ at_await (pc task) -> exec s (Act t) = Some s1 -> settles t s1 s' -> settles t s s'.

Inductive one_thread : State -> Prop :=
| thread_new : one_thread Group_new
| thread_enter s k s' : one_thread s -> exec s (Enter k) = Some s' -> one_thread s'
| thread_turn s ev t s1 s' : one_thread s -> actor ev = Some t -> exec s ev = Some s1 -> settles t s1 s' -> one_thread s'.

(** The entry of a caller that runs [f], or has its result, is in the map; while
    one is being made its key is not. *)
Record coalesced (s : State) (active : option nat) : Prop := mkCoalesced {
  co_quiet t task : tasks s !! t = Some task -> active <> Some t -> at_await (pc task);
  co_running t task e : tasks s !! t = Some task ->
    (pc task = Running e \/ exists v, pc task = Store e v \/ pc task = Wake e v \/ pc task = Unmap e v) -> map s !! tkey task = Some e;
  co_making t task : tasks s !! t = Some task -> (pc task = Create \/ exists e, pc task = Publish e) -> map s !! tkey task = None;
}.

(** An action of [t] that leaves the map alone. *)
Lemma coalesced_pc s s' t task p : coalesced s None \/ coalesced s (Some t) -> tasks s !! t = Some task ->
  tasks s' = <[t := mkTask (tkey task) p]> (tasks s) -> map s' = map s ->
  (forall e, (p = Running e \/ exists v, p = Store e v \/ p = Wake e v \/ p = Unmap e v) -> map s !! tkey task = Some e) ->
  ((p = Create \/ exists e, p = Publish e) -> map s !! tkey task = None) -> coalesced s' (Some t).
Proof.
  intros Hc Ht Htasks Hm Hr Hn.
  assert (Hc' : coalesced s (Some t)) by (destruct Hc as [[Q R N]|Hc]; [constructor; [intros t' task' ??; by eapply Q|exact R|exact N]|exact Hc]).
  destruct Hc' as [Q R N].
  assert (Hback : forall t' task', tasks s' !! t' = Some task' -> t' = t /\ task' = mkTask (tkey task) p \/ t' <> t /\ tasks s !! t' = Some task').
  { intros t' task'. rewrite Htasks, list_lookup_insert_Some. naive_solver. }
  constructor.
  - intros t' task' Ht' Hne. destruct (Hback _ _ Ht') as [[-> ->]|[_ Hold]]; [done|by eapply Q].
  - intros t' task' e Ht' Hp. rewrite Hm. destruct (Hback _ _ Ht') as [[-> ->]|[_ Hold]]; [by apply Hr|by eapply R].
  - intros t' task' Ht' Hp. rewrite Hm. destruct (Hback _ _ Ht') as [[-> ->]|[_ Hold]]; [by apply Hn|by eapply N].
Qed.

Lemma act_coalesced s t s' : inv s -> coalesced s None \/ coalesced s (Some t) -> exec s (Act t) = Some s' -> coalesced s' (Some t).
Proof.
  intros Hinv Hc He. cbn [exec] in He. destruct (tasks s !! t) as [task|] eqn:Ht; [|done]. cbn [mbind option_bind] in He.
  pose proof (inv_task _ Hinv _ _ Ht) as Hok. unfold task_ok, call_async in *.
  assert (Hc' : coalesced s (Some t)) by (destruct Hc as [[Q R N]|Hc']; [constructor; [intros t' task' ??; by eapply Q|exact R|exact N]|exact Hc']).
  destruct (pc task) as [|e|e|e w|e w| |e|e|e v|e v|e v|c|o] eqn:Hp; try done.
  - destruct (map s !! tkey task) eqn:Hm; injection He as <-; eapply coalesced_pc; try done; naive_solver.
  - destruct Hok as (en & Hen & _). rewrite Hen in He. injection He as <-. eapply coalesced_pc; try done; naive_solver.
  - destruct Hok as (en & Hen & _). rewrite Hen in He. cbn [mbind option_bind] in He. destruct (notified (notify en)) as [w n].
    injection He as <-. eapply coalesced_pc; try done; naive_solver.
  - destruct Hok as (en & Hen & _). rewrite Hen in He. injection He as <-. eapply coalesced_pc; try done; destruct (evalue en); naive_solver.
  - destruct Hok as (en & Hen & _). rewrite Hen in He. cbn [mbind option_bind] in He. destruct (ready (notify en) w); [|done].
    injection He as <-. eapply coalesced_pc; try done; naive_solver.
  - injection He as <-. eapply coalesced_pc; try done; [naive_solver|]. intros _. eapply (co_making _ _ Hc'); [done|by left].
  - destruct Hok as (en & Hen & Hk & Hv). rewrite Hen in He. injection He as <-. rewrite Hk.
    pose proof (co_making _ _ Hc' t task Ht (or_intror (ex_intro _ e Hp))) as Hnone.
    assert (Hback : forall t' task', <[t := mkTask (tkey task) (Running e)]> (tasks s) !! t' = Some task' ->
      t' = t /\ task' = mkTask (tkey task) (Running e) \/ t' <> t /\ tasks s !! t' = Some task').
    { intros t' task'. rewrite list_lookup_insert_Some. naive_solver. }
    constructor; cbn [tasks map set_pc set_map].
    + intros t' task' Ht' Hne. destruct (Hback _ _ Ht') as [[-> ->]|[_ Hold]]; [done|by eapply (co_quiet _ _ Hc')].
    + intros t' task' e' Ht' Hp'. destruct (Hback _ _ Ht') as [[-> ->]|[Hne Hold]].
      * cbn [tkey pc] in *. rewrite lookup_insert_eq. naive_solver.
      * pose proof (co_running _ _ Hc' _ _ _ Hold Hp') as Hr. rewrite lookup_insert_ne; [done|congruence].
    + intros t' task' Ht' Hp'. destruct (Hback _ _ Ht') as [[-> ->]|[Hne Hold]]; [cbn in Hp'; naive_solver|].
      pose proof (co_quiet _ _ Hc' _ _ Hold ltac:(congruence)) as Hq. destruct Hp' as [Hp'|[e' Hp']]; by rewrite Hp' in Hq.
  - destruct Hok as (en & Hen & _). rewrite Hen in He. injection He as <-. eapply coalesced_pc; try done; [|naive_solver].
    intros e' Hp'. assert (e' = e) as -> by naive_solver. eapply (co_running _ _ Hc'); [done|]. rewrite Hp. eauto.
  - destruct Hok as (en & Hen & _). rewrite Hen in He. injection He as <-. eapply coalesced_pc; try done; [|naive_solver].
    intros e' Hp'. assert (e' = e) as -> by naive_solver. eapply (co_running _ _ Hc'); [done|]. rewrite Hp. eauto.
  - destruct Hok as (en & Hen & Hk & Hv). rewrite Hen in He. injection He as <-. rewrite Hk.
    assert (Hmine : map s !! tkey task = Some e) by (eapply (co_running _ _ Hc'); [exact Ht|]; rewrite Hp; eauto).
    assert (Hback : forall t' task', <[t := mkTask (tkey task) (Return (mkCall v false))]> (tasks s) !! t' = Some task' ->
      t' = t /\ task' = mkTask (tkey task) (Return (mkCall v false)) \/ t' <> t /\ tasks s !! t' = Some task').
    { intros t' task'. rewrite list_lookup_insert_Some. naive_solver. }
    constructor; cbn [tasks map set_pc set_map].
    + intros t' task' Ht' Hne. destruct (Hback _ _ Ht') as [[-> ->]|[_ Hold]]; [done|by eapply (co_quiet _ _ Hc')].
    + intros t' task' e' Ht' Hp'. destruct (Hback _ _ Ht') as [[-> ->]|[Hne Hold]]; [cbn in Hp'; naive_solver|].
      pose proof (co_running _ _ Hc' _ _ _ Hold Hp') as Hr. rewrite lookup_delete_ne; [done|]. intros Hkey. apply Hne.
      apply (inv_owner _ Hinv t' t task' task e Hold Ht); [|by rewrite Hp]. assert (e' = e) as -> by congruence.
      destruct Hp' as [Hp'|[v' [Hp'|[Hp'|Hp']]]]; by rewrite Hp'.
    + intros t' task' Ht' Hp'. destruct (Hback _ _ Ht') as [[-> ->]|[Hne Hold]]; [cbn in Hp'; naive_solver|].
      pose proof (co_quiet _ _ Hc' _ _ Hold ltac:(congruence)) as Hq. destruct Hp' as [Hp'|[e' Hp']]; by rewrite Hp' in Hq.
Qed.

Lemma settles_coalesced t s s' : settles t s s' -> inv s -> coalesced s (Some t) -> inv s' /\ coalesced s' None.
Proof.
  induction 1 as [s task Ht Hq|s task s1 s' Ht Hq He Hrest IH]; intros Hinv Hc.
  - split; [done|]. destruct Hc as [Q R N]. constructor; [|exact R|exact N]. intros t' task' Ht' _.
    destruct (decide (t' = t)) as [->|Hne]; [congruence|]. eapply Q; [done|congruence].
  - apply IH; [by eapply exec_inv|]. eapply act_coalesced; [exact Hinv|by right|exact He].
Qed.

Lemma thread_coalesced s : one_thread s -> inv s /\ coalesced s None.
Proof.
  induction 1 as [|s k s' _ [Hinv Hc] He|s ev t s1 s' _ [Hinv Hc] Ha He Hset].
  - split; [exact inv_new|]. by constructor.
  - split; [by eapply exec_inv|]. injection He as <-. destruct Hc as [Q R N]. constructor; cbn [tasks map].
    + intros t task [Hl|[_ Hl]]%lookup_app_Some Hne; [by eapply Q|]. by apply list_lookup_singleton_Some in Hl as [_ <-].
    + intros t task e [Hl|[_ Hl]]%lookup_app_Some Hp; [by eapply R|]. apply list_lookup_singleton_Some in Hl as [_ <-]. cbn in Hp. naive_solver.
    + intros t task [Hl|[_ Hl]]%lookup_app_Some Hp; [by eapply N|]. apply list_lookup_singleton_Some in Hl as [_ <-]. cbn in Hp. naive_solver.
  - apply (settles_coalesced t s1 s' Hset); [by eapply exec_inv|].
    destruct ev as [k|t0|t0 v|t0|k]; try done; injection Ha as ->; [by eapply act_coalesced; [|left|]| |].
    + cbn [exec] in He. destruct (tasks s !! t) as [task|] eqn:Ht; [|done]. cbn [mbind option_bind] in He.
      destruct (pc task) as [| | | | | | |e| | | | |] eqn:Hp; try done. injection He as <-. eapply coalesced_pc; try done; [by left| |naive_solver].
      intros e' Hp'. assert (e' = e) as -> by naive_solver. eapply (co_running _ _ Hc); [done|]. rewrite Hp. eauto.
    + cbn [exec] in He. destruct (tasks s !! t) as [task|] eqn:Ht; [|done]. cbn [mbind option_bind] in He.
      destruct (pc task) as [| | | |e w| | |e| | | | |] eqn:Hp; try done; injection He as <-; eapply coalesced_pc; try done; (by left) || naive_solver.
Qed.

(** ** Claims *)

(** C18: a result that is not shared is what the caller's own [f] returned, and
    the only value it ever returned; a shared one was returned by the [f] of
    another caller with the same key, and the caller's own [f] never ran to an
    end.  This holds for every interleaving of any number of callers, with
    callers dropped and keys forgotten at any time. *)
Theorem results_correct evs s : run Group_new evs = Some s -> forall t task v, tasks s !! t = Some task ->
  (pc task = Return (mkCall v false) -> Finish t v ∈ evs /\ forall v', Finish t v' ∈ evs -> v' = v) /\
  (pc task = Return (mkCall v true) -> (forall v', Finish t v' ∉ evs) /\
     exists t' task', t' <> t /\ tasks s !! t' = Some task' /\ tkey task' = tkey task /\ Finish t' v ∈ evs).
Proof.
  intros Hrun t task v Ht. pose proof (run_traced evs s Hrun) as [T1 _ T3]. split; intros Hp.
  - split; [apply T1; exists task; by rewrite Hp|]. intros v' (task' & Ht' & Hl)%T1. assert (task' = task) as -> by congruence.
    rewrite Hp in Hl. by destruct Hl as [_ <-].
  - assert (Hno : forall v', ~ led (pc task) v') by (intros v' Hl; rewrite Hp in Hl; by destruct Hl). split.
    + intros v' (task' & Ht' & Hl)%T1. assert (task' = task) as -> by congruence. by apply (Hno v').
    + destruct (T3 t task v Ht Hp) as (t' & task' & Ht' & Hk & Hl). exists t', task'. split_and!; [|done|done|apply T1; by exists task'].
      intros ->. assert (task' = task) as -> by congruence. by apply (Hno v).
Qed.

(** C19: no schedule of the callers there are is longer than [work], each step
    being bounded work of one caller, and as long as no caller is dropped while
    it runs [f], whenever some caller has not returned, some caller can move
    (or waits only for its own [f]): no wake-up is lost and, once each [f]
    returns, all callers do. *)
Theorem calls_return s evs s' : reachable s -> Forall (fun ev => actor ev <> None) evs -> run s evs = Some s' ->
  (length evs <= work s)%nat /\
  (no_deserter s' -> forall t task, tasks s' !! t = Some task -> ~ finished (pc task) -> exists t', can_move s' t').
Proof.
  intros [evs0 H0run] Hevs Hrun. pose proof (run_inv _ _ _ inv_new H0run) as Hinv. split.
  - pose proof (run_work s evs s' Hinv Hevs Hrun). lia.
  - intros Hno t task Ht Hf. eapply never_stuck; [exact (run_inv _ _ _ Hinv Hrun)|done..].
Qed.

(** C20: on one thread, where a caller runs from one await to the next on its
    own, and with no key forgotten, no two callers run [f] for the same key at
    the same time, and a caller that runs [f] has its entry in the map, where
    the next caller finds it. *)
Theorem one_in_flight s t task e : one_thread s -> tasks s !! t = Some task -> pc task = Running e ->
  map s !! tkey task = Some e /\
  forall t' task' e', tasks s !! t' = Some task' -> pc task' = Running e' -> tkey task' = tkey task -> t' = t.
Proof.
  intros Hth Ht Hp. destruct (thread_coalesced s Hth) as [Hinv Hc].
  pose proof (co_running _ _ Hc t task e Ht (or_introl Hp)) as Hm. split; [done|]. intros t' task' e' Ht' Hp' Hk.
  pose proof (co_running _ _ Hc t' task' e' Ht' (or_introl Hp')) as Hm'. rewrite Hk in Hm'.
  apply (inv_owner _ Hinv t' t task' task e Ht' Ht); rewrite ?Hp, ?Hp'; cbn [owner]; congruence.
Qed.

(** A caller that waits on one dropped while it ran [f] never returns, whatever
    happens. *)
Theorem deserted_forever s t evs s' : reachable s -> blocked s t -> run s evs = Some s' ->
  exists task, tasks s' !! t = Some task /\ forall c, pc task <> Return c.
Proof.
  intros [evs0 H0run] Hb Hrun. pose proof (run_inv _ _ _ inv_new H0run) as Hinv. clear H0run evs0.
  revert s Hinv Hb Hrun. induction evs as [|ev evs IH]; intros s Hinv Hb Hrun.
  - injection Hrun as <-. destruct Hb as (task & Ht & Hp). exists task. split; [done|]. destruct Hp as [->|(e & w & t' & task' & -> & _)]; done.
  - cbn [run] in Hrun. destruct (exec s ev) as [s1|] eqn:He; [|done]. apply (IH s1); [by eapply exec_inv|by eapply blocked_step|done].
Qed.

End Group.
Arguments Event K V : clear implicits.

(** ** A [Notify] by counting

    The generation of [notify_waiters] calls; a future is ready when its
    generation is over. *)
#[export] Instance counting : Notify := {|
  notify_t := nat; future := nat; notify_new := O; notified n := (n, n); notify_waiters := S; ready n w := bool_decide (w < n)%nat |}.

#[export] Instance counting_laws : @NotifyLaws counting.
Proof.
  refine (Build_NotifyLaws counting (fun n w : nat => (w <= n)%nat) _ _ _ _ _ _); cbn; intros; try lia; [by apply bool_decide_eq_true_2; lia|done|].
  apply bool_decide_eq_false_2. lia.
Defined.

(** Three callers of one key: the first runs [f], the others wait. *)
Definition three_callers : list (Event Z Z) :=
  [Enter 1; Act 0; Act 0; Act 0; Enter 1; Act 1; Act 1; Act 1; Act 1; Enter 1; Act 2; Act 2; Finish 0 42; Act 0; Act 0; Act 0; Act 1; Act 1; Act 1; Act 2; Act 2].

Example three_callers_share : (fun s => pc <$> tasks s) <$> run Group_new three_callers =
  Some [Return (mkCall 42 false); Return (mkCall 42 true); Return (mkCall 42 true)].
Proof. vm_compute. reflexivity. Qed.

(** Two threads look the key up before either has inserted it: both run [f]. *)
Definition two_lookups : list (Event Z Z) := [Enter 1; Enter 1; Act 0; Act 1; Act 0; Act 1; Act 0; Act 1].

Example two_in_flight : (fun s => (fun task => (tkey task, pc task)) <$> tasks s) <$> run Group_new two_lookups =
  Some [(1, Running 0%nat); (1, Running 1%nat)].
Proof. vm_compute. reflexivity. Qed.

(** The first caller of a key, forgotten, takes the entry of the second out of
    the map when it returns: the third does not wait for the second. *)
Definition late_remove : list (Event Z Z) :=
  [Enter 1; Act 0; Act 0; Act 0; Forget 1; Enter 1; Act 1; Act 1; Act 1; Finish 0 7; Act 0; Act 0; Act 0; Enter 1; Act 2; Act 2; Act 2].

Example forgotten_in_flight : (fun s => (fun task => (tkey task, pc task)) <$> tasks s) <$> run Group_new late_remove =
  Some [(1, Return (mkCall 7 false)); (1, Running 1%nat); (1, Running 2%nat)].
Proof. vm_compute. reflexivity. Qed.

(** The second caller waits, the first is dropped while it runs [f]. *)
Definition deserter : list (Event Z Z) := [Enter 1; Act 0; Act 0; Act 0; Enter 1; Act 1; Act 1; Act 1; Act 1; Cancel 0].

Example deserted : match run Group_new deserter with Some s => blocked s 1%nat | None => False end.
Proof. eexists. split; [reflexivity|]. right. exists 0%nat, 0%nat, 0%nat. eexists. split; [reflexivity|]. split; reflexivity. Qed.

(** ** Witnesses *)

Lemma results_correct_witness : exists s : State (K := Z) (V := Z), run Group_new three_callers = Some s /\
  exists t' task', t' <> 1%nat /\ tasks s !! t' = Some task' /\ tkey task' = 1 /\ Finish t' 42 ∈ three_callers.
Proof.
  eexists. split; [vm_compute; reflexivity|].
  refine (proj2 (proj2 (results_correct three_callers _ _ 1%nat (mkTask 1 (Return (mkCall 42 true))) 42 _) _)); vm_compute; reflexivity.
Defined.

(** The first two callers, and what is left to do when the second waits. *)
Definition one_waits : list (Event Z Z) := [Enter 1; Act 0; Act 0; Act 0; Enter 1; Act 1; Act 1; Act 1; Act 1].
Definition the_rest : list (Event Z Z) := [Finish 0 42; Act 0; Act 0; Act 0; Act 1; Act 1; Act 1].

Definition ended (evs : list (Event Z Z)) : State (K := Z) (V := Z) := match run Group_new evs with Some s => s | None => Group_new end.

Lemma calls_return_witness : run Group_new one_waits = Some (ended one_waits) /\
  (length the_rest <= work (ended one_waits))%nat /\ exists t', can_move (ended one_waits) t'.
Proof.
  assert (Hreach : reachable (ended one_waits)) by (exists one_waits; vm_compute; reflexivity).
  split; [vm_compute; reflexivity|]. split.
  - refine (proj1 (calls_return _ the_rest (ended (one_waits ++ the_rest)) Hreach _ _)); [by repeat constructor|vm_compute; reflexivity].
  - refine (proj2 (calls_return _ [] (ended one_waits) Hreach (Forall_nil_2 _) eq_refl) _ 1%nat (mkTask 1 (Wait 0%nat 0%nat)) eq_refl _); [|by intros []].
    intros [|[|t]] task e [= <-]; discriminate.
Defined.

Lemma one_in_flight_witness : one_thread (ended one_waits) /\ map (ended one_waits) !! 1 = Some 0%nat /\
  forall t' task' e', tasks (ended one_waits) !! t' = Some task' -> pc task' = Running e' -> tkey task' = 1 -> t' = 0%nat.
Proof.
  assert (H0enter : one_thread (ended [Enter 1])) by (eapply (thread_enter _ 1); [apply thread_new|vm_compute; reflexivity]).
  assert (H0turn : one_thread (ended [Enter 1; Act 0; Act 0; Act 0])).
  { eapply (thread_turn _ (Act 0) 0%nat); [exact H0enter|reflexivity|vm_compute; reflexivity|].
    do 2 (eapply settle_act; [reflexivity|exact (fun H => H)|reflexivity|]). eapply settled; [reflexivity|exact I]. }
  assert (H1enter : one_thread (ended [Enter 1; Act 0; Act 0; Act 0; Enter 1])) by (eapply (thread_enter _ 1); [exact H0turn|vm_compute; reflexivity]).
  assert (Hone : one_thread (ended one_waits)).
  { eapply (thread_turn _ (Act 1) 1%nat); [exact H1enter|reflexivity|vm_compute; reflexivity|].
    do 3 (eapply settle_act; [reflexivity|exact (fun H => H)|reflexivity|]). eapply settled; [reflexivity|exact I]. }
  split; [exact Hone|]. exact (one_in_flight _ 0%nat (mkTask 1 (Running 0%nat)) 0%nat Hone eq_refl eq_refl).
Defined.

End Singleflight.
