(* ===== verification/HashTable.v ===== *)
(** * The hash table that the index map calls

    [hashbrown::HashTable<usize>], a table of another crate: its methods are the
    class [HashTable], what its documentation says of them the class
    [HashTableLaws].  A table stores each number under a hash given with it, in
    a bucket that is its own until the next insertion; the number can be
    rewritten there.  The closures given to a method may panic: [None].  So may a
    request for room, when the size of what is to be allocated overflows; a table
    or a vector that outgrows the memory aborts the process, which is not a
    behaviour of the model.  A table that searches a finite map is an
    instance. *)
From Stdlib Require Import ZArith Lia.
From stdpp Require Import base list gmap numbers option.
From S2P Require Import Prelude.

Class HashTable := {
  table : Type;
  new_table : table;
  with_capacity : nat -> option table;
  capacity : table -> nat;
  len : table -> nat;
  find : table -> Z -> (nat -> option bool) -> option (option nat);
  get_bucket : table -> nat -> option nat;
  set_bucket : table -> nat -> nat -> table;
  remove_bucket : table -> nat -> table;
  insert_unique : table -> Z -> nat -> (nat -> option Z) -> option (table * nat);
  iter_mut : (nat -> option nat) -> table -> option table;
  retain : (nat -> option nat) -> table -> table;
  clear : table -> table;
  reserve : table -> nat -> (nat -> option Z) -> option table;
  (** The most entries that fit a vector of them: [isize::MAX] divided by the
      size of a bucket, which depends on the keys and values. *)
  MAX_ENTRIES_CAPACITY : Z;
}.

(** The hashes and numbers in the buckets. *)
Definition items_of (m : gmap nat (Z * nat)) : list (Z * nat) := (map_to_list m).*2.

(** The hasher of a call knows the hash of every number in the table. *)
Definition knows (m : gmap nat (Z * nat)) (hasher : nat -> option Z) : Prop :=
  forall b h i, m !! b = Some (h, i) -> hasher i = Some h.

(** A closure gives an answer for every number in the table. *)
Definition answers {A} (m : gmap nat (Z * nat)) (f : nat -> option A) (g : nat -> A) : Prop :=
  forall b h i, m !! b = Some (h, i) -> f i = Some (g i).

Class HashTableLaws `{!HashTable} := {
  slots : table -> gmap nat (Z * nat);
  len_slots t : len t = size (slots t);
  len_capacity t : (len t <= capacity t)%nat;
  slots_new : slots new_table = ∅;
  (** What can be asked for without the size of the table overflowing. *)
  most : Z;
  most_entries : 0 <= most <= MAX_ENTRIES_CAPACITY;
  slots_with_capacity n : Z.of_nat n <= most -> wp (with_capacity n) (fun t => slots t = ∅ /\ (n <= capacity t)%nat);
  find_slots t h p q : answers (slots t) p q -> wp (find t h p) (fun r => match r with
    | Some b => exists h' i, slots t !! b = Some (h', i) /\ q i = true
    | None => forall b i, slots t !! b = Some (h, i) -> q i = false
    end);
  get_slots t b : get_bucket t b = snd <$> slots t !! b;
  set_slots t b h i j : slots t !! b = Some (h, i) -> slots (set_bucket t b j) = <[b := (h, j)]> (slots t);
  remove_slots t b : slots (remove_bucket t b) = delete b (slots t);
  insert_slots t h i hasher : knows (slots t) hasher \/ (len t < capacity t)%nat ->
    wp (insert_unique t h i hasher) (fun '(t', b) => slots t' !! b = Some (h, i) /\
      items_of (delete b (slots t')) ≡ₚ items_of (slots t) /\ (capacity t <= capacity t')%nat);
  iter_slots f g t : answers (slots t) f g -> wp (iter_mut f t) (fun t' => slots t' = prod_map id g <$> slots t);
  retain_slots f t : slots (retain f t) = omap (fun '(h, i) => pair h <$> f i) (slots t);
  clear_slots t : slots (clear t) = ∅ /\ (capacity t <= capacity (clear t))%nat;
  reserve_slots t n hasher : knows (slots t) hasher -> Z.of_nat (len t + n) <= most ->
    wp (reserve t n hasher) (fun t' => items_of (slots t') ≡ₚ items_of (slots t) /\ (len t + n <= capacity t')%nat);
}.

(** ** Multisets of items *)

Lemma items_empty : items_of ∅ = [].
Proof. unfold items_of. by rewrite map_to_list_empty. Qed.

Lemma items_delete (m : gmap nat (Z * nat)) b x : m !! b = Some x -> items_of m ≡ₚ x :: items_of (delete b m).
Proof. intros Hb. unfold items_of. rewrite <- (map_to_list_delete m b x Hb). done. Qed.

Lemma items_insert (m : gmap nat (Z * nat)) b x : m !! b = None -> items_of (<[b := x]> m) ≡ₚ x :: items_of m.
Proof. intros Hb. unfold items_of. rewrite (map_to_list_insert m b x Hb). done. Qed.

Lemma elem_of_items m x : x ∈ items_of m <-> exists b, m !! b = Some x.
Proof.
  unfold items_of. rewrite list_elem_of_fmap. split.
  - intros ([b y] & -> & Hx%elem_of_map_to_list). by exists b.
  - intros [b Hb]. exists (b, x). by rewrite elem_of_map_to_list.
Qed.

Lemma knows_items m hasher : (forall h i, (h, i) ∈ items_of m -> hasher i = Some h) -> knows m hasher.
Proof. intros Hk b h i Hb. apply Hk, elem_of_items. by exists b. Qed.

Lemma answers_items {A} m (f : nat -> option A) g : (forall i, i ∈ (items_of m).*2 -> f i = Some (g i)) -> answers m f g.
Proof. intros Hf b h i Hb. apply Hf, list_elem_of_fmap. exists (h, i). split; [done|]. apply elem_of_items. by exists b. Qed.

Lemma answers_total {A} m (g : nat -> A) : answers m (fun i => Some (g i)) g.
Proof. by intros b h i _. Qed.

(** ** Tables as multisets *)

Section Items.
Context {HT : HashTable} {HL : HashTableLaws}.

Definition items (t : table) : list (Z * nat) := items_of (slots t).

Lemma length_items t : len t = length (items t).
Proof. unfold items, items_of. by rewrite len_slots, length_fmap, length_map_to_list. Qed.

(** A number that occurs once is found by its hash, wherever else the search
    looks. *)
Lemma find_once t h p q i rest : items t ≡ₚ (h, i) :: rest -> (forall j, j ∈ (items t).*2 -> p j = Some (q j)) ->
  q i = true -> (forall j, j ∈ rest.*2 -> q j = false) ->
  exists b, find t h p = Some (Some b) /\ slots t !! b = Some (h, i) /\ items_of (delete b (slots t)) ≡ₚ rest.
Proof.
  intros Hi Hp Hq Hrest. assert (Hin : (h, i) ∈ items t) by (rewrite Hi; constructor).
  apply elem_of_items in Hin as [b0 Hb0]. pose proof (find_slots t h p q (answers_items _ _ _ Hp)) as Hf. apply wp_elim in Hf as (r & -> & Hr).
  destruct r as [b|]; [|rewrite (Hr b0 i Hb0) in Hq; done]. exists b. split; [done|].
  destruct Hr as (h' & j & Hj & Hpj). pose proof (items_delete _ _ _ Hj) as Hd. fold (items t) in Hd. rewrite Hi in Hd.
  assert (Hhj : (h', j) = (h, i)).
  { assert (Hj' : (h', j) ∈ (h, i) :: rest) by (rewrite Hd; constructor). apply elem_of_cons in Hj' as [Hj'|Hj']; [done|].
    rewrite Hrest in Hpj; [done|]. apply list_elem_of_fmap. by exists (h', j). }
  rewrite Hhj in *. split; [done|]. symmetry. by apply Permutation_cons_inv in Hd.
Qed.

Lemma find_nowhere t h p : (forall j, j ∈ (items t).*2 -> p j = Some false) -> find t h p = Some None.
Proof.
  intros Hn. pose proof (find_slots t h p (fun _ => false) (answers_items _ _ _ Hn)) as Hf. apply wp_elim in Hf as (r & -> & Hr).
  destruct r as [b|]; [|done]. by destruct Hr as (h' & i & _ & Hr).
Qed.

Lemma items_set t b h i j rest : slots t !! b = Some (h, i) -> items_of (delete b (slots t)) ≡ₚ rest -> items (set_bucket t b j) ≡ₚ (h, j) :: rest.
Proof.
  intros Hb Hr. unfold items. rewrite (set_slots t b h i j Hb), <- insert_delete_eq, items_insert by apply lookup_delete_eq. by rewrite Hr.
Qed.

Lemma items_remove t b rest : items_of (delete b (slots t)) ≡ₚ rest -> items (remove_bucket t b) ≡ₚ rest.
Proof. intros Hr. unfold items. by rewrite remove_slots. Qed.

Lemma items_insert_unique t h i hasher : (forall h' j, (h', j) ∈ items t -> hasher j = Some h') \/ (len t < capacity t)%nat ->
  wp (insert_unique t h i hasher) (fun '(t', b) => slots t' !! b = Some (h, i) /\ items t' ≡ₚ (h, i) :: items t /\ (capacity t <= capacity t')%nat).
Proof.
  intros Hk. eapply wp_mono; [apply insert_slots; destruct Hk as [Hk|Hk]; [left; by apply knows_items|by right]|].
  intros [t' b] (Hb & Hd & Hc). split; [done|]. split; [|done]. unfold items. by rewrite (items_delete _ _ _ Hb), Hd.
Qed.

Lemma items_fmap g (m : gmap nat (Z * nat)) : items_of (prod_map id g <$> m) = prod_map id g <$> items_of m.
Proof. unfold items_of. rewrite map_to_list_fmap, <- !list_fmap_compose. by apply list_fmap_ext. Qed.

Lemma items_iter f g t : (forall i, i ∈ (items t).*2 -> f i = Some (g i)) -> wp (iter_mut f t) (fun t' => items t' = prod_map id g <$> items t).
Proof.
  intros Hf. eapply wp_mono; [apply (iter_slots f g t), answers_items, Hf|]. intros t' Ht. unfold items. by rewrite Ht, items_fmap.
Qed.

Lemma items_retain f t : items (retain f t) ≡ₚ omap (fun '(h, i) => pair h <$> f i) (items t).
Proof.
  unfold items. rewrite retain_slots. generalize (slots t). intros m. induction m as [|b x m Hb IH] using map_ind.
  - by rewrite omap_empty, items_empty.
  - rewrite items_insert by done. destruct x as [h i]. cbn [omap list_omap]. destruct (f i) as [j|] eqn:E; cbn [fmap option_fmap option_map].
    + rewrite (omap_insert_Some _ m b (h, i) (h, j)) by (simpl; by rewrite E). rewrite items_insert by (rewrite lookup_omap, Hb; done). by rewrite IH.
    + rewrite (omap_insert_None _ m b (h, i)) by (simpl; by rewrite E). rewrite delete_id by (rewrite lookup_omap, Hb; done). exact IH.
Qed.

Lemma items_clear t : items (clear t) = [].
Proof. unfold items. rewrite (proj1 (clear_slots t)). apply items_empty. Qed.

Lemma items_new : items new_table = [].
Proof. unfold items. rewrite slots_new. apply items_empty. Qed.

Lemma items_with_capacity n : Z.of_nat n <= most -> wp (with_capacity n) (fun t => items t = [] /\ (n <= capacity t)%nat).
Proof. intros Hn. eapply wp_mono; [by apply slots_with_capacity|]. intros t [Hs Hc]. unfold items. by rewrite Hs, items_empty. Qed.
End Items.

(** ** A table *)

Module MapTable.
Record map_table := { buckets : gmap nat (Z * nat); room : nat }.

Definition holds (t : map_table) : nat := Nat.max (room t) (size (buckets t)).

Fixpoint scan (h : Z) (p : nat -> option bool) (l : list (nat * (Z * nat))) : option (option nat) :=
  match l with
  | [] => Some None
  | (b, (h', i)) :: l' => if h =? h' then r ← p i; if r : bool then Some (Some b) else scan h p l' else scan h p l'
  end.

(** What a request may come to. *)
Definition limit : Z := 2 ^ 40.

(** Every number is hashed again when there is no room. *)
Definition grow (t : map_table) (n : nat) (hasher : nat -> option Z) : option map_table :=
  if (size (buckets t) + n <=? holds t)%nat then Some t
  else _ ← mapM hasher (items_of (buckets t)).*2; Some {| buckets := buckets t; room := size (buckets t) + n |}.

#[export] Instance map_hash_table : HashTable := {
  table := map_table;
  new_table := {| buckets := ∅; room := 0 |};
  with_capacity n := _ ← rassert (Z.of_nat n <=? limit); Some {| buckets := ∅; room := n |};
  capacity := holds;
  len t := size (buckets t);
  find t h p := scan h p (map_to_list (buckets t));
  get_bucket t b := snd <$> buckets t !! b;
  set_bucket t b j := match buckets t !! b with Some (h, _) => {| buckets := <[b := (h, j)]> (buckets t); room := room t |} | None => t end;
  remove_bucket t b := {| buckets := delete b (buckets t); room := room t |};
  insert_unique t h i hasher := t' ← grow t 1 hasher; let b := fresh (dom (buckets t')) in Some ({| buckets := <[b := (h, i)]> (buckets t'); room := room t' |}, b);
  iter_mut f t := _ ← mapM f (items_of (buckets t)).*2; Some {| buckets := (fun '(h, i) => (h, default 0%nat (f i))) <$> buckets t; room := room t |};
  retain f t := {| buckets := omap (fun '(h, i) => pair h <$> f i) (buckets t); room := room t |};
  clear t := {| buckets := ∅; room := holds t |};
  reserve t n hasher := _ ← rassert (Z.of_nat (size (buckets t) + n) <=? limit); grow t n hasher;
  MAX_ENTRIES_CAPACITY := limit;
}.

Lemma mapM_items {A} (m : gmap nat (Z * nat)) (f : nat -> option A) : (forall b h i, m !! b = Some (h, i) -> is_Some (f i)) -> is_Some (mapM f (items_of m).*2).
Proof.
  intros Hf. apply mapM_is_Some, Forall_forall. intros i Hi%list_elem_of_In. apply list_elem_of_fmap in Hi as ([h j] & -> & [b Hb]%elem_of_items). by eapply Hf.
Qed.

Lemma scan_spec h p q l : (forall b h' i, (b, (h', i)) ∈ l -> p i = Some (q i)) -> wp (scan h p l) (fun r => match r with
    | Some b => exists h' i, (b, (h', i)) ∈ l /\ q i = true
    | None => forall b i, (b, (h, i)) ∈ l -> q i = false
    end).
Proof.
  induction l as [|[b [h' i]] l IH]; intros Hp; [intros b i []%not_elem_of_nil|]. cbn [scan].
  assert (Hl : forall b h' i, (b, (h', i)) ∈ l -> p i = Some (q i)) by (intros b0 h0 i0 Hin; apply (Hp b0 h0); by right).
  specialize (IH Hl). destruct (Z.eqb_spec h h') as [->|Hne].
  - rewrite (Hp b h' i) by constructor. rewrite some_bind. cbv beta. destruct (q i) eqn:Hq; [exists h', i; split; [constructor|done]|].
    eapply wp_mono; [exact IH|]. intros [b'|] Hr; [destruct Hr as (h0 & j & Hin & Hj); exists h0, j; split; [by right|done]|].
    intros b0 j [Hj|Hin]%elem_of_cons; [by simplify_eq|by eapply Hr].
  - eapply wp_mono; [exact IH|]. intros [b'|] Hr; [destruct Hr as (h0 & j & Hin & Hj); exists h0, j; split; [by right|done]|].
    intros b0 j [Hj|Hin]%elem_of_cons; [by simplify_eq|by eapply Hr].
Qed.

Lemma grow_spec t n hasher : knows (buckets t) hasher \/ (size (buckets t) + n <= holds t)%nat ->
  wp (grow t n hasher) (fun t' => buckets t' = buckets t /\ (size (buckets t) + n <= holds t')%nat /\ (holds t <= holds t')%nat).
Proof.
  intros Hk. unfold grow. destruct (Nat.leb_spec (size (buckets t) + n) (holds t)) as [Hle|Hgt]; [done|].
  destruct Hk as [Hk|Hk]; [|lia]. apply wp_bind.
  destruct (mapM_items (buckets t) hasher) as [hs ->]; [intros b h i Hb; exists h; by apply (Hk b)|]. cbn. split; [done|]. unfold holds in *. cbn. lia.
Qed.

#[export] Instance map_hash_table_laws : HashTableLaws.
Proof.
  refine {| slots := buckets : table -> gmap nat (Z * nat); most := limit |}; intros; cbn in *.
  - done.
  - unfold holds. lia.
  - done.
  - unfold limit. lia.
  - apply wp_bind, wp_assert; [by apply Z.leb_le|]. apply wp_ret. split; [done|]. unfold holds. cbn. lia.
  - eapply wp_mono; [apply (scan_spec _ _ q)|].
    + intros b h' i Hin%elem_of_map_to_list. by eapply H.
    + intros [b|] Hr.
      * destruct Hr as (h' & i & Hin%elem_of_map_to_list & Hq). eauto.
      * intros b i Hin. apply (Hr b). by apply elem_of_map_to_list.
  - done.
  - by rewrite H.
  - done.
  - apply wp_bind. eapply wp_mono; [apply grow_spec; destruct H as [?|?]; [by left|right; lia]|].
    intros t' (Hb & Hr & Hh). cbn. set (b := fresh (dom (buckets t'))).
    assert (Hfresh : buckets t' !! b = None) by (apply not_elem_of_dom, is_fresh).
    split; [by rewrite lookup_insert_eq|]. split; [by rewrite delete_insert_id, Hb|]. unfold holds in *. cbn.
    rewrite map_size_insert_None by done. lia.
  - apply wp_bind. destruct (mapM_items (buckets t) f) as [hs ->]; [intros b h i Hb; exists (g i); by apply (H b h)|]. cbn. apply map_eq. intros b. rewrite !lookup_fmap. destruct (buckets t !! b) as [[h i]|] eqn:E; [|done].
    cbn. by rewrite (H b h i E).
  - done.
  - split; [done|]. unfold holds. cbn. lia.
  - apply wp_bind, wp_assert; [by apply Z.leb_le|]. eapply wp_mono; [apply grow_spec; by left|]. intros t' (Hb & Hr & _). rewrite Hb. done.
Defined.
End MapTable.
