(* ===== verification/IndexMapCore.v ===== *)
(** * indexmap: the table of indices and the list of entries

    src/indexmap/src/inner.rs, with the assertions of a debug build: [None] is a
    panic.  A [Core] keeps its entries in order in a vector and finds them by a
    hash table of their positions, which every operation keeps up to date: the
    table then holds exactly the pairs of a hash and a position.  The capacity
    of the vector is left out. *)
From Stdlib Require Import ZArith Lia.
From stdpp Require Import base list gmap numbers option.
From S2P Require Import Prelude HashTable.

Module Inner.

(** A number less another: the code panics below zero. *)
Definition sub (a b : nat) : option nat := _ ← rassert (b <=? a)%nat; Some (a - b)%nat.

(** src/indexmap/src/util.rs: the bounds of a range. *)
Inductive Bound := Unbounded | Included (i : nat) | Excluded (i : nat).

Definition assert_index_lt (index len : nat) : option unit := rassert (index <? len)%nat.
Definition assert_index_le (index len : nat) : option unit := rassert (index <=? len)%nat.

Definition try_simplify_range (r : Bound * Bound) (len : nat) : option (nat * nat) :=
  start ← match r.1 with
    | Unbounded => Some 0%nat
    | Included i => if (i <=? len)%nat then Some i else None
    | Excluded i => if (i <? len)%nat then Some (i + 1)%nat else None
    end;
  end_ ← match r.2 with
    | Unbounded => Some len
    | Excluded i => if (i <=? len)%nat then Some i else None
    | Included i => if (i <? len)%nat then Some (i + 1)%nat else None
    end;
  if (end_ <? start)%nat then None else Some (start, end_).

(** The same with a panic for [None]. *)
Definition simplify_range (r : Bound * Bound) (len : nat) : option (nat * nat) := try_simplify_range r len.

Record Bucket {K V : Type} := { hash : Z; key : K; value : V }.
#[global] Arguments Bucket : clear implicits.

Record Core {HT : HashTable} {K V : Type} := { indices : table; entries : list (Bucket K V) }.
#[global] Arguments Core {HT} K V.

Section Ops.
Context {HT : HashTable} {K V : Type}.
Implicit Types (c : Core K V) (es : list (Bucket K V)) (t : table).

(** ** Closures and the table *)

Definition get_hash es (i : nat) : option Z := hash <$> es !! i.

Definition equivalent (p : K -> bool) es (i : nat) : option bool := (fun b => p (key b)) <$> es !! i.

Definition find_index t (h : Z) (i : nat) : option (option nat) := find t h (fun j => Some (j =? i)%nat).

Definition erase_index t (h : Z) (index : nat) : option table :=
  b ← find_index t h index;
  match b with Some b => Some (remove_bucket t b) | None => None end.

Definition update_index t (h : Z) (old new : nat) : option table :=
  b ← find_index t h old;
  b ← b;
  Some (set_bucket t b new).

Fixpoint insert_bulk t es : option table :=
  match es with
  | [] => Some t
  | e :: es => '(t, _) ← insert_unique t (hash e) (len t) (fun _ => None); insert_bulk t es
  end.

Definition insert_bulk_no_grow t es : option table :=
  free ← sub (capacity t) (len t);
  _ ← rassert (length es <=? free)%nat;
  insert_bulk t es.

(** [for (i, entry) in (start..).zip(es)], and its reverse. *)
Fixpoint update_each (f : nat -> nat) t (start : nat) es : option table :=
  match es with
  | [] => Some t
  | e :: es => t ← update_index t (hash e) start (f start); update_each f t (S start) es
  end.

Fixpoint update_each_rev (f : nat -> nat) t (start : nat) es : option table :=
  match es with
  | [] => Some t
  | e :: es => t ← update_each_rev f t (S start) es; update_index t (hash e) start (f start)
  end.

Fixpoint erase_each t (start : nat) es : option table :=
  match es with
  | [] => Some t
  | e :: es => t ← erase_index t (hash e) start; erase_each t (S start) es
  end.

(** [for ((new, old), entry) in (start..).zip(end..).zip(es)]. *)
Fixpoint shift_each t (new old : nat) es : option table :=
  match es with
  | [] => Some t
  | e :: es => t ← update_index t (hash e) old new; shift_each t (S new) (S old) es
  end.

(** ** Whole cores *)

Definition new : Core K V := {| indices := new_table; entries := [] |}.

(** Both the table and the vector are asked for room. *)
Definition core_with_capacity (n : nat) : option (Core K V) :=
  t ← with_capacity n;
  _ ← rassert (Z.of_nat n <=? MAX_ENTRIES_CAPACITY)%Z;
  Some {| indices := t; entries := [] |}.

Definition core_len c : option nat :=
  _ ← rassert (length (entries c) =? len (indices c))%nat;
  Some (len (indices c)).

Definition rebuild_hash_table c : option (Core K V) :=
  t ← insert_bulk_no_grow (clear (indices c)) (entries c);
  Some {| indices := t; entries := entries c |}.

Definition with_entries c (f : list (Bucket K V) -> option (list (Bucket K V))) : option (Core K V) :=
  es ← f (entries c);
  rebuild_hash_table {| indices := indices c; entries := es |}.

Definition core_clear c : Core K V := {| indices := clear (indices c); entries := [] |}.

(** [erase_indices]: the new table, by one of three strategies. *)
Definition erase_indices c (start end_ : nat) : option table :=
  init ← slice (entries c) 0 end_;
  shifted_entries ← slice (entries c) end_ (length (entries c));
  start_entries ← slice init 0 start;
  erased_entries ← slice init start (length init);
  let erased := length erased_entries in
  let shifted := length shifted_entries in
  let half_capacity := (capacity (indices c) / 2)%nat in
  t ← (if (erased =? 0)%nat then Some (indices c)
       else if ((start + shifted <? half_capacity) && (start <? erased))%nat then
         t ← insert_bulk_no_grow (clear (indices c)) start_entries;
         insert_bulk_no_grow t shifted_entries
       else if (erased + shifted <? half_capacity)%nat then
         t ← erase_each (indices c) start erased_entries;
         shift_each t start end_ shifted_entries
       else
         offset ← sub end_ start;
         Some (retain (fun i => if (end_ <=? i)%nat then Some (i - offset)%nat else if (i <? start)%nat then Some i else None) (indices c)));
  _ ← rassert (len t =? start + shifted)%nat;
  Some t.

Definition core_truncate c (n : nat) : option (Core K V) :=
  l ← core_len c;
  if (n <? l)%nat then
    t ← erase_indices c n (length (entries c));
    Some {| indices := t; entries := take n (entries c) |}
  else Some c.

(** The drained entries and the core after the iterator is dropped. *)
Definition core_drain c (range : Bound * Bound) : option (list (Bucket K V) * Core K V) :=
  '(start, end_) ← simplify_range range (length (entries c));
  t ← erase_indices c start end_;
  drained ← slice (entries c) start end_;
  Some (drained, {| indices := t; entries := take start (entries c) ++ drop end_ (entries c) |}).

Definition core_split_off c (at_ : nat) : option (Core K V * Core K V) :=
  l ← core_len c;
  _ ← assert_index_le at_ l;
  t ← erase_indices c at_ (length (entries c));
  tail ← slice (entries c) at_ (length (entries c));
  u ← with_capacity (length tail);
  u ← insert_bulk_no_grow u tail;
  Some ({| indices := u; entries := tail |}, {| indices := t; entries := take at_ (entries c) |}).

Definition split_splice c (range : Bound * Bound) : option (Core K V * list (Bucket K V) * Core K V) :=
  l ← core_len c;
  '(start, end_) ← simplify_range range l;
  t ← erase_indices c start (length (entries c));
  tail ← slice (entries c) end_ (length (entries c));
  drained ← slice (entries c) start end_;
  u ← with_capacity (length tail);
  u ← insert_bulk_no_grow u tail;
  Some ({| indices := u; entries := tail |}, drained, {| indices := t; entries := take start (entries c) |}).

(** The vector grows when it has no room, which it has only for a length that
    fits: that is asked first. *)
Definition core_reserve c (additional : nat) : option (Core K V) :=
  t ← reserve (indices c) additional (get_hash (entries c));
  _ ← rassert (Z.of_nat (length (entries c) + additional) <=? MAX_ENTRIES_CAPACITY)%Z;
  Some {| indices := t; entries := entries c |}.

Definition append_unchecked c (other : Core K V) : option (Core K V * Core K V) :=
  n ← core_len other;
  c ← core_reserve c n;
  t ← insert_bulk_no_grow (indices c) (entries other);
  Some ({| indices := t; entries := entries c ++ entries other |}, {| indices := clear (indices other); entries := [] |}).

Definition core_retain c (keep : K -> V -> option V) : option (Core K V) :=
  let es := omap (fun b => (fun v => {| hash := hash b; key := key b; value := v |}) <$> keep (key b) (value b)) (entries c) in
  let c := {| indices := indices c; entries := es |} in
  if (length es <? len (indices c))%nat then rebuild_hash_table c else Some c.

Definition core_reverse c : option (Core K V) :=
  let n := length (entries c) in
  t ← iter_mut (fun i => x ← sub n i; sub x 1) (indices c);
  Some {| indices := t; entries := reverse (entries c) |}.

(** ** Finding, inserting and replacing *)

Definition core_get_index_of c (h : Z) (p : K -> bool) : option (option nat) :=
  b ← find (indices c) h (equivalent p (entries c));
  match b with Some b => i ← get_bucket (indices c) b; Some (Some i) | None => Some None end.

Definition push_entry es (h : Z) (k : K) (v : V) : list (Bucket K V) := es ++ [{| hash := h; key := k; value := v |}].

(** [table.entry(..)]: the bucket found, or the table with the new number. *)
Definition core_insert_full (keq : K -> K -> bool) c (h : Z) (k : K) (v : V) : option (nat * option V * Core K V) :=
  b ← find (indices c) h (equivalent (keq k) (entries c));
  match b with
  | Some b =>
      i ← get_bucket (indices c) b;
      e ← entries c !! i;
      es ← upd (entries c) i {| hash := hash e; key := key e; value := v |};
      Some (i, Some (value e), {| indices := indices c; entries := es |})
  | None =>
      let i := length (entries c) in
      '(t, _) ← insert_unique (indices c) h i (get_hash (entries c));
      let es := push_entry (entries c) h k v in
      _ ← rassert (len t =? length es)%nat;
      Some (i, None, {| indices := t; entries := es |})
  end.

Definition core_replace_full (keq : K -> K -> bool) c (h : Z) (k : K) (v : V) : option (nat * option (K * V) * Core K V) :=
  b ← find (indices c) h (equivalent (keq k) (entries c));
  match b with
  | Some b =>
      i ← get_bucket (indices c) b;
      e ← entries c !! i;
      es ← upd (entries c) i {| hash := hash e; key := k; value := v |};
      Some (i, Some (key e, value e), {| indices := indices c; entries := es |})
  | None =>
      let i := length (entries c) in
      '(t, _) ← insert_unique (indices c) h i (get_hash (entries c));
      let es := push_entry (entries c) h k v in
      _ ← rassert (len t =? length es)%nat;
      Some (i, None, {| indices := t; entries := es |})
  end.

(** The core and the bucket of the new number. *)
Definition core_insert_unique c (h : Z) (k : K) (v : V) : option (Core K V * nat) :=
  let i := len (indices c) in
  _ ← rassert (i =? length (entries c))%nat;
  '(t, b) ← insert_unique (indices c) h i (get_hash (entries c));
  Some ({| indices := t; entries := push_entry (entries c) h k v |}, b).

Definition replace_index_unique c (index : nat) (h : Z) (k : K) : option (K * Core K V) :=
  e ← entries c !! index;
  t ← erase_index (indices c) (hash e) index;
  '(t, _) ← insert_unique t h index (get_hash (entries c));
  es ← upd (entries c) index {| hash := h; key := k; value := value e |};
  Some (key e, {| indices := t; entries := es |}).

(** ** Shifting the numbers of a range *)

Definition between (start end_ i : nat) : bool := (start <=? i)%nat && (i <? end_)%nat.

Definition decrement_indices c (start end_ : nat) : option table :=
  shifted_entries ← slice (entries c) start end_;
  if (capacity (indices c) / 2 <? length shifted_entries)%nat then
    iter_mut (fun i => if between start end_ i then sub i 1 else Some i) (indices c)
  else
    _ ← rassert ((length shifted_entries =? 0) || (1 <=? start))%nat;
    update_each (fun i => i - 1)%nat (indices c) start shifted_entries.

Definition increment_indices c (start end_ : nat) : option table :=
  shifted_entries ← slice (entries c) start end_;
  if (capacity (indices c) / 2 <? length shifted_entries)%nat then
    iter_mut (fun i => Some (if between start end_ i then i + 1 else i)%nat) (indices c)
  else
    update_each_rev (fun i => i + 1)%nat (indices c) start shifted_entries.

(** The hasher adjusts for the numbers it has just incremented. *)
Definition shift_insert_unique c (index : nat) (h : Z) (k : K) (v : V) : option (Core K V) :=
  let end_ := len (indices c) in
  _ ← rassert (index <=? end_)%nat;
  t ← increment_indices c index end_;
  '(t, _) ← insert_unique t h index (fun i =>
    _ ← rassert (negb (i =? index)%nat);
    i ← (if (i <? index)%nat then Some i else sub i 1);
    get_hash (entries c) i);
  _ ← rassert (index <=? length (entries c))%nat;
  Some {| indices := t; entries := take index (entries c) ++ {| hash := h; key := k; value := v |} :: drop index (entries c) |}.

(** ** Removing *)

Definition shift_remove_finish c (index : nat) : option (K * V * Core K V) :=
  t ← decrement_indices c (index + 1) (length (entries c));
  e ← entries c !! index;
  Some (key e, value e, {| indices := t; entries := delete index (entries c) |}).

(** [Vec::swap_remove]. *)
Definition vec_swap_remove {A} (l : list A) (index : nat) : option (A * list A) :=
  x ← l !! index;
  y ← list.last l;
  Some (x, take (length l - 1) (<[index := y]> l)).

Definition swap_remove_finish c (index : nat) : option (K * V * Core K V) :=
  '(e, es) ← vec_swap_remove (entries c) index;
  t ← match es !! index with
    | Some e' => update_index (indices c) (hash e') (length es) index
    | None => Some (indices c)
    end;
  Some (key e, value e, {| indices := t; entries := es |}).

Definition core_shift_remove_index c (index : nat) : option (option (K * V) * Core K V) :=
  match entries c !! index with
  | Some e =>
      t ← erase_index (indices c) (hash e) index;
      '(k, v, c) ← shift_remove_finish {| indices := t; entries := entries c |} index;
      Some (Some (k, v), c)
  | None => Some (None, c)
  end.

Definition core_swap_remove_index c (index : nat) : option (option (K * V) * Core K V) :=
  match entries c !! index with
  | Some e =>
      t ← erase_index (indices c) (hash e) index;
      '(k, v, c) ← swap_remove_finish {| indices := t; entries := entries c |} index;
      Some (Some (k, v), c)
  | None => Some (None, c)
  end.

Definition core_shift_remove_full c (h : Z) (p : K -> bool) : option (option (nat * K * V) * Core K V) :=
  b ← find (indices c) h (equivalent p (entries c));
  match b with
  | Some b =>
      index ← get_bucket (indices c) b;
      '(k, v, c) ← shift_remove_finish {| indices := remove_bucket (indices c) b; entries := entries c |} index;
      Some (Some (index, k, v), c)
  | None => Some (None, c)
  end.

Definition core_swap_remove_full c (h : Z) (p : K -> bool) : option (option (nat * K * V) * Core K V) :=
  b ← find (indices c) h (equivalent p (entries c));
  match b with
  | Some b =>
      index ← get_bucket (indices c) b;
      '(k, v, c) ← swap_remove_finish {| indices := remove_bucket (indices c) b; entries := entries c |} index;
      Some (Some (index, k, v), c)
  | None => Some (None, c)
  end.

Definition core_pop c : option (option (K * V) * Core K V) :=
  match list.last (entries c) with
  | Some e =>
      let es := take (length (entries c) - 1) (entries c) in
      t ← erase_index (indices c) (hash e) (length es);
      Some (Some (key e, value e), {| indices := t; entries := es |})
  | None => Some (None, c)
  end.

(** ** Moving *)

(** [es[lo..=hi].rotate_left(1)] and [rotate_right(1)]. *)
Definition rotate_left1 {A} (l : list A) (lo hi : nat) : option (list A) :=
  s ← slice l lo (hi + 1);
  x ← head s;
  Some (take lo l ++ (tail s ++ [x]) ++ drop (hi + 1) l).

Definition rotate_right1 {A} (l : list A) (lo hi : nat) : option (list A) :=
  s ← slice l lo (hi + 1);
  x ← list.last s;
  Some (take lo l ++ (x :: take (length s - 1) s) ++ drop (hi + 1) l).

Definition move_index_inner c (from to : nat) : option (Core K V) :=
  if (from <? to)%nat then
    t ← decrement_indices c (from + 1) (to + 1);
    es ← rotate_left1 (entries c) from to;
    Some {| indices := t; entries := es |}
  else if (to <? from)%nat then
    t ← increment_indices c to from;
    es ← rotate_right1 (entries c) to from;
    Some {| indices := t; entries := es |}
  else Some c.

Definition core_move_index c (from to : nat) : option (Core K V) :=
  l ← core_len c;
  _ ← assert_index_lt from l;
  e ← entries c !! from;
  if (from =? to)%nat then Some c
  else
    _ ← assert_index_lt to l;
    bucket ← find_index (indices c) (hash e) from;
    bucket ← bucket;
    c ← move_index_inner c from to;
    _ ← get_bucket (indices c) bucket;
    Some {| indices := set_bucket (indices c) bucket to; entries := entries c |}.

(** [get_disjoint_mut] panics when both searches end at the same bucket. *)
Definition core_swap_indices c (a b : nat) : option (Core K V) :=
  l ← core_len c;
  _ ← assert_index_lt a l;
  if (a =? b)%nat then Some c
  else
    _ ← assert_index_lt b l;
    ea ← entries c !! a;
    eb ← entries c !! b;
    ra ← find_index (indices c) (hash ea) a;
    rb ← find_index (indices c) (hash eb) b;
    ba ← ra;
    bb ← rb;
    _ ← rassert (negb (ba =? bb)%nat);
    i ← get_bucket (indices c) ba;
    j ← get_bucket (indices c) bb;
    Some {| indices := set_bucket (set_bucket (indices c) ba j) bb i; entries := <[a := eb]> (<[b := ea]> (entries c)) |}.
End Ops.
End Inner.
