(* ===== verification/IndexMapInv.v ===== *)
(** * indexmap: the table agrees with the entries

    The invariant of a [Core], that the table holds the hash and the position of
    every entry and nothing else, and each operation of src/indexmap/src/inner.rs
    as one on the list of entries: none panics, and all keep the invariant. *)
From Stdlib Require Import ZArith Lia.
From stdpp Require Import base list gmap numbers option.
From S2P Require Import Prelude HashTable IndexMapCore.
From stdpp Require Import list.
Import Inner.

(** [f] on the numbers of a range. *)
Definition shifted (f : nat -> nat) (lo hi i : nat) : nat := if between lo hi i then f i else i.

(** A fact of [shifted] at some numbers, by comparing them. *)
Ltac shift_cases := unfold shifted, between; intros; repeat (case_match; [|]); repeat match goal with
  | H : (_ && _) = _ |- _ => revert H | H : (_ <=? _)%nat = _ |- _ => revert H | H : (_ <? _)%nat = _ |- _ => revert H end;
  repeat match goal with |- context [(?a <=? ?b)%nat] => destruct (Nat.leb_spec a b) | |- context [(?a <? ?b)%nat] => destruct (Nat.ltb_spec a b) end; simpl; try done; try lia.

Section Inv.
Context {HT : HashTable} {HL : HashTableLaws} {K V : Type}.
Implicit Types (c : Core K V) (es : list (Bucket K V)) (t : table).

(** ** Numbered entries *)

Fixpoint numbered (n : nat) es : list (Z * nat) :=
  match es with [] => [] | e :: es => (hash e, n) :: numbered (S n) es end.

Definition wf c : Prop := items (indices c) ≡ₚ numbered 0 (entries c).

Lemma numbered_app n es es' : numbered n (es ++ es') = numbered n es ++ numbered (n + length es) es'.
Proof. revert n. induction es as [|e es IH]; intros n; simpl; [by rewrite Nat.add_0_r|]. rewrite IH. do 3 f_equal. lia. Qed.

Lemma length_numbered n es : length (numbered n es) = length es.
Proof. revert n. induction es as [|e es IH]; intros n; simpl; [done|]. by rewrite IH. Qed.

Lemma elem_of_numbered n es h i : (h, i) ∈ numbered n es <-> exists e, (n <= i)%nat /\ es !! (i - n)%nat = Some e /\ hash e = h.
Proof.
  revert n. induction es as [|e es IH]; intros n; simpl.
  - split; [intros []%not_elem_of_nil|]. by intros (e & _ & He & _).
  - rewrite elem_of_cons, IH. split.
    + intros [[= -> ->]|(e' & Hi & He & Hh)]; [exists e; by rewrite Nat.sub_diag|].
      exists e'. replace (i - n)%nat with (S (i - S n)) by lia. split; [lia|done].
    + intros (e' & Hi & He & Hh). destruct (decide (i = n)) as [->|Hne]; [left|right].
      * rewrite Nat.sub_diag in He. by simplify_eq/=.
      * exists e'. replace (i - n)%nat with (S (i - S n)) in He by lia. split; [lia|done].
Qed.

Lemma numbered_bounds n es i : i ∈ (numbered n es).*2 <-> (n <= i < n + length es)%nat.
Proof.
  rewrite list_elem_of_fmap. split.
  - intros ([h j] & -> & (e & Hj & He & _)%elem_of_numbered). apply lookup_lt_Some in He. simpl. lia.
  - intros Hi. destruct (lookup_lt_is_Some_2 es (i - n)) as [e He]; [lia|].
    exists (hash e, i). split; [done|]. apply elem_of_numbered. exists e. split; [lia|done].
Qed.

Lemma numbered_map f n m es : (forall i, (i < length es)%nat -> f (n + i)%nat = (m + i)%nat) -> prod_map id f <$> numbered n es = numbered m es.
Proof.
  revert n m. induction es as [|e es IH]; intros n m Hf; [done|]. cbn [numbered]. rewrite fmap_cons. f_equal.
  - unfold prod_map. simpl. f_equal. specialize (Hf 0%nat). simpl in Hf. rewrite !Nat.add_0_r in Hf. apply Hf. lia.
  - apply IH. intros i Hi. specialize (Hf (S i)). simpl in Hf. replace (S n + i)%nat with (n + S i)%nat by lia. rewrite Hf by lia. lia.
Qed.

Lemma numbered_id f n es : (forall i, (n <= i < n + length es)%nat -> f i = i) -> prod_map id f <$> numbered n es = numbered n es.
Proof. intros Hf. apply numbered_map. intros i Hi. apply Hf. lia. Qed.

Lemma numbered_same n es es' : hash <$> es = hash <$> es' -> numbered n es = numbered n es'.
Proof. revert n es'. induction es as [|e es IH]; intros n [|e' es'] He; simplify_eq/=; [done|]. f_equal; [congruence|by apply IH]. Qed.

Lemma wf_len c : wf c -> len (indices c) = length (entries c).
Proof. unfold wf. intros Hc. by rewrite length_items, Hc, length_numbered. Qed.

Lemma wf_new : wf new.
Proof. unfold wf. simpl. by rewrite items_new. Qed.

Lemma wf_knows c h i : wf c -> (h, i) ∈ items (indices c) -> get_hash (entries c) i = Some h.
Proof. unfold wf. intros Hc. rewrite Hc, elem_of_numbered. intros (e & _ & He & <-). rewrite Nat.sub_0_r in He. unfold get_hash. by rewrite He. Qed.

(** ** Positions in the table *)

Lemma find_index_spec t h i rest : items t ≡ₚ (h, i) :: rest -> i ∉ rest.*2 ->
  exists b, find_index t h i = Some (Some b) /\ slots t !! b = Some (h, i) /\ items_of (delete b (slots t)) ≡ₚ rest.
Proof.
  intros Hi Hr. unfold find_index. apply (find_once t h (fun j => Some (j =? i)%nat) (fun j => (j =? i)%nat) i rest Hi); [done|apply Nat.eqb_refl|].
  intros j Hj. apply Nat.eqb_neq. by intros ->.
Qed.

Lemma erase_index_spec t h i rest : items t ≡ₚ (h, i) :: rest -> i ∉ rest.*2 -> wp (erase_index t h i) (fun t' => items t' ≡ₚ rest).
Proof.
  intros Hi Hr. destruct (find_index_spec t h i rest Hi Hr) as (b & Hb & _ & Hd). unfold erase_index. rewrite Hb, some_bind. simpl.
  by apply items_remove.
Qed.

Lemma update_index_spec t h i j rest : items t ≡ₚ (h, i) :: rest -> i ∉ rest.*2 -> wp (update_index t h i j) (fun t' => items t' ≡ₚ (h, j) :: rest).
Proof.
  intros Hi Hr. destruct (find_index_spec t h i rest Hi Hr) as (b & Hb & Hs & Hd). unfold update_index. rewrite Hb, !some_bind. simpl.
  by eapply items_set.
Qed.

Lemma insert_bulk_spec t es : (len t + length es <= capacity t)%nat ->
  wp (insert_bulk t es) (fun t' => items t' ≡ₚ items t ++ numbered (len t) es /\ len t' = (len t + length es)%nat /\ (capacity t <= capacity t')%nat).
Proof.
  revert t. induction es as [|e es IH]; intros t Hc; cbn [insert_bulk length numbered] in *; [cbn; rewrite app_nil_r; split; [done|lia]|].
  apply wp_bind. eapply wp_mono; [apply items_insert_unique; right; lia|]. intros [t' b] (_ & Hi & Hcap).
  assert (Hl : len t' = S (len t)) by (rewrite !length_items, Hi; done).
  eapply wp_mono; [apply IH; lia|]. intros t'' (Hi' & Hl' & Hc'). rewrite Hl in *. split; [|lia]. rewrite Hi', Hi. simpl. apply Permutation_middle.
Qed.

Lemma insert_bulk_no_grow_spec t es : (len t + length es <= capacity t)%nat ->
  wp (insert_bulk_no_grow t es) (fun t' => items t' ≡ₚ items t ++ numbered (len t) es /\ len t' = (len t + length es)%nat /\ (capacity t <= capacity t')%nat).
Proof.
  intros Hc. unfold insert_bulk_no_grow, sub. apply wp_bind, wp_bind, wp_assert; [apply Nat.leb_le; lia|]. simpl.
  apply wp_bind, wp_assert; [apply Nat.leb_le; lia|]. by apply insert_bulk_spec.
Qed.

Lemma insert_bulk_fresh t es : items t = [] -> (length es <= capacity t)%nat ->
  wp (insert_bulk_no_grow t es) (fun t' => items t' ≡ₚ numbered 0 es /\ len t' = length es /\ (capacity t <= capacity t')%nat).
Proof.
  intros Hi Hc. assert (Hl : len t = 0%nat) by (by rewrite length_items, Hi). eapply wp_mono; [apply insert_bulk_no_grow_spec; lia|].
  intros t' (Hi' & Hl' & Hc'). by rewrite Hi, Hl in *.
Qed.

Lemma erase_each_spec t n es rest : items t ≡ₚ numbered n es ++ rest -> (forall i, i ∈ rest.*2 -> (i < n \/ n + length es <= i)%nat) ->
  wp (erase_each t n es) (fun t' => items t' ≡ₚ rest).
Proof.
  revert t n. induction es as [|e es IH]; intros t n Hi Hr; [done|]. cbn [erase_each numbered length] in *. apply wp_bind.
  eapply wp_mono; [apply (erase_index_spec _ _ _ (numbered (S n) es ++ rest)); [done|]|].
  - rewrite fmap_app, elem_of_app, numbered_bounds. intros [?|Hn]; [lia|]. specialize (Hr n Hn). lia.
  - intros t' Ht'. apply IH; [done|]. intros i Hin. specialize (Hr i Hin). lia.
Qed.

Lemma shift_each_spec t new old es rest : (new <= old)%nat -> items t ≡ₚ rest ++ numbered old es -> (forall i, i ∈ rest.*2 -> (i < new)%nat) ->
  wp (shift_each t new old es) (fun t' => items t' ≡ₚ rest ++ numbered new es).
Proof.
  revert t new old rest. induction es as [|e es IH]; intros t new old rest Hle Hi Hr; [done|]. cbn [shift_each numbered] in *. apply wp_bind.
  eapply wp_mono; [apply (update_index_spec _ _ _ new (rest ++ numbered (S old) es)); [by rewrite Hi, <- Permutation_middle|]|].
  - rewrite fmap_app, elem_of_app, numbered_bounds. intros [Hn|?]; [|lia]. specialize (Hr old Hn). lia.
  - intros t' Ht'. eapply wp_mono; [apply (IH _ _ _ (rest ++ [(hash e, new)])); [lia| |]|].
    + rewrite Ht', <- app_assoc. simpl. by rewrite Permutation_middle.
    + intros i. rewrite fmap_app, elem_of_app. intros [Hin|Hin]; [specialize (Hr i Hin); lia|]. apply list_elem_of_singleton in Hin as ->. simpl. lia.
    + intros t'' Ht''. rewrite Ht'', <- app_assoc. done.
Qed.

(** ** Shifting a range, bucket by bucket *)

(** No number is in two buckets. *)
Definition uniq (m : gmap nat (Z * nat)) : Prop := forall b b' h h' i, m !! b = Some (h, i) -> m !! b' = Some (h', i) -> b = b'.

Lemma uniq_items m : NoDup (items_of m).*2 -> uniq m.
Proof.
  intros Hn b b' h h' i Hb Hb'. destruct (decide (b = b')) as [|Hne]; [done|]. exfalso.
  rewrite (items_delete m b _ Hb), (items_delete (delete b m) b' (h', i)) in Hn by (by rewrite lookup_delete_ne).
  simpl in Hn. apply NoDup_cons in Hn as [Hn _]. apply Hn. constructor.
Qed.

Lemma nodup_numbered n es : NoDup (numbered n es).*2.
Proof.
  revert n. induction es as [|e es IH]; intros n; simpl; [constructor|]. apply NoDup_cons. split; [|done].
  rewrite numbered_bounds. lia.
Qed.

Lemma nodup_numbered_app n es k es' : (n + length es <= k)%nat -> NoDup (numbered n es ++ numbered k es').*2.
Proof.
  intros Hk. rewrite fmap_app. apply NoDup_app. split_and!; [apply nodup_numbered| |apply nodup_numbered].
  intros i. rewrite !numbered_bounds. lia.
Qed.

(** One more number of the range, at either end. *)
Lemma shift_one f lo hi lo' hi' n (m : gmap nat (Z * nat)) b h : m !! b = Some (h, n) -> uniq m -> shifted f lo' hi' n = f n ->
  (forall i, i <> n -> shifted f lo' hi' i = shifted f lo hi i) ->
  <[b := (h, f n)]> (prod_map id (shifted f lo hi) <$> m) = prod_map id (shifted f lo' hi') <$> m.
Proof.
  intros Hb Hu Hn Hne. apply map_eq. intros b'. destruct (decide (b = b')) as [<-|Hbb].
  - rewrite lookup_insert_eq, lookup_fmap, Hb. simpl. unfold prod_map. simpl. by rewrite Hn.
  - rewrite lookup_insert_ne, !lookup_fmap by done. destruct (m !! b') as [[h' i]|] eqn:E; [|done]. simpl. unfold prod_map. simpl.
    rewrite Hne; [done|]. intros ->. apply Hbb. by eapply Hu.
Qed.

Lemma shifted_uniq f lo hi n (m : gmap nat (Z * nat)) b h : m !! b = Some (h, n) -> uniq m -> shifted f lo hi n = n ->
  (forall i, i <> n -> shifted f lo hi i <> n) ->
  (prod_map id (shifted f lo hi) <$> m) !! b = Some (h, n) /\
  forall b' h', (prod_map id (shifted f lo hi) <$> m) !! b' = Some (h', n) -> b' = b.
Proof.
  intros Hb Hu Hn Hne. rewrite lookup_fmap, Hb. simpl. unfold prod_map. simpl. rewrite Hn. split; [done|].
  intros b' h'. rewrite lookup_fmap. destruct (m !! b') as [[h0 i]|] eqn:E; [|done]. simpl. intros [= <- Hi].
  destruct (decide (i = n)) as [->|Hin]; [by eapply Hu|]. by apply Hne in Hin.
Qed.

(** [update_index] where the number is unique although others are not. *)
Lemma update_index_slots t b h i j : slots t !! b = Some (h, i) -> (forall b' h', slots t !! b' = Some (h', i) -> b' = b) ->
  wp (update_index t h i j) (fun t' => slots t' = <[b := (h, j)]> (slots t)).
Proof.
  intros Hb Hu. unfold update_index, find_index. apply wp_bind.
  eapply wp_mono; [apply (find_slots t h _ (fun k => (k =? i)%nat)), answers_total|]. intros [b'|] Hr.
  - destruct Hr as (h' & i' & Hb' & ->%Nat.eqb_eq). rewrite some_bind. simpl. rewrite (Hu b' h' Hb'). by apply set_slots with i.
  - specialize (Hr b i Hb). by rewrite Nat.eqb_refl in Hr.
Qed.

Definition present (m : gmap nat (Z * nat)) (n : nat) es : Prop := forall k e, es !! k = Some e -> exists b, m !! b = Some (hash e, (n + k)%nat).

Lemma present_cons m n e es : present m n (e :: es) -> (exists b, m !! b = Some (hash e, n)) /\ present m (S n) es.
Proof.
  intros Hp. split; [destruct (Hp 0%nat e eq_refl) as [b Hb]; exists b; by rewrite Nat.add_0_r in Hb|].
  intros k e' He. destruct (Hp (S k) e' He) as [b Hb]. exists b. by replace (S n + k)%nat with (n + S k)%nat by lia.
Qed.

Lemma update_each_slots f lo n m t es : (forall i, (f i <= i)%nat) -> (lo <= n)%nat -> uniq m -> present m n es ->
  slots t = prod_map id (shifted f lo n) <$> m ->
  wp (update_each f t n es) (fun t' => slots t' = prod_map id (shifted f lo (n + length es)) <$> m).
Proof.
  intros Hf Hlo Hu. revert n t Hlo. induction es as [|e es IH]; intros n t Hlo Hp Ht; cbn [update_each length]; [by rewrite Nat.add_0_r|].
  apply present_cons in Hp as [[b Hb] Hp].
  destruct (shifted_uniq f lo n n m b (hash e) Hb Hu) as [Hb' Hu']; [shift_cases|intros i Hi; specialize (Hf i); shift_cases|].
  apply wp_bind. eapply wp_mono; [apply (update_index_slots t b); rewrite Ht; done|]. intros t' Ht'.
  rewrite Nat.add_succ_r. apply (IH (S n) t'); [lia|done|]. rewrite Ht', Ht. apply shift_one; [done..| |]; shift_cases.
Qed.

Lemma update_each_rev_slots f n t es : (forall i, (i <= f i)%nat) -> uniq (slots t) -> present (slots t) n es ->
  wp (update_each_rev f t n es) (fun t' => slots t' = prod_map id (shifted f n (n + length es)) <$> slots t).
Proof.
  intros Hf Hu. revert n. induction es as [|e es IH]; intros n Hp; cbn [update_each_rev length].
  - simpl. apply map_eq. intros b. rewrite lookup_fmap. destruct (slots t !! b) as [[h i]|]; [|done]. simpl. unfold prod_map. simpl.
    do 2 f_equal. shift_cases.
  - apply present_cons in Hp as [[b Hb] Hp]. apply wp_bind. eapply wp_mono; [apply (IH (S n) Hp)|]. intros t' Ht'.
    destruct (shifted_uniq f (S n) (S n + length es) n (slots t) b (hash e) Hb Hu) as [Hb' Hu']; [shift_cases|intros i Hi; specialize (Hf i); shift_cases|].
    eapply wp_mono; [apply (update_index_slots t' b); rewrite Ht'; done|]. intros t'' Ht''. rewrite Ht'', Ht'. apply shift_one; [done..| |]; shift_cases.
Qed.

Lemma present_items m n es : (forall x, x ∈ numbered n es -> x ∈ items_of m) -> present m n es.
Proof. intros Hs k e He. apply elem_of_items, Hs, elem_of_numbered. exists e. split; [lia|]. by replace (n + k - n)%nat with k by lia. Qed.

Lemma slice_app {A} (a s z : list A) : slice (a ++ s ++ z) (length a) (length a + length s) = Some s.
Proof.
  unfold slice. rewrite decide_True by (rewrite !length_app; lia). rewrite drop_app_length. replace (length a + length s - length a)%nat with (length s) by lia.
  by rewrite take_app_length.
Qed.

(** The numbers of a segment go down, or up, by one; the others stay in their
    buckets as they are. *)
Lemma decrement_slots c a s z : entries c = a ++ s ++ z -> a <> [] \/ s = [] -> NoDup (items (indices c)).*2 ->
  (forall x, x ∈ numbered (length a) s -> x ∈ items (indices c)) ->
  wp (decrement_indices c (length a) (length a + length s)) (fun t => slots t = prod_map id (shifted (fun i => i - 1)%nat (length a) (length a + length s)) <$> slots (indices c)).
Proof.
  intros He Ha Hn Hp. apply uniq_items in Hn. apply present_items in Hp. unfold decrement_indices. rewrite He, slice_app, some_bind. cbv beta.
  assert (Hpos : (1 <= length a \/ length s = 0)%nat) by (destruct Ha as [Ha| ->]; [left; destruct a; [done|simpl; lia]|by right]).
  case_match.
  - apply iter_slots. intros b h i _. unfold shifted, sub. destruct (between _ _ i) eqn:E; [|done].
    unfold between in E. apply andb_true_iff in E as [E1%Nat.leb_le E2%Nat.ltb_lt]. rewrite (proj2 (Nat.leb_le 1 i)) by lia. done.
  - apply wp_bind, wp_assert; [apply orb_true_iff; rewrite Nat.eqb_eq, Nat.leb_le; lia|].
    apply update_each_slots; [lia|done|done|done|]. apply map_eq. intros b. rewrite lookup_fmap.
    destruct (slots (indices c) !! b) as [[h i]|]; [|done]. simpl. unfold prod_map. simpl. do 2 f_equal. shift_cases.
Qed.

Lemma increment_slots c a s z : entries c = a ++ s ++ z -> NoDup (items (indices c)).*2 ->
  (forall x, x ∈ numbered (length a) s -> x ∈ items (indices c)) ->
  wp (increment_indices c (length a) (length a + length s)) (fun t => slots t = prod_map id (shifted (fun i => i + 1)%nat (length a) (length a + length s)) <$> slots (indices c)).
Proof.
  intros He Hn Hp. apply uniq_items in Hn. apply present_items in Hp. unfold increment_indices. rewrite He, slice_app, some_bind. cbv beta.
  case_match.
  - by apply iter_slots.
  - by apply update_each_rev_slots; [lia|..].
Qed.

Lemma decrement_items c a s z : entries c = a ++ s ++ z -> a <> [] \/ s = [] -> NoDup (items (indices c)).*2 ->
  (forall x, x ∈ numbered (length a) s -> x ∈ items (indices c)) ->
  wp (decrement_indices c (length a) (length a + length s)) (fun t => items t = prod_map id (shifted (fun i => i - 1)%nat (length a) (length a + length s)) <$> items (indices c)).
Proof. intros. eapply wp_mono; [by eapply decrement_slots|]. intros t Ht. unfold items. by rewrite Ht, items_fmap. Qed.

Lemma increment_items c a s z : entries c = a ++ s ++ z -> NoDup (items (indices c)).*2 ->
  (forall x, x ∈ numbered (length a) s -> x ∈ items (indices c)) ->
  wp (increment_indices c (length a) (length a + length s)) (fun t => items t = prod_map id (shifted (fun i => i + 1)%nat (length a) (length a + length s)) <$> items (indices c)).
Proof. intros. eapply wp_mono; [by eapply increment_slots|]. intros t Ht. unfold items. by rewrite Ht, items_fmap. Qed.

(** ** Erasing a range *)

Lemma omap_numbered f n m es : (forall i, (i < length es)%nat -> f (n + i)%nat = Some (m + i)%nat) ->
  omap (fun '(h, i) => pair h <$> f i) (numbered n es) = numbered m es.
Proof.
  revert n m. induction es as [|e es IH]; intros n m Hf; [done|]. cbn [numbered omap list_omap].
  pose proof (Hf 0%nat) as H0. simpl in H0. rewrite !Nat.add_0_r in H0. rewrite H0 by lia. cbn [fmap option_fmap option_map]. f_equal.
  apply IH. intros i Hi. specialize (Hf (S i)). simpl in Hf. replace (S n + i)%nat with (n + S i)%nat by lia. rewrite Hf by lia. f_equal. lia.
Qed.

Lemma omap_numbered_none f n es : (forall i, (n <= i < n + length es)%nat -> f i = None) ->
  omap (fun '(h, i) => pair h <$> f i) (numbered n es) = ([] : list (Z * nat)).
Proof.
  revert n. induction es as [|e es IH]; intros n Hf; [done|]. cbn [numbered omap list_omap length] in *. rewrite Hf by lia. apply IH.
  intros i Hi. apply Hf. lia.
Qed.

Lemma erase_indices_spec c a s z : wf c -> entries c = a ++ s ++ z ->
  wp (erase_indices c (length a) (length a + length s)) (fun t => items t ≡ₚ numbered 0 (a ++ z)).
Proof.
  unfold wf. intros Hc He. pose proof (wf_len c Hc) as Hl. rewrite He in Hc. rewrite !numbered_app in Hc. simpl in Hc.
  assert (Hlen : length (entries c) = (length a + length s + length z)%nat) by (rewrite He, !length_app; lia).
  assert (Hcap : (len (indices c) <= capacity (indices c))%nat) by apply len_capacity. pose proof (clear_slots (indices c)) as [_ Hclear].
  unfold erase_indices. rewrite He.
  assert (E1 : slice (a ++ s ++ z) 0 (length a + length s) = Some (a ++ s)).
  { rewrite app_assoc. rewrite <- length_app. apply (slice_app [] (a ++ s) z). }
  assert (E2 : slice (a ++ s ++ z) (length a + length s) (length (a ++ s ++ z)) = Some z).
  { pose proof (slice_app (a ++ s) z []) as E. rewrite app_nil_r, <- app_assoc, length_app in E.
    by replace (length (a ++ s ++ z)) with (length a + length s + length z)%nat by (rewrite !length_app; lia). }
  rewrite E1, some_bind. cbv beta. rewrite E2, some_bind. cbv beta. pose proof (slice_app [] a s) as E4. cbn [length app Nat.add] in E4. rewrite E4, some_bind. cbv beta.
  pose proof (slice_app a s []) as E3. rewrite app_nil_r in E3. rewrite length_app, E3, some_bind. cbv beta zeta.
  apply wp_bind. eapply wp_mono with (P := fun t => items t ≡ₚ numbered 0 (a ++ z)).
  - rewrite numbered_app. simpl. destruct (Nat.eqb_spec (length s) 0) as [Hs|Hs].
    + apply nil_length_inv in Hs as ->. cbn. by rewrite Hc, Nat.add_0_r.
    + case_match eqn:B1; [|case_match eqn:B2].
      * apply andb_true_iff in B1 as [B1%Nat.ltb_lt B3%Nat.ltb_lt]. assert (Hsp : (length a + length z < capacity (indices c))%nat).
        { pose proof (Nat.Div0.div_le_upper_bound (capacity (indices c)) 2 (capacity (indices c))). lia. }
        apply wp_bind. eapply wp_mono; [apply insert_bulk_fresh; [apply items_clear|lia]|]. intros t (Hi & Hlt & Hct).
        eapply wp_mono; [apply insert_bulk_no_grow_spec; lia|]. intros t' (Hi' & _ & _). by rewrite Hi', Hi, Hlt.
      * apply wp_bind. eapply wp_mono; [apply erase_each_spec with (rest := numbered 0 a ++ numbered (length a + length s) z)|].
        -- rewrite Hc, !app_assoc, (Permutation_app_comm (numbered 0 a) (numbered (length a) s)). done.
        -- intros i. rewrite fmap_app, elem_of_app, !numbered_bounds. lia.
        -- intros t Ht. apply shift_each_spec; [lia|done|]. intros i. rewrite numbered_bounds. lia.
      * unfold sub. rewrite (proj2 (Nat.leb_le (length a) (length a + length s))) by lia. cbn [rassert mbind option_bind wp].
        rewrite items_retain, Hc, !omap_app. apply Permutation_refl'. rewrite (omap_numbered_none _ (length a) s); [simpl; f_equal|].
        -- apply omap_numbered. intros i Hi. simpl. destruct (Nat.leb_spec (length a + length s) i); [lia|]. destruct (Nat.ltb_spec i (length a)); [done|lia].
        -- apply omap_numbered. intros i Hi. destruct (Nat.leb_spec (length a + length s) (length a + length s + i)); [f_equal; lia|lia].
        -- intros i Hi. destruct (Nat.leb_spec (length a + length s) i); [lia|]. destruct (Nat.ltb_spec i (length a)); [lia|done].
  - intros t Ht. apply wp_bind, wp_assert; [|done]. apply Nat.eqb_eq. by rewrite length_items, Ht, length_numbered, length_app.
Qed.
End Inv.
