(* ===== verification/IndexMapOps.v ===== *)
(** * indexmap: what the operations of a core do to its entries

    Each operation of src/indexmap/src/inner.rs, given a core whose table agrees
    with its entries, returns one such, with the entries that it says. *)
From Stdlib Require Import ZArith Lia.
From stdpp Require Import base list gmap numbers option.
From S2P Require Import Prelude HashTable IndexMapCore IndexMapInv.
From stdpp Require Import list.
Import Inner.

Section Ops.
Context {HT : HashTable} {HL : HashTableLaws} {K V : Type}.
Implicit Types (c : Core K V) (es : list (Bucket K V)) (t : table).

(** A core with given entries. *)
Definition has c es : Prop := wf c /\ entries c = es.

Lemma cut_range {A} (l : list A) lo hi : (lo <= hi)%nat -> (hi <= length l)%nat ->
  exists a s z, l = a ++ s ++ z /\ lo = length a /\ hi = (length a + length s)%nat /\
    take lo l = a /\ drop hi l = z /\ take (hi - lo) (drop lo l) = s.
Proof.
  intros H1 H2. exists (take lo l), (take (hi - lo) (drop lo l)), (drop hi l).
  rewrite !length_take, length_drop. split_and!; [|lia|lia|done..].
  rewrite <- (take_drop lo l) at 1. f_equal. rewrite <- (take_drop (hi - lo) (drop lo l)) at 1. f_equal. rewrite drop_drop. f_equal. lia.
Qed.

Lemma core_len_spec c : wf c -> core_len c = Some (length (entries c)).
Proof. intros Hc. unfold core_len. rewrite (wf_len c Hc), Nat.eqb_refl. done. Qed.

Lemma has_len c es : has c es -> core_len c = Some (length es).
Proof. intros [Hc <-]. by apply core_len_spec. Qed.

(** ** Rebuilding *)

Lemma rebuild_spec t es : (length es <= capacity t)%nat -> wp (rebuild_hash_table {| indices := t; entries := es |}) (fun c => has c es).
Proof.
  intros Hc. pose proof (clear_slots t) as [_ Hcl]. unfold rebuild_hash_table. simpl. apply wp_bind.
  eapply wp_mono; [apply insert_bulk_fresh; [apply items_clear|lia]|]. intros t' (Hi & _ & _). split; [exact Hi|done].
Qed.

Lemma wf_capacity c : wf c -> (length (entries c) <= capacity (indices c))%nat.
Proof. intros Hc. rewrite <- (wf_len c Hc). apply len_capacity. Qed.

Lemma with_entries_spec c es f es' : has c es -> f es = Some es' -> length es' = length es -> wp (with_entries c f) (fun c' => has c' es').
Proof. intros [Hc <-] Hf Hl. unfold with_entries. rewrite Hf, some_bind. apply rebuild_spec. rewrite Hl. by apply wf_capacity. Qed.

Lemma core_clear_spec c : has (core_clear c) [].
Proof. split; [|done]. unfold wf. simpl. by rewrite items_clear. Qed.

(** ** Ranges *)

Lemma core_truncate_spec c es n : has c es -> wp (core_truncate c n) (fun c' => has c' (take n es)).
Proof.
  intros [Hc <-]. unfold core_truncate. rewrite core_len_spec, some_bind by done. destruct (Nat.ltb_spec n (length (entries c))) as [Hn|Hn].
  - destruct (cut_range (entries c) n (length (entries c))) as (a & s & z & He & Ha & Hs & Ht & Hd & _); [lia..|].
    rewrite drop_all in Hd. subst z. apply wp_bind. rewrite Hs, Ha. eapply wp_mono; [by apply (erase_indices_spec c a s [])|].
    intros t Hi. rewrite app_nil_r in Hi. split; simpl; [|by rewrite <- Ha, Ht]. unfold wf. simpl. by rewrite <- Ha, Ht.
  - simpl. split; [done|]. by rewrite take_ge.
Qed.

Lemma try_simplify_range_spec r n start end_ : try_simplify_range r n = Some (start, end_) -> (start <= end_)%nat /\ (end_ <= n)%nat.
Proof.
  unfold try_simplify_range. destruct r as [[|i|i] [|j|j]]; simpl;
    repeat (match goal with
      | |- context [(?a <=? ?b)%nat] => destruct (Nat.leb_spec a b)
      | |- context [(?a <? ?b)%nat] => destruct (Nat.ltb_spec a b)
      end; simpl); intros; simplify_eq; lia.
Qed.

Lemma core_drain_spec c es range start end_ : has c es -> simplify_range range (length es) = Some (start, end_) ->
  wp (core_drain c range) (fun '(d, c') => d = take (end_ - start) (drop start es) /\ has c' (take start es ++ drop end_ es)).
Proof.
  intros [Hc <-] Hr. destruct (try_simplify_range_spec _ _ _ _ Hr) as [H1 H2]. unfold core_drain. rewrite Hr, some_bind. cbv beta.
  destruct (cut_range (entries c) start end_) as (a & s & z & He & Ha & Hs & Ht & Hd & Htd); [lia..|].
  apply wp_bind. rewrite Ht, Hd, Htd, Hs, Ha. eapply wp_mono; [by apply (erase_indices_spec c a s z)|]. intros t Hi.
  rewrite He, slice_app, some_bind. simpl. done.
Qed.

Lemma split_off_tail (z : list (Bucket K V)) : (Z.of_nat (length z) <= most)%Z ->
  wp (u ← with_capacity (length z); insert_bulk_no_grow u z) (fun u => has {| indices := u; entries := z |} z).
Proof.
  intros Hz. apply wp_bind. eapply wp_mono; [by apply items_with_capacity|]. intros u0 [H0 Hcap].
  eapply wp_mono; [by apply insert_bulk_fresh|]. by intros u (Hi & _ & _).
Qed.

Lemma core_split_off_spec c es at_ : has c es -> (at_ <= length es)%nat -> (Z.of_nat (length es) <= most)%Z ->
  wp (core_split_off c at_) (fun '(d, c') => has d (drop at_ es) /\ has c' (take at_ es)).
Proof.
  intros [Hc <-] Hat Hfit. unfold core_split_off. rewrite core_len_spec, some_bind by done. apply wp_bind, wp_assert; [by apply Nat.leb_le|].
  destruct (cut_range (entries c) at_ (length (entries c))) as (a & s & z & He & Ha & Hs & Ht & Hd & Htd); [lia..|].
  rewrite drop_all in Hd. subst z. rewrite app_nil_r in He. assert (Hdr : drop at_ (entries c) = s) by (rewrite He, Ha; apply drop_app_length).
  apply wp_bind. rewrite Hs, Ha. eapply wp_mono; [apply (erase_indices_spec c a s []); [done|by rewrite app_nil_r]|].
  intros t Hi. rewrite app_nil_r in Hi. pose proof (slice_app a s []) as Esl. rewrite app_nil_r, <- He in Esl. rewrite Esl, some_bind. cbv beta.
  pose proof (split_off_tail s) as Hu. rewrite <- Hdr, length_drop in Hu at 1. apply wp_elim in Hu as (u & Hu & Hhas); [|lia].
  destruct (with_capacity (length s)) as [u0|]; [|done]. cbn [mbind option_bind] in Hu |- *. rewrite Hu. cbn [mbind option_bind].
  apply wp_ret. rewrite <- Ha, Ht, Hdr. by split.
Qed.

Lemma split_splice_spec c es range start end_ : has c es -> simplify_range range (length es) = Some (start, end_) -> (Z.of_nat (length es) <= most)%Z ->
  wp (split_splice c range) (fun '(d, drained, c') => has d (drop end_ es) /\ drained = take (end_ - start) (drop start es) /\ has c' (take start es)).
Proof.
  intros [Hc <-] Hr Hfit. destruct (try_simplify_range_spec _ _ _ _ Hr) as [H1 H2]. unfold split_splice. rewrite core_len_spec, some_bind by done. cbv beta.
  rewrite Hr, some_bind. cbv beta. destruct (cut_range (entries c) start end_) as (a & s & z & He & Ha & Hs & Ht & Hd & Htd); [lia..|].
  assert (Hlen : length (entries c) = (length a + length (s ++ z))%nat) by (by rewrite He, length_app).
  apply wp_bind. rewrite Ht, Hd, Htd, Hs, Ha, Hlen. eapply wp_mono; [apply (erase_indices_spec c a (s ++ z) []); [done|by rewrite app_nil_r]|].
  intros t Hi. rewrite app_nil_r in Hi. pose proof (slice_app (a ++ s) z []) as Esl.
  rewrite app_nil_r, <- app_assoc, <- He, length_app, <- Nat.add_assoc in Esl. rewrite (length_app s z), Esl, some_bind. cbv beta.
  rewrite He, slice_app, some_bind. cbv beta. pose proof (split_off_tail z) as Hu. rewrite Hlen, length_app in Hfit. apply wp_elim in Hu as (u & Hu & Hhas); [|lia].
  destruct (with_capacity (length z)) as [u0|]; [|done]. cbn [mbind option_bind] in Hu |- *. rewrite Hu. cbn [mbind option_bind]. apply wp_ret. done.
Qed.

Lemma core_reserve_spec c es n : has c es -> (Z.of_nat (length es + n) <= most)%Z ->
  wp (core_reserve c n) (fun c' => has c' es /\ (length es + n <= capacity (indices c'))%nat).
Proof.
  intros [Hc <-] Hn. unfold core_reserve. apply wp_bind.
  eapply wp_mono; [apply reserve_slots; [apply knows_items; intros h i; by apply wf_knows|by rewrite (wf_len c Hc)]|].
  intros t [Hi Hcap]. rewrite (wf_len c Hc) in Hcap. pose proof most_entries. apply wp_bind, wp_assert; [apply Z.leb_le; lia|]. apply wp_ret. split; [|done]. split; [|done]. unfold wf, items in *. simpl. by rewrite Hi.
Qed.

(** Asking for more than the vector can ever hold panics, if not before. *)
Lemma core_reserve_overflow c n : (MAX_ENTRIES_CAPACITY < Z.of_nat (length (entries c) + n))%Z -> core_reserve c n = None.
Proof.
  intros Hn. unfold core_reserve. destruct (reserve _ _ _); [|done]. rewrite some_bind. by rewrite (proj2 (Z.leb_gt _ _)) by lia.
Qed.

Lemma append_unchecked_spec c es d es' : has c es -> has d es' -> (Z.of_nat (length es + length es') <= most)%Z ->
  wp (append_unchecked c d) (fun '(c', d') => has c' (es ++ es') /\ has d' []).
Proof.
  intros Hc [Hd <-] Hfit. unfold append_unchecked. rewrite core_len_spec, some_bind by done. apply wp_bind.
  eapply wp_mono; [by apply core_reserve_spec|]. intros c' [[Hc' <-] Hcap]. apply wp_bind.
  eapply wp_mono; [apply insert_bulk_no_grow_spec; by rewrite (wf_len c' Hc')|]. intros t (Hi & _ & _). split; [|apply core_clear_spec].
  split; [|done]. unfold wf in *. simpl. by rewrite numbered_app, Hi, (wf_len c' Hc'), Hc'.
Qed.

(** ** All entries *)

Definition kept (keep : K -> V -> option V) es : list (Bucket K V) :=
  omap (fun b => (fun v => {| hash := hash b; key := key b; value := v |}) <$> keep (key b) (value b)) es.

Lemma kept_all keep es : (length es <= length (kept keep es))%nat -> hash <$> kept keep es = hash <$> es.
Proof.
  assert (Hle : forall es, (length (kept keep es) <= length es)%nat).
  { clear es. induction es as [|e es IH]; [done|]. unfold kept in *. cbn [omap list_omap]. destruct (keep (key e) (value e)); simpl; lia. }
  induction es as [|e es IH]; intros Hl; [done|]. unfold kept in *. cbn [omap list_omap] in *.
  destruct (keep (key e) (value e)); simpl in *; [f_equal; apply IH; lia|specialize (Hle es); lia].
Qed.

Lemma length_kept keep es : (length (kept keep es) <= length es)%nat.
Proof. induction es as [|e es IH]; [done|]. unfold kept in *. cbn [omap list_omap]. destruct (keep (key e) (value e)); simpl; lia. Qed.

Lemma core_retain_spec c es keep : has c es -> wp (core_retain c keep) (fun c' => has c' (kept keep es)).
Proof.
  intros [Hc <-]. unfold core_retain. fold (kept keep (entries c)). cbv zeta. simpl.
  destruct (Nat.ltb_spec (length (kept keep (entries c))) (len (indices c))) as [Hl|Hl].
  - apply rebuild_spec. pose proof (len_capacity (indices c)). lia.
  - rewrite (wf_len c Hc) in Hl. split; [|done]. unfold wf in *. simpl. rewrite Hc. apply Permutation_refl'. symmetry. by apply numbered_same, kept_all.
Qed.

Lemma reverse_numbered f n m es : (forall i, (i < length es)%nat -> f (n + i)%nat = (m + (length es - i - 1))%nat) ->
  prod_map id f <$> numbered n es ≡ₚ numbered m (reverse es).
Proof.
  revert n m. induction es as [|e es IH]; intros n m Hf; [done|]. rewrite reverse_cons, numbered_app, length_reverse. cbn [numbered length] in *.
  rewrite fmap_cons. rewrite <- Permutation_cons_append. apply Permutation_cons.
  - unfold prod_map. simpl. f_equal. specialize (Hf 0%nat). rewrite Nat.add_0_r in Hf. rewrite Hf by lia. lia.
  - apply IH. intros i Hi. specialize (Hf (S i)). replace (S n + i)%nat with (n + S i)%nat by lia. rewrite Hf by lia. lia.
Qed.

Lemma core_reverse_spec c es : has c es -> wp (core_reverse c) (fun c' => has c' (reverse es)).
Proof.
  intros [Hc <-]. unfold core_reverse. cbv zeta. apply wp_bind. unfold wf in *.
  eapply wp_mono; [apply (items_iter _ (fun i => length (entries c) - i - 1)%nat)|].
  - intros i. rewrite Hc, numbered_bounds. intros Hi. unfold sub. rewrite (proj2 (Nat.leb_le i _)) by lia. cbn [rassert mbind option_bind].
    by rewrite (proj2 (Nat.leb_le 1 _)) by lia.
  - intros t Ht. split; [|done]. unfold wf. simpl. rewrite Ht, Hc. apply reverse_numbered. intros i Hi. simpl. lia.
Qed.
End Ops.
