(* ===== verification/IndexMapEdit.v ===== *)
(** * indexmap: inserting, removing and moving entries of a core

    The operations of src/indexmap/src/inner.rs on one entry, as operations on
    the list of entries. *)
From Stdlib Require Import ZArith Lia.
From stdpp Require Import base list gmap numbers option.
From S2P Require Import Prelude HashTable IndexMapCore IndexMapInv IndexMapOps.
From stdpp Require Import list.
Import Inner.

Section Edit.
Context {HT : HashTable} {HL : HashTableLaws} {K V : Type}.
Implicit Types (c : Core K V) (es a z s : list (Bucket K V)) (t : table).

Definition bucket (h : Z) (k : K) (v : V) : Bucket K V := {| hash := h; key := k; value := v |}.

(** Everything but the number of the entry between [a] and [z]. *)
Definition around a z : list (Z * nat) := numbered 0 a ++ numbered (S (length a)) z.

Lemma wf_around c a e z : wf c -> entries c = a ++ e :: z -> items (indices c) ≡ₚ (hash e, length a) :: around a z.
Proof. unfold wf. intros Hc He. rewrite Hc, He, numbered_app. simpl. symmetry. apply Permutation_middle. Qed.

Lemma around_bounds a z i : i ∈ (around a z).*2 <-> (i < length a + S (length z))%nat /\ i <> length a.
Proof. unfold around. rewrite fmap_app, elem_of_app, !numbered_bounds. lia. Qed.

Lemma around_at a z : length a ∉ (around a z).*2.
Proof. rewrite around_bounds. lia. Qed.

(** ** Finding a key *)

Lemma find_hit c a e z p : wf c -> entries c = a ++ e :: z -> p (key e) = true -> (forall e', e' ∈ a ++ z -> p (key e') = false) ->
  exists b, HashTable.find (indices c) (hash e) (equivalent p (entries c)) = Some (Some b) /\ slots (indices c) !! b = Some (hash e, length a) /\
    items_of (delete b (slots (indices c))) ≡ₚ around a z.
Proof.
  intros Hc He Hp Hn. pose proof (wf_around c a e z Hc He) as Hi.
  set (q := fun i => match entries c !! i with Some e => p (key e) | None => false end).
  apply (find_once _ _ _ q (length a) _ Hi).
  - intros j. unfold wf in Hc. rewrite Hc, numbered_bounds. intros Hj. destruct (lookup_lt_is_Some_2 (entries c) j) as [x Hx]; [lia|].
    unfold equivalent, q. by rewrite Hx.
  - unfold q. by rewrite He, list_lookup_middle.
  - intros j [Hj Hne]%around_bounds. unfold q. rewrite He. destruct (decide (j < length a)%nat) as [Hlt|Hge].
    + rewrite lookup_app_l by done. destruct (a !! j) as [x|] eqn:E; [|done]. apply Hn, elem_of_app. left. by apply list_elem_of_lookup_2 in E.
    + rewrite lookup_app_r by lia. destruct (j - length a)%nat as [|n] eqn:Ej; [lia|]. simpl.
      destruct (z !! n) as [x|] eqn:E; [|done]. apply Hn, elem_of_app. right. by apply list_elem_of_lookup_2 in E.
Qed.

Lemma find_miss c h p : wf c -> (forall e, e ∈ entries c -> p (key e) = false) -> HashTable.find (indices c) h (equivalent p (entries c)) = Some None.
Proof.
  unfold wf. intros Hc Hn. apply find_nowhere. intros j. rewrite Hc, numbered_bounds. intros Hj.
  destruct (lookup_lt_is_Some_2 (entries c) j) as [e He]; [lia|]. unfold equivalent. rewrite He. simpl. f_equal. apply Hn.
  by apply list_elem_of_lookup_2 in He.
Qed.

Lemma get_number t b h i : slots t !! b = Some (h, i) -> get_bucket t b = Some i.
Proof. intros Hb. by rewrite get_slots, Hb. Qed.

Lemma core_get_index_of_hit c a e z p : has c (a ++ e :: z) -> p (key e) = true -> (forall e', e' ∈ a ++ z -> p (key e') = false) ->
  core_get_index_of c (hash e) p = Some (Some (length a)).
Proof.
  intros [Hc He] Hp Hn. destruct (find_hit c a e z p Hc He Hp Hn) as (b & Hb & Hs & _). unfold core_get_index_of.
  rewrite Hb, some_bind. cbv beta iota. by rewrite (get_number _ _ _ _ Hs).
Qed.

Lemma core_get_index_of_miss c es h p : has c es -> (forall e, e ∈ es -> p (key e) = false) -> core_get_index_of c h p = Some None.
Proof. intros [Hc <-] Hn. unfold core_get_index_of. by rewrite (find_miss c h p Hc Hn). Qed.

(** ** Inserting *)

Lemma has_same c es es' : has c es -> hash <$> es = hash <$> es' -> has {| indices := indices c; entries := es' |} es'.
Proof. unfold has, wf. intros [Hc <-] Hh. split; [|done]. simpl. by rewrite Hc, (numbered_same 0 _ _ Hh). Qed.

Lemma upd_middle {A} (l r : list A) x y : upd (l ++ x :: r) (length l) y = Some (l ++ y :: r).
Proof.
  unfold upd. rewrite decide_True by (rewrite length_app; simpl; lia). f_equal. rewrite insert_app_r_alt by lia. by rewrite Nat.sub_diag.
Qed.

Lemma insert_end c es h k v : has c es ->
  wp (insert_unique (indices c) h (length es) (get_hash es)) (fun '(t, b) => slots t !! b = Some (h, length es) /\
    has {| indices := t; entries := es ++ [bucket h k v] |} (es ++ [bucket h k v])).
Proof.
  intros [Hc <-]. eapply wp_mono; [apply items_insert_unique; left; intros h' j; by apply wf_knows|].
  intros [t b] (Hb & Hi & _). split; [done|]. split; [|done]. unfold wf in *. simpl. rewrite numbered_app, Hi, Hc. simpl. apply Permutation_cons_append.
Qed.

Lemma core_insert_full_hit keq c a e z k v : has c (a ++ e :: z) -> keq k (key e) = true -> (forall e', e' ∈ a ++ z -> keq k (key e') = false) ->
  wp (core_insert_full keq c (hash e) k v) (fun '(i, old, c') => i = length a /\ old = Some (value e) /\ has c' (a ++ bucket (hash e) (key e) v :: z)).
Proof.
  intros [Hc He] Hp Hn. destruct (find_hit c a e z (keq k) Hc He Hp Hn) as (b & Hb & Hs & _). unfold core_insert_full.
  rewrite Hb, some_bind. cbv beta iota. rewrite (get_number _ _ _ _ Hs), some_bind. cbv beta. rewrite He, list_lookup_middle, some_bind by done. cbv beta.
  rewrite upd_middle, some_bind. simpl. split_and!; [done..|]. apply (has_same c (a ++ e :: z)); [done|]. by rewrite !fmap_app, !fmap_cons.
Qed.

Lemma core_insert_full_miss keq c es h k v : has c es -> (forall e, e ∈ es -> keq k (key e) = false) ->
  wp (core_insert_full keq c h k v) (fun '(i, old, c') => i = length es /\ old = None /\ has c' (es ++ [bucket h k v])).
Proof.
  intros Hc Hn. pose proof Hc as [Hw He]. unfold core_insert_full. rewrite (find_miss c h (keq k) Hw) by (by rewrite He). rewrite some_bind. cbv beta iota zeta.
  rewrite He. apply wp_bind. eapply wp_mono; [by apply (insert_end c es h k v)|]. intros [t b] [_ Ht]. unfold push_entry.
  apply wp_bind, wp_assert; [|split_and!; [done..|exact Ht]]. apply Nat.eqb_eq. destruct Ht as [Ht _]. exact (wf_len _ Ht).
Qed.

Lemma core_replace_full_hit keq c a e z k v : has c (a ++ e :: z) -> keq k (key e) = true -> (forall e', e' ∈ a ++ z -> keq k (key e') = false) ->
  wp (core_replace_full keq c (hash e) k v) (fun '(i, old, c') => i = length a /\ old = Some (key e, value e) /\ has c' (a ++ bucket (hash e) k v :: z)).
Proof.
  intros [Hc He] Hp Hn. destruct (find_hit c a e z (keq k) Hc He Hp Hn) as (b & Hb & Hs & _). unfold core_replace_full.
  rewrite Hb, some_bind. cbv beta iota. rewrite (get_number _ _ _ _ Hs), some_bind. cbv beta. rewrite He, list_lookup_middle, some_bind by done. cbv beta.
  rewrite upd_middle, some_bind. simpl. split_and!; [done..|]. apply (has_same c (a ++ e :: z)); [done|]. by rewrite !fmap_app, !fmap_cons.
Qed.

Lemma core_replace_full_miss keq c es h k v : has c es -> (forall e, e ∈ es -> keq k (key e) = false) ->
  wp (core_replace_full keq c h k v) (fun '(i, old, c') => i = length es /\ old = None /\ has c' (es ++ [bucket h k v])).
Proof.
  intros Hc Hn. pose proof Hc as [Hw He]. unfold core_replace_full. rewrite (find_miss c h (keq k) Hw) by (by rewrite He). rewrite some_bind. cbv beta iota zeta.
  rewrite He. apply wp_bind. eapply wp_mono; [by apply (insert_end c es h k v)|]. intros [t b] [_ Ht]. unfold push_entry.
  apply wp_bind, wp_assert; [|split_and!; [done..|exact Ht]]. apply Nat.eqb_eq. destruct Ht as [Ht _]. exact (wf_len _ Ht).
Qed.

Lemma core_insert_unique_spec c es h k v : has c es ->
  wp (core_insert_unique c h k v) (fun '(c', b) => has c' (es ++ [bucket h k v]) /\ slots (indices c') !! b = Some (h, length es)).
Proof.
  intros Hc. pose proof Hc as [Hw He]. unfold core_insert_unique. cbv zeta. rewrite (wf_len c Hw), He. apply wp_bind, wp_assert; [apply Nat.eqb_refl|].
  apply wp_bind. eapply wp_mono; [by apply (insert_end c es h k v)|]. intros [t b] [Hb Ht]. split; [exact Ht|exact Hb].
Qed.

Lemma around_knows a e z h i : (h, i) ∈ around a z -> get_hash (a ++ e :: z) i = Some h.
Proof.
  unfold around, get_hash. rewrite elem_of_app, !elem_of_numbered. intros [(x & Hi & Hx & <-)|(x & Hi & Hx & <-)].
  - rewrite Nat.sub_0_r in Hx. by rewrite lookup_app_l, Hx by (by apply lookup_lt_Some in Hx).
  - rewrite lookup_app_r by lia. replace (i - length a)%nat with (S (i - S (length a))) by lia. simpl. by rewrite Hx.
Qed.

Lemma replace_index_unique_spec c a e z h k : has c (a ++ e :: z) ->
  wp (replace_index_unique c (length a) h k) (fun '(old, c') => old = key e /\ has c' (a ++ bucket h k (value e) :: z)).
Proof.
  intros [Hc He]. unfold replace_index_unique. rewrite He, list_lookup_middle, some_bind by done. cbv beta. apply wp_bind.
  eapply wp_mono; [apply erase_index_spec; [by apply wf_around|apply around_at]|]. intros t Ht. apply wp_bind.
  eapply wp_mono; [apply items_insert_unique; left; intros h' j; rewrite Ht; apply around_knows|]. intros [t' b] (_ & Hi & _).
  rewrite upd_middle, some_bind. split; [done|]. split; [|done]. unfold wf. simpl. rewrite Hi, Ht, numbered_app. unfold around. simpl. apply Permutation_middle.
Qed.

Lemma around_shift f a (X : list (Z * nat)) z' : (forall i, (i < length a)%nat -> f i = i) -> (forall i, (i < length z')%nat -> f (length a + i)%nat = S (length a + i)) ->
  numbered 0 a ++ numbered (length a) z' ≡ₚ X -> prod_map id f <$> X ≡ₚ around a z'.
Proof.
  intros H1 H2 <-. rewrite fmap_app. unfold around. rewrite (numbered_id f 0 a) by (intros i Hi; apply H1; lia).
  rewrite (numbered_map f (length a) (S (length a)) z') by (intros i Hi; rewrite H2 by done; lia). done.
Qed.

Lemma shift_insert_unique_spec c a z h k v : has c (a ++ z) -> wp (shift_insert_unique c (length a) h k v) (fun c' => has c' (a ++ bucket h k v :: z)).
Proof.
  intros [Hc He]. unfold shift_insert_unique. cbv zeta. pose proof (wf_len c Hc) as Hl. rewrite He, length_app in Hl. rewrite Hl.
  apply wp_bind, wp_assert; [apply Nat.leb_le; lia|]. apply wp_bind. unfold wf in Hc. rewrite He, numbered_app in Hc. simpl in Hc.
  eapply wp_mono; [apply (increment_items c a z [])|].
  - by rewrite app_nil_r.
  - rewrite Hc. by apply nodup_numbered_app.
  - intros x Hx. rewrite Hc. apply elem_of_app. by right.
  - intros t Ht. assert (Ha : items t ≡ₚ around a z).
    { rewrite Ht. apply around_shift; [| |by rewrite Hc]; shift_cases. }
    apply wp_bind. eapply wp_mono; [apply items_insert_unique; left|].
    + intros h' j. rewrite Ha. intros Hj. assert (Hne : j <> length a).
      { intros ->. apply (around_at a z). apply list_elem_of_fmap. by exists (h', length a). }
      rewrite (proj2 (Nat.eqb_neq j (length a))) by done. simpl. apply (around_knows a (bucket h k v) z) in Hj. unfold get_hash in *. rewrite He.
      destruct (Nat.ltb_spec j (length a)) as [Hlt|Hge]; [rewrite some_bind; by rewrite lookup_app_l in Hj |- * by done|].
      unfold sub. rewrite (proj2 (Nat.leb_le 1 j)) by lia. cbn [rassert mbind option_bind].
      rewrite lookup_app_r in Hj |- * by lia. destruct (j - length a)%nat as [|n] eqn:En; [lia|]. by replace (j - 1 - length a)%nat with n by lia.
    + intros [t' b] (_ & Hi & _). apply wp_bind, wp_assert; [apply Nat.leb_le; rewrite He, length_app; lia|].
      simpl. rewrite He, take_app_length, drop_app_length. split; [|done]. unfold wf. simpl. rewrite Hi, Ha, numbered_app. unfold around. simpl. apply Permutation_middle.
Qed.

(** ** Removing *)

Lemma shift_remove_finish_spec c a e z : entries c = a ++ e :: z -> items (indices c) ≡ₚ around a z ->
  wp (shift_remove_finish c (length a)) (fun '(k, v, c') => k = key e /\ v = value e /\ has c' (a ++ z)).
Proof.
  intros He Hi. unfold shift_remove_finish. apply wp_bind. rewrite He.
  replace (length a + 1)%nat with (length (a ++ [e])) by (by rewrite length_app).
  replace (length (a ++ e :: z)) with (length (a ++ [e]) + length z)%nat by (rewrite !length_app; simpl; lia).
  assert (Hap : forall x, x ∈ numbered (length (a ++ [e])) z -> x ∈ items (indices c)).
  { intros x Hx. rewrite Hi. apply elem_of_app. right. by replace (S (length a)) with (length (a ++ [e])) by (rewrite length_app; simpl; lia). }
  eapply wp_mono; [apply (decrement_items c (a ++ [e]) z [])|].
  - by rewrite app_nil_r, <- app_assoc.
  - left. by destruct a.
  - rewrite Hi. apply nodup_numbered_app. lia.
  - exact Hap.
  - intros t Ht. rewrite list_lookup_middle, some_bind by done. simpl. split_and!; [done..|]. rewrite delete_middle. split; [|done].
    unfold wf. simpl. rewrite Ht, Hi. unfold around. rewrite fmap_app, numbered_app. apply Permutation_refl'. rewrite length_app. simpl. f_equal.
    + apply numbered_id. shift_cases.
    + apply numbered_map. shift_cases.
Qed.

Lemma vec_swap_remove_middle {A} (a : list A) (x : A) (z : list A) : vec_swap_remove (a ++ x :: z) (length a) =
  Some (x, match list.last z with Some y => a ++ y :: take (length z - 1) z | None => a end).
Proof.
  unfold vec_swap_remove. rewrite list_lookup_middle by done. rewrite some_bind. cbv beta. destruct z as [|y z _] using rev_ind.
  - rewrite last_snoc, some_bind. cbv beta. do 2 f_equal. rewrite insert_app_r_alt, Nat.sub_diag by lia. simpl.
    rewrite length_app. simpl. rewrite Nat.add_sub. apply take_app_length.
  - rewrite app_comm_cons, app_assoc, !last_snoc, some_bind. cbv beta. do 2 f_equal.
    rewrite <- app_assoc, insert_app_r_alt, Nat.sub_diag by lia. simpl. rewrite !length_app. simpl. rewrite !length_app. simpl.
    replace (length a + S (length z + 1) - 1)%nat with (length a + S (length z))%nat by lia. rewrite take_app_add. simpl. do 2 f_equal.
    rewrite Nat.add_sub. by rewrite !take_app_length.
Qed.

(** The entries after a swap removal. *)
Definition swapped_out {A} (a z : list A) : list A := match list.last z with Some y => a ++ y :: take (length z - 1) z | None => a end.

Lemma swap_remove_finish_spec c a e z : entries c = a ++ e :: z -> items (indices c) ≡ₚ around a z ->
  wp (swap_remove_finish c (length a)) (fun '(k, v, c') => k = key e /\ v = value e /\ has c' (swapped_out a z)).
Proof.
  intros He Hi. unfold swap_remove_finish. rewrite He, vec_swap_remove_middle, some_bind. cbv beta. fold (swapped_out a z).
  unfold swapped_out. destruct z as [|y z _] using rev_ind.
  - simpl. rewrite lookup_ge_None_2 by lia. rewrite some_bind. simpl. split_and!; [done..|]. split; [|done]. unfold wf. simpl. rewrite Hi.
    unfold around. simpl. by rewrite app_nil_r.
  - rewrite last_snoc, length_app, Nat.add_sub, take_app_length, list_lookup_middle by done. apply wp_bind.
    replace (length (a ++ y :: z)) with (S (length a) + length z)%nat by (rewrite length_app; simpl; lia).
    unfold around in Hi. rewrite numbered_app in Hi. cbn [numbered] in Hi.
    eapply wp_mono; [apply (update_index_spec _ _ _ _ (numbered 0 a ++ numbered (S (length a)) z))|].
    + rewrite Hi, app_assoc. symmetry. apply Permutation_cons_append.
    + rewrite fmap_app, elem_of_app, !numbered_bounds. lia.
    + intros t Ht. simpl. split_and!; [done..|]. split; [|done]. unfold wf. simpl. rewrite Ht, numbered_app. simpl. apply Permutation_middle.
Qed.

Lemma erased_around c a e z : has c (a ++ e :: z) -> wp (erase_index (indices c) (hash e) (length a)) (fun t => items t ≡ₚ around a z).
Proof. intros [Hc He]. apply erase_index_spec; [by apply wf_around|apply around_at]. Qed.

Lemma core_shift_remove_index_spec c a e z : has c (a ++ e :: z) ->
  wp (core_shift_remove_index c (length a)) (fun '(r, c') => r = Some (key e, value e) /\ has c' (a ++ z)).
Proof.
  intros Hc. pose proof Hc as [_ He]. unfold core_shift_remove_index. rewrite He, list_lookup_middle by done. apply wp_bind.
  eapply wp_mono; [by apply erased_around|]. intros t Ht. apply wp_bind.
  eapply wp_mono; [by apply (shift_remove_finish_spec {| indices := t; entries := _ |} a e z)|]. intros [[k v] c'] (-> & -> & Hc'). done.
Qed.

Lemma core_swap_remove_index_spec c a e z : has c (a ++ e :: z) ->
  wp (core_swap_remove_index c (length a)) (fun '(r, c') => r = Some (key e, value e) /\ has c' (swapped_out a z)).
Proof.
  intros Hc. pose proof Hc as [_ He]. unfold core_swap_remove_index. rewrite He, list_lookup_middle by done. apply wp_bind.
  eapply wp_mono; [by apply erased_around|]. intros t Ht. apply wp_bind.
  eapply wp_mono; [by apply (swap_remove_finish_spec {| indices := t; entries := _ |} a e z)|]. intros [[k v] c'] (-> & -> & Hc'). done.
Qed.

Lemma core_shift_remove_full_hit c a e z p : has c (a ++ e :: z) -> p (key e) = true -> (forall e', e' ∈ a ++ z -> p (key e') = false) ->
  wp (core_shift_remove_full c (hash e) p) (fun '(r, c') => r = Some (length a, key e, value e) /\ has c' (a ++ z)).
Proof.
  intros [Hc He] Hp Hn. destruct (find_hit c a e z p Hc He Hp Hn) as (b & Hb & Hs & Hd). unfold core_shift_remove_full.
  rewrite Hb, some_bind. cbv beta iota. rewrite (get_number _ _ _ _ Hs), some_bind. cbv beta. apply wp_bind.
  eapply wp_mono; [apply (shift_remove_finish_spec {| indices := _; entries := _ |} a e z He); by apply items_remove|].
  intros [[k v] c'] (-> & -> & Hc'). done.
Qed.

Lemma core_swap_remove_full_hit c a e z p : has c (a ++ e :: z) -> p (key e) = true -> (forall e', e' ∈ a ++ z -> p (key e') = false) ->
  wp (core_swap_remove_full c (hash e) p) (fun '(r, c') => r = Some (length a, key e, value e) /\ has c' (swapped_out a z)).
Proof.
  intros [Hc He] Hp Hn. destruct (find_hit c a e z p Hc He Hp Hn) as (b & Hb & Hs & Hd). unfold core_swap_remove_full.
  rewrite Hb, some_bind. cbv beta iota. rewrite (get_number _ _ _ _ Hs), some_bind. cbv beta. apply wp_bind.
  eapply wp_mono; [apply (swap_remove_finish_spec {| indices := _; entries := _ |} a e z He); by apply items_remove|].
  intros [[k v] c'] (-> & -> & Hc'). done.
Qed.

Lemma core_remove_full_miss c es h p : has c es -> (forall e, e ∈ es -> p (key e) = false) ->
  core_shift_remove_full c h p = Some (None, c) /\ core_swap_remove_full c h p = Some (None, c).
Proof. intros [Hc <-] Hn. unfold core_shift_remove_full, core_swap_remove_full. by rewrite !(find_miss c h p Hc Hn). Qed.

Lemma core_pop_spec c es : has c es ->
  wp (core_pop c) (fun '(r, c') => r = (fun e => (key e, value e)) <$> list.last es /\ has c' (take (length es - 1) es)).
Proof.
  intros Hc. pose proof Hc as [_ He]. unfold core_pop. rewrite He. destruct es as [|e es _] using rev_ind; [done|].
  rewrite last_snoc. cbv zeta. rewrite length_app, Nat.add_sub, take_app_length. apply wp_bind.
  eapply wp_mono; [by apply (erased_around c es e [])|]. intros t Ht. split; [done|]. split; [|done]. unfold wf. simpl. rewrite Ht.
  unfold around. simpl. by rewrite app_nil_r.
Qed.

(** ** Moving *)

Lemma find_bucket c a e z : has c (a ++ e :: z) -> exists b, find_index (indices c) (hash e) (length a) = Some (Some b) /\
  slots (indices c) !! b = Some (hash e, length a) /\ items_of (delete b (slots (indices c))) ≡ₚ around a z.
Proof. intros [Hc He]. apply find_index_spec; [by apply wf_around|apply around_at]. Qed.

(** The bucket that keeps its number while the others are shifted. *)
Lemma moved_items t b h i j f (m : gmap nat (Z * nat)) rest rest' : slots t = prod_map id f <$> m -> m !! b = Some (h, i) -> f i = i ->
  items_of (delete b m) ≡ₚ rest -> prod_map id f <$> rest = rest' ->
  get_bucket t b = Some i /\ items (set_bucket t b j) ≡ₚ (h, j) :: rest'.
Proof.
  intros Ht Hb Hf Hd <-. assert (Hs : slots t !! b = Some (h, i)).
  { rewrite Ht, lookup_fmap, Hb. simpl. unfold prod_map. simpl. by rewrite Hf. }
  split; [by eapply get_number|]. apply items_set with i; [done|]. by rewrite Ht, <- fmap_delete, items_fmap, Hd.
Qed.

(** Up: past [s].  The entry's own bucket is left to the caller. *)
Lemma move_inner_up c a e s z b : has c (a ++ e :: s ++ z) -> s <> [] ->
  slots (indices c) !! b = Some (hash e, length a) -> items_of (delete b (slots (indices c))) ≡ₚ around a (s ++ z) ->
  wp (move_index_inner c (length a) (length a + length s)) (fun c' => get_bucket (indices c') b = Some (length a) /\
    has {| indices := set_bucket (indices c') b (length a + length s); entries := entries c' |} (a ++ s ++ e :: z)).
Proof.
  intros [Hw He] Hs Hsl' Hd. assert (Hsl : (0 < length s)%nat) by (destruct s; [done|simpl; lia]).
  unfold move_index_inner. rewrite (proj2 (Nat.ltb_lt _ _)) by lia. apply wp_bind.
  assert (La : length (a ++ [e]) = (length a + 1)%nat) by (by rewrite length_app).
  rewrite <- La. replace (length a + length s + 1)%nat with (length (a ++ [e]) + length s)%nat by lia.
  pose proof (decrement_slots c (a ++ [e]) s z) as Hdec. rewrite <- (app_assoc a [e]) in Hdec.
  eapply wp_mono; [apply Hdec|]; [done|left; by destruct a|unfold wf in Hw; rewrite Hw; apply nodup_numbered| |].
  - intros x Hx. unfold wf in Hw. rewrite Hw, He, numbered_app. apply elem_of_app. right. simpl. apply elem_of_cons. right.
    rewrite numbered_app. apply elem_of_app. left. by rewrite La, Nat.add_1_r in Hx.
  - intros t Ht. unfold rotate_left1. rewrite He. pose proof (slice_app a (e :: s) z) as Esl. simpl in Esl.
    replace (length a + length s + 1)%nat with (length a + S (length s))%nat by lia. rewrite Esl, some_bind. simpl.
    rewrite take_app_length. replace (length a + S (length s))%nat with (length (a ++ e :: s)) by (by rewrite length_app).
    rewrite (app_comm_cons s z e), (app_assoc a (e :: s) z), drop_app_length.
    destruct (moved_items t b (hash e) (length a) (length a + length s) (shifted (fun i => i - 1)%nat (length (a ++ [e])) (length (a ++ [e]) + length s)) _ (around a (s ++ z)) (numbered 0 (a ++ s) ++ numbered (S (length (a ++ s))) z) Ht Hsl') as [Hg Hi].
    + rewrite La. shift_cases.
    + done.
    + unfold around. rewrite !numbered_app, !fmap_app, <- app_assoc. f_equal; [|f_equal].
      * apply numbered_id. rewrite La. shift_cases.
      * apply numbered_map. rewrite La. simpl. shift_cases.
      * apply numbered_map. rewrite La, (length_app a s). simpl. shift_cases.
    + split; [done|]. split; [|simpl; by rewrite <- !app_assoc]. unfold wf. simpl. rewrite Hi, <- !app_assoc. simpl. rewrite app_assoc, (numbered_app 0 (a ++ s)), <- length_app. simpl.
      apply Permutation_middle.
Qed.

(** Down: before [s]. *)
Lemma move_inner_down c a s e z b : has c (a ++ s ++ e :: z) -> s <> [] ->
  slots (indices c) !! b = Some (hash e, (length a + length s)%nat) -> items_of (delete b (slots (indices c))) ≡ₚ around (a ++ s) z ->
  wp (move_index_inner c (length a + length s) (length a)) (fun c' => get_bucket (indices c') b = Some (length a + length s)%nat /\
    has {| indices := set_bucket (indices c') b (length a); entries := entries c' |} (a ++ e :: s ++ z)).
Proof.
  intros [Hw He] Hs Hsl' Hd. assert (Hsl : (0 < length s)%nat) by (destruct s; [done|simpl; lia]).
  unfold move_index_inner. rewrite (proj2 (Nat.ltb_ge _ _)) by lia. rewrite (proj2 (Nat.ltb_lt _ _)) by lia. apply wp_bind.
  eapply wp_mono; [apply (increment_slots c a s (e :: z) He)|]; [unfold wf in Hw; rewrite Hw; apply nodup_numbered| |].
  - intros x Hx. unfold wf in Hw. rewrite Hw, He, !numbered_app. apply elem_of_app. right. apply elem_of_app. by left.
  - intros t Ht. unfold rotate_right1. rewrite He. pose proof (slice_app a (s ++ [e]) z) as Esl. rewrite length_app, <- app_assoc in Esl. simpl in Esl.
    rewrite <- Nat.add_assoc, Esl, some_bind. cbv beta. rewrite last_snoc, some_bind. cbv beta. rewrite length_app, Nat.add_sub, take_app_length.
    rewrite take_app_length. replace (length a + (length s + 1))%nat with (length (a ++ s ++ [e])) by (by rewrite !length_app).
    replace (a ++ s ++ e :: z) with ((a ++ s ++ [e]) ++ z) by (by rewrite <- !app_assoc). rewrite drop_app_length.
    destruct (moved_items t b (hash e) (length a + length s) (length a) _ _ (around (a ++ s) z) (numbered 0 a ++ numbered (S (length a)) (s ++ z)) Ht Hsl') as [Hg Hi].
    + shift_cases.
    + done.
    + unfold around. rewrite !numbered_app, !fmap_app, <- app_assoc, length_app. f_equal; [|f_equal].
      * apply numbered_id. shift_cases.
      * apply numbered_map. simpl. shift_cases.
      * apply numbered_map. simpl. shift_cases.
    + split; [done|]. split; [|done]. unfold wf. simpl. rewrite Hi, (numbered_app 0 a). simpl. apply Permutation_middle.
Qed.

Lemma core_move_index_bucket c from to e (b : nat) (Q : Core K V -> Prop) es : has c es -> from <> to -> (to < length es)%nat -> es !! from = Some e ->
  find_index (indices c) (hash e) from = Some (Some b) ->
  wp (move_index_inner c from to) (fun c' => get_bucket (indices c') b = Some from /\ Q {| indices := set_bucket (indices c') b to; entries := entries c' |}) ->
  wp (core_move_index c from to) Q.
Proof.
  intros Hc Hne Hto He Hb Hw. unfold core_move_index. rewrite (has_len _ _ Hc), some_bind. cbv beta.
  apply wp_bind, wp_assert; [apply Nat.ltb_lt; by apply lookup_lt_Some in He|]. destruct Hc as [_ ->]. rewrite He, some_bind. cbv beta.
  rewrite (proj2 (Nat.eqb_neq _ _)) by done. apply wp_bind, wp_assert; [by apply Nat.ltb_lt|]. rewrite Hb, !some_bind. apply wp_bind.
  eapply wp_mono; [exact Hw|]. intros c' [Hg HQ]. rewrite Hg, some_bind. exact HQ.
Qed.

Lemma core_move_up_spec c a e s z : has c (a ++ e :: s ++ z) -> s <> [] ->
  wp (core_move_index c (length a) (length a + length s)) (fun c' => has c' (a ++ s ++ e :: z)).
Proof.
  intros Hc Hs. destruct (find_bucket c a e (s ++ z) Hc) as (b & Hb & Hsl & Hd). assert (Hsl0 : (0 < length s)%nat) by (destruct s; [done|simpl; lia]).
  apply (core_move_index_bucket c _ _ e b _ _ Hc); [lia|rewrite !length_app; simpl; rewrite length_app; lia|by apply list_lookup_middle|done|].
  by apply move_inner_up.
Qed.

Lemma core_move_down_spec c a s e z : has c (a ++ s ++ e :: z) -> s <> [] ->
  wp (core_move_index c (length a + length s) (length a)) (fun c' => has c' (a ++ e :: s ++ z)).
Proof.
  intros Hc Hs. assert (Hsl0 : (0 < length s)%nat) by (destruct s; [done|simpl; lia]). pose proof Hc as Hc'. rewrite app_assoc in Hc'.
  destruct (find_bucket c (a ++ s) e z Hc') as (b & Hb & Hsl & Hd). rewrite length_app in *.
  apply (core_move_index_bucket c _ _ e b _ _ Hc); [lia|rewrite !length_app; simpl; lia|rewrite app_assoc; apply list_lookup_middle; by rewrite length_app|done|].
  by apply move_inner_down.
Qed.

(** Two buckets exchange their numbers. *)
Lemma swap_buckets t h i h' j rest : items t ≡ₚ (h, i) :: (h', j) :: rest -> NoDup (i :: j :: rest.*2) ->
  exists b b', find_index t h i = Some (Some b) /\ find_index t h' j = Some (Some b') /\ b <> b' /\ get_bucket t b = Some i /\ get_bucket t b' = Some j /\
    items (set_bucket (set_bucket t b j) b' i) ≡ₚ (h, j) :: (h', i) :: rest /\
    items (set_bucket (set_bucket t b' i) b j) ≡ₚ (h, j) :: (h', i) :: rest.
Proof.
  intros Hi [Hni [Hnj _]%NoDup_cons]%NoDup_cons. destruct (find_index_spec t h i _ Hi Hni) as (b & Hb & Hs & Hd).
  assert (Hi' : items t ≡ₚ (h', j) :: (h, i) :: rest) by (by rewrite Hi, Permutation_swap).
  assert (Hnj' : j ∉ ((h, i) :: rest).*2) by (simpl; intros [-> |?]%elem_of_cons; [apply Hni; constructor|done]).
  destruct (find_index_spec t h' j _ Hi' Hnj') as (b' & Hb' & Hs' & Hd').
  assert (Hne : b <> b') by (intros <-; simplify_eq; apply Hni; constructor). exists b, b'. split_and!; [done..|by eapply get_number|by eapply get_number| |].
  - rewrite Permutation_swap. apply items_set with j; [rewrite (set_slots _ _ _ _ _ Hs); by rewrite lookup_insert_ne|].
    rewrite (set_slots _ _ _ _ _ Hs), <- insert_delete_eq, delete_insert_ne, items_insert by (try rewrite lookup_delete_ne by done; try apply lookup_delete_eq; done).
    apply Permutation_cons; [done|]. rewrite (items_delete (delete b (slots t)) b' (h', j)) in Hd by (by rewrite lookup_delete_ne). by apply Permutation_cons_inv in Hd.
  - apply items_set with i; [rewrite (set_slots _ _ _ _ _ Hs'); by rewrite lookup_insert_ne|].
    rewrite (set_slots _ _ _ _ _ Hs'), <- insert_delete_eq, delete_insert_ne, items_insert by (try rewrite lookup_delete_ne by done; try apply lookup_delete_eq; done).
    apply Permutation_cons; [done|]. rewrite (items_delete (delete b' (slots t)) b (h, i)) in Hd' by (by rewrite lookup_delete_ne). by apply Permutation_cons_inv in Hd'.
Qed.

Lemma swap_middle {A} (x y z : list A) (e f : A) : <[length x := f]> (<[(length x + S (length y))%nat := e]> (x ++ e :: y ++ f :: z)) = x ++ f :: y ++ e :: z.
Proof.
  rewrite (insert_app_r_alt x) by lia. replace (length x + S (length y) - length x)%nat with (S (length y)) by lia. simpl.
  rewrite (insert_app_r_alt y), (insert_app_r_alt x), !Nat.sub_diag by lia. done.
Qed.

Lemma core_swap_spec c x e y f z : has c (x ++ e :: y ++ f :: z) ->
  wp (core_swap_indices c (length x) (length x + S (length y))) (fun c' => has c' (x ++ f :: y ++ e :: z)) /\
  wp (core_swap_indices c (length x + S (length y)) (length x)) (fun c' => has c' (x ++ f :: y ++ e :: z)).
Proof.
  intros Hc. pose proof Hc as [Hw He]. set (rest := numbered 0 x ++ numbered (S (length x)) y ++ numbered (length x + S (S (length y))) z).
  assert (Hlen : length (x ++ e :: y ++ f :: z) = (length x + S (length y + S (length z)))%nat) by (rewrite !length_app; simpl; by rewrite !length_app).
  assert (Hperm : forall e f, numbered 0 (x ++ e :: y ++ f :: z) ≡ₚ (hash e, length x) :: (hash f, (length x + S (length y))%nat) :: rest).
  { intros e' f'. unfold rest. rewrite numbered_app. simpl. rewrite numbered_app. simpl. rewrite <- Permutation_middle. apply Permutation_cons; [done|].
    rewrite <- Permutation_middle. rewrite <- Permutation_middle. replace (S (length x + length y)) with (length x + S (length y))%nat by lia.
    by replace (S (length x + S (length y))) with (length x + S (S (length y)))%nat by lia. }
  assert (Hi : items (indices c) ≡ₚ (hash e, length x) :: (hash f, (length x + S (length y))%nat) :: rest) by (unfold wf in Hw; by rewrite Hw, He, Hperm).
  assert (Hnd : NoDup (length x :: (length x + S (length y))%nat :: rest.*2)).
  { pose proof (nodup_numbered 0 (entries c)) as Hn. by rewrite He, Hperm in Hn. }
  destruct (swap_buckets _ _ _ _ _ _ Hi Hnd) as (b & b' & Hb & Hb' & Hne & Hg & Hg' & H1 & H2).
  assert (Le : entries c !! length x = Some e) by (by rewrite He, list_lookup_middle).
  assert (Lf : entries c !! (length x + S (length y))%nat = Some f).
  { rewrite He, lookup_app_r by lia. replace (length x + S (length y) - length x)%nat with (S (length y)) by lia. simpl. by rewrite list_lookup_middle. }
  assert (Hins : <[(length x + S (length y))%nat := e]> (<[length x := f]> (entries c)) = x ++ f :: y ++ e :: z).
  { rewrite list_insert_insert_ne, He by lia. apply swap_middle. }
  unfold core_swap_indices. rewrite (has_len _ _ Hc), !some_bind, Hlen. cbv beta. split.
  - apply wp_bind, wp_assert; [apply Nat.ltb_lt; lia|]. rewrite (proj2 (Nat.eqb_neq _ _)) by lia. apply wp_bind, wp_assert; [apply Nat.ltb_lt; lia|].
    rewrite Le, Lf, !some_bind, Hb, !some_bind, Hb', !some_bind. apply wp_bind, wp_assert; [by apply negb_true_iff, Nat.eqb_neq|].
    rewrite Hg, Hg', !some_bind. split; simpl; [|by rewrite list_insert_insert_ne, Hins by lia]. unfold wf. simpl.
    rewrite list_insert_insert_ne, Hins, Hperm, H1 by lia. apply Permutation_swap.
  - apply wp_bind, wp_assert; [apply Nat.ltb_lt; lia|]. rewrite (proj2 (Nat.eqb_neq _ _)) by lia. apply wp_bind, wp_assert; [apply Nat.ltb_lt; lia|].
    rewrite Le, Lf, !some_bind, Hb', !some_bind, Hb, !some_bind. apply wp_bind, wp_assert; [apply negb_true_iff, Nat.eqb_neq; congruence|].
    rewrite Hg, Hg', !some_bind. split; simpl; [|by rewrite Hins]. unfold wf. simpl. rewrite Hins, Hperm, H2. apply Permutation_swap.
Qed.
End Edit.
