(* ===== verification/IndexMap.v ===== *)
(** * indexmap: the map

    src/indexmap/src/map.rs, map/entry.rs, inner/entry.rs and the splicing
    iterator of map/iter.rs, over the core of IndexMapCore.v.  The hash of a key
    is the one that the map's [BuildHasher] gives; keys and queries are compared
    by the caller's [Eq] and [Equivalent]. *)
From Stdlib Require Import ZArith Lia Sorted.
From stdpp Require Import base list gmap numbers option.
From S2P Require Import Prelude HashTable IndexMapCore.
From stdpp Require Import list.
Import Inner.

(** Keys, with the hashes that the map's hasher gives them, and queries. *)
Class Keys (K : Type) := { key_hash : K -> Z; key_eq : K -> K -> bool }.

Class Queries (K Q : Type) := { query_hash : Q -> Z; query_eq : Q -> K -> bool }.

(** A key is a query: the blanket implementation of [Equivalent]. *)
#[export] Instance key_query {K} `{!Keys K} : Queries K K := { query_hash := key_hash; query_eq := key_eq }.

(** What [Eq], [Hash] and [Equivalent] ask of an implementation. *)
Class KeysLaws (K : Type) `{!Keys K} := {
  key_eq_refl k : key_eq k k = true;
  key_eq_sym k k' : key_eq k k' = key_eq k' k;
  key_eq_trans k k' k'' : key_eq k k' = true -> key_eq k k'' = key_eq k' k'';
  key_eq_hash k k' : key_eq k k' = true -> key_hash k = key_hash k';
}.

Class QueriesLaws (K Q : Type) `{!Keys K, !Queries K Q} := {
  query_eq_hash q k : query_eq q k = true -> query_hash q = key_hash k;
  query_eq_key q k k' : query_eq q k = true -> query_eq q k' = key_eq k k';
}.

#[export] Instance key_query_laws {K} `{KeysLaws K} : QueriesLaws K K.
Proof. split; cbn; [apply key_eq_hash|]. intros q k k' Hq. by apply key_eq_trans. Qed.

(** Integers whose hashes often collide. *)
Module SmallKeys.
#[export] Instance small_keys : Keys Z := { key_hash k := (k mod 4)%Z; key_eq := Z.eqb }.

#[export] Instance small_keys_laws : KeysLaws Z.
Proof.
  split; cbn.
  - apply Z.eqb_refl.
  - apply Z.eqb_sym.
  - intros k k' k'' ->%Z.eqb_eq. done.
  - by intros k k' ->%Z.eqb_eq.
Qed.
End SmallKeys.

(** ** [slice::sort_by] *)

(** The sort of the standard library, by the comparison's less or equal. *)
Class SliceSort := { sort_slice : forall {A}, (A -> A -> bool) -> list A -> option (list A) }.

(** The stable order: an element goes before the first that it is not above. *)
Fixpoint sorted_insert {A} (le : A -> A -> bool) (x : A) (l : list A) : list A :=
  match l with [] => [x] | y :: l' => if le x y then x :: l else y :: sorted_insert le x l' end.

Definition stable_sort {A} (le : A -> A -> bool) (l : list A) : list A := foldr (sorted_insert le) [] l.

Definition total_preorder {A} (le : A -> A -> bool) : Prop :=
  (forall x y, le x y = true \/ le y x = true) /\ (forall x y z, le x y = true -> le y z = true -> le x z = true).

(** Its documentation: stable for a total order; for any other comparison the
    order is unspecified, no element is lost, and it may panic. *)
Class SliceSortLaws `{!SliceSort} := {
  sort_slice_stable {A} (le : A -> A -> bool) l : total_preorder le -> sort_slice le l = Some (stable_sort le l);
  sort_slice_keeps {A} (le : A -> A -> bool) l l' : sort_slice le l = Some l' -> l' ≡ₚ l;
}.

Lemma sorted_insert_perm {A} (le : A -> A -> bool) x l : sorted_insert le x l ≡ₚ x :: l.
Proof. induction l as [|y l IH]; [done|]. cbn [sorted_insert]. destruct (le x y); [done|]. rewrite IH. apply Permutation_swap. Qed.

Lemma stable_sort_perm {A} (le : A -> A -> bool) l : stable_sort le l ≡ₚ l.
Proof. induction l as [|x l IH]; [done|]. unfold stable_sort in *. cbn [foldr]. by rewrite sorted_insert_perm, IH. Qed.

Lemma sorted_insert_sorted {A} (le : A -> A -> bool) x l : total_preorder le ->
  StronglySorted (fun a b => le a b = true) l -> StronglySorted (fun a b => le a b = true) (sorted_insert le x l).
Proof.
  intros [Ht Htr] Hl. induction Hl as [|y l Hl IH Hy]; [by repeat constructor|]. cbn [sorted_insert]. destruct (le x y) eqn:E.
  - constructor; [by constructor|]. constructor; [done|]. eapply Forall_impl; [exact Hy|]. intros z. by apply Htr.
  - constructor; [done|]. rewrite sorted_insert_perm. constructor; [|done]. destruct (Ht x y) as [H|H]; [congruence|done].
Qed.

(** The specification sorts. *)
Lemma stable_sort_sorted {A} (le : A -> A -> bool) l : total_preorder le -> StronglySorted (fun a b => le a b = true) (stable_sort le l).
Proof. intros Hle. induction l as [|x l IH]; [constructor|]. by apply sorted_insert_sorted. Qed.

Lemma stable_sort_fmap {A B} (f : A -> B) (le : B -> B -> bool) l : stable_sort le (f <$> l) = f <$> stable_sort (fun x y => le (f x) (f y)) l.
Proof.
  assert (Hi : forall x l0, sorted_insert le (f x) (f <$> l0) = f <$> sorted_insert (fun x y => le (f x) (f y)) x l0).
  { intros x l0. induction l0 as [|y l0 IH]; [done|]. rewrite fmap_cons. cbn [sorted_insert]. destruct (le (f x) (f y)); [done|]. by rewrite IH. }
  induction l as [|x l IH]; [done|]. unfold stable_sort in *. rewrite fmap_cons. cbn [foldr]. by rewrite IH, Hi.
Qed.

Lemma stable_sort_ext {A} (le le' : A -> A -> bool) l : (forall x y, le x y = le' x y) -> stable_sort le l = stable_sort le' l.
Proof.
  intros He. assert (Hi : forall x l0, sorted_insert le x l0 = sorted_insert le' x l0).
  { intros x l0. induction l0 as [|y l0 IH]; [done|]. cbn [sorted_insert]. by rewrite He, IH. }
  induction l as [|x l IH]; [done|]. unfold stable_sort in *. cbn [foldr]. by rewrite IH, Hi.
Qed.

(** Insertion sort is such a sort. *)
Module InsertionSort.
#[export] Instance insertion_sort : SliceSort := { sort_slice A le l := Some (stable_sort le l) }.

#[export] Instance insertion_sort_laws : SliceSortLaws.
Proof. split; cbn; [done|]. intros A le l l' [= <-]. apply stable_sort_perm. Qed.
End InsertionSort.

Module IndexMap.

Section Map.
Context {HT : HashTable} {K V Q : Type} {HK : Keys K} {HQ : Queries K Q}.

(** The hash builder is the class. *)
Definition IndexMap : Type := Core K V.
Implicit Types (m : IndexMap).

Definition key_value (b : Bucket K V) : K * V := (key b, value b).

(** ** Lookups *)

Definition map_len m : option nat := core_len m.

Definition get_index_of m (q : Q) : option (option nat) :=
  match entries m with
  | [] => Some None
  | [x] => Some (if query_eq q (key x) then Some 0%nat else None)
  | _ => core_get_index_of m (query_hash q) (query_eq q)
  end.

Definition get_full m (q : Q) : option (option (nat * K * V)) :=
  i ← get_index_of m q;
  match i with
  | Some i => e ← entries m !! i; Some (Some (i, key e, value e))
  | None => Some None
  end.

Definition get m (q : Q) : option (option V) :=
  i ← get_index_of m q;
  match i with
  | Some i => e ← entries m !! i; Some (Some (value e))
  | None => Some None
  end.

Definition contains_key m (q : Q) : option bool :=
  i ← get_index_of m q;
  Some (match i with Some _ => true | None => false end).

Definition get_index m (index : nat) : option (K * V) := key_value <$> entries m !! index.

(** ** Entries *)

Record OccupiedEntry := { o_map : IndexMap; o_index : nat; o_bucket : nat }.
Record VacantEntry := { v_map : IndexMap; v_hash : Z; v_key : K }.
Inductive Entry := Occupied (e : OccupiedEntry) | Vacant (e : VacantEntry).

Definition entry m (k : K) : option Entry :=
  let h := key_hash k in
  b ← HashTable.find (indices m) h (equivalent (key_eq k) (entries m));
  match b with
  | Some b => i ← get_bucket (indices m) b; Some (Occupied {| o_map := m; o_index := i; o_bucket := b |})
  | None => Some (Vacant {| v_map := m; v_hash := h; v_key := k |})
  end.

Definition occupied_get (e : OccupiedEntry) : option V :=
  b ← entries (o_map e) !! o_index e; Some (value b).

(** [mem::replace] of the value. *)
Definition occupied_insert (e : OccupiedEntry) (v : V) : option (V * OccupiedEntry) :=
  b ← entries (o_map e) !! o_index e;
  es ← upd (entries (o_map e)) (o_index e) {| hash := hash b; key := key b; value := v |};
  Some (value b, {| o_map := {| indices := indices (o_map e); entries := es |}; o_index := o_index e; o_bucket := o_bucket e |}).

Definition occupied_remove_index (e : OccupiedEntry) : option IndexMap :=
  i ← get_bucket (indices (o_map e)) (o_bucket e);
  _ ← rassert (i =? o_index e)%nat;
  Some {| indices := remove_bucket (indices (o_map e)) (o_bucket e); entries := entries (o_map e) |}.

Definition occupied_swap_remove_entry (e : OccupiedEntry) : option (K * V * IndexMap) :=
  m ← occupied_remove_index e; swap_remove_finish m (o_index e).

Definition occupied_shift_remove_entry (e : OccupiedEntry) : option (K * V * IndexMap) :=
  m ← occupied_remove_index e; shift_remove_finish m (o_index e).

Definition occupied_update_index (e : OccupiedEntry) (to : nat) : option IndexMap :=
  i ← get_bucket (indices (o_map e)) (o_bucket e);
  _ ← rassert (i =? o_index e)%nat;
  Some {| indices := set_bucket (indices (o_map e)) (o_bucket e) to; entries := entries (o_map e) |}.

Definition occupied_move_index (e : OccupiedEntry) (to : nat) : option IndexMap :=
  if (o_index e =? to)%nat then Some (o_map e)
  else
    l ← core_len (o_map e);
    _ ← assert_index_lt to l;
    m ← move_index_inner (o_map e) (o_index e) to;
    occupied_update_index {| o_map := m; o_index := o_index e; o_bucket := o_bucket e |} to.

Definition vacant_insert (e : VacantEntry) (v : V) : option IndexMap :=
  '(m, _) ← core_insert_unique (v_map e) (v_hash e) (v_key e) v; Some m.

Definition vacant_shift_insert (e : VacantEntry) (index : nat) (v : V) : option IndexMap :=
  shift_insert_unique (v_map e) index (v_hash e) (v_key e) v.

(** The value in the map and the map. *)
Definition or_insert (e : Entry) (default : V) : option (V * IndexMap) :=
  match e with
  | Occupied e => v ← occupied_get e; Some (v, o_map e)
  | Vacant e => m ← vacant_insert e default; Some (default, m)
  end.

Definition and_modify (e : Entry) (f : V -> V) : option Entry :=
  match e with
  | Occupied e => v ← occupied_get e; '(_, e) ← occupied_insert e (f v); Some (Occupied e)
  | Vacant e => Some (Vacant e)
  end.

(** ** Insertions *)

Definition insert_full m (k : K) (v : V) : option (nat * option V * IndexMap) := core_insert_full key_eq m (key_hash k) k v.

Definition insert m (k : K) (v : V) : option (option V * IndexMap) :=
  '(_, old, m) ← insert_full m k v; Some (old, m).

Definition insert_before m (index : nat) (k : K) (v : V) : option (nat * option V * IndexMap) :=
  l ← map_len m;
  _ ← assert_index_le index l;
  e ← entry m k;
  match e with
  | Occupied e =>
      let index := if (o_index e <? index)%nat then (index - 1)%nat else index in
      '(old, e) ← occupied_insert e v;
      m ← occupied_move_index e index;
      Some (index, Some old, m)
  | Vacant e => m ← vacant_shift_insert e index v; Some (index, None, m)
  end.

Definition shift_insert m (index : nat) (k : K) (v : V) : option (option V * IndexMap) :=
  l ← map_len m;
  e ← entry m k;
  match e with
  | Occupied e =>
      _ ← assert_index_lt index l;
      '(old, e) ← occupied_insert e v;
      m ← occupied_move_index e index;
      Some (Some old, m)
  | Vacant e =>
      _ ← assert_index_le index l;
      m ← vacant_shift_insert e index v;
      Some (None, m)
  end.

(** The key that was replaced, or where the new key is already. *)
Definition replace_index m (index : nat) (k : K) : option (result K (nat * K) * IndexMap) :=
  l ← map_len m;
  _ ← assert_index_lt index l;
  e ← entries m !! index;
  if key_eq k (key e) then
    es ← upd (entries m) index {| hash := hash e; key := k; value := value e |};
    Some (Ok (key e), {| indices := indices m; entries := es |})
  else
    let h := key_hash k in
    i ← core_get_index_of m h (key_eq k);
    match i with
    | Some i => _ ← rassert (negb (i =? index)%nat); Some (Err (i, k), m)
    | None => '(old, m) ← replace_index_unique m index h k; Some (Ok old, m)
    end.

(** [extend] without the size hint of the iterator: [hint] is any. *)
Fixpoint insert_all m (kvs : list (K * V)) : option IndexMap :=
  match kvs with
  | [] => Some m
  | (k, v) :: kvs => '(_, m) ← insert m k v; insert_all m kvs
  end.

Definition extend m (hint : nat) (kvs : list (K * V)) : option IndexMap :=
  l ← map_len m;
  m ← core_reserve m (if (l =? 0)%nat then hint else div_ceil hint 2);
  insert_all m kvs.

Definition from_iter (hint : nat) (kvs : list (K * V)) : option IndexMap :=
  m ← core_with_capacity hint;
  extend m hint kvs.

Definition append m (other : IndexMap) : option (IndexMap * IndexMap) :=
  '(drained, other) ← core_drain other (Unbounded, Unbounded);
  m ← extend m (length drained) (key_value <$> drained);
  Some (m, other).

(** Dropping the splicing iterator: every new pair goes to the tail or to the
    map. *)
Fixpoint splice_all m (tail_ : IndexMap) (kvs : list (K * V)) : option (IndexMap * IndexMap) :=
  match kvs with
  | [] => Some (m, tail_)
  | (k, v) :: kvs =>
      let h := key_hash k in
      i ← core_get_index_of tail_ h (key_eq k);
      match i with
      | Some i =>
          e ← entries tail_ !! i;
          es ← upd (entries tail_) i {| hash := hash e; key := key e; value := v |};
          splice_all m {| indices := indices tail_; entries := es |} kvs
      | None => '(_, _, m) ← core_insert_full key_eq m h k v; splice_all m tail_ kvs
      end
  end.

Definition splice m (range : Bound * Bound) (kvs : list (K * V)) : option (list (K * V) * IndexMap) :=
  '(tail_, drained, m) ← (split_splice m range : option (IndexMap * list (Bucket K V) * IndexMap));
  '(m, tail_) ← splice_all m tail_ kvs;
  '(m, _) ← append_unchecked m tail_;
  Some ((key_value <$> drained : list (K * V)), m).

(** ** Removals *)

Definition swap_remove_full m (q : Q) : option (option (nat * K * V) * IndexMap) :=
  match entries m with
  | [] => Some (None, m)
  | [x] => if query_eq q (key x) then
        '(r, m) ← core_pop m;
        Some (match r with Some (k, v) => Some (0%nat, k, v) | None => None end, m)
      else Some (None, m)
  | _ => core_swap_remove_full m (query_hash q) (query_eq q)
  end.

Definition shift_remove_full m (q : Q) : option (option (nat * K * V) * IndexMap) :=
  match entries m with
  | [] => Some (None, m)
  | [x] => if query_eq q (key x) then
        '(r, m) ← core_pop m;
        Some (match r with Some (k, v) => Some (0%nat, k, v) | None => None end, m)
      else Some (None, m)
  | _ => core_shift_remove_full m (query_hash q) (query_eq q)
  end.

(** The predicate may change the value. *)
Definition pop_if m (predicate : K -> V -> bool * V) : option (option (K * V) * IndexMap) :=
  match list.last (entries m) with
  | None => Some (None, m)
  | Some e =>
      let '(r, v) := predicate (key e) (value e) in
      es ← upd (entries m) (length (entries m) - 1) {| hash := hash e; key := key e; value := v |};
      let m := {| indices := indices m; entries := es |} in
      if r then core_pop m else Some (None, m)
  end.

(** ** Comparing and sorting *)

Fixpoint all_in {V'} (veq : V -> V' -> bool) (get_other : K -> option (option V')) (l : list (K * V)) : option bool :=
  match l with
  | [] => Some true
  | (k, v) :: l =>
      r ← get_other k;
      match r with
      | Some v' => if veq v v' then all_in veq get_other l else Some false
      | None => Some false
      end
  end.

(** [le] is the comparison of the caller; the hashes are rebuilt. *)
Definition sort_by {HS : SliceSort} m (le : K * V -> K * V -> bool) : option IndexMap :=
  with_entries m (sort_slice (fun a b => le (key_value a) (key_value b))).
End Map.

(** [PartialEq]: the other map, which has a hasher of its own, is asked with
    the keys of this one. *)
Definition map_eq {HT : HashTable} {K V V'} {HK HK' : Keys K} (veq : V -> V' -> bool) (m : @IndexMap HT K V) (other : @IndexMap HT K V') : option bool :=
  l ← map_len m;
  l' ← map_len other;
  if negb (l =? l')%nat then Some false
  else all_in veq (get (HQ := key_query (Keys0 := HK')) other) (key_value <$> entries m).
End IndexMap.
