(* ===== verification/IndexMapSpec.v ===== *)
(** * indexmap: an ordered list of pairs

    What an index map promises, as operations on the list of its pairs; and the
    same operations of the program, one call each. *)
From Stdlib Require Import ZArith Lia.
From stdpp Require Import base list gmap numbers option.
From S2P Require Import Prelude HashTable IndexMapCore IndexMap.
From stdpp Require Import list.
Import Inner IndexMap.

(** ** The calls and their results *)

Inductive op {K V Q : Type} :=
  | InsertFull (k : K) (v : V)
  | InsertBefore (i : nat) (k : K) (v : V)
  | ShiftInsert (i : nat) (k : K) (v : V)
  | ReplaceIndex (i : nat) (k : K)
  | OrInsert (k : K) (v : V)
  | Modify (k : K) (f : V -> V)
  | EntryRemove (swap : bool) (k : K)
  | Extend (hint : nat) (kvs : list (K * V))
  | Splice (range : Bound * Bound) (kvs : list (K * V))
  | Remove (swap : bool) (q : Q)
  | RemoveIndex (swap : bool) (i : nat)
  | Pop
  | PopIf (predicate : K -> V -> bool * V)
  | Retain (keep : K -> V -> option V)
  | SortBy (le : K * V -> K * V -> bool)
  | Reverse
  | Truncate (n : nat)
  | Drain (range : Bound * Bound)
  | SplitOff (at_ : nat)
  | MoveIndex (from to : nat)
  | SwapIndices (a b : nat)
  | Reserve (n : nat)
  | Clear.
#[global] Arguments op : clear implicits.

Inductive out {K V : Type} :=
  | Unit
  | Index (i : nat) (old : option V)
  | Old (old : option V)
  | Found (r : option (nat * K * V))
  | Pair (r : option (K * V))
  | Pairs (l : list (K * V))
  | Replaced (r : result K (nat * K)).
#[global] Arguments out : clear implicits.

Section Spec.
Context {HT : HashTable} {HS : SliceSort} {K V Q : Type} {HK : Keys K} {HQ : Queries K Q}.

(** ** The program *)

Implicit Types (m : Core K V).

Definition run_op (o : op K V Q) m : option (out K V * Core K V) :=
  match o with
  | InsertFull k v => '(i, old, m) ← insert_full m k v; Some (Index i old, m)
  | InsertBefore i k v => '(i, old, m) ← insert_before m i k v; Some (Index i old, m)
  | ShiftInsert i k v => '(old, m) ← shift_insert m i k v; Some (Old old, m)
  | ReplaceIndex i k => '(r, m) ← replace_index m i k; Some (Replaced r, m)
  | OrInsert k v => e ← entry m k; '(v, m) ← or_insert e v; Some (Old (Some v), m)
  | Modify k f =>
      e ← entry m k;
      e ← and_modify e f;
      Some (Unit, match e with Occupied e => o_map e | Vacant e => v_map e end)
  | EntryRemove swap k =>
      e ← entry m k;
      match e with
      | Occupied e => '(k, v, m) ← (if swap : bool then occupied_swap_remove_entry e else occupied_shift_remove_entry e); Some (Pair (Some (k, v)), m)
      | Vacant e => Some (Pair None, v_map e)
      end
  | Extend hint kvs => m ← extend m hint kvs; Some (Unit, m)
  | Splice range kvs => '(l, m) ← splice m range kvs; Some (Pairs l, m)
  | Remove swap q => '(r, m) ← (if swap : bool then swap_remove_full m q else shift_remove_full m q); Some (Found r, m)
  | RemoveIndex swap i => '(r, m) ← (if swap : bool then core_swap_remove_index m i else core_shift_remove_index m i); Some (Pair r, m)
  | Pop => '(r, m) ← core_pop m; Some (Pair r, m)
  | PopIf predicate => '(r, m) ← pop_if m predicate; Some (Pair r, m)
  | Retain keep => m ← core_retain m keep; Some (Unit, m)
  | SortBy le => m ← sort_by m le; Some (Unit, m)
  | Reverse => m ← core_reverse m; Some (Unit, m)
  | Truncate n => m ← core_truncate m n; Some (Unit, m)
  | Drain range => '(es, m) ← core_drain m range; Some (Pairs (key_value <$> es), m)
  | SplitOff at_ => '(other, m) ← core_split_off m at_; Some (Pairs (key_value <$> entries other), m)
  | MoveIndex from to => m ← core_move_index m from to; Some (Unit, m)
  | SwapIndices a b => m ← core_swap_indices m a b; Some (Unit, m)
  | Reserve n => m ← core_reserve m n; Some (Unit, m)
  | Clear => Some (Unit, core_clear m)
  end.

(** ** The list *)

Implicit Types (l : list (K * V)) (p : K -> bool).

Definition pos p l : option nat := position (fun kv => p kv.1) l.

Definition set_value l (i : nat) (v : V) : list (K * V) := alter (fun kv => (kv.1, v)) i l.

Definition insert_at {A} (l : list A) (i : nat) (x : A) : list A := take i l ++ x :: drop i l.

Definition move_to {A} (l : list A) (from to : nat) : list A :=
  match l !! from with Some x => insert_at (delete from l) to x | None => l end.

(** The entry at [i] goes; with [swap] the last one takes its place. *)
Definition remove_at (swap : bool) l (i : nat) : list (K * V) :=
  match list.last (drop (S i) l) with
  | Some x => if swap then take i l ++ x :: take (length l - S i - 1) (drop (S i) l) else delete i l
  | None => take i l
  end.

Definition spec_insert l (k : K) (v : V) : nat * option V * list (K * V) :=
  match pos (key_eq k) l with
  | Some i => (i, snd <$> l !! i, set_value l i v)
  | None => (length l, None, l ++ [(k, v)])
  end.

Definition spec_insert_all l (kvs : list (K * V)) : list (K * V) := foldl (fun l '(k, v) => (spec_insert l k v).2) l kvs.

(** Each pair updates the tail or goes to the front. *)
Definition spec_splice (front tail_ : list (K * V)) (kvs : list (K * V)) : list (K * V) * list (K * V) :=
  foldl (fun '(front, tail_) '(k, v) => match pos (key_eq k) tail_ with
    | Some i => (front, set_value tail_ i v)
    | None => ((spec_insert front k v).2, tail_)
    end) (front, tail_) kvs.

Definition spec_op (o : op K V Q) l : option (out K V * list (K * V)) :=
  match o with
  | InsertFull k v => let '(i, old, l) := spec_insert l k v in Some (Index i old, l)
  | InsertBefore i k v =>
      if (length l <? i)%nat then None
      else match pos (key_eq k) l with
      | Some j => let i := (if (j <? i)%nat then i - 1 else i)%nat in Some (Index i (snd <$> l !! j), move_to (set_value l j v) j i)
      | None => Some (Index i None, insert_at l i (k, v))
      end
  | ShiftInsert i k v =>
      match pos (key_eq k) l with
      | Some j => if (length l <=? i)%nat then None else Some (Old (snd <$> l !! j), move_to (set_value l j v) j i)
      | None => if (length l <? i)%nat then None else Some (Old None, insert_at l i (k, v))
      end
  | ReplaceIndex i k =>
      '(k0, v0) ← l !! i;
      match (if key_eq k k0 then None else pos (key_eq k) l) with
      | Some j => Some (Replaced (Err (j, k)), l)
      | None => Some (Replaced (Ok k0), <[i := (k, v0)]> l)
      end
  | OrInsert k v =>
      match pos (key_eq k) l with
      | Some i => Some (Old (snd <$> l !! i), l)
      | None => Some (Old (Some v), l ++ [(k, v)])
      end
  | Modify k f =>
      match pos (key_eq k) l with
      | Some i => Some (Unit, alter (fun kv => (kv.1, f kv.2)) i l)
      | None => Some (Unit, l)
      end
  | EntryRemove swap k =>
      match pos (key_eq k) l with
      | Some i => Some (Pair (l !! i), remove_at swap l i)
      | None => Some (Pair None, l)
      end
  | Extend _ kvs => Some (Unit, spec_insert_all l kvs)
  | Splice range kvs =>
      '(start, end_) ← simplify_range range (length l);
      let '(front, tail_) := spec_splice (take start l) (drop end_ l) kvs in
      Some (Pairs (take (end_ - start) (drop start l)), front ++ tail_)
  | Remove swap q =>
      match pos (query_eq q) l with
      | Some i => Some (Found ((fun kv => (i, kv.1, kv.2)) <$> l !! i), remove_at swap l i)
      | None => Some (Found None, l)
      end
  | RemoveIndex swap i => Some (Pair (l !! i), match l !! i with Some _ => remove_at swap l i | None => l end)
  | Pop => Some (Pair (list.last l), take (length l - 1) l)
  | PopIf predicate =>
      match list.last l with
      | Some (k, v) =>
          let '(r, v) := predicate k v in
          Some (if r then (Pair (Some (k, v)), take (length l - 1) l) else (Pair None, set_value l (length l - 1) v))
      | None => Some (Pair None, l)
      end
  | Retain keep => Some (Unit, omap (fun '(k, v) => pair k <$> keep k v) l)
  | SortBy le => Some (Unit, stable_sort le l)
  | Reverse => Some (Unit, reverse l)
  | Truncate n => Some (Unit, take n l)
  | Drain range =>
      '(start, end_) ← simplify_range range (length l);
      Some (Pairs (take (end_ - start) (drop start l)), take start l ++ drop end_ l)
  | SplitOff at_ => if (length l <? at_)%nat then None else Some (Pairs (drop at_ l), take at_ l)
  | MoveIndex from to => if ((from <? length l) && (to <? length l))%nat then Some (Unit, move_to l from to) else None
  | SwapIndices a b => x ← l !! a; y ← l !! b; Some (Unit, <[a := y]> (<[b := x]> l))
  | Reserve _ => Some (Unit, l)
  | Clear => Some (Unit, [])
  end.

(** ** Representation *)

Fixpoint distinct (ks : list K) : Prop :=
  match ks with [] => True | k :: ks => (forall k', k' ∈ ks -> key_eq k k' = false) /\ distinct ks end.

Definition stored (kv : K * V) : Bucket K V := {| hash := key_hash kv.1; key := kv.1; value := kv.2 |}.
End Spec.
