(* ===== verification/IndexMapRep.v ===== *)
(** * indexmap: the map holds an ordered list of pairs

    [rep m l]: the map [m] holds the pairs [l], whose keys are distinct, whatever
    the hashes are.  Looking up, inserting, replacing and removing keep it. *)
From Stdlib Require Import ZArith Lia.
From stdpp Require Import base list gmap numbers option.
From S2P Require Import Prelude HashTable IndexMapCore IndexMapInv IndexMapOps IndexMapEdit IndexMap IndexMapSpec.
From stdpp Require Import list.
Import Inner IndexMap.

(** ** Moving in a list *)

Section Moving.

Lemma move_cases {A} (l : list A) from to : (from < length l)%nat -> (to < length l)%nat -> from <> to ->
  (exists a x s z, l = a ++ x :: s ++ z /\ s <> [] /\ from = length a /\ to = (length a + length s)%nat) \/
  (exists a s x z, l = a ++ s ++ x :: z /\ s <> [] /\ from = (length a + length s)%nat /\ to = length a).
Proof.
  intros Hf Ht Hne. destruct (lookup_lt_is_Some_2 l from Hf) as [x Hx]. apply list_elem_of_split_length in Hx as (a & z & -> & Ha).
  rewrite length_app in *. simpl in *. destruct (decide (from < to)%nat) as [Hlt|Hge].
  - left. exists a, x, (take (to - from) z), (drop (to - from) z). rewrite take_drop, length_take. split_and!; [done| |done|lia].
    destruct z; [simpl in *; lia|]. destruct (to - from)%nat eqn:E; [lia|done].
  - right. exists (take to a), (drop to a), x, z. rewrite app_assoc, take_drop, length_take, length_drop. split_and!; [done| |lia|lia].
    intros Hd. apply (f_equal length) in Hd. rewrite length_drop in Hd. simpl in Hd. lia.
Qed.

Lemma move_to_up {A} (a s z : list A) x : move_to (a ++ x :: s ++ z) (length a) (length a + length s) = a ++ s ++ x :: z.
Proof.
  unfold move_to, insert_at. rewrite list_lookup_middle, delete_middle, app_assoc, <- length_app by done. by rewrite take_app_length, drop_app_length, <- app_assoc.
Qed.

Lemma move_to_down {A} (a s z : list A) x : move_to (a ++ s ++ x :: z) (length a + length s) (length a) = a ++ x :: s ++ z.
Proof.
  unfold move_to, insert_at. rewrite app_assoc, <- length_app, list_lookup_middle, delete_middle, <- app_assoc by done. by rewrite take_app_length, drop_app_length.
Qed.

Lemma move_to_same {A} (l : list A) i : (i < length l)%nat -> move_to l i i = l.
Proof.
  intros Hi. destruct (lookup_lt_is_Some_2 l i Hi) as [x Hx]. apply list_elem_of_split_length in Hx as (a & z & -> & ->).
  pose proof (move_to_down a [] z x) as Hm. simpl in Hm. by rewrite Nat.add_0_r in Hm.
Qed.

Lemma move_to_fmap {A B} (f : A -> B) (l : list A) from to : move_to (f <$> l) from to = f <$> move_to l from to.
Proof.
  unfold move_to, insert_at. rewrite list_lookup_fmap. destruct (l !! from) as [x|]; [|done]. simpl.
  by rewrite fmap_app, fmap_cons, fmap_take, fmap_drop, list_fmap_delete.
Qed.

Lemma move_to_perm {A} (l : list A) from to : (from < length l)%nat -> (to < length l)%nat -> move_to l from to ≡ₚ l.
Proof.
  intros Hf Ht. destruct (decide (from = to)) as [->|Hne]; [by rewrite move_to_same|].
  destruct (move_cases l from to Hf Ht Hne) as [(a & x & s & z & -> & _ & -> & ->)|(a & s & x & z & -> & _ & -> & ->)].
  - rewrite move_to_up. apply Permutation_app_head. symmetry. apply Permutation_middle.
  - rewrite move_to_down. apply Permutation_app_head. apply Permutation_middle.
Qed.

Lemma take_middle {A} (a z : list A) x : take (length a) (a ++ x :: z) = a.
Proof. apply take_app_length. Qed.

Lemma drop_middle {A} (a z : list A) x : drop (S (length a)) (a ++ x :: z) = z.
Proof. replace (S (length a)) with (length a + 1)%nat by lia. by rewrite drop_app_add. Qed.
End Moving.

(** ** Distinct keys *)

Section Distinct.
Context {K : Type} {HK : Keys K} {HKL : KeysLaws K}.
Implicit Types ks : list K.

#[export] Instance distinct_perm : Proper ((≡ₚ) ==> iff) distinct.
Proof.
  assert (Hone : forall ks ks', ks ≡ₚ ks' -> distinct ks -> distinct ks').
  { intros ks ks' Hp. induction Hp as [|k ks ks' Hp IH|k k' ks|ks ks' ks'' _ IH1 _ IH2]; simpl.
    - done.
    - intros [H1 H2]. split; [|by apply IH]. intros k'. rewrite <- Hp. apply H1.
    - intros [H1 [H2 H3]]. split_and!; [|intros k0 Hk0; apply H1; by right|done].
      intros k0 [->|Hk0]%elem_of_cons; [|by apply H2]. rewrite key_eq_sym. apply H1. constructor.
    - auto. }
  intros ks ks' Hp. split; apply Hone; [done|by symmetry].
Qed.

Lemma distinct_app ks ks' : distinct (ks ++ ks') <-> distinct ks /\ distinct ks' /\ forall k k', k ∈ ks -> k' ∈ ks' -> key_eq k k' = false.
Proof.
  induction ks as [|k ks IH]; simpl.
  - split; [intros ?; split_and!; [done..|intros k k' []%not_elem_of_nil]|tauto].
  - rewrite IH. setoid_rewrite elem_of_app. setoid_rewrite elem_of_cons. naive_solver.
Qed.

Lemma distinct_middle ks k ks' : distinct (ks ++ k :: ks') <-> (forall k', k' ∈ ks ++ ks' -> key_eq k k' = false) /\ distinct (ks ++ ks').
Proof. by rewrite <- Permutation_middle. Qed.

(** The keys that a key or a query stands for. *)
Definition selects (h : Z) (p : K -> bool) : Prop :=
  (forall k, p k = true -> key_hash k = h) /\ (forall k k', p k = true -> p k' = key_eq k k').

Lemma selects_key k : selects (key_hash k) (key_eq k).
Proof. split; [intros k' Hk; symmetry; by apply key_eq_hash|]. intros k' k''. by apply key_eq_trans. Qed.

Lemma selects_query {Q} {HQ : Queries K Q} {HQL : QueriesLaws K Q} (q : Q) : selects (query_hash q) (query_eq q).
Proof. split; [intros k Hk; symmetry; by apply query_eq_hash|]. intros k k'. by apply query_eq_key. Qed.
End Distinct.

Section Rep.
Context {HT : HashTable} {HL : HashTableLaws} {K V : Type} {HK : Keys K} {HKL : KeysLaws K}.
Implicit Types (m : Core K V) (l a z s : list (K * V)) (k : K) (v : V) (p : K -> bool).

(** The map [m] holds the pairs [l]. *)
Definition rep m l : Prop := has m (stored <$> l) /\ distinct l.*1.

Lemma rep_entries m l : rep m l -> entries m = stored <$> l.
Proof. by intros [[_ He] _]. Qed.

Lemma key_value_stored l : key_value <$> (stored <$> l) = l.
Proof. rewrite <- list_fmap_compose. rewrite <- (list_fmap_id l) at 2. by apply list_fmap_ext; intros i [k v]. Qed.

Lemma rep_with_capacity n : (Z.of_nat n <= most)%Z -> wp (core_with_capacity n) (fun m => rep m []).
Proof.
  intros Hn. unfold core_with_capacity. apply wp_bind. eapply wp_mono; [by apply items_with_capacity|]. intros t [Ht _].
  pose proof most_entries. apply wp_bind, wp_assert; [apply Z.leb_le; lia|]. apply wp_ret.
  split; [|done]. split; [|done]. unfold wf. simpl. by rewrite Ht.
Qed.

(** Where a key is, or that it is nowhere. *)
Inductive located p l : option nat -> Prop :=
  | located_at a k v z : l = a ++ (k, v) :: z -> p k = true -> (forall kv, kv ∈ a ++ z -> p kv.1 = false) -> located p l (Some (length a))
  | located_nowhere : (forall kv, kv ∈ l -> p kv.1 = false) -> located p l None.

Lemma pos_located p l h : distinct l.*1 -> selects h p -> located p l (pos p l).
Proof.
  intros Hd [_ Hs]. unfold pos. destruct (position (fun kv => p kv.1) l) as [i|] eqn:E.
  - assert (Hsp : exists a kv z, l = a ++ kv :: z /\ p kv.1 = true /\ i = length a).
    { clear Hd. revert i E. induction l as [|kv l IH]; intros i E; simpl in E; [done|]. destruct (p kv.1) eqn:Hp.
      - injection E as <-. by exists [], kv, l.
      - destruct (position _ l) as [j|]; [|done]. injection E as <-. destruct (IH j eq_refl) as (a & kv' & z & -> & Hp' & ->).
        by exists (kv :: a), kv', z. }
    destruct Hsp as (a & [k v] & z & -> & Hp & ->). apply located_at with k v z; [done..|]. intros kv Hkv. rewrite (Hs k) by done.
    rewrite fmap_app in Hd. simpl in Hd. apply distinct_middle in Hd as [Hd _]. apply Hd. rewrite <- fmap_app. by apply list_elem_of_fmap_2.
  - apply located_nowhere. clear Hd. induction l as [|kv l IH]; [intros kv []%not_elem_of_nil|]. simpl in E. destruct (p kv.1) eqn:Hp; [done|].
    destruct (position _ l); [done|]. intros kv' [->|Hkv]%elem_of_cons; [done|]. by apply IH.
Qed.

(** *** From pairs to entries *)

Lemma stored_selects p a z : (forall kv, kv ∈ a ++ z -> p kv.1 = false) -> forall e, e ∈ (stored <$> a) ++ (stored <$> z) -> p (key e) = false.
Proof. intros Hn e. rewrite <- fmap_app, list_elem_of_fmap. intros (kv & -> & Hkv). by apply Hn. Qed.

Lemma stored_absent p l : (forall kv, kv ∈ l -> p kv.1 = false) -> forall e, e ∈ stored <$> l -> p (key e) = false.
Proof. intros Hn e. rewrite list_elem_of_fmap. intros (kv & -> & Hkv). by apply Hn. Qed.

Lemma has_middle m a k v z : has m (stored <$> (a ++ (k, v) :: z)) -> has m ((stored <$> a) ++ stored (k, v) :: (stored <$> z)).
Proof. by rewrite fmap_app. Qed.

Lemma rep_perm m m' l l' : rep m l -> has m' (stored <$> l') -> l'.*1 ≡ₚ l.*1 -> rep m' l'.
Proof. intros [_ Hd] Hm Hp. split; [done|]. by rewrite Hp. Qed.

Lemma distinct_new l k : distinct l.*1 -> (forall kv, kv ∈ l -> key_eq k kv.1 = false) -> distinct (k :: l.*1).
Proof. intros Hd Hn. split; [|done]. intros k'. rewrite list_elem_of_fmap. intros (kv & -> & Hkv). by apply Hn. Qed.

Lemma set_value_middle a k v v' z : set_value (a ++ (k, v) :: z) (length a) v' = a ++ (k, v') :: z.
Proof. unfold set_value. rewrite alter_app_r_alt by lia. by rewrite Nat.sub_diag. Qed.

Lemma lookup_here {A} (a z : list A) x : (a ++ x :: z) !! length a = Some x.
Proof. by apply list_lookup_middle. Qed.

(** ** Lookups *)

Lemma core_get_index_of_rep m l h p : rep m l -> selects h p -> core_get_index_of m h p = Some (pos p l).
Proof.
  intros [Hm Hd] Hs. destruct (pos_located p l h Hd Hs) as [a k v z -> Hp Hn|Hn].
  - apply has_middle in Hm. pose proof (core_get_index_of_hit m _ _ _ p Hm Hp (stored_selects p a z Hn)) as Hg.
    rewrite length_fmap in Hg. simpl in Hg. by rewrite (proj1 Hs k Hp) in Hg.
  - by apply (core_get_index_of_miss m _ h p Hm), stored_absent.
Qed.

Section Query.
Context {Q : Type} {HQ : Queries K Q} {HQL : QueriesLaws K Q}.

Lemma get_index_of_rep m l (q : Q) : rep m l -> get_index_of m q = Some (pos (query_eq q) l).
Proof.
  intros Hr. unfold get_index_of. rewrite (rep_entries m l Hr). destruct l as [|[k v] [|kv' l]]; [done| |].
  - simpl. unfold pos. simpl. by destruct (query_eq q k).
  - cbn [fmap list_fmap]. apply core_get_index_of_rep; [done|apply selects_query].
Qed.
End Query.

(** ** Moving *)

Lemma core_move_spec m es from to : has m es -> (from < length es)%nat -> (to < length es)%nat -> wp (core_move_index m from to) (fun m' => has m' (move_to es from to)).
Proof.
  intros Hm Hf Ht. destruct (decide (from = to)) as [->|Hne].
  - unfold core_move_index. rewrite (has_len _ _ Hm), some_bind. cbv beta. apply wp_bind, wp_assert; [by apply Nat.ltb_lt|].
    destruct (lookup_lt_is_Some_2 es to Hf) as [x Hx]. pose proof Hm as [_ ->]. rewrite Hx, some_bind, Nat.eqb_refl. cbv beta. by rewrite move_to_same.
  - destruct (move_cases es from to Hf Ht Hne) as [(a & x & s & z & -> & Hs & -> & ->)|(a & s & x & z & -> & Hs & -> & ->)].
    + rewrite move_to_up. by apply core_move_up_spec.
    + rewrite move_to_down. by apply core_move_down_spec.
Qed.

Lemma entry_move_spec m es from to b e : has m es -> es !! from = Some e -> (to < length es)%nat ->
  slots (indices m) !! b = Some (hash e, from) -> items_of (delete b (slots (indices m))) ≡ₚ around (take from es) (drop (S from) es) ->
  wp (occupied_move_index {| o_map := m; o_index := from; o_bucket := b |} to) (fun m' => has m' (move_to es from to)).
Proof.
  intros Hm He Ht Hs Hd. pose proof (lookup_lt_Some _ _ _ He) as Hf. unfold occupied_move_index. simpl. destruct (Nat.eqb_spec from to) as [->|Hne]; [by rewrite move_to_same|].
  rewrite (has_len _ _ Hm), some_bind. cbv beta. apply wp_bind, wp_assert; [by apply Nat.ltb_lt|]. apply wp_bind.
  assert (Hin : wp (move_index_inner m from to) (fun m' => get_bucket (indices m') b = Some from /\
    has {| indices := set_bucket (indices m') b to; entries := entries m' |} (move_to es from to))).
  { destruct (move_cases es from to Hf Ht Hne) as [(a & x & s & z & -> & Hnil & -> & ->)|(a & s & x & z & -> & Hnil & -> & ->)].
    - rewrite move_to_up. rewrite list_lookup_middle in He by done. injection He as ->. apply move_inner_up; [done..|].
      by rewrite take_middle, drop_middle in Hd.
    - rewrite move_to_down. rewrite app_assoc, <- length_app in He, Hd. rewrite list_lookup_middle in He by done. injection He as ->.
      rewrite take_middle, drop_middle in Hd. by apply move_inner_down. }
  eapply wp_mono; [exact Hin|]. intros m' [Hg Hm']. unfold occupied_update_index. simpl. rewrite Hg, some_bind. cbv beta.
  apply wp_bind, wp_assert; [apply Nat.eqb_refl|]. exact Hm'.
Qed.

(** ** Entries *)

Lemma entry_at m a k v z k' : rep m (a ++ (k, v) :: z) -> key_eq k' k = true ->
  exists b, entry m k' = Some (Occupied {| o_map := m; o_index := length a; o_bucket := b |}) /\
    slots (indices m) !! b = Some (key_hash k, length a) /\ items_of (delete b (slots (indices m))) ≡ₚ around (stored <$> a) (stored <$> z).
Proof.
  intros [Hm Hd] Hk. apply has_middle in Hm as [Hw He]. rewrite fmap_app, fmap_cons in Hd. apply distinct_middle in Hd as [Hd _].
  assert (Hn : forall kv, kv ∈ a ++ z -> key_eq k' kv.1 = false).
  { intros kv Hkv. rewrite (key_eq_trans k' k) by done. apply Hd. rewrite <- fmap_app. by apply list_elem_of_fmap_2. }
  destruct (find_hit m _ _ _ (key_eq k') Hw He Hk (stored_selects _ a z Hn)) as (b & Hb & Hs & Hr). exists b.
  rewrite length_fmap in Hs. split; [|done]. unfold entry. cbv zeta. rewrite (key_eq_hash k' k Hk). simpl in Hb. rewrite Hb, some_bind. cbv beta iota.
  by rewrite (get_number _ _ _ _ Hs).
Qed.

Lemma entry_nowhere m l k : rep m l -> (forall kv, kv ∈ l -> key_eq k kv.1 = false) -> entry m k = Some (Vacant {| v_map := m; v_hash := key_hash k; v_key := k |}).
Proof. intros [[Hw He] _] Hn. unfold entry. cbv zeta. rewrite (find_miss m _ _ Hw) by (rewrite He; by apply stored_absent). done. Qed.

Lemma occupied_insert_at m a k v z b v' : has m (stored <$> (a ++ (k, v) :: z)) -> exists m',
  occupied_insert {| o_map := m; o_index := length a; o_bucket := b |} v' = Some (v, {| o_map := m'; o_index := length a; o_bucket := b |}) /\
  indices m' = indices m /\ has m' (stored <$> (a ++ (k, v') :: z)).
Proof.
  intros Hm. apply has_middle in Hm. pose proof Hm as [_ He]. exists {| indices := indices m; entries := stored <$> (a ++ (k, v') :: z) |}.
  unfold occupied_insert. simpl. rewrite He. assert (Hl : ((stored <$> a) ++ stored (k, v) :: (stored <$> z)) !! length a = Some (stored (k, v))).
  { apply list_lookup_middle. by rewrite length_fmap. }
  rewrite Hl, some_bind. cbv beta. pose proof (upd_middle (stored <$> a) (stored <$> z) (stored (k, v)) (stored (k, v'))) as Hu.
  change {| hash := hash (stored (k, v)); key := key (stored (k, v)); value := v' |} with (stored (k, v')).
  rewrite length_fmap in Hu. rewrite Hu, some_bind. rewrite fmap_app.
  split; [done|]. split; [done|]. rewrite fmap_cons. eapply has_same; [exact Hm|]. by rewrite !fmap_app, !fmap_cons.
Qed.

Lemma stored_lookup m l i k v : has m (stored <$> l) -> l !! i = Some (k, v) -> entries m !! i = Some (stored (k, v)).
Proof. intros [_ ->] Hi. by rewrite list_lookup_fmap, Hi. Qed.

Lemma swapped_fmap {A B} (f : A -> B) (a z : list A) : swapped_out (f <$> a) (f <$> z) = f <$> swapped_out a z.
Proof.
  unfold swapped_out. rewrite fmap_last, length_fmap. destruct (list.last z); simpl; [|done]. by rewrite fmap_app, fmap_cons, fmap_take.
Qed.

Lemma remove_at_middle swap a x z : remove_at swap (a ++ x :: z) (length a) = if swap then swapped_out a z else a ++ z.
Proof.
  unfold remove_at, swapped_out. rewrite drop_middle, take_middle, delete_middle, length_app. simpl.
  replace (length a + S (length z) - S (length a) - 1)%nat with (length z - 1)%nat by lia.
  destruct z as [|y z _] using rev_ind; [simpl; rewrite app_nil_r; by destruct swap|]. by rewrite last_snoc.
Qed.

Lemma remove_at_perm swap a x z : (x :: remove_at swap (a ++ x :: z) (length a)) ≡ₚ a ++ x :: z.
Proof.
  rewrite remove_at_middle, <- Permutation_middle. apply Permutation_cons; [done|]. destruct swap; [|done]. unfold swapped_out.
  destruct z as [|y z _] using rev_ind; [simpl; by rewrite app_nil_r|]. rewrite last_snoc, length_app, Nat.add_sub, take_app_length.
  apply Permutation_app_head, Permutation_cons_append.
Qed.

Lemma rep_removed m m' swap a x z : rep m (a ++ x :: z) -> has m' (stored <$> remove_at swap (a ++ x :: z) (length a)) -> rep m' (remove_at swap (a ++ x :: z) (length a)).
Proof.
  intros [_ Hd] Hm. split; [done|]. rewrite <- (remove_at_perm swap a x z) in Hd. by destruct Hd.
Qed.

(** ** One operation at a time *)

Lemma insert_full_rep m l k v : rep m l -> wp (insert_full m k v) (fun r => (r.1.1, r.1.2) = ((spec_insert l k v).1.1, (spec_insert l k v).1.2) /\ rep r.2 (spec_insert l k v).2).
Proof.
  intros Hr. pose proof Hr as [Hm Hd]. unfold insert_full, spec_insert. destruct (pos_located (key_eq k) l _ Hd (selects_key k)) as [a k0 v0 z -> Hp Hn|Hn].
  - rewrite set_value_middle, lookup_here. apply has_middle in Hm. rewrite (key_eq_hash k k0 Hp).
    eapply wp_mono; [apply (core_insert_full_hit key_eq m _ _ _ k v Hm Hp), (stored_selects _ _ _ Hn)|].
    intros [[i old] m'] (-> & -> & Hm'). simpl. rewrite length_fmap. split; [done|]. apply rep_perm with m (a ++ (k0, v0) :: z); [done| |by rewrite !fmap_app].
    by rewrite fmap_app.
  - eapply wp_mono; [apply (core_insert_full_miss key_eq m _ (key_hash k) k v Hm), (stored_absent _ _ Hn)|].
    intros [[i old] m'] (-> & -> & Hm'). simpl. rewrite length_fmap. split; [done|]. split; [by rewrite fmap_app|].
    rewrite fmap_app. simpl. rewrite <- Permutation_cons_append. by apply distinct_new.
Qed.

Lemma map_len_rep m l : rep m l -> map_len m = Some (length l).
Proof. intros [Hm _]. unfold map_len. by rewrite (has_len _ _ Hm), length_fmap. Qed.

Lemma rep_inserted m m' l i k v : rep m l -> (forall kv, kv ∈ l -> key_eq k kv.1 = false) -> has m' (stored <$> insert_at l i (k, v)) -> rep m' (insert_at l i (k, v)).
Proof.
  intros [_ Hd] Hn Hm. split; [done|]. unfold insert_at. rewrite fmap_app, fmap_cons. rewrite <- Permutation_middle, <- fmap_app, take_drop. by apply distinct_new.
Qed.

Lemma vacant_shift_insert_rep m l i k v : rep m l -> (i <= length l)%nat -> (forall kv, kv ∈ l -> key_eq k kv.1 = false) ->
  wp (vacant_shift_insert {| v_map := m; v_hash := key_hash k; v_key := k |} i v) (fun m' => rep m' (insert_at l i (k, v))).
Proof.
  intros Hr Hi Hn. pose proof Hr as [Hm _]. unfold vacant_shift_insert. simpl. rewrite <- (take_drop i l), fmap_app in Hm.
  pose proof (shift_insert_unique_spec m _ _ (key_hash k) k v Hm) as Hs. rewrite length_fmap, length_take, Nat.min_l in Hs by done.
  eapply wp_mono; [exact Hs|]. intros m' Hm'. apply rep_inserted with m; [done..|]. unfold insert_at. by rewrite fmap_app.
Qed.

(** A found entry gets its value and its new place. *)
Lemma occupied_place m a k v z v' to : rep m (a ++ (k, v) :: z) -> (to < length (a ++ (k, v) :: z))%nat -> forall k', key_eq k' k = true ->
  exists b e', entry m k' = Some (Occupied {| o_map := m; o_index := length a; o_bucket := b |}) /\
    occupied_insert {| o_map := m; o_index := length a; o_bucket := b |} v' = Some (v, e') /\
    wp (occupied_move_index e' to) (fun m' => rep m' (move_to (a ++ (k, v') :: z) (length a) to)).
Proof.
  intros Hr Hto k' Hk. pose proof Hr as [Hm Hd]. destruct (entry_at m a k v z k' Hr Hk) as (b & He & Hs & Hrest).
  destruct (occupied_insert_at m a k v z b v' Hm) as (m' & Hi & Hind & Hm'). eexists b, _. split; [exact He|]. split; [exact Hi|].
  rewrite <- Hind in Hs, Hrest. eapply wp_mono; [apply (entry_move_spec m' _ _ to b (stored (k, v')) Hm')|].
  - rewrite fmap_app, fmap_cons. apply list_lookup_middle. by rewrite length_fmap.
  - rewrite length_fmap. by rewrite length_app in Hto |- *.
  - exact Hs.
  - rewrite Hrest, fmap_app, fmap_cons. pose proof (take_middle (stored <$> a) (stored <$> z) (stored (k, v'))) as Ht. rewrite length_fmap in Ht.
    pose proof (drop_middle (stored <$> a) (stored <$> z) (stored (k, v'))) as Hdr. rewrite length_fmap in Hdr. by rewrite Ht, Hdr.
  - intros m'' Hm''. rewrite move_to_fmap in Hm''. apply (rep_perm m m'' (a ++ (k, v) :: z)); [done..|].
    rewrite (move_to_perm (a ++ (k, v') :: z)) by (rewrite length_app in Hto |- *; simpl in *; lia). by rewrite !fmap_app.
Qed.

Lemma insert_before_rep m l i k v : rep m l ->
  match (if (length l <? i)%nat then None else match pos (key_eq k) l with
      | Some j => let i := (if (j <? i)%nat then i - 1 else i)%nat in Some (i, snd <$> l !! j, move_to (set_value l j v) j i)
      | None => Some (i, None, insert_at l i (k, v))
      end) with
  | Some r => wp (insert_before m i k v) (fun r' => r'.1 = r.1 /\ rep r'.2 r.2)
  | None => insert_before m i k v = None
  end.
Proof.
  intros Hr. pose proof Hr as [Hm Hd]. unfold insert_before, assert_index_le. rewrite (map_len_rep m l Hr), some_bind. cbv beta.
  destruct (Nat.ltb_spec (length l) i) as [Hlt|Hle]; [by rewrite (proj2 (Nat.leb_gt i _)) by lia|]. rewrite (proj2 (Nat.leb_le i _)) by lia. cbn [rassert]. rewrite some_bind. cbv beta.
  destruct (pos_located (key_eq k) l _ Hd (selects_key k)) as [a k0 v0 z -> Hp Hn|Hn]; cbv zeta.
  - rewrite lookup_here, set_value_middle. set (to := (if (length a <? i)%nat then (i - 1)%nat else i)). rewrite length_app in Hle. simpl in Hle.
    assert (Hto : (to < length (a ++ (k0, v0) :: z))%nat) by (subst to; rewrite length_app; simpl; destruct (Nat.ltb_spec (length a) i); lia).
    destruct (occupied_place m a k0 v0 z v to Hr Hto k Hp) as (b & e' & -> & Hi & Hmove). rewrite some_bind. cbv beta iota. simpl o_index. rewrite Hi, some_bind. fold to.
    apply wp_bind. eapply wp_mono; [exact Hmove|]. by intros m' Hm'.
  - rewrite (entry_nowhere m l k Hr Hn), some_bind. apply wp_bind. eapply wp_mono; [by apply vacant_shift_insert_rep|]. by intros m' Hm'.
Qed.

Lemma shift_insert_rep m l i k v : rep m l ->
  match match pos (key_eq k) l with
      | Some j => if (length l <=? i)%nat then None else Some (snd <$> l !! j, move_to (set_value l j v) j i)
      | None => if (length l <? i)%nat then None else Some (None, insert_at l i (k, v))
      end with
  | Some r => wp (shift_insert m i k v) (fun r' => r'.1 = r.1 /\ rep r'.2 r.2)
  | None => shift_insert m i k v = None
  end.
Proof.
  intros Hr. pose proof Hr as [Hm Hd]. unfold shift_insert, assert_index_le, assert_index_lt. rewrite (map_len_rep m l Hr), some_bind. cbv beta.
  destruct (pos_located (key_eq k) l _ Hd (selects_key k)) as [a k0 v0 z -> Hp Hn|Hn].
  - rewrite lookup_here, set_value_middle. destruct (Nat.leb_spec (length (a ++ (k0, v0) :: z)) i) as [Hle|Hlt].
    + destruct (entry_at m a k0 v0 z k Hr Hp) as (b & -> & _). rewrite some_bind. by rewrite (proj2 (Nat.ltb_ge i _)) by lia.
    + destruct (occupied_place m a k0 v0 z v i Hr Hlt k Hp) as (b & e' & -> & Hi & Hmove). rewrite some_bind. cbv beta iota.
      rewrite (proj2 (Nat.ltb_lt i _)) by lia. cbn [rassert]. rewrite some_bind, Hi, some_bind. apply wp_bind. eapply wp_mono; [exact Hmove|]. by intros m' Hm'.
  - rewrite (entry_nowhere m l k Hr Hn), some_bind. destruct (Nat.ltb_spec (length l) i) as [Hlt|Hle]; [by rewrite (proj2 (Nat.leb_gt i _)) by lia|].
    rewrite (proj2 (Nat.leb_le i _)) by lia. cbn [rassert]. rewrite some_bind. apply wp_bind. eapply wp_mono; [by apply vacant_shift_insert_rep|]. by intros m' Hm'.
Qed.

(** ** Replacing a key *)

Lemma distinct_replace a k0 v0 z k : distinct (a ++ (k0, v0) :: z).*1 -> (forall kv, kv ∈ a ++ z -> key_eq k kv.1 = false) -> distinct (a ++ (k, v0) :: z).*1.
Proof.
  intros Hd Hn. rewrite fmap_app, fmap_cons in Hd |- *. apply distinct_middle in Hd as [_ Hd]. apply distinct_middle. split; [|done].
  intros k'. rewrite <- fmap_app, list_elem_of_fmap. intros (kv & -> & Hkv). by apply Hn.
Qed.

Lemma replace_index_rep m l i k : rep m l ->
  match ('(k0, v0) ← l !! i;
      match (if key_eq k k0 then None else pos (key_eq k) l) with
      | Some j => Some (Err (j, k), l)
      | None => Some (Ok k0, <[i := (k, v0)]> l)
      end) with
  | Some r => wp (replace_index m i k) (fun r' => r'.1 = r.1 /\ rep r'.2 r.2)
  | None => replace_index m i k = None
  end.
Proof.
  intros Hr. pose proof Hr as [Hm Hd]. unfold replace_index, assert_index_lt. rewrite (map_len_rep m l Hr), some_bind. cbv beta.
  destruct (l !! i) as [[k0 v0]|] eqn:Hi; [|by rewrite (proj2 (Nat.ltb_ge i _)) by (by apply lookup_ge_None)].
  rewrite (proj2 (Nat.ltb_lt i _)) by (by eapply lookup_lt_Some). cbn [rassert]. rewrite !some_bind. cbv beta.
  rewrite (stored_lookup m l i k0 v0 Hm Hi), some_bind. cbv beta iota. simpl key. apply list_elem_of_split_length in Hi as (a & z & -> & ->).
  pose proof Hm as Hm0. apply has_middle in Hm0. pose proof Hm0 as [_ He]. destruct (key_eq k k0) eqn:Hk.
  - rewrite He. pose proof (upd_middle (stored <$> a) (stored <$> z) (stored (k0, v0)) (stored (k, v0))) as Hu. rewrite length_fmap in Hu.
    apply wp_bind. simpl hash. simpl value. rewrite <- (key_eq_hash k k0 Hk). change {| hash := key_hash k; key := k; value := v0 |} with (stored (k, v0)).
    rewrite Hu. simpl. split; [done|]. rewrite insert_app_r_alt, Nat.sub_diag by lia. simpl. split.
    + rewrite fmap_app. eapply has_same; [exact Hm0|]. rewrite !fmap_app, !fmap_cons. simpl. by rewrite (key_eq_hash k k0 Hk).
    + apply (distinct_replace a k0 v0 z k Hd). intros kv Hkv. rewrite (key_eq_trans k k0) by done.
      rewrite fmap_app, fmap_cons in Hd. apply distinct_middle in Hd as [Hd _]. apply Hd. rewrite <- fmap_app. by apply list_elem_of_fmap_2.
  - rewrite (core_get_index_of_rep m _ _ _ Hr (selects_key k)), some_bind. destruct (pos (key_eq k) (a ++ (k0, v0) :: z)) as [j|] eqn:Ej.
    + assert (Hne : j <> length a).
      { intros ->. pose proof (pos_located (key_eq k) _ _ Hd (selects_key k)) as Hl. rewrite Ej in Hl. inversion Hl as [a' k1 v1 z' He' Hp Hn Hlen|].
        apply app_inj_1 in He' as [-> [= <- <- <-]]; [|done]. congruence. }
      rewrite (proj2 (Nat.eqb_neq j _)) by done. simpl. done.
    + pose proof (pos_located (key_eq k) _ _ Hd (selects_key k)) as Hl. rewrite Ej in Hl. inversion Hl as [|Hn].
      apply wp_bind. pose proof (replace_index_unique_spec m _ _ _ (key_hash k) k Hm0) as Hs. rewrite length_fmap in Hs.
      eapply wp_mono; [exact Hs|]. intros [old m'] [-> Hm']. simpl. split; [done|]. rewrite insert_app_r_alt, Nat.sub_diag by lia. simpl.
      split; [by rewrite fmap_app|]. apply (distinct_replace a k0 v0 z k Hd). intros kv Hkv. apply Hn. rewrite elem_of_app in Hkv |- *. rewrite elem_of_cons. tauto.
Qed.

(** ** Removing *)

Lemma remove_at_stored swap a kv z : stored <$> remove_at swap (a ++ kv :: z) (length a) = if swap then swapped_out (stored <$> a) (stored <$> z) else (stored <$> a) ++ (stored <$> z).
Proof. rewrite remove_at_middle. destruct swap; [by rewrite swapped_fmap|by rewrite fmap_app]. Qed.

Lemma remove_index_rep (swap : bool) m l i : rep m l ->
  wp (if swap then core_swap_remove_index m i else core_shift_remove_index m i) (fun r => r.1 = l !! i /\ rep r.2 (match l !! i with Some _ => remove_at swap l i | None => l end)).
Proof.
  intros Hr. pose proof Hr as [Hm Hd]. destruct (l !! i) as [[k v]|] eqn:Hi.
  - apply list_elem_of_split_length in Hi as (a & z & -> & ->). pose proof Hm as Hm0. apply has_middle in Hm0.
    pose proof (remove_at_stored swap a (k, v) z) as Hst.
    destruct swap; [pose proof (core_swap_remove_index_spec m _ _ _ Hm0) as Hs|pose proof (core_shift_remove_index_spec m _ _ _ Hm0) as Hs];
      rewrite length_fmap in Hs; (eapply wp_mono; [exact Hs|]); intros [r m'] [-> Hm']; (split; [done|]);
      apply (rep_removed m); by rewrite ?Hst.
  - assert (He : entries m !! i = None) by (by rewrite (rep_entries m l Hr), list_lookup_fmap, Hi).
    destruct swap; [unfold core_swap_remove_index|unfold core_shift_remove_index]; by rewrite He.
Qed.

Lemma core_pop_rep m l : rep m l -> wp (core_pop m) (fun r => r.1 = list.last l /\ rep r.2 (take (length l - 1) l)).
Proof.
  intros [Hm Hd]. eapply wp_mono; [by apply (core_pop_spec m)|]. intros [r m'] [-> Hm']. simpl. rewrite fmap_last, length_fmap, <- fmap_take in *. split.
  - by destruct (list.last l) as [[k v]|].
  - split; [done|]. rewrite <- (take_drop (length l - 1) l), fmap_app in Hd. by apply distinct_app in Hd as [Hd _].
Qed.

Section RemoveQuery.
Context {Q : Type} {HQ : Queries K Q} {HQL : QueriesLaws K Q}.

Lemma remove_rep (swap : bool) m l (q : Q) : rep m l ->
  wp (if swap then swap_remove_full m q else shift_remove_full m q) (fun r =>
    r.1 = (i ← pos (query_eq q) l; (fun kv => (i, kv.1, kv.2)) <$> l !! i) /\
    rep r.2 (match pos (query_eq q) l with Some i => remove_at swap l i | None => l end)).
Proof.
  intros Hr. pose proof Hr as [Hm Hd]. destruct l as [|[k v] [|kv' l]].
  - destruct swap; [unfold swap_remove_full|unfold shift_remove_full]; by rewrite (rep_entries m _ Hr).
  - assert (H1 : wp (if query_eq q k then '(r, m) ← core_pop m; Some (match r with Some (k, v) => Some (0%nat, k, v) | None => None end, m) else Some (None, m))
      (fun r => r.1 = (i ← pos (query_eq q) [(k, v)]; (fun kv => (i, kv.1, kv.2)) <$> [(k, v)] !! i) /\
        rep r.2 (match pos (query_eq q) [(k, v)] with Some i => remove_at swap [(k, v)] i | None => [(k, v)] end))).
    { unfold pos. simpl. destruct (query_eq q k) eqn:Hq; [|done]. apply wp_bind. eapply wp_mono; [by apply core_pop_rep|].
      intros [r m'] [Hr1 Hr2]. simpl in *. rewrite Hr1. simpl. done. }
    destruct swap; [unfold swap_remove_full|unfold shift_remove_full]; rewrite (rep_entries m _ Hr); exact H1.
  - set (L := (k, v) :: kv' :: l) in *. assert (Hf : (if swap then swap_remove_full m q else shift_remove_full m q) =
      if swap then core_swap_remove_full m (query_hash q) (query_eq q) else core_shift_remove_full m (query_hash q) (query_eq q)).
    { unfold swap_remove_full, shift_remove_full. rewrite (rep_entries m _ Hr). by destruct swap. }
    rewrite Hf. clear Hf. clearbody L. destruct (pos_located (query_eq q) L _ Hd (selects_query q)) as [a k0 v0 z -> Hp Hn|Hn].
    + pose proof Hm as Hm0. apply has_middle in Hm0. rewrite (query_eq_hash q k0 Hp). pose proof (remove_at_stored swap a (k0, v0) z) as Hst.
      destruct swap; [pose proof (core_swap_remove_full_hit m _ _ _ _ Hm0 Hp (stored_selects _ _ _ Hn)) as Hs|
        pose proof (core_shift_remove_full_hit m _ _ _ _ Hm0 Hp (stored_selects _ _ _ Hn)) as Hs];
        rewrite length_fmap in Hs; (eapply wp_mono; [exact Hs|]); intros [r m'] [-> Hm']; (split; [by rewrite some_bind, lookup_here|]);
        apply (rep_removed m); by rewrite ?Hst.
    + destruct (core_remove_full_miss m _ (query_hash q) (query_eq q) Hm (stored_absent _ _ Hn)) as [E1 E2].
      destruct swap; [rewrite E2|rewrite E1]; done.
Qed.
End RemoveQuery.
End Rep.
