(* ===== verification/IndexMapTheorems.v ===== *)
(** * indexmap: the map is an ordered list of pairs

    Whatever the hashes are, every operation of the map does what it does on a
    list of pairs with distinct keys, and panics only where that is said. *)
From Stdlib Require Import ZArith Lia.
From stdpp Require Import base list gmap numbers option.
From S2P Require Import Prelude HashTable IndexMapCore IndexMapInv IndexMapOps IndexMapEdit IndexMap IndexMapSpec IndexMapRep.
From stdpp Require Import list.
Import Inner IndexMap.

Section Theorems.
Context {HT : HashTable} {HL : HashTableLaws} {HS : SliceSort} {HSL : SliceSortLaws} {K V : Type} {HK : Keys K} {HKL : KeysLaws K}.
Implicit Types (m : Core K V) (l a z s : list (K * V)) (k : K) (v : V) (p : K -> bool).

(** ** Entries *)

Lemma occupied_get_at m a k v z b : rep m (a ++ (k, v) :: z) -> occupied_get {| o_map := m; o_index := length a; o_bucket := b |} = Some v.
Proof. intros [Hm _]. unfold occupied_get. simpl. by rewrite (stored_lookup m _ _ k v Hm) by apply lookup_here. Qed.

Lemma or_insert_rep m l k v : rep m l -> wp (e ← entry m k; or_insert e v) (fun r => match pos (key_eq k) l with
    | Some i => Some r.1 = snd <$> l !! i /\ rep r.2 l
    | None => r.1 = v /\ rep r.2 (l ++ [(k, v)])
    end).
Proof.
  intros Hr. pose proof Hr as [Hm Hd]. destruct (pos_located (key_eq k) l _ Hd (selects_key k)) as [a k0 v0 z -> Hp Hn|Hn].
  - destruct (entry_at m a k0 v0 z k Hr Hp) as (b & -> & _). rewrite some_bind. cbn [or_insert]. rewrite (occupied_get_at m a k0 v0 z b Hr), some_bind, lookup_here. done.
  - rewrite (entry_nowhere m l k Hr Hn), some_bind. cbn [or_insert]. unfold vacant_insert. simpl. apply wp_bind, wp_bind.
    eapply wp_mono; [apply (core_insert_unique_spec m _ (key_hash k) k v Hm)|]. intros [m' b] [Hm' _]. simpl. split; [done|].
    split; [by rewrite fmap_app|]. rewrite fmap_app. simpl. rewrite <- Permutation_cons_append. by apply distinct_new.
Qed.

Lemma and_modify_rep m l k f : rep m l -> wp (e ← entry m k; and_modify e f) (fun e =>
    rep (match e with Occupied e => o_map e | Vacant e => v_map e end)
      (match pos (key_eq k) l with Some i => alter (fun kv => (kv.1, f kv.2)) i l | None => l end)).
Proof.
  intros Hr. pose proof Hr as [Hm Hd]. destruct (pos_located (key_eq k) l _ Hd (selects_key k)) as [a k0 v0 z -> Hp Hn|Hn].
  - destruct (entry_at m a k0 v0 z k Hr Hp) as (b & -> & _). rewrite some_bind. cbn [and_modify]. rewrite (occupied_get_at m a k0 v0 z b Hr), some_bind.
    destruct (occupied_insert_at m a k0 v0 z b (f v0) Hm) as (m' & -> & _ & Hm'). rewrite some_bind. simpl. rewrite alter_app_r_alt, Nat.sub_diag by lia. simpl.
    apply (rep_perm m m' (a ++ (k0, v0) :: z)); [done..|]. by rewrite !fmap_app.
  - by rewrite (entry_nowhere m l k Hr Hn), some_bind.
Qed.

Lemma entry_remove_rep (swap : bool) m l k : rep m l -> wp (e ← entry m k; match e with
      | Occupied e => '(k, v, m) ← (if swap then occupied_swap_remove_entry e else occupied_shift_remove_entry e); Some (Some (k, v), m)
      | Vacant e => Some (None, v_map e)
      end) (fun r => match pos (key_eq k) l with
    | Some i => r.1 = l !! i /\ rep r.2 (remove_at swap l i)
    | None => r.1 = None /\ rep r.2 l
    end).
Proof.
  intros Hr. pose proof Hr as [Hm Hd]. destruct (pos_located (key_eq k) l _ Hd (selects_key k)) as [a k0 v0 z -> Hp Hn|Hn].
  - destruct (entry_at m a k0 v0 z k Hr Hp) as (b & -> & Hs & Hrest). rewrite some_bind, lookup_here. cbv beta iota.
    set (m' := {| indices := remove_bucket (indices m) b; entries := entries m |}).
    assert (Hri : occupied_remove_index {| o_map := m; o_index := length a; o_bucket := b |} = Some m').
    { unfold occupied_remove_index. simpl. rewrite (get_number _ _ _ _ Hs), some_bind. cbv beta. by rewrite Nat.eqb_refl. }
    assert (He : entries m' = (stored <$> a) ++ stored (k0, v0) :: (stored <$> z)) by (simpl; rewrite (rep_entries _ _ Hr); by rewrite fmap_app).
    assert (Hi : items (indices m') ≡ₚ around (stored <$> a) (stored <$> z)) by (by apply items_remove).
    pose proof (remove_at_stored swap a (k0, v0) z) as Hst. apply wp_bind.
    destruct swap; [unfold occupied_swap_remove_entry; pose proof (swap_remove_finish_spec m' _ _ _ He Hi) as Hf|
      unfold occupied_shift_remove_entry; pose proof (shift_remove_finish_spec m' _ _ _ He Hi) as Hf];
      rewrite Hri, some_bind; rewrite length_fmap in Hf; (eapply wp_mono; [exact Hf|]); intros [[k1 v1] m''] (-> & -> & Hm'); (split; [done|]);
      apply (rep_removed m); by rewrite ?Hst.
  - by rewrite (entry_nowhere m l k Hr Hn), some_bind.
Qed.

(** ** Many pairs *)

Lemma core_reserve_rep m l n : rep m l -> (Z.of_nat (length l + n) <= most)%Z -> wp (core_reserve m n) (fun m' => rep m' l).
Proof. intros [Hm Hd] Hn. eapply wp_mono; [apply (core_reserve_spec m _ n Hm); by rewrite length_fmap|]. by intros m' [Hm' _]. Qed.

Lemma insert_all_rep m l kvs : rep m l -> wp (insert_all m kvs) (fun m' => rep m' (spec_insert_all l kvs)).
Proof.
  revert m l. induction kvs as [|[k v] kvs IH]; intros m l Hr; [done|]. cbn [insert_all]. unfold insert. apply wp_bind, wp_bind.
  eapply wp_mono; [by apply (insert_full_rep m l k v)|]. intros [[i old] m'] [_ Hr']. simpl. by apply IH.
Qed.

(** The room that [extend] asks for. *)
Definition wanted l (hint : nat) : nat := if (length l =? 0)%nat then hint else div_ceil hint 2.

Lemma extend_rep m l hint kvs : rep m l -> (Z.of_nat (length l + wanted l hint) <= most)%Z -> wp (extend m hint kvs) (fun m' => rep m' (spec_insert_all l kvs)).
Proof.
  intros Hr Hfit. unfold extend. rewrite (map_len_rep m l Hr), some_bind. apply wp_bind. eapply wp_mono; [by apply core_reserve_rep|].
  intros m' Hr'. by apply insert_all_rep.
Qed.

(** Pairs with distinct keys are kept in order. *)
Lemma spec_insert_distinct l kvs : distinct (l ++ kvs).*1 -> spec_insert_all l kvs = l ++ kvs.
Proof.
  revert l. induction kvs as [|[k v] kvs IH]; intros l Hl; [by rewrite app_nil_r|].
  change (spec_insert_all l ((k, v) :: kvs)) with (spec_insert_all (spec_insert l k v).2 kvs).
  unfold spec_insert. pose proof Hl as Hl'. rewrite fmap_app, fmap_cons in Hl'. apply distinct_app in Hl' as (Hdl & _ & Hn).
  assert (Hp : pos (key_eq k) l = None).
  { destruct (pos_located (key_eq k) l _ Hdl (selects_key k)) as [a k' v' z -> Hk _|_]; [|done]. exfalso.
    assert (Hf : key_eq k' k = false); [|rewrite key_eq_sym in Hk; congruence].
    apply Hn; [|constructor]. rewrite fmap_app. apply elem_of_app. right. constructor. }
  rewrite Hp. simpl. rewrite IH; by rewrite <- app_assoc.
Qed.

Lemma from_iter_rep hint l : distinct l.*1 -> (Z.of_nat hint <= most)%Z -> wp (from_iter hint l) (fun m => rep m l).
Proof.
  intros Hd Hh. unfold from_iter. apply wp_bind. eapply wp_mono; [by apply rep_with_capacity|]. intros m0 H0.
  eapply wp_mono; [by apply (extend_rep m0 [] hint l)|]. intros m Hr. by rewrite spec_insert_distinct in Hr.
Qed.

Lemma spec_insert_keys l k v : (spec_insert l k v).2.*1 = match pos (key_eq k) l with Some _ => l.*1 | None => l.*1 ++ [k] end.
Proof.
  unfold spec_insert. destruct (pos (key_eq k) l) as [i|]; simpl; [|by rewrite fmap_app]. unfold set_value. apply list_eq. intros j.
  rewrite !list_lookup_fmap. destruct (decide (i = j)) as [->|Hne]; [rewrite list_lookup_alter_eq|by rewrite list_lookup_alter_ne].
  by destruct (l !! j).
Qed.

Lemma splice_all_rep m l t ts kvs : rep m l -> rep t ts -> distinct (l ++ ts).*1 ->
  wp (splice_all m t kvs) (fun r => let s := spec_splice l ts kvs in rep r.1 s.1 /\ rep r.2 s.2 /\ distinct (s.1 ++ s.2).*1).
Proof.
  revert m l t ts. induction kvs as [|[k v] kvs IH]; intros m l t ts Hm Ht Hd; [done|]. cbn [splice_all]. cbv zeta.
  pose proof Ht as [Hts Hdt]. rewrite (core_get_index_of_rep t ts _ _ Ht (selects_key k)), some_bind.
  assert (Hstep : spec_splice l ts ((k, v) :: kvs) = match pos (key_eq k) ts with Some i => spec_splice l (set_value ts i v) kvs | None => spec_splice (spec_insert l k v).2 ts kvs end).
  { unfold spec_splice. simpl. by destruct (pos (key_eq k) ts). }
  rewrite Hstep. clear Hstep. destruct (pos_located (key_eq k) ts _ Hdt (selects_key k)) as [a k0 v0 z -> Hp Hn|Hn].
  - pose proof Hts as Hm0. apply has_middle in Hm0. pose proof Hm0 as [_ He]. rewrite He.
    assert (Hl : ((stored <$> a) ++ stored (k0, v0) :: (stored <$> z)) !! length a = Some (stored (k0, v0))) by (apply list_lookup_middle; by rewrite length_fmap).
    rewrite Hl, some_bind. pose proof (upd_middle (stored <$> a) (stored <$> z) (stored (k0, v0)) (stored (k0, v))) as Hu. rewrite length_fmap in Hu.
    simpl hash. simpl key. change {| hash := key_hash k0; key := k0; value := v |} with (stored (k0, v)). rewrite Hu, some_bind. rewrite set_value_middle.
    assert (Hk : (a ++ (k0, v) :: z).*1 = (a ++ (k0, v0) :: z).*1) by (by rewrite !fmap_app).
    apply IH; [done| |by rewrite fmap_app, Hk, <- fmap_app]. split; [|by rewrite Hk]. rewrite fmap_app, fmap_cons. eapply has_same; [exact Hm0|]. by rewrite !fmap_app, !fmap_cons.
  - apply wp_bind. eapply wp_mono; [by apply (insert_full_rep m l k v)|]. intros [[i old] m'] [_ Hr']. simpl in Hr'. apply IH; [done..|].
    rewrite fmap_app, spec_insert_keys. destruct (pos (key_eq k) l) eqn:E; [by rewrite <- fmap_app|]. rewrite <- app_assoc. simpl.
    rewrite <- Permutation_middle, <- fmap_app. apply distinct_new; [done|]. intros kv [Hkv|Hkv]%elem_of_app; [|by apply Hn].
    destruct Hm as [_ Hdl]. pose proof (pos_located (key_eq k) l _ Hdl (selects_key k)) as Hloc. rewrite E in Hloc. inversion Hloc as [|Hn']. by apply Hn'.
Qed.

Lemma take_drop_distinct l lo hi : distinct l.*1 -> (lo <= hi)%nat -> distinct (take lo l ++ drop hi l).*1.
Proof.
  intros Hd Hle. rewrite <- (take_drop lo l) in Hd. rewrite <- (take_drop (hi - lo) (drop lo l)), drop_drop in Hd.
  replace (lo + (hi - lo))%nat with hi in Hd by lia. rewrite app_assoc, (Permutation_app_comm (take lo l)), <- app_assoc, fmap_app in Hd.
  by apply distinct_app in Hd as (_ & Hd & _).
Qed.

(** Every pair is in the front or in the tail, or replaces one there. *)
Lemma spec_splice_length l ts kvs : (length (spec_splice l ts kvs).1 + length (spec_splice l ts kvs).2 <= length l + length ts + length kvs)%nat.
Proof.
  revert l ts. unfold spec_splice. induction kvs as [|[k v] kvs IH]; intros l ts; [simpl; lia|]. cbn [foldl]. destruct (pos (key_eq k) ts) as [i|].
  - etransitivity; [apply IH|]. unfold set_value. rewrite length_alter. simpl. lia.
  - etransitivity; [apply IH|]. unfold spec_insert, set_value. destruct (pos (key_eq k) l); simpl; [rewrite length_alter|rewrite length_app; simpl]; lia.
Qed.

Lemma splice_rep m l range kvs : rep m l -> (Z.of_nat (length l + length kvs) <= most)%Z ->
  match ('(start, end_) ← simplify_range range (length l);
      let '(front, tail_) := spec_splice (take start l) (drop end_ l) kvs in
      Some (take (end_ - start) (drop start l), front ++ tail_)) with
  | Some r => wp (splice m range kvs) (fun r' => r'.1 = r.1 /\ rep r'.2 r.2)
  | None => splice m range kvs = None
  end.
Proof.
  intros Hr Hfit. pose proof Hr as [Hm Hd]. destruct (simplify_range range (length l)) as [[start end_]|] eqn:Hrange.
  - rewrite some_bind. destruct (try_simplify_range_spec _ _ _ _ Hrange) as [H1 H2]. unfold splice. rewrite <- (length_fmap stored l) in Hrange.
    pose proof (spec_splice_length (take start l) (drop end_ l) kvs) as Hlen. rewrite length_take, length_drop in Hlen.
    destruct (spec_splice (take start l) (drop end_ l) kvs) as [front tail_] eqn:Es.
    apply wp_bind. eapply wp_mono; [apply (split_splice_spec m (stored <$> l) range start end_); [done|done|rewrite length_fmap; lia]|].
    intros [[t drained] m'] (Ht & -> & Hm'). rewrite <- fmap_drop in Ht. rewrite <- fmap_take in Hm'. rewrite <- fmap_drop, <- fmap_take, key_value_stored.
    pose proof (take_drop_distinct l start end_ Hd H1) as Hdd. pose proof Hdd as Hdd'. rewrite fmap_app in Hdd'. apply distinct_app in Hdd' as (Hd1 & Hd2 & _).
    apply wp_bind. eapply wp_mono; [by apply (splice_all_rep m' (take start l) t (drop end_ l) kvs)|]. rewrite Es. intros [m2 t2] (Hr2 & Ht2 & Hd12). simpl in *.
    apply wp_bind. eapply wp_mono; [apply append_unchecked_spec; [apply Hr2|apply Ht2|rewrite !length_fmap; lia]|]. intros [m3 t3] [Hm3 _]. split; [done|]. split; [by rewrite fmap_app|done].
  - simpl. unfold splice, split_splice. rewrite (has_len _ _ Hm), some_bind, length_fmap. by rewrite Hrange.
Qed.

(** ** Whole maps *)

Lemma set_value_keys l i v : (set_value l i v).*1 = l.*1.
Proof.
  unfold set_value. apply list_eq. intros j. rewrite !list_lookup_fmap.
  destruct (decide (i = j)) as [->|Hne]; [rewrite list_lookup_alter_eq|by rewrite list_lookup_alter_ne]. by destruct (l !! j).
Qed.

Lemma pop_if_rep m l predicate : rep m l -> wp (pop_if m predicate) (fun r => match list.last l with
    | Some (k, v) =>
        let '(b, v') := predicate k v in
        if b then r.1 = Some (k, v') /\ rep r.2 (take (length l - 1) l) else r.1 = None /\ rep r.2 (set_value l (length l - 1) v')
    | None => r.1 = None /\ rep r.2 l
    end).
Proof.
  intros Hr. pose proof Hr as [Hm Hd]. unfold pop_if. rewrite (rep_entries m l Hr), fmap_last.
  destruct l as [|[k v] l _] using rev_ind; [done|]. rewrite last_snoc. cbn [fmap option_fmap option_map stored key value hash fst snd].
  destruct (predicate k v) as [b v']. rewrite length_fmap, length_app, Nat.add_sub. apply has_middle in Hm.
  pose proof (upd_middle (stored <$> l) [] (stored (k, v)) (stored (k, v'))) as Hu. rewrite length_fmap in Hu.
  rewrite fmap_app. change {| hash := key_hash k; key := k; value := v' |} with (stored (k, v')). apply wp_bind. simpl fmap. rewrite Hu. simpl.
  assert (Hr' : rep {| indices := indices m; entries := (stored <$> l) ++ [stored (k, v')] |} (l ++ [(k, v')])).
  { apply (rep_perm m _ (l ++ [(k, v)])); [done| |by rewrite !fmap_app]. rewrite fmap_app. eapply has_same; [exact Hm|]. by rewrite !fmap_app. }
  destruct b.
  - eapply wp_mono; [by apply (core_pop_rep _ _ Hr')|]. intros [r m'] [Hr1 Hr2]. rewrite last_snoc in Hr1. rewrite length_app, Nat.add_sub, take_app_length in Hr2.
    by rewrite take_app_length.
  - split; [done|]. pose proof (set_value_middle l k v v' []) as Hs. by rewrite Hs.
Qed.

Lemma kept_stored keep l : kept keep (stored <$> l) = stored <$> omap (fun '(k, v) => pair k <$> keep k v) l.
Proof.
  induction l as [|[k v] l IH]; [done|]. unfold kept in *. cbn [fmap list_fmap omap list_omap]. simpl key. simpl value. destruct (keep k v) as [v'|]; cbn [fmap option_fmap option_map]; [|exact IH].
  cbn [list_fmap]. f_equal. exact IH.
Qed.

Lemma distinct_omap (f : K * V -> option (K * V)) l : (forall kv kv', f kv = Some kv' -> kv'.1 = kv.1) -> distinct l.*1 -> distinct (omap f l).*1.
Proof.
  intros Hf. induction l as [|kv l IH]; [done|]. intros [H1 H2]. cbn [omap list_omap]. destruct (f kv) as [kv'|] eqn:E; [|by apply IH].
  split; [|by apply IH]. rewrite (Hf _ _ E). intros k' ([k0 v0] & -> & (kv0 & Hin & E0)%list_elem_of_omap)%list_elem_of_fmap.
  rewrite (Hf _ _ E0). apply H1. by apply list_elem_of_fmap_2.
Qed.

Lemma retain_rep m l keep : rep m l -> wp (core_retain m keep) (fun m' => rep m' (omap (fun '(k, v) => pair k <$> keep k v) l)).
Proof.
  intros [Hm Hd]. eapply wp_mono; [by apply core_retain_spec|]. intros m' Hm'. rewrite kept_stored in Hm'. split; [done|].
  apply distinct_omap; [|done]. intros [k v] [k' v']. destruct (keep k v); simpl; congruence.
Qed.

Lemma sort_rep m l le : rep m l -> total_preorder le -> wp (sort_by m le) (fun m' => rep m' (stable_sort le l)).
Proof.
  intros [Hm Hd] [Ht Htr]. set (by_pair := fun a b : Bucket K V => le (key_value a) (key_value b)).
  assert (E : stable_sort by_pair (stored <$> l) = stored <$> stable_sort le l).
  { etransitivity; [apply (stable_sort_fmap stored by_pair l)|]. f_equal. apply stable_sort_ext. by intros [k v] [k' v']. }
  unfold sort_by. eapply wp_mono; [apply (with_entries_spec m _ _ (stored <$> stable_sort le l) Hm)|].
  - rewrite sort_slice_stable; [f_equal; exact E|]. unfold by_pair. split; [intros x y; apply Ht|intros x y z; apply Htr].
  - rewrite !length_fmap. by rewrite (stable_sort_perm le l).
  - intros m' Hm'. apply (rep_perm m m' l); [done..|]. by rewrite stable_sort_perm.
Qed.

(** Whatever the comparison, a sort that returns leaves a map of the same pairs
    in some order. *)
Theorem sort_any_order m l le m' : rep m l -> sort_by m le = Some m' -> exists l', l' ≡ₚ l /\ rep m' l'.
Proof.
  intros [Hm Hd] Hs. unfold sort_by in Hs. pose proof Hm as [_ He]. set (sort := sort_slice _) in Hs. destruct (sort (stored <$> l)) as [es|] eqn:E; [|by unfold with_entries in Hs; rewrite He, E in Hs].
  pose proof (sort_slice_keeps _ _ _ E) as Hp. apply Permutation_map_inv in Hp as (l' & -> & Hl).
  exists l'. split; [by symmetry|]. pose proof (with_entries_spec m _ _ _ Hm E) as Hw. rewrite Hs in Hw. apply (rep_perm m m' l); [done| |by apply fmap_Permutation].
  apply Hw. rewrite !length_fmap. by rewrite Hl.
Qed.

Lemma reverse_rep m l : rep m l -> wp (core_reverse m) (fun m' => rep m' (reverse l)).
Proof.
  intros [Hm Hd]. eapply wp_mono; [by apply core_reverse_spec|]. intros m' Hm'. rewrite <- fmap_reverse in Hm'. apply (rep_perm m m' l); [done..|].
  by rewrite reverse_Permutation.
Qed.

Lemma truncate_rep m l n : rep m l -> wp (core_truncate m n) (fun m' => rep m' (take n l)).
Proof.
  intros [Hm Hd]. eapply wp_mono; [by apply core_truncate_spec|]. intros m' Hm'. rewrite <- fmap_take in Hm'. split; [done|].
  rewrite <- (take_drop n l), fmap_app in Hd. by apply distinct_app in Hd as [Hd _].
Qed.

Lemma drain_rep m l range : rep m l ->
  match ('(start, end_) ← simplify_range range (length l); Some (take (end_ - start) (drop start l), take start l ++ drop end_ l)) with
  | Some r => wp (core_drain m range) (fun r' => key_value <$> r'.1 = r.1 /\ rep r'.2 r.2)
  | None => core_drain m range = None
  end.
Proof.
  intros Hr. pose proof Hr as [Hm Hd]. destruct (simplify_range range (length l)) as [[start end_]|] eqn:Hrange.
  - rewrite some_bind. destruct (try_simplify_range_spec _ _ _ _ Hrange) as [H1 H2]. rewrite <- (length_fmap stored l) in Hrange.
    eapply wp_mono; [by apply (core_drain_spec m (stored <$> l) range start end_)|]. intros [d m'] [-> Hm']. simpl.
    rewrite <- fmap_drop, <- fmap_take, key_value_stored. rewrite <- fmap_take, <- fmap_drop, <- fmap_app in Hm'. split; [done|]. split; [done|]. by apply take_drop_distinct.
  - simpl. unfold core_drain. rewrite (rep_entries m l Hr), length_fmap. by rewrite Hrange.
Qed.

(** Both maps of a split. *)
Lemma split_off_rep m l n : rep m l -> (n <= length l)%nat -> (Z.of_nat (length l) <= most)%Z -> wp (core_split_off m n) (fun r => rep r.1 (drop n l) /\ rep r.2 (take n l)).
Proof.
  intros [Hm Hd] Hn Hfit. eapply wp_mono; [apply (core_split_off_spec m _ n Hm); by rewrite length_fmap|]. intros [d m'] [Hd' Hm'].
  rewrite <- fmap_drop in Hd'. rewrite <- fmap_take in Hm'. rewrite <- (take_drop n l), fmap_app in Hd. apply distinct_app in Hd as (H1 & H2 & _). done.
Qed.

Lemma split_off_panics m l n : rep m l -> (length l < n)%nat -> core_split_off m n = None.
Proof.
  intros [Hm _] Hn. unfold core_split_off, assert_index_le. rewrite (has_len _ _ Hm), some_bind, length_fmap. cbv beta.
  by rewrite (proj2 (Nat.leb_gt n _)) by lia.
Qed.

Lemma move_index_rep m l from to : rep m l ->
  if ((from <? length l) && (to <? length l))%nat then wp (core_move_index m from to) (fun m' => rep m' (move_to l from to)) else core_move_index m from to = None.
Proof.
  intros Hr. pose proof Hr as [Hm Hd]. destruct (Nat.ltb_spec from (length l)) as [Hf|Hf]; simpl.
  - destruct (Nat.ltb_spec to (length l)) as [Ht|Ht].
    + eapply wp_mono; [apply (core_move_spec m _ from to Hm); by rewrite length_fmap|]. intros m' Hm'. rewrite move_to_fmap in Hm'.
      apply (rep_perm m m' l); [done..|]. by rewrite move_to_perm.
    + unfold core_move_index, assert_index_lt. rewrite (has_len _ _ Hm), some_bind, length_fmap. cbv beta. rewrite (proj2 (Nat.ltb_lt from _)) by lia.
      cbn [rassert]. rewrite some_bind. destruct (entries m !! from); [|done]. rewrite some_bind. cbv beta. rewrite (proj2 (Nat.eqb_neq from to)) by lia.
      by rewrite (proj2 (Nat.ltb_ge to _)) by lia.
  - unfold core_move_index, assert_index_lt. rewrite (has_len _ _ Hm), some_bind, length_fmap. cbv beta. by rewrite (proj2 (Nat.ltb_ge from _)) by lia.
Qed.

Lemma swap_shape l i j (x y : K * V) : l !! i = Some x -> l !! j = Some y -> (i < j)%nat ->
  exists a s z, l = a ++ x :: s ++ y :: z /\ i = length a /\ j = (length a + S (length s))%nat.
Proof.
  intros Hi Hj Hlt. apply list_elem_of_split_length in Hi as (a & r & -> & ->). rewrite lookup_app_r in Hj by lia.
  destruct (j - length a)%nat as [|n] eqn:E; [lia|]. simpl in Hj. apply list_elem_of_split_length in Hj as (s & z & -> & ->).
  exists a, s, z. split_and!; [done..|lia].
Qed.

Lemma swap_indices_rep m l (a b : nat) : rep m l ->
  match (x ← l !! a; y ← l !! b; Some (<[a := y]> (<[b := x]> l))) with
  | Some l' => wp (core_swap_indices m a b) (fun m' => rep m' l')
  | None => core_swap_indices m a b = None
  end.
Proof.
  intros Hr. pose proof Hr as [Hm Hd]. destruct (l !! a) as [x|] eqn:Ha.
  - rewrite some_bind. destruct (l !! b) as [y|] eqn:Hb.
    + rewrite some_bind. destruct (decide (a = b)) as [->|Hne].
      * simplify_eq. rewrite list_insert_insert_eq, list_insert_id by done. unfold core_swap_indices, assert_index_lt. rewrite (has_len _ _ Hm), some_bind, length_fmap. cbv beta.
        rewrite (proj2 (Nat.ltb_lt b _)) by (by eapply lookup_lt_Some). cbn [rassert]. rewrite some_bind, Nat.eqb_refl. done.
      * assert (Hlt : (a < b \/ b < a)%nat) by lia. destruct Hlt as [Hlt|Hlt].
        -- destruct (swap_shape l a b x y Ha Hb Hlt) as (u & s & z & -> & -> & ->). rewrite swap_middle. rewrite fmap_app, fmap_cons, fmap_app, fmap_cons in Hm.
           destruct (core_swap_spec m _ _ _ _ _ Hm) as [Hs _]. rewrite !length_fmap in Hs. eapply wp_mono; [exact Hs|]. intros m' Hm'.
           apply (rep_perm m m' (u ++ x :: s ++ y :: z)); [done|by rewrite fmap_app, fmap_cons, fmap_app, fmap_cons|]. apply fmap_Permutation, Permutation_app_head.
           rewrite <- !Permutation_middle. apply Permutation_swap.
        -- destruct (swap_shape l b a y x Hb Ha Hlt) as (u & s & z & -> & -> & ->). rewrite list_insert_insert_ne, swap_middle by lia. rewrite fmap_app, fmap_cons, fmap_app, fmap_cons in Hm.
           destruct (core_swap_spec m _ _ _ _ _ Hm) as [_ Hs]. rewrite !length_fmap in Hs. eapply wp_mono; [exact Hs|]. intros m' Hm'.
           apply (rep_perm m m' (u ++ y :: s ++ x :: z)); [done|by rewrite fmap_app, fmap_cons, fmap_app, fmap_cons|]. apply fmap_Permutation, Permutation_app_head.
           rewrite <- !Permutation_middle. apply Permutation_swap.
    + simpl. assert (a <> b) by congruence. unfold core_swap_indices, assert_index_lt. rewrite (has_len _ _ Hm), some_bind, length_fmap. cbv beta.
      rewrite (proj2 (Nat.ltb_lt a _)) by (by eapply lookup_lt_Some). cbn [rassert]. rewrite some_bind, (proj2 (Nat.eqb_neq a b)) by done.
      by rewrite (proj2 (Nat.ltb_ge b _)) by (by apply lookup_ge_None).
  - simpl. unfold core_swap_indices, assert_index_lt. rewrite (has_len _ _ Hm), some_bind, length_fmap. cbv beta.
    by rewrite (proj2 (Nat.ltb_ge a _)) by (by apply lookup_ge_None).
Qed.

(** [append]: the other map ends empty. *)
Lemma append_rep m l other r : rep m l -> rep other r -> (Z.of_nat (length l + wanted l (length r)) <= most)%Z -> wp (append m other) (fun x => rep x.1 (spec_insert_all l r) /\ rep x.2 []).
Proof.
  intros Hm Ho Hfit. unfold append. apply wp_bind. pose proof (drain_rep other r (Unbounded, Unbounded) Ho) as Hd. cbn [simplify_range try_simplify_range fst snd mbind option_bind] in Hd.
  unfold simplify_range, try_simplify_range in Hd. cbn [fst snd mbind option_bind] in Hd. rewrite (proj2 (Nat.ltb_ge (length r) 0)) in Hd by lia.
  eapply wp_mono; [exact Hd|]. intros [d o'] [He Ho']. simpl in *. rewrite Nat.sub_0_r, drop_0, firstn_all in He. rewrite drop_all in Ho'.
  apply wp_bind. rewrite <- (length_fmap key_value d), He. eapply wp_mono; [by apply extend_rep|]. intros m' Hm'. done.
Qed.

Section Calls.
Context {Q : Type} {HQ : Queries K Q} {HQL : QueriesLaws K Q}.
Implicit Types o : op K V Q.

(** A call that asks for room asks for no more than can be allocated, and a sort
    compares by a total order. *)
Definition granted o l : Prop :=
  match o with
  | Reserve n => Z.of_nat (length l + n) <= most
  | Extend hint _ => Z.of_nat (length l + wanted l hint) <= most
  | Splice _ kvs => Z.of_nat (length l + length kvs) <= most
  | SplitOff _ => Z.of_nat (length l) <= most
  | SortBy le => total_preorder le
  | _ => True
  end%Z.

(** One call: it panics where the list says so, and otherwise returns what the
    list does, with a map of the new list. *)
Lemma run_op_rep o m l : rep m l -> granted o l ->
  match spec_op o l with
  | Some (r, l') => wp (run_op o m) (fun '(r', m') => r' = r /\ rep m' l')
  | None => run_op o m = None
  end.
Proof.
  intros Hr Hg. pose proof Hr as [Hm Hd]. destruct o; cbn [granted] in Hg; cbn [spec_op run_op].
  - pose proof (insert_full_rep m l k v Hr) as Hi. destruct (spec_insert l k v) as [[i old] l']. apply wp_bind. eapply wp_mono; [exact Hi|].
    intros [[i' old'] m'] [[= -> ->] Hm']. done.
  - pose proof (insert_before_rep m l i k v Hr) as Hi. destruct (length l <? i)%nat; [by rewrite Hi|].
    destruct (pos (key_eq k) l); (apply wp_bind; eapply wp_mono; [exact Hi|]; intros [[i' old'] m'] [[= -> ->] Hm']; done).
  - pose proof (shift_insert_rep m l i k v Hr) as Hi. destruct (pos (key_eq k) l); [destruct (length l <=? i)%nat|destruct (length l <? i)%nat]; try (by rewrite Hi);
      (apply wp_bind; eapply wp_mono; [exact Hi|]; intros [old' m'] [Ho Hm']; simpl in *; by rewrite Ho).
  - pose proof (replace_index_rep m l i k Hr) as Hi. destruct (l !! i) as [[k0 v0]|]; [|simpl in *; by rewrite Hi]. rewrite some_bind. cbn [mbind option_bind] in Hi. cbv beta iota in Hi |- *.
    destruct (if key_eq k k0 then None else pos (key_eq k) l); (apply wp_bind; eapply wp_mono; [exact Hi|]; intros [r' m'] [Ho Hm']; simpl in *; by rewrite Ho).
  - pose proof (or_insert_rep m l k v Hr) as Hi. destruct (entry m k) as [e|]; [|done]. rewrite some_bind. cbn [mbind option_bind] in Hi. destruct (pos (key_eq k) l);
      (apply wp_bind; eapply wp_mono; [exact Hi|]; intros [v' m'] [Ho Hm']; simpl in *; by rewrite Ho).
  - pose proof (and_modify_rep m l k f Hr) as Hi. destruct (entry m k) as [e|]; [|done]. rewrite some_bind. cbn [mbind option_bind] in Hi.
    destruct (pos (key_eq k) l); (apply wp_bind; eapply wp_mono; [exact Hi|]; intros e' Hm'; done).
  - pose proof (entry_remove_rep swap m l k Hr) as Hi. destruct (entry m k) as [e|]; [|by destruct (pos (key_eq k) l)]. rewrite some_bind. cbn [mbind option_bind] in Hi. cbv beta.
    destruct e as [e|e]; [destruct swap; [destruct (occupied_swap_remove_entry e) as [[[k' v'] m']|]|destruct (occupied_shift_remove_entry e) as [[[k' v'] m']|]]|];
      destruct (pos (key_eq k) l); try done; destruct Hi as [Ho Hm']; simpl in *; by rewrite ?Ho.
  - apply wp_bind. eapply wp_mono; [by apply (extend_rep m l hint kvs Hr Hg)|]. done.
  - pose proof (splice_rep m l range kvs Hr Hg) as Hi. destruct (simplify_range range (length l)) as [[start end_]|]; [|simpl in *; by rewrite Hi].
    rewrite some_bind. cbn [mbind option_bind] in Hi. destruct (spec_splice _ _ kvs) as [front tail_]. apply wp_bind. eapply wp_mono; [exact Hi|].
    intros [r' m'] [Ho Hm']. simpl in *. by rewrite Ho.
  - pose proof (remove_rep swap m l q Hr) as Hi. destruct (pos (query_eq q) l);
      (apply wp_bind; eapply wp_mono; [exact Hi|]; intros [r' m'] [Ho Hm']; simpl in *; by rewrite Ho).
  - apply wp_bind. eapply wp_mono; [by apply (remove_index_rep swap m l i)|]. intros [r' m'] [Ho Hm']. simpl in *. by rewrite Ho.
  - apply wp_bind. eapply wp_mono; [by apply (core_pop_rep m l)|]. intros [r' m'] [Ho Hm']. simpl in *. by rewrite Ho.
  - pose proof (pop_if_rep m l predicate Hr) as Hi. destruct (list.last l) as [[k v]|]; [destruct (predicate k v) as [b v']; destruct b|];
      (apply wp_bind; eapply wp_mono; [exact Hi|]; intros [r' m'] [Ho Hm']; simpl in *; by rewrite Ho).
  - apply wp_bind. eapply wp_mono; [by apply (retain_rep m l keep)|]. done.
  - apply wp_bind. eapply wp_mono; [by apply (sort_rep m l le Hr Hg)|]. done.
  - apply wp_bind. eapply wp_mono; [by apply (reverse_rep m l)|]. done.
  - apply wp_bind. eapply wp_mono; [by apply (truncate_rep m l n)|]. done.
  - pose proof (drain_rep m l range Hr) as Hi. destruct (simplify_range range (length l)) as [[start end_]|]; [|simpl in *; by rewrite Hi].
    rewrite some_bind. cbn [mbind option_bind] in Hi. apply wp_bind. eapply wp_mono; [exact Hi|]. intros [r' m'] [Ho Hm']. simpl in *. by rewrite Ho.
  - destruct (Nat.ltb_spec (length l) at_) as [Hlt|Hle]; [by rewrite (split_off_panics m l at_ Hr Hlt)|].
    apply wp_bind. eapply wp_mono; [by apply (split_off_rep m l at_ Hr Hle Hg)|]. intros [d m'] [Hd' Hm']. simpl in *. by rewrite (rep_entries _ _ Hd'), key_value_stored.
  - pose proof (move_index_rep m l from to Hr) as Hi. destruct ((from <? length l)%nat && (to <? length l)%nat); [|by rewrite Hi].
    apply wp_bind. eapply wp_mono; [exact Hi|]. done.
  - pose proof (swap_indices_rep m l a b Hr) as Hi. destruct (l !! a) as [x|]; [|simpl in *; by rewrite Hi]. rewrite some_bind. cbn [mbind option_bind] in Hi.
    destruct (l !! b) as [y|]; [|simpl in *; by rewrite Hi]. rewrite some_bind. cbn [mbind option_bind] in Hi. apply wp_bind. eapply wp_mono; [exact Hi|]. done.
  - apply wp_bind. eapply wp_mono; [by apply (core_reserve_rep m l n Hr Hg)|]. done.
  - simpl. split; [done|]. split; [|done]. apply core_clear_spec.
Qed.

(** A program of calls, and the list's. *)
Fixpoint run_ops (os : list (op K V Q)) m : option (list (out K V) * Core K V) :=
  match os with
  | [] => Some ([], m)
  | o :: os => '(r, m) ← run_op o m; '(rs, m) ← run_ops os m; Some (r :: rs, m)
  end.

Fixpoint spec_ops (os : list (op K V Q)) l : option (list (out K V) * list (K * V)) :=
  match os with
  | [] => Some ([], l)
  | o :: os => '(r, l) ← spec_op o l; '(rs, l) ← spec_ops os l; Some (r :: rs, l)
  end.

(** Every call of a program asks for what can be given, at the list it meets. *)
Fixpoint all_granted (os : list (op K V Q)) l : Prop :=
  match os with
  | [] => True
  | o :: os => granted o l /\ match spec_op o l with Some (_, l') => all_granted os l' | None => True end
  end.

Lemma run_ops_rep os m l : rep m l -> all_granted os l ->
  match spec_ops os l with
  | Some (rs, l') => wp (run_ops os m) (fun '(rs', m') => rs' = rs /\ rep m' l')
  | None => run_ops os m = None
  end.
Proof.
  revert m l. induction os as [|o os IH]; intros m l Hr Hg; [done|]. destruct Hg as [Hg Hgs]. cbn [spec_ops run_ops].
  pose proof (run_op_rep o m l Hr Hg) as Ho. destruct (spec_op o l) as [[r l1]|]; [|simpl; by rewrite Ho]. apply wp_elim in Ho as ([r' m1] & -> & -> & Hr1). rewrite !some_bind. cbv beta iota.
  specialize (IH m1 l1 Hr1 Hgs). destruct (spec_ops os l1) as [[rs l2]|]; [|simpl; by rewrite IH]. apply wp_elim in IH as ([rs' m2] & -> & -> & Hr2). done.
Qed.

(** C13: Any sequence of calls on an empty index map returns what the same
    operations on an ordered list of pairs return, and leaves a map that iterates
    over that list; it panics exactly where the list says, for an index or a
    range out of bounds.  The hashes of the keys, collisions and the strategies
    for large and small shifts never show.  The calls are granted: the room that
    they ask for ([with_capacity], [Reserve], the hint of [Extend], the parts of
    [Splice] and [SplitOff]) is at most what can be allocated, as a larger request
    panics, and [SortBy] compares by a total preorder, as the standard sort leaves
    the order open for any other and may panic. *)
Theorem index_map_runs (os : list (op K V Q)) (n : nat) : (Z.of_nat n <= most)%Z -> all_granted os [] ->
  wp (core_with_capacity n) (fun m0 : Core K V => match spec_ops os [] with
  | Some (rs, l) => wp (run_ops os m0) (fun '(rs', m) => rs' = rs /\ key_value <$> entries m = l)
  | None => run_ops os m0 = None
  end).
Proof.
  intros Hn Hg. eapply wp_mono; [by apply rep_with_capacity|]. intros m0 H0.
  pose proof (run_ops_rep os m0 [] H0 Hg) as Hr. destruct (spec_ops os []) as [[rs l]|]; [|done].
  eapply wp_mono; [exact Hr|]. intros [rs' m] [-> Hm]. split; [done|]. by rewrite (rep_entries _ _ Hm), key_value_stored.
Qed.

(** C16: Looking a key up, by any query, gives the pair of the list that it
    selects, with its index, whatever the hashes: [None] if there is none.  It
    does not panic. *)
Theorem index_map_lookup m l (q : Q) : rep m l ->
  get_full m q = Some (i ← pos (query_eq q) l; (fun kv => (i, kv.1, kv.2)) <$> l !! i) /\
  get m q = Some (i ← pos (query_eq q) l; snd <$> l !! i) /\
  contains_key m q = Some (bool_decide (Exists (fun kv => query_eq q kv.1 = true) l)) /\
  forall i, get_index m i = l !! i.
Proof.
  intros Hr. pose proof Hr as [[Hw He] Hd]. unfold get_full, get, contains_key, get_index. rewrite (get_index_of_rep m l q Hr), !some_bind, He. cbv beta.
  split_and!; [| | |intros i; rewrite list_lookup_fmap; destruct (l !! i) as [[k v]|]; done].
  1,2: destruct (pos_located (query_eq q) l _ Hd (selects_query q)) as [a k v z -> Hp Hn|Hn]; [|done];
    rewrite list_lookup_fmap, lookup_here; by rewrite some_bind, lookup_here.
  destruct (pos_located (query_eq q) l _ Hd (selects_query q)) as [a k v z -> Hp Hn|Hn]; f_equal; symmetry.
  - apply bool_decide_eq_true. apply Exists_app. right. by constructor.
  - apply bool_decide_eq_false. intros (kv & Hin & Hq)%Exists_exists. apply Hn in Hin. by rewrite Hin in Hq.
Qed.
End Calls.
End Theorems.

(** ** On integers whose hashes collide *)

Section Examples.
Import MapTable SmallKeys InsertionSort.
#[local] Open Scope Z_scope.

Definition calls : list (op Z Z Z) :=
  [InsertFull 1 10; InsertFull 5 50; InsertFull 9 90; InsertFull 5 51; InsertBefore 0 13 130; MoveIndex 0 2; Remove true 1; SwapIndices 0 1; Drain (Included 2, Unbounded);
   ReplaceIndex 0 5; ReplaceIndex 0 1; Splice (Included 1, Included 1) [(1, 11); (2, 20)];
   SortBy (fun x y => y.1 <=? x.1); Reserve 1000].

Lemma index_map_runs_witness : wp (m ← core_with_capacity 100; run_ops calls m) (fun '(rs, m) =>
  rs = [Index 0 None; Index 1 None; Index 2 None; Index 1 (Some 50); Index 0 None; Unit; Found (Some (0%nat, 1, 10)); Unit; Pairs [(13, 130)];
    Replaced (Ok 5); Replaced (Ok 5); Pairs [(9, 90)]; Unit; Unit] /\
  key_value <$> entries m = [(2, 20); (1, 11)]).
Proof.
  assert (E : spec_ops calls [] = Some ([Index 0 None; Index 1 None; Index 2 None; Index 1 (Some 50); Index 0 None; Unit; Found (Some (0%nat, 1, 10)); Unit; Pairs [(13, 130)];
    Replaced (Ok 5); Replaced (Ok 5); Pairs [(9, 90)]; Unit; Unit], [(2, 20); (1, 11)])) by (vm_compute; reflexivity).
  assert (G : all_granted calls []).
  { cbn -[Z.of_nat most]. repeat split; try done; intros x y; [lia|]. intros z Hxy Hyz. lia. }
  assert (Hn : Z.of_nat 100 <= @most map_hash_table map_hash_table_laws) by (vm_compute; discriminate).
  pose proof (index_map_runs calls 100 Hn G) as Hr. rewrite E in Hr. apply wp_bind. exact Hr.
Defined.

Lemma small_distinct (ks : list Z) : NoDup ks -> distinct ks.
Proof.
  intros Hn. induction ks as [|k ks IH]; [done|]. apply NoDup_cons in Hn as [Hk Hn]. split; [|by apply IH]. intros k' Hk'. apply Z.eqb_neq. by intros ->.
Qed.

Lemma small_map (l : list (Z * Z)) : NoDup l.*1 -> exists m : Core Z Z, rep m l.
Proof.
  intros Hn%small_distinct. pose proof (from_iter_rep 0 l Hn (proj1 most_entries)) as Hm. apply wp_elim in Hm as (m & _ & Hm). by exists m.
Qed.

Lemma index_map_lookup_witness : exists m : Core Z Z, rep m [(1, 10); (5, 50); (9, 90)] /\ get_full m 5 = Some (Some (1%nat, 5, 50)) /\ get m 13 = Some None.
Proof.
  destruct (small_map [(1, 10); (5, 50); (9, 90)]) as [m Hm]; [vm_compute; repeat constructor; set_solver|]. exists m. split; [done|].
  split; [exact (proj1 (index_map_lookup m _ 5 Hm))|exact (proj1 (proj2 (index_map_lookup m _ 13 Hm)))].
Defined.
End Examples.

(** ** Equality *)

Section Equality.
Context {HT : HashTable} {HL : HashTableLaws} {K V V' : Type} {HK : Keys K} {HKL : KeysLaws K}.
Implicit Types (l : list (K * V)) (r : list (K * V')).
Variable veq : V -> V' -> bool.

Definition matched r (kv : K * V) : bool :=
  match (i ← pos (key_eq kv.1) r; snd <$> r !! i) with Some v' => veq kv.2 v' | None => false end.

Definition same (kv : K * V) (kv' : K * V') : Prop := key_eq kv.1 kv'.1 = true /\ veq kv.2 kv'.2 = true.

Lemma all_in_spec (get_other : K -> option (option V')) r l : (forall k, get_other k = Some (i ← pos (key_eq k) r; snd <$> r !! i)) ->
  all_in veq get_other l = Some (forallb (matched r) l).
Proof.
  intros Hg. induction l as [|[k v] l IH]; [done|]. cbn [all_in forallb]. rewrite Hg, some_bind. unfold matched at 1. simpl fst. simpl snd.
  destruct (pos (key_eq k) r ≫= _) as [v'|]; [|done]. destruct (veq v v'); [exact IH|done].
Qed.

Lemma matched_split r kv : distinct r.*1 -> matched r kv = true <-> exists a kv' z, r = a ++ kv' :: z /\ same kv kv'.
Proof.
  intros Hd. unfold matched. destruct (pos_located (key_eq kv.1) r _ Hd (selects_key kv.1)) as [a k v z -> Hp Hn|Hn].
  - rewrite some_bind, lookup_here. simpl. split.
    + intros Hv. by exists a, (k, v), z.
    + intros (a' & [k' v'] & z' & Heq & Hk & Hv). simpl in *. assert (Hin : (k', v') ∈ a ++ (k, v) :: z) by (rewrite Heq; apply elem_of_app; right; constructor).
      rewrite elem_of_app, elem_of_cons in Hin. destruct Hin as [Hin|[Hin|Hin]]; [|by simplify_eq|].
      * assert (Hf : key_eq kv.1 (k', v').1 = false) by (apply Hn, elem_of_app; by left). simpl in Hf. congruence.
      * assert (Hf : key_eq kv.1 (k', v').1 = false) by (apply Hn, elem_of_app; by right). simpl in Hf. congruence.
  - simpl. split; [done|]. intros (a & kv' & z & -> & Hk & _). rewrite Hn in Hk; [done|]. apply elem_of_app. right. constructor.
Qed.

Lemma matched_all l r : distinct l.*1 -> distinct r.*1 -> length l = length r ->
  forallb (matched r) l = true <-> exists r', r' ≡ₚ r /\ Forall2 same l r'.
Proof.
  intros Hl Hr Hlen. split.
  - revert r Hr Hlen. induction l as [|kv l IH]; intros r Hr Hlen; [intros _; destruct r; [by exists []|done]|]. cbn [forallb]. rewrite andb_true_iff.
    intros [(a & kv' & z & -> & Hs)%matched_split Hall]; [|done]. destruct Hl as [Hkv Hl]. pose proof Hr as Hr'. rewrite fmap_app, fmap_cons in Hr'.
    apply distinct_middle in Hr' as [_ Hr']. rewrite <- fmap_app in Hr'. rewrite length_app in Hlen. simpl in Hlen.
    destruct (IH Hl (a ++ z) Hr') as (r' & Hp & Hf); [rewrite length_app; lia| |].
    + apply forallb_forall. intros x Hx. rewrite forallb_forall in Hall. specialize (Hall x Hx). apply matched_split in Hall as (a' & x' & z' & Heq & Hx'); [|done].
      apply matched_split; [done|]. assert (Hin : x' ∈ a ++ kv' :: z) by (rewrite Heq; apply elem_of_app; right; constructor).
      rewrite elem_of_app, elem_of_cons in Hin. assert (Hne : x' <> kv').
      { intros ->. destruct Hs as [Hs _], Hx' as [Hx' _]. apply list_elem_of_In, (list_elem_of_fmap_2 fst) in Hx.
        pose proof (Hkv _ Hx) as Hf. rewrite key_eq_sym in Hs. rewrite key_eq_sym in Hx'. rewrite (key_eq_trans kv'.1 kv.1 x.1 Hs) in Hx'. congruence. }
      assert (Hin' : x' ∈ a ++ z) by (rewrite elem_of_app; tauto). apply list_elem_of_split in Hin' as (a2 & z2 & ->). by exists a2, x', z2.
    + exists (kv' :: r'). split; [by rewrite Hp, Permutation_middle|by constructor].
  - intros (r' & Hp & Hf). apply forallb_forall. intros x Hx%list_elem_of_In. apply matched_split; [done|].
    apply list_elem_of_lookup in Hx as [i Hi]. destruct (Forall2_lookup_l _ _ _ _ _ Hf Hi) as (x' & Hi' & Hs).
    assert (Hin : x' ∈ r) by (rewrite <- Hp; by eapply list_elem_of_lookup_2). apply list_elem_of_split in Hin as (a & z & ->). by exists a, x', z.
Qed.

(** Both maps have keys of one type, with one equality, and each its hasher. *)
Context (HK' : Keys K) {HKL' : @KeysLaws K HK'}.
Hypothesis same_eq : forall k k', @key_eq K HK' k k' = @key_eq K HK k k'.

Lemma distinct_same (ks : list K) : @distinct K HK' ks -> @distinct K HK ks.
Proof. induction ks as [|k ks IH]; [done|]. intros [H1 H2]. split; [|by apply IH]. intros k' Hk'. rewrite <- same_eq. by apply H1. Qed.

Lemma pos_same (k : K) r : pos (@key_eq K HK' k) r = pos (@key_eq K HK k) r.
Proof. unfold pos. induction r as [|[k' v'] r IH]; [done|]. simpl. rewrite same_eq, IH. done. Qed.

(** The other map finds a key by the hash that its own hasher gives. *)
Lemma get_other (m' : Core K V') r (k : K) : @rep HT HL K V' HK' m' r ->
  get (HQ := key_query (Keys0 := HK')) m' k = Some (i ← pos (@key_eq K HK k) r; snd <$> r !! i).
Proof.
  intros Hm'. rewrite <- pos_same. unfold get. rewrite (get_index_of_rep (HK := HK') m' r k Hm'), some_bind. cbv beta.
  change (query_eq k) with (@key_eq K HK' k). destruct (pos (@key_eq K HK' k) r) as [i|] eqn:E; [|done].
  rewrite (rep_entries (HK := HK') m' r Hm'), list_lookup_fmap, some_bind. destruct (r !! i) as [[k' v']|] eqn:Ei; [done|]. exfalso.
  destruct (pos_located (HK := HK') (@key_eq K HK' k) r _ (proj2 Hm') (selects_key (HK := HK') k)) as [a k0 v0 z -> _ _|_]; simplify_eq. by rewrite lookup_here in Ei.
Qed.

(** C15: Two index maps, with keys of one type and each with a hasher of its own,
    are equal exactly when their pairs are the same up to their order, by [Eq] on
    keys and on values; the lookups never panic. *)
Theorem index_map_eq (m : Core K V) (m' : Core K V') l r : @rep HT HL K V HK m l -> @rep HT HL K V' HK' m' r ->
  exists b, map_eq (HK := HK) (HK' := HK') veq m m' = Some b /\ (b = true <-> exists r', r' ≡ₚ r /\ Forall2 same l r').
Proof.
  intros Hm Hm'. unfold map_eq. rewrite (map_len_rep (HK := HK) m l Hm), some_bind, (map_len_rep (HK := HK') m' r Hm'), some_bind. cbv beta.
  destruct (Nat.eqb_spec (length l) (length r)) as [Hlen|Hlen]; simpl negb; cbv iota.
  - exists (forallb (matched r) l). rewrite (rep_entries (HK := HK) m l Hm), key_value_stored.
    split; [apply all_in_spec; intros k; by apply get_other|apply matched_all; [apply Hm|apply distinct_same, Hm'|done]].
  - exists false. split; [done|]. split; [done|]. intros (r' & Hp & Hf). apply Forall2_length in Hf. by rewrite Hf, Hp in Hlen.
Qed.
End Equality.

Section EqualityExample.
Import MapTable SmallKeys.
#[local] Open Scope Z_scope.

(** Another hasher of integers. *)
Definition other_keys : Keys Z := {| key_hash k := k / 3; key_eq := Z.eqb |}.

Lemma other_keys_laws : @KeysLaws Z other_keys.
Proof.
  split; cbn.
  - apply Z.eqb_refl.
  - apply Z.eqb_sym.
  - intros k k' k'' ->%Z.eqb_eq. done.
  - by intros k k' ->%Z.eqb_eq.
Qed.

Lemma index_map_eq_witness : exists m m' : Core Z Z, rep m [(1, 10); (5, 50)] /\ rep (HK := other_keys) m' [(5, 50); (1, 10)] /\
  map_eq (HK' := other_keys) Z.eqb m m' = Some true.
Proof.
  destruct (small_map [(1, 10); (5, 50)]) as [m Hm]; [repeat constructor; set_solver|].
  assert (Hd : distinct (HK := other_keys) ([(5, 50); (1, 10)] : list (Z * Z)).*1) by exact (small_distinct [5; 1] ltac:(repeat constructor; set_solver)).
  pose proof (from_iter_rep (HK := other_keys) (HKL := other_keys_laws) 0 _ Hd (proj1 most_entries)) as Hm'. apply wp_elim in Hm' as (m' & _ & Hm').
  exists m, m'. split; [done|]. split; [done|].
  destruct (index_map_eq (HK := small_keys) Z.eqb other_keys (HKL' := other_keys_laws) (fun _ _ => eq_refl) m m' _ _ Hm Hm') as (b & -> & Hb). rewrite (proj2 Hb); [done|]. exists [(1, 10); (5, 50)].
  split; [apply Permutation_swap|]. repeat constructor.
Defined.
End EqualityExample.
