(* ===== verification/IndexMapExtract.v ===== *)
(** * indexmap: extracting entries in place

    src/indexmap/src/inner/extract.rs: the iterator that moves the selected
    entries of a range out of the vector through raw pointers, and whose drop
    closes the gap.  A place of the vector holds an entry or has been moved out
    of; reading a place that holds none is undefined behaviour, [None] here, as
    is a vector whose length covers such a place. *)
From Stdlib Require Import ZArith Lia.
From stdpp Require Import base list gmap numbers option.
From S2P Require Import Prelude HashTable IndexMapCore IndexMapInv IndexMapOps IndexMapEdit IndexMap IndexMapSpec IndexMapRep IndexMapTheorems.
From stdpp Require Import list.
Import Inner IndexMap.

Module Extract.

Section Extract.
Context {HT : HashTable} {K V : Type}.

(** The map's table and the places of its vector; the iterator's positions. *)
Record ExtractCore := { table_ : table; places : list (option (Bucket K V)); new_len : nat; current : nat; end_ : nat }.

Definition extract (c : Core K V) (range : Bound * Bound) : option ExtractCore :=
  '(start, end_) ← simplify_range range (length (entries c));
  _ ← rassert (length (entries c) =? len (indices c))%nat;
  Some {| table_ := indices c; places := Some <$> entries c; new_len := start; current := start; end_ := end_ |}.

Definition read (ps : list (option (Bucket K V))) (i : nat) : option (Bucket K V) := p ← ps !! i; p.

(** [extract_if], with a predicate that may change the value; the closure of
    [ExtractIf] takes a bucket apart.  [fuel] is the number of places left. *)
Fixpoint extract_if (fuel : nat) (pred : K -> V -> bool * V) (self : ExtractCore) : option (option (Bucket K V) * ExtractCore) :=
  if (current self <? end_ self)%nat then
    match fuel with
    | O => None
    | S fuel =>
        item ← read (places self) (current self);
        let '(b, v) := pred (key item) (value item) in
        let item := {| hash := hash item; key := key item; value := v |} in
        if b : bool then
          ps ← upd (places self) (current self) None;
          Some (Some item, {| table_ := table_ self; places := ps; new_len := new_len self; current := current self + 1; end_ := end_ self |})
        else
          ps ← (if negb (new_len self =? current self)%nat then
                  _ ← rassert (new_len self <? current self)%nat;
                  ps ← upd (places self) (current self) None;
                  upd ps (new_len self) (Some item)
                else upd (places self) (current self) (Some item));
          extract_if fuel pred {| table_ := table_ self; places := ps; new_len := new_len self + 1; current := current self + 1; end_ := end_ self |}
    end
  else Some (None, self).

Definition remaining (self : ExtractCore) : option nat := sub (end_ self) (current self).

(** [src.copy_to(dest, n)]: the places of the source are moved. *)
Definition copy_to {A} (ps : list (option A)) (src dest n : nat) : option (list (option A)) :=
  s ← slice ps src (src + n);
  s ← mapM id s;
  ps ← copy_at ps src (replicate n None);
  copy_at ps dest (Some <$> s).

Definition drop_ (self : ExtractCore) : option (Core K V) :=
  let old_len := len (table_ self) in
  _ ← rassert (new_len self <=? current self)%nat;
  _ ← rassert (current self <=? end_ self)%nat;
  _ ← rassert (current self <=? old_len)%nat;
  '(new_len, ps) ← (
    if (new_len self =? current self)%nat then Some (old_len, places self)
    else if (current self <? old_len)%nat then
      tail_len ← sub old_len (current self);
      ps ← copy_to (places self) (current self) (new_len self) tail_len;
      Some ((new_len self + tail_len)%nat, ps)
    else Some (new_len self, places self));
  ps ← slice ps 0 new_len;
  es ← mapM id ps;
  let c := {| indices := table_ self; entries := es |} in
  if negb (new_len =? old_len)%nat then rebuild_hash_table c else Some c.

(** The caller takes [n] items, or all of them, and drops the iterator. *)
Fixpoint take_items (n : nat) (pred : K -> V -> bool * V) (self : ExtractCore) : option (list (K * V) * ExtractCore) :=
  match n with
  | O => Some ([], self)
  | S n =>
      fuel ← remaining self;
      '(item, self) ← extract_if fuel pred self;
      match item with
      | Some item => '(items, self) ← take_items n pred self; Some (key_value item :: items, self)
      | None => Some ([], self)
      end
  end.

Definition extract_run (c : Core K V) (range : Bound * Bound) (pred : K -> V -> bool * V) (n : nat) : option (list (K * V) * Core K V) :=
  self ← extract c range;
  '(items, self) ← take_items n pred self;
  c ← drop_ self;
  Some (items, c).

(** ** On a list *)

(** The items taken, until there are [n], and what is kept. *)
Fixpoint spec_extract (pred : K -> V -> bool * V) (n : nat) (l : list (K * V)) : list (K * V) * list (K * V) :=
  match n, l with
  | O, _ | _, [] => ([], l)
  | S n', (k, v) :: l' =>
      let '(b, v) := pred k v in
      if b then let '(taken, kept) := spec_extract pred n' l' in ((k, v) :: taken, kept)
      else let '(taken, kept) := spec_extract pred n l' in (taken, (k, v) :: kept)
  end.

Definition spec_extract_run (l : list (K * V)) (range : Bound * Bound) (pred : K -> V -> bool * V) (n : nat) : option (list (K * V) * list (K * V)) :=
  '(start, end_) ← simplify_range range (length l);
  let '(taken, kept) := spec_extract pred n (take (end_ - start) (drop start l)) in
  Some (taken, take start l ++ kept ++ drop end_ l).
End Extract.
#[global] Arguments ExtractCore {HT} K V.

Section Proofs.
Context {HT : HashTable} {HL : HashTableLaws} {K V : Type} {HK : Keys K} {HKL : KeysLaws K}.
Implicit Types (l a kept s z : list (K * V)) (self : ExtractCore K V).

(** The places: the entries kept so far, a gap, the entries of the range to
    come, and the rest.  Without a gap the keys are those at the start. *)
Record holds (t : table) (ks : list K) (a kept s z : list (K * V)) (gap : nat) self : Prop := {
  h_table : table_ self = t;
  h_places : places self = (Some ∘ stored <$> (a ++ kept)) ++ replicate gap None ++ (Some ∘ stored <$> (s ++ z));
  h_new_len : new_len self = length (a ++ kept);
  h_current : current self = (length (a ++ kept) + gap)%nat;
  h_end : end_ self = (length (a ++ kept) + gap + length s)%nat;
  h_len : len t = (length (a ++ kept) + gap + length (s ++ z))%nat;
  h_keys : gap = 0%nat -> (a ++ kept ++ s ++ z).*1 = ks;
}.

Lemma read_current t ks a kept s z gap self kv : holds t ks a kept (kv :: s) z gap self -> read (places self) (current self) = Some (stored kv).
Proof.
  intros [_ Hp _ Hc _ _ _]. unfold read. rewrite Hp, Hc. rewrite lookup_app_r by (rewrite length_fmap; lia).
  rewrite length_fmap, lookup_app_r by (rewrite length_replicate; lia). rewrite length_replicate.
  by replace (length (a ++ kept) + gap - length (a ++ kept) - gap)%nat with 0%nat by lia.
Qed.

Lemma gap_snoc {A} n (x : A) (l : list A) : replicate n x ++ x :: l = x :: replicate n x ++ l.
Proof. induction n as [|n IH]; [done|]. simpl. by rewrite IH. Qed.

Lemma upd_at {A} (x z : list A) (y y' : A) i : i = length x -> upd (x ++ y :: z) i y' = Some (x ++ y' :: z).
Proof. intros ->. apply upd_middle. Qed.

(** The item at [current] is moved out, or kept at [new_len]. *)
Lemma place_out t ks a kept s z gap self kv : holds t ks a kept (kv :: s) z gap self -> exists ps, upd (places self) (current self) None = Some ps /\
  holds t ks a kept s z (S gap) {| table_ := table_ self; places := ps; new_len := new_len self; current := current self + 1; end_ := end_ self |}.
Proof.
  intros [Ht Hp Hn Hc He Hlen Hk]. eexists. split.
  - rewrite Hp, app_assoc. cbn [app fmap list_fmap]. apply upd_at. by rewrite length_app, length_fmap, length_replicate.
  - split; simpl; [done| |done|lia|simpl in He; lia|simpl in Hlen; lia|done]. rewrite <- app_assoc. f_equal. apply gap_snoc.
Qed.

Lemma place_kept t ks a kept s z gap self k v v' : holds t ks a kept ((k, v) :: s) z gap self -> exists ps,
  (if negb (new_len self =? current self)%nat then
     _ ← rassert (new_len self <? current self)%nat;
     ps ← upd (places self) (current self) None;
     upd ps (new_len self) (Some (stored (k, v')))
   else upd (places self) (current self) (Some (stored (k, v')))) = Some ps /\
  holds t ks a (kept ++ [(k, v')]) s z gap {| table_ := table_ self; places := ps; new_len := new_len self + 1; current := current self + 1; end_ := end_ self |}.
Proof.
  intros [Ht Hp Hn Hc He Hlen Hk]. assert (Hl : length (a ++ kept ++ [(k, v')]) = (length (a ++ kept) + 1)%nat) by (rewrite !length_app; simpl; lia).
  destruct gap as [|gap].
  - rewrite Hn, Hc, Nat.add_0_r, Nat.eqb_refl. simpl negb. cbv iota. eexists. split.
    + rewrite Hp. cbn [app replicate fmap list_fmap]. apply upd_at. by rewrite length_fmap.
    + split; simpl; [done| |rewrite Hl; lia|rewrite Hl; lia|rewrite Hl; simpl in He; lia|rewrite Hl; simpl in Hlen; lia|intros Hg; rewrite <- (Hk Hg), <- !app_assoc, !fmap_app; done].
      by rewrite (app_assoc a kept), (fmap_app _ (a ++ kept)), <- app_assoc.
  - rewrite (proj2 (Nat.eqb_neq _ _)) by lia. rewrite (proj2 (Nat.ltb_lt _ _)) by lia. cbn [negb rassert]. rewrite some_bind.
    eexists. split.
    + rewrite Hp, app_assoc. cbn [fmap list_fmap app]. erewrite upd_at by (by rewrite length_app, length_fmap, length_replicate). rewrite some_bind.
      rewrite <- app_assoc. cbn [replicate app]. apply upd_at. by rewrite length_fmap.
    + split; simpl; [done| |rewrite Hl; lia|rewrite Hl; lia|rewrite Hl; simpl in He; lia|rewrite Hl; simpl in Hlen; lia|intros Hg; rewrite <- (Hk Hg), <- !app_assoc, !fmap_app; done].
      rewrite (app_assoc a kept), (fmap_app _ (a ++ kept)), <- app_assoc. simpl. do 2 f_equal. apply gap_snoc.
Qed.

(** The loop up to the next item. *)
Lemma extract_if_spec t ks a kept s z gap self pred fuel : holds t ks a kept s z gap self -> (length s <= fuel)%nat ->
  wp (extract_if fuel pred self) (fun '(item, self') => exists kept' s' gap', holds t ks a (kept ++ kept') s' z gap' self' /\
    match item with
    | Some e => forall n, spec_extract pred (S n) s = (key_value e :: (spec_extract pred n s').1, kept' ++ (spec_extract pred n s').2)
    | None => s' = [] /\ forall n, spec_extract pred (S n) s = ([], kept')
    end).
Proof.
  revert kept gap self fuel. induction s as [|[k v] s IH]; intros kept gap self fuel Hh Hf.
  - assert (Hlt : (current self <? end_ self)%nat = false) by (apply Nat.ltb_ge; destruct Hh; simpl in *; lia).
    assert (Hx : extract_if fuel pred self = Some (None, self)) by (destruct fuel; cbn [extract_if]; by rewrite Hlt). rewrite Hx.
    exists [], [], gap. rewrite app_nil_r. done.
  - destruct fuel as [|fuel]; [simpl in Hf; lia|]. simpl in Hf. assert (Hlt : (current self <? end_ self)%nat = true) by (apply Nat.ltb_lt; destruct Hh; simpl in *; lia).
    cbn [extract_if]. rewrite Hlt, (read_current _ _ _ _ _ _ _ _ _ Hh), some_bind. cbn [stored key value hash fst snd]. destruct (pred k v) as [b v'] eqn:Hpred.
    change {| hash := key_hash k; key := k; value := v' |} with (stored (k, v')). destruct b.
    + destruct (place_out _ _ _ _ _ _ _ _ _ Hh) as (ps & -> & Hh'). rewrite some_bind. simpl. exists [], s, (S gap). rewrite app_nil_r. split; [done|].
      intros n. rewrite Hpred. by destruct (spec_extract pred n s).
    + destruct (place_kept _ _ _ _ _ _ _ _ _ _ v' Hh) as (ps & -> & Hh'). rewrite some_bind. eapply wp_mono; [apply (IH _ _ _ fuel Hh'); lia|].
      intros [item self'] (kept' & s' & gap' & Hh'' & Hsp). exists ((k, v') :: kept'), s', gap'. rewrite <- app_assoc in Hh''. split; [done|].
      destruct item as [e|]; [intros n; specialize (Hsp n)|destruct Hsp as [-> Hsp]; split; [done|]; intros n; specialize (Hsp n)];
        cbn [spec_extract] in *; rewrite Hpred; by rewrite Hsp.
Qed.

Lemma take_items_spec t ks a kept s z gap self pred n : holds t ks a kept s z gap self ->
  wp (take_items n pred self) (fun '(items, self') => exists kept' s' gap', holds t ks a (kept ++ kept') s' z gap' self' /\
    spec_extract pred n s = (items, kept' ++ s')).
Proof.
  revert kept s gap self. induction n as [|n IH]; intros kept s gap self Hh.
  - exists [], s, gap. rewrite app_nil_r. by destruct s.
  - cbn [take_items]. assert (Hrem : remaining self = Some (length s)).
    { unfold remaining, sub. destruct Hh as [_ _ _ Hc He _ _]. rewrite (proj2 (Nat.leb_le _ _)) by lia. simpl. f_equal. lia. }
    rewrite Hrem, some_bind. apply wp_bind. eapply wp_mono; [by apply (extract_if_spec _ _ _ _ _ _ _ _ pred _ Hh)|].
    intros [item self'] (kept' & s' & gap' & Hh' & Hsp). destruct item as [e|].
    + apply wp_bind. eapply wp_mono; [apply (IH _ _ _ _ Hh')|]. intros [items self''] (kept'' & s'' & gap'' & Hh'' & Hsp'). simpl.
      exists (kept' ++ kept''), s'', gap''. rewrite app_assoc. split; [done|]. rewrite Hsp, Hsp'. simpl. by rewrite app_assoc.
    + destruct Hsp as [-> Hsp]. simpl. exists kept', [], gap'. rewrite app_nil_r. by rewrite Hsp.
Qed.

Lemma mapM_places l : mapM id (Some ∘ stored <$> l) = Some (stored <$> l).
Proof. induction l as [|kv l IH]; [done|]. rewrite fmap_cons. cbn [mapM]. by rewrite IH. Qed.

Lemma slice_whole {A} (l z : list A) n : n = length l -> slice (l ++ z) 0 n = Some l.
Proof. intros ->. exact (slice_app [] l z). Qed.

Lemma copy_at_within {A} (dst : list A) lo (src : list A) : (lo + length src <= length dst)%nat ->
  copy_at dst lo src = Some (take lo dst ++ src ++ drop (lo + length src) dst).
Proof. intros Hl. unfold copy_at. by rewrite decide_True. Qed.

(** The gap is closed: the entries after it move down. *)
Lemma close_gap (x y : list (K * V)) gap : (0 < gap)%nat -> exists ps,
  copy_to ((Some ∘ stored <$> x) ++ replicate gap None ++ (Some ∘ stored <$> y)) (length x + gap) (length x) (length y) = Some ps /\
  slice ps 0 (length x + length y) = Some (Some ∘ stored <$> x ++ y).
Proof.
  intros Hg. unfold copy_to. set (X := Some ∘ stored <$> x). set (Y := Some ∘ stored <$> y).
  assert (HX : length X = length x) by apply length_fmap. assert (HY : length Y = length y) by apply length_fmap.
  assert (Hs : slice (X ++ replicate gap None ++ Y) (length x + gap) (length x + gap + length y) = Some Y).
  { pose proof (slice_app (X ++ replicate gap None) Y []) as E. rewrite app_nil_r, <- app_assoc, length_app, HX, length_replicate, HY in E. exact E. }
  assert (HmY : mapM id Y = Some (stored <$> y)) by apply mapM_places.
  rewrite Hs, some_bind. cbv beta. rewrite HmY, some_bind. cbv beta. rewrite <- list_fmap_compose. fold Y.
  rewrite (copy_at_within (X ++ _)) by (rewrite !length_app, !length_replicate, HX, HY; lia). rewrite some_bind, length_replicate.
  set (P := take (length x + gap) (X ++ replicate gap None ++ Y) ++ _).
  assert (HP : P = X ++ replicate (gap + length y) None).
  { subst P. rewrite (app_assoc X). replace (length x + gap)%nat with (length (X ++ replicate gap (@None (Bucket K V)))) by (by rewrite length_app, length_replicate, HX).
    rewrite take_app_length, drop_ge by (rewrite !length_app, length_replicate, HX, HY; lia). by rewrite app_nil_r, <- app_assoc, <- replicate_add. }
  rewrite HP, copy_at_within by (rewrite length_app, length_replicate, HX, HY; lia). eexists. split; [done|].
  rewrite <- HX at 1. rewrite take_app_length, fmap_app, app_assoc. apply slice_whole. fold X Y. by rewrite length_app, HX, HY.
Qed.

Lemma drop_spec t ks a kept s z gap self l0 : holds t ks a kept s z gap self -> items t ≡ₚ numbered 0 (stored <$> l0) -> ks = l0.*1 ->
  wp (drop_ self) (fun c => has c (stored <$> (a ++ kept ++ s ++ z))).
Proof.
  intros [Ht Hp Hn Hc He Hlen Hk] Hi Hks. unfold drop_. rewrite Ht. cbv zeta.
  assert (Hsz : (length s <= length (s ++ z))%nat) by (rewrite length_app; lia).
  apply wp_bind, wp_assert; [apply Nat.leb_le; lia|]. apply wp_bind, wp_assert; [apply Nat.leb_le; lia|]. apply wp_bind, wp_assert; [apply Nat.leb_le; lia|].
  assert (Hall : exists nl ps, (if (new_len self =? current self)%nat then Some (len t, places self)
    else if (current self <? len t)%nat then
      tail_len ← sub (len t) (current self);
      ps ← copy_to (places self) (current self) (new_len self) tail_len;
      Some ((new_len self + tail_len)%nat, ps)
    else Some (new_len self, places self)) = Some (nl, ps) /\ nl = (length (a ++ kept) + length (s ++ z))%nat /\
    slice ps 0 nl = Some (Some ∘ stored <$> (a ++ kept) ++ s ++ z)).
  { rewrite Hp, Hc, Hn. destruct gap as [|gap].
    - rewrite Nat.add_0_r, Nat.eqb_refl. eexists _, _. split; [done|]. split; [lia|]. cbn [replicate app]. rewrite <- fmap_app.
      rewrite <- (app_nil_r (Some ∘ stored <$> _)) at 1. apply slice_whole. rewrite length_fmap, length_app. lia.
    - rewrite (proj2 (Nat.eqb_neq _ _)) by lia. destruct (Nat.ltb_spec (length (a ++ kept) + S gap) (len t)) as [Hlt|Hge].
      + unfold sub. rewrite (proj2 (Nat.leb_le _ _)) by lia. cbn [rassert]. rewrite !some_bind.
        replace (len t - (length (a ++ kept) + S gap))%nat with (length (s ++ z)) by lia.
        destruct (close_gap (a ++ kept) (s ++ z) (S gap)) as (ps & -> & Hsl); [lia|]. rewrite some_bind. eexists _, _. done.
      + assert (Hnil : s ++ z = []) by (apply nil_length_inv; lia). rewrite Hnil. eexists _, _. split; [done|]. split; [simpl; lia|].
        rewrite (app_nil_r (a ++ kept)). apply slice_whole. by rewrite length_fmap. }
  destruct Hall as (nl & ps & -> & -> & Hsl). rewrite some_bind. cbv beta iota. rewrite Hsl, some_bind. cbv beta. rewrite mapM_places, some_bind. cbv beta zeta.
  rewrite <- app_assoc. destruct (Nat.eqb_spec (length (a ++ kept) + length (s ++ z)) (len t)) as [Hnl|Hnl]; cbn [negb].
  - assert (Hg : gap = 0%nat) by lia. simpl. split; [|done]. unfold wf. simpl. rewrite Hi. apply Permutation_refl', numbered_same.
    rewrite <- !list_fmap_compose. change (hash ∘ stored) with (fun kv : K * V => key_hash kv.1). specialize (Hk Hg). rewrite Hks in Hk.
    transitivity (key_hash <$> (a ++ kept ++ s ++ z).*1); [by rewrite Hk, <- list_fmap_compose|by rewrite <- list_fmap_compose].
  - apply rebuild_spec. pose proof (len_capacity t). rewrite length_fmap, app_assoc, length_app. lia.
Qed.

Lemma spec_extract_keys pred n l : let r := spec_extract pred n l in r.1.*1 ++ r.2.*1 ≡ₚ l.*1.
Proof.
  revert n. induction l as [|[k v] l IH]; intros n; [by destruct n|]. destruct n as [|n]; [done|]. cbn [spec_extract]. destruct (pred k v) as [b v'].
  destruct b; [specialize (IH n); destruct (spec_extract pred n l) as [tk kp]|specialize (IH (S n)); destruct (spec_extract pred (S n) l) as [tk kp]]; simpl in *.
  - by rewrite IH.
  - by rewrite <- Permutation_middle, IH.
Qed.

(** C14: Extracting by [extract_if] over a range, for any number of items taken
    before the iterator is dropped, yields the selected pairs in order and
    leaves the others in order, those after the last item taken untouched, in a
    map whose table agrees.  No place is read after it was moved out of, and
    the vector never covers one; a bad range panics. *)
Theorem extract_if_correct (c : Core K V) l range pred n : rep c l ->
  match spec_extract_run l range pred n with
  | Some (items, l') => wp (extract_run c range pred n) (fun r => r.1 = items /\ rep r.2 l')
  | None => extract_run c range pred n = None
  end.
Proof.
  intros Hr. pose proof Hr as [[Hw He] Hd]. unfold spec_extract_run, extract_run.
  assert (Hx : extract c range = '(start, en) ← simplify_range range (length l);
    Some {| table_ := indices c; places := Some <$> (stored <$> l); new_len := start; current := start; end_ := en |}).
  { unfold extract. rewrite (wf_len c Hw), He, length_fmap, Nat.eqb_refl. done. }
  rewrite Hx. clear Hx. destruct (simplify_range range (length l)) as [[start en]|] eqn:Hrange; [|done]. rewrite !some_bind.
  destruct (try_simplify_range_spec _ _ _ _ Hrange) as [H1 H2]. destruct (cut_range l start en) as (a & s & z & Hl & Ha & Hs & Ht & Hdr & Htd); [done..|].
  rewrite Ht, Hdr, Htd. set (self := {| table_ := _; places := _; new_len := _; current := _; end_ := _ |}).
  assert (Hh : holds (indices c) l.*1 a [] s z 0 self).
  { split; simpl; rewrite ?app_nil_r; [done| |lia|lia|lia| |by rewrite Hl].
    - rewrite <- list_fmap_compose. cbn [replicate app]. by rewrite <- fmap_app, <- Hl.
    - rewrite (wf_len c Hw), He, length_fmap, Hl, !length_app. lia. }
  destruct (spec_extract pred n s) as [items kp] eqn:Hsp. apply wp_bind. eapply wp_mono; [by apply (take_items_spec _ _ _ _ _ _ _ _ pred n Hh)|].
  intros [items' self'] (kept' & s' & gap' & Hh' & Hsp'). rewrite Hsp in Hsp'. injection Hsp' as <- ->. apply wp_bind.
  unfold wf in Hw. rewrite He in Hw. eapply wp_mono; [by apply (drop_spec _ _ _ _ _ _ _ _ l Hh' Hw)|]. intros c' Hc'. simpl in *. split; [done|].
  rewrite <- app_assoc. split; [done|]. pose proof (spec_extract_keys pred n s) as Hk. rewrite Hsp in Hk. simpl in Hk.
  rewrite Hl, !fmap_app, <- Hk, fmap_app in Hd. rewrite !fmap_app. rewrite <- !app_assoc in Hd. rewrite Permutation_app_swap_app in Hd.
  by apply distinct_app in Hd as (_ & Hd & _).
Qed.
End Proofs.

Section Example_.
Import MapTable SmallKeys.
#[local] Open Scope Z_scope.

Lemma extract_if_witness : exists c : Core Z Z, rep c [(0, 0); (1, 1); (2, 2); (3, 3); (4, 4)] /\
  wp (extract_run c (Unbounded, Excluded 4%nat) (fun k v => (Z.even k, v + 1)) 2) (fun r => r.1 = [(0, 1); (2, 3)] /\ rep r.2 [(1, 2); (3, 3); (4, 4)]).
Proof.
  destruct (small_map [(0, 0); (1, 1); (2, 2); (3, 3); (4, 4)]) as [c Hc]; [repeat constructor; set_solver|]. exists c. split; [done|].
  exact (extract_if_correct c _ (Unbounded, Excluded 4%nat) (fun k v => (Z.even k, v + 1)) 2 Hc).
Defined.
End Example_.
End Extract.
