(* ===== verification/IndexSet.v ===== *)
(** * indexmap: the set

    src/indexmap/src/set.rs and the iterators of set/iter.rs: a map to units, its
    set operations in order, and its comparisons.  Both operands have the same
    hasher. *)
From Stdlib Require Import ZArith Lia.
From stdpp Require Import base list gmap numbers option.
From S2P Require Import Prelude HashTable IndexMapCore IndexMap IndexMapSpec IndexMapRep IndexMapTheorems.
From stdpp Require Import list.
Import Inner IndexMap.

Module IndexSet.

Section Set_.
Context {HT : HashTable} {K : Type} {HK : Keys K}.

Definition IndexSet : Type := Core K unit.
Implicit Types (s other : IndexSet).

Definition iter s : list K := key <$> entries s.

Definition contains s (k : K) : option bool := contains_key s k.

Definition set_insert s (k : K) : option (bool * IndexSet) :=
  '(old, s) ← insert s k (); Some (match old with None => true | Some _ => false end, s).

Definition set_replace_full s (k : K) : option (nat * option K * IndexSet) :=
  '(i, old, s) ← core_replace_full key_eq s (key_hash k) k ();
  Some (i, match old with Some (replaced, _) => Some replaced | None => None end, s).

(** [while let Some(item) = self.iter.next()], up to the end. *)
Fixpoint filter_by (keep : K -> option bool) (l : list K) : option (list K) :=
  match l with
  | [] => Some []
  | k :: l => b ← keep k; l ← filter_by keep l; Some (if b : bool then k :: l else l)
  end.

Definition difference s other : option (list K) := filter_by (fun k => b ← contains other k; Some (negb b)) (iter s).

Definition intersection s other : option (list K) := filter_by (contains other) (iter s).

Definition union s other : option (list K) := l ← difference other s; Some (iter s ++ l).

Definition symmetric_difference s other : option (list K) :=
  l1 ← difference s other;
  l2 ← difference other s;
  Some (l1 ++ l2).

(** [collect], with the lower bound of the iterator's size. *)
Definition collect (hint : nat) (l : list K) : option IndexSet := from_iter hint ((fun k => (k, ())) <$> l).

Definition bitand s other : option IndexSet := l ← intersection s other; collect 0 l.
Definition bitor s other : option IndexSet := l ← union s other; collect (length (iter s)) l.
Definition bitxor s other : option IndexSet := l ← symmetric_difference s other; collect 0 l.
Definition set_sub s other : option IndexSet := l ← difference s other; collect 0 l.

(** [Iterator::all]. *)
Fixpoint all_of (p : K -> option bool) (l : list K) : option bool :=
  match l with
  | [] => Some true
  | k :: l => b ← p k; if b : bool then all_of p l else Some false
  end.

Definition is_disjoint s other : option bool :=
  n ← map_len s;
  n' ← map_len other;
  if (n <=? n')%nat then all_of (fun k => b ← contains other k; Some (negb b)) (iter s)
  else all_of (fun k => b ← contains s k; Some (negb b)) (iter other).

Definition is_subset s other : option bool :=
  n ← map_len s;
  n' ← map_len other;
  if (n <=? n')%nat then all_of (contains other) (iter s) else Some false.

Definition is_superset s other : option bool := is_subset other s.

Definition set_eq s other : option bool :=
  n ← map_len s;
  n' ← map_len other;
  if (n =? n')%nat then is_subset s other else Some false.
End Set_.

Section Proofs.
Context {HT : HashTable} {HL : HashTableLaws} {K : Type} {HK : Keys K} {HKL : KeysLaws K}.
Implicit Types (s t : Core K unit) (ks ls : list K).

Definition pairs ks : list (K * unit) := (fun k => (k, ())) <$> ks.

(** The set [s] has the elements [ks], in this order. *)
Definition elements s ks : Prop := rep s (pairs ks).

Definition member ks (k : K) : bool := existsb (key_eq k) ks.

Lemma pairs_keys ks : (pairs ks).*1 = ks.
Proof. unfold pairs. rewrite <- list_fmap_compose. apply list_fmap_id. Qed.

Lemma elements_iter s ks : elements s ks -> iter s = ks.
Proof. intros Hr. unfold iter. rewrite (rep_entries _ _ Hr), <- list_fmap_compose. apply pairs_keys. Qed.

Lemma elements_distinct s ks : elements s ks -> distinct ks.
Proof. intros [_ Hd]. by rewrite pairs_keys in Hd. Qed.

Lemma elements_len s ks : elements s ks -> map_len s = Some (length ks).
Proof. intros Hr. rewrite (map_len_rep _ _ Hr). unfold pairs. by rewrite length_fmap. Qed.

Lemma member_in ks k : member ks k = true <-> exists k', k' ∈ ks /\ key_eq k k' = true.
Proof. unfold member. rewrite existsb_exists. split; intros (x & Hx & Hk); exists x; (split; [by apply list_elem_of_In|done]). Qed.

Lemma contains_member s ks k : elements s ks -> contains s k = Some (member ks k).
Proof.
  intros Hr. unfold contains, contains_key. rewrite (get_index_of_rep _ _ k Hr), some_bind. cbv beta. f_equal. change (query_eq k) with (key_eq k).
  destruct (pos_located (key_eq k) (pairs ks) _ (proj2 Hr) (selects_key k)) as [a k' v z Heq Hp Hn|Hn]; symmetry.
  - apply member_in. exists k'. split; [|done]. rewrite <- (pairs_keys ks), Heq, fmap_app. apply elem_of_app. right. constructor.
  - apply not_true_iff_false. rewrite member_in. intros (k' & Hin & Hk). rewrite <- (pairs_keys ks), list_elem_of_fmap in Hin.
    destruct Hin as (kv & -> & Hkv). by rewrite (Hn kv Hkv) in Hk.
Qed.

Lemma filter_by_spec (f : K -> option bool) (g : K -> bool) ks : (forall k, f k = Some (g k)) -> filter_by f ks = Some (List.filter g ks).
Proof. intros Hf. induction ks as [|k ks IH]; [done|]. cbn [filter_by List.filter]. rewrite Hf, some_bind, IH, some_bind. by destruct (g k). Qed.

Lemma all_of_spec (f : K -> option bool) (g : K -> bool) ks : (forall k, f k = Some (g k)) -> all_of f ks = Some (forallb g ks).
Proof. intros Hf. induction ks as [|k ks IH]; [done|]. cbn [all_of forallb]. rewrite Hf, some_bind, IH. by destruct (g k). Qed.

(** Collecting distinct elements keeps them in order. *)
Lemma collect_elements hint ks : (Z.of_nat hint <= most)%Z -> distinct ks -> wp (collect hint ks) (fun s => elements s ks).
Proof. intros Hh Hd. apply from_iter_rep; [by rewrite pairs_keys|done]. Qed.

Lemma distinct_filter (g : K -> bool) ks : distinct ks -> distinct (List.filter g ks).
Proof.
  induction ks as [|k ks IH]; [done|]. intros [H1 H2]. cbn [List.filter]. destruct (g k); [|by apply IH]. split; [|by apply IH].
  intros k' Hk'. apply H1. apply list_elem_of_In, filter_In in Hk' as [Hk' _]. by apply list_elem_of_In.
Qed.

Lemma distinct_others ks ls : distinct ks -> distinct ls -> distinct (ks ++ List.filter (fun k => negb (member ks k)) ls).
Proof.
  intros Hk Hl. apply distinct_app. split_and!; [done|by apply distinct_filter|]. intros k k' Hin Hin'.
  apply list_elem_of_In, filter_In in Hin' as [_ Hn%negb_true_iff]. apply not_true_is_false. intros He.
  apply not_true_iff_false in Hn. apply Hn, member_in. exists k. split; [done|]. by rewrite key_eq_sym.
Qed.

Lemma member_sub (g : K -> bool) ks k : member (List.filter g ks) k = true -> member ks k = true.
Proof.
  rewrite !member_in. intros (k' & Hin & Hk). exists k'. split; [|done]. apply list_elem_of_In, filter_In in Hin as [Hin _]. by apply list_elem_of_In.
Qed.

Lemma distinct_both ks ls : distinct ks -> distinct ls ->
  distinct (List.filter (fun k => negb (member ls k)) ks ++ List.filter (fun k => negb (member ks k)) ls).
Proof.
  intros Hk Hl. apply distinct_app. split_and!; [by apply distinct_filter..|]. intros k k' Hin Hin'.
  apply list_elem_of_In, filter_In in Hin as [Hin _]. apply list_elem_of_In, filter_In in Hin' as [_ Hn%negb_true_iff].
  apply not_true_is_false. intros He. apply not_true_iff_false in Hn. apply Hn, member_in. exists k. split; [by apply list_elem_of_In|]. by rewrite key_eq_sym.
Qed.

Lemma difference_spec s t ks ls : elements s ks -> elements t ls -> difference s t = Some (List.filter (fun k => negb (member ls k)) ks).
Proof. intros Hs Ht. unfold difference. rewrite (elements_iter s ks Hs). apply filter_by_spec. intros k. by rewrite (contains_member t ls k Ht). Qed.

(** Distinct elements that are all in a list are not more than its own. *)
Lemma members_length ks ls : distinct ks -> forallb (member ls) ks = true -> (length ks <= length ls)%nat.
Proof.
  revert ls. induction ks as [|k ks IH]; intros ls Hd Hall; [simpl; lia|]. cbn [forallb] in Hall. apply andb_true_iff in Hall as [Hk Hall].
  destruct Hd as [Hn Hd]. apply member_in in Hk as (k' & Hin & Hk). apply list_elem_of_split in Hin as (a & z & ->).
  assert (Hle : (length ks <= length (a ++ z))%nat).
  { apply IH; [done|]. apply forallb_forall. intros x Hx. rewrite forallb_forall in Hall. specialize (Hall x Hx). apply member_in in Hall as (y & Hy & Hxy).
    apply member_in. exists y. split; [|done]. rewrite elem_of_app, elem_of_cons in Hy. rewrite elem_of_app. destruct Hy as [?|[->|?]]; [by left| |by right].
    exfalso. apply list_elem_of_In in Hx. pose proof (Hn x Hx) as Hf. rewrite key_eq_sym in Hxy. rewrite (key_eq_trans k k' x Hk) in Hf. congruence. }
  rewrite length_app in *. simpl. lia.
Qed.

Lemma members_full ks ls : distinct ks -> forallb (member ls) ks = true -> length ks = length ls -> forallb (member ks) ls = true.
Proof.
  intros Hd Hall Hlen. apply forallb_forall. intros x Hx%list_elem_of_In. destruct (member ks x) eqn:E; [done|]. exfalso.
  apply list_elem_of_split in Hx as (a & z & ->). rewrite length_app in Hlen. simpl in Hlen.
  assert (Hle : (length ks <= length (a ++ z))%nat); [|rewrite length_app in Hle; lia].
  apply members_length; [done|]. apply forallb_forall. intros k Hk. rewrite forallb_forall in Hall. pose proof (Hall k Hk) as Hm.
  apply member_in in Hm as (y & Hy & Hky). apply member_in. exists y. split; [|done]. rewrite elem_of_app, elem_of_cons in Hy. rewrite elem_of_app.
  destruct Hy as [?|[->|?]]; [by left| |by right]. exfalso. apply not_true_iff_false in E. apply E, member_in. exists k.
  split; [by apply list_elem_of_In|]. by rewrite key_eq_sym.
Qed.

(** One element: inserted at the end when it is new; replaced in its place. *)
Lemma pos_pairs ks k : match pos (key_eq k) (pairs ks) with
  | Some i => exists a k' z, ks = a ++ k' :: z /\ i = length a /\ key_eq k k' = true
  | None => member ks k = false
  end.
Proof.
  induction ks as [|k' ks IH]; [done|]. unfold pos in *. change (pairs (k' :: ks)) with ((k', ()) :: pairs ks). cbn [position].
  change (k', ()).1 with k'. destruct (key_eq k k') eqn:E; [by exists [], k', ks|]. destruct (position _ (pairs ks)) as [i|]; simpl.
  - destruct IH as (a & k0 & z & -> & -> & Hk). by exists (k' :: a), k0, z.
  - unfold member in *. simpl. by rewrite E.
Qed.

Lemma set_insert_spec s ks k : elements s ks ->
  wp (set_insert s k) (fun r => r.1 = negb (member ks k) /\ elements r.2 (if member ks k then ks else ks ++ [k])).
Proof.
  intros Hs. unfold set_insert, insert. apply wp_bind, wp_bind. eapply wp_mono; [by apply (insert_full_rep s (pairs ks) k ())|].
  intros [[i old] s'] [Ho Hr]. simpl in *. unfold spec_insert in *. pose proof (pos_pairs ks k) as Hp. destruct (pos (key_eq k) (pairs ks)) as [j|].
  - destruct Hp as (a & k' & z & -> & -> & Hk). assert (Hm : member (a ++ k' :: z) k = true).
    { apply member_in. exists k'. split; [apply elem_of_app; right; constructor|done]. }
    rewrite Hm. unfold pairs in Ho, Hr. rewrite fmap_app, fmap_cons in Ho, Hr. rewrite <- (length_fmap (fun k => (k, ()))) in Ho, Hr. rewrite set_value_middle in Hr.
    rewrite lookup_here in Ho. injection Ho as _ ->. split; [done|]. unfold elements, pairs. by rewrite fmap_app.
  - rewrite Hp. simpl in *. injection Ho as _ ->. split; [done|]. unfold elements, pairs. by rewrite fmap_app.
Qed.

(** C17: The set operations give the elements that they name, in the order of
    the left operand and then of the right, and collecting them gives a set with
    these elements in this order; nothing panics, whatever the hashes.  A
    collected union asks for the room of the left operand first, which can be
    allocated when that is at most [most]. *)
Theorem index_set_operations s t ks ls : elements s ks -> elements t ls ->
  let others a b := List.filter (fun k => negb (member a k)) b in
  difference s t = Some (others ls ks) /\
  intersection s t = Some (List.filter (member ls) ks) /\
  union s t = Some (ks ++ others ks ls) /\
  symmetric_difference s t = Some (others ls ks ++ others ks ls) /\
  wp (set_sub s t) (fun r => elements r (others ls ks)) /\
  wp (bitand s t) (fun r => elements r (List.filter (member ls) ks)) /\
  ((Z.of_nat (length ks) <= most)%Z -> wp (bitor s t) (fun r => elements r (ks ++ others ks ls))) /\
  wp (bitxor s t) (fun r => elements r (others ls ks ++ others ks ls)).
Proof.
  intros Hs Ht. cbv zeta. pose proof (elements_distinct s ks Hs) as Hk. pose proof (elements_distinct t ls Ht) as Hl.
  assert (Hi : intersection s t = Some (List.filter (member ls) ks)).
  { unfold intersection. rewrite (elements_iter s ks Hs). apply filter_by_spec. intros k. by apply contains_member. }
  unfold set_sub, bitand, bitor, bitxor, union, symmetric_difference.
  rewrite Hi, (difference_spec s t ks ls Hs Ht), (difference_spec t s ls ks Ht Hs), (elements_iter s ks Hs). cbn [mbind option_bind].
  pose proof (proj1 most_entries) as H0.
  split_and!; [done..| | |intros Hn|]; (apply collect_elements; [by rewrite ?length_fmap|]);
    [by apply distinct_filter|by apply distinct_filter|by apply distinct_others|by apply distinct_both].
Qed.

(** A set is a subset of another exactly when all its elements are in it,
    disjoint when none is, and equal when each is a subset of the other: the
    shortcuts on lengths never change the answer, and order does not matter. *)
Theorem index_set_comparisons s t ks ls : elements s ks -> elements t ls ->
  is_subset s t = Some (forallb (member ls) ks) /\
  is_superset s t = Some (forallb (member ks) ls) /\
  is_disjoint s t = Some (forallb (fun k => negb (member ls k)) ks) /\
  set_eq s t = Some (forallb (member ls) ks && forallb (member ks) ls).
Proof.
  assert (Hsub : forall s t ks ls, elements s ks -> elements t ls -> is_subset s t = Some (forallb (member ls) ks)).
  { clear s t ks ls. intros s t ks ls Hs Ht. unfold is_subset. rewrite (elements_len s ks Hs), some_bind, (elements_len t ls Ht), some_bind, (elements_iter s ks Hs). cbv beta.
    destruct (Nat.leb_spec (length ks) (length ls)) as [Hle|Hgt]; [apply all_of_spec; intros k; by apply contains_member|]. f_equal. symmetry.
    apply not_true_is_false. intros Hall. apply members_length in Hall; [lia|]. by apply (elements_distinct s). }
  assert (Hdis : forall s t ks ls, elements s ks -> elements t ls -> all_of (fun k => b ← contains t k; Some (negb b)) (iter s) = Some (forallb (fun k => negb (member ls k)) ks)).
  { clear s t ks ls. intros s t ks ls Hs Ht. rewrite (elements_iter s ks Hs). apply all_of_spec. intros k. by rewrite (contains_member t ls k Ht). }
  intros Hs Ht. split_and!; [by apply Hsub|by apply Hsub| |].
  - unfold is_disjoint. rewrite (elements_len s ks Hs), some_bind, (elements_len t ls Ht), some_bind, (Hdis s t ks ls Hs Ht), (Hdis t s ls ks Ht Hs).
    destruct (length ks <=? length ls)%nat; [done|]. f_equal. apply eq_true_iff_eq. rewrite !forallb_forall.
    split; intros Hn x Hx; apply negb_true_iff, not_true_is_false; rewrite member_in; intros (y & Hy & Hxy); rewrite key_eq_sym in Hxy;
      apply list_elem_of_In, Hn, negb_true_iff, not_true_iff_false in Hy; apply Hy, member_in; exists x; (split; [by apply list_elem_of_In|done]).
  - unfold set_eq. rewrite (elements_len s ks Hs), some_bind, (elements_len t ls Ht), some_bind, (Hsub s t ks ls Hs Ht). cbv beta.
    destruct (Nat.eqb_spec (length ks) (length ls)) as [Hlen|Hlen].
    + f_equal. destruct (forallb (member ls) ks) eqn:E; [|done]. simpl. symmetry.
      apply members_full; [by apply (elements_distinct s)|done|done].
    + f_equal. symmetry. apply not_true_is_false. intros [H1 H2]%andb_true_iff.
      apply members_length in H1; [|by apply (elements_distinct s)]. apply members_length in H2; [|by apply (elements_distinct t)]. lia.
Qed.
End Proofs.

Section Example_.
Import MapTable SmallKeys.
#[local] Open Scope Z_scope.

Lemma index_set_operations_witness : exists s t : Core Z unit, elements s [1; 5; 2] /\ elements t [5; 9] /\
  union s t = Some [1; 5; 2; 9] /\ wp (bitxor s t) (fun r => elements r [1; 2; 9]).
Proof.
  assert (H1 : distinct ([1; 5; 2] : list Z)) by (apply small_distinct; repeat constructor; set_solver).
  assert (H2 : distinct ([5; 9] : list Z)) by (apply small_distinct; repeat constructor; set_solver).
  pose proof (collect_elements 0 _ (proj1 most_entries) H1) as Hs. apply wp_elim in Hs as (s & _ & Hs).
  pose proof (collect_elements 0 _ (proj1 most_entries) H2) as Ht. apply wp_elim in Ht as (t & _ & Ht).
  exists s, t. destruct (index_set_operations s t _ _ Hs Ht) as (_ & _ & Hu & _ & _ & _ & _ & Hx). done.
Defined.
End Example_.
End IndexSet.
